(* ===== verification/_CoqProject ===== *)
-Q . S2P
Prelude.v
Crc.v
Sha256.v
Stream.v
StreamLog.v
StreamOps.v
StreamSpec.v
StreamRetain.v
StreamEvents.v
StreamMem.v
StreamCodec.v
StreamCompact.v
StreamDisk.v
StreamFlight.v
StreamSteps.v
StreamCommits.v
StreamRecovery.v
StreamTheorems.v
Topic.v
Json.v
Base64.v
JsonTheorems.v
Lifecycle.v
Cache.v
CacheSlab.v
CacheTable.v
CacheMap.v
CacheRun.v
CacheAccount.v
CacheTheorems.v
CachePlain.v
CacheLog.v
CacheLogSpec.v
CacheLogRun.v
CacheRecovery.v
CacheLogTheorems.v
Queue.v
QueueIndex.v
WalRecord.v
QueueStore.v
QueueReplay.v
Exchange.v
QueueTx.v
ExchangeReplay.v
QueueBatch.v
QueueCommit.v
QueueOps.v
HeldLocks.v
ExchangeOps.v
TxOps.v
QueueRun.v
QueueSpec.v
QueueRecovery.v
QueueOpen.v
Atomic.v
JobEngine.v
Checkpoint.v
JobCompletion.v
JobTable.v
JobSpec.v
JobComplete.v
JobQueues.v
JobRecords.v
CheckpointReplay.v
Snapshot.v
JobRecovery.v
JobRun.v
JobOnce.v
JobTheorems.v
TxReconcile.v
CheckpointTheorems.v
AtomicRun.v
AtomicTheorems.v
QueueTheorems.v
