(* ===== verification/Prelude.v ===== *)
(** * KuttiDB: a verification development

    KuttiDB is a cache and message broker in C.  One process holds an
    in-memory key-value cache, a store of durable queues with exchanges that
    route to them, append-only streams, durable job state, a network server
    with a binary protocol, and a management interface over HTTP.  What must
    survive a restart is written to logs: one for queues and jobs, one (with
    snapshots) for the cache, one for the streams.  A transaction spans the
    logs of the queues and of the cache.

    ** Parts and files

    - Words, codecs, lists: this file ([u32], [put32], [get64], ...), the
      little-endian codecs of queue.c and the generic lemmas of the library.
    - CRC-32 (queue.c: crc32; stream.c and server.c have their own): Crc.v.
      SHA-256 and the digest of a job request (job_state.c): Sha256.v.
    - Topic patterns (queue.c: topic_matches): Topic.v.
    - JSON, UTF-8 and Base64 of the management interface (admin_json.c):
      Json.v has the code, Base64.v and JsonTheorems.v (Module JsonPrint)
      its lemmas, JsonTheorems.v the theorems.
    - Managed lifecycle (managed_lifecycle.c): Lifecycle.v.
    - The cache (kuttidb.c, kuttidb_int.h): Cache.v has the code: shards,
      bucket chains, slabs, expiry, eviction, scans, at the granularity of
      the sections under a shard lock.  CacheSlab.v and CacheTable.v hold the
      invariants of one shard and the arithmetic, CacheMap.v the cache as a
      finite map, CacheRun.v sweeps and interleavings of sections,
      CacheAccount.v scans and accounting, CachePlain.v the case of enough
      memory, CacheTheorems.v the theorems.
    - The cache log and snapshots (server.c: wal_*, persist_*, replay_wal,
      load_snapshot, do_snapshot): CacheLog.v has the code (Modules CacheLog
      and CacheSnap); CacheLogSpec.v reads the bytes as map operations;
      CacheLogRun.v and CacheRecovery.v carry the recovery invariant through
      the operations and the steps of a snapshot; CacheLogTheorems.v has the
      theorems.
    - Streams (stream.c): Stream.v has topics, partitions, groups and
      retention, StreamLog.v the log, its replay and compaction, StreamOps.v
      the API.  StreamSpec.v, StreamRetain.v, StreamEvents.v and StreamMem.v
      describe what the operations do in memory, StreamCodec.v, StreamDisk.v
      and StreamCompact.v what they write, StreamFlight.v, StreamSteps.v and
      StreamCommits.v the crash invariant of every operation, StreamRecovery.v
      runs with crashes and restarts, StreamTheorems.v the theorems.
    - Queues (queue.c): Queue.v is one queue under its lock (message list,
      counters, delivery-tag index), QueueIndex.v the index; WalRecord.v the
      log records, QueueReplay.v their replay; QueueStore.v the store and its
      operations, QueueBatch.v batches, consumers and browsing.
    - Exchanges (the functions exchange_... of queue.c): Exchange.v has the
      code and the changes (Module XChange), ExchangeReplay.v and
      ExchangeOps.v the records and the operations.
    - Transactions (queue.c: queue_tx_...): QueueTx.v; their replay is
      Module TxReplay of ExchangeReplay.v, their operations TxOps.v.
    - Recovery of the queue store: QueueCommit.v describes what operations do
      as commits (a change together with its log record) and the invariants;
      QueueOps.v, HeldLocks.v, ExchangeOps.v and TxOps.v show that every
      operation is a sequence of commits; QueueRecovery.v and QueueOpen.v
      that replaying the log of such a sequence rebuilds the durable state;
      QueueRun.v has runs of arbitrary calls; QueueSpec.v what single
      operations do; QueueTheorems.v the theorems (XTheorems: exchanges).
    - Atomic operations (server.c: atomic_execute, reconcile_transactions):
      Atomic.v has the code over both logs, TxReconcile.v and AtomicRun.v the
      invariant over the points a process can die at, AtomicTheorems.v the
      theorem.
    - Durable jobs: JobEngine.v is job_state.c, JobCompletion.v is
      job_completion.c with queue_job_commit of queue.c.  JobTable.v has the
      hash tables, JobSpec.v, JobComplete.v and JobQueues.v what puts,
      deletes and completions do, JobRecords.v and JobRecovery.v their
      records and replay, JobRun.v runs and their invariant, JobOnce.v that a
      consumed message stays consumed, JobTheorems.v the theorems.
    - The checkpoint of the queue log (queue.c: queue_checkpoint_body, and
      the hooks of job_state.c): Checkpoint.v has the code and shows that the
      writer is transparent; the class [EmitsRecords] is what it expects of
      the job engine.  CheckpointReplay.v replays the records, Snapshot.v has
      the shape of reachable stores that lets them be replayed,
      CheckpointTheorems.v the theorems.

    ** How the code is modelled

    A C function is a function that takes the state and returns the result
    and the state, every branch and early return included.  Linked lists are
    lists in their C order; a pointer to a queue is the queue's [lock_id], a
    pointer into a message list is a position.  Machine integers are [Z] with
    the reductions of their width written out; in-memory counters that count
    allocated objects are not reduced.  Outcomes the program does not decide
    (allocation, I/O, try-locks) are lists in the state, drawn in program
    order, with success once the list is empty; readings of a clock and
    random bytes are arguments.  A call on the queue store, the stream store
    or the job engine runs to completion; the cache and the snapshots
    interleave at the sections the code locks, and an atomic operation may
    die between any two of its steps.

    Where the model is coarser than the code: several allocations that fail
    alike are one outcome ([create_queue], [reserve_tx], [apply_tx_prepare]);
    [append_record] has no staging buffer, so a record whose flush fails is
    not in the log, where the code may leave it staged, and the flush at the
    start of [queue_checkpoint_body] is an outcome also when nothing is
    staged; replay reads a file as a sequence of bytes, and errors of lseek,
    read and ftruncate are not outcomes; a rename is atomic, and the name
    refers to the new file from then on, whether or not the directory is
    synced ([stream_compact_locked], [do_snapshot]); a snapshot of the cache
    whose file cannot be written ends there.

    ** What the theorems show

    - Recovery: after a run of calls the log opens and gives back every
      durable queue, message, consumer and exchange, and every state entry
      and receipt of the jobs; after a crash the file is cut behind its last
      complete record and nothing intact is dropped; an acknowledged durable
      publication, stream record or job is there.  The cache after a crash
      is, key by key, what a prefix of the history with every promised
      operation leaves.  A checkpoint publishes all of the live state or
      nothing, and, without the job feature and without messages in transient
      queues, its file opens to the state it was taken from.
    - The runs these theorems speak of: for the queue store, single calls
      with any arguments and any outcomes of I/O and try-locks
      ([QueueRun.Run.covered]), and the same with job calls
      ([JobRun.JobRun.jstep]); not batch calls, not checkpoints, not failing
      allocations, not a durable queue with a transient dead-letter queue,
      not more than 1,023 bindings at an exchange, not a transaction that
      overfills a queue.  For the streams, all calls, crashes and restarts,
      without failing allocations.  For the cache log, one writer, a cache
      without budget, unconditional transactions, and no failing allocation,
      up to the first failure of the log.  The theorems on the cache in
      memory and on checkpoint publication have every allocation fail or not.
      The torn record a crash leaves at the end of a queue log must not hold
      an intact record inside ([crash_tail]); such a file is refused.
    - Atomicity: an atomic operation takes effect in both logs or in neither;
      a completion consumes its input, writes its state, its receipt and its
      output together, once; a fan-out reaches all targets or none.
    - Invariants and refinement: reachable stores, caches and streams are
      well formed; the cache behaves as a map with expiry under any
      interleaving of its locked sections; slots never overlap; memory
      counters and scans are exact; the tag index agrees with a search.
    - Behaviour: first-in first-out delivery, settling exactly once,
      dead-lettering moves a message, compare-and-swap over time, pages of
      streams without gaps, the sharing of partitions in a group, route
      resolution, the topic relation, stopping only when idle.
    - Codecs: CRC-32 equals its bitwise definition and detects bursts,
      SHA-256 does not depend on the pieces it is fed; the texts of JSON are
      accepted and read, UTF-8 is recognised exactly, Base64 round trips.
    - Termination: opening a log, scanning pages.
    - Theorems of kind error: runs in which the code does not do what it
      means to; the manifest lists them as findings.

    ** Bounds and fuel

    Fuel appears where the C loop is not structural on the model's data:
    [replay_log] and [replay_wal] take the number of bytes plus one (each
    round consumes a byte or more), the JSON scanner the length of the text,
    reaping and consuming walks the number of messages.  Theorems show that
    the fuel suffices ([open_terminates], [json_texts_read_back]) or the
    callers pass a structural bound.  Identities stay below 2^64 by hypothesis
    ([fits 64 (st_next_id s)]): the source never checks for wrap-around.
    Runs of jobs do not use an operation id again once its receipt has been
    collected ([jcall_ok]): the code lets them, and such a log does not open.

    ** Not modelled

    - Threads inside a call of the queue store, the stream store or the job
      engine: a call is one step.
    - queue.c: statistics and single-message snapshots, the staging buffer
      of the log (records reach the file in the order of [append_record])
      and the preallocation of the file.
    - server.c: the stampede protection, the binary protocol, the event loop.
      The HTTP adapter (admin_http.c) apart from its JSON, the embedded cache
      in shared memory (embed.c, embed_kuttidb.c), whose mutexes survive the
      death of a process, and the C client (kuttidb_client.c).
    - Sockets, TLS, signal handling, command lines, telemetry export,
      platform wrappers, instance locks and process launching: calls of the
      operating system with little state of their own.
    - Clients in other languages, the management user interface, packaging,
      benchmarks and tests. *)

From stdpp Require Import base numbers option list.
From Stdlib Require Import Btauto.

#[global] Open Scope Z_scope.

(** ** Machine words

    A C unsigned integer of width [w] is a [Z] reduced modulo [2^w]; every
    arithmetic operation of the source that can leave the range is written
    with the reduction of its type. *)

Definition u8 (x : Z) : Z := x mod 2 ^ 8.
Definition u16 (x : Z) : Z := x mod 2 ^ 16.
Definition u32 (x : Z) : Z := x mod 2 ^ 32.
Definition u64 (x : Z) : Z := x mod 2 ^ 64.

(** [x] fits in [w] bits. *)
Definition fits (w x : Z) : Prop := 0 <= x < 2 ^ w.

(** Byte buffers are lists of [Z]; [bytes_ok] says each is an octet. *)
Abbreviation bytes := (list Z).
Definition is_byte (b : Z) : Prop := 0 <= b < 256.
Definition bytes_ok (p : bytes) : Prop := Forall is_byte p.

Definition bytes_okb (p : bytes) : bool :=
  forallb (fun b => (0 <=? b) && (b <? 256)) p.

(** Length of a list as a C size. *)
Definition zlen {A} (l : list A) : Z := Z.of_nat (length l).

(** The [i]-th byte of a buffer; readers only use it within bounds. *)
Definition byte_at (p : bytes) (i : nat) : Z := nth i p 0.

(** ** Little-endian codecs: put32/get32/put64/get64 of queue.c *)

Definition put16 (v : Z) : bytes :=
  [u8 v; u8 (Z.shiftr v 8)].
Definition get16 (p : bytes) : Z :=
  Z.lor (byte_at p 0) (Z.shiftl (byte_at p 1) 8).

Definition put32 (v : Z) : bytes :=
  [u8 v; u8 (Z.shiftr v 8); u8 (Z.shiftr v 16); u8 (Z.shiftr v 24)].
Definition get32 (p : bytes) : Z :=
  Z.lor (Z.lor (Z.lor (byte_at p 0) (Z.shiftl (byte_at p 1) 8))
    (Z.shiftl (byte_at p 2) 16)) (Z.shiftl (byte_at p 3) 24).

Definition put64 (v : Z) : bytes :=
  map (fun i => u8 (Z.shiftr v (Z.of_nat i * 8))) (seq 0 8).
Definition get64 (p : bytes) : Z :=
  fold_left (fun value i => Z.lor value (Z.shiftl (byte_at p i) (Z.of_nat i * 8)))
    (seq 0 8) 0.

(** [len == l && !memcmp]: equality of names. *)
Definition name_eqb (a b : bytes) : bool := bool_decide (a = b).

(** The next of a list of outcomes of system calls or allocations; the ones
    behind its end succeed. *)
Definition draw (l : list bool) : bool * list bool :=
  match l with
  | [] => (true, [])
  | b :: r => (b, r)
  end.

(** ** Automation *)

Create Rewrite HintDb word.
Create HintDb kutti.

(** Solve a goal on bits: both sides are compared bit by bit. *)
Ltac bitblast :=
  apply Z.bits_inj'; let n := fresh "n" in let Hn := fresh "Hn" in intros n Hn;
  repeat (rewrite ?Z.lxor_spec, ?Z.lor_spec, ?Z.land_spec, ?Z.shiftr_spec,
    ?Z.testbit_0_l by lia); try btauto.

(** Case analysis on every boolean test and match in the goal or a
    hypothesis, turning the tests into propositions. *)
Ltac reflect_tests :=
  repeat match goal with
  | H : (_ && _)%bool = true |- _ => apply andb_prop in H; destruct H
  | H : (_ || _)%bool = false |- _ => apply orb_false_elim in H; destruct H
  | H : negb _ = true |- _ => apply negb_true_iff in H
  | H : negb _ = false |- _ => apply negb_false_iff in H
  | H : Z.ltb _ _ = true |- _ => apply Z.ltb_lt in H
  | H : Z.ltb _ _ = false |- _ => apply Z.ltb_ge in H
  | H : Z.leb _ _ = true |- _ => apply Z.leb_le in H
  | H : Z.leb _ _ = false |- _ => apply Z.leb_gt in H
  | H : Z.eqb _ _ = true |- _ => apply Z.eqb_eq in H
  | H : Z.eqb _ _ = false |- _ => apply Z.eqb_neq in H
  end.

(** Case analysis on the first match of the goal. *)
Ltac gcase :=
  match goal with
  | |- context [match ?x with _ => _ end] => destruct x eqn:?
  end.

Ltac cases := repeat gcase; reflect_tests; simplify_eq/=.

(** Rewrite with every equation on an application found in the goal. *)
Ltac rew_all :=
  repeat match goal with
  | H : ?f ?x = _ |- context [?f ?x] => rewrite H
  end.

(** ** Words *)

Lemma u64_idem x : u64 (u64 x) = u64 x.
Proof. apply Zmod_mod. Qed.

Lemma u32_idem x : u32 (u32 x) = u32 x.
Proof. apply Zmod_mod. Qed.

Lemma u64_add_l x y : u64 (u64 x + y) = u64 (x + y).
Proof. apply Zplus_mod_idemp_l. Qed.

Lemma u64_sub_l x y : u64 (u64 x - y) = u64 (x - y).
Proof. apply Zminus_mod_idemp_l. Qed.

Lemma u64_add_r x y : u64 (x + u64 y) = u64 (x + y).
Proof. apply Zplus_mod_idemp_r. Qed.

Lemma u64_sub_r x y : u64 (x - u64 y) = u64 (x - y).
Proof. apply Zminus_mod_idemp_r. Qed.

Lemma u32_add_l x y : u32 (u32 x + y) = u32 (x + y).
Proof. apply Zplus_mod_idemp_l. Qed.

Lemma u32_sub_l x y : u32 (u32 x - y) = u32 (x - y).
Proof. apply Zminus_mod_idemp_l. Qed.

Lemma u32_u64 x : u32 (u64 x) = u32 x.
Proof. apply Z.mod_mod_divide. exists (2 ^ 32). reflexivity. Qed.

Lemma u64_small x : fits 64 x -> u64 x = x.
Proof. intros; apply Z.mod_small; assumption. Qed.

Lemma u32_small x : fits 32 x -> u32 x = x.
Proof. intros; apply Z.mod_small; assumption. Qed.

Lemma u16_small x : fits 16 x -> u16 x = x.
Proof. intros; apply Z.mod_small; assumption. Qed.

Lemma u8_small x : is_byte x -> u8 x = x.
Proof. intros; apply Z.mod_small; assumption. Qed.

Lemma u8_byte x : is_byte (u8 x).
Proof. apply Z.mod_pos_bound; lia. Qed.

Lemma u64_fits x : fits 64 (u64 x).
Proof. apply Z.mod_pos_bound; lia. Qed.

Lemma u32_fits x : fits 32 (u32 x).
Proof. apply Z.mod_pos_bound; lia. Qed.

#[export] Hint Rewrite u64_idem u32_idem u64_add_l u64_sub_l u64_add_r u64_sub_r
  u32_add_l u32_sub_l : word.
#[export] Hint Resolve u8_byte u64_fits u32_fits : kutti.

Lemma bytes_okb_sound p : bytes_okb p = true -> bytes_ok p.
Proof.
  unfold bytes_okb, bytes_ok. rewrite forallb_forall, List.Forall_forall.
  intros H b Hb. specialize (H b Hb). unfold is_byte. lia.
Qed.

(** Discharges [bytes_ok] of a concrete buffer. *)
Ltac bytes_tac := apply bytes_okb_sound; vm_compute; reflexivity.

Lemma name_eqb_eq a b : name_eqb a b = true <-> a = b.
Proof. unfold name_eqb. apply bool_decide_eq_true. Qed.

Lemma zlen_app {A} (l k : list A) : zlen (l ++ k) = zlen l + zlen k.
Proof. unfold zlen. rewrite length_app. lia. Qed.

Lemma zlen_cons {A} (x : A) l : zlen (x :: l) = 1 + zlen l.
Proof. unfold zlen. simpl. lia. Qed.

Lemma zlen_nil {A} : zlen (@nil A) = 0.
Proof. reflexivity. Qed.

Lemma zlen_nonneg {A} (l : list A) : 0 <= zlen l.
Proof. unfold zlen. lia. Qed.

Lemma zlen_zero {A} (l : list A) : zlen l = 0 -> l = [].
Proof. destruct l; [done|]. rewrite zlen_cons. pose proof (zlen_nonneg l). lia. Qed.

#[export] Hint Rewrite @zlen_app @zlen_cons @zlen_nil : word.
#[export] Hint Resolve zlen_nonneg : kutti.

(** ** Bits and bytes *)

Lemma testbit_high w x n : fits w x -> 0 <= w <= n -> Z.testbit x n = false.
Proof.
  intros [H0 H1] Hn.
  destruct (Z.eq_dec x 0) as [->|]; [apply Z.testbit_0_l|].
  apply Z.bits_above_log2; [lia|].
  assert (Z.log2 x < w) by (apply Z.log2_lt_pow2; lia). lia.
Qed.

Lemma land_le_r a b : 0 <= b -> 0 <= Z.land a b <= b.
Proof.
  intros H. apply Z.ldiff_le; [done|]. apply Z.bits_inj'; intros n Hn.
  rewrite Z.ldiff_spec, Z.land_spec, Z.testbit_0_l. btauto.
Qed.

Lemma testbit_u8 x n : 0 <= n -> Z.testbit (u8 x) n = (n <? 8) && Z.testbit x n.
Proof.
  intros. unfold u8. destruct (Z.ltb_spec n 8); simpl.
  - apply Z.mod_pow2_bits_low; lia.
  - apply Z.mod_pow2_bits_high; lia.
Qed.

Lemma testbit_put v k n : 0 <= n -> 0 <= k ->
  Z.testbit (Z.shiftl (u8 (Z.shiftr v k)) k) n
  = (k <=? n) && (n <? k + 8) && Z.testbit v n.
Proof.
  intros Hn Hk. rewrite Z.shiftl_spec by lia.
  destruct (Z.leb_spec k n); simpl; [|apply Z.testbit_neg_r; lia].
  rewrite testbit_u8, Z.shiftr_spec by lia.
  replace (n - k <? 8) with (n <? k + 8) by (apply Bool.eq_iff_eq_true; lia).
  by replace (n - k + k) with n by lia.
Qed.

Lemma testbit_mod v w n : 0 <= w -> 0 <= n ->
  Z.testbit (v mod 2 ^ w) n = (n <? w) && Z.testbit v n.
Proof.
  intros. destruct (Z.ltb_spec n w); simpl;
    [apply Z.mod_pow2_bits_low|apply Z.mod_pow2_bits_high]; lia.
Qed.

(** Decides the boolean identities left by the codecs: ranges of bit
    positions in front of a bit of the encoded word. *)
Ltac bit_ranges b :=
  destruct b; rewrite ?andb_false_r, ?andb_true_r, ?orb_false_r; try reflexivity;
  apply Bool.eq_iff_eq_true;
  rewrite ?orb_true_iff, ?andb_true_iff, ?Z.leb_le, ?Z.ltb_lt; lia.

Lemma get16_put16 v r : get16 (put16 v ++ r) = u16 v.
Proof.
  apply Z.bits_inj'; intros n Hn. unfold get16, put16, byte_at. cbn [app nth].
  rewrite Z.lor_spec, testbit_put, testbit_u8 by lia.
  unfold u16; rewrite testbit_mod by lia. bit_ranges (Z.testbit v n).
Qed.

Lemma get32_put32 v r : get32 (put32 v ++ r) = u32 v.
Proof.
  apply Z.bits_inj'; intros n Hn. unfold get32, put32, byte_at. cbn [app nth].
  rewrite !Z.lor_spec, !testbit_put, testbit_u8 by lia.
  unfold u32; rewrite testbit_mod by lia. bit_ranges (Z.testbit v n).
Qed.

Lemma get64_put64 v r : get64 (put64 v ++ r) = u64 v.
Proof.
  apply Z.bits_inj'; intros n Hn.
  unfold get64, put64, byte_at. cbn [app nth seq map fold_left].
  rewrite !Z.lor_spec, !testbit_put, Z.testbit_0_l by lia.
  unfold u64; rewrite testbit_mod by lia. bit_ranges (Z.testbit v n).
Qed.

Lemma length_put16 v : length (put16 v) = 2%nat.
Proof. reflexivity. Qed.
Lemma length_put32 v : length (put32 v) = 4%nat.
Proof. reflexivity. Qed.
Lemma length_put64 v : length (put64 v) = 8%nat.
Proof. reflexivity. Qed.

Lemma put16_bytes v : bytes_ok (put16 v).
Proof. repeat constructor; apply u8_byte. Qed.
Lemma put32_bytes v : bytes_ok (put32 v).
Proof. repeat constructor; apply u8_byte. Qed.
Lemma put64_bytes v : bytes_ok (put64 v).
Proof. repeat constructor; apply u8_byte. Qed.

#[export] Hint Rewrite get16_put16 get32_put32 get64_put64
  length_put16 length_put32 length_put64 : word.
#[export] Hint Resolve put16_bytes put32_bytes put64_bytes : kutti.

(** ** Sums over lists, the counters of a list *)

Fixpoint zsum {A} (f : A -> Z) (l : list A) : Z :=
  match l with
  | [] => 0
  | x :: r => f x + zsum f r
  end.

(** Number of elements that satisfy a test. *)
Definition cnt {A} (p : A -> bool) (l : list A) : Z := zsum (fun x => Z.b2z (p x)) l.

#[global] Arguments cnt : simpl never.
#[global] Arguments zlen : simpl never.
#[global] Arguments u64 : simpl never.
#[global] Arguments u32 : simpl never.
#[global] Arguments put32 : simpl never.
#[global] Arguments put64 : simpl never.

Section Sums.
Context {A : Type}.
Implicit Types (f : A -> Z) (p : A -> bool) (l : list A).

Lemma zsum_app f l k : zsum f (l ++ k) = zsum f l + zsum f k.
Proof. induction l; simpl; lia. Qed.

Lemma zsum_delete f l i x : l !! i = Some x -> zsum f (delete i l) = zsum f l - f x.
Proof.
  revert i. induction l as [|y l IH]; intros [|i] H; simplify_eq/=; [lia|].
  rewrite (IH i H). lia.
Qed.

Lemma zsum_alter f g l i x :
  l !! i = Some x -> zsum f (alter g i l) = zsum f l - f x + f (g x).
Proof.
  revert i. induction l as [|y l IH]; intros [|i] H; simplify_eq/=; [lia|].
  rewrite (IH i H). lia.
Qed.

Lemma zsum_ext f f' l : (forall x, x ∈ l -> f x = f' x) -> zsum f l = zsum f' l.
Proof.
  induction l as [|y l IH]; simpl; intros H; [done|].
  rewrite (H y), IH; [done| |by left]. intros; apply H; by right.
Qed.

Lemma zsum_nonneg f l : (forall x, x ∈ l -> 0 <= f x) -> 0 <= zsum f l.
Proof.
  induction l as [|y l IH]; simpl; intros H; [lia|].
  pose proof (H y ltac:(by left)). pose proof (IH ltac:(intros; apply H; by right)). lia.
Qed.

Lemma cnt_nonneg p l : 0 <= cnt p l.
Proof. apply zsum_nonneg. intros x _. destruct (p x); simpl; lia. Qed.

Lemma cnt_app p l k : cnt p (l ++ k) = cnt p l + cnt p k.
Proof. apply zsum_app. Qed.

Lemma cnt_one p x : cnt p [x] = Z.b2z (p x).
Proof. unfold cnt. simpl. lia. Qed.

Lemma alter_none (g : A -> A) l i : l !! i = None -> alter g i l = l.
Proof.
  revert i. induction l as [|y l IH]; intros [|i] H; simpl in *; try done.
  f_equal. by apply IH.
Qed.

Lemma cnt_delete p l i x :
  l !! i = Some x -> cnt p (delete i l) = cnt p l - Z.b2z (p x).
Proof. apply zsum_delete. Qed.

Lemma cnt_alter p g l i x : l !! i = Some x ->
  cnt p (alter g i l) = cnt p l - Z.b2z (p x) + Z.b2z (p (g x)).
Proof. apply (zsum_alter (fun x => Z.b2z (p x))). Qed.

Lemma zsum_alter_id f g l i : (forall x, f (g x) = f x) -> zsum f (alter g i l) = zsum f l.
Proof.
  intros H. destruct (l !! i) as [x|] eqn:E; [|by rewrite alter_none].
  rewrite (zsum_alter f g l i x E), H. lia.
Qed.

Lemma cnt_alter_id p g l i : (forall x, p (g x) = p x) -> cnt p (alter g i l) = cnt p l.
Proof. intros H. apply zsum_alter_id. intros x. by rewrite H. Qed.

Lemma cnt_lookup p l i x : l !! i = Some x -> p x = true -> 0 < cnt p l.
Proof.
  intros H Hp. pose proof (cnt_delete p l i x H) as E. rewrite Hp in E. simpl in E.
  pose proof (cnt_nonneg p (delete i l)). lia.
Qed.

Lemma cnt_zero p l : cnt p l = 0 -> forall x, x ∈ l -> p x = false.
Proof.
  intros H x [i Hi]%list_elem_of_lookup. destruct (p x) eqn:E; [|done].
  pose proof (cnt_lookup p l i x Hi E). lia.
Qed.

Lemma delete_none l i : l !! i = None -> delete i l = l.
Proof.
  revert i. induction l as [|y l IH]; intros [|i] H; simpl in *; try done.
  f_equal. by apply IH.
Qed.

Lemma alter_compose (f g : A -> A) i l : alter f i (alter g i l) = alter (f ∘ g) i l.
Proof. revert i; induction l as [|y l IH]; intros [|i]; simpl; [done..|]. f_equal. apply IH. Qed.

Lemma delete_alter (g : A -> A) i l : delete i (alter g i l) = delete i l.
Proof. revert i; induction l as [|y l IH]; intros [|i]; simpl; [done..|]. f_equal. apply IH. Qed.

Lemma zlen_delete l i x : l !! i = Some x -> zlen (delete i l) = zlen l - 1.
Proof.
  intros H. unfold zlen. pose proof (lookup_lt_Some _ _ _ H).
  rewrite length_delete by eauto. lia.
Qed.

Lemma zlen_alter g l i : zlen (alter g i l) = zlen l.
Proof. unfold zlen. by rewrite length_alter. Qed.

Lemma zlen_pos l i x : l !! i = Some x -> 0 < zlen l.
Proof. intros H%lookup_lt_Some. unfold zlen. lia. Qed.

Lemma elem_of_delete l i x : x ∈ delete i l -> x ∈ l.
Proof.
  rewrite delete_take_drop, elem_of_app. intros [H|H].
  - by eapply elem_of_take in H as (? & ? & ?); eapply list_elem_of_lookup_2.
  - apply list_elem_of_lookup in H as [j Hj]. rewrite lookup_drop in Hj.
    by eapply list_elem_of_lookup_2.
Qed.

Lemma elem_of_alter g l i x :
  x ∈ alter g i l -> x ∈ l \/ exists y, l !! i = Some y /\ x = g y.
Proof.
  intros [j Hj]%list_elem_of_lookup. rewrite list_lookup_alter in Hj.
  destruct (decide (i = j)) as [->|].
  - apply fmap_Some in Hj as (y & Hy & ->). right. eauto.
  - left. by eapply list_elem_of_lookup_2.
Qed.

End Sums.

(** ** Permutations and nested lists *)

Lemma zsum_perm {A} (f : A -> Z) l k : l ≡ₚ k -> zsum f l = zsum f k.
Proof. induction 1; simpl; lia. Qed.

Lemma cnt_perm {A} (p : A -> bool) l k : l ≡ₚ k -> cnt p l = cnt p k.
Proof. apply zsum_perm. Qed.

Lemma elem_of_concat {A} (x : A) ls : x ∈ concat ls <-> exists l, l ∈ ls /\ x ∈ l.
Proof.
  rewrite list_elem_of_In, in_concat. split.
  - intros (l & ? & ?). exists l. by rewrite !list_elem_of_In.
  - intros (l & ? & ?). exists l. by rewrite <- !list_elem_of_In.
Qed.

(** Replacing one list among several. *)
Lemma concat_insert {A} (ls : list (list A)) b l0 : ls !! b = Some l0 -> exists rest,
  concat ls ≡ₚ l0 ++ rest /\ forall l, concat (<[b := l]> ls) ≡ₚ l ++ rest.
Proof.
  intros E. exists (concat (take b ls) ++ concat (drop (S b) ls)).
  assert (P : forall l, concat (take b ls ++ l :: drop (S b) ls)
    ≡ₚ l ++ concat (take b ls) ++ concat (drop (S b) ls)).
  { intros l. rewrite concat_app. simpl. rewrite !app_assoc.
    f_equiv. apply Permutation_app_comm. }
  split.
  - rewrite <- (take_drop_middle ls b l0 E) at 1. apply P.
  - intros l. rewrite insert_take_drop by (by eapply lookup_lt_Some). apply P.
Qed.

Lemma fits_lxor w x y : 0 <= w -> fits w x -> fits w y -> fits w (Z.lxor x y).
Proof.
  intros Hw Hx Hy. pose proof (proj1 Hx). pose proof (proj1 Hy).
  assert (0 <= Z.lxor x y) by (apply Z.lxor_nonneg; lia). split; [done|].
  destruct (Z.eq_dec (Z.lxor x y) 0) as [->|]; [lia|].
  apply Z.log2_lt_pow2; [lia|].
  destruct (Z.lt_ge_cases (Z.log2 (Z.lxor x y)) w) as [|Hge]; [done|exfalso].
  assert (Z.testbit (Z.lxor x y) (Z.log2 (Z.lxor x y)) = true) as Hb
    by (apply Z.bit_log2; lia).
  rewrite Z.lxor_spec, (testbit_high w x), (testbit_high w y) in Hb
    by (done || lia). done.
Qed.

Lemma land_pow2 h k : 0 <= k -> Z.land h (2 ^ k - 1) = h mod 2 ^ k.
Proof. intros. rewrite <- Z.land_ones, Z.ones_equiv by done. done. Qed.

Lemma concat_replicate_nil {A} n : concat (replicate n (@nil A)) = [].
Proof. by induction n. Qed.
