(* ===== verification/Crc.v ===== *)
(** * CRC-32 of the write-ahead logs (queue.c, stream.c)

    The slice-by-8 routine with its eight tables, the byte-at-a-time
    routine it replaces, and their equivalence.  The tables are linear over
    GF(2): [crc_bit] distributes over exclusive or, which is what lets eight
    bytes fold in one step and what makes short bursts detectable. *)

From stdpp Require Import base numbers list.
From Stdlib Require Import Btauto.
From S2P Require Import Prelude.

Module Crc.

(** ** The source's definitions *)

Definition poly : Z := 0xedb88320.

(** One round of the inner loop of [crc_init]. *)
Definition crc_bit (value : Z) : Z :=
  if Z.land value 1 =? 1 then Z.lxor poly (Z.shiftr value 1)
  else Z.shiftr value 1.

Definition table_0 : list Z :=
  map (fun i => Nat.iter 8 crc_bit (Z.of_nat i)) (seq 0 256).

Definition slice_next (t0 prev : list Z) : list Z :=
  map (fun v => Z.lxor (nth (Z.to_nat (Z.land v 0xff)) t0 0) (Z.shiftr v 8)) prev.

Fixpoint slices (n : nat) (t0 cur : list Z) : list (list Z) :=
  match n with
  | O => [cur]
  | S m => cur :: slices m t0 (slice_next t0 cur)
  end.

Definition crc_init : list (list Z) := slices 7 table_0 table_0.

(** The static array after [pthread_once]. *)
Definition crc_table : list (list Z) := Eval vm_compute in crc_init.

Definition lookup (slice : nat) (i : Z) : Z :=
  nth (Z.to_nat i) (nth slice crc_table []) 0.

(** The byte loop: the tail of [crc_span]. *)
Fixpoint crc_bytes (crc : Z) (p : bytes) : Z :=
  match p with
  | [] => crc
  | b :: r => crc_bytes (Z.lxor (lookup 0 (Z.land (Z.lxor crc b) 0xff))
                           (Z.shiftr crc 8)) r
  end.

Definition fold8 (crc p0 p1 p2 p3 p4 p5 p6 p7 : Z) : Z :=
  let low := Z.lor (Z.lor (Z.lor p0 (Z.shiftl p1 8)) (Z.shiftl p2 16))
               (Z.shiftl p3 24) in
  let low := Z.lxor low crc in
  Z.lxor (Z.lxor (Z.lxor (Z.lxor (Z.lxor (Z.lxor (Z.lxor
    (lookup 7 (Z.land low 0xff))
    (lookup 6 (Z.land (Z.shiftr low 8) 0xff)))
    (lookup 5 (Z.land (Z.shiftr low 16) 0xff)))
    (lookup 4 (Z.land (Z.shiftr low 24) 0xff)))
    (lookup 3 p4)) (lookup 2 p5)) (lookup 1 p6)) (lookup 0 p7).

(** The word loop [while (len >= 8)], which runs [len / 8] times, then the
    byte loop on what is left. *)
Fixpoint span_words (n : nat) (crc : Z) (p : bytes) : Z :=
  match n with
  | O => crc_bytes crc p
  | S m =>
      span_words m
        (fold8 crc (byte_at p 0) (byte_at p 1) (byte_at p 2) (byte_at p 3)
           (byte_at p 4) (byte_at p 5) (byte_at p 6) (byte_at p 7)) (drop 8 p)
  end.

Definition crc_span (crc : Z) (p : bytes) : Z :=
  span_words (length p / 8) crc p.

(** [crc32] of queue.c: three chained spans. *)
Definition crc32 (a b d : bytes) : Z :=
  let crc := 0xffffffff in
  Z.lxor (crc_span (crc_span (crc_span crc a) b) d) 0xffffffff.

(** [crc32] of stream.c: one span. *)
Definition stream_crc32 (p : bytes) : Z :=
  Z.lxor (crc_span 0xffffffff p) 0xffffffff.

(** [crc32_chain] of server.c: the cache WAL's byte-at-a-time checksum. *)
Definition crc32_chain (a b d : bytes) : Z :=
  Z.lxor (crc_bytes (crc_bytes (crc_bytes 0xffffffff a) b) d) 0xffffffff.

(** ** Reference: the polynomial division, one bit at a time *)

Definition ref_byte (crc b : Z) : Z := Nat.iter 8 crc_bit (Z.lxor crc b).
Definition ref_span (crc : Z) (p : bytes) : Z := fold_left ref_byte p crc.

(** ** Linearity *)

Lemma land1_odd v : (Z.land v 1 =? 1) = Z.testbit v 0.
Proof.
  change 1 with (Z.ones 1) at 1. rewrite Z.land_ones by lia.
  rewrite Z.bit0_odd, Zodd_mod. reflexivity.
Qed.

Lemma crc_bit_lxor x y : crc_bit (Z.lxor x y) = Z.lxor (crc_bit x) (crc_bit y).
Proof.
  unfold crc_bit. rewrite !land1_odd, Z.lxor_spec, Z.shiftr_lxor.
  destruct (Z.testbit x 0), (Z.testbit y 0); cbn [xorb]; bitblast.
Qed.

Lemma iter_lxor n x y :
  Nat.iter n crc_bit (Z.lxor x y)
  = Z.lxor (Nat.iter n crc_bit x) (Nat.iter n crc_bit y).
Proof. induction n as [|n IH]; simpl; [done|]. by rewrite IH, crc_bit_lxor. Qed.

Lemma iter_add {A} (f : A -> A) n m x :
  Nat.iter (n + m) f x = Nat.iter n f (Nat.iter m f x).
Proof. induction n; simpl; congruence. Qed.

Lemma crc_bit_double x : crc_bit (Z.shiftl x 1) = x.
Proof.
  unfold crc_bit. rewrite land1_odd, Z.shiftl_spec_low by lia.
  rewrite Z.shiftr_shiftl_l by lia. by rewrite Z.shiftl_0_r.
Qed.

Lemma iter_shiftl n x : Nat.iter n crc_bit (Z.shiftl x (Z.of_nat n)) = x.
Proof.
  revert x. induction n as [|n IH]; intros x; simpl Nat.iter.
  - by rewrite Z.shiftl_0_r.
  - replace (Z.shiftl x (Z.of_nat (S n)))
      with (Z.shiftl (Z.shiftl x 1) (Z.of_nat n))
      by (rewrite Z.shiftl_shiftl by lia; f_equal; lia).
    by rewrite IH, crc_bit_double.
Qed.

Lemma iter8_shiftl x : Nat.iter 8 crc_bit (Z.shiftl x 8) = x.
Proof. exact (iter_shiftl 8 x). Qed.

(** A word splits into its low octet and the rest. *)
Lemma split_low x : x = Z.lxor (Z.land x 0xff) (Z.shiftl (Z.shiftr x 8) 8).
Proof.
  apply Z.bits_inj'; intros n Hn.
  rewrite Z.lxor_spec, Z.land_spec, Z.shiftl_spec by lia.
  change 0xff with (Z.ones 8). rewrite Z.testbit_ones_nonneg by lia.
  destruct (Z.ltb_spec n 8).
  - rewrite (Z.testbit_neg_r _ (n - 8)) by lia. btauto.
  - rewrite Z.shiftr_spec by lia. replace (n - 8 + 8) with n by lia. btauto.
Qed.

Lemma iter8_split n m x : n = (m + 8)%nat ->
  Nat.iter n crc_bit x
  = Z.lxor (Nat.iter n crc_bit (Z.land x 0xff))
      (Nat.iter m crc_bit (Z.shiftr x 8)).
Proof.
  intros ->. rewrite (split_low x) at 1. rewrite iter_lxor. f_equal.
  rewrite iter_add. f_equal. apply iter8_shiftl.
Qed.

Lemma land_ff_range x : is_byte (Z.land x 0xff).
Proof.
  change 0xff with (Z.ones 8). rewrite Z.land_ones by lia.
  apply Z.mod_pos_bound; lia.
Qed.

Lemma land_ff_byte b : is_byte b -> Z.land b 0xff = b.
Proof.
  intros. change 0xff with (Z.ones 8). rewrite Z.land_ones by lia.
  by apply Z.mod_small.
Qed.

(** ** The tables *)

Definition table_ok (s : nat) (t : list Z) : bool :=
  forallb (fun i => nth i t 0 =? Nat.iter (8 * S s) crc_bit (Z.of_nat i))
    (seq 0 256).

Lemma tables_ok :
  forallb (fun s => table_ok s (nth s crc_table [])) (seq 0 8) = true.
Proof. vm_compute. reflexivity. Qed.

(** Slice [s] of the table pushes an octet through [8 * (s + 1)] rounds. *)
Lemma lookup_iter s i : (s < 8)%nat -> is_byte i ->
  lookup s i = Nat.iter (8 * S s) crc_bit i.
Proof.
  intros Hs Hi. unfold is_byte in Hi. pose proof tables_ok as H.
  rewrite forallb_forall in H. specialize (H s).
  rewrite in_seq in H. specialize (H ltac:(lia)).
  unfold table_ok in H. rewrite forallb_forall in H.
  specialize (H (Z.to_nat i)). rewrite in_seq in H. specialize (H ltac:(lia)).
  apply Z.eqb_eq in H. rewrite Z2Nat.id in H by lia. exact H.
Qed.

Lemma byte_step crc b : 
  Z.lxor (lookup 0 (Z.land (Z.lxor crc b) 0xff)) (Z.shiftr (Z.lxor crc b) 8)
  = ref_byte crc b.
Proof.
  rewrite lookup_iter by first [apply land_ff_range | lia].
  unfold ref_byte. symmetry. by apply (iter8_split 8 0).
Qed.

Lemma shiftr_byte b : is_byte b -> Z.shiftr b 8 = 0.
Proof. intros []. rewrite Z.shiftr_div_pow2 by lia. apply Z.div_small. lia. Qed.

Lemma crc_bytes_ref p crc : bytes_ok p -> crc_bytes crc p = ref_span crc p.
Proof.
  intros Hp. revert crc. induction Hp as [|b r Hb _ IH]; intros crc; simpl; [done|].
  rewrite IH, <- byte_step, Z.shiftr_lxor, (shiftr_byte b), Z.lxor_0_r by done.
  reflexivity.
Qed.

(** Eight octets at once: the bit rounds distribute over the octets. *)
Lemma ref_byte_lxor crc d b : 
  ref_byte (Z.lxor crc d) b = Z.lxor (ref_byte crc b) (Nat.iter 8 crc_bit d).
Proof.
  unfold ref_byte. rewrite <- iter_lxor. f_equal.
  rewrite !Z.lxor_assoc. f_equal. apply Z.lxor_comm.
Qed.

Lemma ref_byte_0 crc b :
  ref_byte crc b = Z.lxor (Nat.iter 8 crc_bit crc) (Nat.iter 8 crc_bit b).
Proof. unfold ref_byte. apply iter_lxor. Qed.

Lemma low_lxor b0 b1 b2 b3 : is_byte b0 -> is_byte b1 -> is_byte b2 -> is_byte b3 ->
  Z.lor (Z.lor (Z.lor b0 (Z.shiftl b1 8)) (Z.shiftl b2 16)) (Z.shiftl b3 24)
  = Z.lxor b0 (Z.lxor (Z.shiftl b1 8) (Z.lxor (Z.shiftl b2 16) (Z.shiftl b3 24))).
Proof.
  intros H0 H1 H2 H3. apply Z.bits_inj'; intros n Hn.
  rewrite !Z.lor_spec, !Z.lxor_spec, !Z.shiftl_spec by lia.
  unfold is_byte in *.
  assert (T : forall b k, 0 <= b < 256 -> k < 0 \/ 8 <= k -> Z.testbit b k = false).
  { intros b k Hb [?|?]; [by apply Z.testbit_neg_r|].
    by apply (testbit_high 8); unfold fits; lia. }
  destruct (Z.lt_ge_cases n 8); [rewrite (T b1), (T b2), (T b3) by lia; btauto|].
  destruct (Z.lt_ge_cases n 16); [rewrite (T b0), (T b2), (T b3) by lia; btauto|].
  destruct (Z.lt_ge_cases n 24); [rewrite (T b0), (T b1), (T b3) by lia; btauto|].
  rewrite (T b0), (T b1), (T b2) by lia; btauto.
Qed.

Lemma iter32_shift k b m :
  Nat.iter (k + m) crc_bit (Z.shiftl b (Z.of_nat k)) = Nat.iter m crc_bit b.
Proof. rewrite Nat.add_comm, iter_add. by rewrite iter_shiftl. Qed.

(** The four table look-ups on the word [low] are [64] bit rounds of it. *)
Lemma low_rounds low : fits 32 low ->
  Z.lxor (Z.lxor (Z.lxor (lookup 7 (Z.land low 0xff))
    (lookup 6 (Z.land (Z.shiftr low 8) 0xff)))
    (lookup 5 (Z.land (Z.shiftr low 16) 0xff)))
    (lookup 4 (Z.land (Z.shiftr low 24) 0xff))
  = Nat.iter 64 crc_bit low.
Proof.
  intros [H0 H1]. rewrite !lookup_iter by first [apply land_ff_range | lia].
  cbn [Nat.mul Nat.add].
  rewrite (iter8_split 64 56 low), (iter8_split 56 48 (Z.shiftr low 8)) by lia.
  rewrite Z.shiftr_shiftr by lia.
  rewrite (iter8_split 48 40 (Z.shiftr low (8 + 8))) by lia.
  rewrite Z.shiftr_shiftr by lia. change (8 + 8 + 8) with 24. change (8 + 8) with 16.
  assert (H24 : is_byte (Z.shiftr low 24)).
  { rewrite Z.shiftr_div_pow2 by lia. split;
      [apply Z.div_pos|apply Z.div_lt_upper_bound]; lia. }
  rewrite (land_ff_byte _ H24), !Z.lxor_assoc. reflexivity.
Qed.

Lemma crc_bit_fits x : fits 32 x -> fits 32 (crc_bit x).
Proof.
  intros [H0 H1]. unfold crc_bit.
  assert (fits 32 (Z.shiftr x 1)).
  { rewrite Z.shiftr_div_pow2 by lia. split;
      [apply Z.div_pos|apply Z.div_lt_upper_bound]; lia. }
  case_match; [apply fits_lxor; [lia|split; unfold poly; lia|]|]; done.
Qed.

Lemma iter_fits n x : fits 32 x -> fits 32 (Nat.iter n crc_bit x).
Proof. intros; induction n; simpl; auto using crc_bit_fits. Qed.

Lemma is_byte_fits b : is_byte b -> fits 32 b.
Proof. unfold is_byte, fits. lia. Qed.

Lemma ref_byte_fits crc b : fits 32 crc -> is_byte b -> fits 32 (ref_byte crc b).
Proof.
  intros. apply iter_fits, fits_lxor; [lia|done|by apply is_byte_fits].
Qed.

Lemma ref_span_fits p crc : fits 32 crc -> bytes_ok p -> fits 32 (ref_span crc p).
Proof.
  intros Hc Hp. revert crc Hc. induction Hp; intros crc Hc; simpl; [done|].
  apply IHHp. by apply ref_byte_fits.
Qed.

#[local] Hint Resolve is_byte_fits ref_byte_fits fits_lxor : core.

Lemma fits_low b0 b1 b2 b3 : is_byte b0 -> is_byte b1 -> is_byte b2 -> is_byte b3 ->
  fits 32 (Z.lxor b0 (Z.lxor (Z.shiftl b1 8) (Z.lxor (Z.shiftl b2 16) (Z.shiftl b3 24)))).
Proof.
  unfold is_byte; intros. rewrite !Z.shiftl_mul_pow2 by lia.
  repeat apply fits_lxor; unfold fits; lia.
Qed.

(** One round of the word loop is eight rounds of the byte loop. *)
Lemma fold8_ref crc p0 p1 p2 p3 p4 p5 p6 p7 :
  fits 32 crc -> bytes_ok [p0; p1; p2; p3; p4; p5; p6; p7] ->
  fold8 crc p0 p1 p2 p3 p4 p5 p6 p7 = ref_span crc [p0; p1; p2; p3; p4; p5; p6; p7].
Proof.
  intros Hc Hp. unfold bytes_ok in Hp. rewrite !Forall_cons_iff in Hp.
  destruct Hp as (?&?&?&?&?&?&?&?&_).
  unfold fold8, ref_span. cbn [fold_left]. rewrite low_lxor by done.
  rewrite low_rounds by (apply fits_lxor; [lia|by apply fits_low|done]).
  rewrite !lookup_iter by first [done | lia]. cbn [Nat.mul Nat.add].
  rewrite !ref_byte_0, !iter_lxor, <- !iter_add. cbn [Nat.add].
  pose proof (iter32_shift 8 p1 56) as E1. pose proof (iter32_shift 16 p2 48) as E2.
  pose proof (iter32_shift 24 p3 40) as E3. cbn [Nat.add Z.of_nat] in E1, E2, E3.
  change (Z.of_nat 8) with 8 in E1. change (Z.of_nat 16) with 16 in E2.
  change (Z.of_nat 24) with 24 in E3. rewrite E1, E2, E3.
  rewrite !Z.lxor_assoc.
  bitblast.
Qed.

Lemma ref_span_app p q crc : ref_span crc (p ++ q) = ref_span (ref_span crc p) q.
Proof. apply fold_left_app. Qed.

Lemma take8_bytes p : (8 <= length p)%nat ->
  take 8 p = [byte_at p 0; byte_at p 1; byte_at p 2; byte_at p 3;
              byte_at p 4; byte_at p 5; byte_at p 6; byte_at p 7].
Proof. intros H. do 8 (destruct p as [|? p]; [simpl in H; lia|]). reflexivity. Qed.

Lemma span_words_ref n p crc : fits 32 crc -> bytes_ok p ->
  (8 * n <= length p)%nat -> span_words n crc p = ref_span crc p.
Proof.
  revert p crc. induction n as [|n IH]; intros p crc Hc Hp Hl; cbn [span_words].
  - by apply crc_bytes_ref.
  - assert (bytes_ok (take 8 p)) by by apply Forall_take.
    assert (bytes_ok (drop 8 p)) by by apply Forall_drop.
    rewrite <- (take_drop 8 p) at 10. rewrite ref_span_app.
    rewrite (take8_bytes p) in * by lia.
    rewrite fold8_ref by done.
    apply IH; [by apply ref_span_fits|done|rewrite length_drop; lia].
Qed.

Lemma crc_span_ref p crc : fits 32 crc -> bytes_ok p ->
  crc_span crc p = ref_span crc p.
Proof.
  intros. apply span_words_ref; [done..|].
  apply Nat.Div0.mul_div_le.
Qed.

Lemma ones32_fits : fits 32 0xffffffff.
Proof. unfold fits. lia. Qed.

Lemma crc_span_fits p crc : fits 32 crc -> bytes_ok p -> fits 32 (crc_span crc p).
Proof. intros. rewrite crc_span_ref by done. by apply ref_span_fits. Qed.

#[local] Hint Resolve ref_span_fits ones32_fits crc_span_fits : core.

Lemma crc32_ref a b d : bytes_ok a -> bytes_ok b -> bytes_ok d ->
  crc32 a b d = Z.lxor (ref_span 0xffffffff (a ++ b ++ d)) 0xffffffff.
Proof. intros. unfold crc32. rewrite !crc_span_ref by auto. by rewrite !ref_span_app. Qed.

Lemma stream_crc32_ref p : bytes_ok p ->
  stream_crc32 p = Z.lxor (ref_span 0xffffffff p) 0xffffffff.
Proof. intros. unfold stream_crc32. by rewrite crc_span_ref by auto. Qed.

Lemma crc32_chain_ref a b d : bytes_ok a -> bytes_ok b -> bytes_ok d ->
  crc32_chain a b d = Z.lxor (ref_span 0xffffffff (a ++ b ++ d)) 0xffffffff.
Proof.
  intros. unfold crc32_chain. rewrite !crc_bytes_ref by auto.
  by rewrite !ref_span_app.
Qed.

Lemma crc32_fits a b d : bytes_ok a -> bytes_ok b -> bytes_ok d ->
  fits 32 (crc32 a b d).
Proof.
  intros. rewrite crc32_ref by done. apply fits_lxor; [lia| |apply ones32_fits].
  apply ref_span_fits; [apply ones32_fits|]. by repeat apply Forall_app_2.
Qed.

(** ** Burst errors *)

(** The octets of a span as one number. *)
Fixpoint le_word (p : bytes) : Z :=
  match p with
  | [] => 0
  | b :: r => Z.lxor b (Z.shiftl (le_word r) 8)
  end.

Lemma ref_span_word p crc :
  ref_span crc p = Nat.iter (8 * length p) crc_bit (Z.lxor crc (le_word p)).
Proof.
  revert crc. induction p as [|b r IH]; intros crc; cbn [ref_span fold_left le_word].
  - cbn. by rewrite Z.lxor_0_r.
  - change (fold_left ref_byte r (ref_byte crc b)) with (ref_span (ref_byte crc b) r).
    rewrite IH. replace (8 * length (b :: r))%nat with (8 * length r + 8)%nat
      by (simpl; lia).
    rewrite iter_add. f_equal. unfold ref_byte.
    by rewrite <- Z.lxor_assoc, (iter_lxor 8 (Z.lxor crc b)), iter8_shiftl.
Qed.

Lemma crc_bit_zero x : fits 32 x -> crc_bit x = 0 -> x = 0.
Proof.
  intros [H0 H1]. unfold crc_bit. rewrite land1_odd.
  rewrite Z.shiftr_div_pow2 by lia. change (2 ^ 1) with 2.
  destruct (Z.testbit x 0) eqn:E.
  - rewrite Z.lxor_eq_0_iff. unfold poly. intros.
    assert (x / 2 < 2 ^ 31) by (apply Z.div_lt_upper_bound; lia). lia.
  - rewrite Z.bit0_odd in E. pose proof (Z.div_mod x 2 ltac:(lia)).
    rewrite Zmod_odd, E in *. lia.
Qed.

Lemma iter_inj n x y : fits 32 x -> fits 32 y ->
  Nat.iter n crc_bit x = Nat.iter n crc_bit y -> x = y.
Proof.
  intros Hx Hy H. apply Z.lxor_eq_0_iff in H. rewrite <- iter_lxor in H.
  apply Z.lxor_eq_0_iff.
  assert (Hf : fits 32 (Z.lxor x y)) by (by apply fits_lxor).
  induction n as [|n IH]; simpl in H; [done|].
  apply IH, crc_bit_zero; [by apply iter_fits|done].
Qed.

Lemma le_word_fits p : bytes_ok p -> fits (8 * zlen p) (le_word p).
Proof.
  induction 1 as [|b r Hb _ IH]; simpl; [unfold fits, zlen; simpl; lia|].
  rewrite zlen_cons. pose proof (zlen_nonneg r).
  apply fits_lxor; [lia| |].
  - unfold fits, is_byte in *.
    assert (2 ^ 8 <= 2 ^ (8 * (1 + zlen r))) by (apply Z.pow_le_mono_r; lia). lia.
  - rewrite Z.shiftl_mul_pow2 by lia. unfold fits in *.
    replace (8 * (1 + zlen r)) with (8 * zlen r + 8) by lia.
    rewrite Z.pow_add_r by lia. nia.
Qed.

Lemma low_octet b w : is_byte b -> Z.land (Z.lxor b (Z.shiftl w 8)) 0xff = b.
Proof.
  intros Hb. apply Z.bits_inj'; intros n Hn. change 0xff with (Z.ones 8).
  rewrite Z.land_spec, Z.lxor_spec, Z.shiftl_spec, Z.testbit_ones_nonneg by lia.
  destruct (Z.ltb_spec n 8).
  - rewrite (Z.testbit_neg_r w) by lia. btauto.
  - rewrite (testbit_high 8 b) by (done || lia). btauto.
Qed.

Lemma high_octets b w : is_byte b -> Z.shiftr (Z.lxor b (Z.shiftl w 8)) 8 = w.
Proof.
  intros Hb. rewrite Z.shiftr_lxor, (shiftr_byte b) by done.
  by rewrite Z.shiftr_shiftl_l, Z.shiftl_0_r, Z.lxor_0_l by lia.
Qed.

Lemma le_word_inj p q : bytes_ok p -> bytes_ok q -> length p = length q ->
  le_word p = le_word q -> p = q.
Proof.
  intros Hp. revert q. induction Hp as [|b r Hb _ IH]; intros [|c q] Hq Hl E;
    simplify_eq/=; [done|].
  unfold bytes_ok in Hq. rewrite Forall_cons_iff in Hq. destruct Hq as [Hc Hq].
  pose proof (low_octet b (le_word r) Hb) as E1. rewrite E, low_octet in E1 by done.
  pose proof (high_octets b (le_word r) Hb) as E2. rewrite E, high_octets in E2 by done.
  f_equal; [done|]. by apply IH.
Qed.

(** Two spans that differ in at most four octets leave different registers. *)
Lemma ref_span_burst crc x y : fits 32 crc -> bytes_ok x -> bytes_ok y ->
  length x = length y -> (length x <= 4)%nat -> x <> y ->
  ref_span crc x <> ref_span crc y.
Proof.
  intros Hc Hx Hy Hl H4 Hne E. apply Hne, le_word_inj; [done..|].
  assert (W : forall p, bytes_ok p -> (length p <= 4)%nat -> fits 32 (le_word p)).
  { intros p Hp Hp4. destruct (le_word_fits p Hp) as [? Hlt].
    assert (2 ^ (8 * zlen p) <= 2 ^ 32) by (apply Z.pow_le_mono_r; unfold zlen; lia).
    unfold fits; lia. }
  rewrite !ref_span_word, Hl in E.
  apply iter_inj in E; [|apply fits_lxor; auto with lia..].
  apply (f_equal (Z.lxor crc)) in E.
  by rewrite <- !Z.lxor_assoc, Z.lxor_nilpotent, !Z.lxor_0_l in E.
Qed.

Lemma ref_span_inj p c d : fits 32 c -> fits 32 d -> bytes_ok p ->
  ref_span c p = ref_span d p -> c = d.
Proof.
  intros Hc Hd Hp. revert c d Hc Hd.
  induction Hp as [|b r Hb _ IH]; intros c d Hc Hd E; [done|].
  apply IH in E; [|by apply ref_byte_fits..].
  apply iter_inj in E; [|auto with lia..].
  apply (f_equal (Z.lxor b)) in E.
  by rewrite !(Z.lxor_comm _ b), <- !Z.lxor_assoc, Z.lxor_nilpotent, !Z.lxor_0_l in E.
Qed.

(** ** Properties *)

(** C32. The slice-by-8 checksum of queue.c (and the single-span one of
    stream.c) computes, for every input, the same value as the bit-at-a-time
    polynomial division, hence as the byte-at-a-time routine of the cache
    WAL: "existing WAL files verify unchanged". *)
Theorem crc32_slice8_equiv (a b d : bytes) :
  bytes_ok a -> bytes_ok b -> bytes_ok d ->
  crc32 a b d = Z.lxor (ref_span 0xffffffff (a ++ b ++ d)) 0xffffffff
  /\ crc32 a b d = crc32_chain a b d
  /\ crc32 a b d = stream_crc32 (a ++ b ++ d).
Proof.
  intros. assert (bytes_ok (a ++ b ++ d)) by by repeat apply Forall_app_2.
  by rewrite crc32_ref, crc32_chain_ref, stream_crc32_ref by done.
Qed.

(** Damage confined to four consecutive bytes of a checksummed record
    always changes its checksum, wherever the record is split into header,
    name and payload. *)
Theorem crc32_detects_burst (a b d a' b' d' pre x y post : bytes) :
  a ++ b ++ d = pre ++ x ++ post -> a' ++ b' ++ d' = pre ++ y ++ post ->
  bytes_ok (a ++ b ++ d) -> bytes_ok (a' ++ b' ++ d') ->
  length x = length y -> (length x <= 4)%nat -> x <> y ->
  crc32 a b d <> crc32 a' b' d'.
Proof.
  intros E1 E2 H1 H2 Hl H4 Hne.
  pose proof H1 as H1'. pose proof H2 as H2'. unfold bytes_ok in *.
  rewrite !Forall_app in H1, H2. rewrite E1, !Forall_app in H1'.
  rewrite E2, !Forall_app in H2'. destruct_and!.
  rewrite !crc32_ref, E1, E2, !ref_span_app by done. intros E.
  apply (f_equal (fun z => Z.lxor z 0xffffffff)) in E.
  rewrite !Z.lxor_assoc, Z.lxor_nilpotent, !Z.lxor_0_r in E.
  apply ref_span_inj in E; [|by auto..].
  by apply ref_span_burst in E; auto.
Qed.

Lemma crc32_slice8_equiv_witness :
  crc32 [49;50;51] [52;53;54;55] [56;57] = 0xcbf43926
  /\ crc32 [49;50;51] [52;53;54;55] [56;57]
     = crc32_chain [49;50;51] [52;53;54;55] [56;57].
Proof.
  split; [vm_compute; reflexivity|].
  apply (crc32_slice8_equiv [49;50;51] [52;53;54;55] [56;57]);
    bytes_tac.
Defined.

Lemma crc32_detects_burst_witness :
  crc32 [1;2] [3] [4;5] <> crc32 [1;9] [8] [7;5].
Proof.
  apply (crc32_detects_burst [1;2] [3] [4;5] [1;9] [8] [7;5] [1] [2;3;4] [9;8;7] [5]);
    [reflexivity|reflexivity|bytes_tac|bytes_tac|reflexivity|simpl; lia|discriminate].
Defined.

End Crc.
