(* ===== verification/Sha256.v ===== *)
(** * SHA-256 and the digest of an operation (job_state.c)

    The incremental hash of job_state.c ([sha_init], [sha_update],
    [sha_final]) over a list of spans, and the canonical form of a request it
    is applied to.  Shown: hashing in pieces is hashing the whole padded
    message block by block, and two requests with the same canonical form are
    the same request. *)

From stdpp Require Import base numbers option list.
From S2P Require Import Prelude.

Module Sha256.

(** ** The compression function *)

(** The rows of the table of the source. *)
Definition sha_k : list Z := concat [
  [0x428a2f98; 0x71374491; 0xb5c0fbcf; 0xe9b5dba5; 0x3956c25b; 0x59f111f1];
  [0x923f82a4; 0xab1c5ed5; 0xd807aa98; 0x12835b01; 0x243185be; 0x550c7dc3];
  [0x72be5d74; 0x80deb1fe; 0x9bdc06a7; 0xc19bf174; 0xe49b69c1; 0xefbe4786];
  [0x0fc19dc6; 0x240ca1cc; 0x2de92c6f; 0x4a7484aa; 0x5cb0a9dc; 0x76f988da];
  [0x983e5152; 0xa831c66d; 0xb00327c8; 0xbf597fc7; 0xc6e00bf3; 0xd5a79147];
  [0x06ca6351; 0x14292967; 0x27b70a85; 0x2e1b2138; 0x4d2c6dfc; 0x53380d13];
  [0x650a7354; 0x766a0abb; 0x81c2c92e; 0x92722c85; 0xa2bfe8a1; 0xa81a664b];
  [0xc24b8b70; 0xc76c51a3; 0xd192e819; 0xd6990624; 0xf40e3585; 0x106aa070];
  [0x19a4c116; 0x1e376c08; 0x2748774c; 0x34b0bcb5; 0x391c0cb3; 0x4ed8aa4a];
  [0x5b9cca4f; 0x682e6ff3; 0x748f82ee; 0x78a5636f; 0x84c87814; 0x8cc70208];
  [0x90befffa; 0xa4506ceb; 0xbef9a3f7; 0xc67178f2]].

(** The primes below 312, and the integer cube root by search from 1. *)
Definition is_prime (n : Z) : bool := (1 <? n) && forallb (fun d => negb (n mod Z.of_nat d =? 0)) (seq 2 (Z.to_nat (n - 2))).

Definition primes : list Z := List.filter is_prime (map Z.of_nat (seq 2 310)).

Definition int_cbrt (n : Z) : Z := fold_left (fun r i => if Z.of_nat i ^ 3 <=? n then Z.of_nat i else r) (seq 1 7) 0.

(** [k] is the first 32 bits of the fraction of the cube root of [p]. *)
Definition cube_root_bits (p k : Z) : bool :=
  let n := int_cbrt p * 2 ^ 32 + k in (k <? 2 ^ 32) && (n ^ 3 <=? p * 2 ^ 96) && (p * 2 ^ 96 <? (n + 1) ^ 3).

(** Every constant of the table is the one FIPS 180-4 defines. *)
Lemma sha_k_cube_roots : length primes = length sha_k /\ forallb (fun pk => cube_root_bits pk.1 pk.2) (zip primes sha_k) = true.
Proof. split; vm_compute; reflexivity. Qed.

Definition sha_ror (x n : Z) : Z := Z.lor (Z.shiftr x n) (u32 (Z.shiftl x (32 - n))).

(** The word at position [i] of a block, big-endian. *)
Definition block_word (block : bytes) (i : nat) : Z :=
  Z.lor (Z.lor (Z.lor (Z.shiftl (byte_at block (i * 4)) 24) (Z.shiftl (byte_at block (i * 4 + 1)) 16))
    (Z.shiftl (byte_at block (i * 4 + 2)) 8)) (byte_at block (i * 4 + 3)).

Definition word (w : list Z) (i : nat) : Z := nth i w 0.

(** The next word of the schedule [w]. *)
Definition next_word (w : list Z) : Z :=
  let i := length w in
  let x := word w (i - 15) in
  let s0 := Z.lxor (Z.lxor (sha_ror x 7) (sha_ror x 18)) (Z.shiftr x 3) in
  let y := word w (i - 2) in
  let s1 := Z.lxor (Z.lxor (sha_ror y 17) (sha_ror y 19)) (Z.shiftr y 10) in
  u32 (word w (i - 16) + s0 + word w (i - 7) + s1).

Definition schedule (block : bytes) : list Z :=
  Nat.iter 48 (fun w => w ++ [next_word w]) (map (block_word block) (seq 0 16)).

(** One round on the eight working variables, with the constant and the word
    of the round. *)
Definition sha_round (r : list Z) (kw : Z * Z) : list Z :=
  match r with
  | [a; b; c; d; e; f; g; h] =>
      let s1 := Z.lxor (Z.lxor (sha_ror e 6) (sha_ror e 11)) (sha_ror e 25) in
      let ch := Z.lxor (Z.land e f) (Z.land (u32 (Z.lnot e)) g) in
      let t1 := u32 (h + s1 + ch + kw.1 + kw.2) in
      let s0 := Z.lxor (Z.lxor (sha_ror a 2) (sha_ror a 13)) (sha_ror a 22) in
      let mj := Z.lxor (Z.lxor (Z.land a b) (Z.land a c)) (Z.land b c) in
      let t2 := u32 (s0 + mj) in
      [u32 (t1 + t2); a; b; c; u32 (d + t1); e; f; g]
  | _ => r
  end.

Definition compress (h : list Z) (block : bytes) : list Z :=
  zip_with (fun x y => u32 (x + y)) h (fold_left sha_round (combine sha_k (schedule block)) h).

(** ** The incremental hash *)

(** Of the 64 bytes of the buffer the first [at] are meaningful. *)
Record sha := Sha { sh_h : list Z; sh_buf : bytes; sh_total : Z }.

Definition sha_compress (s : sha) : sha := {| sh_h := compress (sh_h s) (sh_buf s); sh_buf := []; sh_total := sh_total s |}.

Definition iv : list Z := [0x6a09e667; 0xbb67ae85; 0x3c6ef372; 0xa54ff53a; 0x510e527f; 0x9b05688c; 0x1f83d9ab; 0x5be0cd19].

Definition sha_init : sha := {| sh_h := iv; sh_buf := []; sh_total := 0 |}.

(** The loop of sha_update; every round takes at least one byte, so the length
    of the data is enough fuel. *)
Fixpoint update_loop (fuel : nat) (s : sha) (data : bytes) : sha :=
  match fuel with
  | O => s
  | S fuel =>
      if zlen data =? 0 then s
      else
        let n := (64 - length (sh_buf s))%nat in
        let s := {| s with sh_buf := sh_buf s ++ take n data |} in
        let s := if (length (sh_buf s) =? 64)%nat then sha_compress s else s in
        update_loop fuel s (drop n data)
  end.

Definition sha_update (s : sha) (data : bytes) : sha :=
  update_loop (length data) {| s with sh_total := u64 (sh_total s + zlen data) |} data.

(** The loop [while (s->at != 56)]; at most 63 bytes are missing. *)
Fixpoint pad_loop (fuel : nat) (s : sha) : sha :=
  match fuel with
  | O => s
  | S fuel => if (length (sh_buf s) =? 56)%nat then s else pad_loop fuel (sha_update s [0])
  end.

(** Big-endian words: the length trailer and the digest. *)
Definition be64 (v : Z) : bytes := map (fun i => u8 (Z.shiftr v (56 - Z.of_nat i * 8))) (seq 0 8).
Definition be32 (v : Z) : bytes := [u8 (Z.shiftr v 24); u8 (Z.shiftr v 16); u8 (Z.shiftr v 8); u8 v].

Definition sha_final (s : sha) : bytes :=
  let bits := u64 (sh_total s * 8) in
  let s := pad_loop 64 (sha_update s [0x80]) in
  let s := sha_compress {| s with sh_buf := sh_buf s ++ be64 bits |} in
  concat (map be32 (sh_h s)).

Definition job_sha256_parts (parts : list bytes) : bytes :=
  sha_final (fold_left (fun s p => if zlen p =? 0 then s else sha_update s p) parts sha_init).

Definition job_sha256 (a b c d : bytes) : bytes := job_sha256_parts (List.filter (fun p => negb (zlen p =? 0)) [a; b; c; d]).

#[local] Opaque compress.

(** ** The whole message at once *)

Fixpoint hash_blocks (n : nat) (h : list Z) (p : bytes) : list Z :=
  match n with
  | O => h
  | S n => hash_blocks n (compress h (take 64 p)) (drop 64 p)
  end.

(** A one bit, zeros up to the last eight bytes of a block, the number of
    bits. *)
Definition padding (n : Z) : bytes := 0x80 :: replicate (Z.to_nat ((55 - n) mod 64)) 0 ++ be64 (8 * n).

Definition sha256 (msg : bytes) : bytes :=
  let p := msg ++ padding (zlen msg) in concat (map be32 (hash_blocks (length p / 64) iv p)).

Lemma hash_blocks_snoc n : forall h p b, length p = (64 * n)%nat -> length b = 64%nat ->
  hash_blocks (S n) h (p ++ b) = compress (hash_blocks n h p) b.
Proof.
  induction n as [|n IH]; intros h p b Hp Hb.
  - destruct p; [|done]. cbn [hash_blocks app]. by rewrite firstn_all2 by lia.
  - rewrite <- (firstn_skipn 64 p) at 1. rewrite <- app_assoc. cbn [hash_blocks].
    assert (Ht : length (take 64 p) = 64%nat) by (rewrite length_take; lia).
    rewrite take_app_length', drop_app_length' by done. change (S n) with (1 + n)%nat.
    rewrite <- IH by (rewrite ?length_drop; lia). done.
Qed.

(** The hash has absorbed [msg]: full blocks are compressed, the rest is in
    the buffer. *)
Definition absorbed (s : sha) (msg : bytes) : Prop := exists n body,
  msg = body ++ sh_buf s /\ length body = (64 * n)%nat /\ (length (sh_buf s) < 64)%nat /\ sh_h s = hash_blocks n iv body.

Lemma absorb_compress s msg buf : absorbed s msg -> length (sh_buf s ++ buf) = 64%nat ->
  absorbed (sha_compress {| s with sh_buf := sh_buf s ++ buf |}) (msg ++ buf).
Proof.
  intros (n & body & -> & Hb & _ & Eh) Hl. exists (S n), (body ++ sh_buf s ++ buf). cbn [sha_compress sh_buf sh_h].
  split; [by rewrite app_nil_r, app_assoc|]. split; [rewrite length_app; lia|]. split; [cbn; lia|].
  by rewrite hash_blocks_snoc, Eh.
Qed.

Lemma absorb_loop fuel : forall s msg data, absorbed s msg -> (length data <= fuel)%nat ->
  absorbed (update_loop fuel s data) (msg ++ data) /\ sh_total (update_loop fuel s data) = sh_total s.
Proof.
  induction fuel as [|fuel IH]; intros s msg data A Hf.
  { destruct data; [|cbn in Hf; lia]. cbn. by rewrite app_nil_r. }
  cbn [update_loop]. destruct (Z.eqb_spec (zlen data) 0) as [Hz|Hz].
  { destruct data; [by rewrite app_nil_r|]. rewrite zlen_cons in Hz. pose proof (zlen_nonneg data). lia. }
  pose proof A as (n & body & E & Hb & Hl & Eh). set (k := (64 - length (sh_buf s))%nat).
  assert (Hd : (length data <> 0)%nat) by (unfold zlen in Hz; lia).
  replace (msg ++ data) with ((msg ++ take k data) ++ drop k data) by (by rewrite <- app_assoc, firstn_skipn). cbn [sh_buf]. destruct (Nat.eqb_spec (length (sh_buf s ++ take k data)) 64) as [H64|H64].
  - destruct (IH (sha_compress {| s with sh_buf := sh_buf s ++ take k data |}) (msg ++ take k data) (drop k data)) as [I1 I2];
      [by apply absorb_compress|rewrite length_drop; lia|]. split; [exact I1|]. by rewrite I2.
  - assert (Hk : (length data < k)%nat) by (rewrite length_app, length_take in H64; lia).
    rewrite (firstn_all2 (n := k) data), (skipn_all2 (n := k) data) by lia.
    replace (update_loop fuel {| s with sh_buf := sh_buf s ++ data |} []) with {| s with sh_buf := sh_buf s ++ data |} by (by destruct fuel).
    rewrite app_nil_r. split; [|done]. exists n, body. cbn [sh_buf sh_h].
    split; [by rewrite E, app_assoc|]. split; [done|]. split; [rewrite length_app; lia|done].
Qed.

Lemma absorb_update s msg data : absorbed s msg -> absorbed (sha_update s data) (msg ++ data).
Proof. intros A. by apply (absorb_loop (length data) {| s with sh_total := u64 (sh_total s + zlen data) |}). Qed.

Lemma total_update s data : absorbed s data -> forall d, sh_total (sha_update s d) = u64 (sh_total s + zlen d).
Proof. intros A d. by apply (absorb_loop (length d) {| s with sh_total := u64 (sh_total s + zlen d) |} data). Qed.

Lemma absorbed_buf s msg : absorbed s msg -> length (sh_buf s) = (length msg mod 64)%nat.
Proof.
  intros (n & body & -> & Hb & Hl & _). rewrite length_app, Hb, Nat.mul_comm, Nat.add_comm, Nat.Div0.mod_add. by rewrite Nat.mod_small.
Qed.

Lemma pad_zeros k : forall fuel s msg, absorbed s msg -> (k < fuel)%nat -> (k < 64)%nat -> ((length msg + k) mod 64 = 56)%nat ->
  absorbed (pad_loop fuel s) (msg ++ replicate k 0) /\ length (sh_buf (pad_loop fuel s)) = 56%nat.
Proof.
  induction k as [|k IH]; intros fuel s msg A Hf Hk Hm; (destruct fuel as [|fuel]; [lia|]); cbn [pad_loop];
    rewrite (absorbed_buf _ _ A).
  - rewrite Nat.add_0_r in Hm. rewrite Hm. cbn. rewrite app_nil_r. split; [done|]. by rewrite (absorbed_buf _ _ A).
  - destruct (Nat.eqb_spec (length msg mod 64) 56) as [E|E].
    + exfalso. rewrite <- Nat.Div0.add_mod_idemp_l, E in Hm.
      pose proof (Nat.div_mod_eq (56 + S k) 64). assert ((56 + S k) / 64 <= 1)%nat by (apply Nat.lt_succ_r, Nat.Div0.div_lt_upper_bound; lia). lia.
    + cbn [replicate]. change (0 :: replicate k 0) with ([0] ++ replicate k 0). rewrite app_assoc. apply IH; [by apply absorb_update|lia|lia|].
      rewrite length_app. cbn [length]. by replace (length msg + 1 + k)%nat with (length msg + S k)%nat by lia.
Qed.

Lemma be64_u64 v : be64 (u64 v) = be64 v.
Proof.
  unfold be64. apply map_ext_in. intros i Hi%in_seq. apply Z.bits_inj'. intros n Hn. rewrite !testbit_u8 by done.
  destruct (Z.ltb_spec n 8); [|done]. cbn [andb]. unfold u64. rewrite !Z.shiftr_spec, testbit_mod by lia.
  destruct (Z.ltb_spec (n + (56 - Z.of_nat i * 8)) 64); [done|lia].
Qed.

Lemma absorbed_init : absorbed sha_init [].
Proof. exists O, []. cbn. repeat split; lia. Qed.

Lemma final_spec s msg : absorbed s msg -> sh_total s = u64 (zlen msg) -> sha_final s = sha256 msg.
Proof.
  intros A Ht. unfold sha_final, sha256. rewrite Ht. set (k := Z.to_nat ((55 - zlen msg) mod 64)).
  assert (Hk : (k < 64)%nat) by (unfold k; pose proof (Z.mod_pos_bound (55 - zlen msg) 64 ltac:(lia)); lia).
  destruct (pad_zeros k 64 (sha_update s [0x80]) (msg ++ [0x80]) (absorb_update _ _ _ A) Hk Hk) as [B Hb].
  { rewrite length_app. cbn [length]. unfold k, zlen. apply Nat2Z.inj. rewrite Nat2Z.inj_mod.
    replace (Z.of_nat (length msg + 1 + _)) with (Z.of_nat (length msg) + 1 + (55 - Z.of_nat (length msg)) mod 64) by (pose proof (Z.mod_pos_bound (55 - Z.of_nat (length msg)) 64 ltac:(lia)); lia).
    rewrite Z.add_mod_idemp_r by lia. replace (Z.of_nat (length msg) + 1 + (55 - Z.of_nat (length msg))) with 56 by lia. done. }
  set (s1 := pad_loop 64 (sha_update s [0x80])) in *.
  assert (Eb : be64 (u64 (u64 (zlen msg) * 8)) = be64 (8 * zlen msg)).
  { unfold u64 at 2. rewrite <- (be64_u64 (8 * zlen msg)). f_equal. unfold u64. rewrite Z.mul_mod_idemp_l by lia. f_equal. lia. }
  rewrite Eb. destruct (absorb_compress s1 _ (be64 (8 * zlen msg)) B) as (n & body & E & Hl & _ & Eh); [by rewrite length_app, Hb|].
  rewrite Eh. cbn [sha_compress sh_buf] in E. rewrite app_nil_r in E. f_equal. f_equal. unfold padding. fold k.
  replace (msg ++ 0x80 :: replicate k 0 ++ be64 (8 * zlen msg)) with body by (rewrite <- E, <- !app_assoc; done).
  by rewrite Hl, Nat.mul_comm, Nat.div_mul.
Qed.

Lemma parts_hash parts : job_sha256_parts parts = sha256 (concat parts).
Proof.
  unfold job_sha256_parts. enough (H : forall s msg, absorbed s msg -> sh_total s = u64 (zlen msg) ->
    let s' := fold_left (fun s p => if zlen p =? 0 then s else sha_update s p) parts s in
    absorbed s' (msg ++ concat parts) /\ sh_total s' = u64 (zlen (msg ++ concat parts))).
  { destruct (H sha_init [] absorbed_init eq_refl) as [A T]. by apply final_spec. }
  induction parts as [|p parts IH]; intros s msg A T; cbn [fold_left concat]; [by rewrite app_nil_r|].
  rewrite app_assoc. destruct (Z.eqb_spec (zlen p) 0) as [Hz|Hz].
  - destruct p; [rewrite app_nil_r; by apply IH|]. rewrite zlen_cons in Hz. pose proof (zlen_nonneg p). lia.
  - apply IH; [by apply absorb_update|]. rewrite (total_update s msg A), T, zlen_app. by autorewrite with word.
Qed.

(** The digest of a list of spans is the SHA-256 of their concatenation:
    the incremental hash, with its buffer, its length counter and its padding
    loop, computes the padded message block by block, however the message is
    cut into spans. *)
Theorem sha256_incremental parts parts' : concat parts = concat parts' ->
  job_sha256_parts parts = sha256 (concat parts) /\ job_sha256_parts parts = job_sha256_parts parts'.
Proof. intros E. rewrite !parts_hash, E. done. Qed.

Lemma sha256_incremental_witness : job_sha256_parts [[97]; []; [98; 99]] = sha256 [97; 98; 99] /\
  job_sha256_parts [[97]; []; [98; 99]] = job_sha256_parts [[97; 98]; [99]].
Proof. exact (sha256_incremental [[97]; []; [98; 99]] [[97; 98]; [99]] eq_refl). Defined.

(** The digests of the empty message and of abc in the standard. *)
Example sha256_vectors :
  job_sha256_parts [] = [0xe3; 0xb0; 0xc4; 0x42; 0x98; 0xfc; 0x1c; 0x14; 0x9a; 0xfb; 0xf4; 0xc8; 0x99; 0x6f; 0xb9; 0x24;
    0x27; 0xae; 0x41; 0xe4; 0x64; 0x9b; 0x93; 0x4c; 0xa4; 0x95; 0x99; 0x1b; 0x78; 0x52; 0xb8; 0x55] /\
  job_sha256 [97] [] [98; 99] [] = [0xba; 0x78; 0x16; 0xbf; 0x8f; 0x01; 0xcf; 0xea; 0x41; 0x41; 0x40; 0xde; 0x5d; 0xae; 0x22; 0x23;
    0xb0; 0x03; 0x61; 0xa3; 0x96; 0x17; 0x7a; 0x9c; 0xb4; 0x10; 0xff; 0x61; 0xf2; 0x00; 0x15; 0xad].
Proof. by vm_compute. Qed.

End Sha256.

(** ** The canonical form of an operation *)

Module JobDigest.
Import Sha256.

Definition JOB_ID_LEN : Z := 16.

(** The arguments of job_canonical_digest; an absent name is a null pointer
    with length zero, an absent output has no name and no value. *)
Record request := Request {
  rq_kind : Z;
  rq_op : bytes;
  rq_store : bytes;
  rq_in : option bytes;
  rq_in_incarnation : Z;
  rq_in_msg : Z;
  rq_key : bytes;
  rq_expected : Z;
  rq_value : bytes;
  rq_out : option (bytes * Z * bytes) }.

Definition in_name (r : request) : bytes := default [] (rq_in r).
Definition out_name (r : request) : bytes := match rq_out r with Some (n, _, _) => n | None => [] end.
Definition out_incarnation (r : request) : Z := match rq_out r with Some (_, i, _) => i | None => 0 end.
Definition out_value (r : request) : bytes := match rq_out r with Some (_, _, v) => v | None => [] end.

Definition flag {A} (o : option A) : Z := match o with Some _ => 1 | None => 0 end.

Definition fixed (r : request) : bytes :=
  [75; 74; 83; 49] ++ [u8 (rq_kind r)] ++ rq_op r ++ rq_store r ++
  [flag (rq_in r)] ++ put16 (zlen (in_name r)) ++ put64 (rq_in_incarnation r) ++ put64 (rq_in_msg r) ++
  put16 (zlen (rq_key r)) ++ put64 (rq_expected r) ++ put32 (zlen (rq_value r)) ++
  [flag (rq_out r)] ++ put16 (zlen (out_name r)) ++ put64 (out_incarnation r) ++ put32 (zlen (out_value r)).

Definition spans (r : request) : list bytes := [fixed r; in_name r; rq_key r; rq_value r; out_name r; out_value r].

Definition job_canonical_digest (r : request) : bytes := job_sha256_parts (spans r).

(** ** It is unambiguous *)

Record request_ok (r : request) : Prop := RequestOk {
  ro_kind : is_byte (rq_kind r);
  ro_op : zlen (rq_op r) = JOB_ID_LEN;
  ro_store : zlen (rq_store r) = JOB_ID_LEN;
  ro_in : fits 16 (zlen (in_name r));
  ro_in_incarnation : fits 64 (rq_in_incarnation r);
  ro_in_msg : fits 64 (rq_in_msg r);
  ro_key : fits 16 (zlen (rq_key r));
  ro_expected : fits 64 (rq_expected r);
  ro_value : fits 32 (zlen (rq_value r));
  ro_out : fits 16 (zlen (out_name r));
  ro_out_incarnation : fits 64 (out_incarnation r);
  ro_out_value : fits 32 (zlen (out_value r)) }.

Lemma put16_inj a b : fits 16 a -> fits 16 b -> put16 a = put16 b -> a = b.
Proof.
  intros Ha Hb H. pose proof (get16_put16 a []) as E. rewrite H, get16_put16 in E.
  by rewrite !u16_small in E.
Qed.

Lemma put32_inj a b : fits 32 a -> fits 32 b -> put32 a = put32 b -> a = b.
Proof.
  intros Ha Hb H. pose proof (get32_put32 a []) as E. rewrite H, get32_put32 in E.
  by rewrite !u32_small in E.
Qed.

Lemma put64_inj a b : fits 64 a -> fits 64 b -> put64 a = put64 b -> a = b.
Proof.
  intros Ha Hb H. pose proof (get64_put64 a []) as E. rewrite H, get64_put64 in E.
  by rewrite !u64_small in E.
Qed.

Lemma zlen_eq {A} (l k : list A) : zlen l = zlen k -> length l = length k.
Proof. unfold zlen. lia. Qed.

(** Splits an equation of concatenations whose first parts have the same
    length. *)
Ltac split_app H Hs := apply app_inj_1 in H as [Hs H]; [|(reflexivity || by apply zlen_eq; congruence)].

Lemma fixed_length r : request_ok r -> length (fixed r) = 85%nat.
Proof.
  intros [_ H1 H2 _ _ _ _ _ _ _ _ _]. unfold fixed, zlen, JOB_ID_LEN in *. rewrite !length_app. cbn [length]. rewrite !length_put16, !length_put32, !length_put64. cbn. lia.
Qed.

Lemma spans_inj r r' : request_ok r -> request_ok r' -> concat (spans r) = concat (spans r') -> r = r'.
Proof.
  intros K K' H. unfold spans in H. cbn [concat] in H. apply app_inj_1 in H as [Hf H]; [|by rewrite !fixed_length].
  destruct K as [A1 A2 A3 A4 A5 A6 A7 A8 A9 A10 A11 A12], K' as [B1 B2 B3 B4 B5 B6 B7 B8 B9 B10 B11 B12].
  unfold fixed in Hf. split_app Hf E0. split_app Hf E1. split_app Hf E2. split_app Hf E3. split_app Hf E4. split_app Hf E5.
  split_app Hf E6. split_app Hf E7. split_app Hf E8. split_app Hf E9. split_app Hf E10. split_app Hf E11. split_app Hf E12. split_app Hf E13.
  apply put16_inj in E5, E8, E12; try done. apply put64_inj in E6, E7, E9, E13; try done. apply put32_inj in E10, Hf; try done.
  split_app H F1. split_app H F2. split_app H F3. split_app H F4. rewrite !app_nil_r in H.
  injection E1 as E1. rewrite !u8_small in E1 by done. injection E4 as E4. injection E11 as E11.
  destruct r as [k o s i ii im key ex v out], r' as [k' o' s' i' ii' im' key' ex' v' out'].
  unfold in_name, out_name, out_incarnation, out_value in *. cbn in *. subst. f_equal.
  - destruct i, i'; cbn in *; congruence.
  - destruct out as [[[? ?] ?]|], out' as [[[? ?] ?]|]; cbn in *; congruence.
Qed.

(** The digest stored with a receipt identifies the operation: two
    requests with the same digest are the same request in every field that
    matters, unless SHA-256 has a collision between their canonical forms. *)
Theorem digest_identifies r r' : request_ok r -> request_ok r' -> job_canonical_digest r = job_canonical_digest r' ->
  r = r' \/ (concat (spans r) <> concat (spans r') /\ sha256 (concat (spans r)) = sha256 (concat (spans r'))).
Proof.
  intros K K' H. unfold job_canonical_digest in H.
  destruct (decide (concat (spans r) = concat (spans r'))) as [E|E]; [left; by apply spans_inj|right; split; [done|]].
  by rewrite !parts_hash in H.
Qed.

Definition demo_request : request := Request 2 (replicate 16 1) (replicate 16 2) None 0 0 [107] 0 [118] None.

Lemma demo_request_ok : request_ok demo_request.
Proof. by constructor. Qed.

Lemma digest_identifies_witness : demo_request = demo_request \/
  (concat (spans demo_request) <> concat (spans demo_request) /\ sha256 (concat (spans demo_request)) = sha256 (concat (spans demo_request))).
Proof. exact (digest_identifies demo_request demo_request demo_request_ok demo_request_ok eq_refl). Defined.

End JobDigest.
