(* ===== verification/Stream.v ===== *)
(** * The stream engine in memory (stream.c, stream.h)

    Topics with their partitions, retained records and consumer groups, and
    the operations on them that every API call and replay share: linking and
    trimming records, the retention pass, group membership. *)

From stdpp Require Import base numbers option list.
From S2P Require Import Prelude Crc.

Module Stream.

Definition STREAM_NAME_MAX := 255.
Definition STREAM_GROUP_MAX := 255.
Definition STREAM_PARTITIONS_MAX := 256.
Definition STREAM_FETCH_MAX := 1024.
Definition STREAM_GROUP_MEMBERS_MAX := 1024.
Definition STREAM_ID_LEN := 16.
Definition UINT32_MAX := 2 ^ 32 - 1.
Definition UINT64_MAX := 2 ^ 64 - 1.

(** ** Data *)

Record srec := SRec {
  r_offset : Z;
  r_at_ms : Z;
  r_body : bytes;
  r_key : bytes }.

Record part := Part {
  p_recs : list srec;
  p_base : Z;
  p_next : Z;
  p_bytes : Z }.

Record member := Member { mb_owner : Z; mb_deadline : Z }.

Record group := Group {
  g_name : bytes;
  g_offsets : list Z;
  g_members : list member;
  g_member_count : Z;
  g_generation : Z }.

Record topic := Topic {
  t_name : bytes;
  t_max_bytes : Z;
  t_max_age_ms : Z;
  t_bytes : Z;
  t_records : Z;
  t_revision : Z;
  t_id : bytes;
  t_id_persisted : bool;
  t_parts : list part;
  t_groups : list group }.

Definition t_partitions (t : topic) : Z := zlen (t_parts t).

(** What a [pwrite] loop does: all bytes, or an error after the first [n]. *)
Inductive write_result := Wrote | Torn (n : nat).

(** The store.  [ss_file] are the bytes of the log file, of which the first
    [ss_durable] are on stable storage; [ss_off] is the append cursor and
    [ss_buf] the staging buffer, absent while its capacity is 0.  The last
    four fields are the outcomes of the calls to come: random identities,
    writes, syncs and renames, allocations. *)
Record sstore := SStore {
  ss_topics : list topic;
  ss_open : bool;
  ss_failed : bool;
  ss_file : bytes;
  ss_durable : Z;
  ss_off : Z;
  ss_buf : bytes;
  ss_buf_cap : Z;
  ss_wal_bytes : Z;
  ss_live_bytes : Z;
  ss_wal_seq : Z;
  ss_synced_seq : Z;
  ss_ids : list bytes;
  ss_writes : list write_result;
  ss_syncs : list bool;
  ss_allocs : list bool }.

(** ** External outcomes *)

Definition salloc (s : sstore) : bool * sstore :=
  let '(b, r) := draw (ss_allocs s) in (b, {| s with ss_allocs := r |}).

Definition ssync (s : sstore) : bool * sstore :=
  let '(b, r) := draw (ss_syncs s) in (b, {| s with ss_syncs := r |}).

Definition swrite (s : sstore) : write_result * sstore :=
  match ss_writes s with
  | [] => (Wrote, s)
  | w :: r => (w, {| s with ss_writes := r |})
  end.

Definition topic_id_generate (s : sstore) : bytes * sstore :=
  match ss_ids s with
  | [] => (replicate (Z.to_nat STREAM_ID_LEN) 0, s)
  | i :: r => (i, {| s with ss_ids := r |})
  end.

(** ** Topics *)

Definition find_topic (l : list topic) (name : bytes) : option topic :=
  find (fun t => name_eqb (t_name t) name) l.

(** Writing through the pointer to a topic. *)
Fixpoint put_topic (l : list topic) (t : topic) : list topic :=
  match l with
  | [] => []
  | x :: l => if name_eqb (t_name x) (t_name t) then t :: l else x :: put_topic l t
  end.

Definition set_topic (s : sstore) (t : topic) : sstore :=
  {| s with ss_topics := put_topic (ss_topics s) t |}.

Definition add_live (s : sstore) (n : Z) : sstore :=
  {| s with ss_live_bytes := ss_live_bytes s + n |}.

Definition new_topic (name : bytes) (parts maxb age : Z) (id : bytes) : topic :=
  {| t_name := name; t_max_bytes := maxb; t_max_age_ms := age; t_bytes := 0; t_records := 0;
     t_revision := 1; t_id := id; t_id_persisted := false;
     t_parts := replicate (Z.to_nat parts) (Part [] 0 0 0); t_groups := [] |}.

Definition add_topic (s : sstore) (name : bytes) (parts maxb age : Z) : Z * sstore :=
  let l := zlen name in
  if (l =? 0) || (STREAM_NAME_MAX <? l) || (parts =? 0) || (STREAM_PARTITIONS_MAX <? parts) then (-1, s)
  else
    match find_topic (ss_topics s) name with
    | Some t =>
        (if (t_partitions t =? parts) && (t_max_bytes t =? maxb) && (t_max_age_ms t =? age)
         then 0 else -1, s)
    | None =>
        let '(ok, s) := salloc s in
        if negb ok then (-1, s)
        else
          let '(ok1, s) := salloc s in
          let '(ok2, s) := salloc s in
          if negb (ok1 && ok2) then (-1, s)
          else
            let '(id, s) := topic_id_generate s in
            let s := {| s with ss_topics := new_topic name parts maxb age id :: ss_topics s |} in
            (0, add_live s (22 + l))
    end.

(** ** Records *)

Definition record_bytes (r : srec) : Z := zlen (r_body r) + zlen (r_key r).

Definition record_live (t : topic) (r : srec) : Z :=
  35 + zlen (t_name t) + zlen (r_body r) + (if zlen (r_key r) =? 0 then 0 else 2 + zlen (r_key r)).

Definition identity_live (t : topic) : Z := 18 + zlen (t_name t).

Definition group_live (t : topic) (g : group) : Z :=
  t_partitions t * (25 + zlen (t_name t) + zlen (g_name g)).

Definition topic_live (t : topic) : Z :=
  22 + zlen (t_name t) + (if t_id_persisted t then identity_live t else 0) +
  zsum (fun x => zsum (record_live t) (p_recs x)) (t_parts t) + zsum (group_live t) (t_groups t).

Definition link_part (r : srec) (x : part) : part :=
  {| p_recs := p_recs x ++ [r]; p_base := p_base x; p_next := p_next x + 1;
     p_bytes := p_bytes x + record_bytes r |}.

Definition link_topic (t : topic) (p : nat) (r : srec) : topic :=
  {| t with t_parts := alter (link_part r) p (t_parts t); t_bytes := t_bytes t + record_bytes r;
            t_records := t_records t + 1; t_revision := t_revision t + 1 |}.

Definition part_link (s : sstore) (t : topic) (p : nat) (r : srec) : sstore * topic :=
  (add_live s (record_live t r), link_topic t p r).

Definition append_memory (s : sstore) (t : topic) (p off at_ : Z) (key body : bytes)
    : Z * sstore * topic :=
  match t_parts t !! Z.to_nat p with
  | None => (-1, s, t)
  | Some x =>
      if negb (off =? p_next x) then (-1, s, t)
      else
        let '(ok, s) := salloc s in
        if negb ok then (-1, s, t)
        else
          let '(s, t) := part_link s t (Z.to_nat p) (SRec off at_ body key) in
          (0, s, t)
  end.

(** The records in front of [base], and the others. *)
Fixpoint split_below (base : Z) (l : list srec) : list srec * list srec :=
  match l with
  | [] => ([], [])
  | r :: rest =>
      if r_offset r <? base then let '(gone, kept) := split_below base rest in (r :: gone, kept)
      else ([], l)
  end.

Definition trim_to (base : Z) (x : part) : part :=
  let '(gone, kept) := split_below base (p_recs x) in
  {| p_recs := kept; p_base := if p_base x <? base then base else p_base x;
     p_next := if p_next x <? base then base else p_next x;
     p_bytes := p_bytes x - zsum record_bytes gone |}.

(** The records a trim removes. *)
Definition gone_below (t : topic) (p : nat) (base : Z) : list srec :=
  match t_parts t !! p with Some x => (split_below base (p_recs x)).1 | None => [] end.

Definition base_moves (t : topic) (p : nat) (base : Z) : bool :=
  match t_parts t !! p with Some x => p_base x <? base | None => false end.

Definition trim_topic (t : topic) (p : nat) (base : Z) : topic :=
  let gone := gone_below t p base in
  {| t with t_parts := alter (trim_to base) p (t_parts t);
            t_bytes := t_bytes t - zsum record_bytes gone;
            t_records := t_records t - zlen gone;
            t_revision := if base_moves t p base then t_revision t + 1 else t_revision t |}.

Definition trim_part (s : sstore) (t : topic) (p : nat) (base : Z) : sstore * topic :=
  (add_live s (- zsum (record_live t) (gone_below t p base)), trim_topic t p base).

(** ** The retention pass *)

(** The head of partition [p]. *)
Definition head_of (t : topic) (p : nat) : option srec :=
  match t_parts t !! p with Some x => head (p_recs x) | None => None end.

(** The age of a record; the subtraction wraps around. *)
Definition too_old (t : topic) (now : Z) (r : srec) : bool :=
  t_max_age_ms t <=? u64 (now - r_at_ms r).

(** The inner loop; [b] is the last boundary, 0 when there is none. *)
Fixpoint age_loop (n : nat) (s : sstore) (t : topic) (p : nat) (now b : Z) : sstore * topic * Z :=
  match n with
  | O => (s, t, b)
  | S n =>
      match head_of t p with
      | Some r =>
          if too_old t now r then
            let '(s, t) := trim_part s t p (r_offset r + 1) in
            age_loop n s t p now (r_offset r + 1)
          else (s, t, b)
      | None => (s, t, b)
      end
  end.

(** What the pass carries: the store, the topic, the boundary of each
    partition and the partitions touched. *)
Definition pass : Type := sstore * topic * list Z * list nat.

Definition part_length (t : topic) (p : nat) : nat :=
  match t_parts t !! p with Some x => length (p_recs x) | None => 0%nat end.

Definition age_part (now : Z) (a : pass) (p : nat) : pass :=
  let '(s, t, base, touched) := a in
  if t_max_age_ms t =? 0 then a
  else
    let '(s, t, b) := age_loop (part_length t p) s t p now 0 in
    if b =? 0 then (s, t, base, touched) else (s, t, <[p := b]> base, touched ++ [p]).

(** The partition with the oldest head, [i] being the index of the first. *)
Fixpoint oldest_part (i : nat) (l : list part) (oldest : Z) (best : option nat) : option nat :=
  match l with
  | [] => best
  | x :: l =>
      match p_recs x with
      | r :: _ =>
          if r_at_ms r <? oldest then oldest_part (S i) l (r_at_ms r) (Some i)
          else oldest_part (S i) l oldest best
      | [] => oldest_part (S i) l oldest best
      end
  end.

Fixpoint size_loop (n : nat) (a : pass) : pass :=
  match n with
  | O => a
  | S n =>
      let '(s, t, base, touched) := a in
      if negb (t_max_bytes t =? 0) && (t_max_bytes t <? t_bytes t) then
        match oldest_part 0 (t_parts t) UINT64_MAX None with
        | None => a
        | Some bp =>
            match head_of t bp with
            | None => a
            | Some r =>
                let b := r_offset r + 1 in
                let '(s, t) := trim_part s t bp b in
                size_loop n (s, t, <[bp := b]> base,
                             if default 0 (base !! bp) =? 0 then touched ++ [bp] else touched)
            end
        end
      else a
  end.

(** The number of retained records bounds the rounds of the second loop. *)
Definition record_count (t : topic) : nat := sum_list ((fun x => length (p_recs x)) <$> t_parts t).

Definition retain (s : sstore) (t : topic) (now : Z) : pass :=
  let a := fold_left (age_part now) (seq 0 (length (t_parts t)))
             (s, t, replicate (length (t_parts t)) 0, []) in
  size_loop (record_count a.1.1.2) a.

(** ** Consumer groups *)

Definition find_group (t : topic) (name : bytes) : option group :=
  find (fun g => name_eqb (g_name g) name) (t_groups t).

Fixpoint put_group (l : list group) (g : group) : list group :=
  match l with
  | [] => []
  | x :: l => if name_eqb (g_name x) (g_name g) then g :: l else x :: put_group l g
  end.

Definition set_group (t : topic) (g : group) : topic := {| t with t_groups := put_group (t_groups t) g |}.

Definition new_group (t : topic) (name : bytes) : group :=
  {| g_name := name; g_offsets := replicate (length (t_parts t)) 0;
     g_members := []; g_member_count := 0; g_generation := 0 |}.

Definition group_get (s : sstore) (t : topic) (name : bytes) (create : bool)
    : option group * sstore * topic :=
  match find_group t name with
  | Some g => (Some g, s, t)
  | None =>
      if negb create then (None, s, t)
      else
        let '(ok, s) := salloc s in
        if negb ok then (None, s, t)
        else
          let '(ok1, s) := salloc s in
          let '(ok2, s) := salloc s in
          if negb (ok1 && ok2) then (None, s, t)
          else
            let g := new_group t name in
            (Some g, add_live s (group_live t g), {| t with t_groups := g :: t_groups t |})
  end.

(** Removing one member. *)
Definition drop_one (g : group) : group :=
  {| g with g_member_count := if g_member_count g =? 0 then 0 else g_member_count g - 1;
            g_generation := g_generation g + 1 |}.

(** The walk over the members: [keep] says which stay. *)
Fixpoint drop_members (keep : member -> bool) (l : list member) (g : group) : list member * group :=
  match l with
  | [] => ([], g)
  | m :: l =>
      if keep m then let '(l, g) := drop_members keep l g in (m :: l, g)
      else drop_members keep l (drop_one g)
  end.

Definition with_members (g : group) (l : list member) : group := {| g with g_members := l |}.

Definition group_reap_locked (g : group) (now : Z) : group :=
  let '(l, g) := drop_members (fun m => now <? mb_deadline m) (g_members g) g in with_members g l.

(** The insertion sort of the owners. *)
Fixpoint insert_owner (x : Z) (l : list Z) : list Z :=
  match l with
  | [] => [x]
  | y :: l => if x <? y then x :: y :: l else y :: insert_owner x l
  end.

Definition sort_owners (l : list Z) : list Z := fold_left (fun a x => insert_owner x a) l [].

Definition group_owners_locked (g : group) (now : Z) : list Z * group :=
  let g := group_reap_locked g now in (sort_owners (mb_owner <$> g_members g), g).

(** The position of the owner among [n] decides. *)
Fixpoint assigned_at (i n : Z) (owners : list Z) (owner partition : Z) : bool :=
  match owners with
  | [] => false
  | o :: owners => if o =? owner then partition mod n =? i else assigned_at (i + 1) n owners owner partition
  end.

Definition member_assigned_locked (g : group) (owner partition now : Z) : bool * group :=
  let '(owners, g) := group_owners_locked g now in
  (assigned_at 0 (zlen owners) owners owner partition, g).

(** The partitions of a member, as a join returns them. *)
Definition assignment (partitions : Z) (owners : list Z) (owner : Z) : list Z :=
  filter (fun p => nth (Z.to_nat (p mod zlen owners)) owners 0 = owner) (seqZ 0 partitions).

(** ** Keys *)

(** FNV-1a. *)
Definition hash_key (key : bytes) : Z :=
  fold_left (fun h b => u32 (Z.lxor h b * 16777619)) key 2166136261.

Definition choose_partition (t : topic) (hint : Z) (key : bytes) : Z :=
  if hint =? UINT32_MAX then (if zlen key =? 0 then 0 else hash_key key mod t_partitions t) else hint.

End Stream.
