(* ===== verification/StreamLog.v ===== *)
(** * The log of the stream engine (stream.c)

    The records and their frames, staging and flushing, the barrier, the
    persistent part of the retention pass, replay, compaction and the opening
    of a store. *)

From stdpp Require Import base numbers option list.
From S2P Require Import Prelude Crc Stream.
Import Crc Stream.

Module StreamLog.

Definition S_DECLARE := 1.
Definition S_APPEND := 2.
Definition S_COMMIT := 3.
Definition S_TRIM := 4.
Definition S_APPEND_BATCH := 5.
Definition S_APPEND_KEY := 6.
Definition S_APPEND_BATCH_KEY := 7.
Definition S_DELETE := 8.
Definition S_RETENTION := 9.
Definition S_REVISION := 10.
Definition S_IDENTITY := 11.

Definition RECORD_MAX : Z := Z.shiftl 64 20.

(** ** Records *)

Definition named (name : bytes) : bytes := put16 (zlen name) ++ name.

Definition declare_body (name : bytes) (parts maxb age : Z) : bytes :=
  named name ++ put32 parts ++ put64 maxb ++ put64 age.

Definition identity_body (name id : bytes) : bytes := named name ++ id.

Definition trim_body (name : bytes) (p base : Z) : bytes := named name ++ put32 p ++ put64 base.

Definition append_op (key : bytes) : Z := if zlen key =? 0 then S_APPEND else S_APPEND_KEY.

Definition append_body (name : bytes) (p off at_ : Z) (key body : bytes) : bytes :=
  named name ++ put32 p ++ put64 off ++ put64 at_ ++
  (if zlen key =? 0 then put32 (zlen body) ++ body
   else put16 (zlen key) ++ put32 (zlen body) ++ body ++ key).

Definition commit_body (name gname : bytes) (p off : Z) : bytes :=
  named name ++ named gname ++ put32 p ++ put64 off.

Definition retention_body (name : bytes) (maxb age : Z) : bytes := named name ++ put64 maxb ++ put64 age.

Definition revision_body (name : bytes) (revision : Z) : bytes := named name ++ put64 revision.

(** One input of a batch with the partition and the offset it was given. *)
Definition batch_item (keyed : bool) (p : Z) (r : srec) : bytes :=
  put32 p ++ put64 (r_offset r) ++ put64 (r_at_ms r) ++
  (if keyed then put16 (zlen (r_key r)) ++ put32 (zlen (r_body r)) ++ r_body r ++ r_key r
   else put32 (zlen (r_body r)) ++ r_body r).

Definition batch_op (keyed : bool) : Z := if keyed then S_APPEND_BATCH_KEY else S_APPEND_BATCH.

Definition batch_body (name : bytes) (keyed : bool) (items : list (Z * srec)) : bytes :=
  named name ++ put32 (zlen items) ++ concat ((fun i => batch_item keyed i.1 i.2) <$> items).

(** ** Frames *)

Definition frame_crc (op : Z) (body : bytes) : Z := Z.lxor (stream_crc32 [op]) (stream_crc32 body).

Definition frame_header (op : Z) (body : bytes) : bytes :=
  op :: put32 (zlen body) ++ put32 (frame_crc op body).

Definition frame (op : Z) (body : bytes) : bytes := frame_header op body ++ body.

(** ** Staging *)

Definition STREAM_WAL_BUF_CAP : Z := 256 * 1024.

Definition write_at (file : bytes) (off : Z) (data : bytes) : bytes :=
  take (Z.to_nat off) file ++ data ++ drop (Z.to_nat off + length data) file.

(** 0 when all was written. *)
Definition pwrite_all (s : sstore) (data : bytes) (off : Z) : bool * sstore :=
  let '(w, s) := swrite s in
  match w with
  | Wrote => (true, {| s with ss_file := write_at (ss_file s) off data |})
  | Torn n => (false, {| s with ss_file := write_at (ss_file s) off (take n data) |})
  end.

Definition wal_flush_locked (s : sstore) : bool * sstore :=
  if zlen (ss_buf s) =? 0 then (true, s)
  else
    let n := zlen (ss_buf s) in
    let '(ok, s) := pwrite_all s (ss_buf s) (ss_off s) in
    if negb ok then (false, s)
    else (true, {| s with ss_off := ss_off s + n; ss_buf := [] |}).

(** The buffer is allocated by the first record that fits. *)
Definition stage_buffer (s : sstore) (total : Z) : sstore :=
  if (ss_buf_cap s =? 0) && (total <=? STREAM_WAL_BUF_CAP) then
    let '(ok, s) := salloc s in
    if ok then {| s with ss_buf_cap := STREAM_WAL_BUF_CAP |} else s
  else s.

Definition wal_stage_locked (s : sstore) (op : Z) (body : bytes) : bool * sstore :=
  let h := frame_header op body in
  let total := 9 + zlen body in
  let s := stage_buffer s total in
  if (ss_buf_cap s =? 0) || (ss_buf_cap s <? total) then
    let '(ok, s) := wal_flush_locked s in
    if negb ok then (false, s)
    else
      let '(ok, s) := pwrite_all s h (ss_off s) in
      if negb ok then (false, s)
      else
        let '(ok, s) := if zlen body =? 0 then (true, s) else pwrite_all s body (ss_off s + 9) in
        if negb ok then (false, s) else (true, {| s with ss_off := ss_off s + total |})
  else
    let '(ok, s) := if ss_buf_cap s <? zlen (ss_buf s) + total then wal_flush_locked s else (true, s) in
    if negb ok then (false, s) else (true, {| s with ss_buf := ss_buf s ++ h ++ body |}).

Definition log_record (s : sstore) (op : Z) (body : bytes) : Z * sstore :=
  if negb (ss_open s) then (0, s)
  else
    let '(ok, s) := wal_stage_locked s op body in
    let '(ok, s) := if ok then wal_flush_locked s else (false, s) in
    if negb ok then (-1, {| s with ss_failed := true |})
    else (0, {| s with ss_wal_bytes := ss_wal_bytes s + (9 + zlen body);
                       ss_wal_seq := ss_wal_seq s + 1 |}).

(** The barrier, for the one caller there is. *)
Definition stream_wait_durable_locked (s : sstore) (target : Z) : Z * sstore :=
  if ss_failed s then (-1, s)
  else if target <=? ss_synced_seq s then (0, s)
  else
    let seq := ss_wal_seq s in
    let '(ok, s) := wal_flush_locked s in
    if negb ok then (-1, {| s with ss_failed := true |})
    else
      let '(ok, s) := ssync s in
      if negb ok then (-1, {| s with ss_failed := true |})
      else (0, {| s with ss_synced_seq := if ss_synced_seq s <? seq then seq else ss_synced_seq s;
                         ss_durable := zlen (ss_file s) |}).

(** ** Retention, with its records *)

Fixpoint log_trims (s : sstore) (t : topic) (base : list Z) (touched : list nat) : Z * sstore :=
  match touched with
  | [] => (0, s)
  | p :: touched =>
      let '(rc, s) := log_record s S_TRIM (trim_body (t_name t) (Z.of_nat p) (default 0 (base !! p))) in
      if negb (rc =? 0) then (rc, s) else log_trims s t base touched
  end.

Definition enforce (s : sstore) (t : topic) (persist : bool) (now : Z) : Z * sstore * topic :=
  let '(s, t, base, touched) := retain s t now in
  if negb persist then (0, s, t)
  else
    let '(rc, s) := log_trims s t base touched in
    (if rc =? 0 then 0 else -1, s, t).

(** ** Replay *)

(** The bytes behind the first [n]. *)
Definition from (b : bytes) (n : Z) : bytes := drop (Z.to_nat n) b.
Definition part_of (b : bytes) (at_ n : Z) : bytes := take (Z.to_nat n) (from b at_).

(** The items of a batch record, from position [at_].  The subtraction wraps
    around: in a record with a key length beyond its end the code reads past
    the buffer, where the model reads what is left of it. *)
Fixpoint replay_items (count : nat) (s : sstore) (t : topic) (keyed : bool) (b : bytes) (at_ : Z)
    : Z * Z * sstore * topic :=
  match count with
  | O => (0, at_, s, t)
  | S count =>
      let header := if keyed then 26 else 24 in
      if zlen b <? at_ + header then (-1, at_, s, t)
      else
        let dl := get32 (from b (at_ + (if keyed then 22 else 20))) in
        let kl := if keyed then get16 (from b (at_ + 20)) else 0 in
        if u64 (zlen b - at_ - header - kl) <? dl then (-1, at_, s, t)
        else
          let '(rc, s, t) :=
            append_memory s t (get32 (from b at_)) (get64 (from b (at_ + 4))) (get64 (from b (at_ + 12)))
              (part_of b (at_ + header + dl) kl) (part_of b (at_ + header) dl) in
          if negb (rc =? 0) then (-1, at_, s, t)
          else replay_items count s t keyed b (at_ + header + dl + kl)
  end.

(** Unlinking the first topic of that name. *)
Fixpoint remove_topic (l : list topic) (name : bytes) : list topic :=
  match l with
  | [] => []
  | x :: l => if name_eqb (t_name x) name then l else x :: remove_topic l name
  end.

Definition unlink_topic (s : sstore) (t : topic) : sstore :=
  let live := topic_live t in
  {| s with ss_topics := remove_topic (ss_topics s) (t_name t);
            ss_live_bytes := if live <=? ss_live_bytes s then ss_live_bytes s - live else 0 |}.

Definition set_offset (g : group) (p off : Z) : group :=
  {| g with g_offsets := <[Z.to_nat p := off]> (g_offsets g) |}.

(** A record about a topic that exists; [n] is the length of the body, [l]
    that of the name. *)
Definition replay_topic (s : sstore) (t : topic) (op : Z) (b : bytes) (n l : Z) : Z * sstore :=
  let fin (x : Z * sstore * topic) : Z * sstore := let '(rc, s, t) := x in (rc, set_topic s t) in
  if op =? S_RETENTION then
    if negb (n =? 18 + l) then (-1, s)
    else fin (0, s, {| t with t_max_bytes := get64 (from b (2 + l)); t_max_age_ms := get64 (from b (10 + l));
                              t_revision := t_revision t + 1 |})
  else if op =? S_REVISION then
    if negb (n =? 10 + l) || (get64 (from b (2 + l)) =? 0) then (-1, s)
    else fin (0, s, {| t with t_revision := get64 (from b (2 + l)) |})
  else if op =? S_APPEND then
    if n <? 26 + l then (-1, s)
    else
      let dl := get32 (from b (22 + l)) in
      if negb (n =? u32 (26 + l + dl)) then (-1, s)
      else fin (append_memory s t (get32 (from b (2 + l))) (get64 (from b (6 + l))) (get64 (from b (14 + l)))
                  [] (part_of b (26 + l) dl))
  else if op =? S_APPEND_KEY then
    if n <? 28 + l then (-1, s)
    else
      let dl := get32 (from b (24 + l)) in
      let kl := get16 (from b (22 + l)) in
      if negb (n =? 28 + l + dl + kl) then (-1, s)
      else fin (append_memory s t (get32 (from b (2 + l))) (get64 (from b (6 + l))) (get64 (from b (14 + l)))
                  (part_of b (28 + l + dl) kl) (part_of b (28 + l) dl))
  else if (op =? S_APPEND_BATCH) || (op =? S_APPEND_BATCH_KEY) then
    if n <? 6 + l then (-1, s)
    else
      let count := get32 (from b (2 + l)) in
      if (count =? 0) || (STREAM_FETCH_MAX <? count) then (-1, s)
      else
        let '(rc, at_, s, t) :=
          replay_items (Z.to_nat count) s t (op =? S_APPEND_BATCH_KEY) b (6 + l) in
        (if negb (rc =? 0) then -1 else if at_ =? n then 0 else -1, set_topic s t)
  else if op =? S_TRIM then
    if negb (n =? 14 + l) then (-1, s)
    else
      let p := get32 (from b (2 + l)) in
      if t_partitions t <=? p then (-1, s)
      else let '(s, t) := trim_part s t (Z.to_nat p) (get64 (from b (6 + l))) in (0, set_topic s t)
  else if op =? S_IDENTITY then
    if negb (n =? 18 + l) then (-1, s)
    else
      let s := if t_id_persisted t then s else add_live s (identity_live t) in
      fin (0, s, {| t with t_id := part_of b (2 + l) STREAM_ID_LEN; t_id_persisted := true |})
  else if op =? S_COMMIT then
    if n <? 16 + l then (-1, s)
    else
      let gl := get16 (from b (2 + l)) in
      if negb (n =? 16 + l + gl) then (-1, s)
      else
        let p := get32 (from b (4 + l + gl)) in
        if t_partitions t <=? p then (-1, s)
        else
          let '(g, s, t) := group_get s t (part_of b (4 + l) gl) true in
          match g with
          | None => (-1, set_topic s t)
          | Some g => (0, set_topic s (set_group t (set_offset g p (get64 (from b (8 + l + gl))))))
          end
  else (-1, s).

Definition replay (s : sstore) (op : Z) (b : bytes) : Z * sstore :=
  let n := zlen b in
  if op =? S_DECLARE then
    if n <? 22 then (-1, s)
    else
      let l := get16 b in
      if negb (n =? 22 + l) then (-1, s)
      else add_topic s (part_of b 2 l) (get32 (from b (2 + l))) (get64 (from b (6 + l))) (get64 (from b (14 + l)))
  else if n <? 2 then (-1, s)
  else
    let l := get16 b in
    if (STREAM_NAME_MAX <? l) || (n <? 2 + l) then (-1, s)
    else if op =? S_DELETE then
      if negb (n =? 2 + l) then (-1, s)
      else
        match find_topic (ss_topics s) (part_of b 2 l) with
        | Some t => (0, unlink_topic s t)
        | None => (-1, s)
        end
    else
      match find_topic (ss_topics s) (part_of b 2 l) with
      | None => (-1, s)
      | Some t => replay_topic s t op b n l
      end.

(** ** Compaction *)

Definition STREAM_COMPACT_FLOOR : Z := Z.shiftl 1 20.

Definition compact_limit (s : sstore) : Z :=
  let n := ss_live_bytes s * 2 + 65536 in
  if STREAM_COMPACT_FLOOR <? n then n else STREAM_COMPACT_FLOOR.

(** The records of one partition. *)
Definition compact_part (name : bytes) (i : nat) (x : part) : list (Z * bytes) :=
  let p := Z.of_nat i in
  (if p_base x =? 0 then [] else [(S_TRIM, trim_body name p (p_base x))]) ++
  ((fun r => (append_op (r_key r), append_body name p (r_offset r) (r_at_ms r) (r_key r) (r_body r)))
     <$> p_recs x).

Definition compact_group (name : bytes) (g : group) : list (Z * bytes) :=
  imap (fun i off => (S_COMMIT, commit_body name (g_name g) (Z.of_nat i) off)) (g_offsets g).

Definition compact_topic (t : topic) : list (Z * bytes) :=
  let name := t_name t in
  [(S_DECLARE, declare_body name (t_partitions t) (t_max_bytes t) (t_max_age_ms t));
   (S_IDENTITY, identity_body name (t_id t))] ++
  concat (imap (compact_part name) (t_parts t)) ++
  concat (compact_group name <$> t_groups t) ++
  [(S_REVISION, revision_body name (t_revision t))].

Definition compact_records (l : list topic) : list (Z * bytes) := concat (compact_topic <$> l).

(** One buffer and one write for each. *)
Fixpoint compact_write (s : sstore) (rs : list (Z * bytes)) (out : bytes) : option bytes * sstore :=
  match rs with
  | [] => (Some out, s)
  | (op, b) :: rs =>
      let '(ok, s) := salloc s in
      if negb ok then (None, s)
      else
        let '(w, s) := swrite s in
        match w with
        | Torn _ => (None, s)
        | Wrote => compact_write s rs (out ++ frame op b)
        end
  end.

(** The temporary file is written, synced, closed and renamed, the directory
    synced and the log opened again.  From the rename on the name refers to the
    new file, also when the directory cannot be synced. *)
Definition stream_compact_locked (s : sstore) : Z * sstore :=
  let '(ok, s) := ssync s in
  if negb ok then (-1, s)
  else
    let '(out, s) := compact_write s (compact_records (ss_topics s)) [] in
    let '(synced, s) := match out with Some _ => ssync s | None => (false, s) end in
    let '(closed, s) := ssync s in
    match out with
    | None => (-1, s)
    | Some file =>
        if negb (synced && closed) then (-1, s)
        else
          let '(renamed, s) := ssync s in
          if negb renamed then (-1, s)
          else
            let '(parent, s) := ssync s in
            let s := {| s with ss_file := file; ss_durable := zlen file |} in
            if negb parent then (-1, s)
            else
              let '(reopened, s) := ssync s in
              let s := {| s with ss_buf := [] |} in
              if negb reopened then (-1, s)
              else (0, {| s with ss_wal_bytes := zlen file; ss_off := zlen file;
                                 ss_synced_seq := ss_wal_seq s |})
    end.

Definition compact_maybe_locked (s : sstore) : Z * sstore :=
  if negb (ss_open s) || (ss_wal_bytes s <=? compact_limit s) then (0, s)
  else
    let '(rc, s) := stream_compact_locked s in
    if negb (rc =? 0) then (-1, {| s with ss_failed := true |}) else (0, s).

(** ** Opening a store *)

(** The loop over the file; [good] counts the bytes of the records read. *)
Fixpoint open_loop (fuel : nat) (s : sstore) (p : bytes) (good : Z) : sstore * Z :=
  match fuel with
  | O => (s, good)
  | S fuel =>
      if zlen p <? 9 then (s, good)
      else
        let op := byte_at p 0 in
        let n := get32 (from p 1) in
        if RECORD_MAX <? n then (s, good)
        else
          let '(ok, s) := salloc s in
          if negb ok then (s, good)
          else
            let b := part_of p 9 n in
            if negb ((zlen b =? n) && (frame_crc op b =? get32 (from p 5))) then (s, good)
            else
              let '(rc, s) := replay s op b in
              if negb (rc =? 0) then (s, good) else open_loop fuel s (from p (9 + n)) (good + (9 + n))
  end.

(** Topics without an identity get one. *)
Fixpoint upgrade (names : list bytes) (s : sstore) (upgraded : bool) : option (sstore * bool) :=
  match names with
  | [] => Some (s, upgraded)
  | name :: names =>
      match find_topic (ss_topics s) name with
      | None => upgrade names s upgraded
      | Some t =>
          if t_id_persisted t then upgrade names s upgraded
          else
            let '(ok, s) := salloc s in
            if negb ok then None
            else
              let '(rc, s) := log_record s S_IDENTITY (identity_body name (t_id t)) in
              if negb (rc =? 0) then None
              else
                let s := set_topic s {| t with t_id_persisted := true |} in
                upgrade names (add_live s (identity_live t)) true
      end
  end.

Fixpoint enforce_all (names : list bytes) (s : sstore) (nows : list Z) : sstore :=
  match names with
  | [] => s
  | name :: names =>
      match find_topic (ss_topics s) name with
      | None => enforce_all names s (tail nows)
      | Some t =>
          let '(_, s, t) := enforce s t false (hd 0 nows) in
          enforce_all names (set_topic s t) (tail nows)
      end
  end.

(** A store on the file; [s] carries the outcomes of the calls. *)
Definition stream_store_open (s : sstore) (nows : list Z) : option sstore :=
  let '(a1, s) := salloc s in
  let '(a2, s) := salloc s in
  let '(opened, s) := ssync s in
  let '(stated, s) := ssync s in
  if negb (a1 && a2 && opened && stated) then None
  else
    let '(s, good) := open_loop (S (length (ss_file s))) s (ss_file s) 0 in
    let '(cut, s) := ssync s in
    if negb cut then None
    else
      let s := {| s with ss_file := take (Z.to_nat good) (ss_file s); ss_durable := good;
                         ss_wal_bytes := good; ss_off := good |} in
      match upgrade (t_name <$> ss_topics s) s false with
      | None => None
      | Some (s, false) => Some (enforce_all (t_name <$> ss_topics s) s nows)
      | Some (s, true) =>
          let '(ok, s) := wal_flush_locked s in
          let '(synced, s) := if ok then ssync s else (false, s) in
          if negb synced then None
          else
            let s := {| s with ss_synced_seq := ss_wal_seq s; ss_wal_bytes := ss_off s;
                               ss_durable := zlen (ss_file s) |} in
            Some (enforce_all (t_name <$> ss_topics s) s nows)
      end.

(** The store before it has read its file. *)
Definition stream_blank (file : bytes) (ids : list bytes) (writes : list write_result)
    (syncs allocs : list bool) : sstore :=
  {| ss_topics := []; ss_open := true; ss_failed := false; ss_file := file; ss_durable := 0; ss_off := 0;
     ss_buf := []; ss_buf_cap := 0; ss_wal_bytes := 0; ss_live_bytes := 0; ss_wal_seq := 0;
     ss_synced_seq := 0; ss_ids := ids; ss_writes := writes; ss_syncs := syncs; ss_allocs := allocs |}.

End StreamLog.
