(* ===== verification/StreamOps.v ===== *)
(** * The operations of the stream engine (stream.c)

    Every call of the API, as a function of the store; the mutex it takes is
    the atomicity of the function.  Clock readings are arguments, null
    pointers are left out. *)

From stdpp Require Import base numbers option list.
From S2P Require Import Prelude Crc Stream StreamLog.
Import Crc Stream StreamLog.

Module StreamOps.

(** The test most calls begin with. *)
Definition begin (s : sstore) : bool * sstore :=
  if ss_failed s then (false, s)
  else
    let '(rc, s) := compact_maybe_locked s in
    (rc =? 0, s).

(** ** Topics *)

Definition stream_declare (s : sstore) (name : bytes) (parts maxb age : Z) : Z * sstore :=
  if negb (ss_open s) then (-1, s)
  else
    match begin s with
    | (false, s) => (-1, s)
    | (true, s) =>
        let exists_ := match find_topic (ss_topics s) name with Some _ => true | None => false end in
        let '(rc, s) := add_topic s name parts maxb age in
        if negb (rc =? 0) then (rc, s)
        else if exists_ then (0, s)
        else
          match find_topic (ss_topics s) name with
          | None => (-1, s)
          | Some t =>
              let '(ok1, s) := salloc s in
              let '(ok2, s) := salloc s in
              if negb (ok1 && ok2) then (-1, s)
              else
                let '(wr, s) := log_record s S_DECLARE (declare_body name parts maxb age) in
                let '(wr, s) := if wr =? 0 then log_record s S_IDENTITY (identity_body name (t_id t))
                                else (wr, s) in
                if negb (wr =? 0) then (-1, s)
                else
                  let s := set_topic s {| t with t_id_persisted := true |} in
                  let s := add_live s (identity_live t) in
                  stream_wait_durable_locked s (ss_wal_seq s)
          end
    end.

Definition stream_truncate_if_revision (s : sstore) (name : bytes) (p base expected : Z) : Z * sstore :=
  match begin s with
  | (false, s) => (-1, s)
  | (true, s) =>
      match find_topic (ss_topics s) name with
      | None => (3, s)
      | Some t =>
          match t_parts t !! Z.to_nat p with
          | None => (3, s)
          | Some x =>
              if negb (t_revision t =? expected) then (1, s)
              else if (base <? p_base x) || (p_next x <? base) then (2, s)
              else
                let '(ok, s) := salloc s in
                if negb ok then (-1, s)
                else
                  let '(rc, s) := log_record s S_TRIM (trim_body name p base) in
                  if negb (rc =? 0) then (rc, s)
                  else
                    let '(s, t) := trim_part s t (Z.to_nat p) base in
                    let s := set_topic s t in
                    stream_wait_durable_locked s (ss_wal_seq s)
          end
      end
  end.

Definition stream_set_retention_if_revision (s : sstore) (name : bytes) (maxb age expected now : Z)
    : Z * sstore :=
  if (zlen name =? 0) || (STREAM_NAME_MAX <? zlen name) || negb (ss_open s) then (-1, s)
  else
    match begin s with
    | (false, s) => (-1, s)
    | (true, s) =>
        match find_topic (ss_topics s) name with
        | None => (3, s)
        | Some t =>
            if negb (t_revision t =? expected) then (1, s)
            else
              let '(ok, s) := salloc s in
              if negb ok then (-1, s)
              else
                let '(rc, s) := log_record s S_RETENTION (retention_body name maxb age) in
                if negb (rc =? 0) then (rc, s)
                else
                  let t := {| t with t_max_bytes := maxb; t_max_age_ms := age;
                                     t_revision := t_revision t + 1 |} in
                  let '(rc, s, t) := enforce s t true now in
                  let s := set_topic s t in
                  if negb (rc =? 0) then (rc, s) else stream_wait_durable_locked s (ss_wal_seq s)
        end
    end.

Definition stream_delete_if_revision (s : sstore) (name : bytes) (expected : Z) : Z * sstore :=
  if (zlen name =? 0) || (STREAM_NAME_MAX <? zlen name) || negb (ss_open s) then (-1, s)
  else
    match begin s with
    | (false, s) => (-1, s)
    | (true, s) =>
        match find_topic (ss_topics s) name with
        | None => (3, s)
        | Some t =>
            if negb (t_revision t =? expected) then (1, s)
            else
              let '(rc, s) := log_record s S_DELETE (named name) in
              if negb (rc =? 0) then (-1, s)
              else
                let '(rc, s) := stream_wait_durable_locked s (ss_wal_seq s) in
                if negb (rc =? 0) then (-1, s) else (0, unlink_topic s t)
        end
    end.

(** ** Appending *)

(** The result, and the partition and offset of the record. *)
Definition stream_append (s : sstore) (name : bytes) (hint : Z) (key body : bytes) (at_ now : Z)
    : Z * option (Z * Z) * sstore :=
  let l := zlen name in
  let dl := zlen body in
  let kl := zlen key in
  if (RECORD_MAX <? dl) || (u32 (RECORD_MAX - 26 - l - (if kl =? 0 then 0 else 2 + kl)) <? dl)
  then (-1, None, s)
  else
    match begin s with
    | (false, s) => (-1, None, s)
    | (true, s) =>
        match find_topic (ss_topics s) name with
        | None => (-1, None, s)
        | Some t =>
            let p := choose_partition t hint key in
            match t_parts t !! Z.to_nat p with
            | None => (-1, None, s)
            | Some x =>
                let off := p_next x in
                let '(ok, s) := salloc s in
                if negb ok then (-1, None, s)
                else
                  let '(rc, s) := log_record s (append_op key) (append_body name p off at_ key body) in
                  if negb (rc =? 0) then (rc, None, s)
                  else
                    let '(rc, s, t) := append_memory s t p off at_ key body in
                    if negb (rc =? 0) then (rc, None, set_topic s t)
                    else
                      let '(rc, s, t) := enforce s t true now in
                      let s := set_topic s t in
                      if negb (rc =? 0) then (rc, None, s)
                      else
                        let '(rc, s) := stream_wait_durable_locked s (ss_wal_seq s) in
                        (rc, Some (p, off), s)
            end
        end
    end.

(** The first loop of a batch: every input gets a partition and an offset;
    [next] are the next offsets, [size] the size of the record so far. *)
Fixpoint batch_place (s : sstore) (t : topic) (hint at_ : Z) (inputs : list (bytes * bytes))
    (next : list Z) (size : Z) : option (list (Z * srec) * Z) * sstore :=
  match inputs with
  | [] => (Some ([], size), s)
  | (key, body) :: inputs =>
      let item := 24 + zlen body + zlen key in
      if RECORD_MAX - size <? item then (None, s)
      else
        let p := choose_partition t hint key in
        match next !! Z.to_nat p with
        | None => (None, s)
        | Some off =>
            let '(ok, s) := salloc s in
            if negb ok then (None, s)
            else
              let '(r, s) := batch_place s t hint at_ inputs (<[Z.to_nat p := off + 1]> next) (size + item) in
              ((fun x => ((p, SRec off at_ body key) :: x.1, x.2)) <$> r, s)
        end
  end.

Fixpoint link_items (s : sstore) (t : topic) (items : list (Z * srec)) : sstore * topic :=
  match items with
  | [] => (s, t)
  | (p, r) :: items => let '(s, t) := part_link s t (Z.to_nat p) r in link_items s t items
  end.

Definition stream_append_batch (s : sstore) (name : bytes) (hint : Z) (inputs : list (bytes * bytes))
    (at_ now : Z) : Z * list (Z * Z) * sstore :=
  let count := zlen inputs in
  if (count =? 0) || (STREAM_FETCH_MAX <? count) then (-1, [], s)
  else
    match begin s with
    | (false, s) => (-1, [], s)
    | (true, s) =>
        match find_topic (ss_topics s) name with
        | None => (-1, [], s)
        | Some t =>
            let '(ok1, s) := salloc s in
            let '(ok2, s) := salloc s in
            if negb (ok1 && ok2) then (-1, [], s)
            else
              let '(placed, s) := batch_place s t hint at_ inputs (p_next <$> t_parts t) (6 + zlen name) in
              match placed with
              | None => (-1, [], s)
              | Some (items, size) =>
                  let keyed := existsb (fun i => negb (zlen (i.1) =? 0)) inputs in
                  if keyed && (RECORD_MAX - 2 * count <? size) then (-1, [], s)
                  else
                    let '(ok, s) := salloc s in
                    if negb ok then (-1, [], s)
                    else
                      let '(rc, s) := log_record s (batch_op keyed) (batch_body name keyed items) in
                      if negb (rc =? 0) then (-1, [], s)
                      else
                        let '(s, t) := link_items s t items in
                        let '(rc, s, t) := enforce s t true now in
                        let s := set_topic s t in
                        let out := (fun i => (i.1, r_offset i.2)) <$> items in
                        if negb (rc =? 0) then (rc, out, s)
                        else
                          let '(rc, s) := stream_wait_durable_locked s (ss_wal_seq s) in
                          (rc, out, s)
              end
        end
    end.

(** ** Reading *)

(** The records of a page; [None] when the first one does not fit.  [c]
    counts them, [size] is the size of the answer so far. *)
Fixpoint fetch_scan (l : list srec) (off max max_bytes c size : Z) : option (list srec) :=
  match l with
  | [] => Some []
  | r :: l =>
      if max <=? c then Some []
      else if off <=? r_offset r then
        let need := 14 + record_bytes r in
        if max_bytes - size <? need then (if c =? 0 then None else Some [])
        else cons r <$> fetch_scan l off max max_bytes (c + 1) (size + need)
      else fetch_scan l off max max_bytes c size
  end.

(** The copies of the bodies and the keys. *)
Fixpoint copy_views (s : sstore) (l : list srec) : bool * sstore :=
  match l with
  | [] => (true, s)
  | r :: l =>
      let '(ok1, s) := salloc s in
      let '(ok2, s) := if zlen (r_key r) =? 0 then (true, s) else salloc s in
      if negb (ok1 && ok2) then (false, s) else copy_views s l
  end.

(** The page and its copies: an error code or the records. *)
Definition fetch_page (s : sstore) (x : part) (off max max_bytes : Z) : (Z + list srec) * sstore :=
  match fetch_scan (p_recs x) off max max_bytes 0 4 with
  | None => (inl (-2), s)
  | Some l =>
      let '(ok, s) := salloc s in
      if negb ok then (inl (-1), s)
      else
        let '(ok, s) := copy_views s l in
        if negb ok then (inl (-1), s) else (inr l, s)
  end.

Definition fetch_args_bad (max max_bytes : Z) : bool :=
  (max =? 0) || (STREAM_FETCH_MAX <? max) || (max_bytes <? 16).

Definition stream_fetch (s : sstore) (name : bytes) (p off max max_bytes : Z) : Z * list srec * sstore :=
  if fetch_args_bad max max_bytes then (-1, [], s)
  else
    match find_topic (ss_topics s) name with
    | None => (0, [], s)
    | Some t =>
        match t_parts t !! Z.to_nat p with
        | None => (0, [], s)
        | Some x =>
            match fetch_page s x off max max_bytes with
            | (inl rc, s) => (rc, [], s)
            | (inr l, s) => (1, l, s)
            end
        end
    end.

Inductive fetch_range := RANGE_OK | RANGE_EXPIRED | RANGE_AHEAD | RANGE_RECREATED.

Record fetched := Fetched {
  fe_id : bytes;
  fe_base : Z;
  fe_next : Z;
  fe_resume : Z;
  fe_range : fetch_range;
  fe_records : list srec }.

Definition range_of (t : topic) (x : part) (off : Z) (expected : option bytes) : fetch_range :=
  if match expected with Some id => negb (name_eqb id (t_id t)) | None => false end then RANGE_RECREATED
  else if off <? p_base x then RANGE_EXPIRED
  else if p_next x <? off then RANGE_AHEAD
  else RANGE_OK.

Definition resume_of (off : Z) (l : list srec) : Z :=
  match last l with
  | None => off
  | Some r => if r_offset r =? UINT64_MAX then UINT64_MAX else r_offset r + 1
  end.

Definition stream_fetch_metadata (s : sstore) (name : bytes) (p off max max_bytes : Z)
    (expected : option bytes) (now : Z) : (Z + fetched) * sstore :=
  if (zlen name =? 0) || fetch_args_bad max max_bytes then (inl (-1), s)
  else
    match find_topic (ss_topics s) name with
    | None => (inl 3, s)
    | Some t =>
        if t_partitions t <=? p then (inl 3, s)
        else
          let '(rc, s, t) := enforce s t true now in
          let s := set_topic s t in
          if negb (rc =? 0) then (inl (-1), s)
          else
            match t_parts t !! Z.to_nat p with
            | None => (inl 3, s)
            | Some x =>
                let answer := Fetched (t_id t) (p_base x) (p_next x) in
                match range_of t x off expected with
                | RANGE_OK =>
                    match fetch_page s x off max max_bytes with
                    | (inl rc, s) => (inl rc, s)
                    | (inr l, s) => (inr (answer (resume_of off l) RANGE_OK l), s)
                    end
                | range => (inr (answer off range []), s)
                end
            end
    end.

Definition stream_revision (s : sstore) (name : bytes) : option Z :=
  t_revision <$> find_topic (ss_topics s) name.

Definition stream_config_snapshot (s : sstore) (name : bytes) : option (Z * Z * Z * Z) :=
  (fun t => (t_partitions t, t_max_bytes t, t_max_age_ms t, t_revision t)) <$> find_topic (ss_topics s) name.

(** The boundaries and sizes of all partitions, and the revision. *)
Definition stream_partition_snapshot (s : sstore) (name : bytes) (cap : Z)
    : Z * option (list (Z * Z * Z) * Z) :=
  match find_topic (ss_topics s) name with
  | None => (0, None)
  | Some t =>
      if cap <? t_partitions t then (-1, None)
      else (1, Some ((fun x => (p_base x, p_next x, p_bytes x)) <$> t_parts t, t_revision t))
  end.

(** ** Offsets of consumer groups *)

Definition group_name_bad (gname : bytes) : bool := (zlen gname =? 0) || (STREAM_GROUP_MAX <? zlen gname).

(** One record, the offset in memory, and the barrier. *)
Definition commit_one (s : sstore) (t : topic) (g : group) (p off : Z) : Z * sstore :=
  let '(ok, s) := salloc s in
  if negb ok then (-1, set_topic s t)
  else
    let '(rc, s) := log_record s S_COMMIT (commit_body (t_name t) (g_name g) p off) in
    if negb (rc =? 0) then (rc, set_topic s t)
    else
      let s := set_topic s (set_group t (set_offset g p off)) in
      stream_wait_durable_locked s (ss_wal_seq s).

Definition in_range (x : part) (off : Z) : bool := (p_base x <=? off) && (off <=? p_next x).

Definition stream_commit (s : sstore) (name gname : bytes) (p off : Z) : Z * sstore :=
  if group_name_bad gname then (-1, s)
  else
    match begin s with
    | (false, s) => (-1, s)
    | (true, s) =>
        match find_topic (ss_topics s) name with
        | None => (-1, s)
        | Some t =>
            match t_parts t !! Z.to_nat p with
            | None => (-1, s)
            | Some x =>
                if negb (in_range x off) then (-1, s)
                else
                  let '(g, s, t) := group_get s t gname true in
                  match g with
                  | None => (-1, set_topic s t)
                  | Some g =>
                      if off <=? default 0 (g_offsets g !! Z.to_nat p) then (0, set_topic s t)
                      else commit_one s t g p off
                  end
            end
        end
    end.

(** The topic and the group, both of which exist. *)
Definition find_both (s : sstore) (name gname : bytes) : option (topic * group) :=
  match find_topic (ss_topics s) name with
  | None => None
  | Some t => (fun g => (t, g)) <$> find_group t gname
  end.

Definition stream_group_generation (s : sstore) (name gname : bytes) (now : Z) : Z * Z * sstore :=
  if group_name_bad gname then (-1, 0, s)
  else
    match find_both s name gname with
    | None => (0, 0, s)
    | Some (t, g) =>
        let g := group_reap_locked g now in
        (1, g_generation g, set_topic s (set_group t g))
    end.

Definition stream_commit_if_generation (s : sstore) (name gname : bytes) (p off expected now : Z)
    : Z * sstore :=
  if group_name_bad gname then (-1, s)
  else
    match begin s with
    | (false, s) => (-1, s)
    | (true, s) =>
        match find_both s name gname with
        | None => (3, s)
        | Some (t, g) =>
            match t_parts t !! Z.to_nat p with
            | None => (3, s)
            | Some x =>
                let g := group_reap_locked g now in
                let t := set_group t g in
                let s := set_topic s t in
                if negb (g_generation g =? expected) then (1, s)
                else if negb (in_range x off) then (2, s)
                else commit_one s t g p off
            end
        end
    end.

(** The records of a batch of offsets, and then the offsets in memory. *)
Fixpoint log_commits (s : sstore) (name gname : bytes) (inputs : list (Z * Z)) : Z * sstore :=
  match inputs with
  | [] => (0, s)
  | (p, off) :: inputs =>
      let '(rc, s) := log_record s S_COMMIT (commit_body name gname p off) in
      if negb (rc =? 0) then (rc, s) else log_commits s name gname inputs
  end.

Definition set_offsets (g : group) (inputs : list (Z * Z)) : group :=
  fold_left (fun g i => set_offset g i.1 i.2) inputs g.

Definition commit_many (s : sstore) (t : topic) (g : group) (inputs : list (Z * Z)) : Z * sstore :=
  let '(ok, s) := salloc s in
  if negb ok then (-1, set_topic s t)
  else
    let '(rc, s) := log_commits s (t_name t) (g_name g) inputs in
    if negb (rc =? 0) then (rc, set_topic s t)
    else
      let s := set_topic s (set_group t (set_offsets g inputs)) in
      stream_wait_durable_locked s (ss_wal_seq s).

(** The first input that is out of place: an unknown partition (3) or an
    offset outside of what is retained (2). *)
Fixpoint check_inputs (t : topic) (inputs : list (Z * Z)) : Z :=
  match inputs with
  | [] => 0
  | (p, off) :: inputs =>
      match t_parts t !! Z.to_nat p with
      | None => 3
      | Some x => if negb (in_range x off) then 2 else check_inputs t inputs
      end
  end.

Definition commit_batch_size (name gname : bytes) : Z := 16 + zlen name + zlen gname.

Definition stream_commit_batch_if_generation (s : sstore) (name gname : bytes) (inputs : list (Z * Z))
    (expected now : Z) : Z * sstore :=
  let count := zlen inputs in
  if group_name_bad gname || (count =? 0) || (STREAM_FETCH_MAX <? count) then (-1, s)
  else
    match begin s with
    | (false, s) => (-1, s)
    | (true, s) =>
        match find_both s name gname with
        | None => (3, s)
        | Some (t, g) =>
            let g := group_reap_locked g now in
            let t := set_group t g in
            let s := set_topic s t in
            if negb (g_generation g =? expected) then (1, s)
            else
              let bad := check_inputs t inputs in
              if negb (bad =? 0) then (bad, s)
              else if UINT32_MAX / count <? commit_batch_size name gname then (-1, s)
              else commit_many s t g inputs
        end
    end.

Inductive offset_reset := RESET_EARLIEST | RESET_LATEST | RESET_ABSOLUTE | RESET_RELATIVE.

(** The offset a partition is reset to; [None] when the arithmetic fails. *)
Definition reset_value (x : part) (current : Z) (strategy : offset_reset) (absolute delta : Z) : option Z :=
  match strategy with
  | RESET_EARLIEST => Some (p_base x)
  | RESET_LATEST => Some (p_next x)
  | RESET_ABSOLUTE => Some absolute
  | RESET_RELATIVE =>
      if delta <? 0 then
        let amount := - (delta + 1) + 1 in
        if current <? amount then None else Some (current - amount)
      else if UINT64_MAX - current <? delta then None else Some (current + delta)
  end.

Fixpoint reset_targets (i : Z) (parts : list part) (offsets : list Z) (strategy : offset_reset)
    (absolute delta : Z) : option (list (Z * Z)) :=
  match parts with
  | [] => Some []
  | x :: parts =>
      match reset_value x (hd 0 offsets) strategy absolute delta with
      | None => None
      | Some v =>
          if negb (in_range x v) then None
          else cons (i, v) <$> reset_targets (i + 1) parts (tail offsets) strategy absolute delta
      end
  end.

(** The result, and the old and new offsets; [cap] is the room for them,
    absent when the caller does not ask. *)
Definition stream_group_reset_offsets_if_generation (s : sstore) (name gname : bytes) (expected : Z)
    (strategy : offset_reset) (absolute delta : Z) (force : bool) (cap : option Z) (now : Z)
    : Z * list (Z * Z) * sstore :=
  if group_name_bad gname then (-1, [], s)
  else
    match begin s with
    | (false, s) => (-1, [], s)
    | (true, s) =>
        match find_both s name gname with
        | None => (3, [], s)
        | Some (t, g) =>
            if match cap with Some n => n <? t_partitions t | None => false end then (-1, [], s)
            else
              let g := group_reap_locked g now in
              let t := set_group t g in
              let s := set_topic s t in
              if negb (g_generation g =? expected) then (1, [], s)
              else if negb (g_member_count g =? 0) && negb force then (4, [], s)
              else
                match reset_targets 0 (t_parts t) (g_offsets g) strategy absolute delta with
                | None => (2, [], s)
                | Some targets =>
                    if UINT32_MAX / t_partitions t <? commit_batch_size name gname then (-1, [], s)
                    else
                      let '(rc, s) := commit_many s t g targets in
                      (rc, zip (g_offsets g) (targets.*2), s)
                end
        end
    end.

(** ** Membership *)

Fixpoint renew (owner deadline : Z) (l : list member) : list member :=
  match l with
  | [] => []
  | m :: l => if mb_owner m =? owner then Member owner deadline :: l else m :: renew owner deadline l
  end.

(** The result, the partitions of the caller and the generation. *)
Definition stream_group_join (s : sstore) (name gname : bytes) (owner lease now : Z)
    : Z * list Z * Z * sstore :=
  if group_name_bad gname || (owner =? 0) || (lease =? 0) || (60000 <? lease) then (-1, [], 0, s)
  else
    match find_topic (ss_topics s) name with
    | None => (-1, [], 0, s)
    | Some t =>
        let '(g, s, t) := group_get s t gname true in
        match g with
        | None => (-1, [], 0, set_topic s t)
        | Some g =>
            let g := group_reap_locked g now in
            let known := existsb (fun m => mb_owner m =? owner) (g_members g) in
            let '(ok, s, g) :=
              if known then (true, s, g)
              else if STREAM_GROUP_MEMBERS_MAX <=? g_member_count g then (false, s, g)
              else
                let '(ok, s) := salloc s in
                if negb ok then (false, s, g)
                else (true, s, {| g with g_members := Member owner 0 :: g_members g;
                                         g_member_count := g_member_count g + 1;
                                         g_generation := g_generation g + 1 |}) in
            if negb ok then (-1, [], 0, set_topic s (set_group t g))
            else
              let g := with_members g (renew owner (now + lease) (g_members g)) in
              let '(owners, g) := group_owners_locked g now in
              let s := set_topic s (set_group t g) in
              let '(ok, s) := salloc s in
              if negb ok then (-1, [], 0, s)
              else (0, assignment (t_partitions t) owners owner, g_generation g, s)
        end
    end.

Fixpoint remove_member (l : list member) (owner : Z) : option (list member) :=
  match l with
  | [] => None
  | m :: l => if mb_owner m =? owner then Some l else cons m <$> remove_member l owner
  end.

Definition stream_group_leave_member (s : sstore) (name gname : bytes) (owner : Z) : Z * sstore :=
  if group_name_bad gname || (owner =? 0) then (-1, s)
  else
    match find_both s name gname with
    | None => (-1, s)
    | Some (t, g) =>
        match remove_member (g_members g) owner with
        | None => (-1, s)
        | Some l => (0, set_topic s (set_group t (with_members (drop_one g) l)))
        end
    end.

(** Every group of every topic. *)
Definition map_groups (f : group -> group) (s : sstore) : sstore :=
  {| s with ss_topics := (fun t => {| t with t_groups := f <$> t_groups t |}) <$> ss_topics s |}.

Definition leave_group (owner : Z) (g : group) : group :=
  let '(l, g) := drop_members (fun m => negb (mb_owner m =? owner)) (g_members g) g in with_members g l.

Definition stream_group_leave_owner (s : sstore) (owner : Z) : sstore :=
  if owner =? 0 then s else map_groups (leave_group owner) s.

Definition stream_reap (s : sstore) (now : Z) : sstore := map_groups (fun g => group_reap_locked g now) s.

Definition stream_group_member_assigned (s : sstore) (name gname : bytes) (owner p now : Z)
    : Z * Z * sstore :=
  if group_name_bad gname || (owner =? 0) then (-1, 0, s)
  else
    match find_both s name gname with
    | None => (0, 0, s)
    | Some (t, g) =>
        if t_partitions t <=? p then (0, 0, s)
        else
          let '(assigned, g) := member_assigned_locked g owner p now in
          (if assigned then 1 else 0, g_generation g, set_topic s (set_group t g))
    end.

(** ** Offsets of members *)

Definition stream_commit_for_owner (s : sstore) (name gname : bytes) (p off owner now : Z) : Z * sstore :=
  if group_name_bad gname || (owner =? 0) then (-1, s)
  else
    match begin s with
    | (false, s) => (-1, s)
    | (true, s) =>
        match find_both s name gname with
        | None => (-1, s)
        | Some (t, g) =>
            if t_partitions t <=? p then (-1, s)
            else
              let '(assigned, g) := member_assigned_locked g owner p now in
              let t := set_group t g in
              let s := set_topic s t in
              if negb assigned then (-1, s) else commit_one s t g p off
        end
    end.

Definition stream_commit_for_owner_if_generation (s : sstore) (name gname : bytes)
    (p off owner expected now : Z) : Z * sstore :=
  if group_name_bad gname || (owner =? 0) then (-1, s)
  else
    match begin s with
    | (false, s) => (-1, s)
    | (true, s) =>
        match find_both s name gname with
        | None => (3, s)
        | Some (t, g) =>
            match t_parts t !! Z.to_nat p with
            | None => (3, s)
            | Some x =>
                let '(assigned, g) := member_assigned_locked g owner p now in
                let t := set_group t g in
                let s := set_topic s t in
                if negb assigned then (3, s)
                else if negb (g_generation g =? expected) then (1, s)
                else if negb (in_range x off) then (2, s)
                else commit_one s t g p off
            end
        end
    end.

(** Every partition exists and, for an owner, is assigned to it. *)
Fixpoint check_owned (t : topic) (g : group) (owner : Z) (inputs : list (Z * Z)) (now : Z) : bool * group :=
  match inputs with
  | [] => (true, g)
  | (p, _) :: inputs =>
      if t_partitions t <=? p then (false, g)
      else if owner =? 0 then check_owned t g owner inputs now
      else
        let '(assigned, g) := member_assigned_locked g owner p now in
        if negb assigned then (false, g) else check_owned t g owner inputs now
  end.

Definition stream_commit_batch_for_owner (s : sstore) (name gname : bytes) (owner : Z)
    (inputs : list (Z * Z)) (now : Z) : Z * sstore :=
  if group_name_bad gname || (zlen inputs =? 0) then (-1, s)
  else
    match begin s with
    | (false, s) => (-1, s)
    | (true, s) =>
        match find_topic (ss_topics s) name with
        | None => (-1, s)
        | Some t =>
            let '(g, s, t) := group_get s t gname (owner =? 0) in
            match g with
            | None => (-1, set_topic s t)
            | Some g =>
                let '(ok, g) := check_owned t g owner inputs now in
                let t := set_group t g in
                let s := set_topic s t in
                if negb ok then (-1, s) else commit_many s t g inputs
            end
        end
    end.

Definition stream_group_offset (s : sstore) (name gname : bytes) (p : Z) : option Z :=
  match find_both s name gname with
  | None => None
  | Some (_, g) => g_offsets g !! Z.to_nat p
  end.

Definition stream_group_lag (s : sstore) (name gname : bytes) (p : Z) : option Z :=
  match find_both s name gname with
  | None => None
  | Some (t, g) =>
      match t_parts t !! Z.to_nat p, g_offsets g !! Z.to_nat p with
      | Some x, Some off => Some (if off <? p_next x then p_next x - off else 0)
      | _, _ => None
      end
  end.

(** ** Statistics *)

Definition stream_topic_count (s : sstore) : Z := zlen (ss_topics s).
Definition stream_partition_count (s : sstore) : Z := zsum t_partitions (ss_topics s).
Definition stream_retention_bytes (s : sstore) : Z := zsum t_bytes (ss_topics s).
Definition stream_group_count (s : sstore) : Z := zsum (fun t => zlen (t_groups t)) (ss_topics s).

Definition stream_foreach_stats (s : sstore) : list (bytes * Z * Z * Z) :=
  (fun t => (t_name t, t_partitions t, t_bytes t, t_records t)) <$> ss_topics s.

Definition stream_group_foreach_stats (s : sstore) (now : Z) : list (bytes * bytes * Z * Z) * sstore :=
  let s := stream_reap s now in
  (concat ((fun t => (fun g => (t_name t, g_name g, g_generation g, g_member_count g)) <$> t_groups t)
             <$> ss_topics s), s).

Definition stream_group_member_count (s : sstore) (now : Z) : Z * sstore :=
  let s := stream_reap s now in
  (zsum (fun t => zsum g_member_count (t_groups t)) (ss_topics s), s).

Definition stream_persistence_failed (s : sstore) : bool := ss_failed s.

(** The live members: how many partitions each has and how long its lease
    still runs. *)
Definition member_view (t : topic) (g : group) (owners : list Z) (now : Z) (owner : Z) : Z * Z :=
  let deadline := match find (fun m => mb_owner m =? owner) (g_members g) with
                  | Some m => mb_deadline m | None => 0 end in
  (zlen (assignment (t_partitions t) owners owner), if now <? deadline then deadline - now else 0).

Definition stream_group_member_snapshot (s : sstore) (name gname : bytes) (now : Z)
    : Z * Z * list (Z * Z) * sstore :=
  if group_name_bad gname then (-1, 0, [], s)
  else
    match find_both s name gname with
    | None => (0, 0, [], s)
    | Some (t, g) =>
        let '(owners, g) := group_owners_locked g now in
        (1, g_generation g, member_view t g owners now <$> owners, set_topic s (set_group t g))
    end.

Definition stream_checkpoint_maybe (s : sstore) : Z * sstore :=
  if ss_failed s || negb (ss_open s) then (-1, s)
  else
    let before := ss_wal_bytes s in
    let '(rc, s) := compact_maybe_locked s in
    (if negb (rc =? 0) then -1 else if ss_wal_bytes s <? before then 1 else 0, s).

(** The recount: records, live bytes, and the maintained estimate. *)
Definition stream_debug_recount (s : sstore) : Z * Z * Z :=
  (zsum (fun t => zsum (fun x => zlen (p_recs x)) (t_parts t)) (ss_topics s),
   zsum topic_live (ss_topics s), ss_live_bytes s).

End StreamOps.
