(* ===== verification/StreamSpec.v ===== *)
(** * The invariant of the stream engine

    The offsets of a partition are consecutive, the counters of partitions and
    topics are the sums they stand for, and the estimate of the live bytes is
    the recount; every operation in memory keeps that. *)

From stdpp Require Import base numbers option list.
From S2P Require Import Prelude Stream.
Import Stream.

Module StreamSpec.

(** ** The invariant *)

Fixpoint offsets_from (base : Z) (l : list srec) : Prop :=
  match l with
  | [] => True
  | r :: l => r_offset r = base /\ offsets_from (base + 1) l
  end.

(** The size of a record in the log. *)
Definition stored_size (name_len : Z) (key body : bytes) : Z :=
  (if zlen key =? 0 then 26 else 28) + name_len + zlen body + zlen key.

Record rec_ok (l : Z) (r : srec) : Prop := RecOk {
  ro_body : bytes_ok (r_body r);
  ro_key : bytes_ok (r_key r) /\ fits 16 (zlen (r_key r));
  ro_at : fits 64 (r_at_ms r);
  ro_size : stored_size l (r_key r) (r_body r) <= Z.shiftl 64 20 }.

Record part_ok (l : Z) (x : part) : Prop := PartOk {
  po_base : 0 <= p_base x;
  po_offsets : offsets_from (p_base x) (p_recs x);
  po_next : p_next x = p_base x + zlen (p_recs x);
  po_bytes : p_bytes x = zsum record_bytes (p_recs x);
  po_recs : Forall (rec_ok l) (p_recs x) }.

Definition short_name (name : bytes) : Prop := bytes_ok name /\ 0 < zlen name <= 255.

Record group_ok (n : nat) (g : group) : Prop := GroupOk {
  go_name : short_name (g_name g);
  go_length : length (g_offsets g) = n;
  go_offsets : Forall (fits 64) (g_offsets g);
  go_count : g_member_count g = zlen (g_members g);
  go_owners : NoDup (mb_owner <$> g_members g) }.

Record topic_ok (t : topic) : Prop := TopicOk {
  to_name : short_name (t_name t);
  to_parts : 0 < t_partitions t <= STREAM_PARTITIONS_MAX;
  to_each : Forall (part_ok (zlen (t_name t))) (t_parts t);
  to_bytes : t_bytes t = zsum p_bytes (t_parts t);
  to_records : t_records t = zsum (fun x => zlen (p_recs x)) (t_parts t);
  to_revision : 0 < t_revision t;
  to_id : bytes_ok (t_id t) /\ zlen (t_id t) = STREAM_ID_LEN;
  to_limits : fits 64 (t_max_bytes t) /\ fits 64 (t_max_age_ms t);
  to_groups : Forall (group_ok (length (t_parts t))) (t_groups t);
  to_distinct : NoDup (g_name <$> t_groups t) }.

(** The names of topics are distinct. *)
Definition topics_ok (l : list topic) : Prop := Forall topic_ok l /\ NoDup (t_name <$> l).

(** ** Records of a partition *)

Lemma split_below_app b l : (split_below b l).1 ++ (split_below b l).2 = l.
Proof.
  induction l as [|r l IH]; [done|]. cbn [split_below]. destruct (r_offset r <? b); [|done].
  destruct (split_below b l) as [x y]. cbn in *. by rewrite IH.
Qed.

Lemma split_below_none b base l : offsets_from base l -> b <= base -> split_below b l = ([], l).
Proof.
  destruct l as [|r l]; [done|]. cbn. intros [-> _] H. by destruct (Z.ltb_spec base b); [lia|].
Qed.

Lemma split_below_all b base l : offsets_from base l -> base + zlen l <= b -> split_below b l = (l, []).
Proof.
  revert base. induction l as [|r l IH]; intros base; cbn; [done|]. rewrite zlen_cons. intros [-> H] Hb.
  pose proof (zlen_nonneg l). destruct (Z.ltb_spec base b); [|lia]. by rewrite (IH (base + 1)) by (done || lia).
Qed.

(** What stays, and what the boundaries then are. *)
Lemma split_below_kept b base l : offsets_from base l ->
  let '(gone, kept) := split_below b l in
  (base <= b <= base + zlen l -> offsets_from b kept /\ b + zlen kept = base + zlen l) /\
  l = gone ++ kept.
Proof.
  revert base. induction l as [|r l IH]; intros base; cbn.
  - intros _. split; [|done]. change (zlen []) with 0. intros H. split; [done|]. lia.
  - intros [E H]. rewrite E. destruct (Z.ltb_spec base b).
    + specialize (IH (base + 1) H). destruct (split_below b l) as [gone kept]. destruct IH as [IH ->].
      split; [|done]. rewrite zlen_cons in *. intros Hb. destruct IH as [IH1 IH2]; [lia|]. split; [done|]. lia.
    + split; [|done]. rewrite zlen_cons. intros Hb. assert (b = base) as -> by lia. split; [done|]. lia.
Qed.

Lemma trim_to_ok l b x : part_ok l x -> 0 <= b -> part_ok l (trim_to b x).
Proof.
  intros [Hb Ho Hn Hy Hr] H0. unfold trim_to. pose proof (zlen_nonneg (p_recs x)).
  pose proof (split_below_kept b (p_base x) (p_recs x) Ho) as K.
  destruct (split_below b (p_recs x)) as [gone kept] eqn:E. destruct K as [K Ea].
  assert (Hby : p_bytes x - zsum record_bytes gone = zsum record_bytes kept).
  { rewrite Hy, Ea, zsum_app. lia. }
  rewrite Ea in Hr. apply Forall_app in Hr as [_ Hr].
  destruct (Z.ltb_spec (p_base x) b) as [H1|H1].
  - destruct (Z.ltb_spec (p_next x) b) as [H2|H2].
    + rewrite (split_below_all b (p_base x)) in E by (done || lia). injection E as <- <-.
      by constructor; cbn; rewrite ?zlen_nil; try lia.
    + destruct K as [K1 K2]; [lia|]. constructor; cbn; try done; lia.
  - rewrite (split_below_none b (p_base x)) in E by (done || lia). injection E as <- <-.
    destruct (Z.ltb_spec (p_next x) b); [lia|]. constructor; cbn; try done.
Qed.

Lemma trim_to_low b x l : part_ok l x -> b <= p_base x -> trim_to b x = x.
Proof.
  intros [Hb Ho Hn Hy Hr] H. unfold trim_to. rewrite (split_below_none b (p_base x)) by done.
  pose proof (zlen_nonneg (p_recs x)).
  destruct (Z.ltb_spec (p_base x) b); [lia|]. destruct (Z.ltb_spec (p_next x) b); [lia|].
  destruct x; cbn in *. f_equal. lia.
Qed.

Lemma split_below_twice b1 b2 l : b1 <= b2 ->
  split_below b2 (split_below b1 l).2 = (drop (length (split_below b1 l).1) (split_below b2 l).1, (split_below b2 l).2).
Proof.
  intros H. induction l as [|r l IH]; [done|]. cbn [split_below].
  destruct (Z.ltb_spec (r_offset r) b1).
  - destruct (Z.ltb_spec (r_offset r) b2); [|lia]. destruct (split_below b1 l) as [x y]. cbn in IH |- *.
    rewrite IH. by destruct (split_below b2 l).
  - cbn [fst snd length drop]. cbn [split_below]. by destruct (r_offset r <? b2); [destruct (split_below b2 l)|].
Qed.

Lemma split_below_mono b1 b2 l : b1 <= b2 -> (split_below b1 l).1 `prefix_of` (split_below b2 l).1.
Proof.
  intros H. induction l as [|r l IH]; [done|]. cbn [split_below].
  destruct (Z.ltb_spec (r_offset r) b1); [|apply prefix_nil].
  destruct (Z.ltb_spec (r_offset r) b2); [|lia]. destruct (split_below b1 l), (split_below b2 l). cbn in *.
  by apply prefix_cons.
Qed.

Lemma trim_to_twice b1 b2 x : b1 <= b2 -> trim_to b2 (trim_to b1 x) = trim_to b2 x.
Proof.
  intros H. unfold trim_to at 1. pose proof (split_below_twice b1 b2 (p_recs x) H) as E.
  destruct (split_below_mono b1 b2 (p_recs x) H) as [z Ez]. unfold trim_to.
  destruct (split_below b1 (p_recs x)) as [g1 k1]. cbn [fst snd p_recs p_base p_next p_bytes] in *.
  destruct (split_below b2 (p_recs x)) as [g2 k2]. cbn [fst snd] in *. rewrite E, Ez, drop_app_length, zsum_app.
  f_equal; try lia; repeat (case_match; reflect_tests; try lia); done.
Qed.

(** ** Topics *)

Lemma Forall_alter_at {A} (P : A -> Prop) f l i : Forall P l ->
  (forall x, l !! i = Some x -> P x -> P (f x)) -> Forall P (alter f i l).
Proof.
  intros H Hf. apply Forall_lookup. intros j y Hj. rewrite Forall_lookup in H.
  rewrite list_lookup_alter in Hj. destruct (decide (i = j)) as [->|Hne]; [|eauto].
  destruct (l !! j) as [x|] eqn:E; [|done]. injection Hj as <-. eauto.
Qed.

Lemma offsets_from_snoc b l r : offsets_from b l -> r_offset r = b + zlen l -> offsets_from b (l ++ [r]).
Proof.
  revert b. induction l as [|a l IH]; intros b; cbn [offsets_from app].
  - rewrite zlen_nil, Z.add_0_r. done.
  - rewrite zlen_cons. intros [H1 H2] E. split; [done|]. apply IH; [done|lia].
Qed.

Lemma link_part_ok l x r : part_ok l x -> r_offset r = p_next x -> rec_ok l r -> part_ok l (link_part r x).
Proof.
  intros [Hb Ho Hn Hy Hr] E Hk. constructor; cbn; try done.
  - apply offsets_from_snoc; [done|lia].
  - rewrite zlen_app, zlen_cons, zlen_nil. lia.
  - rewrite zsum_app. cbn. lia.
  - by apply Forall_app_2; [|constructor].
Qed.

Lemma link_topic_ok t p x r : topic_ok t -> t_parts t !! p = Some x -> r_offset r = p_next x ->
  rec_ok (zlen (t_name t)) r -> topic_ok (link_topic t p r).
Proof.
  intros [] Hx Ho Hr. constructor; cbn [link_topic t_name t_parts t_bytes t_records t_revision t_id t_max_bytes
    t_max_age_ms t_groups]; try done.
  - unfold t_partitions in *. cbn [link_topic t_parts]. by rewrite zlen_alter.
  - apply Forall_alter_at; [done|]. intros y Hy Hk. rewrite Hx in Hy. injection Hy as <-. by apply link_part_ok.
  - rewrite (zsum_alter _ _ _ _ x Hx), to_bytes0. cbn. lia.
  - rewrite (zsum_alter _ _ _ _ x Hx), to_records0. cbn. rewrite zlen_app, zlen_cons, zlen_nil. lia.
  - lia.
  - by rewrite length_alter.
Qed.

(** The estimate of a topic of the same shape. *)
Lemma topic_live_as t t' : t_name t' = t_name t -> t_id_persisted t' = t_id_persisted t ->
  t_groups t' = t_groups t -> t_partitions t' = t_partitions t ->
  topic_live t' = topic_live t - zsum (fun x => zsum (record_live t) (p_recs x)) (t_parts t)
                  + zsum (fun x => zsum (record_live t) (p_recs x)) (t_parts t').
Proof.
  intros En Ep Eg El. unfold topic_live, identity_live. rewrite En, Ep, Eg.
  assert (Er : forall r, record_live t' r = record_live t r) by (intros r; unfold record_live; by rewrite En).
  rewrite (zsum_ext (fun x => zsum (record_live t') (p_recs x)) (fun x => zsum (record_live t) (p_recs x)))
    by (intros x _; by apply zsum_ext).
  rewrite (zsum_ext (group_live t') (group_live t)); [lia|].
  intros g _. unfold group_live. by rewrite En, El.
Qed.

Lemma link_topic_live t p x r : t_parts t !! p = Some x ->
  topic_live (link_topic t p r) = topic_live t + record_live t r.
Proof.
  intros Hx. rewrite (topic_live_as t); [|done..|unfold t_partitions; cbn; by rewrite zlen_alter].
  cbn [link_topic t_parts]. rewrite (zsum_alter _ _ _ _ x Hx). cbn [link_part p_recs]. rewrite zsum_app. cbn [zsum]. lia.
Qed.

Lemma trim_to_bytes b x : p_bytes (trim_to b x) = p_bytes x - zsum record_bytes (split_below b (p_recs x)).1.
Proof. unfold trim_to. by destruct (split_below b (p_recs x)). Qed.

Lemma trim_to_recs b x : p_recs (trim_to b x) = (split_below b (p_recs x)).2.
Proof. unfold trim_to. by destruct (split_below b (p_recs x)). Qed.

Lemma kept_sum {A} (f : A -> Z) gone kept l : gone ++ kept = l -> zsum f kept = zsum f l - zsum f gone.
Proof. intros <-. rewrite zsum_app. lia. Qed.

Lemma trim_topic_ok t p b : topic_ok t -> 0 <= b -> topic_ok (trim_topic t p b).
Proof.
  intros [] Hb. constructor; cbn [trim_topic t_name t_parts t_bytes t_records t_revision t_id t_max_bytes
    t_max_age_ms t_groups]; try done.
  - unfold t_partitions in *. cbn [trim_topic t_parts]. by rewrite zlen_alter.
  - apply Forall_alter_at; [done|]. intros y _ Hk. by apply trim_to_ok.
  - unfold gone_below. destruct (t_parts t !! p) as [x|] eqn:Hx.
    + rewrite (zsum_alter _ _ _ _ x Hx), to_bytes0, trim_to_bytes. lia.
    + rewrite alter_none by done. cbn. lia.
  - unfold gone_below. destruct (t_parts t !! p) as [x|] eqn:Hx.
    + rewrite (zsum_alter _ _ _ _ x Hx), to_records0, trim_to_recs.
      pose proof (f_equal zlen (split_below_app b (p_recs x))) as E. rewrite zlen_app in E. lia.
    + rewrite alter_none by done. cbn. rewrite zlen_nil. lia.
  - destruct (base_moves t p b); lia.
  - by rewrite length_alter.
Qed.

Lemma trim_topic_live t p b :
  topic_live (trim_topic t p b) = topic_live t - zsum (record_live t) (gone_below t p b).
Proof.
  rewrite (topic_live_as t); [|done..|unfold t_partitions; cbn; by rewrite zlen_alter].
  cbn [trim_topic t_parts]. unfold gone_below. destruct (t_parts t !! p) as [x|] eqn:Hx.
  - rewrite (zsum_alter _ _ _ _ x Hx), trim_to_recs. rewrite (kept_sum _ _ _ _ (split_below_app b (p_recs x))). lia.
  - rewrite alter_none by done. cbn. lia.
Qed.

End StreamSpec.
