(* ===== verification/StreamRetain.v ===== *)
(** * The retention pass of the stream engine (stream.c: enforce)

    The pass removes a head part of every partition, up to the boundaries it
    reports; it ends within the size limit, and it leaves a topic alone that
    is within its limits. *)

From stdpp Require Import base numbers option list.
From S2P Require Import Prelude Stream StreamSpec.
Import Stream StreamSpec.

Module StreamRetain.

Definition boundary (base : list Z) (p : nat) : Z := default 0 (base !! p).

(** What the pass has done: to [t0], with the store [s0]. *)
Record passed (s0 : sstore) (t0 : topic) (s : sstore) (t : topic) (base : list Z) (touched : list nat)
    : Prop := Passed {
  pa_from : topic_ok t0;
  pa_ok : topic_ok t;
  pa_name : t_name t = t_name t0;
  pa_limits : t_max_bytes t = t_max_bytes t0 /\ t_max_age_ms t = t_max_age_ms t0;
  pa_id : t_id t = t_id t0 /\ t_id_persisted t = t_id_persisted t0;
  pa_groups : t_groups t = t_groups t0;
  pa_revision : t_revision t0 <= t_revision t;
  pa_store : s = add_live s0 (topic_live t - topic_live t0);
  pa_length : length base = length (t_parts t0) /\ length (t_parts t) = length (t_parts t0);
  pa_parts : forall p x, t_parts t0 !! p = Some x -> t_parts t !! p = Some (trim_to (boundary base p) x);
  pa_within : forall p x, t_parts t0 !! p = Some x -> 0 <= boundary base p <= p_next x;
  pa_nodup : NoDup touched;
  pa_touched : forall p, p ∈ touched <-> boundary base p <> 0 }.

Lemma add_live_0 s : add_live s 0 = s.
Proof. unfold add_live. rewrite Z.add_0_r. by destruct s. Qed.

Lemma add_live_add s a b : add_live (add_live s a) b = add_live s (a + b).
Proof. unfold add_live. cbn. f_equal. lia. Qed.

Lemma boundary_replicate n p : boundary (replicate n 0) p = 0.
Proof.
  unfold boundary. destruct (replicate n 0 !! p) as [x|] eqn:E; [|done].
  by apply lookup_replicate in E as [-> _].
Qed.

Lemma boundary_insert base p q b : (p < length base)%nat ->
  boundary (<[p := b]> base) q = if decide (p = q) then b else boundary base q.
Proof.
  intros H. unfold boundary. destruct (decide (p = q)) as [->|Hne].
  - by rewrite list_lookup_insert_eq.
  - by rewrite list_lookup_insert_ne.
Qed.

Lemma passed_start s t : topic_ok t -> passed s t s t (replicate (length (t_parts t)) 0) [].
Proof.
  intros H. constructor; try done.
  - by rewrite Z.sub_diag, add_live_0.
  - by rewrite length_replicate.
  - intros p x Hx. rewrite boundary_replicate. rewrite (trim_to_low 0 x (zlen (t_name t))); [done| |].
    + pose proof (to_each _ H) as He. rewrite Forall_lookup in He. eauto.
    + pose proof (to_each _ H) as He. rewrite Forall_lookup in He. apply (He p x Hx).
  - intros p x Hx. rewrite boundary_replicate. pose proof (to_each _ H) as He. rewrite Forall_lookup in He.
    destruct (He p x Hx). pose proof (zlen_nonneg (p_recs x)). lia.
  - apply NoDup_nil_2.
  - intros p. rewrite boundary_replicate. split; [by intros ?%not_elem_of_nil|done].
Qed.

(** The head of a partition is at its base. *)
Lemma head_base t p r x : topic_ok t -> t_parts t !! p = Some x -> head_of t p = Some r ->
  r_offset r = p_base x /\ p_base x + 1 <= p_next x.
Proof.
  intros H Hx. unfold head_of. rewrite Hx. pose proof (to_each _ H) as He. rewrite Forall_lookup in He.
  destruct (He p x Hx) as [_ Ho Hn _ _]. destruct (p_recs x) as [|a l]; [done|]. intros [= <-].
  rewrite zlen_cons in Hn. pose proof (zlen_nonneg l). split; [apply Ho|lia].
Qed.

Lemma trim_to_base b x : p_base (trim_to b x) = Z.max b (p_base x).
Proof. unfold trim_to. destruct (split_below _ _). cbn. destruct (Z.ltb_spec (p_base x) b); lia. Qed.

Lemma trim_to_next b x : p_next (trim_to b x) = Z.max b (p_next x).
Proof. unfold trim_to. destruct (split_below _ _). cbn. destruct (Z.ltb_spec (p_next x) b); lia. Qed.

Lemma passed_trim s0 t0 s t base touched p r : passed s0 t0 s t base touched -> head_of t p = Some r ->
  let b := r_offset r + 1 in
  passed s0 t0 (trim_part s t p b).1 (trim_part s t p b).2 (<[p := b]> base)
    (if boundary base p =? 0 then touched ++ [p] else touched).
Proof.
  intros [Hok0 Hok Hn Hl Hid Hg Hr Hs [Hb Hlen] Hp Hw Hd Ht] Hh b. cbn [trim_part fst snd].
  destruct (t_parts t !! p) as [x|] eqn:Hx; [|unfold head_of in Hh; by rewrite Hx in Hh].
  destruct (head_base t p r x Hok Hx Hh) as [Ho Hnext].
  assert (Hlt : (p < length (t_parts t0))%nat) by (rewrite <- Hlen; by eapply lookup_lt_Some).
  destruct (t_parts t0 !! p) as [x0|] eqn:Hx0; [|apply lookup_ge_None in Hx0; lia].
  pose proof (Hp p x0 Hx0) as E. rewrite Hx in E. injection E as ->.
  rewrite trim_to_base, trim_to_next in *. pose proof (Hw p x0 Hx0).
  assert (Hbase : 0 <= p_base x0).
  { pose proof (to_each _ Hok0) as He. rewrite Forall_lookup in He. apply (He p x0 Hx0). }
  constructor; cbn [trim_topic t_name t_parts t_max_bytes t_max_age_ms t_id t_id_persisted t_groups t_revision]; try done.
  - apply trim_topic_ok; [done|]. lia.
  - destruct (base_moves t p b); lia.
  - rewrite Hs, add_live_add, trim_topic_live. f_equal. lia.
  - by rewrite length_insert, length_alter.
  - intros q y Hy. rewrite boundary_insert by lia. destruct (decide (p = q)) as [<-|Hne].
    + rewrite Hx0 in Hy. injection Hy as <-. rewrite list_lookup_alter, decide_True, Hx by done. cbn.
      by rewrite trim_to_twice by lia.
    + rewrite list_lookup_alter, decide_False by done. auto.
  - intros q y Hy. rewrite boundary_insert by lia. destruct (decide (p = q)) as [<-|Hne]; [|auto].
    rewrite Hx0 in Hy. injection Hy as <-. lia.
  - destruct (Z.eqb_spec (boundary base p) 0) as [E|]; [|done]. apply NoDup_app. split; [done|].
    split; [|apply NoDup_singleton]. intros q Hq ->%list_elem_of_singleton. by apply Ht in Hq.
  - intros q. rewrite boundary_insert by lia. destruct (decide (p = q)) as [<-|Hne].
    + split; [lia|]. intros _. destruct (Z.eqb_spec (boundary base p) 0) as [E|E]; [|by apply Ht].
      apply elem_of_app. right. by apply list_elem_of_singleton.
    + destruct (Z.eqb_spec (boundary base p) 0) as [E|E]; [|apply Ht].
      rewrite elem_of_app, list_elem_of_singleton, Ht. split; [by intros [|]|auto].
Qed.

(** ** The loops *)

Definition mark (p : nat) (b : Z) (base : list Z) : list Z := if b =? 0 then base else <[p := b]> base.
Definition reach (p : nat) (b : Z) (touched : list nat) : list nat := if b =? 0 then touched else touched ++ [p].

Lemma age_loop_passed s0 t0 p now base touched n : (p < length base)%nat -> boundary base p = 0 ->
  forall s t b, passed s0 t0 s t (mark p b base) (reach p b touched) ->
  let '(s', t', b') := age_loop n s t p now b in passed s0 t0 s' t' (mark p b' base) (reach p b' touched).
Proof.
  intros Hlt H0. induction n as [|n IH]; intros s t b H; [done|]. cbn [age_loop].
  destruct (head_of t p) as [r|] eqn:Hh; [|done]. destruct (too_old t now r); [|done].
  pose proof (passed_trim s0 t0 s t _ _ p r H Hh) as Ht. cbv zeta in Ht.
  destruct (t_parts t !! p) as [x|] eqn:Hx; [|unfold head_of in Hh; by rewrite Hx in Hh].
  destruct (head_base t p r x (pa_ok _ _ _ _ _ _ H) Hx Hh) as [Ho _].
  pose proof (to_each _ (pa_ok _ _ _ _ _ _ H)) as He. rewrite Forall_lookup in He. pose proof (po_base _ _ (He p x Hx)).
  destruct (trim_part s t p (r_offset r + 1)) as [s1 t1]. apply IH. cbn [fst snd] in Ht.
  unfold mark, reach in *. destruct (Z.eqb_spec (r_offset r + 1) 0); [lia|].
  destruct (b =? 0) eqn:Eb.
  - by rewrite H0 in Ht.
  - rewrite boundary_insert, decide_True, Eb in Ht by done.
    by rewrite list_insert_insert_eq in Ht.
Qed.

Lemma age_part_passed s0 t0 now s t base touched p : passed s0 t0 s t base touched -> boundary base p = 0 ->
  (p < length (t_parts t0))%nat ->
  let '(s', t', base', touched') := age_part now (s, t, base, touched) p in
  passed s0 t0 s' t' base' touched' /\ forall q, p <> q -> boundary base' q = boundary base q.
Proof.
  intros H H0 Hlt. unfold age_part. destruct (t_max_age_ms t =? 0); [done|].
  destruct (pa_length _ _ _ _ _ _ H) as [Hb _].
  pose proof (age_loop_passed s0 t0 p now base touched (part_length t p) ltac:(lia) H0 s t 0 H) as Hl.
  destruct (age_loop _ s t p now 0) as [[s1 t1] b]. unfold mark, reach in Hl.
  destruct (b =? 0); (split; [done|]); intros q Hq; [done|].
  rewrite boundary_insert by lia. by rewrite decide_False.
Qed.

Lemma age_pass_passed s0 t0 now n : forall i s t base touched, (i + n = length (t_parts t0))%nat ->
  passed s0 t0 s t base touched -> (forall q, (i <= q)%nat -> boundary base q = 0) ->
  let '(s', t', base', touched') := fold_left (age_part now) (seq i n) (s, t, base, touched) in
  passed s0 t0 s' t' base' touched'.
Proof.
  induction n as [|n IH]; intros i s t base touched Hi H H0; [done|]. cbn [seq fold_left].
  pose proof (age_part_passed s0 t0 now s t base touched i H (H0 i ltac:(lia)) ltac:(lia)) as Hp.
  destruct (age_part now (s, t, base, touched) i) as [[[s1 t1] base1] touched1]. destruct Hp as [Hp Hq].
  apply IH; [lia|done|]. intros q Hle. rewrite Hq by lia. apply H0. lia.
Qed.

Lemma size_loop_passed s0 t0 n : forall s t base touched, passed s0 t0 s t base touched ->
  let '(s', t', base', touched') := size_loop n (s, t, base, touched) in passed s0 t0 s' t' base' touched'.
Proof.
  induction n as [|n IH]; intros s t base touched H; [done|]. cbn [size_loop].
  destruct (_ && _); [|done]. destruct (oldest_part 0 _ _ _) as [bp|]; [|done].
  destruct (head_of t bp) as [r|] eqn:Hh; [|done].
  pose proof (passed_trim s0 t0 s t base touched bp r H Hh) as Ht. cbv zeta in Ht.
  destruct (trim_part s t bp (r_offset r + 1)) as [s1 t1]. apply IH. done.
Qed.

Lemma retain_passed s t now : topic_ok t ->
  let '(s', t', base, touched) := retain s t now in passed s t s' t' base touched.
Proof.
  intros H. unfold retain.
  pose proof (age_pass_passed s t now (length (t_parts t)) 0 s t _ [] eq_refl (passed_start s t H)
    (fun q _ => boundary_replicate _ q)) as Ha.
  destruct (fold_left (age_part now) (seq 0 (length (t_parts t))) _) as [[[s1 t1] b1] c1]. by apply size_loop_passed.
Qed.

(** ** The limits hold afterwards *)

Lemma oldest_part_none l : forall i o, oldest_part i l o None = None ->
  Forall (fun x => forall r, head (p_recs x) = Some r -> o <= r_at_ms r) l.
Proof.
  assert (Hs : forall l i o b, oldest_part i l o (Some b) <> None).
  { intros l'. induction l' as [|x l' IH]; intros i o b; cbn [oldest_part]; [done|].
    destruct (p_recs x) as [|r rs]; [apply IH|]. destruct (r_at_ms r <? o); apply IH. }
  induction l as [|x l IH]; intros i o; cbn [oldest_part]; [constructor|].
  destruct (p_recs x) as [|r rs] eqn:E.
  - intros H. constructor; [by rewrite E|eauto].
  - destruct (Z.ltb_spec (r_at_ms r) o); [by intros ?%Hs|]. intros Hn. constructor; [|eauto].
    rewrite E. intros r0 [= <-]. done.
Qed.

Lemma oldest_part_some l : forall i o b, oldest_part i l o b = b \/ exists j x r rs,
  oldest_part i l o b = Some (i + j)%nat /\ l !! j = Some x /\ p_recs x = r :: rs.
Proof.
  induction l as [|x l IH]; intros i o b; cbn [oldest_part]; [by left|].
  assert (Hskip : forall o' b', (exists j y r rs, oldest_part (S i) l o' b' = Some (S i + j)%nat /\
    l !! j = Some y /\ p_recs y = r :: rs) -> exists j y r rs, oldest_part (S i) l o' b' = Some (i + j)%nat /\
    (x :: l) !! j = Some y /\ p_recs y = r :: rs).
  { intros o' b' (j & y & r & rs & H1 & H2 & H3). exists (S j), y, r, rs. rewrite H1. split; [f_equal; lia|done]. }
  destruct (p_recs x) as [|r rs] eqn:E; [destruct (IH (S i) o b) as [|]; auto|].
  destruct (r_at_ms r <? o); [|destruct (IH (S i) o b) as [|]; auto].
  right. destruct (IH (S i) (r_at_ms r) (Some i)) as [->|]; [|auto].
  exists 0%nat, x, r, rs. split; [f_equal; lia|done].
Qed.

Lemma sum_list_alter {A} (f : A -> nat) g l i x : l !! i = Some x ->
  (sum_list (f <$> alter g i l) + f x = sum_list (f <$> l) + f (g x))%nat.
Proof.
  revert i. induction l as [|y l IH]; intros [|i] H; simplify_eq/=; [lia|]. specialize (IH i H). lia.
Qed.

Lemma head_trim_count t p r : topic_ok t -> head_of t p = Some r ->
  S (record_count (trim_topic t p (r_offset r + 1))) = record_count t.
Proof.
  intros H Hh. unfold head_of in Hh. destruct (t_parts t !! p) as [x|] eqn:Hx; [|done].
  pose proof (to_each _ H) as He. rewrite Forall_lookup in He. pose proof (po_offsets _ _ (He p x Hx)) as Ho.
  unfold record_count. cbn [trim_topic t_parts].
  pose proof (sum_list_alter (fun x => length (p_recs x)) (trim_to (r_offset r + 1)) _ p x Hx) as E. cbn beta in E.
  rewrite trim_to_recs in E. destruct (p_recs x) as [|a l]; [done|]. injection Hh as ->. destruct Ho as [E1 Ho].
  cbn [split_below] in E. destruct (Z.ltb_spec (r_offset r) (r_offset r + 1)); [|lia].
  rewrite (split_below_none _ (p_base x + 1)) in E by (done || lia). cbn in E. lia.
Qed.

(** Records carry the time of a clock, which is never the last one. *)
Definition dated (t : topic) : Prop :=
  Forall (fun x => Forall (fun r => r_at_ms r < UINT64_MAX) (p_recs x)) (t_parts t).

Lemma trim_dated t p b : dated t -> dated (trim_topic t p b).
Proof.
  intros H. apply Forall_alter_at; [exact H|]. intros x _ Hx. cbn beta in *. rewrite trim_to_recs.
  rewrite <- (split_below_app b (p_recs x)) in Hx. by apply Forall_app in Hx as [_ ?].
Qed.

Lemma size_loop_bounded n : forall s t base touched, topic_ok t -> dated t -> t_max_bytes t <> 0 ->
  (record_count t <= n)%nat ->
  t_bytes (size_loop n (s, t, base, touched)).1.1.2 <= t_max_bytes t.
Proof.
  assert (Hempty : forall t, topic_ok t -> Forall (fun x => p_recs x = []) (t_parts t) -> t_bytes t <= t_max_bytes t).
  { intros t H Hall. rewrite (to_bytes _ H). pose proof (to_limits _ H) as [[? _] _].
    assert (E : zsum p_bytes (t_parts t) = 0); [|lia]. pose proof (to_each _ H) as He.
    induction (t_parts t) as [|x l IH]; [done|]. apply Forall_cons in Hall as [Hx Hall], He as [Hk He].
    cbn [zsum]. rewrite (po_bytes _ _ Hk), Hx, IH by done. done. }
  assert (Hzero : forall l, sum_list ((fun x => length (p_recs x)) <$> l) = 0%nat -> Forall (fun x => p_recs x = []) l).
  { intros l. induction l as [|x l IH]; cbn; [constructor|]. intros E. constructor; [|apply IH; lia].
    apply nil_length_inv. lia. }
  induction n as [|n IH]; intros s t base touched H Hd Hm Hc; cbn [size_loop].
  { cbn. apply Hempty; [done|]. apply Hzero. unfold record_count in Hc. lia. }
  destruct (Z.eqb_spec (t_max_bytes t) 0); [done|]. cbn [negb andb].
  destruct (Z.ltb_spec (t_max_bytes t) (t_bytes t)); [|done].
  destruct (oldest_part 0 (t_parts t) UINT64_MAX None) as [bp|] eqn:Eo.
  - destruct (oldest_part_some (t_parts t) 0 UINT64_MAX None) as [E|(j & x & r & rs & E & Hx & Hr)]; [congruence|].
    rewrite Eo in E. injection E as ->. assert (Hh : head_of t j = Some r) by (unfold head_of; by rewrite Hx, Hr).
    rewrite Hh. cbn [trim_part]. pose proof (head_trim_count t j r H Hh).
    change (t_max_bytes t) with (t_max_bytes (trim_topic t j (r_offset r + 1))).
    apply IH; [|by apply trim_dated|done|lia].
    apply trim_topic_ok; [done|]. destruct (head_base t j r x H Hx Hh) as [-> _].
    pose proof (to_each _ H) as He. rewrite Forall_lookup in He. pose proof (po_base _ _ (He j x Hx)). lia.
  - exfalso. apply oldest_part_none in Eo. specialize (Hempty t H). cut (t_bytes t <= t_max_bytes t); [lia|].
    apply Hempty. rewrite Forall_lookup in *. intros i x Hx. specialize (Eo i x Hx).
    unfold dated in Hd. rewrite Forall_lookup in Hd. specialize (Hd i x Hx).
    destruct (p_recs x) as [|r rs]; [done|]. apply Forall_cons in Hd as [Hd _]. specialize (Eo r eq_refl). lia.
Qed.

Lemma age_dated now : forall l s t base touched, dated t ->
  dated (fold_left (age_part now) l (s, t, base, touched)).1.1.2.
Proof.
  assert (Hl : forall n s t p b, dated t -> dated (age_loop n s t p now b).1.2).
  { induction n as [|n IH]; intros s t p b Hd; cbn [age_loop]; [done|]. destruct (head_of t p) as [r|]; [|done].
    destruct (too_old t now r); [|done]. cbn [trim_part]. by apply IH, trim_dated. }
  induction l as [|p l IH]; intros s t base touched Hd; [done|]. cbn [fold_left age_part].
  destruct (t_max_age_ms t =? 0); [by apply IH|]. specialize (Hl (part_length t p) s t p 0 Hd).
  destruct (age_loop _ s t p now 0) as [[s1 t1] b]. by destruct (b =? 0); apply IH.
Qed.

Lemma retain_bounded s t now : topic_ok t -> dated t -> t_max_bytes t <> 0 ->
  t_bytes (retain s t now).1.1.2 <= t_max_bytes t.
Proof.
  intros H Hd Hm. unfold retain. pose proof (age_dated now (seq 0 (length (t_parts t))) s t
    (replicate (length (t_parts t)) 0) [] Hd) as Ha.
  pose proof (age_pass_passed s t now (length (t_parts t)) 0 s t _ [] eq_refl (passed_start s t H)
    (fun q _ => boundary_replicate _ q)) as Hp.
  destruct (fold_left (age_part now) (seq 0 (length (t_parts t))) _) as [[[s1 t1] b1] c1]. cbn [fst snd] in *.
  destruct (pa_limits _ _ _ _ _ _ Hp) as [<- _]. apply size_loop_bounded; [apply Hp|done| |done].
  by rewrite (proj1 (pa_limits _ _ _ _ _ _ Hp)).
Qed.

(** Nothing happens to a topic within its limits. *)
Lemma retain_idle s t now : (t_max_age_ms t = 0 \/ forall p r, head_of t p = Some r -> too_old t now r = false) ->
  (t_max_bytes t = 0 \/ t_bytes t <= t_max_bytes t) ->
  retain s t now = (s, t, replicate (length (t_parts t)) 0, []).
Proof.
  intros Ha Hb. unfold retain. assert (Hf : forall l base touched,
    fold_left (age_part now) l (s, t, base, touched) = (s, t, base, touched)).
  { induction l as [|p l IH]; intros base touched; [done|]. cbn [fold_left age_part].
    destruct (Z.eqb_spec (t_max_age_ms t) 0) as [E|E]; [apply IH|]. destruct Ha as [|Ha]; [done|].
    assert (El : age_loop (part_length t p) s t p now 0 = (s, t, 0)).
    { destruct (part_length t p); [done|]. cbn [age_loop]. destruct (head_of t p) as [r|] eqn:Hh; [|done].
      by rewrite (Ha p r Hh). }
    rewrite El. apply IH. }
  rewrite Hf. cbn [fst snd]. destruct (record_count t); [done|]. cbn [size_loop].
  destruct (Z.eqb_spec (t_max_bytes t) 0); [done|]. destruct Hb as [|Hb]; [done|].
  cbn [negb andb]. by destruct (Z.ltb_spec (t_max_bytes t) (t_bytes t)); [lia|].
Qed.

End StreamRetain.
