(* ===== verification/StreamEvents.v ===== *)
(** * What the records of the stream log mean

    The records as data and their effect on the topics. *)

From stdpp Require Import base numbers option list.
From S2P Require Import Prelude Stream StreamLog StreamSpec.
Import Stream StreamLog StreamSpec.

Module StreamEvents.

Inductive event :=
  | EDeclare (name : bytes) (parts maxb age : Z)
  | EIdentity (name id : bytes)
  | EAppend (name : bytes) (p : Z) (r : srec)
  | EBatch (name : bytes) (keyed : bool) (items : list (Z * srec))
  | ETrim (name : bytes) (p base : Z)
  | ECommit (name gname : bytes) (p off : Z)
  | ERetention (name : bytes) (maxb age : Z)
  | ERevision (name : bytes) (revision : Z)
  | EDelete (name : bytes).

Definition ev_record (e : event) : Z * bytes :=
  match e with
  | EDeclare name parts maxb age => (S_DECLARE, declare_body name parts maxb age)
  | EIdentity name id => (S_IDENTITY, identity_body name id)
  | EAppend name p r => (append_op (r_key r), append_body name p (r_offset r) (r_at_ms r) (r_key r) (r_body r))
  | EBatch name keyed items => (batch_op keyed, batch_body name keyed items)
  | ETrim name p base => (S_TRIM, trim_body name p base)
  | ECommit name gname p off => (S_COMMIT, commit_body name gname p off)
  | ERetention name maxb age => (S_RETENTION, retention_body name maxb age)
  | ERevision name revision => (S_REVISION, revision_body name revision)
  | EDelete name => (S_DELETE, named name)
  end.

Definition ev_frame (e : event) : bytes := let '(op, b) := ev_record e in frame op b.
Definition frames (es : list event) : bytes := concat (ev_frame <$> es).

(** ** Effects *)

Definition on_topic (l : list topic) (name : bytes) (f : topic -> option topic) : option (list topic) :=
  match find_topic l name with
  | None => None
  | Some t => put_topic l <$> f t
  end.

Definition link_event (p : Z) (r : srec) (t : topic) : option topic :=
  match t_parts t !! Z.to_nat p with
  | Some x => if r_offset r =? p_next x then Some (link_topic t (Z.to_nat p) r) else None
  | None => None
  end.

Fixpoint link_events (items : list (Z * srec)) (t : topic) : option topic :=
  match items with
  | [] => Some t
  | (p, r) :: items => match link_event p r t with Some t => link_events items t | None => None end
  end.

Definition trim_event (p base : Z) (t : topic) : option topic :=
  if t_partitions t <=? p then None else Some (trim_topic t (Z.to_nat p) base).

(** The topic with the group in it. *)
Definition ensure_group (t : topic) (gname : bytes) : topic :=
  match find_group t gname with
  | Some _ => t
  | None => {| t with t_groups := new_group t gname :: t_groups t |}
  end.

Definition commit_topic (t : topic) (gname : bytes) (p off : Z) : topic :=
  let t := ensure_group t gname in
  match find_group t gname with
  | Some g => set_group t (set_offset g p off)
  | None => t
  end.

Definition commit_event (gname : bytes) (p off : Z) (t : topic) : option topic :=
  if t_partitions t <=? p then None else Some (commit_topic t gname p off).

Definition retention_topic (t : topic) (maxb age : Z) : topic :=
  {| t with t_max_bytes := maxb; t_max_age_ms := age; t_revision := t_revision t + 1 |}.

Definition identity_topic (t : topic) (id : bytes) : topic :=
  {| t with t_id := id; t_id_persisted := true |}.

Definition revision_topic (t : topic) (revision : Z) : topic := {| t with t_revision := revision |}.

Definition effect (e : event) (l : list topic) : option (list topic) :=
  match e with
  | EDeclare name parts maxb age =>
      match find_topic l name with
      | Some _ => None
      | None => Some (new_topic name parts maxb age [] :: l)
      end
  | EIdentity name id => on_topic l name (fun t => Some (identity_topic t id))
  | EAppend name p r => on_topic l name (link_event p r)
  | EBatch name keyed items => on_topic l name (link_events items)
  | ETrim name p base => on_topic l name (trim_event p base)
  | ECommit name gname p off => on_topic l name (commit_event gname p off)
  | ERetention name maxb age => on_topic l name (fun t => Some (retention_topic t maxb age))
  | ERevision name revision => on_topic l name (fun t => Some (revision_topic t revision))
  | EDelete name => match find_topic l name with Some _ => Some (remove_topic l name) | None => None end
  end.

Fixpoint effects (es : list event) (l : list topic) : option (list topic) :=
  match es with
  | [] => Some l
  | e :: es => match effect e l with Some l => effects es l | None => None end
  end.

Lemma effects_app es es' l : effects (es ++ es') l =
  match effects es l with Some m => effects es' m | None => None end.
Proof. revert l. induction es as [|e es IH]; intros l; [done|]. cbn. destruct (effect e l); auto. Qed.

Lemma frames_app es es' : frames (es ++ es') = frames es ++ frames es'.
Proof. unfold frames. by rewrite fmap_app, concat_app. Qed.

(** ** Topics by name *)

Lemma find_topic_name l name t : find_topic l name = Some t -> t_name t = name /\ t ∈ l.
Proof.
  unfold find_topic. intros [H1 H2]%find_some. apply name_eqb_eq in H2. split; [done|]. by apply list_elem_of_In.
Qed.

Lemma find_topic_cons x l name :
  find_topic (x :: l) name = if decide (t_name x = name) then Some x else find_topic l name.
Proof.
  unfold find_topic. cbn [find]. destruct (decide (t_name x = name)) as [E|E].
  - by rewrite (proj2 (name_eqb_eq _ _) E).
  - destruct (name_eqb (t_name x) name) eqn:Eb; [|done]. by apply name_eqb_eq in Eb.
Qed.

Lemma put_topic_cons x l t :
  put_topic (x :: l) t = if decide (t_name x = t_name t) then t :: l else x :: put_topic l t.
Proof.
  cbn [put_topic]. destruct (decide (t_name x = t_name t)) as [E|E].
  - by rewrite (proj2 (name_eqb_eq _ _) E).
  - destruct (name_eqb (t_name x) (t_name t)) eqn:Eb; [|done]. by apply name_eqb_eq in Eb.
Qed.

Lemma find_put l t name : find_topic (put_topic l t) name =
  if decide (t_name t = name) then (match find_topic l name with Some _ => Some t | None => None end)
  else find_topic l name.
Proof.
  induction l as [|x l IH]; [by destruct (decide _)|]. rewrite put_topic_cons, find_topic_cons.
  destruct (decide (t_name x = t_name t)) as [E|E]; rewrite find_topic_cons.
  - rewrite E. by destruct (decide (t_name t = name)).
  - rewrite IH. destruct (decide (t_name x = name)) as [<-|]; [|done]. rewrite decide_False by done. done.
Qed.

Lemma put_names l t : t_name <$> put_topic l t = t_name <$> l.
Proof.
  induction l as [|x l IH]; [done|]. rewrite put_topic_cons. destruct (decide _) as [E|E]; cbn; [by rewrite E|by rewrite IH].
Qed.

Lemma put_Forall (P : topic -> Prop) l t : Forall P l -> P t -> Forall P (put_topic l t).
Proof.
  induction 1 as [|x l Hx Hl IH]; intros Ht; [constructor|]. rewrite put_topic_cons.
  destruct (decide _); constructor; auto.
Qed.

Lemma put_sum f l t t0 : find_topic l (t_name t) = Some t0 ->
  zsum f (put_topic l t) = zsum f l - f t0 + f t.
Proof.
  induction l as [|x l IH]; [done|]. rewrite find_topic_cons, put_topic_cons.
  destruct (decide _); cbn [zsum]; [intros [= <-]; lia|]. intros H. rewrite IH by done. lia.
Qed.

Lemma put_put l t u : t_name u = t_name t -> put_topic (put_topic l t) u = put_topic l u.
Proof.
  intros E. induction l as [|x l IH]; [done|]. rewrite !put_topic_cons, E.
  destruct (decide (t_name x = t_name t)) as [Ex|Ex]; rewrite put_topic_cons, ?E.
  - by rewrite decide_True.
  - by rewrite decide_False, IH.
Qed.

Lemma put_same l t : find_topic l (t_name t) = Some t -> put_topic l t = l.
Proof.
  induction l as [|x l IH]; [done|]. rewrite find_topic_cons, put_topic_cons.
  destruct (decide _); [by intros [= ->]|]. intros H. by rewrite IH.
Qed.

Lemma remove_topic_cons x l name :
  remove_topic (x :: l) name = if decide (t_name x = name) then l else x :: remove_topic l name.
Proof.
  cbn [remove_topic]. destruct (decide (t_name x = name)) as [E|E].
  - by rewrite (proj2 (name_eqb_eq _ _) E).
  - destruct (name_eqb (t_name x) name) eqn:Eb; [|done]. by apply name_eqb_eq in Eb.
Qed.

Lemma find_absent l name : name ∉ t_name <$> l -> find_topic l name = None.
Proof.
  intros H. destruct (find_topic l name) as [t|] eqn:E; [|done]. apply find_topic_name in E as [<- Hin].
  exfalso. apply H. by apply list_elem_of_fmap_2.
Qed.

Lemma find_remove l name n : NoDup (t_name <$> l) ->
  find_topic (remove_topic l name) n = if decide (n = name) then None else find_topic l n.
Proof.
  induction l as [|x l IH]; cbn [fmap list_fmap]; intros Hd; [by destruct (decide _)|].
  apply NoDup_cons in Hd as [Hx Hd]. rewrite remove_topic_cons, find_topic_cons.
  destruct (decide (t_name x = name)) as [<-|Hne].
  - destruct (decide (n = t_name x)) as [->|Hn]; [by apply find_absent|]. by rewrite decide_False.
  - rewrite find_topic_cons, IH by done. destruct (decide (t_name x = n)) as [<-|]; [by rewrite decide_False|done].
Qed.

Lemma remove_sub l name x : x ∈ remove_topic l name -> x ∈ l.
Proof.
  induction l as [|y l IH]; [done|]. rewrite remove_topic_cons. destruct (decide _); [by right|].
  intros [->|H]%elem_of_cons; [by left|right; auto].
Qed.

Lemma remove_names l name : NoDup (t_name <$> l) -> NoDup (t_name <$> remove_topic l name).
Proof.
  induction l as [|x l IH]; cbn [fmap list_fmap]; intros Hd; [done|]. apply NoDup_cons in Hd as [Hx Hd].
  rewrite remove_topic_cons. destruct (decide _); [done|]. cbn. apply NoDup_cons. split; [|auto].
  intros (y & E & Hy)%list_elem_of_fmap. apply Hx. rewrite E. apply list_elem_of_fmap_2. by eapply remove_sub.
Qed.

Lemma remove_sum f l name t : find_topic l name = Some t -> zsum f (remove_topic l name) = zsum f l - f t.
Proof.
  induction l as [|x l IH]; [done|]. rewrite find_topic_cons, remove_topic_cons.
  destruct (decide _); cbn [zsum]; [intros [= <-]; lia|]. intros H. rewrite IH by done. lia.
Qed.

(** ** Groups by name *)

Lemma find_group_in t gname g : find_group t gname = Some g -> g_name g = gname /\ g ∈ t_groups t.
Proof.
  unfold find_group. intros [H1 H2]%find_some. apply name_eqb_eq in H2. split; [done|]. by apply list_elem_of_In.
Qed.

Lemma put_group_cons x l g :
  put_group (x :: l) g = if decide (g_name x = g_name g) then g :: l else x :: put_group l g.
Proof.
  cbn [put_group]. destruct (decide (g_name x = g_name g)) as [E|E].
  - by rewrite (proj2 (name_eqb_eq _ _) E).
  - destruct (name_eqb (g_name x) (g_name g)) eqn:Eb; [|done]. by apply name_eqb_eq in Eb.
Qed.

Lemma find_group_cons t x l gname : t_groups t = x :: l ->
  find_group t gname = if decide (g_name x = gname) then Some x else find_group {| t with t_groups := l |} gname.
Proof.
  intros E. unfold find_group. rewrite E. cbn [find t_groups]. destruct (decide (g_name x = gname)) as [Ex|Ex].
  - by rewrite (proj2 (name_eqb_eq _ _) Ex).
  - destruct (name_eqb (g_name x) gname) eqn:Eb; [|done]. by apply name_eqb_eq in Eb.
Qed.

Lemma find_set_group t g gname : find_group (set_group t g) gname =
  if decide (g_name g = gname) then (match find_group t gname with Some _ => Some g | None => None end)
  else find_group t gname.
Proof.
  unfold find_group. cbn [set_group t_groups]. induction (t_groups t) as [|x l IH]; [by destruct (decide _)|].
  rewrite put_group_cons. cbn [find]. destruct (decide (g_name x = g_name g)) as [E|E]; cbn [find].
  - rewrite E. destruct (decide (g_name g = gname)) as [->|Hne]; [by rewrite (proj2 (name_eqb_eq _ _) eq_refl)|].
    destruct (name_eqb (g_name g) gname) eqn:Eb; [by apply name_eqb_eq in Eb|done].
  - rewrite IH. destruct (name_eqb (g_name x) gname) eqn:Eb; [|done]. apply name_eqb_eq in Eb as <-.
    by rewrite decide_False by done.
Qed.

Lemma put_group_names l g : g_name <$> put_group l g = g_name <$> l.
Proof.
  induction l as [|x l IH]; [done|]. rewrite put_group_cons. destruct (decide _) as [E|E]; cbn; [by rewrite E|by rewrite IH].
Qed.

Lemma put_group_Forall (P : group -> Prop) l g : Forall P l -> P g -> Forall P (put_group l g).
Proof.
  induction 1 as [|x l Hx Hl IH]; intros Ht; [constructor|]. rewrite put_group_cons.
  destruct (decide _); constructor; auto.
Qed.

(** The offset a group has committed; 0 when there is none. *)
Definition offset_of (t : topic) (gname : bytes) (p : nat) : Z :=
  match find_group t gname with Some g => default 0 (g_offsets g !! p) | None => 0 end.

(** Every group has an offset for each partition. *)
Definition sized (t : topic) : Prop :=
  Forall (fun g => length (g_offsets g) = length (t_parts t)) (t_groups t).

Lemma topic_ok_sized t : topic_ok t -> sized t.
Proof. intros H. eapply Forall_impl; [apply (to_groups _ H)|]. by intros g []. Qed.

Lemma ensure_find t gname : exists g, find_group (ensure_group t gname) gname = Some g /\
  forall p, default 0 (g_offsets g !! p) = offset_of t gname p.
Proof.
  unfold ensure_group, offset_of. destruct (find_group t gname) as [g|] eqn:E; [by exists g|].
  exists (new_group t gname). split.
  - erewrite find_group_cons by done. by rewrite decide_True.
  - intros p. cbn. by destruct (replicate (length (t_parts t)) 0 !! p) as [x|] eqn:Ex;
      [apply lookup_replicate in Ex as [-> _]|].
Qed.

Lemma ensure_other t gname g' : gname <> g' -> find_group (ensure_group t gname) g' = find_group t g'.
Proof.
  intros H. unfold ensure_group. destruct (find_group t gname); [done|]. erewrite find_group_cons by done.
  by rewrite decide_False.
Qed.

Lemma ensure_sized t gname : sized t -> sized (ensure_group t gname).
Proof.
  intros H. unfold ensure_group. destruct (find_group t gname); [done|]. constructor; [|exact H].
  cbn. by rewrite length_replicate.
Qed.

Lemma commit_offset t gname p off g' p' : sized t -> (Z.to_nat p < length (t_parts t))%nat ->
  offset_of (commit_topic t gname p off) g' p' =
  if decide (gname = g' /\ Z.to_nat p = p') then off else offset_of t g' p'.
Proof.
  intros Hs Hp. unfold commit_topic. destruct (ensure_find t gname) as (g & E & Eo). rewrite E.
  pose proof (find_group_in _ _ _ E) as [En Hin]. unfold offset_of at 1. rewrite find_set_group.
  change (g_name (set_offset g p off)) with (g_name g). rewrite En.
  destruct (decide (gname = g')) as [<-|Hne].
  - rewrite E. cbn [set_offset g_offsets]. pose proof (ensure_sized t gname Hs) as Hse.
    unfold sized in Hse. rewrite Forall_forall in Hse. specialize (Hse g Hin).
    assert (El : length (t_parts (ensure_group t gname)) = length (t_parts t)).
    { unfold ensure_group. by destruct (find_group t gname). }
    destruct (decide (Z.to_nat p = p')) as [<-|Hp'].
    + rewrite list_lookup_insert_eq by lia. by rewrite decide_True.
    + rewrite list_lookup_insert_ne by done. rewrite Eo, decide_False; [done|]. by intros [_ ?].
  - rewrite (decide_False (P := gname = g' /\ _)) by (by intros [? _]). unfold offset_of. by rewrite ensure_other.
Qed.

End StreamEvents.
