(* ===== verification/StreamMem.v ===== *)
(** * States of the stream engine with the same durable part

    Two relations of topics that leave out the members of groups, revisions
    and identities not yet logged: one with equal partitions, and one where
    the second has lost records at the head of partitions, as retention
    without a record of it does.  The effects of the log respect both.

    Then, in [StreamMem]: the memory of the stream engine keeps its invariant. *)

From stdpp Require Import base numbers option list.
From S2P Require Import Prelude Stream StreamLog StreamSpec StreamRetain StreamEvents.
Import Stream StreamLog StreamSpec StreamEvents.

Module StreamSame.

(** ** Partitions *)

Definition contiguous (x : part) : Prop :=
  offsets_from (p_base x) (p_recs x) /\ p_next x = p_base x + zlen (p_recs x).

Lemma part_ok_contiguous l x : part_ok l x -> contiguous x.
Proof. by intros []. Qed.

Lemma contiguous_link x r : contiguous x -> r_offset r = p_next x -> contiguous (link_part r x).
Proof.
  intros [Ho Hn] E. split; cbn; [apply offsets_from_snoc; [done|lia]|]. rewrite zlen_app, zlen_cons, zlen_nil. lia.
Qed.

Lemma contiguous_trim b x : contiguous x -> contiguous (trim_to b x).
Proof.
  intros [Ho Hn]. unfold trim_to. pose proof (zlen_nonneg (p_recs x)).
  pose proof (split_below_kept b (p_base x) (p_recs x) Ho) as K.
  destruct (split_below b (p_recs x)) as [gone kept] eqn:E. destruct K as [K Ea].
  destruct (Z.ltb_spec (p_base x) b) as [H1|H1].
  - destruct (Z.ltb_spec (p_next x) b) as [H2|H2].
    + rewrite (split_below_all b (p_base x)) in E by (done || lia). injection E as <- <-. split; [done|]. cbn [p_next p_base p_recs]. rewrite zlen_nil. lia.
    + destruct K as [K1 K2]; [lia|]. split; [done|]. cbn [p_next p_base p_recs]. lia.
  - rewrite (split_below_none b (p_base x)) in E by (done || lia). injection E as <- <-.
    destruct (Z.ltb_spec (p_next x) b); [lia|]. by split.
Qed.

(** The second has lost records at the head. *)
Definition later (x x' : part) : Prop := exists gone,
  p_recs x = gone ++ p_recs x' /\ p_base x <= p_base x' /\ p_next x' = p_next x /\
  p_bytes x' = p_bytes x - zsum record_bytes gone.

(** Relations of partitions the effects respect. *)
Class PartRel (R : relation part) := {
  pr_preorder :: PreOrder R;
  pr_next : forall x x', R x x' -> p_next x' = p_next x;
  pr_link : forall x x' r, R x x' -> R (link_part r x) (link_part r x');
  pr_trim : forall x x' b, contiguous x -> contiguous x' -> R x x' -> R (trim_to b x) (trim_to b x') }.

#[global] Instance eq_part_rel : PartRel eq.
Proof. split; [apply _|congruence..]. Qed.

Lemma split_below_front b base l1 l2 : offsets_from base (l1 ++ l2) -> base + zlen l1 <= b ->
  split_below b (l1 ++ l2) = (l1 ++ (split_below b l2).1, (split_below b l2).2).
Proof.
  revert base. induction l1 as [|r l IH]; intros base; cbn [app offsets_from split_below].
  - intros _ _. by destruct (split_below b l2).
  - rewrite zlen_cons. pose proof (zlen_nonneg l). intros [-> H2] Hb. destruct (Z.ltb_spec base b); [|lia].
    by rewrite (IH (base + 1)) by (done || lia).
Qed.

Lemma split_below_back b base l1 l2 : offsets_from base (l1 ++ l2) -> b <= base + zlen l1 ->
  split_below b (l1 ++ l2) = ((split_below b l1).1, (split_below b l1).2 ++ l2).
Proof.
  revert base. induction l1 as [|r l IH]; intros base; cbn [app offsets_from split_below].
  - change (zlen []) with 0. intros H Hb. by rewrite (split_below_none b base) by (done || lia).
  - rewrite zlen_cons. intros [-> H2] Hb. destruct (Z.ltb_spec base b); [|done].
    rewrite (IH (base + 1)) by (done || lia). by destruct (split_below b l).
Qed.

#[global] Instance later_part_rel : PartRel later.
Proof.
  split.
  - split.
    + intros x. exists []. cbn. split_and!; (done || lia).
    + intros x y z (g & E & Hb & Hn & Hy) (g' & E' & Hb' & Hn' & Hy'). exists (g ++ g').
      rewrite zsum_app, <- app_assoc, <- E'. split_and!; (done || lia).
  - by intros x x' (g & _ & _ & H & _).
  - intros x x' r (g & E & Hb & Hn & Hy). exists g. cbn. rewrite E, <- app_assoc. split_and!; (done || lia).
  - intros x x' b [Ho Hn] [Ho' Hn'] (g & E & Hb & En & Hy).
    assert (Eb : p_base x' = p_base x + zlen g).
    { apply (f_equal zlen) in E. rewrite zlen_app in E. lia. }
    unfold trim_to. rewrite E in Ho |- *. destruct (Z.le_gt_cases b (p_base x')) as [Hle|Hgt].
    + rewrite (split_below_back b (p_base x)) by (done || lia). rewrite (split_below_none b (p_base x') (p_recs x')) by done.
      exists (split_below b g).2. cbn. pose proof (f_equal (zsum record_bytes) (split_below_app b g)) as Es.
      rewrite zsum_app in Es. split_and!; [done|repeat case_match; reflect_tests; lia..|lia].
    + rewrite (split_below_front b (p_base x)) by (done || lia). destruct (split_below b (p_recs x')) as [g' k'].
      exists []. cbn. rewrite zsum_app. split_and!; [done|repeat case_match; reflect_tests; lia..|lia].
Qed.

(** ** Topics *)

Definition sound (t : topic) : Prop := sized t /\ Forall contiguous (t_parts t).

Lemma topic_ok_sound t : topic_ok t -> sound t.
Proof.
  intros H. split; [by apply topic_ok_sized|]. eapply Forall_impl; [apply (to_each _ H)|]. intros x. apply part_ok_contiguous.
Qed.

Lemma sound_at t p x : sound t -> t_parts t !! p = Some x -> contiguous x.
Proof. intros [_ H] E. rewrite Forall_lookup in H. eauto. Qed.

(** Distinct names and sound topics: what the effects rely on. *)
Definition regular (l : list topic) : Prop := NoDup (t_name <$> l) /\ Forall sound l.

Lemma topics_ok_regular l : topics_ok l -> regular l.
Proof. intros [H1 H2]. split; [done|]. eapply Forall_impl; [done|]. apply topic_ok_sound. Qed.

Lemma regular_put l t : regular l -> sound t -> regular (put_topic l t).
Proof. intros [H1 H2] Ht. split; [by rewrite put_names|by apply put_Forall]. Qed.

Lemma regular_at l name t : regular l -> find_topic l name = Some t -> sound t.
Proof. intros [_ H] E. rewrite Forall_forall in H. apply H. by eapply find_topic_name. Qed.

Record tsame (R : relation part) (t t' : topic) : Prop := TSame {
  ts_name : t_name t' = t_name t;
  ts_max : t_max_bytes t' = t_max_bytes t;
  ts_age : t_max_age_ms t' = t_max_age_ms t;
  ts_parts : Forall2 R (t_parts t) (t_parts t');
  ts_flag : t_id_persisted t' = t_id_persisted t;
  ts_id : t_id_persisted t = true -> t_id t' = t_id t;
  ts_offsets : forall g p, offset_of t' g p = offset_of t g p }.

Definition same (R : relation part) (l l' : list topic) : Prop :=
  forall name, option_Forall2 (tsame R) (find_topic l name) (find_topic l' name).

#[global] Instance tsame_preorder R : PreOrder R -> PreOrder (tsame R).
Proof.
  intros HR. split.
  - intros t. by constructor.
  - intros a b c [] []. constructor; try congruence; [by etransitivity|].
    intros H. rewrite ts_id1 by congruence. by apply ts_id0.
Qed.

#[global] Instance same_preorder R : PreOrder R -> PreOrder (same R).
Proof.
  intros HR. split.
  - intros l name. by destruct (find_topic l name); constructor.
  - intros a b c H1 H2 name. specialize (H1 name). specialize (H2 name).
    destruct H1 as [x y Hxy|]; inversion H2; subst; constructor. by etransitivity.
Qed.

#[global] Instance same_eq_symmetric : Symmetric (same eq).
Proof.
  intros l l' H name. specialize (H name). inversion H as [x y []|]; constructor. constructor; try congruence.
  - by symmetry.
  - intros Hf. symmetry. apply ts_id0. congruence.
Qed.

Lemma same_weaken R l l' : PreOrder R -> same eq l l' -> same R l l'.
Proof.
  intros HR H name. specialize (H name). inversion H as [x y []|]; constructor. constructor; try done.
  apply list_eq_Forall2 in ts_parts0 as ->. done.
Qed.

(** The change an event makes to its topic. *)
Definition ev_change (e : event) : option (bytes * (topic -> option topic)) :=
  match e with
  | EIdentity name id => Some (name, fun t => Some (identity_topic t id))
  | EAppend name p r => Some (name, link_event p r)
  | EBatch name keyed items => Some (name, link_events items)
  | ETrim name p base => Some (name, trim_event p base)
  | ECommit name gname p off => Some (name, commit_event gname p off)
  | ERetention name maxb age => Some (name, fun t => Some (retention_topic t maxb age))
  | ERevision name revision => Some (name, fun t => Some (revision_topic t revision))
  | _ => None
  end.

(** Partitions are unsigned. *)
Definition ev_nat (e : event) : Prop := match e with ECommit _ _ p _ => 0 <= p | _ => True end.

Section Relation.
Context (R : relation part) `{PR : PartRel R}.

Lemma same_found l l' name t : same R l l' -> find_topic l name = Some t ->
  exists t', find_topic l' name = Some t' /\ tsame R t t'.
Proof using. intros H E. specialize (H name). rewrite E in H. inversion H. eauto. Qed.

Lemma same_found_r l l' name t' : same R l l' -> find_topic l' name = Some t' ->
  exists t, find_topic l name = Some t /\ tsame R t t'.
Proof using. intros H E. specialize (H name). rewrite E in H. inversion H. eauto. Qed.

Lemma same_put l l' t t' : same R l l' -> tsame R t t' -> same R (put_topic l t) (put_topic l' t').
Proof using.
  intros H Ht name. specialize (H name). rewrite !find_put, (ts_name _ _ _ Ht).
  destruct (decide (t_name t = name)); [|done]. destruct H; constructor. done.
Qed.

(** A change of one topic that depends on its durable part only. *)
Record change (f : topic -> option topic) : Prop := Change {
  ch_name : forall t u, f t = Some u -> t_name u = t_name t;
  ch_sound : forall t u, sound t -> f t = Some u -> sound u;
  ch_same : forall t t', sound t -> sound t' -> tsame R t t' -> option_Forall2 (tsame R) (f t) (f t') }.

Lemma part_same t t' p : tsame R t t' -> option_Forall2 R (t_parts t !! p) (t_parts t' !! p).
Proof using. intros H. apply Forall2_lookup, H. Qed.

Lemma link_sound t p x r : sound t -> t_parts t !! p = Some x -> r_offset r = p_next x -> sound (link_topic t p r).
Proof using.
  intros [Hs Hc] Hx Ho. split; [unfold sized; cbn; by rewrite length_alter|]. apply Forall_alter_at; [done|].
  intros y Hy H. rewrite Hx in Hy. injection Hy as <-. by apply contiguous_link.
Qed.

Lemma trim_sound t p b : sound t -> sound (trim_topic t p b).
Proof using.
  intros [Hs Hc]. split; [unfold sized; cbn; by rewrite length_alter|]. apply Forall_alter_at; [done|].
  intros y _ H. by apply contiguous_trim.
Qed.

Lemma link_same t t' p r : tsame R t t' -> tsame R (link_topic t p r) (link_topic t' p r).
Proof using PR. intros []. constructor; cbn; try done. apply Forall2_alter; [done|]. intros x x' _ _. apply pr_link. Qed.

Lemma trim_same t t' p b : sound t -> sound t' -> tsame R t t' -> tsame R (trim_topic t p b) (trim_topic t' p b).
Proof using PR.
  intros Hs Hs' []. constructor; cbn; try done. apply Forall2_alter; [done|]. intros x x' Hx Hx'.
  by apply pr_trim; [exact (sound_at t p x Hs Hx)|exact (sound_at t' p x' Hs' Hx')].
Qed.

Lemma link_change p r : change (link_event p r).
Proof using PR.
  unfold link_event. constructor.
  - intros t u. destruct (t_parts t !! _); [|done]. destruct (_ =? _); [|done]. by intros [= <-].
  - intros t u Hs. destruct (t_parts t !! _) eqn:Hx; [|done]. destruct (Z.eqb_spec (r_offset r) (p_next p0)); [|done].
    intros [= <-]. by eapply link_sound.
  - intros t t' _ _ H. destruct (part_same t t' (Z.to_nat p) H) as [x x' Hx|]; [|constructor].
    rewrite (pr_next _ _ Hx). destruct (_ =? _); constructor. by apply link_same.
Qed.

Lemma links_change items : change (link_events items).
Proof using PR.
  induction items as [|[p r] items [IH1 IH2 IH3]]; cbn [link_events].
  { constructor; [by intros t u [= <-]|by intros t u ? [= <-]|]. intros t t' _ _ H. by constructor. }
  destruct (link_change p r) as [L1 L2 L3]. constructor.
  - intros t u. destruct (link_event p r t) as [v|] eqn:E; [|done]. intros H. rewrite (IH1 v u H). by apply L1.
  - intros t u Hs. destruct (link_event p r t) as [v|] eqn:E; [|done]. apply IH2. exact (L2 t v Hs E).
  - intros t t' Hs Hs' H. pose proof (L3 t t' Hs Hs' H) as L.
    destruct (link_event p r t) as [v|] eqn:E, (link_event p r t') as [v'|] eqn:E'; inversion L; subst; [|constructor].
    apply IH3; [exact (L2 t v Hs E)|exact (L2 t' v' Hs' E')|done].
Qed.

Lemma same_partitions t t' : tsame R t t' -> t_partitions t' = t_partitions t.
Proof using. intros H. unfold t_partitions, zlen. by rewrite (Forall2_length _ _ _ (ts_parts _ _ _ H)). Qed.

Lemma trim_change p b : change (trim_event p b).
Proof using PR.
  unfold trim_event. constructor.
  - intros t u. destruct (_ <=? _); [done|]. by intros [= <-].
  - intros t u Hs. destruct (_ <=? _); [done|]. intros [= <-]. by apply trim_sound.
  - intros t t' Hs Hs' H. rewrite (same_partitions t t' H). destruct (_ <=? _); constructor. by apply trim_same.
Qed.

Lemma commit_fields t gname p off : t_name (commit_topic t gname p off) = t_name t /\
  t_max_bytes (commit_topic t gname p off) = t_max_bytes t /\
  t_max_age_ms (commit_topic t gname p off) = t_max_age_ms t /\
  t_parts (commit_topic t gname p off) = t_parts t /\
  t_id_persisted (commit_topic t gname p off) = t_id_persisted t /\ t_id (commit_topic t gname p off) = t_id t.
Proof using.
  assert (H : forall u, (t_name u = t_name t /\ t_max_bytes u = t_max_bytes t /\ t_max_age_ms u = t_max_age_ms t /\
    t_parts u = t_parts t /\ t_id_persisted u = t_id_persisted t /\ t_id u = t_id t) -> forall o,
    let v := match o with Some g => set_group u (set_offset g p off) | None => u end in
    t_name v = t_name t /\ t_max_bytes v = t_max_bytes t /\ t_max_age_ms v = t_max_age_ms t /\
    t_parts v = t_parts t /\ t_id_persisted v = t_id_persisted t /\ t_id v = t_id t) by (by intros u Hu []).
  unfold commit_topic. apply H. unfold ensure_group. by destruct (find_group t gname).
Qed.

Lemma commit_sound t gname p off : sound t -> sound (commit_topic t gname p off).
Proof using.
  intros [H Hc]. split; [|by rewrite (proj1 (proj2 (proj2 (proj2 (commit_fields t gname p off)))))].
  pose proof (ensure_sized t gname H) as He. unfold commit_topic.
  destruct (find_group (ensure_group t gname) gname) as [g|] eqn:E; [|done].
  apply find_group_in in E as [_ Hin]. unfold sized in *. cbn [set_group t_groups t_parts].
  apply put_group_Forall; [done|]. cbn. rewrite length_insert. rewrite Forall_forall in He. by apply He.
Qed.

Lemma commit_same t t' gname p off : sound t -> sound t' -> (Z.to_nat p < length (t_parts t))%nat ->
  tsame R t t' -> tsame R (commit_topic t gname p off) (commit_topic t' gname p off).
Proof using.
  intros [Hs _] [Hs' _] Hp H. destruct (commit_fields t gname p off) as (E1 & E2 & E3 & E4 & E5 & E6).
  destruct (commit_fields t' gname p off) as (F1 & F2 & F3 & F4 & F5 & F6). pose proof H as [].
  pose proof (Forall2_length _ _ _ ts_parts0). constructor; try congruence.
  - intros Hf. rewrite E5 in Hf. rewrite F6, E6. auto.
  - intros g q. rewrite !commit_offset by (done || lia). by destruct (decide _).
Qed.

Lemma commit_change gname p off : 0 <= p -> change (commit_event gname p off).
Proof using.
  intros Hp. unfold commit_event. constructor.
  - intros t u. destruct (_ <=? _); [done|]. intros [= <-]. apply commit_fields.
  - intros t u Hs. destruct (_ <=? _); [done|]. intros [= <-]. by apply commit_sound.
  - intros t t' Hs Hs' H. rewrite (same_partitions t t' H).
    destruct (Z.leb_spec (t_partitions t) p); constructor. unfold t_partitions, zlen in *. apply commit_same; (done || lia).
Qed.

Lemma change_const g : (forall t, t_name (g t) = t_name t) -> (forall t, sound t -> sound (g t)) ->
  (forall t t', tsame R t t' -> tsame R (g t) (g t')) -> change (fun t => Some (g t)).
Proof using.
  intros H1 H2 H3. constructor.
  - by intros t u [= <-].
  - intros t u Hs [= <-]. auto.
  - intros t t' _ _ H. constructor. auto.
Qed.

Lemma ev_change_spec e name f : ev_change e = Some (name, f) -> ev_nat e ->
  change f /\ forall l, effect e l = on_topic l name f.
Proof using PR.
  destruct e; cbn; intros E Hn; try discriminate; injection E as <- <-; (split; [|done]).
  - apply change_const; [done|done|]. intros t t' []. constructor; cbn; try done.
  - apply link_change.
  - apply links_change.
  - apply trim_change.
  - by apply commit_change.
  - apply change_const; [done|done|]. intros t t' []. constructor; cbn; try done.
  - apply change_const; [done|done|]. intros t t' []. constructor; cbn; try done.
Qed.

(** ** Effects *)

Lemma on_topic_same f l l' name : change f -> regular l -> regular l' -> same R l l' ->
  option_Forall2 (same R) (on_topic l name f) (on_topic l' name f).
Proof using.
  intros [C1 C2 C3] Hl Hl' H. unfold on_topic. pose proof (H name) as Hn.
  destruct (find_topic l name) as [t|] eqn:E, (find_topic l' name) as [t'|] eqn:E'; inversion Hn; subst; [|constructor].
  pose proof (C3 t t' (regular_at l name t Hl E) (regular_at l' name t' Hl' E') ltac:(done)) as C.
  destruct (f t), (f t'); inversion C; subst; constructor. by apply same_put.
Qed.

Lemma on_topic_regular f l name m : change f -> regular l -> on_topic l name f = Some m -> regular m.
Proof using.
  intros [C1 C2 _] Hl. unfold on_topic. destruct (find_topic l name) as [t|] eqn:E; [|done].
  destruct (f t) as [u|] eqn:Eu; [|done]. intros [= <-]. apply regular_put; [done|].
  exact (C2 t u (regular_at l name t Hl E) Eu).
Qed.

Lemma effect_same e l l' : ev_nat e -> regular l -> regular l' -> same R l l' ->
  option_Forall2 (same R) (effect e l) (effect e l').
Proof using PR.
  intros Hn Hl Hl' H. destruct (ev_change e) as [[name f]|] eqn:Ec.
  - destruct (ev_change_spec e name f Ec Hn) as [C Hf]. rewrite !Hf. by apply on_topic_same.
  - destruct e; try discriminate; cbn; pose proof (H name) as Ht;
      destruct (find_topic l name) as [t|] eqn:E, (find_topic l' name) as [t'|] eqn:E'; inversion Ht; subst;
      constructor; intros n.
    + rewrite !find_topic_cons. destruct (decide _); [by constructor|apply H].
    + rewrite !find_remove by (apply Hl || apply Hl'). destruct (decide _); [constructor|apply H].
Qed.

End Relation.

Lemma find_some_of l x : x ∈ l -> is_Some (find_topic l (t_name x)).
Proof.
  induction l as [|y l IH]; [by intros H%not_elem_of_nil|]. rewrite find_topic_cons.
  intros [->|H]%elem_of_cons; [by rewrite decide_True|]. destruct (decide _); [done|auto].
Qed.

Lemma effect_regular e l m : ev_nat e -> regular l -> effect e l = Some m -> regular m.
Proof.
  intros Hn Hl. destruct (ev_change e) as [[name f]|] eqn:Ec.
  - destruct (ev_change_spec eq e name f Ec Hn) as [C ->]. by eapply on_topic_regular.
  - destruct Hl as [R1 R2]. destruct e; try discriminate; cbn.
    + destruct (find_topic l name) as [t|] eqn:E; [done|]. intros [= <-]. split.
      * cbn. apply NoDup_cons. split; [|done]. intros (t & En & Hin)%list_elem_of_fmap.
        pose proof (find_some_of l t Hin) as Hs. rewrite <- En, E in Hs. by destruct Hs.
      * constructor; [|done]. split; [constructor|]. by apply Forall_replicate.
    + destruct (find_topic l name); [|done]. intros [= <-]. split; [by apply remove_names|].
      rewrite Forall_forall in *. intros x Hx. apply R2. by eapply remove_sub.
Qed.

Lemma effects_regular es : forall l m, Forall ev_nat es -> regular l -> effects es l = Some m -> regular m.
Proof.
  induction es as [|e es IH]; intros l m Hn R; cbn; [by intros [= <-]|]. apply Forall_cons in Hn as [Hn Hns].
  destruct (effect e l) as [l1|] eqn:E; [|done]. apply IH; [done|]. by eapply effect_regular.
Qed.

End StreamSame.

(** * The memory of the stream engine keeps its invariant

    Every change of one topic that keeps the invariant of the topic keeps that
    of the store, the estimate of the live bytes included. *)

Import Stream StreamLog StreamSpec StreamRetain StreamEvents StreamSame.

Module StreamMem.

Record mem_ok (s : sstore) : Prop := MemOk {
  mo_topics : topics_ok (ss_topics s);
  mo_live : ss_live_bytes s = zsum topic_live (ss_topics s);
  mo_allocs : ss_allocs s = [];
  mo_ids : Forall (fun i => bytes_ok i /\ zlen i = STREAM_ID_LEN) (ss_ids s) }.

(** Everything but the topics, the estimate and the identities to come. *)
Record fixed (s s' : sstore) : Prop := Fixed {
  fx_open : ss_open s' = ss_open s;
  fx_failed : ss_failed s' = ss_failed s;
  fx_file : ss_file s' = ss_file s;
  fx_durable : ss_durable s' = ss_durable s;
  fx_off : ss_off s' = ss_off s;
  fx_buf : ss_buf s' = ss_buf s /\ ss_buf_cap s' = ss_buf_cap s;
  fx_seq : ss_wal_seq s' = ss_wal_seq s /\ ss_synced_seq s' = ss_synced_seq s /\
    ss_wal_bytes s' = ss_wal_bytes s;
  fx_outcomes : ss_writes s' = ss_writes s /\ ss_syncs s' = ss_syncs s }.

#[global] Instance fixed_preorder : PreOrder fixed.
Proof.
  split; [by intros s; constructor|]. intros a b c [? ? ? ? ? [? ?] (? & ? & ?) [? ?]] [? ? ? ? ? [? ?] (? & ? & ?) [? ?]].
  constructor; try congruence; split_and!; congruence.
Qed.

Lemma salloc_nil s : ss_allocs s = [] -> salloc s = (true, s).
Proof. intros E. unfold salloc. rewrite E. cbn. destruct s; cbn in *. by rewrite E. Qed.

(** Allocations succeed. *)
Ltac sallocs A := repeat (rewrite salloc_nil by exact A; cbn [negb andb]).

Lemma topic_of s name t : mem_ok s -> find_topic (ss_topics s) name = Some t -> topic_ok t /\ t_name t = name.
Proof.
  intros [[H _] _ _ _] E. apply find_topic_name in E as [En Hin]. rewrite Forall_forall in H. auto.
Qed.

(** Writing back a topic. *)
Lemma put_ok s t t' n : mem_ok s -> find_topic (ss_topics s) (t_name t) = Some t -> t_name t' = t_name t ->
  topic_ok t' -> n = topic_live t' - topic_live t -> mem_ok (set_topic (add_live s n) t').
Proof.
  intros [[H1 H2] Hl Ha Hi] F En Ht ->. constructor; cbn [set_topic add_live ss_topics ss_live_bytes ss_allocs ss_ids]; try done.
  - split; [by apply put_Forall|by rewrite put_names].
  - rewrite (put_sum _ _ _ t) by (by rewrite En). lia.
Qed.

Lemma zsum_le_elem {A} (f : A -> Z) l x : (forall y, y ∈ l -> 0 <= f y) -> x ∈ l -> f x <= zsum f l.
Proof.
  intros Hf. induction 1 as [x l|x y l Hin IH]; cbn [zsum].
  - pose proof (zsum_nonneg f l ltac:(intros; apply Hf; by right)). lia.
  - pose proof (Hf y ltac:(by left)). specialize (IH ltac:(intros; apply Hf; by right)). lia.
Qed.

Lemma topic_live_pos t : 0 <= topic_live t.
Proof.
  unfold topic_live, identity_live. pose proof (zlen_nonneg (t_name t)).
  assert (0 <= zsum (fun x => zsum (record_live t) (p_recs x)) (t_parts t)).
  { apply zsum_nonneg. intros x _. apply zsum_nonneg. intros r _. unfold record_live.
    pose proof (zlen_nonneg (r_body r)). pose proof (zlen_nonneg (r_key r)). destruct (_ =? 0); lia. }
  assert (0 <= zsum (group_live t) (t_groups t)).
  { apply zsum_nonneg. intros g _. unfold group_live, t_partitions. pose proof (zlen_nonneg (t_parts t)).
    pose proof (zlen_nonneg (g_name g)). nia. }
  destruct (t_id_persisted t); lia.
Qed.

Lemma unlink_ok s t : mem_ok s -> find_topic (ss_topics s) (t_name t) = Some t -> mem_ok (unlink_topic s t).
Proof.
  intros [[H1 H2] Hl Ha Hi] F. constructor; cbn [unlink_topic ss_topics ss_live_bytes ss_allocs ss_ids]; try done.
  - split; [|by apply remove_names]. rewrite Forall_forall in *. intros x Hx. apply H1. by eapply remove_sub.
  - rewrite (remove_sum _ _ _ t F).
    assert (topic_live t <= ss_live_bytes s).
    { rewrite Hl. apply zsum_le_elem; [intros; apply topic_live_pos|]. by eapply find_topic_name. }
    destruct (Z.leb_spec (topic_live t) (ss_live_bytes s)); lia.
Qed.

(** ** New topics *)

Lemma new_topic_ok name parts maxb age id : short_name name -> 0 < parts <= STREAM_PARTITIONS_MAX ->
  fits 64 maxb -> fits 64 age -> bytes_ok id -> zlen id = STREAM_ID_LEN ->
  topic_ok (new_topic name parts maxb age id) /\ topic_live (new_topic name parts maxb age id) = 22 + zlen name.
Proof.
  intros Hn Hp Hm Ha Hi Hl.
  assert (Hz : forall (f : part -> Z) n, f (Part [] 0 0 0) = 0 -> zsum f (replicate n (Part [] 0 0 0)) = 0).
  { intros f n Hf. induction n as [|n IH]; [done|]. cbn [replicate zsum]. lia. }
  split.
  - constructor; cbn; try done.
    + unfold t_partitions, zlen. cbn. rewrite length_replicate. lia.
    + apply Forall_replicate. by constructor.
    + by rewrite Hz.
    + by rewrite Hz.
    + apply NoDup_nil_2.
  - unfold topic_live. cbn. rewrite Hz by done. lia.
Qed.

Lemma generate_ok s : mem_ok s -> exists id s', topic_id_generate s = (id, s') /\ bytes_ok id /\
  zlen id = STREAM_ID_LEN /\ fixed s s' /\ ss_topics s' = ss_topics s /\ ss_live_bytes s' = ss_live_bytes s /\
  ss_allocs s' = [] /\ Forall (fun i => bytes_ok i /\ zlen i = STREAM_ID_LEN) (ss_ids s').
Proof.
  intros [_ _ Ha Hi]. unfold topic_id_generate. destruct (ss_ids s) as [|i r] eqn:E.
  - eexists _, _. split; [done|]. split; [by bytes_tac|]. rewrite E. done.
  - apply Forall_cons in Hi as [[H1 H2] Hi]. eexists _, _. split; [done|]. done.
Qed.

Lemma add_topic_new s name parts maxb age : mem_ok s -> short_name name -> 0 < parts <= STREAM_PARTITIONS_MAX ->
  fits 64 maxb -> fits 64 age -> find_topic (ss_topics s) name = None ->
  exists id s', add_topic s name parts maxb age = (0, s') /\ mem_ok s' /\ fixed s s' /\
    ss_topics s' = new_topic name parts maxb age id :: ss_topics s.
Proof.
  intros M Hn Hp Hm Ha F. unfold add_topic. rewrite F. pose proof Hn as [_ Hl].
  destruct (Z.eqb_spec (zlen name) 0); [lia|]. unfold STREAM_NAME_MAX. destruct (Z.ltb_spec 255 (zlen name)); [lia|].
  destruct (Z.eqb_spec parts 0); [lia|]. destruct (Z.ltb_spec STREAM_PARTITIONS_MAX parts); [lia|]. cbn [orb].
  pose proof (mo_allocs _ M) as A. sallocs A.
  destruct (generate_ok s M) as (id & s1 & E & Hi & Hil & Fx & Et & El & Ea & Hids). rewrite E.
  destruct (new_topic_ok name parts maxb age id Hn Hp Hm Ha Hi Hil) as [Hk Hlive].
  eexists id, _. split; [done|]. destruct M as [[H1 H2] Hlv _ _]. split; [|split].
  - constructor; cbn [add_live ss_topics ss_live_bytes ss_allocs ss_ids]; rewrite ?Et, ?El; try done.
    + split; [by constructor|]. cbn. apply NoDup_cons. split; [|done]. intros (t & En & Hin)%list_elem_of_fmap.
      pose proof (find_some_of _ t Hin) as Hs. rewrite <- En, F in Hs. by destruct Hs.
    + cbn [zsum]. rewrite Hlive. lia.
  - destruct Fx. by constructor.
  - cbn. by rewrite Et.
Qed.

(** ** Changes of one topic *)

Lemma append_memory_ok s t p x r : ss_allocs s = [] -> topic_ok t ->
  t_parts t !! Z.to_nat p = Some x -> r_offset r = p_next x -> rec_ok (zlen (t_name t)) r ->
  append_memory s t p (r_offset r) (r_at_ms r) (r_key r) (r_body r)
    = (0, add_live s (topic_live (link_topic t (Z.to_nat p) r) - topic_live t), link_topic t (Z.to_nat p) r) /\
  topic_ok (link_topic t (Z.to_nat p) r).
Proof.
  intros A Hk Hx Ho Hr. unfold append_memory. rewrite Hx.
  rewrite (proj2 (Z.eqb_eq _ _) Ho). cbn [negb]. rewrite salloc_nil by done. cbn [negb part_link].
  rewrite (link_topic_live t _ x r Hx). replace (topic_live t + record_live t r - topic_live t) with (record_live t r) by lia.
  destruct r as [off at_ body key]; cbn in *. split; [done|]. by eapply link_topic_ok.
Qed.

Lemma new_group_ok t gname : topic_ok t -> short_name gname -> group_ok (length (t_parts t)) (new_group t gname).
Proof.
  intros H Hg. constructor; cbn; try done; [by rewrite length_replicate| |apply NoDup_nil_2].
  apply Forall_replicate. unfold fits. lia.
Qed.

Lemma find_group_none t gname : find_group t gname = None -> gname ∉ g_name <$> t_groups t.
Proof.
  unfold find_group. intros H (g & -> & Hin)%list_elem_of_fmap. apply list_elem_of_In in Hin.
  pose proof (find_none _ _ H g Hin) as Hn. cbn in Hn. by rewrite (proj2 (name_eqb_eq _ _) eq_refl) in Hn.
Qed.

Lemma ensure_ok t gname : topic_ok t -> short_name gname ->
  topic_ok (ensure_group t gname) /\
  topic_live (ensure_group t gname) = topic_live t +
    (match find_group t gname with Some _ => 0 | None => group_live t (new_group t gname) end).
Proof.
  intros H Hg. unfold ensure_group. destruct (find_group t gname) as [g|] eqn:E; [split; [done|lia]|].
  pose proof (new_group_ok t gname H Hg). split.
  - destruct H. constructor; cbn; try done; [by constructor|]. apply NoDup_cons. split; [by apply find_group_none|done].
  - unfold topic_live. cbn [t_name t_id_persisted t_parts t_groups zsum].
    change (record_live _) with (record_live t) at 1. change (group_live _) with (group_live t).
    change (identity_live _) with (identity_live t) at 1. lia.
Qed.

Lemma set_group_ok t g : topic_ok t -> group_ok (length (t_parts t)) g -> topic_ok (set_group t g).
Proof.
  intros [] Hg. constructor; cbn; try done; [by apply put_group_Forall|]. by rewrite put_group_names.
Qed.

Lemma set_group_live t g : topic_live (set_group t g) = topic_live t.
Proof.
  unfold topic_live. cbn [set_group t_name t_id_persisted t_parts t_groups].
  change (record_live _) with (record_live t) at 1. change (group_live _) with (group_live t).
  change (identity_live _) with (identity_live t) at 1.
  assert (E : zsum (group_live t) (put_group (t_groups t) g) = zsum (group_live t) (t_groups t)); [|lia].
  induction (t_groups t) as [|x l IH]; [done|]. rewrite put_group_cons. destruct (decide _) as [E|E]; cbn [zsum]; [|lia].
  unfold group_live. by rewrite E.
Qed.

Lemma group_get_ok s t gname : ss_allocs s = [] -> 
  exists g, group_get s t gname true = (Some g,
    add_live s (topic_live (ensure_group t gname) - topic_live t), ensure_group t gname) /\
    find_group (ensure_group t gname) gname = Some g.
Proof.
  intros A. unfold group_get. destruct (find_group t gname) as [g|] eqn:E.
  - unfold ensure_group. rewrite E, Z.sub_diag, add_live_0. by exists g.
  - cbn [negb]. sallocs A.
    exists (new_group t gname). assert (Ee : ensure_group t gname = {| t with t_groups := new_group t gname :: t_groups t |})
      by (unfold ensure_group; by rewrite E). rewrite Ee. split.
    + do 2 f_equal. f_equal. unfold topic_live. cbn [t_name t_id_persisted t_parts t_groups zsum].
      change (record_live _) with (record_live t) at 1. change (group_live {| t_name := _ |}) with (group_live t).
      change (identity_live {| t_name := _ |}) with (identity_live t). lia.
    + erewrite find_group_cons by done. by rewrite decide_True.
Qed.

Lemma identity_topic_live t id : topic_live (identity_topic t id) - topic_live t = if t_id_persisted t then 0 else identity_live t.
Proof.
  unfold topic_live. cbn [identity_topic t_name t_id_persisted t_parts t_groups].
  change (record_live (identity_topic t id)) with (record_live t).
  change (identity_live (identity_topic t id)) with (identity_live t).
  change (group_live (identity_topic t id)) with (group_live t). destruct (t_id_persisted t); lia.
Qed.

End StreamMem.
