(* ===== verification/StreamCodec.v ===== *)
(** * Reading back the records of the stream log (stream.c: replay)

    Replay of the record of an event has the effect of the event. *)

From stdpp Require Import base numbers option list.
From S2P Require Import Prelude Crc Stream StreamLog StreamSpec StreamRetain StreamEvents StreamMem.
Import Crc Stream StreamLog StreamSpec StreamRetain StreamEvents StreamSame StreamMem.

Module StreamCodec.

(** ** Positions in a record *)

Lemma from_0 b : from b 0 = b.
Proof. done. Qed.

Lemma from_skip a b n : zlen a <= n -> from (a ++ b) n = from b (n - zlen a).
Proof.
  intros H. unfold from, zlen in *. rewrite drop_app_ge by lia. f_equal. lia.
Qed.

Lemma from_at a b n : n = zlen a -> from (a ++ b) n = b.
Proof. intros ->. rewrite from_skip by lia. by rewrite Z.sub_diag. Qed.

Lemma part_at a x c i n : i = zlen a -> n = zlen x -> part_of (a ++ x ++ c) i n = x.
Proof.
  intros -> ->. unfold part_of. rewrite from_at by done. unfold zlen. by rewrite Nat2Z.id, take_app_length.
Qed.

Lemma part_skip a b i n : zlen a <= i -> part_of (a ++ b) i n = part_of b (i - zlen a) n.
Proof. intros H. unfold part_of. by rewrite from_skip. Qed.

Lemma part_head x c n : n = zlen x -> part_of (x ++ c) 0 n = x.
Proof. intros ->. by apply (part_at [] x c 0). Qed.

Lemma part_all x i n : i = 0 -> n = zlen x -> part_of x i n = x.
Proof. intros -> ->. unfold part_of, zlen. by rewrite Nat2Z.id, from_0, firstn_all. Qed.

Lemma put16_len v : zlen (put16 v) = 2. Proof. done. Qed.
Lemma put32_len v : zlen (put32 v) = 4. Proof. done. Qed.
Lemma put64_len v : zlen (put64 v) = 8. Proof. done. Qed.

Lemma named_len name : zlen (named name) = 2 + zlen name.
Proof. unfold named. by rewrite zlen_app. Qed.

Lemma get16_named name rest : fits 16 (zlen name) -> get16 (named name ++ rest) = zlen name.
Proof. intros H. unfold named. rewrite <- app_assoc, get16_put16. by apply u16_small. Qed.

Lemma get32_at v rest : fits 32 v -> get32 (put32 v ++ rest) = v.
Proof. intros H. rewrite get32_put32. by apply u32_small. Qed.

Lemma get64_at v rest : fits 64 v -> get64 (put64 v ++ rest) = v.
Proof. intros H. rewrite get64_put64. by apply u64_small. Qed.

Lemma get16_at v rest : fits 16 v -> get16 (put16 v ++ rest) = v.
Proof. intros H. rewrite get16_put16. by apply u16_small. Qed.

Lemma short_fits name : short_name name -> fits 16 (zlen name).
Proof. intros [_ H]. unfold fits. lia. Qed.

Lemma from_start b n : n = 0 -> from b n = b.
Proof. by intros ->. Qed.

Ltac lens := rewrite ?zlen_app, ?named_len, ?put16_len, ?put32_len, ?put64_len.

(** Resolves the positions in a record: skips the fields in front. *)
Ltac walk :=
  repeat match goal with
  | |- context [from ?b ?n] =>
      let E := fresh in assert (E : from b n = b) by (apply from_start; lens; lia); rewrite E; clear E
  | |- context [from (?a ++ ?c) ?n] =>
      let E := fresh in
      assert (E : from (a ++ c) n = from c (n - zlen a)) by (apply from_skip; lens; lia); rewrite E; clear E
  | |- context [part_of ?x ?i ?n] =>
      let E := fresh in assert (E : part_of x i n = x) by (apply part_all; lens; lia); rewrite E; clear E
  | |- context [part_of (?x ++ ?c) ?i ?n] =>
      let E := fresh in
      assert (E : part_of (x ++ c) i n = x)
        by (replace i with 0 by (lens; lia); apply part_head; lens; lia); rewrite E; clear E
  | |- context [part_of (?a ++ ?c) ?i ?n] =>
      let E := fresh in
      assert (E : part_of (a ++ c) i n = part_of c (i - zlen a) n) by (apply part_skip; lens; lia); rewrite E; clear E
  end.

(** ** Well-formed events *)

Definition item_ok (keyed : bool) (i : Z * srec) : Prop :=
  fits 32 i.1 /\ fits 64 (r_offset i.2) /\ fits 64 (r_at_ms i.2) /\ bytes_ok (r_body i.2) /\
  fits 32 (zlen (r_body i.2)) /\ bytes_ok (r_key i.2) /\ fits 16 (zlen (r_key i.2)) /\
  (keyed = false -> r_key i.2 = []).

Definition ev_name (e : event) : bytes :=
  match e with
  | EDeclare name _ _ _ | EIdentity name _ | EAppend name _ _ | EBatch name _ _ | ETrim name _ _
  | ECommit name _ _ _ | ERetention name _ _ | ERevision name _ | EDelete name => name
  end.

Definition ev_ok (e : event) : Prop :=
  short_name (ev_name e) /\ zlen (ev_record e).2 <= RECORD_MAX /\
  match e with
  | EDeclare _ parts maxb age => 0 < parts <= STREAM_PARTITIONS_MAX /\ fits 64 maxb /\ fits 64 age
  | EIdentity _ id => bytes_ok id /\ zlen id = STREAM_ID_LEN
  | EAppend name p r => item_ok true (p, r)
  | EBatch name keyed items => 0 < zlen items <= STREAM_FETCH_MAX /\ Forall (item_ok keyed) items
  | ETrim _ p base => fits 32 p /\ fits 64 base
  | ECommit _ gname p off => short_name gname /\ fits 32 p /\ fits 64 off
  | ERetention _ maxb age => fits 64 maxb /\ fits 64 age
  | ERevision _ revision => 0 < revision < 2 ^ 64
  | EDelete _ => True
  end.

Lemma ev_ok_nat e : ev_ok e -> ev_nat e.
Proof. intros (_ & _ & H). destruct e; try done. destruct H as (_ & [H _] & _). done. Qed.

(** ** Replay of each record *)

(** The first tests of [replay]: the topic is looked up. *)
Lemma replay_start s op name rest : short_name name -> op <> S_DECLARE -> op <> S_DELETE ->
  replay s op (named name ++ rest) =
  match find_topic (ss_topics s) name with
  | None => (-1, s)
  | Some t => replay_topic s t op (named name ++ rest) (zlen (named name ++ rest)) (zlen name)
  end.
Proof.
  intros Hn Hd Hx. unfold replay. destruct (Z.eqb_spec op S_DECLARE); [done|].
  rewrite get16_named by (by apply short_fits). rewrite zlen_app, named_len. pose proof (zlen_nonneg rest).
  pose proof Hn as [_ Hl]. unfold STREAM_NAME_MAX. destruct (Z.ltb_spec (2 + zlen name + zlen rest) 2); [lia|].
  destruct (Z.ltb_spec 255 (zlen name)); [lia|].
  destruct (Z.ltb_spec (2 + zlen name + zlen rest) (2 + zlen name)); [lia|]. cbn [orb].
  destruct (Z.eqb_spec op S_DELETE); [done|]. unfold named. rewrite <- app_assoc, (part_at (put16 (zlen name))) by done.
  done.
Qed.

(** What replay of an event amounts to. *)
Definition replays (s : sstore) (e : event) (m : list topic) : Prop := exists s',
  replay s (ev_record e).1 (ev_record e).2 = (0, s') /\ mem_ok s' /\ fixed s s' /\ same eq m (ss_topics s').

Lemma replays_put s e t t' n : mem_ok s -> find_topic (ss_topics s) (t_name t) = Some t -> t_name t' = t_name t ->
  topic_ok t' -> n = topic_live t' - topic_live t ->
  replay s (ev_record e).1 (ev_record e).2 = (0, set_topic (add_live s n) t') ->
  replays s e (put_topic (ss_topics s) t').
Proof.
  intros M F En Hk Hl E. eexists. split; [exact E|]. split; [by eapply put_ok|]. split; [by constructor|]. done.
Qed.

Lemma replay_declare s name parts maxb age : mem_ok s -> ev_ok (EDeclare name parts maxb age) ->
  find_topic (ss_topics s) name = None ->
  replays s (EDeclare name parts maxb age) (new_topic name parts maxb age [] :: ss_topics s).
Proof.
  intros M (Hn & _ & Hp & Hm & Ha) F. cbn [ev_name] in Hn.
  destruct (add_topic_new s name parts maxb age M Hn Hp Hm Ha F) as (id & s' & E & M' & Fx & Et).
  exists s'. split; [|split; [done|split; [done|]]].
  - cbn [ev_record fst snd]. unfold replay, declare_body. cbn [Z.eqb S_DECLARE Pos.eqb].
    rewrite get16_named by (by apply short_fits). rewrite !zlen_app, named_len, put32_len, !put64_len.
    pose proof (zlen_nonneg name). destruct (Z.ltb_spec (2 + zlen name + (4 + (8 + 8))) 22); [lia|].
    replace (2 + zlen name + (4 + (8 + 8)) =? 22 + zlen name) with true by (symmetry; apply Z.eqb_eq; lia). cbn [negb].
    assert (Ep : part_of (named name ++ put32 parts ++ put64 maxb ++ put64 age) 2 (zlen name) = name).
    { unfold named. rewrite <- app_assoc. by apply part_at. }
    rewrite Ep. walk.
    assert (fits 32 parts) by (unfold fits, STREAM_PARTITIONS_MAX in *; lia).
    rewrite get32_at, get64_at by done. rewrite <- (app_nil_r (put64 age)), get64_at by done. done.
  - rewrite Et. intros n. rewrite !find_topic_cons. change (t_name (new_topic name parts maxb age [])) with name.
    change (t_name (new_topic name parts maxb age id)) with name. destruct (decide (name = n)); [|done].
    constructor. by constructor.
Qed.

Lemma replay_delete s name t : mem_ok s -> short_name name -> find_topic (ss_topics s) name = Some t ->
  replays s (EDelete name) (remove_topic (ss_topics s) name).
Proof.
  intros M Hn F. destruct (topic_of s name t M F) as [_ En]. exists (unlink_topic s t). split; [|split; [|split]].
  - cbn [ev_record fst snd]. unfold replay. cbn [Z.eqb S_DECLARE S_DELETE Pos.eqb].
    rewrite <- (app_nil_r (named name)). rewrite get16_named by (by apply short_fits). rewrite app_nil_r, named_len.
    pose proof Hn as [_ Hl]. unfold STREAM_NAME_MAX. destruct (Z.ltb_spec (2 + zlen name) 2); [lia|].
    destruct (Z.ltb_spec 255 (zlen name)); [lia|]. destruct (Z.ltb_spec (2 + zlen name) (2 + zlen name)); [lia|]. cbn [orb].
    rewrite Z.eqb_refl. cbn [negb].
    unfold named. rewrite <- (app_nil_r name) at 2. rewrite (part_at (put16 (zlen name))) by done. by rewrite F.
  - apply unlink_ok; [done|]. by rewrite En.
  - by constructor.
  - cbn. by rewrite En.
Qed.

(** Takes the branch of the operation. *)
Ltac pick_op :=
  unfold replay_topic;
  cbn [Z.eqb Pos.eqb S_RETENTION S_REVISION S_APPEND S_APPEND_KEY S_APPEND_BATCH S_APPEND_BATCH_KEY S_TRIM
       S_IDENTITY S_COMMIT orb].

(** Records about a topic. *)
Lemma add_live_id s t : set_topic s t = set_topic (add_live s 0) t.
Proof. by rewrite add_live_0. Qed.

(** Closes the test of the length of a record. *)
Ltac length_test :=
  match goal with
  | |- context [negb (?n =? ?m)] => replace (n =? m) with true by (symmetry; apply Z.eqb_eq; lens; lia); cbn [negb orb]
  end.

Lemma replay_retention s name maxb age t : mem_ok s -> ev_ok (ERetention name maxb age) ->
  find_topic (ss_topics s) name = Some t ->
  replays s (ERetention name maxb age) (put_topic (ss_topics s) (retention_topic t maxb age)).
Proof.
  intros M (Hn & _ & Hm & Ha) F. cbn [ev_name] in Hn. destruct (topic_of s name t M F) as [Hk En].
  apply (replays_put s _ t _ 0); [done|by rewrite En|done| | |].
  - destruct Hk. constructor; cbn; try done. lia.
  - rewrite (topic_live_as t); [|done..]. cbn. lia.
  - cbn [ev_record fst snd]. unfold retention_body. rewrite replay_start by done. rewrite F. pick_op.
    length_test. walk. rewrite get64_at by done. rewrite <- (app_nil_r (put64 age)), get64_at by done.
    rewrite add_live_id. done.
Qed.

Lemma replay_revision s name rev t : mem_ok s -> ev_ok (ERevision name rev) ->
  find_topic (ss_topics s) name = Some t ->
  replays s (ERevision name rev) (put_topic (ss_topics s) (revision_topic t rev)).
Proof.
  intros M (Hn & _ & Hr) F. cbn [ev_name] in Hn. destruct (topic_of s name t M F) as [Hk En].
  apply (replays_put s _ t _ 0); [done|by rewrite En|done| | |].
  - destruct Hk. constructor; cbn; try done. lia.
  - rewrite (topic_live_as t); [|done..]. cbn. lia.
  - cbn [ev_record fst snd]. unfold revision_body. rewrite replay_start by done. rewrite F. pick_op.
    length_test. walk. rewrite <- (app_nil_r (put64 rev)), get64_at by (unfold fits; lia).
    destruct (Z.eqb_spec rev 0); [lia|]. rewrite add_live_id. done.
Qed.

Lemma replay_identity s name id t : mem_ok s -> ev_ok (EIdentity name id) ->
  find_topic (ss_topics s) name = Some t ->
  replays s (EIdentity name id) (put_topic (ss_topics s) (identity_topic t id)).
Proof.
  intros M (Hn & _ & Hi & Hl) F. cbn [ev_name] in Hn. destruct (topic_of s name t M F) as [Hk En].
  apply (replays_put s _ t _ (if t_id_persisted t then 0 else identity_live t)); [done|by rewrite En|done| | |].
  - destruct Hk. by constructor.
  - by rewrite identity_topic_live.
  - cbn [ev_record fst snd]. unfold identity_body. rewrite replay_start by done. rewrite F. pick_op.
    unfold STREAM_ID_LEN in Hl. length_test. rewrite <- (app_nil_r id) at 1. unfold STREAM_ID_LEN. walk.
    destruct (t_id_persisted t); [by rewrite add_live_0|done].
Qed.

Lemma replay_trim s name p base t : mem_ok s -> ev_ok (ETrim name p base) ->
  find_topic (ss_topics s) name = Some t -> p < t_partitions t ->
  replays s (ETrim name p base) (put_topic (ss_topics s) (trim_topic t (Z.to_nat p) base)).
Proof.
  intros M (Hn & _ & Hp & Hb) F Hlt. cbn [ev_name] in Hn. destruct (topic_of s name t M F) as [Hk En].
  apply (replays_put s _ t _ (- zsum (record_live t) (gone_below t (Z.to_nat p) base))); [done|by rewrite En|done| | |].
  - apply trim_topic_ok; [done|apply Hb].
  - rewrite trim_topic_live. lia.
  - cbn [ev_record fst snd]. unfold trim_body. rewrite replay_start by done. rewrite F. pick_op.
    length_test. walk. rewrite get32_at by done. rewrite <- (app_nil_r (put64 base)), get64_at by done.
    destruct (Z.leb_spec (t_partitions t) p); [lia|]. done.
Qed.

Lemma replay_commit s name gname p off t : mem_ok s -> ev_ok (ECommit name gname p off) ->
  find_topic (ss_topics s) name = Some t -> p < t_partitions t ->
  replays s (ECommit name gname p off) (put_topic (ss_topics s) (commit_topic t gname p off)).
Proof.
  intros M (Hn & _ & Hg & Hp & Ho) F Hlt. cbn [ev_name] in Hn. destruct (topic_of s name t M F) as [Hk En].
  destruct (group_get_ok s t gname (mo_allocs _ M)) as (g & Eg & Fg).
  destruct (ensure_ok t gname Hk Hg) as [Hek _].
  apply (replays_put s _ t _ (topic_live (ensure_group t gname) - topic_live t)); [done|by rewrite En|apply commit_fields| | |].
  - unfold commit_topic. rewrite Fg. apply set_group_ok; [done|]. apply find_group_in in Fg as [_ Hin].
    pose proof (to_groups _ Hek) as Hgs. rewrite Forall_forall in Hgs. destruct (Hgs g Hin). constructor; cbn; try done.
    + by rewrite length_insert.
    + by apply Forall_insert.
  - unfold commit_topic. rewrite Fg, set_group_live. lia.
  - cbn [ev_record fst snd]. unfold commit_body. rewrite replay_start by done. rewrite F. pick_op.
    pose proof (zlen_nonneg gname). destruct (Z.ltb_spec (zlen (named name ++ named gname ++ put32 p ++ put64 off)) (16 + zlen name)) as [Hlt'|_].
    { revert Hlt'. lens. lia. }
    assert (Egl : get16 (from (named name ++ named gname ++ put32 p ++ put64 off) (2 + zlen name)) = zlen gname).
    { walk. apply get16_named. by apply short_fits. }
    rewrite Egl. length_test.
    assert (Egn : part_of (named name ++ named gname ++ put32 p ++ put64 off) (4 + zlen name) (zlen gname) = gname).
    { unfold named at 2. rewrite <- app_assoc. walk. done. }
    rewrite Egn. walk. rewrite get32_at by done. rewrite <- (app_nil_r (put64 off)), get64_at by done.
    destruct (Z.leb_spec (t_partitions t) p); [lia|]. rewrite Eg. unfold commit_topic. by rewrite Fg.
Qed.

Lemma append_len name p r : zlen (append_body name p (r_offset r) (r_at_ms r) (r_key r) (r_body r))
  = stored_size (zlen name) (r_key r) (r_body r).
Proof.
  unfold append_body, stored_size. lens. destruct (Z.eqb_spec (zlen (r_key r)) 0); lens; lia.
Qed.

Lemma replay_append s name p r t x : mem_ok s -> ev_ok (EAppend name p r) ->
  find_topic (ss_topics s) name = Some t -> t_parts t !! Z.to_nat p = Some x -> r_offset r = p_next x ->
  replays s (EAppend name p r) (put_topic (ss_topics s) (link_topic t (Z.to_nat p) r)).
Proof.
  intros M (Hn & Hz & Hp & Ho & Ha & Hb & Hbl & Hkb & Hkl & _) F Hx Hoff. cbn [ev_name ev_record fst snd] in *.
  destruct (topic_of s name t M F) as [Hk En]. rewrite append_len in Hz.
  assert (Hr : rec_ok (zlen (t_name t)) r) by (constructor; [done|done|done|by rewrite En]).
  destruct (append_memory_ok s t p x r (mo_allocs _ M) Hk Hx Hoff Hr) as [Ea Hl].
  apply (replays_put s _ t _ (topic_live (link_topic t (Z.to_nat p) r) - topic_live t)); [done|by rewrite En|done|done|lia|].
  cbn [ev_record fst snd]. unfold append_body, append_op.
  pose proof (zlen_nonneg (r_body r)). pose proof (zlen_nonneg (r_key r)). unfold RECORD_MAX in Hz.
  change (Z.shiftl 64 20) with 67108864 in Hz. unfold stored_size in Hz. revert Hz.
  pose proof (zlen_nonneg name). destruct (Z.eqb_spec (zlen (r_key r)) 0) as [Ek|Ek]; intros Hz.
  - rewrite replay_start by done. rewrite F. pick_op.
    destruct (Z.ltb_spec (zlen (named name ++ put32 p ++ put64 (r_offset r) ++ put64 (r_at_ms r) ++ put32 (zlen (r_body r)) ++ r_body r))
      (26 + zlen name)) as [Hlt|_]; [revert Hlt; lens; lia|].
    assert (Ed : get32 (from (named name ++ put32 p ++ put64 (r_offset r) ++ put64 (r_at_ms r) ++ put32 (zlen (r_body r)) ++ r_body r)
      (22 + zlen name)) = zlen (r_body r)) by (walk; by apply get32_at).
    rewrite Ed. rewrite u32_small by (unfold fits; lia). length_test.
    walk. rewrite get32_at, !get64_at by done.
    assert (r_key r = []) as Ek' by (apply nil_length_inv; unfold zlen in Ek; lia).
    rewrite Ek' in Ea. by rewrite Ea.
  - rewrite replay_start by done. rewrite F. pick_op.
    set (b := named name ++ _).
    assert (Hlen : zlen b = 28 + zlen name + zlen (r_body r) + zlen (r_key r)) by (unfold b; lens; lia).
    rewrite Hlen. destruct (Z.ltb_spec (28 + zlen name + zlen (r_body r) + zlen (r_key r)) (28 + zlen name)); [lia|].
    assert (Ed : get32 (from b (24 + zlen name)) = zlen (r_body r)) by (unfold b; walk; by apply get32_at).
    assert (Eq : get16 (from b (22 + zlen name)) = zlen (r_key r)) by (unfold b; walk; by apply get16_at).
    rewrite Ed, Eq. length_test. unfold b. walk.
    rewrite get32_at, !get64_at by done. by rewrite Ea.
Qed.

(** ** Batches *)

Definition item_size (keyed : bool) (r : srec) : Z := (if keyed then 26 else 24) + zlen (r_body r) + zlen (r_key r).

Lemma item_len keyed p r : item_ok keyed (p, r) -> zlen (batch_item keyed p r) = item_size keyed r.
Proof.
  intros (_ & _ & _ & _ & _ & _ & _ & Hk). cbn [snd] in Hk. unfold batch_item, item_size. destruct keyed; lens; [lia|].
  rewrite Hk by done. change (zlen []) with 0. lia.
Qed.

(** One item is read behind the bytes [a]. *)
Lemma replay_item n s t keyed a p r rest : item_ok keyed (p, r) ->
  zlen (a ++ batch_item keyed p r ++ rest) <= RECORD_MAX ->
  replay_items (S n) s t keyed (a ++ batch_item keyed p r ++ rest) (zlen a) =
  let '(rc, s, t) := append_memory s t p (r_offset r) (r_at_ms r) (r_key r) (r_body r) in
  if negb (rc =? 0) then (-1, zlen a, s, t)
  else replay_items n s t keyed (a ++ batch_item keyed p r ++ rest) (zlen a + item_size keyed r).
Proof.
  intros Hi Hz. pose proof (item_len _ _ _ Hi) as Hlen. destruct Hi as (Hp & Ho & Ha & Hb & Hbl & Hkb & Hkl & Hk).
  cbn [fst snd] in *. pose proof (zlen_nonneg a). pose proof (zlen_nonneg rest). pose proof (zlen_nonneg (r_key r)).
  pose proof (zlen_nonneg (r_body r)). cbn [replay_items]. set (b := a ++ batch_item keyed p r ++ rest).
  assert (Eb : zlen b = zlen a + item_size keyed r + zlen rest) by (unfold b; rewrite !zlen_app, Hlen; lia).
  fold b in Hz. unfold RECORD_MAX in Hz. change (Z.shiftl 64 20) with 67108864 in Hz. rewrite Eb in Hz |- *.
  unfold item_size in *. unfold b, batch_item in *. destruct keyed.
  - rewrite <- !app_assoc. destruct (Z.ltb_spec (zlen a + (26 + zlen (r_body r) + zlen (r_key r)) + zlen rest) (zlen a + 26)); [lia|].
    walk. rewrite !get16_at, !get32_at, !get64_at by done. walk.
    rewrite u64_small by (unfold fits; lia). destruct (Z.ltb_spec (zlen a + (26 + zlen (r_body r) + zlen (r_key r)) + zlen rest - zlen a - 26 - zlen (r_key r)) (zlen (r_body r))); [lia|].
    destruct (append_memory s t p _ _ _ _) as [[rc s'] t']. destruct (negb _); [done|]. f_equal. lia.
  - rewrite Hk in * by done. rewrite <- !app_assoc.
    destruct (Z.ltb_spec (zlen a + (24 + zlen (r_body r) + zlen (@nil Z)) + zlen rest) (zlen a + 24)); [lia|].
    walk. rewrite !get32_at, !get64_at by done. walk. change (zlen []) with 0 in *.
    rewrite u64_small by (unfold fits; lia).
    destruct (Z.ltb_spec (zlen a + (24 + zlen (r_body r) + 0) + zlen rest - zlen a - 24 - 0) (zlen (r_body r))); [lia|].
    unfold part_of at 1. cbn [Z.to_nat take].
    destruct (append_memory s t p _ _ _ _) as [[rc s'] t']. destruct (negb _); [done|]. f_equal. lia.
Qed.

Lemma link_event_some p r t u : link_event p r t = Some u ->
  exists x, t_parts t !! Z.to_nat p = Some x /\ r_offset r = p_next x /\ u = link_topic t (Z.to_nat p) r.
Proof.
  unfold link_event. destruct (t_parts t !! Z.to_nat p) as [x|]; [|done].
  destruct (Z.eqb_spec (r_offset r) (p_next x)); [|done]. intros [= <-]. eauto.
Qed.

Lemma replay_items_ok keyed items : forall s t a u, ss_allocs s = [] -> topic_ok t -> Forall (item_ok keyed) items ->
  Forall (fun i => rec_ok (zlen (t_name t)) i.2) items -> link_events items t = Some u ->
  zlen (a ++ concat ((fun i => batch_item keyed i.1 i.2) <$> items)) <= RECORD_MAX ->
  replay_items (length items) s t keyed (a ++ concat ((fun i => batch_item keyed i.1 i.2) <$> items)) (zlen a) =
    (0, zlen (a ++ concat ((fun i => batch_item keyed i.1 i.2) <$> items)), add_live s (topic_live u - topic_live t), u) /\
  topic_ok u.
Proof.
  induction items as [|[p r] items IH]; intros s t a u A Hk Hi Hr E Hz.
  - injection E as <-. cbn. rewrite app_nil_r, Z.sub_diag, add_live_0. done.
  - apply Forall_cons in Hi as [Hi His], Hr as [Hr Hrs]. cbn [link_events] in E.
    destruct (link_event p r t) as [t1|] eqn:E1; [|done]. apply link_event_some in E1 as (x & Hx & Ho & ->).
    destruct (append_memory_ok s t p x r A Hk Hx Ho Hr) as [Ea Hk1].
    cbn [fmap list_fmap concat fst snd length] in *. rewrite replay_item by done. rewrite Ea. cbn [Z.eqb negb].
    replace (zlen a + item_size keyed r) with (zlen (a ++ batch_item keyed p r))
      by (by rewrite zlen_app, (item_len _ _ _ Hi)).
    rewrite app_assoc in Hz |- *.
    destruct (IH (add_live s (topic_live (link_topic t (Z.to_nat p) r) - topic_live t)) _ (a ++ batch_item keyed p r) u A Hk1 His Hrs E Hz) as [-> Hu].
    rewrite add_live_add. split; [|done]. do 3 f_equal. lia.
Qed.

Lemma concat_len (f : Z * srec -> bytes) items i : i ∈ items -> zlen (f i) <= zlen (concat (f <$> items)).
Proof.
  induction items as [|j items IH]; [by intros H%not_elem_of_nil|]. cbn. rewrite zlen_app.
  pose proof (zlen_nonneg (f j)). pose proof (zlen_nonneg (concat (f <$> items))).
  intros [->|Hin]%elem_of_cons; [lia|]. specialize (IH Hin). lia.
Qed.

(** The records of a batch that fits fit themselves. *)
Lemma batch_recs name keyed items : Forall (item_ok keyed) items -> zlen (batch_body name keyed items) <= RECORD_MAX ->
  Forall (fun i => rec_ok (zlen name) i.2) items.
Proof.
  intros Hi Hz. rewrite Forall_forall in *. intros [p r] Hin. specialize (Hi _ Hin). pose proof (item_len _ _ _ Hi) as Hl.
  pose proof (concat_len (fun i => batch_item keyed i.1 i.2) items (p, r) Hin) as Hc. cbn [fst snd] in Hc.
  revert Hz. unfold batch_body. lens. intros Hz. destruct Hi as (_ & _ & Ha & Hb & _ & Hkb & Hkl & Hk).
  constructor; [done|done|done|]. cbn [snd] in *. unfold stored_size, item_size, RECORD_MAX in *.
  destruct keyed; [destruct (zlen (r_key r) =? 0); lia|]. rewrite Hk in * by done. change (zlen (@nil Z)) with 0 in *.
  cbn [Z.eqb]. lia.
Qed.

Lemma link_events_name items : forall t u, link_events items t = Some u -> t_name u = t_name t.
Proof. intros t u H. by apply (ch_name eq _ (links_change eq items)). Qed.

Lemma replay_batch s name keyed items t u : mem_ok s -> ev_ok (EBatch name keyed items) ->
  find_topic (ss_topics s) name = Some t -> link_events items t = Some u ->
  replays s (EBatch name keyed items) (put_topic (ss_topics s) u).
Proof.
  intros M (Hn & Hz & Hc & Hi) F E. cbn [ev_name ev_record fst snd] in *. destruct (topic_of s name t M F) as [Hk En].
  pose proof (batch_recs name keyed items Hi Hz) as Hr. rewrite <- En in Hr.
  destruct (replay_items_ok keyed items s t (named name ++ put32 (zlen items)) u (mo_allocs _ M) Hk Hi Hr E) as [Er Hu];
    [by rewrite <- app_assoc|].
  apply (replays_put s _ t _ (topic_live u - topic_live t)); [done|by rewrite En|by eapply link_events_name|done|done|].
  cbn [ev_record fst snd]. unfold batch_body. rewrite replay_start by (try done; by destruct keyed). rewrite F.
  revert Er. rewrite <- app_assoc. set (b := named name ++ _). intros Er. unfold replay_topic.
  replace (batch_op keyed =? S_RETENTION) with false by (by destruct keyed).
  replace (batch_op keyed =? S_REVISION) with false by (by destruct keyed).
  replace (batch_op keyed =? S_APPEND) with false by (by destruct keyed).
  replace (batch_op keyed =? S_APPEND_KEY) with false by (by destruct keyed).
  replace ((batch_op keyed =? S_APPEND_BATCH) || (batch_op keyed =? S_APPEND_BATCH_KEY)) with true by (by destruct keyed).
  replace (batch_op keyed =? S_APPEND_BATCH_KEY) with keyed by (by destruct keyed).
  destruct (Z.ltb_spec (zlen b) (6 + zlen name)) as [Hlt|_].
  { revert Hlt. unfold b. lens. pose proof (zlen_nonneg (concat ((fun i => batch_item keyed i.1 i.2) <$> items))). lia. }
  assert (Ec : get32 (from b (2 + zlen name)) = zlen items).
  { unfold b. walk. apply get32_at. unfold fits, STREAM_FETCH_MAX in *. lia. }
  rewrite Ec. destruct (Z.eqb_spec (zlen items) 0); [lia|]. destruct (Z.ltb_spec STREAM_FETCH_MAX (zlen items)); [lia|].
  cbn [orb]. unfold zlen at 1. rewrite Nat2Z.id.
  replace (6 + zlen name) with (zlen (named name ++ put32 (zlen items))) by (lens; lia).
  rewrite Er. cbn [Z.eqb negb]. by rewrite Z.eqb_refl.
Qed.

(** ** Replay of events *)

Lemma on_topic_some l name f m : on_topic l name f = Some m ->
  exists t u, find_topic l name = Some t /\ f t = Some u /\ m = put_topic l u.
Proof.
  unfold on_topic. destruct (find_topic l name) as [t|]; [|done]. destruct (f t) as [u|] eqn:Ef; [|done].
  intros [= <-]. by exists t, u.
Qed.

Lemma replay_event s e m : mem_ok s -> ev_ok e -> effect e (ss_topics s) = Some m -> replays s e m.
Proof.
  intros M He. destruct e; cbn [effect].
  - destruct (find_topic _ _) eqn:F; [done|]. intros [= <-]. by apply replay_declare.
  - intros (t & u & F & [= <-] & ->)%on_topic_some. by apply replay_identity.
  - intros (t & u & F & E & ->)%on_topic_some. apply link_event_some in E as (x & Hx & Ho & ->).
    by eapply replay_append.
  - intros (t & u & F & E & ->)%on_topic_some. by eapply replay_batch.
  - intros (t & u & F & E & ->)%on_topic_some. unfold trim_event in E.
    destruct (Z.leb_spec (t_partitions t) p); [done|]. injection E as <-. by apply replay_trim.
  - intros (t & u & F & E & ->)%on_topic_some. unfold commit_event in E.
    destruct (Z.leb_spec (t_partitions t) p); [done|]. injection E as <-. by apply replay_commit.
  - intros (t & u & F & [= <-] & ->)%on_topic_some. by apply replay_retention.
  - intros (t & u & F & [= <-] & ->)%on_topic_some. by apply replay_revision.
  - destruct (find_topic _ _) as [t|] eqn:F; [|done]. intros [= <-]. eapply replay_delete; [done|apply He|done].
Qed.

End StreamCodec.
