(* ===== verification/StreamCompact.v ===== *)
(** * Opening the log of the stream engine (stream.c: stream_store_open)

    The loop over the file takes every intact record and stops at a record
    that was cut short.

    Then, in [StreamCompact]: compaction of the stream log (stream.c: stream_compact_locked. *)

From stdpp Require Import base numbers option list.
From S2P Require Import Prelude Crc Stream StreamLog StreamSpec StreamRetain StreamEvents StreamMem.
From S2P Require Import StreamCodec.
Import Crc Stream StreamLog StreamSpec StreamRetain StreamEvents StreamSame StreamMem StreamCodec.

Module StreamReopen.

(** ** Frames *)

Lemma named_bytes name : bytes_ok name -> bytes_ok (named name).
Proof. intros H. apply Forall_app_2; [apply put16_bytes|done]. Qed.

Lemma item_bytes keyed p r : item_ok keyed (p, r) -> bytes_ok (batch_item keyed p r).
Proof.
  intros (_ & _ & _ & Hb & _ & Hk & _). cbn [snd] in *. unfold batch_item.
  destruct keyed; repeat apply Forall_app_2; try done; (apply put16_bytes || apply put32_bytes || apply put64_bytes).
Qed.

Lemma record_bytes_ok e : ev_ok e -> is_byte (ev_record e).1 /\ bytes_ok (ev_record e).2.
Proof.
  intros ([Hn _] & _ & H). pose proof (named_bytes _ Hn) as Hh. split.
  - destruct e; cbn; try (unfold is_byte; vm_compute; split; (discriminate || reflexivity)).
    + unfold append_op. destruct (_ =? 0); vm_compute; split; (discriminate || reflexivity).
    + destruct keyed; vm_compute; split; (discriminate || reflexivity).
  - destruct e; cbn [ev_record snd ev_name] in *;
      unfold declare_body, identity_body, append_body, batch_body, trim_body, commit_body, retention_body, revision_body;
      repeat apply Forall_app_2; try done; try (apply put16_bytes || apply put32_bytes || apply put64_bytes).
    + apply H.
    + destruct H as (_ & _ & _ & Hb & _ & Hk & _). cbn [snd] in *. destruct (_ =? 0); repeat apply Forall_app_2; try done;
        (apply put16_bytes || apply put32_bytes).
    + destruct H as [_ H]. induction H as [|[p r] items Hi His IH]; [constructor|]. cbn. apply Forall_app_2; [|done].
      by apply item_bytes.
    + apply (proj1 (proj1 H)).
Qed.

Lemma stream_crc32_fits p : bytes_ok p -> fits 32 (stream_crc32 p).
Proof.
  intros H. unfold stream_crc32. apply fits_lxor; [lia| |apply ones32_fits]. by apply crc_span_fits; [apply ones32_fits|].
Qed.

Lemma frame_crc_fits op b : is_byte op -> bytes_ok b -> fits 32 (frame_crc op b).
Proof. intros Ho Hb. apply fits_lxor; [lia|apply stream_crc32_fits; by constructor|by apply stream_crc32_fits]. Qed.

Lemma frame_len op b : zlen (frame op b) = 9 + zlen b.
Proof. unfold frame, frame_header. rewrite zlen_app, zlen_cons, zlen_app. by rewrite !put32_len. Qed.

Lemma max_fits n : 0 <= n <= RECORD_MAX -> fits 32 n.
Proof. unfold RECORD_MAX, fits. change (Z.shiftl 64 20) with 67108864. lia. Qed.

(** The fields of the header. *)
Lemma frame_fields op b rest : is_byte op -> bytes_ok b -> zlen b <= RECORD_MAX ->
  byte_at (frame_header op b ++ rest) 0 = op /\ get32 (from (frame_header op b ++ rest) 1) = zlen b /\
  get32 (from (frame_header op b ++ rest) 5) = frame_crc op b /\ from (frame_header op b ++ rest) 9 = rest.
Proof.
  intros Ho Hb Hz. pose proof (zlen_nonneg b). unfold frame_header.
  change ((op :: put32 (zlen b) ++ put32 (frame_crc op b)) ++ rest)
    with ([op] ++ (put32 (zlen b) ++ put32 (frame_crc op b)) ++ rest). rewrite <- app_assoc.
  change (zlen [op]) with 1. split; [done|]. change (byte_at _ _) with op.
  assert (El : zlen [op] = 1) by done. split; [|split].
  - rewrite from_skip by lia. rewrite from_start by lia. apply get32_at, max_fits. lia.
  - rewrite from_skip by lia. walk. apply get32_at. by apply frame_crc_fits.
  - rewrite from_skip by lia. walk. done.
Qed.

Lemma open_frame fuel s op b rest good : ss_allocs s = [] -> is_byte op -> bytes_ok b -> zlen b <= RECORD_MAX ->
  open_loop (S fuel) s (frame op b ++ rest) good =
  let '(rc, s) := replay s op b in
  if negb (rc =? 0) then (s, good) else open_loop fuel s rest (good + (9 + zlen b)).
Proof.
  intros A Ho Hb Hz. pose proof (zlen_nonneg b). pose proof (zlen_nonneg rest). cbn [open_loop].
  rewrite zlen_app, frame_len. destruct (Z.ltb_spec (9 + zlen b + zlen rest) 9); [lia|].
  unfold frame. rewrite <- app_assoc. destruct (frame_fields op b (b ++ rest) Ho Hb Hz) as (E1 & E2 & E3 & E4).
  rewrite E1, E2, E3. destruct (Z.ltb_spec RECORD_MAX (zlen b)); [lia|]. rewrite salloc_nil by done. cbn [negb].
  assert (Eb : part_of (frame_header op b ++ b ++ rest) 9 (zlen b) = b).
  { unfold part_of. rewrite E4. unfold zlen. by rewrite Nat2Z.id, take_app_length. }
  assert (Er : from (frame_header op b ++ b ++ rest) (9 + zlen b) = rest).
  { rewrite app_assoc. change (frame_header op b ++ b) with (frame op b). apply from_at. by rewrite frame_len. }
  rewrite Eb, Er, !Z.eqb_refl. done.
Qed.

(** ** Records cut short *)

Definition torn (tail : bytes) : Prop := exists e n, ev_ok e /\ (n < length (ev_frame e))%nat /\ tail = take n (ev_frame e).

Lemma torn_nil : torn [].
Proof.
  exists (EDelete [97]), O. split; [|split; [vm_compute; lia|done]].
  split; [split; [by bytes_tac|done]|]. split; [|done]. vm_compute. discriminate.
Qed.

Lemma frame_of e : ev_frame e = frame (ev_record e).1 (ev_record e).2.
Proof. unfold ev_frame. by destruct (ev_record e). Qed.

Lemma open_torn fuel s tail good : ss_allocs s = [] -> torn tail -> open_loop (S fuel) s tail good = (s, good).
Proof.
  intros A (e & n & He & Hn & ->). destruct (record_bytes_ok e He) as [Ho Hb]. destruct He as (_ & Hz & _).
  rewrite frame_of in *. set (op := (ev_record e).1) in *. set (b := (ev_record e).2) in *.
  cbn [open_loop]. destruct (Z.ltb_spec (zlen (take n (frame op b))) 9) as [|H9]; [done|].
  assert (Hl : zlen (take n (frame op b)) = Z.of_nat n) by (unfold zlen; rewrite length_take; lia).
  assert (Et : take n (frame op b) = frame_header op b ++ take (n - 9) b).
  { unfold frame. rewrite take_app, take_ge by (change (length (frame_header op b)) with 9%nat; lia). done. }
  assert (Hn' : (n - 9 < length b)%nat).
  { pose proof (frame_len op b) as Hf. unfold zlen in Hf, H9, Hl. lia. }
  rewrite Et in *. destruct (frame_fields op b (take (n - 9) b) Ho Hb Hz) as (E1 & E2 & E3 & E4).
  rewrite E1, E2, E3. destruct (Z.ltb_spec RECORD_MAX (zlen b)); [lia|]. rewrite salloc_nil by done. cbn [negb].
  assert (Eb : zlen (part_of (frame_header op b ++ take (n - 9) b) 9 (zlen b)) < zlen b).
  { unfold part_of. rewrite E4. unfold zlen. rewrite !length_take. lia. }
  destruct (Z.eqb_spec (zlen (part_of (frame_header op b ++ take (n - 9) b) 9 (zlen b))) (zlen b)); [lia|]. done.
Qed.

(** ** The whole file *)

Lemma frames_cons e es : frames (e :: es) = ev_frame e ++ frames es.
Proof. done. Qed.

Lemma open_frames es : forall fuel s l m tail good, mem_ok s -> regular l -> same eq l (ss_topics s) ->
  effects es l = Some m -> Forall ev_ok es -> torn tail -> (length es < fuel)%nat ->
  exists s', open_loop fuel s (frames es ++ tail) good = (s', good + zlen (frames es)) /\
    mem_ok s' /\ fixed s s' /\ same eq m (ss_topics s').
Proof.
  induction es as [|e es IH]; intros fuel s l m tail good M R S E Ho T Hf.
  - injection E as <-. destruct fuel as [|fuel]; [by apply Nat.nlt_0_r in Hf|]. exists s.
    rewrite open_torn by (done || apply M). split; [|done]. f_equal. change (zlen (frames [])) with 0. lia.
  - apply Forall_cons in Ho as [He Ho]. cbn [effects] in E. destruct (effect e l) as [l1|] eqn:E1; [|done].
    pose proof (effect_same eq e l (ss_topics s) (ev_ok_nat e He) R (topics_ok_regular _ (mo_topics _ M)) S) as Hs.
    rewrite E1 in Hs. destruct (effect e (ss_topics s)) as [l2|] eqn:E2; inversion Hs as [? ? Hs'|]; subst.
    destruct (replay_event s e l2 M He E2) as (s1 & Er & M1 & Fx & Sm).
    destruct fuel as [|fuel]; [by apply Nat.nlt_0_r in Hf|]. rewrite frames_cons, frame_of, <- app_assoc.
    destruct (record_bytes_ok e He) as [Hop Hb]. pose proof He as (_ & Hz & _).
    rewrite open_frame by (done || apply M). rewrite Er. cbn [Z.eqb negb].
    destruct (IH fuel s1 l1 m tail (good + (9 + zlen (ev_record e).2)) M1) as (s' & -> & M' & Fx' & Sm');
      [exact (effect_regular e l l1 (ev_ok_nat e He) R E1)|by etransitivity|done|done|done|cbn in Hf; lia|].
    exists s'. split; [|split; [done|split; [by etransitivity|done]]]. f_equal. rewrite zlen_app, frame_len. lia.
Qed.

Lemma frames_length es : (length es <= length (frames es))%nat.
Proof.
  induction es as [|e es IH]; [done|]. rewrite frames_cons, length_app, frame_of. cbn [length].
  pose proof (frame_len (ev_record e).1 (ev_record e).2) as Hl. pose proof (zlen_nonneg (ev_record e).2).
  unfold zlen in *. lia.
Qed.

(** A prefix of the file is a prefix of the records and one cut short. *)
Lemma frames_prefix es : Forall ev_ok es -> forall k, (k <= length (frames es))%nat ->
  exists n tail, take k (frames es) = frames (take n es) ++ tail /\ torn tail.
Proof.
  induction 1 as [|e es He Hes IH]; intros k Hk.
  - exists O, []. split; [by destruct k|apply torn_nil].
  - rewrite frames_cons in *. destruct (decide (k < length (ev_frame e))%nat) as [Hlt|Hge].
    + exists O, (take k (ev_frame e)). split; [|by exists e, k]. rewrite take_app_le by lia. done.
    + rewrite length_app in Hk. destruct (IH (k - length (ev_frame e))%nat) as (n & tail & E & T); [lia|].
      exists (S n), tail. split; [|done]. rewrite take_app_ge by lia. rewrite E. cbn [take]. by rewrite frames_cons, <- app_assoc.
Qed.

End StreamReopen.

(** * Compaction of the stream log (stream.c: stream_compact_locked)

    The records a compaction writes rebuild the durable part of the topics. *)

Import Stream StreamLog StreamSpec StreamRetain StreamEvents StreamSame StreamMem StreamCodec StreamReopen.

Module StreamCompact.

(** ** The records as events *)

Definition part_events (name : bytes) (i : nat) (x : part) : list event :=
  (if p_base x =? 0 then [] else [ETrim name (Z.of_nat i) (p_base x)]) ++ (EAppend name (Z.of_nat i) <$> p_recs x).

Definition group_events (name : bytes) (g : group) : list event :=
  imap (fun i off => ECommit name (g_name g) (Z.of_nat i) off) (g_offsets g).

Definition topic_events (t : topic) : list event :=
  [EDeclare (t_name t) (t_partitions t) (t_max_bytes t) (t_max_age_ms t); EIdentity (t_name t) (t_id t)] ++
  concat (imap (part_events (t_name t)) (t_parts t)) ++ concat (group_events (t_name t) <$> t_groups t) ++
  [ERevision (t_name t) (t_revision t)].

Definition compact_events (l : list topic) : list event := concat (topic_events <$> l).

Lemma fmap_concat {A B} (f : A -> B) (ll : list (list A)) : f <$> concat ll = concat (fmap (M:=list) f <$> ll).
Proof. induction ll as [|l ll IH]; [done|]. cbn. rewrite fmap_app. by f_equal. Qed.

Lemma fmap_imap_ext {A B C} (f : B -> C) (g : nat -> A -> B) (h : nat -> A -> C) l :
  (forall i x, f (g i x) = h i x) -> f <$> imap g l = imap h l.
Proof. intros H. rewrite fmap_imap. apply imap_ext. intros i x _. apply H. Qed.

Lemma compact_records_events l : compact_records l = ev_record <$> compact_events l.
Proof.
  unfold compact_records, compact_events. rewrite fmap_concat, <- list_fmap_compose. f_equal. apply list_fmap_ext.
  intros _ t _. unfold compact_topic, topic_events, compose. rewrite !fmap_app, !fmap_concat. cbn [fmap list_fmap ev_record].
  do 2 apply (f_equal (cons _)). apply f_equal2; [|apply f_equal2; [|done]].
  - f_equal. symmetry. apply fmap_imap_ext. intros i x. unfold part_events, compact_part. rewrite fmap_app.
    f_equal; [by destruct (p_base x =? 0)|]. by rewrite <- list_fmap_compose.
  - f_equal. rewrite <- list_fmap_compose. apply list_fmap_ext. intros _ g _. unfold compose, group_events, compact_group.
    symmetry. by apply fmap_imap_ext.
Qed.

(** ** Events on the topic at the head of the list *)

Definition steps (es : list event) (u u' : topic) : Prop :=
  t_name u' = t_name u /\ forall l, effects es (u :: l) = Some (u' :: l).

Lemma steps_nil u : steps [] u u.
Proof. done. Qed.

Lemma steps_app es es' u v w : steps es u v -> steps es' v w -> steps (es ++ es') u w.
Proof.
  intros [N1 H1] [N2 H2]. split; [congruence|]. intros l. by rewrite effects_app, H1.
Qed.

Lemma steps_one e name f u v : ev_change e = Some (name, f) -> ev_nat e -> t_name u = name -> f u = Some v ->
  steps [e] u v.
Proof.
  intros Ec Hn En Ef. destruct (ev_change_spec eq e name f Ec Hn) as [C He]. pose proof (ch_name _ _ C u v Ef) as Hv.
  split; [done|]. intros l. cbn [effects]. rewrite He. unfold on_topic.
  rewrite find_topic_cons, decide_True by done. rewrite Ef. cbn [fmap option_fmap option_map].
  rewrite put_topic_cons, decide_True by done. done.
Qed.

(** Everything but the partitions, sizes and revision. *)
Record others (u u' : topic) : Prop := Others {
  oth_name : t_name u' = t_name u;
  oth_limits : t_max_bytes u' = t_max_bytes u /\ t_max_age_ms u' = t_max_age_ms u;
  oth_id : t_id u' = t_id u /\ t_id_persisted u' = t_id_persisted u;
  oth_groups : t_groups u' = t_groups u }.

#[local] Instance others_preorder : PreOrder others.
Proof.
  split; [by intros u|]. intros a b c [? [? ?] [? ?] ?] [? [? ?] [? ?] ?]. constructor; try congruence; split; congruence.
Qed.

(** ** One partition *)

Lemma appends_steps name i rs : forall u y, t_name u = name -> t_parts u !! i = Some y -> offsets_from (p_next y) rs ->
  exists u', steps (EAppend name (Z.of_nat i) <$> rs) u u' /\ others u u' /\
    t_parts u' = <[i := Part (p_recs y ++ rs) (p_base y) (p_next y + zlen rs) (p_bytes y + zsum record_bytes rs)]> (t_parts u).
Proof.
  induction rs as [|r rs IH]; intros u y En Hy Ho.
  - exists u. split; [apply steps_nil|]. split; [done|]. cbn [zsum]. rewrite app_nil_r, zlen_nil, !Z.add_0_r.
    symmetry. apply list_insert_id. by destruct y.
  - destruct Ho as [Hr Ho].
    assert (Hl : t_parts (link_topic u i r) !! i = Some (link_part r y)).
    { cbn. by rewrite list_lookup_alter, decide_True, Hy. }
    destruct (IH (link_topic u i r) (link_part r y) En Hl Ho) as (u' & S' & O' & P'). exists u'. split; [|split].
    + cbn [fmap list_fmap]. apply (steps_app [_] _ u (link_topic u i r)); [|exact S'].
      apply (steps_one _ name (link_event (Z.of_nat i) r)); [done|done|done|]. unfold link_event.
      rewrite Nat2Z.id, Hy, Hr, Z.eqb_refl. done.
    + etransitivity; [|done]. by constructor.
    + rewrite P'. cbn [link_topic t_parts link_part p_recs p_base p_next p_bytes zsum]. rewrite zlen_cons, <- app_assoc.
      apply list_eq. intros j. destruct (decide (i = j)) as [<-|Hne].
      * assert (i < length (t_parts u))%nat by (by eapply lookup_lt_Some).
        rewrite !list_lookup_insert_eq by (rewrite ?length_alter; done). do 2 f_equal; lia.
      * rewrite !list_lookup_insert_ne by done. by rewrite list_lookup_alter, decide_False.
Qed.

Lemma part_steps name i u x l : t_name u = name -> t_parts u !! i = Some (Part [] 0 0 0) -> part_ok l x ->
  exists u', steps (part_events name i x) u u' /\ others u u' /\ t_parts u' = <[i := x]> (t_parts u).
Proof.
  intros En Hi [Hb Ho Hn Hy Hr]. assert (Hlt : (i < length (t_parts u))%nat) by (by eapply lookup_lt_Some).
  assert (Ht : exists v, steps (if p_base x =? 0 then [] else [ETrim name (Z.of_nat i) (p_base x)]) u v /\ others u v /\
    t_parts v = <[i := Part [] (p_base x) (p_base x) 0]> (t_parts u)).
  { destruct (Z.eqb_spec (p_base x) 0) as [->|Hne].
    - exists u. split; [apply steps_nil|]. split; [done|]. symmetry. by apply list_insert_id.
    - exists (trim_topic u i (p_base x)). split; [|split; [by constructor|]].
      + apply (steps_one _ name (trim_event (Z.of_nat i) (p_base x))); [done|done|done|]. unfold trim_event, t_partitions, zlen.
        destruct (Z.leb_spec (Z.of_nat (length (t_parts u))) (Z.of_nat i)); [lia|]. by rewrite Nat2Z.id.
      + cbn. apply list_eq. intros j. rewrite list_lookup_alter. destruct (decide (i = j)) as [<-|Hij].
        * rewrite Hi, list_lookup_insert_eq by done. cbn. unfold trim_to. cbn. by destruct (Z.ltb_spec 0 (p_base x)); [|lia].
        * by rewrite list_lookup_insert_ne. }
  destruct Ht as (v & Sv & Ov & Pv).
  assert (Hv : t_parts v !! i = Some (Part [] (p_base x) (p_base x) 0)) by (by rewrite Pv, list_lookup_insert_eq).
  destruct (appends_steps name i (p_recs x) v _ ltac:(by rewrite (oth_name _ _ Ov)) Hv Ho) as (w & Sw & Ow & Pw).
  exists w. split; [by eapply steps_app|]. split; [by etransitivity|]. rewrite Pw, Pv, list_insert_insert_eq. f_equal.
  destruct x; cbn in *. subst. done.
Qed.

(** ** All partitions *)

Lemma parts_steps name l xs : forall u ys, t_name u = name -> Forall (part_ok l) xs ->
  t_parts u = ys ++ replicate (length xs) (Part [] 0 0 0) ->
  exists u', steps (concat (imap (fun i x => part_events name (length ys + i) x) xs)) u u' /\ others u u' /\
    t_parts u' = ys ++ xs.
Proof.
  induction xs as [|x xs IH]; intros u ys En Hx Hp.
  - exists u. split; [apply steps_nil|]. done.
  - apply Forall_cons in Hx as [Hx Hxs]. cbn [length replicate] in Hp.
    destruct (part_steps name (length ys) u x l En) as (v & Sv & Ov & Pv); [by rewrite Hp, lookup_app_r, Nat.sub_diag by lia|done|].
    destruct (IH v (ys ++ [x])) as (w & Sw & Ow & Pw); [by rewrite (oth_name _ _ Ov)|done| |].
    { rewrite Pv, Hp, insert_app_r_alt, Nat.sub_diag by lia. cbn. by rewrite <- app_assoc. }
    exists w. split; [|split; [by etransitivity|by rewrite Pw, <- app_assoc]].
    cbn [imap concat]. rewrite Nat.add_0_r. eapply steps_app; [exact Sv|]. erewrite imap_ext; [exact Sw|].
    intros i y _. unfold compose. f_equal. rewrite length_app. cbn. lia.
Qed.

(** ** Groups *)

(** Everything but the groups. *)
Record shape (u u' : topic) : Prop := Shape {
  sh_name : t_name u' = t_name u;
  sh_limits : t_max_bytes u' = t_max_bytes u /\ t_max_age_ms u' = t_max_age_ms u;
  sh_id : t_id u' = t_id u /\ t_id_persisted u' = t_id_persisted u;
  sh_parts : t_parts u' = t_parts u }.

#[local] Instance shape_preorder : PreOrder shape.
Proof.
  split; [by intros u|]. intros a b c [? [? ?] [? ?] ?] [? [? ?] [? ?] ?]. constructor; try congruence; split; congruence.
Qed.

Lemma commit_shape u gname p off : shape u (commit_topic u gname p off).
Proof. destruct (commit_fields u gname p off) as (? & ? & ? & ? & ? & ?). by constructor. Qed.

Lemma commits_steps name gname offs : forall u i, t_name u = name -> sound u ->
  (i + length offs <= length (t_parts u))%nat ->
  exists u', steps (imap (fun j off => ECommit name gname (Z.of_nat (i + j)) off) offs) u u' /\ shape u u' /\ sound u' /\
    forall g p, offset_of u' g p =
      if decide (gname = g /\ (i <= p < i + length offs)%nat) then default 0 (offs !! (p - i)%nat) else offset_of u g p.
Proof.
  induction offs as [|off offs IH]; intros u i En Hs Hi; cbn [length] in *.
  - exists u. split; [apply steps_nil|]. split; [done|]. split; [done|]. intros g p. rewrite decide_False; [done|].
    intros [_ ?]. lia.
  - pose proof (commit_shape u gname (Z.of_nat i) off) as Hc. set (v := commit_topic u gname (Z.of_nat i) off) in *.
    destruct (IH v (S i)) as (w & Sw & Hw & Hsw & Ow);
      [by rewrite (sh_name _ _ Hc)|by apply commit_sound|rewrite (sh_parts _ _ Hc); lia|].
    exists w. split; [|split; [by etransitivity|split; [done|]]].
    + cbn [imap]. apply (steps_app [_] _ u v).
      * apply (steps_one _ name (commit_event gname (Z.of_nat i) off)); [by rewrite Nat.add_0_r|cbn; lia|done|].
        unfold commit_event, t_partitions, zlen. by destruct (Z.leb_spec (Z.of_nat (length (t_parts u))) (Z.of_nat i)); [lia|].
      * erewrite imap_ext; [exact Sw|]. intros j y _. unfold compose. do 2 f_equal. lia.
    + intros g p. rewrite Ow. unfold v. rewrite commit_offset by (apply Hs || (rewrite Nat2Z.id; lia)). rewrite Nat2Z.id.
      destruct (decide (gname = g)) as [<-|Hg]; [|by rewrite !decide_False by (by intros [? _])].
      destruct (decide (i = p)) as [<-|Hp].
      * rewrite decide_False by (intros [_ ?]; lia). rewrite decide_True by done. rewrite decide_True by (split; [done|lia]).
        by rewrite Nat.sub_diag.
      * destruct (decide (S i <= p < S i + length offs)%nat) as [Hr|Hr].
        -- rewrite !decide_True by (split; [done|lia]). replace (p - i)%nat with (S (p - S i)) by lia. done.
        -- rewrite !decide_False by (intros [? ?]; (done || lia)). done.
Qed.

Definition offset_in (gs : list group) (gname : bytes) (p : nat) : option Z :=
  match find (fun g => name_eqb (g_name g) gname) gs with
  | Some g => Some (default 0 (g_offsets g !! p))
  | None => None
  end.

Lemma groups_steps name n gs : forall u, t_name u = name -> sound u -> length (t_parts u) = n ->
  Forall (fun g => length (g_offsets g) = n) gs -> NoDup (g_name <$> gs) ->
  exists u', steps (concat (group_events name <$> gs)) u u' /\ shape u u' /\ sound u' /\
    forall g p, (p < n)%nat -> offset_of u' g p = default (offset_of u g p) (offset_in gs g p).
Proof.
  induction gs as [|g gs IH]; intros u En Hs Hn Hl Hd.
  - exists u. split; [apply steps_nil|]. done.
  - apply Forall_cons in Hl as [Hl Hls]. cbn [fmap list_fmap] in Hd. apply NoDup_cons in Hd as [Hg Hd].
    destruct (commits_steps name (g_name g) (g_offsets g) u 0 En Hs) as (v & Sv & Hv & Hsv & Ov); [lia|].
    destruct (IH v) as (w & Sw & Hw & Hsw & Ow); [by rewrite (sh_name _ _ Hv)|done|by rewrite (sh_parts _ _ Hv)|done|done|].
    exists w. split; [|split; [by etransitivity|split; [done|]]].
    + cbn [fmap list_fmap concat]. eapply steps_app; [|exact Sw]. exact Sv.
    + intros k p Hp. rewrite Ow by done. unfold offset_in. cbn [find]. rewrite Ov.
      destruct (name_eqb (g_name g) k) eqn:Ek.
      * apply name_eqb_eq in Ek as <-. rewrite decide_True by (split; [done|lia]). rewrite Nat.sub_0_r.
        destruct (find (fun g0 => name_eqb (g_name g0) (g_name g)) gs) as [g'|] eqn:Ef; [|done].
        apply find_some in Ef as [Hin Hq]. apply name_eqb_eq in Hq. exfalso. apply Hg. rewrite <- Hq.
        apply list_elem_of_fmap_2. by apply list_elem_of_In.
      * rewrite decide_False; [done|]. intros [<- _]. by rewrite (proj2 (name_eqb_eq _ _) eq_refl) in Ek.
Qed.

(** ** Topics *)

Lemma topic_steps t l : topic_ok t -> t_id_persisted t = true -> find_topic l (t_name t) = None ->
  exists u, effects (topic_events t) l = Some (u :: l) /\ tsame eq u t /\ t_name u = t_name t.
Proof.
  intros H Hp F. set (a := new_topic (t_name t) (t_partitions t) (t_max_bytes t) (t_max_age_ms t) []).
  set (b := identity_topic a (t_id t)).
  assert (Sb : steps [EIdentity (t_name t) (t_id t)] a b) by (by apply (steps_one _ (t_name t) (fun t0 => Some (identity_topic t0 (t_id t))))).
  assert (Hb : t_parts b = [] ++ replicate (length (t_parts t)) (Part [] 0 0 0)).
  { cbn. unfold t_partitions, zlen. by rewrite Nat2Z.id. }
  destruct (parts_steps (t_name t) _ (t_parts t) b [] eq_refl (to_each _ H) Hb) as (c & Sc & Oc & Pc).
  cbn [length app] in Sc, Pc. destruct Oc as [N1 [L1 L2] [I1 I2] G1].
  change (t_name b) with (t_name t) in N1. change (t_max_bytes b) with (t_max_bytes t) in L1.
  change (t_max_age_ms b) with (t_max_age_ms t) in L2. change (t_id b) with (t_id t) in I1.
  change (t_id_persisted b) with true in I2.
  assert (Hc : sound c).
  { split; [unfold sized; by rewrite G1|]. rewrite Pc. by apply (topic_ok_sound t). }
  destruct (groups_steps (t_name t) (length (t_parts t)) (t_groups t) c N1 Hc ltac:(by rewrite Pc)) as (d & Sd & Hd & Hsd & Od).
  { eapply Forall_impl; [apply (to_groups _ H)|]. by intros g []. }
  { apply (to_distinct _ H). }
  pose proof Hd as [N2 [L3 L4] [I3 I4] P2].
  assert (Se : steps [ERevision (t_name t) (t_revision t)] d (revision_topic d (t_revision t))).
  { apply (steps_one _ (t_name t) (fun t0 => Some (revision_topic t0 (t_revision t)))); [done|done|congruence|done]. }
  exists (revision_topic d (t_revision t)). split; [|split; [|cbn; congruence]].
  - unfold topic_events. cbn [app effects effect]. rewrite F. fold a.
    destruct (steps_app _ _ _ _ _ Sb (steps_app _ _ _ _ _ Sc (steps_app _ _ _ _ _ Sd Se))) as [_ E]. apply (E l).
  - constructor; cbn; try congruence.
    + rewrite P2, Pc. done.
    + intros g p. change (offset_of (revision_topic d (t_revision t)) g p) with (offset_of d g p).
      assert (Hcz : forall q, offset_of c g q = 0) by (intros q; unfold offset_of, find_group; by rewrite G1).
      destruct (decide (p < length (t_parts t))%nat) as [Hlt|Hge].
      * rewrite Od, Hcz by done. unfold offset_of, offset_in, find_group.
        by destruct (find (fun g0 => name_eqb (g_name g0) g) (t_groups t)).
      * assert (Hz : forall v, sized v -> length (t_parts v) = length (t_parts t) -> offset_of v g p = 0).
        { intros v Hv El. unfold offset_of. destruct (find_group v g) as [x|] eqn:Ef; [|done].
          apply find_group_in in Ef as [_ Hin]. unfold sized in Hv. rewrite Forall_forall in Hv. specialize (Hv x Hin).
          by rewrite (lookup_ge_None_2 (g_offsets x) p) by lia. }
        rewrite !Hz; [done|apply Hsd|by rewrite P2, Pc|by apply topic_ok_sized|done].
Qed.

Lemma compact_steps l : forall m, Forall topic_ok l -> NoDup (t_name <$> l) -> Forall (fun t => t_id_persisted t = true) l ->
  (forall t, t ∈ l -> find_topic m (t_name t) = None) ->
  exists m', effects (compact_events l) m = Some m' /\
    forall n, match find_topic l n with
              | Some t => exists u, find_topic m' n = Some u /\ tsame eq u t
              | None => find_topic m' n = find_topic m n
              end.
Proof.
  induction l as [|t l IH]; intros m Hk Hd Hp Hm; [by exists m|].
  apply Forall_cons in Hk as [Ht Hk], Hp as [Hpt Hp]. cbn [fmap list_fmap] in Hd. apply NoDup_cons in Hd as [Hn Hd].
  destruct (topic_steps t m Ht Hpt (Hm t ltac:(by left))) as (u & Eu & Su & Nu).
  assert (Hne : forall x, x ∈ l -> t_name x <> t_name t) by (intros x Hx E; apply Hn; rewrite <- E; by apply list_elem_of_fmap_2).
  destruct (IH (u :: m) Hk Hd Hp) as (m' & E' & H').
  { intros x Hx. rewrite find_topic_cons, decide_False by (rewrite Nu; intros E; by apply (Hne x Hx)). apply Hm. by right. }
  exists m'. unfold compact_events. cbn [fmap list_fmap concat]. rewrite effects_app, Eu. split; [done|].
  intros n. specialize (H' n). rewrite find_topic_cons. destruct (decide (t_name t = n)) as [<-|Hd'].
  - assert (Ef : find_topic l (t_name t) = None) by (by apply find_absent). rewrite Ef in H'.
    rewrite H', find_topic_cons, decide_True by done. eauto.
  - destruct (find_topic l n); [done|]. rewrite H', find_topic_cons. by rewrite Nu, decide_False.
Qed.

(** Replaying the records of a compaction gives the topics. *)
Lemma compact_effects l : topics_ok l -> Forall (fun t => t_id_persisted t = true) l ->
  exists m, effects (compact_events l) [] = Some m /\ same eq m l.
Proof.
  intros [Hk Hd] Hp. destruct (compact_steps l [] Hk Hd Hp) as (m & E & H); [done|]. exists m. split; [done|].
  intros n. specialize (H n). destruct (find_topic l n) as [t|]; [|rewrite H; constructor].
  destruct H as (u & -> & Hu). by constructor.
Qed.

(** ** The records are well formed *)

(** No counter has reached the width of its type. *)
Definition bounded (t : topic) : Prop := t_revision t < 2 ^ 64 /\ Forall (fun x => p_next x < 2 ^ 64) (t_parts t).

Lemma short_len name : short_name name -> 0 < zlen name <= 255.
Proof. by intros [_ H]. Qed.

(** Bounds the length of a record of fixed fields. *)
Ltac small_record :=
  cbn [ev_record snd]; unfold declare_body, identity_body, trim_body, commit_body, retention_body, revision_body, RECORD_MAX;
  change (Z.shiftl 64 20) with 67108864; lens; lia.

Lemma offsets_from_range b l r : offsets_from b l -> r ∈ l -> b <= r_offset r < b + zlen l.
Proof.
  revert b. induction l as [|a l IH]; intros b; [by intros _ H%not_elem_of_nil|]. rewrite zlen_cons.
  pose proof (zlen_nonneg l). intros [Ha Hl] [->|Hin]%elem_of_cons; [lia|]. specialize (IH _ Hl Hin). lia.
Qed.

Lemma item_of p r l : rec_ok l r -> 0 <= l -> fits 32 p -> fits 64 (r_offset r) -> item_ok true (p, r).
Proof.
  intros [H1 [H2 H3] H4 H5] Hl Hp Ho. unfold item_ok. cbn [fst snd]. split_and!; try done.
  pose proof (zlen_nonneg (r_body r)). pose proof (zlen_nonneg (r_key r)). unfold stored_size in H5.
  change (Z.shiftl 64 20) with 67108864 in H5. unfold fits. destruct (_ =? 0); lia.
Qed.

Lemma append_ev_ok name p r : short_name name -> rec_ok (zlen name) r -> fits 32 p -> fits 64 (r_offset r) ->
  ev_ok (EAppend name p r).
Proof.
  intros Hn Hr Hp Ho. split; [done|]. split; [cbn [ev_record snd]; rewrite append_len; apply Hr|].
  eapply item_of; [done|apply zlen_nonneg|done|done].
Qed.

Lemma trim_ev_ok name p b : short_name name -> fits 32 p -> fits 64 b -> ev_ok (ETrim name p b).
Proof. intros Hn Hp Hb. pose proof (short_len _ Hn). split; [done|]. split; [small_record|done]. Qed.

Lemma commit_ev_ok name gname p off : short_name name -> short_name gname -> fits 32 p -> fits 64 off ->
  ev_ok (ECommit name gname p off).
Proof.
  intros Hn Hg Hp Ho. pose proof (short_len _ Hn). pose proof (short_len _ Hg). split; [done|]. split; [small_record|done].
Qed.

Lemma index_fits t (i : nat) : topic_ok t -> (i < length (t_parts t))%nat -> fits 32 (Z.of_nat i).
Proof. intros H Hi. pose proof (to_parts _ H) as Hp. unfold t_partitions, zlen, STREAM_PARTITIONS_MAX, fits in *. lia. Qed.

Lemma topic_events_ok t : topic_ok t -> bounded t -> Forall ev_ok (topic_events t).
Proof.
  intros H [Hr Hb]. pose proof (to_name _ H) as Hn. pose proof (short_len _ Hn) as Hl. unfold topic_events.
  repeat apply Forall_app_2.
  - constructor; [|constructor; [|constructor]].
    + split; [done|]. split; [small_record|]. split; [apply H|apply (to_limits _ H)].
    + split; [done|]. destruct (to_id _ H) as [Hi Hil]. unfold STREAM_ID_LEN in *. split; [small_record|done].
  - apply Forall_concat, Forall_lookup. intros i es E. rewrite list_lookup_imap in E.
    destruct (t_parts t !! i) as [x|] eqn:Ex; [|done]. injection E as <-.
    pose proof (index_fits t i H ltac:(by eapply lookup_lt_Some)) as Hi.
    pose proof (to_each _ H) as Hx. rewrite Forall_lookup in Hx, Hb. specialize (Hx i x Ex). specialize (Hb i x Ex).
    destruct Hx as [B1 B2 B3 B4 B5]. pose proof (zlen_nonneg (p_recs x)). unfold part_events. apply Forall_app_2.
    + destruct (_ =? 0); [constructor|]. constructor; [|constructor]. apply trim_ev_ok; [done|done|]. unfold fits. lia.
    + apply Forall_fmap. rewrite Forall_forall in B5 |- *. intros r Hin. pose proof (offsets_from_range _ _ _ B2 Hin).
      apply append_ev_ok; [done|by apply B5|done|]. unfold fits. lia.
  - apply Forall_concat, Forall_fmap. eapply Forall_impl; [apply (to_groups _ H)|]. intros g [G1 G2 G3 _ _].
    apply Forall_lookup. intros i e E. unfold group_events in E. rewrite list_lookup_imap in E.
    destruct (g_offsets g !! i) as [off|] eqn:Eo; [|done]. injection E as <-. rewrite Forall_lookup in G3.
    apply commit_ev_ok; [done|done| |by eapply G3]. apply (index_fits t i H). rewrite <- G2. by eapply lookup_lt_Some.
  - constructor; [|constructor]. split; [done|]. split; [small_record|]. pose proof (to_revision _ H). lia.
Qed.

Lemma compact_events_ok l : topics_ok l -> Forall bounded l -> Forall ev_ok (compact_events l).
Proof.
  intros [H _] Hb. apply Forall_concat, Forall_fmap. rewrite Forall_forall in *. intros t Ht.
  apply topic_events_ok; auto.
Qed.

End StreamCompact.
