(* ===== verification/StreamDisk.v ===== *)
(** * The stream log on disk

    What a write to the log leaves in the file when it succeeds and when it
    fails, and the states a crash at any moment can bring back.

    Then, in [StreamTrace]: the stream store and its durable states. *)

From stdpp Require Import base numbers option list.
From S2P Require Import Prelude Crc Stream StreamLog StreamOps StreamSpec StreamRetain StreamEvents StreamMem.
From S2P Require Import StreamCodec StreamCompact.
Import Stream StreamLog StreamSpec StreamRetain StreamEvents StreamSame StreamMem StreamCodec StreamReopen StreamCompact.

Module StreamDisk.

(** ** Writes *)

(** What the log leaves alone. *)
Record memory (s s' : sstore) : Prop := Memory {
  my_topics : ss_topics s' = ss_topics s;
  my_live : ss_live_bytes s' = ss_live_bytes s;
  my_allocs : ss_allocs s' = ss_allocs s;
  my_ids : ss_ids s' = ss_ids s;
  my_open : ss_open s' = ss_open s }.

#[global] Instance memory_preorder : PreOrder memory.
Proof. split; [by intros s|]. intros a b c [] []. constructor; congruence. Qed.

(** What writing a record leaves alone. *)
Record apart (s s' : sstore) : Prop := Apart {
  ap_memory : memory s s';
  ap_durable : ss_durable s' = ss_durable s;
  ap_synced : ss_synced_seq s' = ss_synced_seq s }.

#[global] Instance apart_preorder : PreOrder apart.
Proof. split; [by intros s|]. intros a b c [] []. constructor; [by etransitivity|congruence..]. Qed.

Lemma write_at_end file off data : off = zlen file -> write_at file off data = file ++ data.
Proof.
  intros ->. unfold write_at, zlen. rewrite Nat2Z.id, firstn_all, drop_ge by lia. by rewrite app_nil_r.
Qed.

Lemma pwrite_spec s data : let '(ok, s') := pwrite_all s data (zlen (ss_file s)) in
  apart s s' /\ ss_failed s' = ss_failed s /\ ss_off s' = ss_off s /\ ss_buf s' = ss_buf s /\ ss_wal_seq s' = ss_wal_seq s /\
  exists n, ss_file s' = ss_file s ++ take n data /\ (ok = true -> take n data = data).
Proof.
  unfold pwrite_all, swrite. destruct (ss_writes s) as [|[|n] r]; rewrite write_at_end by done.
  - split_and!; try done. exists (length data). rewrite firstn_all. done.
  - split_and!; try done. exists (length data). cbn. rewrite firstn_all. done.
  - split_and!; try done. by exists n.
Qed.

(** What remains when a record is written to the end of the file. *)
Definition appended (s s' : sstore) (ok : bool) (f : bytes) : Prop :=
  apart s s' /\ ss_failed s' = ss_failed s /\ ss_wal_seq s' = ss_wal_seq s /\
  exists n, ss_file s' = ss_file s ++ take n f /\
    (ok = true -> take n f = f /\ ss_buf s' = [] /\ ss_off s' = zlen (ss_file s')).

Lemma appended_as s s0 s' ok f : apart s s0 -> ss_failed s0 = ss_failed s -> ss_wal_seq s0 = ss_wal_seq s ->
  ss_file s0 = ss_file s -> appended s0 s' ok f -> appended s s' ok f.
Proof.
  intros A F W E (A' & F' & W' & n & E' & T). split; [by etransitivity|]. split_and!; [congruence..|]. exists n.
  by rewrite <- E.
Qed.

Lemma buffer_flush s : ss_off s = zlen (ss_file s) ->
  let '(ok, s') := wal_flush_locked s in appended s s' ok (ss_buf s).
Proof.
  intros Ho. unfold wal_flush_locked. destruct (Z.eqb_spec (zlen (ss_buf s)) 0) as [Hz|Hz].
  - pose proof (zlen_zero _ Hz) as Hz'. split; [done|]. split_and!; try done. exists O. rewrite Hz', app_nil_r. done.
  - rewrite Ho. pose proof (pwrite_spec s (ss_buf s)) as P. destruct (pwrite_all s (ss_buf s) _) as [ok s1].
    destruct P as (A & F & O & B & W & n & E & T). destruct ok; cbn [negb].
    + split; [by destruct A as [[] ? ?]|]. split_and!; try done. exists n. split; [done|]. intros _. specialize (T eq_refl).
      split_and!; try done. cbn. rewrite O, Ho, E, T, zlen_app. lia.
    + split; [done|]. split_and!; try done. exists n. done.
Qed.

Lemma flush_empty s : ss_buf s = [] -> wal_flush_locked s = (true, s).
Proof. intros E. unfold wal_flush_locked. by rewrite E. Qed.

Lemma direct_spec s h body : ss_off s = zlen (ss_file s) -> ss_buf s = [] ->
  let '(ok, s') :=
    let '(ok, s) := pwrite_all s h (ss_off s) in
    if negb ok then (false, s)
    else
      let '(ok, s) := if zlen body =? 0 then (true, s) else pwrite_all s body (ss_off s + zlen h) in
      if negb ok then (false, s) else (true, {| s with ss_off := ss_off s + (zlen h + zlen body) |}) in
  appended s s' ok (h ++ body).
Proof.
  intros Ho Hb. rewrite Ho. pose proof (pwrite_spec s h) as P. destruct (pwrite_all s h _) as [ok s1].
  destruct P as (A & F & O & B & W & n & E & T). destruct ok; cbn [negb].
  - specialize (T eq_refl). rewrite T in E. destruct (Z.eqb_spec (zlen body) 0) as [Hz|Hz]; cbn [negb].
    + apply zlen_zero in Hz as ->. split; [by destruct A as [[] ? ?]|]. split_and!; try done. exists (length h).
      rewrite app_nil_r, firstn_all. cbn. split; [done|]. intros _. rewrite O, Ho, E, zlen_app, zlen_nil. split_and!; (done || congruence || lia).
    + replace (ss_off s1 + zlen h) with (zlen (ss_file s1)) by (rewrite E, O, Ho, zlen_app; lia).
      pose proof (pwrite_spec s1 body) as P. destruct (pwrite_all s1 body _) as [ok s2].
      destruct P as (A' & F' & O' & B' & W' & n' & E' & T').
      assert (Et : ss_file s2 = ss_file s ++ take (length h + n') (h ++ body)).
      { rewrite E', E, <- app_assoc. by rewrite take_app_add. }
      destruct ok; cbn [negb].
      * split; [etransitivity; [done|]; by destruct A' as [[] ? ?]|]. split_and!; [cbn; congruence..|]. exists (length h + n')%nat.
        split; [done|]. intros _. rewrite take_app_add, (T' eq_refl). split_and!; [done|cbn; congruence|].
        cbn. rewrite Et, take_app_add, (T' eq_refl), O', O, Ho, !zlen_app. lia.
      * split; [by etransitivity|]. split_and!; [congruence..|]. exists (length h + n')%nat. done.
  - split; [done|]. split_and!; try done. exists (n `min` length h)%nat. split; [|done].
    rewrite E. f_equal. rewrite take_app_le by lia. rewrite <- (firstn_all h) at 1. by rewrite take_take.
Qed.

Lemma stage_buffer_same s total : ss_allocs s = [] -> exists cap, stage_buffer s total = {| s with ss_buf_cap := cap |}.
Proof.
  intros A. unfold stage_buffer. destruct (_ && _); [rewrite salloc_nil by done; by eexists|]. exists (ss_buf_cap s). by destruct s.
Qed.

(** A record is written whole, or the store has failed. *)
Lemma log_record_spec s op body : ss_open s = true -> ss_allocs s = [] -> ss_buf s = [] -> ss_off s = zlen (ss_file s) ->
  let '(rc, s') := log_record s op body in
  apart s s' /\
  ((rc = 0 /\ ss_failed s' = ss_failed s /\ ss_wal_seq s' = ss_wal_seq s + 1 /\ ss_buf s' = [] /\
    ss_off s' = zlen (ss_file s') /\ ss_file s' = ss_file s ++ frame op body) \/
   (rc = -1 /\ ss_failed s' = true /\ exists n, ss_file s' = ss_file s ++ take n (frame op body))).
Proof.
  intros Hop A Hb Ho. unfold log_record. rewrite Hop. cbn [negb].
  enough (H : let '(ok, s') := (let '(ok, s) := wal_stage_locked s op body in
    if ok then wal_flush_locked s else (false, s)) in appended s s' ok (frame op body)).
  { destruct (wal_stage_locked s op body) as [ok s1]. destruct (if ok then wal_flush_locked s1 else (false, s1)) as [ok' s2].
    destruct H as (Ap & F & W & n & E & T). destruct ok'; cbn [negb].
    - destruct (T eq_refl) as (T1 & T2 & T3). split; [by destruct Ap as [[] ? ?]|]. left. cbn. rewrite E, T1 in *. split_and!; (done || congruence).
    - split; [by destruct Ap as [[] ? ?]|]. right. split_and!; [done..|]. by exists n. }
  unfold wal_stage_locked. destruct (stage_buffer_same s (9 + zlen body) A) as [cap ->]. set (s0 := {| s with ss_buf_cap := cap |}).
  destruct ((ss_buf_cap s0 =? 0) || (ss_buf_cap s0 <? 9 + zlen body)) eqn:Ed.
  - unfold wal_flush_locked at 1. change (ss_buf s0) with (ss_buf s). rewrite Hb, zlen_nil. cbn [Z.eqb negb].
    pose proof (direct_spec s0 (frame_header op body) body Ho Hb) as D.
    change (zlen (frame_header op body)) with 9 in D. change (frame_header op body ++ body) with (frame op body) in D.
    destruct (pwrite_all s0 (frame_header op body) (ss_off s0)) as [ok s1]. destruct ok; cbn [negb] in *; [|by apply (appended_as s s0)].
    destruct (if zlen body =? 0 then (true, s1) else pwrite_all s1 body (ss_off s1 + 9)) as [ok s2].
    destruct ok; cbn [negb] in *; [|by apply (appended_as s s0)]. rewrite flush_empty; [by apply (appended_as s s0)|].
    destruct D as (_ & _ & _ & n & _ & T). by destruct (T eq_refl) as (_ & T2 & _).
  - apply orb_false_iff in Ed as [_ Ed]. change (ss_buf s0) with (ss_buf s). rewrite Hb, zlen_nil. rewrite Z.add_0_l, Ed. cbn [negb app].
    pose proof (buffer_flush {| s0 with ss_buf := frame op body |} Ho) as D. change (ss_buf s0) with (ss_buf s). rewrite Hb.
    change ([] ++ frame_header op body ++ body) with (frame op body). destruct (wal_flush_locked _) as [ok s1]. by apply (appended_as s {| s0 with ss_buf := frame op body |}).
Qed.

(** ** The states a crash can bring back *)

(** The durable states of a store, oldest first: the next one is the effect
    of a record, or has lost records to retention.  [gone] are the topics
    that may have been deleted. *)
Definition hstep (gone : bytes -> Prop) (m m' : list topic) : Prop :=
  (exists e, ev_ok e /\ effect e m = Some m' /\ forall n, e = EDelete n -> gone n) \/ same later m m'.

Inductive grows (gone : bytes -> Prop) (hs : list (list topic)) : list (list topic) -> Prop :=
  | grows_refl : grows gone hs hs
  | grows_snoc hs' m m' : grows gone hs hs' -> last hs' = Some m -> hstep gone m m' -> grows gone hs (hs' ++ [m']).

(** The bytes are a log of a state not older than the [a]th. *)
Definition recalls (hs : list (list topic)) (a : nat) (f : bytes) : Prop :=
  exists j m evs m' tail, (a <= j)%nat /\ hs !! j = Some m /\ f = frames evs ++ tail /\ torn tail /\
    Forall ev_ok evs /\ effects evs [] = Some m' /\ same eq m' m.

Record disk (s : sstore) (hs : list (list topic)) (a : nat) : Prop := Disk {
  dk_regular : Forall regular hs;
  dk_at : (a < length hs)%nat;
  dk_durable : 0 <= ss_durable s <= zlen (ss_file s);
  dk_crash : forall k, ss_durable s <= Z.of_nat k <= zlen (ss_file s) -> recalls hs a (take k (ss_file s)) }.

(** The log of a store that has not failed. *)
Record live (s : sstore) (hs : list (list topic)) (a : nat) : Prop := Live {
  lv_disk : disk s hs a;
  lv_open : ss_open s = true;
  lv_buf : ss_buf s = [];
  lv_off : ss_off s = zlen (ss_file s);
  lv_seq : ss_synced_seq s <= ss_wal_seq s;
  lv_synced : ss_synced_seq s = ss_wal_seq s -> ss_durable s = zlen (ss_file s);
  lv_log : exists evs m' m, ss_file s = frames evs /\ Forall ev_ok evs /\ effects evs [] = Some m' /\
    last hs = Some m /\ same eq m' m }.

(** The last state, of which the topics in memory may have lost records. *)
Definition holds (hs : list (list topic)) (l : list topic) : Prop := exists m, last hs = Some m /\ same later m l.

Lemma last_index {A} (l : list A) x : last l = Some x -> l !! (length l - 1)%nat = Some x.
Proof. rewrite last_lookup. by replace (Init.Nat.pred (length l)) with (length l - 1)%nat by lia. Qed.

Lemma Forall_snoc {A} (P : A -> Prop) l x : Forall P l -> P x -> Forall P (l ++ [x]).
Proof. intros H Hx. apply Forall_app_2; [done|by constructor]. Qed.

Lemma regular_nil : regular [].
Proof. split; [apply NoDup_nil_2|constructor]. Qed.

Lemma ev_oks_nat es : Forall ev_ok es -> Forall ev_nat es.
Proof. intros H. eapply Forall_impl; [exact H|]. apply ev_ok_nat. Qed.

Lemma recalls_more hs a f m : recalls hs a f -> recalls (hs ++ [m]) a f.
Proof.
  intros (j & x & evs & m' & tail & Hj & Hx & H). exists j, x, evs, m', tail. split; [done|]. split; [|done].
  by apply lookup_app_l_Some.
Qed.

(** The log after a record, whole or cut short. *)
Lemma recalls_next hs a evs m m' e m1 n : (a < length hs)%nat -> Forall regular hs -> Forall ev_ok evs -> effects evs [] = Some m' ->
  last hs = Some m -> same eq m' m -> ev_ok e -> effect e m = Some m1 ->
  recalls (hs ++ [m1]) a (frames evs ++ take n (ev_frame e)).
Proof.
  intros Ha Hr Ho E Hl S He E1. pose proof (last_index _ _ Hl) as Hx.
  destruct (decide (n < length (ev_frame e))%nat) as [Hn|Hn].
  - apply recalls_more. exists (length hs - 1)%nat, m, evs, m', (take n (ev_frame e)). split_and!; try done; [lia|by exists e, n].
  - rewrite take_ge by lia.
    assert (Hm : regular m) by (rewrite Forall_lookup in Hr; by eapply Hr).
    assert (Hm' : regular m') by (eapply effects_regular; [by apply ev_oks_nat|apply regular_nil|done]).
    pose proof (effect_same eq e m' m (ev_ok_nat e He) Hm' Hm S) as Hs. rewrite E1 in Hs.
    destruct (effect e m') as [m1'|] eqn:E1'; inversion Hs; subst.
    exists (length hs), m1, (evs ++ [e]), m1', []. split_and!; [lia| | |apply torn_nil| | |done].
    + by rewrite lookup_app_r, Nat.sub_diag by lia.
    + rewrite app_nil_r, frames_app. f_equal. unfold frames. cbn. by rewrite app_nil_r.
    + by apply Forall_snoc.
    + rewrite effects_app, E. cbn. by rewrite E1'.
Qed.

Lemma take_app_take {A} (l k : list A) n : (length l <= n)%nat -> take n (l ++ k) = l ++ take (n - length l) k.
Proof. intros H. by rewrite take_app_ge. Qed.

(** One record, which has the effect of [e] on the topics [l]. *)
Lemma log_event gone s hs a l l' e : live s hs a -> ss_allocs s = [] -> ev_ok e -> (forall n, e = EDelete n -> gone n) ->
  regular l -> holds hs l -> effect e l = Some l' ->
  exists m1, grows gone hs (hs ++ [m1]) /\ holds (hs ++ [m1]) l' /\
    let '(rc, s') := log_record s (ev_record e).1 (ev_record e).2 in
    apart s s' /\ disk s' (hs ++ [m1]) a /\
    ((rc = 0 /\ ss_failed s' = ss_failed s /\ live s' (hs ++ [m1]) a) \/ (rc = -1 /\ ss_failed s' = true)).
Proof.
  intros [[Hr Ha Hd Hc] Hop Hb Ho Hq Hsy (evs & m' & m & Ef & Hok & Ee & Hl & Hs)] A He Hg Rl (m0 & Hl0 & Sl) E.
  rewrite Hl in Hl0. injection Hl0 as <-. pose proof (last_index _ _ Hl) as Hx.
  assert (Rm : regular m) by (rewrite Forall_lookup in Hr; by eapply Hr).
  pose proof (effect_same later e m l (ev_ok_nat e He) Rm Rl Sl) as Hse. rewrite E in Hse.
  destruct (effect e m) as [m1|] eqn:E1; inversion Hse as [? ? Hsm|]; subst.
  pose proof (recalls_next hs a evs m m' e m1) as Hnext. exists m1.
  split; [apply (grows_snoc _ _ hs m); [constructor|done|by left; exists e]|]. split; [exists m1; by rewrite last_snoc|].
  pose proof (log_record_spec s (ev_record e).1 (ev_record e).2 Hop A Hb Ho) as P. rewrite <- frame_of in P.
  destruct (log_record s (ev_record e).1 (ev_record e).2) as [rc s'].
  assert (K : exists n, ss_file s' = ss_file s ++ take n (ev_frame e)).
  { destruct P as [_ [(_ & _ & _ & _ & _ & E2)|(_ & _ & n & E2)]]; [exists (length (ev_frame e)); by rewrite firstn_all|by exists n]. }
  destruct K as [n K]. destruct P as [Ap P]. split; [done|].
  assert (D : disk s' (hs ++ [m1]) a).
  { constructor.
    - apply Forall_snoc; [done|]. exact (effect_regular e m m1 (ev_ok_nat e He) Rm E1).
    - rewrite length_app. lia.
    - rewrite (ap_durable _ _ Ap), K, zlen_app. pose proof (zlen_nonneg (take n (ev_frame e))). lia.
    - intros k Hk. rewrite (ap_durable _ _ Ap) in Hk. rewrite K in Hk |- *. destruct (decide (k < length (ss_file s))%nat) as [Hlt|Hge].
      + rewrite take_app_le by lia. apply recalls_more, Hc. unfold zlen. lia.
      + rewrite take_app_take, take_take, Ef by lia. by apply Hnext. }
  split; [exact D|]. destruct P as [(-> & F & W & B & O & E2)|(-> & F & _)]; [left|by right]. split; [done|]. split; [done|].
  constructor; try done.
  - by rewrite (my_open _ _ (ap_memory _ _ Ap)).
  - rewrite (ap_synced _ _ Ap), W. lia.
  - rewrite (ap_synced _ _ Ap), W. intros Heq. lia.
  - pose proof (effect_same eq e m' m (ev_ok_nat e He)) as Hse'. rewrite E1 in Hse'.
    assert (Rm' : regular m') by (eapply effects_regular; [by apply ev_oks_nat|apply regular_nil|done]).
    specialize (Hse' Rm' Rm Hs). destruct (effect e m') as [m1'|] eqn:E1'; inversion Hse'; subst.
    exists (evs ++ [e]), m1', m1. split_and!; [|by apply Forall_snoc| |by rewrite last_snoc|done].
    + rewrite E2, Ef, frames_app. f_equal. unfold frames. cbn. by rewrite app_nil_r.
    + rewrite effects_app, Ee. cbn. by rewrite E1'.
Qed.

(** ** The barrier *)

Lemma recalls_last hs a evs m m' : (a < length hs)%nat -> Forall ev_ok evs -> effects evs [] = Some m' ->
  last hs = Some m -> same eq m' m -> (a <= length hs - 1)%nat -> recalls hs a (frames evs).
Proof.
  intros Ha Ho E Hl S Hj. exists (length hs - 1)%nat, m, evs, m', []. split_and!; try done; [by apply last_index|by rewrite app_nil_r|apply torn_nil].
Qed.

Lemma live_durable s hs a : live s hs a -> ss_durable s = zlen (ss_file s) -> live s hs (length hs - 1).
Proof.
  intros [[Hr Ha Hd Hc] Hop Hb Ho Hq Hsy (evs & m' & m & Ef & Hok & Ee & Hl & Hs)] E.
  constructor; try done; [|by exists evs, m', m]. constructor; try done; [lia|]. intros k Hk.
  rewrite take_ge by (unfold zlen in *; lia). rewrite Ef. eapply recalls_last; try done; lia.
Qed.

Lemma wait_spec s hs a : live s hs a -> ss_failed s = false ->
  let '(rc, s') := stream_wait_durable_locked s (ss_wal_seq s) in
  memory s s' /\ ((rc = 0 /\ ss_failed s' = false /\ live s' hs (length hs - 1)) \/
                  (rc = -1 /\ ss_failed s' = true /\ disk s' hs a)).
Proof.
  intros L F. pose proof L as [[Hr Ha Hd Hc] Hop Hb Ho Hq Hsy Hlog]. unfold stream_wait_durable_locked. rewrite F.
  destruct (Z.leb_spec (ss_wal_seq s) (ss_synced_seq s)).
  - split; [done|]. left. split_and!; try done. apply live_durable with a; [done|]. apply Hsy. lia.
  - rewrite flush_empty by done. cbn [negb]. unfold ssync. destruct (draw (ss_syncs s)) as [[|] r]; cbn [negb].
    + split; [done|]. left. split; [done|]. split; [done|].
      apply live_durable with a; [|done]. constructor; cbn; try done; [|destruct (_ <? _); lia].
      * constructor; cbn; try done; [pose proof (zlen_nonneg (ss_file s)); lia|]. intros k Hk. apply Hc. lia.
    + split; [done|]. right. done.
Qed.

End StreamDisk.

(** * The stream store and its durable states

    The invariant of a store that has not failed, and what compaction and the
    common beginning of the calls do to it. *)

Import Stream StreamLog StreamOps StreamSpec StreamRetain StreamEvents StreamSame StreamMem StreamCodec StreamReopen StreamCompact StreamDisk.

Module StreamTrace.

Definition persisted (l : list topic) : Prop := Forall (fun t => t_id_persisted t = true) l.

Record ready (s : sstore) (hs : list (list topic)) (a : nat) : Prop := Ready {
  rd_mem : mem_ok s;
  rd_live : live s hs a;
  rd_holds : holds hs (ss_topics s);
  rd_failed : ss_failed s = false;
  rd_persisted : persisted (ss_topics s) }.

(** What a call makes of a store: more durable states; all of them safe when
    [acked] says so. *)
Definition outcome (gone : bytes -> Prop) (hs : list (list topic)) (a : nat) (s' : sstore) (acked : Prop)
    : Prop := exists hs' a', grows gone hs hs' /\ (a <= a')%nat /\ disk s' hs' a' /\
  (ss_failed s' = true \/ ready s' hs' a') /\ (acked -> a' = (length hs' - 1)%nat /\ ss_failed s' = false).

Lemma grows_trans gone hs hs1 hs2 : grows gone hs hs1 -> grows gone hs1 hs2 -> grows gone hs hs2.
Proof. intros H. induction 1; [done|by econstructor]. Qed.

Lemma outcome_after gone hs a hs1 a1 s' acked : grows gone hs hs1 -> (a <= a1)%nat ->
  outcome gone hs1 a1 s' acked -> outcome gone hs a s' acked.
Proof.
  intros G Ha (hs' & a' & G' & Ha' & H). exists hs', a'. split; [by eapply grows_trans|]. split; [lia|done].
Qed.

Lemma outcome_ready gone s hs a : ready s hs a -> outcome gone hs a s False.
Proof. intros H. exists hs, a. split; [constructor|]. split; [done|]. split; [apply H|]. split; [by right|done]. Qed.

Lemma outcome_failed gone s hs a : disk s hs a -> ss_failed s = true -> outcome gone hs a s False.
Proof. intros H F. exists hs, a. split; [constructor|]. split; [done|]. split; [done|]. split; [by left|done]. Qed.

Lemma outcome_acked gone s hs a : (a < length hs)%nat -> ready s hs (length hs - 1) -> outcome gone hs a s True.
Proof.
  intros Ha H. exists hs, (length hs - 1)%nat. split; [constructor|]. split; [lia|]. split; [apply H|]. split; [by right|].
  intros _. split; [done|apply H].
Qed.

Lemma outcome_weaken gone hs a s' (P Q : Prop) : (Q -> P) -> outcome gone hs a s' P -> outcome gone hs a s' Q.
Proof. intros H (hs' & a' & G & Ha & D & R & K). exists hs', a'. split_and!; auto. Qed.

Lemma mem_ok_memory s s' : memory s s' -> mem_ok s -> mem_ok s'.
Proof. intros [E1 E2 E3 E4 E5] []. constructor; congruence. Qed.

(** ** Compaction *)

Lemma compact_write_spec rs : forall s out, ss_allocs s = [] ->
  let '(r, s') := compact_write s rs out in
  (exists w, s' = {| s with ss_writes := w |}) /\
  (r = None \/ r = Some (out ++ concat ((fun x => frame x.1 x.2) <$> rs))).
Proof.
  induction rs as [|[op b] rs IH]; intros s out A; cbn [compact_write].
  - split; [exists (ss_writes s); by destruct s|]. right. cbn. by rewrite app_nil_r.
  - rewrite salloc_nil by done. cbn [negb]. unfold swrite. destruct (ss_writes s) as [|[|n] w] eqn:Ew.
    + specialize (IH s (out ++ frame op b) A). destruct (compact_write s rs _) as [r s']. destruct IH as [H1 H2].
      split; [done|]. cbn [fmap list_fmap concat fst snd]. by rewrite app_assoc.
    + specialize (IH {| s with ss_writes := w |} (out ++ frame op b) A). destruct (compact_write _ rs _) as [r s'].
      destruct IH as [[w' ->] H2]. split; [by exists w'|]. cbn [fmap list_fmap concat fst snd]. by rewrite app_assoc.
    + split; [by exists w|]. by left.
Qed.

Lemma compact_frames l : concat ((fun x => frame x.1 x.2) <$> compact_records l) = frames (compact_events l).
Proof.
  rewrite compact_records_events. unfold frames. rewrite <- list_fmap_compose. f_equal. apply list_fmap_ext.
  intros _ e _. unfold compose. by rewrite frame_of.
Qed.

(** Before the rename nothing has changed; after it the log is the new one. *)
Lemma compact_locked_spec s : ss_allocs s = [] ->
  let '(rc, s') := stream_compact_locked s in
  memory s s' /\ ss_failed s' = ss_failed s /\
  ((rc = -1 /\ ss_file s' = ss_file s /\ ss_durable s' = ss_durable s) \/
   (ss_file s' = frames (compact_events (ss_topics s)) /\ ss_durable s' = zlen (ss_file s') /\
    (rc = -1 \/ (rc = 0 /\ ss_buf s' = [] /\ ss_off s' = zlen (ss_file s') /\ ss_synced_seq s' = ss_wal_seq s')))).
Proof.
  intros A. unfold stream_compact_locked, ssync at 1. destruct (draw (ss_syncs s)) as [[|] r1]; cbn [negb];
    [|split; [done|]; split; [done|]; by left].
  set (s1 := {| s with ss_syncs := r1 |}). pose proof (compact_write_spec (compact_records (ss_topics s1)) s1 [] A) as W.
  destruct (compact_write s1 _ []) as [out s2]. destruct W as [[w ->] [-> | -> ]].
  - unfold ssync. cbn. destruct (draw r1) as [c r2]. cbn. split; [done|]. split; [done|]. by left.
  - rewrite app_nil_l, compact_frames. change (ss_topics s1) with (ss_topics s). unfold ssync. cbn.
    destruct (draw r1) as [b2 r2]. cbn. destruct (draw r2) as [b3 r3]. cbn.
    destruct (b2 && b3); cbn [negb]; [|split; [done|]; split; [done|]; by left].
    destruct (draw r3) as [[|] r4]; cbn [negb]; [|split; [done|]; split; [done|]; by left].
    cbn. destruct (draw r4) as [[|] r5]; cbn [negb]; [|split; [done|]; split; [done|]; right; split_and!; [done..|by left]].
    cbn. destruct (draw r5) as [[|] r6]; cbn [negb]; (split; [done|]; split; [done|]; right; split_and!; [done..|]).
    + by right.
    + by left.
Qed.

Lemma compact_disk s s' hs a : mem_ok s -> persisted (ss_topics s) -> Forall bounded (ss_topics s) -> disk s hs a ->
  ss_file s' = frames (compact_events (ss_topics s)) -> ss_durable s' = zlen (ss_file s') ->
  disk s' (hs ++ [ss_topics s]) (length hs) /\
  exists evs m' m, ss_file s' = frames evs /\ Forall ev_ok evs /\ effects evs [] = Some m' /\
    last (hs ++ [ss_topics s]) = Some m /\ same eq m' m.
Proof.
  intros M Hp Hb [Hr Ha _ _] Ef Ed. destruct (compact_effects (ss_topics s) (mo_topics _ M) Hp) as (m' & Ee & S).
  pose proof (compact_events_ok _ (mo_topics _ M) Hb) as Hok. split.
  - constructor.
    + apply Forall_snoc; [done|]. apply topics_ok_regular, M.
    + rewrite length_app. cbn. lia.
    + rewrite Ed. pose proof (zlen_nonneg (ss_file s')). lia.
    + intros k Hk. rewrite take_ge by (unfold zlen in *; lia). rewrite Ef.
      eapply recalls_last; [|done|done|by rewrite last_snoc|done|]; rewrite length_app; cbn; lia.
  - exists (compact_events (ss_topics s)), m', (ss_topics s). split_and!; try done. by rewrite last_snoc.
Qed.

Lemma compact_maybe_spec gone s hs a : ready s hs a -> Forall bounded (ss_topics s) ->
  let '(rc, s') := compact_maybe_locked s in
  exists hs' a', grows gone hs hs' /\ (a <= a')%nat /\ disk s' hs' a' /\ memory s s' /\
    ((rc = 0 /\ ready s' hs' a') \/ (rc = -1 /\ ss_failed s' = true)).
Proof.
  intros [M L Hh F Hp] Hb. unfold compact_maybe_locked.
  destruct (negb (ss_open s) || _); [exists hs, a; split_and!; [constructor|done|apply L|done|by left]|].
  pose proof (compact_locked_spec s (mo_allocs _ M)) as C. destruct (stream_compact_locked s) as [rc s'].
  destruct C as (My & Ff & C). pose proof (lv_disk _ _ _ L) as D.
  assert (G : grows gone hs (hs ++ [ss_topics s])).
  { destruct Hh as (m & Hl & S). apply (grows_snoc _ _ hs m); [constructor|done|by right]. }
  destruct C as [(-> & Ef & Ed)|(Ef & Ed & [->|(-> & Eb & Eo & Es)])]; cbn [Z.eqb negb].
  - exists hs, a. split_and!; [constructor|done| |by destruct My|by right]. destruct D. constructor; cbn; try done; by rewrite ?Ef, ?Ed.
  - destruct (compact_disk s s' hs a M Hp Hb D Ef Ed) as [[] _]. exists (hs ++ [ss_topics s]), (length hs).
    split_and!; [done|apply Nat.lt_le_incl, D|by constructor|by destruct My|by right].
  - destruct (compact_disk s s' hs a M Hp Hb D Ef Ed) as [D' Hlog]. exists (hs ++ [ss_topics s]), (length hs).
    split_and!; [done|apply Nat.lt_le_incl, D|done|done|]. left. split; [done|]. constructor.
    + by eapply mem_ok_memory.
    + constructor; try done; [|lia]. rewrite (my_open _ _ My). apply L.
    + exists (ss_topics s). rewrite last_snoc, (my_topics _ _ My). done.
    + congruence.
    + unfold persisted. by rewrite (my_topics _ _ My).
Qed.

(** ** The beginning of a call *)

Lemma begin_spec gone s hs a : ready s hs a -> Forall bounded (ss_topics s) ->
  match begin s with
  | (false, s') => outcome gone hs a s' False
  | (true, s') => exists hs' a', grows gone hs hs' /\ (a <= a')%nat /\ ready s' hs' a' /\ ss_topics s' = ss_topics s
  end.
Proof.
  intros R Hb. unfold begin. rewrite (rd_failed _ _ _ R). pose proof (compact_maybe_spec gone s hs a R Hb) as C.
  destruct (compact_maybe_locked s) as [rc s']. destruct C as (hs' & a' & G & Ha & D & My & [[-> R']|[-> F]]); cbn [Z.eqb].
  - exists hs', a'. split_and!; try done. apply My.
  - eapply outcome_after; [done|done|]. by apply outcome_failed.
Qed.

End StreamTrace.
