(* ===== verification/StreamFlight.v ===== *)
(** * A topic in the middle of a call of the stream engine

    Between the records a call writes and the change it makes in memory: the
    durable state runs ahead of the topic in memory.  Retention as a part of
    calls. *)

From stdpp Require Import base numbers option list.
From S2P Require Import Prelude Crc Stream StreamLog StreamOps StreamSpec StreamRetain StreamEvents StreamMem.
From S2P Require Import StreamCodec StreamCompact StreamDisk.
Import Stream StreamLog StreamOps StreamSpec StreamRetain StreamEvents StreamSame StreamMem StreamCodec StreamReopen StreamCompact StreamDisk StreamTrace.

Module StreamFlight.

(** A store that has failed on the way. *)
Definition broken (gone : bytes -> Prop) (hs : list (list topic)) (a : nat) (s : sstore) : Prop :=
  exists hs', grows gone hs hs' /\ disk s hs' a /\ ss_failed s = true.

Lemma broken_outcome gone hs a s : broken gone hs a s -> outcome gone hs a s False.
Proof.
  intros (hs' & G & D & F). exists hs', a. split; [done|]. split; [done|]. split; [done|]. split; [by left|done].
Qed.

Lemma broken_set gone hs a s t : broken gone hs a s -> broken gone hs a (set_topic s t).
Proof. intros (hs' & G & [] & F). exists hs'. split; [done|]. by split. Qed.

Lemma broken_after gone hs hs1 a s : grows gone hs hs1 -> broken gone hs1 a s -> broken gone hs a s.
Proof. intros G (hs' & G' & H). exists hs'. split; [by eapply grows_trans|done]. Qed.

(** The durable state has [u] where memory has [t]. *)
Record pending (s : sstore) (t u : topic) (hs : list (list topic)) (a : nat) : Prop := Pending {
  pd_mem : mem_ok (set_topic s t);
  pd_live : live s hs a;
  pd_holds : holds hs (put_topic (ss_topics s) u);
  pd_failed : ss_failed s = false;
  pd_persisted : persisted (put_topic (ss_topics s) t);
  pd_in : is_Some (find_topic (ss_topics s) (t_name t));
  pd_name : t_name u = t_name t }.

Lemma live_fields s s' hs a : live s hs a -> ss_file s' = ss_file s -> ss_durable s' = ss_durable s ->
  ss_open s' = ss_open s -> ss_buf s' = ss_buf s -> ss_off s' = ss_off s -> ss_wal_seq s' = ss_wal_seq s ->
  ss_synced_seq s' = ss_synced_seq s -> live s' hs a.
Proof.
  intros [[? ? ? ?] ? ? ? ? ? ?] E1 E2 E3 E4 E5 E6 E7.
  constructor; [constructor|..]; rewrite ?E1, ?E2, ?E3, ?E4, ?E5, ?E6, ?E7; done.
Qed.

Lemma pending_ready s t u hs a : pending s t u hs a -> tsame eq u t -> ready (set_topic s t) hs a.
Proof.
  intros [M L (m & Hl & S) F P I N] Hs. constructor; try done; [by eapply live_fields|]. exists m. split; [done|].
  etransitivity; [exact S|]. apply same_weaken; [apply _|]. by apply same_put.
Qed.

Lemma ready_pending s hs a name t : ready s hs a -> find_topic (ss_topics s) name = Some t -> pending s t t hs a.
Proof.
  intros [M L H F P] E. destruct (topic_of s name t M E) as [_ En].
  assert (Ep : put_topic (ss_topics s) t = ss_topics s) by (apply put_same; by rewrite En).
  assert (Es : set_topic s t = s) by (unfold set_topic; rewrite Ep; by destruct s).
  constructor; rewrite ?Es, ?Ep; try done. rewrite En, E. done.
Qed.

Lemma pending_topic s t u hs a : pending s t u hs a -> find_topic (put_topic (ss_topics s) t) (t_name t) = Some t.
Proof. intros H. rewrite find_put, decide_True by done. by destruct (pd_in _ _ _ _ _ H) as [x ->]. Qed.

Lemma pending_ok s t u hs a : pending s t u hs a -> topic_ok t.
Proof.
  intros H. pose proof (pending_topic _ _ _ _ _ H) as E. by destruct (topic_of (set_topic s t) _ t (pd_mem _ _ _ _ _ H) E).
Qed.

Lemma pending_flag s t u hs a : pending s t u hs a -> t_id_persisted t = true.
Proof.
  intros H. pose proof (pending_topic _ _ _ _ _ H) as E. apply find_topic_name in E as [_ Hin].
  pose proof (pd_persisted _ _ _ _ _ H) as P. unfold persisted in P. rewrite Forall_forall in P. by apply P.
Qed.

(** The topic in memory changes. *)
Lemma pending_memory s t u hs a v n : pending s t u hs a -> topic_ok v -> t_name v = t_name t -> t_id_persisted v = true ->
  n = topic_live v - topic_live t -> pending (add_live s n) v u hs a.
Proof.
  intros H Hv En Hp Hn. pose proof (pending_topic _ _ _ _ _ H) as Et. pose proof H as [M L Hh F P I N].
  assert (E : set_topic (add_live s n) v = set_topic (add_live (set_topic s t) n) v).
  { unfold set_topic, add_live. cbn. by rewrite put_put. }
  constructor; try done.
  - rewrite E. by apply (put_ok (set_topic s t) t v n).
  - by eapply live_fields.
  - cbn. rewrite <- (put_put (ss_topics s) t v) by done. by apply put_Forall.
  - cbn. by rewrite En.
  - congruence.
Qed.

(** A topic equal in what is durable. *)
Lemma pending_same s t u hs a u' : pending s t u hs a -> tsame eq u u' -> pending s t u' hs a.
Proof.
  intros [M L (m & Hl & S) F P I N] Hs. constructor; try done; [|by rewrite (ts_name _ _ _ Hs)].
  exists m. split; [done|]. etransitivity; [exact S|]. apply same_weaken; [apply _|]. by apply same_put.
Qed.

(** A record about the topic. *)
Lemma pending_log gone s t u hs a e f v : pending s t u hs a -> sound u -> ev_ok e ->
  ev_change e = Some (t_name t, f) -> f u = Some v ->
  let '(rc, s') := log_record s (ev_record e).1 (ev_record e).2 in
  (rc = -1 /\ broken gone hs a s') \/
  (rc = 0 /\ exists hs', grows gone hs hs' /\ pending s' t v hs' a /\ ss_topics s' = ss_topics s).
Proof.
  intros H Hu He Ec Ef. pose proof H as [M L Hh F P I N].
  destruct (ev_change_spec eq e _ f Ec (ev_ok_nat e He)) as [C Hf].
  assert (Nv : t_name v = t_name u) by (exact (ch_name _ _ C u v Ef)).
  assert (R : regular (put_topic (ss_topics s) u)).
  { rewrite <- (put_put (ss_topics s) t u) by done. apply regular_put; [|done]. apply topics_ok_regular, M. }
  assert (E : effect e (put_topic (ss_topics s) u) = Some (put_topic (ss_topics s) v)).
  { rewrite Hf. unfold on_topic. rewrite find_put, decide_True by done. destruct I as [x ->]. rewrite Ef. cbn.
    by rewrite put_put. }
  destruct (log_event gone s hs a _ _ e L (mo_allocs _ M) He ltac:(by intros n ->) R Hh E) as (m1 & G & Hh' & K).
  destruct (log_record s _ _) as [rc s']. destruct K as ([My Ad As] & D & [(-> & Ff & L')|(-> & Ff)]);
    [right|left; split; [done|]; by exists (hs ++ [m1])].
  split; [done|]. exists (hs ++ [m1]). split; [done|]. split; [|apply My]. pose proof My as [E1 E2 E3 E4 E5]. constructor; try done.
  - destruct M as [M1 M2 M3 M4]. cbn in *. constructor; cbn; rewrite ?E1, ?E2, ?E3, ?E4; done.
  - by rewrite E1.
  - congruence.
  - by rewrite E1.
  - by rewrite E1.
  - congruence.
Qed.

(** ** Retention *)

Definition trims (base : list Z) (u : topic) (touched : list nat) : topic :=
  fold_left (fun u p => trim_topic u p (boundary base p)) touched u.

Lemma trims_spec base touched : forall u, NoDup touched ->
  others u (trims base u touched) /\
  forall p, t_parts (trims base u touched) !! p =
    if decide (p ∈ touched) then trim_to (boundary base p) <$> t_parts u !! p else t_parts u !! p.
Proof.
  induction touched as [|q touched IH]; intros u Hd.
  - split; [done|]. intros p. by rewrite decide_False by apply not_elem_of_nil.
  - apply NoDup_cons in Hd as [Hq Hd]. cbn [trims fold_left]. destruct (IH (trim_topic u q (boundary base q)) Hd) as [O P].
    split; [by destruct O|]. intros p. rewrite P. cbn. rewrite list_lookup_alter.
    destruct (decide (p ∈ touched)) as [Hp|Hp].
    + rewrite decide_False by (by intros ->). by rewrite decide_True by (by right).
    + destruct (decide (q = p)) as [->|Hne]; [by rewrite decide_True by (by left)|].
      rewrite decide_False; [done|]. by intros [->|]%elem_of_cons.
Qed.

(** The records of a pass amount to the pass. *)
Lemma passed_same s t s' t' base touched : passed s t s' t' base touched -> tsame eq (trims base t touched) t'.
Proof.
  intros [pa_from pa_ok pa_name pa_limits pa_id pa_groups pa_revision pa_store pa_length pa_parts pa_within pa_nodup pa_touched].
  destruct (trims_spec base touched t pa_nodup) as [[O1 [O2 O3] [O4 O5] O6] P]. destruct pa_limits, pa_id.
  constructor; try congruence.
  - apply list_eq_Forall2, list_eq. intros p. rewrite P. destruct (t_parts t !! p) as [x|] eqn:Ex.
    + rewrite (pa_parts p x Ex). destruct (decide (p ∈ touched)) as [Hp|Hp]; [done|].
      assert (boundary base p = 0) as -> by (destruct (decide (boundary base p = 0)); [done|]; by apply pa_touched in n).
      pose proof (to_each _ pa_from) as Hx. rewrite Forall_lookup in Hx. specialize (Hx p x Ex).
      rewrite (trim_to_low 0 x _ Hx); [done|]. apply Hx.
    + destruct pa_length as [_ El]. rewrite (lookup_ge_None_2 (t_parts t') p) by (rewrite El; by apply lookup_ge_None).
      by destruct (decide _).
  - intros g p. unfold offset_of, find_group. by rewrite O6, pa_groups.
Qed.

Lemma log_trims_spec gone base a t touched : forall s u hs, pending s t u hs a -> sound u ->
  length (t_parts u) = length (t_parts t) ->
  Forall (fun p => (p < length (t_parts t))%nat /\ fits 64 (boundary base p)) touched ->
  let '(rc, s') := log_trims s t base touched in
  (rc = -1 /\ broken gone hs a s') \/
  (rc = 0 /\ exists hs', grows gone hs hs' /\ pending s' t (trims base u touched) hs' a /\ ss_topics s' = ss_topics s).
Proof.
  induction touched as [|p touched IH]; intros s u hs H Hs El Ht; cbn [log_trims].
  { right. split; [done|]. exists hs. split; [constructor|done]. }
  apply Forall_cons in Ht as [[Hp Hb] Ht]. pose proof (pending_ok _ _ _ _ _ H) as Hk.
  pose proof (pending_log gone s t u hs a (ETrim (t_name t) (Z.of_nat p) (boundary base p))
    (trim_event (Z.of_nat p) (boundary base p)) (trim_topic u p (boundary base p)) H Hs) as K.
  cbn [ev_record fst snd ev_change] in K. unfold boundary in K at 5. destruct (log_record s _ _) as [rc s1].
  destruct K as [(-> & B)|(-> & hs1 & G & H1 & E1)].
  { apply trim_ev_ok; [apply Hk|by eapply index_fits|done]. }
  { done. }
  { unfold trim_event, t_partitions, zlen. rewrite Nat2Z.id. destruct (Z.leb_spec (Z.of_nat (length (t_parts u))) (Z.of_nat p)); [lia|done]. }
  { by left. }
  cbn [Z.eqb negb]. specialize (IH s1 (trim_topic u p (boundary base p)) hs1 H1 (trim_sound _ _ _ Hs)).
  cbn [trim_topic t_parts] in IH. rewrite length_alter in IH. specialize (IH El Ht).
  destruct (log_trims s1 t base touched) as [rc s']. destruct IH as [(-> & B)|(-> & hs2 & G2 & H2 & E2)].
  - left. split; [done|]. by eapply broken_after.
  - right. split; [done|]. exists hs2. split; [by eapply grows_trans|]. split; [done|congruence].
Qed.

Definition parts_fit (t : topic) : Prop := Forall (fun x => p_next x < 2 ^ 64) (t_parts t).

Lemma enforce_spec gone s t hs a now : pending s t t hs a -> parts_fit t ->
  let '(rc, s', t') := enforce s t true now in
  (rc = -1 /\ broken gone hs a s') \/
  (rc = 0 /\ exists hs' base touched s1, grows gone hs hs' /\ pending s' t' t' hs' a /\ ss_topics s' = ss_topics s /\
    passed s t s1 t' base touched).
Proof.
  intros H Hf. unfold enforce. pose proof (pending_ok _ _ _ _ _ H) as Hk. pose proof (pending_flag _ _ _ _ _ H) as Hp.
  pose proof (retain_passed s t now Hk) as P. destruct (retain s t now) as [[[s1 t'] base] touched]. cbn [negb].
  pose proof P as [Pf Pk Pn Pl Pi Pg Pr Ps Pe Pp Pw Pd Pt].
  assert (H1 : pending s1 t' t hs a).
  { rewrite Ps. apply (pending_memory s t t hs a t'); try done. by rewrite (proj2 Pi). }
  pose proof (log_trims_spec gone base a t' touched s1 t hs H1 (topic_ok_sound t Hk)) as K.
  destruct Pe as [Pe1 Pe2]. rewrite Pe2 in K.
  destruct (log_trims s1 t' base touched) as [rc s']. destruct K as [(-> & B)|(-> & hs' & G & H' & E')]; [done| | |].
  - apply Forall_forall. intros p Hin. apply Pt in Hin. assert (Hlt : (p < length (t_parts t))%nat).
    { rewrite <- Pe1. apply lookup_lt_is_Some. unfold boundary in Hin. destruct (base !! p); [done|]. done. }
    split; [done|]. destruct (lookup_lt_is_Some_2 _ _ Hlt) as [x Hx]. specialize (Pw p x Hx).
    unfold parts_fit in Hf. rewrite Forall_lookup in Hf. specialize (Hf p x Hx). unfold fits. lia.
  - by left.
  - right. split; [done|]. exists hs', base, touched, s1. split; [done|]. split; [|split; [|done]].
    + eapply pending_same; [done|]. by eapply passed_same.
    + rewrite E', Ps. done.
Qed.

(** ** The barrier at the end of a call *)

Lemma finish gone s hs a : ready s hs a ->
  let '(rc, s') := stream_wait_durable_locked s (ss_wal_seq s) in
  (rc = 0 \/ rc = -1) /\ ss_topics s' = ss_topics s /\ outcome gone hs a s' (rc = 0).
Proof.
  intros [M L Hh F P]. pose proof (wait_spec s hs a L F) as W. destruct (stream_wait_durable_locked s _) as [rc s'].
  destruct W as [My [(-> & F' & L')|(-> & F' & D)]].
  - split; [by left|]. split; [apply My|]. apply (outcome_weaken _ _ _ _ True); [done|].
    apply outcome_acked; [apply L|]. constructor; try done; [by eapply mem_ok_memory|by rewrite (my_topics _ _ My)|].
    unfold persisted. by rewrite (my_topics _ _ My).
  - split; [by right|]. split; [apply My|]. apply (outcome_weaken _ _ _ _ False); [done|]. by apply outcome_failed.
Qed.

End StreamFlight.
