(* ===== verification/StreamSteps.v ===== *)
(** * Every call of the stream engine keeps the log and the memory together

    For each operation: what it leaves is ready for the next call or has
    failed, and in both cases every crash brings back a durable state not
    older than the last acknowledged one. *)

From stdpp Require Import base numbers option list.
From S2P Require Import Prelude Crc Stream StreamLog StreamOps StreamSpec StreamRetain StreamEvents StreamMem.
From S2P Require Import StreamCodec StreamCompact StreamDisk StreamFlight.
Import Stream StreamLog StreamOps StreamSpec StreamRetain StreamEvents StreamSame StreamMem StreamCodec StreamReopen StreamCompact StreamDisk StreamTrace StreamFlight.

Module StreamSteps.

(** Room for the records of one more call below the width of the counters. *)
Definition roomy (t : topic) : Prop :=
  t_revision t < 2 ^ 64 /\ Forall (fun x => p_next x + STREAM_FETCH_MAX < 2 ^ 64) (t_parts t).

Lemma roomy_bounded l : Forall roomy l -> Forall bounded l.
Proof.
  intros H. eapply Forall_impl; [done|]. intros t [Hr Hx]. split; [done|]. eapply Forall_impl; [done|]. intros x.
  cbn. unfold STREAM_FETCH_MAX. lia.
Qed.

(** Something holds of later durable states. *)
Definition reaching (gone : bytes -> Prop) (hs : list (list topic)) (a : nat) (K : list (list topic) -> nat -> Prop) : Prop :=
  exists hs' a', grows gone hs hs' /\ (a <= a')%nat /\ K hs' a'.

Lemma reaching_now gone hs a (K : list (list topic) -> nat -> Prop) : K hs a -> reaching gone hs a K.
Proof. intros H. exists hs, a. split; [constructor|done]. Qed.

(** Starts a call: the test it begins with. *)
Lemma begun {A} gone s hs a (fail f : sstore -> A) (K : A -> list (list topic) -> nat -> Prop) : ready s hs a ->
  Forall roomy (ss_topics s) -> (forall s0 hs a, outcome gone hs a s0 False -> K (fail s0) hs a) ->
  (forall s0 hs0 a0, ready s0 hs0 a0 -> ss_topics s0 = ss_topics s -> reaching gone hs0 a0 (K (f s0))) ->
  let r := match begin s with (false, s) => fail s | (true, s) => f s end in reaching gone hs a (K r).
Proof.
  intros R Hr Hn Hf. pose proof (begin_spec gone s hs a R (roomy_bounded _ Hr)) as B. destruct (begin s) as [[|] s0]; cbn.
  - destruct B as (hs0 & a0 & G & Ha & R0 & E). destruct (Hf s0 hs0 a0 R0 E) as (hs1 & a1 & G1 & Ha1 & H).
    exists hs1, a1. split; [by eapply grows_trans|]. split; [lia|done].
  - apply reaching_now. by apply Hn.
Qed.

Lemma reaching_outcome gone hs a s' acked : reaching gone hs a (fun hs a => outcome gone hs a s' acked) -> outcome gone hs a s' acked.
Proof. intros (hs' & a' & G & Ha & H). by eapply outcome_after. Qed.

Lemma began gone s hs a (f : sstore -> Z * sstore) (acked : Z * sstore -> Prop) : ready s hs a -> Forall roomy (ss_topics s) ->
  (forall s0, ~ acked (-1, s0)) ->
  (forall s0 hs0 a0, ready s0 hs0 a0 -> ss_topics s0 = ss_topics s -> outcome gone hs0 a0 (f s0).2 (acked (f s0))) ->
  let r := match begin s with (false, s) => (-1, s) | (true, s) => f s end in outcome gone hs a r.2 (acked r).
Proof.
  intros R Hr Hn Hf. apply reaching_outcome.
  apply (begun gone s hs a (fun s => (-1, s)) f (fun r hs a => outcome gone hs a r.2 (acked r))); [done|done| |].
  - intros s0 hs0 a0 H. eapply outcome_weaken; [|done]. apply Hn.
  - intros s0 hs0 a0 R0 E. apply reaching_now. by apply Hf.
Qed.

(** A refusal. *)
Lemma refused gone s hs a (P : Prop) : ready s hs a -> ~ P -> outcome gone hs a s P.
Proof. intros R H. eapply outcome_weaken; [exact H|]. by apply outcome_ready. Qed.

(** A failure on the way. *)
Lemma fell gone s hs a (P : Prop) : broken gone hs a s -> ~ P -> outcome gone hs a s P.
Proof. intros R H. eapply outcome_weaken; [exact H|]. by apply broken_outcome. Qed.

(** The barrier. *)
Lemma finished gone s hs a hs' : grows gone hs hs' -> ready s hs' a ->
  let r := stream_wait_durable_locked s (ss_wal_seq s) in outcome gone hs a r.2 (r.1 = 0).
Proof.
  intros G R. pose proof (finish gone s hs' a R) as K. destruct (stream_wait_durable_locked s _) as [rc s'].
  cbn. destruct K as (_ & _ & K). by eapply outcome_after.
Qed.

Lemma pending_done s t u hs a v n : pending s t u hs a -> topic_ok v -> t_name v = t_name t -> t_id_persisted v = true ->
  n = topic_live v - topic_live t -> tsame eq u v -> ready (set_topic (add_live s n) v) hs a.
Proof. intros H Hv En Hp Hn Hs. eapply pending_ready; [by eapply pending_memory|done]. Qed.

(** ** Topics *)

Lemma add_topic_old s name parts maxb age t : find_topic (ss_topics s) name = Some t ->
  exists rc, add_topic s name parts maxb age = (rc, s).
Proof. intros E. unfold add_topic. rewrite E. destruct (_ || _); eexists; done. Qed.

Lemma declare_records gone s s1 hs a name parts maxb age id : ready s hs a -> mem_ok s1 -> fixed s s1 ->
  ss_topics s1 = new_topic name parts maxb age id :: ss_topics s -> find_topic (ss_topics s) name = None ->
  ev_ok (EDeclare name parts maxb age) -> ev_ok (EIdentity name id) ->
  let '(wr, s2) := log_record s1 S_DECLARE (declare_body name parts maxb age) in
  let '(wr, s3) := if wr =? 0 then log_record s2 S_IDENTITY (identity_body name id) else (wr, s2) in
  (wr = -1 /\ broken gone hs a s3) \/
  (wr = 0 /\ memory s1 s3 /\ ss_failed s3 = false /\ exists hs', grows gone hs hs' /\ live s3 hs' a /\
    holds hs' (identity_topic (new_topic name parts maxb age []) id :: ss_topics s)).
Proof.
  intros [M L Hh F P] M1 Fx Et En Hd Hi. pose proof Fx as [X1 X2 X3 X4 X5 [X6 _] (X7 & X8 & _) _].
  set (t0 := new_topic name parts maxb age []).
  assert (L1 : live s1 hs a) by (by eapply live_fields).
  assert (E1 : effect (EDeclare name parts maxb age) (ss_topics s) = Some (t0 :: ss_topics s)) by (cbn; by rewrite En).
  pose proof (topics_ok_regular _ (mo_topics _ M)) as R0.
  destruct (log_event gone s1 hs a _ _ _ L1 (mo_allocs _ M1) Hd ltac:(done) R0 Hh E1) as (m1 & G1 & H1 & K1).
  cbn [ev_record fst snd] in K1. destruct (log_record s1 S_DECLARE _) as [wr s2].
  destruct K1 as (A1 & D1 & [(-> & F1 & L2)|(-> & F1)]); cbn [Z.eqb]; [|left; split; [done|]; by exists (hs ++ [m1])].
  pose proof (effect_regular _ _ _ (ev_ok_nat _ Hd) R0 E1) as R1.
  assert (E2 : effect (EIdentity name id) (t0 :: ss_topics s) = Some (identity_topic t0 id :: ss_topics s)).
  { cbn [effect]. unfold on_topic. rewrite find_topic_cons, decide_True by done. cbn [fmap option_fmap option_map].
    by rewrite put_topic_cons, decide_True. }
  assert (A2 : ss_allocs s2 = []) by (rewrite (my_allocs _ _ (ap_memory _ _ A1)); apply M1).
  destruct (log_event gone s2 _ a _ _ _ L2 A2 Hi ltac:(done) R1 H1 E2) as (m2 & G2 & H2 & K2).
  cbn [ev_record fst snd] in K2. destruct (log_record s2 S_IDENTITY _) as [wr s3].
  pose proof (grows_trans _ _ _ _ G1 G2) as G.
  destruct K2 as (A3 & D2 & [(-> & F2 & L3)|(-> & F2)]); [right|left; split; [done|]; by exists ((hs ++ [m1]) ++ [m2])].
  split; [done|]. split; [etransitivity; [apply A1|apply A3]|]. split; [congruence|]. by exists ((hs ++ [m1]) ++ [m2]).
Qed.

Lemma declare_step gone s hs a name parts maxb age : ready s hs a -> Forall roomy (ss_topics s) ->
  bytes_ok name -> fits 64 maxb -> fits 64 age -> 0 <= parts ->
  let r := stream_declare s name parts maxb age in
  outcome gone hs a r.2 (r.1 = 0 /\ find_topic (ss_topics s) name = None).
Proof.
  intros R0 Hr Hn Hm Ha Hp. unfold stream_declare. rewrite (lv_open _ _ _ (rd_live _ _ _ R0)). cbn [negb].
  apply (began gone s hs a _ (fun r => r.1 = 0 /\ find_topic (ss_topics s) name = None)); [done|done|by intros ? [? _]|].
  clear R0 Hr hs a. intros s0 hs a R Es. rewrite <- Es. pose proof R as [M L Hh F P].
  destruct (find_topic (ss_topics s0) name) as [t|] eqn:En.
  { destruct (add_topic_old s0 name parts maxb age t En) as [rc ->]. destruct (negb (rc =? 0)); apply refused; try done; by intros [_ ?]. }
  destruct (decide (0 < zlen name <= 255 /\ 0 < parts <= STREAM_PARTITIONS_MAX)) as [[Hl Hpp]|Hbad].
  2: { assert (add_topic s0 name parts maxb age = (-1, s0)) as ->; [|apply refused; [done|by intros [? _]]].
    unfold add_topic. destruct (Z.eqb_spec (zlen name) 0), (Z.ltb_spec STREAM_NAME_MAX (zlen name)), (Z.eqb_spec parts 0),
      (Z.ltb_spec STREAM_PARTITIONS_MAX parts); try done. pose proof (zlen_nonneg name). unfold STREAM_NAME_MAX in *. lia. }
  assert (Hs : short_name name) by done.
  destruct (add_topic_new s0 name parts maxb age M Hs Hpp Hm Ha En) as (id & s1 & E1 & M1 & Fx & Et). rewrite E1. cbn [Z.eqb negb].
  set (t := new_topic name parts maxb age id) in *.
  assert (Ef : find_topic (ss_topics s1) name = Some t) by (rewrite Et, find_topic_cons; by rewrite decide_True).
  rewrite Ef. pose proof (mo_allocs _ M1) as A. sallocs A. destruct (topic_of s1 name t M1 Ef) as [Ht _].
  pose proof (short_len _ Hs).
  assert (Hd : ev_ok (EDeclare name parts maxb age)) by (split; [done|split; [small_record|done]]).
  assert (Hi : ev_ok (EIdentity name id)).
  { split; [done|]. destruct (to_id _ Ht) as [I1 I2]. cbn in I1, I2. unfold STREAM_ID_LEN in *. split; [small_record|done]. }
  pose proof (declare_records gone s0 s1 hs a name parts maxb age id R M1 Fx Et En Hd Hi) as K.
  change (t_id t) with id. destruct (log_record s1 S_DECLARE _) as [wr s2].
  destruct (if wr =? 0 then log_record s2 S_IDENTITY _ else (wr, s2)) as [wr' s3].
  destruct K as [(-> & B)|(-> & My & F3 & hs' & G & L' & H')]; cbn [Z.eqb negb]; [apply fell; [done|by intros [? _]]|].
  set (t' := {| t with t_id_persisted := true |}). eapply outcome_weaken; [|apply (finished gone _ hs a hs' G)]; [by intros [? _]|].
  change (ready (set_topic (add_live s3 (identity_live t)) t') hs' a).
  pose proof My as [Y1 Y2 Y3 Y4 Y5].
  assert (M3 : mem_ok s3) by (by eapply mem_ok_memory).
  assert (Ep : put_topic (ss_topics s3) t' = t' :: ss_topics s0) by (rewrite Y1, Et, put_topic_cons; by rewrite decide_True).
  constructor.
  - apply (put_ok s3 t t'); [done|by rewrite Y1|done| |].
    + destruct Ht. by constructor.
    + symmetry. exact (identity_topic_live t (t_id t)).
  - by eapply live_fields.
  - cbn [set_topic add_live ss_topics]. rewrite Ep. destruct H' as (m & Hl' & S). exists m. split; [done|]. etransitivity; [exact S|].
    intros k. rewrite !find_topic_cons. destruct (decide (t_name _ = k)) as [Ek|Ek].
    + constructor. by constructor.
    + destruct (find_topic (ss_topics s0) k); by constructor.
  - done.
  - unfold persisted. cbn [set_topic add_live ss_topics]. rewrite Ep. by constructor.
Qed.

Lemma roomy_part l name t p x : Forall roomy l -> find_topic l name = Some t -> t_parts t !! p = Some x ->
  p_next x + STREAM_FETCH_MAX < 2 ^ 64.
Proof.
  intros H E Hx. apply find_topic_name in E as [_ Hin]. rewrite Forall_forall in H. destruct (H t Hin) as [_ Hp].
  rewrite Forall_lookup in Hp. exact (Hp p x Hx).
Qed.

Lemma part_at_ok t p x : topic_ok t -> t_parts t !! p = Some x -> part_ok (zlen (t_name t)) x /\ (p < length (t_parts t))%nat.
Proof.
  intros H Hx. split; [|by eapply lookup_lt_Some]. pose proof (to_each _ H) as He. rewrite Forall_lookup in He. eauto.
Qed.

Lemma index_of t p x : topic_ok t -> 0 <= p -> t_parts t !! Z.to_nat p = Some x -> fits 32 p /\ p < t_partitions t.
Proof.
  intros H Hp Hx. destruct (part_at_ok _ _ _ H Hx) as [_ Hl]. pose proof (index_fits t (Z.to_nat p) H Hl) as Hf.
  rewrite Z2Nat.id in Hf by done. split; [done|]. unfold t_partitions, zlen. lia.
Qed.

Lemma truncate_step gone s hs a name p base expected : ready s hs a -> Forall roomy (ss_topics s) -> 0 <= p ->
  let r := stream_truncate_if_revision s name p base expected in outcome gone hs a r.2 (r.1 = 0).
Proof.
  intros R0 Hr Hp. unfold stream_truncate_if_revision.
  apply (began gone s hs a _ (fun r => r.1 = 0)); [done|done|done|]. clear R0 hs a. intros s0 hs a R Es. pose proof R as [M L Hh F P].
  destruct (find_topic (ss_topics s0) name) as [t|] eqn:En; [|by apply refused].
  destruct (t_parts t !! Z.to_nat p) as [x|] eqn:Hx; [|by apply refused].
  destruct (negb (t_revision t =? expected)); [by apply refused|].
  destruct (Z.ltb_spec base (p_base x)) as [|H1], (Z.ltb_spec (p_next x) base) as [|H2]; cbn [orb]; [by apply refused..|].
  pose proof (mo_allocs _ M) as A. sallocs A. pose proof (ready_pending _ _ _ _ _ R En) as Pd.
  destruct (topic_of s0 name t M En) as [Hk Nt]. destruct (part_at_ok _ _ _ Hk Hx) as [Hxk _].
  destruct (index_of _ _ _ Hk Hp Hx) as [Hf Hlt]. rewrite <- Es in Hr. pose proof (roomy_part _ _ _ _ _ Hr En Hx) as Hroom.
  pose proof (po_base _ _ Hxk). unfold STREAM_FETCH_MAX in Hroom.
  assert (He : ev_ok (ETrim name p base)) by (apply trim_ev_ok; [rewrite <- Nt; apply Hk|done|unfold fits; lia]).
  pose proof (pending_log gone s0 t t hs a (ETrim name p base) (trim_event p base) (trim_topic t (Z.to_nat p) base) Pd
    (topic_ok_sound t Hk) He) as K. cbn [ev_change ev_record fst snd] in K. rewrite Nt in K.
  destruct (log_record s0 S_TRIM _) as [rc s1]. destruct K as [(-> & B)|(-> & hs' & G & Pd' & _)]; [done| | |].
  - unfold trim_event. destruct (Z.leb_spec (t_partitions t) p); [lia|done].
  - cbn [Z.eqb negb]. by apply fell.
  - cbn [Z.eqb negb trim_part]. apply (finished gone _ hs a hs' G). eapply pending_done; [done| |done| | |done].
    + apply trim_topic_ok; [done|lia].
    + exact (pending_flag _ _ _ _ _ Pd).
    + rewrite trim_topic_live. lia.
Qed.

Lemma parts_fit_of l name t : Forall roomy l -> find_topic l name = Some t -> parts_fit t.
Proof.
  intros H E. apply Forall_lookup. intros p x Hx. pose proof (roomy_part _ _ _ _ _ H E Hx). unfold STREAM_FETCH_MAX in *. lia.
Qed.

(** Retention and the barrier, at the end of a call. *)
Lemma enforced gone s t hs a now : pending s t t hs a -> parts_fit t ->
  let '(rc, s1, t1) := enforce s t true now in
  (rc = -1 /\ outcome gone hs a (set_topic s1 t1) False) \/
  (rc = 0 /\ let '(rc, s2) := stream_wait_durable_locked (set_topic s1 t1) (ss_wal_seq (set_topic s1 t1)) in
    outcome gone hs a s2 (rc = 0)).
Proof.
  intros H Hf. pose proof (enforce_spec gone s t hs a now H Hf) as K. destruct (enforce s t true now) as [[rc s'] t'].
  destruct K as [(-> & B)|(-> & hs' & base & touched & s1 & G & H' & Es & Ps)].
  - left. split; [done|]. by apply broken_outcome, broken_set.
  - right. split; [done|]. assert (R : ready (set_topic s' t') hs' a) by (by apply (pending_ready _ _ _ _ _ H')).
    pose proof (finished gone _ hs a hs' G R) as W. by destruct (stream_wait_durable_locked _ _) as [rc s2].
Qed.

Lemma set_retention_step gone s hs a name maxb age expected now : ready s hs a -> Forall roomy (ss_topics s) ->
  fits 64 maxb -> fits 64 age ->
  let r := stream_set_retention_if_revision s name maxb age expected now in outcome gone hs a r.2 (r.1 = 0).
Proof.
  intros R0 Hr Hm Ha. unfold stream_set_retention_if_revision. destruct (_ || _ || _); [by apply refused|].
  apply (began gone s hs a _ (fun r => r.1 = 0)); [done|done|done|]. clear R0 hs a. intros s0 hs a R Es. pose proof R as [M L Hh F P].
  destruct (find_topic (ss_topics s0) name) as [t|] eqn:En; [|by apply refused].
  destruct (negb (t_revision t =? expected)); [by apply refused|]. pose proof (mo_allocs _ M) as A. sallocs A.
  pose proof (ready_pending _ _ _ _ _ R En) as Pd. destruct (topic_of s0 name t M En) as [Hk Nt].
  pose proof (short_len _ (to_name _ Hk)) as Hl. rewrite Nt in Hl.
  assert (He : ev_ok (ERetention name maxb age)) by (split; [rewrite <- Nt; apply Hk|split; [small_record|done]]).
  pose proof (pending_log gone s0 t t hs a (ERetention name maxb age) (fun t => Some (retention_topic t maxb age))
    (retention_topic t maxb age) Pd (topic_ok_sound t Hk) He) as K. cbn [ev_change ev_record fst snd] in K. rewrite Nt in K.
  destruct (log_record s0 S_RETENTION _) as [rc s1]. destruct K as [(-> & B)|(-> & hs' & G & Pd' & _)]; [done|done| |].
  - cbn [Z.eqb negb]. by apply fell.
  - cbn [Z.eqb negb]. eapply outcome_after; [exact G|done|].
    assert (Pd2 : pending s1 (retention_topic t maxb age) (retention_topic t maxb age) hs' a); [|
      pose proof (enforced gone s1 _ hs' a now Pd2 ltac:(rewrite <- Es in Hr; exact (parts_fit_of _ _ _ Hr En))) as K;
      change ({| t with t_max_bytes := maxb; t_max_age_ms := age; t_revision := t_revision t + 1 |})
        with (retention_topic t maxb age);
      destruct (enforce s1 (retention_topic t maxb age) true now) as [[rc s2] t2];
      destruct K as [(-> & K)|(-> & K)]; cbn [Z.eqb negb]; [by apply (outcome_weaken _ _ _ _ False)|];
      by destruct (stream_wait_durable_locked _ _)].
    rewrite <- (add_live_0 s1). apply (pending_memory s1 t); try done.
    + destruct Hk. constructor; cbn; try done. lia.
    + exact (pending_flag _ _ _ _ _ Pd).
    + rewrite (topic_live_as t); [|done..]. cbn. lia.
Qed.

Lemma removed_all (P : topic -> Prop) l name : Forall P l -> Forall P (remove_topic l name).
Proof. rewrite !Forall_forall. intros H x Hx. apply H. by eapply remove_sub. Qed.

Lemma delete_step (gone : bytes -> Prop) s hs a name expected : ready s hs a -> Forall roomy (ss_topics s) -> gone name ->
  let r := stream_delete_if_revision s name expected in outcome gone hs a r.2 (r.1 = 0).
Proof.
  intros R0 Hr Hg. unfold stream_delete_if_revision. destruct (_ || _ || _); [by apply refused|].
  apply (began gone s hs a _ (fun r => r.1 = 0)); [done|done|done|]. clear R0 hs a. intros s0 hs a R Es. pose proof R as [M L Hh F P].
  destruct (find_topic (ss_topics s0) name) as [t|] eqn:En; [|by apply refused].
  destruct (negb (t_revision t =? expected)); [by apply refused|]. destruct (topic_of s0 name t M En) as [Hk Nt].
  pose proof (short_len _ (to_name _ Hk)) as Hl. rewrite Nt in Hl.
  assert (He : ev_ok (EDelete name)) by (split; [rewrite <- Nt; apply Hk|split; [small_record|done]]).
  assert (E : effect (EDelete name) (ss_topics s0) = Some (remove_topic (ss_topics s0) name)) by (cbn; by rewrite En).
  destruct (log_event gone s0 hs a _ _ _ L (mo_allocs _ M) He ltac:(by intros n [= <-]) (topics_ok_regular _ (mo_topics _ M)) Hh E)
    as (m1 & G & Hh' & K). cbn [ev_record fst snd] in K. destruct (log_record s0 S_DELETE _) as [rc s1].
  destruct K as ([My1 _ _] & D & [(-> & F1 & L1)|(-> & F1)]); cbn [Z.eqb negb]; [|apply fell; [by exists (hs ++ [m1])|done]].
  assert (F1' : ss_failed s1 = false) by congruence. pose proof (wait_spec s1 _ a L1 F1') as W. destruct (stream_wait_durable_locked s1 _) as [rc s2].
  destruct W as [My2 [(-> & F2 & L2)|(-> & F2 & D2)]]; cbn [Z.eqb negb]; [|apply fell; [by exists (hs ++ [m1])|done]].
  eapply outcome_after; [exact G|done|]. apply (outcome_weaken _ _ _ _ True); [done|].
  apply outcome_acked; [rewrite length_app; apply Nat.lt_lt_add_r, L|].
  assert (My : memory s0 s2) by (by etransitivity). pose proof (my_topics _ _ My) as Et. constructor.
  - apply unlink_ok; [by eapply mem_ok_memory|]. by rewrite Et, Nt.
  - by eapply live_fields.
  - cbn. by rewrite Et, Nt.
  - done.
  - unfold persisted. cbn. rewrite Et. by apply removed_all.
Qed.

(** ** Appends *)

Lemma choose_nat t hint key : topic_ok t -> 0 <= hint -> 0 <= choose_partition t hint key.
Proof.
  intros H Hh. unfold choose_partition. destruct (hint =? UINT32_MAX); [|done]. destruct (zlen key =? 0); [done|].
  apply Z.mod_pos_bound, H.
Qed.

Lemma append_fits (name key body : bytes) : 0 < zlen name <= 255 -> fits 16 (zlen key) ->
  (RECORD_MAX <? zlen body) || (u32 (RECORD_MAX - 26 - zlen name - (if zlen key =? 0 then 0 else 2 + zlen key)) <? zlen body) = false ->
  stored_size (zlen name) key body <= RECORD_MAX.
Proof.
  intros Hn Hk [_ H]%orb_false_iff. apply Z.ltb_ge in H. pose proof (zlen_nonneg key). unfold fits in Hk.
  unfold stored_size, RECORD_MAX in *. change (Z.shiftl 64 20) with 67108864 in *.
  rewrite u32_small in H by (unfold fits; destruct (_ =? 0); lia). destruct (Z.eqb_spec (zlen key) 0); lia.
Qed.

Lemma linked_fit t p r n : Forall (fun x => p_next x + n < 2 ^ 64) (t_parts t) -> 0 < n ->
  Forall (fun x => p_next x + (n - 1) < 2 ^ 64) (t_parts (link_topic t p r)).
Proof.
  intros H Hn. apply Forall_alter_at; [|intros x Hx _; cbn; rewrite Forall_lookup in H; specialize (H p x Hx); lia].
  eapply Forall_impl; [done|]. cbn. lia.
Qed.

Lemma roomy_parts l name t : Forall roomy l -> find_topic l name = Some t ->
  Forall (fun x => p_next x + STREAM_FETCH_MAX < 2 ^ 64) (t_parts t).
Proof. intros H E. apply Forall_lookup. intros p x Hx. by eapply roomy_part. Qed.

(** What a caller passes. *)
Definition record_args (key body : bytes) (at_ : Z) : Prop :=
  bytes_ok key /\ bytes_ok body /\ fits 16 (zlen key) /\ fits 64 at_.

(** The record is retained, or the partition has been trimmed past it. *)
Definition stored (l : list topic) (name : bytes) (p : Z) (r : srec) : Prop := exists t x,
  find_topic l name = Some t /\ t_parts t !! Z.to_nat p = Some x /\ (r ∈ p_recs x \/ r_offset r < p_base x).

(** A record of the topic the durable state has. *)
Lemma pending_stored s t u hs a p x r : pending s t u hs a -> t_parts u !! Z.to_nat p = Some x -> r ∈ p_recs x ->
  exists m, last hs = Some m /\ stored m (t_name t) p r.
Proof.
  intros [_ _ (m & Hl & S) _ _ [t0 I] N] Hx Hr. exists m. split; [done|].
  assert (Eu : find_topic (put_topic (ss_topics s) u) (t_name t) = Some u).
  { rewrite find_put, N, decide_True by done. by rewrite I. }
  destruct (same_found_r later _ _ _ _ S Eu) as (tm & Em & Sm). pose proof (part_same later _ _ (Z.to_nat p) Sm) as Hp.
  rewrite Hx in Hp. inversion Hp as [y x' Hy E1 E2|]; subst. exists tm, y. split; [done|]. split; [done|]. left.
  destruct Hy as (g & -> & _). apply elem_of_app. by right.
Qed.

(** After the record of an append: its records are linked, retention and the
    barrier follow. *)
Lemma store_finish gone s t t' hs a now : pending s t t' hs a -> topic_ok t' -> t_id_persisted t' = true -> parts_fit t' ->
  let '(rc, s1, t1) := enforce (add_live s (topic_live t' - topic_live t)) t' true now in
  (rc = -1 /\ outcome gone hs a (set_topic s1 t1) False) \/
  (rc = 0 /\ let '(rc, s2) := stream_wait_durable_locked (set_topic s1 t1) (ss_wal_seq (set_topic s1 t1)) in
    outcome gone hs a s2 (rc = 0)).
Proof.
  intros Pd Hk Hp Hf. apply enforced; [|done]. apply (pending_memory s t); try done. exact (pd_name _ _ _ _ _ Pd).
Qed.

(** The record of an append, by the topic it goes to. *)
Lemma append_event t name hint key body at_ x l : topic_ok t -> t_name t = name -> Forall roomy l -> find_topic l name = Some t ->
  0 <= hint -> record_args key body at_ -> t_parts t !! Z.to_nat (choose_partition t hint key) = Some x ->
  stored_size (zlen name) key body <= RECORD_MAX ->
  let r := SRec (p_next x) at_ body key in
  rec_ok (zlen name) r /\ ev_ok (EAppend name (choose_partition t hint key) r) /\
  parts_fit (link_topic t (Z.to_nat (choose_partition t hint key)) r).
Proof.
  intros Hk Nt Hr En Hh (Hkb & Hbb & Hkl & Hat) Hx Hz r. destruct (part_at_ok _ _ _ Hk Hx) as [Hxk _].
  destruct (index_of t _ x Hk (choose_nat t hint key Hk Hh) Hx) as [Hf _]. pose proof (roomy_part _ _ _ _ _ Hr En Hx) as Hroom.
  pose proof (po_base _ _ Hxk). pose proof (po_next _ _ Hxk). pose proof (zlen_nonneg (p_recs x)). unfold STREAM_FETCH_MAX in Hroom.
  pose proof (to_name _ Hk) as Hsn. rewrite Nt in Hsn. assert (Hrec : rec_ok (zlen name) r) by (by constructor).
  split; [done|]. split; [apply append_ev_ok; try done; unfold fits; cbn; lia|].
  eapply Forall_impl; [exact (linked_fit t _ r _ (roomy_parts _ _ _ Hr En) ltac:(done))|]. cbn. unfold STREAM_FETCH_MAX. lia.
Qed.

Lemma append_step gone s hs a name hint key body at_ now : ready s hs a -> Forall roomy (ss_topics s) ->
  0 <= hint -> record_args key body at_ ->
  let r := stream_append s name hint key body at_ now in
  reaching gone hs a (fun hs a => outcome gone hs a r.2 (r.1.1 = 0) /\
    (r.1.1 = 0 -> exists p off m, r.1.2 = Some (p, off) /\ last hs = Some m /\ stored m name p (SRec off at_ body key))).
Proof.
  intros R0 Hr Hh0 Harg. unfold stream_append. destruct ((RECORD_MAX <? zlen body) || _) eqn:Esz; [apply reaching_now; by split; [apply refused|]|].
  apply (begun gone s hs a (fun s => (-1, None, s)) _ (fun r hs a => outcome gone hs a r.2 (r.1.1 = 0) /\
    (r.1.1 = 0 -> exists p off m, r.1.2 = Some (p, off) /\ last hs = Some m /\ stored m name p (SRec off at_ body key)))); [done|done| |].
  { intros s0 hs0 a0 H. split; [by apply (outcome_weaken _ _ _ _ False)|done]. }
  clear R0 hs a. intros s0 hs a R Es. pose proof R as [M L Hh F P]. rewrite <- Es in Hr.
  destruct (find_topic (ss_topics s0) name) as [t|] eqn:En; [|apply reaching_now; by split; [apply refused|]].
  destruct (topic_of s0 name t M En) as [Hk Nt]. pose proof (to_name _ Hk) as Hsn. rewrite Nt in Hsn.
  set (p := choose_partition t hint key). destruct (t_parts t !! Z.to_nat p) as [x|] eqn:Hx; [|apply reaching_now; by split; [apply refused|]].
  pose proof (append_fits name key body (short_len _ Hsn) ltac:(apply Harg) Esz) as Hz.
  destruct (append_event t name hint key body at_ x _ Hk Nt Hr En Hh0 Harg Hx Hz) as (Hrec & He & Hfit).
  fold p in He, Hfit. set (r := SRec (p_next x) at_ body key) in *.
  pose proof (mo_allocs _ M) as A. sallocs A. pose proof (ready_pending _ _ _ _ _ R En) as Pd.
  assert (Hlink : link_event p r t = Some (link_topic t (Z.to_nat p) r)) by (unfold link_event; by rewrite Hx, Z.eqb_refl).
  pose proof (pending_log gone s0 t t hs a (EAppend name p r) (link_event p r) _ Pd (topic_ok_sound t Hk) He ltac:(by rewrite Nt) Hlink) as K.
  cbn [ev_record fst snd r_key r_offset r_at_ms r_body r] in K.
  destruct (log_record s0 _ _) as [rc s1]. destruct K as [(-> & B)|(-> & hs' & G & Pd' & E1)]; cbn [Z.eqb negb].
  { apply reaching_now. by split; [apply fell|]. }
  assert (A1 : ss_allocs s1 = []) by (apply (mo_allocs _ (pd_mem _ _ _ _ _ Pd'))).
  destruct (append_memory_ok s1 t p x r A1 Hk Hx eq_refl ltac:(by rewrite Nt)) as [Ea Hl].
  cbn [r_key r_offset r_at_ms r_body r] in Ea. fold r in Ea. rewrite Ea. cbn [Z.eqb negb].
  pose proof (store_finish gone s1 t _ hs' a now Pd' Hl (pending_flag _ _ _ _ _ Pd) Hfit) as K.
  destruct (enforce _ _ true now) as [[rc s2] t2]. exists hs', a. split; [done|]. split; [done|].
  destruct K as [(-> & K)|(-> & K)]; cbn [Z.eqb negb]; [split; [by apply (outcome_weaken _ _ _ _ False)|done]|].
  destruct (stream_wait_durable_locked _ _) as [rc s3]. split; [done|]. intros _. cbn [fst snd].
  destruct (pending_stored s1 t _ hs' a p (link_part r x) r Pd') as (m & Hl' & Hst);
    [cbn; by rewrite list_lookup_alter, decide_True, Hx|cbn; apply elem_of_app; right; by left|].
  rewrite Nt in Hst. by exists p, (p_next x), m.
Qed.

(** ** Batches *)

Definition plain_size (r : srec) : Z := 24 + zlen (r_body r) + zlen (r_key r).

Definition room (n : Z) (t : topic) : Prop := Forall (fun x => p_next x + n < 2 ^ 64) (t_parts t).

(** What the items of a batch are, for the topic [tv] they go to. *)
Record placed (tv u : topic) (inputs : list (bytes * bytes)) (items : list (Z * srec)) (size size' n : Z) : Prop := Placed {
  pl_links : link_events items tv = Some u;
  pl_ok : topic_ok u;
  pl_name : t_name u = t_name tv /\ t_id_persisted u = t_id_persisted tv;
  pl_room : room (n - zlen inputs) u;
  pl_size : size' = size + zsum (fun i => plain_size i.2) items;
  pl_max : items = [] \/ size' <= RECORD_MAX;
  pl_items : Forall (item_ok true) items;
  pl_keys : (fun i => (r_key i.2, r_body i.2)) <$> items = inputs }.

Lemma place_one t tv hint key body at_ size n x : topic_ok tv -> t_partitions t = t_partitions tv ->
  0 <= choose_partition t hint key -> record_args key body at_ ->
  6 + zlen (t_name tv) <= size -> (24 + zlen body + zlen key <= RECORD_MAX - size) -> room n tv -> 0 < n ->
  t_parts tv !! Z.to_nat (choose_partition t hint key) = Some x ->
  let r := SRec (p_next x) at_ body key in let p := choose_partition t hint key in
  topic_ok (link_topic tv (Z.to_nat p) r) /\ item_ok true (p, r) /\ room (n - 1) (link_topic tv (Z.to_nat p) r).
Proof.
  intros Hk Ep Hc (Hkb & Hbb & Hkl & Hat) Hs Hz Hr Hn Hx r p. destruct (part_at_ok _ _ _ Hk Hx) as [Hxk _].
  destruct (index_of tv p x Hk Hc Hx) as [Hf _]. pose proof (po_base _ _ Hxk). pose proof (po_next _ _ Hxk).
  pose proof (zlen_nonneg (p_recs x)). pose proof (zlen_nonneg key). pose proof (zlen_nonneg body).
  pose proof (zlen_nonneg (t_name tv)).
  assert (Hrec : rec_ok (zlen (t_name tv)) r).
  { constructor; [done|done|done|]. unfold stored_size, RECORD_MAX in *. cbn. destruct (_ =? 0); lia. }
  assert (Hroom : p_next x + n < 2 ^ 64) by (unfold room in Hr; rewrite Forall_lookup in Hr; by eapply Hr).
  split; [by eapply link_topic_ok|]. split; [eapply item_of; [exact Hrec|done|done|unfold fits; cbn; lia]|].
  by apply linked_fit.
Qed.

Lemma batch_place_spec t hint at_ inputs : forall s tv size n, ss_allocs s = [] -> topic_ok tv ->
  t_partitions t = t_partitions tv -> (forall key, 0 <= choose_partition t hint key) ->
  Forall (fun i => record_args i.1 i.2 at_) inputs -> 6 + zlen (t_name tv) <= size -> room n tv -> zlen inputs <= n ->
  let '(r, s') := batch_place s t hint at_ inputs (p_next <$> t_parts tv) size in
  s' = s /\ match r with Some (items, size') => exists u, placed tv u inputs items size size' n | None => True end.
Proof.
  induction inputs as [|[key body] inputs IH]; intros s tv size n A Hk Ep Hc Ha Hs Hr Hn; cbn [batch_place].
  { split; [done|]. exists tv. constructor; cbn; try done; [by rewrite zlen_nil, Z.sub_0_r|lia|by left]. }
  apply Forall_cons in Ha as [Ha Has]. rewrite zlen_cons in Hn. pose proof (zlen_nonneg inputs). cbn [fst snd] in Ha.
  destruct (Z.ltb_spec (RECORD_MAX - size) (24 + zlen body + zlen key)) as [|Hz]; [done|].
  rewrite list_lookup_fmap. destruct (t_parts tv !! Z.to_nat (choose_partition t hint key)) as [x|] eqn:Hx; cbn [fmap option_fmap option_map]; [|done].
  rewrite salloc_nil by done. cbn [negb]. set (p := choose_partition t hint key) in *. set (r := SRec (p_next x) at_ body key).
  destruct (place_one t tv hint key body at_ size n x Hk Ep (Hc key) Ha Hs Hz Hr ltac:(lia) Hx) as (Hk1 & Hi & Hr1).
  fold p r in Hk1, Hi, Hr1. pose proof (zlen_nonneg body). pose proof (zlen_nonneg key).
  assert (Enext : <[Z.to_nat p := p_next x + 1]> (p_next <$> t_parts tv) = p_next <$> t_parts (link_topic tv (Z.to_nat p) r)).
  { cbn [link_topic t_parts]. apply list_eq. intros j. rewrite !list_lookup_fmap, list_lookup_alter.
    destruct (decide (Z.to_nat p = j)) as [<-|Hj].
    - rewrite list_lookup_insert_eq by (rewrite length_fmap; by eapply lookup_lt_Some). by rewrite Hx.
    - by rewrite list_lookup_insert_ne, list_lookup_fmap. }
  rewrite Enext.
  specialize (IH s (link_topic tv (Z.to_nat p) r) (size + (24 + zlen body + zlen key)) (n - 1) A Hk1).
  destruct (batch_place s t hint at_ inputs _ _) as [[[items size']|] s'].
  all: destruct IH as [-> IH]; [rewrite Ep; unfold t_partitions; cbn; by rewrite zlen_alter|done|done|cbn; lia|done|lia|]; cbn [fmap option_fmap option_map]; split; [done|]; try done.
  destruct IH as (u & [I1 I2 [I3 I3'] I4 I5 I6 I7 I8]). exists u. constructor; try done.
  - cbn [link_events fst snd]. unfold link_event. by rewrite Hx, Z.eqb_refl.
  - rewrite zlen_cons. replace (n - (1 + zlen inputs)) with (n - 1 - zlen inputs) by lia. done.
  - cbn [zsum snd]. unfold plain_size at 1. cbn. lia.
  - right. destruct I6 as [->|]; [|done]. rewrite I5. cbn. lia.
  - by constructor.
  - cbn. by rewrite I8.
Qed.

Lemma link_items_spec items : forall s t u, link_events items t = Some u ->
  link_items s t items = (add_live s (topic_live u - topic_live t), u).
Proof.
  induction items as [|[p r] items IH]; intros s t u E; cbn [link_items].
  { injection E as <-. by rewrite Z.sub_diag, add_live_0. }
  cbn [link_events] in E. destruct (link_event p r t) as [v|] eqn:Ev; [|done].
  apply link_event_some in Ev as (x & Hx & Ho & ->). cbn [part_link]. rewrite (IH _ _ _ E), add_live_add.
  rewrite (link_topic_live t _ x r Hx). do 2 f_equal. lia.
Qed.

Lemma link_keeps p r t u q x r0 : link_event p r t = Some u -> t_parts t !! q = Some x -> r0 ∈ p_recs x ->
  exists x', t_parts u !! q = Some x' /\ r0 ∈ p_recs x'.
Proof.
  intros (y & Hy & Ho & ->)%link_event_some Hx Hr. cbn. rewrite list_lookup_alter, Hx.
  destruct (decide (Z.to_nat p = q)) as [->|]; [|by exists x]. rewrite Hx. exists (link_part r x). split; [done|]. cbn. apply elem_of_app. by left.
Qed.

Lemma links_keep items : forall t u q x r0, link_events items t = Some u -> t_parts t !! q = Some x -> r0 ∈ p_recs x ->
  exists x', t_parts u !! q = Some x' /\ r0 ∈ p_recs x'.
Proof.
  induction items as [|[p r] items IH]; intros t u q x r0 E Hx Hr; [injection E as <-; by exists x|].
  cbn [link_events] in E. destruct (link_event p r t) as [v|] eqn:Ev; [|done].
  destruct (link_keeps p r t v q x r0 Ev Hx Hr) as (x' & Hx' & Hr'). by apply (IH v u q x').
Qed.

Lemma links_recs items : forall t u p r, link_events items t = Some u -> (p, r) ∈ items ->
  exists x, t_parts u !! Z.to_nat p = Some x /\ r ∈ p_recs x.
Proof.
  induction items as [|[p r] items IH]; intros t u q r0 E; [by intros ?%not_elem_of_nil|].
  cbn [link_events] in E. destruct (link_event p r t) as [v|] eqn:Ev; [|done].
  intros [[= -> ->]|Hin]%elem_of_cons; [|by apply (IH v)]. apply link_event_some in Ev as (x & Hx & Ho & ->).
  apply (links_keep items _ _ _ (link_part r x) r E); [cbn; by rewrite list_lookup_alter, decide_True, Hx|].
  cbn. apply elem_of_app. right. by left.
Qed.

Lemma batch_len name keyed items : Forall (item_ok keyed) items ->
  zlen (batch_body name keyed items) = 6 + zlen name + zsum (fun i => plain_size i.2) items + (if keyed then 2 * zlen items else 0).
Proof.
  intros H. unfold batch_body. lens.
  enough (zlen (concat ((fun i => batch_item keyed i.1 i.2) <$> items)) =
    zsum (fun i => plain_size i.2) items + (if keyed then 2 * zlen items else 0)) by lia.
  induction H as [|[p r] items Hi His IH]; [by destruct keyed|]. cbn [fmap list_fmap concat zsum fst snd].
  rewrite zlen_app, IH, (item_len _ _ _ Hi), zlen_cons. unfold item_size, plain_size. destruct keyed; lia.
Qed.

Lemma batch_event t u name inputs items size n : t_name t = name -> topic_ok t ->
  placed t u inputs items (6 + zlen name) size n -> 0 < zlen inputs <= STREAM_FETCH_MAX ->
  let keyed := existsb (fun i => negb (zlen i.1 =? 0)) inputs in
  keyed && (RECORD_MAX - 2 * zlen inputs <? size) = false -> ev_ok (EBatch name keyed items).
Proof.
  intros Nt Hk [L1 L2 L3 L4 L5 L6 L7 L8] Hc keyed Hz.
  assert (El : zlen items = zlen inputs) by (rewrite <- L8; unfold zlen; by rewrite length_fmap).
  assert (Hi : Forall (item_ok keyed) items).
  { rewrite Forall_forall in L7 |- *. intros [p r] Hin. destruct (L7 _ Hin) as (H1 & H2 & H3 & H4 & H5 & H6 & H7 & _).
    unfold item_ok. split_and!; try done. intros Ef. cbn [snd]. apply zlen_zero.
    destruct (Z.eqb_spec (zlen (r_key r)) 0) as [|Hne]; [done|]. exfalso. unfold keyed in Ef.
    apply not_true_iff_false in Ef. apply Ef, existsb_exists. exists (r_key r, r_body r). split; [|cbn; by destruct (Z.eqb_spec (zlen (r_key r)) 0)].
    rewrite <- L8. apply list_elem_of_In, (list_elem_of_fmap_2 (fun i => (r_key i.2, r_body i.2)) items (p, r) Hin). }
  split; [rewrite <- Nt; apply Hk|]. split; [|by rewrite El]. cbn [ev_record snd]. rewrite batch_len by done. rewrite El.
  destruct L6 as [->|L6]; [change (zlen []) with 0 in El; lia|]. destruct keyed; cbn [andb] in Hz; [apply Z.ltb_ge in Hz|]; lia.
Qed.

(** Every input of the batch is in the last durable state, at the place the
    call reports. *)
Definition batch_stored (hs : list (list topic)) (name : bytes) (inputs : list (bytes * bytes)) (out : list (Z * Z)) : Prop :=
  exists items, (fun i => (r_key i.2, r_body i.2)) <$> items = inputs /\ out = (fun i => (i.1, r_offset i.2)) <$> items /\
    Forall (fun i => exists m, last hs = Some m /\ stored m name i.1 i.2) items.

Lemma batch_step gone s hs a name hint inputs at_ now : ready s hs a -> Forall roomy (ss_topics s) ->
  0 <= hint -> Forall (fun i => record_args i.1 i.2 at_) inputs ->
  let r := stream_append_batch s name hint inputs at_ now in
  reaching gone hs a (fun hs a => outcome gone hs a r.2 (r.1.1 = 0) /\ (r.1.1 = 0 -> batch_stored hs name inputs r.1.2)).
Proof.
  intros R0 Hr Hh0 Harg. unfold stream_append_batch.
  destruct (Z.eqb_spec (zlen inputs) 0), (Z.ltb_spec STREAM_FETCH_MAX (zlen inputs)); cbn [orb]; [apply reaching_now; by split; [apply refused|]..|].
  pose proof (zlen_nonneg inputs). apply (begun gone s hs a (fun s => (-1, [], s)) _
    (fun r hs a => outcome gone hs a r.2 (r.1.1 = 0) /\ (r.1.1 = 0 -> batch_stored hs name inputs r.1.2))); [done|done| |].
  { intros s0 hs0 a0 Hout. split; [by apply (outcome_weaken _ _ _ _ False)|done]. }
  clear R0 hs a. intros s0 hs a R Es. pose proof R as [M L Hh F P]. rewrite <- Es in Hr.
  destruct (find_topic (ss_topics s0) name) as [t|] eqn:En; [|apply reaching_now; by split; [apply refused|]].
  destruct (topic_of s0 name t M En) as [Hk Nt]. pose proof (mo_allocs _ M) as A. sallocs A.
  pose proof (batch_place_spec t hint at_ inputs s0 t (6 + zlen name) STREAM_FETCH_MAX A Hk eq_refl
    (fun key => choose_nat t hint key Hk Hh0) Harg ltac:(rewrite Nt; lia) (roomy_parts _ _ _ Hr En) ltac:(lia)) as B.
  destruct (batch_place s0 t hint at_ inputs _ _) as [[[items size]|] s1]; destruct B as [-> B]; [|apply reaching_now; by split; [apply refused|]].
  destruct B as [u B]. destruct (_ && (_ <? size)) eqn:Esz; [apply reaching_now; by split; [apply refused|]|]. sallocs A.
  pose proof (batch_event t u name inputs items size _ Nt Hk B ltac:(lia) Esz) as He.
  set (keyed := existsb (fun i => negb (zlen i.1 =? 0)) inputs) in *. destruct B as [L1 L2 [L3 L3'] L4 L5 L6 L7 L8].
  pose proof (ready_pending _ _ _ _ _ R En) as Pd.
  pose proof (pending_log gone s0 t t hs a (EBatch name keyed items) (link_events items) u Pd (topic_ok_sound t Hk) He ltac:(by rewrite Nt) L1) as K.
  cbn [ev_record fst snd] in K. destruct (log_record s0 _ _) as [rc s1]. destruct K as [(-> & B)|(-> & hs' & G & Pd' & E1)]; cbn [Z.eqb negb].
  { apply reaching_now. by split; [apply fell|]. }
  rewrite (link_items_spec items s1 t u L1).
  assert (Hfit : parts_fit u) by (eapply Forall_impl; [exact L4|]; cbn; lia).
  pose proof (store_finish gone s1 t u hs' a now Pd' L2 ltac:(rewrite L3'; exact (pending_flag _ _ _ _ _ Pd)) Hfit) as K.
  destruct (enforce _ _ true now) as [[rc s2] t2]. exists hs', a. split; [done|]. split; [done|].
  destruct K as [(-> & K)|(-> & K)]; cbn [Z.eqb negb]; [split; [by apply (outcome_weaken _ _ _ _ False)|done]|].
  destruct (stream_wait_durable_locked _ _) as [rc s3]. split; [done|]. intros _. exists items. split; [done|]. split; [done|].
  rewrite Forall_forall. intros [p r] Hin. destruct (links_recs items t u p r L1 Hin) as (x & Hx & Hrx).
  rewrite <- Nt. by apply (pending_stored s1 t u hs' a p x r Pd').
Qed.

End StreamSteps.
