(* ===== verification/StreamCommits.v ===== *)
(** * Consumer groups of the stream engine

    Membership: reaping and leaving keep the group well formed and move the
    generation exactly when members go; the partitions are dealt out among
    the members.

    Then, in [StreamCommits]: consumer groups and the log of the stream engine. *)

From stdpp Require Import base numbers option list sorting.
From S2P Require Import Prelude Crc Stream StreamLog StreamOps StreamSpec StreamRetain StreamEvents StreamMem.
From S2P Require Import StreamCodec StreamCompact StreamDisk StreamFlight StreamSteps.
Import Stream StreamLog StreamOps StreamSpec.

Module StreamGroups.

(** ** Members that go *)

Lemma drop_members_spec keep l : forall g, zlen l <= g_member_count g ->
  drop_members keep l g =
  (List.filter keep l, {| g with g_member_count := g_member_count g - (zlen l - zlen (List.filter keep l));
                                 g_generation := g_generation g + (zlen l - zlen (List.filter keep l)) |}).
Proof.
  induction l as [|m l IH]; intros g Hc; cbn [drop_members List.filter].
  - rewrite Z.sub_diag, Z.sub_0_r, Z.add_0_r. by destruct g.
  - rewrite zlen_cons in Hc |- *. pose proof (zlen_nonneg l). destruct (keep m).
    + rewrite IH by lia. rewrite zlen_cons. do 2 f_equal; lia.
    + assert (zlen (List.filter keep l) <= zlen l) by (unfold zlen; pose proof (filter_length_le keep l); lia).
      rewrite IH; unfold drop_one; cbn [g_member_count]; destruct (Z.eqb_spec (g_member_count g) 0); [lia| |lia..].
      cbn. do 2 f_equal; lia.
Qed.

(** Everything but the membership. *)
Definition regrouped (g g' : group) : Prop := g_name g' = g_name g /\ g_offsets g' = g_offsets g.

Definition members_ok (g : group) : Prop := g_member_count g = zlen (g_members g) /\ NoDup (mb_owner <$> g_members g).

Lemma filter_owners keep l : NoDup (mb_owner <$> l) -> NoDup (mb_owner <$> List.filter keep l).
Proof.
  induction l as [|m l IH]; cbn; [done|]. intros [Hm Hd]%NoDup_cons. destruct (keep m); [|auto]. cbn. apply NoDup_cons.
  split; [|auto]. intros (x & E & Hin)%list_elem_of_fmap. apply Hm. rewrite E. apply list_elem_of_fmap_2.
  apply list_elem_of_In in Hin. apply filter_In in Hin as [Hin _]. by apply list_elem_of_In.
Qed.

(** Keeping the members [keep] says. *)
Definition keeping (keep : member -> bool) (g : group) : group :=
  let '(l, g) := drop_members keep (g_members g) g in with_members g l.

Lemma keeping_spec keep g : members_ok g ->
  g_members (keeping keep g) = List.filter keep (g_members g) /\ regrouped g (keeping keep g) /\
  members_ok (keeping keep g) /\
  g_generation (keeping keep g) = g_generation g + (zlen (g_members g) - zlen (g_members (keeping keep g))).
Proof.
  intros [Hc Hd]. unfold keeping. rewrite drop_members_spec by lia. cbn. split; [done|]. split; [done|].
  split; [|done]. split; cbn; [lia|by apply filter_owners].
Qed.

Lemma reap_keeping g now : group_reap_locked g now = keeping (fun m => now <? mb_deadline m) g.
Proof. done. Qed.

Lemma leave_keeping owner g : leave_group owner g = keeping (fun m => negb (mb_owner m =? owner)) g.
Proof. done. Qed.

Lemma group_ok_members n g : group_ok n g -> members_ok g.
Proof. by intros []. Qed.

Lemma group_ok_regrouped n g g' : group_ok n g -> regrouped g g' -> members_ok g' -> group_ok n g'.
Proof. intros [] [E1 E2] [H1 H2]. constructor; rewrite ?E1, ?E2; done. Qed.

Lemma keeping_ok n keep g : group_ok n g -> group_ok n (keeping keep g) /\ regrouped g (keeping keep g).
Proof.
  intros H. destruct (keeping_spec keep g (group_ok_members n g H)) as (_ & Hr & Hm & _).
  split; [by eapply group_ok_regrouped|done].
Qed.

#[global] Instance regrouped_preorder : PreOrder regrouped.
Proof. split; [done|]. intros a b c [? ?] [? ?]. split; congruence. Qed.

Lemma assigned_ok n g owner p now : group_ok n g ->
  group_ok n (member_assigned_locked g owner p now).2 /\ regrouped g (member_assigned_locked g owner p now).2.
Proof. intros H. unfold member_assigned_locked, group_owners_locked. cbn. rewrite reap_keeping. by apply keeping_ok. Qed.

Lemma check_owned_ok n t owner inputs now : forall g, group_ok n g ->
  group_ok n (check_owned t g owner inputs now).2 /\ regrouped g (check_owned t g owner inputs now).2.
Proof.
  induction inputs as [|[p off] inputs IH]; intros g H; cbn [check_owned]; [done|].
  destruct (_ <=? p); [done|]. destruct (owner =? 0); [by apply IH|].
  destruct (assigned_ok n g owner p now H) as [H1 H2]. destruct (member_assigned_locked g owner p now) as [b g1].
  destruct b; cbn [negb]; [|done]. destruct (IH g1 H1) as [H3 H4]. split; [done|]. by etransitivity.
Qed.

(** ** The sort of the owners *)

Lemma insert_owner_perm x l : insert_owner x l ≡ₚ x :: l.
Proof.
  induction l as [|y l IH]; [done|]. cbn [insert_owner]. destruct (x <? y); [done|]. rewrite IH. apply Permutation_swap.
Qed.

Lemma sort_owners_perm l : sort_owners l ≡ₚ l.
Proof.
  unfold sort_owners. enough (H : forall a, fold_left (fun a x => insert_owner x a) l a ≡ₚ l ++ a).
  { by rewrite (H []), app_nil_r. }
  induction l as [|x l IH]; intros a; [done|]. cbn [fold_left]. rewrite IH, insert_owner_perm. by rewrite <- Permutation_middle.
Qed.

Lemma insert_owner_sorted x l : StronglySorted Z.le l -> StronglySorted Z.le (insert_owner x l).
Proof.
  induction 1 as [|y l Hl IH Hy]; [by repeat constructor|]. cbn [insert_owner]. destruct (Z.ltb_spec x y).
  - constructor; [by constructor|]. constructor; [lia|]. eapply Forall_impl; [done|]. cbn. lia.
  - constructor; [done|]. rewrite insert_owner_perm. by constructor.
Qed.

Lemma sort_owners_sorted l : StronglySorted Z.le (sort_owners l).
Proof.
  unfold sort_owners. enough (H : forall a, StronglySorted Z.le a -> StronglySorted Z.le (fold_left (fun a x => insert_owner x a) l a)).
  { apply H. constructor. }
  induction l as [|x l IH]; intros a Ha; [done|]. cbn [fold_left]. by apply IH, insert_owner_sorted.
Qed.

(** ** The assignment *)

Lemma assigned_at_spec n owner p l : forall i, NoDup l ->
  assigned_at i n l owner p = true <-> exists j, l !! j = Some owner /\ p mod n = i + Z.of_nat j.
Proof.
  induction l as [|o l IH]; intros i Hd; cbn [assigned_at].
  { split; [done|]. by intros (j & ? & _). }
  apply NoDup_cons in Hd as [Ho Hd]. destruct (Z.eqb_spec o owner) as [->|Hne].
  - rewrite Z.eqb_eq. split; [intros E; exists O; split; [done|lia]|]. intros ([|j] & Hj & E); [lia|].
    exfalso. apply Ho. by eapply list_elem_of_lookup_2.
  - rewrite IH by done. split.
    + intros (j & Hj & E). exists (S j). split; [done|lia].
    + intros ([|j] & Hj & E); [by injection Hj|]. exists j. split; [done|lia].
Qed.

Lemma assignment_spec n owners owner p : owners <> [] ->
  p ∈ assignment n owners owner <-> 0 <= p < n /\ owners !! Z.to_nat (p mod zlen owners) = Some owner.
Proof.
  intros Hne. unfold assignment. rewrite list_elem_of_filter, elem_of_seqZ.
  assert (Hk : 0 < zlen owners) by (destruct owners; [done|rewrite zlen_cons; pose proof (zlen_nonneg owners); lia]).
  pose proof (Z.mod_pos_bound p (zlen owners) Hk) as Hm.
  assert (Hlt : (Z.to_nat (p mod zlen owners) < length owners)%nat) by (unfold zlen in *; lia).

  destruct (lookup_lt_is_Some_2 _ _ Hlt) as [o Eo]. rewrite Eo, (nth_lookup_Some _ _ 0 _ Eo). rewrite Z.add_0_l.
  split; [intros [-> ?]; done|intros [? [= ->]]; done].
Qed.

(** How many of the first [n] numbers leave the remainder [i]. *)
Lemma count_mod k i n : 0 <= i < k -> 
  zlen (filter (fun p => p mod k = i) (seqZ 0 (Z.of_nat n))) = (Z.of_nat n + k - 1 - i) / k.
Proof.
  intros Hi. induction n as [|n IH].
  - cbn. rewrite Z.div_small by lia. done.
  - rewrite Nat2Z.inj_succ, <- Z.add_1_r, seqZ_app by lia. rewrite filter_app, zlen_app, IH, Z.add_0_l.
    change (seqZ (Z.of_nat n) 1) with (seqZ (Z.of_nat n) (Z.succ 0)). rewrite seqZ_cons by lia.
    rewrite filter_cons.
    pose proof (Z.div_mod (Z.of_nat n) k ltac:(lia)) as Hd. pose proof (Z.mod_pos_bound (Z.of_nat n) k ltac:(lia)) as Hm.
    set (q := Z.of_nat n / k) in *. set (m := Z.of_nat n mod k) in *.
    assert (E1 : (Z.of_nat n + k - 1 - i) / k = q + (if decide (m <= i) then 0 else 1)).
    { symmetry. apply Z.div_unique with (if decide (m <= i) then m + k - 1 - i else m - 1 - i); [|destruct (decide _); lia].
      left. destruct (decide (m <= i)); lia. }
    assert (E2 : (Z.of_nat n + 1 + k - 1 - i) / k = q + (if decide (m < i) then 0 else 1)).
    { clear E1. symmetry. apply Z.div_unique with (if decide (m < i) then m + k - i else m - i); [|destruct (decide _); lia].
      left. destruct (decide (m < i)); lia. }
    rewrite E1, E2. change (seqZ (Z.succ (Z.of_nat n)) (Z.pred (Z.succ 0))) with (@nil Z). rewrite filter_nil. clear -Hm Hi.
    destruct (decide (m = i)), (decide (m <= i)), (decide (m < i)); unfold zlen; cbn [length]; lia.
Qed.

Lemma assignment_size n owners owner j : NoDup owners -> owners !! j = Some owner -> 0 <= n ->
  zlen (assignment n owners owner) = (n + zlen owners - 1 - Z.of_nat j) / zlen owners.
Proof.
  intros Hd Hj Hn. pose proof (lookup_lt_Some _ _ _ Hj) as Hl. rewrite <- (Z2Nat.id n Hn).
  rewrite <- count_mod by (unfold zlen; lia). unfold assignment. f_equal. apply list_filter_iff. intros p.
  pose proof (Z.mod_pos_bound p (zlen owners) ltac:(unfold zlen; lia)) as Hm.
  assert (Hlt : (Z.to_nat (p mod zlen owners) < length owners)%nat) by (unfold zlen in *; lia).
  destruct (lookup_lt_is_Some_2 _ _ Hlt) as [o Eo]. rewrite (nth_lookup_Some _ _ 0 _ Eo). split.
  - intros ->. pose proof (NoDup_lookup _ _ _ _ Hd Hj Eo). lia.
  - intros E. rewrite E, Nat2Z.id, Hj in Eo. by injection Eo.
Qed.

Lemma share_bounds n k i : 0 <= i < k -> n / k <= (n + k - 1 - i) / k <= n / k + 1.
Proof.
  intros Hi. split; [apply Z.div_le_mono; lia|]. rewrite <- Z.div_add by lia. apply Z.div_le_mono; lia.
Qed.

(** The owners of a group, in order, are those of the members that live. *)
Lemma owners_spec g now : members_ok g -> let '(owners, g') := group_owners_locked g now in
  NoDup owners /\ StronglySorted Z.le owners /\ (forall o, o ∈ owners <-> exists m, m ∈ g_members g /\ mb_owner m = o /\ now < mb_deadline m).
Proof.
  intros H. unfold group_owners_locked. rewrite reap_keeping. destruct (keeping_spec (fun m => now <? mb_deadline m) g H) as (E & _ & [_ Hd] & _).
  split; [by rewrite sort_owners_perm|]. split; [apply sort_owners_sorted|]. intros o. rewrite sort_owners_perm, E.
  rewrite list_elem_of_fmap. split.
  - intros (m & -> & Hin). apply list_elem_of_In, filter_In in Hin as [Hin Hm]. exists m. split; [by apply list_elem_of_In|]. split; [done|]. lia.
  - intros (m & Hin & <- & Hm). exists m. split; [done|]. apply list_elem_of_In, filter_In. split; [by apply list_elem_of_In|]. lia.
Qed.

End StreamGroups.

(** * Consumer groups and the log of the stream engine

    The calls that commit offsets, reset them, and change the membership of
    groups, as steps of the durable states. *)

Import Stream StreamLog StreamOps StreamSpec StreamRetain StreamEvents StreamSame StreamMem StreamCodec StreamReopen StreamCompact StreamDisk StreamTrace StreamFlight StreamSteps StreamGroups.

Module StreamCommits.

(** ** Membership is not durable *)

Lemma find_group_ok t gname g : topic_ok t -> find_group t gname = Some g -> group_ok (length (t_parts t)) g /\ g_name g = gname.
Proof.
  intros H E. apply find_group_in in E as [En Hin]. pose proof (to_groups _ H) as Hg. rewrite Forall_forall in Hg. auto.
Qed.

Lemma regroup_same t gname g g' : find_group t gname = Some g -> regrouped g g' -> tsame eq t (set_group t g').
Proof.
  intros E [En Eo]. pose proof (find_group_in _ _ _ E) as [En' _]. constructor; cbn; try done.
  intros k p. unfold offset_of. rewrite find_set_group, En, En'. destruct (decide (gname = k)) as [<-|]; [|done].
  by rewrite E, Eo.
Qed.

Lemma regroup s t hs a gname g g' : pending s t t hs a -> find_group t gname = Some g -> regrouped g g' ->
  group_ok (length (t_parts t)) g' -> pending s (set_group t g') (set_group t g') hs a.
Proof.
  intros P E Hr Hg. rewrite <- (add_live_0 s). apply (pending_memory s t (set_group t g')); try done.
  - apply (pending_same s t t); [done|]. by eapply regroup_same.
  - apply set_group_ok; [|done]. exact (pending_ok _ _ _ _ _ P).
  - exact (pending_flag _ _ _ _ _ P).
  - rewrite set_group_live. lia.
Qed.

Lemma pending_set s t hs a : pending s t t hs a -> pending (set_topic s t) t t hs a.
Proof.
  intros [M L H F P I N]. assert (E : put_topic (put_topic (ss_topics s) t) t = put_topic (ss_topics s) t) by (by apply put_put).
  constructor; cbn [set_topic ss_topics]; rewrite ?E; try done.
  - unfold set_topic. cbn. by rewrite E.
  - by eapply live_fields.
  - rewrite find_put, decide_True by done. by destruct I as [x ->].
Qed.

Lemma put_put_set s t : set_topic (set_topic s t) t = set_topic s t.
Proof. unfold set_topic. cbn. by rewrite put_put. Qed.

Lemma regrouped_find t gname g g' : find_group t gname = Some g -> regrouped g g' -> find_group (set_group t g') gname = Some g'.
Proof.
  intros E [En _]. pose proof (find_group_in _ _ _ E) as [En' _]. rewrite find_set_group, En, En', decide_True by done. by rewrite E.
Qed.

(** ** One offset *)

Lemma commit_existing t gname g p off : find_group t gname = Some g ->
  commit_topic t gname p off = set_group t (set_offset g p off).
Proof. intros E. unfold commit_topic, ensure_group. rewrite E. by rewrite E. Qed.

Lemma set_offset_ok n g p off : group_ok n g -> fits 64 off -> group_ok n (set_offset g p off).
Proof. intros [] Ho. constructor; cbn; try done; [by rewrite length_insert|by apply Forall_insert]. Qed.

(** The record of an offset of a group that exists. *)
Lemma commit_log gone s t u hs a gname g p off : pending s t u hs a -> topic_ok u -> find_group u gname = Some g ->
  0 <= p < t_partitions u -> fits 64 off ->
  let '(rc, s') := log_record s S_COMMIT (commit_body (t_name t) gname p off) in
  (rc = -1 /\ broken gone hs a s') \/
  (rc = 0 /\ exists hs', grows gone hs hs' /\ pending s' t (set_group u (set_offset g p off)) hs' a /\ ss_topics s' = ss_topics s).
Proof.
  intros P Hk E Hp Ho. destruct (find_group_ok _ _ _ Hk E) as [Hg En]. pose proof (pd_name _ _ _ _ _ P) as N.
  pose proof (to_parts _ Hk) as Hm. unfold STREAM_PARTITIONS_MAX in Hm.
  apply (pending_log gone s t u hs a (ECommit (t_name t) gname p off) (commit_event gname p off)); [done|by apply topic_ok_sound| |done|].
  - apply commit_ev_ok; [rewrite <- N; apply Hk|rewrite <- En; apply Hg|unfold fits; lia|done].
  - unfold commit_event. destruct (Z.leb_spec (t_partitions u) p); [lia|]. by rewrite (commit_existing _ _ _ _ _ E).
Qed.

Lemma commit_one_step gone s t g hs a gname p off : pending s t t hs a -> find_group t gname = Some g ->
  0 <= p < t_partitions t -> fits 64 off -> let r := commit_one s t g p off in outcome gone hs a r.2 (r.1 = 0).
Proof.
  intros P E Hp Ho. unfold commit_one. pose proof (mo_allocs _ (pd_mem _ _ _ _ _ P)) as A. sallocs A.
  pose proof (pending_ok _ _ _ _ _ P) as Hk. destruct (find_group_ok _ _ _ Hk E) as [Hg En]. rewrite En.
  pose proof (commit_log gone s t t hs a gname g p off P Hk E Hp Ho) as K.
  destruct (log_record s S_COMMIT _) as [rc s1]. destruct K as [(-> & B)|(-> & hs' & G & P' & _)]; cbn [Z.eqb negb].
  - apply fell; [by apply broken_set|done].
  - apply (finished gone _ hs a hs' G). rewrite <- (add_live_0 s1). eapply pending_done; [done| |done| | |done].
    + apply set_group_ok; [done|]. by apply set_offset_ok.
    + exact (pending_flag _ _ _ _ _ P).
    + rewrite set_group_live. lia.
Qed.

(** ** Several offsets *)

Definition inputs_ok (t : topic) (inputs : list (Z * Z)) : Prop :=
  Forall (fun i => 0 <= i.1 < t_partitions t /\ fits 64 i.2) inputs.

Lemma set_offsets_name inputs : forall g, g_name (set_offsets g inputs) = g_name g.
Proof. induction inputs as [|i inputs IH]; intros g; [done|]. exact (IH (set_offset g i.1 i.2)). Qed.

Lemma set_group_twice u g g' : g_name g' = g_name g -> set_group (set_group u g) g' = set_group u g'.
Proof.
  intros E. unfold set_group. cbn. f_equal. induction (t_groups u) as [|y l IH]; [done|]. rewrite !put_group_cons, E.
  destruct (decide (g_name y = g_name g)); rewrite put_group_cons, E; [by rewrite decide_True|by rewrite decide_False, IH].
Qed.

Lemma log_commits_spec gone t gname hs0 a inputs : forall s u g hs, grows gone hs0 hs -> pending s t u hs a -> topic_ok u ->
  find_group u gname = Some g -> inputs_ok u inputs ->
  let '(rc, s') := log_commits s (t_name t) gname inputs in
  (rc = -1 /\ broken gone hs0 a s') \/
  (rc = 0 /\ exists hs' v, grows gone hs0 hs' /\ pending s' t v hs' a /\
    tsame eq v (set_group u (set_offsets g inputs))).
Proof.
  induction inputs as [|[p off] inputs IH]; intros s u g hs G P Hk E Hi; cbn [log_commits].
  { right. split; [done|]. exists hs, u. split; [done|]. split; [done|]. by eapply regroup_same. }
  apply Forall_cons in Hi as [[Hp Ho] Hi]. pose proof (commit_log gone s t u hs a gname g p off P Hk E Hp Ho) as K.
  destruct (log_record s S_COMMIT _) as [rc s1]. destruct K as [(-> & B)|(-> & hs1 & G1 & P1 & _)]; cbn [Z.eqb negb].
  { left. split; [done|]. by eapply broken_after. }
  destruct (find_group_ok _ _ _ Hk E) as [Hg En]. set (g1 := set_offset g p off) in *.
  assert (E1 : find_group (set_group u g1) gname = Some g1).
  { rewrite find_set_group. change (g_name g1) with (g_name g). rewrite En, decide_True by done. by rewrite E. }
  specialize (IH s1 (set_group u g1) g1 hs1 (grows_trans _ _ _ _ G G1) P1
    (set_group_ok _ _ Hk (set_offset_ok _ _ _ _ Hg Ho)) E1 Hi).
  destruct (log_commits s1 (t_name t) gname inputs) as [rc s']. destruct IH as [IH|(-> & hs' & v & G' & P' & S)]; [by left|].
  right. split; [done|]. exists hs', v. split; [done|]. split; [done|].
  replace (set_group u (set_offsets g ((p, off) :: inputs))) with (set_group (set_group u g1) (set_offsets g1 inputs)); [done|].
  change (set_offsets g ((p, off) :: inputs)) with (set_offsets g1 inputs). apply set_group_twice. by rewrite set_offsets_name.
Qed.

Lemma set_offsets_ok n inputs : forall g, group_ok n g -> Forall (fun i => fits 64 i.2) inputs -> group_ok n (set_offsets g inputs).
Proof.
  induction inputs as [|i inputs IH]; intros g H Hi; [done|]. apply Forall_cons in Hi as [Hi His].
  apply (IH (set_offset g i.1 i.2)); [by apply set_offset_ok|done].
Qed.

Lemma commit_many_step gone s t g hs a gname inputs : pending s t t hs a -> find_group t gname = Some g -> inputs_ok t inputs ->
  let r := commit_many s t g inputs in outcome gone hs a r.2 (r.1 = 0).
Proof.
  intros P E Hi. unfold commit_many. pose proof (mo_allocs _ (pd_mem _ _ _ _ _ P)) as A. sallocs A.
  pose proof (pending_ok _ _ _ _ _ P) as Hk. destruct (find_group_ok _ _ _ Hk E) as [Hg En]. rewrite En.
  pose proof (log_commits_spec gone t gname hs a inputs s t g hs ltac:(constructor) P Hk E Hi) as K.
  destruct (log_commits s (t_name t) gname inputs) as [rc s1]. destruct K as [(-> & B)|(-> & hs' & v & G & P' & S)]; cbn [Z.eqb negb].
  - apply fell; [by apply broken_set|done].
  - apply (finished gone _ hs a hs' G). rewrite <- (add_live_0 s1). eapply pending_done; [done| |done| | |done].
    + apply set_group_ok; [done|]. apply set_offsets_ok; [done|]. eapply Forall_impl; [exact Hi|]. by intros i [_ ?].
    + exact (pending_flag _ _ _ _ _ P).
    + rewrite set_group_live. lia.
Qed.

(** ** The calls *)

Lemma find_both_some s name gname t g : find_both s name gname = Some (t, g) ->
  find_topic (ss_topics s) name = Some t /\ find_group t gname = Some g.
Proof.
  unfold find_both. destruct (find_topic (ss_topics s) name) as [t'|]; [|done]. destruct (find_group t' gname) as [g'|] eqn:E; [|done].
  cbn. intros [= -> ->]. done.
Qed.

(** The group with its members changed, written back. *)
Lemma both_pending s hs a name gname t g g' : ready s hs a -> find_both s name gname = Some (t, g) -> regrouped g g' ->
  group_ok (length (t_parts t)) g' ->
  pending (set_topic s (set_group t g')) (set_group t g') (set_group t g') hs a /\
  find_group (set_group t g') gname = Some g'.
Proof.
  intros R [Et Eg]%find_both_some Hr Hg. split; [|by eapply regrouped_find]. apply pending_set.
  eapply regroup; [by eapply ready_pending|done|done|done].
Qed.

Lemma both_ok s hs a name gname t g : ready s hs a -> find_both s name gname = Some (t, g) ->
  topic_ok t /\ group_ok (length (t_parts t)) g /\ find_topic (ss_topics s) name = Some t.
Proof.
  intros R [Et Eg]%find_both_some. destruct (topic_of s name t (rd_mem _ _ _ R) Et) as [Hk _].
  split; [done|]. split; [by eapply find_group_ok|done].
Qed.

Lemma in_range_fits l x off : part_ok l x -> p_next x + STREAM_FETCH_MAX < 2 ^ 64 -> in_range x off = true -> fits 64 off.
Proof.
  intros Hx Hr [H1 H2]%andb_true_iff. pose proof (po_base _ _ Hx). unfold STREAM_FETCH_MAX, fits in *. lia.
Qed.

Lemma ensure_same t gname : tsame eq t (ensure_group t gname).
Proof.
  constructor; try (unfold ensure_group; by destruct (find_group t gname)).
  - intros k p. destruct (decide (gname = k)) as [<-|Hne].
    + destruct (ensure_find t gname) as (g & E & Ho). unfold offset_of at 1. by rewrite E, Ho.
    + unfold offset_of. by rewrite ensure_other.
Qed.

(** The group, created when it is not there. *)
Lemma created s t hs a gname : pending s t t hs a -> short_name gname -> exists g,
  group_get s t gname true = (Some g, add_live s (topic_live (ensure_group t gname) - topic_live t), ensure_group t gname) /\
  find_group (ensure_group t gname) gname = Some g /\
  (forall p, default 0 (g_offsets g !! p) = offset_of t gname p) /\
  pending (add_live s (topic_live (ensure_group t gname) - topic_live t)) (ensure_group t gname) (ensure_group t gname) hs a.
Proof.
  intros P Hn. pose proof (pending_ok _ _ _ _ _ P) as Hk. destruct (ensure_ok t gname Hk Hn) as [He _].
  destruct (group_get_ok s t gname (mo_allocs _ (pd_mem _ _ _ _ _ P))) as (g & Eg & Ef). exists g. split; [done|]. split; [done|].
  destruct (ensure_find t gname) as (g' & Ef' & Ho). rewrite Ef in Ef'. injection Ef' as <-. split; [done|].
  pose proof (ensure_same t gname) as S. apply (pending_memory s t); [by apply (pending_same s t t)|done|apply S| |done].
  rewrite (ts_flag _ _ _ S). exact (pending_flag _ _ _ _ _ P).
Qed.

Lemma good_name gname : group_name_bad gname = false -> bytes_ok gname -> short_name gname.
Proof.
  unfold group_name_bad, STREAM_GROUP_MAX. intros [H1 H2]%orb_false_iff Hb. apply Z.eqb_neq in H1. apply Z.ltb_ge in H2.
  pose proof (zlen_nonneg gname). split; [done|]. lia.
Qed.

Lemma commit_step gone s hs a name gname p off : ready s hs a -> Forall roomy (ss_topics s) -> bytes_ok gname -> 0 <= p ->
  let r := stream_commit s name gname p off in
  outcome gone hs a r.2 (r.1 = 0 /\ exists t, find_topic (ss_topics s) name = Some t /\ offset_of t gname (Z.to_nat p) < off).
Proof.
  intros R0 Hr Hb Hp. unfold stream_commit. destruct (group_name_bad gname) eqn:Hn; [apply refused; [done|by intros [? _]]|].
  pose proof (good_name gname Hn Hb) as Hs.
  apply (began gone s hs a _ (fun r => r.1 = 0 /\ exists t, find_topic (ss_topics s) name = Some t /\ offset_of t gname (Z.to_nat p) < off));
    [done|done|by intros ? [? _]|].
  clear R0 hs a. intros s0 hs a R Es. rewrite <- Es in Hr |- *. destruct (find_topic (ss_topics s0) name) as [t|] eqn:En; [|apply refused; [done|by intros [? _]]].
  destruct (t_parts t !! Z.to_nat p) as [x|] eqn:Hx; [|apply refused; [done|by intros [? _]]].
  destruct (in_range x off) eqn:Hin; cbn [negb]; [|apply refused; [done|by intros [? _]]].
  pose proof (ready_pending _ _ _ _ _ R En) as P. pose proof (pending_ok _ _ _ _ _ P) as Hk.
  destruct (part_at_ok _ _ _ Hk Hx) as [Hxk _]. pose proof (in_range_fits _ _ _ Hxk (roomy_part _ _ _ _ _ Hr En Hx) Hin) as Ho.
  destruct (index_of _ _ _ Hk Hp Hx) as [_ Hlt]. destruct (created s0 t hs a gname P Hs) as (g & -> & Ef & Hoff & P').
  rewrite Hoff. destruct (Z.leb_spec off (offset_of t gname (Z.to_nat p))).
  - apply refused; [by apply (pending_ready _ _ _ _ _ P')|]. intros (_ & t1 & [= <-] & Hlt1). lia.
  - eapply outcome_weaken; [|apply (commit_one_step gone _ _ _ hs a gname p off P' Ef); [|done]]; [by intros [? _]|].
    rewrite (same_partitions eq _ _ (ensure_same t gname)). lia.
Qed.

Lemma commit_gen_step gone s hs a name gname p off expected now : ready s hs a -> Forall roomy (ss_topics s) -> 0 <= p ->
  let r := stream_commit_if_generation s name gname p off expected now in outcome gone hs a r.2 (r.1 = 0).
Proof.
  intros R0 Hr Hp. unfold stream_commit_if_generation. destruct (group_name_bad gname) eqn:Hn; [by apply refused|].
  apply (began gone s hs a _ (fun r => r.1 = 0)); [done|done|done|]. clear R0 hs a. intros s0 hs a R Es. rewrite <- Es in Hr.
  destruct (find_both s0 name gname) as [[t g]|] eqn:E; [|by apply refused]. destruct (both_ok _ _ _ _ _ _ _ R E) as (Hk & Hg & En).
  destruct (t_parts t !! Z.to_nat p) as [x|] eqn:Hx; [|by apply refused].
  rewrite reap_keeping. destruct (keeping_ok _ (fun m => now <? mb_deadline m) g Hg) as [Hg' Hrg].
  destruct (both_pending _ _ _ _ _ _ _ _ R E Hrg Hg') as [P' E']. set (g' := keeping _ g) in *.
  pose proof (pending_ready _ _ _ _ _ P' ltac:(done)) as R'. rewrite put_put_set in R'.
  destruct (negb (g_generation g' =? expected)); [by apply refused|].
  destruct (in_range x off) eqn:Hin; cbn [negb]; [|by apply refused].
  destruct (part_at_ok _ _ _ Hk Hx) as [Hxk _]. destruct (index_of _ _ _ Hk Hp Hx) as [_ Hlt].
  apply (commit_one_step gone _ _ _ hs a gname p off P' E'); [done|].
  exact (in_range_fits _ _ _ Hxk (roomy_part _ _ _ _ _ Hr En Hx) Hin).
Qed.

Lemma check_inputs_ok t l name inputs : topic_ok t -> Forall roomy l -> find_topic l name = Some t ->
  Forall (fun i => 0 <= i.1) inputs -> check_inputs t inputs = 0 -> inputs_ok t inputs.
Proof.
  intros Hk Hr En Hp. induction inputs as [|[p off] inputs IH]; cbn [check_inputs]; [constructor|].
  apply Forall_cons in Hp as [Hp Hps]. destruct (t_parts t !! Z.to_nat p) as [x|] eqn:Hx; [|done].
  destruct (in_range x off) eqn:Hin; cbn [negb]; [|done]. intros E. constructor; [|by apply IH].
  destruct (part_at_ok _ _ _ Hk Hx) as [Hxk _]. destruct (index_of _ _ _ Hk Hp Hx) as [_ Hlt].
  split; [done|]. exact (in_range_fits _ _ _ Hxk (roomy_part _ _ _ _ _ Hr En Hx) Hin).
Qed.

Lemma commit_batch_gen_step gone s hs a name gname inputs expected now : ready s hs a -> Forall roomy (ss_topics s) ->
  Forall (fun i => 0 <= i.1) inputs ->
  let r := stream_commit_batch_if_generation s name gname inputs expected now in outcome gone hs a r.2 (r.1 = 0).
Proof.
  intros R0 Hr Hp. unfold stream_commit_batch_if_generation. destruct (_ || _ || _); [by apply refused|].
  apply (began gone s hs a _ (fun r => r.1 = 0)); [done|done|done|]. clear R0 hs a. intros s0 hs a R Es. rewrite <- Es in Hr.
  destruct (find_both s0 name gname) as [[t g]|] eqn:E; [|by apply refused]. destruct (both_ok _ _ _ _ _ _ _ R E) as (Hk & Hg & En).
  rewrite reap_keeping. destruct (keeping_ok _ (fun m => now <? mb_deadline m) g Hg) as [Hg' Hrg].
  destruct (both_pending _ _ _ _ _ _ _ _ R E Hrg Hg') as [P' E']. set (g' := keeping _ g) in *.
  pose proof (pending_ready _ _ _ _ _ P' ltac:(done)) as R'. rewrite put_put_set in R'.
  destruct (negb (g_generation g' =? expected)); [by apply refused|].
  destruct (Z.eqb_spec (check_inputs (set_group t g') inputs) 0) as [Ec|Ec]; cbn [negb]; [|by apply refused].
  destruct (_ <? _); [by apply refused|]. apply (commit_many_step gone _ _ _ hs a gname inputs P' E').
  assert (Ec' : check_inputs t inputs = 0).
  { rewrite <- Ec. clear. induction inputs as [|[p off] inputs IH]; [done|]. cbn. destruct (t_parts t !! _); [|done]. by rewrite IH. }
  exact (check_inputs_ok t _ name inputs Hk Hr En Hp Ec').
Qed.

Lemma reset_targets_ok t strategy absolute delta : forall parts i offsets targets,
  reset_targets (Z.of_nat i) parts offsets strategy absolute delta = Some targets ->
  (forall j x, parts !! j = Some x -> t_parts t !! (i + j)%nat = Some x) ->
  (forall j x, t_parts t !! j = Some x -> 0 <= p_base x /\ p_next x < 2 ^ 64) -> inputs_ok t targets.
Proof.
  induction parts as [|x parts IH]; intros i offsets targets; cbn [reset_targets]; [intros [= <-]; constructor|].
  destruct (reset_value x _ strategy absolute delta) as [v|]; [|done]. destruct (in_range x v) eqn:Hin; cbn [negb]; [|done].
  destruct (reset_targets (Z.of_nat i + 1) parts _ _ _ _) as [ts|] eqn:Et; [|done]. intros [= <-] Hp Hx.
  replace (Z.of_nat i + 1) with (Z.of_nat (S i)) in Et by lia. pose proof (Hp 0%nat x eq_refl) as H0. rewrite Nat.add_0_r in H0.
  constructor.
  - cbn. pose proof (lookup_lt_Some _ _ _ H0). split; [unfold t_partitions, zlen; lia|]. apply andb_true_iff in Hin as [H1 H2].
    destruct (Hx _ _ H0). unfold fits. lia.
  - apply (IH (S i) _ _ Et); [|done]. intros j y Hy. replace (S i + j)%nat with (i + S j)%nat by lia. by apply Hp.
Qed.

Lemma reset_step gone s hs a name gname expected strategy absolute delta force cap now : ready s hs a -> Forall roomy (ss_topics s) ->
  let r := stream_group_reset_offsets_if_generation s name gname expected strategy absolute delta force cap now in
  outcome gone hs a r.2 (r.1.1 = 0).
Proof.
  intros R0 Hr. unfold stream_group_reset_offsets_if_generation. destruct (group_name_bad gname); [by apply refused|].
  apply reaching_outcome. apply (begun gone s hs a (fun s => (-1, [], s)) _ (fun r hs a => outcome gone hs a r.2 (r.1.1 = 0)));
    [done|done|intros s0 hs0 a0 H; by apply (outcome_weaken _ _ _ _ False)|].
  clear R0 hs a. intros s0 hs a R Es. rewrite <- Es in Hr. apply reaching_now.
  destruct (find_both s0 name gname) as [[t g]|] eqn:E; [|by apply refused]. destruct (both_ok _ _ _ _ _ _ _ R E) as (Hk & Hg & En).
  destruct (match cap with Some n => _ | None => false end); [by apply refused|].
  rewrite reap_keeping. destruct (keeping_ok _ (fun m => now <? mb_deadline m) g Hg) as [Hg' Hrg].
  destruct (both_pending _ _ _ _ _ _ _ _ R E Hrg Hg') as [P' E']. set (g' := keeping _ g) in *.
  pose proof (pending_ready _ _ _ _ _ P' ltac:(done)) as R'. rewrite put_put_set in R'.
  destruct (negb (g_generation g' =? expected)); [by apply refused|]. destruct (_ && _); [by apply refused|].
  destruct (reset_targets 0 _ _ _ _ _) as [targets|] eqn:Et; [|by apply refused]. destruct (_ <? _); [by apply refused|].
  assert (Hi : inputs_ok (set_group t g') targets).
  { eapply (reset_targets_ok (set_group t g') _ _ _ _ 0); [exact Et|done|]. intros j x Hx. cbn in Hx.
    destruct (part_at_ok _ _ _ Hk Hx) as [Hxk _]. pose proof (roomy_part _ _ _ _ _ Hr En Hx) as Hroom.
    unfold STREAM_FETCH_MAX in Hroom. pose proof (po_base _ _ Hxk). lia. }
  pose proof (commit_many_step gone _ _ _ hs a gname targets P' E' Hi) as K.
  by destruct (commit_many _ _ g' targets) as [rc s1].
Qed.

Lemma commit_owner_step gone s hs a name gname p off owner now : ready s hs a -> Forall roomy (ss_topics s) -> 0 <= p -> fits 64 off ->
  let r := stream_commit_for_owner s name gname p off owner now in outcome gone hs a r.2 (r.1 = 0).
Proof.
  intros R0 Hr Hp Ho. unfold stream_commit_for_owner. destruct (_ || _); [by apply refused|].
  apply (began gone s hs a _ (fun r => r.1 = 0)); [done|done|done|]. clear R0 hs a. intros s0 hs a R Es.
  destruct (find_both s0 name gname) as [[t g]|] eqn:E; [|by apply refused]. destruct (both_ok _ _ _ _ _ _ _ R E) as (Hk & Hg & En).
  destruct (Z.leb_spec (t_partitions t) p); [by apply refused|].
  destruct (assigned_ok _ g owner p now Hg) as [Hg' Hrg]. destruct (member_assigned_locked g owner p now) as [as_ g'].
  destruct (both_pending _ _ _ _ _ _ _ _ R E Hrg Hg') as [P' E'].
  pose proof (pending_ready _ _ _ _ _ P' ltac:(done)) as R'. rewrite put_put_set in R'.
  destruct as_; cbn [negb]; [|by apply refused]. by apply (commit_one_step gone _ _ _ hs a gname p off P' E').
Qed.

Lemma commit_owner_gen_step gone s hs a name gname p off owner expected now : ready s hs a -> Forall roomy (ss_topics s) -> 0 <= p ->
  let r := stream_commit_for_owner_if_generation s name gname p off owner expected now in outcome gone hs a r.2 (r.1 = 0).
Proof.
  intros R0 Hr Hp. unfold stream_commit_for_owner_if_generation. destruct (_ || _); [by apply refused|].
  apply (began gone s hs a _ (fun r => r.1 = 0)); [done|done|done|]. clear R0 hs a. intros s0 hs a R Es. rewrite <- Es in Hr.
  destruct (find_both s0 name gname) as [[t g]|] eqn:E; [|by apply refused]. destruct (both_ok _ _ _ _ _ _ _ R E) as (Hk & Hg & En).
  destruct (t_parts t !! Z.to_nat p) as [x|] eqn:Hx; [|by apply refused].
  destruct (assigned_ok _ g owner p now Hg) as [Hg' Hrg]. destruct (member_assigned_locked g owner p now) as [as_ g'].
  destruct (both_pending _ _ _ _ _ _ _ _ R E Hrg Hg') as [P' E'].
  pose proof (pending_ready _ _ _ _ _ P' ltac:(done)) as R'. rewrite put_put_set in R'.
  destruct as_; cbn [negb]; [|by apply refused]. destruct (negb (g_generation g' =? expected)); [by apply refused|].
  destruct (in_range x off) eqn:Hin; cbn [negb]; [|by apply refused].
  destruct (part_at_ok _ _ _ Hk Hx) as [Hxk _]. destruct (index_of _ _ _ Hk Hp Hx) as [_ Hlt].
  apply (commit_one_step gone _ _ _ hs a gname p off P' E'); [done|].
  exact (in_range_fits _ _ _ Hxk (roomy_part _ _ _ _ _ Hr En Hx) Hin).
Qed.

Lemma check_owned_inputs t owner inputs now : forall g, (check_owned t g owner inputs now).1 = true ->
  Forall (fun i => i.1 < t_partitions t) inputs.
Proof.
  induction inputs as [|[p off] inputs IH]; intros g; cbn [check_owned]; [constructor|].
  destruct (Z.leb_spec (t_partitions t) p); [done|]. destruct (owner =? 0); [intros H1; constructor; [done|exact (IH _ H1)]|].
  destruct (member_assigned_locked g owner p now) as [[|] g1]; cbn [negb]; [|done]. intros H'. constructor; [done|exact (IH _ H')].
Qed.

(** The end of the call, with the group at hand. *)
Lemma owned_step gone s t g hs a gname owner inputs now : pending s t t hs a -> find_group t gname = Some g ->
  Forall (fun i => 0 <= i.1 /\ fits 64 i.2) inputs ->
  let r := (let '(ok, g) := check_owned t g owner inputs now in
            let t := set_group t g in
            let s := set_topic s t in
            if negb ok then (-1, s) else commit_many s t g inputs) in
  outcome gone hs a r.2 (r.1 = 0).
Proof.
  intros P E Hi. pose proof (pending_ok _ _ _ _ _ P) as Hk. destruct (find_group_ok _ _ _ Hk E) as [Hg En].
  destruct (check_owned_ok _ t owner inputs now g Hg) as [Hg' Hrg]. pose proof (check_owned_inputs t owner inputs now g) as Hc.
  destruct (check_owned t g owner inputs now) as [ok g']. cbn [fst snd] in *.
  pose proof (regroup s t hs a gname g g' P E Hrg Hg') as P1. pose proof (pending_set _ _ _ _ P1) as P2.
  destruct ok; cbn [negb].
  - apply (commit_many_step gone _ _ _ hs a gname inputs P2); [by eapply regrouped_find|].
    specialize (Hc eq_refl). unfold inputs_ok. rewrite Forall_forall in *. intros i Hin. specialize (Hc i Hin). destruct (Hi i Hin).
    split; [|done]. split; [done|]. exact Hc.
  - apply refused; [|done]. by apply (pending_ready _ _ _ _ _ P1).
Qed.

Lemma commit_batch_owner_step gone s hs a name gname owner inputs now : ready s hs a -> Forall roomy (ss_topics s) ->
  bytes_ok gname -> Forall (fun i => 0 <= i.1 /\ fits 64 i.2) inputs ->
  let r := stream_commit_batch_for_owner s name gname owner inputs now in outcome gone hs a r.2 (r.1 = 0).
Proof.
  intros R0 Hr Hb Hi. unfold stream_commit_batch_for_owner. destruct (group_name_bad gname) eqn:Hn; [by apply refused|].
  destruct (_ || _); [by apply refused|]. pose proof (good_name gname Hn Hb) as Hs.
  apply (began gone s hs a _ (fun r => r.1 = 0)); [done|done|done|]. clear R0 hs a. intros s0 hs a R Es.
  destruct (find_topic (ss_topics s0) name) as [t|] eqn:En; [|by apply refused]. pose proof (ready_pending _ _ _ _ _ R En) as P.
  destruct (owner =? 0) eqn:Eo.
  - destruct (created s0 t hs a gname P Hs) as (g & -> & Ef & _ & P'). by apply (owned_step gone _ _ g hs a gname owner inputs now).
  - unfold group_get. destruct (find_group t gname) as [g|] eqn:Ef; cbn [negb].
    + by apply (owned_step gone _ _ g hs a gname owner inputs now).
    + apply refused; [|done]. by apply (pending_ready _ _ _ _ _ P).
Qed.

(** ** Membership *)

Lemma generation_step gone s hs a name gname now : ready s hs a ->
  outcome gone hs a (stream_group_generation s name gname now).2 False.
Proof.
  intros R. unfold stream_group_generation. destruct (group_name_bad gname); [by apply outcome_ready|].
  destruct (find_both s name gname) as [[t g]|] eqn:E; [|by apply outcome_ready]. destruct (both_ok _ _ _ _ _ _ _ R E) as (Hk & Hg & En).
  rewrite reap_keeping. destruct (keeping_ok _ (fun m => now <? mb_deadline m) g Hg) as [Hg' Hrg].
  destruct (both_pending _ _ _ _ _ _ _ _ R E Hrg Hg') as [P' _].
  pose proof (pending_ready _ _ _ _ _ P' ltac:(done)) as R'. rewrite put_put_set in R'. by apply outcome_ready.
Qed.

Lemma assigned_step gone s hs a name gname owner p now : ready s hs a ->
  outcome gone hs a (stream_group_member_assigned s name gname owner p now).2 False.
Proof.
  intros R. unfold stream_group_member_assigned. destruct (_ || _); [by apply outcome_ready|].
  destruct (find_both s name gname) as [[t g]|] eqn:E; [|by apply outcome_ready]. destruct (both_ok _ _ _ _ _ _ _ R E) as (Hk & Hg & En).
  destruct (_ <=? _); [by apply outcome_ready|]. destruct (assigned_ok _ g owner p now Hg) as [Hg' Hrg].
  destruct (member_assigned_locked g owner p now) as [as_ g']. destruct (both_pending _ _ _ _ _ _ _ _ R E Hrg Hg') as [P' _].
  pose proof (pending_ready _ _ _ _ _ P' ltac:(done)) as R'. rewrite put_put_set in R'. by apply outcome_ready.
Qed.

Lemma remove_member_spec l owner l' : remove_member l owner = Some l' ->
  zlen l = zlen l' + 1 /\ exists l1 m l2, l = l1 ++ m :: l2 /\ l' = l1 ++ l2.
Proof.
  revert l'. induction l as [|m l IH]; intros l'; cbn [remove_member]; [done|]. destruct (_ =? owner).
  - intros [= <-]. split; [rewrite zlen_cons; lia|]. by exists [], m, l.
  - destruct (remove_member l owner) as [k|]; [|done]. intros [= <-]. destruct (IH k eq_refl) as [H (l1 & x & l2 & -> & ->)].
    rewrite !zlen_cons. split; [lia|]. by exists (m :: l1), x, l2.
Qed.

Lemma leave_member_step gone s hs a name gname owner : ready s hs a ->
  outcome gone hs a (stream_group_leave_member s name gname owner).2 False.
Proof.
  intros R. unfold stream_group_leave_member. destruct (_ || _); [by apply outcome_ready|].
  destruct (find_both s name gname) as [[t g]|] eqn:E; [|by apply outcome_ready]. destruct (both_ok _ _ _ _ _ _ _ R E) as (Hk & Hg & En).
  destruct (remove_member (g_members g) owner) as [l|] eqn:El; [|by apply outcome_ready].
  destruct (remove_member_spec _ _ _ El) as [Hl (l1 & m & l2 & E1 & E2)]. destruct (group_ok_members _ _ Hg) as [Hc Hd].
  assert (Hg' : group_ok (length (t_parts t)) (with_members (drop_one g) l)).
  { apply (group_ok_regrouped _ g); [done|done|]. pose proof (zlen_nonneg l). split; cbn.
    - destruct (Z.eqb_spec (g_member_count g) 0); lia.
    - rewrite E2. rewrite E1 in Hd. rewrite fmap_app in Hd |- *. cbn [fmap list_fmap] in Hd. apply NoDup_app in Hd as (H1 & H2 & H3).
      apply NoDup_cons in H3 as [_ H3]. apply NoDup_app. split_and!; [done| |done]. intros x Hx Hx'. apply (H2 x Hx). by right. }
  destruct (both_pending _ _ _ _ _ _ _ (with_members (drop_one g) l) R E ltac:(done) Hg') as [P' _].
  pose proof (pending_ready _ _ _ _ _ P' ltac:(done)) as R'. rewrite put_put_set in R'. by apply outcome_ready.
Qed.

Lemma renew_owners owner d l : mb_owner <$> renew owner d l = mb_owner <$> l.
Proof.
  induction l as [|m l IH]; [done|]. cbn [renew]. destruct (Z.eqb_spec (mb_owner m) owner) as [<-|]; [done|]. cbn. by rewrite IH.
Qed.

Lemma renew_ok owner d g : members_ok g -> members_ok (with_members g (renew owner d (g_members g))).
Proof.
  intros [Hc Hd]. split; cbn; [|by rewrite renew_owners]. rewrite Hc. unfold zlen. f_equal.
  by rewrite <- (length_fmap mb_owner), <- (length_fmap mb_owner (renew _ _ _)), renew_owners.
Qed.

Lemma joined_ok g owner : members_ok g -> existsb (fun m => mb_owner m =? owner) (g_members g) = false ->
  members_ok {| g with g_members := Member owner 0 :: g_members g; g_member_count := g_member_count g + 1;
                       g_generation := g_generation g + 1 |}.
Proof.
  intros [Hc Hd] Hn. split; cbn; [rewrite zlen_cons; lia|]. apply NoDup_cons. split; [|done].
  intros (m & E & Hin)%list_elem_of_fmap. cbn in E. apply not_true_iff_false in Hn. apply Hn, existsb_exists. exists m.
  split; [by apply list_elem_of_In|]. rewrite <- E. apply Z.eqb_refl.
Qed.

(** The group a join leaves, when it succeeds. *)
Definition joined (g : group) (owner lease now : Z) : group :=
  let g := group_reap_locked g now in
  let g := if existsb (fun m => mb_owner m =? owner) (g_members g) then g
           else {| g with g_members := Member owner 0 :: g_members g; g_member_count := g_member_count g + 1;
                          g_generation := g_generation g + 1 |} in
  group_reap_locked (with_members g (renew owner (now + lease) (g_members g))) now.

Lemma joined_group n g owner lease now : group_ok n g ->
  group_ok n (joined g owner lease now) /\ regrouped g (joined g owner lease now).
Proof.
  intros H. unfold joined. rewrite !reap_keeping. destruct (keeping_ok n (fun m => now <? mb_deadline m) g H) as [H1 R1].
  set (g1 := keeping _ g) in *.
  assert (K : forall g2, members_ok g2 -> regrouped g g2 ->
    group_ok n (keeping (fun m => now <? mb_deadline m) (with_members g2 (renew owner (now + lease) (g_members g2)))) /\
    regrouped g (keeping (fun m => now <? mb_deadline m) (with_members g2 (renew owner (now + lease) (g_members g2))))).
  { intros g2 M2 R2. assert (H2 : group_ok n (with_members g2 (renew owner (now + lease) (g_members g2)))).
    { apply (group_ok_regrouped n g); [done|done|by apply renew_ok]. }
    destruct (keeping_ok n (fun m => now <? mb_deadline m) _ H2) as [H3 R3]. split; [done|]. etransitivity; [exact R2|exact R3]. }
  destruct (existsb _ (g_members g1)) eqn:Ex; apply K; try done; [by eapply group_ok_members|].
  apply joined_ok; [by eapply group_ok_members|done].
Qed.

Lemma join_step gone s hs a name gname owner lease now : ready s hs a -> bytes_ok gname ->
  outcome gone hs a (stream_group_join s name gname owner lease now).2 False.
Proof.
  intros R Hb. unfold stream_group_join. destruct (group_name_bad gname) eqn:Hn; [by apply outcome_ready|].
  destruct (_ || _ || _); [by apply outcome_ready|]. pose proof (good_name gname Hn Hb) as Hs.
  destruct (find_topic (ss_topics s) name) as [t|] eqn:En; [|by apply outcome_ready].
  destruct (created s t hs a gname (ready_pending _ _ _ _ _ R En) Hs) as (g & -> & Ef & _ & P).
  set (s1 := add_live s _) in *. set (t1 := ensure_group t gname) in *. pose proof (pending_ok _ _ _ _ _ P) as Hk.
  destruct (find_group_ok _ _ _ Hk Ef) as [Hg _].
  assert (K : forall g', group_ok (length (t_parts t1)) g' /\ regrouped g g' -> ready (set_topic s1 (set_group t1 g')) hs a).
  { intros g' [Hg' Hrg]. pose proof (regroup _ _ _ _ _ _ _ P Ef Hrg Hg') as P'. by apply (pending_ready _ _ _ _ _ P'). }
  pose proof (mo_allocs _ (pd_mem _ _ _ _ _ P)) as A. cbn [set_topic ss_allocs] in A.
  pose proof (K _ (joined_group _ g owner lease now Hg)) as Kj. unfold joined in Kj.
  destruct (existsb _ (g_members (group_reap_locked g now))) eqn:Ex; cbn [negb group_owners_locked].
  - rewrite salloc_nil by done. by apply outcome_ready.
  - destruct (_ <=? _); cbn [negb]; [apply outcome_ready, K; rewrite reap_keeping; by apply keeping_ok|].
    rewrite salloc_nil by done. cbn [negb group_owners_locked]. rewrite salloc_nil by done. by apply outcome_ready.
Qed.

(** ** Every group *)

Lemma find_mapped (h : topic -> topic) l name : (forall t, t_name (h t) = t_name t) -> find_topic (h <$> l) name = h <$> find_topic l name.
Proof.
  intros H. induction l as [|x l IH]; [done|]. cbn [fmap list_fmap]. rewrite !find_topic_cons, H. by destruct (decide _).
Qed.

Lemma mapped_topic f t : topic_ok t -> (forall g, group_ok (length (t_parts t)) g -> group_ok (length (t_parts t)) (f g) /\ regrouped g (f g)) ->
  let t' := {| t with t_groups := f <$> t_groups t |} in topic_ok t' /\ topic_live t' = topic_live t /\ tsame eq t t'.
Proof.
  intros H Hf t'. pose proof (to_groups _ H) as Hg. rewrite Forall_forall in Hg.
  assert (En : g_name <$> (f <$> t_groups t) = g_name <$> t_groups t).
  { rewrite <- list_fmap_compose. apply list_fmap_ext. intros i g Hi. cbn. apply Hf, Hg. by eapply list_elem_of_lookup_2. }
  split; [|split].
  - destruct H. constructor; cbn; try done; [|by rewrite En]. apply Forall_fmap, Forall_forall. intros g Hin. apply Hf. by apply Hg.
  - unfold topic_live. cbn [t' t_name t_id_persisted t_parts t_groups]. change (record_live t') with (record_live t).
    change (identity_live t') with (identity_live t). change (group_live t') with (group_live t).
    assert (E : zsum (group_live t) (f <$> t_groups t) = zsum (group_live t) (t_groups t)); [|lia].
    assert (Hn : forall g, g ∈ t_groups t -> g_name (f g) = g_name g) by (intros g Hin; by apply Hf, Hg).
    clear -Hn. induction (t_groups t) as [|g l IH]; [done|]. cbn [fmap list_fmap zsum]. rewrite IH by (intros; apply Hn; by right).
    unfold group_live. rewrite Hn by (by left). done.
  - constructor; cbn; try done. intros k p. unfold offset_of, find_group. cbn [t' t_groups].
    assert (Hn : forall g, g ∈ t_groups t -> regrouped g (f g)) by (intros g Hin; by apply Hf, Hg).
    clear -Hn. induction (t_groups t) as [|g l IH]; [done|]. cbn [fmap list_fmap find].
    destruct (Hn g ltac:(by left)) as [-> Eo]. destruct (name_eqb (g_name g) k); [by rewrite Eo|]. apply IH. intros x Hx. apply Hn. by right.
Qed.

Lemma map_groups_ready f s hs a : ready s hs a -> (forall n g, group_ok n g -> group_ok n (f g) /\ regrouped g (f g)) ->
  ready (map_groups f s) hs a.
Proof.
  intros [[[M1 M2] Ml Ma Mi] L (m & Hl & S) F P] Hf. set (h := fun t => {| t with t_groups := f <$> t_groups t |}).
  assert (Hh : forall t, t ∈ ss_topics s -> topic_ok (h t) /\ topic_live (h t) = topic_live t /\ tsame eq t (h t)).
  { intros t Hin. rewrite Forall_forall in M1. apply mapped_topic; [auto|]. intros g Hg. by apply Hf. }
  constructor.
  - constructor; cbn; try done; [split|].
    + apply Forall_fmap, Forall_forall. intros t Hin. by apply Hh.
    + rewrite <- list_fmap_compose. exact M2.
    + rewrite Ml. fold h. clear -Hh. induction (ss_topics s) as [|t l IH]; [done|]. cbn [fmap list_fmap zsum].
      rewrite IH by (intros; apply Hh; by right). destruct (Hh t ltac:(by left)) as (_ & -> & _). done.
  - by eapply live_fields.
  - exists m. split; [done|]. etransitivity; [exact S|]. apply same_weaken; [apply _|]. intros name. change (ss_topics (map_groups f s)) with (h <$> ss_topics s).
    rewrite find_mapped by done. destruct (find_topic (ss_topics s) name) as [t|] eqn:E; constructor. apply Hh. by eapply find_topic_name.
  - done.
  - unfold persisted in *. cbn. apply Forall_fmap. eapply Forall_impl; [exact P|]. done.
Qed.

Lemma leave_owner_step gone s hs a owner : ready s hs a -> outcome gone hs a (stream_group_leave_owner s owner) False.
Proof.
  intros R. unfold stream_group_leave_owner. destruct (owner =? 0); [by apply outcome_ready|]. apply outcome_ready, map_groups_ready; [done|].
  intros n g Hg. rewrite leave_keeping. by apply keeping_ok.
Qed.

Lemma reap_step gone s hs a now : ready s hs a -> outcome gone hs a (stream_reap s now) False.
Proof.
  intros R. apply outcome_ready, map_groups_ready; [done|]. intros n g Hg. rewrite reap_keeping. by apply keeping_ok.
Qed.

End StreamCommits.
