(* ===== verification/StreamRecovery.v ===== *)
(** * Runs of the stream engine

    The calls as data, and what a sequence of them with crashes between keeps:
    a property of the durable states that every record respects holds of
    whatever a crash brings back.

    Then, in [StreamRecovery]: opening the stream store after a crash.
    Then, in [StreamHistory]: histories of the stream engine: calls, crashes and restarts. *)

From stdpp Require Import base numbers option list.
From S2P Require Import Prelude Crc Stream StreamLog StreamOps StreamSpec StreamRetain StreamEvents StreamMem.
From S2P Require Import StreamCodec StreamCompact StreamDisk StreamFlight StreamSteps StreamCommits.
Import Stream StreamLog StreamOps StreamSpec StreamRetain StreamEvents StreamSame StreamMem StreamCodec StreamReopen StreamCompact StreamDisk StreamTrace StreamFlight StreamSteps StreamGroups StreamCommits.

Module StreamRun.

(** ** Reading *)

Lemma copy_views_nil s l : ss_allocs s = [] -> copy_views s l = (true, s).
Proof.
  intros A. induction l as [|r l IH]; [done|]. cbn [copy_views]. rewrite salloc_nil by done.
  destruct (zlen (r_key r) =? 0); [|rewrite salloc_nil by done]; cbn [negb andb]; apply IH.
Qed.

Lemma fetch_page_state s x off max max_bytes : ss_allocs s = [] -> (fetch_page s x off max max_bytes).2 = s.
Proof.
  intros A. unfold fetch_page. destruct (fetch_scan _ _ _ _ _ _) as [l|]; [|done]. rewrite salloc_nil by done. cbn [negb].
  by rewrite copy_views_nil.
Qed.

Lemma fetch_state s name p off max max_bytes : ss_allocs s = [] -> (stream_fetch s name p off max max_bytes).2 = s.
Proof.
  intros A. unfold stream_fetch. destruct (fetch_args_bad _ _); [done|]. destruct (find_topic _ _) as [t|]; [|done].
  destruct (t_parts t !! _) as [x|]; [|done]. pose proof (fetch_page_state s x off max max_bytes A) as E.
  by destruct (fetch_page s x off max max_bytes) as [[rc|l] s'].
Qed.

Lemma fetch_metadata_step gone s hs a name p off max max_bytes expected now : ready s hs a -> Forall roomy (ss_topics s) ->
  outcome gone hs a (stream_fetch_metadata s name p off max max_bytes expected now).2 False.
Proof.
  intros R Hr. unfold stream_fetch_metadata. destruct (_ || _); [by apply outcome_ready|].
  destruct (find_topic (ss_topics s) name) as [t|] eqn:En; [|by apply outcome_ready]. destruct (_ <=? p); [by apply outcome_ready|].
  pose proof (enforce_spec gone s t hs a now (ready_pending _ _ _ _ _ R En) (parts_fit_of _ _ _ Hr En)) as K.
  destruct (enforce s t true now) as [[rc s'] t']. destruct K as [(-> & B)|(-> & hs' & base & touched & s1 & G & P & _)]; cbn [Z.eqb negb].
  { by apply broken_outcome, broken_set. }
  eapply outcome_after; [exact G|done|]. pose proof (pending_ready _ _ _ _ _ P ltac:(done)) as R'.
  destruct (t_parts t' !! Z.to_nat p) as [x|]; [|by apply outcome_ready].
  destruct (range_of t' x off expected); try (by apply outcome_ready).
  pose proof (fetch_page_state (set_topic s' t') x off max max_bytes (mo_allocs _ (rd_mem _ _ _ R'))) as E.
  destruct (fetch_page _ x off max max_bytes) as [[rc|l] s2]; cbn in E |- *; subst; by apply outcome_ready.
Qed.

Lemma checkpoint_step gone s hs a : ready s hs a -> Forall roomy (ss_topics s) ->
  outcome gone hs a (stream_checkpoint_maybe s).2 False.
Proof.
  intros R Hr. unfold stream_checkpoint_maybe. destruct (_ || _); [by apply outcome_ready|].
  pose proof (compact_maybe_spec gone s hs a R (roomy_bounded _ Hr)) as C. destruct (compact_maybe_locked s) as [rc s'].
  destruct C as (hs' & a' & G & Ha & D & My & [[-> R']|[-> F]]); eapply outcome_after; try done; [by apply outcome_ready|by apply outcome_failed].
Qed.

(** ** The calls *)

Inductive scall :=
  | SDeclare (name : bytes) (parts maxb age : Z)
  | STruncate (name : bytes) (p base expected : Z)
  | SRetention (name : bytes) (maxb age expected now : Z)
  | SDelete (name : bytes) (expected : Z)
  | SAppend (name : bytes) (hint : Z) (key body : bytes) (at_ now : Z)
  | SBatch (name : bytes) (hint : Z) (inputs : list (bytes * bytes)) (at_ now : Z)
  | SFetch (name : bytes) (p off max max_bytes : Z)
  | SFetchMeta (name : bytes) (p off max max_bytes : Z) (expected : option bytes) (now : Z)
  | SCommit (name gname : bytes) (p off : Z)
  | SGeneration (name gname : bytes) (now : Z)
  | SCommitGen (name gname : bytes) (p off expected now : Z)
  | SCommitBatchGen (name gname : bytes) (inputs : list (Z * Z)) (expected now : Z)
  | SReset (name gname : bytes) (expected : Z) (strategy : offset_reset) (absolute delta : Z) (force : bool)
      (cap : option Z) (now : Z)
  | SJoin (name gname : bytes) (owner lease now : Z)
  | SLeaveMember (name gname : bytes) (owner : Z)
  | SLeaveOwner (owner : Z)
  | SReap (now : Z)
  | SAssigned (name gname : bytes) (owner p now : Z)
  | SCommitOwner (name gname : bytes) (p off owner now : Z)
  | SCommitOwnerGen (name gname : bytes) (p off owner expected now : Z)
  | SCommitBatchOwner (name gname : bytes) (owner : Z) (inputs : list (Z * Z)) (now : Z)
  | SCheckpoint.

(** The result code and the store. *)
Definition sdo (s : sstore) (c : scall) : Z * sstore :=
  match c with
  | SDeclare name parts maxb age => stream_declare s name parts maxb age
  | STruncate name p base expected => stream_truncate_if_revision s name p base expected
  | SRetention name maxb age expected now => stream_set_retention_if_revision s name maxb age expected now
  | SDelete name expected => stream_delete_if_revision s name expected
  | SAppend name hint key body at_ now => let '(rc, _, s) := stream_append s name hint key body at_ now in (rc, s)
  | SBatch name hint inputs at_ now => let '(rc, _, s) := stream_append_batch s name hint inputs at_ now in (rc, s)
  | SFetch name p off max max_bytes => let '(rc, _, s) := stream_fetch s name p off max max_bytes in (rc, s)
  | SFetchMeta name p off max max_bytes expected now =>
      let '(r, s) := stream_fetch_metadata s name p off max max_bytes expected now in
      (match r with inl rc => rc | inr _ => 0 end, s)
  | SCommit name gname p off => stream_commit s name gname p off
  | SGeneration name gname now => let '(rc, _, s) := stream_group_generation s name gname now in (rc, s)
  | SCommitGen name gname p off expected now => stream_commit_if_generation s name gname p off expected now
  | SCommitBatchGen name gname inputs expected now => stream_commit_batch_if_generation s name gname inputs expected now
  | SReset name gname expected strategy absolute delta force cap now =>
      let '(rc, _, s) := stream_group_reset_offsets_if_generation s name gname expected strategy absolute delta force cap now in
      (rc, s)
  | SJoin name gname owner lease now => let '(rc, _, _, s) := stream_group_join s name gname owner lease now in (rc, s)
  | SLeaveMember name gname owner => stream_group_leave_member s name gname owner
  | SLeaveOwner owner => (0, stream_group_leave_owner s owner)
  | SReap now => (0, stream_reap s now)
  | SAssigned name gname owner p now => let '(rc, _, s) := stream_group_member_assigned s name gname owner p now in (rc, s)
  | SCommitOwner name gname p off owner now => stream_commit_for_owner s name gname p off owner now
  | SCommitOwnerGen name gname p off owner expected now =>
      stream_commit_for_owner_if_generation s name gname p off owner expected now
  | SCommitBatchOwner name gname owner inputs now => stream_commit_batch_for_owner s name gname owner inputs now
  | SCheckpoint => stream_checkpoint_maybe s
  end.

(** The types of the arguments. *)
Definition call_ok (c : scall) : Prop :=
  match c with
  | SDeclare name parts maxb age => bytes_ok name /\ 0 <= parts /\ fits 64 maxb /\ fits 64 age
  | STruncate name p base expected => 0 <= p
  | SRetention name maxb age expected now => fits 64 maxb /\ fits 64 age
  | SAppend name hint key body at_ now => 0 <= hint /\ record_args key body at_
  | SBatch name hint inputs at_ now => 0 <= hint /\ Forall (fun i => record_args i.1 i.2 at_) inputs
  | SCommit name gname p off => bytes_ok gname /\ 0 <= p
  | SCommitGen name gname p off expected now => 0 <= p
  | SCommitBatchGen name gname inputs expected now => Forall (fun i => 0 <= i.1) inputs
  | SJoin name gname owner lease now => bytes_ok gname
  | SCommitOwner name gname p off owner now => 0 <= p /\ fits 64 off
  | SCommitOwnerGen name gname p off owner expected now => 0 <= p
  | SCommitBatchOwner name gname owner inputs now => bytes_ok gname /\ Forall (fun i => 0 <= i.1 /\ fits 64 i.2) inputs
  | _ => True
  end.

(** Calls that write and succeed return behind the barrier. *)
Definition acknowledged (s : sstore) (c : scall) : Prop :=
  match c with
  | SDeclare name _ _ _ => (sdo s c).1 = 0 /\ find_topic (ss_topics s) name = None
  | SCommit name gname p off => (sdo s c).1 = 0 /\ exists t, find_topic (ss_topics s) name = Some t /\ offset_of t gname (Z.to_nat p) < off
  | STruncate _ _ _ _ | SRetention _ _ _ _ _ | SDelete _ _ | SAppend _ _ _ _ _ _ | SBatch _ _ _ _ _
  | SCommitGen _ _ _ _ _ _ | SCommitBatchGen _ _ _ _ _ | SReset _ _ _ _ _ _ _ _ _ | SCommitOwner _ _ _ _ _ _
  | SCommitOwnerGen _ _ _ _ _ _ _ | SCommitBatchOwner _ _ _ _ _ => (sdo s c).1 = 0
  | _ => False
  end.

Definition deletes (c : scall) (n : bytes) : Prop := match c with SDelete name _ => n = name | _ => False end.

Lemma call_step s hs a c : ready s hs a -> Forall roomy (ss_topics s) -> call_ok c ->
  outcome (deletes c) hs a (sdo s c).2 (acknowledged s c).
Proof.
  intros R Hr Hc. destruct c; cbn [sdo acknowledged call_ok] in *; destruct_and?.
  - by apply declare_step.
  - by apply truncate_step.
  - by apply set_retention_step.
  - by apply delete_step.
  - pose proof (append_step (deletes (SAppend name hint key body at_ now)) s hs a name hint key body at_ now R Hr ltac:(done) ltac:(done)) as K.
    destruct (stream_append s name hint key body at_ now) as [[rc pos] s']. apply reaching_outcome.
    destruct K as (hs' & a' & G & Ha & K & _). by exists hs', a'.
  - pose proof (batch_step (deletes (SBatch name hint inputs at_ now)) s hs a name hint inputs at_ now R Hr ltac:(done) ltac:(done)) as K.
    destruct (stream_append_batch s name hint inputs at_ now) as [[rc pos] s']. apply reaching_outcome.
    destruct K as (hs' & a' & G & Ha & K & _). by exists hs', a'.
  - pose proof (fetch_state s name p off max max_bytes (mo_allocs _ (rd_mem _ _ _ R))) as E.
    destruct (stream_fetch s name p off max max_bytes) as [[rc l] s']. cbn in E. subst. by apply outcome_ready.
  - pose proof (fetch_metadata_step (deletes (SFetchMeta name p off max max_bytes expected now)) s hs a name p off max max_bytes expected now R Hr) as K.
    by destruct (stream_fetch_metadata s name p off max max_bytes expected now).
  - by apply commit_step.
  - pose proof (generation_step (deletes (SGeneration name gname now)) s hs a name gname now R) as K.
    by destruct (stream_group_generation s name gname now) as [[rc g] s'].
  - by apply commit_gen_step.
  - by apply commit_batch_gen_step.
  - pose proof (reset_step (deletes (SReset name gname expected strategy absolute delta force cap now)) s hs a name gname expected strategy absolute delta force cap now R Hr) as K.
    by destruct (stream_group_reset_offsets_if_generation s name gname expected strategy absolute delta force cap now) as [[rc l] s'].
  - pose proof (join_step (deletes (SJoin name gname owner lease now)) s hs a name gname owner lease now R ltac:(done)) as K.
    by destruct (stream_group_join s name gname owner lease now) as [[[rc l] g] s'].
  - by apply leave_member_step.
  - by apply leave_owner_step.
  - by apply reap_step.
  - pose proof (assigned_step (deletes (SAssigned name gname owner p now)) s hs a name gname owner p now R) as K.
    by destruct (stream_group_member_assigned s name gname owner p now) as [[rc g] s'].
  - by apply commit_owner_step.
  - by apply commit_owner_gen_step.
  - by apply commit_batch_owner_step.
  - by apply checkpoint_step.
Qed.

End StreamRun.

(** * Opening the stream store after a crash

    A store that opens a log holds what the log says: identities are added
    where they are missing, and retention removes records at the head of
    partitions. *)

Import Stream StreamLog StreamOps StreamSpec StreamRetain StreamEvents StreamSame StreamMem StreamCodec StreamReopen StreamCompact StreamDisk StreamTrace StreamFlight StreamSteps.

Module StreamRecovery.

(** No topic goes. *)
Definition nobody : bytes -> Prop := fun _ => False.

(** The retention of the start-up, which visits [k] topics at the times [nows],
    finds nothing to drop in the topic: no first record of a partition is too
    old, and the topic is not too large. *)
Definition idle (k : nat) (nows : list Z) (t : topic) : Prop :=
  (t_max_age_ms t = 0 \/ (k <= length nows)%nat /\ forall now p r, now ∈ nows -> head_of t p = Some r -> too_old t now r = false) /\
  (t_max_bytes t = 0 \/ zsum p_bytes (t_parts t) <= t_max_bytes t).

Lemma idle_ext k nows t t' : t_parts t' = t_parts t -> t_max_bytes t' = t_max_bytes t -> t_max_age_ms t' = t_max_age_ms t ->
  idle k nows t -> idle k nows t'.
Proof. unfold idle, head_of, too_old. by intros -> -> ->. Qed.

Lemma idle_free k nows t : t_max_bytes t = 0 -> t_max_age_ms t = 0 -> idle k nows t.
Proof. by split; left. Qed.

(** What an open store has of the topic [t] of the log. *)
Record recovered (k : nat) (nows : list Z) (t t' : topic) : Prop := Recovered {
  rv_name : t_name t' = t_name t;
  rv_limits : t_max_bytes t' = t_max_bytes t /\ t_max_age_ms t' = t_max_age_ms t;
  rv_parts : Forall2 later (t_parts t) (t_parts t');
  rv_all : idle k nows t -> t_parts t' = t_parts t;
  rv_flag : t_id_persisted t' = true;
  rv_id : t_id_persisted t = true -> t_id t' = t_id t;
  rv_offsets : forall g p, offset_of t' g p = offset_of t g p }.

Definition reopened (nows : list Z) (m l : list topic) : Prop :=
  forall n, option_Forall2 (recovered (length m) nows) (find_topic m n) (find_topic l n).

(** ** Identities *)

(** Like [ready], before every topic has its identity in the log. *)
Record almost (s : sstore) (hs : list (list topic)) (a : nat) : Prop := Almost {
  al_mem : mem_ok s;
  al_live : live s hs a;
  al_holds : holds hs (ss_topics s);
  al_failed : ss_failed s = false }.

Definition identified (t : topic) : topic := {| t with t_id_persisted := true |}.

Definition upgraded (names : list bytes) (t : topic) : topic := if decide (t_name t ∈ names) then identified t else t.

Lemma identified_id t : t_id_persisted t = true -> identified t = t.
Proof. intros E. destruct t. cbn in *. by subst. Qed.

Lemma find_identified s t n : find_topic (ss_topics s) (t_name t) = Some t ->
  find_topic (put_topic (ss_topics s) (identified t)) n = upgraded [t_name t] <$> find_topic (ss_topics s) n.
Proof.
  intros E. rewrite find_put. change (t_name (identified t)) with (t_name t). destruct (decide (t_name t = n)) as [<-|Hn].
  - rewrite E. cbn. unfold upgraded. by rewrite decide_True by (by left).
  - destruct (find_topic (ss_topics s) n) as [u|] eqn:Eu; [|done]. apply find_topic_name in Eu as [En _]. cbn. unfold upgraded.
    rewrite decide_False; [done|]. intros Hin%list_elem_of_singleton. congruence.
Qed.

Lemma upgraded_cons name names t : upgraded names (upgraded [name] t) = upgraded (name :: names) t.
Proof.
  unfold upgraded. destruct (decide (t_name t ∈ [name])) as [H1|H1].
  - rewrite (decide_True (P := t_name t ∈ name :: names)) by (apply list_elem_of_singleton in H1 as ->; by left).
    change (t_name (identified t)) with (t_name t). by destruct (decide _).
  - destruct (decide (t_name t ∈ names)); [rewrite decide_True by (by right); done|]. rewrite decide_False; [done|].
    intros [Eq|]%elem_of_cons; [|done]. apply H1. rewrite Eq. by left.
Qed.

(** One topic gets its identity into the log. *)
Lemma identify s hs a t : almost s hs a -> find_topic (ss_topics s) (t_name t) = Some t -> t_id_persisted t = false ->
  let '(rc, s') := log_record s S_IDENTITY (identity_body (t_name t) (t_id t)) in
  rc = 0 -> exists hs', grows nobody hs hs' /\ almost (add_live (set_topic s' (identified t)) (identity_live t)) hs' a /\
    ss_topics s' = ss_topics s.
Proof.
  intros [M L Hh F] E Hp. destruct (topic_of s _ t M E) as [Hk _].
  pose proof (short_len _ (to_name _ Hk)) as Hlen. destruct (to_id _ Hk) as [I1 I2].
  assert (He : ev_ok (EIdentity (t_name t) (t_id t))).
  { split; [apply Hk|]. unfold STREAM_ID_LEN in *. split; [small_record|done]. }
  assert (Ee : effect (EIdentity (t_name t) (t_id t)) (ss_topics s) = Some (put_topic (ss_topics s) (identified t))).
  { cbn [effect]. unfold on_topic. by rewrite E. }
  destruct (log_event nobody s hs a _ _ _ L (mo_allocs _ M) He ltac:(done) (topics_ok_regular _ (mo_topics _ M)) Hh Ee) as (m1 & G & Hh' & K).
  cbn [ev_record fst snd] in K. destruct (log_record s S_IDENTITY _) as [rc s']. destruct K as ([My _ _] & D & K). intros ->.
  destruct K as [(_ & F' & L')|(? & _)]; [|done]. exists (hs ++ [m1]). split; [done|]. split; [|apply My].
  pose proof My as [Y1 Y2 Y3 Y4 Y5].
  change (almost (set_topic (add_live s' (identity_live t)) (identified t)) (hs ++ [m1]) a). constructor.
  - apply (put_ok s' t); [by eapply mem_ok_memory|by rewrite Y1|done|destruct Hk; by constructor|].
    pose proof (identity_topic_live t (t_id t)) as Hil. rewrite Hp in Hil. symmetry. exact Hil.
  - by eapply live_fields.
  - cbn [set_topic add_live ss_topics]. by rewrite Y1.
  - cbn. congruence.
Qed.

Lemma upgrade_flag names : forall s s' b, upgrade names s true = Some (s', b) -> b = true.
Proof.
  induction names as [|x names IH]; intros s s' b; cbn [upgrade]; [by intros [= _ <-]|].
  destruct (find_topic (ss_topics s) x) as [u|]; [|apply IH]. destruct (t_id_persisted u); [apply IH|].
  destruct (salloc s) as [ok s2]. destruct ok; cbn [negb]; [|done].
  destruct (log_record s2 S_IDENTITY _) as [rc s3]. destruct (negb (rc =? 0)); [done|apply IH].
Qed.

Lemma upgrade_spec names : forall s hs a b s' b', almost s hs a -> upgrade names s b = Some (s', b') ->
  exists hs', grows nobody hs hs' /\ almost s' hs' a /\
    (forall n, find_topic (ss_topics s') n = upgraded names <$> find_topic (ss_topics s) n) /\ (b' = false -> s' = s).
Proof.
  induction names as [|name names IH]; intros s hs a b s' b' Al; cbn [upgrade].
  { intros [= -> ->]. exists hs. split; [constructor|]. split; [done|]. split; [|done]. intros n.
    destruct (find_topic (ss_topics s') n); [|done]. cbn. unfold upgraded. by rewrite decide_False by apply not_elem_of_nil. }
  assert (Hskip : (forall n u, find_topic (ss_topics s) n = Some u -> upgraded [name] u = u) -> upgrade names s b = Some (s', b') ->
    exists hs', grows nobody hs hs' /\ almost s' hs' a /\
    (forall n, find_topic (ss_topics s') n = upgraded (name :: names) <$> find_topic (ss_topics s) n) /\ (b' = false -> s' = s)).
  { intros Hu E. destruct (IH s hs a b s' b' Al E) as (hs' & G & Al' & Hf & Hb). exists hs'. split_and!; try done.
    intros n. rewrite Hf. destruct (find_topic (ss_topics s) n) as [u|] eqn:Eu; [|done]. cbn. f_equal.
    by rewrite <- upgraded_cons, (Hu n u Eu). }
  destruct (find_topic (ss_topics s) name) as [t|] eqn:Et.
  - destruct (topic_of s name t (al_mem _ _ _ Al) Et) as [_ En]. destruct (t_id_persisted t) eqn:Ep.
    + apply Hskip. intros n u Eu. unfold upgraded. destruct (decide _) as [Hin%list_elem_of_singleton|]; [|done].
      pose proof Eu as [Enn _]%find_topic_name. rewrite <- Enn, Hin, Et in Eu. injection Eu as <-. by apply identified_id.
    + rewrite salloc_nil by apply Al. cbn [negb]. rewrite <- En in Et. pose proof (identify s hs a t Al Et Ep) as K. rewrite <- En.
      destruct (log_record s S_IDENTITY _) as [rc s1]. destruct (Z.eqb_spec rc 0) as [E0|]; cbn [negb]; [|done].
      destruct (K E0) as (hs1 & G1 & Al1 & E1). intros E. destruct (IH _ hs1 a true s' b' Al1 E) as (hs' & G & Al' & Hf & Hb).
      exists hs'. split; [by eapply grows_trans|]. split; [done|]. split.
      * intros n. rewrite Hf. cbn [add_live set_topic ss_topics]. rewrite E1, (find_identified s t n Et).
        destruct (find_topic (ss_topics s) n) as [u|]; [|done]. cbn. by rewrite upgraded_cons.
      * intros ->. by apply upgrade_flag in E.
  - apply Hskip. intros n u Eu. unfold upgraded. destruct (decide _) as [Hin%list_elem_of_singleton|]; [|done].
    pose proof Eu as [Enn _]%find_topic_name. rewrite <- Enn, Hin, Et in Eu. done.
Qed.

(** ** Retention on opening *)

(** A topic that has lost records at the head of partitions, unless it keeps
    to its limits. *)
Record lossy (k : nat) (nows : list Z) (t t' : topic) : Prop := Lossy {
  ly_same : tsame later t t';
  ly_all : idle k nows t -> t_parts t' = t_parts t }.

Lemma lossy_refl k nows t : lossy k nows t t.
Proof. by constructor. Qed.

(** One topic at the first time, then the others. *)
Lemma idle_first k nows t : idle (S k) nows t -> idle 1 [hd 0 nows] t /\ idle k (tail nows) t.
Proof.
  intros [Ha Hb]. destruct nows as [|now nows].
  - destruct Ha as [Ha|[Hl _]]; [|cbn in Hl; lia]. by split; split; try done; left.
  - split; (split; [|done]); (destruct Ha as [Ha|[Hl Ha]]; [by left|right]); cbn in *; (split; [lia|]); intros x p r Hx.
    + apply list_elem_of_singleton in Hx as ->. apply Ha. by left.
    + apply Ha. by right.
Qed.

Lemma lossy_trans k nows a b c : lossy 1 [hd 0 nows] a b -> lossy k (tail nows) b c -> lossy (S k) nows a c.
Proof.
  intros [S1 A1] [S2 A2]. constructor; [by etransitivity|]. intros [H1 H2]%idle_first. rewrite A2, A1; [done|done|].
  eapply idle_ext; [by apply A1|by rewrite (ts_max _ _ _ S1)|by rewrite (ts_age _ _ _ S1)|done].
Qed.

Lemma lossy_skip k nows t t' : lossy k (tail nows) t t' -> lossy (S k) nows t t'.
Proof. intros H. eapply lossy_trans; [apply lossy_refl|done]. Qed.

Lemma trim_later b x : contiguous x -> b <= p_next x -> later x (trim_to b x).
Proof.
  intros [Ho Hn] Hb. exists (split_below b (p_recs x)).1. rewrite trim_to_recs, trim_to_base, trim_to_next, trim_to_bytes.
  split_and!; [by rewrite split_below_app|lia..].
Qed.

Lemma retain_lossy s t now : topic_ok t ->
  let '(s', t', base, touched) := retain s t now in passed s t s' t' base touched /\ lossy 1 [now] t t'.
Proof.
  intros H. pose proof (retain_passed s t now H) as P. destruct (retain s t now) as [[[s' t'] base] touched] eqn:E. split; [done|].
  pose proof P as [_ Pk Pn [Pl1 Pl2] [Pi1 Pi2] Pg _ _ [_ Pe] Pp Pw _ _]. constructor.
  - constructor; try done.
    + apply Forall2_lookup. intros p. destruct (t_parts t !! p) as [x|] eqn:Ex.
      * rewrite (Pp p x Ex). constructor. apply trim_later; [exact (sound_at t p x (topic_ok_sound t H) Ex)|]. by apply Pw.
      * rewrite (lookup_ge_None_2 (t_parts t') p) by (rewrite Pe; by apply lookup_ge_None). constructor.
    + intros g p. unfold offset_of, find_group. by rewrite Pg.
  - intros [Ha Hb]. rewrite retain_idle in E; [by injection E as _ <- _ _| |by rewrite (to_bytes _ H)].
    destruct Ha as [Ha|[_ Ha]]; [by left|right]. intros p r. apply Ha. by left.
Qed.

Lemma enforce_all_spec names : forall s nows hs a, ready s hs a ->
  ready (enforce_all names s nows) hs a /\
  forall n, option_Forall2 (lossy (length names) nows) (find_topic (ss_topics s) n) (find_topic (ss_topics (enforce_all names s nows)) n).
Proof.
  induction names as [|name names IH]; intros s nows hs a R; cbn [enforce_all length].
  { split; [done|]. intros n. destruct (find_topic (ss_topics s) n); by constructor. }
  assert (Hs : forall x y, option_Forall2 (lossy (length names) (tail nows)) x y -> option_Forall2 (lossy (S (length names)) nows) x y).
  { intros x y []; constructor. by apply lossy_skip. }
  destruct (find_topic (ss_topics s) name) as [t|] eqn:E.
  2:{ destruct (IH s (tail nows) hs a R) as [R2 F2]. split; [done|]. intros n. by apply Hs. }
  unfold enforce.
  pose proof (ready_pending _ _ _ _ _ R E) as P. pose proof (pending_ok _ _ _ _ _ P) as Hk. pose proof (pending_flag _ _ _ _ _ P) as Hp.
  pose proof (retain_lossy s t (hd 0 nows) Hk) as K. destruct (retain s t (hd 0 nows)) as [[[s1 t'] base] touched]. cbn [negb].
  destruct K as [Ps Ly]. pose proof (ly_same _ _ _ _ Ly) as S. pose proof (pa_store _ _ _ _ _ _ Ps) as Es. pose proof (pa_name _ _ _ _ _ _ Ps) as Nt.
  assert (P' : pending s1 t' t hs a).
  { rewrite Es. apply (pending_memory s t); try done; [apply Ps|]. by rewrite (ts_flag _ _ _ S). }
  assert (R' : ready (set_topic s1 t') hs a).
  { destruct P' as [M L (m & Hl & Sm) F Pp I N]. constructor; try done; [by eapply live_fields|]. exists m. split; [done|].
    etransitivity; [exact Sm|]. by apply same_put. }
  destruct (IH (set_topic s1 t') (tail nows) hs a R') as [R2 F2]. split; [done|]. intros n. specialize (F2 n). revert F2.
  cbn [set_topic ss_topics]. rewrite Es. cbn [add_live ss_topics]. rewrite find_put, Nt.
  destruct (topic_of s name t (rd_mem _ _ _ R) E) as [_ En]. destruct (decide (t_name t = n)) as [Hn|]; [|by apply Hs].
  rewrite <- Hn, En, E. intros F2. inversion F2; subst. constructor. by eapply lossy_trans.
Qed.

(** ** Opening *)

Definition ids_ok (ids : list bytes) : Prop := Forall (fun i => bytes_ok i /\ zlen i = STREAM_ID_LEN) ids.

Lemma blank_mem file ids ws sy : ids_ok ids -> mem_ok (stream_blank file ids ws sy []).
Proof. intros H. constructor; try done. split; [constructor|apply NoDup_nil_2]. Qed.

Lemma find_self l t : NoDup (t_name <$> l) -> t ∈ l -> find_topic l (t_name t) = Some t.
Proof.
  induction l as [|x l IH]; cbn [fmap list_fmap]; intros Hd Hin; [by apply not_elem_of_nil in Hin|].
  apply NoDup_cons in Hd as [Hx Hd]. rewrite find_topic_cons. apply elem_of_cons in Hin as [->|Hin]; [by rewrite decide_True|].
  rewrite decide_False; [auto|]. intros E. apply Hx. rewrite E. by apply list_elem_of_fmap_2.
Qed.

(** The store with its topics identified is ready. *)
Lemma almost_ready s0 s hs a : almost s hs a ->
  (forall n, find_topic (ss_topics s) n = upgraded (t_name <$> ss_topics s0) <$> find_topic (ss_topics s0) n) -> ready s hs a.
Proof.
  intros [M L H F] Hf. constructor; try done. apply Forall_forall. intros t Hin.
  pose proof (find_self _ t (proj2 (mo_topics _ M)) Hin) as E. rewrite Hf in E.
  destruct (find_topic (ss_topics s0) (t_name t)) as [u|] eqn:Eu; [|done]. injection E as <-. unfold upgraded.
  apply find_topic_name in Eu as [_ Hu]. rewrite decide_True; [done|]. by apply list_elem_of_fmap_2.
Qed.

Lemma reopened_of nows m l0 l1 l2 names : same eq m l0 -> (forall n, find_topic l1 n = upgraded names <$> find_topic l0 n) ->
  persisted l1 -> (forall n, option_Forall2 (lossy (length m) nows) (find_topic l1 n) (find_topic l2 n)) -> reopened nows m l2.
Proof.
  intros S Hu Hp Hl n. specialize (S n). specialize (Hl n). specialize (Hu n). revert S Hl. rewrite Hu.
  destruct (find_topic m n) as [t|], (find_topic l0 n) as [u|]; intros S Hl; inversion S as [? ? St|]; subst; cbn in *;
    inversion Hl as [? v [Sl Al]|]; subst; constructor.
  assert (Hf : t_id_persisted (upgraded names u) = true).
  { unfold persisted in Hp. rewrite Forall_forall in Hp. apply Hp. by eapply find_topic_name. }
  assert (E : forall {A} (f : topic -> A), f (identified u) = f u -> f (upgraded names u) = f u).
  { intros A f Ei. unfold upgraded. by destruct (decide _). }
  destruct St as [S1 S2 S3 S4 S5 S6 S7], Sl as [T1 T2 T3 T4 T5 T6 T7].
  rewrite (E _ t_name), (E _ t_max_bytes), (E _ t_max_age_ms), (E _ t_parts) in * by done. apply list_eq_Forall2 in S4 as S4'.
  constructor; try congruence.
  - split; congruence.
  - intros Hi. rewrite Al; [done|]. eapply (idle_ext _ _ t); [rewrite (E _ t_parts) by done|rewrite (E _ t_max_bytes) by done|rewrite (E _ t_max_age_ms) by done|exact Hi]; congruence.
  - intros Hi. rewrite T6 by done. rewrite (E _ t_id) by done. by apply S6.
  - intros g p. rewrite T7. rewrite (E _ (fun t => offset_of t g p)) by done. apply S7.
Qed.

(** The store after the loop, its file cut behind the last record. *)
Lemma loaded s evs m : mem_ok s -> ss_open s = true -> ss_failed s = false -> ss_buf s = [] -> ss_wal_seq s = 0 -> ss_synced_seq s = 0 ->
  ss_file s = frames evs -> ss_durable s = zlen (ss_file s) -> ss_off s = zlen (ss_file s) ->
  Forall ev_ok evs -> effects evs [] = Some m -> same eq m (ss_topics s) -> almost s [m] 0.
Proof.
  intros M Ho F Hb Hw Hs Ef Ed Eo Hok Ee S.
  assert (Rm : regular m) by (eapply effects_regular; [by apply ev_oks_nat|apply regular_nil|done]).
  constructor; try done.
  - constructor; try done; [|lia|by exists evs, m, m].
    constructor; [by apply Forall_singleton|cbn; lia|pose proof (zlen_nonneg (ss_file s)); lia|].
    intros k Hk. rewrite take_ge by (unfold zlen in *; lia). rewrite Ef. eapply recalls_last; try done; cbn; lia.
  - exists m. split; [done|]. apply same_weaken; [apply _|done].
Qed.

(** Behind the sync that follows new identities. *)
Lemma almost_synced s hs a r : almost s hs a ->
  almost {| s with ss_syncs := r; ss_synced_seq := ss_wal_seq s; ss_wal_bytes := ss_off s; ss_durable := zlen (ss_file s) |} hs a.
Proof.
  intros [[M1 M2 M3 M4] [[D1 D2 D3 D4] L2 L3 L4 L5 L6 L7] H F]. constructor; try done. constructor; cbn; try done.
  constructor; cbn; try done; [pose proof (zlen_nonneg (ss_file s)); lia|]. intros k Hk. apply D4. lia.
Qed.

(** Lists with the same names have the same length. *)
Lemma same_names_length l l' : NoDup (t_name <$> l) -> NoDup (t_name <$> l') ->
  (forall n, is_Some (find_topic l n) <-> is_Some (find_topic l' n)) -> length l = length l'.
Proof.
  intros Hd Hd' H. rewrite <- (length_fmap t_name l), <- (length_fmap t_name l'). apply Permutation_length, NoDup_Permutation; [done..|].
  assert (Hin : forall x n, NoDup (t_name <$> x) -> n ∈ t_name <$> x <-> is_Some (find_topic x n)).
  { intros x n Hx. split.
    - intros (t & -> & Ht)%list_elem_of_fmap. exists t. by apply find_self.
    - intros [t [<- Ht]%find_topic_name]. by apply list_elem_of_fmap_2. }
  intros n. by rewrite !Hin.
Qed.

Lemma open_finish names s s1 hs a m nows s' : almost s hs a -> s1 = enforce_all names s' nows -> NoDup (t_name <$> m) ->
  length names = length (ss_topics s') ->
  (forall n, find_topic (ss_topics s') n = upgraded (t_name <$> ss_topics s) <$> find_topic (ss_topics s) n) ->
  same eq m (ss_topics s) -> forall hs', almost s' hs' a -> grows nobody hs hs' ->
  ready s1 hs' a /\ reopened nows m (ss_topics s1).
Proof.
  intros _ -> Hd Hn Hf S hs' Al G. pose proof (almost_ready s s' hs' a Al Hf) as R.
  destruct (enforce_all_spec names s' nows hs' a R) as [R' Hl]. split; [done|].
  eapply reopened_of; [exact S|exact Hf|apply R|]. rewrite (same_names_length m (ss_topics s')); [by rewrite <- Hn|done|apply (mo_topics _ (al_mem _ _ _ Al))|].
  intros n. rewrite Hf. specialize (S n). destruct S; cbn; by rewrite ?is_Some_alt.
Qed.

(** Opening the log of the state [m]. *)
Lemma reopen_spec evs tail m ids ws sy nows s' : Forall ev_ok evs -> torn tail -> effects evs [] = Some m -> ids_ok ids ->
  stream_store_open (stream_blank (frames evs ++ tail) ids ws sy []) nows = Some s' ->
  exists hs, grows nobody [m] hs /\ ready s' hs 0 /\ reopened nows m (ss_topics s').
Proof.
  intros Hok T Ee Hi. unfold stream_store_open. set (file := frames evs ++ tail).
  rewrite (salloc_nil (stream_blank file ids ws sy [])) by done. cbn match. rewrite (salloc_nil (stream_blank file ids ws sy [])) by done.
  cbn match. unfold ssync at 1. cbn [stream_blank ss_syncs]. destruct (draw sy) as [b1 r1]. cbn match. unfold ssync at 1. cbn [ss_syncs].
  destruct (draw r1) as [b2 r2]. cbn match. cbn [andb]. destruct (negb (b1 && b2)); [done|].
  match goal with |- context [open_loop _ ?s _ 0] => set (s0 := s) end.
  assert (M0 : mem_ok s0) by (by destruct (blank_mem file ids ws sy Hi)).
  destruct (open_frames evs (S (length (ss_file s0))) s0 [] m tail 0 M0 regular_nil ltac:(done) Ee Hok T) as (s1 & E1 & M1 & Fx & S).
  { pose proof (frames_length evs). cbn. unfold file. rewrite length_app. lia. }
  match goal with |- context [open_loop ?f ?s ?p 0] => replace (open_loop f s p 0) with (s1, 0 + zlen (frames evs)) by (symmetry; exact E1) end.
  destruct Fx as [X1 X2 X3 X4 X5 [X6 X7] (X8 & X9 & _) [X10 X11]]. cbn match. rewrite Z.add_0_l.
  unfold ssync at 1. destruct (draw (ss_syncs s1)) as [b3 r3]. cbn match. destruct (negb b3); [done|].
  match goal with |- context [upgrade _ ?s false] => set (s2 := s) end.
  assert (Ef : ss_file s2 = frames evs).
  { cbn. rewrite X3. cbn. unfold file, zlen. by rewrite Nat2Z.id, take_app_length. }
  assert (Al : almost s2 [m] 0).
  { apply (loaded s2 evs m); try done; cbn [s2 ss_open ss_failed ss_buf ss_wal_seq ss_synced_seq ss_durable ss_off ss_topics]; try congruence.
    by destruct M1. }
  assert (Rm : regular m) by (eapply effects_regular; [by apply ev_oks_nat|apply regular_nil|done]). pose proof (proj1 Rm) as Hd.
  destruct (upgrade (t_name <$> ss_topics s2) s2 false) as [[s3 up]|] eqn:Eu; [|done].
  destruct (upgrade_spec _ s2 [m] 0 false s3 up Al Eu) as (hs' & G & Al3 & Hf & _). destruct up.
  - rewrite flush_empty by apply Al3. unfold ssync. destruct (draw (ss_syncs s3)) as [b4 r4]. cbn match. destruct b4; cbn [negb]; [|done].
    intros [= <-]. exists hs'. split; [done|]. eapply open_finish; [exact Al|done|exact Hd|by rewrite length_fmap|exact Hf|exact S| |exact G]. by apply almost_synced.
  - intros [= <-]. exists hs'. split; [done|]. by eapply (open_finish _ s2); [exact Al|done|exact Hd|by rewrite length_fmap|exact Hf|exact S| |exact G].
Qed.

(** ** Opening succeeds when the calls it makes do *)

Definition calm (s : sstore) : Prop := ss_writes s = [] /\ ss_syncs s = [].

Lemma pwrite_calm s data off : calm s -> exists s', pwrite_all s data off = (true, s') /\ calm s' /\ ss_buf s' = ss_buf s.
Proof. intros [W Y]. unfold pwrite_all, swrite. rewrite W. by eexists. Qed.

Lemma flush_calm s : calm s -> exists s', wal_flush_locked s = (true, s') /\ calm s' /\ ss_buf s' = [].
Proof.
  intros H. unfold wal_flush_locked. destruct (Z.eqb_spec (zlen (ss_buf s)) 0) as [E|_].
  { exists s. split; [done|]. split; [done|]. by apply zlen_zero. }
  destruct (pwrite_calm s (ss_buf s) (ss_off s) H) as (s' & -> & H' & _). cbn [negb]. by eexists.
Qed.

Lemma stage_calm s op body : calm s -> ss_allocs s = [] -> exists s', wal_stage_locked s op body = (true, s') /\ calm s'.
Proof.
  intros H A. unfold wal_stage_locked. destruct (stage_buffer_same s (9 + zlen body) A) as [cap ->].
  set (s0 := {| s with ss_buf_cap := cap |}). assert (H0 : calm s0) by done. destruct (_ || _).
  - destruct (flush_calm s0 H0) as (s1 & -> & H1 & _). cbn [negb].
    destruct (pwrite_calm s1 (frame_header op body) (ss_off s1) H1) as (s2 & -> & H2 & _). cbn [negb].
    destruct (zlen body =? 0); cbn [negb]; [by eexists|].
    destruct (pwrite_calm s2 body (ss_off s2 + 9) H2) as (s3 & -> & H3 & _). cbn [negb]. by eexists.
  - destruct (_ <? _); cbn [negb]; [|by eexists]. destruct (flush_calm s0 H0) as (s1 & -> & H1 & _). cbn [negb]. by eexists.
Qed.

Lemma log_record_calm s op body : calm s -> ss_allocs s = [] -> exists s', log_record s op body = (0, s') /\ calm s'.
Proof.
  intros H A. unfold log_record. destruct (negb (ss_open s)); [by exists s|].
  destruct (stage_calm s op body H A) as (s1 & -> & H1). destruct (flush_calm s1 H1) as (s2 & -> & H2 & _). cbn [negb]. by eexists.
Qed.

Lemma upgrade_calm names : forall s hs a b, almost s hs a -> calm s -> exists s' b', upgrade names s b = Some (s', b') /\ calm s'.
Proof.
  induction names as [|name names IH]; intros s hs a b Al H; cbn [upgrade]; [by exists s, b|].
  destruct (find_topic (ss_topics s) name) as [t|] eqn:Et; [|by eapply IH]. destruct (t_id_persisted t) eqn:Ep; [by eapply IH|].
  pose proof (mo_allocs _ (al_mem _ _ _ Al)) as A. rewrite salloc_nil by done. cbn [negb].
  destruct (topic_of s name t (al_mem _ _ _ Al) Et) as [_ En]. rewrite <- En in Et |- *. pose proof (identify s hs a t Al Et Ep) as K.
  destruct (log_record_calm s S_IDENTITY (identity_body (t_name t) (t_id t)) H A) as (s1 & E1 & H1). rewrite E1 in K |- *.
  destruct (K eq_refl) as (hs1 & _ & Al1 & _). cbn [Z.eqb negb]. by eapply IH.
Qed.

Lemma open_succeeds evs tail m ids nows : Forall ev_ok evs -> torn tail -> effects evs [] = Some m -> ids_ok ids ->
  exists s', stream_store_open (stream_blank (frames evs ++ tail) ids [] [] []) nows = Some s'.
Proof.
  intros Hok T Ee Hi. unfold stream_store_open. set (file := frames evs ++ tail). set (s0 := stream_blank file ids [] [] []).
  change (salloc s0) with (true, s0). cbn match. change (salloc s0) with (true, s0). cbn match. change (ssync s0) with (true, s0). cbn match.
  change (ssync s0) with (true, s0). cbn match. cbn [andb negb]. assert (M0 : mem_ok s0) by (by apply blank_mem).
  destruct (open_frames evs (S (length (ss_file s0))) s0 [] m tail 0 M0 regular_nil ltac:(done) Ee Hok T) as (s1 & E1 & M1 & Fx & S).
  { pose proof (frames_length evs). cbn. unfold file. rewrite length_app. lia. }
  change (frames evs ++ tail) with (ss_file s0) in E1. rewrite E1, Z.add_0_l.
  destruct Fx as [X1 X2 X3 X4 X5 [X6 X7] (X8 & X9 & _) [X10 X11]].
  assert (Es : ssync s1 = (true, s1)) by (unfold ssync; rewrite X11; cbn; destruct s1; cbn in X11; by subst). rewrite Es. cbn match. cbn [negb].
  match goal with |- context [upgrade _ ?s false] => set (s2 := s) end.
  assert (Ef : ss_file s2 = frames evs).
  { cbn. rewrite X3. cbn. unfold file, zlen. by rewrite Nat2Z.id, take_app_length. }
  assert (Al : almost s2 [m] 0).
  { apply (loaded s2 evs m); try done; cbn [s2 ss_open ss_failed ss_buf ss_wal_seq ss_synced_seq ss_durable ss_off ss_topics]; try congruence.
    by destruct M1. }
  destruct (upgrade_calm (t_name <$> ss_topics s2) s2 [m] 0 false Al ltac:(done)) as (s3 & up & -> & H3). destruct up; [|by eexists].
  destruct (flush_calm s3 H3) as (s4 & -> & [W4 Y4] & _). unfold ssync. rewrite Y4. cbn. by eexists.
Qed.

End StreamRecovery.

(** * Histories of the stream engine: calls, crashes and restarts

    Properties of the durable states that every record respects survive any
    sequence of calls and crashes. *)

Import Stream StreamLog StreamOps StreamSpec StreamRetain StreamEvents StreamSame StreamMem StreamCodec StreamReopen StreamCompact StreamDisk StreamTrace StreamFlight StreamSteps StreamGroups StreamCommits StreamRun StreamRecovery.

Module StreamHistory.

(** ** Histories *)

(** A crash leaves the durable bytes and any part of those behind them; the
    store that is opened on them has new identities, outcomes and clocks. *)
Definition crash_opens (s : sstore) (k : nat) (ids : list bytes) (ws : list write_result) (sy : list bool) (nows : list Z)
    : option sstore := stream_store_open (stream_blank (take k (ss_file s)) ids ws sy []) nows.

(** Calls, crashes and restarts that delete only topics in [gone]. *)
Inductive sruns (gone : bytes -> Prop) (s : sstore) : sstore -> Prop :=
  | sruns_refl : sruns gone s s
  | sruns_call s1 c : sruns gone s s1 -> ss_failed s1 = false -> Forall roomy (ss_topics s1) -> call_ok c ->
      (forall n, deletes c n -> gone n) -> sruns gone s (sdo s1 c).2
  | sruns_crash s1 k ids ws sy nows s2 : sruns gone s s1 -> ss_durable s1 <= Z.of_nat k <= zlen (ss_file s1) -> ids_ok ids ->
      crash_opens s1 k ids ws sy nows = Some s2 -> sruns gone s s2.

Definition anything : bytes -> Prop := fun _ => True.

(** A store opened on a new file. *)
Definition started (s : sstore) : Prop := exists ids ws sy nows, ids_ok ids /\
  stream_store_open (stream_blank [] ids ws sy []) nows = Some s.

(** ** Stable properties of durable states *)

Definition stable (gone : bytes -> Prop) (Q : list topic -> Prop) : Prop :=
  forall m m', regular m -> regular m' -> hstep gone m m' -> Q m -> Q m'.

(** The property holds of every state a crash can bring back. *)
Definition guarded (Q : list topic -> Prop) (s : sstore) : Prop := exists hs a, disk s hs a /\
  (ss_failed s = true \/ ready s hs a) /\ forall j m, (a <= j)%nat -> hs !! j = Some m -> Q m.

Lemma hstep_weaken (P Q : bytes -> Prop) m m' : (forall n, P n -> Q n) -> hstep P m m' -> hstep Q m m'.
Proof. intros H [(e & He & Ee & Hd)|S]; [left; exists e; split_and!; auto|by right]. Qed.

Lemma grows_stable (P gone : bytes -> Prop) Q hs hs' a : (forall n, P n -> gone n) -> stable gone Q -> grows P hs hs' ->
  Forall regular hs' -> (a < length hs)%nat -> (forall j m, (a <= j)%nat -> hs !! j = Some m -> Q m) ->
  (length hs <= length hs')%nat /\ forall j m, (a <= j)%nat -> hs' !! j = Some m -> Q m.
Proof.
  intros Hw Hst G. induction G as [|hs' m m' G IH Hl Hs]; intros Hr Ha HQ; [done|].
  apply Forall_app in Hr as [Hr Hm']. destruct (IH Hr Ha HQ) as [Hlen IHQ]. rewrite length_app. split; [lia|].
  intros j x Hj [Hx|[_ Hx]]%lookup_app_Some; [by eapply IHQ|].
  assert (x = m') as -> by (destruct (j - length hs')%nat; [by injection Hx|done]).
  pose proof (last_index _ _ Hl) as Hi. rewrite Forall_singleton in Hm'. rewrite Forall_lookup in Hr.
  apply (Hst m m'); [by eapply Hr|exact Hm'|by eapply hstep_weaken|]. apply (IHQ (length hs' - 1)%nat); [lia|done].
Qed.

Lemma guarded_outcome (P gone : bytes -> Prop) Q hs a s' acked : (forall n, P n -> gone n) -> stable gone Q -> (a < length hs)%nat ->
  (forall j m, (a <= j)%nat -> hs !! j = Some m -> Q m) -> outcome P hs a s' acked -> guarded Q s'.
Proof.
  intros Hw Hst Ha HQ (hs' & a' & G & Haa & D & R & _). exists hs', a'. split; [done|]. split; [done|].
  destruct (grows_stable P gone Q hs hs' a Hw Hst G (dk_regular _ _ _ D) Ha HQ) as [_ H]. intros j m Hj. apply H. lia.
Qed.

Lemma call_guarded gone Q s c : stable gone Q -> guarded Q s -> ss_failed s = false -> Forall roomy (ss_topics s) -> call_ok c ->
  (forall n, deletes c n -> gone n) -> guarded Q (sdo s c).2.
Proof.
  intros Hst (hs & a & D & R & HQ) F Hr Hc Hd. destruct R as [F'|R]; [congruence|].
  eapply guarded_outcome; [exact Hd|done|apply D|exact HQ|]. by apply call_step.
Qed.

Lemma crash_recalls Q s k : guarded Q s -> ss_durable s <= Z.of_nat k <= zlen (ss_file s) ->
  exists evs tail m, take k (ss_file s) = frames evs ++ tail /\ torn tail /\ Forall ev_ok evs /\ effects evs [] = Some m /\
    exists m', Q m' /\ regular m' /\ same eq m m'.
Proof.
  intros (hs & a & D & _ & HQ) Hk. destruct (dk_crash _ _ _ D k Hk) as (j & m & evs & m' & tail & Hj & Hm & E & T & Ho & Ee & S).
  exists evs, tail, m'. split_and!; try done. exists m. split; [by eapply HQ|]. split; [|done].
  pose proof (dk_regular _ _ _ D) as Hr. rewrite Forall_lookup in Hr. by eapply Hr.
Qed.

Lemma crash_guarded gone Q s k ids ws sy nows s2 : stable gone Q -> guarded Q s -> ss_durable s <= Z.of_nat k <= zlen (ss_file s) ->
  ids_ok ids -> crash_opens s k ids ws sy nows = Some s2 -> guarded Q s2.
Proof.
  intros Hst HG Hk Hi E. destruct (crash_recalls Q s k HG Hk) as (evs & tail & m & Ef & T & Ho & Ee & m' & HQ & Rm' & S).
  unfold crash_opens in E. rewrite Ef in E. destruct (reopen_spec evs tail m ids ws sy nows s2 Ho T Ee Hi E) as (hs & G & R & _).
  assert (Rm : regular m) by (eapply effects_regular; [by apply ev_oks_nat|apply regular_nil|done]).
  assert (HQm : Q m).
  { apply (Hst m' m); [done|done| |done]. right. apply same_weaken; [apply _|]. by symmetry. }
  exists hs, O. split; [apply R|]. split; [by right|].
  apply (grows_stable nobody gone Q [m] hs 0 ltac:(done) Hst G (dk_regular _ _ _ (lv_disk _ _ _ (rd_live _ _ _ R))) ltac:(cbn; lia)).
  intros [|j] x _ Hx; [by injection Hx as <-|done].
Qed.

Lemma runs_guarded gone Q s s' : stable gone Q -> guarded Q s -> sruns gone s s' -> guarded Q s'.
Proof.
  intros Hst HG. induction 1 as [|s1 c Hrun IH F Hr Hc Hd|s1 k ids ws sy nows s2 Hrun IH Hk Hi E]; [done| |].
  - by eapply call_guarded.
  - by eapply crash_guarded.
Qed.

(** What is guarded holds of the topics in memory, while the store works. *)
Lemma guarded_memory gone Q s : stable gone Q -> guarded Q s -> ss_failed s = false -> Q (ss_topics s).
Proof.
  intros Hst (hs & a & D & [F'|R] & HQ) F; [congruence|]. destruct (rd_holds _ _ _ R) as (m & Hl & S).
  pose proof (last_index _ _ Hl) as Hx. pose proof (dk_regular _ _ _ D) as Hr. rewrite Forall_lookup in Hr.
  apply (Hst m (ss_topics s)); [by eapply Hr| |by right|].
  - apply topics_ok_regular. apply (rd_mem _ _ _ R).
  - apply (HQ (length hs - 1)%nat); [|done]. pose proof (dk_at _ _ _ D). lia.
Qed.

(** ** Every reachable store *)

Lemma guarded_true s hs a : disk s hs a -> (ss_failed s = true \/ ready s hs a) -> guarded (fun _ => True) s.
Proof. intros D R. by exists hs, a. Qed.

Lemma stable_true gone : stable gone (fun _ => True).
Proof. done. Qed.

Lemma started_guarded s : started s -> guarded (fun _ => True) s.
Proof.
  intros (ids & ws & sy & nows & Hi & E).
  destruct (reopen_spec [] [] [] ids ws sy nows s ltac:(constructor) torn_nil eq_refl Hi E) as (hs & _ & R & _).
  eapply guarded_true; [apply R|by right].
Qed.

Lemma reached_guarded s s' : started s -> sruns anything s s' -> guarded (fun _ => True) s'.
Proof. intros H. eapply runs_guarded; [apply stable_true|by apply started_guarded]. Qed.

Lemma reached_ready s s' : started s -> sruns anything s s' -> ss_failed s' = false -> exists hs a, ready s' hs a.
Proof. intros H Hr F. destruct (reached_guarded s s' H Hr) as (hs & a & _ & [F'|R] & _); [congruence|eauto]. Qed.

End StreamHistory.
