(* ===== verification/StreamTheorems.v ===== *)
(** * Theorems about the stream engine

    Acknowledged records and states survive crashes, every log can be opened
    again, the counters are right, retention, compaction and reading do what
    they are for; and what goes wrong when memory runs out. *)

From stdpp Require Import base numbers option list sorting.
From S2P Require Import Prelude Crc Stream StreamLog StreamOps StreamSpec StreamRetain StreamEvents StreamMem.
From S2P Require Import StreamCodec StreamCompact StreamDisk StreamFlight StreamSteps StreamCommits.
From S2P Require Import StreamRecovery.
Import Stream StreamLog StreamOps StreamSpec StreamRetain StreamEvents StreamSame StreamMem StreamCodec StreamReopen StreamCompact StreamDisk StreamTrace StreamFlight StreamSteps StreamGroups StreamCommits StreamRun StreamRecovery StreamHistory.

Module StreamTheorems.

(** ** A stored record stays stored *)

Definition kept_in (r : srec) (x : part) : Prop := r ∈ p_recs x \/ r_offset r < p_base x.

Lemma trim_kept b x r : kept_in r x -> kept_in r (trim_to b x).
Proof.
  intros [Hin|Hlt]; [|right; rewrite trim_to_base; lia]. unfold kept_in. rewrite trim_to_recs, trim_to_base.
  rewrite <- (split_below_app b (p_recs x)) in Hin. apply elem_of_app in Hin as [Hg|]; [|by left]. right.
  enough (r_offset r < b) by lia. revert Hg. induction (p_recs x) as [|y l IH]; [by intros ?%not_elem_of_nil|].
  cbn [split_below]. destruct (Z.ltb_spec (r_offset y) b); [|by intros ?%not_elem_of_nil].
  destruct (split_below b l) as [g k]. cbn in *. intros [->|]%elem_of_cons; auto.
Qed.

Lemma link_kept x r r' : kept_in r x -> kept_in r (link_part r' x).
Proof. intros [H|H]; [left; cbn; apply elem_of_app; by left|by right]. Qed.

Lemma later_kept x x' r : contiguous x -> contiguous x' -> later x x' -> kept_in r x -> kept_in r x'.
Proof.
  intros [Ho Hn] [Ho' Hn'] (g & E & Hb & En & _) [Hin|Hlt]; [|right; lia]. rewrite E in Hin.
  apply elem_of_app in Hin as [Hg|]; [|by left]. right. rewrite E in Ho. apply (f_equal zlen) in E. rewrite zlen_app in E.
  enough (r_offset r < p_base x + zlen g) by lia. clear -Ho Hg. revert Ho. generalize (p_base x). induction g as [|y g IH]; intros b.
  - by apply not_elem_of_nil in Hg.
  - cbn [app offsets_from]. rewrite zlen_cons. intros [Hy Ho]. pose proof (zlen_nonneg g).
    apply elem_of_cons in Hg as [->|Hg]; [lia|]. specialize (IH Hg _ Ho). lia.
Qed.

(** The partition of a topic after a change of the topic. *)
Definition keeps (f : topic -> option topic) : Prop := forall t u p x r, f t = Some u -> t_parts t !! p = Some x -> kept_in r x ->
  exists x', t_parts u !! p = Some x' /\ kept_in r x'.

Lemma keeps_same f : (forall t u, f t = Some u -> t_parts u = t_parts t) -> keeps f.
Proof. intros H t u p x r E Hx Hr. rewrite (H t u E). eauto. Qed.

Lemma link_event_keeps q r' : keeps (link_event q r').
Proof.
  intros t u p x r (y & Hy & _ & ->)%link_event_some Hx Hr. cbn. rewrite list_lookup_alter, Hx.
  destruct (decide (Z.to_nat q = p)) as [->|]; [|eauto]. rewrite Hx. eexists. split; [done|]. by apply link_kept.
Qed.

Lemma link_events_keeps items : keeps (link_events items).
Proof.
  induction items as [|[q r'] items IH]; [by apply keeps_same; intros t u [= ->]|]. intros t u p x r. cbn [link_events].
  destruct (link_event q r' t) as [v|] eqn:Ev; [|done]. intros E Hx Hr.
  destruct (link_event_keeps q r' t v p x r Ev Hx Hr) as (x' & Hx' & Hr'). by apply (IH v u p x').
Qed.

Lemma trim_event_keeps q b : keeps (trim_event q b).
Proof.
  intros t u p x r E Hx Hr. unfold trim_event in E. destruct (_ <=? q); [done|]. injection E as <-. cbn.
  rewrite list_lookup_alter, Hx. destruct (decide (Z.to_nat q = p)) as [->|]; [|eauto]. rewrite Hx. eexists. split; [done|]. by apply trim_kept.
Qed.

Lemma change_keeps e name f : ev_change e = Some (name, f) -> keeps f.
Proof.
  destruct e; cbn; intros E; try discriminate; injection E as <- <-.
  - by apply keeps_same; intros t u [= <-].
  - apply link_event_keeps.
  - apply link_events_keeps.
  - apply trim_event_keeps.
  - apply keeps_same. intros t u E. unfold commit_event in E. destruct (_ <=? p); [done|]. injection E as <-. apply commit_fields.
  - by apply keeps_same; intros t u [= <-].
  - by apply keeps_same; intros t u [= <-].
Qed.

Lemma stored_stable (gone : bytes -> Prop) name p r : ~ gone name -> stable gone (fun m => stored m name p r).
Proof.
  intros Hg m m' R R' Hs (t & x & Et & Hx & Hr). destruct Hs as [(e & He & Ee & Hd)|S].
  - destruct (ev_change e) as [[n f]|] eqn:Ec.
    + destruct (ev_change_spec eq e n f Ec (ev_ok_nat e He)) as [C Hf]. rewrite Hf in Ee.
      apply on_topic_some in Ee as (t0 & u & Et0 & Eu & ->). destruct (decide (n = name)) as [->|Hn].
      * rewrite Et in Et0. injection Et0 as <-. destruct (change_keeps e name f Ec t u _ x r Eu Hx Hr) as (x' & Hx' & Hr').
        exists u, x'. split; [|done]. pose proof Et as [En _]%find_topic_name. rewrite find_put, (ch_name _ _ C t u Eu), En, decide_True by done.
        by rewrite Et.
      * exists t, x. split; [|done]. pose proof Et0 as [En _]%find_topic_name. by rewrite find_put, (ch_name _ _ C t0 u Eu), En, decide_False.
    + destruct e; try discriminate; cbn in Ee.
      * destruct (find_topic m name0) as [t0|] eqn:En; [done|]. injection Ee as <-. exists t, x. split; [|done].
        rewrite find_topic_cons. cbn. destruct (decide (name0 = name)) as [->|]; [congruence|done].
      * destruct (find_topic m name0); [|done]. injection Ee as <-. exists t, x. split; [|done]. rewrite find_remove by apply R.
        rewrite decide_False; [done|]. intros ->. by apply Hg, (Hd name0).
  - destruct (same_found later _ _ _ _ S Et) as (t' & Et' & St). pose proof (part_same later _ _ (Z.to_nat p) St) as Hp.
    rewrite Hx in Hp. inversion Hp as [? x' Hl E1 E2|]; subst. exists t', x'. split; [done|]. split; [done|].
    apply (later_kept x); [exact (sound_at t _ x (regular_at _ _ _ R Et) Hx)|exact (sound_at t' _ x' (regular_at _ _ _ R' Et') ltac:(done))|done|done].
Qed.

(** What an acknowledged call leaves: the property of the last durable state
    holds of every later one. *)
Lemma acked_guarded gone Q hs a s' m (acked : Prop) : stable gone Q -> outcome gone hs a s' acked -> acked -> last hs = Some m -> Q m ->
  guarded Q s'.
Proof.
  intros Hst (hs' & a' & G & _ & D & R & K) Hk Hl HQ. destruct (K Hk) as [-> _]. exists hs', (length hs' - 1)%nat.
  split; [done|]. split; [done|]. pose proof (last_index _ _ Hl) as Hx. apply lookup_lt_Some in Hx as Hlen.
  destruct (grows_stable gone gone Q hs hs' (length hs - 1)%nat ltac:(done) Hst G (dk_regular _ _ _ D) Hlen) as [Hll H].
  { intros j x Hj Hx'. apply lookup_lt_Some in Hx' as Hjl. assert (j = (length hs - 1)%nat) as -> by lia.
    rewrite Hx in Hx'. by injection Hx' as <-. }
  intros j x Hj. apply H. lia.
Qed.

Definition others_only (name : bytes) : bytes -> Prop := fun n => n <> name.

(** C7. A record whose append was acknowledged is not lost: after any calls,
    crashes at any byte of the log behind the durable part, and restarts, in
    which the topic is not deleted and no allocation fails, a store that works
    still holds the record at the partition and the offset it was reported at,
    unless the partition has been trimmed past that offset by retention or
    truncation. *)
Theorem append_survives s0 s name hint key body at_ now p off s1 s2 : started s0 -> sruns anything s0 s ->
  ss_failed s = false -> Forall roomy (ss_topics s) -> 0 <= hint -> record_args key body at_ ->
  stream_append s name hint key body at_ now = (0, Some (p, off), s1) -> sruns (others_only name) s1 s2 ->
  ss_failed s2 = false -> stored (ss_topics s2) name p (SRec off at_ body key).
Proof.
  intros H0 Hr0 F Hr Hh Ha E Hr2 F2. destruct (reached_ready s0 s H0 Hr0 F) as (hs & a & R).
  pose proof (stored_stable (others_only name) name p (SRec off at_ body key) ltac:(by intros Hn; apply Hn)) as Hst.
  pose proof (append_step (others_only name) s hs a name hint key body at_ now R Hr Hh Ha) as K. rewrite E in K.
  destruct K as (hs1 & a1 & G & Hle & O & K). destruct (K eq_refl) as (p' & off' & m & [= <- <-] & Hl & Hs).
  apply (guarded_memory (others_only name) _ s2 Hst); [|done]. eapply runs_guarded; [exact Hst| |exact Hr2].
  by apply (acked_guarded (others_only name) _ hs1 a1 s1 m (0 = 0)).
Qed.

(** ** An acknowledged state survives *)

(** What a restart keeps of the topic [t] of a store. *)
Record survives (t t' : topic) : Prop := Survives {
  sv_limits : t_max_bytes t' = t_max_bytes t /\ t_max_age_ms t' = t_max_age_ms t;
  sv_id : t_id t' = t_id t;
  sv_offsets : forall g p, offset_of t' g p = offset_of t g p;
  sv_parts : Forall2 (fun x x' => p_next x' = p_next x /\ forall r, r ∈ p_recs x -> kept_in r x') (t_parts t) (t_parts t');
  sv_all : t_max_bytes t = 0 -> t_max_age_ms t = 0 -> Forall2 (fun x x' => p_recs x `suffix_of` p_recs x') (t_parts t) (t_parts t') }.

Lemma recovered_survives m t t' : sound m -> sound t' -> tsame later m t -> t_id_persisted t = true -> forall k nows, recovered k nows m t' -> survives t t'.
Proof.
  intros Sm St' [A1 A2 A3 A4 A5 A6 A7] Hp k nows [B1 [B2 B3] B4 B5 B6 B7 B8]. constructor; try congruence.
  - split; congruence.
  - rewrite A5 in Hp. rewrite (A6 Hp). auto.
  - apply Forall2_lookup. intros p. pose proof (proj1 (Forall2_lookup _ _ _) A4 p) as Ha. pose proof (proj1 (Forall2_lookup _ _ _) B4 p) as Hb.
    destruct (t_parts m !! p) as [x|] eqn:Ex, (t_parts t !! p) as [y|], (t_parts t' !! p) as [z|] eqn:Ez; inversion Ha as [? ? La|]; inversion Hb as [? ? Lb|]; subst; constructor.
    split; [by rewrite (pr_next _ _ La), (pr_next _ _ Lb)|]. intros r Hr.
    apply (later_kept x); [exact (sound_at m p x Sm Ex)|exact (sound_at t' p z St' Ez)|done|]. left. destruct La as (g & -> & _). apply elem_of_app. by right.
  - intros Hm Hg. rewrite B5 by (apply idle_free; congruence). apply Forall2_flip. eapply Forall2_impl; [exact A4|]. intros x y (g & E & _). by exists g.
Qed.

Lemma reopened_survives nows me ts m2 : regular me -> regular m2 -> same later me ts -> persisted ts -> reopened nows me m2 ->
  forall name, option_Forall2 survives (find_topic ts name) (find_topic m2 name).
Proof.
  intros Rme R2 St Hp Hre name. specialize (Hre name). pose proof (St name) as Hn.
  destruct (find_topic me name) as [tm|] eqn:Em; [|inversion Hre; inversion Hn; constructor].
  inversion Hn as [? t1 St1 E1 E1'|]; inversion Hre as [? t2 Hrv E3 E3'|]; subst. constructor.
  refine (recovered_survives tm _ _ (regular_at _ _ _ Rme Em) _ St1 _ _ _ Hrv).
  - eapply regular_at; [exact R2|by symmetry].
  - symmetry in E1'. apply find_topic_name in E1' as [_ Hin]. unfold persisted in Hp. rewrite Forall_forall in Hp. by apply Hp.
Qed.

(** C3. A crash right after an acknowledged call that writes loses nothing, in
    a run in which no allocation fails: wherever in the log behind its durable
    part the file ends, the store opens again when the calls of the system
    succeed, and it has exactly the topics it had, with their limits,
    identities and committed offsets; every record is still there or behind
    the base retention moves on opening, and every record is there in a topic
    without limits. *)
Theorem acknowledged_survives s0 s c k ids nows : started s0 -> sruns anything s0 s -> ss_failed s = false ->
  Forall roomy (ss_topics s) -> call_ok c -> acknowledged s c -> let s1 := (sdo s c).2 in
  ss_durable s1 <= Z.of_nat k <= zlen (ss_file s1) -> ids_ok ids ->
  exists s2, crash_opens s1 k ids [] [] nows = Some s2 /\
    forall name, option_Forall2 survives (find_topic (ss_topics s1) name) (find_topic (ss_topics s2) name).
Proof.
  intros H0 Hr0 F Hr Hc Hk s1 Hb Hi. destruct (reached_ready s0 s H0 Hr0 F) as (hs & a & R).
  destruct (call_step s hs a c R Hr Hc) as (hs' & a' & G & _ & D & Rd & K). destruct (K Hk) as [Ea F1]. change ((sdo s c).2) with s1 in D, Rd, F1.
  destruct Rd as [F1'|R1]; [congruence|]. destruct (rd_holds _ _ _ R1) as (m & Hl & S).
  destruct (dk_crash _ _ _ D k Hb) as (j & mj & evs & me & tail & Hj & Hmj & Ef & T & Ho & Ee & Se).
  apply lookup_lt_Some in Hmj as Hjl. assert (j = (length hs' - 1)%nat) as -> by lia.
  rewrite (last_index _ _ Hl) in Hmj. injection Hmj as <-. unfold crash_opens. rewrite Ef.
  destruct (open_succeeds evs tail me ids nows Ho T Ee Hi) as [s2 E2]. exists s2. split; [done|].
  destruct (reopen_spec evs tail me ids [] [] nows s2 Ho T Ee Hi E2) as (hs2 & _ & R2 & Hre).
  assert (Rme : regular me) by (eapply effects_regular; [by apply ev_oks_nat|apply regular_nil|done]).
  apply (reopened_survives nows me); [done|apply topics_ok_regular, (rd_mem _ _ _ R2)| |apply R1|done].
  exact (transitivity (same_weaken later _ _ _ Se) S).
Qed.

(** ** Every store *)

Definition consistent (s : sstore) : Prop := topics_ok (ss_topics s) /\
  stream_debug_recount s = (zsum t_records (ss_topics s), ss_live_bytes s, ss_live_bytes s) /\
  stream_retention_bytes s = zsum (fun t => zsum (fun x => zsum record_bytes (p_recs x)) (t_parts t)) (ss_topics s).

Lemma ready_consistent s hs a : ready s hs a -> consistent s.
Proof.
  intros [[[M1 M2] Ml _ _] _ _ _ _]. split; [done|]. unfold stream_debug_recount, stream_retention_bytes. rewrite <- Ml.
  rewrite Forall_forall in M1. split.
  - do 2 f_equal. apply zsum_ext. intros t Ht. symmetry. apply to_records. by apply M1.
  - apply zsum_ext. intros t Ht. rewrite (to_bytes _ (M1 t Ht)). apply zsum_ext. intros x Hx.
    pose proof (to_each _ (M1 t Ht)) as He. rewrite Forall_forall in He. by apply po_bytes with (zlen (t_name t)), He.
Qed.

(** C18. The counters are right in every store that works, after any calls,
    crashes and restarts: the offsets of every partition are consecutive from
    its base to its next offset, the numbers of records and bytes kept in
    partitions and topics are the sums they stand for, every group has an
    offset for each partition and counts its members, names are distinct, and
    the estimate that decides about compaction equals the recount. *)
Theorem stream_accounting s0 s : started s0 -> sruns anything s0 s -> ss_failed s = false -> consistent s.
Proof. intros H0 Hr F. destruct (reached_ready s0 s H0 Hr F) as (hs & a & R). by eapply ready_consistent. Qed.

(** C15. A log can always be opened again: at any moment, also in the middle
    of a call and after a write or a sync has failed, a crash at any byte
    behind the durable part leaves a file on which the store opens when the
    calls of the system succeed, ready for calls and with the right
    counters. *)
Theorem stream_reopens s0 s k ids nows : started s0 -> sruns anything s0 s ->
  ss_durable s <= Z.of_nat k <= zlen (ss_file s) -> ids_ok ids ->
  exists s2, crash_opens s k ids [] [] nows = Some s2 /\ ss_failed s2 = false /\ consistent s2 /\ sruns anything s0 s2.
Proof.
  intros H0 Hr Hk Hi. destruct (crash_recalls _ s k (reached_guarded s0 s H0 Hr) Hk) as (evs & tail & m & Ef & T & Ho & Ee & _).
  destruct (open_succeeds evs tail m ids nows Ho T Ee Hi) as [s2 E2]. exists s2. unfold crash_opens. rewrite Ef. split; [done|].
  destruct (reopen_spec evs tail m ids [] [] nows s2 Ho T Ee Hi E2) as (hs2 & _ & R2 & _).
  split; [apply R2|]. split; [by eapply ready_consistent|]. apply (sruns_crash _ _ s k ids [] [] nows); try done.
  unfold crash_opens. by rewrite Ef.
Qed.

(** ** Groups *)

(** C27. The members of a group whose leases run share the partitions: their
    owners are in order and distinct, every partition goes to exactly one of
    them, the check of a single partition agrees with the list a join
    returns, and the shares differ by one partition at most. *)
Theorem group_deals g n now : members_ok g -> 0 <= n ->
  let '(owners, g') := group_owners_locked g now in
  (forall o, o ∈ owners <-> exists m, m ∈ g_members g /\ mb_owner m = o /\ now < mb_deadline m) /\
  StronglySorted Z.le owners /\
  (owners <> [] ->
    (forall p, 0 <= p < n -> exists o, o ∈ owners /\ forall o', p ∈ assignment n owners o' <-> o' = o) /\
    (forall o p, 0 <= p < n -> (member_assigned_locked g o p now).1 = true <-> p ∈ assignment n owners o) /\
    (forall o, o ∈ owners -> n / zlen owners <= zlen (assignment n owners o) <= n / zlen owners + 1)).
Proof.
  intros H Hn. unfold member_assigned_locked. pose proof (owners_spec g now H) as K. destruct (group_owners_locked g now) as [owners g'].
  destruct K as (Hd & Hs & Ho). split; [done|]. split; [done|]. intros Hne.
  assert (Hk : 0 < zlen owners) by (destruct owners; [done|rewrite zlen_cons; pose proof (zlen_nonneg owners); lia]). split_and!.
  - intros p Hp. pose proof (Z.mod_pos_bound p (zlen owners) Hk) as Hm.
    assert (Hlt : (Z.to_nat (p mod zlen owners) < length owners)%nat) by (unfold zlen in *; lia).
    destruct (lookup_lt_is_Some_2 _ _ Hlt) as [o Eo]. exists o. split; [by eapply list_elem_of_lookup_2|].
    intros o'. rewrite assignment_spec, Eo by done. split; [by intros [_ [= ->]]|by intros ->].
  - intros o p Hp. cbn [fst]. rewrite assigned_at_spec, assignment_spec by done. pose proof (Z.mod_pos_bound p (zlen owners) Hk). split.
    + intros (j & Hj & E). split; [done|]. by rewrite E, Z.add_0_l, Nat2Z.id.
    + intros [_ E]. eexists. split; [exact E|]. lia.
  - intros o [j Hj]%list_elem_of_lookup. rewrite (assignment_size n owners o j Hd Hj Hn). apply share_bounds.
    pose proof (lookup_lt_Some _ _ _ Hj). unfold zlen. lia.
Qed.

(** ** Compaction *)

(** What opening the log of [k] topics at the times [nows] gives for the topic
    [t]: its partitions as they were when the retention of the start-up has
    nothing to drop, and otherwise without some records at their heads. *)
Record restarted (k : nat) (nows : list Z) (t t' : topic) : Prop := Restarted {
  rt_limits : t_max_bytes t' = t_max_bytes t /\ t_max_age_ms t' = t_max_age_ms t;
  rt_id : t_id t' = t_id t;
  rt_offsets : forall g p, offset_of t' g p = offset_of t g p;
  rt_heads : Forall2 later (t_parts t) (t_parts t');
  rt_exact : idle k nows t -> t_parts t' = t_parts t }.

Lemma same_restarted nows m l l' : regular m -> NoDup (t_name <$> l) -> same eq m l -> persisted l -> reopened nows m l' ->
  forall name, option_Forall2 (restarted (length l) nows) (find_topic l name) (find_topic l' name).
Proof.
  intros [Hm _] Hl S Hp Hre name.
  assert (El : length m = length l).
  { apply same_names_length; [done..|]. intros n. destruct (S n); by rewrite ?is_Some_alt. }
  specialize (S name). specialize (Hre name). destruct (find_topic m name) as [u|]; inversion S as [? t [S1 S2 S3 S4 S5 S6 S7] E E'|]; subst;
    inversion Hre as [? t' [V1 [V2 V3] V4 V5 V6 V7 V8]|]; subst; constructor.
  apply list_eq_Forall2 in S4. assert (Hf : t_id_persisted t = true).
  { unfold persisted in Hp. rewrite Forall_forall in Hp. apply Hp. symmetry in E'. by apply find_topic_name in E' as [_ ?]. }
  constructor; [split; congruence| |congruence|congruence|].
  - rewrite V7 by congruence. symmetry. apply S6. congruence.
  - intros Hi. rewrite <- S4. apply V5. rewrite El. by eapply (idle_ext _ _ t).
Qed.

(** C19. Compaction changes what the log looks like and not what it says.  It
    leaves the topics as they are, and the new log is durable as a whole; its
    records say exactly the topics of the store, with every record of every
    partition.  A store opened on it has the topics, the limits, the
    identities, the committed offsets, and, unless the retention of the
    start-up drops records at the head of a partition because they are too old
    or the topic too large, the same records.  No allocation fails. *)
Theorem compaction_preserves s0 s s1 ids nows : started s0 -> sruns anything s0 s -> ss_failed s = false -> Forall roomy (ss_topics s) ->
  stream_compact_locked s = (0, s1) -> ids_ok ids ->
  ss_topics s1 = ss_topics s /\ ss_durable s1 = zlen (ss_file s1) /\ zlen (ss_buf s1) = 0 /\
  (exists evs m, ss_file s1 = frames evs /\ effects evs [] = Some m /\ same eq m (ss_topics s)) /\
  exists s2, stream_store_open (stream_blank (ss_file s1) ids [] [] []) nows = Some s2 /\
    forall name, option_Forall2 (restarted (length (ss_topics s)) nows) (find_topic (ss_topics s) name) (find_topic (ss_topics s2) name).
Proof.
  intros H0 Hr0 F Hr E Hi. destruct (reached_ready s0 s H0 Hr0 F) as (hs & a & R). pose proof (rd_mem _ _ _ R) as M.
  pose proof (compact_locked_spec s (mo_allocs _ M)) as C. rewrite E in C. destruct C as (My & _ & [(? & _)|(Ef & Ed & [?|(_ & Eb & _)])]); [done..|].
  split; [apply My|]. split; [done|]. split; [by rewrite Eb|].
  destruct (compact_effects (ss_topics s) (mo_topics _ M) (rd_persisted _ _ _ R)) as (m & Ee & S).
  split; [by eexists _, m|]. pose proof (compact_events_ok _ (mo_topics _ M) (roomy_bounded _ Hr)) as Hok. rewrite Ef, <- (app_nil_r (frames _)).
  destruct (open_succeeds _ [] m ids nows Hok torn_nil Ee Hi) as [s2 E2]. exists s2. split; [done|].
  destruct (reopen_spec _ [] m ids [] [] nows s2 Hok torn_nil Ee Hi E2) as (hs2 & _ & R2 & Hre).
  apply (same_restarted nows m); [|apply (mo_topics _ M)|done|apply R|done].
  eapply effects_regular; [by apply ev_oks_nat|apply regular_nil|done].
Qed.

(** ** Retention *)

(** Retention drops a prefix of each partition and nothing else, and it
    is as large as needed and no larger: the topic keeps to its limit of
    bytes, and a topic within its limits is left alone.  The counters of the
    topic and of the store follow. *)
Theorem retention_prefix s t now : topic_ok t -> let '(s', t', base, touched) := retain s t now in
  topic_ok t' /\ s' = add_live s (topic_live t' - topic_live t) /\ t_groups t' = t_groups t /\
  (forall p x, t_parts t !! p = Some x -> exists x' gone, t_parts t' !! p = Some x' /\ p_recs x = gone ++ p_recs x' /\
    p_next x' = p_next x /\ p_base x' = p_base x + zlen gone) /\
  (dated t -> t_max_bytes t <> 0 -> t_bytes t' <= t_max_bytes t) /\
  ((t_max_age_ms t = 0 \/ forall p r, head_of t p = Some r -> too_old t now r = false) ->
    (t_max_bytes t = 0 \/ t_bytes t <= t_max_bytes t) -> t' = t).
Proof.
  intros Hk. pose proof (retain_passed s t now Hk) as P. pose proof (retain_bounded s t now Hk) as B. pose proof (retain_idle s t now) as I.
  destruct (retain s t now) as [[[s' t'] base] touched]. cbn in B. destruct P as [_ Pk _ _ _ Pg _ Ps _ Pp Pw _ _].
  split; [done|]. split; [done|]. split; [done|]. split; [|split; [done|]].
  - intros p x Hx. specialize (Pp p x Hx). specialize (Pw p x Hx).
    destruct (trim_later (boundary base p) x (sound_at t p x (topic_ok_sound t Hk) Hx) ltac:(lia)) as (g & E & _ & Hn & _).
    exists (trim_to (boundary base p) x), g. split_and!; [done..|]. pose proof (po_next _ _ (proj1 (Forall_lookup _ _) (to_each _ Hk) _ _ Hx)) as N.
    pose proof (po_next _ _ (proj1 (Forall_lookup _ _) (to_each _ Pk) _ _ Pp)) as N'. rewrite E, zlen_app in N. lia.
  - intros Ha Hb. specialize (I Ha Hb). by injection I as _ -> _ _.
Qed.

(** ** Committed offsets *)

(** A single commit that reports success. *)
Lemma commit_one_offsets s t g hs a gname p off s' : pending s t t hs a -> find_group t gname = Some g ->
  0 <= p < t_partitions t -> fits 64 off -> commit_one s t g p off = (0, s') ->
  ss_topics s' = put_topic (ss_topics s) (commit_topic t gname p off).
Proof.
  intros P E Hp Ho. unfold commit_one. pose proof (mo_allocs _ (pd_mem _ _ _ _ _ P)) as A. sallocs A.
  pose proof (pending_ok _ _ _ _ _ P) as Hk. destruct (find_group_ok _ _ _ Hk E) as [Hg En]. rewrite En.
  pose proof (commit_log anything s t t hs a gname g p off P Hk E Hp Ho) as K.
  destruct (log_record s S_COMMIT _) as [rc s1]. destruct K as [(-> & B)|(-> & hs' & G & P' & Et)]; cbn [Z.eqb negb]; [done|].
  assert (R' : ready (set_topic s1 (set_group t (set_offset g p off))) hs' a).
  { rewrite <- (add_live_0 s1). eapply pending_done; [done| |done| | |done].
    - apply set_group_ok; [done|]. by apply set_offset_ok.
    - exact (pending_flag _ _ _ _ _ P).
    - rewrite set_group_live. lia. }
  pose proof (finish anything _ hs' a R') as K. destruct (stream_wait_durable_locked _ _) as [rc s2]. destruct K as (_ & K & _).
  intros [= _ <-]. rewrite K. cbn [set_topic ss_topics]. by rewrite Et, (commit_existing t gname g).
Qed.

(** A commit of a group that succeeds moves the offset of its partition
    forward to an offset between the base and the end of the partition, or
    leaves it when it is there already; it never moves it back, and no other
    group, partition or topic is touched. *)
Theorem commit_forward s0 s name gname p off s' : started s0 -> sruns anything s0 s -> ss_failed s = false ->
  Forall roomy (ss_topics s) -> bytes_ok gname -> 0 <= p -> stream_commit s name gname p off = (0, s') ->
  exists t t' x, find_topic (ss_topics s) name = Some t /\ find_topic (ss_topics s') name = Some t' /\
    t_parts t !! Z.to_nat p = Some x /\ p_base x <= off <= p_next x /\ t_parts t' = t_parts t /\
    (forall g q, offset_of t' g q = if decide (g = gname /\ q = Z.to_nat p) then Z.max off (offset_of t g q) else offset_of t g q) /\
    forall n, n <> name -> find_topic (ss_topics s') n = find_topic (ss_topics s) n.
Proof.
  intros H0 Hr0 F Hr Hb Hp. destruct (reached_ready s0 s H0 Hr0 F) as (hs & a & R0). unfold stream_commit.
  destruct (group_name_bad gname) eqn:Hn; [done|]. pose proof (good_name gname Hn Hb) as Hs.
  pose proof (begin_spec anything s hs a R0 (roomy_bounded _ Hr)) as B. destruct (begin s) as [[|] s1]; [|done].
  destruct B as (hs1 & a1 & _ & _ & R & Es). rewrite <- Es in Hr |- *. destruct (find_topic (ss_topics s1) name) as [t|] eqn:En; [|done].
  destruct (t_parts t !! Z.to_nat p) as [x|] eqn:Hx; [|done]. destruct (in_range x off) eqn:Hin; cbn [negb]; [|done].
  pose proof (ready_pending _ _ _ _ _ R En) as P. pose proof (pending_ok _ _ _ _ _ P) as Hk.
  destruct (part_at_ok _ _ _ Hk Hx) as [Hxk _]. pose proof (in_range_fits _ _ _ Hxk (roomy_part _ _ _ _ _ Hr En Hx) Hin) as Ho.
  destruct (index_of _ _ _ Hk Hp Hx) as [_ Hlt]. destruct (created s1 t hs1 a1 gname P Hs) as (g & -> & Ef & Hoff & P').
  pose proof (ensure_same t gname) as Se. set (e := ensure_group t gname) in *. apply find_topic_name in En as Hname. destruct Hname as [Hname _].
  assert (Hput : forall u, t_name u = t_name t -> find_topic (put_topic (ss_topics s1) u) name = Some u /\
    forall n, n <> name -> find_topic (put_topic (ss_topics s1) u) n = find_topic (ss_topics s1) n).
  { intros u Hu. rewrite find_put, Hu, Hname, decide_True, En by done. split; [done|]. intros n Hne. by rewrite find_put, Hu, Hname, decide_False. }
  assert (He : t_parts e = t_parts t) by (subst e; unfold ensure_group; by destruct (find_group t gname)).
  unfold in_range in Hin. rewrite Hoff. destruct (Z.leb_spec off (offset_of t gname (Z.to_nat p))).
  - intros [= <-]. exists t, e, x. destruct (Hput e (ts_name _ _ _ Se)) as [U1 U2]. split_and!; try done; [lia..|].
    intros g' q. rewrite (ts_offsets _ _ _ Se). destruct (decide _) as [[-> ->]|]; lia.
  - intros E. apply (commit_one_offsets _ _ _ _ _ gname _ _ _ P' Ef) in E; [|by rewrite (same_partitions eq _ _ Se)|done].
    cbn [add_live ss_topics] in E. destruct (commit_fields e gname p off) as (C1 & _ & _ & C2 & _).
    destruct (Hput (commit_topic e gname p off)) as [U1 U2]; [by rewrite C1, (ts_name _ _ _ Se)|].
    exists t, (commit_topic e gname p off), x. rewrite E. split_and!; try done; [lia..| |].
    + by rewrite C2.
    + intros g' q. rewrite commit_offset, (ts_offsets _ _ _ Se); [|apply topic_ok_sized; exact (pending_ok _ _ _ _ _ P')|rewrite He; by eapply lookup_lt_Some].
      destruct (decide (gname = g' /\ _)) as [[<- <-]|Hd]; [rewrite decide_True by done; lia|]. rewrite decide_False; [done|]. intros [-> ->]. by apply Hd.
Qed.

(** ** Reading *)

Lemma fetch_skip l : forall b off max mb c size, offsets_from b l -> c < max ->
  fetch_scan l off max mb c size = fetch_scan (drop (Z.to_nat (off - b)) l) off max mb c size.
Proof.
  induction l as [|r l IH]; intros b off max mb c size Ho Hc; [by rewrite drop_nil|].
  destruct Ho as [Hr Ho]. destruct (Z.le_gt_cases off b) as [Hle|Hgt].
  - by replace (Z.to_nat (off - b)) with O by lia.
  - replace (Z.to_nat (off - b)) with (S (Z.to_nat (off - (b + 1)))) by lia. cbn [fetch_scan drop].
    destruct (Z.leb_spec max c); [lia|]. destruct (Z.leb_spec off (r_offset r)); [lia|]. by apply IH.
Qed.

(** What a page costs. *)
Definition page_size (l : list srec) : Z := zsum (fun r => 14 + record_bytes r) l.

Lemma record_bytes_pos r : 0 <= record_bytes r.
Proof. unfold record_bytes. pose proof (zlen_nonneg (r_body r)). pose proof (zlen_nonneg (r_key r)). lia. Qed.

Lemma fetch_take l : forall b off max mb c size page, offsets_from b l -> off <= b -> c <= max -> size <= mb ->
  fetch_scan l off max mb c size = Some page ->
  page = take (length page) l /\ c + zlen page <= max /\ size + page_size page <= mb /\
  (c + zlen page = max \/ page = l \/ exists r, l !! length page = Some r /\ mb < size + page_size page + 14 + record_bytes r) /\
  (c = 0 -> 0 < max -> l <> [] -> page <> []).
Proof.
  induction l as [|r l IH]; intros b off max mb c size page Ho Hb Hc Hs; cbn [fetch_scan].
  { intros [= <-]. change (zlen (@nil srec)) with 0. change (page_size []) with 0. split_and!; [done|lia|lia|auto|done]. }
  destruct Ho as [Hr Ho]. destruct (Z.leb_spec max c).
  { intros [= <-]. change (zlen (@nil srec)) with 0. change (page_size []) with 0. split_and!; [done|lia|lia|left; lia|intros; exfalso; lia]. }
  destruct (Z.leb_spec off (r_offset r)); [|lia]. destruct (Z.ltb_spec (mb - size) (14 + record_bytes r)).
  { destruct (Z.eqb_spec c 0); [done|]. intros [= <-]. change (zlen (@nil srec)) with 0. change (page_size []) with 0.
    split_and!; [done|lia|lia| |lia]. right. right. exists r. split; [done|lia]. }
  destruct (fetch_scan l off max mb (c + 1) _) as [pg|] eqn:E; [|done]. intros [= <-].
  pose proof (record_bytes_pos r). destruct (IH (b + 1) off max mb (c + 1) (size + (14 + record_bytes r)) pg Ho ltac:(lia) ltac:(lia) ltac:(lia) E) as (I1 & I2 & I3 & I4 & _).
  unfold page_size in *. cbn [zsum length take]. rewrite zlen_cons. split_and!; [by rewrite <- I1|lia|lia| |done].
  destruct I4 as [I4|[->|(r' & Hr' & I4)]]; [left; lia|by right; left|]. right. right. exists r'. split; [done|lia].
Qed.

Lemma last_offset l : forall b r, offsets_from b l -> last l = Some r -> r_offset r = b + zlen l - 1.
Proof.
  induction l as [|x l IH]; intros b r Ho Hl; [done|]. destruct Ho as [Hx Ho]. rewrite zlen_cons. destruct l as [|y l].
  - injection Hl as <-. rewrite zlen_nil. lia.
  - rewrite (IH (b + 1) r Ho Hl). lia.
Qed.

Lemma offsets_drop l : forall b n, offsets_from b l -> (n <= length l)%nat -> offsets_from (b + Z.of_nat n) (drop n l).
Proof.
  induction l as [|x l IH]; intros b [|n] Ho Hn; cbn [drop length] in *; [done..| |]; [by replace (b + Z.of_nat 0) with b by lia|].
  replace (b + Z.of_nat (S n)) with (b + 1 + Z.of_nat n) by lia. apply IH; [apply Ho|lia].
Qed.

Lemma offsets_take l : forall b n, offsets_from b l -> offsets_from b (take n l).
Proof. induction l as [|x l IH]; intros b [|n] Ho; cbn in *; [done..|]. split; [apply Ho|]. apply IH, Ho. Qed.

Lemma resume_spec off page : offsets_from off page -> off + zlen page < 2 ^ 64 -> resume_of off page = off + zlen page.
Proof.
  intros Ho Hb. unfold resume_of. destruct (last page) as [r|] eqn:E.
  - rewrite (last_offset _ _ _ Ho E). unfold UINT64_MAX. destruct (Z.eqb_spec (off + zlen page - 1) (2 ^ 64 - 1)); lia.
  - apply last_None in E as ->. rewrite zlen_nil. lia.
Qed.

(** The page of the partition [x] from [off] on that ends before [resume]. *)
Record page_of (x : part) (off max max_bytes resume : Z) (page : list srec) : Prop := PageOf {
  pg_exact : page = take (Z.to_nat (resume - off)) (drop (Z.to_nat (off - p_base x)) (p_recs x));
  pg_count : off <= resume <= off + max /\ resume <= p_next x;
  pg_bytes : 4 + page_size page <= max_bytes;
  pg_progress : resume = off -> off = p_next x;
  pg_full : resume = off + max \/ resume = p_next x \/
    exists r, r ∈ p_recs x /\ r_offset r = resume /\ max_bytes < 4 + page_size page + 14 + record_bytes r }.

Lemma offset_at l : forall b n r, offsets_from b l -> l !! n = Some r -> r_offset r = b + Z.of_nat n.
Proof.
  induction l as [|x l IH]; intros b [|n] r Ho Hr; cbn in Hr; [done..| |].
  - injection Hr as <-. destruct Ho. lia.
  - rewrite (IH (b + 1) n r (proj2 Ho) Hr). lia.
Qed.

Lemma scan_page l x off max max_bytes page : part_ok l x -> p_next x < 2 ^ 64 -> p_base x <= off <= p_next x -> 0 < max -> 4 <= max_bytes ->
  fetch_scan (p_recs x) off max max_bytes 0 4 = Some page -> page_of x off max max_bytes (resume_of off page) page.
Proof.
  intros [_ Ho Hn _ _] Hf Hr Hm Hb E. rewrite (fetch_skip _ (p_base x)) in E by done.
  set (l' := drop (Z.to_nat (off - p_base x)) (p_recs x)) in *.
  assert (Hlen : zlen l' = p_next x - off) by (unfold l', zlen in *; rewrite length_drop; lia).
  assert (Ho' : offsets_from off l').
  { replace off with (p_base x + Z.of_nat (Z.to_nat (off - p_base x))) by lia. apply offsets_drop; [done|]. unfold zlen in Hn. lia. }
  destruct (fetch_take l' off off max max_bytes 0 4 page Ho' ltac:(lia) ltac:(lia) ltac:(lia) E) as (P1 & P2 & P3 & P4 & P5).
  assert (Hle : zlen page <= zlen l') by (unfold zlen; rewrite P1, length_take; lia).
  pose proof (zlen_nonneg page). rewrite resume_spec; [|rewrite P1; by apply offsets_take|lia].
  constructor; try lia.
  - rewrite P1 at 1. f_equal. unfold zlen. lia.
  - intros Hz. assert (page = []) as -> by (apply zlen_zero; lia). destruct (decide (l' = [])) as [El|El]; [|by destruct (P5 eq_refl Hm El)].
    rewrite El, zlen_nil in Hlen. lia.
  - destruct P4 as [P4|[->|(r & Hr' & P4)]]; [left; lia|right; left; lia|]. right. right. exists r.
    split; [|split; [|lia]].
    + apply list_elem_of_lookup_2 in Hr'. unfold l' in Hr'. rewrite <- (take_drop (Z.to_nat (off - p_base x)) (p_recs x)). apply elem_of_app. by right.
    + by rewrite (offset_at _ _ _ _ Ho' Hr').
Qed.

(** C26. A page holds the records from the requested offset on, without a gap,
    up to the place it tells to resume at; it keeps to the number of records
    and bytes asked for, ends early only when the next record does not fit,
    and it is empty only when nothing is left to read.  So a reader that
    follows the resume offsets sees every record of the partition once and in
    order, and is told when records it has not read are gone.  A reader that
    names the incarnation it has read is told [RANGE_RECREATED] exactly when
    the topic is another one.  No allocation fails in the run. *)
Theorem fetch_exact s0 s name p off max max_bytes expected now fe s' : started s0 -> sruns anything s0 s -> ss_failed s = false ->
  Forall roomy (ss_topics s) -> 0 <= max -> stream_fetch_metadata s name p off max max_bytes expected now = (inr fe, s') ->
  exists t x, find_topic (ss_topics s') name = Some t /\ t_parts t !! Z.to_nat p = Some x /\
    fe_id fe = t_id t /\ fe_base fe = p_base x /\ fe_next fe = p_next x /\
    (fe_range fe = RANGE_RECREATED <-> exists id, expected = Some id /\ id <> t_id t) /\
    match fe_range fe with
    | RANGE_OK => p_base x <= off <= p_next x /\ page_of x off max max_bytes (fe_resume fe) (fe_records fe)
    | RANGE_EXPIRED => off < p_base x
    | RANGE_AHEAD => p_next x < off
    | RANGE_RECREATED => fe_records fe = []
    end.
Proof.
  intros H0 Hr0 F Hr Hm. destruct (reached_ready s0 s H0 Hr0 F) as (hs & a & R). unfold stream_fetch_metadata.
  destruct (_ || _) eqn:Ea; [done|]. destruct (find_topic (ss_topics s) name) as [t|] eqn:En; [|done]. destruct (_ <=? p); [done|].
  pose proof (enforce_spec anything s t hs a now (ready_pending _ _ _ _ _ R En) (parts_fit_of _ _ _ Hr En)) as K.
  destruct (enforce s t true now) as [[rc s1] t']. destruct K as [(-> & B)|(-> & hs' & base & touched & s2 & G & P & Et & Pa)]; [done|].
  cbn [Z.eqb negb]. pose proof (pending_ready _ _ _ _ _ P ltac:(done)) as R'. destruct Pa as [_ Pk Pn _ _ _ _ _ [_ Pl] Pp Pw _ _].
  assert (Ef : find_topic (ss_topics (set_topic s1 t')) name = Some t').
  { cbn [set_topic ss_topics]. rewrite find_put, Et, En. apply find_topic_name in En as [En _]. by rewrite Pn, En, decide_True. }
  destruct (t_parts t' !! Z.to_nat p) as [x|] eqn:Ex; [|done]. pose proof (proj1 (Forall_lookup _ _) (to_each _ Pk) _ _ Ex) as Hx.

  assert (Hb : p_next x < 2 ^ 64).
  { destruct (lookup_lt_is_Some_2 (t_parts t) (Z.to_nat p)) as [x0 Hx0]; [rewrite <- Pl; by eapply lookup_lt_Some|].
    pose proof (proj1 (Forall_lookup _ _) (parts_fit_of _ _ _ Hr En) _ _ Hx0) as Hf. cbn in Hf. specialize (Pw _ _ Hx0). rewrite (Pp _ _ Hx0) in Ex.
    injection Ex as <-. rewrite trim_to_next. lia. }
  unfold range_of. destruct (match expected with Some id => _ | None => false end) eqn:Ee.
  { intros [= <- <-]. exists t', x. split_and!; try done. split; [intros _|done]. destruct expected as [id|]; [|done]. exists id. split; [done|].
    intros ->. by rewrite (proj2 (name_eqb_eq _ _) eq_refl) in Ee. }
  assert (Hi : ~ exists id, expected = Some id /\ id <> t_id t').
  { intros (id & -> & Hne). apply negb_false_iff, name_eqb_eq in Ee. done. }
  destruct (Z.ltb_spec off (p_base x)); [by intros [= <- <-]; exists t', x|].
  destruct (Z.ltb_spec (p_next x) off); [by intros [= <- <-]; exists t', x|].
  pose proof (fetch_page_state (set_topic s1 t') x off max max_bytes (mo_allocs _ (rd_mem _ _ _ R'))) as Es.
  destruct (fetch_page _ x off max max_bytes) as [[rc|page] s3] eqn:Epg; [done|]. intros [= <- <-]. cbn in Es. subst.
  exists t', x. split_and!; try done. cbn. split; [lia|]. apply (scan_page (zlen (t_name t'))); [done|done|lia| | |].
  - unfold fetch_args_bad in Ea. lia.
  - unfold fetch_args_bad in Ea. lia.
  - unfold fetch_page in Epg. destruct (fetch_scan _ _ _ _ _ _); [|done]. destruct (salloc _) as [[|] s4]; [|done]. cbn [negb] in Epg.
    destruct (copy_views _ _) as [[|] s5]; [|done]. by injection Epg as -> _.
Qed.

(** ** A store at work *)

Definition demo_topic : bytes := [116].
Definition demo_id : bytes := replicate 16 7.

(** The fourth write of the store tears after seven bytes. *)
Definition demo_blank : sstore := stream_blank [] [demo_id] [Wrote; Wrote; Wrote; Torn 7] [] [].
Definition demo_start : sstore := default demo_blank (stream_store_open demo_blank []).
Definition demo_declare : scall := SDeclare demo_topic 1 0 0.
Definition demo_declared : sstore := (sdo demo_start demo_declare).2.
Definition demo_first : scall := SAppend demo_topic 0 [] [1; 2] 5 5.
Definition demo_appended : sstore := (sdo demo_declared demo_first).2.
Definition demo_second : scall := SAppend demo_topic 0 [] [3] 6 6.
Definition demo_torn : sstore := (sdo demo_appended demo_second).2.
Definition demo_reopened : sstore := default demo_blank (crash_opens demo_torn 105 [] [] [] []).

#[local] Instance srec_eq_dec : EqDecision srec.
Proof. solve_decision. Defined.

Definition roomyb (t : topic) : bool :=
  (t_revision t <? 2 ^ 64) && forallb (fun x => p_next x + STREAM_FETCH_MAX <? 2 ^ 64) (t_parts t).

Lemma roomyb_sound l : forallb roomyb l = true -> Forall roomy l.
Proof.
  rewrite forallb_forall. intros H. apply Forall_forall. intros t Ht%list_elem_of_In. specialize (H t Ht). unfold roomyb in H.
  apply andb_prop in H as [H1 H2]. rewrite forallb_forall in H2. split; [lia|].
  apply Forall_forall. intros x Hx%list_elem_of_In. specialize (H2 x Hx). lia.
Qed.

Lemma demo_started : started demo_start.
Proof.
  exists [demo_id], [Wrote; Wrote; Wrote; Torn 7], [], []. split; [|by vm_compute]. constructor; [|constructor].
  split; [|done]. by apply bytes_okb_sound.
Qed.

Lemma demo_runs gone : sruns gone demo_start demo_declared.
Proof.
  apply (sruns_call gone demo_start demo_start demo_declare); [constructor|done|by apply roomyb_sound| |by intros n []].
  split; [by apply bytes_okb_sound|]. unfold fits. lia.
Qed.

Lemma demo_first_runs gone s : sruns gone s demo_declared -> sruns gone s demo_appended.
Proof.
  intros H. apply (sruns_call gone s demo_declared demo_first); [done|by vm_compute|by apply roomyb_sound; vm_compute| |by intros n []].
  split; [lia|]. split_and!; [constructor|by apply bytes_okb_sound|done|done].
Qed.

Lemma demo_torn_runs gone s : sruns gone s demo_appended -> sruns gone s demo_torn.
Proof.
  intros H. apply (sruns_call gone s demo_appended demo_second); [done|by vm_compute|by apply roomyb_sound; vm_compute| |by intros n []].
  split; [lia|]. split_and!; [constructor|by apply bytes_okb_sound|done|done].
Qed.

Lemma demo_crash_runs gone s : sruns gone s demo_torn -> sruns gone s demo_reopened.
Proof.
  intros H. apply (sruns_crash gone s demo_torn 105 [] [] [] []); [done|by vm_compute|constructor|by vm_compute].
Qed.

Lemma append_survives_witness : stored (ss_topics demo_reopened) demo_topic 0 (SRec 0 5 [1; 2] []).
Proof.
  apply (append_survives demo_start demo_declared demo_topic 0 [] [1; 2] 5 5 0 0 demo_appended demo_reopened demo_started (demo_runs anything)).
  - by vm_compute.
  - apply roomyb_sound. by vm_compute.
  - lia.
  - split_and!; [constructor|by apply bytes_okb_sound|done|done].
  - by vm_compute.
  - apply demo_crash_runs, demo_torn_runs. constructor.
  - by vm_compute.
Defined.

Lemma acknowledged_survives_witness : exists s2, crash_opens demo_appended 98 [] [] [] [] = Some s2 /\
  forall name, option_Forall2 survives (find_topic (ss_topics demo_appended) name) (find_topic (ss_topics s2) name).
Proof.
  apply (acknowledged_survives demo_start demo_declared demo_first 98 [] [] demo_started (demo_runs anything)).
  - by vm_compute.
  - apply roomyb_sound. by vm_compute.
  - split; [lia|]. split_and!; [constructor|by apply bytes_okb_sound|done|done].
  - by vm_compute.
  - by vm_compute.
  - constructor.
Defined.

Lemma stream_accounting_witness : consistent demo_reopened.
Proof.
  apply (stream_accounting demo_start demo_reopened demo_started); [|by vm_compute].
  apply demo_crash_runs, demo_torn_runs, demo_first_runs, demo_runs.
Defined.

Lemma stream_reopens_witness : exists s2, crash_opens demo_torn 101 [] [] [] [] = Some s2 /\
  ss_failed s2 = false /\ consistent s2 /\ sruns anything demo_start s2.
Proof.
  apply (stream_reopens demo_start demo_torn 101 [] [] demo_started); [|by vm_compute|constructor].
  apply demo_torn_runs, demo_first_runs, demo_runs.
Defined.

Lemma fetch_exact_witness : exists t x, find_topic (ss_topics demo_appended) demo_topic = Some t /\ t_parts t !! 0%nat = Some x /\
  demo_id = t_id t /\ 0 = p_base x /\ 1 = p_next x /\
  (RANGE_OK = RANGE_RECREATED <-> exists id, Some demo_id = Some id /\ id <> t_id t) /\
  p_base x <= 0 <= p_next x /\ page_of x 0 10 1000 1 [SRec 0 5 [1; 2] []].
Proof.
  apply (fetch_exact demo_start demo_appended demo_topic 0 0 10 1000 (Some demo_id) 9 (Fetched demo_id 0 1 1 RANGE_OK [SRec 0 5 [1; 2] []])
    demo_appended demo_started).
  - apply demo_first_runs, demo_runs.
  - by vm_compute.
  - apply roomyb_sound. by vm_compute.
  - lia.
  - by vm_compute.
Defined.

Lemma demo_reached : sruns anything demo_start demo_reopened.
Proof. apply demo_crash_runs, demo_torn_runs, demo_first_runs, demo_runs. Qed.

Definition demo_compacted : sstore := (stream_compact_locked demo_reopened).2.

Lemma compaction_preserves_witness : ss_topics demo_compacted = ss_topics demo_reopened /\
  ss_durable demo_compacted = zlen (ss_file demo_compacted) /\ zlen (ss_buf demo_compacted) = 0 /\
  (exists evs m, ss_file demo_compacted = frames evs /\ effects evs [] = Some m /\ same eq m (ss_topics demo_reopened)) /\
  exists s2, stream_store_open (stream_blank (ss_file demo_compacted) [] [] [] []) [9] = Some s2 /\
    forall name, option_Forall2 (restarted 1 [9]) (find_topic (ss_topics demo_reopened) name) (find_topic (ss_topics s2) name).
Proof.
  apply (compaction_preserves demo_start demo_reopened demo_compacted [] [9] demo_started demo_reached);
    [by vm_compute|by apply roomyb_sound; vm_compute|by vm_compute|constructor].
Defined.

Definition demo_committed : sstore := (stream_commit demo_reopened demo_topic [103] 0 1).2.

Lemma commit_forward_witness : exists t t' x, find_topic (ss_topics demo_reopened) demo_topic = Some t /\
  find_topic (ss_topics demo_committed) demo_topic = Some t' /\ t_parts t !! 0%nat = Some x /\ p_base x <= 1 <= p_next x /\
  t_parts t' = t_parts t /\
  (forall g q, offset_of t' g q = if decide (g = [103] /\ q = 0%nat) then Z.max 1 (offset_of t g q) else offset_of t g q) /\
  forall n, n <> demo_topic -> find_topic (ss_topics demo_committed) n = find_topic (ss_topics demo_reopened) n.
Proof.
  apply (commit_forward demo_start demo_reopened demo_topic [103] 0 1 demo_committed demo_started demo_reached);
    [by vm_compute|by apply roomyb_sound; vm_compute|by apply bytes_okb_sound|lia|by vm_compute].
Defined.

(** A topic with a limit of three bytes that holds five. *)
Definition demo_full : topic := {| t_name := demo_topic; t_max_bytes := 3; t_max_age_ms := 0; t_bytes := 5; t_records := 3;
  t_revision := 4; t_id := demo_id; t_id_persisted := true;
  t_parts := [Part [SRec 0 5 [1; 2] []; SRec 1 6 [3] []; SRec 2 7 [4; 5] []] 0 3 5]; t_groups := [] |}.

Lemma demo_full_ok : topic_ok demo_full.
Proof.
  constructor; try done.
  - split; [by apply bytes_okb_sound|done].
  - constructor; [|constructor]. constructor; try done. repeat constructor; try done; by apply bytes_okb_sound.
  - split; [by apply bytes_okb_sound|done].
  - constructor.
Qed.

Lemma retention_prefix_witness : let '(s', t', base, touched) := retain demo_blank demo_full 9 in
  t_bytes t' = 3 /\ topic_ok t' /\ s' = add_live demo_blank (topic_live t' - topic_live demo_full) /\ t_groups t' = [].
Proof.
  pose proof (retention_prefix demo_blank demo_full 9 demo_full_ok) as H.
  change (t_bytes (retain demo_blank demo_full 9).1.1.2) with 3 in *.
  destruct (retain demo_blank demo_full 9) as [[[s' t'] base] touched] eqn:E. destruct H as (H1 & H2 & H3 & _).
  split; [|done]. by vm_compute in E; injection E as _ <- _ _.
Defined.

Definition demo_group : group := Group [103] [0; 0; 0] [Member 9 20; Member 4 30; Member 6 5] 3 2.

Lemma group_deals_witness : let '(owners, g') := group_owners_locked demo_group 10 in
  (forall o, o ∈ owners <-> exists m, m ∈ g_members demo_group /\ mb_owner m = o /\ 10 < mb_deadline m) /\
  StronglySorted Z.le owners /\
  (owners <> [] ->
    (forall p, 0 <= p < 3 -> exists o, o ∈ owners /\ forall o', p ∈ assignment 3 owners o' <-> o' = o) /\
    (forall o p, 0 <= p < 3 -> (member_assigned_locked demo_group o p 10).1 = true <-> p ∈ assignment 3 owners o) /\
    (forall o, o ∈ owners -> 3 / zlen owners <= zlen (assignment 3 owners o) <= 3 / zlen owners + 1)).
Proof.
  apply (group_deals demo_group 3 10); [|lia]. split; [done|]. cbn. apply (bool_decide_unpack _). by vm_compute.
Defined.

(** ** When memory runs out *)

Definition starve (s : sstore) (allocs : list bool) : sstore := {| s with ss_allocs := allocs |}.

(** The record of the first append is logged, and there is no memory for it;
    the next append is given the same offset. *)
Definition oom_refused : Z * option (Z * Z) * sstore :=
  stream_append (starve demo_reopened [true; true; false]) demo_topic 0 [] [3] 6 6.
Definition oom_acked : Z * option (Z * Z) * sstore := stream_append oom_refused.2 demo_topic 0 [] [4] 7 7.

(** An append that runs out of memory behind its log record loses a later
    record: the call fails and the store goes on, so that the next append is
    acknowledged at the same offset; after a restart without a crash the
    refused record is there instead of the acknowledged one. *)
Theorem append_oom_loses_record : oom_refused.1 = (-1, None) /\ oom_acked.1 = (0, Some (0, 1)) /\
  stored (ss_topics oom_acked.2) demo_topic 0 (SRec 1 7 [4] []) /\
  exists s, crash_opens oom_acked.2 (length (ss_file oom_acked.2)) [] [] [] [] = Some s /\
    stored (ss_topics s) demo_topic 0 (SRec 1 6 [3] []) /\ ~ stored (ss_topics s) demo_topic 0 (SRec 1 7 [4] []).
Proof.
  split; [by vm_compute|]. split; [by vm_compute|]. split.
  { eexists _, _. split; [by vm_compute|]. split; [by vm_compute|]. left. apply (bool_decide_unpack _). by vm_compute. }
  eexists. split; [by vm_compute|]. split.
  { eexists _, _. split; [by vm_compute|]. split; [by vm_compute|]. left. apply (bool_decide_unpack _). by vm_compute. }
  intros (t & x & Et & Ex & H). vm_compute in Et. injection Et as <-. vm_compute in Ex. injection Ex as <-.
  destruct H as [H|H]; [|by vm_compute in H]. revert H. apply (bool_decide_unpack _). by vm_compute.
Qed.

(** ** When the clock steps back *)

(** A record stamped one millisecond ahead of the clock counts as older than
    every limit. *)
Example clock_back_drops : let t := {| t_name := demo_topic; t_max_bytes := 0; t_max_age_ms := 86400000; t_bytes := 1; t_records := 1;
    t_revision := 2; t_id := demo_id; t_id_persisted := true; t_parts := [Part [SRec 0 1001 [1] []] 0 1 1]; t_groups := [] |} in
  t_parts (retain demo_blank t 1001).1.1.2 = t_parts t /\ t_parts (retain demo_blank t 1000).1.1.2 = [Part [] 1 1 0].
Proof. by vm_compute. Qed.

End StreamTheorems.
