(* ===== verification/Topic.v ===== *)
(** * Topic patterns (queue.c: topic_word_count, topic_word_at, topic_matches)

    Routing keys and patterns are words separated by dots.  The source matches
    them by dynamic programming over the words of the pattern, one row per
    word of the key; here the rows are lists, and the matcher is shown to
    decide the documented relation. *)

From stdpp Require Import base numbers option list.
From S2P Require Import Prelude.

Module Topic.

Definition TOPIC_WORDS_MAX : Z := 128.
Definition DOT : Z := 46.
Definition STAR : Z := 42.
Definition HASH : Z := 35.

(** [topic_word_count] *)
Fixpoint topic_word_count (s : bytes) : nat :=
  match s with
  | [] => 1
  | c :: r => if c =? DOT then S (topic_word_count r) else topic_word_count r
  end.

(** The loop of [topic_word_at]: [acc] holds the bytes from [start] on. *)
Fixpoint word_loop (s acc : bytes) (word index : nat) : bytes :=
  match s with
  | [] => if (word =? index)%nat then acc else []
  | c :: r =>
      if c =? DOT
      then if (word =? index)%nat then acc else word_loop r [] (S word) index
      else word_loop r (acc ++ [c]) word index
  end.

(** The word with this index; empty past the last one. *)
Definition topic_word_at (s : bytes) (index : nat) : bytes := word_loop s [] 0 index.

(** The array of words. *)
Definition topic_words (s : bytes) : list bytes :=
  topic_word_at s <$> seq 0 (topic_word_count s).

Definition is_hash (w : bytes) : bool := bool_decide (w = [HASH]).
Definition is_star (w : bytes) : bool := bool_decide (w = [STAR]).

Definition head_bit (d : list bool) : bool := hd false d.

(** The seed row: no key word left. *)
Fixpoint seed_row (pw : list bytes) : list bool :=
  match pw with
  | [] => [true]
  | w :: r => let d := seed_row r in (if is_hash w then head_bit d else false) :: d
  end.

(** One row: [dp] is the row of the key words behind [kw]. *)
Fixpoint next_row (kw : bytes) (pw : list bytes) (dp : list bool) : list bool :=
  match pw with
  | [] => [false]
  | w :: r =>
      let cur := next_row kw r (tail dp) in
      (if is_hash w then head_bit cur || head_bit dp
       else if is_star w then head_bit (tail dp)
       else if bool_decide (w = kw) then head_bit (tail dp) else false) :: cur
  end.

(** The rows for the key words from the last to the first. *)
Definition topic_rows (pw kws : list bytes) : list bool :=
  foldr (fun kw dp => next_row kw pw dp) (seed_row pw) kws.

Definition topic_matches (pattern key : bytes) : bool :=
  if TOPIC_WORDS_MAX <? Z.of_nat (topic_word_count pattern) then false
  else head_bit (topic_rows (topic_words pattern) (topic_words key)).

(** ** The documented relation *)

(** The words of a string: maximal runs without a dot. *)
Fixpoint split_words (s : bytes) : list bytes :=
  match s with
  | [] => [[]]
  | c :: r =>
      if c =? DOT then [] :: split_words r
      else match split_words r with
           | [] => [[c]]
           | w :: ws => (c :: w) :: ws
           end
  end.

(** A star matches exactly one word, a hash zero or more, any other word
    itself. *)
Inductive matches : list bytes -> list bytes -> Prop :=
  | m_nil : matches [] []
  | m_star ps k ks : matches ps ks -> matches ([STAR] :: ps) (k :: ks)
  | m_hash_none ps ks : matches ps ks -> matches ([HASH] :: ps) ks
  | m_hash_more ps k ks : matches ([HASH] :: ps) ks -> matches ([HASH] :: ps) (k :: ks)
  | m_word w ps ks : w <> [STAR] -> w <> [HASH] -> matches ps ks -> matches (w :: ps) (w :: ks).

(** ** Words *)

Lemma word_loop_none s acc word index : (index < word)%nat ->
  word_loop s acc word index = [].
Proof.
  revert acc word. induction s as [|c r IH]; intros acc word H; simpl.
  - by destruct (Nat.eqb_spec word index); [lia|].
  - destruct (c =? DOT); [|by apply IH].
    destruct (Nat.eqb_spec word index); [lia|]. apply IH. lia.
Qed.

(** The word loop finds the words of the specification. *)
Lemma word_loop_spec s : forall acc word k, 
  word_loop s acc word (word + k) =
  match k, split_words s with
  | O, w :: _ => acc ++ w
  | S k, _ :: ws => nth k ws []
  | _, [] => []
  end.
Proof.
  induction s as [|c r IH]; intros acc word k; simpl.
  - destruct k as [|k].
    + by rewrite Nat.add_0_r, Nat.eqb_refl, app_nil_r.
    + destruct (Nat.eqb_spec word (word + S k)); [lia|]. by destruct k.
  - destruct (c =? DOT).
    + destruct k as [|k]; [by rewrite Nat.add_0_r, Nat.eqb_refl, app_nil_r|].
      destruct (Nat.eqb_spec word (word + S k)); [lia|].
      replace (word + S k)%nat with (S word + k)%nat by lia. rewrite IH.
      destruct k, (split_words r); done.
    + rewrite IH. destruct (split_words r) as [|w ws] eqn:E; [by destruct r; simpl in E; repeat case_match|].
      destruct k; [by rewrite <- app_assoc|done].
Qed.

Lemma split_words_cons s : exists w ws, split_words s = w :: ws.
Proof. destruct s as [|c r]; simpl; repeat case_match; eauto. Qed.

Lemma word_count_split s : topic_word_count s = length (split_words s).
Proof.
  induction s as [|c r IH]; simpl; [done|]. destruct (c =? DOT); simpl; [by rewrite IH|].
  destruct (split_words_cons r) as (w & ws & E). rewrite E in *. done.
Qed.

Lemma topic_words_split s : topic_words s = split_words s.
Proof.
  apply list_eq. intros i. unfold topic_words. rewrite list_lookup_fmap, word_count_split.
  destruct (decide (i < length (split_words s))%nat) as [Hi|Hi].
  - rewrite lookup_seq_lt by done. simpl. unfold topic_word_at.
    pose proof (word_loop_spec s [] 0 i) as W. simpl in W. rewrite W.
    destruct (split_words_cons s) as (w & ws & E). rewrite E in *.
    destruct i as [|i]; [done|]. simpl in *. rewrite nth_lookup.
    destruct (lookup_lt_is_Some_2 ws i) as [x Ex]; [lia|]. by rewrite Ex.
  - rewrite lookup_seq_ge by lia. symmetry. apply lookup_ge_None. lia.
Qed.

(** ** The rows *)

(** [d] tells, for every suffix of the pattern, whether it matches [ks]. *)
Fixpoint row_of (ks : list bytes) (pw : list bytes) (d : list bool) : Prop :=
  match pw, d with
  | [], [b] => b = true <-> matches [] ks
  | w :: r, b :: d => (b = true <-> matches (w :: r) ks) /\ row_of ks r d
  | _, _ => False
  end.

Lemma row_head ks pw d : row_of ks pw d -> head_bit d = true <-> matches pw ks.
Proof. destruct pw as [|w pw], d as [|b [|]]; simpl; tauto. Qed.

Lemma row_tail ks w pw d : row_of ks (w :: pw) d -> row_of ks pw (tail d).
Proof. destruct d; simpl; tauto. Qed.

Lemma hash_nil ps : matches ([HASH] :: ps) [] <-> matches ps [].
Proof. split; [by inversion 1|by constructor]. Qed.

Lemma hash_cons ps k ks : matches ([HASH] :: ps) (k :: ks) <->
  matches ps (k :: ks) \/ matches ([HASH] :: ps) ks.
Proof. split; [inversion 1; subst; auto; done|]. intros [H|H]; by constructor. Qed.

Lemma star_cons ps k ks : matches ([STAR] :: ps) (k :: ks) <-> matches ps ks.
Proof. split; [by inversion 1|by constructor]. Qed.

Lemma word_cons w ps k ks : w <> [STAR] -> w <> [HASH] ->
  matches (w :: ps) (k :: ks) <-> w = k /\ matches ps ks.
Proof. intros H1 H2. split; [by inversion 1; subst|]. intros [-> H]. by constructor. Qed.

Lemma other_nil w ps : w <> [HASH] -> ~ matches (w :: ps) [].
Proof. intros H. by inversion 1. Qed.

Lemma seed_row_ok pw : row_of [] pw (seed_row pw).
Proof.
  induction pw as [|w r IH]; simpl; [split; [constructor|done]|]. split; [|done].
  unfold is_hash. case_bool_decide as H.
  - subst w. rewrite hash_nil. by apply row_head.
  - split; [done|]. intros M. by apply other_nil in M.
Qed.

Lemma next_row_ok k ks pw dp : row_of ks pw dp -> row_of (k :: ks) pw (next_row k pw dp).
Proof.
  revert dp. induction pw as [|w r IH]; intros dp H; simpl; [split; [done|by inversion 1]|].
  pose proof (IH _ (row_tail _ _ _ _ H)) as Hc. split; [|done].
  pose proof (row_head _ _ _ Hc) as Ec. pose proof (row_head _ _ _ H) as Ed.
  pose proof (row_head _ _ _ (row_tail _ _ _ _ H)) as Et.
  unfold is_hash, is_star. case_bool_decide as H1; [subst w|case_bool_decide as H2; [subst w|]].
  - rewrite hash_cons, orb_true_iff. tauto.
  - by rewrite star_cons.
  - rewrite word_cons by done. case_bool_decide; [tauto|]. split; [done|tauto].
Qed.

Lemma topic_rows_ok pw ks : row_of ks pw (topic_rows pw ks).
Proof. induction ks; simpl; [apply seed_row_ok|by apply next_row_ok]. Qed.

(** C29. The dynamic-programming matcher decides the documented relation on
    the words of pattern and key, for patterns within the word limit that
    binding enforces. *)
Theorem topic_matches_spec (pattern key : bytes) :
  topic_matches pattern key = true <->
  Z.of_nat (length (split_words pattern)) <= TOPIC_WORDS_MAX /\
  matches (split_words pattern) (split_words key).
Proof.
  unfold topic_matches. rewrite word_count_split, !topic_words_split.
  pose proof (row_head _ _ _ (topic_rows_ok (split_words pattern) (split_words key))) as H.
  destruct (Z.ltb_spec TOPIC_WORDS_MAX (Z.of_nat (length (split_words pattern)))).
  - split; [done|lia].
  - rewrite H. split; [auto|tauto].
Qed.

End Topic.
