(* ===== verification/Json.v ===== *)
(** * JSON and Base64 helpers of the management API (admin_json.c)

    A pointer into the request is the list of the bytes from it to the end of
    the buffer.  The C library functions the code calls are modelled from the
    C standard, in the C locale; whether [strtod] reports a range error is a
    parameter. *)

From stdpp Require Import base numbers option list.
From S2P Require Import Prelude.

Module Json.

Definition ADMIN_JSON_DEPTH_MAX : Z := 32.

Definition between (a c b : Z) : bool := (a <=? c) && (c <=? b).

(** ** UTF-8 *)

(** The test for a continuation byte. *)
Definition cont (c : Z) : bool := Z.land c 0xc0 =? 0x80.

Fixpoint valid_utf8 (p : bytes) : bool :=
  match p with
  | [] => true
  | c :: p1 =>
      if c <? 0x80 then valid_utf8 p1
      else if between 0xc2 c 0xdf then
        match p1 with x :: p2 => cont x && valid_utf8 p2 | _ => false end
      else if c =? 0xe0 then
        match p1 with x :: y :: p2 => between 0xa0 x 0xbf && cont y && valid_utf8 p2 | _ => false end
      else if between 0xe1 c 0xec then
        match p1 with x :: y :: p2 => cont x && cont y && valid_utf8 p2 | _ => false end
      else if c =? 0xed then
        match p1 with x :: y :: p2 => between 0x80 x 0x9f && cont y && valid_utf8 p2 | _ => false end
      else if between 0xee c 0xef then
        match p1 with x :: y :: p2 => cont x && cont y && valid_utf8 p2 | _ => false end
      else if c =? 0xf0 then
        match p1 with
        | x :: y :: z :: p2 => between 0x90 x 0xbf && cont y && cont z && valid_utf8 p2
        | _ => false
        end
      else if between 0xf1 c 0xf3 then
        match p1 with x :: y :: z :: p2 => cont x && cont y && cont z && valid_utf8 p2 | _ => false end
      else if c =? 0xf4 then
        match p1 with
        | x :: y :: z :: p2 => between 0x80 x 0x8f && cont y && cont z && valid_utf8 p2
        | _ => false
        end
      else false
  end.

(** ** The C library *)

Definition isspace (c : Z) : bool := (c =? 32) || between 9 c 13.
Definition isdigit (c : Z) : bool := between 48 c 57.
Definition isxdigit (c : Z) : bool := isdigit c || between 65 c 70 || between 97 c 102.
Definition tolower (c : Z) : Z := if between 65 c 90 then c + 32 else c.

Fixpoint span (f : Z -> bool) (p : bytes) : bytes * bytes :=
  match p with
  | [] => ([], [])
  | c :: r => if f c then let '(a, b) := span f r in (c :: a, b) else ([], p)
  end.

Definition skip_sign (p : bytes) : bytes :=
  match p with c :: r => if (c =? 43) || (c =? 45) then r else p | [] => p end.

(** The text [w] in either case at the start of [p]. *)
Fixpoint match_word (w p : bytes) : option bytes :=
  match w, p with
  | [], _ => Some p
  | x :: w, c :: r => if tolower c =? x then match_word w r else None
  | _, [] => None
  end.

(** Digits with an optional radix character; at least one digit. *)
Definition mantissa (f : Z -> bool) (p : bytes) : option bytes :=
  let '(a, r) := span f p in
  match r with
  | 46 :: r' =>
      let '(b, r'') := span f r' in
      match a, b with [], [] => None | _, _ => Some r'' end
  | _ => match a with [] => None | _ => Some r end
  end.

(** An optional exponent introduced by [mark]. *)
Definition exponent (mark : Z) (p : bytes) : bytes :=
  match p with
  | c :: r =>
      if tolower c =? mark then
        let '(d, r') := span isdigit (skip_sign r) in
        match d with [] => p | _ => r' end
      else p
  | [] => p
  end.

(** The end of the number that [strtod] reads at [p], or [p]. *)
Definition strtod_end (p : bytes) : bytes :=
  let q := skip_sign (snd (span isspace p)) in
  match match_word [105; 110; 102; 105; 110; 105; 116; 121] q, match_word [105; 110; 102] q,
        match_word [110; 97; 110] q with
  | Some r, _, _ | None, Some r, _ => r
  | _, _, Some r =>
      match r with
      | 40 :: r' =>
          let '(_, r'') := span (fun c => isdigit c || between 65 c 90 || between 97 c 122 || (c =? 95)) r' in
          match r'' with 41 :: r''' => r''' | _ => r end
      | _ => r
      end
  | _, _, _ =>
      match match_word [48; 120] q with
      | Some r =>
          match mantissa isxdigit r with
          | Some r' => exponent 112 r'
          | None => match q with _ :: r' => r' | [] => p end
          end
      | None => match mantissa isdigit q with Some r => exponent 101 r | None => p end
      end
  end.

Definition ULLONG_MAX : Z := 2 ^ 64 - 1.
Definition LLONG_MAX : Z := 2 ^ 63 - 1.

Definition digits_value (d : bytes) : Z := fold_left (fun n c => n * 10 + (c - 48)) d 0.

(** The sign, the digits and the end of a decimal number. *)
Definition decimal (p : bytes) : bool * bytes * bytes :=
  let q := snd (span isspace p) in
  let neg := match q with 45 :: _ => true | _ => false end in
  let '(d, r) := span isdigit (skip_sign q) in
  match d with [] => (neg, [], p) | _ => (neg, d, r) end.

(** [strtoull] and [strtoll] in base ten: the value, the end, and [errno]. *)
Definition strtoull (p : bytes) : Z * bytes * bool :=
  let '(neg, d, r) := decimal p in
  let n := digits_value d in
  if ULLONG_MAX <? n then (ULLONG_MAX, r, true)
  else (if neg then u64 (- n) else n, r, false).

Definition strtoll (p : bytes) : Z * bytes * bool :=
  let '(neg, d, r) := decimal p in
  let n := if neg then - digits_value d else digits_value d in
  if LLONG_MAX <? n then (LLONG_MAX, r, true)
  else if n <? - LLONG_MAX - 1 then (- LLONG_MAX - 1, r, true)
  else (n, r, false).

(** ** Scanning *)

Definition is_ws (c : Z) : bool := (c =? 32) || (c =? 10) || (c =? 13) || (c =? 9).

Fixpoint skip_ws (p : bytes) : bytes :=
  match p with c :: r => if is_ws c then skip_ws r else p | [] => [] end.

Definition is_escape (c : Z) : bool :=
  existsb (Z.eqb c) [34; 92; 47; 98; 102; 110; 114; 116; 117].

(** The loop of [scan_string]: [acc] is what was scanned since the start. *)
Fixpoint scan_chars (p : bytes) (escaped : bool) (acc : bytes) : option (bytes * bytes) :=
  match p with
  | [] => None
  | c :: r =>
      if c <? 0x20 then None
      else if escaped then
        if negb (is_escape c) then None
        else if c =? 117 then
          match r with
          | h1 :: h2 :: h3 :: h4 :: r' =>
              if isxdigit h1 && isxdigit h2 && isxdigit h3 && isxdigit h4
              then scan_chars r' false (acc ++ [c; h1; h2; h3; h4]) else None
          | _ => None
          end
        else scan_chars r false (acc ++ [c])
      else if c =? 92 then scan_chars r true (acc ++ [c])
      else if c =? 34 then Some (acc, r)
      else scan_chars r false (acc ++ [c])
  end.

(** The slice between the quotes and the pointer behind them. *)
Definition scan_string (p : bytes) : option (bytes * bytes) :=
  match p with
  | 34 :: r => scan_chars r false []
  | _ => None
  end.

(** The characters that end a bare token; [strchr] also finds the final NUL. *)
Definition token_end (c : Z) : bool := existsb (Z.eqb c) [32; 9; 13; 10; 44; 93; 125; 0].

Definition true_text : bytes := [116; 114; 117; 101].
Definition false_text : bytes := [102; 97; 108; 115; 101].
Definition null_text : bytes := [110; 117; 108; 108].

Section scan.
(** Whether [strtod] sets [errno] on the number. *)
Context (out_of_range : bytes -> bool).

Definition scan_bare (p : bytes) : option bytes :=
  let '(t, r) := span (fun c => negb (token_end c)) p in
  match t with
  | [] => None
  | _ =>
      if bool_decide (t = true_text) || bool_decide (t = false_text) || bool_decide (t = null_text)
      then Some r
      else if out_of_range t || negb (bool_decide (strtod_end p = r)) then None else Some r
  end.

Definition expect (c : Z) (p : bytes) : option bytes :=
  match p with x :: r => if x =? c then Some r else None | [] => None end.

(** [scan_value] and its loop over the members of an object or array. *)
Fixpoint scan_value (fuel : nat) (p : bytes) (depth : Z) : option bytes :=
  match fuel with
  | O => None
  | S fuel =>
      let p := skip_ws p in
      if ADMIN_JSON_DEPTH_MAX <? depth then None
      else
        match p with
        | [] => None
        | c :: r =>
            if c =? 34 then '(_, r) ← scan_string p; Some r
            else if (c =? 123) || (c =? 91) then
              let close := if c =? 123 then 125 else 93 in
              let r := skip_ws r in
              match expect close r with
              | Some r => Some r
              | None => scan_items fuel r (c =? 123) close depth
              end
            else scan_bare p
        end
  end
with scan_items (fuel : nat) (p : bytes) (object : bool) (close depth : Z) : option bytes :=
  match fuel with
  | O => None
  | S fuel =>
      p ← (if object then '(_, r) ← scan_string p; expect 58 (skip_ws r) else Some p);
      p ← scan_value fuel p (depth + 1);
      let p := skip_ws p in
      match expect close p with
      | Some r => Some r
      | None => r ← expect 44 p; scan_items fuel (skip_ws r) object close depth
      end
  end.

(** Enough for every nesting of a text: two calls per byte. *)
Definition scan_fuel (p : bytes) : nat := 2 * length p + 2.

Definition admin_json_validate (json : bytes) : Z :=
  match json with
  | [] => -1
  | _ =>
      if negb (valid_utf8 json) then -1
      else
        match scan_value (scan_fuel json) json 0 with
        | Some r => match skip_ws r with [] => 0 | _ => -1 end
        | None => -1
        end
  end.

(** The bytes from [p] up to the later pointer [q]. *)
Definition text_slice (p q : bytes) : bytes := take (length p - length q) p.

Inductive found := FieldError | FieldAbsent | FieldAt (value : bytes).

(** The loop over the members; each round consumes a byte. *)
Fixpoint field_loop (fuel : nat) (p field : bytes) : found :=
  match fuel with
  | O => FieldError
  | S fuel =>
      match p with
      | [] => FieldAbsent
      | 125 :: _ => FieldAbsent
      | _ =>
          match ('(key, r) ← scan_string p; r ← expect 58 (skip_ws r); Some (key, skip_ws r)) with
          | None => FieldError
          | Some (key, begin) =>
              match scan_value (scan_fuel begin) begin 1 with
              | None => FieldError
              | Some r =>
                  if bool_decide (key = field) then FieldAt (text_slice begin r)
                  else
                    match skip_ws r with
                    | 44 :: r => field_loop fuel (skip_ws r) field
                    | 125 :: _ => FieldAbsent
                    | _ => FieldError
                    end
              end
          end
      end
  end.

Definition find_field (json field : bytes) : found :=
  match expect 123 (skip_ws json) with
  | None => FieldError
  | Some p => field_loop (S (length p)) (skip_ws p) field
  end.

(** The results of the accessors: an error, no such field, or the value. *)
Definition rc_of {A} (f : found) (k : bytes -> option A) : option (option A) :=
  match f with
  | FieldError => None
  | FieldAbsent => Some None
  | FieldAt v => a ← k v; Some (Some a)
  end.

(** A string without escapes that fills the slice. *)
Definition exact_string (v : bytes) : option bytes :=
  '(s, r) ← scan_string v;
  if bool_decide (r = []) && negb (existsb (Z.eqb 92) s) then Some s else None.

Definition admin_json_string (json field : bytes) : option (option bytes) :=
  rc_of (find_field json field) exact_string.

Definition admin_json_u64 (json field : bytes) : option (option Z) :=
  rc_of (find_field json field) (fun v =>
    if 32 <=? zlen v then None
    else
      let '(n, r, errno) := strtoull v in
      match r, v with
      | [], 45 :: _ => None
      | [], _ => if errno then None else Some n
      | _, _ => None
      end).

Definition admin_json_i64 (json field : bytes) : option (option Z) :=
  rc_of (find_field json field) (fun v =>
    if 32 <=? zlen v then None
    else
      let '(n, r, errno) := strtoll v in
      match r with [] => if errno then None else Some n | _ => None end).

Definition admin_json_bool (json field : bytes) : option (option bool) :=
  rc_of (find_field json field) (fun v =>
    if bool_decide (v = true_text) then Some true
    else if bool_decide (v = false_text) then Some false else None).

(** The loop over array items, for [item] one item and the pointer behind. *)
Fixpoint array_loop {A} (fuel : nat) (item : bytes -> option (A * bytes)) (p : bytes) (cap : nat)
    : option (list A * bytes) :=
  match fuel, cap with
  | S fuel, S cap =>
      '(a, r) ← item p;
      let r := skip_ws r in
      match expect 93 r with
      | Some r => Some ([a], r)
      | None =>
          r ← expect 44 r;
          '(l, r) ← array_loop fuel item (skip_ws r) cap;
          Some (a :: l, r)
      end
  | _, _ => None
  end.

Definition array_items {A} (item : bytes -> option (A * bytes)) (v : bytes) (cap : nat)
    : option (list A) :=
  p ← expect 91 (skip_ws v);
  let p := skip_ws p in
  '(l, r) ← (match expect 93 p with
             | Some r => Some ([], r)
             | None => array_loop (length p) item p cap
             end);
  match r with [] => Some l | _ => None end.

Definition string_item (p : bytes) : option (bytes * bytes) :=
  '(s, r) ← scan_string p; if existsb (Z.eqb 92) s then None else Some (s, r).

Definition admin_json_string_array (json field : bytes) (cap : nat) : option (option (list bytes)) :=
  rc_of (find_field json field) (fun v => array_items string_item v cap).

Definition object_item (p : bytes) : option (bytes * bytes) :=
  match p with
  | 123 :: _ => r ← scan_value (scan_fuel p) p 1; Some (text_slice p r, r)
  | _ => None
  end.

Definition admin_json_object_array (json field : bytes) (cap : nat) : option (option (list bytes)) :=
  rc_of (find_field json field) (fun v => array_items object_item v cap).
End scan.

(** ** Base64 *)

Definition b64_value (c : Z) (urlsafe : bool) : Z :=
  if between 65 c 90 then c - 65
  else if between 97 c 122 then c - 97 + 26
  else if between 48 c 57 then c - 48 + 52
  else if c =? (if urlsafe then 45 else 43) then 62
  else if c =? (if urlsafe then 95 else 47) then 63
  else -1.

(** The state of the loop: the bytes written, the bits that wait in the
    accumulator and the padding seen. *)
Record b64_state := B64State { b_out : bytes; b_bits : Z; b_acc : Z; b_pad : Z }.

(** [while (bits >= 8)]: after six more bits it runs at most once. *)
Definition b64_flush (st : b64_state) (cap : Z) : option b64_state :=
  if 8 <=? b_bits st then
    let bits := b_bits st - 8 in
    if cap <=? zlen (b_out st) then None
    else Some {| b_out := b_out st ++ [u8 (Z.shiftr (b_acc st) bits)]; b_bits := bits;
                 b_acc := b_acc st; b_pad := b_pad st |}
  else Some st.

Fixpoint b64_loop (data : bytes) (urlsafe : bool) (cap : Z) (st : b64_state) : option b64_state :=
  match data with
  | [] => Some st
  | c :: r =>
      if c =? 61 then
        if urlsafe || (2 <? b_pad st + 1) || match r with x :: _ => negb (x =? 61) | [] => false end
        then None
        else b64_loop r urlsafe cap {| st with b_pad := b_pad st + 1 |}
      else if negb (b_pad st =? 0) then None
      else
        let v := b64_value c urlsafe in
        if v <? 0 then None
        else
          st ← b64_flush {| st with b_acc := Z.lor (u32 (Z.shiftl (b_acc st) 6)) v;
                                    b_bits := b_bits st + 6 |} cap;
          b64_loop r urlsafe cap st
  end.

Definition admin_base64_decode (data : bytes) (urlsafe : bool) (cap : Z) : option bytes :=
  if negb urlsafe && negb (zlen data mod 4 =? 0) then None
  else
    st ← b64_loop data urlsafe cap {| b_out := []; b_bits := 0; b_acc := 0; b_pad := 0 |};
    let bits := b_bits st in
    let pad := b_pad st in
    if (negb urlsafe && negb ((pad =? 0) && (bits =? 0) || (pad =? 1) && (bits =? 2) ||
                              (pad =? 2) && (bits =? 4))) ||
       (urlsafe && negb (bits =? 0) && negb (bits =? 2) && negb (bits =? 4))
    then None else Some (b_out st).

End Json.
