(* ===== verification/Base64.v ===== *)
(** * UTF-8 and Base64 of the management API

    [valid_utf8] accepts exactly the sequences of encoded Unicode scalar
    values; decoding inverts the encodings of RFC 4648, padded and URL-safe. *)

From stdpp Require Import base numbers option list.
From S2P Require Import Prelude Json.
Import Json.

Module Base64.

(** ** UTF-8 *)

Definition scalar (cp : Z) : Prop := 0 <= cp < 0xD800 \/ 0xE000 <= cp < 0x110000.

Definition utf8 (cp : Z) : bytes :=
  if cp <? 0x80 then [cp]
  else if cp <? 0x800 then [0xc0 + cp / 64; 0x80 + cp mod 64]
  else if cp <? 0x10000 then [0xe0 + cp / 4096; 0x80 + cp / 64 mod 64; 0x80 + cp mod 64]
  else [0xf0 + cp / 262144; 0x80 + cp / 4096 mod 64; 0x80 + cp / 64 mod 64; 0x80 + cp mod 64].

(** A fact about all bytes, or all values of six bits, by evaluation. *)
Lemma all_below (n : nat) (P : Z -> bool) : forallb P (seqZ 0 (Z.of_nat n)) = true ->
  forall c, 0 <= c < Z.of_nat n -> P c = true.
Proof.
  intros H c Hc. rewrite forallb_forall in H. apply H, list_elem_of_In, elem_of_seqZ. lia.
Qed.

Lemma cont_between c : is_byte c -> cont c = between 0x80 c 0xbf.
Proof.
  intros Hc. apply eqb_prop. revert c Hc.
  apply (all_below 256 (fun c => eqb (cont c) (between 0x80 c 0xbf))). by vm_compute.
Qed.

Lemma between_spec a c b : BoolSpec (a <= c <= b) (c < a \/ b < c) (between a c b).
Proof. unfold between. destruct (Z.leb_spec a c), (Z.leb_spec c b); constructor; lia. Qed.

(** Case analysis on the tests of [valid_utf8]. *)
Ltac utf8_tests :=
  repeat (match goal with
  | |- context [between ?a ?c ?b] => destruct (between_spec a c b)
  | |- context [?a <? ?b] => destruct (Z.ltb_spec a b)
  | |- context [?a =? ?b] => destruct (Z.eqb_spec a b)
  end; try lia; cbn [andb]).

Lemma div_bounds x n : 0 < n -> n * (x / n) <= x < n * (x / n) + n.
Proof. intros Hn. pose proof (Z.div_mod x n). pose proof (Z.mod_pos_bound x n Hn). lia. Qed.

(** The six bits at a position, as bounds. *)
Lemma mod64 x : 0 <= x mod 64 < 64.
Proof. apply Z.mod_pos_bound. lia. Qed.

Lemma utf8_valid cp r : scalar cp -> valid_utf8 (utf8 cp ++ r) = valid_utf8 r.
Proof.
  intros Hs. unfold utf8, scalar in *.
  pose proof (div_bounds cp 64 ltac:(lia)). pose proof (div_bounds cp 4096 ltac:(lia)).
  pose proof (div_bounds cp 262144 ltac:(lia)). pose proof (mod64 cp).
  pose proof (mod64 (cp / 64)). pose proof (mod64 (cp / 4096)).
  pose proof (Z.div_mod (cp / 64) 64 ltac:(lia)) as D1. rewrite Z.div_div in D1 by lia.
  pose proof (Z.div_mod (cp / 4096) 64 ltac:(lia)) as D2. rewrite Z.div_div in D2 by lia.
  change (64 * 64) with 4096 in D1. change (4096 * 64) with 262144 in D2.
  destruct (Z.ltb_spec cp 0x80); [simpl; by destruct (Z.ltb_spec cp 128); [|lia]|].
  destruct (Z.ltb_spec cp 0x800); [|destruct (Z.ltb_spec cp 0x10000)];
    cbn [app valid_utf8]; rewrite !cont_between by (unfold is_byte; lia); utf8_tests; done.
Qed.

(** Numbers from groups of six bits. *)
Lemma pack64 a b : 0 <= b < 64 -> (a * 64 + b) / 64 = a /\ (a * 64 + b) mod 64 = b.
Proof.
  intros Hb. rewrite Z.add_comm, Z.div_add, Z.mod_add, Z.div_small, Z.mod_small by lia. lia.
Qed.

Lemma utf8_two a b : 0 <= b < 64 -> 2 <= a < 32 -> utf8 (a * 64 + b) = [0xc0 + a; 0x80 + b].
Proof.
  intros Hb Ha. destruct (pack64 a b Hb) as [E1 E2]. unfold utf8. rewrite E1, E2. by utf8_tests.
Qed.

Lemma utf8_three a b c : 0 <= b < 64 -> 0 <= c < 64 -> 0 <= a < 16 -> (a = 0 -> 32 <= b) ->
  utf8 ((a * 64 + b) * 64 + c) = [0xe0 + a; 0x80 + b; 0x80 + c].
Proof.
  intros Hb Hc Ha H0. destruct (pack64 a b Hb) as [E1 E2]. destruct (pack64 (a * 64 + b) c Hc) as [E3 E4].
  unfold utf8. change 4096 with (64 * 64). rewrite <- (Z.div_div _ 64 64) by lia.
  rewrite E3, E4, E1, E2. by utf8_tests.
Qed.

Lemma utf8_four a b c d : 0 <= b < 64 -> 0 <= c < 64 -> 0 <= d < 64 -> 0 <= a < 5 ->
  (a = 0 -> 16 <= b) -> (a = 4 -> b < 16) ->
  utf8 (((a * 64 + b) * 64 + c) * 64 + d) = [0xf0 + a; 0x80 + b; 0x80 + c; 0x80 + d].
Proof.
  intros Hb Hc Hd Ha H0 H4. destruct (pack64 a b Hb) as [E1 E2].
  destruct (pack64 (a * 64 + b) c Hc) as [E3 E4]. destruct (pack64 ((a * 64 + b) * 64 + c) d Hd) as [E5 E6].
  unfold utf8. change 262144 with (64 * 64 * 64). change 4096 with (64 * 64).
  rewrite <- (Z.div_div _ (64 * 64) 64), <- (Z.div_div _ 64 64) by lia.
  rewrite E5, E6, E3, E4, E1, E2. by utf8_tests.
Qed.

(** The tests of the continuation bytes of a longer character; [H] gives it. *)
Ltac utf8_tail H :=
  repeat match goal with Hx : Forall is_byte (_ :: _) |- _ => inversion Hx; clear Hx; subst end;
  rewrite ?cont_between by done;
  repeat (match goal with |- context [between ?a ?c ?b] => destruct (between_spec a c b); [|done] end;
          cbn [andb]);
  intros Hr; eapply H; first [done | lia].

(** The first encoded character of a valid text. *)
Lemma utf8_first c p1 : bytes_ok (c :: p1) -> valid_utf8 (c :: p1) = true ->
  exists cp r, scalar cp /\ c :: p1 = utf8 cp ++ r /\ valid_utf8 r = true.
Proof.
  intros Hb. inversion Hb as [|? ? Hc Hb1]; subst. unfold is_byte in Hc. cbn [valid_utf8].
  destruct (Z.ltb_spec c 0x80).
  { intros Hr. exists c, p1. split; [left; lia|]. split; [|done]. unfold utf8. by utf8_tests. }
  destruct (between_spec 0xc2 c 0xdf).
  { destruct p1 as [|x p2]; [done|]. inversion Hb1; subst. rewrite cont_between by done.
    destruct (between_spec 0x80 x 0xbf); [|done]. cbn [andb]. intros Hr.
    exists ((c - 0xc0) * 64 + (x - 0x80)), p2. rewrite utf8_two by lia.
    split; [left; lia|]. split; [|done]. simpl. repeat f_equal; lia. }
  assert (T : forall x y p2, p1 = x :: y :: p2 -> 0xe0 <= c <= 0xef -> 0x80 <= x <= 0xbf ->
    0x80 <= y <= 0xbf -> (c = 0xe0 -> 0xa0 <= x) -> (c = 0xed -> x <= 0x9f) -> valid_utf8 p2 = true ->
    exists cp r, scalar cp /\ c :: p1 = utf8 cp ++ r /\ valid_utf8 r = true).
  { intros x y p2 -> ? ? ? ? ? Hr. exists (((c - 0xe0) * 64 + (x - 0x80)) * 64 + (y - 0x80)), p2.
    rewrite utf8_three by lia. split; [unfold scalar; lia|]. split; [|done].
    simpl. repeat f_equal; lia. }
  assert (F : forall x y z p2, p1 = x :: y :: z :: p2 -> 0xf0 <= c <= 0xf4 -> 0x80 <= x <= 0xbf ->
    0x80 <= y <= 0xbf -> 0x80 <= z <= 0xbf -> (c = 0xf0 -> 0x90 <= x) -> (c = 0xf4 -> x <= 0x8f) ->
    valid_utf8 p2 = true ->
    exists cp r, scalar cp /\ c :: p1 = utf8 cp ++ r /\ valid_utf8 r = true).
  { intros x y z p2 -> ? ? ? ? ? ? Hr.
    exists ((((c - 0xf0) * 64 + (x - 0x80)) * 64 + (y - 0x80)) * 64 + (z - 0x80)), p2.
    rewrite utf8_four by lia. split; [unfold scalar; lia|]. split; [|done].
    simpl. repeat f_equal; lia. }
  clear Hb.
  destruct (Z.eqb_spec c 0xe0); [destruct p1 as [|x [|y p2]]; [done..|utf8_tail T]|].
  destruct (between_spec 0xe1 c 0xec); [destruct p1 as [|x [|y p2]]; [done..|utf8_tail T]|].
  destruct (Z.eqb_spec c 0xed); [destruct p1 as [|x [|y p2]]; [done..|utf8_tail T]|].
  destruct (between_spec 0xee c 0xef); [destruct p1 as [|x [|y p2]]; [done..|utf8_tail T]|].
  destruct (Z.eqb_spec c 0xf0); [destruct p1 as [|x [|y [|z p2]]]; [done..|utf8_tail F]|].
  destruct (between_spec 0xf1 c 0xf3); [destruct p1 as [|x [|y [|z p2]]]; [done..|utf8_tail F]|].
  destruct (Z.eqb_spec c 0xf4); [destruct p1 as [|x [|y [|z p2]]]; [done..|utf8_tail F]|]. done.
Qed.

Lemma utf8_complete n : forall p, (length p <= n)%nat -> bytes_ok p -> valid_utf8 p = true ->
  exists cps, Forall scalar cps /\ p = concat (utf8 <$> cps).
Proof.
  induction n as [|n IH]; intros p Hl Hb Hv.
  { destruct p; [by exists []|simpl in Hl; lia]. }
  destruct p as [|c p1]; [by exists []|]. destruct (utf8_first c p1 Hb Hv) as (cp & r & Hs & E & Hr).
  assert (Hne : (1 <= length (utf8 cp))%nat) by (unfold utf8; repeat gcase; simpl; lia).
  rewrite E in *. rewrite length_app in Hl.
  destruct (IH r) as (cps & H1 & ->); [lia|by apply Forall_app in Hb as [_ ?]|done|].
  exists (cp :: cps). split; [by constructor|done].
Qed.

Lemma utf8_sound cps : Forall scalar cps -> valid_utf8 (concat (utf8 <$> cps)) = true.
Proof.
  induction 1 as [|cp cps H _ IH]; [done|]. rewrite fmap_cons. cbn [concat]. by rewrite utf8_valid.
Qed.

(** ** Base64 *)

Definition b64_char (v : Z) (urlsafe : bool) : Z :=
  if v <? 26 then v + 65 else if v <? 52 then v - 26 + 97 else if v <? 62 then v - 52 + 48
  else if v =? 62 then (if urlsafe then 45 else 43) else (if urlsafe then 95 else 47).

(** Three bytes are four characters; the rest is padded unless URL-safe. *)
Fixpoint b64_encode (p : bytes) (urlsafe : bool) : bytes :=
  let ch v := b64_char v urlsafe in
  match p with
  | [] => []
  | [a] => [ch (a / 4); ch (a mod 4 * 16)] ++ (if urlsafe then [] else [61; 61])
  | [a; b] => [ch (a / 4); ch (a mod 4 * 16 + b / 16); ch (b mod 16 * 4)] ++ (if urlsafe then [] else [61])
  | a :: b :: c :: r =>
      [ch (a / 4); ch (a mod 4 * 16 + b / 16); ch (b mod 16 * 4 + c / 64); ch (c mod 64)] ++ b64_encode r urlsafe
  end.

Lemma b64_char_spec v urlsafe : 0 <= v < 64 ->
  b64_value (b64_char v urlsafe) urlsafe = v /\ b64_char v urlsafe <> 61.
Proof.
  intros Hv. assert (H : (b64_value (b64_char v urlsafe) urlsafe =? v) && negb (b64_char v urlsafe =? 61) = true).
  { revert v Hv. destruct urlsafe;
      [apply (all_below 64 (fun v => (b64_value (b64_char v true) true =? v) && negb (b64_char v true =? 61)))
      |apply (all_below 64 (fun v => (b64_value (b64_char v false) false =? v) && negb (b64_char v false =? 61)))];
      by vm_compute. }
  apply andb_prop in H as [H1%Z.eqb_eq H2%negb_true_iff%Z.eqb_neq]. done.
Qed.

Lemma lor_six a v : 0 <= v < 64 -> Z.lor (u32 (Z.shiftl a 6)) v = u32 (a * 64) + v.
Proof.
  intros Hv. rewrite Z.shiftl_mul_pow2 by lia. change (2 ^ 6) with 64.
  assert (E : u32 (a * 64) = Z.shiftl (a mod 2 ^ 26) 6).
  { rewrite Z.shiftl_mul_pow2 by lia. unfold u32. change (2 ^ 32) with (2 ^ 26 * 64).
    by rewrite Z.mul_mod_distr_r by lia. }
  rewrite E. symmetry. apply Z.add_nocarry_lor. apply Z.bits_inj'. intros n Hn.
  rewrite Z.land_spec, Z.bits_0. destruct (Z.ltb_spec n 6).
  - by rewrite Z.shiftl_spec_low.
  - rewrite (testbit_high 6 v n), andb_false_r by (unfold fits; lia). done.
Qed.

(** The low bits of the accumulator after six more. *)
Lemma acc_low acc v m : 0 <= v < 64 -> 0 <= m <= 26 ->
  (u32 (acc * 64) + v) mod 2 ^ (m + 6) = acc mod 2 ^ m * 64 + v.
Proof.
  intros Hv Hm. rewrite Z.pow_add_r by lia. change (2 ^ 6) with 64.
  pose proof (Z.pow_pos_nonneg 2 m ltac:(lia) ltac:(lia)).
  pose proof (Z.mod_pos_bound acc (2 ^ m) ltac:(lia)).
  rewrite <- Z.add_mod_idemp_l by lia. unfold u32.
  rewrite Z.mod_mod_divide.
  - rewrite Z.mul_mod_distr_r by lia. apply Z.mod_small. nia.
  - exists (2 ^ (26 - m)). rewrite Z.mul_assoc, <- Z.pow_add_r by lia.
    by replace (26 - m + m) with 26 by lia.
Qed.

(** A byte taken from the middle of the accumulator. *)
Lemma byte_at_bits x k : 0 <= k -> u8 (Z.shiftr x k) = x mod 2 ^ (k + 8) / 2 ^ k.
Proof.
  intros Hk. rewrite Z.shiftr_div_pow2 by done. unfold u8. rewrite Z.pow_add_r by lia.
  pose proof (Z.pow_pos_nonneg 2 k ltac:(lia) Hk). rewrite Z.rem_mul_r by lia.
  rewrite (Z.mul_comm (2 ^ k)), Z.div_add by lia.
  rewrite (Z.div_small (x mod 2 ^ k)) by (apply Z.mod_pos_bound; lia). done.
Qed.

Section decode.
Context (urlsafe : bool) (cap : Z).

(** The state between characters: [w] is what waits in the low [bits] bits. *)
Definition waiting (out : bytes) (bits w : Z) (st : b64_state) : Prop :=
  b_out st = out /\ b_bits st = bits /\ b_acc st mod 2 ^ bits = w /\ b_pad st = 0.

Lemma b64_more v r out w st : 0 <= v < 64 -> waiting out 0 w st -> exists st',
  b64_loop (b64_char v urlsafe :: r) urlsafe cap st = b64_loop r urlsafe cap st' /\ waiting out 6 v st'.
Proof.
  intros Hv (E1 & E2 & E3 & E4). destruct (b64_char_spec v urlsafe Hv) as [C1 C2]. cbn [b64_loop].
  destruct (Z.eqb_spec (b64_char v urlsafe) 61); [done|]. rewrite E4, C1. cbn [negb Z.eqb].
  destruct (Z.ltb_spec v 0); [lia|]. unfold b64_flush. cbn [b_bits]. rewrite E2. cbn [Z.leb].
  simpl. eexists. split; [done|]. split; [done|]. split; [done|]. split; [|done]. cbn [b_acc].
  rewrite lor_six by done. pose proof (acc_low (b_acc st) v 0 Hv ltac:(lia)) as L.
  change (2 ^ (0 + 6)) with 64 in L. change (2 ^ 6) with 64. rewrite L. by rewrite Z.mod_1_r.
Qed.

Lemma b64_out v r out bits w st : 0 <= v < 64 -> 2 <= bits <= 6 -> waiting out bits w st ->
  zlen out < cap -> exists st',
  b64_loop (b64_char v urlsafe :: r) urlsafe cap st = b64_loop r urlsafe cap st' /\
  waiting (out ++ [(w * 64 + v) / 2 ^ (bits - 2)]) (bits - 2) (v mod 2 ^ (bits - 2)) st'.
Proof.
  intros Hv Hb (E1 & E2 & E3 & E4) Hc. destruct (b64_char_spec v urlsafe Hv) as [C1 C2]. cbn [b64_loop].
  destruct (Z.eqb_spec (b64_char v urlsafe) 61); [done|]. rewrite E4, C1. cbn [negb Z.eqb].
  destruct (Z.ltb_spec v 0); [lia|]. unfold b64_flush. cbn [b_bits b_out b_acc b_pad]. rewrite E1, E2.
  destruct (Z.leb_spec 8 (bits + 6)); [|lia]. destruct (Z.leb_spec cap (zlen out)); [lia|].
  rewrite lor_six by done. replace (bits + 6 - 8) with (bits - 2) by lia.
  eexists. split; [done|]. unfold waiting. cbn [b_out b_bits b_acc b_pad].
  pose proof (acc_low (b_acc st) v bits Hv ltac:(lia)) as H'. rewrite E3 in H'.
  split; [|split; [done|split; [|done]]].
  - rewrite byte_at_bits by lia. replace (bits - 2 + 8) with (bits + 6) by lia. by rewrite H'.
  - assert (D : (2 ^ (bits - 2) | 64)).
    { exists (2 ^ (6 - (bits - 2))). rewrite <- Z.pow_add_r by lia. by replace (6 - (bits - 2) + (bits - 2)) with 6 by lia. }
    pose proof (Z.pow_pos_nonneg 2 (bits - 2) ltac:(lia) ltac:(lia)).
    rewrite <- (Z.mod_mod_divide (u32 (b_acc st * 64) + v) 64 (2 ^ (bits - 2)) D).
    pose proof (acc_low (b_acc st) v 0 Hv ltac:(lia)) as L0. change (2 ^ (0 + 6)) with 64 in L0.
    rewrite L0, Z.mod_1_r. done.
Qed.
End decode.

Lemma b64_group_arith a b c : is_byte a -> is_byte b -> is_byte c ->
  (a / 4 * 64 + (a mod 4 * 16 + b / 16)) / 16 = a /\ (a mod 4 * 16 + b / 16) mod 16 = b / 16 /\
  (b / 16 * 64 + (b mod 16 * 4 + c / 64)) / 4 = b /\ (b mod 16 * 4 + c / 64) mod 4 = c / 64 /\
  c / 64 * 64 + c mod 64 = c /\
  0 <= a / 4 < 64 /\ 0 <= a mod 4 * 16 + b / 16 < 64 /\ 0 <= b mod 16 * 4 + c / 64 < 64 /\ 0 <= c mod 64 < 64.
Proof.
  unfold is_byte. intros Ha Hb Hc.
  pose proof (Z.div_mod a 4 ltac:(lia)). pose proof (Z.mod_pos_bound a 4 ltac:(lia)).
  pose proof (Z.div_mod b 16 ltac:(lia)). pose proof (Z.mod_pos_bound b 16 ltac:(lia)).
  pose proof (Z.div_mod c 64 ltac:(lia)). pose proof (Z.mod_pos_bound c 64 ltac:(lia)).
  assert (0 <= b / 16 < 16) by lia. assert (0 <= c / 64 < 4) by lia.
  repeat split; try lia.
  - symmetry. apply (Z.div_unique _ 16 a (b / 16)); lia.
  - symmetry. apply (Z.mod_unique _ 16 (a mod 4)); lia.
  - symmetry. apply (Z.div_unique _ 4 b (c / 64)); lia.
  - symmetry. apply (Z.mod_unique _ 4 (b mod 16)); lia.
Qed.

(** What the decoder must find at the end of the text of [p]. *)
Definition finished (urlsafe : bool) (out : bytes) (st : b64_state) : Prop :=
  b_out st = out /\
  (b_bits st = 0 /\ b_pad st = 0 \/
   (b_bits st = 2 /\ b_pad st = (if urlsafe then 0 else 1)) \/
   (b_bits st = 4 /\ b_pad st = (if urlsafe then 0 else 2))).

Section groups.
Context (urlsafe : bool) (cap : Z) (out : bytes) (w : Z) (st : b64_state).
Hypothesis Hw : waiting out 0 w st.

Lemma b64_one a : is_byte a -> zlen out + 1 <= cap -> exists st',
  b64_loop (b64_encode [a] urlsafe) urlsafe cap st = Some st' /\ finished urlsafe (out ++ [a]) st'.
Proof.
  intros Ha Hc. cbn [b64_encode].
  destruct (b64_group_arith a 0 0 Ha ltac:(done) ltac:(done)) as (A1 & A2 & _ & _ & _ & B1 & B2 & _).
  change (0 / 16) with 0 in *. rewrite Z.add_0_r in *. cbn [app].
  destruct (b64_more urlsafe cap (a / 4) (b64_char (a mod 4 * 16) urlsafe :: if urlsafe then [] else [61; 61])
    out w st B1 Hw) as (st1 & -> & W1).
  destruct (b64_out urlsafe cap (a mod 4 * 16) (if urlsafe then [] else [61; 61]) out 6 (a / 4) st1 B2
    ltac:(lia) W1) as (st2 & -> & W2); [lia|].
  change (2 ^ (6 - 2)) with 16 in W2. rewrite A1 in W2. destruct W2 as (O2 & Bt2 & _ & P2).
  unfold finished. destruct urlsafe; simpl; rewrite ?P2; simpl; eexists; (split; [done|]); simpl;
    rewrite ?O2, ?Bt2; auto.
Qed.

Lemma b64_two a b : is_byte a -> is_byte b -> zlen out + 2 <= cap -> exists st',
  b64_loop (b64_encode [a; b] urlsafe) urlsafe cap st = Some st' /\ finished urlsafe (out ++ [a; b]) st'.
Proof.
  intros Ha Hb Hc. cbn [b64_encode].
  destruct (b64_group_arith a b 0 Ha Hb ltac:(done)) as (A1 & A2 & A3 & A4 & _ & B1 & B2 & B3 & _).
  change (0 / 64) with 0 in *. rewrite Z.add_0_r in *. cbn [app].
  set (tl := if urlsafe then [] else [61]).
  destruct (b64_more urlsafe cap (a / 4) (b64_char (a mod 4 * 16 + b / 16) urlsafe ::
    b64_char (b mod 16 * 4) urlsafe :: tl) out w st B1 Hw) as (st1 & -> & W1).
  destruct (b64_out urlsafe cap (a mod 4 * 16 + b / 16) (b64_char (b mod 16 * 4) urlsafe :: tl) out 6
    (a / 4) st1 B2 ltac:(lia) W1) as (st2 & -> & W2); [lia|].
  change (2 ^ (6 - 2)) with 16 in W2. rewrite A1, A2 in W2.
  destruct (b64_out urlsafe cap (b mod 16 * 4) tl (out ++ [a]) 4 (b / 16) st2 B3 ltac:(lia) W2)
    as (st3 & -> & W3); [rewrite zlen_app; change (zlen [a]) with 1; lia|].
  change (2 ^ (4 - 2)) with 4 in W3. rewrite A3, <- app_assoc in W3. destruct W3 as (O3 & Bt3 & _ & P3).
  unfold finished, tl. destruct urlsafe; simpl; rewrite ?P3; simpl; eexists; (split; [done|]); simpl;
    rewrite ?O3, ?Bt3; auto.
Qed.

Lemma b64_three a b c r : is_byte a -> is_byte b -> is_byte c -> zlen out + 3 <= cap -> exists st',
  b64_loop (b64_encode (a :: b :: c :: r) urlsafe) urlsafe cap st =
  b64_loop (b64_encode r urlsafe) urlsafe cap st' /\ waiting (out ++ [a; b; c]) 0 0 st'.
Proof.
  intros Ha Hb Hc Hcap. cbn [b64_encode].
  destruct (b64_group_arith a b c Ha Hb Hc) as (A1 & A2 & A3 & A4 & A5 & B1 & B2 & B3 & B4). cbn [app].
  set (tl := b64_encode r urlsafe).
  destruct (b64_more urlsafe cap (a / 4) (b64_char (a mod 4 * 16 + b / 16) urlsafe ::
    b64_char (b mod 16 * 4 + c / 64) urlsafe :: b64_char (c mod 64) urlsafe :: tl) out w st B1 Hw)
    as (st1 & -> & W1).
  destruct (b64_out urlsafe cap (a mod 4 * 16 + b / 16) (b64_char (b mod 16 * 4 + c / 64) urlsafe ::
    b64_char (c mod 64) urlsafe :: tl) out 6 (a / 4) st1 B2 ltac:(lia) W1) as (st2 & -> & W2); [lia|].
  change (2 ^ (6 - 2)) with 16 in W2. rewrite A1, A2 in W2.
  destruct (b64_out urlsafe cap (b mod 16 * 4 + c / 64) (b64_char (c mod 64) urlsafe :: tl) (out ++ [a]) 4
    (b / 16) st2 B3 ltac:(lia) W2) as (st3 & -> & W3); [rewrite zlen_app; change (zlen [a]) with 1; lia|].
  change (2 ^ (4 - 2)) with 4 in W3. rewrite A3, A4, <- app_assoc in W3.
  destruct (b64_out urlsafe cap (c mod 64) tl (out ++ [a] ++ [b]) 2 (c / 64) st3 B4 ltac:(lia) W3)
    as (st4 & -> & W4); [rewrite zlen_app; change (zlen ([a] ++ [b])) with 2; lia|].
  change (2 ^ (2 - 2)) with 1 in W4. rewrite Z.div_1_r, A5, Z.mod_1_r, <- app_assoc in W4.
  exists st4. split; [done|]. exact W4.
Qed.
End groups.

Lemma b64_decode_loop urlsafe cap n : forall p out w st, (length p <= n)%nat -> bytes_ok p ->
  waiting out 0 w st -> zlen out + zlen p <= cap -> exists st',
  b64_loop (b64_encode p urlsafe) urlsafe cap st = Some st' /\ finished urlsafe (out ++ p) st'.
Proof.
  induction n as [|n IH]; intros p out w st Hl Hb Hw Hc; unfold zlen in Hc.
  - destruct p; [|simpl in Hl; lia]. destruct Hw as (? & ? & ? & ?). exists st. rewrite app_nil_r.
    split; [done|]. split; [done|by left].
  - destruct p as [|a [|b [|c p]]]; repeat (inversion Hb as [|? ? ? Hb']; subst; clear Hb; rename Hb' into Hb);
      simpl in Hc.
    + by apply (IH [] out w st); [simpl; lia|..].
    + eapply b64_one; [done..|unfold zlen; lia].
    + eapply b64_two; [done..|unfold zlen; lia].
    + destruct (b64_three urlsafe cap out w st Hw a b c p) as (st1 & -> & W1); [done..|unfold zlen; lia|].
      destruct (IH p (out ++ [a; b; c]) 0 st1) as (st' & E & F); [simpl in Hl; lia|done|done| |].
      * rewrite zlen_app. unfold zlen. simpl. lia.
      * exists st'. split; [done|]. by rewrite <- app_assoc in F.
Qed.

Lemma b64_encode_len p : zlen (b64_encode p false) mod 4 = 0.
Proof.
  remember (length p) as n eqn:E. assert (H : (length p <= n)%nat) by lia. clear E. revert p H.
  induction n as [|n IH]; intros [|a [|b [|c p]]] H; try done; [simpl in H; lia..|].
  cbn [b64_encode]. rewrite zlen_app. change (zlen [_; _; _; _]) with 4.
  rewrite <- Z.add_mod_idemp_r by lia. rewrite IH by (simpl in H; lia). done.
Qed.

(** Decoding inverts encoding when the output fits. *)
Lemma b64_decode_encode p urlsafe cap : bytes_ok p -> zlen p <= cap ->
  admin_base64_decode (b64_encode p urlsafe) urlsafe cap = Some p.
Proof.
  intros Hb Hc. unfold admin_base64_decode.
  assert (E : negb urlsafe && negb (zlen (b64_encode p urlsafe) mod 4 =? 0) = false).
  { destruct urlsafe; [done|]. by rewrite b64_encode_len. }
  rewrite E. set (st0 := {| b_out := [] |}).
  destruct (b64_decode_loop urlsafe cap (length p) p [] 0 st0) as (st' & -> & O & F); [done..|].
  cbn [mbind option_bind]. rewrite O. destruct F as [[-> ->]|[[-> ->]|[-> ->]]]; by destruct urlsafe.
Qed.
End Base64.
