(* ===== verification/JsonTheorems.v ===== *)
(** * Texts the management API accepts

    The texts of JSON (RFC 8259), with white space wherever it may be, and that
    [scan_value] reads them: the validation accepts them and the accessors find
    the fields.

    Then, in [JsonTheorems]: theorems about the management API's JSON and Base64. *)

From stdpp Require Import base numbers option list.
From S2P Require Import Prelude Json Base64.
Import Json.

Module JsonPrint.

(** ** Values and their texts *)

(** White space around a token or a value. *)
Record pad := Pad { before : bytes; after : bytes }.

(** A value as it is written: numbers and the inside of strings as text, the
    white space around members, or inside an empty array or object. *)
Inductive json :=
  | JNull
  | JBool (b : bool)
  | JNum (text : bytes)
  | JStr (s : bytes)
  | JArr (gap : bytes) (l : list (json * pad))
  | JObj (gap : bytes) (l : list ((bytes * pad) * (json * pad))).

(** Induction with hypotheses for the members. *)
Section json_induction.
Context (P : json -> Prop).
Hypothesis HNull : P JNull.
Hypothesis HBool : forall b, P (JBool b).
Hypothesis HNum : forall d, P (JNum d).
Hypothesis HStr : forall s, P (JStr s).
Hypothesis HArr : forall g l, Forall (fun x => P x.1) l -> P (JArr g l).
Hypothesis HObj : forall g l, Forall (fun kj => P kj.2.1) l -> P (JObj g l).

Fixpoint json_nested_ind (j : json) : P j :=
  match j with
  | JNull => HNull
  | JBool b => HBool b
  | JNum d => HNum d
  | JStr s => HStr s
  | JArr g l => HArr g l ((fix go l : Forall (fun x => P x.1) l :=
      match l with
      | [] => Forall_nil_2 _
      | x :: r => Forall_cons_2 (fun x => P x.1) x r (json_nested_ind x.1) (go r)
      end) l)
  | JObj g l => HObj g l ((fix go l : Forall (fun kj => P kj.2.1) l :=
      match l with
      | [] => Forall_nil_2 _
      | x :: r => Forall_cons_2 (fun kj => P kj.2.1) x r (json_nested_ind x.2.1) (go r)
      end) l)
  end.
End json_induction.

Definition quote (s : bytes) : bytes := 34 :: s ++ [34].
Definition padded (p : pad) (t : bytes) : bytes := before p ++ t ++ after p.

(** Texts joined by commas. *)
Fixpoint join (l : list bytes) : bytes :=
  match l with
  | [] => []
  | [x] => x
  | x :: r => x ++ 44 :: join r
  end.

(** What is between the brackets. *)
Definition inside (gap : bytes) (ts : list bytes) : bytes :=
  match ts with [] => gap | _ => join ts end.

Definition field_text (k : bytes * pad) (value : bytes) : bytes := padded k.2 (quote k.1) ++ 58 :: value.

Fixpoint print (j : json) : bytes :=
  match j with
  | JNull => null_text
  | JBool b => if b then true_text else false_text
  | JNum d => d
  | JStr s => quote s
  | JArr g l => 91 :: inside g (map (fun x => padded x.2 (print x.1)) l) ++ [93]
  | JObj g l => 123 :: inside g (map (fun kj => field_text kj.1 (padded kj.2.2 (print kj.2.1))) l) ++ [125]
  end.

Fixpoint depth (j : json) : Z :=
  match j with
  | JArr _ l => 1 + fold_right Z.max 0 (map (fun x => depth x.1) l)
  | JObj _ l => 1 + fold_right Z.max 0 (map (fun kj => depth kj.2.1) l)
  | _ => 0
  end.

(** White space; digits; the inside of a string, with the escapes of the RFC. *)
Definition ws (s : bytes) : Prop := Forall (fun c => is_ws c = true) s.
Definition blank (p : pad) : Prop := ws (before p) /\ ws (after p).
Definition digits (d : bytes) : Prop := d <> [] /\ Forall (fun c => 48 <= c <= 57) d.

Inductive string_body : bytes -> Prop :=
  | sb_nil : string_body []
  | sb_char c s : 0x20 <= c -> c <> 34 -> c <> 92 -> string_body s -> string_body (c :: s)
  | sb_escape c s : c ∈ [34; 92; 47; 98; 102; 110; 114; 116] -> string_body s -> string_body (92 :: c :: s)
  | sb_code h1 h2 h3 h4 s : forallb isxdigit [h1; h2; h3; h4] = true -> string_body s ->
      string_body (92 :: 117 :: h1 :: h2 :: h3 :: h4 :: s).

(** An optional minus sign, digits, an optional fraction, an optional exponent. *)
Definition sign (neg : bool) : bytes := if neg then [45] else [].

Inductive fraction : bytes -> Prop :=
  | fr_none : fraction []
  | fr_some d : digits d -> fraction (46 :: d).

Inductive exponential : bytes -> Prop :=
  | ex_none : exponential []
  | ex_some mark s d : mark = 101 \/ mark = 69 -> s = [] \/ s = [43] \/ s = [45] -> digits d -> exponential (mark :: s ++ d).

Inductive numeral : bytes -> Prop :=
  | nm neg d f x : digits d -> fraction f -> exponential x -> numeral (sign neg ++ d ++ f ++ x).

Section text.
Context (out_of_range : bytes -> bool).

Fixpoint printable (j : json) : Prop :=
  match j with
  | JNum d => numeral d /\ out_of_range d = false
  | JStr s => string_body s
  | JArr g l => ws g /\ (fix go l := match l with [] => True | x :: r => (printable x.1 /\ blank x.2) /\ go r end) l
  | JObj g l => ws g /\ (fix go l :=
      match l with
      | [] => True
      | x :: r => ((string_body x.1.1 /\ blank x.1.2) /\ printable x.2.1 /\ blank x.2.2) /\ go r
      end) l
  | _ => True
  end.

Definition item_ok (x : json * pad) : Prop := printable x.1 /\ blank x.2.
Definition field_ok (kj : (bytes * pad) * (json * pad)) : Prop := (string_body kj.1.1 /\ blank kj.1.2) /\ item_ok kj.2.

Lemma printable_arr g l : printable (JArr g l) <-> ws g /\ Forall item_ok l.
Proof.
  induction l as [|x l IH]; [split; intros [? _]; by split|]. rewrite Forall_cons. simpl in *. unfold item_ok in *. tauto.
Qed.

Lemma printable_obj g l : printable (JObj g l) <-> ws g /\ Forall field_ok l.
Proof.
  induction l as [|x l IH]; [split; intros [? _]; by split|]. rewrite Forall_cons. simpl in *. unfold field_ok, item_ok in *. tauto.
Qed.

(** ** White space *)

Lemma skip_ws_app s r : ws s -> skip_ws (s ++ r) = skip_ws r.
Proof. induction 1 as [|c s Hc _ IH]; [done|]. simpl. by rewrite Hc. Qed.

(** What may follow a value inside a text. *)
Definition follows (r : bytes) : Prop :=
  match r with c :: _ => token_end c = true | [] => True end.

Lemma ws_token c : is_ws c = true -> token_end c = true.
Proof.
  unfold is_ws. intros H. assert (c = 32 \/ c = 10 \/ c = 13 \/ c = 9) as [->|[->|[->| ->]]]; [|done..].
  repeat (apply orb_prop in H as [H|H]); apply Z.eqb_eq in H; auto.
Qed.

Lemma ws_follows s r : ws s -> follows r -> follows (s ++ r).
Proof. intros [|c s' Hc _] Hr; [done|]. by apply ws_token. Qed.

(** ** Strings *)

Lemma scan_body s : string_body s -> forall r acc, scan_chars (s ++ 34 :: r) false acc = Some (acc ++ s, r).
Proof.
  induction 1 as [|c s H1 H2 H3 _ IH|c s Hc _ IH|h1 h2 h3 h4 s Hh _ IH]; intros r acc; simpl; [by rewrite app_nil_r|..].
  - destruct (Z.ltb_spec c 32); [lia|]. destruct (Z.eqb_spec c 92); [done|]. destruct (Z.eqb_spec c 34); [done|].
    rewrite IH. by rewrite <- app_assoc.
  - assert (E : (c <? 32) = false /\ is_escape c = true /\ (c =? 117) = false) by (repeat (apply elem_of_cons in Hc as [->|Hc]; [done|]); by apply elem_of_nil in Hc).
    destruct E as (-> & -> & ->). cbn [negb]. rewrite IH. by rewrite <- !app_assoc.
  - simpl in Hh. rewrite andb_true_r, !andb_assoc in Hh. rewrite Hh. rewrite IH. by rewrite <- !app_assoc.
Qed.

Lemma scan_quote s r : string_body s -> scan_string (quote s ++ r) = Some (s, r).
Proof. intros Hs. unfold quote. simpl. rewrite <- app_assoc. simpl. by apply (scan_body s Hs r []). Qed.

(** ** Numbers *)

Lemma span_app (f : Z -> bool) a r : Forall (fun c => f c = true) a ->
  match r with c :: _ => f c = false | [] => True end -> span f (a ++ r) = (a, r).
Proof.
  induction 1 as [|c a Hc _ IH]; intros Hr; simpl.
  - destruct r as [|x r]; [done|]. simpl. by rewrite Hr.
  - by rewrite Hc, IH.
Qed.

Lemma token_end_cases c : token_end c = true ->
  c = 32 \/ c = 9 \/ c = 13 \/ c = 10 \/ c = 44 \/ c = 93 \/ c = 125 \/ c = 0.
Proof.
  unfold token_end. simpl.
  repeat match goal with |- context [c =? ?a] => destruct (Z.eqb_spec c a); [subst; tauto|] end. done.
Qed.

Lemma digit_token c : 48 <= c <= 57 -> token_end c = false /\ isdigit c = true /\ isspace c = false /\
  tolower c = c /\ is_ws c = false.
Proof.
  intros H. unfold token_end, isdigit, isspace, tolower, is_ws, between. simpl.
  repeat match goal with
  | |- context [c =? ?a] => destruct (Z.eqb_spec c a); [lia|]
  | |- context [?a <=? c] => destruct (Z.leb_spec a c); try lia
  | |- context [c <=? ?a] => destruct (Z.leb_spec c a); try lia
  end; done.
Qed.

(** What is behind digits and is not one: nothing, the end of the token, or a
    character of the number. *)
Definition ends_digits (r : bytes) : Prop :=
  match r with c :: _ => token_end c = true \/ c = 46 \/ c = 101 \/ c = 69 | [] => True end.

Lemma ends_cases c : token_end c = true \/ c = 46 \/ c = 101 \/ c = 69 -> isdigit c = false /\ (tolower c =? 120) = false.
Proof. intros [H|[->|[->| ->]]]; [|done..]. apply token_end_cases in H. by destruct H as [->|[->|[->|[->|[->|[->|[->| ->]]]]]]]. Qed.

Lemma span_digits d r : digits d -> ends_digits r -> span isdigit (d ++ r) = (d, r).
Proof.
  intros [_ Hd] Hr. apply span_app; [eapply Forall_impl; [exact Hd|]; intros x Hx; by apply digit_token|].
  destruct r as [|c r]; [done|]. by apply ends_cases.
Qed.

Lemma follows_ends r : follows r -> ends_digits r.
Proof. destruct r; [done|]. by left. Qed.

Lemma exponential_ends x r : exponential x -> follows r -> ends_digits (x ++ r).
Proof. intros [|m s d [->| ->] _ _]; [apply follows_ends|simpl; auto..]. Qed.

Lemma fraction_ends f x r : fraction f -> exponential x -> follows r -> ends_digits (f ++ x ++ r).
Proof. intros [|d _]; [apply exponential_ends|simpl; auto]. Qed.

Lemma mantissa_end d f r : digits d -> fraction f -> ends_digits (f ++ r) -> ends_digits r ->
  match r with 46 :: _ => False | _ => True end -> mantissa isdigit (d ++ f ++ r) = Some r.
Proof.
  intros Hd Hf He Hr Hn. unfold mantissa. rewrite span_digits by done. destruct Hd as [Hne _]. destruct Hf as [|e He'].
  - simpl. destruct d; [done|]. destruct r as [|c r]; [done|]. assert (c <> 46) by (by intros ->).
    repeat (case_match; try done).
  - cbn [app]. rewrite span_digits by done. by destruct d.
Qed.

Lemma exponent_end x r : exponential x -> follows r -> exponent 101 (x ++ r) = r.
Proof.
  intros [|m s d Hm Hs Hd] Hr.
  - destruct r as [|c r]; [done|]. apply token_end_cases in Hr. by destruct Hr as [->|[->|[->|[->|[->|[->|[->| ->]]]]]]].
  - assert (Et : (tolower m =? 101) = true) by (by destruct Hm as [->| ->]). cbn [app exponent]. rewrite Et.
    assert (Es : skip_sign ((s ++ d) ++ r) = d ++ r).
    { rewrite <- app_assoc. destruct Hs as [->|[->| ->]]; [|done..]. destruct Hd as [Hne Hd]. destruct d as [|c d]; [done|].
      inversion Hd as [|? ? Hc _]; subst. simpl. destruct (Z.eqb_spec c 43); [lia|]. by destruct (Z.eqb_spec c 45); [lia|]. }
    rewrite Es, span_digits by (done || by apply follows_ends). destruct Hd as [Hne _]. by destruct d.
Qed.

(** Digits start neither a word nor a hexadecimal number. *)
Lemma digits_words d r : digits d -> ends_digits r -> (forall x w, ~ 48 <= x <= 57 -> match_word (x :: w) (d ++ r) = None) /\
  match_word [48; 120] (d ++ r) = None.
Proof.
  intros [Hne Hd] Hr. destruct d as [|c d]; [done|]. inversion Hd as [|? ? Hc Hd']; subst. destruct (digit_token c Hc) as (_ & _ & _ & T & _). split.
  - intros x w Hx. simpl. rewrite T. destruct (Z.eqb_spec c x); [lia|done].
  - simpl. rewrite T. destruct (c =? 48); [|done]. destruct d as [|x d]; simpl.
    + destruct r as [|x r]; [done|]. by destruct (ends_cases x Hr) as [_ ->].
    + inversion Hd' as [|? ? Hx _]; subst. destruct (digit_token x Hx) as (_ & _ & _ & -> & _). by destruct (Z.eqb_spec x 120); [lia|].
Qed.

Lemma sign_skipped neg d r : digits d -> skip_sign (snd (span isspace (sign neg ++ d ++ r))) = d ++ r.
Proof.
  intros [Hne Hd]. destruct d as [|c d]; [done|]. inversion Hd as [|? ? Hc _]; subst. destruct (digit_token c Hc) as (_ & _ & T & _).
  destruct neg; [done|]. simpl. rewrite T. simpl. destruct (Z.eqb_spec c 43); [lia|]. by destruct (Z.eqb_spec c 45); [lia|].
Qed.

Lemma number_end d r : numeral d -> follows r -> strtod_end (d ++ r) = r.
Proof.
  intros [neg i f x Hi Hf Hx] Hr. unfold strtod_end. rewrite <- !app_assoc, sign_skipped by done.
  pose proof (fraction_ends f x r Hf Hx Hr) as He. pose proof (exponential_ends x r Hx Hr) as Hxe.
  destruct (digits_words i (f ++ x ++ r) Hi He) as [W ->]. rewrite !W by lia. rewrite mantissa_end; try done; [by apply exponent_end|].
  destruct Hx as [|m s e [->| ->] _ _]; [|done..]. destruct r as [|c r]; [done|]. apply token_end_cases in Hr.
  by destruct Hr as [->|[->|[->|[->|[->|[->|[->| ->]]]]]]].
Qed.

(** Nothing in a number ends a token. *)
Lemma numeral_token d : numeral d -> Forall (fun c => negb (token_end c) = true) d.
Proof.
  assert (D : forall d, digits d -> Forall (fun c => negb (token_end c) = true) d).
  { intros e [_ He]. eapply Forall_impl; [exact He|]. intros c Hc. by destruct (digit_token c Hc) as [-> _]. }
  intros [neg i f x Hi Hf Hx]. apply Forall_app_2; [destruct neg; by repeat constructor|]. apply Forall_app_2; [by apply D|]. apply Forall_app_2.
  - destruct Hf as [|e He]; constructor; [done|by apply D].
  - destruct Hx as [|m s e [->| ->] Hs He]; constructor; try done; (apply Forall_app_2; [|by apply D]); destruct Hs as [->|[->| ->]]; by repeat constructor.
Qed.

Lemma numeral_head d : numeral d -> exists c t, d = c :: t /\ (c = 45 \/ 48 <= c <= 57).
Proof.
  intros [[|] i f x [Hne Hi] _ _]; [by eexists 45, _; auto|]. destruct i as [|c i]; [done|]. inversion Hi as [|? ? Hc _]; subst. by eexists c, _; auto.
Qed.

(** ** Reading a text back *)

Lemma print_head j : printable j -> exists c t, print j = c :: t /\
  is_ws c = false /\ c <> 93 /\ c <> 125 /\ c <> 44.
Proof.
  intros Hj. destruct j as [|[]|d|s|g l|g l]; simpl; try (by do 2 eexists).
  destruct Hj as [Hn _]. destruct (numeral_head d Hn) as (c & t & -> & Hc). exists c, t. split; [done|].
  destruct Hc as [->|Hc]; [done|]. destruct (digit_token c Hc) as (_ & _ & _ & _ & ?). split_and!; try done; lia.
Qed.

Lemma skip_print j r : printable j -> skip_ws (print j ++ r) = print j ++ r.
Proof. intros Hj. destruct (print_head j Hj) as (c & t & -> & Hc & _). simpl. by rewrite Hc. Qed.

Lemma bare_text t r : t = true_text \/ t = false_text \/ t = null_text -> follows r ->
  scan_bare out_of_range (t ++ r) = Some r.
Proof.
  intros Ht Hr. unfold scan_bare. rewrite (span_app _ t r).
  - destruct t; [by destruct Ht as [?|[?|?]]|]. destruct Ht as [->|[->| ->]]; done.
  - by destruct Ht as [->|[->| ->]]; repeat constructor.
  - destruct r; [done|]. simpl in *. by rewrite Hr.
Qed.

Lemma bare_number d r : numeral d -> out_of_range d = false -> follows r ->
  scan_bare out_of_range (d ++ r) = Some r.
Proof.
  intros Hd Ho Hr. unfold scan_bare. rewrite (span_app _ d r); [|by apply numeral_token|destruct r; [done|]; simpl in *; by rewrite Hr].
  rewrite number_end by done. destruct (numeral_head d Hd) as (c & t & -> & _).
  rewrite Ho, (bool_decide_eq_true_2 (r = r)) by done. by destruct (_ || _).
Qed.

(** One member of an array or object, as its text [t]: white space, the text
    [core], white space. *)
Definition reads (object : bool) (d : Z) (t : bytes) : Prop := exists core blanks, ws blanks /\
  (forall r, skip_ws (t ++ r) = core ++ blanks ++ r) /\ (0 < length core <= length t)%nat /\
  (forall r, expect 93 (core ++ r) = None /\ expect 125 (core ++ r) = None) /\
  forall r, follows r -> exists p,
    (if object then '(_, r) ← scan_string (core ++ r); expect 58 (skip_ws r) else Some (core ++ r)) = Some p /\
    forall fuel, (2 * length core <= fuel)%nat -> scan_value out_of_range fuel p (d + 1) = Some r.

Lemma items_read object close d ts : (close = 93 \/ close = 125) -> Forall (reads object d) ts ->
  ts <> [] -> forall fuel r, (2 * length (join ts) + 1 <= fuel)%nat ->
  scan_items out_of_range fuel (skip_ws (join ts ++ close :: r)) object close d = Some r.
Proof.
  intros Hcl Hts. assert (Fc : forall r, follows (close :: r)) by (by destruct Hcl as [->| ->]).
  assert (Ec : forall r, expect close (close :: r) = Some r) by (intros; simpl; by rewrite Z.eqb_refl).
  assert (Wc : forall r, skip_ws (close :: r) = close :: r) by (by destruct Hcl as [->| ->]).
  induction Hts as [|t ts (core & blanks & Hb & S1 & Hl & _ & Hr) Hts IH]; intros Hne fuel r Hf; [done|].
  destruct fuel as [|fuel]; [lia|]. cbn [scan_items]. destruct ts as [|t2 ts].
  - cbn [join] in *. rewrite S1. destruct (Hr (blanks ++ close :: r) (ws_follows _ _ Hb (Fc r))) as (p & -> & Hp). cbn [mbind option_bind].
    rewrite Hp by lia. cbn [mbind option_bind]. by rewrite skip_ws_app, Wc, Ec.
  - set (tl := join (t2 :: ts)) in *.
    assert (Ej : join (t :: t2 :: ts) = t ++ 44 :: tl) by done. rewrite Ej in *.
    rewrite length_app in Hf. simpl in Hf.
    replace ((t ++ 44 :: tl) ++ close :: r) with (t ++ 44 :: (tl ++ close :: r)) by (by rewrite <- app_assoc).
    rewrite S1. destruct (Hr (blanks ++ 44 :: (tl ++ close :: r)) (ws_follows blanks (44 :: _) Hb ltac:(done))) as (p & -> & Hp). cbn [mbind option_bind].
    rewrite Hp by lia. cbn [mbind option_bind]. rewrite skip_ws_app by done.
    assert (E44 : expect close (skip_ws (44 :: tl ++ close :: r)) = None) by (by destruct Hcl as [->| ->]).
    rewrite E44. change (expect 44 (skip_ws (44 :: tl ++ close :: r))) with (Some (tl ++ close :: r)).
    cbn [mbind option_bind]. apply IH; [done|lia].
Qed.

(** The first member is not the end of the array or object. *)
Lemma join_head object d ts r : Forall (reads object d) ts -> ts <> [] ->
  expect 93 (skip_ws (join ts ++ r)) = None /\ expect 125 (skip_ws (join ts ++ r)) = None.
Proof.
  intros Hts Hne. destruct Hts as [|t ts (core & blanks & _ & S1 & _ & E & _) _]; [done|].
  destruct ts as [|t2 ts]; [cbn [join]; rewrite S1; apply E|].
  assert (Ej : join (t :: t2 :: ts) = t ++ 44 :: join (t2 :: ts)) by done.
  rewrite Ej, <- app_assoc, S1. apply E.
Qed.

Lemma scan_container object g ts d fuel r : ws g -> Forall (reads object d) ts -> 0 <= d <= 32 ->
  let '(o, c) := if object then (123, 125) else (91, 93) in
  (2 * length (o :: inside g ts ++ [c]) <= fuel)%nat ->
  scan_value out_of_range fuel (o :: inside g ts ++ c :: r) d = Some r.
Proof.
  intros Hg Hts Hd. destruct object; cbn; rewrite length_app; intros Hf; (destruct fuel as [|fuel]; [simpl in Hf; lia|]);
    cbn [scan_value]; (match goal with |- context [skip_ws (?o :: ?x)] => change (skip_ws (o :: x)) with (o :: x) end);
    unfold ADMIN_JSON_DEPTH_MAX; (destruct (Z.ltb_spec 32 d); [lia|]); cbn;
    (destruct ts as [|t ts]; [cbn [inside]; by rewrite skip_ws_app|]); cbn [inside] in *.
  - destruct (join_head true d (t :: ts) (125 :: r) Hts ltac:(done)) as [_ ->].
    apply items_read; [by right|done|done|simpl in *; lia].
  - destruct (join_head false d (t :: ts) (93 :: r) Hts ltac:(done)) as [-> _].
    apply items_read; [by left|done|done|simpl in *; lia].
Qed.

Lemma depth_member (ds : list Z) x : x ∈ ds -> x <= fold_right Z.max 0 ds.
Proof. induction 1; simpl; lia. Qed.

Lemma depth_nonneg (ds : list Z) : 0 <= fold_right Z.max 0 ds.
Proof. induction ds; simpl; lia. Qed.

(** A bare token at the start of a value. *)
Lemma scan_bare_value t r d fuel : 0 <= d <= 32 -> (0 < fuel)%nat ->
  match t with c :: _ => is_ws c = false /\ c <> 34 /\ c <> 123 /\ c <> 91 | [] => False end ->
  scan_bare out_of_range (t ++ r) = Some r -> scan_value out_of_range fuel (t ++ r) d = Some r.
Proof.
  intros Hd Hf Ht Hs. destruct fuel as [|fuel]; [lia|]. destruct t as [|c t]; [done|].
  destruct Ht as (Hw & H1 & H2 & H3). cbn [scan_value].
  assert (E : skip_ws ((c :: t) ++ r) = (c :: t) ++ r) by (simpl; by rewrite Hw). rewrite E.
  unfold ADMIN_JSON_DEPTH_MAX. destruct (Z.ltb_spec 32 d); [lia|]. rewrite <- Hs. simpl.
  destruct (Z.eqb_spec c 34); [done|]. destruct (Z.eqb_spec c 123); [done|].
  by destruct (Z.eqb_spec c 91).
Qed.

(** [scan_value] skips white space first. *)
Lemma scan_value_ws s p d fuel : ws s -> scan_value out_of_range fuel (s ++ p) d = scan_value out_of_range fuel p d.
Proof. intros Hs. destruct fuel as [|fuel]; [done|]. cbn [scan_value]. by rewrite skip_ws_app. Qed.

(** A value that is read at its place. *)
Definition readable_at (j : json) (d : Z) : Prop := forall fuel r, follows r -> (2 * length (print j) <= fuel)%nat ->
  scan_value out_of_range fuel (print j ++ r) (d + 1) = Some r.

Lemma reads_value x d : item_ok x -> readable_at x.1 d -> reads false d (padded x.2 (print x.1)).
Proof.
  intros [Hj [Hb Ha]] H. destruct x as [j p]. cbn [fst snd] in *. destruct (print_head j Hj) as (c & t & E & Hc & H93 & H125 & _).
  exists (print j), (after p). split; [done|]. split; [intros r; unfold padded; rewrite <- !app_assoc, skip_ws_app by done; by apply skip_print|].
  split; [unfold padded; rewrite !length_app, E; simpl; lia|]. split.
  - intros r. rewrite E. simpl. destruct (Z.eqb_spec c 93); [done|]. by destruct (Z.eqb_spec c 125).
  - intros r Hr. exists (print j ++ r). split; [done|]. intros fuel. by apply H.
Qed.

Lemma reads_field kj d : field_ok kj -> readable_at kj.2.1 d -> reads true d (field_text kj.1 (padded kj.2.2 (print kj.2.1))).
Proof.
  intros [[Hk [Kb Ka]] [Hj [Hb Ha]]] H. destruct kj as [[k kp] [j p]]. cbn [fst snd] in *.
  exists (quote k ++ after kp ++ 58 :: before p ++ print j), (after p). split; [done|]. unfold field_text, padded. cbn [fst snd]. split.
  { intros r. rewrite <- !app_assoc, skip_ws_app by done. cbn [app]. rewrite <- !app_assoc. done. }
  split; [unfold quote; repeat first [rewrite length_app | progress cbn [length]]; lia|]. split; [done|]. intros r Hr.
  exists (before p ++ print j ++ r). split.
  - rewrite <- app_assoc, scan_quote by done. cbn. rewrite <- app_assoc, skip_ws_app by done. cbn. by rewrite <- app_assoc.
  - intros fuel Hf. rewrite scan_value_ws by done. apply H; [done|].
    revert Hf. repeat first [rewrite length_app | progress cbn [length]]. lia.
Qed.

Lemma scan_print j : printable j -> forall d fuel r, 0 <= d -> d + depth j <= 32 -> follows r ->
  (2 * length (print j) <= fuel)%nat -> scan_value out_of_range fuel (print j ++ r) d = Some r.
Proof.
  induction j as [|b|n|s|g l IH|g l IH] using json_nested_ind; intros Hj d fuel r Hd Hdep Hr Hf.
  - apply scan_bare_value; simpl in *; [lia|lia|done|apply (bare_text null_text); auto].
  - apply scan_bare_value; destruct b; simpl in *; try lia; try done;
      [apply (bare_text true_text)|apply (bare_text false_text)]; auto.
  - destruct Hj as [Hn Ho]. destruct (numeral_head n Hn) as (c & t & E & Hc). cbn [depth print] in *.
    apply scan_bare_value; [lia|rewrite E in Hf; simpl in Hf; lia| |by apply bare_number].
    rewrite E. destruct Hc as [->|Hc]; [done|]. destruct (digit_token c Hc) as (_ & _ & _ & _ & ?). split_and!; [done|lia..].
  - destruct fuel as [|fuel]; [simpl in Hf; lia|]. cbn [scan_value print]. change (skip_ws (quote s ++ r)) with (quote s ++ r).
    unfold ADMIN_JSON_DEPTH_MAX. simpl in Hdep. destruct (Z.ltb_spec 32 d); [lia|].
    pose proof (scan_quote s r Hj) as E. unfold quote in *. simpl in *. by rewrite E.
  - rewrite printable_arr in Hj. destruct Hj as [Hg Hj]. cbn [depth] in Hdep.
    pose proof (depth_member (map (fun x => depth x.1) l)) as Hm. pose proof (depth_nonneg (map (fun x => depth x.1) l)).
    assert (Hts : Forall (reads false d) (map (fun x => padded x.2 (print x.1)) l)).
    { apply Forall_map, Forall_forall. intros x Hin. rewrite Forall_forall in IH, Hj.
      apply reads_value; [by apply Hj|]. intros f r' Hr' Hf'. apply IH; try done; [by apply Hj|lia|].
      specialize (Hm (depth x.1) ltac:(by apply (list_elem_of_fmap_2 (fun x => depth x.1)))). lia. }
    pose proof (scan_container false g _ d fuel r Hg Hts) as H'. cbn [print] in *.
    rewrite <- app_comm_cons, <- app_assoc. apply H'; [lia|done].
  - rewrite printable_obj in Hj. destruct Hj as [Hg Hj]. cbn [depth] in Hdep.
    pose proof (depth_member (map (fun kj => depth kj.2.1) l)) as Hm. pose proof (depth_nonneg (map (fun kj => depth kj.2.1) l)).
    assert (Hts : Forall (reads true d) (map (fun kj => field_text kj.1 (padded kj.2.2 (print kj.2.1))) l)).
    { apply Forall_map, Forall_forall. intros kj Hin. rewrite Forall_forall in IH, Hj.
      apply reads_field; [by apply Hj|]. intros f r' Hr' Hf'. apply IH; try done; [apply (Hj kj Hin)|lia|].
      specialize (Hm (depth kj.2.1) ltac:(by apply (list_elem_of_fmap_2 (fun kj => depth kj.2.1)))). lia. }
    pose proof (scan_container true g _ d fuel r Hg Hts) as H'. cbn [print] in *.
    rewrite <- app_comm_cons, <- app_assoc. apply H'; [lia|done].
Qed.

(** ** Fields *)

Lemma text_slice_app v r : text_slice (v ++ r) r = v.
Proof.
  unfold text_slice. rewrite length_app. replace (length v + length r - length r)%nat with (length v) by lia.
  apply take_app_length.
Qed.

Definition first_field (l : list ((bytes * pad) * (json * pad))) (f : bytes) : option json :=
  (fun kj => kj.2.1) <$> find (fun kj => bool_decide (kj.1.1 = f)) l.

Definition fields (l : list ((bytes * pad) * (json * pad))) : list bytes :=
  map (fun kj => field_text kj.1 (padded kj.2.2 (print kj.2.1))) l.

(** The text of a list of fields starts with that of the first one. *)
Lemma fields_cons kj l r : exists tl, join (fields (kj :: l)) ++ 125 :: r = field_text kj.1 (padded kj.2.2 (print kj.2.1)) ++ tl /\
  (l = [] /\ tl = 125 :: r \/ l <> [] /\ tl = 44 :: join (fields l) ++ 125 :: r).
Proof.
  destruct l as [|kj2 l]; [exists (125 :: r); split; [done|by left]|].
  exists (44 :: join (fields (kj2 :: l)) ++ 125 :: r). split; [|by right].
  change (join (fields (kj :: kj2 :: l))) with (field_text kj.1 (padded kj.2.2 (print kj.2.1)) ++ 44 :: join (fields (kj2 :: l))).
  by rewrite <- app_assoc.
Qed.

Lemma field_loop_print f l : Forall (fun kj => field_ok kj /\ 1 + depth kj.2.1 <= 32) l ->
  forall fuel r, (length l < fuel)%nat -> l <> [] ->
  field_loop out_of_range fuel (skip_ws (join (fields l) ++ 125 :: r)) f =
  match first_field l f with Some j => FieldAt (print j) | None => FieldAbsent end.
Proof.
  induction 1 as [|kj l [Hok Hd] Hl IH]; intros fuel r Hf Hne; [done|]. clear Hne. destruct fuel as [|fuel]; [lia|].
  destruct (fields_cons kj l r) as (tl & -> & Htl). assert (Ft : follows tl) by (by destruct Htl as [[_ ->]|[_ ->]]).
  destruct Hok as [[Hk [Kb Ka]] [Hj [Hb Ha]]]. unfold first_field. cbn [find]. destruct kj as [[k kp] [j p]]. cbn [fst snd] in *.
  unfold field_text, padded. cbn [fst snd]. rewrite <- !app_assoc, skip_ws_app by done. cbn [app]. rewrite <- !app_assoc.
  change (skip_ws (quote k ++ ?x)) with (quote k ++ x).
  set (rest := after kp ++ 58 :: before p ++ print j ++ after p ++ tl). cbn [field_loop]. change (quote k ++ rest) with (34 :: (k ++ [34]) ++ rest) at 1.
  cbn iota beta. change (34 :: (k ++ [34]) ++ rest) with (quote k ++ rest). rewrite scan_quote by done. unfold rest. cbn [mbind option_bind].
  rewrite skip_ws_app by done. cbn [skip_ws is_ws Z.eqb Pos.eqb orb expect mbind option_bind]. rewrite skip_ws_app, skip_print by done.
  rewrite scan_print; [|done|lia|done|by apply ws_follows|unfold scan_fuel; rewrite length_app; lia].
  destruct (bool_decide (k = f)); [cbn; by rewrite text_slice_app|]. rewrite skip_ws_app by done.
  destruct Htl as [[-> ->]|[Hn ->]]; [done|]. cbn [skip_ws is_ws Z.eqb Pos.eqb orb].
  rewrite IH; [done|simpl in Hf; lia|done].
Qed.

Lemma fields_length l : (length l <= length (join (fields l)))%nat.
Proof.
  induction l as [|kj l IH]; [done|]. destruct l as [|kj2 l]; cbn [fields map join] in *.
  - unfold field_text. rewrite length_app. simpl. lia.
  - unfold field_text at 1. rewrite !length_app. cbn [length] in *. lia.
Qed.

Lemma find_field_print g l f lead trail : ws lead -> printable (JObj g l) -> depth (JObj g l) <= 32 ->
  find_field out_of_range (lead ++ print (JObj g l) ++ trail) f =
  match first_field l f with Some j => FieldAt (print j) | None => FieldAbsent end.
Proof.
  intros Hw Hp Hd. rewrite printable_obj in Hp. destruct Hp as [Hg Hp]. cbn [depth] in Hd. unfold find_field. cbn [print].
  rewrite skip_ws_app by done. cbn [app skip_ws is_ws Z.eqb Pos.eqb orb expect]. fold (fields l). rewrite <- app_assoc. cbn [app].
  destruct (decide (l = [])) as [->|Hne].
  { cbn [fields map inside]. by rewrite skip_ws_app. }
  assert (Ei : inside g (fields l) = join (fields l)) by (by destruct l). rewrite Ei. apply field_loop_print; [| |done].
  - rewrite Forall_forall in *. intros kj Hin. split; [by apply Hp|].
    pose proof (depth_member (map (fun kj => depth kj.2.1) l) (depth kj.2.1)
      ltac:(by apply (list_elem_of_fmap_2 (fun kj => depth kj.2.1)))). lia.
  - rewrite length_app. cbn [length]. pose proof (fields_length l). lia.
Qed.

Lemma exact_quote s : string_body s -> exact_string (quote s) = if existsb (Z.eqb 92) s then None else Some s.
Proof.
  intros Hs. unfold exact_string. pose proof (scan_quote s [] Hs) as E. rewrite app_nil_r in E. rewrite E.
  cbn. by destruct (existsb _ s).
Qed.

Lemma decimal_digits neg d : digits d -> decimal (sign neg ++ d) = (neg, d, []).
Proof.
  intros Hd. unfold decimal. pose proof (sign_skipped neg d [] Hd) as E. rewrite app_nil_r in E. rewrite E.
  pose proof (span_digits d [] Hd I) as Es. rewrite app_nil_r in Es. rewrite Es. destruct Hd as [Hne Hd]. destruct d as [|c d]; [done|].
  f_equal. f_equal. inversion Hd as [|? ? Hc _]; subst. destruct neg; [done|]. destruct (digit_token c Hc) as (_ & _ & T & _). cbn. rewrite T. cbn.
  assert (c <> 45) by lia. repeat (case_match; try done).
Qed.
End text.
End JsonPrint.

(** * Theorems about the management API's JSON and Base64 *)

Import Json Base64 JsonPrint.

Module JsonTheorems.

(** ** The fuel of the scanner *)

Lemma skip_ws_len p : (length (skip_ws p) <= length p)%nat.
Proof. induction p as [|c p IH]; simpl; [lia|]. destruct (is_ws c); simpl; lia. Qed.

Lemma scan_chars_len p : forall escaped acc s r, scan_chars p escaped acc = Some (s, r) ->
  (length r < length p)%nat.
Proof.
  remember (length p) as n eqn:E. assert (H : (length p <= n)%nat) by lia. clear E. revert p H.
  induction n as [|n IH]; intros [|c p] H escaped acc s r; cbn [scan_chars]; try done; [simpl in H; lia|].
  simpl in H. destruct (c <? 32); [done|]. destruct escaped.
  - destruct (negb _); [done|]. destruct (c =? 117).
    + destruct p as [|h1 [|h2 [|h3 [|h4 p]]]]; try done. destruct (_ && _); [|done].
      intros E%IH; simpl in *; lia.
    + intros E%IH; lia.
  - destruct (c =? 92); [intros E%IH; lia|]. destruct (c =? 34); [intros [= _ <-]; lia|].
    intros E%IH; lia.
Qed.

Lemma scan_string_len p s r : scan_string p = Some (s, r) -> (length r < length p)%nat.
Proof.
  unfold scan_string. destruct p as [|c p]; [done|]. intros E.
  assert (H : scan_chars p false [] = Some (s, r)) by (repeat (case_match; try done)).
  apply scan_chars_len in H. simpl. lia.
Qed.

Lemma expect_len c p r : expect c p = Some r -> length p = S (length r).
Proof. destruct p as [|x p]; simpl; [done|]. destruct (x =? c); [|done]. by intros [= ->]. Qed.

Lemma span_len f p : (length (snd (span f p)) <= length p)%nat.
Proof. induction p as [|c p IH]; simpl; [lia|]. destruct (f c); [|simpl; lia]. destruct (span f p). simpl in *. lia. Qed.

Section fuel.
Context (oor : bytes -> bool).

Lemma scan_bare_len p r : scan_bare oor p = Some r -> (length r <= length p)%nat.
Proof.
  unfold scan_bare. pose proof (span_len (fun c => negb (token_end c)) p) as H.
  destruct (span _ p) as [t q]. simpl in H. repeat (case_match; try done); by intros [= <-].
Qed.

Lemma scan_len fuel : 
  (forall p d r, scan_value oor fuel p d = Some r -> (length r <= length p)%nat) /\
  (forall p object close d r, scan_items oor fuel p object close d = Some r -> (length r <= length p)%nat).
Proof.
  induction fuel as [|fuel [IHv IHi]]; [done|]. split.
  - intros p d r. cbn [scan_value]. pose proof (skip_ws_len p) as L. destruct (_ <? d); [done|].
    destruct (skip_ws p) as [|c q] eqn:Ep; [done|]. destruct (c =? 34).
    { destruct (scan_string (c :: q)) as [[s q']|] eqn:Es; [|done]. intros [= <-].
      apply scan_string_len in Es. lia. }
    destruct (_ || _); [|intros E%scan_bare_len; lia]. simpl in L. pose proof (skip_ws_len q) as L2.
    destruct (expect _ (skip_ws q)) as [q'|] eqn:Ee.
    + intros [= <-]. apply expect_len in Ee. lia.
    + intros E%IHi. lia.
  - intros p object close d r. cbn [scan_items].
    assert (H : forall q, (if object then '(_, r) ← scan_string p; expect 58 (skip_ws r) else Some p) = Some q ->
      (length q <= length p)%nat).
    { destruct object; [|by intros q [= <-]]. intros q. destruct (scan_string p) as [[s q']|] eqn:Es; [|done].
      cbn. intros E%expect_len. apply scan_string_len in Es. pose proof (skip_ws_len q'). lia. }
    destruct (if object then _ else _) as [q|]; [|done]. specialize (H q eq_refl). cbn [mbind option_bind].
    destruct (scan_value oor fuel q (d + 1)) as [q1|] eqn:E1; [|done]. apply IHv in E1. cbn [mbind option_bind].
    pose proof (skip_ws_len q1). destruct (expect close (skip_ws q1)) as [q2|] eqn:Ee.
    + intros [= <-]. apply expect_len in Ee. lia.
    + destruct (expect 44 (skip_ws q1)) as [q2|] eqn:E2; [|done]. apply expect_len in E2.
      cbn [mbind option_bind]. intros E%IHi. pose proof (skip_ws_len q2). lia.
Qed.

(** More fuel than [scan_fuel] does not change a result. *)
Lemma scan_fuel_enough n : forall p, (length p <= n)%nat ->
  (forall f f' d, (2 * length p < f)%nat -> (2 * length p < f')%nat ->
     scan_value oor f p d = scan_value oor f' p d) /\
  (forall f f' object close d, (2 * length p + 1 < f)%nat -> (2 * length p + 1 < f')%nat ->
     scan_items oor f p object close d = scan_items oor f' p object close d).
Proof.
  induction n as [n IH] using lt_wf_ind. intros p Hp.
  assert (V : forall f f' d, (2 * length p < f)%nat -> (2 * length p < f')%nat ->
    scan_value oor f p d = scan_value oor f' p d).
  { intros [|f] [|f'] d Hf Hf'; [lia..|]. cbn [scan_value]. pose proof (skip_ws_len p).
    destruct (_ <? d); [done|]. destruct (skip_ws p) as [|c q]; [done|]. simpl in *.
    destruct (c =? 34); [done|]. destruct (_ || _); [|done]. pose proof (skip_ws_len q).
    destruct (expect _ (skip_ws q)); [done|]. apply (IH (length (skip_ws q))); lia. }
  split; [exact V|]. intros [|f] [|f'] object close d Hf Hf'; [lia..|]. cbn [scan_items].
  assert (H : forall q, (if object then '(_, r) ← scan_string p; expect 58 (skip_ws r) else Some p) = Some q ->
    scan_value oor f q (d + 1) = scan_value oor f' q (d + 1) /\ (length q <= length p)%nat).
  { destruct object; [|by intros q [= <-]; split; [apply V; lia|]]. intros q.
    destruct (scan_string p) as [[s q']|] eqn:Es; [|done]. cbn. intros E%expect_len.
    apply scan_string_len in Es. pose proof (skip_ws_len q'). split; [|lia].
    apply (IH (length q)); lia. }
  destruct (if object then _ else _) as [q|]; [|done]. cbn [mbind option_bind].
  destruct (H q eq_refl) as [-> Hq]. destruct (scan_value oor f' q (d + 1)) as [q1|] eqn:E1; [|done].
  apply scan_len in E1. cbn [mbind option_bind]. pose proof (skip_ws_len q1).
  destruct (expect close (skip_ws q1)); [done|]. destruct (expect 44 (skip_ws q1)) as [q2|] eqn:E2; [|done].
  apply expect_len in E2. cbn [mbind option_bind]. pose proof (skip_ws_len q2).
  apply (IH (length (skip_ws q2))); lia.
Qed.
End fuel.

(** ** Texts *)

(** C30. The management API reads JSON.  The validation accepts every text of
    an object in the grammar of RFC 8259 that is UTF-8 and nests at most 32
    deep: with white space wherever the grammar has it, escapes in strings, and
    signs, fractions and exponents in numbers that [strtod] can represent.  The
    accessors find the first field whose name is written as asked for: an
    absent field is reported as absent; a string is returned byte for byte, and
    refused when it has escapes; a natural number of at most 64 bits and an
    integer of at most 64 bits with its sign are returned by value, and a
    negative one is refused where a natural number is asked for; a Boolean is
    returned; null, arrays and objects are refused as strings. *)
Theorem json_texts_read_back oor g l f lead trail : let text := lead ++ print (JObj g l) ++ trail in
  ws lead -> ws trail -> printable oor (JObj g l) -> depth (JObj g l) <= 32 -> valid_utf8 text = true ->
  admin_json_validate oor text = 0 /\
  match first_field l f with
  | None => admin_json_string oor text f = Some None
  | Some (JStr s) => admin_json_string oor text f = if existsb (Z.eqb 92) s then None else Some (Some s)
  | Some (JNum d) => forall neg ds, d = sign neg ++ ds -> digits ds -> zlen d < 32 ->
      (digits_value ds <= ULLONG_MAX -> admin_json_u64 oor text f = if neg then None else Some (Some (digits_value ds))) /\
      (let n := if neg then - digits_value ds else digits_value ds in
       - LLONG_MAX - 1 <= n <= LLONG_MAX -> admin_json_i64 oor text f = Some (Some n))
  | Some (JBool b) => admin_json_bool oor text f = Some (Some b)
  | Some _ => admin_json_string oor text f = None
  end.
Proof.
  intros text Hlead Htrail Hp Hd Hu. split.
  - unfold admin_json_validate. destruct text as [|c t] eqn:E; [by destruct lead|]. rewrite <- E in *.
    rewrite Hu. cbn [negb]. unfold text. rewrite scan_value_ws by done.
    rewrite scan_print; [|done|done|done| |unfold scan_fuel; rewrite !length_app; lia].
    + rewrite <- (app_nil_r trail), skip_ws_app by done. done.
    + rewrite <- (app_nil_r trail). by apply ws_follows.
  - unfold admin_json_string, admin_json_u64, admin_json_i64, admin_json_bool. unfold text. rewrite find_field_print by done.
    destruct (first_field l f) as [j|] eqn:Ef; [|done].
    assert (Hj : printable oor j).
    { unfold first_field in Ef. apply fmap_Some in Ef as (kj & Ef & ->).
      apply find_some in Ef as [Hin _]. rewrite printable_obj, Forall_forall in Hp. destruct Hp as [_ Hp].
      by apply (Hp kj), list_elem_of_In. }
    destruct j as [|b|d|s|g' l'|g' l']; try done; cbn [print rc_of].
    + by destruct b.
    + intros neg ds -> Hds Hl. destruct (Z.leb_spec 32 (zlen (sign neg ++ ds))); [lia|]. split.
      * intros Hv. unfold strtoull. rewrite decimal_digits by done. destruct (Z.ltb_spec ULLONG_MAX (digits_value ds)); [lia|].
        destruct neg; [done|]. destruct Hds as [Hne Hds]. destruct ds as [|c ds]; [done|].
        inversion Hds as [|? ? Hc _]; subst. assert (c <> 45) by lia. cbn. repeat (case_match; try done).
      * set (n := if neg then _ else _). intros Hn. unfold strtoll. rewrite decimal_digits by done. fold n. destruct (Z.ltb_spec LLONG_MAX n); [lia|].
        by destruct (Z.ltb_spec n (- LLONG_MAX - 1)); [lia|].
    + rewrite exact_quote by done. by destruct (existsb _ s).
Qed.

(** [ {"k" : -42, "s":"hi" ,"a":[null, true],"x":1.5e-3} ] and a newline. *)
Definition sample_fields : list ((bytes * pad) * (json * pad)) :=
  [(([107], Pad [] [32]), (JNum [45; 52; 50], Pad [32] [])); (([115], Pad [32] []), (JStr [104; 105], Pad [] [32]));
   (([97], Pad [] []), (JArr [] [(JNull, Pad [] []); (JBool true, Pad [32] [])], Pad [] []));
   (([120], Pad [] []), (JNum [49; 46; 53; 101; 45; 51], Pad [] []))].

Definition sample_text : bytes := [32] ++ print (JObj [] sample_fields) ++ [10].

Lemma sample_printable : printable (fun _ => false) (JObj [] sample_fields).
Proof.
  assert (S : forall s, forallb (fun c => (32 <=? c) && negb (c =? 34) && negb (c =? 92)) s = true -> string_body s).
  { induction s as [|c s IH]; [constructor|]. cbn. intros [[[H1%Z.leb_le H2%negb_true_iff%Z.eqb_neq]%andb_prop H3%negb_true_iff%Z.eqb_neq]%andb_prop H]%andb_prop.
    constructor; auto. }
  assert (D : forall d, bool_decide (d <> []) && forallb isdigit d = true -> digits d).
  { intros d [H1%bool_decide_eq_true H2]%andb_prop. split; [done|]. apply Forall_forall. intros c Hc%list_elem_of_In. rewrite forallb_forall in H2.
    specialize (H2 c Hc). unfold isdigit, between in H2. lia. }
  cbn. unfold blank, ws. repeat split; try done; try (by apply S); try (by repeat constructor).
  - apply (nm true [52; 50] [] []); [by apply D|constructor..].
  - apply (nm false [49] [46; 53] [101; 45; 51]); [by apply D|constructor; by apply D|]. apply (ex_some 101 [45] [51]); [by left|by right; right|by apply D].
Qed.

Lemma json_texts_read_back_witness :
  admin_json_validate (fun _ => false) sample_text = 0 /\ admin_json_i64 (fun _ => false) sample_text [107] = Some (Some (-42)).
Proof.
  assert (W : forall s, forallb is_ws s = true -> ws s).
  { intros s H. apply Forall_forall. intros c Hc%list_elem_of_In. rewrite forallb_forall in H. auto. }
  destruct (json_texts_read_back (fun _ => false) [] sample_fields [107] [32] [10] (W [32] eq_refl) (W [10] eq_refl) sample_printable
    ltac:(vm_compute; congruence) ltac:(vm_compute; reflexivity)) as [H1 H2].
  split; [exact H1|]. apply (H2 true [52; 50]); [done| |done|vm_compute; split; congruence]. split; [done|]. repeat (constructor; [lia|]). constructor.
Defined.

(** C31. The validation of raw bytes accepts exactly the UTF-8 encodings of
    sequences of Unicode scalar values: no overlong forms, no surrogates,
    nothing above U+10FFFF, nothing cut short. *)
Theorem utf8_exact p : bytes_ok p ->
  valid_utf8 p = true <-> exists cps, Forall scalar cps /\ p = concat (utf8 <$> cps).
Proof.
  intros Hb. split; [intros Hv; by apply (utf8_complete (length p))|].
  intros (cps & Hs & ->). by apply utf8_sound.
Qed.

Lemma utf8_exact_witness : valid_utf8 [0xe2; 0x82; 0xac; 0x24] = true /\
  exists cps, Forall scalar cps /\ [0xe2; 0x82; 0xac; 0x24] = concat (utf8 <$> cps).
Proof.
  split; [by vm_compute|]. apply utf8_exact; [bytes_tac|by vm_compute].
Defined.

(** ** Base64 *)

Lemma b64_loop_cap urlsafe cap data : forall st st', zlen (b_out st) <= cap ->
  b64_loop data urlsafe cap st = Some st' -> zlen (b_out st') <= cap.
Proof.
  induction data as [|c r IH]; intros st st' Hc; cbn [b64_loop]; [by intros [= <-]|].
  destruct (c =? 61); [destruct (_ || _); [done|]; by apply IH|].
  destruct (negb _); [done|]. destruct (_ <? 0); [done|]. unfold b64_flush. cbn [b_bits b_out].
  destruct (8 <=? _); [|by apply IH]. destruct (Z.leb_spec cap (zlen (b_out st))); [done|]. cbn.
  apply IH. cbn [b_out]. rewrite zlen_app. change (zlen [_]) with 1. lia.
Qed.

(** Decoding inverts both encodings of RFC 4648, padded and URL-safe
    without padding, for every sequence of bytes that fits the output; and
    whatever the input, it never writes more than the output holds. *)
Theorem base64_roundtrip p urlsafe cap : bytes_ok p -> zlen p <= cap ->
  admin_base64_decode (b64_encode p urlsafe) urlsafe cap = Some p /\
  forall data out, admin_base64_decode data urlsafe cap = Some out -> zlen out <= cap.
Proof.
  intros Hb Hc. split; [by apply b64_decode_encode|]. intros data out. unfold admin_base64_decode.
  destruct (_ && _); [done|]. destruct (b64_loop data urlsafe cap _) as [st|] eqn:E; [|done]. cbn.
  apply b64_loop_cap in E; [|cbn; pose proof (zlen_nonneg p); unfold zlen at 1; simpl; lia].
  destruct (_ || _); [done|]. by intros [= <-].
Qed.

Lemma base64_roundtrip_witness :
  b64_encode [102; 111; 111; 98] false = [90; 109; 57; 118; 89; 103; 61; 61] /\
  admin_base64_decode [90; 109; 57; 118; 89; 103; 61; 61] false 4 = Some [102; 111; 111; 98].
Proof.
  split; [by vm_compute|]. refine (proj1 (base64_roundtrip [102; 111; 111; 98] false 4 _ _));
    [bytes_tac|by vm_compute].
Defined.

(** Two ways in which the helpers take more than they document.  Base64
    that is not canonical is accepted: "QR==" decodes like "QQ==".  And a
    number behind a vertical tab, which [strtod] skips, passes the validation
    and the sign test: {"n":<VT>-5} is read as the unsigned 2^64 - 5. *)
Theorem admin_json_too_liberal :
  admin_base64_decode [81; 82; 61; 61] false 8 = admin_base64_decode [81; 81; 61; 61] false 8 /\
  admin_base64_decode [81; 81; 61; 61] false 8 = Some [65] /\
  let text := [123; 34; 110; 34; 58; 11; 45; 53; 125] in
  admin_json_validate (fun _ => false) text = 0 /\
  admin_json_u64 (fun _ => false) text [110] = Some (Some (2 ^ 64 - 5)).
Proof. vm_compute. done. Qed.

End JsonTheorems.
