(* ===== verification/Lifecycle.v ===== *)
(** * Managed lifecycle (managed_lifecycle.c)

    When a managed server may stop: the lease counter, the idle deadline and
    the one-way step to stopping.  Each function runs under the mutex and is
    one step; readings of the monotonic clock are arguments, and the state
    was allocated. *)

From stdpp Require Import base numbers option list.
From S2P Require Import Prelude.

Module Lifecycle.

Inductive mode := MANAGED_STANDALONE | MANAGED_IDLE.

Definition is_idle (m : mode) : bool := match m with MANAGED_IDLE => true | _ => false end.

Record lifecycle := State {
  l_mode : mode;
  l_idle_ms : Z;
  l_orphan_ms : Z;
  l_started_ms : Z;
  l_deadline_ms : Z;
  l_connections : Z;
  l_seen_connection : bool;
  l_stopping : bool }.

Definition managed_lifecycle_init (m : mode) (idle orphan now : Z) : lifecycle :=
  {| l_mode := m; l_idle_ms := idle; l_orphan_ms := orphan; l_started_ms := now;
     l_deadline_ms := if is_idle m then u64 (now + orphan) else 0;
     l_connections := 0; l_seen_connection := false; l_stopping := false |}.

Definition managed_lifecycle_connection_open (s : lifecycle) : bool * lifecycle :=
  if l_stopping s then (false, s)
  else (true, {| s with l_connections := u32 (l_connections s + 1); l_seen_connection := true;
                        l_deadline_ms := 0 |}).

Definition managed_lifecycle_connection_close (s : lifecycle) (now : Z) : lifecycle :=
  let s := if l_connections s =? 0 then s else {| s with l_connections := l_connections s - 1 |} in
  if is_idle (l_mode s) && (l_connections s =? 0) && negb (l_stopping s)
  then {| s with l_deadline_ms := u64 (now + l_idle_ms s) |} else s.

Definition managed_lifecycle_should_stop (s : lifecycle) (now : Z) : bool * lifecycle :=
  if is_idle (l_mode s) && negb (l_stopping s) && (l_connections s =? 0) &&
     negb (l_deadline_ms s =? 0) && (l_deadline_ms s <=? now)
  then (true, {| s with l_stopping := true |}) else (false, s).

Definition managed_lifecycle_connections (s : lifecycle) : Z := l_connections s.

Definition managed_lifecycle_deadline_remaining_ms (s : lifecycle) (now : Z) : Z :=
  if now <? l_deadline_ms s then l_deadline_ms s - now else 0.

Definition managed_lifecycle_is_stopping (s : lifecycle) : bool := l_stopping s.

(** ** Runs *)

Inductive event := Open | Close (now : Z) | Poll (now : Z).

(** A run with the number of leases that are admitted and not closed; a lease
    is closed only while one is held. *)
Inductive runs : lifecycle -> Z -> list (event * bool) -> lifecycle -> Z -> Prop :=
  | RNil s n : runs s n [] s n
  | ROpen s n s' b l s'' n'' :
      managed_lifecycle_connection_open s = (b, s') -> n + 1 < 2 ^ 32 ->
      runs s' (if b then n + 1 else n) l s'' n'' -> runs s n ((Open, b) :: l) s'' n''
  | RClose s n now l s'' n'' :
      0 < n -> runs (managed_lifecycle_connection_close s now) (n - 1) l s'' n'' ->
      runs s n ((Close now, false) :: l) s'' n''
  | RPoll s n now s' b l s'' n'' :
      managed_lifecycle_should_stop s now = (b, s') -> runs s' n l s'' n'' ->
      runs s n ((Poll now, b) :: l) s'' n''.

Definition is_stop (x : event * bool) : bool := match x with (Poll _, true) => true | _ => false end.
Definition is_admit (x : event * bool) : bool := match x with (Open, true) => true | _ => false end.

Lemma open_spec s b s' : managed_lifecycle_connection_open s = (b, s') ->
  b = negb (l_stopping s) /\ l_stopping s' = l_stopping s /\ l_mode s' = l_mode s /\
  l_connections s' = if b then u32 (l_connections s + 1) else l_connections s.
Proof. unfold managed_lifecycle_connection_open. destruct (l_stopping s) eqn:E; by intros [= <- <-]. Qed.

Lemma close_spec s now : let s' := managed_lifecycle_connection_close s now in
  l_stopping s' = l_stopping s /\ l_mode s' = l_mode s /\
  l_connections s' = if l_connections s =? 0 then 0 else l_connections s - 1.
Proof.
  unfold managed_lifecycle_connection_close. destruct (Z.eqb_spec (l_connections s) 0); simpl.
  - destruct (_ && _); simpl; auto.
  - destruct (_ && _); simpl; auto.
Qed.

Lemma poll_spec s now b s' : managed_lifecycle_should_stop s now = (b, s') ->
  l_connections s' = l_connections s /\ l_mode s' = l_mode s /\
  l_stopping s' = (b || l_stopping s) /\ (b = true -> l_connections s = 0 /\ l_stopping s = false).
Proof.
  unfold managed_lifecycle_should_stop. destruct (_ && _) eqn:E; intros [= <- <-]; [|done].
  simpl. rewrite !andb_true_iff in E. destruct E as ((((_ & E1) & E2) & _) & _).
  apply negb_true_iff in E1. apply Z.eqb_eq in E2. done.
Qed.

(** Once stopping, nothing is admitted and no second stop is reported. *)
Lemma stopping_quiet s n l s'' n'' : runs s n l s'' n'' -> l_stopping s = true ->
  Forall (fun x => is_stop x = false /\ is_admit x = false) l.
Proof.
  induction 1 as [s n|s n s' b l s'' n'' E _ _ IH|s n now l s'' n'' _ _ IH|s n now s' b l s'' n'' E _ IH];
    intros Hs; [constructor|constructor..].
  - apply open_spec in E as (-> & _). by rewrite Hs.
  - apply IH. apply open_spec in E as (_ & -> & _). done.
  - done.
  - apply IH. by rewrite (proj1 (close_spec s now)).
  - apply poll_spec in E as (_ & _ & _ & E). destruct b; [|done]. destruct E as [_ ?]; [done|congruence].
  - apply IH. apply poll_spec in E as (_ & _ & -> & _). rewrite Hs. apply orb_true_r.
Qed.

Lemma run_sound s n l s'' n'' : runs s n l s'' n'' -> l_connections s = n -> 0 <= n ->
  l_connections s'' = n'' /\ 0 <= n'' /\
  forall l1 x l2, l = l1 ++ x :: l2 -> is_stop x = true ->
    Forall (fun y => is_stop y = false) l1 /\
    Forall (fun y => is_stop y = false /\ is_admit y = false) l2 /\
    exists s1, runs s n l1 s1 0.
Proof.
  induction 1 as [s n|s n s' b l s'' n'' E Hn R IH|s n now l s'' n'' Hn R IH|s n now s' b l s'' n'' E R IH];
    intros Hc H0.
  { split; [done|]. split; [done|]. intros [|? ?] x l2 E; done. }
  - apply open_spec in E as E'. destruct E' as (_ & _ & _ & Ec).
    destruct IH as (I1 & I2 & I3).
    { rewrite Ec. destruct b; [|done]. rewrite Hc. apply u32_small. unfold fits. lia. }
    { destruct b; lia. }
    split; [done|]. split; [done|]. intros [|y l1] x l2 El Hx; simplify_eq/=.
    destruct (I3 l1 x l2 eq_refl Hx) as (J1 & J2 & s1 & J3).
    split; [by constructor|]. split; [done|]. exists s1. by eapply ROpen.
  - destruct (close_spec s now) as (_ & _ & Ec). destruct IH as (I1 & I2 & I3).
    { rewrite Ec, Hc. destruct (Z.eqb_spec n 0); lia. }
    { lia. }
    split; [done|]. split; [done|]. intros [|y l1] x l2 El Hx; simplify_eq/=.
    destruct (I3 l1 x l2 eq_refl Hx) as (J1 & J2 & s1 & J3).
    split; [by constructor|]. split; [done|]. exists s1. by apply RClose.
  - apply poll_spec in E as E'. destruct E' as (Ec & _ & Es & Eb).
    destruct IH as (I1 & I2 & I3); [by rewrite Ec|done|].
    split; [done|]. split; [done|]. intros [|y l1] x l2 El Hx; simplify_eq/=.
    + destruct b; [|done]. destruct (Eb eq_refl) as [Z0 _]. split; [constructor|]. split.
      * eapply stopping_quiet; [exact R|]. by rewrite Es.
      * rewrite <- Z0. exists s. constructor.
    + destruct (I3 l1 x l2 eq_refl Hx) as (J1 & J2 & s1 & J3).
      split; [|split; [done|exists s1; by eapply RPoll]]. constructor; [|done]. destruct b; [|done].
      exfalso. assert (Hq : l_stopping s' = true) by (by rewrite Es).
      pose proof (stopping_quiet _ _ _ _ _ R Hq) as F. rewrite Forall_app, Forall_cons in F.
      destruct F as (_ & [F _] & _). congruence.
Qed.

(** From the start of a managed server, whatever sequence of lease
    openings, closings and polls happens: a stop is reported at most once, only
    at a moment when no admitted lease is open, and after it no lease is
    admitted.  The connection counter is the number of open leases. *)
Theorem stop_only_when_idle m idle orphan now l s n :
  runs (managed_lifecycle_init m idle orphan now) 0 l s n ->
  managed_lifecycle_connections s = n /\
  forall l1 x l2, l = l1 ++ x :: l2 -> is_stop x = true ->
    Forall (fun y => is_stop y = false) l1 /\
    Forall (fun y => is_stop y = false /\ is_admit y = false) l2 /\
    exists s1, runs (managed_lifecycle_init m idle orphan now) 0 l1 s1 0.
Proof. intros R. destruct (run_sound _ _ _ _ _ R) as (H1 & _ & H2); done. Qed.

Lemma stop_only_when_idle_witness : exists s,
  runs (managed_lifecycle_init MANAGED_IDLE 100 500 10) 0
    [(Open, true); (Poll 9999, false); (Close 40, false); (Poll 140, true); (Open, false)] s 0 /\
  managed_lifecycle_connections s = 0.
Proof.
  eexists. refine ((fun R => conj R (proj1 (stop_only_when_idle MANAGED_IDLE 100 500 10 _ _ 0 R))) _).
  eapply ROpen; [reflexivity|lia|]. eapply RPoll; [reflexivity|]. apply RClose; [lia|].
  eapply RPoll; [reflexivity|]. eapply ROpen; [reflexivity|lia|]. apply RNil.
Defined.

End Lifecycle.
