(* ===== verification/Cache.v ===== *)
(** * The cache (kuttidb.c, kuttidb_int.h)

    The in-process key-value store: a hash table of shards, each with a chain
    per bucket, a slab allocator for small entries, expiry, a memory budget
    with random eviction, and scans.  A shard's operations run under its lock
    and are one step each; [kuttidb_get] on an expired key takes the lock twice
    and is two steps.  The branches for a cache in shared memory belong to
    embed_kuttidb.c and are not part of this file.

    The outcomes of [malloc] are an input: [g_allocs] lists them, and every
    further allocation succeeds.  Readings of the clock are arguments. *)

From stdpp Require Import base numbers option list.
From S2P Require Import Prelude.

Module Cache.

Definition SIZE_MAX : Z := 2 ^ 64 - 1.
Definition UINT32_MAX : Z := 2 ^ 32 - 1.

(** ** Hashing *)

Definition rotl13 (h : Z) : Z := Z.lor (u32 (Z.shiftl h 13)) (Z.shiftr h 19).

(** One round on the word or byte [k]. *)
Definition hash_round (h k : Z) : Z := rotl13 (u32 (u32 (h + k) * 0xc2b2ae35)).

Definition hash_bytes (h : Z) (data : bytes) : Z := fold_left hash_round data h.

(** The loop over words; [memcpy] into a word is little-endian. *)
Fixpoint hash_words (h : Z) (data : bytes) : Z :=
  match data with
  | a :: b :: c :: d :: r => hash_words (hash_round h (get32 [a; b; c; d])) r
  | _ => hash_bytes h data
  end.

Definition hash_finish (h : Z) : Z :=
  let h := Z.lxor h (Z.shiftr h 16) in
  let h := u32 (h * 0x85ebca6b) in
  let h := Z.lxor h (Z.shiftr h 13) in
  let h := u32 (h * 0xc2b2ae35) in
  Z.lxor h (Z.shiftr h 16).

Definition hash_key (data : bytes) : Z := hash_finish (hash_words (u32 (zlen data)) data).

(** ** The growing vector *)

Record kutti_vec := KuttiVec { v_data : bytes; v_cap : Z }.

(** The loop [while (ncap < need)]. *)
Fixpoint grow_cap (fuel : nat) (ncap need : Z) : option Z :=
  if ncap <? need then
    match fuel with
    | O => None
    | S fuel =>
        let grow := if 2 ^ 20 <=? ncap then ncap / 2 else ncap in
        if SIZE_MAX - ncap <? grow then Some need else grow_cap fuel (ncap + grow) need
    end
  else Some ncap.

Definition first_cap (cap need : Z) : Z :=
  if cap =? 0 then 4096
  else if 2 ^ 20 <=? cap then
    let grow := cap / 2 in if SIZE_MAX - cap <? grow then need else cap + grow
  else if SIZE_MAX / 2 <? cap then need else cap * 2.

(** [alloc] is the outcome of [realloc].  The fuel covers the growth of any
    capacity to any size, see [grow_cap_total]. *)
Definition kuttidb_vec_reserve (v : kutti_vec) (extra : Z) (alloc : bool) : option kutti_vec :=
  let len := zlen (v_data v) in
  if SIZE_MAX - len <? extra then None
  else
    let need := len + extra in
    if need <=? v_cap v then Some v
    else
      match grow_cap 128 (first_cap (v_cap v) need) need with
      | None => None
      | Some ncap => if alloc then Some {| v with v_cap := ncap |} else None
      end.

(** ** State *)

Definition SIZEOF_ENTRY : Z := 32.
Definition SIZEOF_PTR : Z := 8.
Definition class_sz : list Z :=
  [48; 64; 80; 96; 128; 160; 192; 256; 320; 384; 512; 640; 768; 1024; 1280; 1536; 2048; 3072;
   4096; 6144; 8192; 12288; 16384; 24576; 32768; 49152; 65536].
Definition SLAB_SIZE : Z := 16384.
Definition SLAB_MAX_ENTRY : Z := 4096.
Definition DIRECT_CLS : Z := 0xFFFF.

(** An entry; [ce_at] is its place when it lies in a slab: the slab, counted
    from the oldest one of the shard, and the offset in it. *)
Record cache_entry := CacheEntry {
  ce_exp : Z;
  ce_hash : Z;
  ce_key : bytes;
  ce_value : bytes;
  ce_cls : Z;
  ce_at : nat * Z }.

Record shard := Shard {
  sh_buckets : list (list cache_entry);
  sh_count : Z;
  sh_mem : Z;
  sh_slabs : nat;
  sh_cur : Z;
  sh_left : Z;
  sh_free : list (list (nat * Z)) }.

(** The fields of KuttiDB that are not per shard. *)
Record globals := Globals {
  g_budget : Z;
  g_total_mem : Z;
  g_allocated_mem : Z;
  g_expired : Z;
  g_evicted : Z;
  g_ttl_entries : Z;
  g_rseed : Z;
  g_revision : Z;
  g_sweep_cursor : Z;
  g_allocs : list bool }.

Record kuttidb := KuttiDB {
  db_shards : list shard;
  db_shard_bits : Z;
  db_g : globals }.

Definition nbuckets (s : shard) : Z := zlen (sh_buckets s).
Definition nshards (c : kuttidb) : Z := zlen (db_shards c).

Definition size_of_class (cls : Z) : Z := nth (Z.to_nat cls) class_sz 0.

Definition add_total (d : Z) (g : globals) : globals :=
  {| g with g_total_mem := u64 (g_total_mem g + d) |}.
Definition add_allocated (d : Z) (g : globals) : globals :=
  {| g with g_allocated_mem := u64 (g_allocated_mem g + d) |}.
Definition add_ttl (d : Z) (g : globals) : globals :=
  {| g with g_ttl_entries := u64 (g_ttl_entries g + d) |}.
Definition bump_revision (g : globals) : globals :=
  {| g with g_revision := u64 (g_revision g + 1) |}.

(** ** Allocation *)

Definition malloc (g : globals) : bool * globals :=
  match g_allocs g with
  | [] => (true, g)
  | b :: r => (b, {| g with g_allocs := r |})
  end.

Definition block_alloc (g : globals) (size : Z) : bool * globals :=
  let '(ok, g) := malloc g in
  if ok then (true, add_allocated size g) else (false, g).

Definition shard_slab_free_all (s : shard) (g : globals) : shard * globals :=
  ({| s with sh_slabs := 0%nat; sh_cur := 0; sh_left := 0;
             sh_free := replicate (length class_sz) [] |},
   Nat.iter (sh_slabs s) (add_allocated (- SLAB_SIZE)) g).

(** The loop [while (class_sz[cls] < total) cls++]. *)
Fixpoint class_scan (l : list Z) (cls total : Z) : Z :=
  match l with
  | [] => cls
  | sz :: r => if sz <? total then class_scan r (cls + 1) total else cls
  end.

Definition free_slots (s : shard) (cls : Z) : list (nat * Z) := nth (Z.to_nat cls) (sh_free s) [].
Definition set_free (s : shard) (cls : Z) (l : list (nat * Z)) : shard :=
  {| s with sh_free := <[Z.to_nat cls := l]> (sh_free s) |}.

(** A new slab when less than [csz] bytes are left in the current one. *)
Definition more_slab (s : shard) (g : globals) (csz : Z) : option shard * globals :=
  if sh_left s <? csz then
    let '(ok, g) := block_alloc g SLAB_SIZE in
    if ok then (Some {| s with sh_slabs := S (sh_slabs s); sh_cur := SIZEOF_PTR;
                               sh_left := SLAB_SIZE - SIZEOF_PTR |}, g)
    else (None, g)
  else (Some s, g).

(** The class and place of the new entry. *)
Definition entry_alloc (s : shard) (g : globals) (total : Z)
    : option (Z * (nat * Z)) * shard * globals :=
  if SLAB_MAX_ENTRY <? total then
    let '(ok, g) := block_alloc g total in
    if ok then (Some (DIRECT_CLS, (0%nat, 0)), {| s with sh_mem := u64 (sh_mem s + total) |},
                add_total total g)
    else (None, s, g)
  else
    let cls := class_scan class_sz 0 total in
    let csz := size_of_class cls in
    match free_slots s cls with
    | at_ :: r =>
        let s := set_free s cls r in
        (Some (cls, at_), {| s with sh_mem := u64 (sh_mem s + csz) |}, add_total csz g)
    | [] =>
        match more_slab s g csz with
        | (None, g) => (None, s, g)
        | (Some s, g) =>
            (Some (cls, (Nat.pred (sh_slabs s), sh_cur s)),
             {| s with sh_cur := sh_cur s + csz; sh_left := sh_left s - csz;
                       sh_mem := u64 (sh_mem s + csz) |}, add_total csz g)
        end
    end.

(** The size that [entry_free] gives back; [klen + vlen] is a 32-bit sum. *)
Definition freed_size (e : cache_entry) : Z :=
  if ce_cls e =? DIRECT_CLS then u64 (u32 (zlen (ce_key e) + zlen (ce_value e)) + SIZEOF_ENTRY)
  else size_of_class (ce_cls e).

Definition entry_free (s : shard) (g : globals) (e : cache_entry) : shard * globals :=
  let g := if ce_exp e =? 0 then g else add_ttl (-1) g in
  let got := freed_size e in
  let '(s, g) :=
    if ce_cls e =? DIRECT_CLS then (s, add_allocated (- got) g)
    else (set_free s (ce_cls e) (ce_at e :: free_slots s (ce_cls e)), g) in
  ({| s with sh_mem := u64 (sh_mem s - got) |}, add_total (- got) g).

Definition entry_capacity (e : cache_entry) : Z :=
  if ce_cls e =? DIRECT_CLS then SIZEOF_ENTRY + zlen (ce_key e) + zlen (ce_value e)
  else size_of_class (ce_cls e).

(** A pseudo-random number and the advanced seed. *)
Definition kuttidb_rand (g : globals) : Z * globals :=
  let x := g_rseed g in
  let g := {| g with g_rseed := u64 (g_rseed g + 0x9e3779b97f4a7c15) |} in
  let x := u64 (Z.lxor x (Z.shiftr x 30) * 0xbf58476d1ce4e5b9) in
  let x := u64 (Z.lxor x (Z.shiftr x 27) * 0x94d049bb133111eb) in
  let x := Z.lxor x (Z.shiftr x 31) in
  (u32 (Z.shiftr x 32), g).

(** ** Creation *)

Fixpoint round_buckets (fuel : nat) (rounded initial : Z) : Z :=
  match fuel with
  | O => rounded
  | S fuel =>
      if (rounded <? initial) && (rounded <=? SIZE_MAX / 2)
      then round_buckets fuel (rounded * 2) initial else rounded
  end.

Definition new_shard (n : Z) : shard :=
  {| sh_buckets := replicate (Z.to_nat n) []; sh_count := 0; sh_mem := u64 (n * SIZEOF_PTR);
     sh_slabs := 0; sh_cur := 0; sh_left := 0; sh_free := replicate (length class_sz) [] |}.

(** The shards initialised before a failed allocation, and whether all were. *)
Fixpoint init_loop (k : nat) (g : globals) (n : Z) : bool * list shard * globals :=
  match k with
  | O => (true, [], g)
  | S k =>
      let '(ok, g) := block_alloc g (u64 (n * SIZEOF_PTR)) in
      if ok then
        let '(ok, l, g) := init_loop k g n in (ok, new_shard n :: l, g)
      else (false, [], g)
  end.

Definition init_shards (g : globals) (shards : nat) (initial_buckets : Z)
    : bool * list shard * globals :=
  let initial := Z.max 16 initial_buckets in
  let rounded := round_buckets 64 16 initial in
  if rounded <? initial then (false, [], g)
  else
    let '(ok, l, g) := init_loop shards g rounded in
    if ok then (true, l, add_total (u64 (Z.of_nat shards * rounded * SIZEOF_PTR)) g)
    else (false, l, g).

Fixpoint shard_bits (fuel : nat) (bits n : Z) : Z :=
  match fuel with
  | O => bits
  | S fuel => if 2 ^ bits <? n then shard_bits fuel (bits + 1) n else bits
  end.

(** [allocs]: the two callocs, then those of the shards. *)
Definition kuttidb_create (n initial_buckets now : Z) (allocs : list bool) : option kuttidb :=
  let n := if n =? 0 then 16 else n in
  let bits := shard_bits 64 1 n in
  let g := {| g_budget := 0; g_total_mem := 0; g_allocated_mem := 0; g_expired := 0;
              g_evicted := 0; g_ttl_entries := 0;
              g_rseed := Z.lor (u64 (Z.shiftl now 32)) 0x1234abcd;
              g_revision := 0; g_sweep_cursor := 0; g_allocs := allocs |} in
  let '(ok, g) := malloc g in
  if negb ok then None
  else
    let '(ok, g) := malloc g in
    if negb ok then None
    else
      match init_shards g (Z.to_nat (2 ^ bits)) initial_buckets with
      | (true, l, g) => Some {| db_shards := l; db_shard_bits := bits; db_g := g |}
      | (false, _, _) => None
      end.

(** The counters when everything has been freed that [kuttidb_destroy] frees. *)
Definition kuttidb_destroy (c : kuttidb) : globals :=
  fold_left (fun g s => add_allocated (- (nbuckets s * SIZEOF_PTR)) (snd (shard_slab_free_all s g)))
    (db_shards c) (db_g c).

(** ** Chains *)

Definition bucket_of (n h : Z) : nat := Z.to_nat (Z.land h (n - 1)).
Definition chain_at (s : shard) (b : nat) : list cache_entry := nth b (sh_buckets s) [].
Definition set_chain (s : shard) (b : nat) (l : list cache_entry) : shard :=
  {| s with sh_buckets := <[b := l]> (sh_buckets s) |}.

(** The test of every chain walk. *)
Definition is_entry (h : Z) (key : bytes) (e : cache_entry) : bool :=
  (ce_hash e =? h) && bool_decide (ce_key e = key).

Definition find_entry (h : Z) (key : bytes) (l : list cache_entry) : option cache_entry :=
  find (is_entry h key) l.

(** The chain with the entry of the key replaced, or unlinked. *)
Fixpoint replace_entry (h : Z) (key : bytes) (ne : cache_entry) (l : list cache_entry)
    : list cache_entry :=
  match l with
  | [] => []
  | e :: r => if is_entry h key e then ne :: r else e :: replace_entry h key ne r
  end.

Fixpoint unlink_entry (h : Z) (key : bytes) (l : list cache_entry) : list cache_entry :=
  match l with
  | [] => []
  | e :: r => if is_entry h key e then r else e :: unlink_entry h key r
  end.

Definition is_expired (e : cache_entry) (now : Z) : bool :=
  negb (ce_exp e =? 0) && (ce_exp e <=? now).

(** Entry [e] leaves bucket [b], whose chain becomes [l]. *)
Definition remove_locked (s : shard) (g : globals) (b : nat) (l : list cache_entry)
    (e : cache_entry) : shard * globals :=
  let '(s, g) := entry_free (set_chain s b l) g e in
  let s := {| s with sh_count := sh_count s - 1 |} in
  if sh_count s =? 0 then shard_slab_free_all s g else (s, g).

(** Rehashing in the order of the old table; each entry goes to the head. *)
Definition rehash_into (n : Z) (bs : list (list cache_entry)) : list (list cache_entry) :=
  fold_left (fun nb e => alter (cons e) (bucket_of n (ce_hash e)) nb) (concat bs)
    (replicate (Z.to_nat n) []).

Definition maybe_resize (s : shard) (g : globals) : shard * globals :=
  if sh_count s <=? nbuckets s * 2 then (s, g)
  else
    let newn := nbuckets s * 2 in
    let '(ok, g) := block_alloc g (newn * SIZEOF_PTR) in
    if negb ok then (s, g)
    else
      let delta := newn * SIZEOF_PTR - nbuckets s * SIZEOF_PTR in
      ({| s with sh_buckets := rehash_into newn (sh_buckets s);
                 sh_mem := u64 (sh_mem s + delta) |},
       add_allocated (- (nbuckets s * SIZEOF_PTR)) (add_total delta g)).

(** ** The budget *)

Definition kuttidb_set_budget (c : kuttidb) (budget : Z) : kuttidb :=
  let g := db_g c in {| c with db_g := {| g with g_budget := budget |} |}.

Definition set_shard (c : kuttidb) (i : nat) (s : shard) (g : globals) : kuttidb :=
  {| c with db_shards := <[i := s]> (db_shards c); db_g := g |}.

(** The first bucket with an entry, probing cyclically from [idx]. *)
Fixpoint probe_bucket (n : nat) (s : shard) (idx : Z) : option nat :=
  match n with
  | O => None
  | S n =>
      let b := bucket_of (nbuckets s) idx in
      match chain_at s b with
      | [] => probe_bucket n s (idx + 1)
      | _ => Some b
      end
  end.

(** The shard of a random number or of a ticket of the sweep. *)
Definition masked_shard (c : kuttidb) (x : Z) : nat := Z.to_nat (Z.land x (nshards c - 1)).

(** One iteration of the loop of [evict_under_budget]. *)
Definition evict_one (c : kuttidb) : kuttidb :=
  let '(r, g) := kuttidb_rand (db_g c) in
  let i := masked_shard c r in
  match db_shards c !! i with
  | None => {| c with db_g := g |}
  | Some s =>
      if sh_count s =? 0 then {| c with db_g := g |}
      else
        let '(idx, g) := kuttidb_rand g in
        let idx := Z.land idx (nbuckets s - 1) in
        match probe_bucket (length (sh_buckets s)) s idx with
        | None => {| c with db_g := g |}
        | Some b =>
            match chain_at s b with
            | [] => {| c with db_g := g |}
            | e :: r =>
                let '(s, g) := remove_locked s g b r e in
                set_shard c i s {| g with g_evicted := u64 (g_evicted g + 1) |}
            end
        end
  end.

Fixpoint evict_loop (n : nat) (budget : Z) (c : kuttidb) : kuttidb :=
  match n with
  | O => c
  | S n => if g_total_mem (db_g c) <=? budget then c else evict_loop n budget (evict_one c)
  end.

(** The cast to [int] of the iteration limits. *)
Definition to_int (x : Z) : Z := if u32 x <? 2 ^ 31 then u32 x else u32 x - 2 ^ 32.

Definition evict_under_budget (c : kuttidb) (max_iter : Z) : kuttidb :=
  let budget := g_budget (db_g c) in
  if budget =? 0 then c else evict_loop (Z.to_nat max_iter) budget c.

(** ** Writing *)

Definition kuttidb_expiry_from_ttl (ttl_ms now : Z) : Z :=
  if ttl_ms =? 0 then 0
  else
    let secs := ttl_ms / 1000 + (if ttl_ms mod 1000 =? 0 then 0 else 1) in
    let max_add := 0xFFFFFFF0 in
    let target := u64 (now + (if max_add <? secs then max_add else secs)) in
    let target := if UINT32_MAX <? target then UINT32_MAX else target in
    let target := if (target <=? now) && (now <? UINT32_MAX) then now + 1 else target in
    u32 target.

(** The shard of a hash. *)
Definition shard_for (c : kuttidb) (h : Z) : nat := Z.to_nat (Z.shiftr h (32 - db_shard_bits c)).

Definition new_entry (h : Z) (key value : bytes) (exp : Z) (slot : Z * (nat * Z)) : cache_entry :=
  {| ce_exp := exp; ce_hash := h; ce_key := key; ce_value := value; ce_cls := slot.1;
     ce_at := slot.2 |}.

Inductive put_result := PutFailed | PutInPlace | PutStored.

(** The part of [kuttidb_put_abs] under the shard lock. *)
Definition put_locked (s : shard) (g : globals) (h : Z) (key value : bytes) (exp : Z)
    : put_result * shard * globals :=
  let idx := bucket_of (nbuckets s) h in
  let chain := chain_at s idx in
  let need := SIZEOF_ENTRY + zlen key + zlen value in
  match find_entry h key chain with
  | Some e =>
      if need <=? entry_capacity e then
        let g := if (ce_exp e =? 0) && negb (exp =? 0) then add_ttl 1 g
                 else if negb (ce_exp e =? 0) && (exp =? 0) then add_ttl (-1) g else g in
        let ne := {| e with ce_value := value; ce_exp := exp |} in
        (PutInPlace, set_chain s idx (replace_entry h key ne chain), bump_revision g)
      else
        match entry_alloc s g need with
        | (None, s, g) => (PutFailed, s, g)
        | (Some slot, s, g) =>
            let g := if exp =? 0 then g else add_ttl 1 g in
            let s := set_chain s idx (replace_entry h key (new_entry h key value exp slot) chain) in
            let '(s, g) := entry_free s g e in
            (PutStored, s, bump_revision g)
        end
  | None =>
      match entry_alloc s g need with
      | (None, s, g) => (PutFailed, s, g)
      | (Some slot, s, g) =>
          let g := if exp =? 0 then g else add_ttl 1 g in
          let s := set_chain s idx (new_entry h key value exp slot :: chain) in
          let s := {| s with sh_count := sh_count s + 1 |} in
          let '(s, g) := maybe_resize s g in
          (PutStored, s, bump_revision g)
      end
  end.

Definition kuttidb_put_abs (c : kuttidb) (key value : bytes) (exp : Z) : Z * kuttidb :=
  let h := hash_key key in
  let i := shard_for c h in
  let budget := g_budget (db_g c) in
  let c := if negb (budget =? 0) && (budget <=? g_total_mem (db_g c))
           then evict_under_budget c (to_int (nshards c * 2)) else c in
  match db_shards c !! i with
  | None => (-1, c)
  | Some s =>
      match put_locked s (db_g c) h key value exp with
      | (PutFailed, s, g) => (-1, set_shard c i s g)
      | (PutInPlace, s, g) => (0, set_shard c i s g)
      | (PutStored, s, g) =>
          let c := set_shard c i s g in
          (0, if negb (budget =? 0) && (budget <? g_total_mem (db_g c))
              then evict_under_budget c (to_int (nshards c * 4)) else c)
      end
  end.

Definition kuttidb_put_ex (c : kuttidb) (key value : bytes) (ttl_ms now : Z) : Z * kuttidb :=
  kuttidb_put_abs c key value (kuttidb_expiry_from_ttl ttl_ms now).

Definition kuttidb_put (c : kuttidb) (key value : bytes) : Z * kuttidb :=
  kuttidb_put_ex c key value 0 0.

(** ** Reading *)

Inductive lookup_result := Hit (value : bytes) | Miss | Expired.

(** [lookup_copy] up to the copy: the first locked section of a read. *)
Definition lookup_entry (s : shard) (h : Z) (key : bytes) (now : Z) : lookup_result :=
  match find_entry h key (chain_at s (bucket_of (nbuckets s) h)) with
  | None => Miss
  | Some e => if is_expired e now then Expired else Hit (ce_value e)
  end.

Definition get_lookup (c : kuttidb) (key : bytes) (now : Z) : lookup_result :=
  let h := hash_key key in
  match db_shards c !! shard_for c h with
  | None => Miss
  | Some s => lookup_entry s h key now
  end.

(** The second locked section, after [Expired]: the key's entry is removed
    without looking at its expiry again. *)
Definition get_cleanup (c : kuttidb) (key : bytes) : kuttidb :=
  let h := hash_key key in
  let i := shard_for c h in
  match db_shards c !! i with
  | None => c
  | Some s =>
      let b := bucket_of (nbuckets s) h in
      match find_entry h key (chain_at s b) with
      | None => c
      | Some e =>
          let '(s, g) := remove_locked s (db_g c) b (unlink_entry h key (chain_at s b)) e in
          set_shard c i s {| g with g_expired := u64 (g_expired g + 1) |}
      end
  end.

Definition set_g (c : kuttidb) (g : globals) : kuttidb := {| c with db_g := g |}.

(** [kuttidb_get]: the copy is one allocation. *)
Definition kuttidb_get (c : kuttidb) (key : bytes) (time : Z) : Z * option bytes * kuttidb :=
  match get_lookup c key (u32 time) with
  | Miss => (0, None, c)
  | Expired => (0, None, get_cleanup c key)
  | Hit v =>
      let '(ok, g) := malloc (db_g c) in
      if ok then (1, Some v, set_g c g) else (-1, None, set_g c g)
  end.

(** [kuttidb_get_into_at]; [realloc] draws its outcome when it is called. *)
Definition kuttidb_get_into_at (c : kuttidb) (key : bytes) (vec : kutti_vec) (now_sec time : Z)
    : Z * kutti_vec * kuttidb :=
  let now := if now_sec =? 0 then u32 time else now_sec in
  match get_lookup c key now with
  | Miss => (0, vec, c)
  | Expired => (0, vec, get_cleanup c key)
  | Hit v =>
      let '(ok, g) := if zlen (v_data vec) + zlen v <=? v_cap vec then (true, db_g c)
                      else malloc (db_g c) in
      match kuttidb_vec_reserve vec (zlen v) ok with
      | None => (-1, vec, set_g c g)
      | Some w => (1, {| w with v_data := v_data w ++ v |}, set_g c g)
      end
  end.

Definition kuttidb_get_into (c : kuttidb) (key : bytes) (vec : kutti_vec) (time : Z)
    : Z * kutti_vec * kuttidb := kuttidb_get_into_at c key vec 0 time.

Definition kuttidb_delete (c : kuttidb) (key : bytes) : Z * kuttidb :=
  let h := hash_key key in
  let i := shard_for c h in
  match db_shards c !! i with
  | None => (0, c)
  | Some s =>
      let b := bucket_of (nbuckets s) h in
      match find_entry h key (chain_at s b) with
      | None => (0, c)
      | Some e =>
          let '(s, g) := remove_locked s (db_g c) b (unlink_entry h key (chain_at s b)) e in
          (1, set_shard c i s (bump_revision g))
      end
  end.

(** ** Expiry sweep *)

(** The walk along one chain: [kept] entries stay in front of [rest]. *)
Fixpoint sweep_chain (kept rest : list cache_entry) (s : shard) (g : globals) (b : nat) (now : Z)
    : shard * globals :=
  match rest with
  | [] => (s, g)
  | e :: r =>
      if is_expired e now then
        let '(s, g) := remove_locked s g b (kept ++ r) e in
        let g := bump_revision g in
        sweep_chain kept r s {| g with g_expired := u64 (g_expired g + 1) |} b now
      else sweep_chain (kept ++ [e]) r s g b now
  end.

(** One round: the cursor names a shard and a bucket. *)
Definition sweep_round (c : kuttidb) (now : Z) : kuttidb :=
  let g := db_g c in
  let ticket := g_sweep_cursor g in
  let g := {| g with g_sweep_cursor := u64 (ticket + 1) |} in
  let i := masked_shard c ticket in
  match db_shards c !! i with
  | None => set_g c g
  | Some s =>
      let b := bucket_of (nbuckets s) (ticket / nshards c) in
      let '(s, g) := sweep_chain [] (chain_at s b) s g b now in set_shard c i s g
  end.

Fixpoint sweep_loop (work : nat) (c : kuttidb) (now : Z) : kuttidb :=
  match work with
  | O => c
  | S work => sweep_loop work (sweep_round c now) now
  end.

Definition kuttidb_sweep_expired (c : kuttidb) (bucket_work time : Z) : kuttidb :=
  if g_ttl_entries (db_g c) =? 0 then c
  else sweep_loop (Z.to_nat bucket_work) c (u32 time).

(** ** Counters *)

Definition kuttidb_revision (c : kuttidb) : Z := g_revision (db_g c).
Definition kuttidb_count (c : kuttidb) : Z := fold_left (fun n s => n + sh_count s) (db_shards c) 0.
Definition kuttidb_memusage (c : kuttidb) : Z := g_total_mem (db_g c).
Definition kuttidb_allocated (c : kuttidb) : Z := g_allocated_mem (db_g c).
Definition kuttidb_expired_count (c : kuttidb) : Z := g_expired (db_g c).
Definition kuttidb_evicted_count (c : kuttidb) : Z := g_evicted (db_g c).

(** ** Scans *)

(** The entries in the order of every scan. *)
Definition shard_entries (s : shard) : list cache_entry := concat (sh_buckets s).
Definition all_entries (c : kuttidb) : list cache_entry := concat (shard_entries <$> db_shards c).

(** What [kuttidb_foreach] stages for one entry. *)
Definition stage_entry (e : cache_entry) : bytes :=
  put32 (zlen (ce_key e)) ++ put32 (zlen (ce_value e)) ++ put32 (ce_exp e) ++
  ce_key e ++ ce_value e.

(** The outcome of a [realloc] that takes place. *)
Definition draw_realloc (v : kutti_vec) (n : Z) (allocs : list bool) : bool * list bool :=
  if zlen (v_data v) + n <=? v_cap v then (true, allocs)
  else match allocs with [] => (true, []) | b :: r => (b, r) end.

(** The live entries of a shard are appended to the stage; [None] when it
    cannot grow. *)
Fixpoint stage_entries (es : list cache_entry) (now : Z) (stage : kutti_vec) (allocs : list bool)
    : option kutti_vec * list bool :=
  match es with
  | [] => (Some stage, allocs)
  | e :: r =>
      if is_expired e now then stage_entries r now stage allocs
      else
        let n := 12 + zlen (ce_key e) + zlen (ce_value e) in
        let '(ok, allocs) := draw_realloc stage n allocs in
        match kuttidb_vec_reserve stage n ok with
        | None => (None, allocs)
        | Some v => stage_entries r now {| v with v_data := v_data v ++ stage_entry e |} allocs
        end
  end.

Section foreach.
Context {A : Type} (cb : A -> bytes -> bytes -> Z -> A * Z).

(** The loop over the staged bytes; a round consumes at least 12. *)
Fixpoint deliver_stage (fuel : nat) (stage : bytes) (ctx : A) : A * Z :=
  match fuel with
  | O => (ctx, 0)
  | S fuel =>
      match stage with
      | [] => (ctx, 0)
      | _ =>
          let klen := get32 stage in
          let vlen := get32 (drop 4 stage) in
          let exp := get32 (drop 8 stage) in
          let data := drop 12 stage in
          let key := take (Z.to_nat klen) data in
          let value := take (Z.to_nat vlen) (drop (Z.to_nat klen) data) in
          let '(ctx, stop) := cb ctx key value exp in
          if stop =? 0 then
            deliver_stage fuel (drop (Z.to_nat (12 + klen + vlen)) stage) ctx
          else (ctx, stop)
      end
  end.

(** The loop over the shards; the stage keeps its capacity. *)
Fixpoint foreach_shards (shards : list shard) (now : Z) (stage : kutti_vec) (allocs : list bool)
    (ctx : A) : A * Z :=
  match shards with
  | [] => (ctx, 0)
  | s :: r =>
      match stage_entries (shard_entries s) now {| stage with v_data := [] |} allocs with
      | (None, _) => (ctx, -1)
      | (Some stage, allocs) =>
          let '(ctx, stop) := deliver_stage (length (v_data stage)) (v_data stage) ctx in
          if stop =? 0 then foreach_shards r now stage allocs ctx else (ctx, stop)
      end
  end.

(** [allocs] are the outcomes of the reallocations of the stage. *)
Definition kuttidb_foreach (c : kuttidb) (time : Z) (allocs : list bool) (ctx : A) : A * Z :=
  foreach_shards (db_shards c) (u32 time) (KuttiVec [] 0) allocs ctx.
End foreach.

(** A position of the metadata scan. *)
Record metadata_cursor := MetadataCursor { mc_shard : Z; mc_bucket : Z; mc_entry : Z }.

Section metadata.
Context {A : Type} (fn : A -> bytes -> Z -> Z -> A * bool).
Context (match_ : A -> bytes -> Z -> Z -> bool).

(** The bounded scan from the start. *)
Fixpoint metadata_scan (es : list cache_entry) (now max delivered : Z) (ctx : A) : A * Z :=
  match es with
  | [] => (ctx, delivered)
  | e :: r =>
      if max <=? delivered then (ctx, delivered)
      else if is_expired e now then metadata_scan r now max delivered ctx
      else
        let '(ctx, stop) := fn ctx (ce_key e) (zlen (ce_value e)) (ce_exp e) in
        if stop then (ctx, delivered) else metadata_scan r now max (delivered + 1) ctx
  end.

Definition kuttidb_foreach_metadata (c : kuttidb) (max_entries time : Z) (ctx : A) : A * Z :=
  if max_entries =? 0 then (ctx, -1)
  else metadata_scan (all_entries c) (u32 time) max_entries 0 ctx.

(** The state of a page: the callback's context, the entries delivered, the
    cursor behind the last one, and how the walk goes on. *)
Inductive page_end := PageOn | PageMore | PageStopped.
Record page := Page { p_ctx : A; p_delivered : Z; p_next : option metadata_cursor; p_end : page_end }.

Fixpoint page_chain (es : list cache_entry) (i b idx skip now max : Z) (p : page) : page :=
  match es with
  | [] => p
  | e :: r =>
      if (idx <? skip) || is_expired e now ||
         negb (match_ (p_ctx p) (ce_key e) (zlen (ce_value e)) (ce_exp e))
      then page_chain r i b (idx + 1) skip now max p
      else if p_delivered p =? max then {| p with p_end := PageMore |}
      else
        let '(ctx, stop) := fn (p_ctx p) (ce_key e) (zlen (ce_value e)) (ce_exp e) in
        if stop then {| p with p_ctx := ctx; p_end := PageStopped |}
        else page_chain r i b (idx + 1) skip now max
               {| p_ctx := ctx; p_delivered := p_delivered p + 1;
                  p_next := Some {| mc_shard := i; mc_bucket := b; mc_entry := idx + 1 |};
                  p_end := PageOn |}
  end.

(** The buckets of one shard from [b] on; [first] is the start position. *)
Fixpoint page_buckets (bs : list (list cache_entry)) (i b : Z) (first : metadata_cursor)
    (now max : Z) (p : page) : page :=
  match bs with
  | [] => p
  | es :: r =>
      let skip := if (i =? mc_shard first) && (b =? mc_bucket first) then mc_entry first else 0 in
      let p := page_chain es i b 0 skip now max p in
      match p_end p with
      | PageOn => page_buckets r i (b + 1) first now max p
      | _ => p
      end
  end.

Fixpoint page_shards (ss : list shard) (i : Z) (first : metadata_cursor) (now max : Z) (p : page)
    : page :=
  match ss with
  | [] => p
  | s :: r =>
      let b := if i =? mc_shard first then mc_bucket first else 0 in
      let p := page_buckets (drop (Z.to_nat b) (sh_buckets s)) i b first now max p in
      match p_end p with
      | PageOn => page_shards r (i + 1) first now max p
      | _ => p
      end
  end.

(** The context, the number delivered, the next cursor and whether there is
    more; the latter two are not written when the callback stops the scan. *)
Definition kuttidb_foreach_metadata_page_filtered (c : kuttidb) (start : option metadata_cursor)
    (max_entries time : Z) (ctx : A) : A * Z * option metadata_cursor * option bool :=
  if max_entries =? 0 then (ctx, -1, None, None)
  else
    let first := default {| mc_shard := 0; mc_bucket := 0; mc_entry := 0 |} start in
    if nshards c <=? mc_shard first then (ctx, 0, Some first, Some false)
    else
      let p := page_shards (drop (Z.to_nat (mc_shard first)) (db_shards c)) (mc_shard first) first
                 (u32 time) max_entries
                 {| p_ctx := ctx; p_delivered := 0; p_next := None; p_end := PageOn |} in
      match p_end p with
      | PageStopped => (p_ctx p, p_delivered p, p_next p, None)
      | PageMore => (p_ctx p, p_delivered p, p_next p, Some true)
      | PageOn =>
          (p_ctx p, p_delivered p,
           match p_next p with
           | Some n => Some n
           | None => Some {| mc_shard := nshards c; mc_bucket := 0; mc_entry := 0 |}
           end, Some false)
      end.
End metadata.

(** Without a match function every entry is taken. *)
Definition kuttidb_foreach_metadata_page {A} (fn : A -> bytes -> Z -> Z -> A * bool) (c : kuttidb)
    (start : option metadata_cursor) (max_entries time : Z) (ctx : A)
    : A * Z * option metadata_cursor * option bool :=
  kuttidb_foreach_metadata_page_filtered fn (fun _ _ _ _ => true) c start max_entries time ctx.

End Cache.
