(* ===== verification/CacheSlab.v ===== *)
(** * Arithmetic of the cache: growing vectors and expiry times

    Then, in [CacheSlab]: the slab allocator of the cache (kuttidb.c: entry_alloc, entry_free. *)

From stdpp Require Import base numbers option list.
From S2P Require Import Prelude Cache.
Import Cache.

Module CacheBounds.

(** ** Growth *)

Lemma grow_more fuel : forall k ncap need v, grow_cap fuel ncap need = Some v ->
  grow_cap (fuel + k) ncap need = Some v.
Proof.
  induction fuel as [|fuel IH]; intros k ncap need v; simpl.
  - destruct k; simpl; destruct (ncap <? need); done.
  - destruct (ncap <? need); [|done]. destruct (SIZE_MAX - ncap <? _); [done|]. apply IH.
Qed.

Definition grown (fuel : nat) (ncap need : Z) : Prop :=
  exists v, grow_cap fuel ncap need = Some v /\ need <= v <= SIZE_MAX.

(** One round: the goal is reached, or the capacity grows by [grow]. *)
Lemma grow_step fuel ncap need : 0 <= need <= SIZE_MAX -> 0 <= ncap <= SIZE_MAX ->
  let grow := if 2 ^ 20 <=? ncap then ncap / 2 else ncap in
  (ncap + grow <= SIZE_MAX -> grown fuel (ncap + grow) need) -> grown (S fuel) ncap need.
Proof.
  intros Hn Hc grow H. unfold grown. cbn [grow_cap]. destruct (Z.ltb_spec ncap need).
  - fold grow. destruct (Z.ltb_spec (SIZE_MAX - ncap) grow); [exists need; split; [done|lia]|]. apply H. lia.
  - exists ncap. split; [done|lia].
Qed.

Lemma half_bounds x : 0 <= x -> x - 1 <= 2 * (x / 2) <= x.
Proof. intros Hx. pose proof (Z.div_mod x 2). pose proof (Z.mod_pos_bound x 2). lia. Qed.

(** Two rounds of the slow growth more than double. *)
Lemma grow_large k : forall ncap need, 0 <= need <= SIZE_MAX -> 2 ^ 20 <= ncap <= SIZE_MAX ->
  SIZE_MAX < ncap * 2 ^ Z.of_nat k -> grown (2 * k) ncap need.
Proof.
  induction k as [|k IH]; intros ncap need Hn Hc Hk; [simpl in Hk; lia|].
  replace (2 * S k)%nat with (S (S (2 * k))) by lia. pose proof (half_bounds ncap).
  apply grow_step; [lia|lia|]. rewrite (proj2 (Z.leb_le (2 ^ 20) ncap)) by lia. intros H1.
  set (x := ncap + ncap / 2) in *. pose proof (half_bounds x).
  apply grow_step; [lia|lia|]. rewrite (proj2 (Z.leb_le (2 ^ 20) x)) by lia. intros H2.
  apply IH; [lia|lia|]. rewrite Nat2Z.inj_succ, Z.pow_succ_r in Hk by lia.
  pose proof (Z.pow_pos_nonneg 2 (Z.of_nat k)). nia.
Qed.

Lemma grow_small k : forall ncap need, 0 <= need <= SIZE_MAX -> 0 < ncap <= SIZE_MAX ->
  2 ^ 20 <= ncap * 2 ^ Z.of_nat k -> grown (k + 88) ncap need.
Proof.
  induction k as [|k IH]; intros ncap need Hn Hc Hk.
  - apply (grow_large 44); [done|lia|]. unfold SIZE_MAX. lia.
  - destruct (Z.leb_spec (2 ^ 20) ncap).
    + destruct (grow_large 44 ncap need) as (v & E & Hv); [done|lia|unfold SIZE_MAX; lia|].
      exists v. split; [|done]. change (2 * 44)%nat with 88%nat in E.
      by rewrite Nat.add_comm, (grow_more 88 (S k) _ _ _ E).
    + simpl. apply grow_step; [lia|lia|]. rewrite (proj2 (Z.leb_gt (2 ^ 20) ncap)) by lia. intros _.
      apply IH; [done|unfold SIZE_MAX in *; lia|].
      rewrite Nat2Z.inj_succ, Z.pow_succ_r in Hk by lia. lia.
Qed.

(** The fuel of [kuttidb_vec_reserve] is enough. *)
Lemma grow_cap_total ncap need : 0 <= need <= SIZE_MAX -> 0 < ncap <= SIZE_MAX -> grown 128 ncap need.
Proof.
  intros Hn Hc. destruct (grow_small 20 ncap need) as (v & E & Hv); [done|done|lia|].
  exists v. split; [|done]. exact (grow_more 108 20 _ _ _ E).
Qed.

Lemma first_cap_range cap need : 0 <= cap <= SIZE_MAX -> 0 < need <= SIZE_MAX ->
  0 < first_cap cap need <= SIZE_MAX.
Proof.
  intros Hc Hn. unfold first_cap. destruct (Z.eqb_spec cap 0); [unfold SIZE_MAX; lia|].
  pose proof (half_bounds cap). pose proof (half_bounds SIZE_MAX ltac:(done)).
  destruct (2 ^ 20 <=? cap).
  - destruct (Z.ltb_spec (SIZE_MAX - cap) (cap / 2)); lia.
  - destruct (Z.ltb_spec (SIZE_MAX / 2) cap); lia.
Qed.

Lemma reserve_spec v extra alloc : 0 <= extra <= SIZE_MAX ->
  zlen (v_data v) <= v_cap v <= SIZE_MAX -> let need := zlen (v_data v) + extra in
  (SIZE_MAX < need /\ kuttidb_vec_reserve v extra alloc = None) \/
  (need <= v_cap v /\ kuttidb_vec_reserve v extra alloc = Some v) \/
  (v_cap v < need <= SIZE_MAX /\ exists cap, need <= cap <= SIZE_MAX /\
     kuttidb_vec_reserve v extra alloc = if alloc then Some {| v with v_cap := cap |} else None).
Proof.
  intros He Hv need. unfold kuttidb_vec_reserve. fold need. pose proof (zlen_nonneg (v_data v)).
  destruct (Z.ltb_spec (SIZE_MAX - zlen (v_data v)) extra); [left; split; [lia|done]|].
  destruct (Z.leb_spec need (v_cap v)); [right; by left|]. right. right. split; [lia|].
  destruct (grow_cap_total (first_cap (v_cap v) need) need) as (cap & -> & Hc);
    [lia|apply first_cap_range; lia|]. by exists cap.
Qed.

(** ** Expiry *)

Definition ttl_seconds (ttl_ms : Z) : Z := ttl_ms / 1000 + (if ttl_ms mod 1000 =? 0 then 0 else 1).

Lemma ttl_seconds_pos ttl : 0 < ttl -> 0 < ttl_seconds ttl /\ ttl <= 1000 * ttl_seconds ttl < ttl + 1000.
Proof.
  intros H. unfold ttl_seconds. pose proof (Z.div_mod ttl 1000). pose proof (Z.mod_pos_bound ttl 1000).
  destruct (Z.eqb_spec (ttl mod 1000) 0); lia.
Qed.

Lemma expiry_spec ttl now : 0 < ttl -> 0 <= now < UINT32_MAX ->
  kuttidb_expiry_from_ttl ttl now = Z.min (now + Z.min (ttl_seconds ttl) 0xFFFFFFF0) UINT32_MAX.
Proof.
  intros Ht Hn. destruct (ttl_seconds_pos ttl Ht) as [Hp _]. unfold kuttidb_expiry_from_ttl.
  destruct (Z.eqb_spec ttl 0); [lia|]. fold (ttl_seconds ttl). set (s := ttl_seconds ttl) in *.
  unfold UINT32_MAX in *.
  replace (if 4294967280 <? s then 4294967280 else s) with (Z.min s 4294967280)
    by (destruct (Z.ltb_spec 4294967280 s); lia).
  rewrite u64_small by (unfold fits; lia).
  destruct (Z.ltb_spec (2 ^ 32 - 1) (now + Z.min s 4294967280)).
  - rewrite (proj2 (Z.leb_gt (2 ^ 32 - 1) now)) by lia. cbn [andb]. rewrite u32_small; unfold fits; lia.
  - rewrite (proj2 (Z.leb_gt (now + Z.min s 4294967280) now)) by lia. cbn [andb].
    rewrite u32_small; unfold fits; lia.
Qed.

End CacheBounds.

(** * The slab allocator of the cache (kuttidb.c: entry_alloc, entry_free)

    Every slot a shard has carved from its slabs is either in use by one entry
    or on the free list of its class; slots lie inside their slab and no two
    of them share a byte. *)

Import Cache.

Module CacheSlab.

(** A slot: its class and its place. *)
Abbreviation slot := (Z * (nat * Z))%type.

Definition in_slab (x : slot) : bool := negb (x.1 =? DIRECT_CLS).

(** The bytes of a slot; a direct allocation occupies none of a slab. *)
Definition cells (x : slot) : list (nat * Z) :=
  if in_slab x then (x.2.1,.) <$> seqZ x.2.2 (size_of_class x.1) else [].

(** The slots on the free list of a class, and on all of them. *)
Definition class_slots (cls : nat) (l : list (nat * Z)) : list slot :=
  (fun p => (Z.of_nat cls, p)) <$> l.
Definition free_list (s : shard) : list slot := concat (imap class_slots (sh_free s)).

(** Inside the slab, and below the carving position in the current one. *)
Definition slot_ok (s : shard) (x : slot) : Prop := in_slab x = true ->
  0 <= x.1 < zlen class_sz /\ (x.2.1 < sh_slabs s)%nat /\ SIZEOF_PTR <= x.2.2 /\
  x.2.2 + size_of_class x.1 <= SLAB_SIZE /\
  (S x.2.1 = sh_slabs s -> x.2.2 + size_of_class x.1 <= sh_cur s).

(** [live] are the slots in use. *)
Record slab_ok (live : list slot) (s : shard) : Prop := {
  sl_free : length (sh_free s) = length class_sz;
  sl_left : 0 <= sh_left s;
  sl_cur : sh_slabs s <> 0%nat -> sh_cur s + sh_left s = SLAB_SIZE /\ SIZEOF_PTR <= sh_cur s;
  sl_none : sh_slabs s = 0%nat -> sh_left s = 0;
  sl_slots : Forall (slot_ok s) (live ++ free_list s);
  sl_cells : NoDup (concat (cells <$> (live ++ free_list s))) }.

(** ** Size classes *)

Lemma size_pos cls : 0 <= cls < zlen class_sz -> 48 <= size_of_class cls.
Proof.
  intros H. unfold size_of_class. assert (Hn : (Z.to_nat cls < length class_sz)%nat).
  { unfold zlen in H. lia. }
  assert (F : Forall (fun z => 48 <= z) class_sz) by (repeat constructor; lia).
  rewrite Forall_forall in F. apply F. apply list_elem_of_In, nth_In. done.
Qed.

Lemma class_scan_spec l cls total : 0 <= cls -> Exists (fun z => total <= z) l ->
  cls <= class_scan l cls total < cls + zlen l /\
  total <= nth (Z.to_nat (class_scan l cls total - cls)) l 0.
Proof.
  revert cls. induction l as [|z l IH]; intros cls Hc He; [by inversion He|].
  simpl. rewrite zlen_cons. pose proof (zlen_nonneg l). destruct (Z.ltb_spec z total).
  - inversion He as [?? H'|?? H']; subst; [lia|]. destruct (IH (cls + 1)) as [H1 H2]; [lia|done|].
    split; [lia|]. replace (Z.to_nat (class_scan l (cls + 1) total - cls))
      with (S (Z.to_nat (class_scan l (cls + 1) total - (cls + 1)))) by lia. done.
  - rewrite Z.sub_diag. simpl. lia.
Qed.

(** The class chosen for an entry of at most [SLAB_MAX_ENTRY] bytes. *)
Lemma class_chosen total : total <= SLAB_MAX_ENTRY ->
  let cls := class_scan class_sz 0 total in
  0 <= cls < zlen class_sz /\ total <= size_of_class cls /\ size_of_class cls <= SLAB_MAX_ENTRY.
Proof.
  intros Ht cls. assert (He : Exists (fun z => total <= z) class_sz).
  { unfold class_sz, SLAB_MAX_ENTRY in *.
    repeat first [apply Exists_cons_hd; lia | apply Exists_cons_tl]. }
  destruct (class_scan_spec class_sz 0 total (Z.le_refl 0) He) as [H1 H2].
  rewrite Z.sub_0_r in H2. split; [done|]. split; [done|].
  unfold cls, size_of_class, SLAB_MAX_ENTRY in *. clear H1 H2 He cls.
  unfold class_sz. cbn [class_scan].
  repeat (match goal with |- context [if ?a <? total then _ else _] =>
            destruct (Z.ltb_spec a total) end; [try lia|apply Z.leb_le; reflexivity]).
Qed.

(** ** Slots *)

Lemma slab_ok_perm live live' s : live ≡ₚ live' -> slab_ok live s -> slab_ok live' s.
Proof.
  intros P []. constructor; try done.
  - by rewrite <- P.
  - rewrite <- P. done.
Qed.

Lemma free_list_insert fl cls l : (cls < length fl)%nat -> exists rest,
  concat (imap class_slots fl) ≡ₚ class_slots cls (nth cls fl []) ++ rest /\
  concat (imap class_slots (<[cls := l]> fl)) ≡ₚ class_slots cls l ++ rest.
Proof.
  intros H. destruct (nth_lookup_or_length fl cls []) as [E|]; [|lia].
  exists (concat (imap class_slots (take cls fl)) ++
          concat (imap (class_slots ∘ (Nat.add (S cls))) (drop (S cls) fl))).
  assert (Hl : length (take cls fl) = cls) by (rewrite length_take; lia).
  assert (P : forall x, concat (imap class_slots (take cls fl ++ x :: drop (S cls) fl))
    ≡ₚ class_slots cls x ++ concat (imap class_slots (take cls fl)) ++
       concat (imap (class_slots ∘ (Nat.add (S cls))) (drop (S cls) fl))).
  { intros x. rewrite imap_app, concat_app, imap_cons. simpl. rewrite Hl, Nat.add_0_r.
    rewrite !app_assoc. f_equiv; [by rewrite Permutation_app_comm|].
    match goal with |- ?a ≡ₚ ?b => assert (a = b) as ->; [|done] end. f_equal. apply imap_ext. intros i y _. simpl. f_equal. lia. }
  split.
  - rewrite <- (take_drop_middle fl cls _ E) at 1. apply P.
  - rewrite insert_take_drop by done. apply P.
Qed.

Lemma slot_ok_more s s' x : (sh_slabs s <= sh_slabs s')%nat ->
  (sh_slabs s' = sh_slabs s -> sh_cur s <= sh_cur s') -> slot_ok s x -> slot_ok s' x.
Proof.
  intros H1 H2 Hx Hi. destruct (Hx Hi) as ([? ?] & ? & ? & ? & Hc). do 4 (split; [lia|]).
  intros E. destruct (decide (sh_slabs s' = sh_slabs s)) as [E'|]; [|lia].
  etrans; [apply Hc; lia|]. auto.
Qed.

Lemma cells_in x c : c ∈ cells x -> in_slab x = true /\ c.1 = x.2.1 /\
  x.2.2 <= c.2 < x.2.2 + size_of_class x.1.
Proof.
  unfold cells. destruct (in_slab x); [|by intros ?%not_elem_of_nil].
  intros (z & -> & Hz%elem_of_seqZ)%list_elem_of_fmap. simpl. split_and!; try done; lia.
Qed.

Lemma NoDup_cells x : NoDup (cells x).
Proof.
  unfold cells. destruct (in_slab x); [|apply NoDup_nil_2]. apply NoDup_fmap_2; [|apply NoDup_seqZ].
  intros a b. by intros [= ->].
Qed.

(** Adding a slot whose bytes no other slot has. *)
Lemma cells_cons x l : NoDup (concat (cells <$> l)) ->
  (forall c y, c ∈ cells x -> y ∈ l -> c ∉ cells y) -> NoDup (concat (cells <$> (x :: l))).
Proof.
  intros Hn Hd. csimpl. apply NoDup_app. split; [apply NoDup_cells|]. split; [|done].
  intros c Hc (ys & Hy & Hin)%elem_of_concat. apply list_elem_of_fmap in Hy as (y & -> & Hy).
  by eapply Hd.
Qed.

(** A slot popped from a free list. *)
Lemma slab_pop live s cls p r : slab_ok live s -> free_slots s cls = p :: r ->
  0 <= cls < zlen class_sz -> slab_ok ((cls, p) :: live) (set_free s cls r).
Proof.
  intros [] E Hc. assert (Hl : (Z.to_nat cls < length (sh_free s))%nat).
  { rewrite sl_free0. unfold zlen in Hc. lia. }
  destruct (free_list_insert (sh_free s) (Z.to_nat cls) r Hl) as (rest & P1 & P2).
  unfold free_slots in E. rewrite E in P1. unfold class_slots in P1 at 2. csimpl in P1.
  rewrite Z2Nat.id in P1 by lia.
  assert (P : (cls, p) :: live ++ free_list (set_free s cls r) ≡ₚ live ++ free_list s).
  { unfold free_list. simpl. rewrite P1, P2. rewrite Permutation_middle. unfold class_slots.
    rewrite Z2Nat.id by lia. done. }
  constructor; try done.
  - simpl. by rewrite length_insert.
  - change ((?x :: ?l) ++ ?k) with (x :: l ++ k). rewrite P. eapply Forall_impl; [exact sl_slots0|].
    intros x. by apply slot_ok_more.
  - change ((?x :: ?l) ++ ?k) with (x :: l ++ k). by rewrite P.
Qed.

(** A slot given back. *)
Lemma slab_push live s cls p : slab_ok ((cls, p) :: live) s -> 0 <= cls < zlen class_sz ->
  slab_ok live (set_free s cls (p :: free_slots s cls)).
Proof.
  intros [] Hc. assert (Hl : (Z.to_nat cls < length (sh_free s))%nat).
  { rewrite sl_free0. unfold zlen in Hc. lia. }
  destruct (free_list_insert (sh_free s) (Z.to_nat cls) (p :: free_slots s cls) Hl) as (rest & P1 & P2).
  assert (P : live ++ free_list (set_free s cls (p :: free_slots s cls))
              ≡ₚ ((cls, p) :: live) ++ free_list s).
  { unfold free_list. simpl. rewrite P1, P2. unfold class_slots, free_slots. csimpl.
    rewrite Z2Nat.id by lia. by rewrite <- Permutation_middle. }
  constructor; try done.
  - simpl. by rewrite length_insert.
  - rewrite P. eapply Forall_impl; [exact sl_slots0|]. intros x. by apply slot_ok_more.
  - by rewrite P.
Qed.

(** ** Allocation *)

Definition charge (x : slot) (total : Z) : Z :=
  if in_slab x then size_of_class x.1 else total.

(** A slot suits an entry of [total] bytes. *)
Definition suits (x : slot) (total : Z) : Prop :=
  (x.1 = DIRECT_CLS /\ SLAB_MAX_ENTRY < total) \/
  (0 <= x.1 < zlen class_sz /\ total <= size_of_class x.1 /\ size_of_class x.1 <= SLAB_MAX_ENTRY).

(** Fields that allocation does not touch. *)
Definition kept_counts (g g' : globals) : Prop :=
  g_budget g' = g_budget g /\ g_ttl_entries g' = g_ttl_entries g /\
  g_revision g' = g_revision g /\ g_sweep_cursor g' = g_sweep_cursor g.

Lemma malloc_counts g ok g' : malloc g = (ok, g') ->
  kept_counts g g' /\ g_total_mem g' = g_total_mem g /\ g_allocated_mem g' = g_allocated_mem g.
Proof. unfold malloc. destruct (g_allocs g); intros; simplify_eq; done. Qed.

Lemma block_alloc_counts g size ok g' : block_alloc g size = (ok, g') ->
  kept_counts g g' /\ g_total_mem g' = g_total_mem g /\
  g_allocated_mem g' = if ok then u64 (g_allocated_mem g + size) else g_allocated_mem g.
Proof.
  unfold block_alloc. destruct (malloc g) as [b g1] eqn:E. apply malloc_counts in E as (K & E1 & E2).
  destruct b; intros; simplify_eq/=; rewrite ?E2; done.
Qed.

(** A slot carved from the current slab. *)
Lemma slab_carve live s cls m : slab_ok live s -> sh_slabs s <> 0%nat ->
  0 <= cls < zlen class_sz -> size_of_class cls <= sh_left s ->
  slab_ok ((cls, (Nat.pred (sh_slabs s), sh_cur s)) :: live)
    {| s with sh_cur := sh_cur s + size_of_class cls; sh_left := sh_left s - size_of_class cls;
              sh_mem := m |}.
Proof.
  intros [] Hs Hc Hl. destruct (sl_cur0 Hs) as [Hcur H8]. pose proof (size_pos cls Hc).
  set (x := (cls, (Nat.pred (sh_slabs s), sh_cur s))).
  match goal with |- slab_ok _ ?t => set (s' := t) end.
  assert (Hx : slot_ok s' x).
  { intros _. unfold x, s'. simpl. split_and!; try lia; try apply Hc. }
  constructor; simpl; try done; [lia|intros _; lia| |].
  - constructor; [done|]. eapply Forall_impl; [exact sl_slots0|]. intros y. apply slot_ok_more; simpl; lia.
  - change (concat (cells <$> (x :: (live ++ free_list s)))) with
      (concat (cells <$> (x :: live ++ free_list s))).
    apply cells_cons; [done|]. intros c y Hcx Hy Hcy.
    apply cells_in in Hcx as (_ & Ex & Bx). destruct (cells_in _ _ Hcy) as (Iy & Ey & By).
    rewrite Forall_forall in sl_slots0. destruct (sl_slots0 y Hy Iy) as (_ & _ & _ & _ & Hlim).
    unfold x in Ex, Bx. simpl in Ex, Bx. assert (S y.2.1 = sh_slabs s) by lia.
    specialize (Hlim H0). lia.
Qed.

Lemma slab_grow live s : slab_ok live s ->
  slab_ok live {| s with sh_slabs := S (sh_slabs s); sh_cur := SIZEOF_PTR;
                         sh_left := SLAB_SIZE - SIZEOF_PTR |}.
Proof.
  intros []. constructor; simpl; try done.
  eapply Forall_impl; [exact sl_slots0|]. intros y Hy. apply slot_ok_more with s; simpl; [lia|lia|done].
Qed.

Lemma slab_mem live s m : slab_ok live s -> slab_ok live {| s with sh_mem := m |}.
Proof. intros []. constructor; done. Qed.

(** What [entry_alloc] does. *)
Record alloc_spec (live : list slot) (s s' : shard) (g g' : globals) (total : Z) (x : slot) : Prop := {
  as_slab : slab_ok (x :: live) s';
  as_buckets : sh_buckets s' = sh_buckets s;
  as_count : sh_count s' = sh_count s;
  as_suits : suits x total;
  as_mem : sh_mem s' = u64 (sh_mem s + charge x total);
  as_total : g_total_mem g' = u64 (g_total_mem g + charge x total);
  as_kept : kept_counts g g' }.

Lemma entry_alloc_spec live s g total o s' g' : slab_ok live s ->
  entry_alloc s g total = (o, s', g') ->
  match o with
  | Some x => alloc_spec live s s' g g' total x
  | None => s' = s /\ kept_counts g g' /\ g_total_mem g' = g_total_mem g
  end.
Proof.
  intros Hs. unfold entry_alloc. destruct (Z.ltb_spec SLAB_MAX_ENTRY total) as [Ht|Ht].
  - destruct (block_alloc g total) as [ok g1] eqn:E. apply block_alloc_counts in E as (K & E1 & _).
    destruct ok; intros; simplify_eq; [|done]. constructor; simpl; try done.
    + destruct Hs. constructor; simpl; try done. by constructor.
    + by left.
    + by rewrite E1.
  - destruct (class_chosen total Ht) as (Hc & H1 & H2).
    set (cls := class_scan class_sz 0 total) in *.
    assert (Hi : forall p, in_slab (cls, p) = true).
    { intros p. unfold in_slab. simpl. change (zlen class_sz) with 27 in Hc. unfold DIRECT_CLS.
      destruct (Z.eqb_spec cls 65535); [lia|done]. }
    destruct (free_slots s cls) as [|p r] eqn:Ef.
    2:{ intros; simplify_eq. constructor; simpl; try done; unfold charge; rewrite ?Hi; try done.
        - exact (slab_mem _ _ _ (slab_pop _ _ _ _ _ Hs Ef Hc)).
        - by right. }
    unfold more_slab. destruct (Z.ltb_spec (sh_left s) (size_of_class cls)) as [Hl|Hl].
    + destruct (block_alloc g SLAB_SIZE) as [ok g1] eqn:E. apply block_alloc_counts in E as (K & E1 & _).
      destruct ok; intros; simplify_eq; [|done].
      constructor; simpl; try done; unfold charge; rewrite ?Hi; try done.
      * apply (slab_carve live _ cls _ (slab_grow _ _ Hs)); simpl; try done.
        unfold SLAB_MAX_ENTRY, SLAB_SIZE, SIZEOF_PTR in *. lia.
      * by right.
      * by rewrite E1.
    + intros; simplify_eq. constructor; simpl; try done; unfold charge; rewrite ?Hi; try done.
      * apply slab_carve; try done. intros E0. pose proof (sl_none _ _ Hs E0).
        pose proof (size_pos cls Hc). lia.
      * by right.
Qed.

Definition slot_of (e : cache_entry) : slot := (ce_cls e, ce_at e).

Lemma entry_free_spec live s g e s' g' : slab_ok (slot_of e :: live) s ->
  entry_free s g e = (s', g') ->
  slab_ok live s' /\ sh_buckets s' = sh_buckets s /\ sh_count s' = sh_count s /\
  sh_mem s' = u64 (sh_mem s - freed_size e) /\
  g_total_mem g' = u64 (g_total_mem g - freed_size e) /\
  g_ttl_entries g' = (if ce_exp e =? 0 then g_ttl_entries g else u64 (g_ttl_entries g - 1)) /\
  g_budget g' = g_budget g /\ g_revision g' = g_revision g /\ g_sweep_cursor g' = g_sweep_cursor g.
Proof.
  intros Hs. unfold entry_free. destruct (Z.eqb_spec (ce_cls e) DIRECT_CLS) as [Ed|Ed].
  - intros; simplify_eq. split.
    { apply slab_mem. destruct Hs. constructor; try done.
      - by apply Forall_cons in sl_slots0 as [_ ?].
      - revert sl_cells0. csimpl. unfold cells at 1, in_slab, slot_of. simpl. by rewrite Ed. }
    destruct (ce_exp e =? 0); done.
  - intros; simplify_eq. split.
    { apply (slab_mem _ (set_free s (ce_cls e) (ce_at e :: free_slots s (ce_cls e)))), slab_push; [done|]. pose proof (sl_slots _ _ Hs) as [H _]%Forall_cons.
      apply H. unfold in_slab. simpl. by destruct (Z.eqb_spec (ce_cls e) DIRECT_CLS). }
    destruct (ce_exp e =? 0); done.
Qed.

(** Releasing all slabs when nothing is in use. *)
Lemma slab_free_all_ok s g : slab_ok [] (shard_slab_free_all s g).1.
Proof.
  assert (E : free_list (shard_slab_free_all s g).1 = []) by (vm_compute; reflexivity).
  constructor; try done; rewrite E; simpl; constructor.
Qed.

End CacheSlab.
