(* ===== verification/CacheTable.v ===== *)
(** * One shard of the cache: the hash table

    The invariant of a shard: every entry is in the bucket of its hash, keys
    are distinct, the count is the number of entries, each entry fits its
    slot.  Each locked operation is described by what it does to the entries
    of the shard, up to their order. *)

From stdpp Require Import base numbers option list.
From S2P Require Import Prelude Cache CacheSlab.
Import Cache CacheSlab.

Module CacheTable.

(** ** Hashes *)

Lemma u32_fits' x : fits 32 (u32 x).
Proof. unfold fits, u32. apply Z.mod_pos_bound. done. Qed.

Lemma shiftr_fits w n x : 0 <= n -> fits w x -> fits w (Z.shiftr x n).
Proof.
  intros Hn [H0 H1]. split; [by apply Z.shiftr_nonneg|]. eapply Z.le_lt_trans; [|exact H1].
  rewrite Z.shiftr_div_pow2 by done. apply Z.div_le_upper_bound; [apply Z.pow_pos_nonneg; lia|].
  pose proof (Z.pow_pos_nonneg 2 n ltac:(lia) Hn). nia.
Qed.

(** A hash is a 32-bit word. *)
Lemma hash_key_fits key : fits 32 (hash_key key).
Proof.
  unfold hash_key, hash_finish.
  repeat first [apply fits_lxor; [lia| |] | apply shiftr_fits; [lia|] | apply u32_fits'].
Qed.

Lemma bucket_lt n k h : 0 <= k -> n = 2 ^ k -> (bucket_of n h < Z.to_nat n)%nat.
Proof.
  intros Hk ->. unfold bucket_of. rewrite land_pow2 by done.
  pose proof (Z.pow_pos_nonneg 2 k ltac:(lia) Hk).
  pose proof (Z.mod_pos_bound h (2 ^ k) ltac:(lia)). lia.
Qed.

(** ** Chains *)

Lemma is_entry_key h key e : is_entry h key e = true -> ce_key e = key /\ ce_hash e = h.
Proof. unfold is_entry. intros [?%Z.eqb_eq ?%bool_decide_eq_true]%andb_prop. auto. Qed.

(** The entry that a chain walk stops at. *)
Lemma find_entry_some h key l e : find_entry h key l = Some e -> exists r,
  l ≡ₚ e :: r /\ unlink_entry h key l ≡ₚ r /\ ce_key e = key /\ ce_hash e = h /\
  forall ne, replace_entry h key ne l ≡ₚ ne :: r.
Proof.
  induction l as [|x l IH]; simpl; [done|]. unfold find_entry in *. simpl.
  destruct (is_entry h key x) eqn:E.
  - intros [= <-]. exists l. apply is_entry_key in E as [? ?]. by split_and!.
  - intros (r & P1 & P2 & ? & ? & P3)%IH. exists (x :: r). split_and!; try done.
    + rewrite P1. apply Permutation_swap.
    + by rewrite P2.
    + intros ne. rewrite P3. apply Permutation_swap.
Qed.

Lemma find_entry_none h key l : find_entry h key l = None ->
  forall e, e ∈ l -> ce_key e = key -> ce_hash e <> h.
Proof.
  intros F e He%list_elem_of_In Hk Hh. pose proof (find_none _ _ F e He) as E.
  unfold is_entry in E. rewrite Hh, Z.eqb_refl, Hk, bool_decide_eq_true_2 in E; done.
Qed.

(** ** The invariant *)

(** Lengths and expiry are 32-bit words, as the C arguments are. *)
Definition words_ok (key value : bytes) (exp : Z) : Prop :=
  fits 32 (zlen key) /\ fits 32 (zlen value) /\ fits 32 exp.

(** An entry of shard [i]. *)
Record entry_ok (bits : Z) (i : nat) (e : cache_entry) : Prop := {
  eo_hash : ce_hash e = hash_key (ce_key e);
  eo_shard : Z.to_nat (Z.shiftr (ce_hash e) (32 - bits)) = i;
  eo_cls : ce_cls e = DIRECT_CLS \/ 0 <= ce_cls e < zlen class_sz;
  eo_fits : SIZEOF_ENTRY + zlen (ce_key e) + zlen (ce_value e) <= entry_capacity e;
  eo_words : words_ok (ce_key e) (ce_value e) (ce_exp e) }.

Definition placed (bs : list (list cache_entry)) : Prop :=
  forall b ch e, bs !! b = Some ch -> e ∈ ch -> bucket_of (zlen bs) (ce_hash e) = b.

Record shard_ok (bits : Z) (i : nat) (s : shard) : Prop := {
  so_size : exists k, 0 <= k /\ nbuckets s = 2 ^ k;
  so_place : placed (sh_buckets s);
  so_keys : NoDup (ce_key <$> shard_entries s);
  so_count : sh_count s = zlen (shard_entries s);
  so_entries : Forall (entry_ok bits i) (shard_entries s);
  so_slab : slab_ok (slot_of <$> shard_entries s) s }.

Lemma chain_lookup bits i s h : shard_ok bits i s ->
  sh_buckets s !! bucket_of (nbuckets s) h = Some (chain_at s (bucket_of (nbuckets s) h)).
Proof.
  intros Hs. destruct (so_size _ _ _ Hs) as (k & Hk & En). unfold chain_at.
  destruct (nth_lookup_or_length (sh_buckets s) (bucket_of (nbuckets s) h) []) as [E|E]; [done|].
  pose proof (bucket_lt _ k h Hk En). unfold nbuckets, zlen in *. lia.
Qed.

(** A key is looked for in the right bucket only. *)
Lemma find_entry_spec bits i s key : shard_ok bits i s ->
  match find_entry (hash_key key) key (chain_at s (bucket_of (nbuckets s) (hash_key key))) with
  | Some e => e ∈ shard_entries s /\ ce_key e = key
  | None => key ∉ ce_key <$> shard_entries s
  end.
Proof.
  intros Hs. pose proof (chain_lookup _ _ _ (hash_key key) Hs) as Hc.
  destruct (find_entry _ _ _) as [e|] eqn:F.
  - apply find_entry_some in F as (r & P & _ & Hk & _). split; [|done].
    apply elem_of_concat. eexists. split; [by eapply list_elem_of_lookup_2|].
    rewrite P. by left.
  - intros (e & Hk & He)%list_elem_of_fmap. pose proof (so_entries _ _ _ Hs) as Ho.
    rewrite Forall_forall in Ho. destruct (Ho e He) as [Hh _ _ _ _].
    apply elem_of_concat in He as (ch & Hch & He). apply list_elem_of_lookup in Hch as [b Hb].
    pose proof (so_place _ _ _ Hs b ch e Hb He) as Hp.
    assert (b = bucket_of (nbuckets s) (hash_key key)) as ->.
    { rewrite <- Hp, Hh, <- Hk. done. }
    rewrite Hc in Hb. injection Hb as <-.
    apply (find_entry_none _ _ _ F e He); [done|]. congruence.
Qed.

Lemma placed_insert bs b l : placed bs -> (b < length bs)%nat ->
  (forall e, e ∈ l -> bucket_of (zlen bs) (ce_hash e) = b) -> placed (<[b := l]> bs).
Proof.
  intros Hp Hb Hl b' ch e E He. unfold zlen. rewrite length_insert.
  destruct (decide (b = b')) as [<-|].
  - rewrite list_lookup_insert_eq in E by done. simplify_eq. by apply Hl.
  - rewrite list_lookup_insert_ne in E by done. by eapply Hp.
Qed.

(** Slab state alone decides [slab_ok]. *)
Lemma slab_same live s s' : sh_slabs s' = sh_slabs s -> sh_cur s' = sh_cur s ->
  sh_left s' = sh_left s -> sh_free s' = sh_free s -> slab_ok live s -> slab_ok live s'.
Proof.
  intros E1 E2 E3 E4 []. constructor; unfold free_list, slot_ok in *; rewrite ?E1, ?E2, ?E3, ?E4; done.
Qed.

(** The entries of the shard when one chain changes. *)
Lemma set_chain_entries bits i s h : shard_ok bits i s -> exists rest,
  shard_entries s ≡ₚ chain_at s (bucket_of (nbuckets s) h) ++ rest /\
  forall l, shard_entries (set_chain s (bucket_of (nbuckets s) h) l) ≡ₚ l ++ rest.
Proof.
  intros Hs. destruct (concat_insert _ _ _ (chain_lookup _ _ _ h Hs)) as (rest & P1 & P2).
  exists rest. split; [done|]. intros l. apply P2.
Qed.

(** ** Resizing *)

Lemma concat_alter_cons {A} (x : A) b (ls : list (list A)) : (b < length ls)%nat ->
  concat (alter (cons x) b ls) ≡ₚ x :: concat ls.
Proof.
  revert b. induction ls as [|l ls IH]; intros b H; [simpl in H; lia|].
  destruct b as [|b]; [done|]. change (alter (cons x) (S b) (l :: ls)) with (l :: alter (cons x) b ls).
  cbn [concat]. rewrite IH by (simpl in H; lia). by rewrite Permutation_middle.
Qed.

Lemma rehash_loop n es : forall nb, n = zlen nb -> (exists k, 0 <= k /\ n = 2 ^ k) -> placed nb ->
  let nb' := fold_left (fun nb e => alter (cons e) (bucket_of n (ce_hash e)) nb) es nb in
  zlen nb' = n /\ placed nb' /\ concat nb' ≡ₚ es ++ concat nb.
Proof.
  induction es as [|e es IH]; intros nb Hn Hk Hp; simpl; [done|].
  assert (Hb : (bucket_of n (ce_hash e) < length nb)%nat).
  { destruct Hk as (k & Hk & En). pose proof (bucket_lt n k (ce_hash e) Hk En).
    unfold zlen in Hn. lia. }
  destruct (IH (alter (cons e) (bucket_of n (ce_hash e)) nb)) as (H1 & H2 & H3).
  - by rewrite zlen_alter.
  - done.
  - intros b ch x E Hx. rewrite zlen_alter, <- Hn. rewrite list_lookup_alter in E.
    destruct (decide (bucket_of n (ce_hash e) = b)) as [Eb|].
    + apply fmap_Some in E as (ch0 & E0 & ->). apply elem_of_cons in Hx as [->|Hx]; [done|].
      subst b. pose proof (Hp _ _ _ E0 Hx) as Q. by rewrite <- Hn in Q.
    + pose proof (Hp _ _ _ E Hx) as Q. by rewrite <- Hn in Q.
  - split_and!; try done. rewrite H3, concat_alter_cons by done. by rewrite <- Permutation_middle.
Qed.

(** A step of a shard under its lock, as the shared counters see it. *)
Definition ttl_count (es : list cache_entry) : Z := cnt (fun e => negb (ce_exp e =? 0)) es.

Record counted (s s' : shard) (g g' : globals) : Prop := {
  ct_ttl : forall t, g_ttl_entries g = u64 t ->
    g_ttl_entries g' = u64 (t + ttl_count (shard_entries s') - ttl_count (shard_entries s));
  ct_total : forall m, g_total_mem g = u64 m -> g_total_mem g' = u64 (m + sh_mem s' - sh_mem s);
  ct_budget : g_budget g' = g_budget g }.

Lemma counted_same s s' g g' : shard_entries s' ≡ₚ shard_entries s -> sh_mem s' = sh_mem s ->
  kept_counts g g' -> g_total_mem g' = g_total_mem g -> counted s s' g g'.
Proof.
  intros P M (K1 & K2 & K3 & K4) T. constructor; try done.
  - intros t Ht. unfold ttl_count. rewrite (cnt_perm _ _ _ P), K2, Ht. f_equal. lia.
  - intros m Hm. rewrite T, M, Hm. f_equal. lia.
Qed.

Lemma counted_trans s1 s2 s3 g1 g2 g3 : counted s1 s2 g1 g2 -> counted s2 s3 g2 g3 ->
  counted s1 s3 g1 g3.
Proof.
  intros [A1 A2 A3] [B1 B2 B3]. constructor; [| |congruence].
  - intros t Ht. rewrite (B1 _ (A1 t Ht)). f_equal. lia.
  - intros m Hm. rewrite (B2 _ (A2 m Hm)). f_equal. lia.
Qed.

Lemma u64_shift m x d : u64 (m + u64 (x + d) - x) = u64 (m + d).
Proof.
  replace (m + u64 (x + d) - x) with (u64 (x + d) + (m - x)) by lia.
  rewrite u64_add_l. f_equal. lia.
Qed.

Lemma maybe_resize_spec bits i s g s' g' : shard_ok bits i s -> maybe_resize s g = (s', g') ->
  shard_ok bits i s' /\ shard_entries s' ≡ₚ shard_entries s /\ counted s s' g g'.
Proof.
  intros Hs. unfold maybe_resize. destruct (sh_count s <=? nbuckets s * 2).
  { intros; simplify_eq. split; [done|]. split; [done|]. by apply counted_same. }
  destruct (block_alloc g _) as [ok g1] eqn:E. apply block_alloc_counts in E as (K & T & _).
  destruct ok; simpl; intros; simplify_eq.
  2:{ split; [done|]. split; [done|]. by apply counted_same. }
  destruct (so_size _ _ _ Hs) as (k & Hk & En). set (n := nbuckets s * 2).
  assert (Hn : exists k, 0 <= k /\ n = 2 ^ k).
  { exists (Z.succ k). split; [lia|]. unfold n. rewrite En, Z.pow_succ_r by done. lia. }
  assert (Hpos : 0 <= n) by (destruct Hn as (? & ? & ->); by apply Z.pow_nonneg).
  destruct (rehash_loop n (shard_entries s) (replicate (Z.to_nat n) [])) as (H1 & H2 & H3).
  { unfold zlen. rewrite length_replicate. lia. }
  { done. }
  { intros b ch e [-> _]%lookup_replicate He. by apply not_elem_of_nil in He. }
  rewrite concat_replicate_nil, app_nil_r in H3.
  change (zlen (rehash_into n (sh_buckets s)) = n) in H1.
  change (placed (rehash_into n (sh_buckets s))) in H2.
  assert (P : concat (rehash_into n (sh_buckets s)) ≡ₚ shard_entries s) by exact H3.
  split; [|split; [exact P|]].
  - destruct Hs. constructor; unfold shard_entries, nbuckets in *; simpl; rewrite ?P; try done.
    + by rewrite H1.
    + rewrite so_count0. unfold zlen. by rewrite P.
    + eapply slab_ok_perm; [by rewrite P|]. by eapply slab_same; [..|exact so_slab0].
  - destruct K as (K1 & K2 & K3 & K4). constructor; simpl; [| |done].
    + intros t Ht. unfold ttl_count. rewrite (cnt_perm _ _ _ P), K2, Ht. f_equal.
      unfold shard_entries. simpl. fold (shard_entries s). lia.
    + intros m Hm. rewrite T, Hm, u64_add_l, u64_shift. done.
Qed.

(** ** Removal *)

Lemma iter_allocated n d g :
  kept_counts g (Nat.iter n (add_allocated d) g) /\
  g_total_mem (Nat.iter n (add_allocated d) g) = g_total_mem g.
Proof. induction n as [|n [(I1 & I2 & I3 & I4) IT]]; [done|]. simpl. by split_and!. Qed.

(** Entry [e] leaves its chain [ch], which becomes [l]. *)
Lemma remove_locked_spec bits i s g b ch l e s' g' : shard_ok bits i s ->
  sh_buckets s !! b = Some ch -> ch ≡ₚ e :: l -> remove_locked s g b l e = (s', g') ->
  shard_ok bits i s' /\ shard_entries s ≡ₚ e :: shard_entries s' /\
  sh_buckets s' = <[b := l]> (sh_buckets s) /\ counted s s' g g'.
Proof.
  intros Hs Hb Pch. unfold remove_locked.
  destruct (concat_insert _ _ _ Hb) as (rest & P1 & P2). specialize (P2 l).
  assert (PE : shard_entries s ≡ₚ e :: l ++ rest) by (unfold shard_entries; by rewrite P1, Pch).
  destruct (entry_free (set_chain s b l) g e) as [s1 g1] eqn:E.
  assert (Hsl : slab_ok (slot_of e :: (slot_of <$> (l ++ rest))) (set_chain s b l)).
  { apply (slab_same _ s); [done..|]. eapply slab_ok_perm; [|apply (so_slab _ _ _ Hs)]. by rewrite PE. }
  destruct (entry_free_spec _ _ _ _ _ _ Hsl E) as (S1 & B1 & C1 & M1 & T1 & L1 & G1 & _).
  set (s2 := {| s1 with sh_count := sh_count s1 - 1 |}).
  assert (P : shard_entries s2 ≡ₚ l ++ rest).
  { unfold shard_entries. simpl. rewrite B1. exact P2. }
  assert (Hs2 : shard_ok bits i s2).
  { destruct Hs. constructor.
    - unfold nbuckets. simpl. rewrite B1. simpl. unfold zlen. by rewrite length_insert.
    - simpl. rewrite B1. simpl. apply placed_insert; [done|by eapply lookup_lt_Some|].
      intros x Hx. eapply so_place0; [exact Hb|]. rewrite Pch. by right.
    - rewrite P. rewrite PE in so_keys0. by apply NoDup_cons in so_keys0 as [_ ?].
    - simpl. rewrite C1. simpl. rewrite so_count0. unfold zlen. rewrite P, PE. simpl. lia.
    - rewrite P. rewrite PE in so_entries0. by apply Forall_cons in so_entries0 as [_ ?].
    - eapply slab_ok_perm; [by rewrite P|]. by eapply slab_same; [..|exact S1]. }
  assert (K : counted s s2 g g1).
  { constructor; [| |done].
    - intros t Ht. unfold ttl_count. rewrite (cnt_perm _ _ _ P), (cnt_perm _ _ _ PE), L1.
      unfold cnt. simpl. rewrite Ht. destruct (ce_exp e =? 0); simpl; rewrite ?u64_sub_l; f_equal; lia.
    - intros m Hm. simpl. rewrite T1, M1, Hm. simpl. rewrite u64_sub_l.
      rewrite <- Z.add_opp_r with (n := sh_mem s). rewrite u64_shift. f_equal. }
  destruct (sh_count s2 =? 0) eqn:E0; intros; simplify_eq.
  2:{ split_and!; [done|by rewrite P| |done]. simpl. by rewrite B1. }
  apply Z.eqb_eq in E0. assert (Hnil : shard_entries s2 = []).
  { rewrite (so_count _ _ _ Hs2) in E0. unfold zlen in E0.
    destruct (shard_entries s2); [done|simpl in E0; lia]. }
  assert (Hnil' : shard_entries (shard_slab_free_all s2 g1).1 = []) by exact Hnil.
  simpl in *. injection H as <- <-. destruct (iter_allocated (sh_slabs s2) (- SLAB_SIZE) g1) as [K' T'].
  split_and!.
  - destruct Hs2. constructor; try done. rewrite Hnil'. apply (slab_free_all_ok s2 g1).
  - rewrite Hnil' , PE, <- P, Hnil. done.
  - by rewrite B1.
  - eapply counted_trans; [exact K|]. by apply counted_same.
Qed.

(** ** Writing *)

(** The key is stored; nothing else changed. *)
Definition stored (s s' : shard) (key value : bytes) (exp : Z) : Prop := exists ne rest,
  ce_key ne = key /\ ce_value ne = value /\ ce_exp ne = exp /\
  shard_entries s' ≡ₚ ne :: rest /\
  (shard_entries s ≡ₚ rest /\ key ∉ ce_key <$> rest \/
   exists e, ce_key e = key /\ shard_entries s ≡ₚ e :: rest).

Lemma new_entry_ok bits i key value exp x :
  Z.to_nat (Z.shiftr (hash_key key) (32 - bits)) = i ->
  suits x (SIZEOF_ENTRY + zlen key + zlen value) -> words_ok key value exp ->
  entry_ok bits i (new_entry (hash_key key) key value exp x).
Proof.
  intros Hi Hx Hw. constructor; simpl; try done; unfold entry_capacity; simpl.
  - destruct Hx as [[? _]|[? _]]; auto.
  - destruct Hx as [[-> _]|(Hc & H & _)]; [done|]. change (zlen class_sz) with 27 in Hc.
    unfold DIRECT_CLS. destruct (Z.eqb_spec x.1 65535); [lia|done].
Qed.

(** Replacing the chain of a key by one with [ne] in place of [e]. *)
Lemma replaced_ok bits i s s' b ch l e ne rest : shard_ok bits i s ->
  sh_buckets s !! b = Some ch -> ch ≡ₚ e :: rest -> l ≡ₚ ne :: rest ->
  ce_key ne = ce_key e -> ce_hash ne = ce_hash e -> entry_ok bits i ne ->
  sh_buckets s' = <[b := l]> (sh_buckets s) -> sh_count s' = sh_count s ->
  (forall r, shard_entries s ≡ₚ e :: r -> slab_ok (slot_of <$> ne :: r) s') ->
  shard_ok bits i s' /\ exists r, shard_entries s ≡ₚ e :: r /\ shard_entries s' ≡ₚ ne :: r.
Proof.
  intros Hs Hb P1 P2 Hk Hh Hne B C Hsl. destruct (concat_insert _ _ _ Hb) as (rs & Q1 & Q2).
  specialize (Q2 l). assert (PE : shard_entries s ≡ₚ e :: rest ++ rs).
  { unfold shard_entries. by rewrite Q1, P1. }
  assert (PE' : shard_entries s' ≡ₚ ne :: rest ++ rs).
  { unfold shard_entries. by rewrite B, Q2, P2. }
  split; [|eauto]. destruct Hs. constructor.
  - unfold nbuckets, zlen. by rewrite B, length_insert.
  - rewrite B. apply placed_insert; [done|by eapply lookup_lt_Some|].
    intros x Hx. rewrite P2 in Hx. apply elem_of_cons in Hx as [->|Hx].
    + rewrite Hh. eapply so_place0; [exact Hb|]. rewrite P1. by left.
    + eapply so_place0; [exact Hb|]. rewrite P1. by right.
  - rewrite PE'. rewrite PE in so_keys0. csimpl in *. by rewrite Hk.
  - rewrite C, so_count0. unfold zlen. by rewrite PE, PE'.
  - rewrite PE'. rewrite PE in so_entries0. apply Forall_cons in so_entries0 as [_ ?].
    by constructor.
  - eapply slab_ok_perm; [by rewrite PE'|]. by apply Hsl.
Qed.

Lemma put_in_place_spec bits i s g key value exp e : shard_ok bits i s ->
  let h := hash_key key in let b := bucket_of (nbuckets s) h in
  find_entry h key (chain_at s b) = Some e ->
  SIZEOF_ENTRY + zlen key + zlen value <= entry_capacity e -> words_ok key value exp ->
  let ne := {| e with ce_value := value; ce_exp := exp |} in
  let s' := set_chain s b (replace_entry h key ne (chain_at s b)) in
  let g' := if (ce_exp e =? 0) && negb (exp =? 0) then add_ttl 1 g
            else if negb (ce_exp e =? 0) && (exp =? 0) then add_ttl (-1) g else g in
  shard_ok bits i s' /\ stored s s' key value exp /\ counted s s' g (bump_revision g').
Proof.
  intros Hs h b F Hc Hw ne s' g'. pose proof (chain_lookup _ _ _ h Hs) as Hb. fold b in Hb.
  apply find_entry_some in F as (rest & P1 & _ & Hk & Hh & P2). specialize (P2 ne).
  assert (He : e ∈ shard_entries s).
  { apply elem_of_concat. eexists. split; [by eapply list_elem_of_lookup_2|]. rewrite P1. by left. }
  pose proof (so_entries _ _ _ Hs) as Ho. rewrite Forall_forall in Ho.
  destruct (Ho e He) as [E1 E2 E3 E4 _].
  assert (Hne : entry_ok bits i ne).
  { constructor; try done.
    - unfold entry_capacity in *. simpl. rewrite Hk. destruct (ce_cls e =? DIRECT_CLS); [lia|done].
    - simpl. by rewrite Hk. }
  destruct (replaced_ok bits i s s' b _ _ e ne rest Hs Hb P1 P2) as (Hs' & r & R1 & R2); try done.
  { intros r R. apply (slab_same _ s); [done..|]. eapply slab_ok_perm; [|apply (so_slab _ _ _ Hs)].
    rewrite R. done. }
  split; [done|]. split.
  - exists ne, r. split_and!; try done. right. eauto.
  - constructor.
    + intros t Ht. unfold ttl_count. rewrite (cnt_perm _ _ _ R1), (cnt_perm _ _ _ R2).
      unfold cnt. simpl. unfold g'. destruct (ce_exp e =? 0) eqn:X1, (exp =? 0) eqn:X2; simpl;
        rewrite ?X1, ?X2; simpl; rewrite ?Ht, ?u64_add_l; f_equal; lia.
    + intros m Hm. simpl. replace (g_total_mem g') with (g_total_mem g); [rewrite Hm; f_equal; lia|].
      unfold g'. repeat gcase; done.
    + unfold g'. simpl. repeat gcase; done.
Qed.

(** The counters across an allocation, and across a change of the entries. *)
Lemma add_ttl_if (exp : Z) g : let g' := if exp =? 0 then g else add_ttl 1 g in
  (forall t, g_ttl_entries g = u64 t -> g_ttl_entries g' = u64 (t + Z.b2z (negb (exp =? 0)))) /\
  g_total_mem g' = g_total_mem g /\ g_budget g' = g_budget g.
Proof.
  simpl. destruct (exp =? 0); simpl; (split; [|done]); intros t ->; rewrite ?u64_add_l; f_equal; lia.
Qed.

Lemma put_replace_spec bits i s g key value exp e x s1 g1 : shard_ok bits i s ->
  words_ok key value exp ->
  let h := hash_key key in let b := bucket_of (nbuckets s) h in
  find_entry h key (chain_at s b) = Some e ->
  entry_alloc s g (SIZEOF_ENTRY + zlen key + zlen value) = (Some x, s1, g1) ->
  let s2 := set_chain s1 b (replace_entry h key (new_entry h key value exp x) (chain_at s b)) in
  forall s' g', entry_free s2 (if exp =? 0 then g1 else add_ttl 1 g1) e = (s', g') ->
  shard_ok bits i s' /\ stored s s' key value exp /\ counted s s' g (bump_revision g').
Proof.
  intros Hs Hw h b F EA s2 s' g' EF. pose proof (chain_lookup _ _ _ h Hs) as Hb. fold b in Hb.
  apply find_entry_some in F as (rest & P1 & _ & Hk & Hh & P2).
  set (ne := new_entry h key value exp x) in *. specialize (P2 ne).
  destruct (entry_alloc_spec _ _ _ _ _ _ _ (so_slab _ _ _ Hs) EA) as [A1 A2 A3 A4 A5 A6 (A7 & A8 & _)].
  assert (He : e ∈ shard_entries s).
  { apply elem_of_concat. eexists. split; [by eapply list_elem_of_lookup_2|]. rewrite P1. by left. }
  pose proof (so_entries _ _ _ Hs) as Ho. rewrite Forall_forall in Ho.
  destruct (Ho e He) as [E1 E2 _ _ _].
  assert (Hne : entry_ok bits i ne).
  { apply new_entry_ok; [|done|done]. unfold h in Hh. by rewrite Hh in E2. }
  destruct (add_ttl_if exp g1) as (G1 & G2 & G3).
  set (g2 := if exp =? 0 then g1 else add_ttl 1 g1) in *. clearbody g2.
  assert (Hfree : forall r, shard_entries s ≡ₚ e :: r -> slab_ok (slot_of e :: (slot_of <$> ne :: r)) s2).
  { intros r R. apply (slab_same _ s1); [done..|]. eapply slab_ok_perm; [|exact A1].
    rewrite R. csimpl. unfold slot_of at 3. simpl. destruct x as [xc xa]. apply Permutation_swap. }
  assert (Hr : exists r, shard_entries s ≡ₚ e :: r).
  { apply elem_of_Permutation in He as [r Hr]. eauto. }
  destruct Hr as [r0 R0].
  destruct (entry_free_spec _ _ _ _ _ _ (Hfree r0 R0) EF) as (_ & B1 & C1 & M1 & T1 & L1 & U1 & _).
  destruct (replaced_ok bits i s s' b _ _ e ne rest Hs Hb P1 P2) as (Hs' & r & R1 & R2); try done.
  { by rewrite B1; unfold s2; simpl; rewrite A2. }
  { rewrite C1. exact A3. }
  { intros r R. by apply (entry_free_spec _ _ _ _ _ _ (Hfree r R) EF). }
  split; [done|]. split.
  - exists ne, r. split_and!; try done. right. eauto.
  - constructor.
    + intros t Ht. rewrite <- A8 in Ht. apply G1 in Ht. unfold ttl_count.
      rewrite (cnt_perm _ _ _ R1), (cnt_perm _ _ _ R2). unfold cnt. simpl. rewrite L1, Ht.
      destruct (ce_exp e =? 0); simpl; rewrite ?u64_sub_l; f_equal; lia.
    + intros m Hm. simpl. rewrite T1, M1, G2, A6, Hm. unfold s2. simpl. rewrite A5.
      set (d := charge x _). rewrite !u64_sub_l.
      replace (u64 m + d - freed_size e) with (u64 m + (d - freed_size e)) by lia.
      replace (sh_mem s + d - freed_size e) with (sh_mem s + (d - freed_size e)) by lia.
      by rewrite u64_add_l, u64_shift.
    + simpl. congruence.
Qed.

Lemma put_insert_spec bits i s g key value exp x s1 g1 : shard_ok bits i s ->
  words_ok key value exp ->
  let h := hash_key key in let b := bucket_of (nbuckets s) h in
  Z.to_nat (Z.shiftr h (32 - bits)) = i ->
  find_entry h key (chain_at s b) = None ->
  entry_alloc s g (SIZEOF_ENTRY + zlen key + zlen value) = (Some x, s1, g1) ->
  let s2 := set_chain s1 b (new_entry h key value exp x :: chain_at s b) in
  let s3 := {| s2 with sh_count := sh_count s2 + 1 |} in
  let g2 := if exp =? 0 then g1 else add_ttl 1 g1 in
  shard_ok bits i s3 /\ stored s s3 key value exp /\ counted s s3 g g2.
Proof.
  intros Hs Hw h b Hi F EA s2 s3 g2. pose proof (chain_lookup _ _ _ h Hs) as Hb. fold b in Hb.
  set (ne := new_entry h key value exp x) in *.
  destruct (entry_alloc_spec _ _ _ _ _ _ _ (so_slab _ _ _ Hs) EA) as [A1 A2 A3 A4 A5 A6 (A7 & A8 & _)].
  pose proof (find_entry_spec _ _ _ key Hs) as Hno. fold h b in Hno. rewrite F in Hno.
  destruct (concat_insert _ _ _ Hb) as (rs & Q1 & Q2). specialize (Q2 (ne :: chain_at s b)).
  assert (PE : shard_entries s3 ≡ₚ ne :: shard_entries s).
  { unfold shard_entries. simpl. by rewrite A2, Q2, Q1. }
  destruct (add_ttl_if exp g1) as (G1 & G2 & G3). fold g2 in G1, G2, G3. clearbody g2.
  split; [|split].
  - destruct Hs. constructor.
    + unfold nbuckets, zlen. simpl. by rewrite A2, length_insert.
    + simpl. rewrite A2. apply placed_insert; [done|by eapply lookup_lt_Some|].
      intros y [->|Hy]%elem_of_cons; [done|]. by eapply so_place0.
    + rewrite PE. csimpl. apply NoDup_cons. by split.
    + simpl. rewrite A3, so_count0. unfold zlen. rewrite PE. simpl. lia.
    + rewrite PE. constructor; [|done]. by apply new_entry_ok.
    + eapply slab_ok_perm; [by rewrite PE|]. apply (slab_same _ s1); [done..|].
      csimpl. unfold slot_of at 1. simpl. by destruct x.
  - exists ne, (shard_entries s). split_and!; try done. by left.
  - constructor.
    + intros t Ht. rewrite <- A8 in Ht. apply G1 in Ht. unfold ttl_count.
      rewrite (cnt_perm _ _ _ PE). unfold cnt. simpl. rewrite Ht. f_equal. lia.
    + intros m Hm. rewrite G2, A6, Hm, u64_add_l. unfold s3. simpl. rewrite A5, u64_shift. done.
    + congruence.
Qed.

(** [kuttidb_put_abs] under the lock of the key's shard. *)
Lemma put_locked_spec bits i s g key value exp r s' g' : shard_ok bits i s ->
  words_ok key value exp ->
  Z.to_nat (Z.shiftr (hash_key key) (32 - bits)) = i ->
  put_locked s g (hash_key key) key value exp = (r, s', g') ->
  shard_ok bits i s' /\ counted s s' g g' /\
  match r with
  | PutFailed => s' = s
  | _ => stored s s' key value exp
  end.
Proof.
  intros Hs Hw Hi. unfold put_locked. set (h := hash_key key). set (b := bucket_of (nbuckets s) h).
  destruct (find_entry h key (chain_at s b)) as [e|] eqn:F.
  - destruct (Z.leb_spec (SIZEOF_ENTRY + zlen key + zlen value) (entry_capacity e)).
    { intros [= <- <- <-].
      destruct (put_in_place_spec bits i s g key value exp e Hs F) as (? & ? & ?); done. }
    destruct (entry_alloc s g _) as [[o s1] g1] eqn:EA. destruct o as [x|].
    2:{ apply (entry_alloc_spec _ _ _ _ _ _ _ (so_slab _ _ _ Hs)) in EA as (-> & K & T).
        intros [= <- <- <-]. split; [done|]. split; [|done]. by apply counted_same. }
    destruct (entry_free _ _ e) as [s2 g2] eqn:EF. intros [= <- <- <-].
    destruct (put_replace_spec bits i s g key value exp e x s1 g1 Hs Hw F EA _ _ EF) as (? & ? & ?). done.
  - destruct (entry_alloc s g _) as [[o s1] g1] eqn:EA. destruct o as [x|].
    2:{ apply (entry_alloc_spec _ _ _ _ _ _ _ (so_slab _ _ _ Hs)) in EA as (-> & K & T).
        intros [= <- <- <-]. split; [done|]. split; [|done]. by apply counted_same. }
    destruct (put_insert_spec bits i s g key value exp x s1 g1 Hs Hw Hi F EA) as (S1 & S2 & S3).
    fold h b in S1, S2, S3. destruct (maybe_resize _ _) as [s4 g4] eqn:ER. intros [= <- <- <-].
    destruct (maybe_resize_spec _ _ _ _ _ _ S1 ER) as (R1 & R2 & R3).
    split; [done|]. split.
    + pose proof (counted_trans _ _ _ _ _ _ S3 R3) as []. by constructor.
    + destruct S2 as (ne & rest & ? & ? & ? & P & ?). exists ne, rest. split_and!; try done.
      by rewrite R2.
Qed.

End CacheTable.
