(* ===== verification/CacheMap.v ===== *)
(** * The cache as a finite map

    The invariant of the whole cache, its contents as a map from keys to
    values and expiry times, and what each operation does to that map. *)

From stdpp Require Import base numbers option list gmap.
From S2P Require Import Prelude Cache CacheSlab CacheTable.
Import Cache CacheSlab CacheTable.

Module CacheMap.

(** ** The invariant *)

Record db_ok (c : kuttidb) : Prop := {
  do_bits : 1 <= db_shard_bits c <= 32;
  do_len : nshards c = 2 ^ db_shard_bits c;
  do_shards : forall i s, db_shards c !! i = Some s -> shard_ok (db_shard_bits c) i s;
  do_ttl : g_ttl_entries (db_g c) = u64 (ttl_count (all_entries c));
  do_total : g_total_mem (db_g c) = u64 (zsum sh_mem (db_shards c)) }.

(** The shard of every hash exists. *)
Lemma shard_lookup c h : db_ok c -> fits 32 h -> exists s,
  db_shards c !! shard_for c h = Some s /\
  Z.to_nat (Z.shiftr h (32 - db_shard_bits c)) = shard_for c h.
Proof.
  intros [B L _ _ _] [H0 H1]. assert (Hlt : (shard_for c h < length (db_shards c))%nat).
  { unfold shard_for, nshards, zlen in *. rewrite Z.shiftr_div_pow2 by lia.
    assert (h / 2 ^ (32 - db_shard_bits c) < 2 ^ db_shard_bits c).
    { apply Z.div_lt_upper_bound; [apply Z.pow_pos_nonneg; lia|].
      rewrite <- Z.pow_add_r by lia. by replace (32 - db_shard_bits c + db_shard_bits c) with 32 by lia. }
    pose proof (Z.div_pos h (2 ^ (32 - db_shard_bits c)) H0 ltac:(apply Z.pow_pos_nonneg; lia)). lia. }
  apply lookup_lt_is_Some_2 in Hlt as [s Hs]. by exists s.
Qed.

Lemma zsum_insert {A} (f : A -> Z) l i x y : l !! i = Some x ->
  zsum f (<[i := y]> l) = zsum f l - f x + f y.
Proof.
  revert i. induction l as [|z l IH]; intros [|i] E; simplify_eq/=; [lia|]. rewrite (IH i E). lia.
Qed.

(** A step of shard [i]. *)
Lemma set_shard_ok c i s s' g : db_ok c -> db_shards c !! i = Some s ->
  shard_ok (db_shard_bits c) i s' -> counted s s' (db_g c) g ->
  db_ok (set_shard c i s' g) /\ g_budget g = g_budget (db_g c) /\ exists rest,
    all_entries c ≡ₚ shard_entries s ++ rest /\
    all_entries (set_shard c i s' g) ≡ₚ shard_entries s' ++ rest.
Proof.
  intros [B L S T M] Hi Hs' [C1 C2 C3].
  assert (Hi' : (shard_entries <$> db_shards c) !! i = Some (shard_entries s))
    by (by rewrite list_lookup_fmap, Hi).
  destruct (concat_insert _ _ _ Hi') as (rest & P1 & P2). specialize (P2 (shard_entries s')).
  assert (Q : all_entries (set_shard c i s' g) ≡ₚ shard_entries s' ++ rest).
  { unfold all_entries. simpl. by rewrite list_fmap_insert. }
  split; [|split; [done|eauto]]. constructor; simpl; try done.
  - unfold nshards, zlen in *. simpl. by rewrite length_insert.
  - intros j sj Hj. destruct (decide (i = j)) as [<-|].
    + rewrite list_lookup_insert_eq in Hj by (by eapply lookup_lt_Some). by simplify_eq.
    + rewrite list_lookup_insert_ne in Hj by done. by apply S.
  - rewrite (C1 _ T). f_equal. unfold ttl_count. rewrite (cnt_perm _ _ _ Q), !cnt_app.
    unfold all_entries. rewrite (cnt_perm _ _ _ P1), cnt_app. lia.
  - rewrite (C2 _ M), (zsum_insert _ _ _ _ _ Hi). f_equal. lia.
Qed.

(** ** Contents *)

Abbreviation cmap := (gmap (list Z) (bytes * Z)).

Definition kv (e : cache_entry) : list Z * (bytes * Z) := (ce_key e, (ce_value e, ce_exp e)).
Definition map_of (es : list cache_entry) : cmap := list_to_map (kv <$> es).
Definition contents (c : kuttidb) : cmap := map_of (all_entries c).

Lemma kv_keys es : (kv <$> es).*1 = ce_key <$> es.
Proof. by rewrite <- list_fmap_compose. Qed.

Lemma map_of_perm es es' : NoDup (ce_key <$> es) -> es ≡ₚ es' -> map_of es = map_of es'.
Proof.
  intros Hn P. apply list_to_map_proper; [by rewrite kv_keys|]. by rewrite P.
Qed.

Lemma map_of_none es k : k ∉ ce_key <$> es -> map_of es !! k = None.
Proof. intros H. apply not_elem_of_list_to_map. by rewrite kv_keys. Qed.

Lemma map_of_some es e : NoDup (ce_key <$> es) -> e ∈ es ->
  map_of es !! ce_key e = Some (ce_value e, ce_exp e).
Proof.
  intros Hn He. apply elem_of_list_to_map; [by rewrite kv_keys|].
  apply list_elem_of_fmap. by exists e.
Qed.

Lemma NoDup_concat_indexed {A} (f : A -> nat) (ls : list (list A)) : forall base,
  (forall i l x, ls !! i = Some l -> x ∈ l -> f x = (base + i)%nat) ->
  (forall l, l ∈ ls -> NoDup l) -> NoDup (concat ls).
Proof.
  induction ls as [|l ls IH]; intros base Hf Hn; simpl; [apply NoDup_nil_2|].
  apply NoDup_app. split; [apply Hn; by left|]. split.
  - intros x Hx (l' & Hl' & Hx')%elem_of_concat. apply list_elem_of_lookup in Hl' as [i Hi].
    pose proof (Hf 0%nat l x eq_refl Hx). pose proof (Hf (S i) l' x Hi Hx'). lia.
  - apply (IH (S base)).
    + intros i l' x Hi Hx. rewrite (Hf (S i) l' x Hi Hx). lia.
    + intros l' Hl'. apply Hn. by right.
Qed.

Lemma fmap_entries {B} (f : cache_entry -> B) ss :
  f <$> concat (shard_entries <$> ss) = concat ((fun s => f <$> shard_entries s) <$> ss).
Proof. induction ss as [|s ss IH]; [done|]. csimpl. by rewrite fmap_app, IH. Qed.

(** No key is stored twice. *)
Lemma all_keys c : db_ok c -> NoDup (ce_key <$> all_entries c).
Proof.
  intros [B L S _ _]. unfold all_entries.
  rewrite fmap_entries. apply (NoDup_concat_indexed
    (fun k => Z.to_nat (Z.shiftr (hash_key k) (32 - db_shard_bits c))) _ 0%nat).
  - intros i l k Hi Hk. rewrite list_lookup_fmap in Hi. apply fmap_Some in Hi as (s & Hs & ->).
    apply list_elem_of_fmap in Hk as (e & -> & He). pose proof (so_entries _ _ _ (S i s Hs)) as Ho.
    rewrite Forall_forall in Ho. destruct (Ho e He) as [Hh <- _ _ _]. by rewrite Hh.
  - intros l (s & -> & Hs)%list_elem_of_fmap. apply list_elem_of_lookup in Hs as [i Hi].
    by apply (S i s).
Qed.

(** An entry was removed. *)
Lemma contents_remove c c' e : db_ok c -> all_entries c ≡ₚ e :: all_entries c' ->
  contents c' = delete (ce_key e) (contents c).
Proof.
  intros Hc P. pose proof (all_keys c Hc) as Hn. unfold contents.
  rewrite (map_of_perm _ _ Hn P). rewrite P in Hn. csimpl in Hn. apply NoDup_cons in Hn as [Hx _].
  unfold map_of at 2. csimpl. change (list_to_map (kv <$> all_entries c')) with (map_of (all_entries c')).
  simpl. rewrite delete_insert_id; [done|]. by apply map_of_none.
Qed.

(** The key was stored in shard [i]. *)
Lemma contents_stored c i s s' g key value exp : db_ok c -> db_shards c !! i = Some s ->
  shard_ok (db_shard_bits c) i s' -> counted s s' (db_g c) g -> stored s s' key value exp ->
  contents (set_shard c i s' g) = <[key := (value, exp)]> (contents c).
Proof.
  intros Hc Hi Hs' K (ne & rest & <- & <- & <- & P & Hold).
  destruct (set_shard_ok _ _ _ _ _ Hc Hi Hs' K) as (Hc' & _ & r & P1 & P2).
  rewrite P in P2. unfold contents. rewrite (map_of_perm _ _ (all_keys _ Hc') P2).
  pose proof (all_keys _ Hc) as Hn. rewrite (map_of_perm _ _ Hn P1). rewrite P1 in Hn.
  destruct Hold as [[P3 _]|(e & Hk & P3)].
  - rewrite (map_of_perm (shard_entries s ++ r) (rest ++ r)); [done|done|by rewrite P3].
  - rewrite (map_of_perm (shard_entries s ++ r) (e :: rest ++ r)); [|done|by rewrite P3].
    unfold map_of. csimpl. rewrite <- Hk. simpl. rewrite Hk, <- Hk. by rewrite insert_insert_eq.
Qed.

(** Looking a key up. *)
Lemma find_contents c key s : db_ok c -> db_shards c !! shard_for c (hash_key key) = Some s ->
  match find_entry (hash_key key) key (chain_at s (bucket_of (nbuckets s) (hash_key key))) with
  | Some e => ce_key e = key /\ contents c !! key = Some (ce_value e, ce_exp e)
  | None => contents c !! key = None
  end.
Proof.
  intros Hc Hs. pose proof (do_shards _ Hc _ _ Hs) as Ho.
  pose proof (find_entry_spec _ _ _ key Ho) as H. destruct (find_entry _ _ _) as [e|].
  - destruct H as [He <-]. split; [done|]. apply map_of_some; [by apply all_keys|].
    apply elem_of_concat. exists (shard_entries s). split; [|done].
    apply list_elem_of_fmap_2. by eapply list_elem_of_lookup_2.
  - apply map_of_none. intros (e & Hk & He)%list_elem_of_fmap. apply elem_of_concat in He as (l & Hl & He).
    apply list_elem_of_fmap in Hl as (sj & -> & Hj). apply list_elem_of_lookup in Hj as [j Hj].
    pose proof (so_entries _ _ _ (do_shards _ Hc _ _ Hj)) as Hf. rewrite Forall_forall in Hf.
    destruct (Hf e He) as [E1 E2 _ _ _]. assert (j = shard_for c (hash_key key)) as ->.
    { unfold shard_for. rewrite <- E2, E1, <- Hk. done. }
    rewrite Hs in Hj. injection Hj as <-. apply H. rewrite Hk. by apply list_elem_of_fmap_2.
Qed.

(** Counters that say nothing about the entries may change. *)
Definition calm (g g' : globals) : Prop :=
  g_budget g' = g_budget g /\ g_ttl_entries g' = g_ttl_entries g /\ g_total_mem g' = g_total_mem g.

(** ** Removal *)

(** Removing entry [e] of bucket [b] of shard [i]. *)
Lemma remove_contents c i s b l e s' g g1 : db_ok c -> db_shards c !! i = Some s ->
  sh_buckets s !! b = Some l -> forall l', l ≡ₚ e :: l' ->
  remove_locked s (db_g c) b l' e = (s', g) -> calm g g1 ->
  db_ok (set_shard c i s' g1) /\ contents (set_shard c i s' g1) = delete (ce_key e) (contents c) /\
  g_budget g1 = g_budget (db_g c).
Proof.
  intros Hc Hi Hb l' Pl E (K1 & K2 & T).
  destruct (remove_locked_spec _ _ _ _ _ _ _ _ _ _ (do_shards _ Hc _ _ Hi) Hb Pl E)
    as (Hs' & P & _ & [C1 C2 C3]).
  assert (C : counted s s' (db_g c) g1) by (constructor; [rewrite K2|rewrite T|rewrite K1]; done).
  destruct (set_shard_ok _ _ _ _ _ Hc Hi Hs' C) as (Hc' & Hb' & rest & P1 & P2).
  split; [done|]. split; [|done]. apply contents_remove; [done|]. by rewrite P1, P2, P.
Qed.

(** Removing what a chain walk found. *)
Lemma unlink_contents c key s e s' g g1 : db_ok c ->
  let i := shard_for c (hash_key key) in let b := bucket_of (nbuckets s) (hash_key key) in
  db_shards c !! i = Some s -> find_entry (hash_key key) key (chain_at s b) = Some e ->
  remove_locked s (db_g c) b (unlink_entry (hash_key key) key (chain_at s b)) e = (s', g) ->
  calm g g1 ->
  db_ok (set_shard c i s' g1) /\ contents (set_shard c i s' g1) = delete key (contents c) /\
  g_budget g1 = g_budget (db_g c).
Proof.
  intros Hc i b Hi F E K. pose proof (do_shards _ Hc _ _ Hi) as Ho.
  pose proof (chain_lookup _ _ _ (hash_key key) Ho) as Hb. fold b in Hb.
  apply find_entry_some in F as (r & P1 & P2 & <- & _).
  assert (P : chain_at s b ≡ₚ e :: unlink_entry (hash_key (ce_key e)) (ce_key e) (chain_at s b))
    by (by rewrite P2).
  by apply (remove_contents c i s b _ e s' g g1 Hc Hi Hb _ P E).
Qed.

Lemma set_g_ok c g : db_ok c -> calm (db_g c) g -> db_ok (set_g c g).
Proof.
  intros [] (K1 & K2 & T). constructor; simpl; try done; by rewrite ?K2, ?T.
Qed.

Lemma kuttidb_delete_spec c key rc c' : db_ok c -> kuttidb_delete c key = (rc, c') ->
  db_ok c' /\ contents c' = delete key (contents c) /\
  rc = (match contents c !! key with Some _ => 1 | None => 0 end) /\ g_budget (db_g c') = g_budget (db_g c).
Proof.
  intros Hc. unfold kuttidb_delete. destruct (shard_lookup c _ Hc (hash_key_fits key)) as (s & Hs & _).
  rewrite Hs. pose proof (find_contents c key s Hc Hs) as F.
  destruct (find_entry _ _ _) as [e|] eqn:Ef.
  - destruct F as [_ F]. rewrite F. destruct (remove_locked _ _ _ _ _) as [s' g] eqn:E.
    intros [= <- <-]. destruct (unlink_contents c key s e s' g (bump_revision g) Hc Hs Ef E)
      as (? & ? & ?); done.
  - intros [= <- <-]. rewrite F. split_and!; try done. by rewrite delete_id.
Qed.

(** ** Reading *)

(** What a read of [key] at [now] sees. *)
Definition read_at (m : cmap) (key : bytes) (now : Z) : lookup_result :=
  match m !! key with
  | None => Miss
  | Some (v, exp) => if negb (exp =? 0) && (exp <=? now) then Expired else Hit v
  end.

Lemma get_lookup_spec c key now : db_ok c -> get_lookup c key now = read_at (contents c) key now.
Proof.
  intros Hc. unfold get_lookup, lookup_entry, read_at.
  destruct (shard_lookup c _ Hc (hash_key_fits key)) as (s & Hs & _). rewrite Hs.
  pose proof (find_contents c key s Hc Hs) as F.
  destruct (find_entry _ _ _) as [e|]; [destruct F as [_ ->]|rewrite F]; done.
Qed.

Lemma get_cleanup_spec c key : db_ok c -> db_ok (get_cleanup c key) /\
  contents (get_cleanup c key) = delete key (contents c) /\
  g_budget (db_g (get_cleanup c key)) = g_budget (db_g c).
Proof.
  intros Hc. unfold get_cleanup. destruct (shard_lookup c _ Hc (hash_key_fits key)) as (s & Hs & _).
  rewrite Hs. pose proof (find_contents c key s Hc Hs) as F.
  destruct (find_entry _ _ _) as [e|] eqn:Ef.
  - destruct (remove_locked _ _ _ _ _) as [s' g] eqn:E.
    by apply (unlink_contents c key s e s' g _ Hc Hs Ef E).
  - split_and!; try done. by rewrite delete_id.
Qed.

Lemma malloc_calm g ok g' : malloc g = (ok, g') -> calm g g'.
Proof. intros ((? & ? & _) & ? & _)%malloc_counts. done. Qed.

Lemma set_g_contents c g : contents (set_g c g) = contents c.
Proof. done. Qed.

Lemma kuttidb_get_spec c key time rc ov c' : db_ok c -> kuttidb_get c key time = (rc, ov, c') ->
  db_ok c' /\ g_budget (db_g c') = g_budget (db_g c) /\
  match read_at (contents c) key (u32 time) with
  | Miss => rc = 0 /\ ov = None /\ contents c' = contents c
  | Expired => rc = 0 /\ ov = None /\ contents c' = delete key (contents c)
  | Hit v => (rc = 1 /\ ov = Some v \/ rc = -1 /\ ov = None) /\ contents c' = contents c
  end.
Proof.
  intros Hc. unfold kuttidb_get. rewrite get_lookup_spec by done.
  destruct (read_at (contents c) key (u32 time)) as [v| |].
  - destruct (malloc (db_g c)) as [ok g] eqn:E. apply malloc_calm in E as K.
    destruct ok; intros [= <- <- <-]; (split; [by apply set_g_ok|]); (split; [apply K|]); auto.
  - intros [= <- <- <-]. done.
  - intros [= <- <- <-]. destruct (get_cleanup_spec c key Hc) as (? & ? & ?). done.
Qed.

(** ** Eviction *)

(** The cache has only lost entries. *)
Definition shrunk (c c' : kuttidb) : Prop :=
  db_ok c' /\ contents c' ⊆ contents c /\ g_budget (db_g c') = g_budget (db_g c) /\
  db_shard_bits c' = db_shard_bits c.

Lemma shrunk_calm c g : db_ok c -> calm (db_g c) g -> shrunk c {| c with db_g := g |}.
Proof.
  intros Hc K. split; [by apply (set_g_ok c g)|]. split; [done|]. split; [apply K|done].
Qed.

Lemma rand_calm g r g' : kuttidb_rand g = (r, g') -> calm g g'.
Proof. unfold kuttidb_rand. intros [= _ <-]. done. Qed.

Lemma probe_bucket_lt s k n : forall idx b, 0 <= k -> nbuckets s = 2 ^ k ->
  probe_bucket n s idx = Some b -> (b < length (sh_buckets s))%nat.
Proof.
  induction n as [|n IH]; intros idx b Hk En; simpl; [done|].
  destruct (chain_at s (bucket_of (nbuckets s) idx)); [by apply IH|]. intros [= <-].
  pose proof (bucket_lt _ k idx Hk En). unfold nbuckets, zlen in *. lia.
Qed.

Lemma evict_one_spec c : db_ok c -> shrunk c (evict_one c).
Proof.
  intros Hc. unfold evict_one. destruct (kuttidb_rand (db_g c)) as [r g1] eqn:E1.
  apply rand_calm in E1 as K1. destruct (db_shards c !! _) as [s|] eqn:Hi; [|by apply shrunk_calm].
  destruct (sh_count s =? 0); [by apply shrunk_calm|].
  destruct (kuttidb_rand g1) as [x g2] eqn:E2. apply rand_calm in E2.
  assert (K : calm (db_g c) g2).
  { destruct K1 as (? & ? & ?), E2 as (? & ? & ?). split_and!; congruence. }
  destruct (probe_bucket _ _ _) as [b|] eqn:Eb; [|by apply shrunk_calm].
  destruct (chain_at s b) as [|e l] eqn:El; [by apply shrunk_calm|].
  destruct (remove_locked s g2 b l e) as [s' g3] eqn:E3.
  pose proof (do_shards _ Hc _ _ Hi) as Ho. destruct (so_size _ _ _ Ho) as (k & Hk & En).
  pose proof (probe_bucket_lt _ _ _ _ _ Hk En Eb) as Hb.
  assert (Hl : sh_buckets s !! b = Some (e :: l)).
  { rewrite <- El. unfold chain_at. destruct (nth_lookup_or_length (sh_buckets s) b []); [done|lia]. }
  assert (Hc2 : db_ok (set_g c g2)) by (by apply set_g_ok).
  destruct (remove_contents (set_g c g2) _ s b _ e s' g3
    {| g3 with g_evicted := u64 (g_evicted g3 + 1) |} Hc2 Hi Hl l (reflexivity _) E3) as (H1 & H2 & H3);
    [done|].
  split; [exact H1|]. split; [|split; [etrans; [exact H3|apply K]|done]].
  transitivity (delete (ce_key e) (contents c)); [|apply delete_subseteq].
  rewrite <- (set_g_contents c g2), <- H2. done.
Qed.

Lemma shrunk_refl c : db_ok c -> shrunk c c.
Proof. done. Qed.

Lemma shrunk_trans c1 c2 c3 : shrunk c1 c2 -> shrunk c2 c3 -> shrunk c1 c3.
Proof.
  intros (A1 & A2 & A3 & A4) (B1 & B2 & B3 & B4). split_and!; [done|by etrans|congruence|congruence].
Qed.

Lemma evict_loop_spec n budget : forall c, db_ok c -> shrunk c (evict_loop n budget c).
Proof.
  induction n as [|n IH]; intros c Hc; simpl; [by apply shrunk_refl|].
  destruct (_ <=? budget); [by apply shrunk_refl|]. pose proof (evict_one_spec c Hc) as H.
  eapply shrunk_trans; [exact H|]. apply IH, H.
Qed.

Lemma evict_spec c n : db_ok c -> shrunk c (evict_under_budget c n) /\
  (g_budget (db_g c) = 0 -> evict_under_budget c n = c).
Proof.
  intros Hc. unfold evict_under_budget. destruct (Z.eqb_spec (g_budget (db_g c)) 0).
  - split; [by apply shrunk_refl|done].
  - split; [by apply evict_loop_spec|done].
Qed.

(** ** Writing *)

Lemma kuttidb_put_abs_spec c key value exp rc c' : db_ok c -> words_ok key value exp ->
  kuttidb_put_abs c key value exp = (rc, c') ->
  db_ok c' /\ g_budget (db_g c') = g_budget (db_g c) /\
  (rc = 0 /\ contents c' ⊆ <[key := (value, exp)]> (contents c) /\
     (g_budget (db_g c) = 0 -> contents c' = <[key := (value, exp)]> (contents c)) \/
   rc = -1 /\ contents c' ⊆ contents c /\ (g_budget (db_g c) = 0 -> contents c' = contents c)).
Proof.
  intros Hc Hw. unfold kuttidb_put_abs. set (h := hash_key key).
  set (c1 := if negb (g_budget (db_g c) =? 0) && _ then _ else c).
  assert (H1 : shrunk c c1 /\ (g_budget (db_g c) = 0 -> c1 = c)).
  { unfold c1. destruct (negb (g_budget (db_g c) =? 0)) eqn:E; simpl.
    - apply negb_true_iff, Z.eqb_neq in E. split; [|done].
      destruct (_ <=? _); [apply (evict_spec c _ Hc)|by apply shrunk_refl].
    - split; [by apply shrunk_refl|done]. }
  clearbody c1. destruct H1 as [(Hc1 & Hsub & Hb & Hbits) Heq].
  destruct (shard_lookup c1 h Hc1 (hash_key_fits key)) as (s & Hs & Hi).
  assert (Hfor : shard_for c h = shard_for c1 h) by (unfold shard_for; by rewrite Hbits).
  rewrite Hfor, Hs. destruct (put_locked s (db_g c1) h key value exp) as [[r s'] g] eqn:E.
  destruct (put_locked_spec _ _ _ _ _ _ _ _ _ _ (do_shards _ Hc1 _ _ Hs) Hw Hi E) as (Hs' & K & Hr).
  destruct (set_shard_ok _ _ _ _ _ Hc1 Hs Hs' K) as (Hc2 & Hb2 & rest & P1 & P2).
  set (c2 := set_shard c1 (shard_for c1 h) s' g) in *.
  assert (Hst : stored s s' key value exp -> forall c3, shrunk c2 c3 -> (g_budget (db_g c2) = 0 -> c3 = c2) ->
    db_ok c3 /\ g_budget (db_g c3) = g_budget (db_g c) /\
    (contents c3 ⊆ <[key := (value, exp)]> (contents c) /\
     (g_budget (db_g c) = 0 -> contents c3 = <[key := (value, exp)]> (contents c)))).
  { intros St c3 (H3 & Hs3 & Hb3 & _) He3.
    pose proof (contents_stored c1 _ s s' g key value exp Hc1 Hs Hs' K St) as Ec. fold c2 in Ec.
    assert (Hg : g_budget (db_g c2) = g_budget (db_g c)) by (simpl; congruence).
    split; [done|]. split; [congruence|]. split.
    - rewrite Ec in Hs3. etrans; [exact Hs3|]. by apply insert_mono.
    - intros H0. rewrite He3 by congruence. by rewrite Ec, Heq. }
  destruct r; intros [= <- <-].
  - subst s'. assert (Ec : contents c2 = contents c1).
    { unfold contents. apply map_of_perm; [by apply all_keys|]. by rewrite P2, P1. }
    split; [done|]. split; [simpl; congruence|]. right. split; [done|]. rewrite Ec.
    split; [done|]. intros H0. by rewrite Heq.
  - destruct (Hst Hr c2 (shrunk_refl _ Hc2)) as (? & ? & ?); [done|]. by auto.
  - set (c3 := if _ && _ then _ else c2).
    assert (H3 : shrunk c2 c3 /\ (g_budget (db_g c2) = 0 -> c3 = c2)).
    { unfold c3. destruct (_ && _); [apply (evict_spec c2 _ Hc2)|]. split; [by apply shrunk_refl|done]. }
    destruct (Hst Hr c3) as (? & ? & ?); [apply H3..|]. by auto.
Qed.

End CacheMap.
