(* ===== verification/CacheRun.v ===== *)
(** * Expiry sweeps of the cache (kuttidb.c: kuttidb_sweep_expired)

    A sweep removes expired entries only; one that visits as many buckets as
    the largest shard has, times the number of shards, removes all of them,
    wherever its cursor stands.

    Then, in [CacheRun]: runs of the cache. *)

From stdpp Require Import base numbers option list gmap.
From S2P Require Import Prelude Cache CacheSlab CacheTable CacheMap.
Import Cache CacheSlab CacheTable CacheMap.

Module CacheSweep.

Definition alive (now : Z) (e : cache_entry) : Prop := is_expired e now = false.

#[global] Instance alive_dec now e : Decision (alive now e).
Proof. unfold alive. apply _. Defined.

Definition dead (now : Z) (e : cache_entry) : Prop := is_expired e now = true.

(** ** One chain *)

Lemma remove_cursor s g b l e s' g' : remove_locked s g b l e = (s', g') ->
  g_sweep_cursor g' = g_sweep_cursor g.
Proof.
  unfold remove_locked, entry_free, shard_slab_free_all.
  destruct (ce_exp e =? 0), (ce_cls e =? DIRECT_CLS); cbn [fst snd];
    match goal with |- context [if ?x =? 0 then _ else _] => destruct (x =? 0) end;
    intros [= _ <-]; try done;
    match goal with |- context [Nat.iter ?n _ ?g] =>
      pose proof (proj1 (iter_allocated n (- SLAB_SIZE) g)) as (_ & _ & _ & ->) end; done.
Qed.

Lemma sweep_chain_spec bits i b now rest : forall kept s g s' g', shard_ok bits i s ->
  sh_buckets s !! b = Some (kept ++ rest) -> sweep_chain kept rest s g b now = (s', g') ->
  shard_ok bits i s' /\ counted s s' g g' /\ g_sweep_cursor g' = g_sweep_cursor g /\
  sh_buckets s' = <[b := kept ++ filter (alive now) rest]> (sh_buckets s) /\
  exists gone, Forall (dead now) gone /\ shard_entries s ≡ₚ gone ++ shard_entries s'.
Proof.
  induction rest as [|e r IH]; intros kept s g s' g' Hs Hb; cbn [sweep_chain].
  { intros [= <- <-]. rewrite app_nil_r in *. split; [done|]. split; [by apply counted_same|].
    split; [done|]. split; [by rewrite list_insert_id|]. by exists []. }
  rewrite filter_cons. destruct (is_expired e now) eqn:Ex.
  - rewrite decide_False by (unfold alive; congruence).
    destruct (remove_locked s g b (kept ++ r) e) as [s1 g1] eqn:E.
    destruct (remove_locked_spec bits i s g b _ (kept ++ r) e s1 g1 Hs Hb) as (Hs1 & P & B & K);
      [by rewrite Permutation_middle|done|].
    assert (Hb1 : sh_buckets s1 !! b = Some (kept ++ r)).
    { rewrite B. apply list_lookup_insert_eq. by eapply lookup_lt_Some. }
    intros H. apply (IH kept _ _ _ _ Hs1 Hb1) in H as (H1 & H2 & H3 & H4 & gone & H5 & H6).
    split; [done|]. split.
    { eapply counted_trans; [|exact H2]. destruct K. by constructor. }
    split; [rewrite H3; simpl; eapply remove_cursor; exact E|].
    split; [by rewrite H4, B, list_insert_insert_eq|].
    exists (e :: gone). split; [by constructor|]. by rewrite P, H6.
  - rewrite decide_True by done. intros H. apply IH in H as (H1 & H2 & H3 & H4 & H5); [|done|].
    + split_and!; try done. rewrite H4. by rewrite <- app_assoc.
    + by rewrite <- app_assoc.
Qed.

(** ** The loop *)

(** [c'] is [c] without some entries that had expired. *)
Record swept (now : Z) (c c' : kuttidb) : Prop := {
  sw_ok : db_ok c';
  sw_bits : db_shard_bits c' = db_shard_bits c;
  sw_sizes : nbuckets <$> db_shards c' = nbuckets <$> db_shards c;
  sw_budget : g_budget (db_g c') = g_budget (db_g c);
  sw_gone : exists gone, Forall (dead now) gone /\ all_entries c ≡ₚ gone ++ all_entries c' }.

Lemma swept_refl now c : db_ok c -> swept now c c.
Proof. intros Hc. constructor; try done. by exists []. Qed.

Lemma swept_trans now c1 c2 c3 : swept now c1 c2 -> swept now c2 c3 -> swept now c1 c3.
Proof.
  intros [A1 A2 A3 A4 (g1 & A5 & A6)] [B1 B2 B3 B4 (g2 & B5 & B6)]. constructor; [done|congruence..|].
  exists (g1 ++ g2). split; [by apply Forall_app_2|]. by rewrite A6, B6, app_assoc.
Qed.

(** No expired entry in bucket [b] of shard [i]. *)
Definition clean (now : Z) (c : kuttidb) (i b : nat) : Prop := forall s ch,
  db_shards c !! i = Some s -> sh_buckets s !! b = Some ch -> Forall (alive now) ch.

(** The bucket that ticket [t] stands for. *)
Definition visits (c : kuttidb) (t : Z) (i b : nat) : Prop :=
  i = Z.to_nat (t mod nshards c) /\
  exists s, db_shards c !! i = Some s /\ b = Z.to_nat ((t / nshards c) mod nbuckets s).

Lemma shard_index c t : db_ok c -> Z.land t (nshards c - 1) = t mod nshards c.
Proof.
  intros Hc. rewrite (do_len _ Hc). apply land_pow2. pose proof (do_bits _ Hc). lia.
Qed.

Lemma sweep_round_spec c now : db_ok c -> let t := g_sweep_cursor (db_g c) in
  swept now c (sweep_round c now) /\
  g_sweep_cursor (db_g (sweep_round c now)) = u64 (t + 1) /\
  (forall i b, visits c t i b -> clean now (sweep_round c now) i b) /\
  (forall i b, clean now c i b -> clean now (sweep_round c now) i b).
Proof.
  intros Hc t. unfold sweep_round, masked_shard. fold t.
  match goal with |- context [set_g c ?x] => set (g := x) end.
  assert (Hg : db_ok (set_g c g)) by (by apply set_g_ok).
  rewrite (shard_index c t Hc). set (i := Z.to_nat (t mod nshards c)).
  destruct (db_shards c !! i) as [s|] eqn:Hi.
  2:{ split; [by constructor; try done; exists []|]. split; [done|]. split; [|done].
      intros j b (-> & s & Hs & _). fold i in Hs. congruence. }
  pose proof (do_shards _ Hc _ _ Hi) as Ho. destruct (so_size _ _ _ Ho) as (k & Hk & En).
  set (b := bucket_of (nbuckets s) (t / nshards c)).
  pose proof (chain_lookup _ _ _ (t / nshards c) Ho) as Hb. fold b in Hb.
  destruct (sweep_chain [] (chain_at s b) s g b now) as [s' g'] eqn:E.
  destruct (sweep_chain_spec _ _ b now _ [] _ _ _ _ Ho Hb E) as (H1 & H2 & H3 & H4 & gone & H5 & H6).
  simpl in H4. destruct (set_shard_ok (set_g c g) i s s' g' Hg Hi H1) as (H7 & H8 & rest & P1 & P2).
  { destruct H2. by constructor. }
  change (set_shard (set_g c g) i s' g') with (set_shard c i s' g') in *.
  assert (Hlt : (i < length (db_shards c))%nat) by (by eapply lookup_lt_Some).
  split; [|split; [exact H3|split]].
  - constructor; try done.
    + simpl. rewrite list_fmap_insert. apply list_insert_id. rewrite list_lookup_fmap, Hi. simpl.
      f_equal. unfold nbuckets, zlen. by rewrite H4, length_insert.
    + exists gone. split; [done|]. rewrite P2. change (all_entries c) with (all_entries (set_g c g)).
      by rewrite P1, H6, app_assoc.
  - intros j b' (-> & s0 & Hs0 & ->) sj ch Hj Hch. fold i in Hs0, Hj. simpl in Hj.
    rewrite list_lookup_insert_eq in Hj by done. simplify_eq.
    assert (Eb : Z.to_nat ((t / nshards c) mod nbuckets s) = b).
    { unfold b, bucket_of. rewrite En, land_pow2 by done. done. }
    rewrite Eb, H4, list_lookup_insert_eq in Hch by (by eapply lookup_lt_Some).
    injection Hch as <-. apply Forall_forall. intros e He. by apply list_elem_of_filter in He as [? _].
  - intros j b' Hcl sj ch Hj Hch. simpl in Hj. destruct (decide (i = j)) as [<-|].
    + rewrite list_lookup_insert_eq in Hj by done. simplify_eq. rewrite H4 in Hch.
      destruct (decide (b = b')) as [<-|].
      * rewrite list_lookup_insert_eq in Hch by (by eapply lookup_lt_Some). injection Hch as <-.
        apply Forall_forall. intros e He. by apply list_elem_of_filter in He as [? _].
      * rewrite list_lookup_insert_ne in Hch by done. by eapply Hcl.
    + rewrite list_lookup_insert_ne in Hj by done. by eapply Hcl.
Qed.

(** The tickets that one sweep draws. *)
Lemma sweep_loop_spec now n : forall c, db_ok c -> let t := g_sweep_cursor (db_g c) in
  0 <= t -> t + Z.of_nat n < 2 ^ 64 ->
  swept now c (sweep_loop n c now) /\
  (forall i b, clean now c i b -> clean now (sweep_loop n c now) i b) /\
  (forall u i b, t <= u < t + Z.of_nat n -> visits c u i b -> clean now (sweep_loop n c now) i b).
Proof.
  induction n as [|n IH]; intros c Hc t Ht0 Ht; cbn [sweep_loop].
  { split; [by apply swept_refl|]. split; [done|]. intros u i b Hu. lia. }
  destruct (sweep_round_spec c now Hc) as (S1 & C1 & V1 & K1). fold t in C1, V1.
  set (c1 := sweep_round c now) in *. rewrite u64_small in C1 by (unfold fits; lia).
  destruct (IH c1) as (S2 & K2 & V2); [apply S1|lia|lia|].
  split; [by eapply swept_trans|]. split; [auto|]. intros u i b Hu Hv.
  destruct (decide (u = t)) as [->|]; [by apply K2, V1|].
  apply (V2 u); [lia|]. destruct Hv as (-> & s & Hs & ->). unfold visits.
  assert (En : nshards c1 = nshards c).
  { rewrite (do_len _ (sw_ok _ _ _ S1)), (do_len _ Hc), (sw_bits _ _ _ S1). done. }
  rewrite En. split; [done|]. pose proof (sw_sizes _ _ _ S1) as Es.
  assert (Hl : (nbuckets <$> db_shards c1) !! Z.to_nat (u mod nshards c) = Some (nbuckets s)).
  { by rewrite Es, list_lookup_fmap, Hs. }
  rewrite list_lookup_fmap in Hl. apply fmap_Some in Hl as (s1 & Hs1 & ->). eauto.
Qed.

(** A window of [n * m] tickets meets every residue. *)
Lemma window n m t i b : 0 < n -> 0 < m -> 0 <= i < n -> 0 <= b < m ->
  exists u, t <= u < t + n * m /\ u mod n = i /\ (u / n) mod m = b.
Proof.
  intros Hn Hm Hi Hb. set (r := n * b + i). exists (t + (r - t) mod (n * m)).
  pose proof (Z.mod_pos_bound (r - t) (n * m) ltac:(nia)) as B. split; [lia|].
  assert (E : t + (r - t) mod (n * m) = i + (b + - ((r - t) / (n * m)) * m) * n).
  { pose proof (Z.div_mod (r - t) (n * m) ltac:(nia)). unfold r in *. nia. }
  rewrite E. split.
  - rewrite Z.mod_add by lia. by apply Z.mod_small.
  - rewrite Z.div_add, (Z.div_small i n), Z.add_0_l by lia. rewrite Z.mod_add by lia.
    by apply Z.mod_small.
Qed.

(** When every bucket is clean, no expired entry is left. *)
Lemma clean_all now c : (forall i b s, db_shards c !! i = Some s -> (b < length (sh_buckets s))%nat ->
  clean now c i b) -> Forall (alive now) (all_entries c).
Proof.
  intros H. apply Forall_forall. intros e (l & Hl & He)%elem_of_concat.
  apply list_elem_of_fmap in Hl as (s & -> & Hs). apply list_elem_of_lookup in Hs as [i Hi].
  apply elem_of_concat in He as (ch & Hch & He). apply list_elem_of_lookup in Hch as [b Hb].
  pose proof (H i b s Hi (lookup_lt_Some _ _ _ Hb) s ch Hi Hb) as F.
  rewrite Forall_forall in F. by apply F.
Qed.

(** A sweep over enough buckets leaves nothing expired. *)
Lemma sweep_all now c n : db_ok c -> let t := g_sweep_cursor (db_g c) in 0 <= t ->
  t + Z.of_nat n < 2 ^ 64 ->
  (forall s, s ∈ db_shards c -> nshards c * nbuckets s <= Z.of_nat n) ->
  Forall (alive now) (all_entries (sweep_loop n c now)).
Proof.
  intros Hc t Ht0 Ht Hn. destruct (sweep_loop_spec now n c Hc Ht0 Ht) as (S & _ & V).
  apply clean_all. intros i b s' Hi Hb.
  assert (Hs : exists s, db_shards c !! i = Some s /\ nbuckets s' = nbuckets s).
  { assert (Hl : (nbuckets <$> db_shards c) !! i = Some (nbuckets s')).
    { by rewrite <- (sw_sizes _ _ _ S), list_lookup_fmap, Hi. }
    rewrite list_lookup_fmap in Hl. apply fmap_Some in Hl as (s & ? & ?). eauto. }
  destruct Hs as (s & Hs & En). pose proof (do_shards _ Hc _ _ Hs) as Ho.
  destruct (so_size _ _ _ Ho) as (k & Hk & Ek). pose proof (do_bits _ Hc).
  assert (Hns : 0 < nshards c) by (rewrite (do_len _ Hc); apply Z.pow_pos_nonneg; lia).
  assert (Hnb : 0 < nbuckets s) by (rewrite Ek; apply Z.pow_pos_nonneg; lia).
  pose proof (lookup_lt_Some _ _ _ Hs) as Hi'.
  destruct (window (nshards c) (nbuckets s) t (Z.of_nat i) (Z.of_nat b)) as (u & Hu & U1 & U2).
  - done.
  - done.
  - unfold nshards, zlen. lia.
  - rewrite <- En. unfold nbuckets, zlen. lia.
  - apply (V u).
    + specialize (Hn s (list_elem_of_lookup_2 _ _ _ Hs)). fold t. lia.
    + split; [by rewrite U1, Nat2Z.id|]. exists s. split; [done|]. by rewrite U2, Nat2Z.id.
Qed.

End CacheSweep.

(** * Runs of the cache

    A fresh cache satisfies the invariant, and so does every cache that is
    reached by locked sections of any number of threads in any order.  The
    functions of the interface are sequences of such sections. *)

Import Cache CacheSlab CacheTable CacheMap CacheSweep.

Module CacheRun.

(** ** Locked sections *)

Inductive section :=
  | SPut (key value : bytes) (exp : Z)
  | SEvict
  | SCleanup (key : bytes)
  | SDelete (key : bytes)
  | SSweep (now : Z)
  | SBudget (budget : Z)
  | SCopy.

Definition run_section (c : kuttidb) (x : section) : kuttidb :=
  match x with
  | SPut key value exp =>
      let h := hash_key key in
      match db_shards c !! shard_for c h with
      | None => c
      | Some s => let '(_, s, g) := put_locked s (db_g c) h key value exp in
                  set_shard c (shard_for c h) s g
      end
  | SEvict => evict_one c
  | SCleanup key => get_cleanup c key
  | SDelete key => (kuttidb_delete c key).2
  | SSweep now => sweep_round c now
  | SBudget budget => kuttidb_set_budget c budget
  | SCopy => set_g c (malloc (db_g c)).2
  end.

Definition section_ok (x : section) : Prop :=
  match x with SPut key value exp => words_ok key value exp | _ => True end.

Definition run_sections (c : kuttidb) (xs : list section) : kuttidb := fold_left run_section xs c.

(** The states that some interleaving of sections leads to. *)
Definition leads (c c' : kuttidb) : Prop :=
  exists xs, Forall section_ok xs /\ c' = run_sections c xs.

Lemma section_db_ok c x : db_ok c -> section_ok x -> db_ok (run_section c x).
Proof.
  intros Hc Hx. destruct x as [key value exp| |key|key|now|budget|]; simpl.
  - destruct (shard_lookup c (hash_key key) Hc (hash_key_fits key)) as (s & Hs & Hi). rewrite Hs.
    destruct (put_locked s (db_g c) (hash_key key) key value exp) as [[r s'] g] eqn:E.
    destruct (put_locked_spec (db_shard_bits c) _ s (db_g c) key value exp r s' g
                (do_shards _ Hc _ _ Hs) Hx Hi E) as (Ho & K & _).
    by apply (set_shard_ok c _ s s' g Hc Hs Ho K).
  - by apply evict_one_spec.
  - by apply get_cleanup_spec.
  - destruct (kuttidb_delete c key) as [rc c'] eqn:E. by apply (kuttidb_delete_spec c key rc c' Hc).
  - by apply (sw_ok now c), sweep_round_spec.
  - by destruct Hc.
  - apply set_g_ok; [done|]. destruct (malloc (db_g c)) as [ok g] eqn:E. by apply (malloc_calm _ ok).
Qed.

Lemma leads_ok c c' : db_ok c -> leads c c' -> db_ok c'.
Proof.
  intros Hc (xs & Hxs & ->). revert c Hc. induction Hxs as [|x xs Hx Hxs IH]; intros c Hc; [done|].
  simpl. apply IH. by apply section_db_ok.
Qed.

Lemma leads_refl c : leads c c.
Proof. by exists []. Qed.

Lemma leads_one c x : section_ok x -> leads c (run_section c x).
Proof. intros Hx. exists [x]. split; [by repeat constructor|done]. Qed.

Lemma leads_trans c1 c2 c3 : leads c1 c2 -> leads c2 c3 -> leads c1 c3.
Proof.
  intros (xs & Hx & ->) (ys & Hy & ->). exists (xs ++ ys). split; [by apply Forall_app_2|].
  unfold run_sections. by rewrite fold_left_app.
Qed.

(** ** The interface as sections *)

Lemma evict_loop_leads n budget : forall c, leads c (evict_loop n budget c).
Proof.
  induction n as [|n IH]; intros c; simpl; [apply leads_refl|].
  destruct (_ <=? _); [apply leads_refl|].
  eapply leads_trans; [by apply (leads_one c SEvict)|apply IH].
Qed.

Lemma evict_leads c n : leads c (evict_under_budget c n).
Proof. unfold evict_under_budget. destruct (_ =? 0); [apply leads_refl|apply evict_loop_leads]. Qed.

Lemma evict_loop_bits n budget : forall c, db_shard_bits (evict_loop n budget c) = db_shard_bits c.
Proof.
  induction n as [|n IH]; intros c; simpl; [done|]. gcase; [done|]. rewrite IH. unfold evict_one.
  destruct (kuttidb_rand (db_g c)) as [r g]. gcase; [|done]. gcase; [done|].
  destruct (kuttidb_rand g) as [idx g1]. gcase; [|done]. gcase; [done|]. by gcase.
Qed.

Lemma put_abs_leads c key value exp : words_ok key value exp ->
  leads c (kuttidb_put_abs c key value exp).2.
Proof.
  intros Hw. unfold kuttidb_put_abs. set (budget := g_budget (db_g c)).
  match goal with |- context [if ?b then evict_under_budget c ?n else c] =>
    set (c1 := if b then evict_under_budget c n else c) end.
  assert (L1 : leads c c1 /\ shard_for c (hash_key key) = shard_for c1 (hash_key key)).
  { unfold c1. destruct (_ && _); [|split; [apply leads_refl|done]]. split; [apply evict_leads|].
    unfold shard_for. do 3 f_equal. symmetry.
    unfold evict_under_budget. destruct (_ =? 0); [done|]. apply evict_loop_bits. }
  destruct L1 as [L1 Ei]. rewrite Ei. eapply leads_trans; [exact L1|].
  pose proof (leads_one c1 (SPut key value exp) Hw) as L2. simpl in L2.
  destruct (db_shards c1 !! shard_for c1 (hash_key key)) as [s|]; [|apply leads_refl].
  destruct (put_locked s (db_g c1) (hash_key key) key value exp) as [[[] s'] g]; simpl; try done.
  eapply leads_trans; [exact L2|]. destruct (_ && (_ <? _)); [apply evict_leads|apply leads_refl].
Qed.
Lemma sweep_leads c work time : leads c (kuttidb_sweep_expired c work time).
Proof.
  unfold kuttidb_sweep_expired. destruct (_ =? 0); [apply leads_refl|].
  generalize (Z.to_nat work) as n. intros n. revert c.
  induction n as [|n IH]; intros c; simpl; [apply leads_refl|].
  eapply leads_trans; [by apply (leads_one c (SSweep (u32 time)))|apply IH].
Qed.

Lemma get_leads c key time : leads c (kuttidb_get c key time).2.
Proof.
  unfold kuttidb_get. destruct (get_lookup c key (u32 time)) as [v| |].
  - pose proof (leads_one c SCopy I) as L. simpl in L. by destruct (malloc (db_g c)) as [[] g].
  - apply leads_refl.
  - by apply (leads_one c (SCleanup key)).
Qed.

Lemma get_into_leads c key vec now_sec time : leads c (kuttidb_get_into_at c key vec now_sec time).2.
Proof.
  unfold kuttidb_get_into_at. destruct (get_lookup c key _) as [v| |].
  - assert (L : forall ok g, (if zlen (v_data vec) + zlen v <=? v_cap vec then (true, db_g c)
                              else malloc (db_g c)) = (ok, g) -> leads c (set_g c g)).
    { intros ok g. destruct (_ <=? _).
      - intros [= <- <-]. replace (set_g c (db_g c)) with c by (by destruct c). apply leads_refl.
      - intros E. pose proof (leads_one c SCopy I) as L. simpl in L. by rewrite E in L. }
    match goal with |- context [let '(_, _) := ?x in _] => destruct x as [ok g] eqn:E end.
    specialize (L ok g eq_refl). by destruct (kuttidb_vec_reserve vec (zlen v) ok).
  - apply leads_refl.
  - by apply (leads_one c (SCleanup key)).
Qed.

(** ** Creation *)

Lemma shard_bits_spec fuel : forall bits n, 1 <= bits <= 32 -> n <= 2 ^ 32 ->
  1 <= shard_bits fuel bits n <= 32 /\ bits <= shard_bits fuel bits n /\
  (n <= 2 ^ (bits + Z.of_nat fuel) -> n <= 2 ^ shard_bits fuel bits n).
Proof.
  induction fuel as [|fuel IH]; intros bits n Hb Hn; simpl.
  - rewrite Z.add_0_r. by split_and!; [lia..|].
  - destruct (Z.ltb_spec (2 ^ bits) n).
    + assert (bits < 32) by (apply (Z.pow_lt_mono_r_iff 2); lia).
      destruct (IH (bits + 1) n) as (A & B & C); [lia|done|]. split; [done|]. split; [lia|].
      intros Hf. apply C. by replace (bits + 1 + Z.of_nat fuel) with (bits + Z.of_nat (S fuel)) by lia.
    + split_and!; [lia..|]. done.
Qed.

Lemma round_buckets_spec fuel initial : forall k, 0 <= k -> exists k', k <= k' /\
  round_buckets fuel (2 ^ k) initial = 2 ^ k'.
Proof.
  induction fuel as [|fuel IH]; intros k Hk; simpl; [by exists k|].
  destruct (_ && _); [|by exists k]. destruct (IH (k + 1)) as (k' & H1 & H2); [lia|].
  exists k'. split; [lia|]. rewrite <- H2. f_equal. rewrite Z.pow_add_r by lia. lia.
Qed.

Lemma init_loop_spec k : forall g n l g', init_loop k g n = (true, l, g') ->
  l = replicate k (new_shard n) /\ calm g g' /\ g_sweep_cursor g' = g_sweep_cursor g.
Proof.
  induction k as [|k IH]; intros g n l g' E; simpl in E; [by simplify_eq|].
  unfold block_alloc, malloc in E. destruct (g_allocs g) as [|[] r]; simpl in E; try done;
    (match type of E with context [init_loop k ?x n] => destruct (init_loop k x n) as [[ok l1] g1] eqn:E1 end);
    injection E as -> <- <-; destruct (IH _ _ _ _ E1) as (-> & (? & ? & ?) & ?); done.
Qed.

Lemma new_shard_entries n : shard_entries (new_shard n) = [].
Proof.
  unfold shard_entries, new_shard. simpl. induction (Z.to_nat n) as [|m IH]; [done|]. by simpl.
Qed.

Lemma new_shard_ok bits i k : 0 <= k -> shard_ok bits i (new_shard (2 ^ k)).
Proof.
  intros Hk. pose proof (new_shard_entries (2 ^ k)) as E.
  constructor; try (rewrite E); try done.
  - exists k. split; [done|]. unfold nbuckets, zlen. simpl. rewrite length_replicate.
    pose proof (Z.pow_pos_nonneg 2 k). lia.
  - intros b ch e Hb He. apply lookup_replicate in Hb as [-> _]. by apply elem_of_nil in He.
  - simpl. apply NoDup_nil_2.
  - constructor; simpl; try done. apply NoDup_nil_2.
Qed.

Lemma zsum_replicate {A} (f : A -> Z) n x : zsum f (replicate n x) = Z.of_nat n * f x.
Proof. induction n as [|n IH]; [done|]. simpl. rewrite IH. lia. Qed.

Lemma new_entries k n : concat (shard_entries <$> replicate k (new_shard n)) = [].
Proof. induction k as [|k IH]; [done|]. csimpl. by rewrite new_shard_entries, IH. Qed.

(** A new cache is well formed and empty. *)
Lemma create_ok n initial now allocs c : 0 <= n <= 2 ^ 32 ->
  kuttidb_create n initial now allocs = Some c ->
  db_ok c /\ contents c = ∅ /\ g_budget (db_g c) = 0 /\ g_sweep_cursor (db_g c) = 0.
Proof.
  intros Hn. unfold kuttidb_create. set (n' := if n =? 0 then 16 else n).
  destruct (shard_bits_spec 64 1 n') as (Hb & _ & _); [done|unfold n'; destruct (n =? 0); lia|].
  set (bits := shard_bits 64 1 n') in *.
  destruct (malloc _) as [[] g1] eqn:M1; simpl; [|done].
  destruct (malloc g1) as [[] g2] eqn:M2; simpl; [|done].
  unfold init_shards. destruct (round_buckets_spec 64 (Z.max 16 initial) 4) as (k & Hk & Ek); [lia|].
  change (2 ^ 4) with 16 in Ek. rewrite Ek. destruct (_ <? _); [done|].
  destruct (init_loop _ _ _) as [[[] l] g3] eqn:E3; [|done]. intros [= <-].
  destruct (init_loop_spec _ _ _ _ _ E3) as (-> & C3 & S3).
  assert (G : calm g2 g3 /\ g_budget g3 = 0 /\ g_ttl_entries g3 = 0 /\ g_total_mem g3 = 0 /\
    g_sweep_cursor g3 = 0).
  { unfold malloc in M1, M2. simpl in M1. destruct C3 as (B1 & B2 & B3).
    split; [done|]. destruct allocs as [|? [|? ?]]; simplify_eq/=; rewrite ?B1, ?B2, ?B3, ?S3;
      simpl in *; simplify_eq/=; done. }
  destruct G as (_ & G1 & G2 & G3 & G4).
  split; [|split; [|done]].
  - constructor; simpl; [done| | | |].
    + unfold nshards, zlen. simpl. rewrite length_replicate. pose proof (Z.pow_pos_nonneg 2 bits). lia.
    + intros i s [-> _]%lookup_replicate. apply new_shard_ok. lia.
    + rewrite G2. unfold all_entries. simpl. by rewrite new_entries.
    + rewrite G3, zsum_replicate. simpl. rewrite Z.add_0_l, u64_idem.
      rewrite Z2Nat.id by (apply Z.pow_nonneg; lia). unfold u64.
      by rewrite <- Z.mul_assoc, (Z.mul_mod_idemp_r _ (2 ^ k * SIZEOF_PTR)).
  - unfold contents, all_entries. simpl. by rewrite new_entries.
Qed.
End CacheRun.
