(* ===== verification/CacheAccount.v ===== *)
(** * Scans of the cache

    [kuttidb_count] is the size of the map; [kuttidb_foreach], which stages a
    shard as bytes under its lock and delivers from the copy, visits exactly
    the live entries; following the cursors of the metadata pages does too.

    Then, in [CacheAccount]: memory accounting of the cache. *)

From stdpp Require Import base numbers option list gmap.
From S2P Require Import Prelude Cache CacheSlab CacheTable CacheMap CacheRun.
Import Cache CacheBounds CacheSlab CacheTable CacheMap CacheSweep.

Module CacheScan.

(** ** Counting *)

Lemma fold_count ss : forall n, fold_left (fun n s => n + sh_count s) ss n = n + zsum sh_count ss.
Proof. induction ss as [|s ss IH]; intros n; simpl; [lia|]. rewrite IH. lia. Qed.

Lemma count_entries c : db_ok c -> kuttidb_count c = zlen (all_entries c).
Proof.
  intros [_ _ S _ _]. unfold kuttidb_count, all_entries. rewrite fold_count, Z.add_0_l.
  assert (H : forall s, s ∈ db_shards c -> sh_count s = zlen (shard_entries s)).
  { intros s [i Hi]%list_elem_of_lookup. exact (so_count _ _ _ (S i s Hi)). }
  clear S. induction (db_shards c) as [|s ss IH]; [done|]. csimpl. rewrite zlen_app.
  rewrite IH by (intros x Hx; apply H; by right). rewrite (H s) by left. done.
Qed.

Lemma size_map_of es : NoDup (ce_key <$> es) -> size (map_of es) = length es.
Proof.
  induction es as [|e es IH]; intros Hn; [done|]. csimpl in Hn. apply NoDup_cons in Hn as [H1 H2].
  unfold map_of. csimpl. fold (map_of es). rewrite map_size_insert_None by (by apply map_of_none).
  by rewrite IH.
Qed.

Lemma count_contents c : db_ok c -> kuttidb_count c = Z.of_nat (size (contents c)).
Proof.
  intros Hc. rewrite count_entries by done. unfold contents. by rewrite size_map_of by (by apply all_keys).
Qed.

(** ** The staged scan *)

Section visit.
Context {A : Type} (cb : A -> bytes -> bytes -> Z -> A * Z).

(** The callback on each entry until it stops the scan. *)
Fixpoint visit (es : list cache_entry) (ctx : A) : A * Z :=
  match es with
  | [] => (ctx, 0)
  | e :: r =>
      let '(ctx, stop) := cb ctx (ce_key e) (ce_value e) (ce_exp e) in
      if stop =? 0 then visit r ctx else (ctx, stop)
  end.

Lemma visit_app es es' ctx : visit (es ++ es') ctx =
  let '(ctx, stop) := visit es ctx in if stop =? 0 then visit es' ctx else (ctx, stop).
Proof.
  revert ctx. induction es as [|e es IH]; intros ctx; simpl; [done|].
  destruct (cb _ _ _ _) as [ctx' stop]. destruct (stop =? 0) eqn:E; [apply IH|]. by rewrite E.
Qed.

Lemma stage_length e : length (stage_entry e) = (12 + length (ce_key e) + length (ce_value e))%nat.
Proof. unfold stage_entry. rewrite !length_app, !length_put32. lia. Qed.

Lemma deliver_visit es : forall fuel ctx, Forall (fun e => words_ok (ce_key e) (ce_value e) (ce_exp e)) es ->
  (length (concat (stage_entry <$> es)) <= fuel)%nat ->
  deliver_stage cb fuel (concat (stage_entry <$> es)) ctx = visit es ctx.
Proof.
  induction es as [|e es IH]; intros fuel ctx Hw Hf; [by destruct fuel|].
  inversion Hw as [|? ? (W1 & W2 & W3) Hw']; subst. rewrite fmap_cons in *. cbn [concat] in *.
  rewrite length_app, stage_length in Hf. destruct fuel as [|fuel]; [lia|].
  assert (Hne : exists b r, stage_entry e ++ concat (stage_entry <$> es) = b :: r) by (by do 2 eexists).
  destruct Hne as (b & r & Er). cbn [deliver_stage]. rewrite Er. rewrite <- Er. clear b r Er.
  set (R := concat (stage_entry <$> es)) in *.
  assert (E0 : stage_entry e ++ R = put32 (zlen (ce_key e)) ++ put32 (zlen (ce_value e)) ++
    put32 (ce_exp e) ++ ce_key e ++ ce_value e ++ R) by (unfold stage_entry; by rewrite <- !app_assoc).
  assert (E1 : get32 (stage_entry e ++ R) = zlen (ce_key e)).
  { by rewrite E0, get32_put32, u32_small. }
  assert (E2 : get32 (drop 4 (stage_entry e ++ R)) = zlen (ce_value e)).
  { rewrite E0, drop_app_length' by (by rewrite length_put32). by rewrite get32_put32, u32_small. }
  assert (E3 : drop 8 (stage_entry e ++ R) = put32 (ce_exp e) ++ ce_key e ++ ce_value e ++ R).
  { rewrite E0, app_assoc. apply drop_app_length'. by rewrite length_app, !length_put32. }
  assert (E4 : drop 12 (stage_entry e ++ R) = ce_key e ++ ce_value e ++ R).
  { change 12%nat with (8 + 4)%nat. rewrite <- drop_drop, E3. apply drop_app_length'. by rewrite length_put32. }
  rewrite E1, E2, E3, E4, get32_put32, u32_small by done. unfold zlen. rewrite !Nat2Z.id.
  rewrite take_app_length, drop_app_length, take_app_length.
  replace (Z.to_nat (12 + Z.of_nat (length (ce_key e)) + Z.of_nat (length (ce_value e))))
    with (length (stage_entry e)) by (rewrite stage_length; lia).
  rewrite drop_app_length. simpl. destruct (cb _ _ _ _) as [ctx' stop].
  destruct (stop =? 0); [|done]. apply IH; [done|lia].
Qed.

(** Staging succeeds while memory is available and sizes fit. *)
Lemma stage_spec now es : forall v, zlen (v_data v) <= v_cap v <= SIZE_MAX ->
  zlen (v_data v) + zlen (concat (stage_entry <$> es)) <= SIZE_MAX -> exists cap,
  stage_entries es now v [] =
    (Some {| v_data := v_data v ++
               concat (stage_entry <$> filter (fun e => is_expired e now = false) es);
             v_cap := cap |}, []) /\
  0 <= cap <= SIZE_MAX.
Proof.
  induction es as [|e es IH]; intros v Hv Hs; cbn [stage_entries].
  { pose proof (zlen_nonneg (v_data v)). exists (v_cap v). split; [|lia]. rewrite filter_nil. cbn. rewrite app_nil_r. by destruct v. }
  rewrite fmap_cons in Hs. cbn [concat] in Hs. rewrite zlen_app in Hs.
  assert (En : zlen (stage_entry e) = 12 + zlen (ce_key e) + zlen (ce_value e)).
  { unfold zlen. rewrite stage_length. lia. }
  pose proof (zlen_nonneg (concat (stage_entry <$> es))). pose proof (zlen_nonneg (ce_key e)).
  pose proof (zlen_nonneg (ce_value e)). pose proof (zlen_nonneg (v_data v)).
  rewrite filter_cons. case_decide as Ex.
  2:{ apply not_false_is_true in Ex. rewrite Ex. apply IH; [done|lia]. }
  rewrite Ex, <- En. set (n := zlen (stage_entry e)) in *.
  assert (Hr : exists w, kuttidb_vec_reserve v n true = Some w /\ v_data w = v_data v /\
    zlen (v_data v) + n <= v_cap w <= SIZE_MAX).
  { destruct (reserve_spec v n true ltac:(lia) Hv) as [[? _]|[[? ->]|(? & cap & ? & ->)]];
      [lia|by exists v; split_and!; [..|lia|lia]|]. eexists. split; [done|]. simpl. split; [done|lia]. }
  destruct Hr as (w & Ew & Ed & Hw).
  assert (Edr : draw_realloc v n [] = (true, [])) by (unfold draw_realloc; by destruct (_ <=? _)). rewrite Edr, Ew.
  destruct (IH {| w with v_data := v_data w ++ stage_entry e |}) as (cap & E & Hc);
    [simpl; rewrite zlen_app, Ed; fold n; lia..|].
  exists cap. rewrite E. cbn [v_data]. by rewrite Ed, <- app_assoc.
Qed.

Lemma foreach_visit bits now ss : forall base v ctx, v_cap v <= SIZE_MAX -> 0 <= v_cap v ->
  (forall i s, ss !! i = Some s -> shard_ok bits (base + i) s) ->
  (forall s, s ∈ ss -> zlen (concat (stage_entry <$> shard_entries s)) <= SIZE_MAX) ->
  foreach_shards cb ss now v [] ctx =
  visit (filter (fun e => is_expired e now = false) (concat (shard_entries <$> ss))) ctx.
Proof.
  induction ss as [|s ss IH]; intros base v ctx Hv Hv0 H Hl; [done|]. rewrite fmap_cons.
  cbn [foreach_shards concat]. rewrite filter_app, visit_app.
  destruct (stage_spec now (shard_entries s) {| v with v_data := [] |}) as (cap & -> & Hc);
    cbn [v_data v_cap]; rewrite ?zlen_nil; [lia|apply Hl; by left|].
  rewrite app_nil_l, deliver_visit; [|clear IH|done].
  - destruct (visit _ ctx) as [ctx' stop]. destruct (stop =? 0); [|done].
    apply (IH (S base)); simpl; [lia|lia| |].
    + intros i s' Hi. replace (S (base + i)) with (base + S i)%nat by lia. by apply H.
    + intros s' Hs'. apply Hl. by right.
  - apply Forall_forall. intros e [_ He]%list_elem_of_filter.
    pose proof (so_entries _ _ _ (H 0%nat s eq_refl)) as F. rewrite Forall_forall in F.
    apply (eo_words _ _ _ (F e He)).
Qed.
End visit.

(** ** Metadata pages *)

Section pages.
Context {A : Type} (f : A -> bytes -> Z -> Z -> A) (m : bytes -> Z -> Z -> bool).
Context (c : kuttidb) (now max : Z).

(** The callback [f] never stops the scan. *)
Definition on_each (ctx : A) (k : bytes) (n x : Z) : A * bool := (f ctx k n x, false).
Definition wanted (e : cache_entry) : bool :=
  negb (is_expired e now) && m (ce_key e) (zlen (ce_value e)) (ce_exp e).

Definition deliver_all (es : list cache_entry) (ctx : A) : A :=
  fold_left (fun ctx e => f ctx (ce_key e) (zlen (ce_value e)) (ce_exp e)) es ctx.

(** The wanted entries at or behind a position. *)
Definition in_buckets (bs : list (list cache_entry)) (b : nat) (j : Z) : list cache_entry :=
  List.filter wanted (drop (Z.to_nat j) (nth b bs [])) ++ List.filter wanted (concat (drop (S b) bs)).
Definition tail_of (cur : metadata_cursor) : list cache_entry :=
  let i := Z.to_nat (mc_shard cur) in
  match db_shards c !! i with
  | Some s => in_buckets (sh_buckets s) (Z.to_nat (mc_bucket cur)) (mc_entry cur)
  | None => []
  end ++ List.filter wanted (concat (shard_entries <$> drop (S i) (db_shards c))).

Definition cursor_ok (cur : metadata_cursor) : Prop :=
  0 <= mc_shard cur /\ 0 <= mc_bucket cur /\ 0 <= mc_entry cur.

(** From [p] to [p'] the walk passed the wanted entries [W], in front of [L]. *)
Definition passed (W L : list cache_entry) (p p' : page) : Prop := exists n,
  (n <= length W)%nat /\ p_ctx p' = deliver_all (take n W) (p_ctx p) /\
  p_delivered p' = p_delivered p + Z.of_nat n /\ p_delivered p' <= max /\
  (n = 0%nat -> p_next p' = p_next p) /\
  (n <> 0%nat -> exists cur, p_next p' = Some cur /\ cursor_ok cur /\
     tail_of cur = drop n W ++ L) /\
  (p_end p' = PageOn /\ n = length W \/
   p_end p' = PageMore /\ p_delivered p' = max /\ (n < length W)%nat).

Lemma passed_more W1 W2 L p p1 : passed W1 (W2 ++ L) p p1 -> p_end p1 = PageMore ->
  passed (W1 ++ W2) L p p1.
Proof.
  intros (n & H1 & H2 & H3 & H4 & H5 & H6 & H7) He. exists n. rewrite length_app.
  destruct H7 as [[H7 _]|(_ & H7 & H8)]; [congruence|].
  rewrite take_app_le, drop_app_le, <- app_assoc by done. split_and!; try done; [lia|].
  right. split_and!; [done..|lia].
Qed.

Lemma passed_on W1 W2 L p p1 p2 : passed W1 (W2 ++ L) p p1 -> p_end p1 = PageOn ->
  passed W2 L p1 p2 -> passed (W1 ++ W2) L p p2.
Proof.
  intros (n & H1 & H2 & H3 & H4 & H5 & H6 & H7) He (k & K1 & K2 & K3 & K4 & K5 & K6 & K7).
  destruct H7 as [[_ ->]|[H7 _]]; [|congruence]. exists (length W1 + k)%nat.
  rewrite take_app_add, drop_app_add, length_app. unfold deliver_all. rewrite fold_left_app.
  split; [lia|]. split; [rewrite K2, H2, firstn_all; done|]. split; [lia|]. split; [done|]. split.
  { intros Hz. rewrite K5, H5 by lia. done. }
  split.
  { intros Hn. destruct (decide (k = 0%nat)) as [->|]; [|by apply K6]. rewrite K5 by done.
    destruct H6 as (cur & E & Ho & Hc); [lia|]. exists cur. by rewrite E, Hc, drop_all. }
  destruct K7 as [[? ->]|(? & ? & ?)]; [left; split; [done|lia]|right; split_and!; [done..|lia]].
Qed.
Abbreviation chain_pages := (page_chain on_each (fun _ => m)).
Abbreviation bucket_pages := (page_buckets on_each (fun _ => m)).
Abbreviation shard_pages := (page_shards on_each (fun _ => m)).

Lemma passed_nil L p : p_end p = PageOn -> p_delivered p <= max -> passed [] L p p.
Proof. intros He Hd. exists 0%nat. simpl. split_and!; try done; [lia|]. by left. Qed.

Lemma page_chain_passed i b L chain : 0 <= i -> 0 <= b ->
  (forall j, 0 <= j -> tail_of {| mc_shard := i; mc_bucket := b; mc_entry := j |} =
     List.filter wanted (drop (Z.to_nat j) chain) ++ L) ->
  forall es idx skip p, 0 <= idx -> drop (Z.to_nat idx) chain = es -> p_end p = PageOn ->
  p_delivered p <= max ->
  passed (List.filter wanted (drop (Z.to_nat (skip - idx)) es)) L p
    (chain_pages es i b idx skip now max p).
Proof.
  intros Hi0 Hb0 Ht. induction es as [|e r IH]; intros idx skip p Hi Hd He Hm.
  { rewrite drop_nil. by apply passed_nil. }
  assert (Hr : drop (Z.to_nat (idx + 1)) chain = r).
  { replace (Z.to_nat (idx + 1)) with (Z.to_nat idx + 1)%nat by lia. rewrite <- drop_drop, Hd. done. }
  cbn [page_chain]. destruct (Z.ltb_spec idx skip).
  { simpl. replace (Z.to_nat (skip - idx)) with (S (Z.to_nat (skip - (idx + 1)))) by lia.
    apply IH; [lia|done..]. }
  replace (Z.to_nat (skip - idx)) with 0%nat by lia. rewrite drop_0. simpl. unfold wanted at 1.
  destruct (is_expired e now) eqn:Ex; simpl; [|destruct (m _ _ _) eqn:Em; simpl].
  1,3: specialize (IH (idx + 1) skip p); replace (Z.to_nat (skip - (idx + 1))) with 0%nat in IH by lia;
    apply IH; [lia|done..].
  destruct (Z.eqb_spec (p_delivered p) max) as [E|E].
  - exists 0%nat. simpl. split_and!; try done; [lia..|]. right. split_and!; [done..|lia].
  - set (p1 := {| p_ctx := _; p_delivered := _ |}).
    apply (passed_on [e] _ L p p1); [|done|].
    + exists 1%nat. simpl. split_and!; try done; try lia; [|by left].
      intros _. eexists. split; [done|]. split; [by split_and!; simpl; lia|].
      rewrite Ht by lia. by rewrite Hr.
    + specialize (IH (idx + 1) skip p1). replace (Z.to_nat (skip - (idx + 1))) with 0%nat in IH by lia.
      apply IH; [lia|done|done|]. simpl. lia.
Qed.

(** Compose two parts of the walk. *)
Lemma passed_then W1 W2 L p p1 p2 : passed W1 (W2 ++ L) p p1 ->
  (p_end p1 = PageOn -> p_delivered p1 <= max -> passed W2 L p1 p2) ->
  passed (W1 ++ W2) L p (match p_end p1 with PageOn => p2 | _ => p1 end).
Proof.
  intros H1 H2. pose proof H1 as (n & _ & _ & _ & Hd & _ & _ & [[E _]|[E _]]); rewrite E.
  - eapply passed_on; eauto.
  - by eapply passed_more.
Qed.

Lemma filter_concat (l : list (list cache_entry)) :
  List.filter wanted (concat l) = concat (List.filter wanted <$> l).
Proof. induction l as [|x l IH]; [done|]. csimpl. by rewrite List.filter_app, IH. Qed.

Lemma page_buckets_passed i first L all : 0 <= i ->
  (forall b j, 0 <= b -> 0 <= j -> tail_of {| mc_shard := i; mc_bucket := b; mc_entry := j |} =
     in_buckets all (Z.to_nat b) j ++ L) ->
  forall bs b p, 0 <= b -> drop (Z.to_nat b) all = bs -> p_end p = PageOn -> p_delivered p <= max ->
  0 <= mc_entry first -> (i = mc_shard first -> mc_bucket first <= b) ->
  passed (if (i =? mc_shard first) && (b =? mc_bucket first) then in_buckets all (Z.to_nat b) (mc_entry first)
          else List.filter wanted (concat bs)) L p
    (bucket_pages bs i b first now max p).
Proof.
  intros Hi0 Ht. induction bs as [|ch r IH]; intros b p Hb Hd He Hm Hj Hf.
  { assert (Hl : (length all <= Z.to_nat b)%nat).
    { apply (f_equal length) in Hd. rewrite length_drop in Hd. simpl in Hd. lia. }
    destruct (_ && _); [|by apply passed_nil]. unfold in_buckets.
    rewrite nth_overflow, drop_nil, drop_ge by lia. by apply passed_nil. }
  assert (Hr : drop (Z.to_nat (b + 1)) all = r).
  { replace (Z.to_nat (b + 1)) with (Z.to_nat b + 1)%nat by lia. by rewrite <- drop_drop, Hd. }
  assert (Hch : nth (Z.to_nat b) all [] = ch).
  { rewrite nth_lookup, <- (Nat.add_0_r (Z.to_nat b)), <- lookup_drop, Hd. done. }
  set (skip := if (i =? mc_shard first) && (b =? mc_bucket first) then mc_entry first else 0).
  replace (if _ && _ then _ else _)
    with (List.filter wanted (drop (Z.to_nat (skip - 0)) ch) ++ List.filter wanted (concat r)).
  2:{ rewrite Z.sub_0_r. unfold skip. destruct (_ && _).
      - unfold in_buckets. rewrite Hch. do 3 f_equal. rewrite <- Hr. f_equal. lia.
      - simpl. by rewrite List.filter_app. }
  cbn [page_buckets]. fold skip. apply passed_then.
  - apply (page_chain_passed i b _ ch); try done. intros j Hj'. rewrite Ht by done. unfold in_buckets.
    rewrite Hch, <- app_assoc. do 4 f_equal. rewrite <- Hr. f_equal. lia.
  - intros He1 Hd1. assert (Hf1 : i = mc_shard first -> mc_bucket first <= b + 1) by (intros; lia).
    specialize (IH (b + 1) _ ltac:(lia) Hr He1 Hd1 Hj Hf1). revert IH.
    destruct (Z.eqb_spec i (mc_shard first)); [|done].
    destruct (Z.eqb_spec (b + 1) (mc_bucket first)); [lia|done].
Qed.

Lemma page_shards_passed first : cursor_ok first -> forall ss i p, mc_shard first <= i -> drop (Z.to_nat i) (db_shards c) = ss -> p_end p = PageOn ->
  p_delivered p <= max ->
  passed (if i =? mc_shard first then tail_of first
          else List.filter wanted (concat (shard_entries <$> ss))) [] p
    (shard_pages ss i first now max p).
Proof.
  intros (F1 & F2 & F3). induction ss as [|s ss IH]; intros i p Hi Hd He Hm.
  { assert (Hl : (length (db_shards c) <= Z.to_nat i)%nat).
    { apply (f_equal length) in Hd. rewrite length_drop in Hd. simpl in Hd. lia. }
    destruct (Z.eqb_spec i (mc_shard first)) as [E|]; [|by apply passed_nil]. unfold tail_of.
    rewrite <- E, lookup_ge_None_2, drop_ge by lia. by apply passed_nil. }
  assert (Hr : drop (Z.to_nat (i + 1)) (db_shards c) = ss).
  { replace (Z.to_nat (i + 1)) with (Z.to_nat i + 1)%nat by lia. by rewrite <- drop_drop, Hd. }
  assert (Hs : db_shards c !! Z.to_nat i = Some s).
  { by rewrite <- (Nat.add_0_r (Z.to_nat i)), <- lookup_drop, Hd. }
  set (L := List.filter wanted (concat (shard_entries <$> ss))).
  assert (Ht : forall b j, 0 <= b -> 0 <= j ->
    tail_of {| mc_shard := i; mc_bucket := b; mc_entry := j |} =
    in_buckets (sh_buckets s) (Z.to_nat b) j ++ L).
  { intros b j _ _. unfold tail_of. simpl. rewrite Hs. f_equal. unfold L. do 3 f_equal.
    rewrite <- Hr. f_equal. lia. }
  cbn [page_shards]. set (b := if i =? mc_shard first then mc_bucket first else 0).
  assert (Hb : 0 <= b) by (unfold b; destruct (_ =? _); lia).
  replace (if i =? mc_shard first then tail_of first else _)
    with ((if (i =? mc_shard first) && (b =? mc_bucket first)
           then in_buckets (sh_buckets s) (Z.to_nat b) (mc_entry first)
           else List.filter wanted (concat (drop (Z.to_nat b) (sh_buckets s)))) ++ L).
  2:{ unfold b. destruct (Z.eqb_spec i (mc_shard first)) as [E|]; simpl.
      - rewrite Z.eqb_refl, <- Ht by done. rewrite E. by destruct first.
      - unfold L. csimpl. by rewrite List.filter_app. }
  apply passed_then.
  - apply (page_buckets_passed i first _ (sh_buckets s)); try done; [lia| |].
    + intros. rewrite app_nil_r. by apply Ht.
    + intros E. unfold b. by rewrite E, Z.eqb_refl.
  - intros He1 Hd1. specialize (IH (i + 1) _ ltac:(lia) Hr He1 Hd1). revert IH.
    destruct (Z.eqb_spec (i + 1) (mc_shard first)); [lia|done].
Qed.
(** One page: the first [max] entries from the cursor on, and the cursor
    behind them. *)
Lemma page_spec time start ctx : u32 time = now -> 0 < max ->
  let first := default {| mc_shard := 0; mc_bucket := 0; mc_entry := 0 |} start in
  cursor_ok first -> let W := tail_of first in exists n next,
  kuttidb_foreach_metadata_page_filtered on_each (fun _ => m) c start max time ctx =
    (deliver_all (take (Z.to_nat max) W) ctx, n, Some next, Some (max <? zlen W)) /\
  cursor_ok next /\ tail_of next = drop (Z.to_nat max) W.
Proof.
  intros Hnow Hmax first Ho W. unfold kuttidb_foreach_metadata_page_filtered. fold first.
  destruct (Z.eqb_spec max 0) as [|_]; [lia|].
  destruct (Z.leb_spec (nshards c) (mc_shard first)) as [H|H].
  { assert (E : W = []).
    { unfold W, tail_of. unfold nshards, zlen in H. rewrite lookup_ge_None_2, drop_ge by lia. done. }
    exists 0, first. fold W. clearbody W. subst W. change (zlen []) with 0.
    destruct (Z.ltb_spec max 0); [lia|]. by destruct (Z.to_nat max). }
  rewrite Hnow. set (p0 := {| p_ctx := ctx |}).
  pose proof (page_shards_passed first Ho _ (mc_shard first) p0 (Z.le_refl _) eq_refl eq_refl
    ltac:(simpl; lia)) as P. rewrite Z.eqb_refl in P. fold W in P.
  set (p := shard_pages _ _ _ _ _ _) in *. destruct P as (n & P1 & P2 & P3 & P4 & P5 & P6 & P7).
  simpl in P2, P3, P5.
  assert (Hn : take (Z.to_nat max) W = take n W /\ drop (Z.to_nat max) W = drop n W /\
    (max <? zlen W) = match p_end p with PageMore => true | _ => false end).
  { unfold zlen. destruct P7 as [[-> ->]|(-> & E & ?)].
    - rewrite !take_ge, !drop_ge by lia.
      destruct (Z.ltb_spec max (Z.of_nat (length W))); [lia|done].
    - replace (Z.to_nat max) with n by lia. destruct (Z.ltb_spec max (Z.of_nat (length W))); [done|lia]. }
  destruct Hn as (-> & -> & ->). rewrite <- P2. destruct (decide (n = 0%nat)) as [->|Hn].
  - destruct P7 as [[-> P7]|(_ & P7 & _)]; [|lia]. rewrite P5 by done. do 2 eexists. split; [done|].
    split; [by split_and!; simpl; [apply zlen_nonneg|..]|]. destruct W; [|done].
    unfold tail_of, nshards, zlen. simpl. rewrite lookup_ge_None_2, drop_ge by lia. done.
  - destruct (P6 Hn) as (cur & -> & Hc & Ht). rewrite app_nil_r in Ht.
    destruct P7 as [[-> _]|(-> & _)]; by exists (p_delivered p), cur.
Qed.

(** Following the cursors until there is no more. *)
Fixpoint page_through (fuel : nat) (start : option metadata_cursor) (time : Z) (ctx : A) : option A :=
  match fuel with
  | O => None
  | S fuel =>
      match kuttidb_foreach_metadata_page_filtered on_each (fun _ => m) c start max time ctx with
      | (ctx, _, Some next, Some true) => page_through fuel (Some next) time ctx
      | (ctx, _, _, Some false) => Some ctx
      | _ => None
      end
  end.

Lemma page_through_spec time fuel : u32 time = now -> 0 < max -> forall start ctx,
  let first := default {| mc_shard := 0; mc_bucket := 0; mc_entry := 0 |} start in
  cursor_ok first -> (length (tail_of first) < fuel)%nat ->
  page_through fuel start time ctx = Some (deliver_all (tail_of first) ctx).
Proof.
  intros Hnow Hmax. induction fuel as [|fuel IH]; intros start ctx first Ho Hl; [lia|]. simpl.
  destruct (page_spec time start ctx Hnow Hmax Ho) as (n & next & -> & Hn & Ht). fold first in Ht |- *.
  set (W := tail_of first) in *. unfold zlen. destruct (Z.ltb_spec max (Z.of_nat (length W))).
  - rewrite (IH (Some next)); [simpl|done|simpl; rewrite Ht, length_drop; lia].
    rewrite Ht. unfold deliver_all. by rewrite <- fold_left_app, take_drop.
  - by rewrite take_ge by lia.
Qed.

Lemma tail_of_start : tail_of {| mc_shard := 0; mc_bucket := 0; mc_entry := 0 |} =
  List.filter wanted (all_entries c).
Proof.
  unfold tail_of, all_entries, in_buckets. simpl. destruct (db_shards c) as [|s ss]; [done|]. csimpl.
  rewrite List.filter_app. rewrite drop_0. f_equal.
  unfold shard_entries. destruct (sh_buckets s) as [|ch bs]; [done|]. simpl.
  by rewrite !drop_0, List.filter_app.
Qed.
End pages.
End CacheScan.

(** * Memory accounting of the cache

    As long as every entry comes from the slabs, the memory counter is exactly
    the bucket arrays plus the slot sizes of the stored entries. *)

Import Cache CacheSlab CacheTable CacheMap CacheSweep CacheRun.

Module CacheAccount.

(** ** One shard *)

Definition footprint (s : shard) : Z :=
  nbuckets s * SIZEOF_PTR + zsum freed_size (shard_entries s).

Definition in_slabs (e : cache_entry) : Prop := ce_cls e <> DIRECT_CLS.

Record tight (s : shard) : Prop := {
  ti_slabs : Forall in_slabs (shard_entries s);
  ti_mem : sh_mem s = u64 (footprint s) }.

(** A step between entries [e] and [ne] that keeps the buckets. *)
Lemma tight_step s s' old new rest : tight s ->
  shard_entries s ≡ₚ old ++ rest -> shard_entries s' ≡ₚ new ++ rest -> Forall in_slabs new ->
  nbuckets s' = nbuckets s ->
  sh_mem s' = u64 (sh_mem s + (zsum freed_size new - zsum freed_size old)) -> tight s'.
Proof.
  intros [T1 T2] P1 P2 Hn Eb Em. constructor.
  - rewrite P2. apply Forall_app_2; [done|]. rewrite P1 in T1. by apply Forall_app in T1 as [_ ?].
  - rewrite Em, T2, u64_add_l. unfold footprint. rewrite (zsum_perm _ _ _ P1), (zsum_perm _ _ _ P2).
    rewrite !zsum_app, Eb. f_equal. lia.
Qed.

Lemma set_nbuckets (s s' : shard) b l : sh_buckets s' = <[b := l]> (sh_buckets s) ->
  nbuckets s' = nbuckets s.
Proof. intros E. unfold nbuckets, zlen. by rewrite E, length_insert. Qed.

Lemma remove_tight bits i s g b ch l e s' g' : shard_ok bits i s -> tight s ->
  sh_buckets s !! b = Some ch -> ch ≡ₚ e :: l -> remove_locked s g b l e = (s', g') -> tight s'.
Proof.
  intros Hs Ht Hb P E. destruct (remove_locked_spec _ _ _ _ _ _ _ _ _ _ Hs Hb P E) as (_ & P1 & B & _).
  assert (Em : sh_mem s' = u64 (sh_mem s - freed_size e)).
  { revert E. unfold remove_locked, entry_free, shard_slab_free_all.
    destruct (ce_exp e =? 0), (ce_cls e =? DIRECT_CLS); cbn [fst snd];
      match goal with |- context [if ?x =? 0 then _ else _] => destruct (x =? 0) end;
      by intros [= <- _]. }
  apply (tight_step s s' [e] [] (shard_entries s')); try done.
  - by eapply set_nbuckets.
  - rewrite Em. f_equal. simpl. lia.
Qed.

Lemma rehash_len n bs : 0 <= n -> zlen (rehash_into n bs) = n.
Proof.
  intros Hn. unfold rehash_into. assert (H : forall es nb,
    zlen (fold_left (fun nb e => alter (cons e) (bucket_of n (ce_hash e)) nb) es nb) = zlen nb).
  { induction es as [|e es IH]; intros nb; cbn [fold_left]; [done|]. rewrite IH. apply zlen_alter. }
  rewrite H. unfold zlen. rewrite length_replicate. lia.
Qed.

Lemma resize_tight bits i s g s' g' : shard_ok bits i s -> tight s -> maybe_resize s g = (s', g') ->
  tight s'.
Proof.
  intros Hs Ht E. destruct (maybe_resize_spec _ _ _ _ _ _ Hs E) as (_ & P & _). revert E P.
  unfold maybe_resize. destruct (_ <=? _); [by intros [= <- _]|].
  destruct (block_alloc g _) as [[] g1]; simpl; [|by intros [= <- _]].
  intros [= <- _] P. destruct Ht as [T1 T2]. constructor; [by rewrite P|]. cbn [sh_mem].
  unfold footprint. rewrite (zsum_perm _ _ _ P), T2, u64_add_l. f_equal. unfold footprint, nbuckets.
  cbn [sh_buckets]. rewrite rehash_len by (pose proof (zlen_nonneg (sh_buckets s)); lia). lia.
Qed.

Lemma replaced_perm s s' h key e ne b ch : sh_buckets s !! b = Some ch -> find_entry h key ch = Some e ->
  sh_buckets s' = <[b := replace_entry h key ne ch]> (sh_buckets s) -> exists rest,
  shard_entries s ≡ₚ [e] ++ rest /\ shard_entries s' ≡ₚ [ne] ++ rest.
Proof.
  intros Hb F B. apply find_entry_some in F as (r & P1 & _ & _ & _ & P2). specialize (P2 ne).
  destruct (concat_insert _ _ _ Hb) as (rs & Q1 & Q2). exists (r ++ rs). unfold shard_entries.
  specialize (Q2 (replace_entry h key ne ch)). split; [by rewrite Q1, P1|by rewrite B, Q2, P2].
Qed.

Lemma suits_slab x total : suits x total -> total <= SLAB_MAX_ENTRY ->
  x.1 <> DIRECT_CLS /\ charge x total = size_of_class x.1.
Proof.
  intros [[_ H]|(H & _ & _)] Ht; [lia|]. change (zlen class_sz) with 27 in H.
  assert (Hd : x.1 <> DIRECT_CLS) by (unfold DIRECT_CLS; lia). split; [done|].
  unfold charge, in_slab. by destruct (Z.eqb_spec x.1 DIRECT_CLS).
Qed.

Lemma freed_slab e : in_slabs e -> freed_size e = size_of_class (ce_cls e).
Proof. intros H. unfold freed_size. by destruct (Z.eqb_spec (ce_cls e) DIRECT_CLS). Qed.

Lemma entry_free_mem s g e s' g' : entry_free s g e = (s', g') ->
  sh_buckets s' = sh_buckets s /\ sh_mem s' = u64 (sh_mem s - freed_size e).
Proof.
  unfold entry_free. destruct (ce_exp e =? 0), (ce_cls e =? DIRECT_CLS); by intros [= <- _].
Qed.

Lemma in_place_tight s h key e value exp b : tight s -> sh_buckets s !! b = Some (chain_at s b) ->
  find_entry h key (chain_at s b) = Some e ->
  tight (set_chain s b (replace_entry h key {| e with ce_value := value; ce_exp := exp |} (chain_at s b))).
Proof.
  intros Ht Hb F. set (ne := {| e with ce_value := value; ce_exp := exp |}).
  set (s' := set_chain s b (replace_entry h key ne (chain_at s b))).
  destruct (replaced_perm s s' h key e ne b _ Hb F eq_refl) as (rest & P1 & P2).
  assert (He : in_slabs e).
  { destruct Ht as [T _]. rewrite Forall_forall in T. apply T. rewrite P1. by left. }
  apply (tight_step s s' [e] [ne] rest); try done; [by repeat constructor|by eapply set_nbuckets|].
  simpl. rewrite !freed_slab by done. destruct Ht as [_ T2]. simpl.
  rewrite T2, u64_add_l. f_equal. lia.
Qed.

Lemma put_tight bits i s g key value exp r s' g' : shard_ok bits i s -> tight s ->
  words_ok key value exp -> Z.to_nat (Z.shiftr (hash_key key) (32 - bits)) = i ->
  SIZEOF_ENTRY + zlen key + zlen value <= SLAB_MAX_ENTRY ->
  put_locked s g (hash_key key) key value exp = (r, s', g') -> tight s'.
Proof.
  intros Hs Ht Hw Hi Hn. unfold put_locked. set (h := hash_key key). set (b := bucket_of (nbuckets s) h).
  pose proof (chain_lookup _ _ _ h Hs) as Hb. fold b in Hb.
  destruct (find_entry h key (chain_at s b)) as [e|] eqn:F.
  - destruct (Z.leb_spec (SIZEOF_ENTRY + zlen key + zlen value) (entry_capacity e)).
    { intros [= <- <- <-]. by apply (in_place_tight s h key e). }
    destruct (entry_alloc s g _) as [[[x|] s1] g1] eqn:EA.
    2:{ apply (entry_alloc_spec _ _ _ _ _ _ _ (so_slab _ _ _ Hs)) in EA as (-> & _).
        by intros [= <- <- <-]. }
    destruct (entry_alloc_spec _ _ _ _ _ _ _ (so_slab _ _ _ Hs) EA) as [_ A2 _ A4 A5 _ _].
    destruct (suits_slab _ _ A4 Hn) as [X1 X2]. rewrite X2 in A5.
    destruct (entry_free _ _ e) as [s2 g2] eqn:EF. intros [= <- <- <-].
    set (ne := new_entry h key value exp x) in *.
    destruct (entry_free_mem _ _ _ _ _ EF) as [B2 M2]. simpl in B2, M2. rewrite A2 in B2. rewrite A5 in M2.
    destruct (replaced_perm s s2 h key e ne b _ Hb F B2) as (rest & P1 & P2).
    eapply (tight_step s s2 [e] [ne] rest); try done; [by repeat constructor|by eapply set_nbuckets|].
    rewrite M2, u64_sub_l. simpl. rewrite (freed_slab ne) by done. f_equal. simpl. lia.
  - destruct (entry_alloc s g _) as [[[x|] s1] g1] eqn:EA.
    2:{ apply (entry_alloc_spec _ _ _ _ _ _ _ (so_slab _ _ _ Hs)) in EA as (-> & _).
        by intros [= <- <- <-]. }
    destruct (entry_alloc_spec _ _ _ _ _ _ _ (so_slab _ _ _ Hs) EA) as [_ A2 _ A4 A5 _ _].
    destruct (suits_slab _ _ A4 Hn) as [X1 X2]. rewrite X2 in A5.
    destruct (put_insert_spec bits i s g key value exp x s1 g1 Hs Hw Hi F EA) as (S1 & _ & _).
    fold h b in S1. destruct (maybe_resize _ _) as [s4 g4] eqn:ER. intros [= <- <- <-].
    eapply resize_tight; [exact S1| |exact ER]. set (ne := new_entry h key value exp x) in *.
    destruct (concat_insert _ _ _ Hb) as (rs & Q1 & Q2). specialize (Q2 (ne :: chain_at s b)).
    eapply (tight_step s _ [] [ne] (shard_entries s)); try done; [|by repeat constructor| |].
    + unfold shard_entries. simpl. by rewrite A2, Q2, Q1.
    + eapply set_nbuckets. simpl. by rewrite A2.
    + simpl. rewrite A5, (freed_slab ne) by done. f_equal. simpl. lia.
Qed.
(** ** Sections *)

(** The cache is unchanged but for its counters, or one entry left a chain. *)
Definition one_removed (c c' : kuttidb) : Prop :=
  db_shards c' = db_shards c \/
  exists i s s' g g' b ch l e, db_shards c !! i = Some s /\ sh_buckets s !! b = Some ch /\
    ch ≡ₚ e :: l /\ remove_locked s g b l e = (s', g') /\ db_shards c' = <[i := s']> (db_shards c).

Lemma evict_removes c : db_ok c -> one_removed c (evict_one c).
Proof.
  intros Hc. unfold evict_one. destruct (kuttidb_rand (db_g c)) as [r g1].
  destruct (db_shards c !! _) as [s|] eqn:Hi; [|by left]. destruct (sh_count s =? 0); [by left|].
  destruct (kuttidb_rand g1) as [x g2]. destruct (probe_bucket _ _ _) as [b|] eqn:Eb; [|by left].
  destruct (chain_at s b) as [|e l] eqn:El; [by left|].
  destruct (remove_locked s g2 b l e) as [s' g3] eqn:E3.
  destruct (so_size _ _ _ (do_shards _ Hc _ _ Hi)) as (k & Hk & En).
  pose proof (probe_bucket_lt _ _ _ _ _ Hk En Eb) as Hb. right.
  exists (masked_shard c r), s, s', g2, g3, b, (e :: l), l, e.
  split_and!; try done. rewrite <- El. unfold chain_at.
  destruct (nth_lookup_or_length (sh_buckets s) b []); [done|lia].
Qed.

Lemma unlink_removes c key s e s' g g' f : db_ok c ->
  let i := shard_for c (hash_key key) in let b := bucket_of (nbuckets s) (hash_key key) in
  db_shards c !! i = Some s -> find_entry (hash_key key) key (chain_at s b) = Some e ->
  remove_locked s g b (unlink_entry (hash_key key) key (chain_at s b)) e = (s', g') ->
  one_removed c (set_shard c i s' f).
Proof.
  intros Hc i b Hi F E. pose proof (chain_lookup _ _ _ (hash_key key) (do_shards _ Hc _ _ Hi)) as Hb.
  apply find_entry_some in F as (r & P1 & P2 & _). right. do 9 eexists.
  split; [exact Hi|]. split; [exact Hb|]. split; [|split; [exact E|done]]. fold b. by rewrite P2.
Qed.

Lemma cleanup_removes c key : db_ok c -> one_removed c (get_cleanup c key).
Proof.
  intros Hc. unfold get_cleanup. destruct (db_shards c !! _) as [s|] eqn:Hi; [|by left].
  destruct (find_entry _ _ _) as [e|] eqn:F; [|by left].
  destruct (remove_locked _ _ _ _ _) as [s' g] eqn:E. by eapply unlink_removes.
Qed.

Lemma delete_removes c key : db_ok c -> one_removed c (kuttidb_delete c key).2.
Proof.
  intros Hc. unfold kuttidb_delete. destruct (db_shards c !! _) as [s|] eqn:Hi; [|by left].
  destruct (find_entry _ _ _) as [e|] eqn:F; [|by left].
  destruct (remove_locked _ _ _ _ _) as [s' g] eqn:E. by eapply unlink_removes.
Qed.

Definition all_tight (c : kuttidb) : Prop := Forall tight (db_shards c).

Lemma tight_at c i s : all_tight c -> db_shards c !! i = Some s -> tight s.
Proof. unfold all_tight. rewrite Forall_lookup. eauto. Qed.

Lemma tight_insert c c' i s' : all_tight c -> tight s' -> db_shards c' = <[i := s']> (db_shards c) ->
  all_tight c'.
Proof. intros H Hs E. unfold all_tight. rewrite E. by apply Forall_insert. Qed.

Lemma removed_tight c c' : db_ok c -> all_tight c -> one_removed c c' -> all_tight c'.
Proof.
  intros Hc Ht [E|(i & s & s' & g & g' & b & ch & l & e & Hi & Hb & P & E & E')].
  - unfold all_tight. by rewrite E.
  - eapply tight_insert; [done| |done].
    eapply remove_tight; [by apply (do_shards _ Hc)|by eapply tight_at|done..].
Qed.

Lemma sweep_chain_tight bits i b now rest : forall kept s g s' g', shard_ok bits i s -> tight s ->
  sh_buckets s !! b = Some (kept ++ rest) -> sweep_chain kept rest s g b now = (s', g') -> tight s'.
Proof.
  induction rest as [|e r IH]; intros kept s g s' g' Hs Ht Hb; cbn [sweep_chain]; [by intros [= <- _]|].
  destruct (is_expired e now).
  - destruct (remove_locked s g b (kept ++ r) e) as [s1 g1] eqn:E.
    assert (P : kept ++ e :: r ≡ₚ e :: kept ++ r) by (by rewrite Permutation_middle).
    destruct (remove_locked_spec bits i s g b _ _ e s1 g1 Hs Hb P E) as (Hs1 & _ & B & _).
    apply IH; [done|exact (remove_tight _ _ _ _ _ _ _ _ _ _ Hs Ht Hb P E)|]. rewrite B. apply list_lookup_insert_eq.
    by eapply lookup_lt_Some.
  - intros E. apply (IH (kept ++ [e]) s g s' g'); try done. by rewrite <- app_assoc.
Qed.

Lemma sweep_tight c now : db_ok c -> all_tight c -> all_tight (sweep_round c now).
Proof.
  intros Hc Ht. unfold sweep_round. destruct (db_shards c !! _) as [s|] eqn:Hi; [|done].
  pose proof (do_shards _ Hc _ _ Hi) as Ho. destruct (sweep_chain _ _ _ _ _ _) as [s' g] eqn:E.
  eapply tight_insert; [done| |done]. eapply sweep_chain_tight; [exact Ho|by eapply tight_at| |exact E].
  by apply (chain_lookup _ _ _ _ Ho).
Qed.

(** Sections that store entries of at most [SLAB_MAX_ENTRY] bytes. *)
Definition section_small (x : section) : Prop :=
  match x with
  | SPut key value _ => SIZEOF_ENTRY + zlen key + zlen value <= SLAB_MAX_ENTRY
  | _ => True
  end.

Lemma section_tight c x : db_ok c -> all_tight c -> section_ok x -> section_small x ->
  all_tight (run_section c x).
Proof.
  intros Hc Ht Hx Hm. destruct x as [key value exp| |key|key|now|budget|]; simpl; try done.
  - destruct (shard_lookup c (hash_key key) Hc (hash_key_fits key)) as (s & Hs & Hi). rewrite Hs.
    destruct (put_locked _ _ _ _ _ _) as [[r s'] g] eqn:E.
    eapply tight_insert; [done| |done].
    eapply put_tight; [by apply (do_shards _ Hc)|by eapply tight_at|done|exact Hi|done|exact E].
  - eapply removed_tight; [done..|by apply evict_removes].
  - eapply removed_tight; [done..|by apply cleanup_removes].
  - eapply removed_tight; [done..|by apply delete_removes].
  - by apply sweep_tight.
Qed.

Lemma sections_tight xs : forall c, db_ok c -> all_tight c -> Forall section_ok xs ->
  Forall section_small xs -> db_ok (run_sections c xs) /\ all_tight (run_sections c xs).
Proof.
  induction xs as [|x xs IH]; intros c Hc Ht Ho Hm; [done|].
  inversion Ho; inversion Hm; subst. simpl. apply IH; try done; [by apply section_db_ok|].
  by apply section_tight.
Qed.

Lemma create_tight n initial now allocs c : kuttidb_create n initial now allocs = Some c -> all_tight c.
Proof.
  unfold kuttidb_create. destruct (malloc _) as [[] g1]; simpl; [|done].
  destruct (malloc g1) as [[] g2]; simpl; [|done]. unfold init_shards.
  destruct (round_buckets_spec 64 (Z.max 16 initial) 4) as (k & Hk & Ek); [lia|].
  change (2 ^ 4) with 16 in Ek. rewrite Ek. destruct (_ <? _); [done|].
  destruct (init_loop _ _ _) as [[[] l] g3] eqn:E3; [|done]. intros [= <-].
  destruct (init_loop_spec _ _ _ _ _ E3) as (-> & _). apply Forall_replicate.
  constructor; rewrite ?new_shard_entries; [done|]. unfold footprint. rewrite new_shard_entries. simpl.
  unfold nbuckets, zlen. simpl. rewrite length_replicate. rewrite Z2Nat.id by (apply Z.pow_nonneg; lia).
  f_equal. lia.
Qed.

Lemma footprint_total c : zsum footprint (db_shards c) =
  zsum nbuckets (db_shards c) * SIZEOF_PTR + zsum freed_size (all_entries c).
Proof.
  unfold all_entries. induction (db_shards c) as [|s ss IH]; [done|]. csimpl. rewrite zsum_app, IH.
  unfold footprint. lia.
Qed.

Lemma tight_total c : db_ok c -> all_tight c -> kuttidb_memusage c = u64 (zsum footprint (db_shards c)).
Proof.
  intros Hc Ht. unfold kuttidb_memusage. rewrite (do_total _ Hc). unfold all_tight in Ht. clear Hc.
  induction Ht as [|s ss [_ Hs] _ IH]; [done|]. simpl. rewrite <- u64_add_r, IH, u64_add_r, Hs.
  by rewrite u64_add_l.
Qed.
End CacheAccount.
