(* ===== verification/CacheTheorems.v ===== *)
(** * Theorems about the cache

    The properties of kuttidb.c: every interleaving of locked sections keeps
    the tables and slabs sound, the interface behaves as a map with expiry,
    a sweep collects what has expired, scans are exact, the memory counter is
    exact for entries in slabs, and the two ways in which it is not. *)

From stdpp Require Import base numbers option list gmap.
From S2P Require Import Prelude Cache CacheSlab CacheTable CacheMap CacheRun CacheAccount.
Import Cache CacheBounds CacheSlab CacheTable CacheMap CacheSweep CacheRun CacheScan CacheAccount.

Module CacheTheorems.

(** ** Reachable caches *)

Definition reachable_cache (c : kuttidb) : Prop := exists n initial now allocs c0,
  0 <= n <= 2 ^ 32 /\ kuttidb_create n initial now allocs = Some c0 /\ leads c0 c.

Lemma reachable_ok c : reachable_cache c -> db_ok c.
Proof.
  intros (n & initial & now & allocs & c0 & Hn & E & L). eapply leads_ok; [|exact L].
  by apply (create_ok n initial now allocs).
Qed.

Lemma reachable_leads c c' : reachable_cache c -> leads c c' -> reachable_cache c'.
Proof.
  intros (n & initial & now & allocs & c0 & Hn & E & L) L'. exists n, initial, now, allocs, c0.
  split; [done|]. split; [done|]. by eapply leads_trans.
Qed.

(** A small cache for the examples: two shards of sixteen buckets. *)
Definition cache0 : kuttidb :=
  default {| db_shards := []; db_shard_bits := 0;
             db_g := {| g_budget := 0; g_total_mem := 0; g_allocated_mem := 0; g_expired := 0;
                        g_evicted := 0; g_ttl_entries := 0; g_rseed := 0; g_revision := 0;
                        g_sweep_cursor := 0; g_allocs := [] |} |}
    (kuttidb_create 2 16 7 []).

Lemma cache0_reachable : reachable_cache cache0.
Proof.
  exists 2, 16, 7, [], cache0. split; [lia|]. split; [by vm_compute|apply leads_refl].
Qed.

(** ** The interface *)

Inductive cache_op :=
  | OPut (key value : bytes) (ttl_ms now : Z)
  | OGet (key : bytes) (time : Z)
  | ODelete (key : bytes)
  | OSweep (work time : Z)
  | OBudget (budget : Z).

Inductive answer := ARc (rc : Z) | AValue (rc : Z) (v : option bytes) | ADone.

Definition run_op (c : kuttidb) (o : cache_op) : answer * kuttidb :=
  match o with
  | OPut key value ttl_ms now => let '(rc, c) := kuttidb_put_ex c key value ttl_ms now in (ARc rc, c)
  | OGet key time => let '(rc, v, c) := kuttidb_get c key time in (AValue rc v, c)
  | ODelete key => let '(rc, c) := kuttidb_delete c key in (ARc rc, c)
  | OSweep work time => (ADone, kuttidb_sweep_expired c work time)
  | OBudget budget => (ADone, kuttidb_set_budget c budget)
  end.

Fixpoint run_ops (c : kuttidb) (os : list cache_op) : list answer * kuttidb :=
  match os with
  | [] => ([], c)
  | o :: os =>
      let '(a, c) := run_op c o in
      let '(l, c) := run_ops c os in (a :: l, c)
  end.

Definition op_ok (o : cache_op) : Prop :=
  match o with
  | OPut key value ttl_ms now => fits 32 (zlen key) /\ fits 32 (zlen value) /\ 0 <= ttl_ms
  | _ => True
  end.

(** The abstract cache is a map and a budget.  Without a budget a write is
    exactly an insertion; with one, entries may be dropped.  A write fails
    only by leaving the key as it was; reads drop the key when it has expired,
    a sweep drops expired keys only. *)
Definition expired_pair (now : Z) (p : bytes * Z) : bool := negb (p.2 =? 0) && (p.2 <=? now).

Inductive map_step : cmap * Z -> cache_op -> answer -> cmap * Z -> Prop :=
  | MPut m b key value ttl now m' :
      let new := <[key := (value, kuttidb_expiry_from_ttl ttl now)]> m in
      m' ⊆ new -> (b = 0 -> m' = new) -> map_step (m, b) (OPut key value ttl now) (ARc 0) (m', b)
  | MPutFailed m b key value ttl now m' :
      m' ⊆ m -> (b = 0 -> m' = m) -> map_step (m, b) (OPut key value ttl now) (ARc (-1)) (m', b)
  | MGet m b key time v x :
      m !! key = Some (v, x) -> expired_pair (u32 time) (v, x) = false ->
      map_step (m, b) (OGet key time) (AValue 1 (Some v)) (m, b)
  | MGetFailed m b key time v x :
      m !! key = Some (v, x) -> expired_pair (u32 time) (v, x) = false ->
      map_step (m, b) (OGet key time) (AValue (-1) None) (m, b)
  | MGetExpired m b key time v x :
      m !! key = Some (v, x) -> expired_pair (u32 time) (v, x) = true ->
      map_step (m, b) (OGet key time) (AValue 0 None) (delete key m, b)
  | MGetNone m b key time :
      m !! key = None -> map_step (m, b) (OGet key time) (AValue 0 None) (m, b)
  | MDelete m b key p :
      m !! key = Some p -> map_step (m, b) (ODelete key) (ARc 1) (delete key m, b)
  | MDeleteNone m b key :
      m !! key = None -> map_step (m, b) (ODelete key) (ARc 0) (m, b)
  | MSweep m b work time m' :
      m' ⊆ m ->
      (forall key p, m !! key = Some p -> m' !! key = None -> expired_pair (u32 time) p = true) ->
      map_step (m, b) (OSweep work time) ADone (m', b)
  | MBudget m b b' : map_step (m, b) (OBudget b') ADone (m, b').

Inductive map_steps : cmap * Z -> list cache_op -> list answer -> cmap * Z -> Prop :=
  | MNil x : map_steps x [] [] x
  | MCons x o a y os l z : map_step x o a y -> map_steps y os l z -> map_steps x (o :: os) (a :: l) z.

Definition abs (c : kuttidb) : cmap * Z := (contents c, g_budget (db_g c)).

Lemma put_ok_words key value ttl now : fits 32 (zlen key) -> fits 32 (zlen value) ->
  words_ok key value (kuttidb_expiry_from_ttl ttl now).
Proof.
  intros Hk Hv. split; [done|]. split; [done|]. unfold kuttidb_expiry_from_ttl.
  destruct (ttl =? 0); [done|]. apply u32_fits.
Qed.

Lemma swept_map now c c' : db_ok c -> swept now c c' -> contents c' ⊆ contents c /\
  forall key p, contents c !! key = Some p -> contents c' !! key = None -> expired_pair now p = true.
Proof.
  intros Hc [Hc' _ _ _ (gone & Hg & P)]. pose proof (all_keys c Hc) as Hn.
  assert (E : contents c = map_of gone ∪ contents c').
  { unfold contents. rewrite (map_of_perm _ _ Hn P). unfold map_of.
    by rewrite fmap_app, list_to_map_app. }
  rewrite P, fmap_app in Hn. apply NoDup_app in Hn as (_ & Hd & _).
  assert (D : map_of gone ##ₘ contents c').
  { apply map_disjoint_spec. intros k x y Hx Hy.
    apply elem_of_list_to_map_2 in Hx, Hy. apply (Hd k).
    - rewrite <- kv_keys. apply list_elem_of_fmap. by exists (k, x).
    - rewrite <- kv_keys. apply list_elem_of_fmap. by exists (k, y). }
  split; [rewrite E; by apply map_union_subseteq_r|]. intros key p Hp Hnone. rewrite E in Hp.
  apply lookup_union_Some in Hp as [Hp|Hp]; [|congruence|done].
  apply elem_of_list_to_map_2, list_elem_of_fmap in Hp as (e & [= -> ->] & He).
  rewrite Forall_forall in Hg. exact (Hg e He).
Qed.

Lemma sweep_map c work time : db_ok c ->
  swept (u32 time) c (kuttidb_sweep_expired c work time).
Proof.
  intros Hc. unfold kuttidb_sweep_expired. destruct (_ =? 0); [by apply swept_refl|].
  generalize (Z.to_nat work) as n. intros n. revert c Hc.
  induction n as [|n IH]; intros c Hc; simpl; [by apply swept_refl|].
  destruct (sweep_round_spec c (u32 time) Hc) as (S & _). eapply swept_trans; [exact S|].
  apply IH, S.
Qed.
Lemma op_refines c o a c' : db_ok c -> op_ok o -> run_op c o = (a, c') ->
  db_ok c' /\ map_step (abs c) o a (abs c').
Proof.
  intros Hc Ho. destruct o as [key value ttl now|key time|key|work time|budget]; simpl.
  - destruct (kuttidb_put_ex _ _ _ _ _) as [rc c1] eqn:E. intros [= <- <-].
    destruct Ho as (H1 & H2 & H3). pose proof (put_ok_words key value ttl now H1 H2) as Hw.
    destruct (kuttidb_put_abs_spec _ _ _ _ _ _ Hc Hw E) as (Hc1 & Eb & [(-> & H4 & H5)|(-> & H4 & H5)]);
      (split; [done|]); unfold abs; rewrite Eb; by constructor.
  - destruct (kuttidb_get c key time) as [[rc v] c1] eqn:E. intros [= <- <-].
    destruct (kuttidb_get_spec _ _ _ _ _ _ Hc E) as (Hc1 & Eb & H). split; [done|].
    unfold abs. rewrite Eb. unfold read_at in H. destruct (contents c !! key) as [[w x]|] eqn:Ek.
    + destruct (negb (x =? 0) && (x <=? u32 time)) eqn:Ex.
      * destruct H as (-> & -> & ->). by apply (MGetExpired _ _ _ _ w x).
      * destruct H as ([[-> ->]|[-> ->]] & ->); [by apply (MGet _ _ _ _ w x)|by apply (MGetFailed _ _ _ _ w x)].
    + destruct H as (-> & -> & ->). by constructor.
  - destruct (kuttidb_delete c key) as [rc c1] eqn:E. intros [= <- <-].
    destruct (kuttidb_delete_spec _ _ _ _ Hc E) as (Hc1 & Em & -> & Eb). split; [done|].
    unfold abs. rewrite Eb, Em. destruct (contents c !! key) as [p|] eqn:Ek.
    + by apply (MDelete _ _ _ p).
    + rewrite delete_id by done. by constructor.
  - intros [= <- <-]. pose proof (sweep_map c work time Hc) as S. split; [apply S|].
    destruct (swept_map _ _ _ Hc S) as [H1 H2]. unfold abs. rewrite (sw_budget _ _ _ S). by constructor.
  - intros [= <- <-]. split; [by destruct Hc|]. constructor.
Qed.

Lemma op_leads c o : op_ok o -> leads c (run_op c o).2.
Proof.
  intros Ho. destruct o as [key value ttl now|key time|key|work time|budget]; simpl.
  - destruct Ho as (H1 & H2 & _). pose proof (put_abs_leads c _ _ _ (put_ok_words key value ttl now H1 H2)) as L.
    fold (kuttidb_put_ex c key value ttl now) in L. by destruct (kuttidb_put_ex c key value ttl now).
  - pose proof (get_leads c key time) as L. by destruct (kuttidb_get c key time) as [[? ?] ?].
  - pose proof (leads_one c (SDelete key) I) as L. simpl in L. by destruct (kuttidb_delete c key).
  - apply sweep_leads.
  - by apply (leads_one c (SBudget budget)).
Qed.

(** ** Soundness of every interleaving *)

(** C23. Take a cache that [kuttidb_create] returned and let any number of
    threads run locked sections on it, in any order and with any allocation
    failing: the write of a key, an eviction, the removal of a key that a read
    found expired, a delete, one round of the sweep, a change of the budget,
    the copy of a read.  Then each key is stored once, in the shard and bucket
    of its hash; counts and expiry counters are exact; every slot carved from
    a slab is in use once or free; and the calls of the interface, however
    they end, are runs of such sections. *)
Theorem cache_sections_sound n initial now allocs c xs :
  0 <= n <= 2 ^ 32 -> kuttidb_create n initial now allocs = Some c -> Forall section_ok xs ->
  db_ok (run_sections c xs) /\
  kuttidb_count (run_sections c xs) = Z.of_nat (size (contents (run_sections c xs))) /\
  forall o, op_ok o -> leads (run_sections c xs) (run_op (run_sections c xs) o).2.
Proof.
  intros Hn E Hx. assert (Hc : db_ok (run_sections c xs)).
  { apply (leads_ok c); [by apply (create_ok n initial now allocs)|by exists xs]. }
  split; [done|]. split; [by apply count_contents|]. intros o. apply op_leads.
Qed.

Lemma cache_sections_sound_witness :
  db_ok (run_sections cache0 [SPut [1] [2] 0; SEvict; SPut [1] [3] 9; SSweep 10]).
Proof.
  eapply (cache_sections_sound 2 16 7 [] cache0); [lia|by vm_compute|].
  by repeat constructor; vm_compute.
Defined.

(** ** The map *)

(** C12. Whatever sequence of puts, gets, deletes, sweeps and budget changes
    is run on a reachable cache, the results are those of a map from keys to
    values and expiry times: without a budget a successful put inserts exactly
    its key, a failed one changes nothing; a get returns the value unless it
    is absent, expired or cannot be copied, and drops it only when expired; a
    delete reports whether the key was there; a sweep drops expired keys only;
    with a budget, keys may be dropped but never changed. *)
Theorem cache_refines_map c os l c' : reachable_cache c -> Forall op_ok os ->
  run_ops c os = (l, c') -> map_steps (abs c) os l (abs c').
Proof.
  intros Hr%reachable_ok Ho. revert c l Hr. induction Ho as [|o os H1 H2 IH]; intros c l Hc; simpl.
  - intros [= <- <-]. constructor.
  - destruct (run_op c o) as [a c1] eqn:E1. destruct (run_ops c1 os) as [l1 c2] eqn:E2. intros [= <- <-].
    destruct (op_refines c o a c1 Hc H1 E1) as [Hc1 S]. econstructor; [exact S|]. by apply IH.
Qed.

Lemma cache_refines_map_witness : exists l c',
  run_ops cache0 [OPut [1] [2; 3] 0 5; OGet [1] 6; ODelete [1]; OGet [1] 7] = (l, c') /\
  l = [ARc 0; AValue 1 (Some [2; 3]); ARc 1; AValue 0 None] /\
  map_steps (abs cache0) [OPut [1] [2; 3] 0 5; OGet [1] 6; ODelete [1]; OGet [1] 7] l (abs c').
Proof.
  do 2 eexists. split; [by vm_compute|]. split; [done|].
  apply cache_refines_map; [exact cache0_reachable|by repeat constructor; vm_compute|by vm_compute].
Defined.
(** ** Slots *)

Lemma in_cells x p : in_slab x = true -> x.2.2 <= p < x.2.2 + size_of_class x.1 -> (x.2.1, p) ∈ cells x.
Proof.
  intros Hi Hp. unfold cells. rewrite Hi. apply list_elem_of_fmap. exists p. split; [done|].
  apply elem_of_seqZ. lia.
Qed.

(** Disjoint slots of a sound shard. *)
Definition apart (x y : slot) : Prop :=
  x.2.1 <> y.2.1 \/ x.2.2 + size_of_class x.1 <= y.2.2 \/ y.2.2 + size_of_class y.1 <= x.2.2.

Lemma cells_apart (xs : list slot) j k x y : NoDup (concat (cells <$> xs)) ->
  xs !! j = Some x -> xs !! k = Some y -> j <> k -> in_slab x = true -> in_slab y = true ->
  0 < size_of_class x.1 -> 0 < size_of_class y.1 -> apart x y.
Proof.
  intros Hn Hj Hk Hjk Ix Iy Px Py. unfold apart.
  destruct (decide (x.2.1 = y.2.1)) as [Es|]; [|by left]. right.
  destruct (decide (x.2.2 + size_of_class x.1 <= y.2.2)); [by left|].
  destruct (decide (y.2.2 + size_of_class y.1 <= x.2.2)); [by right|]. exfalso.
  set (p := Z.max x.2.2 y.2.2).
  assert (C1 : (x.2.1, p) ∈ cells x) by (apply in_cells; [done|lia]).
  assert (C2 : (x.2.1, p) ∈ cells y) by (rewrite Es; apply in_cells; [done|lia]).
  apply list_elem_of_lookup in C1 as [a1 C1], C2 as [a2 C2].
  assert (L1 : (cells <$> xs) !! j = Some (cells x)) by (by rewrite list_lookup_fmap, Hj).
  assert (L2 : (cells <$> xs) !! k = Some (cells y)) by (by rewrite list_lookup_fmap, Hk).
  clear -Hn L1 L2 C1 C2 Hjk. remember (cells <$> xs) as ls eqn:E. clear E. revert Hn j k Hjk L1 L2.
  induction ls as [|l ls IH]; intros Hn; [done|]. simpl in Hn. apply NoDup_app in Hn as (N1 & N2 & N3).
  intros [|j] [|k] Hjk L1 L2; simplify_eq/=; [| |eapply (IH N3 j k); try done; lia].
  - eapply N2; [by eapply list_elem_of_lookup_2|]. apply elem_of_concat. eexists.
    split; by eapply list_elem_of_lookup_2.
  - eapply N2; [by eapply list_elem_of_lookup_2; exact C2|]. apply elem_of_concat. eexists.
    split; [by eapply list_elem_of_lookup_2; exact L1|by eapply list_elem_of_lookup_2].
Qed.

Lemma slab_size bits i s x : shard_ok bits i s -> x ∈ (slot_of <$> shard_entries s) ++ free_list s ->
  in_slab x = true -> 0 < size_of_class x.1.
Proof.
  intros Hs Hx Hi. pose proof (sl_slots _ _ (so_slab _ _ _ Hs)) as H. rewrite Forall_forall in H.
  destruct (H x Hx Hi) as (Hc & _). pose proof (size_pos _ Hc). lia.
Qed.

(** C24. In a reachable cache the bytes of a slab are never shared: header, key
    and value of a stored entry lie inside its slab, behind the link at its
    start, and the slots of two entries, of an entry and a free slot, or of two
    free slots do not overlap. *)
Theorem slots_disjoint c i s : reachable_cache c -> db_shards c !! i = Some s ->
  (forall e, e ∈ shard_entries s -> ce_cls e <> DIRECT_CLS ->
     ((ce_at e).1 < sh_slabs s)%nat /\ SIZEOF_PTR <= (ce_at e).2 /\
     (ce_at e).2 + SIZEOF_ENTRY + zlen (ce_key e) + zlen (ce_value e) <= SLAB_SIZE /\
     SIZEOF_ENTRY + zlen (ce_key e) + zlen (ce_value e) <= size_of_class (ce_cls e)) /\
  (let slots := (slot_of <$> shard_entries s) ++ free_list s in
   forall j k x y, slots !! j = Some x -> slots !! k = Some y -> j <> k ->
     in_slab x = true -> in_slab y = true -> apart x y).
Proof.
  intros Hr%reachable_ok Hi. pose proof (do_shards _ Hr _ _ Hi) as Hs. split.
  - intros e He Hd. pose proof (so_entries _ _ _ Hs) as Ho. rewrite Forall_forall in Ho.
    destruct (Ho e He) as [_ _ _ Hf _]. unfold entry_capacity in Hf.
    destruct (Z.eqb_spec (ce_cls e) DIRECT_CLS); [done|].
    pose proof (sl_slots _ _ (so_slab _ _ _ Hs)) as H. rewrite Forall_forall in H.
    destruct (H (slot_of e)) as (_ & H1 & H2 & H3 & _).
    + apply elem_of_app. left. by apply list_elem_of_fmap_2.
    + unfold in_slab. simpl. by destruct (Z.eqb_spec (ce_cls e) DIRECT_CLS).
    + simpl in *. split_and!; [done|done|lia|done].
  - intros slots j k x y Hj Hk Hjk Ix Iy. eapply cells_apart; try done; [apply (so_slab _ _ _ Hs)|..];
      eapply slab_size; try done; by eapply list_elem_of_lookup_2.
Qed.

Lemma slots_disjoint_witness : let c := (run_ops cache0 [OPut [1] [2] 0 5; OPut [5] [4] 0 5]).2 in
  exists i s, db_shards c !! i = Some s /\ sh_count s = 2 /\
  forall j k x y, ((slot_of <$> shard_entries s) ++ free_list s) !! j = Some x ->
    ((slot_of <$> shard_entries s) ++ free_list s) !! k = Some y -> j <> k ->
    in_slab x = true -> in_slab y = true -> apart x y.
Proof.
  intros c. exists 0%nat. eexists. split; [by vm_compute|]. split; [by vm_compute|].
  refine (proj2 (slots_disjoint c 0 _ _ _)); [|by vm_compute].
  exists 2, 16, 7, [], cache0. split; [lia|]. split; [by vm_compute|].
  exists [SPut [1] [2] 0; SPut [5] [4] 0]. split; [by repeat constructor; vm_compute|by vm_compute].
Defined.
(** ** Indices *)

(** C35. Every index the cache computes is in range: the hash of a key is a
    32-bit word and its upper bits name an existing shard, as do the masked
    random numbers of the eviction and tickets of the sweep; in every shard the
    bucket of any hash, of any ticket and of a probe of the eviction exists;
    the number of shards and of the buckets of each shard are powers of two. *)
Theorem indices_in_range c key x : reachable_cache c ->
  fits 32 (hash_key key) /\ (shard_for c (hash_key key) < length (db_shards c))%nat /\
  (masked_shard c x < length (db_shards c))%nat /\
  (exists k, 1 <= k <= 32 /\ nshards c = 2 ^ k) /\
  forall i s, db_shards c !! i = Some s ->
    (bucket_of (nbuckets s) (hash_key key) < length (sh_buckets s))%nat /\
    (bucket_of (nbuckets s) (x / nshards c) < length (sh_buckets s))%nat /\
    (exists k, 0 <= k /\ nbuckets s = 2 ^ k) /\
    forall n idx b, probe_bucket n s idx = Some b -> (b < length (sh_buckets s))%nat.
Proof.
  intros Hr%reachable_ok. split; [apply hash_key_fits|]. split.
  { destruct (shard_lookup c _ Hr (hash_key_fits key)) as (s & Hs & _). by eapply lookup_lt_Some. }
  assert (Hn : 0 < nshards c) by (rewrite (do_len _ Hr); apply Z.pow_pos_nonneg; pose proof (do_bits _ Hr); lia).
  split. { unfold masked_shard. rewrite shard_index by done. pose proof (Z.mod_pos_bound x (nshards c) Hn). unfold nshards, zlen in *. lia. }
  split; [exists (db_shard_bits c); split; apply Hr|]. intros i s Hi.
  pose proof (do_shards _ Hr _ _ Hi) as Hs. destruct (so_size _ _ _ Hs) as (k & Hk & En).
  assert (B : forall h, (bucket_of (nbuckets s) h < length (sh_buckets s))%nat).
  { intros h. pose proof (bucket_lt _ k h Hk En). unfold nbuckets, zlen in *. lia. }
  split; [apply B|]. split; [apply B|]. split; [by exists k|]. intros n idx b. by apply (probe_bucket_lt s k n).
Qed.

(** At a cache that holds two keys, for the ticket 1000. *)
Lemma indices_in_range_witness : let c := run_sections cache0 [SPut [1] [2] 0; SPut [5] [4] 0] in
  (shard_for c (hash_key [5]%Z) < length (db_shards c))%nat /\ (masked_shard c 1000%Z < length (db_shards c))%nat /\
  exists s, db_shards c !! masked_shard c 1000 = Some s /\ (bucket_of (nbuckets s) (1000 / nshards c)%Z < length (sh_buckets s))%nat.
Proof.
  intros c. assert (R : reachable_cache c).
  { exists 2, 16, 7, [], cache0. split; [lia|]. split; [by vm_compute|].
    exists [SPut [1] [2] 0; SPut [5] [4] 0]. split; [by repeat constructor; vm_compute|done]. }
  destruct (indices_in_range c [5] 1000 R) as (_ & H1 & H2 & _ & H3). split; [exact H1|]. split; [exact H2|].
  destruct (db_shards c !! masked_shard c 1000) as [s|] eqn:E; [|apply lookup_ge_None in E; lia].
  exists s. split; [done|]. apply (H3 _ _ E).
Defined.

(** ** The sweep *)

Lemma filter_swept now c c' : db_ok c -> swept now c c' -> Forall (alive now) (all_entries c') ->
  contents c' = filter (fun kp => expired_pair now kp.2 = false) (contents c).
Proof.
  intros Hc S Ha. destruct (swept_map _ _ _ Hc S) as [H1 H2]. apply map_eq. intros k.
  destruct (contents c' !! k) as [p|] eqn:E.
  - symmetry. apply map_lookup_filter_Some. split; [by eapply lookup_weaken|]. simpl.
    apply elem_of_list_to_map_2, list_elem_of_fmap in E as (e & [= -> ->] & He).
    rewrite Forall_forall in Ha. exact (Ha e He).
  - symmetry. apply map_lookup_filter_None. destruct (contents c !! k) as [p|] eqn:Ek; [|by left].
    right. intros x [= <-]. simpl. rewrite (H2 k p Ek E). done.
Qed.

Lemma no_ttl_alive now c : db_ok c -> zlen (all_entries c) < 2 ^ 64 -> g_ttl_entries (db_g c) = 0 ->
  Forall (alive now) (all_entries c).
Proof.
  intros Hc Hl Hz. rewrite (do_ttl _ Hc) in Hz.
  assert (Hb : ttl_count (all_entries c) <= zlen (all_entries c)).
  { unfold ttl_count, cnt, zlen. clear. induction (all_entries c) as [|e l IH]; simpl; [lia|].
    destruct (negb _); simpl; lia. }
  assert (Hz' : ttl_count (all_entries c) = 0).
  { rewrite u64_small in Hz; [done|]. split; [apply cnt_nonneg|lia]. }
  apply Forall_forall. intros e He. pose proof (cnt_zero _ _ Hz' e He) as E. simpl in E.
  unfold alive, is_expired. by rewrite E.
Qed.

(** A sweep with enough work collects everything that has expired: when
    [bucket_work] covers every bucket of every shard, the cache afterwards
    holds exactly the keys that had not expired, wherever the sweep cursor
    stood, and also when the sweep returns early because nothing can expire. *)
Theorem sweep_collects_expired c work time : reachable_cache c ->
  0 <= g_sweep_cursor (db_g c) -> g_sweep_cursor (db_g c) + work < 2 ^ 64 ->
  zlen (all_entries c) < 2 ^ 64 ->
  (forall s, s ∈ db_shards c -> nshards c * nbuckets s <= work) ->
  contents (kuttidb_sweep_expired c work time) =
  filter (fun kp => expired_pair (u32 time) kp.2 = false) (contents c).
Proof.
  intros Hr%reachable_ok H0 H1 H2 H3. apply filter_swept; [done|by apply sweep_map|].
  unfold kuttidb_sweep_expired. destruct (Z.eqb_spec (g_ttl_entries (db_g c)) 0).
  - by apply no_ttl_alive.
  - assert (Hw : 0 <= work).
    { destruct (shard_lookup c 0 Hr ltac:(done)) as (s & Hs & _). apply list_elem_of_lookup_2 in Hs.
      specialize (H3 s Hs). pose proof (zlen_nonneg (db_shards c)). pose proof (zlen_nonneg (sh_buckets s)).
      unfold nshards, nbuckets in H3. nia. }
    apply sweep_all; try done; [rewrite Z2Nat.id by done; lia|].
    intros s Hs. specialize (H3 s Hs). lia.
Qed.

Lemma sweep_collects_expired_witness :
  let c := run_sections cache0 [SPut [1] [2] 9; SPut [3] [4] 0; SPut [5] [6] 30] in
  contents (kuttidb_sweep_expired c 32 20) = {[ [3] := ([4], 0); [5] := ([6], 30) ]} /\
  contents (kuttidb_sweep_expired c 32 20) =
  filter (fun kp => expired_pair (u32 20) kp.2 = false) (contents c).
Proof.
  intros c. split; [by vm_compute|]. apply (sweep_collects_expired c 32 20).
  - exists 2, 16, 7, [], cache0. split; [lia|]. split; [by vm_compute|].
    exists [SPut [1] [2] 9; SPut [3] [4] 0; SPut [5] [6] 30].
    split; [by repeat constructor; vm_compute|by vm_compute].
  - by vm_compute.
  - by vm_compute.
  - by vm_compute.
  - assert (H : forallb (fun s => nshards c * nbuckets s <=? 32) (db_shards c) = true) by (by vm_compute).
    intros s Hs%list_elem_of_In. apply Z.leb_le. by apply (proj1 (forallb_forall _ _) H).
Defined.

(** ** Scans *)

(** [kuttidb_foreach] copies a shard at a time into a flat buffer and calls
    the callback from the copy: on a reachable cache the callback sees exactly
    the stored entries that have not expired, each once with its key, value
    and expiry, until it asks to stop; its stop code is returned.  Memory for
    the copy is available here; when it is not, the scan ends with -1. *)
Theorem foreach_exact {A} (cb : A -> bytes -> bytes -> Z -> A * Z) c time ctx : reachable_cache c ->
  (forall s, s ∈ db_shards c -> zlen (concat (stage_entry <$> shard_entries s)) <= SIZE_MAX) ->
  kuttidb_foreach cb c time [] ctx =
  visit cb (filter (fun e => is_expired e (u32 time) = false) (all_entries c)) ctx.
Proof.
  intros Hr%reachable_ok Hl. apply (foreach_visit cb (db_shard_bits c) (u32 time) _ 0%nat); try done.
  apply (do_shards _ Hr).
Qed.

Lemma foreach_exact_witness :
  let c := run_sections cache0 [SPut [1] [2] 9; SPut [3] [4] 0; SPut [5] [6] 30] in
  kuttidb_foreach (fun l k v _ => (k :: v :: l, 0)) c 20 [] [] = ([[3]; [4]; [5]; [6]], 0) /\
  kuttidb_foreach (fun l k v _ => (k :: v :: l, 0)) c 20 [] [] =
  visit (fun l k v _ => (k :: v :: l, 0)) (filter (fun e => is_expired e (u32 20) = false) (all_entries c)) [].
Proof.
  intros c. split; [by vm_compute|]. apply (foreach_exact _ c).
  - exists 2, 16, 7, [], cache0. split; [lia|]. split; [by vm_compute|].
    exists [SPut [1] [2] 9; SPut [3] [4] 0; SPut [5] [6] 30].
    split; [by repeat constructor; vm_compute|by vm_compute].
  - assert (H : forallb (fun s => zlen (concat (stage_entry <$> shard_entries s)) <=? SIZE_MAX)
      (db_shards c) = true) by (by vm_compute).
    intros s Hs%list_elem_of_In. apply Z.leb_le. by apply (proj1 (forallb_forall _ _) H).
Defined.

(** Reading the metadata page by page, each page from the cursor the
    previous one returned, ends and delivers exactly the entries that are live
    and match, each once and in the order of the table, whatever the page
    size. *)
Theorem pages_exact {A} (f : A -> bytes -> Z -> Z -> A) m c max time ctx fuel :
  0 < max -> (length (all_entries c) < fuel)%nat ->
  page_through f m c max fuel None time ctx =
  Some (deliver_all f (List.filter (wanted m (u32 time)) (all_entries c)) ctx).
Proof.
  intros Hm Hf. rewrite (page_through_spec f m c (u32 time)); [|done|done|done|].
  - by rewrite tail_of_start.
  - rewrite tail_of_start. eapply Nat.le_lt_trans; [|exact Hf]. apply List.filter_length_le.
Qed.

Lemma pages_exact_witness :
  let c := run_sections cache0 [SPut [1] [2] 0; SPut [3] [4] 0; SPut [5] [6] 30] in
  page_through (fun l k _ _ => k :: l) (fun _ _ _ => true) c 1 9 None 20 [] = Some [[3]; [5]; [1]] /\
  page_through (fun l k _ _ => k :: l) (fun _ _ _ => true) c 1 9 None 20 [] =
  Some (deliver_all (fun l k _ _ => k :: l) (List.filter (wanted (fun _ _ _ => true) (u32 20)) (all_entries c)) []).
Proof.
  intros c. split; [by vm_compute|]. apply (pages_exact (fun l k _ _ => k :: l) (fun _ _ _ => true) c 1 20 [] 9).
  - lia.
  - vm_compute. lia.
Defined.
(** ** Memory *)

(** As long as no entry is larger than a slab slot may be (4096 bytes with
    its header), the memory counter of the cache is exact after any sequence
    of sections: eight bytes for each bucket of each shard and the slot size of
    each stored entry.  The budget is compared with this number. *)
Theorem memusage_exact n initial now allocs c xs : 0 <= n <= 2 ^ 32 ->
  kuttidb_create n initial now allocs = Some c -> Forall section_ok xs -> Forall section_small xs ->
  let c' := run_sections c xs in
  kuttidb_memusage c' = u64 (zsum nbuckets (db_shards c') * SIZEOF_PTR +
    zsum (fun e => size_of_class (ce_cls e)) (all_entries c')) /\
  forall e, e ∈ all_entries c' -> ce_cls e <> DIRECT_CLS.
Proof.
  intros Hn E Ho Hm c'. destruct (create_ok _ _ _ _ _ Hn E) as (Hc & _).
  destruct (sections_tight xs c Hc (create_tight _ _ _ _ _ E) Ho Hm) as [Hc' Ht]. fold c' in Hc', Ht.
  assert (Hs : forall e, e ∈ all_entries c' -> in_slabs e).
  { intros e (l & Hl & He)%elem_of_concat. apply list_elem_of_fmap in Hl as (s & -> & Hs).
    unfold all_tight in Ht. rewrite Forall_forall in Ht. destruct (Ht s Hs) as [H _].
    rewrite Forall_forall in H. by apply H. }
  split; [|done]. rewrite tight_total, footprint_total by done. do 2 f_equal. apply zsum_ext.
  intros e He. by apply freed_slab, Hs.
Qed.

Lemma memusage_exact_witness :
  let c := run_sections cache0 [SPut [1] [2] 9; SPut [3] (replicate 100 4) 0; SDelete [1]] in
  kuttidb_memusage c = 32 * 8 + 160 /\
  kuttidb_memusage c = u64 (zsum nbuckets (db_shards c) * SIZEOF_PTR +
    zsum (fun e => size_of_class (ce_cls e)) (all_entries c)).
Proof.
  intros c. split; [by vm_compute|]. refine (proj1 (memusage_exact 2 16 7 [] cache0 _ _ _ _ _));
    [lia|by vm_compute|by repeat constructor; vm_compute|by repeat constructor; vm_compute].
Defined.

(** With larger entries it is not.  An entry of 4900 bytes is overwritten
    in place by a value of 4500 and deleted: 400 bytes stay in the memory
    counters of an empty cache.  An entry of that size that is still stored
    when the cache is destroyed is never freed. *)
Theorem direct_entries_leak :
  let big n := replicate n 7 in
  let c1 := (kuttidb_put cache0 [1] (big 4900%nat)).2 in
  let c2 := (kuttidb_put c1 [1] (big 4500%nat)).2 in
  let c3 := (kuttidb_delete c2 [1]).2 in
  kuttidb_count c3 = 0 /\ kuttidb_memusage c3 = kuttidb_memusage cache0 + 400 /\
  kuttidb_allocated c3 = kuttidb_allocated cache0 + 400 /\
  g_allocated_mem (kuttidb_destroy cache0) = 0 /\
  g_allocated_mem (kuttidb_destroy c1) = SIZEOF_ENTRY + 1 + 4900.
Proof. vm_compute. done. Qed.

(** C34. [kuttidb_vec_reserve] never overflows and its loop ends: a request
    that does not fit [size_t] is refused; any other one leaves the contents
    alone and returns a capacity that holds them and is at most [SIZE_MAX], or
    fails because [realloc] did. *)
Theorem vec_reserve_bounds v extra alloc : 0 <= extra <= SIZE_MAX ->
  zlen (v_data v) <= v_cap v <= SIZE_MAX -> let need := zlen (v_data v) + extra in
  (SIZE_MAX < need /\ kuttidb_vec_reserve v extra alloc = None) \/
  (need <= v_cap v /\ kuttidb_vec_reserve v extra alloc = Some v) \/
  (v_cap v < need <= SIZE_MAX /\ exists cap, need <= cap <= SIZE_MAX /\
     kuttidb_vec_reserve v extra alloc = if alloc then Some {| v with v_cap := cap |} else None).
Proof.
  apply reserve_spec.
Qed.

Lemma vec_reserve_bounds_witness :
  kuttidb_vec_reserve (KuttiVec [1; 2; 3] 4096) (SIZE_MAX - 3) true = Some (KuttiVec [1; 2; 3] SIZE_MAX) /\
  ((SIZE_MAX < 3 + 4094 /\ kuttidb_vec_reserve (KuttiVec [1; 2; 3] 4096) 4094 true = None) \/
   (3 + 4094 <= 4096 /\ kuttidb_vec_reserve (KuttiVec [1; 2; 3] 4096) 4094 true = Some (KuttiVec [1; 2; 3] 4096)) \/
   (4096 < 3 + 4094 <= SIZE_MAX /\ exists cap, 3 + 4094 <= cap <= SIZE_MAX /\
      kuttidb_vec_reserve (KuttiVec [1; 2; 3] 4096) 4094 true = Some (KuttiVec [1; 2; 3] cap))).
Proof.
  split; [by vm_compute|]. refine (vec_reserve_bounds (KuttiVec [1; 2; 3] 4096) 4094 true _ _); by vm_compute.
Defined.

(** ** Expiry *)

(** A value stored with a time to live is returned for that time, rounded
    up to seconds, and no longer; the other keys read as before. *)
Theorem ttl_roundtrip c key value ttl now rc c' t : reachable_cache c -> g_budget (db_g c) = 0 ->
  fits 32 (zlen key) -> fits 32 (zlen value) -> 0 < ttl -> 15 <= now ->
  now + ttl_seconds ttl <= UINT32_MAX -> kuttidb_put_ex c key value ttl now = (rc, c') -> rc = 0 ->
  get_lookup c' key t = (if t <? now + ttl_seconds ttl then Hit value else Expired) /\
  (forall k, k <> key -> get_lookup c' k t = get_lookup c k t).
Proof.
  intros Hr%reachable_ok Hb Hk Hv Ht Hn Hm E ->. destruct (ttl_seconds_pos ttl Ht) as [Hs _].
  destruct (kuttidb_put_abs_spec _ _ _ _ _ _ Hr (put_ok_words key value ttl now Hk Hv) E)
    as (Hc' & _ & [(_ & _ & Em)|(? & _)]); [|done]. specialize (Em Hb).
  rewrite expiry_spec in Em by (unfold UINT32_MAX in *; lia). unfold UINT32_MAX in *.
  replace (Z.min _ (2 ^ 32 - 1)) with (now + ttl_seconds ttl) in Em by lia.
  split.
  - rewrite get_lookup_spec by done. unfold read_at. rewrite Em, lookup_insert_eq.
    destruct (Z.eqb_spec (now + ttl_seconds ttl) 0); [lia|]. simpl.
    destruct (Z.leb_spec (now + ttl_seconds ttl) t), (Z.ltb_spec t (now + ttl_seconds ttl)); done || lia.
  - intros k Hne. rewrite !get_lookup_spec by done. unfold read_at. by rewrite Em, lookup_insert_ne.
Qed.

Lemma ttl_roundtrip_witness :
  get_lookup (kuttidb_put_ex cache0 [1] [2] 1500 100).2 [1] 101 = Hit [2] /\
  get_lookup (kuttidb_put_ex cache0 [1] [2] 1500 100).2 [1] 102 =
    (if 102 <? 100 + ttl_seconds 1500 then Hit [2] else Expired).
Proof.
  split; [by vm_compute|].
  refine (proj1 (ttl_roundtrip cache0 [1] [2] 1500 100 0 _ 102 cache0_reachable _ _ _ _ _ _ _ _));
    by vm_compute.
Defined.

(** A read that finds its key expired removes it in a second locked
    section, which does not look at the expiry again: a value stored by
    another thread between the two is deleted although it is fresh. *)
Theorem expired_read_drops_fresh_value c key now v c1 : reachable_cache c -> g_budget (db_g c) = 0 ->
  fits 32 (zlen key) -> fits 32 (zlen v) -> get_lookup c key now = Expired ->
  kuttidb_put c key v = (0, c1) ->
  get_lookup c1 key now = Hit v /\ get_lookup (get_cleanup c1 key) key now = Miss.
Proof.
  intros Hr%reachable_ok Hb Hk Hv _ E.
  destruct (kuttidb_put_abs_spec _ _ _ _ _ _ Hr (put_ok_words key v 0 0 Hk Hv) E)
    as (Hc1 & _ & [(_ & _ & Em)|(? & _)]); [|done]. specialize (Em Hb).
  destruct (get_cleanup_spec c1 key Hc1) as (Hc2 & E2 & _).
  rewrite !get_lookup_spec by done. unfold read_at. by rewrite E2, lookup_delete_eq, Em, lookup_insert_eq.
Qed.

Lemma expired_read_drops_fresh_value_witness :
  let c := run_section cache0 (SPut [1] [2] 9) in
  get_lookup c [1] 20 = Expired /\
  get_lookup (get_cleanup (kuttidb_put c [1] [3]).2 [1]) [1] 20 = Miss.
Proof.
  intros c. split; [by vm_compute|].
  assert (Hr : reachable_cache c).
  { exists 2, 16, 7, [], cache0. split; [lia|]. split; [by vm_compute|].
    by apply (leads_one cache0 (SPut [1] [2] 9)); vm_compute. }
  refine (proj2 (expired_read_drops_fresh_value c [1] 20 [3] (kuttidb_put c [1] [3]).2 Hr _ _ _ _ _));
    by vm_compute.
Defined.
End CacheTheorems.
