(* ===== verification/CachePlain.v ===== *)
(** * The cache when memory suffices

    A cache without a budget whose allocations succeed: a write always stores,
    and the cache stays one of that kind.  Recovery is stated for such caches. *)

From stdpp Require Import base numbers option list gmap.
From S2P Require Import Prelude Cache CacheSlab CacheTable CacheMap CacheRun CacheTheorems.
Import Cache CacheSlab CacheTable CacheMap CacheSweep CacheTheorems.

Module CachePlain.

Record plain (c : kuttidb) : Prop := Plain {
  pl_ok : db_ok c;
  pl_budget : g_budget (db_g c) = 0;
  pl_allocs : g_allocs (db_g c) = [] }.

(** ** Allocations that succeed *)

Lemma block_alloc_plain g n ok g' : g_allocs g = [] -> block_alloc g n = (ok, g') ->
  ok = true /\ g_allocs g' = [].
Proof. intros Hg. unfold block_alloc, malloc. rewrite Hg. by intros [= <- <-]. Qed.

Lemma iter_allocs n k g : g_allocs (Nat.iter n (add_allocated k) g) = g_allocs g.
Proof. induction n as [|n IH]; [done|]. exact IH. Qed.

Lemma entry_free_allocs s g e s' g' : entry_free s g e = (s', g') -> g_allocs g' = g_allocs g.
Proof.
  unfold entry_free. destruct (ce_cls e =? DIRECT_CLS), (ce_exp e =? 0); by intros [= <- <-].
Qed.

Lemma remove_locked_allocs s g b l e s' g' : remove_locked s g b l e = (s', g') ->
  g_allocs g' = g_allocs g.
Proof.
  unfold remove_locked. destruct (entry_free _ g e) as [s1 g1] eqn:E. apply entry_free_allocs in E.
  unfold shard_slab_free_all. destruct (_ =? 0); intros [= <- <-]; by rewrite ?iter_allocs.
Qed.

Lemma entry_alloc_plain s g n r s' g' : g_allocs g = [] -> entry_alloc s g n = (r, s', g') ->
  is_Some r /\ g_allocs g' = [].
Proof.
  intros Hg. unfold entry_alloc. destruct (SLAB_MAX_ENTRY <? n).
  - destruct (block_alloc g n) as [ok g1] eqn:E. destruct (block_alloc_plain _ _ _ _ Hg E) as [-> H1].
    by intros [= <- <- <-].
  - destruct (free_slots _ _); [|by intros [= <- <- <-]]. unfold more_slab.
    destruct (_ <? _); [|by intros [= <- <- <-]].
    destruct (block_alloc g _) as [ok g1] eqn:E. destruct (block_alloc_plain _ _ _ _ Hg E) as [-> H1].
    by intros [= <- <- <-].
Qed.

Lemma resize_plain s g s' g' : g_allocs g = [] -> maybe_resize s g = (s', g') -> g_allocs g' = [].
Proof.
  intros Hg. unfold maybe_resize. destruct (_ <=? _); [by intros [= <- <-]|].
  destruct (block_alloc g _) as [ok g1] eqn:E. destruct (block_alloc_plain _ _ _ _ Hg E) as [-> H1].
  by intros [= <- <-].
Qed.

Lemma put_locked_plain s g h key value exp r s' g' : g_allocs g = [] ->
  put_locked s g h key value exp = (r, s', g') -> r <> PutFailed /\ g_allocs g' = [].
Proof.
  intros Hg. unfold put_locked. destruct (find_entry _ _ _) as [e|].
  - destruct (_ <=? _).
    { intros [= <- <- <-]. split; [done|]. repeat gcase; done. }
    destruct (entry_alloc _ _ _) as [[o s1] g1] eqn:E.
    destruct (entry_alloc_plain _ _ _ _ _ _ Hg E) as [[slot ->] H1].
    destruct (entry_free _ _ e) as [s2 g2] eqn:E2. apply entry_free_allocs in E2.
    intros [= <- <- <-]. split; [done|]. cbn. rewrite E2. by destruct (exp =? 0).
  - destruct (entry_alloc _ _ _) as [[o s1] g1] eqn:E.
    destruct (entry_alloc_plain _ _ _ _ _ _ Hg E) as [[slot ->] H1].
    destruct (maybe_resize _ _) as [s2 g2] eqn:E2.
    apply resize_plain in E2; [|by destruct (exp =? 0)]. by intros [= <- <- <-].
Qed.

(** ** The interface *)

Lemma put_plain c key value exp rc c' : plain c -> words_ok key value exp ->
  kuttidb_put_abs c key value exp = (rc, c') ->
  plain c' /\ rc = 0 /\ contents c' = <[key := (value, exp)]> (contents c) /\
  db_shard_bits c' = db_shard_bits c.
Proof.
  intros [Hc Hb Ha] Hw E.
  destruct (kuttidb_put_abs_spec c key value exp rc c' Hc Hw E) as (Hc' & Hb' & Hr).
  assert (G : rc = 0 /\ g_allocs (db_g c') = [] /\ db_shard_bits c' = db_shard_bits c).
  { revert E. unfold kuttidb_put_abs. rewrite Hb. cbn [negb andb Z.eqb].
    destruct (shard_lookup c _ Hc (hash_key_fits key)) as (s & -> & _).
    destruct (put_locked _ _ _ _ _ _) as [[r s'] g] eqn:E.
    destruct (put_locked_plain _ _ _ _ _ _ _ _ _ Ha E) as [Hn Hg].
    destruct r; [done|by intros [= <- <-]|]. by intros [= <- <-]. }
  destruct G as (-> & Ha' & Hi). split; [constructor; congruence|]. split; [done|]. split; [|done].
  destruct Hr as [(_ & _ & Hr)|(? & _)]; [by apply Hr|lia].
Qed.

Lemma delete_plain c key rc c' : plain c -> kuttidb_delete c key = (rc, c') ->
  plain c' /\ contents c' = delete key (contents c) /\
  rc = (match contents c !! key with Some _ => 1 | None => 0 end) /\ db_shard_bits c' = db_shard_bits c.
Proof.
  intros [Hc Hb Ha] E. destruct (kuttidb_delete_spec c key rc c' Hc E) as (Hc' & He & Hrc & Hb').
  assert (G : g_allocs (db_g c') = [] /\ db_shard_bits c' = db_shard_bits c).
  2:{ destruct G. split; [constructor; congruence|done]. }
  revert E. unfold kuttidb_delete.
  destruct (db_shards c !! _) as [s|]; [|by intros [= _ <-]].
  destruct (find_entry _ _ _) as [e|]; [|by intros [= _ <-]].
  destruct (remove_locked _ _ _ _ _) as [s' g] eqn:E. apply remove_locked_allocs in E.
  intros [= _ <-]. cbn. by rewrite E.
Qed.

Lemma get_plain c key time : plain c -> exists hit ov c', kuttidb_get c key time = (hit, ov, c') /\
  plain c' /\ db_shard_bits c' = db_shard_bits c /\
  match read_at (contents c) key (u32 time) with
              | Hit _ => hit = 1 /\ contents c' = contents c
              | Miss => hit = 0 /\ contents c' = contents c
              | Expired => hit = 0 /\ contents c' = delete key (contents c)
              end.
Proof.
  intros [Hc Hb Ha]. unfold kuttidb_get. rewrite (get_lookup_spec c key _ Hc).
  destruct (read_at (contents c) key (u32 time)) as [v| |].
  - unfold malloc. rewrite Ha. eexists _, _, _. split; [done|]. by destruct c.
  - by eexists _, _, _.
  - eexists _, _, _. split; [done|]. destruct (get_cleanup_spec c key Hc) as (H1 & H2 & H3).
    assert (G : g_allocs (db_g (get_cleanup c key)) = [] /\ db_shard_bits (get_cleanup c key) = db_shard_bits c).
    2:{ destruct G. split; [constructor; congruence|done]. }
    unfold get_cleanup.
    destruct (db_shards c !! _) as [s|]; [|done]. destruct (find_entry _ _ _) as [e|]; [|done].
    destruct (remove_locked _ _ _ _ _) as [s' g] eqn:E. apply remove_locked_allocs in E. cbn. by rewrite E.
Qed.

Lemma sweep_chain_allocs b now rest : forall kept s g s' g', sweep_chain kept rest s g b now = (s', g') ->
  g_allocs g' = g_allocs g.
Proof.
  induction rest as [|e rest IH]; intros kept s g s' g'; simpl; [by intros [= _ <-]|].
  destruct (is_expired e now); [|apply IH].
  destruct (remove_locked _ _ _ _ _) as [s1 g1] eqn:E. apply remove_locked_allocs in E.
  intros ->%IH. done.
Qed.

Lemma sweep_loop_allocs now n : forall c, g_allocs (db_g (sweep_loop n c now)) = g_allocs (db_g c).
Proof.
  induction n as [|n IH]; intros c; cbn [sweep_loop]; [done|]. rewrite IH. unfold sweep_round.
  destruct (db_shards c !! _) as [s|]; [|done].
  destruct (sweep_chain _ _ _ _ _ _) as [s' g'] eqn:E. apply sweep_chain_allocs in E. cbn. by rewrite E.
Qed.

Lemma sweep_plain c work time : plain c -> let c' := kuttidb_sweep_expired c work time in
  plain c' /\ db_shard_bits c' = db_shard_bits c /\ contents c' ⊆ contents c /\
  forall key p, contents c !! key = Some p -> contents c' !! key = None -> expired_pair (u32 time) p = true.
Proof.
  intros [Hc Hb Ha] c'. pose proof (sweep_map c work time Hc) as S. fold c' in S.
  pose proof (swept_map _ _ _ Hc S) as M. destruct S as [Hc' Hi _ Hb' _].
  split; [|done]. constructor; [done|congruence|]. subst c'. unfold kuttidb_sweep_expired.
  destruct (_ =? 0); [done|]. by rewrite sweep_loop_allocs.
Qed.

End CachePlain.
