(* ===== verification/CacheLog.v ===== *)
(** * The cache log of the server (server.c: wal_*, persist_*, replay_wal)

    The server keeps the cache on disk as a snapshot and a log.  A mutation is
    applied and logged under the log mutex, so each call is one step.  The
    outcomes of [flock], the write loop, [fsync] and the other system calls are
    the list [ps_ios] (every further one succeeds), those of reallocations
    [ps_allocs].  The file has one writer, so [g_wal_offset] is the length of
    [ps_file]; [ps_synced] bytes of it were there at the last [fsync].  The
    waiters and stale copies of the stampede protection are not part of the
    state.  During replay the clock does not move.

    Then, in [CacheSnap]: snapshots of the cache (server.c: load_snapshot, load_persisted, do_snapshot. *)

From stdpp Require Import base numbers option list.
From S2P Require Import Prelude Crc Cache.
Import Crc Cache.

Module CacheLog.

Definition MAX_KEY : Z := 65535.
Definition WAL_FLUSH_LIMIT : Z := 2 ^ 20.

(** ** Records *)

Definition crc32_two (a b : bytes) : Z :=
  Z.lxor (crc_bytes (crc_bytes 0xffffffff a) b) 0xffffffff.

(** Records with an expiry or a time to live have four more header bytes. *)
Definition has_meta (op : Z) : bool := (op =? 5) || (op =? 7).

Definition log_crc (op : Z) (key value : bytes) (meta : Z) : Z :=
  if has_meta op then crc32_chain (put32 meta) key value else crc32_two key value.

Definition log_record (op : Z) (key value : bytes) (meta : Z) : bytes :=
  [op; u8 (zlen key); u8 (Z.shiftr (zlen key) 8)] ++ put32 (zlen value) ++
  put32 (log_crc op key value meta) ++ (if has_meta op then put32 meta else []) ++ key ++ value.

(** The marker of a transaction: id, kind and expiry in front of the value. *)
Definition tx_prefix (tx_id sub_op exp : Z) : bytes := put64 tx_id ++ [sub_op] ++ put32 exp.

Definition log_tx_record (tx_id sub_op : Z) (key value : bytes) (exp : Z) : bytes :=
  [8; u8 (zlen key); u8 (Z.shiftr (zlen key) 8)] ++ put32 (13 + zlen value) ++
  put32 (crc32_chain key (tx_prefix tx_id sub_op exp) value) ++ key ++
  tx_prefix tx_id sub_op exp ++ value.

(** ** Writing *)

(** The outcome of a system call; a failed write loop has written some bytes. *)
Inductive io_result := IoOk | IoFail (written : nat).

Record persist := Persist {
  ps_cache : kuttidb;
  ps_buf : kutti_vec;
  ps_file : bytes;
  ps_synced : Z;
  ps_snap : option bytes;
  ps_enabled : bool;
  ps_open : bool;
  ps_failed : bool;
  ps_shared : bool;
  ps_always : bool;
  ps_ios : list io_result;
  ps_allocs : list bool }.

Definition ps_io (s : persist) : io_result * persist :=
  match ps_ios s with
  | [] => (IoOk, s)
  | r :: l => (r, {| s with ps_ios := l |})
  end.

Definition fail (s : persist) : persist := {| s with ps_failed := true |}.

(** A step that gives up on the log when the system call fails. *)
Definition syscall (s : persist) : bool * persist :=
  let '(r, s) := ps_io s in
  match r with IoOk => (true, s) | IoFail _ => (false, s) end.

Definition fsync (s : persist) : bool * persist :=
  let '(ok, s) := syscall s in
  if ok then (true, {| s with ps_synced := zlen (ps_file s) |}) else (false, s).

Definition reserve_buf (s : persist) (n : Z) : bool * persist :=
  let '(ok, allocs) := draw_realloc (ps_buf s) n (ps_allocs s) in
  let s := {| s with ps_allocs := allocs |} in
  match kuttidb_vec_reserve (ps_buf s) n ok with
  | Some v => (true, {| s with ps_buf := v |})
  | None => (false, s)
  end.

(** A large buffer shrinks after it was written. *)
Definition shrink_buf (s : persist) : persist :=
  if 2 ^ 22 <? v_cap (ps_buf s) then
    match ps_allocs s with
    | [] => {| s with ps_buf := KuttiVec [] (2 ^ 20) |}
    | ok :: r => {| s with ps_allocs := r;
                           ps_buf := if ok then KuttiVec [] (2 ^ 20) else ps_buf s |}
    end
  else s.

Definition wal_flush_bytes_locked (s : persist) : bool * persist :=
  match v_data (ps_buf s) with
  | [] => (true, s)
  | data =>
      let '(r, s) := ps_io s in
      match r with
      | IoFail n => (false, {| s with ps_file := ps_file s ++ take n data |})
      | IoOk => (true, shrink_buf {| s with ps_file := ps_file s ++ data;
                                            ps_buf := KuttiVec [] (v_cap (ps_buf s)) |})
      end
  end.

Definition wal_flush_locked (s : persist) : bool * persist :=
  if ps_shared s then
    let '(ok, s) := syscall s in
    if ok then wal_flush_bytes_locked s else (false, s)
  else wal_flush_bytes_locked s.

(** The periodic flush of the maintenance thread. *)
Definition wal_flush (s : persist) : Z * persist :=
  if negb (ps_open s) then (0, s)
  else
    let '(ok, s) := wal_flush_locked s in
    if ok then (0, s) else (-1, fail s).

Definition append_buf (s : persist) (p : bytes) : persist :=
  {| s with ps_buf := KuttiVec (v_data (ps_buf s) ++ p) (v_cap (ps_buf s)) |}.

Definition wal_log_locked (s : persist) (op : Z) (key value : bytes) (meta : Z) : bool * persist :=
  if negb (ps_open s) then (true, s)
  else
    let '(ok, s) := reserve_buf s (11 + (if has_meta op then 4 else 0) + zlen key + zlen value) in
    if ok then (true, append_buf s (log_record op key value meta)) else (false, s).

(** What a mutation does behind its log record: flush, and barrier. *)
Definition flush_and_sync (s : persist) (flush sync : bool) : Z * persist :=
  let '(ok, s) := if flush then
                    (if ps_shared s then wal_flush_bytes_locked s else wal_flush_locked s)
                  else (true, s) in
  if negb ok then (-1, fail s)
  else if sync then
    let '(ok, s) := fsync s in
    if ok then (0, s) else (-1, fail s)
  else (0, s).

(** The lock on the file when other processes write it too. *)
Definition file_lock (s : persist) : bool * persist :=
  if ps_shared s then syscall s else (true, s).

Definition set_cache (s : persist) (c : kuttidb) : persist := {| s with ps_cache := c |}.

Definition persist_put (s : persist) (key value : bytes) (ttl_ms : Z) (batch : bool) (now : Z)
    : Z * persist :=
  let exp := kuttidb_expiry_from_ttl ttl_ms now in
  if negb (ps_enabled s) then
    let '(rc, c) := kuttidb_put_abs (ps_cache s) key value exp in (rc, set_cache s c)
  else if negb (ps_open s) || ps_failed s then (-1, s)
  else
    let '(ok, s) := file_lock s in
    if negb ok then (-1, fail s)
    else
      let '(ok, s) := reserve_buf s (15 + zlen key + zlen value) in
      if negb ok then (-1, fail s)
      else
        let '(rc, c) := kuttidb_put_abs (ps_cache s) key value exp in
        let s := set_cache s c in
        if rc <? 0 then (rc, s)
        else
          let '(ok, s) := wal_log_locked s (if exp =? 0 then 1 else 7) key value exp in
          if negb ok then (-1, fail s)
          else
            flush_and_sync s
              (ps_shared s || (WAL_FLUSH_LIMIT <=? zlen (v_data (ps_buf s))) ||
               (negb batch && ps_always s))
              (negb batch && ps_always s).

Definition persist_delete (s : persist) (key : bytes) : Z * persist :=
  if negb (ps_enabled s) then
    let '(rc, c) := kuttidb_delete (ps_cache s) key in (rc, set_cache s c)
  else if negb (ps_open s) || ps_failed s then (-1, s)
  else
    let '(ok, s) := file_lock s in
    if negb ok then (-1, fail s)
    else
      let '(ok, s) := reserve_buf s (11 + zlen key) in
      if negb ok then (-1, fail s)
      else
        let '(found, c) := kuttidb_delete (ps_cache s) key in
        let s := set_cache s c in
        if found =? 0 then (0, s)
        else
          let '(ok, s) := wal_log_locked s 3 key [] 0 in
          if negb ok then (-1, fail s)
          else
            let '(rc, s) := flush_and_sync s (ps_shared s || ps_always s) (ps_always s) in
            if rc <? 0 then (-1, s) else (found, s).

Definition persist_batch_commit (s : persist) : Z * persist :=
  if negb (ps_enabled s) then (0, s)
  else if negb (ps_open s) then (-1, s)
  else if ps_failed s then (-1, fail s)
  else
    let '(ok, s) := wal_flush_locked s in
    if negb ok then (-1, fail s)
    else if ps_always s then
      let '(ok, s) := fsync s in
      if ok then (0, s) else (-1, fail s)
    else (0, s).

(** ** The cache side of a transaction *)

Definition next_tx_id (nonce counter : Z) : Z * Z :=
  let counter := u64 (counter + 1) in
  (Z.lor (Z.shiftl nonce 32) (Z.land counter 0xffffffff), counter).

Definition wal_log_tx_locked (s : persist) (tx_id sub_op : Z) (key value : bytes) (exp : Z)
    : bool * persist :=
  if negb (ps_open s) then (false, s)
  else
    let '(ok, s) := reserve_buf s (24 + zlen key + zlen value) in
    if ok then (true, append_buf s (log_tx_record tx_id sub_op key value exp)) else (false, s).

(** The mutation, after its marker is durable; a failure to store is ignored. *)
Definition apply_commit (s : persist) (sub_op : Z) (key value : bytes) (exp now : Z) : persist :=
  let c := ps_cache s in
  if sub_op =? 3 then set_cache s (kuttidb_delete c key).2
  else if (sub_op =? 7) || (sub_op =? 9) then
    if negb (exp =? 0) && (exp <=? now) then s
    else set_cache s (kuttidb_put_abs c key value exp).2
  else set_cache s (kuttidb_put_abs c key value 0).2.

(** [time] is the clock of the lookup, [now] that of the expiry test. *)
Definition persist_tx_commit (s : persist) (tx_id sub_op : Z) (key value : bytes) (exp : Z)
    (require_exists : bool) (time now : Z) : Z * persist :=
  if negb (ps_enabled s) || negb (ps_open s) || ps_failed s then (-1, s)
  else
    let '(ok, s) := file_lock s in
    if negb ok then (-1, fail s)
    else
      let '(hit, s) := if require_exists then
                         let '(hit, _, c) := kuttidb_get (ps_cache s) key time in (hit, set_cache s c)
                       else (1, s) in
      if negb (hit =? 1) then (-2, s)
      else
        let '(ok, s) := reserve_buf s (24 + zlen key + zlen value) in
        if negb ok then (-1, fail s)
        else
          let '(ok, s) := wal_log_tx_locked s tx_id sub_op key value exp in
          if negb ok then (-1, fail s)
          else
            let '(rc, s) := flush_and_sync s true true in
            if rc <? 0 then (-1, s) else (0, apply_commit s sub_op key value exp (u32 now)).

(** ** Recovery *)

Record recovering := Recovering { rv_cache : kuttidb; rv_committed : list Z }.

(** [read] of [n] bytes at the cursor of a file. *)
Definition read_exact (n : Z) (p : bytes) : option (bytes * bytes) :=
  if zlen p <? n then None else Some (take (Z.to_nat n) p, drop (Z.to_nat n) p).

Inductive log_read := LogEnd | LogBad | LogRec (op : Z) (key value : bytes) (meta : Z) (rest : bytes).

Definition log_op_known (op : Z) : bool :=
  (op =? 1) || (op =? 3) || (op =? 5) || (op =? 7) || (op =? 8).

(** The header of a record, up to the allocation for the value: operation,
    lengths, checksum and metadata, and the text behind them. *)
Record log_header := LogHeader { lh_op : Z; lh_klen : Z; lh_vlen : Z; lh_crc : Z; lh_meta : Z }.

Definition read_log_header (max_val : Z) (p : bytes) : option (log_header * bytes) :=
  '(hdr, p) ← read_exact 11 p;
  let op := byte_at hdr 0 in
  let vlen := get32 (drop 3 hdr) in
  '(meta, p) ← (if has_meta op then '(m, p) ← read_exact 4 p; Some (get32 m, p) else Some (0, p));
  if (u32 (max_val + (if op =? 8 then 13 else 0)) <? vlen) || negb (log_op_known op) then None
  else Some (LogHeader op (Z.lor (byte_at hdr 1) (Z.shiftl (byte_at hdr 2) 8)) vlen
               (get32 (drop 7 hdr)) meta, p).

Definition read_log_body (h : log_header) (p : bytes) : log_read :=
  match ('(key, p) ← read_exact (lh_klen h) p; '(value, p) ← read_exact (lh_vlen h) p;
         Some (key, value, p)) with
  | None => LogBad
  | Some (key, value, p) =>
      if log_crc (lh_op h) key value (lh_meta h) =? lh_crc h
      then LogRec (lh_op h) key value (lh_meta h) p else LogBad
  end.

Definition read_log_record (max_val : Z) (g : globals) (p : bytes) : log_read * globals :=
  match p with
  | [] => (LogEnd, g)
  | _ =>
      match read_log_header max_val p with
      | None => (LogBad, g)
      | Some (h, p) =>
          let '(ok, g) := malloc g in
          (if ok then read_log_body h p else LogBad, g)
      end
  end.

Definition commit_tx (st : recovering) (tx_id : Z) : recovering :=
  {| st with rv_committed := rv_committed st ++ [tx_id] |}.
Definition with_cache (st : recovering) (c : kuttidb) : recovering := {| st with rv_cache := c |}.

(** The marker of a transaction; [None] is a corrupt record. *)
Definition apply_tx_marker (st : recovering) (key val : bytes) (time : Z) : option recovering :=
  if zlen val <? 13 then None
  else
    let tx_id := get64 val in
    let sub_op := byte_at val 8 in
    let exp := get32 (drop 9 val) in
    let value := drop 13 val in
    let now := u32 time in
    let c := rv_cache st in
    if sub_op =? 1 then Some (commit_tx (with_cache st (kuttidb_put_abs c key value 0).2) tx_id)
    else if sub_op =? 7 then
      let st := if (exp =? 0) || (now <? exp) then with_cache st (kuttidb_put_abs c key value exp).2
                else st in
      Some (commit_tx st tx_id)
    else if (sub_op =? 8) || (sub_op =? 9) then
      let expired := (sub_op =? 9) && negb (exp =? 0) && (exp <=? now) in
      let '(hit, c) := if expired then (0, c)
                       else let '(hit, _, c) := kuttidb_get c key time in (hit, c) in
      let st := with_cache st c in
      if hit =? 1 then
        Some (commit_tx (with_cache st
          (kuttidb_put_abs c key value (if sub_op =? 9 then exp else 0)).2) tx_id)
      else if expired then Some (commit_tx st tx_id)
      else Some st
    else if sub_op =? 3 then Some (commit_tx (with_cache st (kuttidb_delete c key).2) tx_id)
    else None.

Definition apply_log_record (st : recovering) (op : Z) (key value : bytes) (meta time : Z)
    : option recovering :=
  let c := rv_cache st in
  if op =? 1 then Some (with_cache st (kuttidb_put c key value).2)
  else if op =? 5 then Some (with_cache st (kuttidb_put_ex c key value meta time).2)
  else if op =? 7 then
    Some (if (meta =? 0) || (u32 time <? meta) then with_cache st (kuttidb_put_abs c key value meta).2
          else st)
  else if op =? 8 then apply_tx_marker st key value time
  else Some (with_cache st (kuttidb_delete c key).2).

(** The result and the offset of the first byte that was not replayed; every
    record has at least 11 bytes. *)
Fixpoint replay_wal (fuel : nat) (max_val time : Z) (st : recovering) (off : Z) (p : bytes)
    : Z * Z * recovering :=
  match fuel with
  | O => (-1, off, st)
  | S fuel =>
      let '(r, g) := read_log_record max_val (db_g (rv_cache st)) p in
      let st := with_cache st (set_g (rv_cache st) g) in
      match r with
      | LogEnd => (0, off, st)
      | LogBad => (-1, off, st)
      | LogRec op key value meta rest =>
          match apply_log_record st op key value meta time with
          | None => (-1, off, st)
          | Some st => replay_wal fuel max_val time st (off + (zlen p - zlen rest)) rest
          end
      end
  end.

End CacheLog.

(** * Snapshots of the cache (server.c: load_snapshot, load_persisted, do_snapshot)

    A snapshot is taken while the server works: the shards are copied one after
    the other, each under its lock, and the log is cut down afterwards.  Each
    part of [do_snapshot] between two accesses to shared state is a definition
    here, so that other operations can come between them.  A rename is atomic and
    durable. *)

Import Crc Cache CacheLog.

Module CacheSnap.

(** ** Loading *)

Definition CSN2 : bytes := [67; 83; 78; 50].

Definition snap_record (key value : bytes) (exp : Z) : bytes :=
  [u8 (zlen key); u8 (Z.shiftr (zlen key) 8)] ++ put32 (zlen value) ++ put32 exp ++ key ++ value.

(** The loop of [load_snapshot]: it ends at the first record it cannot read. *)
Fixpoint load_records (fuel : nat) (has_exp : bool) (max_val time : Z) (c : kuttidb) (p : bytes)
    : kuttidb :=
  match fuel with
  | O => c
  | S fuel =>
      match read_exact (if has_exp then 10 else 6) p with
      | None => c
      | Some (hdr, p) =>
          let klen := Z.lor (byte_at hdr 0) (Z.shiftl (byte_at hdr 1) 8) in
          let vlen := get32 (drop 2 hdr) in
          let exp := if has_exp then get32 (drop 6 hdr) else 0 in
          if max_val <? vlen then c
          else
            let '(ok, g) := malloc (db_g c) in
            let c := set_g c g in
            match (if ok then '(key, p) ← read_exact klen p; '(value, p) ← read_exact vlen p;
                              Some (key, value, p) else None) with
            | None => c
            | Some (key, value, p) =>
                let c := if (exp =? 0) || (u32 time <? exp) then (kuttidb_put_abs c key value exp).2 else c in
                load_records fuel has_exp max_val time c p
            end
      end
  end.

Definition load_snapshot (max_val time : Z) (c : kuttidb) (file : bytes) : kuttidb :=
  if bool_decide (take 4 file = CSN2)
  then load_records (length file) true max_val time c (drop 4 file)
  else load_records (length file) false max_val time c file.

(** [load_persisted]: the snapshot, if there is one, and the log; the log is
    cut where it could not be read. *)
Definition load_persisted (max_val time : Z) (c : kuttidb) (snapshot : option bytes) (log : bytes)
    : recovering * bytes :=
  let c := match snapshot with Some f => load_snapshot max_val time c f | None => c end in
  let '(rc, good, st) := replay_wal (S (length log)) max_val time (Recovering c []) 0 log in
  (st, if rc <? 0 then take (Z.to_nat good) log else log).

(** ** Taking a snapshot *)

(** The log from one offset to another. *)
Definition file_range (p : bytes) (a b : Z) : bytes := take (Z.to_nat (b - a)) (drop (Z.to_nat a) p).

(** A snapshot in progress: the offset of the log when it began, the clock
    then, the next shard, the staging buffer and what is left of its
    reallocations, the bytes to write and the temporary file, the copy of the
    log and how far it goes. *)
Record snap_job := SnapJob {
  sj_start : Z;
  sj_now : Z;
  sj_shard : nat;
  sj_stage : kutti_vec;
  sj_allocs : list bool;
  sj_buf : kutti_vec;
  sj_tmp : bytes;
  sj_middle : Z;
  sj_copy : bytes }.

(** What the callback works on: the buffer, the temporary file, and the
    outcomes still to come. *)
Record snap_ctx := SnapCtx { sc_buf : kutti_vec; sc_tmp : bytes; sc_ios : list io_result; sc_allocs : list bool }.

Definition snap_write (x : snap_ctx) : bool * snap_ctx :=
  let p := v_data (sc_buf x) in
  let done := {| x with sc_tmp := sc_tmp x ++ p; sc_buf := KuttiVec [] (v_cap (sc_buf x)) |} in
  match sc_ios x with
  | [] => (true, done)
  | IoOk :: r => (true, {| done with sc_ios := r |})
  | IoFail n :: r => (false, {| x with sc_tmp := sc_tmp x ++ take n p; sc_ios := r |})
  end.

Definition snap_cb (x : snap_ctx) (key value : bytes) (exp : Z) : snap_ctx * Z :=
  let n := 10 + zlen key + zlen value in
  let '(ok, allocs) := draw_realloc (sc_buf x) n (sc_allocs x) in
  let x := {| x with sc_allocs := allocs |} in
  match kuttidb_vec_reserve (sc_buf x) n ok with
  | None => (x, 1)
  | Some v =>
      let v := {| v with v_data := v_data v ++ snap_record key value exp |} in
      let x := {| x with sc_buf := v |} in
      if WAL_FLUSH_LIMIT <=? zlen (v_data v) then
        let '(ok, x) := snap_write x in (x, if ok then 0 else 1)
      else (x, 0)
  end.

(** The guards; no transaction may be in its commit window. *)
Definition snap_check (s : persist) (tx_inflight : Z) : bool :=
  negb (negb (ps_open s) || ps_failed s) && (tx_inflight =? 0).

(** From the offset of the log to the scan; [None] is the result -1. *)
Definition snap_begin (s : persist) (time : Z) (allocs : list bool) : option snap_job * persist :=
  let start := zlen (ps_file s) in
  let '(ok, s) := syscall s in
  if negb ok then (None, s)
  else
    let '(ok, s) := syscall s in
    if negb ok then (None, s)
    else (Some {| sj_start := start; sj_now := u32 time; sj_shard := 0; sj_stage := KuttiVec [] 0;
                  sj_allocs := allocs; sj_buf := KuttiVec [] 0; sj_tmp := CSN2;
                  sj_middle := start; sj_copy := [] |}, s).

(** One shard: staged under its lock, then written. *)
Definition snap_one (s : persist) (j : snap_job) : option snap_job * persist :=
  match db_shards (ps_cache s) !! sj_shard j with
  | None => (None, s)
  | Some sh =>
      let stage := sj_stage j in
      match stage_entries (shard_entries sh) (sj_now j) {| stage with v_data := [] |} (sj_allocs j) with
      | (None, _) => (None, s)
      | (Some stage, allocs) =>
          let x := {| sc_buf := sj_buf j; sc_tmp := sj_tmp j; sc_ios := ps_ios s; sc_allocs := allocs |} in
          let '(x, stop) := deliver_stage snap_cb (length (v_data stage)) (v_data stage) x in
          let s := {| s with ps_ios := sc_ios x |} in
          if negb (stop =? 0) then (None, s)
          else (Some {| j with sj_shard := S (sj_shard j); sj_stage := stage;
                               sj_allocs := sc_allocs x; sj_buf := sc_buf x; sj_tmp := sc_tmp x |}, s)
      end
  end.

(** The rest of the buffer, [fsync], and the rename. *)
Definition snap_publish (s : persist) (j : snap_job) : bool * persist :=
  let x := {| sc_buf := sj_buf j; sc_tmp := sj_tmp j; sc_ios := ps_ios s; sc_allocs := [] |} in
  let '(ok, x) := match v_data (sj_buf j) with [] => (true, x) | _ => snap_write x end in
  let s := {| s with ps_ios := sc_ios x |} in
  if negb ok then (false, s)
  else
    let '(ok, s) := syscall s in
    if negb ok then (false, s)
    else
      let '(ok, s) := syscall s in
      if negb ok then (false, s) else (true, {| s with ps_snap := Some (sc_tmp x) |}).

(** The first flush under the log mutex; it goes on even when it failed. *)
Definition snap_middle (s : persist) (j : snap_job) : option snap_job * persist :=
  let '(ok, s) := file_lock s in
  if negb ok then (None, s)
  else
    let '(ok, s) := wal_flush_bytes_locked s in
    let s := if ok then s else fail s in
    let middle := zlen (ps_file s) in
    let s := if middle <? sj_start j then fail s else s in
    (Some {| j with sj_middle := middle |}, s).

(** The copy of the log up to there, outside the mutex. *)
Definition snap_prepare (s : persist) (j : snap_job) : option snap_job * persist :=
  let '(ok, s) := syscall s in
  if negb ok || (sj_middle j <? sj_start j) then (None, s)
  else
    let '(ok, s) := if sj_start j <? sj_middle j then syscall s else (true, s) in
    if negb ok then (None, s)
    else
      let '(ok, s) := syscall s in
      if negb ok then (None, s)
      else (Some {| j with sj_copy := file_range (ps_file s) (sj_start j) (sj_middle j) |}, s).

(** The copy becomes the log: over the old file when it is shared, by a
    rename otherwise. *)
Definition snap_switch (s : persist) (copy : bytes) : bool * persist :=
  if ps_shared s then
    let '(ok, s) := syscall s in
    if negb ok then (false, s)
    else
      let s := {| s with ps_file := []; ps_synced := 0 |} in
      let '(r, s) := ps_io s in
      match r with
      | IoFail n => (false, {| s with ps_file := take n copy |})
      | IoOk => fsync {| s with ps_file := copy |}
      end
  else
    let '(ok, s) := syscall s in
    if negb ok then (false, s)
    else
      let s := {| s with ps_file := copy; ps_synced := zlen copy |} in
      let '(ok, s) := syscall s in
      if ok then (true, s) else (false, {| s with ps_open := false |}).

Definition snap_fold (s : persist) (j : snap_job) : Z * persist :=
  let '(ok, s) := file_lock s in
  if negb ok then (0, s)
  else
    let '(ok, s) := wal_flush_bytes_locked s in
    let end_ := zlen (ps_file s) in
    let ok := ok && negb ((end_ <? sj_start j) || (end_ <? sj_middle j)) in
    let '(ok, s) := if ok && (sj_middle j <? end_) then syscall s else (ok, s) in
    let copy := sj_copy j ++ file_range (ps_file s) (sj_middle j) end_ in
    let '(ok, s) := if ok then syscall s else (false, s) in
    let '(ok, s) := if ok then snap_switch s copy else (false, s) in
    if ok then (0, s) else (-1, fail s).

(** [do_snapshot] as a machine, each step of which is one such part.  A
    snapshot whose file cannot be written ends at once (the code goes on with
    a file that it unlinks in the end). *)
Inductive snap_phase :=
  | Idle | Checked | Scanning (j : snap_job) | Published (j : snap_job) | Cut (j : snap_job) | Copied (j : snap_job).

Definition next_phase (f : snap_job -> snap_phase) (r : option snap_job * persist) : persist * snap_phase :=
  (r.2, match r.1 with Some j => f j | None => Idle end).

Definition do_snapshot (s : persist) (ph : snap_phase) (tx_inflight time : Z) (allocs : list bool)
    : persist * snap_phase :=
  match ph with
  | Idle => (s, if snap_check s tx_inflight then Checked else Idle)
  | Checked => next_phase Scanning (snap_begin s time allocs)
  | Scanning j =>
      if bool_decide (sj_shard j < length (db_shards (ps_cache s)))%nat
      then next_phase Scanning (snap_one s j)
      else let '(ok, s) := snap_publish s j in (s, if ok then Published j else Idle)
  | Published j => next_phase Cut (snap_middle s j)
  | Cut j => next_phase Copied (snap_prepare s j)
  | Copied j => ((snap_fold s j).2, Idle)
  end.

End CacheSnap.
