(* ===== verification/CacheLogSpec.v ===== *)
(** * The cache log as a sequence of map operations

    What a record of the log means, that reading inverts writing, that a cut
    record is refused, and what replaying a sequence of records does to the
    contents of a cache.

    Then, in [CacheSnapSpec]: snapshots as maps. *)

From stdpp Require Import base numbers option list gmap.
From S2P Require Import Prelude Crc Cache CacheSlab CacheTable CacheMap CacheRun CacheAccount CachePlain.
From S2P Require Import CacheLog.
Import Crc Cache CacheBounds CacheSlab CacheTable CacheMap CacheRun CachePlain CacheLog.

Module CacheLogSpec.

(** ** Operations of the log *)

Inductive lop :=
  | LPut (key value : bytes) (exp : Z)
  | LDel (key : bytes)
  | LTx (tx_id sub_op : Z) (key value : bytes) (exp : Z).

Definition lop_bytes (o : lop) : bytes :=
  match o with
  | LPut key value exp => log_record (if exp =? 0 then 1 else 7) key value exp
  | LDel key => log_record 3 key [] 0
  | LTx tx_id sub_op key value exp => log_tx_record tx_id sub_op key value exp
  end.

Definition lops_bytes (l : list lop) : bytes := concat (lop_bytes <$> l).

(** Expired at [now]. *)
Definition past (exp now : Z) : bool := negb (exp =? 0) && (exp <=? now).

(** The key an operation is about, and what it leaves there. *)
Definition lop_key (o : lop) : bytes :=
  match o with LPut key _ _ | LDel key | LTx _ _ key _ _ => key end.

Definition lop_val (o : lop) : option (bytes * Z) :=
  match o with
  | LPut _ value exp => Some (value, exp)
  | LDel _ => None
  | LTx _ sub_op _ value exp =>
      if sub_op =? 3 then None
      else Some (value, if (sub_op =? 7) || (sub_op =? 9) then exp else 0)
  end.

Definition lop_apply (m : cmap) (o : lop) : cmap :=
  match lop_val o with Some p => <[lop_key o := p]> m | None => delete (lop_key o) m end.

Definition lops_apply (m : cmap) (l : list lop) : cmap := fold_left lop_apply l m.

(** Not the marker of a conditional update. *)
Definition unconditional (o : lop) : Prop :=
  match o with LTx _ sub_op _ _ _ => sub_op = 1 \/ sub_op = 3 \/ sub_op = 7 | _ => True end.

(** What its record does to the contents and to the committed transactions
    when it is replayed at [now]. *)
Definition lop_replay (now : Z) (x : cmap * list Z) (o : lop) : cmap * list Z :=
  let '(m, ids) := x in
  match o with
  | LPut key value exp => (if past exp now then m else <[key := (value, exp)]> m, ids)
  | LDel key => (delete key m, ids)
  | LTx tx_id sub_op key value exp =>
      if sub_op =? 1 then (<[key := (value, 0)]> m, ids ++ [tx_id])
      else if sub_op =? 7 then (if past exp now then m else <[key := (value, exp)]> m, ids ++ [tx_id])
      else if (sub_op =? 8) || (sub_op =? 9) then
        if (sub_op =? 9) && past exp now then (m, ids ++ [tx_id])
        else match read_at m key now with
             | Hit _ => (<[key := (value, if sub_op =? 9 then exp else 0)]> m, ids ++ [tx_id])
             | Miss => (m, ids)
             | Expired => (delete key m, ids)
             end
      else (delete key m, ids ++ [tx_id])
  end.

Definition lops_replay (now : Z) (x : cmap * list Z) (l : list lop) : cmap * list Z :=
  fold_left (lop_replay now) l x.

(** Sizes the server accepts. *)
Definition lop_ok (max_val : Z) (o : lop) : Prop :=
  match o with
  | LPut key value exp =>
      bytes_ok key /\ bytes_ok value /\ zlen key <= MAX_KEY /\ zlen value <= max_val /\ fits 32 exp
  | LDel key => bytes_ok key /\ zlen key <= MAX_KEY
  | LTx tx_id sub_op key value exp =>
      bytes_ok key /\ bytes_ok value /\ zlen key <= MAX_KEY /\ zlen value <= max_val /\ fits 32 exp /\
      fits 64 tx_id /\ (sub_op = 1 \/ sub_op = 3 \/ sub_op = 7 \/ sub_op = 8 \/ sub_op = 9)
  end.

(** ** Reading back *)

Lemma klen_bytes n : 0 <= n <= MAX_KEY -> Z.lor (u8 n) (Z.shiftl (u8 (Z.shiftr n 8)) 8) = n.
Proof.
  intros Hn. unfold MAX_KEY in Hn. change (get16 (put16 n ++ []) = n).
  rewrite get16_put16, u16_small; [done|]. unfold fits. lia.
Qed.

Lemma log_crc_fits op key value meta : bytes_ok key -> bytes_ok value -> fits 32 (log_crc op key value meta).
Proof.
  intros Hk Hv. unfold log_crc, crc32_two, crc32_chain. pose proof (put32_bytes meta) as Hm.
  destruct (has_meta op); rewrite !crc_bytes_ref by done;
    (apply fits_lxor; [lia| |apply ones32_fits]);
    repeat (apply ref_span_fits; [|done]); apply ones32_fits.
Qed.

Lemma read_exact_app a b : read_exact (zlen a) (a ++ b) = Some (a, b).
Proof.
  unfold read_exact. rewrite zlen_app. pose proof (zlen_nonneg b).
  destruct (Z.ltb_spec (zlen a + zlen b) (zlen a)); [lia|]. unfold zlen. rewrite Nat2Z.id.
  by rewrite take_app_length, drop_app_length.
Qed.

Lemma read_exact_more n p a b x : 0 <= n -> read_exact n p = Some (a, b) ->
  read_exact n (p ++ x) = Some (a, b ++ x).
Proof.
  unfold read_exact. intros Hn. rewrite zlen_app. pose proof (zlen_nonneg x).
  destruct (Z.ltb_spec (zlen p) n); [done|]. intros [= <- <-].
  destruct (Z.ltb_spec (zlen p + zlen x) n); [lia|]. unfold zlen in *.
  rewrite take_app_le, drop_app_le by lia. done.
Qed.

Lemma read_exact_ok n p a b : bytes_ok p -> read_exact n p = Some (a, b) -> bytes_ok a /\ bytes_ok b.
Proof.
  unfold read_exact. intros Hp. destruct (_ <? _); [done|]. intros [= <- <-].
  split; [by apply Forall_take|by apply Forall_drop].
Qed.

Lemma byte_nonneg p i : bytes_ok p -> 0 <= byte_at p i.
Proof.
  intros Hp. unfold byte_at. destruct (nth_in_or_default i p 0) as [Hin|E]; [|lia].
  apply list_elem_of_In in Hin. unfold bytes_ok in Hp. rewrite Forall_forall in Hp.
  apply Hp in Hin. unfold is_byte in Hin. lia.
Qed.

Lemma get32_nonneg p : bytes_ok p -> 0 <= get32 p.
Proof.
  intros Hp. unfold get32. rewrite !Z.lor_nonneg, !Z.shiftl_nonneg.
  repeat split; by apply byte_nonneg.
Qed.

(** What was read is read from a longer text too. *)
Lemma read_log_header_more max_val p h q x : bytes_ok p -> read_log_header max_val p = Some (h, q) ->
  read_log_header max_val (p ++ x) = Some (h, q ++ x) /\ bytes_ok q /\ 0 <= lh_klen h /\ 0 <= lh_vlen h.
Proof.
  intros Hp. unfold read_log_header.
  destruct (read_exact 11 p) as [[hdr p1]|] eqn:E1; [|done]. cbn [mbind option_bind].
  rewrite (read_exact_more 11 p hdr p1 x) by (done || lia). cbn [mbind option_bind].
  destruct (read_exact_ok _ _ _ _ Hp E1) as [Hh Hp1].
  assert (Hk : 0 <= Z.lor (byte_at hdr 1) (Z.shiftl (byte_at hdr 2) 8)).
  { rewrite Z.lor_nonneg, Z.shiftl_nonneg. split; by apply byte_nonneg. }
  assert (Hv : 0 <= get32 (drop 3 hdr)) by (apply get32_nonneg; by apply Forall_drop).
  destruct (has_meta (byte_at hdr 0)); cbn [mbind option_bind].
  - destruct (read_exact 4 p1) as [[m p2]|] eqn:E2; [|done]. cbn [mbind option_bind].
    rewrite (read_exact_more 4 p1 m p2 x) by (done || lia). cbn [mbind option_bind].
    destruct (read_exact_ok _ _ _ _ Hp1 E2) as [Hm Hp2].
    destruct (_ || _); [done|]. by intros [= <- <-].
  - destruct (_ || _); [done|]. by intros [= <- <-].
Qed.

Lemma read_log_body_more h q op key value meta rest x : 0 <= lh_klen h -> 0 <= lh_vlen h ->
  read_log_body h q = LogRec op key value meta rest ->
  read_log_body h (q ++ x) = LogRec op key value meta (rest ++ x).
Proof.
  intros Hk Hv. unfold read_log_body.
  destruct (read_exact _ q) as [[k q1]|] eqn:E3; [|done]. cbn [mbind option_bind].
  rewrite (read_exact_more _ q k q1 x Hk E3). cbn [mbind option_bind].
  destruct (read_exact _ q1) as [[w q2]|] eqn:E4; [|done]. cbn [mbind option_bind].
  rewrite (read_exact_more _ q1 w q2 x Hv E4). cbn [mbind option_bind].
  destruct (_ =? _); [|done]. by intros [= <- <- <- <- <-].
Qed.

(** The reader when allocations succeed. *)
Definition plain_read (max_val : Z) (p : bytes) : log_read :=
  match p with
  | [] => LogEnd
  | _ => match read_log_header max_val p with None => LogBad | Some (h, q) => read_log_body h q end
  end.

Lemma read_plain max_val g p : g_allocs g = [] -> read_log_record max_val g p = (plain_read max_val p, g).
Proof.
  intros Hg. unfold read_log_record, plain_read. destruct p; [done|].
  destruct (read_log_header _ _) as [[h q]|]; [|done]. unfold malloc. by rewrite Hg.
Qed.

Lemma read_more max_val p op key value meta rest x : bytes_ok p ->
  plain_read max_val p = LogRec op key value meta rest ->
  plain_read max_val (p ++ x) = LogRec op key value meta (rest ++ x).
Proof.
  intros Hp. destruct p as [|b p]; [done|]. change ((b :: p) ++ x) with (b :: (p ++ x)).
  unfold plain_read. change (b :: (p ++ x)) with ((b :: p) ++ x).
  destruct (read_log_header max_val (b :: p)) as [[h q]|] eqn:E; [|done].
  destruct (read_log_header_more _ _ _ _ x Hp E) as (-> & _ & Hk & Hv).
  by apply read_log_body_more.
Qed.

(** A proper part of a record is refused. *)
Lemma read_cut max_val r op key value meta p x : bytes_ok r ->
  plain_read max_val r = LogRec op key value meta [] -> r = p ++ x -> p <> [] -> x <> [] ->
  plain_read max_val p = LogBad.
Proof.
  intros Hr E -> Hp Hx. apply Forall_app in Hr as [Hb _].
  destruct (plain_read max_val p) as [| |op' key' value' meta' rest'] eqn:E'; [exfalso|done|exfalso].
  - destruct p; [done|]. cbn [plain_read] in E'. revert E'. unfold read_log_body.
    destruct (read_log_header _ _) as [[h q]|]; [|done].
    destruct (read_exact _ q) as [[? q1]|]; [|done]. cbn [mbind option_bind].
    destruct (read_exact _ q1) as [[? ?]|]; [|done]. cbn [mbind option_bind]. by destruct (_ =? _).
  - rewrite (read_more _ _ _ _ _ _ _ x Hb E') in E. injection E as _ _ _ _ E.
    apply app_eq_nil in E as [_ E]. done.
Qed.

(** ** Reading inverts writing *)

Lemma log_crc_meta op key value meta : log_crc op key value (if has_meta op then meta else 0) =
  log_crc op key value meta.
Proof. unfold log_crc. by destruct (has_meta op). Qed.

(** Eleven header bytes, the metadata if there are any, the key and the value. *)
Lemma read_parts max_val op key value meta crc rest : fits 32 (max_val + 13) -> log_op_known op = true ->
  zlen key <= MAX_KEY -> zlen value <= max_val + (if op =? 8 then 13 else 0) -> fits 32 meta ->
  fits 32 crc -> (has_meta op = false -> meta = 0) -> log_crc op key value meta = crc ->
  plain_read max_val ([op; u8 (zlen key); u8 (Z.shiftr (zlen key) 8)] ++ put32 (zlen value) ++
    put32 crc ++ (if has_meta op then put32 meta else []) ++ key ++ value ++ rest) =
  LogRec op key value meta rest.
Proof.
  intros Hmax Ho Lk Lv Hm Hc H0 Hcrc. pose proof (zlen_nonneg key). pose proof (zlen_nonneg value).
  assert (Hv : fits 32 (zlen value)) by (unfold fits in *; destruct (op =? 8); lia).
  set (hdr := [op; u8 (zlen key); u8 (Z.shiftr (zlen key) 8)] ++ put32 (zlen value) ++ put32 crc).
  set (body := (if has_meta op then put32 meta else []) ++ key ++ value ++ rest).
  assert (E : [op; u8 (zlen key); u8 (Z.shiftr (zlen key) 8)] ++ put32 (zlen value) ++ put32 crc ++ body =
    hdr ++ body) by (unfold hdr; by rewrite <- !app_assoc).
  rewrite E. unfold plain_read. replace (match hdr ++ body with [] => _ | _ => _ end) with
    (match read_log_header max_val (hdr ++ body) with None => LogBad | Some (h, q) => read_log_body h q end)
    by done.
  assert (Eh : read_log_header max_val (hdr ++ body) =
    Some (LogHeader op (zlen key) (zlen value) crc meta, key ++ value ++ rest)).
  { unfold read_log_header. change 11 with (zlen hdr). rewrite read_exact_app. cbn [mbind option_bind].
    change (byte_at hdr 0) with op. change (byte_at hdr 1) with (u8 (zlen key)).
    change (byte_at hdr 2) with (u8 (Z.shiftr (zlen key) 8)). rewrite klen_bytes by lia.
    change (drop 3 hdr) with (put32 (zlen value) ++ put32 crc).
    change (drop 7 hdr) with (put32 crc ++ []). rewrite !get32_put32, (u32_small (zlen value)), (u32_small crc) by done.
    assert (Em : (if has_meta op then '(m, p) ← read_exact 4 body; Some (get32 m, p) else Some (0, body)) =
      Some (meta, key ++ value ++ rest)).
    { unfold body. destruct (has_meta op) eqn:E'; [|by rewrite (H0 eq_refl)].
      change 4 with (zlen (put32 meta)). rewrite read_exact_app. cbn [mbind option_bind].
      rewrite <- (app_nil_r (put32 meta)), get32_put32, u32_small by done. done. }
    rewrite Em. cbn [mbind option_bind]. rewrite Ho. cbn [negb]. rewrite orb_false_r.
    rewrite u32_small by (unfold fits in *; destruct (op =? 8); lia).
    destruct (Z.ltb_spec (max_val + (if op =? 8 then 13 else 0)) (zlen value)); [lia|]. done. }
  rewrite Eh. unfold read_log_body. cbn [lh_klen lh_vlen lh_op lh_crc lh_meta].
  rewrite read_exact_app. cbn [mbind option_bind]. rewrite read_exact_app. cbn [mbind option_bind].
  by rewrite Hcrc, Z.eqb_refl.
Qed.

Lemma read_record max_val op key value meta rest : fits 32 (max_val + 13) -> log_op_known op = true ->
  op <> 8 -> bytes_ok key -> bytes_ok value -> zlen key <= MAX_KEY -> zlen value <= max_val ->
  fits 32 meta ->
  plain_read max_val (log_record op key value meta ++ rest) =
  LogRec op key value (if has_meta op then meta else 0) rest.
Proof.
  intros Hmax Ho H8 Hk Hv Lk Lv Hm. pose proof (zlen_nonneg value).
  assert (E8 : (op =? 8) = false) by lia.
  unfold log_record. rewrite <- !app_assoc.
  replace (if has_meta op then put32 meta else []) with
    (if has_meta op then put32 (if has_meta op then meta else 0) else []) by (by destruct (has_meta op)).
  apply read_parts; try done.
  - rewrite E8. lia.
  - destruct (has_meta op); [done|]. unfold fits in *. lia.
  - by apply log_crc_fits.
  - by destruct (has_meta op).
  - apply log_crc_meta.
Qed.

(** The value of a marker is its prefix and the payload. *)
Lemma tx_blob_ok tx_id sub_op exp value : is_byte sub_op -> bytes_ok value ->
  bytes_ok (tx_prefix tx_id sub_op exp ++ value).
Proof.
  intros Hs Hv. unfold tx_prefix. repeat apply Forall_app_2; try done.
  - apply put64_bytes.
  - by constructor.
  - apply put32_bytes.
Qed.

Lemma tx_blob_len tx_id sub_op exp value : zlen (tx_prefix tx_id sub_op exp ++ value) = 13 + zlen value.
Proof. rewrite zlen_app. done. Qed.

Lemma read_tx_record max_val tx_id sub_op key value exp rest : fits 32 (max_val + 13) ->
  is_byte sub_op -> bytes_ok key -> bytes_ok value -> zlen key <= MAX_KEY -> zlen value <= max_val ->
  plain_read max_val (log_tx_record tx_id sub_op key value exp ++ rest) =
  LogRec 8 key (tx_prefix tx_id sub_op exp ++ value) 0 rest.
Proof.
  intros Hmax Hs Hk Hv Lk Lv. pose proof (zlen_nonneg value).
  pose proof (tx_blob_ok tx_id sub_op exp value Hs Hv) as Hb.
  unfold log_tx_record. rewrite <- (tx_blob_len tx_id sub_op exp value), <- !app_assoc.
  rewrite (app_assoc (tx_prefix tx_id sub_op exp) value rest).
  assert (Ec : crc32_chain key (tx_prefix tx_id sub_op exp) value =
    log_crc 8 key (tx_prefix tx_id sub_op exp ++ value) 0).
  { unfold log_crc. change (has_meta 8) with false. cbn iota. unfold crc32_chain, crc32_two.
    apply Forall_app in Hb as Hb'. destruct Hb'. by rewrite !crc_bytes_ref, ref_span_app by done. }
  rewrite Ec. clear Ec. set (blob := tx_prefix tx_id sub_op exp ++ value) in *.
  pose proof (log_crc_fits 8 key blob 0 Hk Hb) as Hc.
  pose proof (read_parts max_val 8 key blob 0 (log_crc 8 key blob 0) rest Hmax eq_refl Lk) as R.
  change (has_meta 8) with false in R. apply R; [|done|exact Hc|done|reflexivity].
  unfold blob. rewrite tx_blob_len. cbn. lia.
Qed.

(** ** Replaying one operation *)

(** A recovery in progress, seen as a map and the committed transactions. *)
Definition recovered (st : recovering) : cmap * list Z := (contents (rv_cache st), rv_committed st).

Definition replays (st : recovering) (r : option recovering) (x : cmap * list Z) : Prop :=
  exists st', r = Some st' /\ plain (rv_cache st') /\ recovered st' = x.

Lemma put_replays st key value exp ids : plain (rv_cache st) -> words_ok key value exp ->
  replays st (Some (Recovering (kuttidb_put_abs (rv_cache st) key value exp).2 ids))
    (<[key := (value, exp)]> (contents (rv_cache st)), ids).
Proof.
  intros Hp Hw. destruct (kuttidb_put_abs _ _ _ _) as [rc c'] eqn:E.
  destruct (put_plain _ _ _ _ _ _ Hp Hw E) as (Hp' & _ & He & _).
  eexists. split; [done|]. split; [done|]. unfold recovered. cbn [rv_cache rv_committed snd]. by rewrite He.
Qed.

Lemma delete_replays st key ids : plain (rv_cache st) ->
  replays st (Some (Recovering (kuttidb_delete (rv_cache st) key).2 ids))
    (delete key (contents (rv_cache st)), ids).
Proof.
  intros Hp. destruct (kuttidb_delete _ _) as [rc c'] eqn:E.
  destruct (delete_plain _ _ _ _ Hp E) as (Hp' & He & _ & _).
  eexists. split; [done|]. split; [done|]. unfold recovered. cbn [rv_cache rv_committed snd]. by rewrite He.
Qed.

Lemma skip_replays st c ids : plain c -> replays st (Some (Recovering c ids)) (contents c, ids).
Proof. intros Hp. by eexists. Qed.

Lemma past_test exp now : (exp =? 0) || (now <? exp) = negb (past exp now).
Proof. unfold past. destruct (Z.eqb_spec exp 0), (Z.ltb_spec now exp), (Z.leb_spec exp now); try done; lia. Qed.

Lemma tx_fields tx_id sub_op exp value : fits 64 tx_id -> fits 32 exp ->
  let v := tx_prefix tx_id sub_op exp ++ value in
  get64 v = tx_id /\ byte_at v 8 = sub_op /\ get32 (drop 9 v) = exp /\ drop 13 v = value.
Proof.
  intros Ht He v. unfold v, tx_prefix. rewrite <- !app_assoc. split.
  { rewrite get64_put64. by apply u64_small. }
  split; [done|]. split; [|done].
  change (drop 9 _) with (put32 exp ++ value). rewrite get32_put32. by apply u32_small.
Qed.

Lemma tx_marker_replays st tx_id sub_op key value exp time max_val : plain (rv_cache st) ->
  fits 32 (max_val + 13) -> lop_ok max_val (LTx tx_id sub_op key value exp) ->
  replays st (apply_tx_marker st key (tx_prefix tx_id sub_op exp ++ value) time)
    (lop_replay (u32 time) (recovered st) (LTx tx_id sub_op key value exp)).
Proof.
  intros Hp Hmax (Hk & Hv & Lk & Lv & He & Ht & Hsub).
  destruct (tx_fields tx_id sub_op exp value Ht He) as (F1 & F2 & F3 & F4).
  pose proof (zlen_nonneg value). pose proof (zlen_nonneg key).
  assert (W : forall x, x = 0 \/ x = exp -> words_ok key value x).
  { unfold words_ok, MAX_KEY, fits in *. intros x [->| ->]; lia. }
  unfold apply_tx_marker. rewrite tx_blob_len, F1, F2, F3, F4.
  destruct (Z.ltb_spec (13 + zlen value) 13); [lia|]. rewrite past_test.
  unfold lop_replay, recovered, commit_tx, with_cache. cbn [rv_cache rv_committed].
  destruct Hsub as [->|[->|[->|[->| ->]]]]; cbn [Z.eqb Pos.eqb orb andb].
  - apply put_replays; [done|]. apply W. by left.
  - by apply delete_replays.
  - destruct (past exp (u32 time)); cbn [negb rv_cache rv_committed].
    + by apply skip_replays.
    + apply put_replays; [done|]. apply W. by right.
  - destruct (get_plain (rv_cache st) key time Hp) as (hit & ov & c' & -> & Hp' & _ & Hr).
    destruct (read_at _ _ _); destruct Hr as [-> <-]; cbn [Z.eqb Pos.eqb rv_cache rv_committed].
    + apply (put_replays (Recovering c' [])); [done|]. apply W. by left.
    + by apply skip_replays.
    + by apply skip_replays.
  - fold (past exp (u32 time)).
    destruct (past exp (u32 time)); [by apply skip_replays|].
    destruct (get_plain (rv_cache st) key time Hp) as (hit & ov & c' & -> & Hp' & _ & Hr).
    destruct (read_at _ _ _); destruct Hr as [-> <-]; cbn [Z.eqb Pos.eqb rv_cache rv_committed].
    + apply (put_replays (Recovering c' [])); [done|]. apply W. by right.
    + by apply skip_replays.
    + by apply skip_replays.
Qed.

(** The record of an operation reads back as the operation. *)
Lemma lop_reads max_val o : 0 <= max_val -> fits 32 (max_val + 13) -> lop_ok max_val o -> exists op key value meta,
  (forall rest, plain_read max_val (lop_bytes o ++ rest) = LogRec op key value meta rest) /\
  (forall st time, plain (rv_cache st) ->
     replays st (apply_log_record st op key value meta time) (lop_replay (u32 time) (recovered st) o)).
Proof.
  intros H0 Hmax Ho. destruct o as [key value exp|key|tx_id sub_op key value exp].
  - destruct Ho as (Hk & Hv & Lk & Lv & He). pose proof (zlen_nonneg value). pose proof (zlen_nonneg key).
    assert (Hw : words_ok key value exp) by (unfold words_ok, MAX_KEY, fits in *; lia).
    cbn [lop_bytes]. destruct (Z.eqb_spec exp 0) as [->|Hne].
    + eexists _, _, _, _. split; [intros rest; by apply read_record|]. intros st time Hp.
      by apply put_replays.
    + eexists _, _, _, _. split; [intros rest; by apply read_record|]. intros st time Hp.
      unfold apply_log_record. cbn [Z.eqb Pos.eqb]. change (has_meta 7) with true. cbn iota.
      rewrite past_test. unfold lop_replay, recovered.
      destruct (past exp (u32 time)); cbn [negb]; [|by apply put_replays].
      destruct st. by apply skip_replays.
  - destruct Ho as (Hk & Lk). eexists _, _, _, _.
    split; [intros rest; apply read_record; try done; constructor|].
    intros st time Hp. by apply delete_replays.
  - pose proof Ho as (Hk & Hv & Lk & Lv & _ & _ & Hs). eexists _, _, _, _.
    split; [intros rest; apply read_tx_record; try done; unfold is_byte; lia|].
    intros st time Hp. change (apply_log_record st 8 key ?v 0 time) with (apply_tx_marker st key v time).
    by apply (tx_marker_replays _ _ _ _ _ _ _ max_val).
Qed.

Lemma log_record_bytes op key value meta : is_byte op -> bytes_ok key -> bytes_ok value ->
  bytes_ok (log_record op key value meta).
Proof.
  intros Ho Hk Hv. pose proof (put32_bytes meta) as Hm. unfold log_record.
  apply Forall_app_2; [repeat apply Forall_cons_2; [done|apply u8_byte..|by apply Forall_nil]|].
  repeat apply Forall_app_2; try apply put32_bytes; try done.
  destruct (has_meta op); [done|by apply Forall_nil].
Qed.

Lemma lop_bytes_ok max_val o : lop_ok max_val o -> bytes_ok (lop_bytes o).
Proof.
  destruct o as [key value exp|key|tx_id sub_op key value exp]; cbn [lop_bytes lop_ok].
  - intros (? & ? & _). apply log_record_bytes; [|done..]. destruct (_ =? _); done.
  - intros (? & _). apply log_record_bytes; [done..|by apply Forall_nil].
  - intros (Hk & Hv & _ & _ & _ & _ & Hs). unfold log_tx_record.
    pose proof (tx_blob_ok tx_id sub_op exp value) as Hb.
    apply Forall_app_2.
    { repeat apply Forall_cons_2; [done|apply u8_byte..|by apply Forall_nil]. }
    do 2 (apply Forall_app_2; [apply put32_bytes|]).
    apply Forall_app_2; [done|]. apply Hb; [unfold is_byte; lia|done].
Qed.

Lemma lop_bytes_long o : (11 <= length (lop_bytes o))%nat.
Proof.
  destruct o; cbn [lop_bytes]; unfold log_record, log_tx_record; rewrite !length_app; simpl; lia.
Qed.

Lemma lops_bytes_ok max_val l : Forall (lop_ok max_val) l -> bytes_ok (lops_bytes l).
Proof.
  intros H. unfold lops_bytes. induction H as [|o l Ho _ IH]; [constructor|]. csimpl.
  apply Forall_app_2; [by apply (lop_bytes_ok max_val)|done].
Qed.

(** ** Replaying a log *)

Lemma set_g_same c : set_g c (db_g c) = c.
Proof. by destruct c. Qed.

Lemma replay_step fuel max_val time st off p : plain (rv_cache st) ->
  replay_wal (S fuel) max_val time st off p =
  match plain_read max_val p with
  | LogEnd => (0, off, st)
  | LogBad => (-1, off, st)
  | LogRec op key value meta rest =>
      match apply_log_record st op key value meta time with
      | None => (-1, off, st)
      | Some st => replay_wal fuel max_val time st (off + (zlen p - zlen rest)) rest
      end
  end.
Proof.
  intros [_ _ Ha]. cbn [replay_wal]. rewrite read_plain by done. unfold with_cache. rewrite set_g_same.
  by replace {| st with rv_cache := rv_cache st |} with st by (by destruct st).
Qed.

Section Replay.
Context (max_val time : Z) (Hpos : 0 <= max_val) (Hmax : fits 32 (max_val + 13)).

Lemma replay_lops l : Forall (lop_ok max_val) l -> forall fuel st off tail, plain (rv_cache st) ->
  exists st', plain (rv_cache st') /\ recovered st' = lops_replay (u32 time) (recovered st) l /\
  replay_wal (length l + fuel) max_val time st off (lops_bytes l ++ tail) =
  replay_wal fuel max_val time st' (off + zlen (lops_bytes l)) tail.
Proof.
  induction 1 as [|o l Ho Hl IH]; intros fuel st off tail Hp.
  - exists st. split; [done|]. split; [done|]. cbn. by rewrite Z.add_0_r.
  - destruct (lop_reads max_val o Hpos Hmax Ho) as (op & key & value & meta & Hr & Ha).
    destruct (Ha st time Hp) as (st1 & E1 & Hp1 & R1).
    destruct (IH fuel st1 (off + zlen (lop_bytes o)) tail Hp1) as (st2 & Hp2 & R2 & E2).
    exists st2. split; [done|]. split; [by rewrite R2, R1|].
    change (length (o :: l) + fuel)%nat with (S (length l + fuel)).
    change (lops_bytes (o :: l)) with (lop_bytes o ++ lops_bytes l). rewrite <- app_assoc.
    rewrite replay_step by done. rewrite Hr, E1, !zlen_app in *.
    replace (off + (zlen (lop_bytes o) + (zlen (lops_bytes l) + zlen tail) -
      (zlen (lops_bytes l) + zlen tail))) with (off + zlen (lop_bytes o)) by lia.
    rewrite E2. f_equal. lia.
Qed.

(** The whole records in front of a cut. *)
Lemma cut_at l : Forall (lop_ok max_val) l -> forall n, exists l1 l2 p, l = l1 ++ l2 /\
  take n (lops_bytes l) = lops_bytes l1 ++ p /\
  (p = [] \/ exists o l3 x, l2 = o :: l3 /\ lop_bytes o = p ++ x /\ p <> [] /\ x <> []).
Proof.
  induction 1 as [|o l Ho Hl IH]; intros n.
  - exists [], [], []. split; [done|]. split; [apply take_nil|by left].
  - change (lops_bytes (o :: l)) with (lop_bytes o ++ lops_bytes l).
    destruct (decide (length (lop_bytes o) <= n)%nat) as [Hn|Hn].
    + destruct (IH (n - length (lop_bytes o))%nat) as (l1 & l2 & p & -> & E & Hp).
      exists (o :: l1), l2, p. split; [done|]. split; [|done].
      rewrite take_app_ge by done. rewrite E. unfold lops_bytes. csimpl. by rewrite <- app_assoc.
    + exists [], (o :: l), (take n (lop_bytes o)). split; [done|]. split.
      { rewrite take_app_le by lia. done. }
      destruct (decide (n = 0)%nat) as [->|H0]; [by left|]. right.
      exists o, l, (drop n (lop_bytes o)). split; [done|]. split; [by rewrite take_drop|].
      split; intros E; apply (f_equal length) in E; revert E; rewrite ?length_take, ?length_drop; simpl; lia.
Qed.

Lemma replay_cut l fuel st off p : Forall (lop_ok max_val) l -> plain (rv_cache st) ->
  (p = [] \/ exists o l3 x, l = o :: l3 /\ lop_bytes o = p ++ x /\ p <> [] /\ x <> []) ->
  replay_wal (S fuel) max_val time st off p = ((match p with [] => 0 | _ => -1 end), off, st).
Proof.
  intros Hl Hp Hc. rewrite replay_step by done. destruct Hc as [->|(o & l3 & x & -> & E & H0 & Hx)]; [done|].
  apply Forall_cons in Hl as [Ho _].
  destruct (lop_reads max_val o Hpos Hmax Ho) as (op & key & value & meta & Hr & _).
  specialize (Hr []). rewrite app_nil_r in Hr.
  rewrite (read_cut max_val (lop_bytes o) op key value meta p x); try done; [by destruct p|].
  by apply (lop_bytes_ok max_val).
Qed.

End Replay.

(** ** The last writer wins *)

(** What the last operation about a key leaves there. *)
Definition last_write (key : bytes) (l : list lop) : option (option (bytes * Z)) :=
  fold_left (fun r o => if bool_decide (lop_key o = key) then Some (lop_val o) else r) l None.

Lemma last_write_snoc key l o : last_write key (l ++ [o]) =
  if bool_decide (lop_key o = key) then Some (lop_val o) else last_write key l.
Proof. unfold last_write. by rewrite fold_left_app. Qed.

Lemma last_write_app key a b : last_write key (a ++ b) =
  match last_write key b with Some r => Some r | None => last_write key a end.
Proof.
  induction b as [|o b IH] using rev_ind; [by rewrite app_nil_r|].
  rewrite app_assoc, !last_write_snoc. by destruct (bool_decide _).
Qed.

Lemma apply_last key m l : lops_apply m l !! key =
  match last_write key l with Some r => r | None => m !! key end.
Proof.
  induction l as [|o l IH] using rev_ind; [done|]. unfold lops_apply in *.
  rewrite fold_left_app, last_write_snoc. cbn [fold_left]. unfold lop_apply at 1.
  case_bool_decide as E; [rewrite E|].
  - destruct (lop_val o); [by rewrite lookup_insert_eq|by rewrite lookup_delete_eq].
  - destruct (lop_val o); [by rewrite lookup_insert_ne|by rewrite lookup_delete_ne].
Qed.

(** [r] is what the map should have at the key, unless that has expired. *)
Definition shows (now : Z) (r : option (bytes * Z)) (m : cmap) (key : bytes) : Prop :=
  match r with
  | Some p => past p.2 now = true \/ m !! key = Some p
  | None => m !! key = None
  end.

Lemma lop_replay_one now x o : unconditional o -> shows now (lop_val o) (lop_replay now x o).1 (lop_key o) /\
  forall key, lop_key o <> key -> (lop_replay now x o).1 !! key = x.1 !! key.
Proof.
  destruct x as [m ids]. intros Hu.
  assert (P : forall k v e, shows now (Some (v, e)) (if past e now then m else <[k := (v, e)]> m) k /\
    forall key, k <> key -> (if past e now then m else <[k := (v, e)]> m) !! key = m !! key).
  { intros k v e. unfold shows. cbn [snd]. destruct (past e now) eqn:E; [split; [by left|done]|].
    split; [right; by rewrite lookup_insert_eq|]. intros key Hk. by rewrite lookup_insert_ne. }
  assert (Q : forall k, shows now None (delete k m) k /\ forall key, k <> key -> delete k m !! key = m !! key).
  { intros k. split; [unfold shows; by rewrite lookup_delete_eq|]. intros key Hk. by rewrite lookup_delete_ne. }
  destruct o as [k v e|k|id sub k v e]; cbn [lop_replay lop_val lop_key fst]; [apply P|apply Q|].
  destruct Hu as [->|[->| ->]]; cbn [Z.eqb Pos.eqb orb fst].
  - specialize (P k v 0). by cbn in P.
  - apply Q.
  - apply P.
Qed.

Lemma replay_last now x l key : Forall unconditional l ->
  match last_write key l with
  | Some r => shows now r (lops_replay now x l).1 key
  | None => (lops_replay now x l).1 !! key = x.1 !! key
  end.
Proof.
  induction l as [|o l IH] using rev_ind; intros Hl; [done|].
  apply Forall_app in Hl as [Hl Ho]. apply Forall_cons in Ho as [Ho _]. specialize (IH Hl).
  unfold lops_replay in *. rewrite fold_left_app, last_write_snoc. cbn [fold_left].
  destruct (lop_replay_one now (fold_left (lop_replay now) l x) o Ho) as [Ha Hb].
  case_bool_decide as E; [by rewrite <- E|]. specialize (Hb key E).
  destruct (last_write key l) as [r|]; [|by rewrite Hb]. unfold shows in *. by rewrite Hb.
Qed.

Lemma shows_later now now' r m key : now <= now' -> shows now r m key -> shows now' r m key.
Proof.
  intros Hn. destruct r as [p|]; [|done]. intros [H|H]; [left|by right]. revert H. unfold past.
  destruct (p.2 =? 0); [done|]. cbn. lia.
Qed.

(** The transactions whose markers are in a log. *)
Definition tx_ids (l : list lop) : list Z :=
  omap (fun o => match o with LTx id _ _ _ _ => Some id | _ => None end) l.

Lemma replay_ids now x l : Forall unconditional l -> (lops_replay now x l).2 = x.2 ++ tx_ids l.
Proof.
  induction l as [|o l IH] using rev_ind; intros Hl; [by rewrite app_nil_r|].
  apply Forall_app in Hl as [Hl Ho]. apply Forall_cons in Ho as [Ho _]. specialize (IH Hl).
  unfold lops_replay, tx_ids in *. rewrite fold_left_app, omap_app, app_assoc, <- IH. cbn [fold_left].
  destruct (fold_left _ l x) as [m ids]. destruct o as [k v e|k|id sub k v e]; csimpl; rewrite ?app_nil_r; [done..|].
  by destruct Ho as [->|[->| ->]].
Qed.

End CacheLogSpec.

(** * Snapshots as maps

    Loading the bytes of a snapshot stores its pairs, and what the scan of a
    shard writes are the pairs of the shard that have not expired. *)

Import Crc Cache CacheBounds CacheSlab CacheTable CacheMap CacheScan CachePlain CacheLog CacheSnap CacheLogSpec.

Module CacheSnapSpec.

(** ** Loading *)

Definition pair := (bytes * (bytes * Z))%type.

Definition pair_bytes (x : pair) : bytes := snap_record x.1 x.2.1 x.2.2.
Definition pairs_bytes (l : list pair) : bytes := concat (pair_bytes <$> l).

Definition pair_ok (max_val : Z) (x : pair) : Prop :=
  zlen x.1 <= MAX_KEY /\ zlen x.2.1 <= max_val /\ fits 32 x.2.2.

Definition pairs_load (now : Z) (m : cmap) (l : list pair) : cmap :=
  fold_left (fun m x => if past x.2.2 now then m else <[x.1 := x.2]> m) l m.

Lemma pair_length x : length (pair_bytes x) = (10 + length x.1 + length x.2.1)%nat.
Proof. unfold pair_bytes, snap_record. rewrite !length_app, !length_put32. cbn [length]. lia. Qed.

Lemma load_pairs max_val time l : fits 32 max_val -> Forall (pair_ok max_val) l -> forall fuel c, plain c ->
  (length (pairs_bytes l) < fuel)%nat -> exists c',
  load_records fuel true max_val time c (pairs_bytes l) = c' /\ plain c' /\
  contents c' = pairs_load (u32 time) (contents c) l.
Proof.
  intros Hmax. induction 1 as [|x l (Lk & Lv & He) Hl IH]; intros fuel c Hc Hf.
  { destruct fuel; [simpl in Hf; lia|]. by exists c. }
  change (pairs_bytes (x :: l)) with (pair_bytes x ++ pairs_bytes l) in *.
  rewrite length_app, pair_length in Hf. destruct fuel as [|fuel]; [lia|].
  destruct x as [key [value exp]]. cbn [fst snd] in *.
  pose proof (zlen_nonneg value). pose proof (zlen_nonneg key).
  assert (Hv : fits 32 (zlen value)) by (unfold fits in *; lia).
  set (hdr := [u8 (zlen key); u8 (Z.shiftr (zlen key) 8)] ++ put32 (zlen value) ++ put32 exp).
  assert (E : pair_bytes (key, (value, exp)) ++ pairs_bytes l = hdr ++ key ++ value ++ pairs_bytes l).
  { unfold pair_bytes, snap_record, hdr. cbn [fst snd]. by rewrite <- !app_assoc. }
  rewrite E. cbn [load_records]. change 10 with (zlen hdr). rewrite read_exact_app.
  change (byte_at hdr 0) with (u8 (zlen key)). change (byte_at hdr 1) with (u8 (Z.shiftr (zlen key) 8)).
  rewrite klen_bytes by lia. change (drop 2 hdr) with (put32 (zlen value) ++ put32 exp).
  change (drop 6 hdr) with (put32 exp ++ []).
  rewrite !get32_put32, (u32_small (zlen value)), (u32_small exp) by done.
  destruct (Z.ltb_spec max_val (zlen value)); [lia|]. unfold malloc. rewrite (pl_allocs c Hc), set_g_same.
  rewrite read_exact_app. cbn [mbind option_bind]. rewrite read_exact_app. cbn [mbind option_bind].
  rewrite past_test. unfold pairs_load. cbn [fold_left fst snd].
  destruct (past exp (u32 time)); cbn [negb]; [apply IH; [done|lia]|].
  destruct (kuttidb_put_abs c key value exp) as [rc c1] eqn:E1.
  destruct (put_plain c key value exp rc c1 Hc) as (Hc1 & _ & <- & _); [|done|apply IH; [done|cbn; lia]].
  unfold words_ok, MAX_KEY, fits in *. lia.
Qed.

Lemma load_snapshot_pairs max_val time l c : fits 32 max_val -> Forall (pair_ok max_val) l -> plain c ->
  exists c', load_snapshot max_val time c (CSN2 ++ pairs_bytes l) = c' /\ plain c' /\
  contents c' = pairs_load (u32 time) (contents c) l.
Proof.
  intros Hmax Hl Hc. unfold load_snapshot. change (take 4 (CSN2 ++ _)) with CSN2.
  change (drop 4 (CSN2 ++ pairs_bytes l)) with (pairs_bytes l). rewrite bool_decide_eq_true_2 by done.
  apply load_pairs; try done. rewrite length_app. simpl. lia.
Qed.

Lemma pairs_lookup now key l : NoDup l.*1 -> forall m, pairs_load now m l !! key =
  match (list_to_map l : cmap) !! key with
  | Some p => if past p.2 now then m !! key else Some p
  | None => m !! key
  end.
Proof.
  induction l as [|[k p] l IH]; intros Hn m; [done|]. rewrite fmap_cons in Hn.
  apply NoDup_cons in Hn as [Hk Hn]. cbn [fst] in Hk. rewrite list_to_map_cons.
  unfold pairs_load. cbn [fold_left fst snd]. fold (pairs_load now (if past p.2 now then m else <[k := p]> m) l).
  rewrite (IH Hn). destruct (decide (k = key)) as [<-|Hne].
  - rewrite lookup_insert_eq, not_elem_of_list_to_map_1 by done.
    destruct (past p.2 now); [done|]. by rewrite lookup_insert_eq.
  - rewrite lookup_insert_ne by done.
    destruct (past p.2 now); [done|]. by rewrite lookup_insert_ne.
Qed.

Lemma pairs_show now r l key : NoDup l.*1 -> shows now r (list_to_map l) key ->
  shows now r (pairs_load now ∅ l) key.
Proof.
  intros Hn. unfold shows. rewrite (pairs_lookup now key l Hn). destruct r as [p|].
  - intros [H| ->]; [by left|]. destruct (past p.2 now) eqn:E; [by left|by right].
  - by intros ->.
Qed.

(** ** Writing *)

Lemma reserve_data v n ok w : kuttidb_vec_reserve v n ok = Some w -> v_data w = v_data v.
Proof.
  unfold kuttidb_vec_reserve. repeat gcase; try done; by intros [= <-].
Qed.

Lemma stage_some now es : forall v allocs w allocs', stage_entries es now v allocs = (Some w, allocs') ->
  v_data w = v_data v ++ concat (stage_entry <$> filter (fun e => is_expired e now = false) es).
Proof.
  induction es as [|e es IH]; intros v allocs w allocs'; cbn [stage_entries].
  { intros [= <- <-]. rewrite filter_nil. cbn. by rewrite app_nil_r. }
  rewrite filter_cons. case_decide as Ex.
  2:{ apply not_false_is_true in Ex. rewrite Ex. apply IH. }
  - rewrite Ex. destruct (draw_realloc _ _ _) as [ok al].
    destruct (kuttidb_vec_reserve _ _ _) as [v1|] eqn:E; [|done]. intros ->%IH.
    cbn [v_data]. apply reserve_data in E. by rewrite E, <- app_assoc.
Qed.

Definition pending (x : snap_ctx) : bytes := sc_tmp x ++ v_data (sc_buf x).

Lemma snap_write_pending x ok x' : snap_write x = (ok, x') -> ok = true -> pending x' = pending x.
Proof.
  unfold snap_write, pending. destruct (sc_ios x) as [|[|n] r]; intros [= <- <-]; try done; intros _;
    cbn [sc_tmp sc_buf v_data]; by rewrite app_nil_r.
Qed.

Lemma snap_cb_pending x key value exp x' stop : snap_cb x key value exp = (x', stop) -> stop = 0 ->
  pending x' = pending x ++ snap_record key value exp.
Proof.
  unfold snap_cb. destruct (draw_realloc _ _ _) as [ok al]. cbn [sc_buf].
  destruct (kuttidb_vec_reserve _ _ _) as [v|] eqn:E; [|by intros [= <- <-]]. apply reserve_data in E.
  destruct (_ <=? _).
  - destruct (snap_write _) as [b x1] eqn:E1. intros [= <- <-]. destruct b; [intros _|done].
    rewrite (snap_write_pending _ _ _ E1 eq_refl). unfold pending. cbn [sc_tmp sc_buf v_data].
    by rewrite E, app_assoc.
  - intros [= <- <-] _. unfold pending. cbn [sc_tmp sc_buf v_data]. by rewrite E, app_assoc.
Qed.

Lemma visit_pending es : forall x x' stop, visit snap_cb es x = (x', stop) -> stop = 0 ->
  pending x' = pending x ++ pairs_bytes (kv <$> es).
Proof.
  induction es as [|e es IH]; intros x x' stop; cbn [visit].
  { intros [= <- <-] _. by rewrite app_nil_r. }
  destruct (snap_cb _ _ _ _) as [x1 st] eqn:E. destruct (Z.eqb_spec st 0) as [->|]; [|by intros [= <- <-]].
  intros E1 E2. rewrite (IH _ _ _ E1 E2), (snap_cb_pending _ _ _ _ _ _ E eq_refl).
  rewrite fmap_cons, <- app_assoc. done.
Qed.

(** The live pairs of a shard. *)
Definition live_pairs (sh : shard) (now : Z) : list pair :=
  kv <$> filter (fun e => is_expired e now = false) (shard_entries sh).

Definition job_pending (j : snap_job) : bytes := sj_tmp j ++ v_data (sj_buf j).

Lemma snap_one_spec s j r s' : db_ok (ps_cache s) -> snap_one s j = (r, s') ->
  s' = {| s with ps_ios := ps_ios s' |} /\
  forall j', r = Some j' -> exists sh, db_shards (ps_cache s) !! sj_shard j = Some sh /\
    job_pending j' = job_pending j ++ pairs_bytes (live_pairs sh (sj_now j)) /\
    sj_shard j' = S (sj_shard j) /\ sj_now j' = sj_now j /\ sj_start j' = sj_start j.
Proof.
  intros Hc. unfold snap_one. assert (Es : s = {| s with ps_ios := ps_ios s |}) by (by destruct s).
  destruct (db_shards _ !! _) as [sh|] eqn:Hsh; [|by intros [= <- <-]].
  destruct (stage_entries _ _ _ _) as [[stage|] al] eqn:E; [|by intros [= <- <-]].
  apply stage_some in E. cbn [v_data app] in E. rewrite E.
  rewrite deliver_visit; [|apply Forall_forall; intros e [_ He]%list_elem_of_filter|done].
  2:{ pose proof (so_entries _ _ _ (do_shards _ Hc _ _ Hsh)) as F. rewrite Forall_forall in F.
      apply (eo_words _ _ _ (F e He)). }
  destruct (visit _ _ _) as [x stop] eqn:Ev. destruct (Z.eqb_spec stop 0) as [->|]; [|by intros [= <- <-]].
  cbn [negb]. intros [= <- <-]. split; [done|]. intros j' [= <-]. exists sh. split; [done|].
  split; [exact (visit_pending _ _ _ _ Ev eq_refl)|done].
Qed.

Lemma snap_publish_spec s j ok s' : snap_publish s j = (ok, s') ->
  s' = {| s with ps_ios := ps_ios s'; ps_snap := ps_snap s' |} /\
  ps_snap s' = if ok then Some (job_pending j) else ps_snap s.
Proof.
  unfold snap_publish. set (x0 := {| sc_buf := sj_buf j |}).
  destruct (match v_data (sj_buf j) with [] => (true, x0) | _ => snap_write x0 end) as [ok1 x] eqn:E.
  assert (Ep : ok1 = true -> sc_tmp x = job_pending j).
  { intros ->. unfold job_pending. destruct (v_data (sj_buf j)) as [|b p] eqn:Ed.
    - injection E as <-. cbn. by rewrite app_nil_r.
    - unfold snap_write in E. subst x0. cbn [sc_ios sc_tmp sc_buf] in E. rewrite Ed in E.
      destruct (ps_ios s) as [|[|n] r]; simplify_eq/=; by rewrite ?Ed. }
  destruct ok1; cbn [negb]; [|by intros [= <- <-]]. rewrite <- (Ep eq_refl). clear.
  unfold syscall, ps_io. cbn [ps_ios]. destruct (sc_ios x) as [|[|n] [|[|n'] r]]; by intros [= <- <-].
Qed.

End CacheSnapSpec.
