(* ===== verification/CacheLogRun.v ===== *)
(** * What the operations of the server do to the log

    A successful operation appends its record to the stream of the log, the
    file and the buffer behind it; a failed one leaves a prefix of that stream
    in the file and no further mutation is accepted. *)

From stdpp Require Import base numbers option list gmap.
From S2P Require Import Prelude Crc Cache CacheSlab CacheTable CacheMap CacheAccount CachePlain CacheLog.
From S2P Require Import CacheLogSpec.
Import Crc Cache CacheBounds CacheSlab CacheTable CacheMap CacheScan CachePlain CacheLog CacheSnap CacheLogSpec CacheSnapSpec.

Module CacheLogRun.

(** What has been logged. *)
Definition stream (s : persist) : bytes := ps_file s ++ v_data (ps_buf s).

(** The configuration. *)
Record fixed (s s' : persist) : Prop := Fixed {
  fx_snap : ps_snap s' = ps_snap s;
  fx_enabled : ps_enabled s' = ps_enabled s;
  fx_open : ps_open s' = ps_open s;
  fx_shared : ps_shared s' = ps_shared s;
  fx_always : ps_always s' = ps_always s }.

(** Only outcomes were drawn or the buffer grew. *)
Record quiet (s s' : persist) : Prop := Quiet {
  qt_fixed : fixed s s';
  qt_cache : ps_cache s' = ps_cache s;
  qt_data : v_data (ps_buf s') = v_data (ps_buf s);
  qt_file : ps_file s' = ps_file s;
  qt_synced : ps_synced s' = ps_synced s;
  qt_failed : ps_failed s' = ps_failed s }.

(** [p] was logged; the file was written completely or not at all. *)
Record logged (p : bytes) (s s' : persist) : Prop := Logged {
  lg_fixed : fixed s s';
  lg_failed : ps_failed s' = ps_failed s;
  lg_stream : stream s' = stream s ++ p;
  lg_file : ps_file s' = ps_file s \/ v_data (ps_buf s') = [];
  lg_synced : ps_synced s' = ps_synced s \/ v_data (ps_buf s') = [] /\ ps_synced s' = zlen (ps_file s') }.

(** The attempt to log [p] failed. *)
Record stuck (p : bytes) (s s' : persist) : Prop := Stuck {
  sk_fixed : fixed s s';
  sk_failed : ps_failed s' = true;
  sk_more : ps_file s `prefix_of` ps_file s';
  sk_file : ps_file s' `prefix_of` stream s ++ p;
  sk_synced : ps_synced s' = ps_synced s }.

Lemma fixed_refl s : fixed s s.
Proof. done. Qed.

Lemma fixed_trans s1 s2 s3 : fixed s1 s2 -> fixed s2 s3 -> fixed s1 s3.
Proof. intros [] []. constructor; congruence. Qed.

Lemma qt_refl s : quiet s s.
Proof. done. Qed.

Lemma qt_trans s1 s2 s3 : quiet s1 s2 -> quiet s2 s3 -> quiet s1 s3.
Proof. intros [] []. constructor; [by eapply fixed_trans|congruence..]. Qed.

Lemma quiet_stream s s' : quiet s s' -> stream s' = stream s.
Proof. intros []. unfold stream. congruence. Qed.

Lemma quiet_logged s s' : quiet s s' -> logged [] s s'.
Proof. intros Q. destruct Q. constructor; try done; [rewrite app_nil_r; by apply quiet_stream|by left..]. Qed.

Lemma logged_quiet p s1 s2 s3 : quiet s1 s2 -> logged p s2 s3 -> logged p s1 s3.
Proof.
  intros Q [F2 E2 S2 A2 B2]. pose proof (quiet_stream _ _ Q) as Es. destruct Q as [F1 _ D1 A1 B1 E1].
  constructor; [by eapply fixed_trans|congruence..| |]; [rewrite <- A1|rewrite <- B1]; done.
Qed.

Lemma stuck_quiet p s1 s2 s3 : quiet s1 s2 -> stuck p s2 s3 -> stuck p s1 s3.
Proof.
  intros Q [F2 E2 M2 A2 B2]. pose proof (quiet_stream _ _ Q) as Es. destruct Q as [F1 _ D1 A1 B1 E1].
  constructor; [by eapply fixed_trans|done|by rewrite <- A1|by rewrite <- Es|congruence].
Qed.

Lemma stuck_here p s : stuck p s (fail s).
Proof.
  constructor; try done. unfold stream. rewrite <- app_assoc. by apply prefix_app_r.
Qed.

Lemma stuck_at p s1 s2 : quiet s1 s2 -> stuck p s1 (fail s2).
Proof. intros Q. eapply stuck_quiet; [exact Q|]. apply stuck_here. Qed.

(** ** System calls and the buffer *)

Lemma ps_io_quiet s r s' : ps_io s = (r, s') -> quiet s s'.
Proof. unfold ps_io. by destruct (ps_ios s); intros [= <- <-]. Qed.

Lemma syscall_quiet s ok s' : syscall s = (ok, s') -> quiet s s'.
Proof.
  unfold syscall. destruct (ps_io s) as [r s1] eqn:E. apply ps_io_quiet in E.
  by destruct r; intros [= <- <-].
Qed.

Lemma reserve_quiet s n ok s' : reserve_buf s n = (ok, s') -> quiet s s'.
Proof.
  unfold reserve_buf. destruct (draw_realloc _ _ _) as [b al]. cbn [ps_buf].
  destruct (kuttidb_vec_reserve _ _ _) as [v|] eqn:E; intros [= <- <-]; [|done].
  apply reserve_data in E. by constructor.
Qed.

Lemma fsync_spec s ok s' : fsync s = (ok, s') ->
  if ok then ps_synced s' = zlen (ps_file s') /\ (v_data (ps_buf s) = [] -> logged [] s s') /\
             ps_cache s' = ps_cache s /\ v_data (ps_buf s') = v_data (ps_buf s)
  else quiet s s'.
Proof.
  unfold fsync. destruct (syscall s) as [b s1] eqn:E. apply syscall_quiet in E.
  destruct b; intros [= <- <-]; [|done]. split; [done|]. destruct E as [F C Dt Fl Sy Fa].
  split; [|by split]. intros Hb. constructor; try done; cbn.
  - by destruct F.
  - unfold stream. cbn. rewrite app_nil_r. congruence.
  - by left.
  - right. split; [congruence|done].
Qed.

Lemma shrink_quiet s : v_data (ps_buf s) = [] -> quiet s (shrink_buf s).
Proof.
  intros Hb. unfold shrink_buf. destruct (_ <? _); [|done]. destruct (ps_allocs s) as [|ok al]; [by constructor|].
  destruct ok; by constructor.
Qed.

Lemma flush_bytes_spec s ok s' : wal_flush_bytes_locked s = (ok, s') -> ps_cache s' = ps_cache s /\
  if ok then logged [] s s' /\ v_data (ps_buf s') = [] /\ ps_synced s' = ps_synced s
  else stuck [] s (fail s') /\ ps_failed s' = ps_failed s.
Proof.
  unfold wal_flush_bytes_locked. destruct (v_data (ps_buf s)) as [|b p] eqn:Ed.
  { intros [= <- <-]. split; [done|]. split; [by apply quiet_logged|]. done. }
  destruct (ps_io s) as [r s1] eqn:E. apply ps_io_quiet in E. destruct E as [F C Dt Fl Sy Fa].
  destruct r as [|n]; intros [= <- <-].
  - match goal with |- context [shrink_buf ?x] => set (s2 := x); pose proof (shrink_quiet s2 eq_refl) as Q end.
    pose proof (quiet_stream _ _ Q) as Es. destruct Q as [F3 C3 D3 L3 S3 A3].
    split; [by rewrite C3|]. split; [|split; [by rewrite D3|by rewrite S3]].
    constructor; [apply (fixed_trans _ s2); [by destruct F|done]|by rewrite A3| | |].
    + rewrite Es, app_nil_r. unfold stream, s2. cbn [ps_file ps_buf v_data]. by rewrite app_nil_r, Fl, Ed.
    + right. by rewrite D3.
    + left. by rewrite S3.
  - split; [done|]. split; [|done]. constructor; cbn [fail ps_file ps_synced ps_failed]; try done.
    + by destruct F.
    + rewrite Fl. by apply prefix_app_r.
    + rewrite Fl, app_nil_r. unfold stream. rewrite Ed. apply prefix_app. by apply prefix_take.
Qed.

(** ** Logging *)

Lemma flush_and_sync_spec s flush sync rc s' : ps_shared s = false -> (sync = true -> flush = true) ->
  flush_and_sync s flush sync = (rc, s') -> ps_cache s' = ps_cache s /\
  (rc = 0 /\ logged [] s s' /\ (flush = true -> v_data (ps_buf s') = []) /\
     (sync = true -> ps_synced s' = zlen (ps_file s')) \/
   rc = -1 /\ stuck [] s s').
Proof.
  intros Hs Hi. unfold flush_and_sync, wal_flush_locked. rewrite Hs.
  assert (F : exists ok s1, (if flush then wal_flush_bytes_locked s else (true, s)) = (ok, s1) /\
    ps_cache s1 = ps_cache s /\
    if ok then logged [] s s1 /\ (flush = true -> v_data (ps_buf s1) = []) /\ ps_synced s1 = ps_synced s
    else stuck [] s (fail s1)).
  { destruct flush.
    - destruct (wal_flush_bytes_locked s) as [ok s1] eqn:E. apply flush_bytes_spec in E as [C E].
      exists ok, s1. split; [done|]. split; [done|]. destruct ok; [destruct E as (? & ? & ?)|destruct E]; done.
    - exists true, s. split; [done|]. split; [done|]. split; [apply quiet_logged, qt_refl|done]. }
  destruct F as (ok & s1 & -> & C & F). destruct ok; cbn [negb].
  2:{ intros [= <- <-]. split; [done|]. by right. }
  destruct F as (L & Hb & Hsy1). destruct sync; [|intros [= <- <-]; split; [done|]; by left].
  specialize (Hi eq_refl). specialize (Hb Hi). destruct (fsync s1) as [ok s2] eqn:E. apply fsync_spec in E.
  destruct ok; intros [= <- <-].
  - destruct E as (Hsy & Hl & C2 & D2). specialize (Hl Hb). split; [congruence|]. left.
    split; [done|]. split; [|split; [intros _; congruence|done]]. destruct L as [F1 E1 S1 _ _], Hl as [F2 E2 S2 _ _].
    rewrite app_nil_r in S1, S2. constructor; [by eapply fixed_trans|congruence|rewrite app_nil_r; congruence|..].
    + right. congruence.
    + right. split; [congruence|done].
  - destruct E as [F2 C2 D2 L2 S2 A2]. split; [by cbn; congruence|]. right. split; [done|].
    destruct L as [F1 E1 S1 P1 Y1]. constructor; cbn.
    + destruct (fixed_trans _ _ _ F1 F2). done.
    + done.
    + rewrite L2. unfold stream in S1. rewrite Hb, !app_nil_r in S1. rewrite S1. by apply prefix_app_r.
    + rewrite L2, <- S1. unfold stream. by rewrite Hb, app_nil_r.
    + congruence.
Qed.

Lemma append_logged p s1 s2 s3 : quiet s1 s2 -> logged [] (append_buf s2 p) s3 -> logged p s1 s3.
Proof.
  intros Q [F2 E2 S2 A2 B2]. apply (logged_quiet _ _ _ _ Q). constructor; [by destruct F2|done| |done..].
  rewrite S2, app_nil_r. unfold stream, append_buf. cbn [ps_file ps_buf v_data]. by rewrite app_assoc.
Qed.

Lemma append_stuck p s1 s2 s3 : quiet s1 s2 -> stuck [] (append_buf s2 p) s3 -> stuck p s1 s3.
Proof.
  intros Q [F2 E2 M2 A2 B2]. apply (stuck_quiet _ _ _ _ Q). constructor; [by destruct F2|done|done| |done].
  rewrite app_nil_r in A2. unfold stream, append_buf in A2. cbn [ps_file ps_buf v_data] in A2.
  unfold stream. by rewrite <- app_assoc.
Qed.

(** Logging, flushing and the barrier behind it, as the mutations do them. *)
Lemma log_flush_spec s1 s2 p flush sync rc s' : quiet s1 s2 -> ps_shared s1 = false ->
  (sync = true -> flush = true) -> flush_and_sync (append_buf s2 p) flush sync = (rc, s') ->
  ps_cache s' = ps_cache s2 /\
  (rc = 0 /\ logged p s1 s' /\ (sync = true -> v_data (ps_buf s') = [] /\ ps_synced s' = zlen (ps_file s')) \/
   rc = -1 /\ stuck p s1 s').
Proof.
  intros Q Hs Hi E. apply flush_and_sync_spec in E as [C E]; [|by rewrite <- Hs; destruct Q as [[]]|done].
  split; [done|]. destruct E as [(-> & L & Hb & Hy)|(-> & K)]; [left|right].
  - split; [done|]. split; [by eapply append_logged|]. intros ->. auto.
  - split; [done|]. by eapply append_stuck.
Qed.

(** The cache is replaced without touching the log. *)
Lemma set_cache_logged p s c s' : logged p (set_cache s c) s' -> logged p s s'.
Proof. intros [[]]. by constructor. Qed.
Lemma set_cache_stuck p s c s' : stuck p (set_cache s c) s' -> stuck p s s'.
Proof. intros [[]]. by constructor. Qed.

(** ** The mutations *)

(** Ready to accept mutations; the log has one writer. *)
Record ready (s : persist) : Prop := Ready {
  rd_enabled : ps_enabled s = true;
  rd_open : ps_open s = true;
  rd_failed : ps_failed s = false;
  rd_shared : ps_shared s = false;
  rd_plain : plain (ps_cache s) }.

Definition synced_all (s : persist) : Prop := v_data (ps_buf s) = [] /\ ps_synced s = zlen (ps_file s).

Lemma log_spec s op key value meta ok s' : ps_open s = true -> wal_log_locked s op key value meta = (ok, s') ->
  exists s1, quiet s s1 /\ s' = if ok then append_buf s1 (log_record op key value meta) else s1.
Proof.
  intros Ho. unfold wal_log_locked. rewrite Ho. cbn [negb].
  destruct (reserve_buf s _) as [b s1] eqn:E. apply reserve_quiet in E.
  destruct b; intros [= <- <-]; by exists s1.
Qed.

Lemma persist_put_spec s key value ttl batch now rc s' : ready s ->
  let exp := kuttidb_expiry_from_ttl ttl now in words_ok key value exp ->
  persist_put s key value ttl batch now = (rc, s') ->
  rc = 0 /\ logged (lop_bytes (LPut key value exp)) s s' /\
    kuttidb_put_abs (ps_cache s) key value exp = (0, ps_cache s') /\
    (batch = false -> ps_always s = true -> synced_all s') \/
  rc = -1 /\ stuck (lop_bytes (LPut key value exp)) s s'.
Proof.
  intros [He Ho Hf Hs Hp] exp Hw. unfold persist_put. fold exp. rewrite He, Ho, Hf. cbn [negb orb].
  unfold file_lock. rewrite Hs. cbn [negb].
  destruct (reserve_buf s _) as [[] s1] eqn:E1; apply reserve_quiet in E1; cbn [negb].
  2:{ intros [= <- <-]. right. split; [done|]. by apply stuck_at. }
  rewrite (qt_cache _ _ E1).
  destruct (kuttidb_put_abs (ps_cache s) key value exp) as [r c] eqn:Ec.
  destruct (put_plain _ _ _ _ _ _ Hp Hw Ec) as (_ & -> & _). change (0 <? 0) with false. cbn iota.
  set (s2 := set_cache s1 c).
  assert (Ho2 : ps_open s2 = true) by (destruct E1 as [[]]; cbn; congruence).
  assert (Hs2 : ps_shared s2 = false) by (destruct E1 as [[]]; cbn; congruence).
  assert (Ha2 : ps_always s2 = ps_always s) by (destruct E1 as [[]]; done).
  destruct (wal_log_locked s2 _ key value exp) as [ok s3] eqn:E3.
  apply log_spec in E3 as (s4 & Q & ->); [|done].
  assert (K : forall x, stuck (lop_bytes (LPut key value exp)) s2 x -> stuck (lop_bytes (LPut key value exp)) s x).
  { intros x K. apply set_cache_stuck in K. by eapply stuck_quiet. }
  destruct ok; cbn [negb].
  2:{ intros [= <- <-]. right. split; [done|]. apply K. by apply stuck_at. }
  assert (Es : ps_shared (append_buf s4 (log_record (if exp =? 0 then 1 else 7) key value exp)) = false)
    by (destruct Q as [[]]; cbn; congruence).
  assert (Ea : ps_always (append_buf s4 (log_record (if exp =? 0 then 1 else 7) key value exp)) = ps_always s)
    by (destruct Q as [[]]; cbn; congruence).
  rewrite Es, Ea. intros E. apply (log_flush_spec s2) in E as [C E]; [|done|done|].
  2:{ intros ->. by rewrite orb_true_r. }
  destruct E as [(-> & L & Hy)|(-> & L)]; [left|right; auto]. split; [done|].
  split; [eapply logged_quiet; [exact E1|]; by apply (set_cache_logged _ _ c)|].
  split; [by rewrite C, (qt_cache _ _ Q)|]. intros -> Hal. apply Hy. by rewrite Hal.
Qed.

Lemma persist_delete_spec s key rc s' : ready s -> persist_delete s key = (rc, s') ->
  rc = 0 /\ logged [] s s' /\ kuttidb_delete (ps_cache s) key = (0, ps_cache s') \/
  rc = 1 /\ logged (lop_bytes (LDel key)) s s' /\ kuttidb_delete (ps_cache s) key = (1, ps_cache s') /\
    (ps_always s = true -> synced_all s') \/
  rc = -1 /\ stuck (lop_bytes (LDel key)) s s'.
Proof.
  intros [He Ho Hf Hs Hp]. unfold persist_delete. rewrite He, Ho, Hf. cbn [negb orb].
  unfold file_lock. rewrite Hs. cbn [negb].
  destruct (reserve_buf s _) as [[] s1] eqn:E1; apply reserve_quiet in E1; cbn [negb].
  2:{ intros [= <- <-]. do 2 right. split; [done|]. by apply stuck_at. }
  rewrite (qt_cache _ _ E1). destruct (kuttidb_delete (ps_cache s) key) as [r c] eqn:Ec.
  destruct (delete_plain _ _ _ _ Hp Ec) as (_ & _ & Hr & _). set (s2 := set_cache s1 c).
  destruct (contents (ps_cache s) !! key); subst r; cbn [Z.eqb].
  2:{ intros [= <- <-]. left. split; [done|]. split; [|done]. eapply logged_quiet; [exact E1|].
      apply (set_cache_logged _ _ c), quiet_logged. apply qt_refl. }
  assert (Ho2 : ps_open s2 = true) by (destruct E1 as [[]]; cbn; congruence).
  assert (Hs2 : ps_shared s2 = false) by (destruct E1 as [[]]; cbn; congruence).
  assert (Ha2 : ps_always s2 = ps_always s) by (destruct E1 as [[]]; done).
  destruct (wal_log_locked s2 _ key [] 0) as [ok s3] eqn:E3.
  apply log_spec in E3 as (s4 & Q & ->); [|done].
  assert (K : forall x, stuck (lop_bytes (LDel key)) s2 x -> stuck (lop_bytes (LDel key)) s x).
  { intros x K. apply set_cache_stuck in K. by eapply stuck_quiet. }
  destruct ok; cbn [negb].
  2:{ intros [= <- <-]. do 2 right. split; [done|]. apply K. by apply stuck_at. }
  assert (Es : ps_shared (append_buf s4 (log_record 3 key [] 0)) = false)
    by (destruct Q as [[]]; cbn; congruence).
  assert (Ea : ps_always (append_buf s4 (log_record 3 key [] 0)) = ps_always s)
    by (destruct Q as [[]]; cbn; congruence).
  rewrite Es, Ea. cbn [orb]. destruct (flush_and_sync _ _ _) as [rc1 s5] eqn:E.
  apply (log_flush_spec s2) in E as [C E]; [|done|done|done].
  destruct E as [(-> & L & Hy)|(-> & L)]; intros [= <- <-]; right; [left|right; auto]. split; [done|].
  split; [eapply logged_quiet; [exact E1|]; by apply (set_cache_logged _ _ c)|].
  split; [by rewrite C, (qt_cache _ _ Q)|]. intros Hal. by apply Hy.
Qed.

Lemma tx_commit_spec s tx_id sub_op key value exp time now rc s' : ready s ->
  persist_tx_commit s tx_id sub_op key value exp false time now = (rc, s') ->
  rc = 0 /\ logged (lop_bytes (LTx tx_id sub_op key value exp)) s s' /\
    ps_cache s' = ps_cache (apply_commit s sub_op key value exp (u32 now)) /\ synced_all s' \/
  rc = -1 /\ stuck (lop_bytes (LTx tx_id sub_op key value exp)) s s'.
Proof.
  intros [He Ho Hf Hs Hp]. unfold persist_tx_commit. rewrite He, Ho, Hf. cbn [negb orb].
  unfold file_lock. rewrite Hs. cbn [negb Z.eqb Pos.eqb].
  destruct (reserve_buf s _) as [[] s1] eqn:E1; apply reserve_quiet in E1; cbn [negb].
  2:{ intros [= <- <-]. right. split; [done|]. by apply stuck_at. }
  unfold wal_log_tx_locked. rewrite (fx_open _ _ (qt_fixed _ _ E1)), Ho. cbn [negb].
  destruct (reserve_buf s1 _) as [b s2] eqn:E2. apply reserve_quiet in E2.
  pose proof (qt_trans _ _ _ E1 E2) as Q. destruct b; cbn [negb].
  2:{ intros [= <- <-]. right. split; [done|]. by apply stuck_at. }
  destruct (flush_and_sync _ true true) as [r s3] eqn:E.
  apply (log_flush_spec s) in E as [C E]; [|done..].
  destruct E as [(-> & L & Hy)|(-> & L)]; intros [= <- <-]; [left|by right]. split; [done|].
  assert (A : forall x y, fixed x y -> ps_cache x = ps_cache y -> apply_commit y sub_op key value exp (u32 now) =
    set_cache y (ps_cache (apply_commit x sub_op key value exp (u32 now)))).
  { intros x y _ Exy. unfold apply_commit. rewrite Exy. repeat gcase; try done.
    rewrite Exy. by destruct y. }
  rewrite (A s s3); [|apply L|by rewrite C, (qt_cache _ _ Q)].
  split; [destruct L as [[] ? ? ? ?]; by constructor|]. split; [done|]. by apply Hy.
Qed.

Lemma flush_spec s rc s' : ready s -> wal_flush s = (rc, s') ->
  ps_cache s' = ps_cache s /\ (rc = 0 /\ logged [] s s' /\ v_data (ps_buf s') = [] \/ rc = -1 /\ stuck [] s s').
Proof.
  intros [He Ho Hf Hs Hp]. unfold wal_flush, wal_flush_locked. rewrite Ho, Hs. cbn [negb].
  destruct (wal_flush_bytes_locked s) as [[] s1] eqn:E; apply flush_bytes_spec in E as [C E]; intros [= <- <-].
  - split; [done|]. left. by destruct E as (? & ? & _).
  - split; [done|]. right. by destruct E.
Qed.

Lemma batch_spec s rc s' : ready s -> persist_batch_commit s = (rc, s') -> ps_cache s' = ps_cache s /\
  (rc = 0 /\ logged [] s s' /\ (ps_always s = true -> synced_all s') \/ rc = -1 /\ stuck [] s s').
Proof.
  intros [He Ho Hf Hs Hp] E.
  assert (E' : flush_and_sync s true (ps_always s) = (rc, s')).
  { rewrite <- E. unfold persist_batch_commit, flush_and_sync, wal_flush_locked. rewrite He, Ho, Hf, Hs.
    cbn [negb]. destruct (wal_flush_bytes_locked s) as [[] s1] eqn:E1; [|done]. cbn [negb].
    apply flush_bytes_spec in E1 as [_ (L & _)]. by rewrite (fx_always _ _ (lg_fixed _ _ _ L)). }
  apply flush_and_sync_spec in E' as [C E']; [|done|done]. split; [done|].
  destruct E' as [(-> & L & Hb & Hy)|(-> & L)]; [left|by right]. split; [done|]. split; [done|].
  intros Ha. split; auto.
Qed.

End CacheLogRun.
