(* ===== verification/CacheRecovery.v ===== *)
(** * Recovery of the cache

    The invariant of a server that logs its mutations and takes snapshots
    while it works, that every operation and every part of a snapshot keeps
    it until the first failure, and that the files on disk then bring back,
    for each key, what a prefix of the history with every durable operation
    in it leaves there.

    Then, in [CacheSnapRun]: snapshots keep the recovery invariant. *)

From stdpp Require Import base numbers option list gmap.
From S2P Require Import Prelude Crc Cache CacheSlab CacheTable CacheMap CacheAccount CacheTheorems CachePlain.
From S2P Require Import CacheLog CacheLogSpec CacheLogRun.
Import Crc Cache CacheBounds CacheSlab CacheTable CacheMap CacheScan CacheTheorems CachePlain CacheLog CacheSnap CacheLogSpec CacheSnapSpec CacheLogRun.

Module CacheRecovery.

(** ** Byte positions of records *)

Lemma lops_bytes_app a b : lops_bytes (a ++ b) = lops_bytes a ++ lops_bytes b.
Proof. unfold lops_bytes. by rewrite fmap_app, concat_app. Qed.

Lemma lops_bytes_prefix a b : a `prefix_of` b -> lops_bytes a `prefix_of` lops_bytes b.
Proof. intros [c ->]. rewrite lops_bytes_app. by apply prefix_app_r. Qed.

Lemma file_range_lops a b c :
  file_range (lops_bytes (a ++ b ++ c)) (zlen (lops_bytes a)) (zlen (lops_bytes (a ++ b))) = lops_bytes b.
Proof.
  unfold file_range. rewrite !lops_bytes_app, zlen_app. unfold zlen. rewrite Nat2Z.id, drop_app_length.
  replace (Z.to_nat _) with (length (lops_bytes b)) by lia. by rewrite take_app_length.
Qed.

Lemma prefix_total {A} (a b l : list A) : a `prefix_of` l -> b `prefix_of` l ->
  a `prefix_of` b \/ b `prefix_of` a.
Proof.
  intros [x Hx] [y Hy]. subst l. destruct (decide (length a <= length b)%nat) as [H|H]; [left|right].
  - exists (take (length b - length a) x). 
    apply (f_equal (take (length b))) in Hy. rewrite take_app_length, take_app_ge in Hy by lia. done.
  - exists (take (length a - length b) y).
    apply (f_equal (take (length a))) in Hy. rewrite take_app_length, take_app_ge in Hy by lia. done.
Qed.

Section Run.
Context (max_val T : Z).

(** ** Invariants *)

Definition between (Q L A : list lop) : Prop := Q `prefix_of` A /\ A `prefix_of` L.

(** For each key the map has what some history from [Q] to [L] leaves there. *)
Definition covers (Q L : list lop) (m : cmap) (key : bytes) : Prop :=
  exists A, between Q L A /\ shows T (lops_apply ∅ A !! key) m key.

Definition snap_covers (Q L : list lop) (snap : option bytes) : Prop := exists l : list pair,
  (snap = None /\ l = [] \/ snap = Some (CSN2 ++ pairs_bytes l)) /\
  NoDup l.*1 /\ Forall (pair_ok max_val) l /\ forall key, covers Q L (list_to_map l) key.

Definition key_shard (bits : Z) (key : bytes) : nat := Z.to_nat (Z.shiftr (hash_key key) (32 - bits)).

(** A scan has covered the shards in front of [sj_shard]. *)
Definition scanned (Q L : list lop) (bits : Z) (j : snap_job) : Prop := exists l : list pair,
  job_pending j = CSN2 ++ pairs_bytes l /\ sj_now j <= T /\
  NoDup l.*1 /\ Forall (pair_ok max_val) l /\
  Forall (fun x => key_shard bits x.1 < sj_shard j)%nat l /\
  forall key, (key_shard bits key < sj_shard j)%nat -> covers Q L (list_to_map l) key.

Definition cut_from (F : list lop) (j : snap_job) (Q : list lop) : Prop :=
  Q `prefix_of` F /\ sj_start j = zlen (lops_bytes Q).

Definition phase_ok (P F L : list lop) (s : persist) (ph : snap_phase) : Prop :=
  match ph with
  | Idle | Checked => True
  | Scanning j => exists Q, cut_from F j Q /\ scanned (P ++ Q) L (db_shard_bits (ps_cache s)) j
  | Published j => exists Q, cut_from F j Q /\ snap_covers (P ++ Q) L (ps_snap s)
  | Cut j => exists Q M, cut_from F j Q /\ snap_covers (P ++ Q) L (ps_snap s) /\
      (Q ++ M) `prefix_of` F /\ sj_middle j = zlen (lops_bytes (Q ++ M))
  | Copied j => exists Q M, cut_from F j Q /\ snap_covers (P ++ Q) L (ps_snap s) /\
      (Q ++ M) `prefix_of` F /\ sj_middle j = zlen (lops_bytes (Q ++ M)) /\ sj_copy j = lops_bytes M
  end.

(** [L]: the history; [P] is in the snapshot only, [F] in the file, [B] in
    the buffer, [Fs] in the durable part of the file; [D] was promised. *)
Record inv (P L D F B Fs : list lop) (s : persist) (ph : snap_phase) : Prop := Inv {
  in_ready : ready s;
  in_live : forall key, shows T (lops_apply ∅ L !! key) (contents (ps_cache s)) key;
  in_sizes : forall key p, contents (ps_cache s) !! key = Some p -> pair_ok max_val (key, p);
  in_file : ps_file s = lops_bytes F;
  in_buf : v_data (ps_buf s) = lops_bytes B;
  in_all : L = P ++ F ++ B;
  in_ok : Forall (lop_ok max_val) L /\ Forall unconditional L;
  in_sync : Fs `prefix_of` F /\ ps_synced s = zlen (lops_bytes Fs);
  in_durable : D `prefix_of` P ++ Fs;
  in_snap : snap_covers P L (ps_snap s);
  in_phase : phase_ok P F L s ph }.

(** What is on disk, also after a failure: [E] is at most the operation that
    failed, [G] is what the file has a prefix of. *)
Record disk_at (E P G Fs L D : list lop) (file : bytes) (synced : Z) (snap : option bytes) : Prop := DiskAt {
  dk_failed : (length E <= 1)%nat;
  dk_all : L ++ E = P ++ G;
  dk_file : file `prefix_of` lops_bytes G;
  dk_sync : Fs `prefix_of` G;
  dk_synced : synced = zlen (lops_bytes Fs);
  dk_written : synced <= zlen file;
  dk_durable : D `prefix_of` P ++ Fs;
  dk_snap : snap_covers P (L ++ E) snap;
  dk_ok : Forall (lop_ok max_val) G;
  dk_uncond : Forall unconditional G }.

Definition on_disk (L D : list lop) (file : bytes) (synced : Z) (snap : option bytes) : Prop :=
  exists E P G Fs, disk_at E P G Fs L D file synced snap.

(** ** Histories grow *)

Lemma covers_mono Q Q' L L' m key : Q' `prefix_of` Q -> L `prefix_of` L' -> covers Q L m key ->
  covers Q' L' m key.
Proof.
  intros HQ HL (A & [H1 H2] & H3). exists A. split; [|done]. split; by etrans.
Qed.

Lemma snap_covers_mono Q Q' L L' snap : Q' `prefix_of` Q -> L `prefix_of` L' -> snap_covers Q L snap ->
  snap_covers Q' L' snap.
Proof.
  intros HQ HL (l & H1 & H2 & H3 & H4). exists l. split; [done|]. split; [done|]. split; [done|].
  intros key. by eapply covers_mono.
Qed.

Lemma cut_mono F F' j Q : F `prefix_of` F' -> cut_from F j Q -> cut_from F' j Q.
Proof. intros HF [H1 H2]. split; [by etrans|done]. Qed.

Lemma phase_mono P F F' L L' s s' ph : F `prefix_of` F' -> L `prefix_of` L' -> ps_snap s' = ps_snap s ->
  db_shard_bits (ps_cache s') = db_shard_bits (ps_cache s) -> phase_ok P F L s ph -> phase_ok P F' L' s' ph.
Proof.
  intros HF HL Es Eb. destruct ph as [| |j|j|j|j]; cbn; rewrite ?Es, ?Eb; [done|done| | | |].
  - intros (Q & H1 & l & H2 & H3 & H4 & H5 & H6 & H7). exists Q. split; [by eapply cut_mono|].
    exists l. do 5 (split; [done|]). intros key Hk. eapply covers_mono; [done|exact HL|auto].
  - intros (Q & H1 & H2). exists Q. split; [by eapply cut_mono|]. by eapply snap_covers_mono.
  - intros (Q & M & H1 & H2 & H3 & H4). exists Q, M. split; [by eapply cut_mono|].
    split; [by eapply snap_covers_mono|]. split; [by etrans|done].
  - intros (Q & M & H1 & H2 & H3 & H4 & H5). exists Q, M. split; [by eapply cut_mono|].
    split; [by eapply snap_covers_mono|]. split; [by etrans|done].
Qed.

(** ** Operations keep the invariant *)

Lemma lops_bytes_nil E : lops_bytes E = [] -> E = [].
Proof.
  destruct E as [|o E]; [done|]. intros H. pose proof (lop_bytes_long o) as Hl.
  apply (f_equal length) in H. unfold lops_bytes in H. rewrite fmap_cons in H. cbn [concat] in H.
  rewrite length_app in H. simpl in H. lia.
Qed.

(** The new cache shows the new history. *)
Record cache_shows (L : list lop) (s s' : persist) : Prop := CacheShows {
  cs_plain : plain (ps_cache s');
  cs_bits : db_shard_bits (ps_cache s') = db_shard_bits (ps_cache s);
  cs_live : forall key, shows T (lops_apply ∅ L !! key) (contents (ps_cache s')) key;
  cs_sizes : forall key p, contents (ps_cache s') !! key = Some p -> pair_ok max_val (key, p) }.

Lemma inv_log P L D F B Fs s ph E s' : inv P L D F B Fs s ph -> logged (lops_bytes E) s s' ->
  cache_shows (L ++ E) s s' -> Forall (lop_ok max_val) E -> Forall unconditional E ->
  exists F' B' Fs', F `prefix_of` F' /\ (v_data (ps_buf s') = [] -> B' = []) /\
    inv P (L ++ E) D F' B' Fs' s' ph /\ (synced_all s' -> inv P (L ++ E) (L ++ E) F' B' Fs' s' ph).
Proof.
  intros [[Re Ro Rf Rs Rp] Hlive Hsz HF HB HL [Ho Hu] [Hs1 Hs2] HD HS Hph] [[X1 X2 X3 X4 X5] Hf Hst Hfl Hsy]
    [C1 C2 C3 C4] HE HuE.
  unfold stream in Hst. rewrite HF, HB, <- app_assoc, <- !lops_bytes_app in Hst.
  assert (G : exists F' B' Fs', F `prefix_of` F' /\ ps_file s' = lops_bytes F' /\
    v_data (ps_buf s') = lops_bytes B' /\ F ++ B ++ E = F' ++ B' /\ Fs `prefix_of` Fs' /\
    Fs' `prefix_of` F' /\ ps_synced s' = zlen (lops_bytes Fs') /\ (synced_all s' -> B' = [] /\ Fs' = F') /\
    (v_data (ps_buf s') = [] -> B' = [])).
  { assert (W : v_data (ps_buf s') = [] -> ps_file s' = lops_bytes (F ++ B ++ E)).
    { intros W. rewrite W, app_nil_r in Hst. by rewrite Hst. }
    destruct (decide (v_data (ps_buf s') = [])) as [Hb|Hb].
    - specialize (W Hb). destruct (decide (ps_synced s' = zlen (ps_file s'))) as [Hy|Hy].
      + exists (F ++ B ++ E), [], (F ++ B ++ E). rewrite app_nil_r.
        split_and!; try done; [by apply prefix_app_r| |by rewrite <- W]. etrans; [exact Hs1|by apply prefix_app_r].
      + exists (F ++ B ++ E), [], Fs. rewrite app_nil_r.
        destruct Hsy as [Hsy|[_ Hsy]]; [|done].
        split_and!; try done; [by apply prefix_app_r|etrans; [exact Hs1|by apply prefix_app_r]|congruence|].
        intros [_ ?]. done.
    - destruct Hfl as [Hfl|Hfl]; [|done]. destruct Hsy as [Hsy|[Hsy _]]; [|done].
      exists F, (B ++ E), Fs. split_and!; try done; try congruence.
      + rewrite Hfl, HF, lops_bytes_app in Hst. by apply app_inv_head in Hst.
      + intros [? _]. done. }
  destruct G as (F' & B' & Fs' & G1 & G2 & G3 & G4 & G5 & G6 & G7 & G8 & G9).
  exists F', B', Fs'. split; [done|]. split; [done|].
  assert (HLE : L `prefix_of` L ++ E) by (by apply prefix_app_r).
  assert (I : inv P (L ++ E) D F' B' Fs' s' ph).
  { constructor; try done.
    - constructor; congruence.
    - rewrite HL, <- G4. by rewrite <- !app_assoc.
    - split; by apply Forall_app_2.
    - etrans; [exact HD|]. by apply prefix_app.
    - rewrite X1. by eapply snap_covers_mono.
    - by apply (phase_mono P F F' L (L ++ E) s s' ph). }
  split; [done|]. intros Sy. destruct (G8 Sy) as [-> ->]. rewrite app_nil_r in G4. destruct I.
  constructor; try done. rewrite HL, <- G4. by rewrite <- !app_assoc.
Qed.

Lemma cache_same L s s' : (forall key, shows T (lops_apply ∅ L !! key) (contents (ps_cache s)) key) ->
  (forall key p, contents (ps_cache s) !! key = Some p -> pair_ok max_val (key, p)) ->
  plain (ps_cache s) -> ps_cache s' = ps_cache s -> cache_shows L s s'.
Proof. intros H1 H2 H3 E. constructor; by rewrite E. Qed.

(** What remains on disk. *)
Lemma inv_disk_at P L D F B Fs s ph : inv P L D F B Fs s ph ->
  disk_at [] P (F ++ B) Fs L D (ps_file s) (ps_synced s) (ps_snap s).
Proof.
  intros []. destruct in_ok0 as [Ho Hu], in_sync0 as [Hs1 Hs2].
  subst L. apply Forall_app in Ho as [_ Ho], Hu as [_ Hu].
  constructor; rewrite ?app_nil_r; try done.
  - simpl. lia.
  - rewrite in_file0, lops_bytes_app. by apply prefix_app_r.
  - etrans; [exact Hs1|by apply prefix_app_r].
  - rewrite Hs2, in_file0. apply lops_bytes_prefix, prefix_length in Hs1. unfold zlen. lia.
Qed.

Lemma inv_disk P L D F B Fs s ph : inv P L D F B Fs s ph -> on_disk L D (ps_file s) (ps_synced s) (ps_snap s).
Proof. intros I. exists [], P, (F ++ B), Fs. by eapply inv_disk_at. Qed.

Lemma stuck_disk P L D F B Fs s ph E s' : inv P L D F B Fs s ph -> stuck (lops_bytes E) s s' ->
  (length E <= 1)%nat -> Forall (lop_ok max_val) E -> Forall unconditional E ->
  on_disk L D (ps_file s') (ps_synced s') (ps_snap s').
Proof.
  intros [] [[X1 _ _ _ _] Hf Hm Hfl Hsy] Hlen HE HuE. exists E, P, (F ++ B ++ E), Fs.
  destruct in_ok0 as [Ho Hu], in_sync0 as [Hs1 Hs2].
  unfold stream in Hfl. rewrite in_file0, in_buf0, <- app_assoc, <- !lops_bytes_app in Hfl.
  subst L. apply Forall_app in Ho as [_ Ho], Hu as [_ Hu].
  constructor; try done.
  - by rewrite <- !app_assoc.
  - etrans; [exact Hs1|by apply prefix_app_r].
  - congruence.
  - rewrite Hsy, Hs2. apply lops_bytes_prefix in Hs1. rewrite <- in_file0 in Hs1.
    assert (Hp : lops_bytes Fs `prefix_of` ps_file s') by (by etrans).
    apply prefix_length in Hp. unfold zlen. lia.
  - rewrite X1. eapply snap_covers_mono; [done| |done]. by apply prefix_app_r.
  - rewrite (app_assoc F). by apply Forall_app_2.
  - rewrite (app_assoc F). by apply Forall_app_2.
Qed.

(** ** The cache under operations *)

Lemma apply_snoc L o : lops_apply ∅ (L ++ [o]) = lop_apply (lops_apply ∅ L) o.
Proof. unfold lops_apply. by rewrite fold_left_app. Qed.

Section Live.
Context (L : list lop) (s : persist).
Hypothesis Hp : plain (ps_cache s).
Hypothesis Hlive : forall key, shows T (lops_apply ∅ L !! key) (contents (ps_cache s)) key.
Hypothesis Hsizes : forall key p, contents (ps_cache s) !! key = Some p -> pair_ok max_val (key, p).

Lemma put_shows o s' key value exp : kuttidb_put_abs (ps_cache s) key value exp = (0, ps_cache s') ->
  lop_key o = key -> lop_val o = Some (value, exp) -> words_ok key value exp ->
  pair_ok max_val (key, (value, exp)) -> cache_shows (L ++ [o]) s s'.
Proof.
  intros E Ek Ev Hw Hs. destruct (put_plain _ _ _ _ _ _ Hp Hw E) as (Hp' & _ & Hc & Hb).
  constructor; [done|done| |]; rewrite Hc.
  - intros k. rewrite apply_snoc. unfold lop_apply. rewrite Ek, Ev.
    destruct (decide (key = k)) as [<-|Hn].
    + rewrite lookup_insert_eq. right. by rewrite lookup_insert_eq.
    + rewrite lookup_insert_ne by done. specialize (Hlive k). unfold shows in *. by rewrite lookup_insert_ne.
  - intros k p. rewrite lookup_insert_Some. intros [[<- <-]|[_ H]]; [done|auto].
Qed.

Lemma delete_shows o s' key rc : kuttidb_delete (ps_cache s) key = (rc, ps_cache s') ->
  lop_key o = key -> lop_val o = None -> cache_shows (L ++ [o]) s s'.
Proof.
  intros E Ek Ev. destruct (delete_plain _ _ _ _ Hp E) as (Hp' & Hc & _ & Hb).
  constructor; [done|done| |]; rewrite Hc.
  - intros k. rewrite apply_snoc. unfold lop_apply. rewrite Ek, Ev.
    destruct (decide (key = k)) as [<-|Hn].
    + rewrite lookup_delete_eq. unfold shows. by rewrite lookup_delete_eq.
    + rewrite lookup_delete_ne by done. specialize (Hlive k). unfold shows in *. by rewrite lookup_delete_ne.
  - intros k p. rewrite lookup_delete_Some. intros [_ H]. auto.
Qed.

(** Entries that have expired may go. *)
Lemma drop_shows s' : plain (ps_cache s') -> db_shard_bits (ps_cache s') = db_shard_bits (ps_cache s) ->
  contents (ps_cache s') ⊆ contents (ps_cache s) ->
  (forall key p, contents (ps_cache s) !! key = Some p -> contents (ps_cache s') !! key = None ->
     past p.2 T = true) -> cache_shows L s s'.
Proof.
  intros Hp' Hb Hsub Hgone. constructor; [done|done| |].
  - intros key. specialize (Hlive key). unfold shows in *. destruct (lops_apply ∅ L !! key) as [p|].
    + destruct Hlive as [H|H]; [by left|].
      destruct (contents (ps_cache s') !! key) as [q|] eqn:Eq; [|left; by eapply Hgone].
      right. pose proof (lookup_weaken _ _ _ _ Eq Hsub). congruence.
    + by eapply lookup_weaken_None.
  - intros key p H. apply Hsizes. by eapply lookup_weaken.
Qed.

Lemma past_mono e now : now <= T -> past e now = true -> past e T = true.
Proof. intros Hn. unfold past. destruct (e =? 0); [done|]. cbn. lia. Qed.

Lemma get_shows key time hit ov s' : u32 time <= T -> kuttidb_get (ps_cache s) key time = (hit, ov, ps_cache s') ->
  cache_shows L s s'.
Proof.
  intros Ht E. destruct (get_plain (ps_cache s) key time Hp) as (h & o & c & E' & Hp' & Hb & Hr).
  rewrite E in E'. injection E' as _ _ <-. unfold read_at in Hr.
  destruct (contents (ps_cache s) !! key) as [[v e]|] eqn:Ek; [|destruct Hr as [_ Hr]].
  2:{ apply drop_shows; [done|done|by rewrite Hr|rewrite Hr; congruence]. }
  destruct (negb (e =? 0) && (e <=? u32 time)) eqn:Ee; destruct Hr as [_ Hr].
  - apply drop_shows; [done|done|rewrite Hr; apply delete_subseteq|]. rewrite Hr. intros k p Hk.
    rewrite lookup_delete_None. intros [<-|?]; [|congruence]. rewrite Ek in Hk. injection Hk as <-.
    by apply (past_mono _ (u32 time)).
  - apply drop_shows; [done|done|by rewrite Hr|rewrite Hr; congruence].
Qed.

Lemma sweep_shows work time s' : u32 time <= T ->
  ps_cache s' = kuttidb_sweep_expired (ps_cache s) work time -> cache_shows L s s'.
Proof.
  intros Ht E. destruct (sweep_plain (ps_cache s) work time Hp) as (H1 & H2 & H3 & H4). rewrite <- E in *.
  apply drop_shows; try done. intros key p A B. apply (past_mono _ (u32 time)); [done|]. exact (H4 key p A B).
Qed.

Lemma tx_shows s' id sub key value exp now : u32 now <= T ->
  lop_ok max_val (LTx id sub key value exp) -> unconditional (LTx id sub key value exp) ->
  fits 32 max_val ->
  ps_cache s' = ps_cache (apply_commit s sub key value exp (u32 now)) ->
  cache_shows (L ++ [LTx id sub key value exp]) s s'.
Proof.
  intros Ht (Hk & Hv & Lk & Lv & He & _) Hu Hm. pose proof (zlen_nonneg key). pose proof (zlen_nonneg value).
  assert (W : forall x, x = 0 \/ x = exp -> words_ok key value x /\ pair_ok max_val (key, (value, x))).
  { unfold words_ok, pair_ok, MAX_KEY, fits in *. cbn. intros x [->| ->]; lia. }
  assert (Pt : forall x, x = 0 \/ x = exp -> lop_val (LTx id sub key value exp) = Some (value, x) ->
    ps_cache s' = (kuttidb_put_abs (ps_cache s) key value x).2 ->
    cache_shows (L ++ [LTx id sub key value exp]) s s').
  { intros x Hx Ev E. destruct (W x Hx) as [Hw Hs].
    destruct (kuttidb_put_abs (ps_cache s) key value x) as [rc c] eqn:Ep.
    destruct (put_plain _ _ _ _ _ _ Hp Hw Ep) as (_ & -> & _). cbn in E.
    by apply (put_shows _ s' key value x); rewrite ?E. }
  destruct Hu as [->|[->| ->]]; unfold apply_commit; cbn [Z.eqb Pos.eqb orb]; intros E.
  - by apply (Pt 0); [left|..].
  - destruct (kuttidb_delete (ps_cache s) key) as [rc c] eqn:Ed.
    apply (delete_shows _ s' key rc); [by rewrite E|done|done].
  - destruct (negb (exp =? 0) && (exp <=? u32 now)) eqn:Ee; [|by apply (Pt exp); [right|..]].
    destruct (cache_same L s s') as [C1 C2 C3 C4]; try done. constructor; try done.
    intros k. rewrite apply_snoc. unfold lop_apply. cbn [lop_val lop_key Z.eqb Pos.eqb orb].
    destruct (decide (key = k)) as [<-|Hn]; [|by rewrite lookup_insert_ne].
    rewrite lookup_insert_eq. left. by apply (past_mono _ (u32 now)).
Qed.
End Live.

End Run.

End CacheRecovery.

(** * Snapshots keep the recovery invariant

    Each part of a snapshot, with any operations between the parts, keeps the
    invariant of [CacheRecovery]; the last one moves the start of the log. *)

Import Crc Cache CacheBounds CacheSlab CacheTable CacheMap CacheScan CacheTheorems CachePlain CacheLog CacheSnap CacheLogSpec CacheSnapSpec CacheLogRun CacheRecovery.

Module CacheSnapRun.

(** ** The pairs of a shard *)

Lemma live_keys sh now : NoDup (ce_key <$> shard_entries sh) -> NoDup (live_pairs sh now).*1.
Proof.
  intros Hn. unfold live_pairs. rewrite kv_keys. eapply sublist_NoDup; [exact Hn|].
  apply fmap_sublist, sublist_filter.
Qed.

Lemma live_in_shard c i sh now x : db_ok c -> db_shards c !! i = Some sh -> x ∈ live_pairs sh now ->
  key_shard (db_shard_bits c) x.1 = i /\ contents c !! x.1 = Some x.2 /\ past x.2.2 now = false.
Proof.
  intros Hc Hi (e & -> & [Ha He]%list_elem_of_filter)%list_elem_of_fmap.
  pose proof (so_entries _ _ _ (do_shards _ Hc _ _ Hi)) as F. rewrite Forall_forall in F.
  destruct (F e He) as [E1 E2 _ _ _]. cbn [kv fst snd]. split; [unfold key_shard; by rewrite <- E1|].
  split; [|exact Ha]. apply map_of_some; [by apply all_keys|]. apply elem_of_concat. exists (shard_entries sh).
  split; [|done]. apply list_elem_of_fmap_2. by eapply list_elem_of_lookup_2.
Qed.

Lemma live_lookup c i sh now key : db_ok c -> db_shards c !! i = Some sh ->
  key_shard (db_shard_bits c) key = i ->
  (list_to_map (live_pairs sh now) : cmap) !! key =
  match contents c !! key with Some p => if past p.2 now then None else Some p | None => None end.
Proof.
  intros Hc Hi Hk. pose proof (do_shards _ Hc _ _ Hi) as Ho.
  pose proof (live_keys sh now (so_keys _ _ _ Ho)) as Hn.
  assert (Hs : db_shards c !! shard_for c (hash_key key) = Some sh) by (by rewrite <- Hi, <- Hk).
  pose proof (find_contents c key sh Hc Hs) as H1. pose proof (find_entry_spec _ _ _ key Ho) as H2.
  destruct (find_entry _ _ _) as [e|].
  - destruct H1 as [_ Hc1], H2 as [He Hke]. rewrite Hc1. cbn [snd]. change (past (ce_exp e) now) with (is_expired e now).
    destruct (is_expired e now) eqn:Ex.
    + apply not_elem_of_list_to_map. intros (x & Hx & Hl)%list_elem_of_fmap.
      destruct (live_in_shard c i sh now x Hc Hi Hl) as (_ & Ec & Ex'). rewrite <- Hx, Hc1 in Ec.
      injection Ec as Ec. rewrite <- Ec in Ex'. change (is_expired e now = false) in Ex'. congruence.
    + apply elem_of_list_to_map; [done|]. apply list_elem_of_fmap. exists e.
      split; [by unfold kv; rewrite Hke|]. by apply list_elem_of_filter.
  - rewrite H1. apply not_elem_of_list_to_map. intros (x & Hx & Hl)%list_elem_of_fmap.
    destruct (live_in_shard c i sh now x Hc Hi Hl) as (_ & Ec & _). congruence.
Qed.

(** ** The parts of a snapshot *)

Section Snap.
Context (max_val T : Z).

Abbreviation inv := (inv max_val T).
Abbreviation phase_ok := (phase_ok max_val T).
Abbreviation snap_covers := (snap_covers max_val T).

Lemma inv_quiet P L D F B Fs s s' ph ph' : inv P L D F B Fs s ph -> quiet s s' ->
  phase_ok P F L s' ph' -> inv P L D F B Fs s' ph'.
Proof.
  intros [[R1 R2 R3 R4 R5]] [[X1 X2 X3 X4 X5] Q1 Q2 Q3 Q4 Q5] Hph.
  constructor; try done; rewrite ?Q1, ?Q2, ?Q3, ?Q4, ?X1; try done. constructor; congruence.
Qed.

Lemma inv_idle P L D F B Fs s s' ph : inv P L D F B Fs s ph -> quiet s s' -> inv P L D F B Fs s' Idle.
Proof. intros I Q. by eapply inv_quiet. Qed.

Lemma file_prefix P L D F B Fs s ph : inv P L D F B Fs s ph -> (P ++ F) `prefix_of` L.
Proof. intros []. subst L. rewrite app_assoc. by apply prefix_app_r. Qed.

Lemma begin_inv P L D F B Fs s time al r s' : inv P L D F B Fs s Checked -> u32 time <= T ->
  snap_begin s time al = (r, s') ->
  inv P L D F B Fs s' (match r with Some j => Scanning j | None => Idle end).
Proof.
  intros I Ht. unfold snap_begin.
  destruct (syscall s) as [[] s1] eqn:E1; apply syscall_quiet in E1; cbn [negb];
    [|intros [= <- <-]; by eapply inv_idle].
  destruct (syscall s1) as [[] s2] eqn:E2; apply syscall_quiet in E2; cbn [negb];
    pose proof (qt_trans _ _ _ E1 E2) as Q; [|intros [= <- <-]; by eapply inv_idle].
  intros [= <- <-]. eapply inv_quiet; [exact I|exact Q|]. exists F.
  split; [split; [done|]; cbn; by rewrite (in_file _ _ _ _ _ _ _ _ _ _ I)|].
  exists []. cbn. split_and!; try done; [apply NoDup_nil_2|]. intros key H. lia.
Qed.

Lemma one_inv P L D F B Fs s j r s' : inv P L D F B Fs s (Scanning j) -> snap_one s j = (r, s') ->
  inv P L D F B Fs s' (match r with Some j => Scanning j | None => Idle end).
Proof.
  intros I E. pose proof (in_ready _ _ _ _ _ _ _ _ _ _ I) as [_ _ _ _ [Hdb _ _]].
  destruct (snap_one_spec s j r s' Hdb E) as [Es Hr].
  assert (Q : quiet s s') by (rewrite Es; done). destruct r as [j'|]; [|by eapply inv_idle].
  destruct (Hr j' eq_refl) as (sh & Hsh & Hp & Hi & Hn & Hst).
  eapply inv_quiet; [exact I|exact Q|]. cbn. rewrite (qt_cache _ _ Q).
  destruct (in_phase _ _ _ _ _ _ _ _ _ _ I) as (X & [HX1 HX2] & l & H1 & H2 & H3 & H4 & H5 & H6).
  set (c := ps_cache s) in *. set (bits := db_shard_bits c) in *. set (lv := live_pairs sh (sj_now j)) in *.
  pose proof (live_in_shard c (sj_shard j) sh (sj_now j)) as Hlv.
  assert (Hbound : forall x, x ∈ l -> (key_shard bits x.1 < sj_shard j)%nat) by (by apply Forall_forall).
  exists X. split; [split; [done|congruence]|]. exists (l ++ lv). split; [|split; [congruence|split_and!]].
  - rewrite Hp, H1. unfold pairs_bytes. by rewrite fmap_app, concat_app, <- app_assoc.
  - rewrite fmap_app. apply NoDup_app. split; [done|].
    split; [|apply live_keys; exact (so_keys _ _ _ (do_shards _ Hdb _ _ Hsh))].
    intros k (x & -> & Hx)%list_elem_of_fmap (y & Hy & Hy')%list_elem_of_fmap.
    destruct (Hlv y Hdb Hsh Hy') as [Hky _]. specialize (Hbound x Hx). rewrite Hy in Hbound.
    fold bits in Hky. lia.
  - apply Forall_app_2; [done|]. apply Forall_forall. intros x Hx. destruct (Hlv x Hdb Hsh Hx) as (_ & Hcx & _).
    destruct x as [k p]. by apply (in_sizes _ _ _ _ _ _ _ _ _ _ I).
  - rewrite Hi. apply Forall_app_2; apply Forall_forall; intros x Hx; [specialize (Hbound x Hx); lia|].
    destruct (Hlv x Hdb Hsh Hx) as [Hkx _]. fold bits in Hkx. lia.
  - intros key Hk. rewrite Hi in Hk. unfold covers. setoid_rewrite list_to_map_app.
    destruct (decide (key_shard bits key = sj_shard j)) as [Ek|Ek].
    + exists L. split; [split; [|done]|].
      { etrans; [apply prefix_app; exact HX1|]. by eapply file_prefix. }
      assert (El : (list_to_map l : cmap) !! key = None).
      { apply not_elem_of_list_to_map. intros (x & -> & Hx)%list_elem_of_fmap. specialize (Hbound x Hx). lia. }
      pose proof (in_live _ _ _ _ _ _ _ _ _ _ I key) as Hl. fold c in Hl. revert Hl. unfold shows.
      rewrite lookup_union_r by done. unfold lv. rewrite (live_lookup c _ sh (sj_now j) key Hdb Hsh Ek).
      destruct (lops_apply ∅ L !! key) as [p|]; [|by intros ->]. intros [Hl|Hl]; [by left|]. rewrite Hl.
      destruct (past p.2 (sj_now j)) eqn:Ep; [left|by right]. by eapply past_mono.
    + destruct (H6 key) as (A & HA & Hs); [lia|]. exists A. split; [done|].
      assert (Er : (list_to_map lv : cmap) !! key = None).
      { apply not_elem_of_list_to_map. intros (x & -> & Hx)%list_elem_of_fmap.
        destruct (Hlv x Hdb Hsh Hx) as [Hkx _]. fold bits in Hkx. lia. }
      revert Hs. unfold shows. destruct (lops_apply ∅ A !! key) as [p|].
      * intros [Hs|Hs]; [by left|right]. by apply lookup_union_Some_l.
      * intros Hs. by apply lookup_union_None.
Qed.

Lemma publish_inv P L D F B Fs s j ok s' : inv P L D F B Fs s (Scanning j) ->
  (length (db_shards (ps_cache s)) <= sj_shard j)%nat -> snap_publish s j = (ok, s') ->
  inv P L D F B Fs s' (if ok then Published j else Idle).
Proof.
  intros I Hall E. pose proof (in_ready _ _ _ _ _ _ _ _ _ _ I) as [R1 R2 R3 R4 R5].
  destruct (snap_publish_spec s j ok s' E) as [Es Ep]. clear E. destruct ok.
  2:{ assert (Q : quiet s s') by (rewrite Es, Ep; done). by eapply inv_idle. }
  destruct (in_phase _ _ _ _ _ _ _ _ _ _ I) as (X & HX & l & H1 & H2 & H3 & H4 & _ & H6).
  assert (HS : snap_covers (P ++ X) L (ps_snap s')).
  { exists l. split; [right; by rewrite Ep, H1|]. split; [done|]. split; [done|]. intros key. apply H6.
    destruct (shard_lookup (ps_cache s) (hash_key key) (pl_ok _ R5) (hash_key_fits key)) as (sh & Hsh & Hk).
    unfold key_shard. rewrite Hk. apply lookup_lt_Some in Hsh. lia. }
  destruct I. rewrite Es in *. constructor; try done.
  - eapply (snap_covers_mono max_val T (P ++ X)); [by apply prefix_app_r|done|done].
  - by exists X.
Qed.

(** The invariant, or a failure that leaves enough on disk. *)
Definition kept (L D : list lop) (s' : persist) (ph : snap_phase) : Prop :=
  (exists P F B Fs, inv P L D F B Fs s' ph) \/
  ps_failed s' = true /\ on_disk max_val T L D (ps_file s') (ps_synced s') (ps_snap s').

Lemma kept_inv P L D F B Fs s ph : inv P L D F B Fs s ph -> kept L D s ph.
Proof. intros I. left. by exists P, F, B, Fs. Qed.

Lemma kept_fail P L D F B Fs s s' ph ph' : inv P L D F B Fs s ph -> quiet s s' -> kept L D (fail s') ph'.
Proof.
  intros I [[X1 _ _ _ _] _ _ Q3 Q4 _]. right. split; [done|]. cbn. rewrite Q3, Q4, X1.
  by eapply inv_disk.
Qed.

Lemma kept_stuck P L D F B Fs s ph s' ph' : inv P L D F B Fs s ph -> stuck [] s s' -> kept L D s' ph'.
Proof.
  intros I K. right. split; [apply K|]. eapply (stuck_disk max_val T _ _ _ _ _ _ _ _ []); [exact I|done|simpl; lia|done..].
Qed.

(** A flush of a ready server. *)
Lemma flush_inv P L D F B Fs s ph ok s1 : inv P L D F B Fs s ph -> wal_flush_bytes_locked s = (ok, s1) ->
  if ok then exists F' Fs', F `prefix_of` F' /\ inv P L D F' [] Fs' s1 ph else stuck [] s (fail s1).
Proof.
  intros I E. apply flush_bytes_spec in E as [C E]. destruct ok; [|apply E].
  destruct E as (Lg & Hb & _).
  destruct (inv_log max_val T P L D F B Fs s ph [] s1 I Lg) as (F' & B' & Fs' & H1 & H2 & H3 & _); [|done..|].
  - rewrite app_nil_r. destruct I. destruct in_ready0. by apply cache_same.
  - rewrite app_nil_r in H3. rewrite (H2 Hb) in H3. by exists F', Fs'.
Qed.

Lemma middle_inv P L D F B Fs s j r s' : inv P L D F B Fs s (Published j) -> snap_middle s j = (r, s') ->
  kept L D s' (match r with Some j => Cut j | None => Idle end).
Proof.
  intros I. unfold snap_middle, file_lock. rewrite (rd_shared _ (in_ready _ _ _ _ _ _ _ _ _ _ I)). cbn [negb].
  destruct (wal_flush_bytes_locked s) as [ok s1] eqn:E. pose proof (flush_inv _ _ _ _ _ _ _ _ _ _ I E) as H.
  destruct ok.
  - destruct H as (F' & Fs' & HF & I').
    destruct (in_phase _ _ _ _ _ _ _ _ _ _ I') as (X & [[M ->] HX] & HS).
    assert (Hlt : (zlen (ps_file s1) <? sj_start j) = false).
    { rewrite HX, (in_file _ _ _ _ _ _ _ _ _ _ I'), lops_bytes_app, zlen_app.
      pose proof (zlen_nonneg (lops_bytes M)). lia. }
    rewrite Hlt. intros [= <- <-]. eapply kept_inv. eapply inv_quiet; [exact I'|apply qt_refl|].
    exists X, M. split; [split; [by apply prefix_app_r|done]|]. split; [done|]. split; [done|].
    cbn. by rewrite (in_file _ _ _ _ _ _ _ _ _ _ I').
  - destruct (_ <? _); intros [= <- <-]; by eapply kept_stuck.
Qed.

Lemma prepare_inv P L D F B Fs s j r s' : inv P L D F B Fs s (Cut j) -> snap_prepare s j = (r, s') ->
  inv P L D F B Fs s' (match r with Some j => Copied j | None => Idle end).
Proof.
  intros I. unfold snap_prepare. destruct (syscall s) as [ok s1] eqn:E1. apply syscall_quiet in E1.
  destruct (negb ok || _); [intros [= <- <-]; by eapply inv_idle|].
  assert (Q : exists ok s2, (if sj_start j <? sj_middle j then syscall s1 else (true, s1)) = (ok, s2) /\ quiet s s2).
  { destruct (_ <? _); [|by exists true, s1]. destruct (syscall s1) as [b s2] eqn:E2.
    exists b, s2. split; [done|]. eapply qt_trans; [exact E1|]. by eapply syscall_quiet. }
  destruct Q as (ok2 & s2 & -> & Q2). destruct ok2; cbn [negb]; [|intros [= <- <-]; by eapply inv_idle].
  destruct (syscall s2) as [ok3 s3] eqn:E3. apply syscall_quiet in E3.
  pose proof (qt_trans _ _ _ Q2 E3) as Q3. destruct ok3; cbn [negb]; [|intros [= <- <-]; by eapply inv_idle].
  intros [= <- <-]. eapply inv_quiet; [exact I|exact Q3|].
  destruct (in_phase _ _ _ _ _ _ _ _ _ _ I) as (X & M & [H1 H2] & H3 & [R H4] & H5).
  exists X, M. cbn. rewrite (fx_snap _ _ (qt_fixed _ _ Q3)). split; [done|]. split; [done|].
  split; [by exists R|]. split; [done|].
  rewrite (qt_file _ _ Q3), (in_file _ _ _ _ _ _ _ _ _ _ I), H2, H5, H4, <- app_assoc. apply file_range_lops.
Qed.

(** The log is replaced by its tail. *)
Lemma switch_inv P L D F Fs s X G copy : inv P L D F [] Fs s Idle -> F = X ++ G ->
  snap_covers (P ++ X) L (ps_snap s) -> copy = lops_bytes G ->
  forall ok s', snap_switch s copy = (ok, s') -> kept L D (if ok then s' else fail s') Idle.
Proof.
  intros I -> HS -> ok s'. unfold snap_switch. rewrite (rd_shared _ (in_ready _ _ _ _ _ _ _ _ _ _ I)).
  destruct (syscall s) as [[] s1] eqn:E1; apply syscall_quiet in E1; cbn [negb];
    [|intros [= <- <-]; by eapply kept_fail].
  set (s2 := {| s1 with ps_file := lops_bytes G; ps_synced := zlen (lops_bytes G) |}).
  assert (I2 : inv (P ++ X) L D G [] G s2 Idle).
  { destruct (inv_idle _ _ _ _ _ _ _ _ _ I E1) as [[] ? ? ? ? HL ? [Hs1 _] ? ? ?].
    constructor; try done.
    - by rewrite HL, !app_nil_r, app_assoc.
    - etrans; [eassumption|]. rewrite <- app_assoc. by apply prefix_app.
    - unfold s2. cbn. by rewrite (fx_snap _ _ (qt_fixed _ _ E1)). }
  destruct (syscall s2) as [[] s3] eqn:E3; apply syscall_quiet in E3; intros [= <- <-].
  - eapply kept_inv. by eapply inv_idle.
  - pose proof (kept_fail _ _ _ _ _ _ _ _ _ Idle I2 E3) as [(? & ? & ? & ? & K)|[_ K]]; [|by right].
    by destruct K as [[]].
Qed.

Lemma fold_inv P L D F B Fs s j : inv P L D F B Fs s (Copied j) -> kept L D (snap_fold s j).2 Idle.
Proof.
  intros I. unfold snap_fold, file_lock. rewrite (rd_shared _ (in_ready _ _ _ _ _ _ _ _ _ _ I)). cbn [negb].
  destruct (wal_flush_bytes_locked s) as [ok s1] eqn:E. pose proof (flush_inv _ _ _ _ _ _ _ _ _ _ I E) as H.
  destruct ok; cbn [andb]; [|by eapply kept_stuck]. destruct H as (F' & Fs' & HF & I').
  destruct (in_phase _ _ _ _ _ _ _ _ _ _ I') as (X & M & [_ HX] & HS & [R ->] & HM & HC).
  assert (Hf : ps_file s1 = lops_bytes ((X ++ M) ++ R)) by apply (in_file _ _ _ _ _ _ _ _ _ _ I').
  assert (Hend : (zlen (ps_file s1) <? sj_start j) || (zlen (ps_file s1) <? sj_middle j) = false).
  { rewrite HX, HM, Hf, !lops_bytes_app, !zlen_app. pose proof (zlen_nonneg (lops_bytes M)).
    pose proof (zlen_nonneg (lops_bytes R)). lia. }
  rewrite Hend. cbn [negb andb].
  assert (Q : exists ok s2, (if sj_middle j <? zlen (ps_file s1) then syscall s1 else (true, s1)) = (ok, s2) /\
    quiet s1 s2).
  { destruct (sj_middle j <? zlen (ps_file s1)); [|exists true, s1; split; [reflexivity|apply qt_refl]]. destruct (syscall s1) as [b s2] eqn:E2.
    exists b, s2. split; [done|]. by eapply syscall_quiet. }
  destruct Q as (ok2 & s2 & -> & Q2). destruct ok2; [|by eapply kept_fail].
  destruct (syscall s2) as [ok3 s3] eqn:E3. apply syscall_quiet in E3.
  pose proof (qt_trans _ _ _ Q2 E3) as Q3. destruct ok3; [|by eapply kept_fail].
  pose proof (inv_idle _ _ _ _ _ _ _ _ _ I' Q3) as I3.
  assert (Ec : sj_copy j ++ file_range (ps_file s2) (sj_middle j) (zlen (ps_file s1)) = lops_bytes (M ++ R)).
  { rewrite HC, (qt_file _ _ Q2), HM, Hf, (lops_bytes_app M R). f_equal.
    pose proof (file_range_lops (X ++ M) R []) as FR. by rewrite app_nil_r in FR. }
  rewrite Ec. rewrite <- (fx_snap _ _ (qt_fixed _ _ Q3)) in HS.
  pose proof (switch_inv P L D _ Fs' s3 X (M ++ R) _ I3 ltac:(by rewrite app_assoc) HS eq_refl) as K.
  destruct (snap_switch s3 _) as [[] s4]; specialize (K _ _ eq_refl); done.
Qed.

Lemma snapshot_inv P L D F B Fs s ph i time al s' ph' : inv P L D F B Fs s ph -> u32 time <= T ->
  do_snapshot s ph i time al = (s', ph') -> kept L D s' ph'.
Proof.
  intros I Ht. unfold do_snapshot, next_phase. destruct ph as [| |j|j|j|j].
  - intros [= <- <-]. eapply kept_inv. eapply inv_quiet; [exact I|apply qt_refl|]. by destruct (snap_check s i).
  - destruct (snap_begin s time al) as [r s1] eqn:E. intros [= <- <-]. eapply kept_inv. by eapply begin_inv.
  - case_bool_decide as Hlt.
    + destruct (snap_one s j) as [r s1] eqn:E. intros [= <- <-]. eapply kept_inv. by eapply one_inv.
    + destruct (snap_publish s j) as [ok s1] eqn:E. intros [= <- <-]. eapply kept_inv.
      eapply publish_inv; [exact I|lia|done].
  - destruct (snap_middle s j) as [r s1] eqn:E. intros [= <- <-]. by eapply middle_inv.
  - destruct (snap_prepare s j) as [r s1] eqn:E. intros [= <- <-]. eapply kept_inv. by eapply prepare_inv.
  - intros [= <- <-]. by eapply fold_inv.
Qed.

End Snap.

End CacheSnapRun.
