(* ===== verification/CacheLogTheorems.v ===== *)
(** * Theorems about the cache log

    A server that logs, syncs, snapshots and folds its log, up to the first
    failure of the log, loses nothing it promised to keep: after a crash each
    key is as a prefix of the history leaves it, with every durable operation
    in the prefix.  The ways in which the log does not do what it means to are
    at the end. *)

From stdpp Require Import base numbers option list gmap.
From S2P Require Import Prelude Crc Cache CacheSlab CacheTable CacheMap CacheRun CacheAccount CacheTheorems.
From S2P Require Import CachePlain CacheLog CacheLogSpec CacheLogRun CacheRecovery.
Import Crc Cache CacheBounds CacheSlab CacheTable CacheMap CacheRun CacheScan CacheTheorems CachePlain CacheLog CacheSnap CacheLogSpec CacheSnapSpec CacheLogRun CacheRecovery CacheSnapRun.

Module CacheLogTheorems.

(** ** Runs of the server *)

Inductive server_op :=
  | PPut (key value : bytes) (ttl_ms : Z) (batch : bool) (now : Z)
  | PDel (key : bytes)
  | PTx (tx_id sub_op : Z) (key value : bytes) (exp time now : Z)
  | PBatch
  | PFlush
  | PGet (key : bytes) (time : Z)
  | PSweep (work time : Z)
  | PSnap (tx_inflight time : Z) (allocs : list bool).

Record server := Server { sv_ps : persist; sv_phase : snap_phase }.

Definition exec (sv : server) (op : server_op) : Z * server :=
  let s := sv_ps sv in
  let go (r : Z * persist) := (r.1, Server r.2 (sv_phase sv)) in
  match op with
  | PPut key value ttl_ms batch now => go (persist_put s key value ttl_ms batch now)
  | PDel key => go (persist_delete s key)
  | PTx tx_id sub_op key value exp time now =>
      go (persist_tx_commit s tx_id sub_op key value exp false time now)
  | PBatch => go (persist_batch_commit s)
  | PFlush => go (wal_flush s)
  | PGet key time => let '(rc, _, c) := kuttidb_get (ps_cache s) key time in go (rc, set_cache s c)
  | PSweep work time => go (0, set_cache s (kuttidb_sweep_expired (ps_cache s) work time))
  | PSnap tx_inflight time allocs =>
      let '(s, ph) := do_snapshot s (sv_phase sv) tx_inflight time allocs in (0, Server s ph)
  end.

(** The operation as the log has it. *)
Definition op_lop (op : server_op) : option lop :=
  match op with
  | PPut key value ttl_ms _ now => Some (LPut key value (kuttidb_expiry_from_ttl ttl_ms now))
  | PDel key => Some (LDel key)
  | PTx tx_id sub_op key value exp _ _ => Some (LTx tx_id sub_op key value exp)
  | _ => None
  end.

(** What the answer acknowledges, and whether it promises durability. *)
Definition acked (op : server_op) (rc : Z) : list lop :=
  match op with
  | PPut _ _ _ _ _ | PTx _ _ _ _ _ _ _ => if rc =? 0 then option_list (op_lop op) else []
  | PDel _ => if rc =? 1 then option_list (op_lop op) else []
  | _ => []
  end.

Definition promised (always : bool) (op : server_op) (rc : Z) : bool :=
  match op with
  | PPut _ _ _ batch _ => (rc =? 0) && negb batch && always
  | PDel _ => (rc =? 1) && always
  | PTx _ _ _ _ _ _ _ => rc =? 0
  | PBatch => (rc =? 0) && always
  | _ => false
  end.

(** Sizes are those the protocol admits, clocks do not go beyond [T], and the
    markers are those of unconditional transactions. *)
Definition op_admitted (max_val T : Z) (op : server_op) : Prop :=
  match op_lop op with Some o => lop_ok max_val o /\ unconditional o | None => True end /\
  match op with
  | PTx _ _ _ _ _ _ now => u32 now <= T
  | PGet _ time | PSweep _ time | PSnap _ time _ => u32 time <= T
  | _ => True
  end.

(** A run up to the first failure of the log: [L] was acknowledged, [D] is
    the part that was promised to be durable. *)
Inductive server_run (max_val T : Z) (sv0 : server) : list lop -> list lop -> server -> Prop :=
  | run_start : server_run max_val T sv0 [] [] sv0
  | run_step L D sv op rc sv' : server_run max_val T sv0 L D sv ->
      ps_failed (sv_ps sv) = false -> op_admitted max_val T op -> exec sv op = (rc, sv') ->
      server_run max_val T sv0 (L ++ acked op rc)
        (if promised (ps_always (sv_ps sv)) op rc then L ++ acked op rc else D) sv'.

(** A server with no files yet; the log has one writer, memory suffices. *)
Record fresh (sv : server) : Prop := Fresh {
  fr_ready : ready (sv_ps sv);
  fr_empty : contents (ps_cache (sv_ps sv)) = ∅;
  fr_file : ps_file (sv_ps sv) = [];
  fr_buf : v_data (ps_buf (sv_ps sv)) = [];
  fr_synced : ps_synced (sv_ps sv) = 0;
  fr_snap : ps_snap (sv_ps sv) = None;
  fr_idle : sv_phase sv = Idle }.

(** ** Runs keep the invariant *)

Section Runs.
Context (max_val T : Z) (Hmax : fits 32 max_val).

Definition kept_run (L D : list lop) (sv : server) : Prop := kept max_val T L D (sv_ps sv) (sv_phase sv).

Lemma fresh_kept sv : fresh sv -> kept_run [] [] sv.
Proof.
  intros [R E F B S N I]. eapply (kept_inv _ _ [] [] [] [] [] []).
  constructor; try done.
  - intros key. rewrite E. done.
  - intros key p. rewrite E, lookup_empty. done.
  - exists []. rewrite N. split; [by left|]. split; [apply NoDup_nil_2|]. split; [done|].
    intros key. exists []. done.
  - by rewrite I.
Qed.

Lemma lops_one o : lop_bytes o = lops_bytes [o].
Proof. unfold lops_bytes. cbn. by rewrite app_nil_r. Qed.

Lemma logged_kept P L D F B Fs s ph E s' (b : bool) : inv max_val T P L D F B Fs s ph ->
  logged (lops_bytes E) s s' -> cache_shows max_val T (L ++ E) s s' -> Forall (lop_ok max_val) E ->
  Forall unconditional E -> (b = true -> synced_all s') ->
  kept max_val T (L ++ E) (if b then L ++ E else D) s' ph.
Proof.
  intros I Lg C H1 H2 Hb.
  destruct (inv_log max_val T P L D F B Fs s ph E s' I Lg C H1 H2) as (F' & B' & Fs' & _ & _ & I1 & I2).
  destruct b; [by eapply kept_inv, I2, Hb|by eapply kept_inv].
Qed.

Lemma stuck_kept P L D F B Fs s ph o s' ph' : inv max_val T P L D F B Fs s ph -> stuck (lop_bytes o) s s' ->
  lop_ok max_val o -> unconditional o -> kept max_val T L D s' ph'.
Proof.
  intros I K H1 H2. right. split; [apply K|]. rewrite lops_one in K.
  eapply (stuck_disk max_val T _ _ _ _ _ _ _ _ [o]); [exact I|exact K|simpl; lia|by constructor..].
Qed.

Lemma words_of key value exp : zlen key <= MAX_KEY -> zlen value <= max_val -> fits 32 exp ->
  words_ok key value exp /\ pair_ok max_val (key, (value, exp)).
Proof.
  intros. pose proof (zlen_nonneg key). pose proof (zlen_nonneg value).
  unfold words_ok, pair_ok, MAX_KEY, fits in *. cbn. lia.
Qed.

Lemma quiet_cache_kept P L D F B Fs s ph s' : inv max_val T P L D F B Fs s ph -> logged [] s s' ->
  cache_shows max_val T L s s' -> kept max_val T (L ++ []) D s' ph.
Proof.
  intros I Lg C. by apply (logged_kept _ _ _ _ _ _ _ _ [] s' false I Lg); rewrite ?app_nil_r.
Qed.

Lemma put_kept P L D F B Fs s ph key value ttl batch now rc s' : inv max_val T P L D F B Fs s ph ->
  op_admitted max_val T (PPut key value ttl batch now) ->
  persist_put s key value ttl batch now = (rc, s') ->
  kept max_val T (L ++ acked (PPut key value ttl batch now) rc)
    (if promised (ps_always s) (PPut key value ttl batch now) rc
     then L ++ acked (PPut key value ttl batch now) rc else D) s' ph.
Proof.
  intros I [[Ho Hu] _] E. pose proof Ho as (Hk & Hv & Lk & Lv & He).
  destruct (words_of key value _ Lk Lv He) as [Hw Hs].
  apply persist_put_spec in E; [|apply I|done].
  destruct E as [(-> & Lg & Ec & Hsy)|(-> & K)]; cbn [acked promised Z.eqb andb].
  - rewrite lops_one in Lg. change (option_list _) with [LPut key value (kuttidb_expiry_from_ttl ttl now)].
    eapply logged_kept; [exact I|exact Lg| |by constructor|by constructor|].
    + destruct I as [[] Hl Hz _ _ _ _ _ _ _ _]. by eapply put_shows.
    + intros [Hb Ha]%andb_true_iff. apply Hsy; [by destruct batch|done].
  - rewrite app_nil_r. by eapply stuck_kept.
Qed.

Lemma del_kept P L D F B Fs s ph key rc s' : inv max_val T P L D F B Fs s ph ->
  op_admitted max_val T (PDel key) -> persist_delete s key = (rc, s') ->
  kept max_val T (L ++ acked (PDel key) rc)
    (if promised (ps_always s) (PDel key) rc then L ++ acked (PDel key) rc else D) s' ph.
Proof.
  intros I [[Ho Hu] _] E. apply persist_delete_spec in E; [|apply I].
  destruct E as [(-> & Lg & Ec)|[(-> & Lg & Ec & Hsy)|(-> & K)]]; cbn [acked promised Z.eqb Pos.eqb andb].
  - eapply quiet_cache_kept; [exact I|exact Lg|].
    destruct I as [[_ _ _ _ Hp0] Hl Hz _ _ _ _ _ _ _ _]. destruct (delete_plain _ _ _ _ Hp0 Ec) as (Hp & Hc & Hr & Hb).
    apply drop_shows; try done; rewrite Hc; [apply delete_subseteq|].
    intros k p Hp1. rewrite lookup_delete_None. intros [<-|?]; [|congruence]. by rewrite Hp1 in Hr.
  - rewrite lops_one in Lg. change (option_list _) with [LDel key].
    eapply logged_kept; [exact I|exact Lg| |by constructor|by constructor|done].
    destruct I as [[] Hl Hz _ _ _ _ _ _ _ _]. by eapply delete_shows.
  - rewrite app_nil_r. by eapply stuck_kept.
Qed.

Lemma tx_kept P L D F B Fs s ph id sub key value exp time now rc s' : inv max_val T P L D F B Fs s ph ->
  op_admitted max_val T (PTx id sub key value exp time now) ->
  persist_tx_commit s id sub key value exp false time now = (rc, s') ->
  kept max_val T (L ++ acked (PTx id sub key value exp time now) rc)
    (if rc =? 0 then L ++ acked (PTx id sub key value exp time now) rc else D) s' ph.
Proof.
  intros I [[Ho Hu] Ht] E. apply tx_commit_spec in E; [|apply I].
  destruct E as [(-> & Lg & Ec & Hsy)|(-> & K)]; cbn [acked promised Z.eqb andb].
  - rewrite lops_one in Lg. change (option_list _) with [LTx id sub key value exp].
    eapply (logged_kept _ _ _ _ _ _ _ _ _ _ true); [exact I|exact Lg| |by constructor|by constructor|done].
    destruct I as [[] Hl Hz _ _ _ _ _ _ _ _]. by eapply tx_shows.
  - rewrite app_nil_r. by eapply stuck_kept.
Qed.

Lemma exec_kept P L D F B Fs sv op rc sv' :
  inv max_val T P L D F B Fs (sv_ps sv) (sv_phase sv) -> op_admitted max_val T op ->
  exec sv op = (rc, sv') ->
  kept_run (L ++ acked op rc) (if promised (ps_always (sv_ps sv)) op rc then L ++ acked op rc else D) sv'.
Proof.
  intros I Ha. destruct sv as [s ph]. unfold exec. cbn [sv_ps sv_phase] in *.
  pose proof (in_ready _ _ _ _ _ _ _ _ _ _ I) as R. pose proof R as [_ _ _ _ Hp].
  pose proof (in_live _ _ _ _ _ _ _ _ _ _ I) as Hl. pose proof (in_sizes _ _ _ _ _ _ _ _ _ _ I) as Hz.
  assert (Hq : forall c, logged [] s (set_cache s c)).
  { intros c. constructor; [done|done|by rewrite app_nil_r|by left..]. }
  destruct op as [key value ttl batch now|key|id sub key value exp time now| | |key time|work time|i time al].
  - destruct (persist_put _ _ _ _ _ _) as [r s'] eqn:E. intros [= <- <-]. by eapply put_kept.
  - destruct (persist_delete _ _) as [r s'] eqn:E. intros [= <- <-]. by eapply del_kept.
  - destruct (persist_tx_commit _ _ _ _ _ _ _ _ _) as [r s'] eqn:E. intros [= <- <-]. by eapply tx_kept.
  - destruct (persist_batch_commit s) as [r s'] eqn:E. intros [= <- <-]. apply batch_spec in E as [C E]; [|done].
    pose proof (cache_same max_val T L s s' Hl Hz Hp C) as Cs.
    destruct E as [(-> & Lg & Hsy)|(-> & K)]; cbn [acked promised Z.eqb andb].
    + by apply (logged_kept _ _ _ _ _ _ _ _ [] s' (ps_always s) I Lg); rewrite ?app_nil_r.
    + rewrite app_nil_r. by eapply kept_stuck.
  - destruct (wal_flush s) as [r s'] eqn:E. intros [= <- <-]. apply flush_spec in E as [C E]; [|done].
    pose proof (cache_same max_val T L s s' Hl Hz Hp C) as Cs.
    destruct E as [(-> & Lg & Hsy)|(-> & K)]; cbn [acked promised].
    + by eapply quiet_cache_kept.
    + rewrite app_nil_r. by eapply kept_stuck.
  - destruct Ha as [_ Ht]. destruct (kuttidb_get _ _ _) as [[r v] c] eqn:E. intros [= <- <-].
    eapply quiet_cache_kept; [exact I|apply Hq|]. by eapply get_shows.
  - destruct Ha as [_ Ht]. intros [= <- <-].
    eapply quiet_cache_kept; [exact I|apply Hq|]. by eapply sweep_shows.
  - destruct Ha as [_ Ht]. destruct (do_snapshot _ _ _ _ _) as [s' ph'] eqn:E. intros [= <- <-].
    cbn [acked promised]. rewrite app_nil_r. by eapply snapshot_inv.
Qed.

Lemma run_kept sv0 L D sv : fresh sv0 -> server_run max_val T sv0 L D sv -> kept_run L D sv.
Proof.
  intros Hf. induction 1 as [|L D sv op rc sv' _ IH Hn Ha E]; [by apply fresh_kept|].
  destruct IH as [(P & F & B & Fs & I)|[Hn' _]]; [|congruence]. by eapply exec_kept.
Qed.

Lemma run_disk sv0 L D sv : fresh sv0 -> server_run max_val T sv0 L D sv ->
  on_disk max_val T L D (ps_file (sv_ps sv)) (ps_synced (sv_ps sv)) (ps_snap (sv_ps sv)).
Proof.
  intros Hf Hr. destruct (run_kept sv0 L D sv Hf Hr) as [(P & F & B & Fs & I)|[_ K]]; [|done].
  by eapply inv_disk.
Qed.

End Runs.

(** ** Recovery from the disk *)

Section Recover.
Context (max_val T time : Z).
Hypothesis Hpos : 0 <= max_val.
Hypothesis Hmax : fits 32 (max_val + 13).
Hypothesis HT : T <= u32 time.

Lemma count_bytes l : (length l <= length (lops_bytes l))%nat.
Proof.
  induction l as [|o l IH]; [done|]. change (lops_bytes (o :: l)) with (lop_bytes o ++ lops_bytes l).
  rewrite length_app. pose proof (lop_bytes_long o). simpl. lia.
Qed.

(** The log: the records in front of the cut are replayed, the rest is cut off. *)
Lemma replay_file G log c : Forall (lop_ok max_val) G -> log `prefix_of` lops_bytes G -> plain c ->
  exists F1 F2 rc good st, G = F1 ++ F2 /\
  replay_wal (S (length log)) max_val time (Recovering c []) 0 log = (rc, good, st) /\
  (if rc <? 0 then take (Z.to_nat good) log else log) = lops_bytes F1 /\
  plain (rv_cache st) /\ recovered st = lops_replay (u32 time) (contents c, []) F1 /\
  forall Fs, Fs `prefix_of` G -> zlen (lops_bytes Fs) <= zlen log -> Fs `prefix_of` F1.
Proof.
  intros HG [rest Hl] Hc. destruct (cut_at max_val G HG (length log)) as (F1 & F2 & p & -> & E & Hp).
  rewrite Hl, take_app_length in E. apply Forall_app in HG as [HG1 HG2].
  assert (Hf : exists f, S (length log) = (length F1 + S f)%nat).
  { exists (length log - length F1)%nat. pose proof (count_bytes F1). rewrite E, length_app. lia. }
  destruct Hf as [f ->].
  destruct (replay_lops max_val time Hpos Hmax F1 HG1 (S f) (Recovering c []) 0 p Hc) as (st & Hst & Hr & Ew).
  rewrite <- E, (replay_cut max_val time Hpos Hmax F2) in Ew by done.
  exists F1, F2, (match p with [] => 0 | _ => -1 end), (0 + zlen (lops_bytes F1)), st.
  split; [done|]. split; [done|]. split; [|split; [done|split; [done|]]].
  - destruct p as [|b p]; cbn [Z.ltb Z.compare].
    + by rewrite E, app_nil_r.
    + rewrite Z.add_0_l, E. unfold zlen. by rewrite Nat2Z.id, take_app_length.
  - intros Fs HFs Hlen. destruct (prefix_total Fs F1 (F1 ++ F2) HFs) as [H|[x ->]];
      [by apply prefix_app_r|done|]. destruct HFs as [y HFs]. rewrite <- app_assoc in HFs.
    apply app_inv_head in HFs. subst F2. rewrite lops_bytes_app, E in Hlen. unfold zlen in Hlen.
    rewrite !length_app in Hlen. destruct x as [|o x]; [by rewrite app_nil_r|exfalso].
    change (lops_bytes (o :: x)) with (lop_bytes o ++ lops_bytes x) in Hlen. rewrite length_app in Hlen.
    pose proof (lop_bytes_long o). destruct Hp as [->|(o' & l3 & z & Eo & Ez & _ & Hz)]; [simpl in Hlen; lia|].
    injection Eo as <- _. rewrite Ez, length_app in Hlen. destruct z; [done|simpl in Hlen; lia].
Qed.

Lemma snap_loads P L snap c : snap_covers max_val T P L snap -> plain c -> contents c = ∅ ->
  exists c', match snap with Some f => load_snapshot max_val time c f | None => c end = c' /\ plain c' /\
  forall key, covers (u32 time) P L (contents c') key.
Proof.
  intros (l & Hs & Hn & Hl & Hk) Hc He.
  assert (Hm : fits 32 max_val) by (unfold fits in *; lia).
  assert (Hcov : forall m, m = pairs_load (u32 time) ∅ l -> forall key, covers (u32 time) P L m key).
  { intros m -> key. destruct (Hk key) as (A & HA & Hs'). exists A. split; [done|].
    apply pairs_show; [done|]. by eapply shows_later. }
  destruct Hs as [[-> ->]| ->].
  - exists c. split; [done|]. split; [done|]. by apply Hcov.
  - destruct (load_snapshot_pairs max_val time l c Hm Hl Hc) as (c' & -> & Hp & Hc').
    exists c'. split; [done|]. split; [done|]. apply Hcov. by rewrite Hc', He.
Qed.

(** What the log adds to what the snapshot covers. *)
Lemma replayed_covers P L D F1 c1 st : (forall key, covers (u32 time) P L (contents c1) key) ->
  recovered st = lops_replay (u32 time) (contents c1, []) F1 -> Forall unconditional F1 ->
  D `prefix_of` P ++ F1 -> (P ++ F1) `prefix_of` L -> forall key,
  covers (u32 time) D L (contents (rv_cache st)) key /\
  (P ++ F1 = L -> shows (u32 time) (lops_apply ∅ L !! key) (contents (rv_cache st)) key).
Proof.
  intros Hcov Hrec Hu1 HDF HPL key. unfold recovered in Hrec.
  pose proof (replay_last (u32 time) (contents c1, []) F1 key Hu1) as Hlast.
  rewrite <- Hrec in Hlast. cbn [fst] in Hlast. destruct (last_write key F1) as [r|] eqn:Ew.
  { assert (Hs : shows (u32 time) (lops_apply ∅ (P ++ F1) !! key) (contents (rv_cache st)) key)
      by (by rewrite apply_last, last_write_app, Ew).
    split; [by exists (P ++ F1)|by intros <-]. }
  destruct (Hcov key) as (A & [HPA HAL] & HsA).
  assert (Hs1 : shows (u32 time) (lops_apply ∅ A !! key) (contents (rv_cache st)) key).
  { unfold shows in *. by rewrite Hlast. }
  assert (Hsame : A `prefix_of` P ++ F1 ->
    shows (u32 time) (lops_apply ∅ (P ++ F1) !! key) (contents (rv_cache st)) key).
  { intros HAF. destruct HPA as [A' ->]. destruct HAF as [R HAF]. rewrite <- app_assoc in HAF.
    apply app_inv_head in HAF. subst F1. rewrite last_write_app in Ew. rewrite apply_last, !last_write_app in *.
    destruct (last_write key R); [done|]. destruct (last_write key A'); done. }
  split; [|intros <-; by apply Hsame].
  assert (HDL : D `prefix_of` L) by (by etrans).
  destruct (prefix_total D A L HDL HAL) as [HDA|HAD]; [by exists A|].
  exists (P ++ F1). split; [done|]. apply Hsame. by etrans.
Qed.

Lemma disk_recovers E P G Fs L D file synced snap n c :
  disk_at max_val T E P G Fs L D file synced snap ->
  synced <= Z.of_nat n -> plain c -> contents c = ∅ -> exists F1 st,
  load_persisted max_val time c snap (take n file) = (st, lops_bytes F1) /\
  (forall key, covers (u32 time) D (L ++ E) (contents (rv_cache st)) key) /\
  rv_committed st = tx_ids F1 /\ Fs `prefix_of` F1 /\ F1 `prefix_of` G.
Proof.
  intros [HE HLE Hfile HFs Hsy Hle HD HS Ho Hu] Hn Hc He.
  destruct (snap_loads P (L ++ E) snap c HS Hc He) as (c1 & Hld & Hc1 & Hcov).
  assert (Hpre : take n file `prefix_of` lops_bytes G) by (etrans; [apply prefix_take|done]).
  destruct (replay_file G (take n file) c1 Ho Hpre Hc1) as (F1 & F2 & rc & good & st & -> & Er & Ec & Hst & Hrec & HF).
  apply Forall_app in Hu as [Hu1 _].
  exists F1, st. split; [unfold load_persisted; rewrite Hld, Er; by rewrite Ec|].
  assert (HFs1 : Fs `prefix_of` F1).
  { apply HF; [done|]. rewrite <- Hsy. unfold zlen in *. rewrite length_take. lia. }
  split; [|split; [exact (eq_trans (f_equal snd Hrec) (replay_ids _ _ _ Hu1))|]].
  2:{ split; [done|by apply prefix_app_r]. }
  intros key. eapply (replayed_covers P); [exact Hcov|exact Hrec|done| |].
  - etrans; [exact HD|by apply prefix_app].
  - rewrite HLE, app_assoc. by apply prefix_app_r.
Qed.

End Recover.

(** ** A run to look at *)

(** A run as a function; it stops where the log fails. *)
Fixpoint play (sv : server) (L D : list lop) (ops : list server_op) : list lop * list lop * server :=
  match ops with
  | [] => (L, D, sv)
  | op :: ops =>
      if ps_failed (sv_ps sv) then (L, D, sv)
      else
        let '(rc, sv') := exec sv op in
        let L := L ++ acked op rc in
        play sv' L (if promised (ps_always (sv_ps sv)) op rc then L else D) ops
  end.

Lemma play_run max_val T sv0 ops : Forall (op_admitted max_val T) ops -> forall L D sv,
  server_run max_val T sv0 L D sv -> forall L' D' sv', play sv L D ops = (L', D', sv') ->
  server_run max_val T sv0 L' D' sv'.
Proof.
  induction 1 as [|op ops Ho Hops IH]; intros L D sv Hr L' D' sv'; cbn [play]; [by intros [= <- <- <-]|].
  destruct (ps_failed (sv_ps sv)) eqn:Ef; [by intros [= <- <- <-]|].
  destruct (exec sv op) as [rc sv1] eqn:E. apply IH. by eapply run_step.
Qed.

Definition server0 (always : bool) (ios : list io_result) : server :=
  Server {| ps_cache := cache0; ps_buf := KuttiVec [] 0; ps_file := []; ps_synced := 0; ps_snap := None;
            ps_enabled := true; ps_open := true; ps_failed := false; ps_shared := false;
            ps_always := always; ps_ios := ios; ps_allocs := [] |} Idle.

Lemma cache0_plain : plain cache0.
Proof. constructor; [apply reachable_ok, cache0_reachable|done|done]. Qed.

Lemma cache0_empty : contents cache0 = ∅.
Proof. by vm_compute. Qed.

Lemma server0_fresh always ios : fresh (server0 always ios).
Proof. constructor; try done. constructor; try done. apply cache0_plain. Qed.

(** A write, a snapshot of both shards with a second write in the middle, a
    transaction and a delete; the log is folded in the end. *)
Definition ops0 : list server_op :=
  [PPut [1] [10] 0 false 5; PSnap 0 6 []; PSnap 0 6 []; PSnap 0 6 []; PPut [2] [20] 9000 false 7;
   PSnap 0 7 []; PTx 77 1 [3] [30] 0 8 8; PSnap 0 8 []; PDel [1]; PSnap 0 8 []; PSnap 0 8 []; PSnap 0 8 []].

Lemma ops0_admitted : Forall (op_admitted 1000 50) ops0.
Proof.
  repeat constructor; cbn; try done; try lia; try (apply bytes_okb_sound; reflexivity);
    try (right; done); try (left; done); unfold fits; cbn; lia.
Qed.

(** ** Properties *)

(** C8. A server that acknowledged [L] and promised [D] to be durable, up to
    the first failure of its log, crashes at any point, between any two parts
    of a snapshot too, and any part of the log behind the last [fsync] is
    lost. Recovery brings back, for each key, what a history between [D] and
    [L] with at most one more operation, the one that was not acknowledged,
    leaves there, unless that has expired, and cuts the log to whole records.
    The log has one writer, transactions are unconditional, the cache has no
    budget and no allocation fails. *)
Theorem cache_recovers max_val T time sv0 L D sv n c : 0 <= max_val -> fits 32 (max_val + 13) ->
  T <= u32 time -> fresh sv0 -> server_run max_val T sv0 L D sv ->
  ps_synced (sv_ps sv) <= Z.of_nat n -> plain c -> contents c = ∅ ->
  exists E F st, (length E <= 1)%nat /\
  load_persisted max_val time c (ps_snap (sv_ps sv)) (take n (ps_file (sv_ps sv))) = (st, lops_bytes F) /\
  forall key, exists A, D `prefix_of` A /\ A `prefix_of` L ++ E /\
    shows (u32 time) (lops_apply ∅ A !! key) (contents (rv_cache st)) key.
Proof.
  intros Hpos Hmax HT Hf Hr Hn Hc He. assert (Hm : fits 32 max_val) by (unfold fits in *; lia).
  destruct (run_disk max_val T Hm sv0 L D sv Hf Hr) as (E & P & G & Fs & Hd).
  destruct (disk_recovers max_val T time Hpos Hmax HT E P G Fs L D _ _ _ n c Hd Hn Hc He) as (F & st & H1 & H2 & _).
  exists E, F, st. split; [apply Hd|]. split; [done|]. intros key. destruct (H2 key) as (A & [HA1 HA2] & HA). by exists A.
Qed.

Lemma cache_recovers_witness : let r := play (server0 true []) [] [] ops0 in
  r.1.2 = [LPut [1] [10] 0; LPut [2] [20] 16; LTx 77 1 [3] [30] 0; LDel [1]] /\
  exists E F st, (length E <= 1)%nat /\
  load_persisted 1000 60 cache0 (ps_snap (sv_ps r.2)) (take 55 (ps_file (sv_ps r.2))) = (st, lops_bytes F) /\
  forall key, exists A, r.1.2 `prefix_of` A /\ A `prefix_of` r.1.1 ++ E /\
    shows (u32 60) (lops_apply ∅ A !! key) (contents (rv_cache st)) key.
Proof.
  intros r. split; [by vm_compute|].
  apply (cache_recovers 1000 50 60 (server0 true []) r.1.1 r.1.2 r.2 55 cache0).
  - lia.
  - unfold fits. lia.
  - by vm_compute.
  - apply server0_fresh.
  - apply (play_run 1000 50 (server0 true []) ops0 ops0_admitted [] [] (server0 true [])); [constructor|].
    unfold r. by destruct (play _ _ _ _) as [[? ?] ?].
  - by vm_compute.
  - apply cache0_plain.
  - apply cache0_empty.
Defined.

(** C22. After a flush that succeeded a restart is exact: the running server
    and the recovered cache both have, for each key, what the acknowledged
    operations leave there, unless it has expired. The run is one up to the
    first failure of the log, with one writer, unconditional transactions, no
    budget and no failing allocation. *)
Theorem restart_exact max_val T time sv0 L D sv c : 0 <= max_val -> fits 32 (max_val + 13) ->
  T <= u32 time -> fresh sv0 -> server_run max_val T sv0 L D sv ->
  ps_failed (sv_ps sv) = false -> v_data (ps_buf (sv_ps sv)) = [] -> plain c -> contents c = ∅ ->
  exists st, load_persisted max_val time c (ps_snap (sv_ps sv)) (ps_file (sv_ps sv)) =
    (st, ps_file (sv_ps sv)) /\
  forall key, let r := lops_apply ∅ L !! key in
    shows (u32 time) r (contents (ps_cache (sv_ps sv))) key /\ shows (u32 time) r (contents (rv_cache st)) key.
Proof.
  intros Hpos Hmax HT Hf Hr Hok Hb Hc He. assert (Hm : fits 32 max_val) by (unfold fits in *; lia).
  destruct (run_kept max_val T Hm sv0 L D sv Hf Hr) as [(P & F & B & Fs & I)|[? _]]; [|congruence].
  destruct I as [_ Hl _ HF HB HL [Ho Hu] _ _ HS _]. rewrite Hb in HB. symmetry in HB.
  apply lops_bytes_nil in HB. subst B. rewrite app_nil_r in HL.
  assert (Hd : disk_at max_val T [] P F F L L (ps_file (sv_ps sv)) (zlen (ps_file (sv_ps sv))) (ps_snap (sv_ps sv))).
  { subst L. apply Forall_app in Ho as [_ Ho], Hu as [_ Hu].
    constructor; rewrite ?app_nil_r, ?HF; try done. simpl. lia. }
  destruct (disk_recovers max_val T time Hpos Hmax HT [] P F F L L _ _ _ (length (ps_file (sv_ps sv))) c Hd)
    as (G & st & H1 & H2 & _ & H3 & H4); [done..|]. rewrite firstn_all in H1.
  assert (G = F) as -> by (by apply (anti_symm prefix)).
  exists st. rewrite H1, HF. split; [done|]. intros key r. subst r.
  split; [by eapply shows_later|]. destruct (H2 key) as (A & [HA1 HA2] & HA). rewrite app_nil_r in HA2.
  by assert (A = L) as <- by (by apply (anti_symm prefix)).
Qed.

Lemma restart_exact_witness : let r := play (server0 false []) [] [] (ops0 ++ [PFlush]) in
  r.1.1 = [LPut [1] [10] 0; LPut [2] [20] 16; LTx 77 1 [3] [30] 0; LDel [1]] /\
  exists st, load_persisted 1000 50 cache0 (ps_snap (sv_ps r.2)) (ps_file (sv_ps r.2)) =
    (st, ps_file (sv_ps r.2)) /\
  forall key, let x := lops_apply ∅ r.1.1 !! key in
    shows (u32 50) x (contents (ps_cache (sv_ps r.2))) key /\ shows (u32 50) x (contents (rv_cache st)) key.
Proof.
  intros r. split; [by vm_compute|].
  apply (restart_exact 1000 50 50 (server0 false []) r.1.1 r.1.2 r.2 cache0).
  - lia.
  - unfold fits. lia.
  - by vm_compute.
  - apply server0_fresh.
  - apply (play_run 1000 50 (server0 false []) (ops0 ++ [PFlush])) with [] [] (server0 false []);
      [|constructor|unfold r; by destruct (play _ _ _ _) as [[? ?] ?]].
    apply Forall_app_2; [apply ops0_admitted|by repeat constructor].
  - by vm_compute.
  - by vm_compute.
  - apply cache0_plain.
  - apply cache0_empty.
Defined.

(** ** What the log does not do *)

Lemma replay_whole max_val time G c : 0 <= max_val -> fits 32 (max_val + 13) ->
  Forall (lop_ok max_val) G -> plain c -> exists st,
  load_persisted max_val time c None (lops_bytes G) = (st, lops_bytes G) /\
  recovered st = lops_replay (u32 time) (contents c, []) G.
Proof.
  intros Hpos Hmax HG Hc.
  destruct (replay_file max_val time Hpos Hmax G (lops_bytes G) c HG) as (F1 & F2 & rc & good & st & E & H1 & H2 & _ & H3 & H4);
    [done|done|].
  assert (F1 = G) as -> by (apply (anti_symm prefix); [subst G; by apply prefix_app_r|by apply H4]).
  exists st. split; [|done]. unfold load_persisted. by rewrite H1, H2.
Qed.

(** C40. A record that has expired when the log is replayed is skipped, and the
    older value of its key comes back.  The marker of a conditional update is
    dropped when the value it replaced has expired since, although the update
    was acknowledged and its own value does not expire. *)
Theorem expired_records_mislead max_val time c key v1 v2 e id : 0 <= max_val -> fits 32 (max_val + 13) ->
  plain c -> contents c = ∅ -> past e (u32 time) = true ->
  lop_ok max_val (LPut key v1 e) -> lop_ok max_val (LTx id 8 key v2 0) ->
  (exists st, load_persisted max_val time c None (lops_bytes [LPut key v1 0; LPut key v2 e]) =
     (st, lops_bytes [LPut key v1 0; LPut key v2 e]) /\ contents (rv_cache st) = {[key := (v1, 0)]}) /\
  lops_apply ∅ [LPut key v1 e; LTx id 8 key v2 0] = {[key := (v2, 0)]} /\
  (exists st, load_persisted max_val time c None (lops_bytes [LPut key v1 e; LTx id 8 key v2 0]) =
     (st, lops_bytes [LPut key v1 e; LTx id 8 key v2 0]) /\
     contents (rv_cache st) = ∅ /\ rv_committed st = []).
Proof.
  intros Hpos Hmax Hc He Hp (A1 & A2 & A3 & A4 & A5) Ht. pose proof Ht as (_ & B2 & _ & B4 & _).
  assert (O1 : Forall (lop_ok max_val) [LPut key v1 0; LPut key v2 e]).
  { apply Forall_cons_2; [done|]. apply Forall_cons_2; [done|by apply Forall_nil]. }
  assert (O2 : Forall (lop_ok max_val) [LPut key v1 e; LTx id 8 key v2 0]).
  { apply Forall_cons_2; [done|]. apply Forall_cons_2; [done|by apply Forall_nil]. }
  destruct (replay_whole max_val time _ c Hpos Hmax O1 Hc) as (s1 & E1 & R1).
  destruct (replay_whole max_val time _ c Hpos Hmax O2 Hc) as (s2 & E2 & R2).
  rewrite He in R1, R2. unfold recovered, lops_replay in R1, R2. cbn [fold_left lop_replay] in R1, R2.
  rewrite Hp in R1, R2. change (past 0 (u32 time)) with false in R1. cbn in R1, R2.
  injection R1 as R1 _. injection R2 as R2 R3.
  split; [exists s1; by rewrite R1|]. split; [|exists s2; by rewrite R2, R3].
  unfold lops_apply. cbn. by rewrite insert_insert_eq.
Qed.

Lemma expired_records_mislead_witness :
  past 16 (u32 20) = true /\
  (exists st, load_persisted 1000 20 cache0 None (lops_bytes [LPut [1] [10] 0; LPut [1] [11] 16]) =
     (st, lops_bytes [LPut [1] [10] 0; LPut [1] [11] 16]) /\ contents (rv_cache st) = {[ [1] := ([10], 0)]}) /\
  lops_apply ∅ [LPut [1] [10] 16; LTx 5 8 [1] [11] 0] = {[ [1] := ([11], 0)]} /\
  (exists st, load_persisted 1000 20 cache0 None (lops_bytes [LPut [1] [10] 16; LTx 5 8 [1] [11] 0]) =
     (st, lops_bytes [LPut [1] [10] 16; LTx 5 8 [1] [11] 0]) /\
     contents (rv_cache st) = ∅ /\ rv_committed st = []).
Proof.
  split; [done|]. apply (expired_records_mislead 1000 20 cache0 [1] [10] [11] 16 5).
  - lia.
  - unfold fits. lia.
  - apply cache0_plain.
  - apply cache0_empty.
  - done.
  - repeat constructor; cbn; try done; try (apply bytes_okb_sound; reflexivity); unfold fits; lia.
  - cbn. split_and!; try (apply bytes_okb_sound; reflexivity); try done; try (unfold fits; lia).
Defined.

(** A flush that failed in the middle of the buffer is repeated from its start:
    the log then has the buffer behind a torn record, and what was
    acknowledged and has now been written is cut off by recovery. *)
Theorem torn_flush_loses :
  let r := play (server0 false [IoFail 20]) [] [] [PPut [1] [10] 0 false 5; PPut [2] [20] 0 false 5; PFlush] in
  let again := wal_flush (sv_ps r.2) in
  r.1.1 = [LPut [1] [10] 0; LPut [2] [20] 0] /\ again.1 = 0 /\
  v_data (ps_buf again.2) = [] /\
  contents (rv_cache (load_persisted 1000 9 cache0 None (ps_file again.2)).1) = {[ [1] := ([10], 0)]}.
Proof. by vm_compute. Qed.

(** In the shared mode the log is truncated before its tail is copied back: a
    failure there loses durable operations that are in no snapshot. *)
Theorem shared_fold_loses s copy r : ps_shared s = true -> ps_ios s = IoOk :: IoFail 0 :: r ->
  snap_switch s copy = (false, {| s with ps_file := []; ps_synced := 0; ps_ios := r |}).
Proof. intros Hs Hi. unfold snap_switch, syscall, ps_io. by rewrite Hs, Hi. Qed.

End CacheLogTheorems.
