(* ===== verification/Queue.v ===== *)
(** * One queue of the broker (queue.c: struct Message, struct Queue)

    The message list, the delivery-tag index, the consume hint, the counters,
    and the functions of queue.c that touch one queue under its lock.

    Representation.  The doubly linked list [head..tail] is the Rocq list
    [msgs]; a [Message *] into it is a position, and the position
    [length msgs] is the null pointer.  A chain of the tag index lists the
    delivery tags of the messages it links.  The counters of in-memory
    objects ([depth], [inflight], [ttl_count], [tag_count]) count messages of
    at least 80 bytes each and are modelled without wrap-around; times,
    byte counts and the revision keep their width. *)

From stdpp Require Import base numbers option list.
From S2P Require Import Prelude.

Module Queue.

Definition LOG_HEADER : Z := 28.
Definition QUEUE_MESSAGE_MAX : Z := Z.shiftl 64 20.
Definition QUEUE_NAME_MAX : Z := 255.
Definition UINT64_MAX : Z := 2 ^ 64 - 1.

Inductive mstate := MESSAGE_READY | MESSAGE_INFLIGHT.

#[global] Instance mstate_eq_dec : EqDecision mstate.
Proof. solve_decision. Defined.

(** [m_time] is the union of [not_before_ms] (ready messages) and
    [visibility_deadline_ms] (in-flight messages). *)
Record message := Message {
  m_id : Z;
  m_tag : Z;
  m_owner : Z;
  m_expires : Z;
  m_time : Z;
  m_deliveries : Z;
  m_footprint : Z;
  m_state : mstate;
  m_data : bytes }.

Record queue := Queue {
  q_lock_id : Z;
  q_incarnation : Z;
  q_name : bytes;
  q_max_depth : Z;
  q_depth : Z;
  q_inflight : Z;
  q_revision : Z;
  q_durable : bool;
  q_deleted : bool;
  q_dlq_name : bytes;
  q_max_deliveries : Z;
  q_msgs : list message;
  q_tag_buckets : option (list (list Z));
  q_tag_count : Z;
  q_live_bytes : Z;
  q_ttl_count : Z;
  q_earliest : Z;
  q_hint : nat }.

#[global] Instance message_eq_dec : EqDecision message.
Proof. solve_decision. Defined.

Definition is_inflight (m : message) : bool :=
  match m_state m with MESSAGE_INFLIGHT => true | MESSAGE_READY => false end.
Definition has_ttl (m : message) : bool := negb (m_expires m =? 0).

#[global] Arguments is_inflight : simpl never.
#[global] Arguments has_ttl : simpl never.

(** ** The delivery-tag index *)

Definition tag_hash (tag : Z) : Z :=
  u32 (Z.shiftr (u64 (tag * 0x9E3779B97F4A7C15)) 32).

(** [tag_mask]: the table size is a power of two. *)
Definition tag_mask (buckets : list (list Z)) : Z := zlen buckets - 1.
Definition tag_slot (buckets : list (list Z)) (tag : Z) : nat :=
  Z.to_nat (Z.land (tag_hash tag) (tag_mask buckets)).

#[global] Arguments tag_hash : simpl never.
#[global] Arguments tag_slot : simpl never.

(** Position of the message that carries [tag]. *)
Fixpoint position (p : message -> bool) (l : list message) : option nat :=
  match l with
  | [] => None
  | m :: r => if p m then Some 0%nat else S <$> position p r
  end.

Definition tag_find (q : queue) (tag : Z) : option nat :=
  match q_tag_buckets q with
  | None => None
  | Some buckets =>
      if tag =? 0 then None
      else if existsb (Z.eqb tag) (nth (tag_slot buckets tag) buckets [])
      then position (fun m => m_tag m =? tag) (q_msgs q)
      else None
  end.

Definition update_msg (q : queue) (i : nat) (f : message -> message) : queue :=
  {| q with q_msgs := alter f i (q_msgs q) |}.

Fixpoint chain_remove (tag : Z) (chain : list Z) : list Z :=
  match chain with
  | [] => []
  | t :: r => if t =? tag then r else t :: chain_remove tag r
  end.

Definition tag_index_remove (q : queue) (i : nat) : queue :=
  match q_tag_buckets q, q_msgs q !! i with
  | Some buckets, Some m =>
      if m_tag m =? 0 then q
      else
        let slot := tag_slot buckets (m_tag m) in
        let q :=
          if existsb (Z.eqb (m_tag m)) (nth slot buckets [])
          then {| q with q_tag_buckets := Some (alter (chain_remove (m_tag m)) slot buckets);
                         q_tag_count := if q_tag_count q =? 0 then 0 else q_tag_count q - 1 |}
          else q in
        update_msg q i (fun m => {| m with m_tag := 0 |})
  | _, _ => q
  end.

(** One link of the rehash: push the message's tag on its chain. *)
Definition bucket_push (buckets : list (list Z)) (tag : Z) : list (list Z) :=
  alter (cons tag) (tag_slot buckets tag) buckets.

Definition rehash (size : nat) (l : list message) : list (list Z) * Z :=
  fold_left (fun acc m =>
      if m_tag m =? 0 then acc
      else (bucket_push (fst acc) (m_tag m), snd acc + 1))
    l (replicate size [], 0).

(** [alloc] is the outcome of [calloc] when the table grows. *)
Definition tag_index_insert (alloc : bool) (q : queue) (i : nat) : queue :=
  match q_msgs q !! i with
  | None => q
  | Some m =>
      if m_tag m =? 0 then q
      else
        let grow size :=
          if alloc then
            let '(buckets, count) := rehash size (q_msgs q) in
            {| q with q_tag_buckets := Some buckets; q_tag_count := count |}
          else q in
        match q_tag_buckets q with
        | None => grow 64%nat
        | Some buckets =>
            if tag_mask buckets <? q_tag_count q
            then grow (length buckets * 2)%nat
            else {| q with q_tag_buckets := Some (bucket_push buckets (m_tag m));
                           q_tag_count := q_tag_count q + 1 |}
        end
  end.

(** Does [tag_index_insert] call the allocator in this state? *)
Definition tag_index_allocs (q : queue) : bool :=
  match q_tag_buckets q with
  | None => true
  | Some buckets => tag_mask buckets <? q_tag_count q
  end.

(** ** The list *)

(** Position of the first message at or after [from] that is not in flight. *)
Fixpoint skip_inflight (l : list message) : nat :=
  match l with
  | m :: r => if is_inflight m then S (skip_inflight r) else 0%nat
  | [] => 0%nat
  end.

Definition ready_hint_advance (q : queue) (from : nat) : nat :=
  (from + skip_inflight (drop from (q_msgs q)))%nat.

Definition dec0 (x : Z) : Z := if x =? 0 then 0 else x - 1.

Definition remove_message (q : queue) (i : nat) : queue :=
  match q_msgs q !! i with
  | None => q
  | Some m =>
      let q := if m_tag m =? 0 then q else tag_index_remove q i in
      {| q with
         q_msgs := delete i (q_msgs q);
         q_hint := if (i <? q_hint q)%nat then pred (q_hint q) else q_hint q;
         q_inflight := if is_inflight m then dec0 (q_inflight q) else q_inflight q;
         q_ttl_count := if has_ttl m then dec0 (q_ttl_count q) else q_ttl_count q;
         q_depth := dec0 (q_depth q);
         q_live_bytes := if q_durable q then u64 (q_live_bytes q - m_footprint m)
                         else q_live_bytes q;
         q_revision := u64 (q_revision q + 1) |}
  end.

(** [while (queue->head) remove_message(queue, queue->head)]: one round per
    message. *)
Fixpoint remove_heads (n : nat) (q : queue) : queue :=
  match n with
  | O => q
  | S n => remove_heads n (remove_message q 0)
  end.

Definition purge_queue_locked (q : queue) : Z * queue :=
  let removed := q_depth q in
  let q := remove_heads (length (q_msgs q)) q in
  (removed, {| q with q_hint := length (q_msgs q); q_earliest := UINT64_MAX |}).

Definition message_create (id expires : Z) (data : bytes) : message :=
  {| m_id := id; m_tag := 0; m_owner := 0; m_expires := expires; m_time := 0;
     m_deliveries := 0; m_footprint := 0; m_state := MESSAGE_READY; m_data := data |}.

(** The message as linked: a durable queue records its WAL footprint. *)
Definition linked (q : queue) (m : message) : message :=
  if q_durable q
  then {| m with m_footprint := u32 (LOG_HEADER + zlen (q_name q) + zlen (m_data m)) |}
  else m.

(** A null [ready_hint] becomes the new message, whose position is the old
    length: the position does not change. *)
Definition message_link (q : queue) (m : message) : queue :=
  {| q with
     q_msgs := q_msgs q ++ [linked q m];
     q_depth := q_depth q + 1;
     q_revision := u64 (q_revision q + 1);
     q_ttl_count := if has_ttl m then q_ttl_count q + 1 else q_ttl_count q;
     q_live_bytes := if q_durable q then u64 (q_live_bytes q + m_footprint (linked q m))
                     else q_live_bytes q |}.

(** The state change of a delivery that visibility timeouts, requeues and
    owner loss share: back to ready, out of the tag index. *)
Definition make_ready (q : queue) (i : nat) (not_before : Z) : queue :=
  let q := tag_index_remove q i in
  let q := update_msg q i (fun m =>
    {| m with m_state := MESSAGE_READY; m_time := not_before; m_owner := 0 |}) in
  {| q with q_inflight := dec0 (q_inflight q); q_hint := 0%nat |}.

(** Delivery accounting of a durable queue: one more 28-byte record. *)
Definition charge_record (q : queue) (i : nat) : queue :=
  if q_durable q then
    let cost := LOG_HEADER + zlen (q_name q) in
    let q := update_msg q i (fun m => {| m with m_footprint := u32 (m_footprint m + cost) |}) in
    {| q with q_live_bytes := u64 (q_live_bytes q + cost) |}
  else q.

Definition set_hint (q : queue) (hint : nat) : queue := {| q with q_hint := hint |}.

(** The delivery of message [i] inside queue_consume_for_owner: state, lease,
    count, owner, tag, index and counters; then the new hint. *)
Definition lease (q : queue) (i : nat) (deadline owner tag : Z) : queue :=
  let q := {| q with q_revision := u64 (q_revision q + 1);
                     q_earliest := Z.min deadline (q_earliest q) |} in
  update_msg q i (fun m =>
    {| m with m_state := MESSAGE_INFLIGHT; m_time := deadline;
              m_deliveries := u32 (m_deliveries m + 1); m_owner := owner; m_tag := tag |}).

Definition inc_inflight (q : queue) : queue := {| q with q_inflight := q_inflight q + 1 |}.

Definition deliver_to (alloc : bool) (q : queue) (i : nat) (deadline owner tag : Z) : queue :=
  let q := lease q i deadline owner tag in
  let q := tag_index_insert alloc q i in
  let q := inc_inflight q in
  charge_record q i.

Definition deliver (alloc : bool) (q : queue) (i : nat) (deadline owner tag : Z)
    (first_delayed : option nat) : queue :=
  let q := deliver_to alloc q i deadline owner tag in
  set_hint q (match first_delayed with
              | Some d => d
              | None => ready_hint_advance q (S i)
              end).

(** Does [reap_queue_locked] skip the walk? *)
Definition reap_skip (q : queue) (mono : Z) : bool :=
  (q_ttl_count q =? 0) && ((q_inflight q =? 0) || (mono <? q_earliest q)).

(** ** Invariants *)

(** The counters agree with the list. *)
Definition counters_ok (q : queue) : Prop :=
  q_depth q = zlen (q_msgs q) /\
  q_inflight q = cnt is_inflight (q_msgs q) /\
  q_ttl_count q = cnt has_ttl (q_msgs q).

(** WAL bytes of the declaration record of a durable queue. *)
Definition declare_bytes (q : queue) : Z :=
  LOG_HEADER + zlen (q_name q) + 9 +
  (if zlen (q_dlq_name q) =? 0 then 0 else 8 + zlen (q_dlq_name q)).

(** [live_bytes] is the declaration plus the messages' footprints.  The
    footprint is a 32-bit field, so the equation holds modulo [2^32]. *)
Definition live_ok (q : queue) : Prop :=
  q_durable q = true -> q_deleted q = false ->
  u32 (q_live_bytes q) = u32 (declare_bytes q + zsum m_footprint (q_msgs q)).

(** The tags of the in-flight messages. *)
Definition tags (l : list message) : list Z :=
  filter (fun t => t <> 0) (m_tag <$> l).

(** The index holds each in-flight message's tag, in its bucket, once. *)
Definition tags_ok (q : queue) : Prop :=
  Forall (fun m => is_inflight m = negb (m_tag m =? 0)) (q_msgs q) /\
  NoDup (tags (q_msgs q)) /\
  match q_tag_buckets q with
  | None => tags (q_msgs q) = []
  | Some buckets =>
      (0 < length buckets)%nat /\
      q_tag_count q = zlen (concat buckets) /\
      concat buckets ≡ₚ tags (q_msgs q) /\
      forall i chain t, buckets !! i = Some chain -> t ∈ chain -> tag_slot buckets t = i
  end.

(** Every message strictly before the consume hint is in flight. *)
Definition hint_ok (q : queue) : Prop :=
  (q_hint q <= length (q_msgs q))%nat /\
  forall i m, (i < q_hint q)%nat -> q_msgs q !! i = Some m -> is_inflight m = true.

(** No in-flight message without a TTL is due before [earliest_visibility].
    (A message with a TTL keeps [ttl_count] positive, which forces the walk.) *)
Definition earliest_ok (q : queue) : Prop :=
  forall m, m ∈ q_msgs q -> is_inflight m = true -> has_ttl m = false ->
    q_earliest q <= m_time m.

(** ** Counters *)

Create HintDb queue.

Lemma dec0_pos x : 0 < x -> dec0 x = x - 1.
Proof. intros. unfold dec0. cases; lia. Qed.

Lemma length_tag_index_remove q i :
  length (q_msgs (tag_index_remove q i)) = length (q_msgs q).
Proof. unfold tag_index_remove. cases; simpl; rewrite ?length_alter; done. Qed.

(** What [tag_index_remove] leaves alone. *)
Record same_but_tags (q q' : queue) : Prop := {
  sbt_depth : q_depth q' = q_depth q;
  sbt_inflight : q_inflight q' = q_inflight q;
  sbt_ttl : q_ttl_count q' = q_ttl_count q;
  sbt_durable : q_durable q' = q_durable q;
  sbt_deleted : q_deleted q' = q_deleted q;
  sbt_name : q_name q' = q_name q;
  sbt_dlq : q_dlq_name q' = q_dlq_name q;
  sbt_maxd : q_max_deliveries q' = q_max_deliveries q;
  sbt_max : q_max_depth q' = q_max_depth q;
  sbt_live : q_live_bytes q' = q_live_bytes q;
  sbt_hint : q_hint q' = q_hint q;
  sbt_earliest : q_earliest q' = q_earliest q;
  sbt_lock : q_lock_id q' = q_lock_id q;
  sbt_rev : q_revision q' = q_revision q }.

Lemma tag_index_remove_same q i : same_but_tags q (tag_index_remove q i).
Proof. unfold tag_index_remove. repeat gcase; constructor; reflexivity. Qed.

Lemma tag_index_insert_same a q i : same_but_tags q (tag_index_insert a q i).
Proof. unfold tag_index_insert. repeat gcase; constructor; reflexivity. Qed.

Lemma tag_index_insert_msgs a q i : q_msgs (tag_index_insert a q i) = q_msgs q.
Proof. unfold tag_index_insert. repeat gcase; reflexivity. Qed.

(** The list after [tag_index_remove]: at most the tag of message [i] moves. *)
Lemma tag_index_remove_msgs q i :
  q_msgs (tag_index_remove q i) = q_msgs q \/
  q_msgs (tag_index_remove q i) = alter (fun m => {| m with m_tag := 0 |}) i (q_msgs q).
Proof. unfold tag_index_remove. repeat gcase; auto. Qed.

Lemma remove_message_msgs q i : q_msgs (remove_message q i) = delete i (q_msgs q).
Proof.
  unfold remove_message. destruct (q_msgs q !! i) eqn:E.
  - simpl. destruct (m_tag m =? 0); simpl; [done|].
    destruct (tag_index_remove_msgs q i) as [->| ->]; [done|apply delete_alter].
  - by rewrite delete_none.
Qed.

(** The other fields after a removal. *)
Record removed_from (q : queue) (i : nat) (m : message) (q' : queue) : Prop := {
  rm_depth : q_depth q' = dec0 (q_depth q);
  rm_inflight : q_inflight q' = if is_inflight m then dec0 (q_inflight q) else q_inflight q;
  rm_ttl : q_ttl_count q' = if has_ttl m then dec0 (q_ttl_count q) else q_ttl_count q;
  rm_durable : q_durable q' = q_durable q;
  rm_deleted : q_deleted q' = q_deleted q;
  rm_name : q_name q' = q_name q;
  rm_dlq : q_dlq_name q' = q_dlq_name q;
  rm_maxd : q_max_deliveries q' = q_max_deliveries q;
  rm_max : q_max_depth q' = q_max_depth q;
  rm_live : q_live_bytes q' = if q_durable q then u64 (q_live_bytes q - m_footprint m)
                              else q_live_bytes q;
  rm_hint : q_hint q' = if (i <? q_hint q)%nat then pred (q_hint q) else q_hint q;
  rm_earliest : q_earliest q' = q_earliest q;
  rm_lock : q_lock_id q' = q_lock_id q;
  rm_rev : q_revision q' = u64 (q_revision q + 1) }.

Lemma remove_message_fields q i m :
  q_msgs q !! i = Some m -> removed_from q i m (remove_message q i).
Proof.
  intros E. unfold remove_message. rewrite E.
  destruct (m_tag m =? 0); [constructor; reflexivity|].
  destruct (tag_index_remove_same q i). constructor; simpl; rew_all; reflexivity.
Qed.

Lemma remove_message_none q i : q_msgs q !! i = None -> remove_message q i = q.
Proof. intros E. unfold remove_message. by rewrite E. Qed.

Lemma remove_message_counters q i : counters_ok q -> counters_ok (remove_message q i).
Proof.
  intros (Hd & Hi & Ht). destruct (q_msgs q !! i) as [m|] eqn:E;
    [|by rewrite remove_message_none].
  destruct (remove_message_fields q i m E). unfold counters_ok.
  rewrite remove_message_msgs, !(cnt_delete _ _ _ _ E), (zlen_delete _ _ _ E).
  pose proof (zlen_pos _ _ _ E).
  rewrite rm_depth0, rm_inflight0, rm_ttl0, Hd, Hi, Ht, dec0_pos by done.
  split; [done|]. split; gcase; simpl; rewrite ?dec0_pos by (by eapply cnt_lookup); lia.
Qed.

Lemma linked_state q m : m_state (linked q m) = m_state m.
Proof. unfold linked. by gcase. Qed.

Lemma linked_inflight q m : is_inflight (linked q m) = is_inflight m.
Proof. unfold is_inflight. by rewrite linked_state. Qed.

Lemma linked_ttl q m : has_ttl (linked q m) = has_ttl m.
Proof. unfold linked. by gcase. Qed.

Lemma linked_tag q m : m_tag (linked q m) = m_tag m.
Proof. unfold linked. by gcase. Qed.

Lemma message_link_counters q m : is_inflight m = false ->
  counters_ok q -> counters_ok (message_link q m).
Proof.
  intros Hm (Hd & Hi & Ht). unfold counters_ok. simpl.
  rewrite zlen_app, !cnt_app, zlen_cons, zlen_nil, Hd, Hi, Ht.
  rewrite !cnt_one, linked_inflight, linked_ttl, Hm. simpl.
  split; [lia|]. split; [lia|]. destruct (has_ttl m); simpl; lia.
Qed.

Lemma purge_msgs q : q_msgs (snd (purge_queue_locked q)) = [].
Proof.
  unfold purge_queue_locked. simpl. remember (length (q_msgs q)) as n eqn:E.
  revert q E. induction n as [|n IH]; intros q E; simpl.
  - by apply nil_length_inv.
  - apply IH. rewrite remove_message_msgs. destruct (q_msgs q); simpl in *; lia.
Qed.

Lemma remove_heads_counters n q : counters_ok q -> counters_ok (remove_heads n q).
Proof. revert q. induction n; intros; simpl; auto using remove_message_counters. Qed.

Lemma purge_counters q : counters_ok q -> counters_ok (snd (purge_queue_locked q)).
Proof. intros H. exact (remove_heads_counters _ q H). Qed.

(** Clearing a tag changes no counter. *)
Lemma tag_index_remove_lookup q i m : q_msgs q !! i = Some m ->
  exists m', q_msgs (tag_index_remove q i) !! i = Some m' /\
    m_state m' = m_state m /\ m_expires m' = m_expires m /\
    m_footprint m' = m_footprint m.
Proof.
  intros E. destruct (tag_index_remove_msgs q i) as [->| ->]; [by eauto|].
  rewrite list_lookup_alter_eq, E. eexists; split; done.
Qed.

Lemma tag_index_remove_counters q i :
  counters_ok q -> counters_ok (tag_index_remove q i).
Proof.
  intros (Hd & Hi & Ht). destruct (tag_index_remove_same q i).
  unfold counters_ok. rew_all.
  destruct (tag_index_remove_msgs q i) as [->| ->]; [done|].
  by rewrite zlen_alter, !cnt_alter_id by done.
Qed.

Lemma make_ready_counters q i nb m : q_msgs q !! i = Some m -> is_inflight m = true ->
  counters_ok q -> counters_ok (make_ready q i nb).
Proof.
  intros E Hm Hq. destruct (tag_index_remove_counters q i Hq) as (Hd & Hi & Ht).
  destruct (tag_index_remove_lookup q i m E) as (m' & E' & Hs & _).
  assert (Hm' : is_inflight m' = true) by (unfold is_inflight in *; by rewrite Hs).
  unfold counters_ok, make_ready, update_msg. simpl.
  rewrite zlen_alter, (cnt_alter_id has_ttl), (cnt_alter _ _ _ _ _ E') by done.
  rewrite Hm', Hi, dec0_pos by (by eapply cnt_lookup).
  split; [done|]. split; [|done]. change (is_inflight _) with false. simpl. lia.
Qed.

Lemma charge_record_counters q i : counters_ok q -> counters_ok (charge_record q i).
Proof.
  intros (Hd & Hi & Ht). unfold charge_record. gcase; [|done].
  unfold counters_ok. simpl. by rewrite zlen_alter, !cnt_alter_id by done.
Qed.

Lemma deliver_to_counters a q i dl o t m :
  q_msgs q !! i = Some m -> is_inflight m = false ->
  counters_ok q -> counters_ok (deliver_to a q i dl o t).
Proof.
  intros E Hm (Hd & Hi & Ht). unfold deliver_to. apply charge_record_counters.
  destruct (tag_index_insert_same a (lease q i dl o t) i). unfold counters_ok.
  cbn [q_depth q_msgs q_inflight q_ttl_count inc_inflight].
  rewrite tag_index_insert_msgs, sbt_depth0, sbt_inflight0, sbt_ttl0. simpl.
  rewrite zlen_alter, (cnt_alter_id has_ttl), (cnt_alter _ _ _ _ _ E) by done.
  rewrite Hm, Hi. split; [done|]. split; [|done].
  change (is_inflight _) with true. simpl. lia.
Qed.

Lemma counters_set_hint q h : counters_ok q -> counters_ok (set_hint q h).
Proof. done. Qed.

Lemma live_set_hint q h : live_ok q -> live_ok (set_hint q h).
Proof. done. Qed.

Lemma deliver_counters a q i dl o t fd m : q_msgs q !! i = Some m -> is_inflight m = false ->
  counters_ok q -> counters_ok (deliver a q i dl o t fd).
Proof. intros E Hm Hq. by apply counters_set_hint, (deliver_to_counters a q i dl o t m). Qed.

(** ** Live WAL bytes *)

Lemma u32_eq_add x y z : u32 x = u32 y -> u32 (x + z) = u32 (y + z).
Proof. intros H. by rewrite <- (u32_add_l x), <- (u32_add_l y), H. Qed.

Lemma remove_message_live q i : live_ok q -> live_ok (remove_message q i).
Proof.
  destruct (q_msgs q !! i) as [m|] eqn:E; [|by rewrite remove_message_none].
  destruct (remove_message_fields q i m E). unfold live_ok, declare_bytes.
  rewrite remove_message_msgs, (zsum_delete _ _ _ _ E). rew_all. intros H Hd Hx.
  specialize (H Hd Hx). rewrite Hd, u32_u64.
  apply (u32_eq_add _ _ (- m_footprint m)) in H.
  rewrite <- Z.add_opp_r, H. f_equal. lia.
Qed.

Lemma message_link_live q m : live_ok q -> live_ok (message_link q m).
Proof.
  unfold live_ok, declare_bytes. simpl. intros H Hd Hx. specialize (H Hd Hx).
  rewrite Hd, u32_u64, zsum_app. simpl.
  apply (u32_eq_add _ _ (m_footprint (linked q m))) in H. rewrite H. f_equal. lia.
Qed.

Lemma tag_index_remove_live q i : live_ok q -> live_ok (tag_index_remove q i).
Proof.
  destruct (tag_index_remove_same q i). unfold live_ok, declare_bytes. rew_all.
  intros H Hd Hx. rewrite (H Hd Hx). do 2 f_equal.
  destruct (tag_index_remove_msgs q i) as [->| ->]; [done|].
  by rewrite zsum_alter_id by done.
Qed.

Lemma make_ready_live q i nb : live_ok q -> live_ok (make_ready q i nb).
Proof.
  intros H%(tag_index_remove_live q i) Hd Hx. simpl in *. specialize (H Hd Hx).
  unfold declare_bytes in *. simpl. by rewrite zsum_alter_id by done.
Qed.

Lemma charge_record_live q i m :
  q_msgs q !! i = Some m -> live_ok q -> live_ok (charge_record q i).
Proof.
  intros E H. unfold charge_record. destruct (q_durable q) eqn:D; [|done].
  unfold live_ok, declare_bytes in *. simpl. intros Hd Hx. specialize (H Hd Hx).
  rewrite (zsum_alter _ _ _ _ _ E). simpl.
  apply (u32_eq_add _ _ (LOG_HEADER + zlen (q_name q))) in H.
  rewrite u32_u64, H.
  match goal with |- u32 ?a = u32 (?b + (?c - ?d + u32 ?e)) =>
    replace (b + (c - d + u32 e)) with (u32 e + (b + c - d)) by lia;
    rewrite u32_add_l end.
  f_equal. lia.
Qed.

Lemma deliver_live a q i dl o t fd m :
  q_msgs q !! i = Some m -> live_ok q -> live_ok (deliver a q i dl o t fd).
Proof.
  intros E H. apply live_set_hint. unfold deliver_to.
  destruct (tag_index_insert_same a (lease q i dl o t) i).
  eapply charge_record_live.
  { simpl. rewrite tag_index_insert_msgs. simpl. by rewrite list_lookup_alter_eq, E. }
  unfold live_ok, declare_bytes in *.
  cbn [q_durable q_deleted q_live_bytes q_msgs q_name q_dlq_name inc_inflight].
  rewrite tag_index_insert_msgs. rew_all. simpl. intros Hd Hx. rewrite zsum_alter_id by done. auto.
Qed.

(** ** The consume hint *)

Lemma remove_message_hint q i : hint_ok q -> hint_ok (remove_message q i).
Proof.
  intros [Hl Hb]. destruct (q_msgs q !! i) as [m|] eqn:E; [|by rewrite remove_message_none].
  destruct (remove_message_fields q i m E). unfold hint_ok.
  rewrite remove_message_msgs, rm_hint0.
  pose proof (lookup_lt_Some _ _ _ E) as Hi. rewrite length_delete by eauto.
  split; [destruct (Nat.ltb_spec i (q_hint q)); lia|].
  intros j m' Hj Hm'. destruct (decide (j < i)%nat).
  - rewrite list_lookup_delete_lt in Hm' by done.
    apply (Hb j); [destruct (Nat.ltb_spec i (q_hint q)); lia|done].
  - rewrite list_lookup_delete_ge in Hm' by lia.
    apply (Hb (S j)); [destruct (Nat.ltb_spec i (q_hint q)); lia|done].
Qed.

Lemma message_link_hint q m : hint_ok q -> hint_ok (message_link q m).
Proof.
  intros [Hl Hb]. split; simpl; [rewrite length_app; lia|].
  intros i m' Hi Hm'. rewrite lookup_app_l in Hm' by lia. eauto.
Qed.

Lemma make_ready_hint q i nb : hint_ok (make_ready q i nb).
Proof. split; simpl; [lia|]. intros; lia. Qed.

Lemma skip_inflight_spec l : (skip_inflight l <= length l)%nat /\
  forall i m, (i < skip_inflight l)%nat -> l !! i = Some m -> is_inflight m = true.
Proof.
  induction l as [|x l [IH1 IH2]]; simpl; [split; [lia|intros; lia]|].
  destruct (is_inflight x) eqn:E; [|split; [lia|intros; lia]].
  split; [lia|]. intros [|i] m Hi Hm; simplify_eq/=; [done|]. apply (IH2 i); [lia|done].
Qed.

Lemma charge_record_state q i j :
  m_state <$> (q_msgs (charge_record q i) !! j) = m_state <$> (q_msgs q !! j).
Proof.
  unfold charge_record. gcase; [|done]. simpl. rewrite list_lookup_alter.
  case_decide; [subst|done]. by destruct (q_msgs q !! j).
Qed.

Lemma charge_record_length q i : length (q_msgs (charge_record q i)) = length (q_msgs q).
Proof. unfold charge_record. gcase; [|done]. simpl. apply length_alter. Qed.

(** The states after a delivery: message [i] is in flight, the others keep
    their state. *)
Lemma deliver_to_state a q i dl o t j m : q_msgs q !! i = Some m ->
  m_state <$> (q_msgs (deliver_to a q i dl o t) !! j)
  = if decide (i = j) then Some MESSAGE_INFLIGHT else m_state <$> (q_msgs q !! j).
Proof.
  intros E. unfold deliver_to. rewrite charge_record_state. simpl.
  rewrite tag_index_insert_msgs. simpl. rewrite list_lookup_alter.
  case_decide; [subst; by rewrite E|done].
Qed.

Lemma deliver_to_length a q i dl o t :
  length (q_msgs (deliver_to a q i dl o t)) = length (q_msgs q).
Proof.
  unfold deliver_to. rewrite charge_record_length. simpl.
  rewrite tag_index_insert_msgs. simpl. apply length_alter.
Qed.

Lemma is_inflight_state m : is_inflight m = true <-> m_state m = MESSAGE_INFLIGHT.
Proof. unfold is_inflight. by destruct (m_state m). Qed.

Lemma ready_hint_advance_ok q from : (from <= length (q_msgs q))%nat ->
  (forall i m, (i < from)%nat -> q_msgs q !! i = Some m -> is_inflight m = true) ->
  hint_ok (set_hint q (ready_hint_advance q from)).
Proof.
  intros Hf Hb. unfold ready_hint_advance.
  destruct (skip_inflight_spec (drop from (q_msgs q))) as [H1 H2].
  rewrite length_drop in H1. split; simpl; [lia|].
  intros i m Hi Hm. destruct (decide (i < from)%nat); [eauto|].
  apply (H2 (i - from)%nat); [lia|]. rewrite lookup_drop.
  by replace (from + (i - from))%nat with i by lia.
Qed.

(** A delivery keeps the hint sound when every ready message before [i] is
    at or after the first delayed one. *)
Lemma deliver_hint a q i dl o t fd m : q_msgs q !! i = Some m ->
  (forall j m', (j < default i fd)%nat -> q_msgs q !! j = Some m' -> is_inflight m' = true) ->
  (default i fd <= i)%nat ->
  hint_ok (deliver a q i dl o t fd).
Proof.
  intros E Hb Hle. pose proof (lookup_lt_Some _ _ _ E).
  pose proof (fun j => deliver_to_state a q i dl o t j m E) as S.
  pose proof (deliver_to_length a q i dl o t) as L.
  unfold deliver. generalize dependent (deliver_to a q i dl o t). intros q' S L.
  assert (K : forall j m', (j < default (Datatypes.S i) fd)%nat ->
    q_msgs q' !! j = Some m' -> is_inflight m' = true).
  { intros j m' Hj Hm'. specialize (S j). rewrite Hm' in S. simpl in S.
    apply is_inflight_state. case_decide; [congruence|].
    destruct (q_msgs q !! j) as [mj|] eqn:Ej; [|done]. simplify_eq/=.
    rewrite S. apply is_inflight_state. apply (Hb j); [destruct fd; simpl in *; lia|done]. }
  destruct fd as [d|]; simpl in *.
  - split; simpl; [lia|]. eauto.
  - apply ready_hint_advance_ok; [lia|done].
Qed.

(** ** The earliest visibility deadline *)

Lemma remove_message_earliest q i : earliest_ok q -> earliest_ok (remove_message q i).
Proof.
  intros H m. rewrite remove_message_msgs. intros Hm.
  destruct (q_msgs q !! i) as [m0|] eqn:E; [|by rewrite remove_message_none; [apply H; rewrite delete_none in Hm|]].
  destruct (remove_message_fields q i m0 E). rewrite rm_earliest0.
  apply H. by eapply elem_of_delete.
Qed.

Lemma message_link_earliest q m : is_inflight m = false ->
  earliest_ok q -> earliest_ok (message_link q m).
Proof.
  intros Hm H x. simpl. rewrite elem_of_app, list_elem_of_singleton.
  intros [Hx| ->]; [by apply H|]. by rewrite linked_inflight, Hm.
Qed.

(** With a sound index of deadlines, a skipped walk skips nothing that is due. *)
Lemma reap_skip_sound q now mono : counters_ok q -> earliest_ok q ->
  reap_skip q mono = true ->
  forall m, m ∈ q_msgs q ->
    ~ (m_expires m <> 0 /\ m_expires m <= now) /\
    ~ (is_inflight m = true /\ m_time m <= mono).
Proof.
  intros (_ & Hi & Ht) He Hs m Hm. unfold reap_skip in Hs.
  apply andb_prop in Hs as [H1%Z.eqb_eq H2]. rewrite Ht in H1.
  pose proof (cnt_zero _ _ H1 m Hm) as Httl.
  split; [unfold has_ttl in Httl; lia|]. intros [Hf Hd].
  apply orb_prop in H2 as [H2|H2]; reflect_tests.
  - rewrite Hi in H2. by rewrite (cnt_zero _ _ H2 m Hm) in Hf.
  - specialize (He m Hm Hf Httl). lia.
Qed.

(** ** Configuration: what message traffic never changes *)

Definition config (q : queue) : Z * bytes * bool * bool * bytes * Z * Z :=
  (q_lock_id q, q_name q, q_durable q, q_deleted q, q_dlq_name q, q_max_deliveries q,
   q_max_depth q).

Lemma remove_message_config q i : config (remove_message q i) = config q.
Proof.
  destruct (q_msgs q !! i) as [m|] eqn:E; [|by rewrite remove_message_none].
  destruct (remove_message_fields q i m E). unfold config. by rew_all.
Qed.

Lemma message_link_config q m : config (message_link q m) = config q.
Proof. done. Qed.

Lemma tag_index_remove_config q i : config (tag_index_remove q i) = config q.
Proof. destruct (tag_index_remove_same q i). unfold config. by rew_all. Qed.

Lemma tag_index_insert_config a q i : config (tag_index_insert a q i) = config q.
Proof. destruct (tag_index_insert_same a q i). unfold config. by rew_all. Qed.

Lemma make_ready_config q i nb : config (make_ready q i nb) = config q.
Proof. exact (tag_index_remove_config q i). Qed.

Lemma charge_record_config q i : config (charge_record q i) = config q.
Proof. unfold charge_record. by gcase. Qed.

Lemma deliver_config a q i dl o t fd : config (deliver a q i dl o t fd) = config q.
Proof.
  transitivity (config (deliver_to a q i dl o t)); [done|].
  unfold deliver_to. rewrite charge_record_config.
  transitivity (config (tag_index_insert a (lease q i dl o t) i)); [done|].
  by rewrite tag_index_insert_config.
Qed.

Lemma purge_config q : config (snd (purge_queue_locked q)) = config q.
Proof.
  transitivity (config (remove_heads (length (q_msgs q)) q)); [done|].
  generalize (length (q_msgs q)). intros n. revert q.
  induction n; intros q; simpl; [done|]. by rewrite IHn, remove_message_config.
Qed.

End Queue.
