(* ===== verification/QueueIndex.v ===== *)
(** * The delivery-tag index (queue.c: tag_find, tag_index_insert,
    tag_index_remove)

    The intrusive chained hash table agrees with the message list: a look-up
    by tag finds exactly the in-flight message that carries it, through
    insertions, rehashes and removals. *)

From stdpp Require Import base numbers option list sorting.
From S2P Require Import Prelude Queue.
Import Queue.

Module QueueIndex.

(** ** Chains and buckets *)

Lemma tag_slot_lt buckets t : (0 < length buckets)%nat ->
  (tag_slot buckets t < length buckets)%nat.
Proof.
  intros H. unfold tag_slot, tag_mask, zlen.
  pose proof (land_le_r (tag_hash t) (Z.of_nat (length buckets) - 1)). lia.
Qed.

Lemma tag_slot_length b b' t : length b = length b' -> tag_slot b t = tag_slot b' t.
Proof. unfold tag_slot, tag_mask, zlen. by intros ->. Qed.

Lemma concat_alter {A} (f : list A -> list A) i (b : list (list A)) c :
  b !! i = Some c -> exists l r, concat b = l ++ c ++ r /\ concat (alter f i b) = l ++ f c ++ r.
Proof.
  revert i. induction b as [|x b IH]; intros [|i] E; simplify_eq/=.
  - exists [], (concat b). done.
  - destruct (IH i E) as (l & r & -> & ->). exists (x ++ l), r. by rewrite !app_assoc.
Qed.

Lemma chain_remove_perm t c : t ∈ c -> c ≡ₚ t :: chain_remove t c.
Proof.
  induction c as [|x c IH]; intros H; [by apply not_elem_of_nil in H|]. simpl.
  destruct (Z.eqb_spec x t) as [->|Hne]; [done|].
  apply elem_of_cons in H as [->|H]; [done|].
  rewrite Permutation_swap. f_equiv. auto.
Qed.

Lemma chain_remove_subset t x c : x ∈ chain_remove t c -> x ∈ c.
Proof.
  induction c as [|y c IH]; simpl; [done|]. destruct (y =? t); [by right|].
  rewrite !elem_of_cons. intuition.
Qed.

Lemma existsb_elem t c : existsb (Z.eqb t) c = true <-> t ∈ c.
Proof.
  rewrite existsb_exists, list_elem_of_In. split.
  - intros (x & Hx & E). apply Z.eqb_eq in E. by subst.
  - intros H. exists t. by rewrite Z.eqb_refl.
Qed.

Lemma nth_bucket (b : list (list Z)) i c : b !! i = Some c -> nth i b [] = c.
Proof. intros H. by rewrite nth_lookup, H. Qed.

Lemma elem_concat (b : list (list Z)) t :
  t ∈ concat b <-> exists i c, b !! i = Some c /\ t ∈ c.
Proof.
  rewrite list_elem_of_In, in_concat. split.
  - intros (c & Hc & Ht). apply list_elem_of_In in Hc, Ht.
    apply list_elem_of_lookup in Hc as [i Hi]. eauto.
  - intros (i & c & Hi & Ht). exists c. rewrite <- !list_elem_of_In.
    split; [by eapply list_elem_of_lookup_2|done].
Qed.

(** Buckets in which every chain holds only its own tags. *)
Definition slots_ok (b : list (list Z)) : Prop :=
  forall i c t, b !! i = Some c -> t ∈ c -> tag_slot b t = i.

Lemma slots_ok_alter b i (f : list Z -> list Z) : slots_ok b ->
  (forall c t, b !! i = Some c -> t ∈ f c -> tag_slot b t = i) -> slots_ok (alter f i b).
Proof.
  intros Hb Hf j c t Hj Ht. rewrite (tag_slot_length _ b) by apply length_alter.
  rewrite list_lookup_alter in Hj. case_decide; [subst|by eapply Hb].
  apply fmap_Some in Hj as (c0 & Hc0 & ->). by eapply Hf.
Qed.

Lemma bucket_push_ok b t : (0 < length b)%nat -> slots_ok b -> slots_ok (bucket_push b t).
Proof.
  intros Hl Hb. apply slots_ok_alter; [done|].
  intros c x Hc. rewrite elem_of_cons. intros [->|Hx]; [done|]. by eapply Hb.
Qed.

Lemma bucket_push_perm b t : (0 < length b)%nat ->
  concat (bucket_push b t) ≡ₚ t :: concat b.
Proof.
  intros Hl. destruct (lookup_lt_is_Some_2 b (tag_slot b t)) as [c Hc];
    [by apply tag_slot_lt|].
  destruct (concat_alter (cons t) _ _ _ Hc) as (l & r & -> & E).
  unfold bucket_push. rewrite E. simpl. by rewrite <- Permutation_middle.
Qed.

Lemma bucket_push_length b t : length (bucket_push b t) = length b.
Proof. apply length_alter. Qed.

(** In a well-slotted table a tag is found by looking at its chain only. *)
Lemma slot_lookup b t : (0 < length b)%nat -> slots_ok b ->
  existsb (Z.eqb t) (nth (tag_slot b t) b []) = bool_decide (t ∈ concat b).
Proof.
  intros Hl Hb. apply Bool.eq_iff_eq_true. rewrite existsb_elem, bool_decide_eq_true, elem_concat.
  destruct (lookup_lt_is_Some_2 b (tag_slot b t)) as [c Hc]; [by apply tag_slot_lt|].
  rewrite (nth_bucket _ _ _ Hc). split; [eauto|].
  intros (i & c' & Hi & Ht). rewrite (Hb _ _ _ Hi Ht) in Hc. congruence.
Qed.

Lemma slot_remove b t : (0 < length b)%nat -> slots_ok b -> t ∈ concat b ->
  concat b ≡ₚ t :: concat (alter (chain_remove t) (tag_slot b t) b) /\
  slots_ok (alter (chain_remove t) (tag_slot b t) b).
Proof.
  intros Hl Hb Ht. apply elem_concat in Ht as (i & c & Hi & Ht).
  rewrite (Hb _ _ _ Hi Ht). split.
  - destruct (concat_alter (chain_remove t) _ _ _ Hi) as (l & r & -> & ->).
    rewrite (chain_remove_perm t c Ht) at 1. simpl. by rewrite <- Permutation_middle.
  - apply slots_ok_alter; [done|]. intros c' x Hc' Hx%chain_remove_subset. by eapply Hb.
Qed.

(** ** Tags of a message list *)

Lemma tags_cons m l : tags (m :: l) = (if decide (m_tag m <> 0) then [m_tag m] else []) ++ tags l.
Proof. unfold tags. simpl. rewrite filter_cons. by case_decide. Qed.

Lemma tags_app l k : tags (l ++ k) = tags l ++ tags k.
Proof. unfold tags. by rewrite fmap_app, filter_app. Qed.

Lemma elem_of_tags t l : t ∈ tags l <-> t <> 0 /\ exists m, m ∈ l /\ m_tag m = t.
Proof.
  unfold tags. rewrite list_elem_of_filter, list_elem_of_fmap. naive_solver.
Qed.

Lemma tags_delete l i m : l !! i = Some m ->
  tags l ≡ₚ (if decide (m_tag m <> 0) then [m_tag m] else []) ++ tags (delete i l).
Proof.
  intros E. rewrite <- (take_drop_middle l i m E) at 1.
  rewrite delete_take_drop, !tags_app, tags_cons.
  by rewrite Permutation_app_swap_app.
Qed.

Lemma tags_alter f l i m : l !! i = Some m ->
  tags (alter f i l) ≡ₚ (if decide (m_tag (f m) <> 0) then [m_tag (f m)] else [])
                        ++ tags (delete i l).
Proof.
  intros E. rewrite (tags_delete (alter f i l) i (f m)), delete_alter; [done|].
  by rewrite list_lookup_alter_eq, E.
Qed.

(** ** The index invariant *)

(** The part of [tags_ok] that does not look at the message states. *)
Definition index_of (buckets : option (list (list Z))) (count : Z) (ts : list Z) : Prop :=
  NoDup ts /\
  match buckets with
  | None => ts = []
  | Some b => (0 < length b)%nat /\ count = zlen (concat b) /\
              concat b ≡ₚ ts /\ slots_ok b
  end.

Lemma tags_ok_iff q : tags_ok q <->
  Forall (fun m => is_inflight m = negb (m_tag m =? 0)) (q_msgs q) /\
  index_of (q_tag_buckets q) (q_tag_count q) (tags (q_msgs q)).
Proof. unfold tags_ok, index_of. destruct (q_tag_buckets q); tauto. Qed.

Lemma index_of_perm b n ts ts' : ts ≡ₚ ts' -> index_of b n ts -> index_of b n ts'.
Proof.
  intros P [Hn H]. split; [by rewrite <- P|]. destruct b.
  - destruct H as (?&?&Hc&?). by rewrite P in Hc.
  - subst. symmetry. by apply Permutation_nil_l in P.
Qed.

Lemma zlen_perm {A} (l k : list A) : l ≡ₚ k -> zlen l = zlen k.
Proof. intros H. unfold zlen. by rewrite H. Qed.

Lemma tag_index_remove_index q i m : q_msgs q !! i = Some m ->
  index_of (q_tag_buckets q) (q_tag_count q) (tags (q_msgs q)) ->
  index_of (q_tag_buckets (tag_index_remove q i)) (q_tag_count (tag_index_remove q i))
    (tags (delete i (q_msgs q))) /\
  (q_msgs (tag_index_remove q i) !! i = Some {| m with m_tag := 0 |} \/
   q_tag_buckets q = None) /\
  delete i (q_msgs (tag_index_remove q i)) = delete i (q_msgs q).
Proof.
  intros E [Hn H]. pose proof (tags_delete _ _ _ E) as P. unfold tag_index_remove.
  rewrite E. destruct (q_tag_buckets q) as [b|] eqn:Eb.
  2:{ split; [|by auto]. rewrite Eb. rewrite H in P.
      apply Permutation_nil_l, eq_sym, app_eq_nil in P as [_ P]. rewrite P. split; [constructor|done]. }
  destruct H as (Hl & Hc & Hp & Hs). destruct (Z.eqb_spec (m_tag m) 0) as [E0|E0].
  { rewrite decide_False in P by lia. simpl in P. rewrite Eb, E. split; [|split; [left|done]].
    - apply (index_of_perm _ _ (tags (q_msgs q))); [done|]. split; [done|]. done.
    - by destruct m; simpl in *; subst. }
  rewrite decide_True in P by done. simpl in P.
  assert (Ht : m_tag m ∈ concat b) by (rewrite Hp, P; by left).
  rewrite slot_lookup, bool_decide_eq_true_2 by done.
  cbn [q_tag_buckets q_tag_count q_msgs update_msg].
  rewrite list_lookup_alter_eq, E, delete_alter. split; [|by auto].
  destruct (slot_remove b (m_tag m) Hl Hs Ht) as [P1 S1]. split.
  - rewrite P in Hn. by apply NoDup_cons in Hn as [_ Hn].
  - rewrite length_alter. split; [done|]. split; [|split; [|done]].
    + rewrite Hc, (zlen_perm _ _ P1), zlen_cons. pose proof (zlen_nonneg
        (concat (alter (chain_remove (m_tag m)) (tag_slot b (m_tag m)) b))).
      gcase; reflect_tests; lia.
    + rewrite P1, P in Hp. by apply Permutation_cons_inv in Hp.
Qed.

Lemma remove_message_tags q i : tags_ok q -> tags_ok (remove_message q i).
Proof.
  rewrite !tags_ok_iff. intros [Hf Hi].
  destruct (q_msgs q !! i) as [m|] eqn:E; [|by rewrite remove_message_none].
  rewrite remove_message_msgs. split; [by apply Forall_delete|].
  unfold remove_message. rewrite E. destruct (Z.eqb_spec (m_tag m) 0) as [E0|E0]; simpl.
  - pose proof (tags_delete _ _ _ E) as P. rewrite decide_False in P by lia. simpl in P.
    by apply (index_of_perm _ _ _ _ P).
  - by destruct (tag_index_remove_index q i m E Hi) as [H _].
Qed.

Lemma message_link_tags q m : m_tag m = 0 -> is_inflight m = false ->
  tags_ok q -> tags_ok (message_link q m).
Proof.
  rewrite !tags_ok_iff. intros Ht Hm [Hf Hi]. simpl. split.
  - apply Forall_app_2; [done|]. constructor; [|constructor].
    by rewrite linked_inflight, linked_tag, Ht, Hm.
  - rewrite tags_app, tags_cons, linked_tag, Ht. simpl. by rewrite app_nil_r.
Qed.

Lemma Forall_delete_alter {A} (P : A -> Prop) f i (l : list A) x :
  l !! i = Some x -> Forall P (delete i l) -> P (f x) -> Forall P (alter f i l).
Proof.
  revert i. induction l as [|y l IH]; intros [|i] E H Hx; simplify_eq/=.
  - by constructor.
  - inversion H; subst. constructor; [done|]. by apply IH.
Qed.

Lemma make_ready_tags q i nb m : q_msgs q !! i = Some m -> is_inflight m = true ->
  tags_ok q -> tags_ok (make_ready q i nb).
Proof.
  intros E Hm. rewrite !tags_ok_iff. intros [Hf Hi].
  destruct (tag_index_remove_index q i m E Hi) as (H1 & [H2|H2] & H3).
  2:{ exfalso. destruct Hi as [_ Hi]. rewrite H2 in Hi.
      assert (m_tag m ∈ tags (q_msgs q)) as Hx; [|rewrite Hi in Hx; by apply not_elem_of_nil in Hx].
      apply elem_of_tags. rewrite Forall_lookup in Hf. specialize (Hf i m E).
      rewrite Hm in Hf. symmetry in Hf. reflect_tests.
      split; [done|]. exists m. split; [by eapply list_elem_of_lookup_2|done]. }
  unfold make_ready. simpl. split.
  - eapply Forall_delete_alter; [done| |done]. rewrite H3. by apply Forall_delete.
  - eapply index_of_perm; [|exact H1]. symmetry.
    rewrite (tags_alter _ _ _ _ H2), H3. done.
Qed.

(** ** Insertion *)

Lemma rehash_from l b n : (0 < length b)%nat -> slots_ok b ->
  let r := fold_left (fun acc m => if m_tag m =? 0 then acc
             else (bucket_push (fst acc) (m_tag m), snd acc + 1)) l (b, n) in
  length (fst r) = length b /\ slots_ok (fst r) /\
  concat (fst r) ≡ₚ tags l ++ concat b /\ snd r = n + zlen (tags l).
Proof.
  revert b n. induction l as [|m l IH]; intros b n Hl Hb; simpl.
  - repeat split; try done. change (tags []) with (@nil Z). rewrite zlen_nil. lia.
  - rewrite tags_cons. destruct (Z.eqb_spec (m_tag m) 0) as [E|E].
    + rewrite decide_False by lia. by apply IH.
    + rewrite decide_True by done.
      destruct (IH (bucket_push b (m_tag m)) (n + 1)) as (H1 & H2 & H3 & H4);
        [by rewrite bucket_push_length|by apply bucket_push_ok|].
      rewrite H1, bucket_push_length, H3, H4, bucket_push_perm by done.
      split; [done|]. split; [done|]. split; [|rewrite zlen_app, zlen_cons, zlen_nil; lia].
      simpl. by rewrite <- Permutation_middle.
Qed.

Lemma slots_ok_empty n : slots_ok (replicate n []).
Proof.
  intros i c t Hi Ht. apply lookup_replicate in Hi as [-> _].
  by apply not_elem_of_nil in Ht.
Qed.

Lemma rehash_index n l : (0 < n)%nat -> NoDup (tags l) ->
  index_of (Some (fst (rehash n l))) (snd (rehash n l)) (tags l).
Proof.
  intros Hn Hd. unfold rehash.
  destruct (rehash_from l (replicate n []) 0) as (H1 & H2 & H3 & H4);
    [by rewrite length_replicate|apply slots_ok_empty|].
  rewrite concat_replicate_nil, app_nil_r in H3. split; [done|].
  rewrite H1, length_replicate, H4, (zlen_perm _ _ H3). repeat split; done.
Qed.

(** Inserting message [i], whose tag is not indexed yet. *)
Lemma tag_index_insert_index q i m ts : q_msgs q !! i = Some m -> m_tag m <> 0 ->
  index_of (q_tag_buckets q) (q_tag_count q) ts -> tags (q_msgs q) ≡ₚ m_tag m :: ts ->
  m_tag m ∉ ts ->
  index_of (q_tag_buckets (tag_index_insert true q i))
    (q_tag_count (tag_index_insert true q i)) (tags (q_msgs q)).
Proof.
  intros E E0 [Hn Hi] P Hx. unfold tag_index_insert. rewrite E.
  destruct (Z.eqb_spec (m_tag m) 0); [done|].
  assert (Hd : NoDup (tags (q_msgs q))) by (rewrite P; by constructor).
  pose proof (fun n H => rehash_index n (q_msgs q) H Hd) as R.
  destruct (q_tag_buckets q) as [b|] eqn:Eb.
  - destruct Hi as (Hl & Hc & Hp & Hs). destruct (tag_mask b <? q_tag_count q).
    + specialize (R (length b * 2)%nat ltac:(lia)).
      by destruct (rehash (length b * 2) (q_msgs q)).
    + split; [done|]. cbn [q_tag_buckets q_tag_count].
      rewrite bucket_push_length, (zlen_perm _ _ (bucket_push_perm b (m_tag m) Hl)), zlen_cons.
      split; [done|]. split; [lia|]. split; [|by apply bucket_push_ok].
      by rewrite bucket_push_perm, Hp, P.
  - specialize (R 64%nat ltac:(lia)). by destruct (rehash 64 (q_msgs q)).
Qed.

Lemma charge_record_tag_fields q i :
  q_tag_buckets (charge_record q i) = q_tag_buckets q /\
  q_tag_count (charge_record q i) = q_tag_count q /\
  m_tag <$> q_msgs (charge_record q i) = m_tag <$> q_msgs q /\
  m_state <$> q_msgs (charge_record q i) = m_state <$> q_msgs q.
Proof.
  unfold charge_record. gcase; [|done]. simpl. repeat split; try done.
  all: apply list_eq; intros j; rewrite !list_lookup_fmap, list_lookup_alter;
    case_decide; [subst|done]; by destruct (q_msgs q !! j).
Qed.

Lemma tags_fmap l k : m_tag <$> l = m_tag <$> k -> tags l = tags k.
Proof. unfold tags. by intros ->. Qed.

Lemma Forall_tag_state l k : m_tag <$> l = m_tag <$> k -> m_state <$> l = m_state <$> k ->
  Forall (fun m => is_inflight m = negb (m_tag m =? 0)) l ->
  Forall (fun m => is_inflight m = negb (m_tag m =? 0)) k.
Proof.
  revert k. induction l as [|x l IH]; intros [|y k] H1 H2 Hf; try done.
  injection H1 as E1 H1. injection H2 as E2 H2. inversion Hf; subst. constructor; [|by apply IH].
  unfold is_inflight in *. by rewrite <- E1, <- E2.
Qed.

Lemma tags_set_hint q h : tags_ok q -> tags_ok (set_hint q h).
Proof. done. Qed.

Lemma deliver_tags q i dl o t fd m : q_msgs q !! i = Some m -> is_inflight m = false ->
  t <> 0 -> t ∉ tags (q_msgs q) -> tags_ok q -> tags_ok (deliver true q i dl o t fd).
Proof.
  intros E Hm Ht Hx Hok. unfold deliver.
  apply tags_set_hint.
  revert Hok. rewrite !tags_ok_iff. intros [Hf Hi]. unfold deliver_to.
  destruct (charge_record_tag_fields (inc_inflight (tag_index_insert true (lease q i dl o t) i)) i)
    as (-> & -> & F1 & F2).
  cbn [inc_inflight q_msgs q_tag_buckets q_tag_count] in *.
  rewrite tag_index_insert_msgs in F1, F2. rewrite (tags_fmap _ _ F1).
  assert (E1 : q_msgs (lease q i dl o t) !! i = Some {| m with m_state := MESSAGE_INFLIGHT;
     m_time := dl; m_deliveries := u32 (m_deliveries m + 1); m_owner := o; m_tag := t |})
    by (simpl; by rewrite list_lookup_alter_eq, E).
  assert (E0 : m_tag m = 0).
  { rewrite Forall_lookup in Hf. specialize (Hf i m E). rewrite Hm in Hf.
    symmetry in Hf. by reflect_tests. }
  split.
  - apply (Forall_tag_state (q_msgs (lease q i dl o t))); [by symmetry..|]. simpl.
    eapply Forall_delete_alter; [done|by apply Forall_delete|]. simpl.
    by destruct (Z.eqb_spec t 0).
  - pose proof (tags_delete _ _ _ E) as P. rewrite decide_False in P by lia. simpl in P.
    apply (tag_index_insert_index _ _ _ (tags (q_msgs q)) E1); [done|exact Hi| |done].
    simpl. rewrite (tags_alter _ _ _ _ E). simpl. rewrite decide_True by done. by rewrite <- P.
Qed.

(** ** Look-up *)

Lemma position_Some p l i : position p l = Some i <->
  (exists m, l !! i = Some m /\ p m = true) /\
  forall j m, (j < i)%nat -> l !! j = Some m -> p m = false.
Proof.
  revert i. induction l as [|x l IH]; intros i; simpl.
  { split; [done|]. by intros [(m & ? & ?) _]. }
  destruct (p x) eqn:Ex.
  - split.
    + intros [= <-]. split; [by exists x|]. intros; lia.
    + intros [(m & Hm & Hp) Hlt]. destruct i as [|i]; [done|].
      specialize (Hlt 0%nat x ltac:(lia) eq_refl). congruence.
  - rewrite fmap_Some. setoid_rewrite IH. split.
    + intros (k & [(m & Hm & Hp) Hlt] & ->). split; [by exists m|].
      intros [|j] m' Hj Hm'; simplify_eq/=; [done|]. apply (Hlt j); [lia|done].
    + intros [(m & Hm & Hp) Hlt]. destruct i as [|i]; [simpl in Hm; congruence|].
      exists i. split; [|done]. split; [by exists m|].
      intros j m' Hj Hm'. apply (Hlt (S j)); [lia|done].
Qed.

Lemma position_None p l : position p l = None <-> forall m, m ∈ l -> p m = false.
Proof.
  induction l as [|x l IH]; simpl.
  { split; [|done]. by intros _ m Hm%not_elem_of_nil. }
  setoid_rewrite elem_of_cons. destruct (p x) eqn:Ex.
  - split; [done|]. intros H. by rewrite H in Ex by auto.
  - rewrite fmap_None, IH. naive_solver.
Qed.

(** A look-up by tag is a search of the list. *)
Lemma tag_find_position q t : tags_ok q -> t <> 0 ->
  tag_find q t = position (fun m => m_tag m =? t) (q_msgs q).
Proof.
  rewrite tags_ok_iff. intros [Hf [Hn Hi]] Ht. unfold tag_find.
  assert (N : t ∉ tags (q_msgs q) -> position (fun m => m_tag m =? t) (q_msgs q) = None).
  { intros H. apply position_None. intros m Hm. apply Z.eqb_neq. intros E.
    apply H, elem_of_tags. eauto. }
  destruct (q_tag_buckets q) as [b|].
  - destruct Hi as (Hl & Hc & Hp & Hs). destruct (Z.eqb_spec t 0); [done|].
    rewrite slot_lookup by done. case_bool_decide as Hd; [done|].
    symmetry. apply N. by rewrite <- Hp.
  - symmetry. apply N. rewrite Hi. apply not_elem_of_nil.
Qed.

(** ACK and NACK resolve a tag to the one in-flight message that carries it. *)
Lemma tag_find_Some q t i : tags_ok q -> t <> 0 -> tag_find q t = Some i <->
  exists m, q_msgs q !! i = Some m /\ m_tag m = t /\ is_inflight m = true.
Proof.
  intros Hok Ht. rewrite tag_find_position by done.
  apply tags_ok_iff in Hok as [Hf [Hn _]]. rewrite Forall_lookup in Hf.
  rewrite position_Some. split.
  - intros [(m & Hm & E%Z.eqb_eq) _]. exists m. split; [done|]. split; [done|].
    rewrite (Hf i m Hm). by destruct (Z.eqb_spec (m_tag m) 0); [congruence|].
  - intros (m & Hm & E & _). split; [exists m; split; [done|lia]|].
    intros j m' Hj Hm'. apply Z.eqb_neq. intros E'.
    pose proof (tags_delete _ _ _ Hm) as P. rewrite decide_True in P by congruence.
    rewrite P in Hn.
    apply NoDup_cons in Hn as [Hn _]. apply Hn, elem_of_tags. split; [congruence|].
    exists m'. split; [|congruence]. eapply (list_elem_of_lookup_2 _ j).
    by rewrite list_lookup_delete_lt.
Qed.

End QueueIndex.
