(* ===== verification/WalRecord.v ===== *)
(** * Framing of the queue WAL (queue.c: append_record_ex, replay_log,
    tail_holds_record)

    A record is 28 bytes of header, the name, the payload.  Bytes 0..23 of
    the header, the name and the payload are covered by the CRC-32 in bytes
    24..27. *)

From stdpp Require Import base numbers option list.
From S2P Require Import Prelude Crc Queue.
Import Queue Crc.

Module Wal.

Definition LOG_DECLARE := 1.
Definition LOG_PUBLISH := 2.
Definition LOG_ACK := 3.
Definition LOG_DELIVER := 4.
Definition LOG_REQUEUE := 5.
Definition LOG_EXDECLARE := 6.
Definition LOG_EXBIND := 7.
Definition LOG_EXUNBIND := 8.
Definition LOG_TX_PREPARE := 9.
Definition LOG_TX_COMMIT := 10.
Definition LOG_CONSUMER := 11.
Definition LOG_CONSUMER_DEL := 12.
Definition LOG_PURGE := 13.
Definition LOG_DELETE := 14.
Definition LOG_EXDELETE := 15.
Definition LOG_EXUPDATE := 16.
Definition LOG_JOB_STATE := 17.
Definition LOG_JOB_COMPLETION := 18.
Definition LOG_JOB_RECEIPT := 19.
Definition LOG_JOB_META := 20.
Definition LOG_QUEUE_META := 21.
Definition JOB_RECORD_FMT := 1.

Record record := Rec {
  r_op : Z;
  r_durable : bool;
  r_name : bytes;
  r_id : Z;
  r_aux : Z;
  r_data : bytes }.

#[global] Instance record_eq_dec : EqDecision record.
Proof. solve_decision. Defined.

(** ** Writing *)

Definition header24 (r : record) : bytes :=
  [u8 (r_op r); Z.b2z (r_durable r); u8 (zlen (r_name r)); u8 (Z.shiftr (zlen (r_name r)) 8)]
  ++ put32 (zlen (r_data r)) ++ put64 (r_id r) ++ put64 (r_aux r).

Definition record_crc (r : record) : Z := crc32 (header24 r) (r_name r) (r_data r).

Definition encode (r : record) : bytes :=
  header24 r ++ put32 (record_crc r) ++ r_name r ++ r_data r.

#[global] Arguments encode : simpl never.
#[global] Arguments header24 : simpl never.
#[global] Arguments record_crc : simpl never.
#[global] Arguments crc32 : simpl never.

Definition encode_all (rs : list record) : bytes := concat (encode <$> rs).

(** ** Reading *)

Definition record_op_known (op : Z) : bool :=
  (op =? LOG_DECLARE) || (op =? LOG_PUBLISH) || (op =? LOG_ACK) ||
  (op =? LOG_DELIVER) || (op =? LOG_REQUEUE) || (op =? LOG_EXDECLARE) ||
  (op =? LOG_EXBIND) || (op =? LOG_EXUNBIND) || (op =? LOG_TX_PREPARE) ||
  (op =? LOG_TX_COMMIT) || (op =? LOG_CONSUMER) ||
  (op =? LOG_CONSUMER_DEL) || (op =? LOG_PURGE) || (op =? LOG_DELETE) ||
  (op =? LOG_EXDELETE) || (op =? LOG_EXUPDATE) ||
  (op =? LOG_JOB_STATE) || (op =? LOG_JOB_COMPLETION) ||
  (op =? LOG_JOB_RECEIPT) || (op =? LOG_JOB_META) || (op =? LOG_QUEUE_META).

Definition job_record (op : Z) : bool :=
  (op =? LOG_JOB_STATE) || (op =? LOG_JOB_COMPLETION) ||
  (op =? LOG_JOB_RECEIPT) || (op =? LOG_JOB_META) || (op =? LOG_QUEUE_META).

(** The condition of the long [if] in replay_log that rejects a header. *)
Definition bad_shape (op name_len len id : Z) : bool :=
  negb (record_op_known op) ||
  (name_len =? 0) || (QUEUE_NAME_MAX <? name_len) || (QUEUE_MESSAGE_MAX <? len) ||
  (negb (op =? LOG_PUBLISH) && negb (op =? LOG_DECLARE) && negb (op =? LOG_EXDECLARE) &&
   negb (op =? LOG_EXBIND) && negb (op =? LOG_EXUNBIND) && negb (op =? LOG_EXUPDATE) &&
   negb (op =? LOG_TX_PREPARE) && negb (op =? LOG_TX_COMMIT) && negb (job_record op) &&
   negb (len =? 0)) ||
  ((op =? LOG_DECLARE) && (6 + QUEUE_NAME_MAX <? len)) ||
  (job_record op && negb (op =? LOG_QUEUE_META) && (len =? 0)) ||
  (((op =? LOG_CONSUMER) || (op =? LOG_CONSUMER_DEL)) &&
   (if op =? LOG_CONSUMER then id =? 0 else negb (id =? 0))).

Inductive read_result :=
  | REof                              (** clean end of the log *)
  | RCorrupt                          (** the [corrupt] label *)
  | RJobDisabled                      (** QUEUE_OPEN_JOB_DISABLED *)
  | RJobFormat                        (** QUEUE_OPEN_JOB_FORMAT *)
  | RRecord (r : record) (rest : bytes).

(** [read_all] of [n] bytes at the cursor: all of them, or fewer. *)
Definition read_all (n : nat) (p : bytes) : option (bytes * bytes) :=
  if (length p <? n)%nat then None else Some (take n p, drop n p).

(** One round of replay_log up to the dispatch on the record. [alloc] is the
    outcome of [malloc(len)]. *)
Definition read_record (alloc job_enabled : bool) (p : bytes) : read_result :=
  match read_all 28 p with
  | None => match p with [] => REof | _ => RCorrupt end
  | Some (header, rest) =>
      let op := byte_at header 0 in
      let name_len := Z.lor (byte_at header 2) (Z.shiftl (byte_at header 3) 8) in
      let len := get32 (drop 4 header) in
      let id := get64 (drop 8 header) in
      let expires_ms := get64 (drop 16 header) in
      let expected := get32 (drop 24 header) in
      if job_record op && negb job_enabled then RJobDisabled
      else if bad_shape op name_len len id then RCorrupt
      else if negb (len =? 0) && negb alloc then RCorrupt
      else
        match read_all (Z.to_nat name_len) rest with
        | None => RCorrupt
        | Some (name, rest) =>
            match read_all (Z.to_nat len) rest with
            | None => RCorrupt
            | Some (data, rest) =>
                if negb (crc32 (take 24 header) name data =? expected) then RCorrupt
                else if job_record op && negb (op =? LOG_QUEUE_META) &&
                        negb (byte_at data 0 =? JOB_RECORD_FMT) then RJobFormat
                else RRecord
                       {| r_op := op; r_durable := negb (byte_at header 1 =? 0);
                          r_name := name; r_id := id; r_aux := expires_ms;
                          r_data := data |} rest
            end
        end
  end.

(** Does a CRC-valid record start at the head of [p]?  The body of the scan
    loop of tail_holds_record. *)
Definition record_at (p : bytes) : bool :=
  let op := byte_at p 0 in
  let name_len := Z.lor (byte_at p 2) (Z.shiftl (byte_at p 3) 8) in
  let len := get32 (drop 4 p) in
  if negb (record_op_known op) then false
  else if (name_len =? 0) || (QUEUE_NAME_MAX <? name_len) || (QUEUE_MESSAGE_MAX <? len)
  then false
  else if zlen p <? LOG_HEADER + name_len + len then false
  else crc32 (take 24 p) (take (Z.to_nat name_len) (drop 28 p))
         (take (Z.to_nat len) (drop (28 + Z.to_nat name_len) p)) =? get32 (drop 24 p).

(** The loop [for (at = first; at + LOG_HEADER <= span; at++)]. *)
Fixpoint scan_records (tail : bytes) : bool :=
  if (length tail <? 28)%nat then false
  else if record_at tail then true
  else match tail with
       | [] => false
       | _ :: rest => scan_records rest
       end.

Fixpoint skip_zeros (tail : bytes) : bytes :=
  match tail with
  | b :: rest => if b =? 0 then skip_zeros rest else tail
  | [] => []
  end.

(** [tail_holds_record]: [None] when the tail cannot be read into memory. *)
Definition tail_holds_record (alloc : bool) (tail : bytes) : option bool :=
  match tail with
  | [] => Some false
  | _ => if alloc then Some (scan_records (skip_zeros tail)) else None
  end.

(** ** Well-formed records: what the writers produce *)

Definition record_ok (r : record) : Prop :=
  fits 8 (r_op r) /\ fits 64 (r_id r) /\ fits 64 (r_aux r) /\
  bytes_ok (r_name r) /\ bytes_ok (r_data r) /\
  bad_shape (r_op r) (zlen (r_name r)) (zlen (r_data r)) (r_id r) = false.

(** A feature record carries its format version in its first byte. *)
Definition job_fmt_ok (r : record) : Prop :=
  job_record (r_op r) && negb (r_op r =? LOG_QUEUE_META) &&
  negb (byte_at (r_data r) 0 =? JOB_RECORD_FMT) = false.

Create HintDb wal.

Lemma length_header24 r : length (header24 r) = 24%nat.
Proof. reflexivity. Qed.

Lemma header24_bytes r : fits 8 (r_op r) -> bytes_ok (header24 r).
Proof.
  intros. unfold header24. apply Forall_app_2;
    [|apply Forall_app_2; [apply put32_bytes|apply Forall_app_2; apply put64_bytes]].
  assert (is_byte (Z.b2z (r_durable r))) by (destruct (r_durable r); unfold is_byte; simpl; lia).
  repeat constructor; try apply u8_byte; apply H0.
Qed.

Lemma length_encode r :
  length (encode r) = (28 + length (r_name r) + length (r_data r))%nat.
Proof. unfold encode. rewrite !length_app. simpl. lia. Qed.

Lemma bad_shape_bounds op nl len id : bad_shape op nl len id = false ->
  nl <> 0 /\ nl <= QUEUE_NAME_MAX /\ len <= QUEUE_MESSAGE_MAX /\ record_op_known op = true.
Proof. unfold bad_shape. intros H. reflect_tests. auto. Qed.

Lemma record_crc_fits r : record_ok r -> fits 32 (record_crc r).
Proof. intros (?&?&?&?&?&?). apply crc32_fits; auto using header24_bytes. Qed.

Lemma name_len_roundtrip n : fits 16 n ->
  Z.lor (u8 n) (Z.shiftl (u8 (Z.shiftr n 8)) 8) = n.
Proof.
  intros H. pose proof (get16_put16 n []) as E. rewrite u16_small in E by done. exact E.
Qed.

(** The header fields as a reader sees them, whatever follows the header. *)
Lemma header_fields r tail : record_ok r ->
  let p := header24 r ++ put32 (record_crc r) ++ tail in
  byte_at p 0 = r_op r /\
  Z.lor (byte_at p 2) (Z.shiftl (byte_at p 3) 8) = zlen (r_name r) /\
  get32 (drop 4 p) = zlen (r_data r) /\
  get64 (drop 8 p) = r_id r /\
  get64 (drop 16 p) = r_aux r /\
  get32 (drop 24 p) = record_crc r /\
  negb (byte_at p 1 =? 0) = r_durable r /\
  take 24 p = header24 r.
Proof.
  intros Hr p. pose proof (record_crc_fits r Hr) as Hc.
  destruct Hr as (Hop & Hid & Haux & Hn & Hd & Hs).
  destruct (bad_shape_bounds _ _ _ _ Hs) as (H0 & Hnl & Hdl & _).
  pose proof (zlen_nonneg (r_name r)). pose proof (zlen_nonneg (r_data r)).
  unfold QUEUE_NAME_MAX, QUEUE_MESSAGE_MAX in *. change (Z.shiftl 64 20) with 67108864 in *.
  unfold p, header24. rewrite <- !app_assoc.
  split; [apply u8_small; unfold fits, is_byte in *; lia|].
  split; [apply name_len_roundtrip; unfold fits; lia|].
  split; [change (drop 4 _) with (put32 (zlen (r_data r)) ++ put64 (r_id r) ++ put64 (r_aux r)
            ++ put32 (record_crc r) ++ tail); rewrite get32_put32; apply u32_small; unfold fits; lia|].
  split; [change (drop 8 _) with (put64 (r_id r) ++ put64 (r_aux r)
            ++ put32 (record_crc r) ++ tail); rewrite get64_put64; by apply u64_small|].
  split; [change (drop 16 _) with (put64 (r_aux r) ++ put32 (record_crc r) ++ tail);
          rewrite get64_put64; by apply u64_small|].
  split; [change (drop 24 _) with (put32 (record_crc r) ++ tail);
          rewrite get32_put32; by apply u32_small|].
  split; [by destruct (r_durable r)|reflexivity].
Qed.

Lemma read_all_app (a b : bytes) : read_all (length a) (a ++ b) = Some (a, b).
Proof.
  unfold read_all. destruct (Nat.ltb_spec (length (a ++ b)) (length a)) as [H|_];
    [rewrite length_app in H; lia|]. by rewrite take_app_length, drop_app_length.
Qed.

(** Reading back what was written, whatever follows it. *)
Lemma read_encode je r rest : record_ok r -> job_fmt_ok r ->
  job_record (r_op r) && negb je = false ->
  read_record true je (encode r ++ rest) = RRecord r rest.
Proof.
  intros Hr Hj Hje.
  destruct (header_fields r [] Hr) as (E0 & E2 & E4 & E8 & E16 & E24 & E1 & ET).
  rewrite app_nil_r in *. destruct Hr as (_&_&_&_&_& Hs).
  unfold read_record, encode. rewrite <- !app_assoc, (app_assoc (header24 r)).
  change 28%nat with (length (header24 r ++ put32 (record_crc r))).
  rewrite read_all_app, E0, E2, E4, E8, E16, E24, E1, ET, Hje, Hs. cbn [negb andb].
  rewrite andb_false_r. unfold zlen. rewrite !Nat2Z.id, !read_all_app.
  change (crc32 (header24 r) (r_name r) (r_data r)) with (record_crc r).
  rewrite Z.eqb_refl. cbn [negb]. unfold job_fmt_ok in Hj. rewrite Hj. by destruct r.
Qed.

Lemma drop28 r tail : drop 28 (header24 r ++ put32 (record_crc r) ++ tail) = tail.
Proof. reflexivity. Qed.

Lemma record_at_encode r rest : record_ok r -> record_at (encode r ++ rest) = true.
Proof.
  intros Hr. unfold encode. rewrite <- !app_assoc.
  destruct (header_fields r (r_name r ++ r_data r ++ rest) Hr)
    as (E0 & E2 & E4 & E8 & E16 & E24 & E1 & ET).
  unfold record_at. rewrite <- drop_drop, drop28, E0, E2, E4, E24, ET.
  destruct Hr as (_&_&_&_&_& Hs). destruct (bad_shape_bounds _ _ _ _ Hs) as (H0 & Hnl & Hdl & ->).
  destruct (Z.eqb_spec (zlen (r_name r)) 0); [done|].
  destruct (Z.ltb_spec QUEUE_NAME_MAX (zlen (r_name r))); [lia|].
  destruct (Z.ltb_spec QUEUE_MESSAGE_MAX (zlen (r_data r))); [lia|]. cbn [negb orb].
  destruct (Z.ltb_spec (zlen (header24 r ++ put32 (record_crc r) ++ r_name r ++ r_data r ++ rest))
    (LOG_HEADER + zlen (r_name r) + zlen (r_data r))) as [Hlt|_].
  { rewrite !zlen_app in Hlt. pose proof (zlen_nonneg rest). unfold LOG_HEADER in Hlt.
    change (zlen (header24 r)) with 24 in Hlt.
    change (zlen (put32 (record_crc r))) with 4 in Hlt. lia. }
  unfold zlen. rewrite !Nat2Z.id, take_app_length, drop_app_length, take_app_length.
  apply Z.eqb_refl.
Qed.

Lemma scan_records_unfold t : scan_records t =
  if (length t <? 28)%nat then false else if record_at t then true else scan_records (tail t).
Proof. by destruct t. Qed.

(** The scan finds a record wherever it starts. *)
Lemma scan_records_app pre r post : record_ok r ->
  scan_records (pre ++ encode r ++ post) = true.
Proof.
  intros Hr. assert (L : forall q : bytes, (length (q ++ encode r ++ post) <? 28)%nat = false).
  { intros q. apply Nat.ltb_ge. rewrite !length_app, length_encode. lia. }
  induction pre as [|b pre IH].
  - rewrite scan_records_unfold. rewrite (L []).
    change ([] ++ encode r ++ post) with (encode r ++ post). by rewrite record_at_encode.
  - rewrite scan_records_unfold, L. change (tail ((b :: pre) ++ encode r ++ post))
      with (pre ++ encode r ++ post). rewrite IH. by gcase.
Qed.

Lemma encode_head r : record_ok r -> exists h, encode r = r_op r :: h /\ r_op r <> 0.
Proof.
  intros (Hop & _ & _ & _ & _ & Hs). destruct (bad_shape_bounds _ _ _ _ Hs) as (_&_&_&Hk).
  eexists. split.
  - unfold encode, header24. rewrite u8_small by (unfold fits, is_byte in *; lia). reflexivity.
  - intros E. rewrite E in Hk. done.
Qed.

Lemma skip_zeros_app pre r post : record_ok r ->
  exists pre', skip_zeros (pre ++ encode r ++ post) = pre' ++ encode r ++ post.
Proof.
  intros Hr. induction pre as [|b pre [pre' IH]]; cbn [skip_zeros app].
  - destruct (encode_head r Hr) as (h & E & Hne). exists []. rewrite E.
    cbn [skip_zeros app]. by destruct (Z.eqb_spec (r_op r) 0).
  - gcase; [by exists pre'|]. by exists (b :: pre).
Qed.

Lemma skip_zeros_replicate n : skip_zeros (replicate n 0) = [].
Proof. induction n; simpl; auto. Qed.

End Wal.
