(* ===== verification/QueueStore.v ===== *)
(** * The queue store (queue.c: struct QueueStore and the public operations)

    State.  The record [store] mirrors struct QueueStore.  A [Queue *] is the
    queue's [lock_id], unique in the store; the linked lists are Rocq lists in
    their C order (newest first).

    External outcomes.  Every call that can fail for a reason outside the
    program draws its outcome from a stream of the state: [st_allocs] for
    malloc/calloc, [st_ios] for the writes and barriers of the WAL,
    [st_trylocks] for pthread_mutex_trylock.  [true] is success, and an
    exhausted stream means success from then on.  The clocks are arguments.

    The WAL is the list [st_log] of records whose bytes an append handed to
    the kernel, in byte order; [st_wal_seq] and [st_synced_seq] are the
    source's counters and [st_failed] its failure latch.  The counters that
    allocate identities start at one and advance by one per allocation; they
    are modelled without wrap-around at [2^64]. *)

From stdpp Require Import base numbers option list.
From S2P Require Import Prelude Queue QueueIndex WalRecord.
Import Queue Wal.

Module Store.

Record binding := Binding {
  b_queue : bytes;
  b_key : bytes;
  b_footprint : Z }.

Record exchange := Exchange {
  x_name : bytes;
  x_type : Z;
  x_durable : bool;
  x_ae_name : bytes;
  x_bindings : list binding;
  x_binding_count : Z;
  x_revision : Z;
  x_publish_attempts : Z;
  x_unroutable : Z }.

Record consumer := Consumer { c_name : bytes; c_owner : Z }.

Record tx_target := TxTarget { t_name : bytes; t_queue : option Z; t_msg_id : Z }.

Record queue_tx := QueueTx {
  tx_id : Z;
  tx_expires : Z;
  tx_source : bytes;
  tx_data : bytes;
  tx_targets : list tx_target;
  tx_footprint : Z }.

Record store := Store {
  st_queues : list queue;
  st_exchanges : list exchange;
  st_consumers : list consumer;
  st_tx_pending : list queue_tx;
  st_next_id : Z;
  st_next_owner : Z;
  st_next_tag : Z;
  st_next_incarnation : Z;
  st_next_lock_id : Z;
  st_job_enabled : bool;
  st_redeliveries : Z;
  st_deadlettered : Z;
  st_unroutable : Z;
  st_meta_live : Z;
  st_log_open : bool;
  st_failed : bool;
  st_log : list record;
  st_wal_seq : Z;
  st_synced_seq : Z;
  st_allocs : list bool;
  st_ios : list bool;
  st_trylocks : list bool;
  st_held : list Z }.   (** queue locks the current call holds besides its own *)

(** The state queue_store_open_ex starts from, before replay. *)
Definition empty_store (job_enabled log_open : bool) (allocs ios locks : list bool) : store :=
  {| st_queues := []; st_exchanges := []; st_consumers := []; st_tx_pending := [];
     st_next_id := 1; st_next_owner := 1; st_next_tag := 1; st_next_incarnation := 1;
     st_next_lock_id := 0; st_job_enabled := job_enabled;
     st_redeliveries := 0; st_deadlettered := 0; st_unroutable := 0; st_meta_live := 0;
     st_log_open := log_open; st_failed := false; st_log := [];
     st_wal_seq := 0; st_synced_seq := 0;
     st_allocs := allocs; st_ios := ios; st_trylocks := locks; st_held := [] |}.

(** ** External outcomes *)

Definition alloc (s : store) : bool * store :=
  let '(b, r) := draw (st_allocs s) in (b, {| s with st_allocs := r |}).
Definition io (s : store) : bool * store :=
  let '(b, r) := draw (st_ios s) in (b, {| s with st_ios := r |}).
Definition trylock (s : store) : bool * store :=
  let '(b, r) := draw (st_trylocks s) in (b, {| s with st_trylocks := r |}).

Definition set_failed (s : store) : store := {| s with st_failed := true |}.

(** ** Queues by pointer and by name *)

Definition get_queue (s : store) (qid : Z) : option queue :=
  find (fun q => q_lock_id q =? qid) (st_queues s).

Definition upd_queue (s : store) (qid : Z) (f : queue -> queue) : store :=
  {| s with st_queues :=
       map (fun q => if q_lock_id q =? qid then f q else q) (st_queues s) |}.

Definition find_queue (s : store) (name : bytes) : option queue :=
  find (fun q => negb (q_deleted q) && name_eqb (q_name q) name) (st_queues s).

Definition new_queue (lock_id incarnation : Z) (name : bytes) (durable : bool)
    (max_depth : Z) (dlq_name : bytes) (max_deliveries : Z) : queue :=
  {| q_lock_id := lock_id; q_incarnation := incarnation; q_name := name;
     q_max_depth := max_depth; q_depth := 0; q_inflight := 0; q_revision := 1;
     q_durable := durable; q_deleted := false; q_dlq_name := dlq_name;
     q_max_deliveries := if zlen dlq_name =? 0 then 0 else max_deliveries;
     q_msgs := []; q_tag_buckets := None; q_tag_count := 0;
     q_live_bytes := if durable then LOG_HEADER + zlen name + 9 +
                       (if zlen dlq_name =? 0 then 0 else 8 + zlen dlq_name)
                     else 0;
     q_ttl_count := 0; q_earliest := UINT64_MAX; q_hint := 0%nat |}.

(** [create_queue]: the allocations together succeed or fail. *)
Definition create_queue (s : store) (name : bytes) (durable : bool) (max_depth : Z)
    (dlq_name : bytes) (max_deliveries : Z) : option Z * store :=
  let '(ok, s) := alloc s in
  if ok then
    let lock_id := st_next_lock_id s + 1 in
    let q := new_queue lock_id (st_next_incarnation s + 1) name durable max_depth
               dlq_name max_deliveries in
    (Some lock_id,
     {| s with st_queues := q :: st_queues s;
               st_next_incarnation := st_next_incarnation s + 1;
               st_next_lock_id := lock_id |})
  else (None, s).

(** ** Logging *)

(** [append_record_ex].  The staging write and, unless deferred, the flush
    are one I/O outcome; [do_fsync] adds the barrier's.  A record whose flush
    fails is not in the log; the code can leave it staged. *)
Definition append_record (s : store) (op : Z) (durable : bool) (name : bytes)
    (id aux : Z) (data : bytes) (do_fsync : bool) : Z * store :=
  if negb durable then (0, s)
  else if negb (st_log_open s) || st_failed s then (-1, s)
  else
    let '(wrote, s) := io s in
    if negb wrote then (-1, set_failed s)
    else
      let s := {| s with st_log := st_log s ++
                   [{| r_op := op; r_durable := true; r_name := name;
                       r_id := id; r_aux := aux; r_data := data |}] |} in
      if do_fsync then
        let '(synced, s) := io s in
        if negb synced then (-1, set_failed s)
        else (0, {| s with st_wal_seq := st_wal_seq s + 1;
                           st_synced_seq := st_wal_seq s + 1 |})
      else (0, {| s with st_wal_seq := st_wal_seq s + 1 |}).

Definition append_log (s : store) (op : Z) (q : queue) (id expires : Z) (data : bytes)
    : Z * store :=
  append_record s op (q_durable q) (q_name q) id expires data false.

(** [sync_log]: the barrier every transform waits for before it mutates. *)
Definition sync_log (s : store) : Z * store :=
  if negb (st_log_open s) then (-1, s)
  else if st_wal_seq s <=? st_synced_seq s then (0, s)
  else
    let '(ok, s) := io s in
    if ok then (0, {| s with st_synced_seq := Z.max (st_wal_seq s) (st_synced_seq s) |})
    else (-1, set_failed s).

(** [q_wait_durable_locked] with no other thread in the loop: at most one
    round of flush and barrier, which covers everything appended so far. *)
Definition wait_durable (s : store) (target : Z) : Z * store :=
  if st_failed s then (-1, s)
  else if target <=? st_synced_seq s then (0, s)
  else
    let '(ok, s) := io s in
    if ok then (0, {| s with st_synced_seq := Z.max (st_wal_seq s) (st_synced_seq s) |})
    else (-1, set_failed s).

(** ** Dead-lettering *)

Definition append_message (s : store) (qid : Z) (id expires : Z) (data : bytes) : Z * store :=
  let '(ok, s) := alloc s in
  if ok then (0, upd_queue s qid (fun q => message_link q (message_create id expires data)))
  else (-1, s).

(** The queue named as the dead-letter target, created on first use. *)
Definition resolve_dlq (s : store) (q : queue) : option Z * store :=
  match find_queue s (q_dlq_name q) with
  | Some dlq => (Some (q_lock_id dlq), s)
  | None =>
      let '(rc, s) := append_record s LOG_DECLARE (q_durable q) (q_dlq_name q) 0 0 [] false in
      if rc <? 0 then (None, s)
      else create_queue s (q_dlq_name q) (q_durable q) 0 [] 0
  end.

(** The records of a routed message: the copy's PUBLISH, the source's ACK and
    one barrier for both. *)
Definition log_dead_letter (s : store) (dlq q : queue) (id expires : Z) (m : message) : Z * store :=
  if q_durable dlq then
    let '(rc, s) := append_log s LOG_PUBLISH dlq id expires (m_data m) in
    if rc <? 0 then (-1, s)
    else
      let '(rc, s) := append_log s LOG_ACK q (m_id m) 0 [] in
      if rc <? 0 then (-1, s) else sync_log s
  else (0, s).

(** Under the locks of both queues, with room in the target. *)
Definition route_copy (s : store) (qid : Z) (q : queue) (i : nat) (m : message) (did : Z)
    (dlq : queue) (clear_expiry : bool) : Z * store :=
  let id := st_next_id s in
  let s := {| s with st_next_id := id + 1 |} in
  let expires := if clear_expiry then 0 else m_expires m in
  let '(rc, s) := log_dead_letter s dlq q id expires m in
  if rc <? 0 then (-1, s)
  else
    let '(rc, s) := append_message s did id expires (m_data m) in
    if rc <? 0 then (-1, s)
    else
      let s := upd_queue s qid (fun q => remove_message q i) in
      (1, {| s with st_deadlettered := st_deadlettered s + 1 |}).

Definition dead_letter_locked (s : store) (qid : Z) (i : nat)
    (clear_expiry metadata_held : bool) : Z * store :=
  match get_queue s qid with
  | None => (-1, s)
  | Some q =>
  match q_msgs q !! i with
  | None => (-1, s)
  | Some m =>
    if zlen (q_dlq_name q) =? 0 then (0, s)
    else
      let '(held, s) := if metadata_held then (true, s) else trylock s in
      if negb held then (-1, s)
      else
        match resolve_dlq s q with
        | (None, s) => (-1, s)
        | (Some did, s) =>
            (* a DLQ whose lock this call holds, as the source's, is busy *)
            let '(free, s) := if (did =? qid) || existsb (Z.eqb did) (st_held s)
                              then (false, s) else trylock s in
            if negb free then (-1, s)
            else
              match get_queue s did with
              | None => (-1, s)
              | Some dlq =>
                  if negb (q_max_depth dlq =? 0) && (q_max_depth dlq <=? q_depth dlq)
                  then (-1, s)
                  else
                    route_copy s qid q i m did dlq clear_expiry
              end
        end
  end
  end.

(** ** Retention and visibility *)

(** The walk of reap_queue_locked from position [i]; [n] messages remain.
    Returns the earliest remaining visibility deadline. *)
Fixpoint reap_walk (n : nat) (s : store) (qid : Z) (i : nat) (now mono next_deadline : Z)
    (metadata_held : bool) : Z * store :=
  match n with
  | O => (next_deadline, s)
  | S n =>
    match get_queue s qid with
    | None => (next_deadline, s)
    | Some q =>
    match q_msgs q !! i with
    | None => (next_deadline, s)
    | Some m =>
      if negb (m_expires m =? 0) && (m_expires m <=? now) then
        let '(routed, s) := dead_letter_locked s qid i true metadata_held in
        if routed <? 0 then reap_walk n s qid (S i) now mono next_deadline metadata_held
        else
          let s := if routed =? 0 then upd_queue s qid (fun q => remove_message q i) else s in
          reap_walk n s qid i now mono next_deadline metadata_held
      else if is_inflight m then
        if m_time m <=? mono then
          let s := upd_queue s qid (fun q => make_ready q i 0) in
          let s := {| s with st_redeliveries := st_redeliveries s + 1 |} in
          reap_walk n s qid (S i) now mono next_deadline metadata_held
        else reap_walk n s qid (S i) now mono (Z.min (m_time m) next_deadline) metadata_held
      else reap_walk n s qid (S i) now mono next_deadline metadata_held
    end
    end
  end.

Definition reap_queue_locked (s : store) (qid now mono : Z) (metadata_held : bool) : store :=
  match get_queue s qid with
  | None => s
  | Some q =>
      if reap_skip q mono then s
      else
        let '(next_deadline, s) :=
          reap_walk (length (q_msgs q)) s qid 0 now mono UINT64_MAX metadata_held in
        upd_queue s qid (fun q => {| q with q_earliest := next_deadline |})
  end.

(** ** Declaring *)

Definition dlq_ext (dlq_name : bytes) (max_deliveries : Z) : bytes :=
  if zlen dlq_name =? 0 then []
  else put16 (zlen dlq_name) ++ dlq_name ++ put32 max_deliveries.

(** Pointer arguments: an absent [dlq_name] is the empty list. *)
Definition queue_declare_ex (s : store) (name : bytes) (durable : bool) (max_depth : Z)
    (dlq_name : bytes) (max_deliveries : Z) : Z * store :=
  if (zlen name =? 0) || (QUEUE_NAME_MAX <? zlen name) then (-1, s)
  else if (if zlen dlq_name =? 0 then negb (max_deliveries =? 0)
           else (QUEUE_NAME_MAX <? zlen dlq_name) || name_eqb dlq_name name) then (-1, s)
  else
    match find_queue s name with
    | Some existing =>
        if Bool.eqb (q_durable existing) durable &&
           (zlen (q_dlq_name existing) =? zlen dlq_name) &&
           ((zlen dlq_name =? 0) ||
            ((q_max_deliveries existing =? max_deliveries) &&
             name_eqb (q_dlq_name existing) dlq_name))
        then (0, s) else (-1, s)
    | None =>
        let before := st_wal_seq s in
        let '(rc, s) := append_record s LOG_DECLARE durable name 0 max_depth
                          (dlq_ext dlq_name max_deliveries) false in
        if rc <? 0 then (-1, s)
        else
          let '(created, s) := create_queue s name durable max_depth dlq_name max_deliveries in
          match created with
          | None => (-1, s)
          | Some _ => if st_wal_seq s =? before then (0, s) else wait_durable s (st_wal_seq s)
          end
    end.

Definition queue_declare (s : store) (name : bytes) (durable : bool) (max_depth : Z) : Z * store :=
  queue_declare_ex s name durable max_depth [] 0.

(** ** Publishing *)

(** Returns the identity of the message on success. *)
Definition publish_one_locked (s : store) (qid : Z) (data : bytes) (ttl now mono : Z)
    : option Z * store :=
  let s := reap_queue_locked s qid now mono false in
  match get_queue s qid with
  | None => (None, s)
  | Some q =>
      if negb (q_max_depth q =? 0) && (q_max_depth q <=? q_depth q) then (None, s)
      else
        let id := st_next_id s in
        let s := {| s with st_next_id := id + 1 |} in
        let expires := if ttl =? 0 then 0 else u64 (now + ttl) in
        let '(rc, s) := append_log s LOG_PUBLISH q id expires data in
        if rc <? 0 then (None, s)
        else
          let '(rc, s) := append_message s qid id expires data in
          if rc <? 0 then (None, s) else (Some id, s)
  end.

Definition queue_publish (s : store) (name data : bytes) (ttl now mono : Z) : option Z * store :=
  if (zlen name =? 0) || (QUEUE_NAME_MAX <? zlen name) || (QUEUE_MESSAGE_MAX <? zlen data)
  then (None, s)
  else
    match find_queue s name with
    | None => (None, s)
    | Some q =>
        let before := st_wal_seq s in
        let '(id, s) := publish_one_locked s (q_lock_id q) data ttl now mono in
        match id with
        | None => (None, s)
        | Some id =>
            if st_wal_seq s =? before then (Some id, s)
            else
              let '(rc, s) := wait_durable s (st_wal_seq s) in
              if rc <? 0 then (None, s) else (Some id, s)
        end
    end.

(** ** Purging and deleting: the status, the count removed, the state *)

Definition purge_queue (s : store) (qid : Z) : store :=
  upd_queue s qid (fun q => snd (purge_queue_locked q)).

Definition queue_purge_checked (s : store) (name : bytes) (expected : option Z) : Z * Z * store :=
  if (zlen name =? 0) || (QUEUE_NAME_MAX <? zlen name) then (-1, 0, s)
  else
    match find_queue s name with
    | None => (0, 0, s)
    | Some q =>
        if match expected with Some r => negb (q_revision q =? r) | None => false end
        then (2, 0, s)
        else
          let removed := q_depth q in
          let '(rc, s) := append_log s LOG_PURGE q removed 0 [] in
          if rc <? 0 then (-1, 0, s)
          else
            let s := purge_queue s (q_lock_id q) in
            if q_durable q then
              let '(rc, s) := wait_durable s (st_wal_seq s) in
              if rc <? 0 then (-1, 0, s) else (1, removed, s)
            else (1, removed, s)
    end.

Definition queue_purge (s : store) (name : bytes) : Z * Z * store :=
  queue_purge_checked s name None.
Definition queue_purge_if_revision (s : store) (name : bytes) (expected : Z) : Z * Z * store :=
  queue_purge_checked s name (Some expected).

(** Is the queue the target of a binding of any exchange? *)
Definition is_bound (s : store) (name : bytes) : bool :=
  existsb (fun x => existsb (fun b => name_eqb (b_queue b) name) (x_bindings x)) (st_exchanges s).

(** The tombstone: purge, no live bytes, deleted, revision. *)
Definition tombstone (q : queue) : queue :=
  let q := snd (purge_queue_locked q) in
  {| q with q_live_bytes := 0; q_deleted := true; q_revision := u64 (q_revision q + 1) |}.

Definition queue_delete_if_revision (s : store) (name : bytes) (expected : Z) : Z * Z * store :=
  if (zlen name =? 0) || (QUEUE_NAME_MAX <? zlen name) then (-1, 0, s)
  else
    match find_queue s name with
    | None => (0, 0, s)
    | Some q =>
        if negb (q_revision q =? expected) then (2, 0, s)
        else if is_bound s name then (3, 0, s)
        else
          let removed := q_depth q in
          let '(rc, s) := append_log s LOG_DELETE q removed 0 [] in
          if rc <? 0 then (-1, 0, s)
          else
            let s := upd_queue s (q_lock_id q) tombstone in
            if q_durable q then
              let '(rc, s) := wait_durable s (st_wal_seq s) in
              if rc <? 0 then (-1, 0, s) else (1, removed, s)
            else (1, removed, s)
    end.

(** ** Consuming *)

Record delivery := Delivery {
  d_id : Z;
  d_tag : Z;
  d_owner : Z;
  d_data : bytes;
  d_count : Z;
  d_redelivered : bool;
  d_deadline : Z }.

(** The next delivery tag; zero is skipped. *)
Definition take_tag (s : store) : Z * store :=
  let tag := st_next_tag s in
  let s := {| s with st_next_tag := tag + 1 |} in
  if tag =? 0 then (st_next_tag s, {| s with st_next_tag := st_next_tag s + 1 |}) else (tag, s).

(** The delivery of the message at [i], after the scan chose it. *)
Definition deliver_message (s : store) (qid : Z) (q : queue) (i : nat) (m : message)
    (deadline owner : Z) (first_delayed : option nat) : delivery * store :=
  let '(tag, s) := take_tag s in
  let '(ok, s) := if tag_index_allocs q then alloc s else (true, s) in
  let s := upd_queue s qid (fun q => deliver ok q i deadline owner tag first_delayed) in
  let count := u32 (m_deliveries m + 1) in
  ({| d_id := m_id m; d_tag := tag; d_owner := owner; d_data := m_data m;
      d_count := count; d_redelivered := 1 <? count; d_deadline := deadline |}, s).

(** The scan of queue_consume_for_owner from position [i]; [n] messages
    remain.  Result: [1] with a delivery, [0] when nothing is ready, [-1]. *)
Fixpoint consume_scan (n : nat) (s : store) (qid : Z) (i : nat) (first_delayed : option nat)
    (visibility owner now mono2 : Z) : Z * option delivery * store :=
  match n with
  | O => (0, None, s)
  | S n =>
    match get_queue s qid with
    | None => (0, None, s)
    | Some q =>
    match q_msgs q !! i with
    | None => (0, None, s)
    | Some m =>
      let first_delayed :=
        if negb (is_inflight m) && (now <? m_time m) &&
           match first_delayed with None => true | Some _ => false end
        then Some i else first_delayed in
      if negb (is_inflight m) && (m_time m <=? now) then
        let exhausted := negb (q_max_deliveries q =? 0) && negb (zlen (q_dlq_name q) =? 0) &&
                         (q_max_deliveries q <=? m_deliveries m) in
        let '(routed, s) := if exhausted then dead_letter_locked s qid i false false else (0, s) in
        if 0 <? routed then consume_scan n s qid i first_delayed visibility owner now mono2
        else if routed <? 0 then consume_scan n s qid (S i) first_delayed visibility owner now mono2
        else
          let '(ok, s) := alloc s in
          if negb ok then (-1, None, s)
          else
            let '(rc, s) := append_log s LOG_DELIVER q (m_id m) 0 [] in
            if rc <? 0 then (-1, None, s)
            else
              let deadline := u64 (mono2 + (if visibility =? 0 then 30000 else visibility)) in
              let '(d, s) := deliver_message s qid q i m deadline owner first_delayed in
              if q_durable q then
                let '(rc, s) := wait_durable s (st_wal_seq s) in
                if rc <? 0 then (-1, None, s) else (1, Some d, s)
              else (1, Some d, s)
      else consume_scan n s qid (S i) first_delayed visibility owner now mono2
    end
    end
  end.

(** [mono] is read by the reaper, [mono2] when the lease is set. *)
Definition queue_consume_for_owner (s : store) (name : bytes) (visibility owner now mono mono2 : Z)
    : Z * option delivery * store :=
  match find_queue s name with
  | None => (-1, None, s)
  | Some q =>
      let qid := q_lock_id q in
      let s := reap_queue_locked s qid now mono false in
      match get_queue s qid with
      | None => (-1, None, s)
      | Some q => consume_scan (length (q_msgs q)) s qid (q_hint q) None visibility owner now mono2
      end
  end.

Definition queue_consume (s : store) (name : bytes) (visibility now mono mono2 : Z)
    : Z * option delivery * store :=
  queue_consume_for_owner s name visibility 0 now mono mono2.

(** ** Acknowledging *)

(** The in-flight message a tag names, if this owner holds it. *)
Definition held_delivery (q : queue) (tag owner : Z) : option (nat * message) :=
  match tag_find q tag with
  | None => None
  | Some i =>
      match q_msgs q !! i with
      | None => None
      | Some m => if is_inflight m && (m_owner m =? owner) then Some (i, m) else None
      end
  end.

(** Append one record for the queue and wait for its barrier: the part a
    transform runs before it changes memory. *)
Definition log_transform (s : store) (op : Z) (q : queue) (id aux : Z) : Z * store :=
  let '(rc, s) := append_log s op q id aux [] in
  if rc <? 0 then (-1, s)
  else if q_durable q then sync_log s
  else (0, s).

Definition queue_ack_for_owner (s : store) (name : bytes) (tag owner : Z) : Z * store :=
  if tag =? 0 then (-1, s)
  else
    match find_queue s name with
    | None => (-1, s)
    | Some q =>
        match held_delivery q tag owner with
        | None => (0, s)
        | Some (i, m) =>
            let '(rc, s) := log_transform s LOG_ACK q (m_id m) 0 in
            if rc <? 0 then (-1, s)
            else (1, upd_queue s (q_lock_id q) (fun q => remove_message q i))
        end
    end.

Definition queue_ack (s : store) (name : bytes) (tag : Z) : Z * store :=
  queue_ack_for_owner s name tag 0.

Definition queue_nack_for_owner_delay (s : store) (name : bytes) (tag owner : Z)
    (requeue : bool) (delay now : Z) : Z * store :=
  if tag =? 0 then (-1, s)
  else
    match find_queue s name with
    | None => (-1, s)
    | Some q =>
        match held_delivery q tag owner with
        | None => (0, s)
        | Some (i, m) =>
            let qid := q_lock_id q in
            if requeue then
              let not_before := if delay =? 0 then 0 else u64 (now + delay) in
              let '(rc, s) := log_transform s LOG_REQUEUE q (m_id m) not_before in
              if rc <? 0 then (-1, s)
              else
                let s := upd_queue s qid (fun q => charge_record (make_ready q i not_before) i) in
                (1, {| s with st_redeliveries := st_redeliveries s + 1 |})
            else if negb (zlen (q_dlq_name q) =? 0) then dead_letter_locked s qid i false false
            else
              let '(rc, s) := log_transform s LOG_ACK q (m_id m) 0 in
              if rc <? 0 then (-1, s)
              else (1, upd_queue s qid (fun q => remove_message q i))
        end
    end.

Definition queue_nack (s : store) (name : bytes) (tag : Z) (requeue : bool) (now : Z) : Z * store :=
  queue_nack_for_owner_delay s name tag 0 requeue 0 now.

(** ** Well-formed stores *)

Definition name_ok (n : bytes) : Prop := bytes_ok n /\ 0 < zlen n <= QUEUE_NAME_MAX.
Definition data_ok (d : bytes) : Prop := bytes_ok d /\ zlen d <= QUEUE_MESSAGE_MAX.

Definition lock_ids (s : store) : list Z := q_lock_id <$> st_queues s.

(** The queues that name look-ups can return. *)
Definition live_queues (s : store) : list queue := filter (fun q => q_deleted q = false) (st_queues s).

(** Pointers are unique and allocated in order; live names are unique. *)
Record wf (s : store) : Prop := {
  wf_ids : NoDup (lock_ids s);
  wf_fresh : Forall (fun i => i <= st_next_lock_id s) (lock_ids s);
  wf_names : NoDup (q_name <$> live_queues s) }.

(** Changes of one queue that keep its identity. *)
Definition keeps_identity (f : queue -> queue) : Prop :=
  forall q, q_lock_id (f q) = q_lock_id q /\ q_name (f q) = q_name q.

Definition keeps_config (f : queue -> queue) : Prop := forall q, config (f q) = config q.

Create HintDb store.

Lemma keeps_config_identity f : keeps_config f -> keeps_identity f.
Proof. intros H q. specialize (H q). unfold config in H. by simplify_eq. Qed.

Lemma keeps_config_deleted f q : keeps_config f -> q_deleted (f q) = q_deleted q.
Proof. intros H. specialize (H q). unfold config in H. by simplify_eq. Qed.

#[export] Hint Resolve keeps_config_identity keeps_config_deleted : store.

Lemma get_queue_In s qid q : get_queue s qid = Some q -> q ∈ st_queues s /\ q_lock_id q = qid.
Proof. intros [Hin Heq%Z.eqb_eq]%find_some. by rewrite <- list_elem_of_In in Hin. Qed.

Lemma find_queue_In s name q : find_queue s name = Some q ->
  q ∈ st_queues s /\ q_deleted q = false /\ q_name q = name.
Proof.
  intros [Hin H]%find_some. rewrite <- list_elem_of_In in Hin. reflect_tests.
  unfold name_eqb in *. by case_bool_decide.
Qed.

Lemma find_queue_live s name q : find_queue s name = Some q -> q ∈ live_queues s.
Proof. intros (? & ? & ?)%find_queue_In. by apply list_elem_of_filter. Qed.

Lemma NoDup_fmap_inj {A B} (f : A -> B) (l : list A) x y :
  NoDup (f <$> l) -> x ∈ l -> y ∈ l -> f x = f y -> x = y.
Proof.
  induction l as [|z l IH]; simpl; [by intros _ ?%not_elem_of_nil|].
  rewrite NoDup_cons, !elem_of_cons. intros [Hz Hn] [->|Hx] [->|Hy] E; auto.
  - destruct Hz. rewrite E. by apply list_elem_of_fmap_2.
  - destruct Hz. rewrite <- E. by apply list_elem_of_fmap_2.
Qed.

Lemma wf_get s q : wf s -> q ∈ st_queues s -> get_queue s (q_lock_id q) = Some q.
Proof.
  intros [Hn _ _] Hq. unfold get_queue. destruct (find _ _) as [q'|] eqn:E.
  - apply find_some in E as [Hin E%Z.eqb_eq]. rewrite <- list_elem_of_In in Hin.
    f_equal. by eapply (NoDup_fmap_inj q_lock_id).
  - eapply find_none in E; [|by rewrite <- list_elem_of_In]. simpl in E. lia.
Qed.

Lemma wf_find s q : wf s -> q ∈ st_queues s -> q_deleted q = false ->
  find_queue s (q_name q) = Some q.
Proof.
  intros [_ _ Hn] Hq Hd. destruct (find_queue s (q_name q)) as [q'|] eqn:E.
  - pose proof (find_queue_live _ _ _ E). apply find_queue_In in E as (?&?&?).
    f_equal. eapply (NoDup_fmap_inj q_name); [done|done| |done].
    by apply list_elem_of_filter.
  - unfold find_queue in E. eapply find_none in E; [|by rewrite <- list_elem_of_In].
    simpl in E. unfold name_eqb in E. rewrite Hd, bool_decide_eq_true_2 in E; done.
Qed.

Lemma find_get s name q : wf s -> find_queue s name = Some q ->
  get_queue s (q_lock_id q) = Some q.
Proof. intros W (? & _ & _)%find_queue_In. by apply wf_get. Qed.

(** The queues after a change of one of them. *)
Lemma upd_queue_lock_ids s qid f : keeps_identity f ->
  lock_ids (upd_queue s qid f) = lock_ids s.
Proof.
  intros Hf. unfold lock_ids, upd_queue. simpl. induction (st_queues s) as [|q l IH]; [done|].
  simpl. f_equal; [|done]. gcase; [apply Hf|done].
Qed.

Lemma upd_queue_live_names s qid f : keeps_identity f ->
  (forall q, q_deleted (f q) = q_deleted q) ->
  q_name <$> live_queues (upd_queue s qid f) = q_name <$> live_queues s.
Proof.
  intros Hf Hd. unfold live_queues, upd_queue. simpl.
  induction (st_queues s) as [|q l IH]; [done|]. simpl. rewrite !filter_cons.
  destruct (q_lock_id q =? qid).
  - destruct (Hf q) as [_ Hn]. specialize (Hd q).
    repeat case_decide; try congruence; csimpl; by rewrite ?Hn, ?IH.
  - case_decide; csimpl; by rewrite ?IH.
Qed.

Lemma upd_queue_wf s qid f : keeps_identity f -> (forall q, q_deleted (f q) = q_deleted q) ->
  wf s -> wf (upd_queue s qid f).
Proof.
  intros Hf Hd [H1 H2 H3]. constructor.
  - by rewrite upd_queue_lock_ids.
  - by rewrite upd_queue_lock_ids.
  - by rewrite upd_queue_live_names.
Qed.

Lemma find_map_upd (P : queue -> bool) (f : queue -> queue) qid l :
  NoDup (q_lock_id <$> l) -> (forall q, q ∈ l -> q_lock_id q = qid -> P (f q) = P q) ->
  find P (map (fun q => if q_lock_id q =? qid then f q else q) l)
  = (fun q => if q_lock_id q =? qid then f q else q) <$> find P l.
Proof.
  induction l as [|q l IH]; intros Hn HP; [done|]. simpl in *.
  apply NoDup_cons in Hn as [Hq Hn]. destruct (Z.eqb_spec (q_lock_id q) qid) as [E|E].
  - rewrite HP by (by left || done). destruct (P q); simpl.
    + by rewrite E, Z.eqb_refl.
    + apply IH; [done|]. intros. apply HP; [by right|done].
  - destruct (P q) eqn:EP; simpl.
    + by destruct (Z.eqb_spec (q_lock_id q) qid).
    + apply IH; [done|]. intros. apply HP; [by right|done].
Qed.

(** Look-ups after a change that keeps name and liveness. *)
Lemma find_upd s qid q f name : wf s -> get_queue s qid = Some q -> keeps_identity f ->
  q_deleted (f q) = q_deleted q -> q_deleted q = false ->
  find_queue (upd_queue s qid f) name
  = if decide (name = q_name q) then Some (f q) else find_queue s name.
Proof.
  intros W G Hf Hd Hl. destruct (get_queue_In _ _ _ G) as [Hin Hid].
  unfold find_queue at 1, upd_queue. simpl. rewrite find_map_upd.
  - change (find _ (st_queues s)) with (find_queue s name). case_decide as Hname.
    + rewrite Hname, (wf_find s q) by done. simpl. by rewrite Hid, Z.eqb_refl.
    + destruct (find_queue s name) as [q'|] eqn:E; [|done]. simpl. f_equal.
      destruct (Z.eqb_spec (q_lock_id q') qid) as [E'|]; [|done].
      pose proof (find_get _ _ _ W E) as G'. rewrite E', G in G'.
      apply find_queue_In in E as (_ & _ & E). congruence.
  - apply W.
  - intros q0 Hq0 E0. pose proof (wf_get s q0 W Hq0) as G0. rewrite E0, G in G0.
    injection G0 as <-. by rewrite Hd, (proj2 (Hf q)).
Qed.

Lemma get_upd s qid q f qid' : wf s -> get_queue s qid = Some q -> keeps_identity f ->
  get_queue (upd_queue s qid f) qid'
  = if decide (qid' = qid) then Some (f q) else get_queue s qid'.
Proof.
  intros W G Hf. destruct (get_queue_In _ _ _ G) as [Hin Hid].
  unfold get_queue at 1, upd_queue. simpl. rewrite find_map_upd.
  - change (find _ (st_queues s)) with (get_queue s qid'). case_decide as Hq.
    + rewrite Hq, G. simpl. by rewrite Hid, Z.eqb_refl.
    + destruct (get_queue s qid') as [q'|] eqn:E; [|done]. simpl. f_equal.
      apply get_queue_In in E as [_ E]. by destruct (Z.eqb_spec (q_lock_id q') qid); [congruence|].
  - apply W.
  - intros q0 _ _. by rewrite (proj1 (Hf q0)).
Qed.

(** The same for a change that keeps the whole configuration. *)
Lemma upd_config_wf s qid f : keeps_config f -> wf s -> wf (upd_queue s qid f).
Proof. intros. apply upd_queue_wf; auto with store. Qed.

Lemma find_upd_config s qid q f name : wf s -> get_queue s qid = Some q -> keeps_config f ->
  q_deleted q = false ->
  find_queue (upd_queue s qid f) name
  = if decide (name = q_name q) then Some (f q) else find_queue s name.
Proof. intros. apply find_upd; auto with store. Qed.

Lemma get_upd_config s qid q f qid' : wf s -> get_queue s qid = Some q -> keeps_config f ->
  get_queue (upd_queue s qid f) qid'
  = if decide (qid' = qid) then Some (f q) else get_queue s qid'.
Proof. intros. apply get_upd; auto with store. Qed.

(** ** Creation *)

Lemma create_queue_some s name durable max dlq maxd : st_allocs s = [] ->
  create_queue s name durable max dlq maxd =
  (Some (st_next_lock_id s + 1),
   {| s with st_queues := new_queue (st_next_lock_id s + 1) (st_next_incarnation s + 1)
                            name durable max dlq maxd :: st_queues s;
             st_next_incarnation := st_next_incarnation s + 1;
             st_next_lock_id := st_next_lock_id s + 1 |}).
Proof. intros H. unfold create_queue, alloc. rewrite H. destruct s; simpl in *; by subst. Qed.

Lemma create_wf s q : wf s -> q_lock_id q = st_next_lock_id s + 1 ->
  find_queue s (q_name q) = None -> q_deleted q = false ->
  forall s', st_queues s' = q :: st_queues s -> st_next_lock_id s' = st_next_lock_id s + 1 ->
  wf s'.
Proof.
  intros [H1 H2 H3] Hid Hf Hd s' E1 E2. unfold lock_ids, live_queues in *.
  constructor; unfold lock_ids, live_queues; rewrite E1, ?E2, ?Hid; csimpl.
  - rewrite Hid. apply NoDup_cons. split; [|done]. intros Hin.
    rewrite Forall_forall in H2. specialize (H2 _ Hin). lia.
  - rewrite Hid. constructor; [lia|]. eapply Forall_impl; [exact H2|]. simpl. lia.
  - rewrite filter_cons, decide_True by done. csimpl. apply NoDup_cons. split; [|done].
    intros (q' & Hn & Hq'%list_elem_of_filter)%list_elem_of_fmap.
    unfold find_queue in Hf. eapply find_none in Hf; [|apply list_elem_of_In; apply Hq'].
    simpl in Hf. unfold name_eqb in Hf. rewrite (proj1 Hq'), bool_decide_eq_true_2 in Hf; done.
Qed.

Lemma find_create s q name s' : st_queues s' = q :: st_queues s -> q_deleted q = false ->
  find_queue s' name = if decide (name = q_name q) then Some q else find_queue s name.
Proof.
  intros E Hd. unfold find_queue. rewrite E. simpl. rewrite Hd. unfold name_eqb. simpl.
  case_decide; [by rewrite bool_decide_eq_true_2|by rewrite bool_decide_eq_false_2].
Qed.

Lemma get_create s q qid s' : st_queues s' = q :: st_queues s ->
  get_queue s' qid = if decide (qid = q_lock_id q) then Some q else get_queue s qid.
Proof.
  intros E. unfold get_queue. rewrite E. simpl. case_decide; subst.
  - by rewrite Z.eqb_refl.
  - by destruct (Z.eqb_spec (q_lock_id q) qid).
Qed.

(** ** Deletion *)

Lemma tombstone_identity : keeps_identity tombstone.
Proof.
  intros q. pose proof (purge_config q) as H. unfold config in H. simplify_eq.
  unfold tombstone. simpl. auto.
Qed.

Lemma find_tombstone s qid q name : wf s -> get_queue s qid = Some q -> q_deleted q = false ->
  find_queue (upd_queue s qid tombstone) name
  = if decide (name = q_name q) then None else find_queue s name.
Proof.
  intros W G Hd. destruct (get_queue_In _ _ _ G) as [Hin Hid].
  assert (forall q', q' ∈ st_queues s -> q_deleted q' = false ->
    q_lock_id q' = qid \/ q_name q' = q_name q -> q' = q) as U.
  { intros q' Hq' Hd' [E|E].
    - pose proof (wf_get s q' W Hq') as G'. rewrite E, G in G'. congruence.
    - pose proof (wf_find s q' W Hq' Hd') as F. rewrite E, (wf_find s q W Hin Hd) in F. congruence. }
  assert (E : find_queue (upd_queue s qid tombstone) name =
    find (fun q' => negb (q_deleted q') && negb (q_lock_id q' =? qid) && name_eqb (q_name q') name)
      (st_queues s)).
  { unfold find_queue, upd_queue. simpl. clear Hin U G W. induction (st_queues s) as [|x l IH]; [done|].
    simpl. destruct (Z.eqb_spec (q_lock_id x) qid); simpl; [by rewrite andb_false_r|].
    rewrite andb_true_r. by destruct (negb (q_deleted x) && name_eqb (q_name x) name). }
  rewrite E. case_decide as Hname.
  - destruct (find _ _) as [q'|] eqn:F; [|done]. apply find_some in F as [Hq' F].
    rewrite <- list_elem_of_In in Hq'. reflect_tests. unfold name_eqb in *. case_bool_decide; [|done].
    assert (q' = q) by (apply U; auto; right; congruence). subst. done.
  - unfold find_queue. assert (N : forall q', q' ∈ st_queues s ->
      (negb (q_deleted q') && negb (q_lock_id q' =? qid) && name_eqb (q_name q') name)
      = (negb (q_deleted q') && name_eqb (q_name q') name)).
    { intros q' Hq'. destruct (q_deleted q') eqn:Hd'; [done|]. simpl.
      destruct (Z.eqb_spec (q_lock_id q') qid) as [E'|]; [|done]. simpl.
      rewrite (U q' Hq' Hd' (or_introl E')). unfold name_eqb. by rewrite bool_decide_eq_false_2. }
    clear - N. induction (st_queues s) as [|x l IH]; [done|]. simpl.
    rewrite N by (by left). rewrite IH; [done|]. intros. apply N. by right.
Qed.

Lemma tombstone_wf s qid : wf s -> wf (upd_queue s qid tombstone).
Proof.
  intros [H1 H2 H3]. constructor; rewrite ?upd_queue_lock_ids by apply tombstone_identity; try done.
  unfold live_queues, upd_queue in *. simpl.
  eapply sublist_NoDup; [exact H3|]. clear. induction (st_queues s) as [|x l IH]; simpl; [done|].
  rewrite !filter_cons. destruct (q_lock_id x =? qid).
  - rewrite decide_False by done. case_decide; csimpl; [by apply sublist_cons|done].
  - case_decide; csimpl; [by apply sublist_skip|done].
Qed.

(** An exhausted list of outcomes: every allocation succeeds. *)
Lemma alloc_nil s : st_allocs s = [] -> alloc s = (true, s).
Proof. intros H. unfold alloc. rewrite H. simpl. destruct s; simpl in *; by subst. Qed.

End Store.
