(* ===== verification/QueueReplay.v ===== *)
(** * Replay of the queue WAL (queue.c: apply_*, replay_log)

    The replay side of every record, the dispatch of replay_log on the bytes
    of the file, and what happens at the first byte that is no record.  The
    durable job state lives behind the hooks of struct QueueJobReplayHooks,
    here a record of functions on an engine state. *)

From stdpp Require Import base numbers option list.
From S2P Require Import Prelude Queue WalRecord QueueStore.
Import Queue Wal Store.

Module Replay.

Definition EXCHANGE_NAME_MAX := 255.
Definition ROUTING_KEY_MAX := 255.
Definition EXCHANGE_BINDINGS_MAX := 1024.
Definition EXCHANGE_TOPIC := 2.
Definition JOB_KIND_COMPLETION := 1.
Definition JOB_KIND_STATE_PUT := 2.
Definition JOB_KIND_STATE_DELETE := 3.

Definition slice (off len : Z) (p : bytes) : bytes :=
  take (Z.to_nat len) (drop (Z.to_nat off) p).
Definition at16 (p : bytes) (off : Z) : Z := get16 (drop (Z.to_nat off) p).
Definition at32 (p : bytes) (off : Z) : Z := get32 (drop (Z.to_nat off) p).
Definition at64 (p : bytes) (off : Z) : Z := get64 (drop (Z.to_nat off) p).

(** [id >= next_id] advances the allocator past a replayed identity. *)
Definition bump_id (s : store) (id : Z) : store :=
  if st_next_id s <=? id then {| s with st_next_id := u64 (id + 1) |} else s.

(** ** Queues and messages *)

(** The declare payload: [None] when malformed, else the policy. *)
Definition parse_declare_ext (ext : bytes) : option (bytes * Z) :=
  if zlen ext =? 0 then Some ([], 0)
  else if (zlen ext <? 6) || (6 + QUEUE_NAME_MAX <? zlen ext) then None
  else
    let dlq_len := at16 ext 0 in
    if (dlq_len =? 0) || negb (zlen ext =? 6 + dlq_len) then None
    else Some (slice 2 dlq_len ext, at32 ext (2 + dlq_len)).

Definition apply_declare (s : store) (name : bytes) (durable : bool) (max_depth : Z)
    (ext : bytes) : option store :=
  match parse_declare_ext ext with
  | None => None
  | Some (dlq_name, max_deliveries) =>
      match find_queue s name with
      | Some q =>
          if Bool.eqb (q_durable q) durable && (zlen (q_dlq_name q) =? zlen dlq_name) &&
             ((zlen dlq_name =? 0) ||
              ((q_max_deliveries q =? max_deliveries) && name_eqb (q_dlq_name q) dlq_name))
          then Some s else None
      | None =>
          if negb (zlen dlq_name =? 0) && name_eqb dlq_name name then None
          else
            match create_queue s name durable max_depth dlq_name max_deliveries with
            | (Some _, s) => Some s
            | (None, _) => None
            end
      end
  end.

Definition find_message (q : queue) (id : Z) : option nat :=
  position (fun m => m_id m =? id) (q_msgs q).

(** Look up the queue, then the message; a missing message is not an error. *)
Definition on_message (s : store) (name : bytes) (id : Z) (f : queue -> nat -> queue)
    : option store :=
  match find_queue s name with
  | None => None
  | Some q =>
      match find_message q id with
      | None => Some s
      | Some i => Some (upd_queue s (q_lock_id q) (fun q => f q i))
      end
  end.

Definition apply_publish (s : store) (name : bytes) (id expires : Z) (data : bytes)
    : option store :=
  match find_queue s name with
  | Some q =>
      if q_durable q then
        match append_message s (q_lock_id q) id expires data with
        | (0, s) => Some (bump_id s id)
        | _ => None
        end
      else None
  | None => None
  end.

Definition apply_ack (s : store) (name : bytes) (id : Z) : option store :=
  on_message s name id remove_message.

Definition apply_delivery (s : store) (name : bytes) (id : Z) : option store :=
  on_message s name id (fun q i =>
    update_msg q i (fun m => {| m with m_deliveries := u32 (m_deliveries m + 1) |})).

Definition apply_requeue (s : store) (name : bytes) (id not_before : Z) : option store :=
  on_message s name id (fun q i =>
    update_msg q i (fun m =>
      {| m with m_state := MESSAGE_READY; m_time := not_before; m_owner := 0; m_tag := 0 |})).

Definition apply_purge (s : store) (name : bytes) : option store :=
  match find_queue s name with
  | None => None
  | Some q => Some (purge_queue s (q_lock_id q))
  end.

Definition apply_delete (s : store) (name : bytes) : option store :=
  match find_queue s name with
  | None => Some s
  | Some q => Some (upd_queue s (q_lock_id q) tombstone)
  end.

(** ** Exchanges *)

Definition find_exchange (s : store) (name : bytes) : option exchange :=
  find (fun x => name_eqb (x_name x) name) (st_exchanges s).

(** Update the first exchange of that name. *)
Fixpoint upd_first (name : bytes) (f : exchange -> exchange) (l : list exchange) : list exchange :=
  match l with
  | [] => []
  | x :: r => if name_eqb (x_name x) name then f x :: r else x :: upd_first name f r
  end.

Definition upd_exchange (s : store) (name : bytes) (f : exchange -> exchange) : store :=
  {| s with st_exchanges := upd_first name f (st_exchanges s) |}.

Definition create_exchange (s : store) (name : bytes) (durable : bool) (type : Z)
    (ae_name : bytes) : bool * store :=
  let '(ok, s) := alloc s in
  if ok then
    (true, {| s with st_exchanges :=
       {| x_name := name; x_type := type; x_durable := durable; x_ae_name := ae_name;
          x_bindings := []; x_binding_count := 0; x_revision := 1;
          x_publish_attempts := 0; x_unroutable := 0 |} :: st_exchanges s |})
  else (false, s).

Definition find_binding (x : exchange) (queue key : bytes) : option binding :=
  find (fun b => name_eqb (b_queue b) queue && name_eqb (b_key b) key) (x_bindings x).

(** Removes the first binding with this target and key. *)
Fixpoint remove_binding (queue key : bytes) (l : list binding) : list binding :=
  match l with
  | [] => []
  | b :: r => if name_eqb (b_queue b) queue && name_eqb (b_key b) key then r
              else b :: remove_binding queue key r
  end.

Definition push_binding (queue key : bytes) (footprint : Z) (x : exchange) : exchange :=
  {| x with x_bindings := {| b_queue := queue; b_key := key; b_footprint := footprint |}
                          :: x_bindings x;
            x_binding_count := x_binding_count x + 1 |}.

(** [add_binding_locked]: the cap, then the allocations. *)
Definition add_binding_locked (s : store) (x : exchange) (queue key : bytes) (footprint : Z)
    : bool * store :=
  if EXCHANGE_BINDINGS_MAX <=? x_binding_count x then (false, s)
  else
    let '(ok, s) := alloc s in
    if ok then (true, upd_exchange s (x_name x) (push_binding queue key footprint))
    else (false, s).

Definition next_revision (revision : Z) (x : exchange) : exchange :=
  {| x with x_revision := if revision =? 0 then u64 (x_revision x + 1) else revision |}.

Definition apply_exdeclare (s : store) (name : bytes) (durable : bool) (revision : Z)
    (payload : bytes) : option store :=
  let plen := zlen payload in
  if (plen <? 1) || (3 + EXCHANGE_NAME_MAX <? plen) then None
  else
    let type := byte_at payload 0 in
    if EXCHANGE_TOPIC <? type then None
    else
      let ae_len := if 3 <=? plen then at16 payload 1 else 0 in
      if negb (((plen =? 1) && (ae_len =? 0)) || ((3 <=? plen) && (plen =? 3 + ae_len))) then None
      else
        let ae_name := slice 3 ae_len payload in
        match find_exchange s name with
        | Some x =>
            if Bool.eqb (x_durable x) durable && (x_type x =? type) &&
               (zlen (x_ae_name x) =? ae_len) &&
               ((ae_len =? 0) || name_eqb (x_ae_name x) ae_name)
            then Some s else None
        | None =>
            match create_exchange s name durable type ae_name with
            | (true, s) =>
                Some (if revision =? 0 then s
                      else upd_exchange s name (fun x => {| x with x_revision := revision |}))
            | (false, _) => None
            end
        end.

Definition apply_exbind (s : store) (name : bytes) (revision : Z) (payload : bytes)
    (remove : bool) : option store :=
  let plen := zlen payload in
  if (plen <? 4) || (4 + QUEUE_NAME_MAX + ROUTING_KEY_MAX <? plen) then None
  else
    let queue_len := at16 payload 0 in
    if (queue_len =? 0) || (QUEUE_NAME_MAX <? queue_len) then None
    else
      let key_off := 2 + queue_len in
      if plen <? key_off + 2 then None
      else
        let key_len := at16 payload key_off in
        if (ROUTING_KEY_MAX <? key_len) || negb (plen =? key_off + 2 + key_len) then None
        else
          match find_exchange s name with
          | None => None
          | Some x =>
              let queue := slice 2 queue_len payload in
              let key := slice (key_off + 2) key_len payload in
              match find_binding x queue key, remove with
              | None, true => Some s
              | Some _, true =>
                  Some (upd_exchange s name (fun x => next_revision revision
                    {| x with x_bindings := remove_binding queue key (x_bindings x);
                              x_binding_count := x_binding_count x - 1 |}))
              | Some _, false => Some s
              | None, false =>
                  match add_binding_locked s x queue key 0 with
                  | (true, s) => Some (upd_exchange s name (next_revision revision))
                  | (false, _) => None
                  end
              end
          end.

Fixpoint remove_first (name : bytes) (l : list exchange) : list exchange :=
  match l with
  | [] => []
  | x :: r => if name_eqb (x_name x) name then r else x :: remove_first name r
  end.

Definition apply_exdelete (s : store) (name : bytes) : option store :=
  Some {| s with st_exchanges := remove_first name (st_exchanges s) |}.

Definition apply_exupdate (s : store) (name : bytes) (revision : Z) (payload : bytes)
    : option store :=
  let plen := zlen payload in
  if (plen <? 2) || (2 + EXCHANGE_NAME_MAX <? plen) then None
  else
    let alternate_len := at16 payload 0 in
    if (alternate_len =? 0) || negb (plen =? 2 + alternate_len) ||
       (EXCHANGE_NAME_MAX <? alternate_len) then None
    else
      let alternate := slice 2 alternate_len payload in
      match find_exchange s name with
      | None => None
      | Some _ =>
          if name_eqb alternate name then None
          else
            let '(ok, s) := alloc s in
            if ok then Some (upd_exchange s name (fun x =>
                         next_revision revision {| x with x_ae_name := alternate |}))
            else None
      end.

(** ** Transactions *)

(** The targets of a TX_PREPARE payload from offset [off]. *)
Fixpoint parse_targets (n : nat) (payload : bytes) (off : Z) : option (list tx_target * Z) :=
  match n with
  | O => Some ([], off)
  | S n =>
      if zlen payload <? off + 2 then None
      else
        let qlen := at16 payload off in
        if (qlen =? 0) || (QUEUE_NAME_MAX <? qlen) || (zlen payload <? off + 10 + qlen) then None
        else
          match parse_targets n payload (off + 10 + qlen) with
          | None => None
          | Some (ts, off') =>
              Some ({| t_name := slice (off + 2) qlen payload; t_queue := None;
                       t_msg_id := at64 payload (off + 2 + qlen) |} :: ts, off')
          end
  end.

Definition apply_tx_prepare (s : store) (name payload : bytes) : option store :=
  let plen := zlen payload in
  if plen <? 22 then None
  else
    let msg_len := at32 payload 8 in
    let count := at16 payload 20 in
    if (count =? 0) || (EXCHANGE_BINDINGS_MAX <? count) || (QUEUE_MESSAGE_MAX <? msg_len) then None
    else
      match parse_targets (Z.to_nat count) payload 22 with
      | None => None
      | Some (targets, off) =>
          if negb (off + msg_len =? plen) then None
          else
            let '(ok, s) := alloc s in
            if ok then
              let s := fold_left (fun s t => bump_id s (t_msg_id t)) targets s in
              Some {| s with st_tx_pending :=
                {| tx_id := at64 payload 0; tx_expires := at64 payload 12; tx_source := name;
                   tx_data := slice off msg_len payload; tx_targets := targets;
                   tx_footprint := 0 |} :: st_tx_pending s |}
            else None
      end.

(** One target of [tx_materialize_locked]: a vanished queue drops its copy,
    and so does a failed allocation. *)
Definition materialize_one (tx : queue_tx) (s : store) (t : tx_target) : store :=
  let qid := match t_queue t with
             | Some qid => Some qid
             | None => q_lock_id <$> find_queue s (t_name t)
             end in
  match qid with
  | Some qid => snd (append_message s qid (t_msg_id t) (tx_expires tx) (tx_data tx))
  | None => s
  end.

Definition tx_materialize_locked (s : store) (tx : queue_tx) : store :=
  fold_left (materialize_one tx) (tx_targets tx) s.

(** Unlinks the first pending transaction with this id. *)
Fixpoint take_tx (id : Z) (l : list queue_tx) : option (queue_tx * list queue_tx) :=
  match l with
  | [] => None
  | t :: r => if tx_id t =? id then Some (t, r)
              else match take_tx id r with
                   | Some (u, r') => Some (u, t :: r')
                   | None => None
                   end
  end.

Definition apply_tx_commit (s : store) (payload : bytes) : option store :=
  if negb (zlen payload =? 8) then None
  else
    match take_tx (get64 payload) (st_tx_pending s) with
    | Some (tx, pending) =>
        Some (tx_materialize_locked {| s with st_tx_pending := pending |} tx)
    | None => Some s
    end.

(** ** Consumers *)

Definition find_consumer (s : store) (name : bytes) : option consumer :=
  find (fun c => name_eqb (c_name c) name) (st_consumers s).

Fixpoint remove_consumer (name : bytes) (l : list consumer) : list consumer :=
  match l with
  | [] => []
  | c :: r => if name_eqb (c_name c) name then r else c :: remove_consumer name r
  end.

Definition apply_consumer (s : store) (name : bytes) (id : Z) : option store :=
  let bump s := if st_next_owner s <=? id then {| s with st_next_owner := u64 (id + 1) |} else s in
  match find_consumer s name with
  | Some _ => Some (bump s)
  | None =>
      let '(ok, s) := alloc s in
      if ok then
        Some (bump {| s with st_consumers :=
          {| c_name := name; c_owner := id |} :: st_consumers s |})
      else None
  end.

Definition apply_consumer_del (s : store) (name : bytes) : option store :=
  Some {| s with st_consumers := remove_consumer name (st_consumers s) |}.

(** ** Job feature records *)

(** A durable-state mutation as LOG_JOB_STATE carries it. *)
Record state_mutation := StateMutation {
  sm_kind : Z;
  sm_op_id : bytes;
  sm_version : Z;
  sm_commit : Z;
  sm_expected : Z;
  sm_key : bytes;
  sm_value : bytes;
  sm_completed : Z;
  sm_expires : Z }.

Record completion := Completion {
  cp_op_id : bytes;
  cp_commit : Z;
  cp_version : Z;
  cp_expected : Z;
  cp_key : bytes;
  cp_value : bytes;
  cp_in_name : bytes;
  cp_in_incarnation : Z;
  cp_in_msg_id : Z;
  cp_out : option (bytes * Z * Z * bytes);   (* name, incarnation, msg id, payload *)
  cp_completed : Z;
  cp_expires : Z }.

Record receipt_record := ReceiptRecord {
  rr_kind : Z;
  rr_op_id : bytes;
  rr_digest : bytes;
  rr_commit : Z;
  rr_version : Z;
  rr_in_name : bytes;
  rr_in_msg_id : Z;
  rr_out_name : bytes;
  rr_out_msg_id : Z;
  rr_completed : Z;
  rr_expires : Z }.

Record job_meta := JobMeta {
  jm_store_id : bytes;
  jm_next_msg_id : Z;
  jm_next_incarnation : Z;
  jm_version_hwm : Z;
  jm_commit_hwm : Z }.

(** The hooks of struct QueueJobReplayHooks that replay calls; [None] is a
    negative return. *)
Record job_hooks (E : Type) := JobHooks {
  state_apply : E -> state_mutation -> option E;
  completion_apply : E -> completion -> option E;
  receipt_apply : E -> receipt_record -> option E;
  meta_apply : E -> job_meta -> option E }.
#[global] Arguments state_apply {E}.
#[global] Arguments completion_apply {E}.
#[global] Arguments receipt_apply {E}.
#[global] Arguments meta_apply {E}.

Definition job_parse_state (d : bytes) (version commit : Z) : option state_mutation :=
  let len := zlen d in
  if len <? 48 then None
  else
    let kind := byte_at d 1 in
    if negb ((kind =? JOB_KIND_STATE_PUT) || (kind =? JOB_KIND_STATE_DELETE)) then None
    else
      let key_len := at16 d 26 in
      if len <? 28 + key_len + 4 then None
      else
        let value_len := at32 d (28 + key_len) in
        if negb (32 + key_len + value_len + 16 =? len) then None
        else if (kind =? JOB_KIND_STATE_DELETE) && negb (value_len =? 0) then None
        else Some
          {| sm_kind := kind; sm_op_id := slice 2 16 d; sm_version := version;
             sm_commit := commit; sm_expected := at64 d 18; sm_key := slice 28 key_len d;
             sm_value := slice (32 + key_len) value_len d;
             sm_completed := at64 d (32 + key_len + value_len);
             sm_expires := at64 d (40 + key_len + value_len) |}.

Definition job_parse_receipt (d : bytes) (id aux : Z) : option receipt_record :=
  let len := zlen d in
  if len <? 87 then None
  else
    let kind := byte_at d 1 in
    if negb ((kind =? JOB_KIND_COMPLETION) || (kind =? JOB_KIND_STATE_PUT) ||
             (kind =? JOB_KIND_STATE_DELETE)) then None
    else
      let oql := at16 d 51 in
      if len <? 53 + oql + 8 + 2 then None
      else
        let iql := at16 d (61 + oql) in
        if negb (87 + oql + iql =? len) then None
        else Some
          {| rr_kind := kind; rr_op_id := slice 2 16 d; rr_digest := slice 18 32 d;
             rr_commit := id; rr_version := aux; rr_in_name := slice (63 + oql) iql d;
             rr_in_msg_id := at64 d (63 + oql + iql); rr_out_name := slice 53 oql d;
             rr_out_msg_id := at64 d (53 + oql);
             rr_completed := at64 d (71 + oql + iql); rr_expires := at64 d (79 + oql + iql) |}.

Definition job_parse_completion (name : bytes) (id aux : Z) (d : bytes) : option completion :=
  let len := zlen d in
  if len <? 78 then None
  else
    let out_present := negb (byte_at d 25 =? 0) in
    let oql := at16 d 26 in
    if QUEUE_NAME_MAX <? oql then None
    else if negb out_present && negb (oql =? 0) then None
    else if len <? 28 + oql + 8 + 8 + 4 then None
    else
      let ovl := at32 d (44 + oql) in
      if len <? 48 + oql + ovl + 8 + 2 then None
      else
        let kl := at16 d (56 + oql + ovl) in
        let vl := at32 d (66 + oql + ovl + kl) in
        if negb (70 + oql + ovl + kl + vl + 16 =? len) then None
        else Some
          {| cp_op_id := slice 1 16 d; cp_commit := aux;
             cp_version := at64 d (48 + oql + ovl);
             cp_expected := at64 d (58 + oql + ovl + kl);
             cp_key := slice (58 + oql + ovl) kl d;
             cp_value := slice (70 + oql + ovl + kl) vl d;
             cp_in_name := name; cp_in_incarnation := at64 d 17; cp_in_msg_id := id;
             cp_out := if out_present
                       then Some (slice 28 oql d, at64 d (28 + oql), at64 d (36 + oql),
                                  slice (48 + oql) ovl d)
                       else None;
             cp_completed := at64 d (70 + oql + ovl + kl + vl);
             cp_expires := at64 d (78 + oql + ovl + kl + vl) |}.

Inductive open_error :=
  | QUEUE_OPEN_FAILED
  | QUEUE_OPEN_JOB_DISABLED
  | QUEUE_OPEN_JOB_FORMAT
  | QUEUE_OPEN_TRAILING_RECORDS.

(** The queue effects of a completion: the output appears, the allocator
    passes both identities, the input leaves. *)
Definition completion_output (s : store) (c : completion) : option store :=
  match cp_out c with
  | None => Some s
  | Some (out_name, _, out_id, out_data) =>
      match find_queue s out_name with
      | Some q =>
          if q_durable q then
            match append_message s (q_lock_id q) out_id 0 out_data with
            | (0, s) => Some s
            | _ => None
            end
          else Some s
      | None => Some s
      end
  end.

Definition completion_effects (s : store) (c : completion) : option store :=
  match completion_output s c with
  | None => None
  | Some s =>
      let s := bump_id s (cp_in_msg_id c) in
      let s := match cp_out c with Some (_, _, out_id, _) => bump_id s out_id | None => s end in
      match find_queue s (cp_in_name c) with
      | None => Some s
      | Some q =>
          match find_message q (cp_in_msg_id c) with
          | None => Some s
          | Some i => Some (upd_queue s (q_lock_id q) (fun q => remove_message q i))
          end
      end
  end.

Section Jobs.
Context {E : Type} (h : job_hooks E).

(** [inl] is the refusal and its error. *)
Definition apply_job_record (s : store) (e : E) (r : record) : open_error + store * E :=
  let d := r_data r in
  if r_op r =? LOG_JOB_META then
    if negb (zlen d =? 1 + 16 + 8 * 4) then inl QUEUE_OPEN_JOB_FORMAT
    else
      let s := if st_next_id s <? at64 d 17 then {| s with st_next_id := at64 d 17 |} else s in
      let s := if st_next_incarnation s <? at64 d 25
               then {| s with st_next_incarnation := at64 d 25 |} else s in
      match meta_apply h e {| jm_store_id := slice 1 16 d; jm_next_msg_id := at64 d 17;
                              jm_next_incarnation := at64 d 25; jm_version_hwm := at64 d 33;
                              jm_commit_hwm := at64 d 41 |} with
      | None => inl QUEUE_OPEN_FAILED
      | Some e => inr (s, e)
      end
  else if r_op r =? LOG_QUEUE_META then
    if negb (zlen d =? 0) || (r_id r =? 0) then inl QUEUE_OPEN_JOB_FORMAT
    else
      match find_queue s (r_name r) with
      | None => inr (s, e)
      | Some q =>
          let s := upd_queue s (q_lock_id q) (fun q => {| q with q_incarnation := r_id r |}) in
          inr (if st_next_incarnation s <? r_id r
               then {| s with st_next_incarnation := r_id r |} else s, e)
      end
  else if r_op r =? LOG_JOB_STATE then
    match job_parse_state d (r_id r) (r_aux r) with
    | None => inl QUEUE_OPEN_JOB_FORMAT
    | Some m =>
        match state_apply h e m with
        | None => inl QUEUE_OPEN_FAILED
        | Some e => inr (s, e)
        end
    end
  else if r_op r =? LOG_JOB_RECEIPT then
    match job_parse_receipt d (r_id r) (r_aux r) with
    | None => inl QUEUE_OPEN_JOB_FORMAT
    | Some m =>
        match receipt_apply h e m with
        | None => inl QUEUE_OPEN_FAILED
        | Some e => inr (s, e)
        end
    end
  else
    match job_parse_completion (r_name r) (r_id r) (r_aux r) d with
    | None => inl QUEUE_OPEN_JOB_FORMAT
    | Some c =>
        match completion_apply h e c with
        | None => inl QUEUE_OPEN_FAILED
        | Some e =>
            match completion_effects s c with
            | None => inl QUEUE_OPEN_FAILED
            | Some s => inr (s, e)
            end
        end
    end.

(** The dispatch of replay_log for the records of the queue engine itself;
    [None] is a negative result, which goes to the [corrupt] label. *)
Definition apply_queue_record (s : store) (r : record) : option store :=
  let name := r_name r in let id := r_id r in let aux := r_aux r in let data := r_data r in
  if r_op r =? LOG_DECLARE then apply_declare s name (r_durable r) aux data
  else if r_op r =? LOG_PUBLISH then apply_publish s name id aux data
  else if r_op r =? LOG_ACK then apply_ack s name id
  else if r_op r =? LOG_DELIVER then apply_delivery s name id
  else if r_op r =? LOG_REQUEUE then apply_requeue s name id aux
  else if r_op r =? LOG_PURGE then apply_purge s name
  else if r_op r =? LOG_DELETE then apply_delete s name
  else if r_op r =? LOG_EXDECLARE then apply_exdeclare s name (r_durable r) aux data
  else if r_op r =? LOG_EXBIND then apply_exbind s name aux data false
  else if r_op r =? LOG_EXUNBIND then apply_exbind s name aux data true
  else if r_op r =? LOG_EXDELETE then apply_exdelete s name
  else if r_op r =? LOG_EXUPDATE then apply_exupdate s name aux data
  else if r_op r =? LOG_TX_PREPARE then apply_tx_prepare s name data
  else if r_op r =? LOG_CONSUMER then apply_consumer s name id
  else if r_op r =? LOG_CONSUMER_DEL then apply_consumer_del s name
  else apply_tx_commit s data.

Inductive replay_result :=
  | Replayed (s : store) (e : E) (good : Z)   (** opened; the file is cut at [good] *)
  | Refused (err : open_error)
  | OutOfFuel.

(** The [corrupt] label: the bytes from the failed record on. *)
Definition at_corrupt (s : store) (e : E) (good : Z) (tail : bytes) : replay_result :=
  let '(ok, s) := alloc s in
  match tail_holds_record ok tail with
  | None => Refused QUEUE_OPEN_FAILED
  | Some true => Refused QUEUE_OPEN_TRAILING_RECORDS
  | Some false => Replayed s e good
  end.

(** [replay_log].  Each round consumes at least 28 bytes, so the number of
    bytes is enough fuel. *)
Fixpoint replay_log (fuel : nat) (s : store) (e : E) (good : Z) (p : bytes) : replay_result :=
  match fuel with
  | O => OutOfFuel
  | S fuel =>
      let '(ok, s1) := alloc s in
      match read_record ok (st_job_enabled s) p with
      | REof => Replayed s e good
      | RCorrupt => at_corrupt s1 e good p
      | RJobDisabled => Refused QUEUE_OPEN_JOB_DISABLED
      | RJobFormat => Refused QUEUE_OPEN_JOB_FORMAT
      | RRecord r rest =>
          let good' := good + (zlen p - zlen rest) in
          let s := if zlen (r_data r) =? 0 then s else s1 in
          if job_record (r_op r) then
            match apply_job_record s e r with
            | inl err => Refused err
            | inr (s, e) => replay_log fuel s e good' rest
            end
          else
            match apply_queue_record s r with
            | None => at_corrupt s e good p
            | Some s => replay_log fuel s e good' rest
            end
      end
  end.

(** [queue_store_open_ex] on a file that holds [p]. *)
Definition queue_store_open (job_enabled : bool) (e : E) (allocs : list bool) (p : bytes)
    : replay_result :=
  replay_log (S (length p)) (empty_store job_enabled true allocs [] []) e 0 p.

End Jobs.

End Replay.
