(* ===== verification/Exchange.v ===== *)
(** * Exchanges (queue.c: exchange_*, route resolution, publish fan-out)

    Declaration, binding and deletion of exchanges, the resolution of a
    routing key to queues, and the publication of one message to all of them.
    A [Queue *] is the queue's [lock_id], as in QueueStore.v.

    Then, in [XChange]: changes of the exchanges. *)

From stdpp Require Import base numbers option list.
From S2P Require Import Prelude Topic Queue QueueIndex WalRecord QueueStore QueueReplay.
Import Topic Queue Wal Store Replay.

Module Exchanges.

Definition EXCHANGE_DIRECT := 0.
Definition EXCHANGE_FANOUT := 1.

Definition exchange_payload_valid (name key : bytes) : bool :=
  (1 <=? zlen name) && (zlen name <=? EXCHANGE_NAME_MAX) && (zlen key <=? ROUTING_KEY_MAX).

(** The EXDECLARE payload [type, ae_len, ae]. *)
Definition exdeclare_payload (type : Z) (ae_name : bytes) : bytes :=
  if zlen ae_name =? 0 then [u8 type] else u8 type :: put16 (zlen ae_name) ++ ae_name.

(** An absent [ae_name] is the empty list. *)
Definition exchange_declare (s : store) (name : bytes) (durable : bool) (type : Z)
    (ae_name : bytes) : Z * store :=
  if negb (exchange_payload_valid name []) || (EXCHANGE_TOPIC <? type) then (-1, s)
  else if negb (zlen ae_name =? 0) &&
          ((EXCHANGE_NAME_MAX <? zlen ae_name) || name_eqb ae_name name) then (-1, s)
  else
    match find_exchange s name with
    | Some x =>
        (if Bool.eqb (x_durable x) durable && (x_type x =? type) &&
            (zlen (x_ae_name x) =? zlen ae_name) &&
            ((zlen ae_name =? 0) || name_eqb (x_ae_name x) ae_name)
         then 0 else -1, s)
    | None =>
        let '(rc, s) := append_record s LOG_EXDECLARE durable name 0 1
                          (exdeclare_payload type ae_name) true in
        if rc <? 0 then (-1, s)
        else
          let '(ok, s) := create_exchange s name durable type ae_name in
          (if ok then 0 else -1, s)
    end.

(** The EXBIND and EXUNBIND payload. *)
Definition binding_payload (queue key : bytes) : bytes :=
  put16 (zlen queue) ++ queue ++ put16 (zlen key) ++ key.

Definition exchange_bind (s : store) (ex_name queue key : bytes) : Z * store :=
  if negb (exchange_payload_valid ex_name key) || (zlen queue =? 0) ||
     (QUEUE_NAME_MAX <? zlen queue) then (-1, s)
  else
    match find_exchange s ex_name, find_queue s queue with
    | Some x, Some _ =>
        match find_binding x queue key with
        | Some _ => (0, s)
        | None =>
            if (x_type x =? EXCHANGE_TOPIC) &&
               (TOPIC_WORDS_MAX <? Z.of_nat (topic_word_count key)) then (-1, s)
            else
              let new_revision := u64 (x_revision x + 1) in
              let '(rc, s) := append_record s LOG_EXBIND (x_durable x) (x_name x) 0 new_revision
                                (binding_payload queue key) true in
              if rc <? 0 then (-1, s)
              else
                let '(ok, s) := add_binding_locked s x queue key 0 in
                if ok then
                  (0, upd_exchange s ex_name (fun x => {| x with x_revision := new_revision |}))
                else (-1, s)
        end
    | _, _ => (-1, s)
    end.

(** [expected] is present for the conditional variant. *)
Definition exchange_unbind_checked (s : store) (ex_name queue key : bytes) (expected : option Z)
    : Z * store :=
  if negb (exchange_payload_valid ex_name key) || (zlen queue =? 0) ||
     (QUEUE_NAME_MAX <? zlen queue) then (-1, s)
  else
    match find_exchange s ex_name with
    | None => (0, s)
    | Some x =>
        if match expected with Some r => negb (x_revision x =? r) | None => false end then (2, s)
        else
          match find_binding x queue key with
          | None => (0, s)
          | Some _ =>
              let new_revision := u64 (x_revision x + 1) in
              let '(rc, s) := append_record s LOG_EXUNBIND (x_durable x) (x_name x) 0 new_revision
                                (binding_payload queue key) true in
              if rc <? 0 then (-1, s)
              else
                (1, upd_exchange s ex_name (fun x =>
                      {| x with x_bindings := remove_binding queue key (x_bindings x);
                                x_binding_count := x_binding_count x - 1;
                                x_revision := new_revision |}))
          end
    end.

Definition exchange_unbind (s : store) (ex_name queue key : bytes) : Z * store :=
  exchange_unbind_checked s ex_name queue key None.
Definition exchange_unbind_if_revision (s : store) (ex_name queue key : bytes) (expected : Z)
    : Z * store := exchange_unbind_checked s ex_name queue key (Some expected).

Definition exchange_revision (s : store) (name : bytes) : option Z :=
  if zlen name =? 0 then None else x_revision <$> find_exchange s name.

(** Does another exchange name this one as its alternate?  Exchanges are
    told apart by their names, which are unique. *)
Definition is_alternate (s : store) (name : bytes) : bool :=
  existsb (fun c => negb (name_eqb (x_name c) name) && name_eqb (x_ae_name c) name)
    (st_exchanges s).

Definition exchange_delete_if_revision (s : store) (name : bytes) (expected : Z) : Z * store :=
  if negb (exchange_payload_valid name []) then (-1, s)
  else
    match find_exchange s name with
    | None => (0, s)
    | Some x =>
        if negb (x_revision x =? expected) then (2, s)
        else if negb (x_binding_count x =? 0) then (3, s)
        else if is_alternate s name then (4, s)
        else
          let '(rc, s) := append_record s LOG_EXDELETE (x_durable x) (x_name x) 0 0 [] true in
          if rc <? 0 then (-1, s)
          else (1, {| s with st_exchanges := remove_first name (st_exchanges s) |})
    end.

Definition exchange_set_alternate_if_revision (s : store) (name alternate : bytes) (expected : Z)
    : Z * store :=
  if negb (exchange_payload_valid name []) || (zlen alternate =? 0) ||
     (EXCHANGE_NAME_MAX <? zlen alternate) || name_eqb alternate name then (-1, s)
  else
    match find_exchange s name with
    | None => (0, s)
    | Some x =>
        if negb (x_revision x =? expected) then (2, s)
        else if name_eqb (x_ae_name x) alternate then (1, s)
        else
          let new_revision := u64 (x_revision x + 1) in
          let '(ok, s) := alloc s in
          if negb ok then (-1, s)
          else
            let '(rc, s) := append_record s LOG_EXUPDATE (x_durable x) (x_name x) 0 new_revision
                              (put16 (zlen alternate) ++ alternate) true in
            if rc <? 0 then (-1, s)
            else (1, upd_exchange s name (fun x =>
                       {| x with x_ae_name := alternate; x_revision := new_revision |}))
    end.

(** ** Routing *)

(** Does this binding of an exchange of type [type] take the key? *)
Definition binding_takes (type : Z) (key : bytes) (b : binding) : bool :=
  if type =? EXCHANGE_DIRECT then name_eqb (b_key b) key
  else if type =? EXCHANGE_TOPIC then topic_matches (b_key b) key
  else true.

(** The loop over the bindings; [targets] is the array filled so far. *)
Fixpoint collect_targets (s : store) (type : Z) (key : bytes) (max : nat) (bs : list binding)
    (targets : list Z) : list Z :=
  match bs with
  | [] => targets
  | b :: bs =>
      if binding_takes type key b then
        match find_queue s (b_queue b) with
        | None => collect_targets s type key max bs targets
        | Some q =>
            if existsb (Z.eqb (q_lock_id q)) targets || negb (length targets <? max)%nat
            then collect_targets s type key max bs targets
            else collect_targets s type key max bs (targets ++ [q_lock_id q])
        end
      else collect_targets s type key max bs targets
  end.

(** One exchange without its alternate: [None] when it does not exist. *)
Definition resolve_one (s : store) (ex_name key : bytes) (max : nat)
    : option (exchange * list Z) :=
  match find_exchange s ex_name with
  | None => None
  | Some x => Some (x, collect_targets s (x_type x) key max (x_bindings x) [])
  end.

(** [exchange_resolve_locked]; the recursion stops at the second level, so it
    is written out.  [None] is the error, [Some []] unroutable. *)
Definition exchange_resolve_locked (s : store) (ex_name key : bytes) (max : nat)
    : option (list Z) :=
  if zlen ex_name =? 0 then
    if zlen key =? 0 then Some []
    else match find_queue s key with
         | None => Some []
         | Some q => Some [q_lock_id q]
         end
  else
    match resolve_one s ex_name key max with
    | None => None
    | Some (x, targets) =>
        match targets with
        | _ :: _ => Some targets
        | [] =>
            if zlen (x_ae_name x) =? 0 then Some []
            else match resolve_one s (x_ae_name x) key max with
                 | None => Some []
                 | Some (_, targets) => Some targets
                 end
        end
    end.

(** ** Publishing *)

(** The insertion of one pointer in lock order. *)
Fixpoint insert_target (t : Z) (l : list Z) : list Z :=
  match l with
  | [] => [t]
  | x :: r => if t <? x then t :: x :: r else x :: insert_target t r
  end.

Definition lock_order (l : list Z) : list Z := foldl (fun acc t => insert_target t acc) [] l.

(** Reap each target and test its capacity; [monos] are the readings. *)
Fixpoint check_targets (s : store) (targets : list Z) (now : Z) (monos : list Z)
    : bool * store :=
  match targets with
  | [] => (true, s)
  | t :: ts =>
      let s := reap_queue_locked s t now (hd 0 monos) false in
      match get_queue s t with
      | None => (false, s)
      | Some q =>
          if negb (q_max_depth q =? 0) && (q_max_depth q <=? q_depth q) then (false, s)
          else check_targets s ts now (tail monos)
      end
  end.

(** One record and one message for each target, in order. *)
Fixpoint publish_targets (s : store) (targets : list Z) (expires : Z) (data : bytes)
    : bool * store :=
  match targets with
  | [] => (true, s)
  | t :: ts =>
      let id := st_next_id s in
      let s := {| s with st_next_id := id + 1 |} in
      match get_queue s t with
      | None => (false, s)
      | Some q =>
          let '(rc, s) := append_log s LOG_PUBLISH q id expires data in
          if rc <? 0 then (false, s)
          else
            let '(rc, s) := append_message s t id expires data in
            if rc <? 0 then (false, s) else publish_targets s ts expires data
      end
  end.

(** The statistics of the addressed exchange. *)
Definition count_attempt (unroutable : bool) (x : exchange) : exchange :=
  {| x with x_publish_attempts := u64 (x_publish_attempts x + 1);
            x_unroutable := if unroutable then u64 (x_unroutable x + 1) else x_unroutable x |}.

(** The status and the number of queues reached. *)
Definition exchange_publish (s : store) (ex_name key data : bytes) (ttl now : Z) (monos : list Z)
    : Z * Z * store :=
  if (EXCHANGE_NAME_MAX <? zlen ex_name) || (ROUTING_KEY_MAX <? zlen key) ||
     (QUEUE_MESSAGE_MAX <? zlen data) then (-1, 0, s)
  else
    match exchange_resolve_locked s ex_name key (Z.to_nat EXCHANGE_BINDINGS_MAX) with
    | None => (-1, 0, s)
    | Some targets =>
        let unroutable := match targets with [] => true | _ => false end in
        let s := if zlen ex_name =? 0 then s
                 else upd_exchange s ex_name (count_attempt unroutable) in
        if unroutable then (0, 0, {| s with st_unroutable := st_unroutable s + 1 |})
        else
          let targets := lock_order targets in
          let '(ok, s) := check_targets {| s with st_held := targets |} targets now monos in
          if negb ok then (-1, 0, {| s with st_held := [] |})
          else
            let expires := if ttl =? 0 then 0 else u64 (now + ttl) in
            let before := st_wal_seq s in
            let '(ok, s) := publish_targets s targets expires data in
            let s := {| s with st_held := [] |} in
            if negb ok then (-1, 0, s)
            else if st_wal_seq s =? before then (0, zlen targets, s)
            else
              let '(rc, s) := wait_durable s (st_wal_seq s) in
              if rc <? 0 then (-1, 0, s) else (0, zlen targets, s)
    end.

End Exchanges.

(** * Changes of the exchanges

    The changes that the exchange operations make, each with its WAL record,
    and what they keep: exchange names stay unique and every exchange well
    formed. *)

Import Queue Wal Store Replay Exchanges.

Module XChange.

(** An exchange as the log knows it: without its counters. *)
Definition xview (x : exchange) : exchange :=
  {| x with x_publish_attempts := 0; x_unroutable := 0 |}.

Record xinv (x : exchange) : Prop := {
  xi_name : name_ok (x_name x);
  xi_revision : 0 < x_revision x < 2 ^ 64;
  xi_count : x_binding_count x = zlen (x_bindings x) }.

Record xs_ok (xs : list exchange) : Prop := {
  xs_names : NoDup (x_name <$> xs);
  xs_inv : Forall xinv xs }.

(** The next revision exists and one more binding fits. *)
Definition xroom (x : exchange) : Prop :=
  x_binding_count x < EXCHANGE_BINDINGS_MAX /\ x_revision x + 1 < 2 ^ 64.

Definition xlogged (x : exchange) (op aux : Z) (payload : bytes) : list record :=
  if x_durable x
  then [{| r_op := op; r_durable := true; r_name := x_name x; r_id := 0; r_aux := aux;
           r_data := payload |}]
  else [].

Definition new_exchange (name : bytes) (durable : bool) (type : Z) (ae_name : bytes) : exchange :=
  {| x_name := name; x_type := type; x_durable := durable; x_ae_name := ae_name;
     x_bindings := []; x_binding_count := 0; x_revision := 1;
     x_publish_attempts := 0; x_unroutable := 0 |}.

Definition bind_to (queue key : bytes) (revision : Z) (x : exchange) : exchange :=
  let x := push_binding queue key 0 x in {| x with x_revision := revision |}.
Definition unbind_from (queue key : bytes) (revision : Z) (x : exchange) : exchange :=
  {| x with x_bindings := remove_binding queue key (x_bindings x);
            x_binding_count := x_binding_count x - 1; x_revision := revision |}.
Definition set_alternate (alternate : bytes) (revision : Z) (x : exchange) : exchange :=
  {| x with x_ae_name := alternate; x_revision := revision |}.

Definition name_valid (n : bytes) : Prop := bytes_ok n /\ zlen n <= EXCHANGE_NAME_MAX.

(** [xchange xs xs' rs]: the exchanges become [xs'] and [rs] is logged. *)
Inductive xchange (xs : list exchange) : list exchange -> list record -> Prop :=
  | xc_count name b : xchange xs (upd_first name (count_attempt b) xs) []
  | xc_declare name durable type ae : name_ok name -> 0 <= type <= EXCHANGE_TOPIC ->
      name_valid ae -> find (fun x => name_eqb (x_name x) name) xs = None ->
      xchange xs (new_exchange name durable type ae :: xs)
        (xlogged (new_exchange name durable type ae) LOG_EXDECLARE 1 (exdeclare_payload type ae))
  | xc_bind name x queue key : find (fun x => name_eqb (x_name x) name) xs = Some x ->
      xroom x -> name_ok queue -> name_valid key -> find_binding x queue key = None ->
      xchange xs (upd_first name (bind_to queue key (x_revision x + 1)) xs)
        (xlogged x LOG_EXBIND (x_revision x + 1) (binding_payload queue key))
  | xc_unbind name x queue key b : find (fun x => name_eqb (x_name x) name) xs = Some x ->
      xroom x -> name_ok queue -> name_valid key -> find_binding x queue key = Some b ->
      xchange xs (upd_first name (unbind_from queue key (x_revision x + 1)) xs)
        (xlogged x LOG_EXUNBIND (x_revision x + 1) (binding_payload queue key))
  | xc_alternate name x ae : find (fun x => name_eqb (x_name x) name) xs = Some x ->
      xroom x -> name_ok ae -> ae <> name ->
      xchange xs (upd_first name (set_alternate ae (x_revision x + 1)) xs)
        (xlogged x LOG_EXUPDATE (x_revision x + 1) (put16 (zlen ae) ++ ae))
  | xc_delete name x : find (fun x => name_eqb (x_name x) name) xs = Some x ->
      xchange xs (remove_first name xs) (xlogged x LOG_EXDELETE 0 []).

(** ** Lists of exchanges *)

Lemma find_name xs name x : find (fun x => name_eqb (x_name x) name) xs = Some x ->
  x ∈ xs /\ x_name x = name.
Proof.
  intros [H E%name_eqb_eq]%find_some. rewrite <- list_elem_of_In in H. auto.
Qed.

Lemma find_name_none xs name : find (fun x => name_eqb (x_name x) name) xs = None ->
  name ∉ x_name <$> xs.
Proof.
  intros H (x & -> & Hx)%list_elem_of_fmap. apply list_elem_of_In in Hx.
  pose proof (find_none _ _ H x Hx) as E. simpl in E.
  by rewrite (proj2 (name_eqb_eq _ _)) in E.
Qed.

Lemma upd_first_names name f xs : (forall x, x_name (f x) = x_name x) ->
  x_name <$> upd_first name f xs = x_name <$> xs.
Proof.
  intros Hf. induction xs as [|x xs IH]; [done|]. simpl.
  destruct (name_eqb (x_name x) name); csimpl; by rewrite ?Hf, ?IH.
Qed.

Lemma upd_first_forall (P : exchange -> Prop) name f xs x :
  find (fun x => name_eqb (x_name x) name) xs = Some x -> Forall P xs -> P (f x) ->
  Forall P (upd_first name f xs).
Proof.
  induction xs as [|y xs IH]; simpl; [done|]. intros H [Hy Hxs]%Forall_cons Hf.
  destruct (name_eqb (x_name y) name); [simplify_eq; by constructor|]. constructor; auto.
Qed.

Lemma upd_first_all (P : exchange -> Prop) name f xs :
  (forall x, P x -> P (f x)) -> Forall P xs -> Forall P (upd_first name f xs).
Proof.
  intros Hf. induction xs as [|y xs IH]; simpl; [done|]. intros [Hy Hxs]%Forall_cons.
  destruct (name_eqb (x_name y) name); constructor; auto.
Qed.

Lemma remove_first_sublist name xs : remove_first name xs `sublist_of` xs.
Proof.
  induction xs as [|x xs IH]; simpl; [done|]. gcase; [by apply sublist_cons|by apply sublist_skip].
Qed.

Lemma upd_first_compose name f g xs : (forall x, x_name (f x) = x_name x) ->
  upd_first name g (upd_first name f xs) = upd_first name (fun x => g (f x)) xs.
Proof.
  intros Hf. induction xs as [|x xs IH]; simpl; [done|].
  destruct (name_eqb (x_name x) name) eqn:E; simpl; rewrite ?Hf, E; by rewrite ?IH.
Qed.

(** A change of one exchange that moves its revision on. *)
Lemma bump_ok name f xs x : (forall x, x_name (f x) = x_name x) ->
  find (fun x => name_eqb (x_name x) name) xs = Some x -> xroom x ->
  x_revision (f x) = x_revision x + 1 ->
  (x_binding_count x = zlen (x_bindings x) -> x_binding_count (f x) = zlen (x_bindings (f x))) ->
  xs_ok xs -> xs_ok (upd_first name f xs).
Proof.
  intros Hf F [_ Hr] Er Hc [Hn Hx]. constructor; [by rewrite upd_first_names|].
  apply (upd_first_forall _ _ _ _ x F); [done|]. apply find_name in F as [Hin _].
  rewrite Forall_forall in Hx. destruct (Hx x Hin). constructor; [by rewrite Hf|lia|auto].
Qed.

Lemma remove_binding_len queue key bs b :
  find (fun b => name_eqb (b_queue b) queue && name_eqb (b_key b) key) bs = Some b ->
  zlen (remove_binding queue key bs) = zlen bs - 1.
Proof.
  induction bs as [|c bs IH]; simpl; [done|]. gcase; intros F; rewrite !zlen_cons; [lia|].
  rewrite IH by done. lia.
Qed.

(** Each change keeps the exchanges well formed. *)
Lemma xchange_ok xs xs' rs : xchange xs xs' rs -> xs_ok xs -> xs_ok xs'.
Proof.
  intros C Hok. destruct C; try (by eapply bump_ok).
  4:{ eapply bump_ok; try done. simpl. intros ->. by erewrite remove_binding_len. }
  3:{ eapply bump_ok; try done. simpl. intros ->. rewrite zlen_cons. lia. }
  all: destruct Hok as [Hn Hf].
  - constructor; [by rewrite upd_first_names|]. apply upd_first_all; [|done].
    intros x []. by constructor.
  - constructor; csimpl; [|constructor; [|done]].
    + apply NoDup_cons. split; [by apply find_name_none|done].
    + constructor; [done|simpl; lia|done].
  - pose proof (remove_first_sublist name xs) as S. constructor.
    + eapply sublist_NoDup; [exact Hn|]. by apply fmap_sublist.
    + rewrite Forall_forall in *. intros y Hy. apply Hf. by eapply elem_of_sublist.
Qed.

End XChange.
