(* ===== verification/QueueTx.v ===== *)
(** * Transactions of the queue store (queue.c: queue_tx_prepare to queue_tx_resolve)

    The queue side of an atomic cache-plus-message operation.  Preparing
    reserves an identity for the message in each target queue and logs the
    message once; committing logs a marker and then links the messages.  A
    transaction the process died in is found again by replay ([st_tx_pending])
    and resolved by the server.

    The allocation of the target array is taken to succeed: when it fails,
    [tx_free] goes through the null array.  The metadata lock is held from a
    successful [queue_tx_prepare] to the end of [queue_tx_commit] or
    [queue_tx_abort], but no queue lock is held while the capacity is tested. *)

From stdpp Require Import base numbers option list.
From S2P Require Import Prelude Queue WalRecord QueueStore QueueReplay Exchange.
Import Queue Wal Store Replay Exchanges.

Module Tx.

(** ** Targets *)

(** The loop over the bindings: a transient target refuses the operation. *)
Fixpoint durable_targets (s : store) (type : Z) (key : bytes) (bs : list binding)
    (targets : list Z) : option (list Z) :=
  match bs with
  | [] => Some targets
  | b :: bs =>
      if binding_takes type key b then
        match find_queue s (b_queue b) with
        | None => durable_targets s type key bs targets
        | Some q =>
            if negb (q_durable q) then None
            else if existsb (Z.eqb (q_lock_id q)) targets ||
                    negb (length targets <? Z.to_nat EXCHANGE_BINDINGS_MAX)%nat
            then durable_targets s type key bs targets
            else durable_targets s type key bs (targets ++ [q_lock_id q])
        end
      else durable_targets s type key bs targets
  end.

(** Without an exchange the key names the one target. *)
Definition find_targets (s : store) (ex_name key : bytes) : option (list Z) :=
  if zlen ex_name =? 0 then
    if (zlen key =? 0) || (QUEUE_NAME_MAX <? zlen key) then None
    else (fun q => [q_lock_id q]) <$> find_queue s key
  else
    match find_exchange s ex_name with
    | None => None
    | Some x => durable_targets s (x_type x) key (x_bindings x) []
    end.

(** The capacity pass, with the metadata lock held; [monos] are the clock
    readings. *)
Fixpoint reserve_capacity (s : store) (targets : list Z) (now : Z) (monos : list Z)
    : bool * store :=
  match targets with
  | [] => (true, s)
  | t :: ts =>
      let s := reap_queue_locked s t now (hd 0 monos) true in
      match get_queue s t with
      | None => (false, s)
      | Some q =>
          if negb (q_max_depth q =? 0) && (q_max_depth q <=? q_depth q) then (false, s)
          else reserve_capacity s ts now (tail monos)
      end
  end.

(** The name of each target is copied and an identity reserved. *)
Fixpoint reserve_targets (s : store) (targets : list Z) : option (list tx_target) * store :=
  match targets with
  | [] => (Some [], s)
  | t :: ts =>
      let '(ok, s) := alloc s in
      match ok, get_queue s t with
      | true, Some q =>
          let id := st_next_id s in
          let '(r, s) := reserve_targets {| s with st_next_id := id + 1 |} ts in
          (cons {| t_name := q_name q; t_queue := Some t; t_msg_id := id |} <$> r, s)
      | _, _ => (None, s)
      end
  end.

(** ** Records *)

Definition target_bytes (t : tx_target) : bytes :=
  put16 (zlen (t_name t)) ++ t_name t ++ put64 (t_msg_id t).

Definition tx_payload (tx : queue_tx) : bytes :=
  put64 (tx_id tx) ++ put32 (zlen (tx_data tx)) ++ put64 (tx_expires tx) ++
  put16 (zlen (tx_targets tx)) ++ concat (target_bytes <$> tx_targets tx) ++ tx_data tx.

Definition log_prepare (s : store) (tx : queue_tx) : Z * store :=
  append_record s LOG_TX_PREPARE true (tx_source tx) 0 0 (tx_payload tx) true.

Definition log_commit (s : store) (tx : queue_tx) : Z * store :=
  append_record s LOG_TX_COMMIT true (tx_source tx) 0 0 (put64 (tx_id tx)) true.

(** ** The operations *)

Inductive prepared :=
  | PrepareFailed
  | PrepareUnroutable
  | Prepared (tx : queue_tx).

(** The part behind the capacity pass.  When the array of targets cannot be
    allocated the code frees the names of a null array; here that is the
    failure path of the other allocations. *)
Definition reserve_tx (s : store) (source data : bytes) (id : Z) (targets : list Z)
    : prepared * store :=
  let '(ok, s) := alloc s in
  if negb ok then (PrepareFailed, s)
  else
    let '(ok1, s) := alloc s in
    let '(ok2, s) := alloc s in
    let '(ok3, s) := alloc s in
    if negb (ok1 && ok2 && ok3) then (PrepareFailed, s)
    else
      match reserve_targets s targets with
      | (None, s) => (PrepareFailed, s)
      | (Some ts, s) =>
          let tx := {| tx_id := id; tx_expires := 0; tx_source := source; tx_data := data;
                       tx_targets := ts; tx_footprint := 0 |} in
          let len := zlen (tx_payload tx) in
          let tx := {| tx with tx_footprint := u32 len |} in
          let s := {| s with st_meta_live := u64 (st_meta_live s + len) |} in
          let '(ok, s) := alloc s in
          if negb ok then (PrepareFailed, s)
          else
            let '(rc, s) := log_prepare s tx in
            if rc <? 0 then (PrepareFailed, s) else (Prepared tx, s)
      end.

Definition queue_tx_prepare (s : store) (ex_name key data : bytes) (id now : Z) (monos : list Z)
    : prepared * store :=
  if (QUEUE_MESSAGE_MAX <? zlen data) || (EXCHANGE_NAME_MAX <? zlen ex_name) ||
     (ROUTING_KEY_MAX <? zlen key) then (PrepareFailed, s)
  else if negb (st_log_open s) || st_failed s then (PrepareFailed, s)
  else
    match find_targets s ex_name key with
    | None => (PrepareFailed, s)
    | Some [] => (PrepareUnroutable, s)
    | Some targets =>
        let '(ok, s) := reserve_capacity s targets now monos in
        if negb ok then (PrepareFailed, s)
        else reserve_tx s (if zlen ex_name =? 0 then key else ex_name) data id targets
    end.

(** The number of queues reached, or an error. *)
Definition queue_tx_commit (s : store) (tx : queue_tx) : option Z * store :=
  let '(rc, s) := log_commit s tx in
  if rc <? 0 then (None, s)
  else (Some (zlen (tx_targets tx)), tx_materialize_locked s tx).

Definition queue_tx_abort (s : store) (tx : queue_tx) : store := s.

Definition queue_tx_id (tx : option queue_tx) : Z :=
  match tx with Some tx => tx_id tx | None => 0 end.

(** No identities when the array cannot be allocated. *)
Definition queue_tx_pending_ids (s : store) : list Z * store :=
  match st_tx_pending s with
  | [] => ([], s)
  | pending =>
      let '(ok, s) := alloc s in
      (if ok then tx_id <$> pending else [], s)
  end.

(** 1 when resolved, 0 when no such transaction is pending, -1 when its
    marker could not be logged; it then stays pending, at the head. *)
Definition queue_tx_resolve (s : store) (id : Z) (committed : bool) : Z * store :=
  match take_tx id (st_tx_pending s) with
  | None => (0, s)
  | Some (tx, pending) =>
      let s := {| s with st_tx_pending := pending |} in
      if committed then
        let '(rc, s) := log_commit s tx in
        if rc <? 0 then (-1, {| s with st_tx_pending := tx :: st_tx_pending s |})
        else (1, tx_materialize_locked s tx)
      else (1, s)
  end.

End Tx.
