(* ===== verification/ExchangeReplay.v ===== *)
(** * Replay of the exchange records

    The records of an exchange change, applied to a store that has the
    durable exchanges of the running one, give it the durable exchanges after
    the change.

    Then, in [TxReplay]: replay of transactions. *)

From stdpp Require Import base numbers option list.
From S2P Require Import Prelude Topic Queue QueueIndex WalRecord QueueStore QueueReplay Exchange QueueTx.
Import Queue Wal Store Replay Exchanges XChange.

Module XReplay.

(** Replaying whole records. *)
Fixpoint replay_records (s : store) (rs : list record) : option store :=
  match rs with
  | [] => Some s
  | r :: rs => match apply_queue_record s r with
               | Some s => replay_records s rs
               | None => None
               end
  end.

Lemma replay_one s r : replay_records s [r] = apply_queue_record s r.
Proof. simpl. by destruct (apply_queue_record s r). Qed.

(** The exchanges that the log describes. *)
Definition durable_view (xs : list exchange) : list exchange :=
  xview <$> filter (fun x => x_durable x = true) xs.

(** What an exchange record leaves alone. *)
Definition same_but_exchanges (r r' : store) : Prop :=
  st_queues r' = st_queues r /\ st_allocs r' = st_allocs r /\
  st_next_lock_id r' = st_next_lock_id r /\ st_next_id r' = st_next_id r /\
  st_consumers r' = st_consumers r.

(** ** Payloads *)

Lemma slice_app off (pre x rest : bytes) : off = zlen pre ->
  slice off (zlen x) (pre ++ x ++ rest) = x.
Proof.
  intros ->. unfold slice, zlen. rewrite !Nat2Z.id, drop_app_length. apply take_app_length.
Qed.

Lemma slice_end off (pre x : bytes) : off = zlen pre -> slice off (zlen x) (pre ++ x) = x.
Proof. intros H. rewrite <- (app_nil_r x) at 2. by apply slice_app. Qed.

Lemma at16_app off n (pre rest : bytes) : off = zlen pre -> fits 16 n ->
  at16 (pre ++ put16 n ++ rest) off = n.
Proof.
  intros -> Hn. unfold at16, zlen. rewrite Nat2Z.id, drop_app_length, get16_put16.
  by apply u16_small.
Qed.

Lemma zlen_fits16 (b : bytes) : zlen b <= 255 -> fits 16 (zlen b).
Proof. unfold fits, zlen. lia. Qed.

Lemma put16_zlen n : zlen (put16 n) = 2.
Proof. done. Qed.

(** Applying an EXBIND or EXUNBIND payload with valid names. *)
Lemma apply_exbind_payload s name revision queue key rm : name_ok queue -> name_valid key ->
  apply_exbind s name revision (binding_payload queue key) rm =
  match find_exchange s name with
  | None => None
  | Some x =>
      match find_binding x queue key, rm with
      | None, true => Some s
      | Some _, true =>
          Some (upd_exchange s name (fun x => next_revision revision
            {| x with x_bindings := remove_binding queue key (x_bindings x);
                      x_binding_count := x_binding_count x - 1 |}))
      | Some _, false => Some s
      | None, false =>
          match add_binding_locked s x queue key 0 with
          | (true, s) => Some (upd_exchange s name (next_revision revision))
          | (false, _) => None
          end
      end
  end.
Proof.
  intros [_ Hq] [_ Hk]. unfold EXCHANGE_NAME_MAX, QUEUE_NAME_MAX in *.
  set (p := binding_payload queue key).
  assert (Lp : zlen p = 4 + zlen queue + zlen key).
  { unfold p, binding_payload. rewrite !zlen_app, !put16_zlen. lia. }
  assert (E1 : at16 p 0 = zlen queue).
  { unfold p, binding_payload. apply (at16_app 0 _ []); [done|]. apply zlen_fits16. lia. }
  assert (E2 : at16 p (2 + zlen queue) = zlen key).
  { unfold p, binding_payload. rewrite app_assoc. apply at16_app; [|apply zlen_fits16; lia].
    by rewrite zlen_app, put16_zlen. }
  assert (E3 : slice 2 (zlen queue) p = queue) by (by apply slice_app).
  assert (E4 : slice (2 + zlen queue + 2) (zlen key) p = key).
  { unfold p, binding_payload. rewrite !app_assoc. apply slice_end.
    rewrite !zlen_app, !put16_zlen. lia. }
  pose proof (zlen_nonneg key).
  unfold apply_exbind. rewrite Lp, E1, E2, E3, E4.
  unfold QUEUE_NAME_MAX, ROUTING_KEY_MAX in *.
  destruct (Z.ltb_spec (4 + zlen queue + zlen key) 4); [lia|].
  destruct (Z.ltb_spec (4 + 255 + 255) (4 + zlen queue + zlen key)); [lia|].
  destruct (Z.eqb_spec (zlen queue) 0); [lia|]. destruct (Z.ltb_spec 255 (zlen queue)); [lia|].
  destruct (Z.ltb_spec (4 + zlen queue + zlen key) (2 + zlen queue + 2)); [lia|].
  destruct (Z.ltb_spec 255 (zlen key)); [lia|].
  destruct (Z.eqb_spec (4 + zlen queue + zlen key) (2 + zlen queue + 2 + zlen key)); [done|lia].
Qed.

Lemma apply_exupdate_payload s name revision ae : name_ok ae -> ae <> name -> st_allocs s = [] ->
  apply_exupdate s name revision (put16 (zlen ae) ++ ae) =
  match find_exchange s name with
  | None => None
  | Some _ => Some (upd_exchange s name (fun x =>
                next_revision revision {| x with x_ae_name := ae |}))
  end.
Proof.
  intros [_ Ha] Hne Hs. unfold QUEUE_NAME_MAX in *. set (p := put16 (zlen ae) ++ ae).
  assert (Lp : zlen p = 2 + zlen ae) by (unfold p; by rewrite zlen_app).
  assert (E1 : at16 p 0 = zlen ae).
  { unfold p. rewrite <- (app_nil_r ae) at 2. apply (at16_app 0 _ []); [done|].
    apply zlen_fits16. lia. }
  assert (E2 : slice 2 (zlen ae) p = ae) by (by apply slice_end).
  unfold apply_exupdate. rewrite Lp, E1, E2. unfold EXCHANGE_NAME_MAX.
  destruct (Z.ltb_spec (2 + zlen ae) 2); [lia|].
  destruct (Z.ltb_spec (2 + 255) (2 + zlen ae)); [lia|].
  destruct (Z.eqb_spec (zlen ae) 0); [lia|]. rewrite Z.eqb_refl.
  destruct (Z.ltb_spec 255 (zlen ae)); [lia|]. simpl.
  destruct (find_exchange s name); [|done]. unfold name_eqb at 1.
  rewrite bool_decide_eq_false_2 by done. by rewrite alloc_nil.
Qed.

Lemma upd_first_head name f x xs : x_name x = name -> upd_first name f (x :: xs) = f x :: xs.
Proof. intros H%name_eqb_eq. simpl. by rewrite H. Qed.

Lemma apply_exdeclare_payload s name type ae : 0 <= type <= EXCHANGE_TOPIC -> name_valid ae ->
  find_exchange s name = None -> st_allocs s = [] ->
  apply_exdeclare s name true 1 (exdeclare_payload type ae) =
  Some {| s with st_exchanges := new_exchange name true type ae :: st_exchanges s |}.
Proof.
  unfold EXCHANGE_TOPIC. intros Ht [_ Ha] F Hs. unfold EXCHANGE_NAME_MAX in *.
  assert (Et : u8 type = type) by (apply u8_small; unfold is_byte; lia).
  unfold apply_exdeclare, exdeclare_payload. rewrite F.
  unfold create_exchange. rewrite alloc_nil, Et by done. pose proof (zlen_nonneg ae).
  destruct (Z.eqb_spec (zlen ae) 0) as [E0|E0].
  - assert (ae = []) as -> by (destruct ae; [done|rewrite zlen_cons in E0; pose proof (zlen_nonneg ae); lia]).
    unfold EXCHANGE_NAME_MAX, EXCHANGE_TOPIC. simpl. change (byte_at [type] 0) with type. destruct (Z.ltb_spec 2 type); [lia|].
    unfold upd_exchange. cbn [st_exchanges]. by rewrite upd_first_head.
  - set (p := type :: put16 (zlen ae) ++ ae).
    assert (Lp : zlen p = 3 + zlen ae).
    { unfold p. rewrite zlen_cons, zlen_app, put16_zlen. lia. }
    assert (E1 : at16 p 1 = zlen ae).
    { unfold p. rewrite <- (app_nil_r ae) at 2. apply (at16_app 1 _ [type]); [done|].
      apply zlen_fits16. lia. }
    assert (E2 : slice 3 (zlen ae) p = ae).
    { by apply (slice_end 3 (type :: put16 (zlen ae))). }
    assert (E3 : byte_at p 0 = type) by done.
    rewrite Lp, E3. unfold EXCHANGE_NAME_MAX, EXCHANGE_TOPIC.
    destruct (Z.ltb_spec (3 + zlen ae) 1); [lia|].
    destruct (Z.ltb_spec (3 + 255) (3 + zlen ae)); [lia|].
    destruct (Z.ltb_spec 2 type); [lia|]. destruct (Z.leb_spec 3 (3 + zlen ae)); [|lia].
    rewrite E1, E2, Z.eqb_refl, orb_true_r. unfold upd_exchange. cbn [st_exchanges]. by rewrite upd_first_head.
Qed.

(** ** The durable exchanges under a change of one *)

Section views.
Context (name : bytes) (f : exchange -> exchange).
Hypothesis (Hd : forall x, x_durable (f x) = x_durable x).

Lemma durable_view_cons x xs : durable_view (x :: xs)
  = if x_durable x then xview x :: durable_view xs else durable_view xs.
Proof.
  unfold durable_view. rewrite filter_cons. destruct (x_durable x); [by rewrite decide_True|].
  by rewrite decide_False.
Qed.

Lemma find_view xs x : find (fun x => name_eqb (x_name x) name) xs = Some x ->
  x_durable x = true -> find (fun x => name_eqb (x_name x) name) (durable_view xs) = Some (xview x).
Proof.
  induction xs as [|y xs IH]; simpl; [done|]. intros F D. rewrite durable_view_cons.
  destruct (name_eqb (x_name y) name) eqn:E; [simplify_eq; rewrite D; simpl; by rewrite E|].
  destruct (x_durable y); simpl; [rewrite E|]; auto.
Qed.

Lemma find_view_none xs : find (fun x => name_eqb (x_name x) name) xs = None ->
  find (fun x => name_eqb (x_name x) name) (durable_view xs) = None.
Proof.
  induction xs as [|y xs IH]; simpl; [done|]. rewrite durable_view_cons.
  destruct (name_eqb (x_name y) name) eqn:E; [done|]. intros F.
  destruct (x_durable y); simpl; [rewrite E|]; auto.
Qed.

(** A change the log does not describe. *)
Lemma upd_view_silent xs : (forall x, find (fun x => name_eqb (x_name x) name) xs = Some x ->
    x_durable x = false \/ xview (f x) = xview x) ->
  durable_view (upd_first name f xs) = durable_view xs.
Proof.
  induction xs as [|y xs IH]; simpl; [done|]. intros H.
  destruct (name_eqb (x_name y) name) eqn:E; rewrite !durable_view_cons.
  - rewrite Hd. destruct (H y eq_refl) as [->| ->]; done.
  - rewrite IH by done. done.
Qed.

(** A change of a durable exchange, [g] on its view. *)
Lemma upd_view g xs x : find (fun x => name_eqb (x_name x) name) xs = Some x ->
  x_durable x = true -> xview (f x) = g (xview x) ->
  durable_view (upd_first name f xs) = upd_first name g (durable_view xs).
Proof.
  induction xs as [|y xs IH]; simpl; [done|]. intros F D H.
  destruct (name_eqb (x_name y) name) eqn:E; rewrite !durable_view_cons.
  - simplify_eq. rewrite Hd, D. simpl. by rewrite E, H.
  - rewrite IH by done. destruct (x_durable y); simpl; [by rewrite E|done].
Qed.

Lemma remove_view xs x : find (fun x => name_eqb (x_name x) name) xs = Some x ->
  durable_view (remove_first name xs)
  = if x_durable x then remove_first name (durable_view xs) else durable_view xs.
Proof.
  induction xs as [|y xs IH]; simpl; [done|]. intros F.
  destruct (name_eqb (x_name y) name) eqn:E; rewrite !durable_view_cons.
  - simplify_eq. destruct (x_durable x); simpl; [by rewrite E|done].
  - rewrite IH by done. destruct (x_durable y), (x_durable x); simpl; by rewrite ?E.
Qed.

End views.

(** ** Every exchange change *)

(** Replaying [rs] turns the durable exchanges of [xs] into those of [xs']. *)
Definition xreplays (xs xs' : list exchange) (rs : list record) : Prop :=
  forall r, st_exchanges r = durable_view xs -> st_allocs r = [] ->
  exists r', replay_records r rs = Some r' /\ st_exchanges r' = durable_view xs' /\
    same_but_exchanges r r'.

Lemma xreplays_nil xs xs' : durable_view xs' = durable_view xs -> xreplays xs xs' [].
Proof. intros E r Hx Ha. exists r. rewrite E. by repeat split. Qed.

(** A record that replays as [g] on its exchange. *)
Lemma xreplays_upd xs name x f g op aux p :
  find (fun x => name_eqb (x_name x) name) xs = Some x ->
  (forall x, x_durable (f x) = x_durable x) -> xview (f x) = g (xview x) ->
  (forall r, find_exchange r name = Some (xview x) -> st_allocs r = [] ->
     replay_records r [{| r_op := op; r_durable := true; r_name := name; r_id := 0; r_aux := aux;
                          r_data := p |}] = Some (upd_exchange r name g)) ->
  xreplays xs (upd_first name f xs) (xlogged x op aux p).
Proof.
  intros F Hd Hg Hr. pose proof (find_name _ _ _ F) as [_ En]. unfold xlogged.
  destruct (x_durable x) eqn:D.
  - intros r Hx Ha. rewrite En, Hr; [|unfold find_exchange; rewrite Hx; by apply find_view|done].
    eexists. split; [done|]. simpl. rewrite Hx. split; [|by repeat split].
    symmetry. by eapply upd_view.
  - apply xreplays_nil, upd_view_silent; [done|]. intros y Fy. left. congruence.
Qed.

Lemma xview_binding x queue key : find_binding (xview x) queue key = find_binding x queue key.
Proof. done. Qed.

Lemma next_revision_pos rev x : 0 < rev -> next_revision rev x = {| x with x_revision := rev |}.
Proof. intros H. unfold next_revision. destruct (Z.eqb_spec rev 0); [lia|done]. Qed.

Lemma upd_first_ext name f g xs : (forall x, f x = g x) -> upd_first name f xs = upd_first name g xs.
Proof. intros H. induction xs as [|x xs IH]; simpl; [done|]. by rewrite H, IH. Qed.

Lemma found_inv xs name x : xs_ok xs -> find (fun x => name_eqb (x_name x) name) xs = Some x ->
  xinv x /\ x_name x = name.
Proof.
  intros [_ H] [Hin E]%find_name. rewrite Forall_forall in H. auto.
Qed.

Lemma bind_replays xs name x queue key : xs_ok xs ->
  find (fun x => name_eqb (x_name x) name) xs = Some x -> xroom x -> name_ok queue ->
  name_valid key -> find_binding x queue key = None ->
  xreplays xs (upd_first name (bind_to queue key (x_revision x + 1)) xs)
    (xlogged x LOG_EXBIND (x_revision x + 1) (binding_payload queue key)).
Proof.
  intros Hok F [Hc _] Hq Hk Hb. destruct (found_inv _ _ _ Hok F) as [[_ Hr] En].
  apply (xreplays_upd xs name x _ (bind_to queue key (x_revision x + 1))); try done.
  intros r Fr Ha. rewrite replay_one.
  change (apply_queue_record r _)
    with (apply_exbind r name (x_revision x + 1) (binding_payload queue key) false).
  rewrite apply_exbind_payload, Fr, xview_binding, Hb by done. unfold add_binding_locked.
  destruct (Z.leb_spec EXCHANGE_BINDINGS_MAX (x_binding_count (xview x))); [simpl in *; lia|].
  rewrite alloc_nil by done. unfold upd_exchange. simpl. do 2 f_equal.
  rewrite En, upd_first_compose by done. apply upd_first_ext. intros y.
  rewrite next_revision_pos by lia. done.
Qed.

Lemma unbind_replays xs name x queue key b : xs_ok xs ->
  find (fun x => name_eqb (x_name x) name) xs = Some x -> name_ok queue -> name_valid key ->
  find_binding x queue key = Some b ->
  xreplays xs (upd_first name (unbind_from queue key (x_revision x + 1)) xs)
    (xlogged x LOG_EXUNBIND (x_revision x + 1) (binding_payload queue key)).
Proof.
  intros Hok F Hq Hk Hb. destruct (found_inv _ _ _ Hok F) as [[_ Hr] En].
  apply (xreplays_upd xs name x _ (unbind_from queue key (x_revision x + 1))); try done.
  intros r Fr Ha. rewrite replay_one.
  change (apply_queue_record r _)
    with (apply_exbind r name (x_revision x + 1) (binding_payload queue key) true).
  rewrite apply_exbind_payload, Fr, xview_binding, Hb by done. unfold upd_exchange. do 2 f_equal.
  apply upd_first_ext. intros y. rewrite next_revision_pos by lia. done.
Qed.

Lemma alternate_replays xs name x ae : xs_ok xs ->
  find (fun x => name_eqb (x_name x) name) xs = Some x -> name_ok ae -> ae <> name ->
  xreplays xs (upd_first name (set_alternate ae (x_revision x + 1)) xs)
    (xlogged x LOG_EXUPDATE (x_revision x + 1) (put16 (zlen ae) ++ ae)).
Proof.
  intros Hok F Ha Hne. destruct (found_inv _ _ _ Hok F) as [[_ Hr] En].
  apply (xreplays_upd xs name x _ (set_alternate ae (x_revision x + 1))); try done.
  intros r Fr Hs. rewrite replay_one.
  change (apply_queue_record r _)
    with (apply_exupdate r name (x_revision x + 1) (put16 (zlen ae) ++ ae)).
  rewrite apply_exupdate_payload, Fr by done. unfold upd_exchange. do 2 f_equal.
  apply upd_first_ext. intros y. rewrite next_revision_pos by lia. done.
Qed.

Lemma declare_replays xs name durable type ae : 0 <= type <= EXCHANGE_TOPIC -> name_valid ae ->
  find (fun x => name_eqb (x_name x) name) xs = None ->
  xreplays xs (new_exchange name durable type ae :: xs)
    (xlogged (new_exchange name durable type ae) LOG_EXDECLARE 1 (exdeclare_payload type ae)).
Proof.
  intros Ht Ha F. destruct durable; [|apply xreplays_nil; apply durable_view_cons].
  intros r Hx Hs. simpl. change (apply_queue_record r _)
    with (apply_exdeclare r name true 1 (exdeclare_payload type ae)).
  rewrite apply_exdeclare_payload; [|done|done|unfold find_exchange; rewrite Hx; by apply find_view_none|done].
  eexists. split; [done|]. simpl. rewrite durable_view_cons, Hx. simpl. by repeat split.
Qed.

(** Replaying the records of a change of the exchanges. *)
Lemma xchange_replays xs xs' rs : xs_ok xs -> xchange xs xs' rs -> xreplays xs xs' rs.
Proof.
  intros Hok C. destruct C.
  - apply xreplays_nil, upd_view_silent; [done|]. by right.
  - by apply declare_replays.
  - by eapply bind_replays.
  - by eapply unbind_replays.
  - by eapply alternate_replays.
  - match goal with F : find _ xs = Some x |- _ => pose proof (remove_view name xs x F) as V;
      pose proof (find_name _ _ _ F) as [_ En] end.
    unfold xlogged. destruct (x_durable x); [|by apply xreplays_nil].
    intros r Hx Ha. rewrite replay_one, En.
    change (apply_queue_record r _) with (apply_exdelete r name).
    eexists. split; [done|]. simpl. rewrite Hx, V. by repeat split.
Qed.

End XReplay.

(** * Replay of transactions

    The record of a prepared transaction, read back, is the transaction
    without the pointers to its queues; the record of the commit takes it off
    the pending list and links its messages. *)

Import Queue Wal Store Replay Exchanges Tx XReplay.

Module TxReplay.

Definition ids_fit (ts : list tx_target) : Prop := Forall (fun t => fits 64 (t_msg_id t)) ts.

(** What [queue_tx_prepare] builds and what its record can hold. *)
Record tx_form (tx : queue_tx) : Prop := TxForm {
  tf_id : fits 64 (tx_id tx);
  tf_expires : fits 64 (tx_expires tx);
  tf_source : name_ok (tx_source tx);
  tf_data : data_ok (tx_data tx);
  tf_some : tx_targets tx <> [];
  tf_count : zlen (tx_targets tx) <= EXCHANGE_BINDINGS_MAX;
  tf_names : Forall (fun t => name_ok (t_name t)) (tx_targets tx);
  tf_size : zlen (tx_payload tx) <= QUEUE_MESSAGE_MAX }.

Definition prepare_record (tx : queue_tx) : record :=
  {| r_op := LOG_TX_PREPARE; r_durable := true; r_name := tx_source tx; r_id := 0; r_aux := 0;
     r_data := tx_payload tx |}.

Definition commit_record (tx : queue_tx) : record :=
  {| r_op := LOG_TX_COMMIT; r_durable := true; r_name := tx_source tx; r_id := 0; r_aux := 0;
     r_data := put64 (tx_id tx) |}.

(** A transaction as replay knows it: queues by name only. *)
Definition by_name (t : tx_target) : tx_target := {| t with t_queue := None |}.

Definition replayed (tx : queue_tx) : queue_tx :=
  {| tx with tx_targets := by_name <$> tx_targets tx; tx_footprint := 0 |}.

(** The identities of a transaction are used up. *)
Definition bump_ids (s : store) (ts : list tx_target) : store :=
  fold_left (fun s t => bump_id s (t_msg_id t)) ts s.

Definition pend (s : store) (tx : queue_tx) : store :=
  {| s with st_tx_pending := tx :: st_tx_pending s |}.

(** ** Reading the payload *)

Lemma at32_app off n (pre rest : bytes) : off = zlen pre -> fits 32 n ->
  at32 (pre ++ put32 n ++ rest) off = n.
Proof.
  intros -> Hn. unfold at32, zlen. rewrite Nat2Z.id, drop_app_length, get32_put32. by apply u32_small.
Qed.

Lemma at64_app off n (pre rest : bytes) : off = zlen pre -> fits 64 n ->
  at64 (pre ++ put64 n ++ rest) off = n.
Proof.
  intros -> Hn. unfold at64, zlen. rewrite Nat2Z.id, drop_app_length, get64_put64. by apply u64_small.
Qed.

Lemma put32_zlen n : zlen (put32 n) = 4.
Proof. done. Qed.

Lemma put64_zlen n : zlen (put64 n) = 8.
Proof. done. Qed.

Lemma target_zlen t : zlen (target_bytes t) = 10 + zlen (t_name t).
Proof. unfold target_bytes. rewrite !zlen_app, put16_zlen, put64_zlen. lia. Qed.

Lemma parse_targets_print ts : Forall (fun t => name_ok (t_name t)) ts -> ids_fit ts ->
  forall pre rest off, off = zlen pre ->
  parse_targets (length ts) (pre ++ concat (target_bytes <$> ts) ++ rest) off
  = Some (by_name <$> ts, off + zlen (concat (target_bytes <$> ts))).
Proof.
  induction 1 as [|t ts [Hb Hn] _ IH]; intros Hids pre rest off Ho; [|apply Forall_cons in Hids as [Hi Hids]].
  { cbn [length parse_targets fmap list_fmap concat]. rewrite zlen_nil, Z.add_0_r. done. }
  rewrite !fmap_cons. cbn [length parse_targets concat]. rewrite <- !app_assoc.
  set (tl := concat (target_bytes <$> ts) ++ rest).
  assert (Hl : zlen (pre ++ target_bytes t ++ tl) = off + (10 + zlen (t_name t)) + zlen tl).
  { rewrite !zlen_app, target_zlen. lia. }
  rewrite Hl. pose proof (zlen_nonneg tl). destruct (Z.ltb_spec (off + (10 + zlen (t_name t)) + zlen tl) (off + 2)); [lia|].
  assert (E16 : at16 (pre ++ target_bytes t ++ tl) off = zlen (t_name t)).
  { unfold target_bytes. rewrite <- !app_assoc. apply at16_app; [done|].
    unfold QUEUE_NAME_MAX, fits in *. lia. }
  rewrite E16. unfold QUEUE_NAME_MAX in *. destruct (Z.eqb_spec (zlen (t_name t)) 0); [lia|].
  destruct (Z.ltb_spec 255 (zlen (t_name t))); [lia|]. cbn [orb].
  destruct (Z.ltb_spec (off + (10 + zlen (t_name t)) + zlen tl) (off + 10 + zlen (t_name t))); [lia|].
  assert (En : slice (off + 2) (zlen (t_name t)) (pre ++ target_bytes t ++ tl) = t_name t).
  { unfold target_bytes. rewrite <- !app_assoc, (app_assoc pre). apply slice_app.
    rewrite zlen_app, put16_zlen. lia. }
  assert (Ei : at64 (pre ++ target_bytes t ++ tl) (off + 2 + zlen (t_name t)) = t_msg_id t).
  { unfold target_bytes. rewrite <- !app_assoc, (app_assoc pre), (app_assoc (pre ++ _)).
    apply at64_app; [|done]. rewrite !zlen_app, put16_zlen. lia. }
  rewrite En, Ei. rewrite app_assoc at 1. unfold tl at 1.
  rewrite (IH Hids (pre ++ target_bytes t) rest); [|rewrite zlen_app, target_zlen; lia].
  rewrite zlen_app, target_zlen. f_equal. f_equal. lia.
Qed.

(** The parts of the payload, one after the other. *)
Lemma payload_parts tx : tx_form tx -> ids_fit (tx_targets tx) -> let p := tx_payload tx in
  at64 p 0 = tx_id tx /\ at32 p 8 = zlen (tx_data tx) /\ at64 p 12 = tx_expires tx /\
  at16 p 20 = zlen (tx_targets tx) /\
  parse_targets (length (tx_targets tx)) p 22
  = Some (by_name <$> tx_targets tx, 22 + zlen (concat (target_bytes <$> tx_targets tx))) /\
  slice (22 + zlen (concat (target_bytes <$> tx_targets tx))) (zlen (tx_data tx)) p = tx_data tx /\
  zlen p = 22 + zlen (concat (target_bytes <$> tx_targets tx)) + zlen (tx_data tx).
Proof.
  intros [Hi He _ [_ Hd] _ Hc Ht _] Hf p. unfold p, tx_payload, EXCHANGE_BINDINGS_MAX in *.
  assert (Fd : fits 32 (zlen (tx_data tx))).
  { pose proof (zlen_nonneg (tx_data tx)). unfold QUEUE_MESSAGE_MAX in Hd.
    change (Z.shiftl 64 20) with 67108864 in Hd. unfold fits. lia. }
  assert (Fc : fits 16 (zlen (tx_targets tx))).
  { pose proof (zlen_nonneg (tx_targets tx)). unfold fits. lia. }
  set (a := put64 (tx_id tx)). set (b := put32 (zlen (tx_data tx))). set (c := put64 (tx_expires tx)).
  set (d := put16 (zlen (tx_targets tx))).
  set (ts := concat (target_bytes <$> tx_targets tx)).
  split_and!.
  - by apply (at64_app 0 _ []).
  - by apply (at32_app 8 _ a).
  - rewrite (app_assoc a). by apply (at64_app 12).
  - rewrite (app_assoc a), (app_assoc (a ++ b)). by apply (at16_app 20).
  - rewrite (app_assoc a), (app_assoc (a ++ b)), (app_assoc ((a ++ b) ++ c)).
    by apply (parse_targets_print _ Ht Hf).
  - rewrite (app_assoc a), (app_assoc (a ++ b)), (app_assoc ((a ++ b) ++ c)), (app_assoc (_ ++ d)).
    apply slice_end. by rewrite zlen_app.
  - rewrite !zlen_app. unfold a, b, c, d. rewrite !put64_zlen, put32_zlen, put16_zlen. lia.
Qed.

Lemma bump_id_pending s id : st_tx_pending (bump_id s id) = st_tx_pending s.
Proof. unfold bump_id. by gcase. Qed.

Lemma bump_ids_pending ts : forall s, st_tx_pending (bump_ids s ts) = st_tx_pending s.
Proof.
  induction ts as [|t ts IH]; intros s; [done|]. unfold bump_ids in *. cbn [fold_left].
  by rewrite IH, bump_id_pending.
Qed.

Lemma bump_ids_by_name ts : forall s, bump_ids s (by_name <$> ts) = bump_ids s ts.
Proof. induction ts as [|t ts IH]; intros s; [done|]. rewrite fmap_cons. apply IH. Qed.

Lemma prepare_replays s tx : tx_form tx -> ids_fit (tx_targets tx) -> st_allocs s = [] ->
  apply_queue_record s (prepare_record tx) = Some (pend (bump_ids s (tx_targets tx)) (replayed tx)).
Proof.
  intros Hf Hi Ha. destruct (payload_parts tx Hf Hi) as (E1 & E2 & E3 & E4 & E5 & E6 & E7).
  change (apply_queue_record s (prepare_record tx))
    with (apply_tx_prepare s (tx_source tx) (tx_payload tx)).
  unfold apply_tx_prepare. rewrite E4, E2. pose proof (zlen_nonneg (tx_data tx)).
  pose proof (zlen_nonneg (concat (target_bytes <$> tx_targets tx))).
  destruct (Z.ltb_spec (zlen (tx_payload tx)) 22); [lia|].
  destruct Hf as [_ _ _ [_ Hd] Hs Hc _ _].
  destruct (Z.eqb_spec (zlen (tx_targets tx)) 0) as [E0|_]; [destruct (tx_targets tx); done|].
  destruct (Z.ltb_spec EXCHANGE_BINDINGS_MAX (zlen (tx_targets tx))); [lia|].
  destruct (Z.ltb_spec QUEUE_MESSAGE_MAX (zlen (tx_data tx))); [lia|]. cbn [orb].
  unfold zlen at 1. rewrite Nat2Z.id, E5, E7, Z.eqb_refl. cbn [negb].
  unfold alloc. rewrite Ha. cbn [draw]. rewrite E1, E3, E6. fold (bump_ids {| s with st_allocs := [] |} (by_name <$> tx_targets tx)).
  rewrite bump_ids_by_name. unfold pend, replayed. f_equal.
  assert (Es : {| s with st_allocs := [] |} = s) by (destruct s; cbn in *; congruence).
  by rewrite Es.
Qed.

Lemma commit_replays_head s tx : fits 64 (tx_id tx) ->
  apply_queue_record (pend s (replayed tx)) (commit_record tx)
  = Some (tx_materialize_locked s (replayed tx)).
Proof.
  intros Hi. change (apply_queue_record (pend s (replayed tx)) (commit_record tx))
    with (apply_tx_commit (pend s (replayed tx)) (put64 (tx_id tx))).
  unfold apply_tx_commit. rewrite put64_zlen. cbn [negb Z.eqb Pos.eqb].
  assert (E : get64 (put64 (tx_id tx)) = tx_id tx).
  { rewrite <- (app_nil_r (put64 _)), get64_put64. by apply u64_small. }
  rewrite E. unfold pend. cbn [st_tx_pending take_tx replayed tx_id]. rewrite Z.eqb_refl.
  by destruct s.
Qed.

End TxReplay.
