(* ===== verification/QueueBatch.v ===== *)
(** * Batch operations, owners and consumers (queue.c: queue_publish_batch,
    queue_consume_batch, ack_nack_batch_locked, queue_requeue_owner,
    queue_reap, queue_consumer_register, queue_peek_after)

    One barrier covers a batch; a durable consumer registration gives a name
    a stable owner token; a lost owner gives its deliveries back. *)

From stdpp Require Import base numbers option list.
From S2P Require Import Prelude Queue WalRecord QueueStore QueueReplay.
Import Queue Wal Store Replay.

Module Batch.

(** ** Staged batches *)

(** The loop of [append_batch_records]: stages one record per entry.  Result:
    did every record stage? *)
Fixpoint stage_records (s : store) (name : bytes) (rs : list (Z * Z * Z * bytes)) : bool * store :=
  match rs with
  | [] => (true, s)
  | (op, id, aux, data) :: rest =>
      let '(ok, s) := io s in
      if ok then
        stage_records {| s with
          st_log := st_log s ++ [{| r_op := op; r_durable := true; r_name := name; r_id := id;
                                    r_aux := aux; r_data := data |}];
          st_wal_seq := st_wal_seq s + 1 |} name rest
      else (false, s)
  end.

(** On failure one more outcome tells whether bytes of the batch had already
    reached the file; if none had, the batch leaves no trace. *)
Definition append_batch_records (s : store) (name : bytes) (rs : list (Z * Z * Z * bytes))
    : Z * store :=
  match rs with
  | [] => (0, s)
  | _ =>
    if negb (st_log_open s) || st_failed s then (-1, s)
    else
      let log_at := st_log s in
      let seq_at := st_wal_seq s in
      let '(staged, s) := stage_records s name rs in
      let '(flushed, s) := if staged then io s else (false, s) in
      if flushed then (0, s)
      else
        let '(moved, s) := io s in
        let s := if moved then s else {| s with st_log := log_at; st_wal_seq := seq_at |} in
        (-1, set_failed s)
  end.

(** ** Publishing a batch *)

Definition number_from (id : Z) (l : list bytes) : list (Z * bytes) :=
  imap (fun i d => (id + Z.of_nat i, d)) l.

(** Links the messages; stops at the first failed allocation. *)
Fixpoint link_batch (s : store) (qid : Z) (l : list (Z * bytes)) : Z * store :=
  match l with
  | [] => (0, s)
  | (id, data) :: rest =>
      let '(rc, s) := append_message s qid id 0 data in
      if rc <? 0 then (-1, s) else link_batch s qid rest
  end.

(** Returns the identities on success. *)
Definition queue_publish_batch (s : store) (name : bytes) (data : list bytes) (now mono : Z)
    : option (list Z) * store :=
  if (zlen name =? 0) || (zlen data =? 0) then (None, s)
  else
    match find_queue s name with
    | None => (None, s)
    | Some q =>
        let qid := q_lock_id q in
        let s := reap_queue_locked s qid now mono false in
        match get_queue s qid with
        | None => (None, s)
        | Some q =>
            if negb (q_max_depth q =? 0) && (q_max_depth q <? q_depth q + zlen data) then (None, s)
            else if existsb (fun d => (zlen d =? 0) || (QUEUE_MESSAGE_MAX <? zlen d)) data
            then (None, s)
            else
              let before := st_wal_seq s in
              let '(ok, s) := alloc s in
              if negb ok then (None, s)
              else
                let msgs := number_from (st_next_id s) data in
                let s := {| s with st_next_id := st_next_id s + zlen data |} in
                let '(rc, s) :=
                  if q_durable q
                  then append_batch_records s (q_name q)
                         (map (fun '(id, d) => (LOG_PUBLISH, id, 0, d)) msgs)
                  else (0, s) in
                if rc <? 0 then (None, s)
                else
                  let '(rc, s) := link_batch s qid msgs in
                  if rc <? 0 then (None, s)
                  else
                    let '(rc, s) := if st_wal_seq s =? before then (0, s)
                                    else wait_durable s (st_wal_seq s) in
                    if rc <? 0 then (None, s) else (Some (map fst msgs), s)
        end
    end.

(** ** Consuming a batch *)

(** The source leaves the [owner] and [visibility_deadline_ms] fields of a
    batch entry unwritten; they are zero here.

    The scan: marks up to [max] ready messages in flight.  [last] is the last
    message delivered.  Result: success, the deliveries, the position of the
    first delayed message, [last]. *)
Fixpoint pick_batch (n : nat) (s : store) (qid : Z) (i : nat) (max : nat)
    (first_delayed last : option nat) (visibility owner now : Z) (mono2 : nat -> Z)
    (acc : list delivery) : bool * list delivery * option nat * option nat * store :=
  match n with
  | O => (true, acc, first_delayed, last, s)
  | S n =>
    match max with
    | O => (true, acc, first_delayed, last, s)
    | S max' =>
    match get_queue s qid with
    | None => (true, acc, first_delayed, last, s)
    | Some q =>
    match q_msgs q !! i with
    | None => (true, acc, first_delayed, last, s)
    | Some m =>
      let first_delayed :=
        if negb (is_inflight m) && (now <? m_time m) &&
           match first_delayed with None => true | Some _ => false end
        then Some i else first_delayed in
      if negb (is_inflight m) && (m_time m <=? now) then
        let exhausted := negb (q_max_deliveries q =? 0) && negb (zlen (q_dlq_name q) =? 0) &&
                         (q_max_deliveries q <=? m_deliveries m) in
        let '(routed, s) := if exhausted then dead_letter_locked s qid i false false else (0, s) in
        if 0 <? routed
        then pick_batch n s qid i max first_delayed last visibility owner now mono2 acc
        else if routed <? 0
        then pick_batch n s qid (S i) max first_delayed last visibility owner now mono2 acc
        else
          let '(ok, s) := alloc s in
          if negb ok then (false, acc, first_delayed, last, s)
          else
            let deadline := u64 (mono2 (length acc) +
                                 (if visibility =? 0 then 30000 else visibility)) in
            let '(tag, s) := take_tag s in
            let '(ok, s) := if tag_index_allocs q then alloc s else (true, s) in
            let s := upd_queue s qid (fun q => deliver_to ok q i deadline owner tag) in
            let count := u32 (m_deliveries m + 1) in
            let d := {| d_id := m_id m; d_tag := tag; d_owner := 0; d_data := m_data m;
                        d_count := count; d_redelivered := 1 <? count; d_deadline := 0 |} in
            pick_batch n s qid (S i) max' first_delayed (Some i) visibility owner now mono2 (acc ++ [d])
      else pick_batch n s qid (S i) max first_delayed last visibility owner now mono2 acc
    end
    end
    end
  end.

Definition queue_consume_batch (s : store) (name : bytes) (visibility owner : Z) (max : nat)
    (now mono : Z) (mono2 : nat -> Z) : Z * list delivery * store :=
  if (zlen name =? 0) || (max =? 0)%nat then (-1, [], s)
  else
    match find_queue s name with
    | None => (-1, [], s)
    | Some q =>
        let qid := q_lock_id q in
        let s := reap_queue_locked s qid now mono false in
        match get_queue s qid with
        | None => (-1, [], s)
        | Some q =>
            let before := st_wal_seq s in
            if (length (q_msgs q) <=? q_hint q)%nat then (0, [], s)
            else
              let '(ok, s) := alloc s in
              if negb ok then (-1, [], s)
              else
                let '(ok, ds, fd, last, s) :=
                  pick_batch (length (q_msgs q)) s qid (q_hint q) max None None
                    visibility owner now mono2 [] in
                if negb ok then (-1, [], s)
                else
                  let s := upd_queue s qid (fun q => set_hint q
                    match fd with
                    | Some d => d
                    | None => ready_hint_advance q (match last with Some l => S l | None => q_hint q end)
                    end) in
                  let '(rc, s) :=
                    match ds with
                    | [] => (0, s)
                    | _ =>
                        if q_durable q then
                          let '(ok, s) := alloc s in
                          if ok then append_batch_records s (q_name q)
                                       (map (fun d => (LOG_DELIVER, d_id d, 0, [])) ds)
                          else (-1, s)
                        else (0, s)
                    end in
                  if rc <? 0 then (-1, [], s)
                  else
                    let '(rc, s) :=
                      if match ds with [] => false | _ => true end && q_durable q &&
                         negb (st_wal_seq s =? before)
                      then wait_durable s (st_wal_seq s) else (0, s) in
                    if rc <? 0 then (-1, [], s) else (0, ds, s)
        end
    end.

(** ** Settling a batch *)

(** The delivery a tag names, held by the owner or by the fallback owner. *)
Definition held_by (q : queue) (tag owner fallback : Z) : option (nat * message) :=
  match tag_find q tag with
  | None => None
  | Some i =>
      match q_msgs q !! i with
      | None => None
      | Some m =>
          let have_fallback := negb (fallback =? 0) && negb (fallback =? owner) in
          if is_inflight m &&
             ((m_owner m =? owner) || (have_fallback && (m_owner m =? fallback)))
          then Some (i, m) else None
      end
  end.

(** What a settling pass comes to: the process aborts when it releases a
    mutex it does not hold (the error-checking mutex macros of queue.c). *)
Inductive settled (A : Type) :=
  | SettledOk (a : A) (s : store)
  | SettledAbort.
Arguments SettledOk {A}.
Arguments SettledAbort {A}.

(** Pass 1: one deferred record per tag that resolves. *)
Fixpoint log_tags (op : Z) (s : store) (qid owner fallback : Z) (tags : list Z) (acked : Z)
    : settled Z :=
  match tags with
  | [] => SettledOk acked s
  | t :: rest =>
      match get_queue s qid with
      | None => SettledOk acked s
      | Some q =>
          match held_by q t owner fallback with
          | None => log_tags op s qid owner fallback rest acked
          | Some (_, m) =>
              let '(rc, s) := append_log s op q (m_id m) 0 [] in
              if rc <? 0 then SettledAbort
              else log_tags op s qid owner fallback rest (acked + 1)
          end
      end
  end.

(** Pass 1 of a queue with a dead-letter policy: each tag is routed. *)
Fixpoint route_tags (s : store) (qid owner fallback : Z) (tags : list Z) (acked : Z)
    : settled Z :=
  match tags with
  | [] => SettledOk acked s
  | t :: rest =>
      match get_queue s qid with
      | None => SettledOk acked s
      | Some q =>
          match held_by q t owner fallback with
          | None => route_tags s qid owner fallback rest acked
          | Some (i, _) =>
              let '(routed, s) := dead_letter_locked s qid i false false in
              if routed <? 0 then SettledAbort
              else route_tags s qid owner fallback rest (if 0 <? routed then acked + 1 else acked)
          end
      end
  end.

(** Pass 2: re-resolve each tag and apply [f] to its message, at most
    [left] times. *)
Fixpoint apply_tags (f : queue -> nat -> queue) (redeliver : bool) (s : store)
    (qid owner fallback : Z) (tags : list Z) (left : Z) : store :=
  match tags with
  | [] => s
  | t :: rest =>
      if left <=? 0 then s
      else
        match get_queue s qid with
        | None => s
        | Some q =>
            match held_by q t owner fallback with
            | None => apply_tags f redeliver s qid owner fallback rest left
            | Some (i, _) =>
                let s := upd_queue s qid (fun q => f q i) in
                let s := if redeliver then {| s with st_redeliveries := st_redeliveries s + 1 |}
                         else s in
                apply_tags f redeliver s qid owner fallback rest (left - 1)
            end
        end
  end.

(** The requeue of pass 2. *)
Definition requeue_at (q : queue) (i : nat) : queue := charge_record (make_ready q i 0) i.

(** The barrier between the passes, when any record was written. *)
Definition batch_barrier (s : store) (q : queue) (acked before : Z) : Z * store :=
  if q_durable q && negb (acked =? 0) && negb (st_wal_seq s =? before) then sync_log s else (0, s).

Definition ack_nack_batch_locked (s : store) (qid owner fallback : Z) (tags : list Z)
    (requeue : bool) : settled Z :=
  match get_queue s qid with
  | None => SettledOk 0 s
  | Some q =>
      let before := st_wal_seq s in
      let pass1 :=
        if requeue then log_tags LOG_REQUEUE s qid owner fallback tags 0
        else if negb (zlen (q_dlq_name q) =? 0) then route_tags s qid owner fallback tags 0
        else log_tags LOG_ACK s qid owner fallback tags 0 in
      match pass1 with
      | SettledAbort => SettledAbort
      | SettledOk acked s =>
          let '(rc, s) := batch_barrier s q acked before in
          if rc <? 0 then SettledAbort
          else SettledOk acked
                 (apply_tags (if requeue then requeue_at else remove_message) requeue
                    s qid owner fallback tags acked)
      end
  end.

(** The status and the count settled. *)
Definition settle_batch (s : store) (name : bytes) (owner fallback : Z) (tags : list Z)
    (requeue : bool) : settled (Z * Z) :=
  if (zlen name =? 0) || (zlen tags =? 0) then SettledOk (-1, 0) s
  else
    match find_queue s name with
    | None => SettledOk (-1, 0) s
    | Some q =>
        match ack_nack_batch_locked s (q_lock_id q) owner fallback tags requeue with
        | SettledAbort => SettledAbort
        | SettledOk acked s => SettledOk (0, acked) s
        end
    end.

Definition queue_ack_batch (s : store) (name : bytes) (owner fallback : Z) (tags : list Z)
    : settled (Z * Z) := settle_batch s name owner fallback tags false.

Definition queue_nack_batch (s : store) (name : bytes) (owner fallback : Z) (tags : list Z)
    (requeue : bool) : settled (Z * Z) := settle_batch s name owner fallback tags requeue.

(** ** Owners *)

(** Returns every delivery of [owner] in one queue from position [i] on. *)
Fixpoint release_owner (n : nat) (s : store) (qid : Z) (i : nat) (owner : Z) : store :=
  match n with
  | O => s
  | S n =>
      match get_queue s qid with
      | None => s
      | Some q =>
          match q_msgs q !! i with
          | None => s
          | Some m =>
              let s :=
                if is_inflight m && (m_owner m =? owner) then
                  let s := upd_queue s qid (fun q => make_ready q i 0) in
                  {| s with st_redeliveries := st_redeliveries s + 1 |}
                else s in
              release_owner n s qid (S i) owner
          end
      end
  end.

Definition queue_requeue_owner (s : store) (owner : Z) : store :=
  if owner =? 0 then s
  else fold_left (fun s q => release_owner (length (q_msgs q)) s (q_lock_id q) 0 owner)
         (st_queues s) s.

(** [queue_reap]: the maintenance pass over every queue.  Queues that
    dead-lettering creates on the way are put in front of the list, behind
    the walk's cursor. *)
Definition queue_reap (s : store) (now mono : Z) : store :=
  fold_left (fun s q => if q_deleted q then s
                        else reap_queue_locked s (q_lock_id q) now mono true)
    (st_queues s) s.

(** ** Named consumers *)

(** The source dereferences the result of its first [calloc] before it tests
    it; the outcome drawn here is that of the name's allocation. *)
Definition queue_consumer_register (s : store) (name : bytes) : option Z * store :=
  if (zlen name =? 0) || (QUEUE_NAME_MAX <? zlen name) then (None, s)
  else
    match find_consumer s name with
    | Some c => (Some (c_owner c), s)
    | None =>
        if st_failed s then (None, s)
        else
          let owner := st_next_owner s in
          let '(rc, s) := if st_log_open s
                          then append_record s LOG_CONSUMER true name owner 0 [] true
                          else (0, s) in
          if rc <? 0 then (None, s)
          else
            let '(ok, s) := alloc s in
            if negb ok then (None, s)
            else
              (Some owner,
               {| s with st_consumers := {| c_name := name; c_owner := owner |} :: st_consumers s;
                         st_next_owner := if u64 (owner + 1) =? 0 then 1 else u64 (owner + 1);
                         st_meta_live := u64 (st_meta_live s + (LOG_HEADER + zlen name)) |})
    end.

Definition queue_consumer_unregister (s : store) (name : bytes) : Z * store :=
  if (zlen name =? 0) || (QUEUE_NAME_MAX <? zlen name) then (-1, s)
  else
    match find_consumer s name with
    | None => (0, s)
    | Some c =>
        let '(rc, s) := if st_log_open s
                        then append_record s LOG_CONSUMER_DEL true name 0 0 [] true
                        else (0, s) in
        if rc <? 0 then (-1, s)
        else
          let s := {| s with st_consumers := remove_consumer name (st_consumers s);
                             st_meta_live := u64 (st_meta_live s - (LOG_HEADER + zlen name)) |} in
          (1, queue_requeue_owner s (c_owner c))
    end.

Definition queue_consume_for_consumer (s : store) (queue consumer : bytes)
    (visibility now mono mono2 : Z) : Z * option delivery * store :=
  if (zlen consumer =? 0) || (QUEUE_NAME_MAX <? zlen consumer) then (-1, None, s)
  else
    match find_consumer s consumer with
    | None => (0, None, s)
    | Some c => queue_consume_for_owner s queue visibility (c_owner c) now mono mono2
    end.

(** ** Browsing *)

Record snapshot := Snapshot {
  sn_id : Z;
  sn_expires : Z;
  sn_not_before : Z;
  sn_deadline : Z;
  sn_len : Z;
  sn_deliveries : Z;
  sn_state : Z;
  sn_redelivered : bool;
  sn_omitted : bool;
  sn_data : option bytes }.

Definition QUEUE_PEEK_READY := 1.
Definition QUEUE_PEEK_DELAYED := 2.
Definition QUEUE_PEEK_INFLIGHT := 4.
Definition QUEUE_PEEK_ALL := 7.

Definition peek_state (m : message) (now : Z) : Z :=
  if is_inflight m then QUEUE_PEEK_INFLIGHT
  else if now <? m_time m then QUEUE_PEEK_DELAYED
  else QUEUE_PEEK_READY.

(** The filter of the peek loop. *)
Definition peek_selects (after mask now : Z) (m : message) : bool :=
  negb ((m_id m <=? after) || (negb (m_expires m =? 0) && (m_expires m <=? now))) &&
  negb (Z.land (peek_state m now) mask =? 0).

Definition snapshot_of (now : Z) (m : message) (omitted : bool) (data : option bytes) : snapshot :=
  {| sn_id := m_id m; sn_expires := m_expires m;
     sn_not_before := if is_inflight m then 0 else m_time m;
     sn_deadline := if is_inflight m then m_time m else 0;
     sn_len := zlen (m_data m); sn_deliveries := m_deliveries m;
     sn_state := peek_state m now; sn_redelivered := 1 <? m_deliveries m;
     sn_omitted := omitted; sn_data := data |}.

(** The loop; [None] when a body cannot be allocated. *)
Fixpoint peek_loop (s : store) (l : list message) (after mask now : Z) (max : nat)
    (bodies : bool) (remaining : Z) (acc : list snapshot) : option (list snapshot) * store :=
  match l, max with
  | [], _ | _, O => (Some acc, s)
  | m :: rest, S max' =>
      if negb (peek_selects after mask now m)
      then peek_loop s rest after mask now max bodies remaining acc
      else if negb bodies
      then peek_loop s rest after mask now max' bodies remaining
             (acc ++ [snapshot_of now m false None])
      else if remaining <? zlen (m_data m)
      then peek_loop s rest after mask now max' bodies remaining
             (acc ++ [snapshot_of now m true None])
      else
        let '(ok, s) := alloc s in
        if negb ok then (None, s)
        else peek_loop s rest after mask now max' bodies (remaining - zlen (m_data m))
               (acc ++ [snapshot_of now m false (Some (m_data m))])
  end.

(** The status, the snapshots, the queue revision they belong to. *)
Definition queue_peek_after (s : store) (name : bytes) (after mask : Z) (max : nat) (bodies : bool)
    (budget now : Z) : Z * list snapshot * Z * store :=
  if (zlen name =? 0) || (QUEUE_NAME_MAX <? zlen name) || (max =? 0)%nat ||
     negb (Z.ldiff mask QUEUE_PEEK_ALL =? 0) || (mask =? 0) then (-1, [], 0, s)
  else
    match find_queue s name with
    | None => (0, [], 0, s)
    | Some q =>
        let '(ok, s) := alloc s in
        if negb ok then (-1, [], 0, s)
        else
          match peek_loop s (q_msgs q) after mask now max bodies budget [] with
          | (None, s) => (-1, [], q_revision q, s)
          | (Some l, s) => (1, l, q_revision q, s)
          end
    end.

End Batch.
