(* ===== verification/QueueCommit.v ===== *)
(** * Commits of the queue store

    Every public operation of the queue store is a sequence of commits: one
    change of one queue together with the WAL record that describes it.  This
    file states the invariants of queues and stores, the commits, and that
    each commit keeps the invariants; QueueOps.v shows that the operations are
    sequences of commits and QueueRecovery.v that the log of such a sequence
    replays to the same durable state. *)

From stdpp Require Import base numbers option list relations.
From S2P Require Import Prelude Queue QueueIndex WalRecord QueueStore QueueReplay Exchange QueueTx.
From S2P Require Import ExchangeReplay.
Import Queue QueueIndex Wal Store Replay XChange Tx TxReplay.

Module Commit.

(** ** Invariants *)

(** A queue whose deliveries are not limited by a dead-letter policy. *)
Definition unlimited (q : queue) : Prop := q_max_deliveries q = 0 \/ q_dlq_name q = [].

(** One more message fits. *)
Definition room (q : queue) : Prop := q_max_depth q = 0 \/ q_depth q < q_max_depth q.

(** The invariant of one queue; [nid] and [ntag] are the store's next message
    identity and next delivery tag. *)
Record qinv (nid ntag : Z) (q : queue) : Prop := {
  qi_name : name_ok (q_name q);
  qi_dlq : q_dlq_name q = [] \/ name_ok (q_dlq_name q);
  qi_counters : counters_ok q;
  qi_live : live_ok q;
  qi_tags : tags_ok q;
  qi_earliest : earliest_ok q;
  qi_hint : unlimited q -> hint_ok q;
  qi_ids : NoDup (m_id <$> q_msgs q);
  qi_id_lt : Forall (fun m => 0 <= m_id m < nid) (q_msgs q);
  qi_expires : Forall (fun m => fits 64 (m_expires m)) (q_msgs q);
  qi_tag_lt : Forall (fun m => m_tag m < ntag) (q_msgs q);
  qi_data : Forall (fun m => data_ok (m_data m)) (q_msgs q);
  qi_cap : q_max_depth q = 0 \/ q_depth q <= q_max_depth q }.

Record sinv (s : store) : Prop := {
  si_wf : wf s;
  si_allocs : st_allocs s = [];
  si_id : 0 < st_next_id s;
  si_tag : 0 < st_next_tag s;
  si_owner : 0 < st_next_owner s < 2 ^ 64;
  si_exchanges : xs_ok (st_exchanges s);
  si_queues : Forall (qinv (st_next_id s) (st_next_tag s)) (st_queues s) }.

(** ** Commits *)

(** What every commit does to the rest of the store.  Either the failure
    latch is set, or exactly the records [rs] were appended. *)
Record evolve (s s' : store) (qs : list queue) (rs : list record) : Prop := {
  ev_queues : st_queues s' = qs;
  ev_exchanges : st_exchanges s' = st_exchanges s;
  ev_consumers : st_consumers s' = st_consumers s;
  ev_open : st_log_open s' = st_log_open s;
  ev_log : st_failed s' = true \/ (st_failed s = false /\ st_log s' = st_log s ++ rs);
  ev_seq : st_failed s' = true \/ st_wal_seq s' = st_wal_seq s + zlen rs;
  ev_allocs : st_allocs s = [] -> st_allocs s' = [];
  ev_id : st_next_id s <= st_next_id s';
  ev_tag : st_next_tag s <= st_next_tag s';
  ev_lock : st_next_lock_id s <= st_next_lock_id s';
  ev_owner : 0 < st_next_owner s < 2 ^ 64 -> 0 < st_next_owner s' < 2 ^ 64;
  ev_pending : st_tx_pending s' = st_tx_pending s;
  ev_job : st_job_enabled s' = st_job_enabled s }.

(** The record of a durable queue, nothing for a transient one. *)
Definition logged (q : queue) (op id aux : Z) (data : bytes) : list record :=
  if q_durable q
  then [{| r_op := op; r_durable := true; r_name := q_name q; r_id := id; r_aux := aux;
           r_data := data |}]
  else [].

(** The record of a change of the consumers, when there is a log. *)
Definition consumer_logged (s : store) (op : Z) (name : bytes) (id : Z) : list record :=
  if st_log_open s
  then [{| r_op := op; r_durable := true; r_name := name; r_id := id; r_aux := 0; r_data := [] |}]
  else [].

Definition on_queue (s : store) (qid : Z) (f : queue -> queue) : list queue :=
  map (fun q => if q_lock_id q =? qid then f q else q) (st_queues s).

(** [q] is the live queue behind the pointer [qid]. *)
Definition live_at (s : store) (qid : Z) (q : queue) : Prop :=
  get_queue s qid = Some q /\ q_deleted q = false.

Definition expired (T : Z) (m : message) : bool := has_ttl m && (m_expires m <=? T).

(** The targets of a transaction: identities from [n] on, live queues with
    room behind the pointers. *)
Fixpoint numbered (n : Z) (ts : list tx_target) : Prop :=
  match ts with
  | [] => True
  | t :: ts => t_msg_id t = n /\ numbered (n + 1) ts
  end.

Definition planned (s : store) (t : tx_target) : Prop := exists qid q,
  t_queue t = Some qid /\ live_at s qid q /\ q_name q = t_name t /\ room q.

(** What an operation may do besides changing messages. *)
Inductive power := Plain | Deleting | Transacting | Any.

Definition may_delete (p : power) : bool := match p with Deleting | Any => true | _ => false end.
Definition may_transact (p : power) : bool := match p with Transacting | Any => true | _ => false end.

(** The commits.  [T] bounds the wall-clock readings so far. *)
Inductive commit (T : Z) (del : power) (s s' : store) : Prop :=
  | c_frame : evolve s s' (st_queues s) [] -> commit T del s s'
  | c_link qid q id e d : live_at s qid q ->
      st_next_id s <= id -> id < st_next_id s' -> fits 64 e -> room q -> data_ok d ->
      evolve s s' (on_queue s qid (fun q => message_link q (message_create id e d)))
        (logged q LOG_PUBLISH id e d) -> commit T del s s'
  | c_remove qid q i m : live_at s qid q -> q_msgs q !! i = Some m ->
      evolve s s' (on_queue s qid (fun q => remove_message q i))
        (logged q LOG_ACK (m_id m) 0 []) -> commit T del s s'
  | c_expire qid q i m : live_at s qid q -> q_msgs q !! i = Some m -> expired T m = true ->
      evolve s s' (on_queue s qid (fun q => remove_message q i)) [] -> commit T del s s'
  | c_ready qid q i m : get_queue s qid = Some q -> q_msgs q !! i = Some m -> is_inflight m = true ->
      evolve s s' (on_queue s qid (fun q => make_ready q i 0)) [] -> commit T del s s'
  | c_requeue qid q i m nb : live_at s qid q -> q_msgs q !! i = Some m ->
      is_inflight m = true -> fits 64 nb ->
      evolve s s' (on_queue s qid (fun q => charge_record (make_ready q i nb) i))
        (logged q LOG_REQUEUE (m_id m) nb []) -> commit T del s s'
  | c_deliver qid q i m dl owner tag h : live_at s qid q -> q_msgs q !! i = Some m ->
      is_inflight m = false -> st_next_tag s <= tag -> tag < st_next_tag s' ->
      (unlimited q -> hint_ok q -> hint_ok (set_hint (deliver_to true q i dl owner tag) (h q))) ->
      evolve s s' (on_queue s qid (fun q => set_hint (deliver_to true q i dl owner tag) (h q)))
        (logged q LOG_DELIVER (m_id m) 0 []) -> commit T del s s'
  | c_hint qid q h : live_at s qid q -> (unlimited q -> hint_ok q -> hint_ok (set_hint q (h q))) ->
      evolve s s' (on_queue s qid (fun q => set_hint q (h q))) [] -> commit T del s s'
  | c_earliest qid q d : live_at s qid q -> earliest_ok {| q with q_earliest := d |} ->
      evolve s s' (on_queue s qid (fun q => {| q with q_earliest := d |})) [] -> commit T del s s'
  | c_purge qid q : live_at s qid q ->
      evolve s s' (on_queue s qid (fun q => snd (purge_queue_locked q)))
        (logged q LOG_PURGE (q_depth q) 0 []) -> commit T del s s'
  | c_delete qid q : may_delete del = true -> live_at s qid q ->
      evolve s s' (on_queue s qid tombstone) (logged q LOG_DELETE (q_depth q) 0 []) -> commit T del s s'
  | c_create name durable max dlq maxd inc : find_queue s name = None ->
      name_ok name -> (dlq = [] /\ maxd = 0 \/ name_ok dlq /\ dlq <> name) ->
      fits 64 max -> fits 32 maxd -> st_next_lock_id s' = st_next_lock_id s + 1 ->
      evolve s s' (new_queue (st_next_lock_id s + 1) inc name durable max dlq maxd :: st_queues s)
        (if durable then [{| r_op := LOG_DECLARE; r_durable := true; r_name := name; r_id := 0;
                             r_aux := max; r_data := dlq_ext dlq maxd |}] else []) ->
      commit T del s s'
  | c_register name owner : name_ok name -> 0 < owner < 2 ^ 64 -> find_consumer s name = None ->
      evolve {| s with st_consumers := {| c_name := name; c_owner := owner |} :: st_consumers s |}
        s' (st_queues s) (consumer_logged s LOG_CONSUMER name owner) -> commit T del s s'
  | c_unregister name : name_ok name ->
      evolve {| s with st_consumers := remove_consumer name (st_consumers s) |}
        s' (st_queues s) (consumer_logged s LOG_CONSUMER_DEL name 0) -> commit T del s s'
  | c_exchange xs rs : xchange (st_exchanges s) xs rs ->
      evolve {| s with st_exchanges := xs |} s' (st_queues s) rs -> commit T del s s'
  | c_prepare tx : may_transact del = true -> tx_form tx -> numbered (st_next_id s) (tx_targets tx) ->
      st_next_id s + zlen (tx_targets tx) <= st_next_id s' ->
      evolve s s' (st_queues s) [prepare_record tx] -> commit T del s s'
  | c_transact tx : may_transact del = true -> tx_form tx -> numbered (st_next_id s) (tx_targets tx) ->
      st_next_id s + zlen (tx_targets tx) <= st_next_id s' ->
      Forall (planned s) (tx_targets tx) -> NoDup (t_queue <$> tx_targets tx) ->
      evolve s s' (st_queues (tx_materialize_locked s tx)) [prepare_record tx; commit_record tx] ->
      commit T del s s'.

Lemma commit_id_mono T del s s' : commit T del s s' -> st_next_id s <= st_next_id s'.
Proof.
  destruct 1; match goal with E : evolve _ _ _ _ |- _ => apply (ev_id _ _ _ _ E) end.
Qed.

Lemma commits_ids T del s s' : rtc (commit T del) s s' -> st_next_id s <= st_next_id s'.
Proof. induction 1 as [|s s1 s' C _ IH]; [lia|]. apply commit_id_mono in C. lia. Qed.

(** What no commit changes. *)
Lemma commits_fixed T del s s' : rtc (commit T del) s s' ->
  st_tx_pending s' = st_tx_pending s /\ st_job_enabled s' = st_job_enabled s.
Proof.
  induction 1 as [|s s1 s' C _ [-> ->]]; [done|].
  destruct C; match goal with E : evolve _ _ _ _ |- _ => by rewrite (ev_pending _ _ _ _ E), (ev_job _ _ _ _ E) end.
Qed.

(** ** Each change keeps the queue invariant *)

Lemma qinv_mono nid ntag nid' ntag' q :
  nid <= nid' -> ntag <= ntag' -> qinv nid ntag q -> qinv nid' ntag' q.
Proof.
  intros H1 H2 []. constructor; try done.
  - eapply Forall_impl; [exact qi_id_lt0|]. simpl. lia.
  - eapply Forall_impl; [exact qi_tag_lt0|]. simpl. lia.
Qed.

Lemma unlimited_config q q' : config q' = config q -> unlimited q' -> unlimited q.
Proof. unfold config, unlimited. intros. simplify_eq. congruence. Qed.

Lemma fmap_delete {A B} (f : A -> B) i (l : list A) : f <$> delete i l = delete i (f <$> l).
Proof. revert i. induction l as [|x l IH]; intros [|i]; csimpl; [done..|]. by rewrite IH. Qed.

Lemma NoDup_delete {A} (l : list A) i : NoDup l -> NoDup (delete i l).
Proof. intros H. eapply sublist_NoDup; [exact H|]. apply sublist_delete. Qed.

Lemma fmap_alter_id {A B} (f : A -> B) g i (l : list A) : (forall x, f (g x) = f x) ->
  f <$> alter g i l = f <$> l.
Proof.
  intros H. revert i. induction l as [|x l IH]; intros [|i]; csimpl; [done|done|by rewrite H|].
  by rewrite IH.
Qed.

Lemma Forall_alter_all {A} (P : A -> Prop) g i (l : list A) :
  (forall x, P x -> P (g x)) -> Forall P l -> Forall P (alter g i l).
Proof.
  intros H. rewrite !Forall_lookup. intros Hl j x. rewrite list_lookup_alter.
  case_decide; [|by apply Hl]. intros (y & Hy & ->)%fmap_Some. eauto.
Qed.

Lemma qinv_remove nid ntag q i : qinv nid ntag q -> qinv nid ntag (remove_message q i).
Proof.
  intros []. pose proof (remove_message_config q i) as C. pose proof C as C'.
  unfold config in C'. injection C' as C1 C2 C3 C4 C5 C6 C7.
  constructor; rewrite ?remove_message_msgs, ?C2, ?C5;
    auto using remove_message_counters, remove_message_live, remove_message_tags,
      remove_message_earliest, Forall_delete.
  - intros Hu. apply remove_message_hint. eauto using unlimited_config.
  - rewrite fmap_delete. by apply NoDup_delete.
  - rewrite C7. destruct qi_cap0 as [|Hc]; [by left|right].
    destruct (q_msgs q !! i) as [m|] eqn:E; [|by rewrite remove_message_none].
    destruct (remove_message_fields q i m E). rewrite rm_depth0. unfold dec0.
    destruct qi_counters0 as [-> _] in Hc |- *. gcase; lia.
Qed.

Lemma qinv_link nid nid' ntag q id e d : qinv nid ntag q -> 0 < nid -> nid <= id -> id < nid' ->
  fits 64 e -> 0 < ntag -> room q -> data_ok d ->
  qinv nid' ntag (message_link q (message_create id e d)).
Proof.
  intros Hq Hpos H1 H2 He Ht Hr Hd. pose proof (qi_id_lt _ _ _ Hq) as Hlt.
  apply (qinv_mono nid ntag nid' ntag) in Hq; [|lia..]. destruct Hq.
  assert (L : forall m, m_id (linked q m) = m_id m /\ m_data (linked q m) = m_data m /\
    m_expires (linked q m) = m_expires m) by (intros m; unfold linked; by gcase).
  destruct (L (message_create id e d)) as (L1 & L2 & L3).
  constructor; try done; simpl.
  - by apply message_link_counters.
  - by apply message_link_live.
  - by apply message_link_tags.
  - by apply message_link_earliest.
  - intros Hu. apply message_link_hint. auto.
  - rewrite fmap_app. apply NoDup_app. split; [done|]. csimpl. rewrite L1. simpl.
    split; [|apply NoDup_singleton].
    intros x (m & -> & Hm)%list_elem_of_fmap. rewrite list_elem_of_singleton. intros E.
    rewrite Forall_forall in Hlt. specialize (Hlt m Hm). lia.
  - apply Forall_app_2; [done|]. constructor; [rewrite L1; simpl; lia|constructor].
  - apply Forall_app_2; [done|]. constructor; [by rewrite L3|constructor].
  - apply Forall_app_2; [done|]. constructor; [by rewrite linked_tag|constructor].
  - apply Forall_app_2; [done|]. constructor; [by rewrite L2|constructor].
  - destruct Hr; [by left|right; lia].
Qed.

(** A change of one message that keeps what the log describes. *)
Record retouch (g : message -> message) : Prop := {
  rt_id : forall m, m_id (g m) = m_id m;
  rt_expires : forall m, m_expires (g m) = m_expires m;
  rt_data : forall m, m_data (g m) = m_data m }.

Lemma make_ready_msgs q i nb : exists g, retouch g /\
  q_msgs (make_ready q i nb) = alter g i (q_msgs q) /\
  (forall m, m_state (g m) = MESSAGE_READY /\ m_deliveries (g m) = m_deliveries m /\
             (m_tag (g m) = 0 \/ m_tag (g m) = m_tag m)).
Proof.
  unfold make_ready. simpl. destruct (tag_index_remove_msgs q i) as [->| ->].
  - eexists. split; [|split; [reflexivity|]]; [constructor; done|]. intros m. simpl. auto.
  - exists (fun m => {| m with m_state := MESSAGE_READY; m_time := nb; m_owner := 0; m_tag := 0 |}).
    split; [constructor; done|]. split; [|intros m; simpl; auto].
    by rewrite alter_compose.
Qed.

Lemma charge_record_msgs q i : exists g, retouch g /\
  q_msgs (charge_record q i) = alter g i (q_msgs q) /\
  (forall m, m_state (g m) = m_state m /\ m_deliveries (g m) = m_deliveries m /\
             m_tag (g m) = m_tag m /\ m_time (g m) = m_time m).
Proof.
  unfold charge_record. destruct (q_durable q); simpl.
  - eexists. split; [|split; [reflexivity|]]; [constructor; done|]. intros m. simpl. auto.
  - exists id. split; [constructor; done|]. split; [|intros m; simpl; auto].
    apply list_eq. intros j. rewrite list_lookup_alter. case_decide; [subst|done].
    by destruct (q_msgs q !! j).
Qed.

Lemma deliver_to_msgs q i dl o t : exists g, retouch g /\
  q_msgs (deliver_to true q i dl o t) = alter g i (q_msgs q) /\
  (forall m, m_state (g m) = MESSAGE_INFLIGHT /\ m_deliveries (g m) = u32 (m_deliveries m + 1) /\
             m_tag (g m) = t /\ m_time (g m) = dl).
Proof.
  unfold deliver_to.
  destruct (charge_record_msgs (inc_inflight (tag_index_insert true (lease q i dl o t) i)) i)
    as (g & [R1 R2 R3] & E & H).
  exists (g ∘ (fun m => {| m with m_state := MESSAGE_INFLIGHT; m_time := dl;
     m_deliveries := u32 (m_deliveries m + 1); m_owner := o; m_tag := t |})).
  split; [constructor; intros m; simpl; by rewrite ?R1, ?R2, ?R3|]. split.
  - rewrite E. change (q_msgs (inc_inflight ?x)) with (q_msgs x).
    rewrite tag_index_insert_msgs. simpl. by rewrite alter_compose.
  - intros m. simpl. destruct (H {| m with m_state := MESSAGE_INFLIGHT; m_time := dl;
      m_deliveries := u32 (m_deliveries m + 1); m_owner := o; m_tag := t |})
      as (-> & -> & -> & ->). done.
Qed.

Lemma retouch_ids g i (l : list message) : retouch g -> m_id <$> alter g i l = m_id <$> l.
Proof. intros [H _ _]. by apply fmap_alter_id. Qed.

Lemma retouch_id_lt g i (l : list message) n : retouch g ->
  Forall (fun m => 0 <= m_id m < n) l -> Forall (fun m => 0 <= m_id m < n) (alter g i l).
Proof. intros [H _ _]. apply Forall_alter_all. intros x. by rewrite H. Qed.

Lemma retouch_exp g i (l : list message) : retouch g ->
  Forall (fun m => fits 64 (m_expires m)) l -> Forall (fun m => fits 64 (m_expires m)) (alter g i l).
Proof. intros [_ H _]. apply Forall_alter_all. intros x. by rewrite H. Qed.

Lemma retouch_data g i (l : list message) : retouch g ->
  Forall (fun m => data_ok (m_data m)) l -> Forall (fun m => data_ok (m_data m)) (alter g i l).
Proof. intros [_ _ H]. apply Forall_alter_all. intros x. by rewrite H. Qed.

Lemma retouch_ttl g m : retouch g -> has_ttl (g m) = has_ttl m.
Proof. intros [_ H _]. unfold has_ttl. by rewrite H. Qed.

Lemma make_ready_earliest q i nb : earliest_ok q -> earliest_ok (make_ready q i nb).
Proof.
  intros H m. destruct (make_ready_msgs q i nb) as (g & R & -> & F).
  change (q_earliest (make_ready q i nb)) with (q_earliest (tag_index_remove q i)).
  rewrite (sbt_earliest _ _ (tag_index_remove_same q i)).
  intros [Hm|(y & Hy & ->)]%elem_of_alter; [by apply H|].
  intros Hi. apply is_inflight_state in Hi. by rewrite (proj1 (F y)) in Hi.
Qed.

Lemma charge_record_earliest q i : earliest_ok q -> earliest_ok (charge_record q i).
Proof.
  intros H m. destruct (charge_record_msgs q i) as (g & R & -> & F).
  replace (q_earliest (charge_record q i)) with (q_earliest q) by (unfold charge_record; by gcase).
  intros [Hm|(y & Hy & ->)]%elem_of_alter; [by apply H|].
  destruct (F y) as (F1 & _ & _ & F4). unfold is_inflight. rewrite F1, F4, retouch_ttl by done.
  apply H. by eapply list_elem_of_lookup_2.
Qed.

Lemma deliver_to_earliest_field q i dl o t :
  q_earliest (deliver_to true q i dl o t) = Z.min dl (q_earliest q).
Proof.
  unfold deliver_to. replace (q_earliest (charge_record _ i))
    with (q_earliest (tag_index_insert true (lease q i dl o t) i))
    by (unfold charge_record; by gcase).
  by rewrite (sbt_earliest _ _ (tag_index_insert_same true _ i)).
Qed.

Lemma deliver_to_earliest q i dl o t : earliest_ok q -> earliest_ok (deliver_to true q i dl o t).
Proof.
  intros H m. destruct (deliver_to_msgs q i dl o t) as (g & R & -> & F).
  rewrite deliver_to_earliest_field.
  intros [Hm|(y & Hy & ->)]%elem_of_alter Hi Ht.
  - specialize (H m Hm Hi Ht). lia.
  - destruct (F y) as (_ & _ & _ & ->). lia.
Qed.

Lemma config_inv q q' : config q' = config q ->
  q_lock_id q' = q_lock_id q /\ q_name q' = q_name q /\ q_durable q' = q_durable q /\
  q_deleted q' = q_deleted q /\ q_dlq_name q' = q_dlq_name q /\
  q_max_deliveries q' = q_max_deliveries q /\ q_max_depth q' = q_max_depth q.
Proof. unfold config. intros H. by simplify_eq. Qed.

(** Reads the fields of a configuration equation. *)
Ltac config_fields C :=
  destruct (config_inv _ _ C) as (Cid & Cname & Cdur & Cdel & Cdlq & Cmaxd & Cmax).

Lemma qinv_ready nid ntag q i nb m : q_msgs q !! i = Some m -> is_inflight m = true ->
  0 < ntag -> qinv nid ntag q -> qinv nid ntag (make_ready q i nb).
Proof.
  intros E Hm Hpos []. destruct (make_ready_msgs q i nb) as (g & R & M & F).
  config_fields (make_ready_config q i nb).
  pose proof (make_ready_counters q i nb m E Hm qi_counters0) as K.
  constructor; rewrite ?M, ?Cname, ?Cdlq, ?Cmax; try done.
  - by apply make_ready_live.
  - by eapply make_ready_tags.
  - by apply make_ready_earliest.
  - intros _. apply make_ready_hint.
  - by rewrite retouch_ids.
  - by apply retouch_id_lt.
  - by apply retouch_exp.
  - apply Forall_alter_all; [|done]. intros x Hx. destruct (F x) as (_ & _ & [->| ->]); done.
  - by apply retouch_data.
  - rewrite (proj1 K), M, zlen_alter, <- (proj1 qi_counters0). done.
Qed.

Lemma charge_record_tags q i : tags_ok q -> tags_ok (charge_record q i).
Proof.
  rewrite !tags_ok_iff. destruct (charge_record_tag_fields q i) as (-> & -> & F1 & F2).
  rewrite (tags_fmap _ _ F1). intros [Hf Hi]. split; [|done].
  by apply (Forall_tag_state (q_msgs q)).
Qed.

Lemma charge_record_hint q i : hint_ok q -> hint_ok (charge_record q i).
Proof.
  intros [H1 H2]. replace (q_hint (charge_record q i)) with (q_hint q)
    by (unfold charge_record; by gcase).
  split; replace (q_hint (charge_record q i)) with (q_hint q)
    by (unfold charge_record; by gcase).
  - by rewrite charge_record_length.
  - intros j m Hj Hm. pose proof (charge_record_state q i j) as S. rewrite Hm in S.
    destruct (q_msgs q !! j) as [m'|] eqn:E; [|done]. simpl in S. injection S as S.
    apply is_inflight_state. rewrite S. by apply is_inflight_state, (H2 j).
Qed.

Lemma qinv_charge nid ntag q i m : q_msgs q !! i = Some m ->
  qinv nid ntag q -> qinv nid ntag (charge_record q i).
Proof.
  intros E []. destruct (charge_record_msgs q i) as (g & R & M & F).
  config_fields (charge_record_config q i).
  pose proof (charge_record_counters q i qi_counters0) as K.
  constructor; rewrite ?M, ?Cname, ?Cdlq, ?Cmax; try done.
  - by eapply charge_record_live.
  - by apply charge_record_tags.
  - by apply charge_record_earliest.
  - intros Hu. apply charge_record_hint. eauto using unlimited_config, charge_record_config.
  - by rewrite retouch_ids.
  - by apply retouch_id_lt.
  - by apply retouch_exp.
  - apply Forall_alter_all; [|done]. intros x Hx. by destruct (F x) as (_ & _ & -> & _).
  - by apply retouch_data.
  - rewrite (proj1 K), M, zlen_alter, <- (proj1 qi_counters0). done.
Qed.

Lemma set_hint_config q h : config (set_hint q h) = config q.
Proof. done. Qed.

Lemma set_hint_twice q a b : set_hint (set_hint q a) b = set_hint q b.
Proof. done. Qed.

Lemma qinv_set_hint nid ntag q h : (unlimited q -> hint_ok (set_hint q h)) ->
  qinv nid ntag q -> qinv nid ntag (set_hint q h).
Proof. intros H []. constructor; done. Qed.

(** A fresh tag is carried by no message. *)
Lemma fresh_tag l ntag t : Forall (fun m => m_tag m < ntag) l -> ntag <= t -> t ∉ tags l.
Proof.
  intros Hl Ht (H0 & m & Hm & E)%elem_of_tags. rewrite Forall_forall in Hl.
  specialize (Hl m Hm). lia.
Qed.

Lemma deliver_to_as_deliver a q i dl o t h :
  set_hint (deliver_to a q i dl o t) h = set_hint (deliver a q i dl o t None) h.
Proof. unfold deliver. by rewrite set_hint_twice. Qed.

(** The invariant of a queue [d] that differs from [q] by a delivery. *)
Lemma qinv_delivered nid ntag q i d g : retouch g -> q_msgs d = alter g i (q_msgs q) ->
  (forall m, m_tag (g m) < ntag) -> config d = config q -> counters_ok d -> live_ok d ->
  tags_ok d -> earliest_ok d -> (unlimited q -> hint_ok q -> hint_ok d) ->
  qinv nid ntag q -> qinv nid ntag d.
Proof.
  intros R M Ht C K L1 T1 E1 H1 []. config_fields C.
  constructor; rewrite ?Cname, ?Cdlq, ?Cmax, ?M; try done.
  - intros Hu. pose proof (unlimited_config _ _ C Hu). auto.
  - by rewrite retouch_ids.
  - by apply retouch_id_lt.
  - by apply retouch_exp.
  - apply Forall_alter_all; [|done]. intros x _. apply Ht.
  - by apply retouch_data.
  - rewrite (proj1 K), M, zlen_alter, <- (proj1 qi_counters0). done.
Qed.

Lemma earliest_set_hint q h : earliest_ok q -> earliest_ok (set_hint q h).
Proof. done. Qed.

Lemma msgs_set_hint q h : q_msgs (set_hint q h) = q_msgs q.
Proof. done. Qed.

Lemma qinv_deliver nid ntag ntag' q i m dl o t h : q_msgs q !! i = Some m ->
  is_inflight m = false -> 0 < ntag -> ntag <= t -> t < ntag' ->
  (unlimited q -> hint_ok q -> hint_ok (set_hint (deliver_to true q i dl o t) h)) ->
  qinv nid ntag q -> qinv nid ntag' (set_hint (deliver_to true q i dl o t) h).
Proof.
  intros E Hm Hpos Ht1 Ht2 Hh Hq. pose proof (qi_tag_lt _ _ _ Hq) as Hlt.
  apply (qinv_mono nid ntag nid ntag') in Hq; [|lia..].
  destruct (deliver_to_msgs q i dl o t) as (g & R & M & F).
  pose proof (fresh_tag _ _ _ Hlt Ht1) as Hfresh. destruct Hq as [] eqn:EQ.
  apply (qinv_delivered nid ntag' q i _ g R).
  - by rewrite msgs_set_hint.
  - intros x. destruct (F x) as (_ & _ & -> & _). lia.
  - rewrite deliver_to_as_deliver, set_hint_config. apply deliver_config.
  - by apply counters_set_hint, (deliver_to_counters true q i dl o t m).
  - rewrite deliver_to_as_deliver. by apply live_set_hint, (deliver_live true q i dl o t None m).
  - rewrite deliver_to_as_deliver.
    apply tags_set_hint, (deliver_tags q i dl o t None m); auto; lia.
  - by apply earliest_set_hint, deliver_to_earliest.
  - exact Hh.
  - exact Hq.
Qed.

Lemma remove_heads_inv nid ntag n q : qinv nid ntag q -> qinv nid ntag (remove_heads n q).
Proof. revert q. induction n; intros q Hq; simpl; auto using qinv_remove. Qed.

Lemma qinv_purge nid ntag q : qinv nid ntag q -> qinv nid ntag (snd (purge_queue_locked q)).
Proof.
  intros Hq. pose proof (purge_msgs q) as M.
  pose proof (remove_heads_inv nid ntag (length (q_msgs q)) q Hq) as [].
  constructor; try done.
  - intros m. rewrite M. by intros Hm%not_elem_of_nil.
  - intros _. split; [simpl; lia|]. intros j m _ Hm. by rewrite M in Hm.
Qed.

Lemma qinv_tombstone nid ntag q : qinv nid ntag q -> qinv nid ntag (tombstone q).
Proof. intros Hq%qinv_purge. destruct Hq. constructor; try done. Qed.

Lemma qinv_new nid ntag lid inc name durable max dlq maxd : name_ok name ->
  dlq = [] \/ name_ok dlq -> 0 <= max ->
  qinv nid ntag (new_queue lid inc name durable max dlq maxd).
Proof.
  intros Hn Hd Hm. constructor; simpl; auto.
  - done.
  - intros D _. simpl in *. unfold declare_bytes. simpl. rewrite D. f_equal. lia.
  - split; [constructor|]. split; [apply NoDup_nil_2|done].
  - intros m Hm'. by apply not_elem_of_nil in Hm'.
  - intros _. split; simpl; [lia|]. intros; lia.
  - apply NoDup_nil_2.
Qed.

(** ** Each commit keeps the store invariant *)

Lemma wf_same s s' : st_queues s' = st_queues s -> st_next_lock_id s <= st_next_lock_id s' ->
  wf s -> wf s'.
Proof.
  intros E H [H1 H2 H3]. unfold lock_ids, live_queues in *.
  constructor; unfold lock_ids, live_queues; rewrite E; try done.
  eapply Forall_impl; [exact H2|]. simpl. lia.
Qed.

Lemma wf_on_queue s s' qid f : st_queues s' = on_queue s qid f ->
  st_next_lock_id s <= st_next_lock_id s' -> wf (upd_queue s qid f) -> wf s'.
Proof. intros E H. by apply wf_same. Qed.

Lemma Forall_on_queue P Q s qid q f : wf s -> get_queue s qid = Some q ->
  (forall x : queue, P x -> Q x) -> Q (f q) ->
  Forall P (st_queues s) -> Forall Q (on_queue s qid f).
Proof.
  intros W G HPQ Hf. unfold on_queue. rewrite !Forall_forall. intros H x Hx.
  apply list_elem_of_In, in_map_iff in Hx as (y & <- & Hy%list_elem_of_In).
  destruct (Z.eqb_spec (q_lock_id y) qid) as [E|]; [|auto].
  pose proof (wf_get s y W Hy) as G'. rewrite E, G in G'. by simplify_eq.
Qed.

Lemma get_inv s qid q : sinv s -> get_queue s qid = Some q ->
  qinv (st_next_id s) (st_next_tag s) q.
Proof.
  intros [_ _ _ _ _ _ H] G. rewrite Forall_forall in H. apply H.
  by apply get_queue_In in G as [? _].
Qed.

Lemma live_at_inv s qid q : sinv s -> live_at s qid q ->
  qinv (st_next_id s) (st_next_tag s) q.
Proof. intros H [G _]. by eapply get_inv. Qed.

(** The store invariant after a change of one queue. *)
Lemma sinv_on_queue s s' qid q f rs : sinv s -> get_queue s qid = Some q ->
  evolve s s' (on_queue s qid f) rs -> wf (upd_queue s qid f) ->
  qinv (st_next_id s') (st_next_tag s') (f q) -> sinv s'.
Proof.
  intros Hs Hl [E1 E2 _ _ _ _ E3 E4 E5 E6 E7] Hw Hq. destruct Hs as [W A N T O X F]. constructor.
  - by eapply wf_on_queue.
  - auto.
  - lia.
  - lia.
  - auto.
  - by rewrite E2.
  - rewrite E1. eapply Forall_on_queue; [done|exact Hl| |done|exact F].
    intros x. apply qinv_mono; lia.
Qed.

Lemma earliest_config q d : config {| q with q_earliest := d |} = config q.
Proof. done. Qed.

Lemma deliver_set_config a q i dl o t h :
  config (set_hint (deliver_to a q i dl o t) h) = config q.
Proof. rewrite deliver_to_as_deliver, set_hint_config. apply deliver_config. Qed.

(** Discharges [keeps_config] of the changes a commit makes. *)
Ltac keeps_config_tac :=
  intros ?; cbv beta;
  lazymatch goal with
  | |- config (remove_message _ _) = _ => apply remove_message_config
  | |- config (make_ready _ _ _) = _ => apply make_ready_config
  | |- config (message_link _ _) = _ => apply message_link_config
  | |- config (snd (purge_queue_locked _)) = _ => apply purge_config
  | |- config (set_hint (deliver_to _ _ _ _ _ _) _) = _ => apply deliver_set_config
  | |- config (set_hint _ _) = _ => apply set_hint_config
  | |- config (charge_record (make_ready _ _ _) _) = _ =>
      rewrite charge_record_config; apply make_ready_config
  | _ => apply earliest_config
  end.

Ltac config_wf := apply upd_config_wf; [keeps_config_tac|apply si_wf; assumption].

Lemma sinv_frame s s1 s' rs : sinv s -> st_queues s1 = st_queues s ->
  st_allocs s1 = st_allocs s -> st_next_id s1 = st_next_id s -> st_next_tag s1 = st_next_tag s ->
  st_next_lock_id s1 = st_next_lock_id s -> st_next_owner s1 = st_next_owner s ->
  xs_ok (st_exchanges s1) -> evolve s1 s' (st_queues s) rs -> sinv s'.
Proof.
  intros [W A Hi Ht Ho _ F] Q1 Q2 Q3 Q4 Q5 Q6 HX [E1 E2 _ _ _ _ E3 E4 E5 E6 E7].
  rewrite Q2 in E3. rewrite Q3 in E4. rewrite Q4 in E5. rewrite Q5 in E6. rewrite Q6 in E7. constructor; auto; [|lia|lia| |].
  - by eapply wf_same.
  - by rewrite E2.
  - rewrite E1. eapply Forall_impl; [exact F|]. intros q. apply qinv_mono; lia.
Qed.

(** ** The messages of a transaction

    A commit of a transaction is the same as linking its messages one by one,
    each under the next identity. *)

Definition link_next (tx : queue_tx) (s : store) (t : tx_target) : store :=
  let s' := materialize_one tx s t in {| s' with st_next_id := t_msg_id t + 1 |}.

Definition tx_link (tx : queue_tx) (t : tx_target) (q : queue) : queue :=
  message_link q (message_create (t_msg_id t) (tx_expires tx) (tx_data tx)).

Lemma tx_link_config tx t : keeps_config (tx_link tx t).
Proof. intros q. apply message_link_config. Qed.

Lemma materialize_known tx s t qid : st_allocs s = [] -> t_queue t = Some qid ->
  materialize_one tx s t = upd_queue s qid (tx_link tx t).
Proof. intros A E. unfold materialize_one, append_message. by rewrite E, alloc_nil. Qed.

Lemma link_next_evolve tx s t qid : st_allocs s = [] -> t_queue t = Some qid ->
  t_msg_id t = st_next_id s -> evolve s (link_next tx s t) (on_queue s qid (tx_link tx t)) [].
Proof.
  intros A E I. unfold link_next. rewrite (materialize_known tx s t qid) by done.
  constructor; simpl; try done; try lia; destruct (st_failed s); try (by left); right;
    [by rewrite app_nil_r|unfold zlen; simpl; lia].
Qed.

Section Linking.
Context (tx : queue_tx).
Hypothesis Hdata : data_ok (tx_data tx).
Hypothesis Hexp : fits 64 (tx_expires tx).

Lemma link_next_inv s t : sinv s -> planned s t -> t_msg_id t = st_next_id s -> sinv (link_next tx s t).
Proof.
  intros Hs (qid & q & Eq & [G D] & _ & R) Ei.
  pose proof (link_next_evolve tx s t qid (si_allocs _ Hs) Eq Ei) as E.
  eapply sinv_on_queue; [exact Hs|exact G|exact E|apply upd_config_wf; [apply tx_link_config|apply Hs]|].
  eapply qinv_mono; [apply Z.le_refl|apply (ev_tag _ _ _ _ E)|].
  pose proof (si_id _ Hs). eapply (qinv_link (st_next_id s)); eauto using get_inv, si_tag; [lia|].
  unfold link_next. simpl. lia.
Qed.

Lemma link_next_planned s t t' : sinv s -> planned s t -> t_msg_id t = st_next_id s ->
  t_queue t' <> t_queue t -> planned s t' -> planned (link_next tx s t) t'.
Proof.
  intros Hs (qid & q & Eq & [G D] & _) Ei Hne (qid' & q' & Eq' & [G' D'] & N' & R').
  exists qid', q'. split; [done|]. split; [|done]. split; [|done].
  pose proof (link_next_evolve tx s t qid (si_allocs _ Hs) Eq Ei) as E.
  replace (get_queue (link_next tx s t) qid') with (get_queue (upd_queue s qid (tx_link tx t)) qid')
    by (unfold get_queue; by rewrite (ev_queues _ _ _ _ E)).
  rewrite (get_upd_config s qid q) by (done || apply Hs || apply tx_link_config).
  rewrite decide_False; [done|]. intros ->. congruence.
Qed.

(** Properties that each link keeps hold after all of them. *)
Lemma link_all (P : store -> list tx_target -> Prop) :
  (forall s t ts, sinv s -> planned s t -> t_msg_id t = st_next_id s -> P s (t :: ts) ->
     P (link_next tx s t) ts) ->
  forall ts s, sinv s -> numbered (st_next_id s) ts -> Forall (planned s) ts ->
  NoDup (t_queue <$> ts) -> P s ts -> let s' := fold_left (link_next tx) ts s in
  sinv s' /\ st_next_id s' = st_next_id s + zlen ts /\ P s' [].
Proof.
  intros HP. induction ts as [|t ts IH]; intros s Hs Hn Hp Hd H; cbn zeta.
  { cbn [fold_left]. split; [done|]. split; [rewrite zlen_nil; lia|done]. }
  destruct Hn as [Ei Hn]. apply Forall_cons in Hp as [Hp Hps]. rewrite fmap_cons in Hd.
  apply NoDup_cons in Hd as [Hni Hd]. cbn [fold_left].
  assert (En : st_next_id (link_next tx s t) = st_next_id s + 1) by (unfold link_next; simpl; lia).
  destruct (IH (link_next tx s t)) as (S' & N' & P'); rewrite ?En; auto using link_next_inv.
  - rewrite Forall_forall in *. intros t' Ht'. apply link_next_planned; auto.
    intros E. apply Hni. rewrite <- E. by apply list_elem_of_fmap_2.
  - split; [done|]. split; [|done]. rewrite N', En, zlen_cons. lia.
Qed.

End Linking.

(** Only the identities distinguish the two. *)
Lemma link_fold tx ts : forall s1 s2, st_allocs s1 = [] -> st_queues s2 = st_queues s1 ->
  (forall t, t ∈ ts -> t_queue t <> None) -> st_allocs s2 = [] ->
  st_queues (fold_left (link_next tx) ts s2) = st_queues (fold_left (materialize_one tx) ts s1).
Proof.
  induction ts as [|t ts IH]; intros s1 s2 A1 E Hq A2; [done|]. cbn [fold_left].
  destruct (t_queue t) as [qid|] eqn:Et; [|exfalso; apply (Hq t); [left|done]].
  assert (Hq' : forall t, t ∈ ts -> t_queue t <> None) by (intros u Hu; apply Hq; by right).
  unfold link_next at 2. rewrite !(materialize_known tx _ t qid) by done. cbv zeta.
  apply IH; try done. simpl. by rewrite E.
Qed.

(** The store around the queues. *)
Record same_frame (s s' : store) : Prop := SameFrame {
  sf_exchanges : st_exchanges s' = st_exchanges s;
  sf_consumers : st_consumers s' = st_consumers s;
  sf_open : st_log_open s' = st_log_open s;
  sf_allocs : st_allocs s' = st_allocs s;
  sf_tag : st_next_tag s' = st_next_tag s;
  sf_lock : st_next_lock_id s' = st_next_lock_id s;
  sf_owner : st_next_owner s' = st_next_owner s }.

Lemma link_frame tx ts : forall s, st_allocs s = [] -> (forall t, t ∈ ts -> t_queue t <> None) ->
  same_frame s (fold_left (link_next tx) ts s).
Proof.
  induction ts as [|t ts IH]; intros s A Hq; [done|]. cbn [fold_left].
  destruct (t_queue t) as [qid|] eqn:Et; [|exfalso; apply (Hq t); [left|done]].
  assert (Hq' : forall t, t ∈ ts -> t_queue t <> None) by (intros u Hu; apply Hq; by right).
  assert (F : same_frame s (link_next tx s t)) by (unfold link_next; by rewrite (materialize_known tx s t qid)).
  destruct (IH (link_next tx s t)) as []; [by rewrite (sf_allocs _ _ F)|done|].
  destruct F. constructor; congruence.
Qed.

Lemma transact_frame tx ts s s' rs : (forall t, t ∈ ts -> t_queue t <> None) -> st_allocs s = [] ->
  evolve s s' (st_queues (fold_left (materialize_one tx) ts s)) rs ->
  let sl := fold_left (link_next tx) ts s in
  sinv sl -> st_next_id sl <= st_next_id s' -> sinv s'.
Proof.
  intros Hq A [E1 E2 _ _ _ _ E3 E4 E5 E6 E7] sl [W _ Hi Ht Ho X F] Hid.
  rewrite <- (link_fold tx ts s s) in E1 by done. fold sl in E1.
  destruct (link_frame tx ts s A Hq) as [S1 S2 S3 S4 S5 S6 S7]. fold sl in S1, S2, S3, S4, S5, S6, S7.
  constructor; auto; [|lia|lia| | |].
  - eapply wf_same; [exact E1|lia|done].
  - apply E7. by rewrite <- S7.
  - by rewrite E2, <- S1.
  - rewrite E1. eapply Forall_impl; [exact F|]. intros q. apply qinv_mono; lia.
Qed.

Lemma planned_queue s ts t : Forall (planned s) ts -> t ∈ ts -> t_queue t <> None.
Proof. rewrite Forall_forall. intros H Ht E. destruct (H t Ht) as (qid & _ & Eq & _). congruence. Qed.

(** The invariant of the changed queue of a commit, up to the growth of the
    store's counters. *)
Ltac changed E Hs L :=
  pose proof (get_inv _ _ _ Hs L) as Hq;
  eapply sinv_on_queue; [exact Hs|exact L|exact E| |];
  [first [config_wf | apply tombstone_wf, si_wf, Hs]|];
  eapply qinv_mono; [apply (ev_id _ _ _ _ E)|apply (ev_tag _ _ _ _ E)|].

Lemma commit_sinv T del s s' : commit T del s s' -> sinv s -> sinv s'.
Proof.
  intros C Hs. pose proof (si_tag _ Hs) as Ht. pose proof (si_id _ Hs) as Hi.
  destruct C as [E|qid q id e d [L _] ? ? ? ? ? E|qid q i m [L _] ? E|qid q i m [L _] ? ? E
    |qid q i m L ? ? E|qid q i m nb [L _] Em ? ? E|qid q i m dl o tag h [L _] ? ? ? ? ? E
    |qid q h [L _] Hh E|qid q d [L _] ? E|qid q [L _] E|qid q ? [L _] E
    |name durable max dlq maxd inc ? ? ? ? ? ? E|name o ? ? ? E|name ? E|xs rs HX E
    |tx ? Hf Hn Hb E|tx ? Hf Hn Hb Hp Hd E].
  - by eapply (sinv_frame s s); [..|apply Hs|].
  - pose proof (get_inv _ _ _ Hs L). eapply sinv_on_queue; [exact Hs|exact L|exact E|config_wf|].
    eapply qinv_mono; [apply Z.le_refl|apply (ev_tag _ _ _ _ E)|]. by eapply qinv_link; eauto.
  - changed E Hs L. by apply qinv_remove.
  - changed E Hs L. by apply qinv_remove.
  - changed E Hs L. by eapply qinv_ready.
  - changed E Hs L. destruct (make_ready_msgs q i nb) as (g & _ & M & _).
    eapply qinv_charge; [rewrite M, list_lookup_alter_eq, Em; done|]. by eapply qinv_ready.
  - pose proof (get_inv _ _ _ Hs L). eapply sinv_on_queue; [exact Hs|exact L|exact E|config_wf|].
    eapply qinv_mono; [apply (ev_id _ _ _ _ E)|apply Z.le_refl|].
    by eapply (qinv_deliver _ (st_next_tag s)).
  - changed E Hs L. apply qinv_set_hint; [|done]. intros Hu. apply Hh; [done|]. by apply Hq.
  - changed E Hs L. destruct Hq. by constructor.
  - changed E Hs L. by apply qinv_purge.
  - changed E Hs L. by apply qinv_tombstone.
  - destruct E as [E1 E2 _ _ _ _ E3 E4 E5 E6 E7]. destruct Hs as [W A _ _ O X F].
    constructor; auto; [|lia|lia| |].
    + eapply create_wf; eauto; done.
    + by rewrite E2.
    + rewrite E1. constructor; [apply qinv_new; unfold fits in *; try tauto; lia|].
      eapply Forall_impl; [exact F|]. intros x. apply qinv_mono; lia.
  - eapply sinv_frame; [exact Hs| | | | | | | |exact E]; try done; apply Hs.
  - eapply sinv_frame; [exact Hs| | | | | | | |exact E]; try done; apply Hs.
  - eapply sinv_frame; [exact Hs| | | | | | | |exact E]; try done.
    eapply xchange_ok; [exact HX|apply Hs].
  - by eapply (sinv_frame s s); [..|apply Hs|].
  - destruct Hf. destruct (link_all tx tf_data0 tf_expires0 (fun _ _ => True) ltac:(done) (tx_targets tx) s)
      as (Hl & Nl & _); try done. eapply (transact_frame tx (tx_targets tx) s); [|apply Hs|exact E|done|by rewrite Nl].
    intros t. by apply (planned_queue s).
Qed.

(** Without deletions, every queue stays and keeps its configuration. *)
Definition extends (s s' : store) : Prop :=
  forall qid q, get_queue s qid = Some q ->
    exists q', get_queue s' qid = Some q' /\ config q' = config q.

#[global] Instance extends_preorder : PreOrder extends.
Proof.
  split; [intros s qid q; eauto|]. intros a b c H1 H2 qid q Hq.
  destruct (H1 qid q Hq) as (q1 & G1 & C1). destruct (H2 qid q1 G1) as (q2 & G2 & C2).
  exists q2. split; [done|congruence].
Qed.

Lemma extends_same s s' : st_queues s' = st_queues s -> extends s s'.
Proof. intros E qid q. unfold get_queue. rewrite E. eauto. Qed.

Lemma extends_on_queue s s' qid q f : wf s -> get_queue s qid = Some q -> keeps_config f ->
  st_queues s' = on_queue s qid f -> extends s s'.
Proof.
  intros W G K E qid' q' G'. replace (get_queue s' qid') with (get_queue (upd_queue s qid f) qid')
    by (unfold get_queue; by rewrite E).
  rewrite (get_upd_config s qid q f qid') by done. case_decide; subst.
  - rewrite G in G'. simplify_eq. eauto.
  - eauto.
Qed.

Lemma transact_extends tx s s' rs : sinv s -> tx_form tx -> numbered (st_next_id s) (tx_targets tx) ->
  Forall (planned s) (tx_targets tx) -> NoDup (t_queue <$> tx_targets tx) ->
  evolve s s' (st_queues (tx_materialize_locked s tx)) rs -> extends s s'.
Proof.
  intros Hs [] Hn Hp Hd E.
  destruct (link_all tx tf_data0 tf_expires0 (fun s1 _ => extends s s1)) with (ts := tx_targets tx) (s := s)
    as (_ & _ & Hx); try done.
  - intros s1 t ts Hs1 (qid & q & Eq & [G D] & _) Ei H. transitivity s1; [done|].
    eapply extends_on_queue; [apply Hs1|exact G|apply tx_link_config|].
    apply (ev_queues _ _ _ _ (link_next_evolve tx s1 t qid (si_allocs _ Hs1) Eq Ei)).
  - transitivity (fold_left (link_next tx) (tx_targets tx) s); [done|]. apply extends_same.
    rewrite (ev_queues _ _ _ _ E). unfold tx_materialize_locked. symmetry.
    apply link_fold; try apply Hs; [done|]. intros t. by apply (planned_queue s).
Qed.

Lemma commit_extends T del s s' : may_delete del = false -> commit T del s s' -> sinv s -> extends s s'.
Proof.
  intros Hdel C Hs. pose proof Hs as [W _ _ _ _ _ _]. destruct C; try congruence;
    try (match goal with
         | L : live_at s _ _ |- _ => destruct L as [G _]
         | L : get_queue s _ = Some _ |- _ => pose proof L as G
         end;
         eapply extends_on_queue; [done|exact G| |eapply ev_queues; eassumption];
         keeps_config_tac).
  - by eapply extends_same, ev_queues.
  - intros qid q G. rewrite (get_create s _ qid s' (ev_queues _ _ _ _ H5)). simpl.
    rewrite decide_False; [eauto|]. intros ->.
    apply get_queue_In in G as [Hin E]. pose proof (wf_fresh _ W) as F.
    rewrite Forall_forall in F. specialize (F (q_lock_id q) (list_elem_of_fmap_2 _ _ _ Hin)). lia.
  - by eapply extends_same, ev_queues.
  - by eapply extends_same, ev_queues.
  - by eapply extends_same, ev_queues.
  - by eapply extends_same, ev_queues.
  - by eapply transact_extends.
Qed.

Lemma commits_extends T del s s' : may_delete del = false -> rtc (commit T del) s s' -> sinv s -> extends s s'.
Proof.
  intros Hdel. induction 1 as [|a b c C _ IH]; intros Hs; [done|].
  transitivity b; eauto using commit_extends, commit_sinv.
Qed.

Lemma extends_live s s' qid q : extends s s' -> live_at s qid q ->
  exists q', live_at s' qid q' /\ config q' = config q.
Proof.
  intros E [G D]. destruct (E qid q G) as (q' & G' & C). exists q'. split; [|done].
  split; [done|]. destruct (config_inv _ _ C) as (_ & _ & _ & H & _). congruence.
Qed.

(** [p] allows no more than [p']. *)
Definition weaker (p p' : power) : Prop :=
  (may_delete p = true -> may_delete p' = true) /\ (may_transact p = true -> may_transact p' = true).

Lemma commit_weaken T T' p p' s s' : T <= T' -> weaker p p' -> commit T p s s' -> commit T' p' s s'.
Proof.
  intros HT [Hd Ht] [].
  - by apply c_frame.
  - by eapply c_link.
  - by eapply c_remove.
  - eapply c_expire; eauto. unfold expired in *. reflect_tests. apply andb_true_intro. split; [done|lia].
  - by eapply c_ready.
  - by eapply c_requeue.
  - by eapply c_deliver.
  - by eapply c_hint.
  - by eapply c_earliest.
  - by eapply c_purge.
  - by eapply c_delete; [apply Hd|..].
  - by eapply c_create.
  - by eapply c_register.
  - by eapply c_unregister.
  - by eapply c_exchange.
  - by eapply c_prepare; [apply Ht|..].
  - by eapply c_transact; [apply Ht|..].
Qed.

Lemma commits_sinv T del s s' : rtc (commit T del) s s' -> sinv s -> sinv s'.
Proof. induction 1; eauto using commit_sinv. Qed.

End Commit.
