(* ===== verification/QueueOps.v ===== *)
(** * The operations of the queue store as sequences of commits

    For every operation of QueueStore.v and the owner operations of
    QueueBatch.v: from a store that satisfies the invariant, whatever the
    outcomes of I/O and try-locks, the operation runs a sequence of commits
    of QueueCommit.v. *)

From stdpp Require Import base numbers option list relations.
From S2P Require Import Prelude Queue QueueIndex WalRecord QueueStore QueueReplay QueueBatch.
From S2P Require Import QueueCommit.
Import Queue QueueIndex Wal Store Replay Batch Commit.

Module Ops.

(** ** External calls and logging *)

(** A step that leaves queues and log alone. *)
Definition quiet (s s' : store) : Prop := evolve s s' (st_queues s) [].

Lemma quiet_refl s : quiet s s.
Proof.
  constructor; try done; try lia; destruct (st_failed s); auto; right.
  - by rewrite app_nil_r.
  - unfold zlen. simpl. lia.
Qed.

Lemma evolve_trans s1 s2 s3 qs rs1 rs2 :
  evolve s1 s2 (st_queues s1) rs1 -> evolve s2 s3 qs rs2 -> evolve s1 s3 qs (rs1 ++ rs2).
Proof.
  intros [A1 A2 A8 A0 A3 A9 A4 A5 A6 A7 A10 A11 A12] [B1 B2 B8 B0 B3 B9 B4 B5 B6 B7 B10 B11 B12].
  constructor; try done; try lia; auto; try congruence.
  - destruct B3 as [|[F2 ->]]; [by left|]. destruct A3 as [|[F1 ->]]; [congruence|].
    right. by rewrite app_assoc.
  - destruct B3 as [|[F2 _]]; [by left|]. destruct B9 as [|B9]; [by left|].
    destruct A9 as [|A9]; [congruence|]. right. rewrite zlen_app. lia.
Qed.

Lemma quiet_evolve s1 s2 s3 qs rs : quiet s1 s2 -> evolve s2 s3 qs rs -> evolve s1 s3 qs rs.
Proof. apply evolve_trans. Qed.

Lemma quiet_trans s1 s2 s3 : quiet s1 s2 -> quiet s2 s3 -> quiet s1 s3.
Proof.
  intros H1 H2. unfold quiet. rewrite <- (ev_queues _ _ _ _ H1).
  eapply quiet_evolve; done.
Qed.

Lemma quiet_queues s s' : quiet s s' -> st_queues s' = st_queues s.
Proof. apply ev_queues. Qed.

Lemma quiet_get s s' qid : quiet s s' -> get_queue s' qid = get_queue s qid.
Proof. intros H%quiet_queues. unfold get_queue. by rewrite H. Qed.

Lemma quiet_find s s' name : quiet s s' -> find_queue s' name = find_queue s name.
Proof. intros H%quiet_queues. unfold find_queue. by rewrite H. Qed.

Lemma quiet_allocs s s' : quiet s s' -> st_allocs s = [] -> st_allocs s' = [].
Proof. apply ev_allocs. Qed.

Lemma quiet_live s s' qid q : quiet s s' -> live_at s qid q -> live_at s' qid q.
Proof. intros H [G D]. split; [by rewrite (quiet_get _ _ _ H)|done]. Qed.

(** Proves [quiet] of an update of bookkeeping fields. *)
Ltac quiet_tac :=
  constructor; simpl; try done; try lia;
  match goal with
  | |- true = true \/ _ => by left
  | |- st_failed ?s = true \/ _ =>
      destruct (st_failed s); [by left|right]; rewrite ?app_nil_r;
      first [done | unfold zlen; simpl; lia]
  | _ => idtac
  end.

Lemma io_quiet s b s' : io s = (b, s') -> quiet s s'.
Proof. unfold io. destruct (draw (st_ios s)). intros. simplify_eq. quiet_tac. Qed.

Lemma trylock_quiet s b s' : trylock s = (b, s') -> quiet s s'.
Proof. unfold trylock. destruct (draw (st_trylocks s)). intros. simplify_eq. quiet_tac. Qed.

Lemma set_failed_quiet s : quiet s (set_failed s).
Proof. quiet_tac. Qed.

Lemma failed_quiet s s' : quiet s s' -> quiet s (set_failed s').
Proof. intros. eapply quiet_trans; [done|apply set_failed_quiet]. Qed.

Lemma sync_log_quiet s rc s' : sync_log s = (rc, s') -> quiet s s'.
Proof.
  unfold sync_log. gcase; [intros; simplify_eq; apply quiet_refl|].
  gcase; [intros; simplify_eq; apply quiet_refl|].
  destruct (io s) as [b s1] eqn:E. apply io_quiet in E. destruct b; intros; simplify_eq.
  - eapply quiet_trans; [exact E|quiet_tac].
  - by apply failed_quiet.
Qed.

Lemma wait_durable_quiet s t rc s' : wait_durable s t = (rc, s') -> quiet s s'.
Proof.
  unfold wait_durable. gcase; [intros; simplify_eq; apply quiet_refl|].
  gcase; [intros; simplify_eq; apply quiet_refl|].
  destruct (io s) as [b s1] eqn:E. apply io_quiet in E. destruct b; intros; simplify_eq.
  - eapply quiet_trans; [exact E|quiet_tac].
  - by apply failed_quiet.
Qed.

(** The log cannot take a record: it has failed, or there is none. *)
Definition log_down (s : store) : Prop := st_failed s = true \/ st_log_open s = false.

Lemma wait_durable_fails s t rc s' : wait_durable s t = (rc, s') -> 
  rc = 0 \/ rc = -1 /\ st_failed s' = true.
Proof.
  unfold wait_durable. destruct (st_failed s) eqn:F; [intros; simplify_eq; by right|].
  gcase; [intros; simplify_eq; by left|]. destruct (io s) as [[] s1]; intros; simplify_eq; auto.
Qed.

(** An append either fails quietly or appends its record. *)
Lemma append_record_spec s op d name id aux data fs rc s' :
  append_record s op d name id aux data fs = (rc, s') ->
  (rc = 0 /\ (d = true -> st_log_open s = true) /\ evolve s s' (st_queues s)
     (if d then [{| r_op := op; r_durable := true; r_name := name; r_id := id; r_aux := aux;
                    r_data := data |}] else [])) \/
  (rc = -1 /\ quiet s s' /\ (st_log_open s = true -> st_failed s' = true)).
Proof.
  unfold append_record. destruct d; cbn [negb].
  2:{ intros; simplify_eq. left. split; [done|]. split; [done|]. apply quiet_refl. }
  destruct (negb (st_log_open s) || st_failed s) eqn:Eo.
  { intros; simplify_eq. right. split; [done|]. split; [apply quiet_refl|].
    intros Ho. by rewrite Ho in Eo. }
  apply orb_false_elim in Eo as [Eopen%negb_false_iff Ef].
  destruct (io s) as [b s1] eqn:E. apply io_quiet in E. destruct b; cbn [negb].
  2:{ intros; simplify_eq. right. split; [done|]. by split; [apply failed_quiet|]. }
  set (r := {| r_op := op; r_durable := true; r_name := name; r_id := id; r_aux := aux;
    r_data := data |}).
  set (s2 := {| s1 with st_log := st_log s1 ++ [r] |}).
  assert (N : forall s3 n, quiet s2 s3 ->
    evolve s {| s3 with st_wal_seq := st_wal_seq s3 + 1; st_synced_seq := n |} (st_queues s) [r] /\
    quiet s (set_failed s3)).
  { intros s3 n Q3. destruct E, Q3. split; constructor; simpl in *; try congruence; try lia; auto.
    - destruct ev_log1 as [|[F ->]]; [by left|right]. destruct ev_log0 as [|[? ->]]; [congruence|].
      by rewrite !app_nil_r.
    - destruct ev_seq1 as [|Q1]; [by left|]. destruct ev_log1 as [|[F _]]; [by left|].
      destruct ev_seq0 as [|Q0]; [congruence|]. right. unfold zlen in *. simpl in *. lia. }
  destruct fs; [destruct (io s2) as [b s3] eqn:E3; apply io_quiet in E3; destruct b|];
    intros; simplify_eq/=.
  - left. split; [done|]. split; [done|]. by apply N.
  - right. split; [done|]. split; [|done]. by apply (N s3 0).
  - left. split; [done|]. split; [done|]. apply (N s2), quiet_refl.
Qed.

Lemma append_record_lock s op d name id aux data fs rc s' :
  append_record s op d name id aux data fs = (rc, s') ->
  st_next_lock_id s' = st_next_lock_id s.
Proof.
  unfold append_record, io. destruct (draw (st_ios s)) as [b l] eqn:E.
  repeat (gcase; simpl); intros; simplify_eq/=; try done.
  all: repeat case_match; by simplify_eq/=.
Qed.

Lemma append_log_spec s op q id aux data rc s' :
  append_log s op q id aux data = (rc, s') ->
  (rc = 0 /\ (q_durable q = true -> st_log_open s = true) /\
   evolve s s' (st_queues s) (logged q op id aux data)) \/
  (rc = -1 /\ quiet s s' /\ (st_log_open s = true -> st_failed s' = true)).
Proof. apply append_record_spec. Qed.

Lemma evolve_quiet s1 s2 s3 rs : evolve s1 s2 (st_queues s1) rs -> quiet s2 s3 ->
  evolve s1 s3 (st_queues s1) rs.
Proof.
  intros E Q. rewrite <- (app_nil_r rs). eapply evolve_trans; [exact E|].
  rewrite <- (ev_queues _ _ _ _ E). exact Q.
Qed.

(** A change of the queues after a logged record. *)
Lemma evolve_then s1 s2 s3 qid f rs : evolve s1 s2 (st_queues s1) rs ->
  evolve s2 s3 (on_queue s2 qid f) [] -> evolve s1 s3 (on_queue s1 qid f) rs.
Proof.
  intros E Q. rewrite <- (app_nil_r rs). eapply evolve_trans; [exact E|].
  unfold on_queue in *. by rewrite <- (ev_queues _ _ _ _ E).
Qed.

(** An evolution that ends with the failure latch set is quiet. *)
Lemma failed_evolve s s' qs rs rs' : evolve s s' qs rs -> st_failed s' = true ->
  evolve s s' qs rs'.
Proof. intros [] H. constructor; try done; by left. Qed.

(** A barrier succeeds, or latches the failure, once the log is open. *)
Lemma sync_log_spec s rc s' : st_log_open s = true -> sync_log s = (rc, s') ->
  quiet s s' /\ (rc = 0 \/ rc = -1 /\ st_failed s' = true).
Proof.
  intros Ho H. split; [by eapply sync_log_quiet|]. revert H. unfold sync_log. rewrite Ho.
  cbn [negb]. gcase; [intros; simplify_eq; by left|].
  destruct (io s) as [[] s1]; intros; simplify_eq; [by left|by right].
Qed.

Lemma log_transform_spec s op q id aux rc s' : log_transform s op q id aux = (rc, s') ->
  (rc = 0 /\ evolve s s' (st_queues s) (logged q op id aux [])) \/
  (rc = -1 /\ quiet s s').
Proof.
  unfold log_transform. destruct (append_log s op q id aux []) as [rc1 s1] eqn:E.
  apply append_log_spec in E as [(-> & Ho & E)|(-> & E & _)]; simpl.
  2:{ intros; simplify_eq. by right. }
  destruct (q_durable q) eqn:D; [|intros; simplify_eq; by left].
  intros H. apply sync_log_spec in H as [Q [->|[-> F]]];
    [|  |by rewrite (ev_open _ _ _ _ E); apply Ho].
  - left. split; [done|]. by eapply evolve_quiet.
  - right. split; [done|]. eapply failed_evolve; [|done]. by eapply evolve_quiet.
Qed.

Lemma upd_queue_evolve s qid f : evolve s (upd_queue s qid f) (on_queue s qid f) [].
Proof. unfold on_queue. quiet_tac. Qed.

(** The queue update of an operation, followed by bookkeeping. *)
Lemma upd_evolve s s1 s2 qid f rs : evolve s s1 (st_queues s) rs ->
  quiet (upd_queue s1 qid f) s2 -> evolve s s2 (on_queue s qid f) rs.
Proof.
  intros E Q. eapply evolve_then; [exact E|]. destruct Q. by constructor.
Qed.

Lemma frame1 T del s s' : quiet s s' -> rtc (commit T del) s s'.
Proof. intros. by apply rtc_once, c_frame. Qed.

(** A composite evolution passes through an intermediate store. *)
Definition midway (s s' : store) (qs : list queue) (rs : list record) : store :=
  {| s' with st_queues := qs; st_log := st_log s ++ rs;
             st_wal_seq := st_wal_seq s + zlen rs |}.

Lemma split_evolve s s' qs1 qs2 rs1 rs2 : evolve s s' qs2 (rs1 ++ rs2) ->
  evolve s (midway s s' qs1 rs1) qs1 rs1 /\ evolve (midway s s' qs1 rs1) s' qs2 rs2.
Proof.
  intros []. split; constructor; simpl; try done; try lia.
  - destruct ev_log0 as [|[? _]]; auto.
  - destruct ev_log0 as [|[F ->]]; [by left|].
    destruct (st_failed s'); [by left|right]. by rewrite app_assoc.
  - destruct ev_seq0 as [|Q]; [by left|right]. rewrite zlen_app in Q. lia.
Qed.

(** ** Dead-letter policies

    A durable queue's dead-letter target is durable, and so is every other
    queue that names the same target.  The source creates a missing target
    with the durability of the queue that needs it first. *)

Definition policy_of (l : list queue) : Prop :=
  forall a b, a ∈ l -> b ∈ l -> q_deleted a = false -> q_deleted b = false ->
    q_dlq_name a <> [] -> q_durable a = true ->
    q_name b = q_dlq_name a \/ q_dlq_name b = q_dlq_name a -> q_durable b = true.

Definition policy (s : store) : Prop := policy_of (st_queues s).

Lemma policy_configs l l' : config <$> l' = config <$> l -> policy_of l -> policy_of l'.
Proof.
  intros E H a b Ha Hb.
  assert (L : forall x, x ∈ l' -> exists y, y ∈ l /\ config x = config y).
  { intros x Hx. assert (config x ∈ config <$> l) as (y & E' & Hy)%list_elem_of_fmap
      by (rewrite <- E; by apply list_elem_of_fmap_2). eauto. }
  destruct (L a Ha) as (a' & Ha' & Ea), (L b Hb) as (b' & Hb' & Eb).
  destruct (config_inv _ _ Ea) as (_ & _ & -> & -> & -> & _).
  destruct (config_inv _ _ Eb) as (_ & -> & -> & -> & -> & _).
  by apply H.
Qed.

Lemma on_queue_configs s qid f : keeps_config f -> config <$> on_queue s qid f = config <$> st_queues s.
Proof.
  intros K. unfold on_queue. rewrite <- list_fmap_compose. apply list_fmap_ext.
  intros _ x _. simpl. gcase; [apply K|done].
Qed.

Lemma policy_on_queue s s' qid f : keeps_config f -> st_queues s' = on_queue s qid f ->
  policy s -> policy s'.
Proof. intros K E. unfold policy. rewrite E. apply policy_configs. by apply on_queue_configs. Qed.

Lemma policy_same s s' : st_queues s' = st_queues s -> policy s -> policy s'.
Proof. unfold policy. by intros ->. Qed.

(** The invariant the operations maintain. *)
Definition inv (s : store) : Prop := sinv s /\ policy s.

(** What an operation establishes: commits, and the policies. *)
Definition runs (T : Z) (s s' : store) : Prop := rtc (commit T Plain) s s' /\ policy s'.

Lemma runs_refl T s : policy s -> runs T s s.
Proof. split; [done|done]. Qed.

Lemma runs_trans T s1 s2 s3 : runs T s1 s2 -> runs T s2 s3 -> runs T s1 s3.
Proof. intros [H1 _] [H2 P]. split; [by etrans|done]. Qed.

Lemma runs_quiet T s s' : quiet s s' -> policy s -> runs T s s'.
Proof. intros Q P. split; [by apply frame1|]. by eapply policy_same; [apply quiet_queues|]. Qed.

Lemma runs_inv T s s' : runs T s s' -> inv s -> inv s'.
Proof. intros [R P] [H _]. split; [by eapply commits_sinv|done]. Qed.

Lemma runs_sinv T s s' : runs T s s' -> inv s -> sinv s'.
Proof. intros R H. by apply (runs_inv T s s'). Qed.

Lemma runs_extends T s s' : runs T s s' -> inv s -> extends s s'.
Proof. intros [R _] [H _]. by eapply commits_extends; [|exact R|]. Qed.

Lemma inv_allocs s : inv s -> st_allocs s = [].
Proof. intros [H _]. by apply si_allocs. Qed.

(** One commit on the live queue behind a pointer. *)
Lemma runs_on_queue T s s' qid f : keeps_config f -> st_queues s' = on_queue s qid f ->
  commit T Plain s s' -> policy s -> runs T s s'.
Proof. intros K E C P. split; [by apply rtc_once|]. by eapply policy_on_queue. Qed.

Lemma get_on_queue s s' qid q f qid' : wf s -> get_queue s qid = Some q -> keeps_identity f ->
  st_queues s' = on_queue s qid f ->
  get_queue s' qid' = if decide (qid' = qid) then Some (f q) else get_queue s qid'.
Proof.
  intros W G K E. rewrite <- (get_upd s qid q f qid') by done.
  unfold get_queue. by rewrite E.
Qed.

(** ** Dead-lettering *)

Lemma create_queue_evolve s name durable max dlq maxd did s' : st_allocs s = [] ->
  create_queue s name durable max dlq maxd = (did, s') ->
  did = Some (st_next_lock_id s + 1) /\ st_next_lock_id s' = st_next_lock_id s + 1 /\
  evolve s s' (new_queue (st_next_lock_id s + 1) (st_next_incarnation s + 1) name durable max
                 dlq maxd :: st_queues s) [].
Proof.
  intros A. rewrite create_queue_some by done. intros; simplify_eq.
  split; [done|]. split; [done|]. quiet_tac.
Qed.

(** Logging a declaration and creating the queue is one commit. *)
Lemma declare_commit T s name durable max dlq maxd s1 did s' : sinv s ->
  find_queue s name = None -> name_ok name ->
  (dlq = [] /\ maxd = 0 \/ name_ok dlq /\ dlq <> name) -> fits 64 max -> fits 32 maxd ->
  append_record s LOG_DECLARE durable name 0 max (dlq_ext dlq maxd) false = (0, s1) ->
  create_queue s1 name durable max dlq maxd = (did, s') ->
  commit T Plain s s' /\ exists inc, did = Some (st_next_lock_id s + 1) /\
    st_queues s' = new_queue (st_next_lock_id s + 1) inc name durable max dlq maxd :: st_queues s.
Proof.
  intros Hs F Hn Hd Hm Hf E C. pose proof (append_record_lock _ _ _ _ _ _ _ _ _ _ E) as EL.
  apply append_record_spec in E as [(_ & _ & E)|[[=] _]].
  apply create_queue_evolve in C as (-> & HL & C); [|by apply (ev_allocs _ _ _ _ E), si_allocs].
  rewrite EL, (ev_queues _ _ _ _ E) in C. rewrite EL in HL |- *.
  pose proof (evolve_trans _ _ _ _ _ _ E C) as R. rewrite app_nil_r in R.
  split; [|eexists; split; [done|apply (ev_queues _ _ _ _ R)]].
  eapply c_create; eauto.
Qed.

Lemma policy_create s s' q nq : st_queues s' = nq :: st_queues s ->
  q ∈ st_queues s -> q_deleted q = false -> q_dlq_name q <> [] ->
  q_name nq = q_dlq_name q -> q_dlq_name nq = [] -> q_durable nq = q_durable q ->
  policy s -> policy s'.
Proof.
  intros E Hq Dq Nq E1 E2 E3 P a b. rewrite E, !elem_of_cons.
  intros [->|Ha] [->|Hb] Da Db Na Ha' Hab; try congruence.
  - rewrite E3. rewrite E1, E2 in Hab. destruct Hab as [Hab|Hab]; [|congruence].
    apply (P a q Ha Hq Da Dq Na Ha'). by right.
  - by apply (P a b).
Qed.

(** The target of a dead-lettered message: present, live, and as durable as
    the policy asks. *)
Lemma resolve_dlq_spec T s qid q did s' : inv s -> live_at s qid q -> q_dlq_name q <> [] ->
  resolve_dlq s q = (did, s') ->
  runs T s s' /\ get_queue s' qid = Some q /\
  forall d, did = Some d -> exists dq, live_at s' d dq /\
    (q_durable q = true -> q_durable dq = true).
Proof.
  intros [Hs P] L Hd. pose proof (si_wf _ Hs) as W. unfold resolve_dlq.
  pose proof (live_at_inv _ _ _ Hs L) as Hq. destruct L as [G D].
  destruct (get_queue_In _ _ _ G) as [Hin Hid].
  destruct (find_queue s (q_dlq_name q)) as [dq|] eqn:F.
  { intros; simplify_eq. split; [by apply runs_refl|]. split; [done|]. intros d [= <-].
    pose proof (find_queue_In _ _ _ F) as (Hdq & Dd & Nd). exists dq. split.
    - split; [by eapply find_get|done].
    - intros Hdur. eapply (P q dq); auto. }
  destruct (append_record s LOG_DECLARE (q_durable q) (q_dlq_name q) 0 0 [] false) as [rc s1] eqn:E.
  destruct (append_record_spec _ _ _ _ _ _ _ _ _ _ E) as [(-> & _ & _)|(-> & Q & _)]; simpl.
  2:{ intros; simplify_eq. split; [by apply runs_quiet|]. split; [by rewrite (quiet_get _ _ _ Q)|done]. }
  intros C. assert (Hn : name_ok (q_dlq_name q)) by (by destruct (qi_dlq _ _ _ Hq)).
  destruct (declare_commit T s _ _ 0 [] 0 _ _ _ Hs F Hn ltac:(by left) ltac:(unfold fits; lia)
    ltac:(unfold fits; lia) E C) as (K & inc & -> & EQ).
  split; [|split].
  - split; [by apply rtc_once|]. by eapply (policy_create s s' q).
  - rewrite (get_create s _ qid s' EQ). simpl. rewrite decide_False; [done|].
    pose proof (wf_fresh _ W) as Fr. rewrite Forall_forall in Fr.
    specialize (Fr (q_lock_id q) (list_elem_of_fmap_2 _ _ _ Hin)). lia.
  - intros d [= <-]. eexists. split; [split|].
    + rewrite (get_create s _ _ s' EQ). simpl. by rewrite decide_True.
    + done.
    + done.
Qed.

(** The records of a routed message. *)
Lemma log_dead_letter_spec s dlq q id e m rc s' : (q_durable q = true -> q_durable dlq = true) ->
  log_dead_letter s dlq q id e m = (rc, s') ->
  (rc = 0 /\ evolve s s' (st_queues s)
    (logged dlq LOG_PUBLISH id e (m_data m) ++ logged q LOG_ACK (m_id m) 0 [])) \/
  (rc = -1 /\ quiet s s').
Proof.
  intros Hp. unfold log_dead_letter. destruct (q_durable dlq) eqn:D.
  2:{ intros; simplify_eq. left. split; [done|]. unfold logged. rewrite D.
      destruct (q_durable q); [by specialize (Hp eq_refl)|]. apply quiet_refl. }
  destruct (append_log s LOG_PUBLISH dlq id e (m_data m)) as [rc1 s1] eqn:E1.
  apply append_log_spec in E1 as [(-> & O1 & E1)|(-> & E1 & _)]; simpl.
  2:{ intros; simplify_eq. by right. }
  specialize (O1 D). assert (O2 : st_log_open s1 = true) by (by rewrite (ev_open _ _ _ _ E1)).
  destruct (append_log s1 LOG_ACK q (m_id m) 0 []) as [rc2 s2] eqn:E2.
  apply append_log_spec in E2 as [(-> & _ & E2)|(-> & E2 & F2)]; simpl.
  2:{ intros; simplify_eq. right. split; [done|].
      eapply failed_evolve; [by eapply evolve_quiet|auto]. }
  rewrite (ev_queues _ _ _ _ E1) in E2. pose proof (evolve_trans _ _ _ _ _ _ E1 E2) as R.
  intros H. apply sync_log_spec in H as [Q [->|[-> F]]]; [| |by rewrite (ev_open _ _ _ _ E2)].
  - left. split; [done|]. by eapply evolve_quiet.
  - right. split; [done|]. eapply failed_evolve; [by eapply evolve_quiet|done].
Qed.

Lemma append_message_upd s qid id e d : st_allocs s = [] ->
  append_message s qid id e d
  = (0, upd_queue s qid (fun q => message_link q (message_create id e d))).
Proof. intros A. unfold append_message. by rewrite alloc_nil. Qed.

Lemma room_test q : negb (q_max_depth q =? 0) && (q_max_depth q <=? q_depth q) = false -> room q.
Proof.
  intros H. unfold room. destruct (Z.eqb_spec (q_max_depth q) 0); [by left|right].
  simpl in H. reflect_tests. done.
Qed.

Lemma bump_next_id_quiet s : quiet s {| s with st_next_id := st_next_id s + 1 |}.
Proof. quiet_tac. Qed.

Lemma config_of s s' qid q f : wf s -> get_queue s qid = Some q -> keeps_config f ->
  st_queues s' = on_queue s qid f -> get_queue s' qid = Some (f q).
Proof.
  intros W G K E. rewrite (get_on_queue s s' qid q f qid) by auto with store.
  by rewrite decide_True.
Qed.

(** The copy to the target and the removal from the source, as two commits. *)
Lemma route_copy_spec T s qid q i m did dq ce r s' : inv s -> live_at s qid q ->
  q_msgs q !! i = Some m -> live_at s did dq -> did <> qid -> room dq ->
  (q_durable q = true -> q_durable dq = true) ->
  route_copy s qid q i m did dq ce = (r, s') ->
  runs T s s' /\
  ((r = 1 /\ get_queue s' qid = Some (remove_message q i)) \/
   (r = -1 /\ get_queue s' qid = Some q)).
Proof.
  intros I [G D] Em [Gd Dd] Hne Hr Hdur. pose proof I as [Hs P]. pose proof (si_wf _ Hs) as W.
  pose proof (live_at_inv s qid q Hs (conj G D)) as Hq. unfold route_copy.
  set (e := if ce then 0 else m_expires m). pose proof (bump_next_id_quiet s) as Q0.
  set (s0 := {| s with st_next_id := st_next_id s + 1 |}) in *.
  destruct (log_dead_letter s0 dq q (st_next_id s) e m) as [rc s1] eqn:El.
  apply log_dead_letter_spec in El as [[-> E]|[-> Q1]]; [| |done]; simpl.
  2:{ intros; simplify_eq. pose proof (quiet_trans _ _ _ Q0 Q1) as Q.
      split; [by apply runs_quiet|]. right. by rewrite (quiet_get _ _ _ Q). }
  rewrite append_message_upd by (apply (ev_allocs _ _ _ _ E), (inv_allocs _ I)). simpl.
  intros; simplify_eq.
  set (link := fun x => message_link x (message_create (st_next_id s) e (m_data m))).
  set (rm := fun x => remove_message x i).
  pose proof (evolve_trans _ _ _ _ _ _ Q0 E) as R0. rewrite app_nil_l in R0.
  match goal with |- runs T s ?x /\ _ => set (s' := x) end.
  assert (R : evolve s s' (on_queue (upd_queue s did link) qid rm)
    (logged dq LOG_PUBLISH (st_next_id s) e (m_data m) ++ logged q LOG_ACK (m_id m) 0 [])).
  { destruct R0. constructor; simpl; try done. unfold on_queue. simpl. by rewrite ev_queues0. }
  destruct (split_evolve _ _ (on_queue s did link) _ _ _ R) as [A B].
  set (sA := midway s s' _ _) in *.
  assert (KL : keeps_config link) by (intros x; apply message_link_config).
  assert (KR : keeps_config rm) by (intros x; apply remove_message_config).
  assert (GA : get_queue sA qid = Some q).
  { rewrite (get_on_queue s sA did dq link qid) by (done || auto with store).
    by rewrite decide_False. }
  assert (CA : commit T Plain s sA).
  { eapply (c_link _ _ _ _ did dq); [by split|apply Z.le_refl| | |done| |exact A].
    - pose proof (ev_id _ _ _ _ E). simpl in *. lia.
    - unfold e. destruct ce; [unfold fits; lia|].
      pose proof (qi_expires _ _ _ Hq) as HX. rewrite Forall_forall in HX. apply HX.
      by eapply list_elem_of_lookup_2.
    - pose proof (qi_data _ _ _ Hq) as HD. rewrite Forall_forall in HD. apply HD.
      by eapply list_elem_of_lookup_2. }
  assert (CB : commit T Plain sA s').
  { eapply (c_remove _ _ _ _ qid q); [by split|done|]. exact B. }
  split; [split|left; split; [done|]].
  - eapply rtc_l; [exact CA|]. by apply rtc_once.
  - eapply policy_on_queue; [exact KR|apply (ev_queues _ _ _ _ B)|].
    by eapply policy_on_queue; [exact KL|apply (ev_queues _ _ _ _ A)|].
  - apply (config_of sA s' qid q rm); [|done|done|apply (ev_queues _ _ _ _ B)].
    apply si_wf. by eapply commit_sinv.
Qed.

(** Routing the message at [i]: the copy appears at the target, the source
    loses the message; or nothing changes in the source. *)
Lemma dead_letter_spec T s qid q i m ce mh r s' : inv s -> live_at s qid q ->
  q_msgs q !! i = Some m -> dead_letter_locked s qid i ce mh = (r, s') ->
  runs T s s' /\
  ((r = 1 /\ get_queue s' qid = Some (remove_message q i)) \/
   (r = -1 /\ get_queue s' qid = Some q) \/
   (r = 0 /\ s' = s)).
Proof.
  intros I L Em. pose proof L as [G Dl]. unfold dead_letter_locked. rewrite G, Em.
  destruct (Z.eqb_spec (zlen (q_dlq_name q)) 0) as [|Hn].
  { intros; simplify_eq. split; [by apply runs_refl, I|]. auto. }
  assert (Hd : q_dlq_name q <> []) by (intros E; by rewrite E in Hn).
  destruct (if mh then (true, s) else trylock s) as [held s1] eqn:Et.
  assert (Q1 : quiet s s1) by (destruct mh; [simplify_eq; apply quiet_refl|by eapply trylock_quiet]).
  assert (R1 : runs T s s1) by (apply runs_quiet; [done|apply I]).
  assert (G1 : get_queue s1 qid = Some q) by (by rewrite (quiet_get _ _ _ Q1)).
  destruct held; simpl; [|intros; simplify_eq; auto].
  destruct (resolve_dlq s1 q) as [did s2] eqn:Er.
  destruct (resolve_dlq_spec T s1 qid q did s2 (runs_inv _ _ _ R1 I) (quiet_live _ _ _ _ Q1 L) Hd Er)
    as (R2 & G2 & Hdid). pose proof (runs_trans _ _ _ _ R1 R2) as R. clear R1 R2.
  destruct did as [did|]; [|intros; simplify_eq; auto].
  destruct (Hdid did eq_refl) as (dq & Ld & Hdur). clear Hdid.
  destruct ((did =? qid) || existsb (Z.eqb did) (st_held s2)) eqn:Hb; simpl;
    [intros; simplify_eq; auto|].
  assert (Hne : did <> qid) by (by apply orb_false_elim in Hb as [?%Z.eqb_neq _]).
  destruct (trylock s2) as [free s3] eqn:Ef. pose proof (trylock_quiet _ _ _ Ef) as Q3.
  assert (R3 : runs T s s3) by (eapply runs_trans; [exact R|apply runs_quiet; [done|apply R]]).
  rewrite <- (quiet_get _ _ qid Q3) in G2. pose proof (quiet_live _ _ _ _ Q3 Ld) as L3.
  destruct free; simpl; [|intros; simplify_eq; auto].
  rewrite (proj1 L3). destruct (negb (q_max_depth dq =? 0) && _) eqn:Ecap;
    [intros; simplify_eq; auto|].
  apply room_test in Ecap. pose proof (runs_inv _ _ _ R3 I) as I3.
  intros H. destruct (route_copy_spec T _ _ _ _ _ _ _ _ _ _ I3 (conj G2 Dl) Em L3 Hne Ecap Hdur H)
    as [R4 Hr]. split; [by eapply runs_trans|]. tauto.
Qed.

(** ** Reaping *)

(** The messages before [i] respect the deadline [nd]. *)
Definition seen (nd : Z) (i : nat) (l : list message) : Prop :=
  forall j m, (j < i)%nat -> l !! j = Some m -> is_inflight m = true -> has_ttl m = false ->
    nd <= m_time m.

Lemma seen_delete nd i l : seen nd i l -> seen nd i (delete i l).
Proof. intros H j m Hj. rewrite list_lookup_delete_lt by done. by apply H. Qed.

Lemma seen_step nd i l m : l !! i = Some m -> seen nd i l ->
  (is_inflight m = true -> has_ttl m = false -> nd <= m_time m) -> seen nd (S i) l.
Proof.
  intros E H Hm j m' Hj E'. destruct (decide (j = i)) as [->|]; [|apply (H j); [lia|done]].
  rewrite E in E'. by simplify_eq.
Qed.

Lemma seen_le nd nd' i l : nd' <= nd -> seen nd i l -> seen nd' i l.
Proof. intros Hle H j m Hj E Hi Ht. specialize (H j m Hj E Hi Ht). lia. Qed.

Lemma live_config s qid q q' : live_at s qid q -> config q' = config q -> q_deleted q' = false.
Proof. intros [_ D] C. destruct (config_inv _ _ C) as (_&_&_&E&_). congruence. Qed.

(** One commit that changes the queue [q] into [f q]. *)
Lemma commit_on T s s' qid q f : inv s -> live_at s qid q -> keeps_config f ->
  st_queues s' = on_queue s qid f -> commit T Plain s s' ->
  runs T s s' /\ live_at s' qid (f q).
Proof.
  intros [Hs P] L K E C. split; [by eapply runs_on_queue|]. split.
  - apply (config_of s s' qid q f); [apply Hs|apply L|done|done].
  - by eapply live_config.
Qed.

Lemma make_ready_commit T s qid q i m : inv s -> live_at s qid q -> q_msgs q !! i = Some m ->
  is_inflight m = true ->
  let s1 := upd_queue s qid (fun q => make_ready q i 0) in
  let s' := {| s1 with st_redeliveries := st_redeliveries s1 + 1 |} in
  runs T s s' /\ live_at s' qid (make_ready q i 0).
Proof.
  intros I L E Hm s1 s'. eapply (commit_on T s s' qid q (fun q => make_ready q i 0)); auto.
  - intros x. apply make_ready_config.
  - eapply c_ready; [apply L|done|done|]. unfold on_queue. quiet_tac.
Qed.

Lemma expire_commit T s qid q i m : inv s -> live_at s qid q -> q_msgs q !! i = Some m ->
  expired T m = true ->
  let s' := upd_queue s qid (fun q => remove_message q i) in
  runs T s s' /\ live_at s' qid (remove_message q i).
Proof.
  intros I L E Hm s'. eapply (commit_on T s s' qid q (fun q => remove_message q i)); auto.
  - intros x. apply remove_message_config.
  - eapply c_expire; eauto. apply upd_queue_evolve.
Qed.

Lemma reap_walk_spec T now mono mh qid n : now <= T -> forall s q i nd nd' s',
  inv s -> live_at s qid q -> (length (q_msgs q) - i <= n)%nat -> seen nd i (q_msgs q) ->
  reap_walk n s qid i now mono nd mh = (nd', s') ->
  runs T s s' /\ exists q', live_at s' qid q' /\ config q' = config q /\
    seen nd' (length (q_msgs q')) (q_msgs q').
Proof.
  intros HT. induction n as [|n IH]; intros s q i nd nd' s' I L Hn Hs; cbn [reap_walk].
  { intros; simplify_eq. split; [apply runs_refl, I|]. exists q. split; [done|]. split; [done|].
    intros j m Hj. apply Hs. lia. }
  rewrite (proj1 L). destruct (q_msgs q !! i) as [m|] eqn:E.
  2:{ intros; simplify_eq. split; [apply runs_refl, I|]. exists q. split; [done|]. split; [done|].
      intros j m Hj. apply Hs. apply lookup_ge_None in E. lia. }
  pose proof (lookup_lt_Some _ _ _ E) as Hlt.
  assert (Len : forall q', q_msgs q' = delete i (q_msgs q) -> (length (q_msgs q') - i <= n)%nat).
  { intros q' ->. rewrite length_delete by eauto. lia. }
  destruct (negb (m_expires m =? 0) && (m_expires m <=? now)) eqn:Ex.
  - assert (HE : expired T m = true).
    { unfold expired, has_ttl. reflect_tests. apply andb_true_intro. split; [apply negb_true_iff|]; lia. }
    destruct (dead_letter_locked s qid i true mh) as [r s1] eqn:Ed.
    destruct (dead_letter_spec T _ _ _ _ _ _ _ _ _ I L E Ed) as [R1 Hr].
    pose proof (runs_inv _ _ _ R1 I) as I1.
    destruct Hr as [[-> G1]|[[-> G1]|[-> ->]]]; cbn [Z.ltb Z.compare Z.eqb].
    + intros H. pose proof (remove_message_config q i) as C.
      destruct (IH s1 (remove_message q i) i nd nd' s' I1) as (R2 & q' & L' & C' & S'); auto.
      * split; [done|by eapply live_config].
      * apply Len, remove_message_msgs.
      * rewrite remove_message_msgs. by apply seen_delete.
      * split; [by eapply runs_trans|]. exists q'. split; [done|]. split; [congruence|done].
    + intros H. destruct (IH s1 q (S i) nd nd' s' I1) as (R2 & Q2); auto.
      * split; [done|apply L].
      * lia.
      * eapply seen_step; [done..|]. intros _ Ht. unfold expired in HE. by rewrite Ht in HE.
      * split; [by eapply runs_trans|done].
    + destruct (expire_commit T s qid q i m I L E HE) as [R2 L2].
      intros H. destruct (IH _ (remove_message q i) i nd nd' s' (runs_inv _ _ _ R2 I)) 
        as (R3 & q' & L' & C' & S'); [done| | |exact H|].
      * apply Len, remove_message_msgs.
      * rewrite remove_message_msgs. by apply seen_delete.
      * split; [by eapply runs_trans|]. exists q'. split; [done|].
        split; [by rewrite C', remove_message_config|done].
  - destruct (is_inflight m) eqn:Hi; [destruct (Z.leb_spec (m_time m) mono)|].
    + destruct (make_ready_commit T s qid q i m I L E Hi) as [R2 L2].
      destruct (make_ready_msgs q i 0) as (g & _ & M & F).
      intros H'. destruct (IH _ (make_ready q i 0) (S i) nd nd' s' (runs_inv _ _ _ R2 I))
        as (R3 & q' & L' & C' & S'); [done| | |exact H'|].
      * rewrite M, length_alter. lia.
      * rewrite M. eapply (seen_step _ _ _ (g m)); [by rewrite list_lookup_alter_eq, E| |].
        -- intros j m' Hj. rewrite list_lookup_alter_ne by lia. by apply Hs.
        -- intros Hx. apply is_inflight_state in Hx. by rewrite (proj1 (F m)) in Hx.
      * split; [by eapply runs_trans|]. exists q'. split; [done|].
        split; [by rewrite C', make_ready_config|done].
    + intros H'. apply (IH s q (S i) _ _ _ I L) in H'; [done|lia|].
      eapply seen_step; [done|eapply seen_le; [|done]; lia|]. intros _ _. lia.
    + intros H'. apply (IH s q (S i) _ _ _ I L) in H'; [done|lia|].
      eapply seen_step; [done..|]. congruence.
Qed.

Lemma reap_queue_spec T s qid q now mono mh : now <= T -> inv s -> live_at s qid q ->
  runs T s (reap_queue_locked s qid now mono mh) /\
  exists q', live_at (reap_queue_locked s qid now mono mh) qid q' /\ config q' = config q.
Proof.
  intros HT I L. unfold reap_queue_locked. rewrite (proj1 L).
  destruct (reap_skip q mono); [split; [apply runs_refl, I|eauto]|].
  destruct (reap_walk _ _ _ _ _ _ _ _) as [nd s1] eqn:E.
  destruct (reap_walk_spec T now mono mh qid (length (q_msgs q)) HT s q 0 UINT64_MAX nd s1 I L) as (R & q1 & L1 & C1 & S1);
    [lia|intros j m Hj; lia|done|].
  destruct (commit_on T s1 (upd_queue s1 qid (fun q => {| q with q_earliest := nd |})) qid q1
    (fun q => {| q with q_earliest := nd |})) as [R2 L2]; auto.
  - by eapply runs_inv.
  - intros x. apply earliest_config.
  - eapply c_earliest; [done| |apply upd_queue_evolve].
    intros m [j Hj]%list_elem_of_lookup. simpl in *. eapply S1; [|done].
    by eapply lookup_lt_Some.
  - split; [by eapply runs_trans|]. eexists. split; [exact L2|]. by rewrite earliest_config.
Qed.

(** ** The public operations *)

Lemma name_test n : (zlen n =? 0) || (QUEUE_NAME_MAX <? zlen n) = false -> bytes_ok n -> name_ok n.
Proof. intros H Hb. reflect_tests. split; [done|]. pose proof (zlen_nonneg n). lia. Qed.

Lemma queue_declare_ex_runs T s name durable max dlq maxd : sinv s ->
  bytes_ok name -> bytes_ok dlq -> fits 64 max -> fits 32 maxd ->
  rtc (commit T Plain) s (snd (queue_declare_ex s name durable max dlq maxd)).
Proof.
  intros Hs Hb Hd Hm Hf. unfold queue_declare_ex.
  destruct ((zlen name =? 0) || _) eqn:En; [done|]. apply name_test in En; [|done].
  destruct (if zlen dlq =? 0 then _ else _) eqn:Ed; [done|].
  assert (Hdlq : dlq = [] /\ maxd = 0 \/ name_ok dlq /\ dlq <> name).
  { destruct (Z.eqb_spec (zlen dlq) 0) as [E0|E0].
    - left. reflect_tests. split; [|done]. by apply nil_length_inv; unfold zlen in E0; lia.
    - right. apply orb_false_elim in Ed as [E1 E2]. unfold name_eqb in E2.
      apply bool_decide_eq_false in E2. split; [|done]. split; [done|].
      reflect_tests. pose proof (zlen_nonneg dlq). lia. }
  destruct (find_queue s name) as [q|] eqn:F; [by gcase|].
  destruct (append_record s LOG_DECLARE durable name 0 max (dlq_ext dlq maxd) false) as [rc s1] eqn:E.
  destruct (append_record_spec _ _ _ _ _ _ _ _ _ _ E) as [(-> & _ & _)|(-> & Q & _)]; simpl;
    [|by apply frame1].
  destruct (create_queue s1 name durable max dlq maxd) as [did s2] eqn:C.
  destruct (declare_commit T s _ _ _ _ _ _ _ _ Hs F En Hdlq Hm Hf E C) as (K & inc & -> & _).
  gcase; [by apply rtc_once|]. destruct (wait_durable s2 (st_wal_seq s2)) as [rc s3] eqn:Ew.
  simpl. eapply rtc_l; [exact K|]. apply frame1. by eapply wait_durable_quiet.
Qed.

Lemma publish_one_spec T s qid q data ttl now mono id s' : now <= T -> inv s ->
  live_at s qid q -> data_ok data ->
  publish_one_locked s qid data ttl now mono = (id, s') -> runs T s s'.
Proof.
  intros HT I L Hd. unfold publish_one_locked.
  destruct (reap_queue_spec T s qid q now mono false HT I L) as (R & q1 & L1 & C1).
  set (s1 := reap_queue_locked s qid now mono false) in *. clearbody s1.
  pose proof (runs_inv _ _ _ R I) as I1. rewrite (proj1 L1).
  destruct (negb (q_max_depth q1 =? 0) && _) eqn:Ec; [by intros; simplify_eq|].
  apply room_test in Ec. pose proof (bump_next_id_quiet s1) as Q0.
  set (s2 := {| s1 with st_next_id := st_next_id s1 + 1 |}) in *.
  set (e := if ttl =? 0 then 0 else u64 (now + ttl)).
  destruct (append_log s2 LOG_PUBLISH q1 (st_next_id s1) e data) as [rc s3] eqn:E.
  apply append_log_spec in E as [(-> & _ & E)|(-> & Q & _)]; simpl.
  2:{ intros; simplify_eq. eapply runs_trans; [exact R|]. apply runs_quiet; [|apply R].
      by eapply quiet_trans. }
  rewrite append_message_upd by (apply (ev_allocs _ _ _ _ E), (inv_allocs _ I1)). simpl.
  intros; simplify_eq. eapply runs_trans; [exact R|].
  pose proof (evolve_trans _ _ _ _ _ _ Q0 E) as R0. rewrite app_nil_l in R0.
  eapply runs_on_queue; [intros x; apply message_link_config| |eapply (c_link _ _ _ _ qid q1 _ e)|apply R].
  - unfold on_queue. simpl. by rewrite (ev_queues _ _ _ _ R0).
  - done.
  - apply Z.le_refl.
  - pose proof (ev_id _ _ _ _ E). simpl in *. lia.
  - unfold e. destruct (ttl =? 0); [unfold fits; lia|apply u64_fits].
  - done.
  - exact Hd.
  - eapply upd_evolve; [exact R0|apply quiet_refl].
Qed.

Lemma find_live s name q : wf s -> find_queue s name = Some q -> live_at s (q_lock_id q) q.
Proof. intros W F. split; [by eapply find_get|]. by apply find_queue_In in F as (_ & ? & _). Qed.

Lemma queue_publish_runs T s name data ttl now mono : now <= T -> inv s -> bytes_ok data ->
  runs T s (snd (queue_publish s name data ttl now mono)).
Proof.
  intros HT I Hb. pose proof (runs_refl T s (proj2 I)) as R0. unfold queue_publish.
  destruct ((zlen name =? 0) || _ || _) eqn:En; [done|].
  apply orb_false_elim in En as [_ En]. reflect_tests.
  destruct (find_queue s name) as [q|] eqn:F; [|done].
  pose proof (find_live _ _ _ (si_wf _ (proj1 I)) F) as L.
  destruct (publish_one_locked s (q_lock_id q) data ttl now mono) as [id s1] eqn:E.
  apply (publish_one_spec T _ _ _ _ _ _ _ _ _ HT I L) in E; [|by split].
  destruct id as [id|]; [|done]. gcase; [done|].
  destruct (wait_durable s1 (st_wal_seq s1)) as [rc s2] eqn:Ew. apply wait_durable_quiet in Ew.
  assert (runs T s s2) by (eapply runs_trans; [exact E|apply runs_quiet; [done|apply E]]).
  by gcase.
Qed.

(** A durable operation that logs one record, changes its queue and waits. *)
Lemma log_then_wait T s s1 s2 rc qid f : runs T s (upd_queue s1 qid f) ->
  wait_durable (upd_queue s1 qid f) (st_wal_seq s1) = (rc, s2) -> runs T s s2.
Proof.
  intros R E%wait_durable_quiet. eapply runs_trans; [exact R|]. apply runs_quiet; [done|apply R].
Qed.

Lemma queue_purge_runs T s name exp : inv s ->
  runs T s (snd (queue_purge_checked s name exp)).
Proof.
  intros I. pose proof (runs_refl T s (proj2 I)) as R0. unfold queue_purge_checked.
  gcase; [done|]. destruct (find_queue s name) as [q|] eqn:F; [|done].
  gcase; [done|]. pose proof (find_live _ _ _ (si_wf _ (proj1 I)) F) as L.
  destruct (append_log s LOG_PURGE q (q_depth q) 0 []) as [rc s1] eqn:E.
  apply append_log_spec in E as [(-> & _ & E)|(-> & Q & _)]; simpl;
    [|by apply runs_quiet; [|apply I]].
  unfold purge_queue. set (f := fun q => snd (purge_queue_locked q)).
  assert (R : runs T s (upd_queue s1 (q_lock_id q) f)).
  { pose proof (upd_evolve s s1 _ (q_lock_id q) f _ E (quiet_refl _)) as U.
    eapply runs_on_queue; [intros x; apply purge_config|apply (ev_queues _ _ _ _ U)| |apply I].
    by eapply c_purge. }
  destruct (q_durable q); [|done].
  destruct (wait_durable _ _) as [rc s2] eqn:Ew. eapply log_then_wait in Ew; [|done].
  by gcase.
Qed.

Lemma commits_weaken T p p' s s' : weaker p p' -> rtc (commit T p) s s' -> rtc (commit T p') s s'.
Proof. intros Hw. induction 1; [done|]. eapply rtc_l; [eapply (commit_weaken T T); [lia|exact Hw|eassumption]|done]. Qed.

Lemma runs_commits T p s s' : runs T s s' -> rtc (commit T p) s s'.
Proof. intros [R _]. by apply (commits_weaken T Plain). Qed.

Lemma queue_delete_runs T s name exp : inv s ->
  rtc (commit T Deleting) s (snd (queue_delete_if_revision s name exp)).
Proof.
  intros I. unfold queue_delete_if_revision.
  gcase; [done|]. destruct (find_queue s name) as [q|] eqn:F; [|done].
  gcase; [done|]. gcase; [done|]. pose proof (find_live _ _ _ (si_wf _ (proj1 I)) F) as L.
  destruct (append_log s LOG_DELETE q (q_depth q) 0 []) as [rc s1] eqn:E.
  apply append_log_spec in E as [(-> & _ & E)|(-> & Q & _)]; simpl; [|by apply frame1].
  assert (C : commit T Deleting s (upd_queue s1 (q_lock_id q) tombstone)).
  { eapply c_delete; [done|exact L|]. eapply upd_evolve; [exact E|apply quiet_refl]. }
  destruct (q_durable q); [|by apply rtc_once].
  destruct (wait_durable _ _) as [rc s2] eqn:Ew. apply wait_durable_quiet in Ew.
  assert (rtc (commit T Deleting) s s2) by (eapply rtc_l; [exact C|by apply frame1]).
  by gcase.
Qed.

(** ** Consuming *)

(** The messages the scan has passed, for queues without a delivery limit:
    before the first delayed one, all are in flight. *)
Definition passed (q : queue) (i : nat) (fd : option nat) : Prop :=
  unlimited q -> (default i fd <= i)%nat /\
    forall j m, (j < default i fd)%nat -> q_msgs q !! j = Some m -> is_inflight m = true.

Definition next_delayed (now : Z) (m : message) (i : nat) (fd : option nat) : option nat :=
  if negb (is_inflight m) && (now <? m_time m) &&
     match fd with None => true | Some _ => false end
  then Some i else fd.

Lemma passed_step q i fd m now : q_msgs q !! i = Some m -> passed q i fd ->
  negb (is_inflight m) && (m_time m <=? now) = false ->
  passed q (S i) (next_delayed now m i fd).
Proof.
  intros E H Hm Hu. destruct (H Hu) as [H1 H2]. unfold next_delayed.
  destruct (is_inflight m) eqn:Hi; simpl in *.
  - destruct fd as [d|]; simpl in *; [split; [lia|done]|]. split; [lia|].
    intros j m' Hj E'. destruct (decide (j = i)) as [->|]; [congruence|]. apply (H2 j); [lia|done].
  - reflect_tests. destruct (Z.ltb_spec now (m_time m)); [|lia]. simpl.
    destruct fd as [d|]; simpl in *; split; try lia; done.
Qed.

Lemma take_tag_spec s : 0 < st_next_tag s ->
  take_tag s = (st_next_tag s, {| s with st_next_tag := st_next_tag s + 1 |}).
Proof. intros H. unfold take_tag. simpl. destruct (Z.eqb_spec (st_next_tag s) 0); [lia|done]. Qed.

(** The delivery, after its record was appended to [s0]. *)
Lemma deliver_message_spec T s0 s qid q i m dl owner fd d s' : inv s0 -> live_at s0 qid q ->
  q_msgs q !! i = Some m -> is_inflight m = false ->
  passed q i fd ->
  evolve s0 s (st_queues s0) (logged q LOG_DELIVER (m_id m) 0 []) ->
  st_next_tag s = st_next_tag s0 ->
  deliver_message s qid q i m dl owner fd = (d, s') -> runs T s0 s' /\
    d = {| d_id := m_id m; d_tag := st_next_tag s; d_owner := owner; d_data := m_data m;
           d_count := u32 (m_deliveries m + 1); d_redelivered := 1 <? u32 (m_deliveries m + 1);
           d_deadline := dl |} /\
    get_queue s' qid = Some (deliver true q i dl owner (st_next_tag s) fd).
Proof.
  intros I L E Hi Hp Ev Ht. pose proof (si_tag _ (proj1 I)) as Hpos. unfold deliver_message.
  rewrite take_tag_spec by lia. set (s1 := {| s with st_next_tag := st_next_tag s + 1 |}).
  assert (Ea : (if tag_index_allocs q then alloc s1 else (true, s1)) = (true, s1)).
  { gcase; [|done]. apply alloc_nil. apply (ev_allocs _ _ _ _ Ev), (inv_allocs _ I). }
  rewrite Ea. intros; simplify_eq.
  set (f := fun q => deliver true q i dl owner (st_next_tag s) fd).
  assert (U : evolve s0 (upd_queue s1 qid f) (on_queue s0 qid f) (logged q LOG_DELIVER (m_id m) 0 [])).
  { eapply upd_evolve; [|apply quiet_refl]. eapply evolve_quiet; [exact Ev|]. quiet_tac. }
  assert (K : keeps_config f) by (intros x; apply deliver_config).
  split; [|split; [done|]].
  - eapply runs_on_queue; [exact K|apply (ev_queues _ _ _ _ U)| |apply I].
    eapply (c_deliver _ _ _ _ qid q i m dl owner (st_next_tag s)
      (fun q => match fd with Some d => d
                | None => ready_hint_advance (deliver_to true q i dl owner (st_next_tag s)) (S i)
                end)); [done|done|done|simpl; lia|simpl; lia| |exact U].
    intros Hu _. destruct (Hp Hu) as [H1 H2]. by eapply (deliver_hint true q i dl owner _ fd m).
  - apply (config_of s0 (upd_queue s1 qid f) qid q f); [apply I|apply L|done|].
    apply (ev_queues _ _ _ _ U).
Qed.

Lemma append_record_tag s op d name id aux data fs rc s' :
  append_record s op d name id aux data fs = (rc, s') -> st_next_tag s' = st_next_tag s.
Proof.
  unfold append_record, io. destruct (draw (st_ios s)) as [b l] eqn:E.
  repeat (gcase; simpl); intros; simplify_eq/=; try done.
  all: repeat case_match; by simplify_eq/=.
Qed.

Lemma exhausted_limited q m :
  negb (q_max_deliveries q =? 0) && negb (zlen (q_dlq_name q) =? 0) &&
  (q_max_deliveries q <=? m_deliveries m) = true -> ~ unlimited q.
Proof. intros H [E|E]; reflect_tests; rewrite E in *; done. Qed.

Lemma consume_scan_spec T vis owner now mono2 qid n : forall s q i fd rc od s',
  inv s -> live_at s qid q -> passed q i fd ->
  consume_scan n s qid i fd vis owner now mono2 = (rc, od, s') -> runs T s s'.
Proof.
  induction n as [|n IH]; intros s q i fd rc od s' I L Hp; cbn [consume_scan];
    [intros; simplify_eq; apply runs_refl, I|].
  rewrite (proj1 L). destruct (q_msgs q !! i) as [m|] eqn:E;
    [|intros; simplify_eq; apply runs_refl, I].
  fold (next_delayed now m i fd).
  destruct (negb (is_inflight m) && (m_time m <=? now)) eqn:Er.
  2:{ apply (IH s q (S i)); [done|done|]. by apply passed_step. }
  assert (Hi : is_inflight m = false) by (by reflect_tests).
  assert (Efd : next_delayed now m i fd = fd).
  { unfold next_delayed. rewrite Hi. simpl. destruct (Z.ltb_spec now (m_time m)); [|done].
    reflect_tests. lia. }
  rewrite Efd. clear Efd. set (ex := _ && _ && _).
  destruct (if ex then dead_letter_locked s qid i false false else (0, s)) as [r s1] eqn:Ed.
  assert (H : (r = 0 /\ s1 = s) \/ (~ unlimited q /\ runs T s s1 /\
    ((r = 1 /\ get_queue s1 qid = Some (remove_message q i)) \/
     (r = -1 /\ get_queue s1 qid = Some q)))).
  { destruct ex eqn:Eex; [|simplify_eq; auto]. apply exhausted_limited in Eex.
    destruct (dead_letter_spec T _ _ _ _ _ _ _ _ _ I L E Ed) as [R [H|[H|H]]]; auto. }
  clear Ed. destruct H as [[-> ->]|(Hl & R & [[-> G]|[-> G]])]; cbn [Z.ltb Z.compare].
  - rewrite alloc_nil by (by apply inv_allocs). simpl.
    destruct (append_log s LOG_DELIVER q (m_id m) 0 []) as [rc1 s1] eqn:E1.
    pose proof (append_record_tag _ _ _ _ _ _ _ _ _ _ E1) as Et.
    apply append_log_spec in E1 as [(-> & _ & E1)|(-> & Q & _)]; simpl;
      [|intros; simplify_eq; apply runs_quiet; [done|apply I]].
    destruct (deliver_message s1 qid q i m _ owner fd) as [d s2] eqn:E2.
    destruct (deliver_message_spec T s s1 _ _ _ _ _ _ _ _ _ I L E Hi Hp E1 Et E2) as (R & _ & _).
    destruct (q_durable q); [|intros; by simplify_eq].
    destruct (wait_durable s2 (st_wal_seq s2)) as [rc2 s3] eqn:Ew. apply wait_durable_quiet in Ew.
    assert (runs T s s3) by (eapply runs_trans; [exact R|apply runs_quiet; [done|apply R]]).
    gcase; intros; by simplify_eq.
  - intros H. eapply runs_trans; [exact R|].
    eapply (IH s1 (remove_message q i)); [by eapply runs_inv| | |exact H].
    + split; [done|]. eapply live_config; [exact L|apply remove_message_config].
    + intros Hu. destruct Hl. eapply unlimited_config; [apply remove_message_config|done].
  - intros H. eapply runs_trans; [exact R|].
    eapply (IH s1 q); [by eapply runs_inv| | |exact H]; [split; [done|apply L]|]. by intros Hu.
Qed.

Lemma queue_consume_runs T s name vis owner now mono mono2 : now <= T -> inv s ->
  runs T s (snd (queue_consume_for_owner s name vis owner now mono mono2)).
Proof.
  intros HT I. unfold queue_consume_for_owner.
  destruct (find_queue s name) as [q|] eqn:F; [|apply runs_refl, I].
  pose proof (find_live _ _ _ (si_wf _ (proj1 I)) F) as L.
  destruct (reap_queue_spec T s _ q now mono false HT I L) as (R & q1 & L1 & C1).
  rewrite (proj1 L1). destruct (consume_scan _ _ _ _ _ _ _ _ _) as [[rc od] s2] eqn:E. simpl.
  eapply runs_trans; [exact R|]. pose proof (runs_inv _ _ _ R I) as I1.
  eapply consume_scan_spec; [exact I1|exact L1| |exact E].
  intros Hu. simpl. split; [lia|].
  apply (qi_hint _ _ _ (live_at_inv _ _ _ (proj1 I1) L1) Hu).
Qed.

(** ** Settling *)

Lemma held_delivery_spec s qid q tag owner i m : inv s -> live_at s qid q -> tag <> 0 ->
  held_delivery q tag owner = Some (i, m) ->
  q_msgs q !! i = Some m /\ is_inflight m = true /\ m_owner m = owner /\ m_tag m = tag.
Proof.
  intros I L Ht. unfold held_delivery. destruct (tag_find q tag) as [j|] eqn:E; [|done].
  pose proof (qi_tags _ _ _ (live_at_inv _ _ _ (proj1 I) L)) as Hok.
  apply (tag_find_Some q tag j Hok Ht) in E as (m' & E & Et & Hi). rewrite E.
  destruct (is_inflight m' && (m_owner m' =? owner)) eqn:Eo; [|done].
  intros; simplify_eq. reflect_tests. auto.
Qed.

(** A transform: the record is durable before the queue changes. *)
Lemma remove_commit T s s1 qid q i m : inv s -> live_at s qid q -> q_msgs q !! i = Some m ->
  evolve s s1 (st_queues s) (logged q LOG_ACK (m_id m) 0 []) ->
  runs T s (upd_queue s1 qid (fun q => remove_message q i)).
Proof.
  intros I L E Ev. pose proof (upd_evolve s s1 _ qid (fun q => remove_message q i) _ Ev (quiet_refl _)) as U.
  eapply runs_on_queue; [intros x; apply remove_message_config|apply (ev_queues _ _ _ _ U)| |apply I].
  by eapply c_remove.
Qed.

Lemma requeue_commit T s s1 s2 qid q i m nb : inv s -> live_at s qid q -> q_msgs q !! i = Some m ->
  is_inflight m = true -> fits 64 nb ->
  evolve s s1 (st_queues s) (logged q LOG_REQUEUE (m_id m) nb []) ->
  quiet (upd_queue s1 qid (fun q => charge_record (make_ready q i nb) i)) s2 ->
  runs T s s2.
Proof.
  intros I L E Hi Hn Ev Q. pose proof (upd_evolve s s1 s2 qid _ _ Ev Q) as U.
  eapply runs_on_queue; [| |eapply c_requeue; [exact L|exact E|exact Hi|exact Hn|exact U]|apply I].
  - intros x. rewrite charge_record_config. apply make_ready_config.
  - apply (ev_queues _ _ _ _ U).
Qed.

Lemma queue_ack_runs T s name tag owner : inv s ->
  runs T s (snd (queue_ack_for_owner s name tag owner)).
Proof.
  intros I. pose proof (runs_refl T s (proj2 I)) as R0. unfold queue_ack_for_owner.
  destruct (Z.eqb_spec tag 0); [done|]. destruct (find_queue s name) as [q|] eqn:F; [|done].
  pose proof (find_live _ _ _ (si_wf _ (proj1 I)) F) as L.
  destruct (held_delivery q tag owner) as [[i m]|] eqn:H; [|done].
  destruct (held_delivery_spec _ _ _ _ _ _ _ I L n H) as (E & Hi & _).
  destruct (log_transform s LOG_ACK q (m_id m) 0) as [rc s1] eqn:El.
  apply log_transform_spec in El as [[-> Ev]|[-> Q]]; simpl;
    [|by apply runs_quiet; [|apply I]]. by eapply remove_commit.
Qed.

Lemma queue_nack_runs T s name tag owner requeue delay now : inv s ->
  runs T s (snd (queue_nack_for_owner_delay s name tag owner requeue delay now)).
Proof.
  intros I. pose proof (runs_refl T s (proj2 I)) as R0. unfold queue_nack_for_owner_delay.
  destruct (Z.eqb_spec tag 0); [done|]. destruct (find_queue s name) as [q|] eqn:F; [|done].
  pose proof (find_live _ _ _ (si_wf _ (proj1 I)) F) as L.
  destruct (held_delivery q tag owner) as [[i m]|] eqn:H; [|done].
  destruct (held_delivery_spec _ _ _ _ _ _ _ I L n H) as (E & Hi & _).
  destruct requeue.
  - destruct (log_transform s LOG_REQUEUE q (m_id m) _) as [rc s1] eqn:El.
    apply log_transform_spec in El as [[-> Ev]|[-> Q]]; simpl;
      [|by apply runs_quiet; [|apply I]]. eapply requeue_commit; eauto; [|quiet_tac].
    gcase; [unfold fits; lia|apply u64_fits].
  - gcase.
    + destruct (dead_letter_locked _ _ _ _ _) as [r s1] eqn:Ed.
      by destruct (dead_letter_spec T _ _ _ _ _ _ _ _ _ I L E Ed) as [R _].
    + destruct (log_transform s LOG_ACK q (m_id m) 0) as [rc s1] eqn:El.
      apply log_transform_spec in El as [[-> Ev]|[-> Q]]; simpl;
        [|by apply runs_quiet; [|apply I]]. by eapply remove_commit.
Qed.

End Ops.
