(* ===== verification/HeldLocks.v ===== *)
(** * What dead-lettering leaves alone

    A call that holds queue locks reaps one of its queues; expired messages
    may move to dead-letter queues.  A queue whose lock is held is busy, so no
    copy arrives there: the other held queues do not change, and the reaped
    one only loses messages. *)

From stdpp Require Import base numbers option list.
From S2P Require Import Prelude Queue QueueIndex WalRecord QueueStore QueueCommit.
Import Queue Wal Store Commit.

Module Held.

Definition ids (q : queue) : list Z := m_id <$> q_msgs q.

(** [s'] is [s] after work on [qid]: the other queues held are unchanged, and
    [qid] has lost messages at most. *)
Record spares (qid : Z) (s s' : store) : Prop := {
  sp_held : st_held s' = st_held s;
  sp_lock : st_next_lock_id s <= st_next_lock_id s';
  sp_others : forall k, k ∈ st_held s -> k <> qid -> k <= st_next_lock_id s ->
    get_queue s' k = get_queue s k;
  sp_own : forall q', qid <= st_next_lock_id s -> get_queue s' qid = Some q' ->
    exists q, get_queue s qid = Some q /\ ids q' `sublist_of` ids q }.

Lemma spares_same qid s s' : st_held s' = st_held s -> st_next_lock_id s' = st_next_lock_id s ->
  st_queues s' = st_queues s -> spares qid s s'.
Proof.
  intros H1 H2 H3. assert (G : forall k, get_queue s' k = get_queue s k).
  { intros k. unfold get_queue. by rewrite H3. }
  constructor; [done|lia|by intros|]. intros q' _. rewrite G. eauto.
Qed.

Lemma spares_refl qid s : spares qid s s.
Proof. by apply spares_same. Qed.

Lemma spares_trans qid s1 s2 s3 : spares qid s1 s2 -> spares qid s2 s3 -> spares qid s1 s3.
Proof.
  intros [H1 L1 O1 W1] [H2 L2 O2 W2]. constructor; [congruence|lia| |].
  - intros k Hk Hne Hl. rewrite <- O1 by done. apply O2; [congruence|done|lia].
  - intros q' Hl G. destruct (W2 q') as (q2 & G2 & S2); [lia|done|].
    destruct (W1 q2 Hl G2) as (q1 & G1 & S1). exists q1. split; [done|]. by etrans.
Qed.

Lemma get_upd_other s qid f k : keeps_identity f -> k <> qid ->
  get_queue (upd_queue s qid f) k = get_queue s k.
Proof.
  intros Hf Hk. unfold get_queue, upd_queue. simpl.
  induction (st_queues s) as [|q l IH]; [done|]. simpl.
  destruct (Z.eqb_spec (q_lock_id q) qid) as [E|E].
  - rewrite (proj1 (Hf q)). destruct (Z.eqb_spec (q_lock_id q) k); [congruence|done].
  - by destruct (q_lock_id q =? k).
Qed.

Lemma get_upd_own s qid f q' : keeps_identity f -> get_queue (upd_queue s qid f) qid = Some q' ->
  exists q, get_queue s qid = Some q /\ q' = f q.
Proof.
  intros Hf. unfold get_queue, upd_queue. simpl.
  induction (st_queues s) as [|q l IH]; [done|]. simpl.
  destruct (Z.eqb_spec (q_lock_id q) qid) as [E|E].
  - rewrite (proj1 (Hf q)), E, Z.eqb_refl. intros [= <-]. eauto.
  - destruct (Z.eqb_spec (q_lock_id q) qid); [done|]. auto.
Qed.

(** Work on [qid] itself, and on a queue that is not held. *)
Lemma spares_own qid s f : keeps_identity f -> (forall q, ids (f q) `sublist_of` ids q) ->
  spares qid s (upd_queue s qid f).
Proof.
  intros Hf Hs. constructor; [done|simpl; lia| |].
  - intros k _ Hne _. by apply get_upd_other.
  - intros q' _ G. destruct (get_upd_own _ _ _ _ Hf G) as (q & Gq & ->). eauto.
Qed.

Lemma spares_free qid s did f : keeps_identity f -> did <> qid -> did ∉ st_held s ->
  spares qid s (upd_queue s did f).
Proof.
  intros Hf Hne Hh. constructor; [done|simpl; lia| |].
  - intros k Hk _ _. apply get_upd_other; [done|]. by intros ->.
  - intros q' _. rewrite get_upd_other by done. eauto.
Qed.

Lemma spares_create qid s q s' : st_queues s' = q :: st_queues s ->
  q_lock_id q = st_next_lock_id s + 1 -> st_next_lock_id s' = st_next_lock_id s + 1 ->
  st_held s' = st_held s -> spares qid s s'.
Proof.
  intros E Eq El Eh.
  assert (G : forall k, k <= st_next_lock_id s -> get_queue s' k = get_queue s k).
  { intros k Hk. rewrite (get_create _ _ _ _ E), Eq. rewrite decide_False by lia. done. }
  constructor; [done|lia|by auto|]. intros q' Hl. rewrite G by done. eauto.
Qed.

Lemma append_record_spares qid s op d name id aux data fs rc s' :
  append_record s op d name id aux data fs = (rc, s') -> spares qid s s'.
Proof.
  unfold append_record. destruct (negb d); [intros; simplify_eq; apply spares_refl|].
  destruct (_ || _); [intros; simplify_eq; apply spares_refl|].
  unfold io. destruct (draw (st_ios s)) as [b r]. destruct b; simpl;
    [|intros; simplify_eq; by apply spares_same].
  destruct fs; [|intros; simplify_eq; by apply spares_same].
  destruct (draw r) as [b r']. destruct b; simpl; intros; simplify_eq; by apply spares_same.
Qed.

Lemma sync_log_spares qid s rc s' : sync_log s = (rc, s') -> spares qid s s'.
Proof.
  unfold sync_log. destruct (negb _); [intros; simplify_eq; apply spares_refl|].
  destruct (_ <=? _); [intros; simplify_eq; apply spares_refl|].
  unfold io. destruct (draw (st_ios s)) as [b r].
  destruct b; intros; simplify_eq; by apply spares_same.
Qed.

Lemma trylock_spares qid s b s' : trylock s = (b, s') -> spares qid s s'.
Proof. unfold trylock. destruct (draw _). intros; simplify_eq. by apply spares_same. Qed.

Lemma resolve_dlq_spares qid s q od s' : resolve_dlq s q = (od, s') -> spares qid s s'.
Proof.
  unfold resolve_dlq. destruct (find_queue s _); [intros; simplify_eq; apply spares_refl|].
  destruct (append_record _ _ _ _ _ _ _ _) as [rc s1] eqn:E.
  apply (append_record_spares qid) in E. destruct (rc <? 0); [by intros; simplify_eq|].
  unfold create_queue, alloc. destruct (draw (st_allocs s1)) as [b r].
  destruct b; intros; simplify_eq; (eapply spares_trans; [exact E|]).
  - by eapply spares_create.
  - by apply spares_same.
Qed.

Lemma log_dead_letter_spares qid s dlq q id e m rc s' :
  log_dead_letter s dlq q id e m = (rc, s') -> spares qid s s'.
Proof.
  unfold log_dead_letter, append_log. destruct (q_durable dlq); [|intros; simplify_eq; apply spares_refl].
  destruct (append_record _ _ _ _ _ _ _ _) as [r1 s1] eqn:E1.
  apply (append_record_spares qid) in E1. destruct (r1 <? 0); [by intros; simplify_eq|].
  destruct (append_record s1 _ _ _ _ _ _ _) as [r2 s2] eqn:E2.
  apply (append_record_spares qid) in E2. pose proof (spares_trans _ _ _ _ E1 E2) as E.
  destruct (r2 <? 0); [by intros; simplify_eq|]. intros H%(sync_log_spares qid). by eapply spares_trans.
Qed.

Lemma remove_ids q i : ids (remove_message q i) `sublist_of` ids q.
Proof. unfold ids. rewrite remove_message_msgs. apply fmap_sublist, sublist_delete. Qed.

Lemma remove_identity i : keeps_identity (fun q => remove_message q i).
Proof. apply keeps_config_identity. intros q. apply remove_message_config. Qed.

Lemma route_copy_spares qid s q i m did dlq ce r s' : did <> qid -> did ∉ st_held s ->
  route_copy s qid q i m did dlq ce = (r, s') -> spares qid s s'.
Proof.
  intros Hne Hh. unfold route_copy.
  destruct (log_dead_letter _ _ _ _ _ _) as [rc s1] eqn:E. apply (log_dead_letter_spares qid) in E.
  assert (E0 : spares qid s s1) by (eapply spares_trans; [|exact E]; by apply spares_same). clear E.
  destruct (rc <? 0); [by intros; simplify_eq|]. unfold append_message, alloc.
  destruct (draw (st_allocs s1)) as [b l]. destruct b; simpl; intros; simplify_eq.
  - eapply spares_trans; [exact E0|].
    set (link := fun q0 =>
      message_link q0 (message_create (st_next_id s) (if ce then 0 else m_expires m) (m_data m))).
    set (s2 := {| s1 with st_allocs := l |}).
    apply (spares_trans _ _ s2); [by apply spares_same|].
    apply (spares_trans _ _ (upd_queue s2 did link)).
    + apply spares_free; [|done|simpl; by rewrite (sp_held _ _ _ E0)].
      apply keeps_config_identity. intros x. apply message_link_config.
    + eapply spares_trans; [apply (spares_own qid _ (fun q => remove_message q i));
        [apply remove_identity|intros; apply remove_ids]|]. by apply spares_same.
  - eapply spares_trans; [exact E0|]. by apply spares_same.
Qed.

Lemma dead_letter_spares qid s i ce mh r s' :
  dead_letter_locked s qid i ce mh = (r, s') -> spares qid s s'.
Proof.
  unfold dead_letter_locked. pose proof (spares_refl qid s) as R0.
  destruct (get_queue s qid) as [q|]; [|by intros; simplify_eq].
  destruct (q_msgs q !! i) as [m|]; [|by intros; simplify_eq].
  destruct (zlen (q_dlq_name q) =? 0); [by intros; simplify_eq|].
  destruct (if mh then (true, s) else trylock s) as [held s1] eqn:E1.
  assert (S1 : spares qid s s1) by (destruct mh; [by simplify_eq|by eapply trylock_spares]).
  destruct held; simpl; [|by intros; simplify_eq].
  destruct (resolve_dlq s1 q) as [od s2] eqn:E2. apply (resolve_dlq_spares qid) in E2.
  pose proof (spares_trans _ _ _ _ S1 E2) as S2. destruct od as [did|]; [|by intros; simplify_eq].
  destruct ((did =? qid) || existsb (Z.eqb did) (st_held s2)) eqn:Hb; simpl; [by intros; simplify_eq|].
  apply orb_false_elim in Hb as [Hne%Z.eqb_neq Hx].
  assert (Hh : did ∉ st_held s2).
  { intros Hin. apply not_true_iff_false in Hx. apply Hx. apply existsb_exists.
    exists did. split; [by apply list_elem_of_In|apply Z.eqb_refl]. }
  destruct (trylock s2) as [free s3] eqn:E3. apply (trylock_spares qid) in E3.
  pose proof (spares_trans _ _ _ _ S2 E3) as S3. destruct free; simpl; [|by intros; simplify_eq].
  destruct (get_queue s3 did) as [dlq|]; [|by intros; simplify_eq].
  destruct (_ && _); [by intros; simplify_eq|]. intros H.
  eapply spares_trans; [exact S3|]. eapply route_copy_spares; [exact Hne| |exact H].
  by rewrite (sp_held _ _ _ E3).
Qed.

Lemma make_ready_ids q i nb : ids (make_ready q i nb) = ids q.
Proof.
  unfold ids, make_ready, update_msg. simpl. rewrite fmap_alter_id by done.
  destruct (tag_index_remove_msgs q i) as [->| ->]; [done|]. by apply fmap_alter_id.
Qed.

Lemma reap_walk_spares qid now mono mh n : forall s i nd nd' s',
  reap_walk n s qid i now mono nd mh = (nd', s') -> spares qid s s'.
Proof.
  induction n as [|n IH]; intros s i nd nd' s'; cbn [reap_walk];
    [intros; simplify_eq; apply spares_refl|].
  pose proof (spares_refl qid s) as R0.
  destruct (get_queue s qid) as [q|]; [|by intros; simplify_eq].
  destruct (q_msgs q !! i) as [m|]; [|by intros; simplify_eq].
  destruct (negb _ && _).
  - destruct (dead_letter_locked s qid i true mh) as [routed s1] eqn:E.
    apply dead_letter_spares in E. destruct (routed <? 0).
    { intros H%IH. by eapply spares_trans. }
    intros H%IH. eapply spares_trans; [exact E|]. eapply spares_trans; [|exact H].
    destruct (routed =? 0); [|apply spares_refl].
    apply spares_own; [apply remove_identity|]. intros; apply remove_ids.
  - destruct (is_inflight m); [|by apply IH]. destruct (m_time m <=? mono); [|by apply IH].
    intros H%IH. eapply spares_trans; [|exact H].
    eapply spares_trans; [apply (spares_own qid s (fun q => make_ready q i 0))|by apply spares_same].
    + apply keeps_config_identity. intros x. apply make_ready_config.
    + intros x. by rewrite make_ready_ids.
Qed.

Lemma reap_queue_spares qid s now mono mh : spares qid s (reap_queue_locked s qid now mono mh).
Proof.
  unfold reap_queue_locked. pose proof (spares_refl qid s) as R0.
  destruct (get_queue s qid) as [q|]; [|done]. destruct (reap_skip q mono); [done|].
  destruct (reap_walk _ _ _ _ _ _ _ _) as [nd s1] eqn:E. apply reap_walk_spares in E.
  eapply spares_trans; [exact E|]. by apply spares_own.
Qed.

End Held.
