(* ===== verification/ExchangeOps.v ===== *)
(** * The exchange operations as sequences of commits

    Declaration, binding, deletion and the alternate of an exchange are each
    one commit.  A publication through an exchange reaps its targets and then
    adds one message to each of them; the locks it holds keep dead-lettering
    out of the targets it has already checked, so the capacity test still
    holds when the messages are added. *)

From stdpp Require Import base numbers option list relations.
From S2P Require Import Prelude Topic Queue QueueIndex WalRecord QueueStore QueueReplay Exchange QueueCommit.
From S2P Require Import QueueOps HeldLocks.
Import Queue QueueIndex Wal Store Replay Exchanges XChange Commit Ops Held.

Module XOps.

(** Every exchange has a next revision and takes one more binding. *)
Definition xrooms (s : store) : Prop := Forall xroom (st_exchanges s).

(** A logged step followed by a change of consumers and exchanges. *)
Lemma evolve_swap s s1 s' qs rs cs xs : evolve s s1 qs rs ->
  st_consumers s' = cs -> st_exchanges s' = xs ->
  quiet {| s1 with st_consumers := cs; st_exchanges := xs |} s' ->
  evolve {| s with st_consumers := cs; st_exchanges := xs |} s' qs rs.
Proof.
  intros [] Hc Hx []. constructor; simpl in *; try done; try lia; try congruence; auto.
  - destruct ev_log1 as [|[F1 ->]]; [by left|]. rewrite app_nil_r.
    destruct ev_log0 as [|[F0 ->]]; [left; congruence|right; auto].
  - destruct ev_log1 as [|[F1 _]]; [by left|]. destruct ev_seq1 as [|Q1]; [by left|].
    destruct ev_seq0 as [|Q0]; [congruence|right]. unfold zlen in *. simpl in *. lia.
Qed.

(** An exchange change after its record. *)
Lemma exchange_commit T s s1 s' xs rs : inv s -> xchange (st_exchanges s) xs rs ->
  evolve s s1 (st_queues s) rs -> st_exchanges s' = xs ->
  quiet {| s1 with st_exchanges := xs |} s' -> runs T s s'.
Proof.
  intros I C E Hx Q. assert (Hc : st_consumers s' = st_consumers s).
  { transitivity (st_consumers s1); [apply (ev_consumers _ _ _ _ Q)|apply (ev_consumers _ _ _ _ E)]. }
  assert (E' : evolve {| s with st_exchanges := xs |} s' (st_queues s) rs).
  { apply (evolve_swap s s1 s' (st_queues s) rs (st_consumers s) xs E Hc Hx).
    rewrite <- (ev_consumers _ _ _ _ E). exact Q. }
  split; [|eapply policy_same; [apply (ev_queues _ _ _ _ E')|apply I]].
  by eapply rtc_once, c_exchange.
Qed.

Lemma xlogged_spec s op x aux payload rc s' :
  append_record s op (x_durable x) (x_name x) 0 aux payload true = (rc, s') ->
  (rc = 0 /\ evolve s s' (st_queues s) (xlogged x op aux payload)) \/ (rc = -1 /\ quiet s s').
Proof. intros [(-> & _ & E)|(-> & Q & _)]%append_record_spec; auto. Qed.

Lemma valid_names name key : exchange_payload_valid name key = true -> bytes_ok name ->
  bytes_ok key -> name_ok name /\ name_valid key.
Proof.
  unfold exchange_payload_valid. intros H Hn Hk. reflect_tests.
  unfold name_ok, name_valid, EXCHANGE_NAME_MAX, ROUTING_KEY_MAX, QUEUE_NAME_MAX in *.
  split; [split; [done|lia]|split; [done|lia]].
Qed.

Lemma exchange_declare_runs T s name durable type ae : inv s -> bytes_ok name -> bytes_ok ae ->
  0 <= type -> runs T s (snd (exchange_declare s name durable type ae)).
Proof.
  intros I Hn Ha Ht. pose proof (runs_refl T s (proj2 I)) as R0. unfold exchange_declare.
  destruct (negb _ || _) eqn:Ev; [done|]. apply orb_false_elim in Ev as [Ev%negb_false_iff Et].
  destruct (valid_names _ _ Ev Hn (Forall_nil_2 _)) as [Hname _].
  destruct (negb (zlen ae =? 0) && _) eqn:Ea; [done|].
  assert (Hae : name_valid ae).
  { split; [done|]. destruct (Z.eqb_spec (zlen ae) 0) as [->|]; [done|]. simpl in Ea.
    apply orb_false_elim in Ea as [Ea _]. reflect_tests. done. }
  destruct (find_exchange s name) as [x|] eqn:F; [done|].
  destruct (append_record _ _ _ _ _ _ _ _) as [rc s1] eqn:E.
  apply (xlogged_spec s LOG_EXDECLARE (new_exchange name durable type ae)) in E as [[-> E]|[-> Q]];
    simpl; [|by apply runs_quiet; [|apply I]].
  unfold create_exchange. rewrite alloc_nil by (apply (ev_allocs _ _ _ _ E), (inv_allocs _ I)). simpl.
  eapply exchange_commit; [done|apply (xc_declare _ name durable type ae)|exact E| |]; try done.
  - reflect_tests. lia.
  - simpl. by rewrite (ev_exchanges _ _ _ _ E).
  - quiet_tac. by rewrite (ev_exchanges _ _ _ _ E).
Qed.

Lemma bump_revision x : xroom x -> xinv x -> u64 (x_revision x + 1) = x_revision x + 1.
Proof. intros [_ H] [_ H']. apply u64_small. unfold fits. lia. Qed.

Lemma found_exchange s name x : inv s -> xrooms s -> find_exchange s name = Some x ->
  xinv x /\ xroom x /\ x_name x = name.
Proof.
  intros I X F. apply find_name in F as [Hin E]. unfold xrooms in X. rewrite Forall_forall in X.
  pose proof (xs_inv _ (si_exchanges _ (proj1 I))) as H. rewrite Forall_forall in H. auto.
Qed.

Lemma exchange_bind_runs T s name queue key : inv s -> xrooms s -> bytes_ok name ->
  bytes_ok queue -> bytes_ok key -> runs T s (snd (exchange_bind s name queue key)).
Proof.
  intros I X Hn Hq Hk. pose proof (runs_refl T s (proj2 I)) as R0. unfold exchange_bind.
  destruct (negb _ || _ || _) eqn:Ev; [done|].
  apply orb_false_elim in Ev as [[Ev%negb_false_iff E1]%orb_false_elim E2].
  destruct (valid_names _ _ Ev Hn Hk) as [Hname Hkey].
  assert (Hqueue : name_ok queue) by (apply name_test; [by rewrite E1, E2|done]).
  destruct (find_exchange s name) as [x|] eqn:F; [|done].
  destruct (find_queue s queue) as [q|]; [|done].
  destruct (find_binding x queue key) eqn:Fb; [done|]. gcase; [done|].
  destruct (found_exchange _ _ _ I X F) as (Hx & Hr & En).
  rewrite (bump_revision x Hr Hx). destruct (append_record _ _ _ _ _ _ _ _) as [rc s1] eqn:E.
  apply xlogged_spec in E as [[-> E]|[-> Q]]; simpl; [|by apply runs_quiet; [|apply I]].
  unfold add_binding_locked. destruct (Z.leb_spec EXCHANGE_BINDINGS_MAX (x_binding_count x));
    [destruct Hr; lia|].
  rewrite alloc_nil by (apply (ev_allocs _ _ _ _ E), (inv_allocs _ I)). simpl.
  eapply exchange_commit; [done|by apply (xc_bind _ name x queue key)|exact E| |].
  - simpl. rewrite (ev_exchanges _ _ _ _ E), En, upd_first_compose by done. done.
  - quiet_tac. by rewrite (ev_exchanges _ _ _ _ E), En, upd_first_compose.
Qed.

Lemma exchange_unbind_runs T s name queue key exp : inv s -> xrooms s -> bytes_ok name ->
  bytes_ok queue -> bytes_ok key ->
  runs T s (snd (exchange_unbind_checked s name queue key exp)).
Proof.
  intros I X Hn Hq Hk. pose proof (runs_refl T s (proj2 I)) as R0. unfold exchange_unbind_checked.
  destruct (negb _ || _ || _) eqn:Ev; [done|].
  apply orb_false_elim in Ev as [[Ev%negb_false_iff E1]%orb_false_elim E2].
  destruct (valid_names _ _ Ev Hn Hk) as [Hname Hkey].
  assert (Hqueue : name_ok queue) by (apply name_test; [by rewrite E1, E2|done]).
  destruct (find_exchange s name) as [x|] eqn:F; [|done]. gcase; [done|].
  destruct (find_binding x queue key) as [b|] eqn:Fb; [|done].
  destruct (found_exchange _ _ _ I X F) as (Hx & Hr & En).
  rewrite (bump_revision x Hr Hx). destruct (append_record _ _ _ _ _ _ _ _) as [rc s1] eqn:E.
  apply xlogged_spec in E as [[-> E]|[-> Q]]; simpl; [|by apply runs_quiet; [|apply I]].
  eapply exchange_commit; [done|by apply (xc_unbind _ name x queue key b)|exact E| |].
  - simpl. by rewrite (ev_exchanges _ _ _ _ E).
  - quiet_tac. by rewrite (ev_exchanges _ _ _ _ E).
Qed.

Lemma exchange_delete_runs T s name exp : inv s -> xrooms s ->
  runs T s (snd (exchange_delete_if_revision s name exp)).
Proof.
  intros I X. pose proof (runs_refl T s (proj2 I)) as R0. unfold exchange_delete_if_revision.
  gcase; [done|]. destruct (find_exchange s name) as [x|] eqn:F; [|done].
  do 3 (gcase; [done|]). destruct (append_record _ _ _ _ _ _ _ _) as [rc s1] eqn:E.
  apply xlogged_spec in E as [[-> E]|[-> Q]]; simpl; [|by apply runs_quiet; [|apply I]].
  eapply exchange_commit; [done|by apply (xc_delete _ name x)|exact E| |].
  - simpl. by rewrite (ev_exchanges _ _ _ _ E).
  - quiet_tac. by rewrite (ev_exchanges _ _ _ _ E).
Qed.

Lemma exchange_set_alternate_runs T s name ae exp : inv s -> xrooms s -> bytes_ok name ->
  bytes_ok ae -> runs T s (snd (exchange_set_alternate_if_revision s name ae exp)).
Proof.
  intros I X Hn Ha. pose proof (runs_refl T s (proj2 I)) as R0.
  unfold exchange_set_alternate_if_revision. destruct (negb _ || _ || _ || _) eqn:Ev; [done|].
  apply orb_false_elim in Ev as [[[_ E1]%orb_false_elim E2]%orb_false_elim E3].
  change EXCHANGE_NAME_MAX with QUEUE_NAME_MAX in E2.
  assert (Hae : name_ok ae) by (apply name_test; [by rewrite E1, E2|done]).
  destruct (find_exchange s name) as [x|] eqn:F; [|done]. do 2 (gcase; [done|]).
  rewrite alloc_nil by (by apply inv_allocs). simpl.
  destruct (found_exchange _ _ _ I X F) as (Hx & Hr & En).
  rewrite (bump_revision x Hr Hx). destruct (append_record _ _ _ _ _ _ _ _) as [rc s1] eqn:E.
  apply xlogged_spec in E as [[-> E]|[-> Q]]; simpl; [|by apply runs_quiet; [|apply I]].
  eapply exchange_commit; [done|apply (xc_alternate _ name x ae)|exact E| |]; try done.
  - intros ->. unfold name_eqb in E3. by rewrite bool_decide_eq_true_2 in E3.
  - simpl. by rewrite (ev_exchanges _ _ _ _ E).
  - quiet_tac. by rewrite (ev_exchanges _ _ _ _ E).
Qed.

(** ** Publishing *)

(** The queues named by [ts] are live. *)
Definition all_live (s : store) (ts : list Z) : Prop := forall t, t ∈ ts -> exists q, live_at s t q.

Lemma live_lock s t q : sinv s -> live_at s t q -> t <= st_next_lock_id s.
Proof.
  intros Hs [G _]. apply get_queue_In in G as [Hin <-].
  pose proof (wf_fresh s (si_wf _ Hs)) as H. rewrite Forall_forall in H.
  apply H. by apply list_elem_of_fmap_2.
Qed.

(** The capacity check: when it passes, every target is live and has room;
    the messages of the targets are old ones. *)
Lemma check_targets_spec T now ts : now <= T -> forall s monos ok s', inv s -> NoDup ts ->
  (forall t, t ∈ ts -> t ∈ st_held s) -> all_live s ts ->
  check_targets s ts now monos = (ok, s') ->
  runs T s s' /\ st_held s' = st_held s /\ st_next_lock_id s <= st_next_lock_id s' /\
  (forall k, k ∈ st_held s -> k ∉ ts -> k <= st_next_lock_id s -> get_queue s' k = get_queue s k) /\
  (forall t q', t ∈ ts -> get_queue s' t = Some q' ->
     exists q, get_queue s t = Some q /\ ids q' `sublist_of` ids q) /\
  (ok = true -> forall t, t ∈ ts -> exists q, live_at s' t q /\ room q).
Proof.
  intros HT. induction ts as [|t ts IH]; intros s monos ok s' I Hn Hh Hl; cbn [check_targets].
  { intros; simplify_eq. split; [apply runs_refl, I|]. split_and!; try done.
    - by intros t q' ?%not_elem_of_nil.
    - by intros _ t ?%not_elem_of_nil. }
  apply NoDup_cons in Hn as [Ht Hn]. destruct (Hl t) as [q L]; [by left|].
  destruct (reap_queue_spec T s t q now (hd 0 monos) false HT I L) as (R & q1 & L1 & C1).
  pose proof (reap_queue_spares t s now (hd 0 monos) false) as S.
  set (s1 := reap_queue_locked s t now (hd 0 monos) false) in *. clearbody s1.
  rewrite (proj1 L1). destruct S as [S1 S2 S3 S4].
  assert (Ho : forall k, k ∈ t :: ts -> k <= st_next_lock_id s).
  { intros k [qk Lk]%Hl. by eapply live_lock; [apply I|]. }
  destruct (negb (q_max_depth q1 =? 0) && _) eqn:Ec.
  { intros; simplify_eq. split_and!; try done.
    - intros k Hk Hnk Hb. apply S3; [done| |done]. intros ->. apply Hnk. by left.
    - intros k q' Hk G. apply elem_of_cons in Hk as [->|Hk]; [apply S4; [|done]; apply Ho; by left|].
      rewrite S3 in G; [eauto|apply Hh; by right|by intros ->|apply Ho; by right]. }
  apply room_test in Ec. intros H.
  apply IH in H as (R' & H1 & H2 & H3 & H4 & H5); [|by eapply runs_inv|done| |].
  2:{ intros k Hk. rewrite S1. apply Hh. by right. }
  2:{ intros k Hk. destruct (Hl k) as [qk [Gk Dk]]; [by right|]. exists qk. split; [|done].
      rewrite S3; [done|apply Hh; by right|by intros ->|apply Ho; by right]. }
  assert (Gt : get_queue s' t = get_queue s1 t).
  { apply H3; [rewrite S1; apply Hh; by left|done|]. etrans; [apply Ho; by left|done]. }
  split_and!; [by eapply runs_trans|congruence|lia| | |].
  - intros k Hk Hnk Hb. rewrite H3; [|by rewrite S1|by intros ?; apply Hnk; right|lia].
    apply S3; [done| |done]. intros ->. apply Hnk. by left.
  - intros k q' Hk G. apply elem_of_cons in Hk as [->|Hk].
    + rewrite Gt in G. apply S4; [apply Ho; by left|done].
    + destruct (H4 k q' Hk G) as (qk & Gk & Sk). exists qk. split; [|done].
      rewrite S3 in Gk; [done|apply Hh; by right|by intros ->|apply Ho; by right].
  - intros -> k Hk. apply elem_of_cons in Hk as [->|Hk]; [|by apply H5].
    exists q1. split; [|done]. split; [by rewrite Gt, (proj1 L1)|apply L1].
Qed.

Lemma append_get s t id e d s' k : st_queues s' = on_queue s t (fun q => message_link q (message_create id e d)) ->
  k <> t -> get_queue s' k = get_queue s k.
Proof.
  intros E Hk. rewrite <- (get_upd_other s t (fun q => message_link q (message_create id e d)) k).
  - unfold get_queue. by rewrite E.
  - apply keeps_config_identity. intros x. apply message_link_config.
  - done.
Qed.

(** Each target, when it has room, receives one message under a new identity;
    other queues do not change. *)
Lemma publish_targets_spec T e data ts : fits 64 e -> data_ok data -> forall s ok s', inv s ->
  NoDup ts -> (forall t, t ∈ ts -> exists q, live_at s t q /\ room q) ->
  publish_targets s ts e data = (ok, s') ->
  runs T s s' /\ st_next_id s <= st_next_id s' /\
  (forall k, k ∉ ts -> get_queue s' k = get_queue s k) /\
  (ok = true -> forall t q, t ∈ ts -> get_queue s t = Some q -> exists id,
     st_next_id s <= id < st_next_id s' /\
     get_queue s' t = Some (message_link q (message_create id e data))) /\
  (ok = false -> log_down s').
Proof.
  intros He Hd. induction ts as [|t ts IH]; intros s ok s' I Hn Hl; cbn [publish_targets].
  { intros; simplify_eq. split; [apply runs_refl, I|]. split_and!; try done.
    by intros _ t q ?%not_elem_of_nil. }
  apply NoDup_cons in Hn as [Ht Hn]. destruct (Hl t) as (q & L & Hr); [by left|].
  pose proof (bump_next_id_quiet s) as Q0.
  set (s1 := {| s with st_next_id := st_next_id s + 1 |}) in *.
  rewrite (quiet_get _ _ t Q0), (proj1 L).
  destruct (append_log s1 LOG_PUBLISH q (st_next_id s) e data) as [rc s2] eqn:E.
  apply append_log_spec in E as [(-> & _ & E)|(-> & Q & Hf)]; simpl.
  2:{ intros; simplify_eq. pose proof (quiet_trans _ _ _ Q0 Q) as Q2.
      split_and!; [apply runs_quiet; [done|apply I]|apply (ev_id _ _ _ _ Q2)| |done|].
      - intros k _. by apply quiet_get.
      - intros _. unfold log_down. rewrite (ev_open _ _ _ _ Q). destruct (st_log_open s1); auto. }
  rewrite append_message_upd by (apply (ev_allocs _ _ _ _ E), (inv_allocs _ I)). simpl.
  pose proof (evolve_trans _ _ _ _ _ _ Q0 E) as R0. rewrite app_nil_l in R0.
  set (link := fun x => message_link x (message_create (st_next_id s) e data)).
  set (s3 := upd_queue s2 t link).
  assert (E3 : st_queues s3 = on_queue s t link).
  { unfold on_queue. simpl. by rewrite (ev_queues _ _ _ _ R0). }
  assert (Hid : st_next_id s < st_next_id s3).
  { pose proof (ev_id _ _ _ _ E). simpl in *. lia. }
  assert (R : runs T s s3).
  { eapply runs_on_queue; [intros x; apply message_link_config|exact E3| |apply I].
    eapply (c_link _ _ _ _ t q _ e); [exact L|apply Z.le_refl|exact Hid|done|done|exact Hd|].
    eapply upd_evolve; [exact R0|apply quiet_refl]. }
  assert (Ho : forall k, k <> t -> get_queue s3 k = get_queue s k).
  { intros k Hk. by eapply append_get. }
  assert (Gt : get_queue s3 t = Some (link q)).
  { eapply config_of; [apply I|apply L|intros x; apply message_link_config|exact E3]. }
  intros H. apply IH in H as (R' & H1 & H2 & H3 & H4); [|by eapply runs_inv|done|].
  2:{ intros k Hk. destruct (Hl k) as (qk & [Gk Dk] & Hk'); [by right|]. exists qk.
      split; [|done]. split; [|done]. rewrite Ho; [done|by intros ->]. }
  split_and!; [by eapply runs_trans|lia| | |done].
  - intros k Hk. rewrite H2 by (intros ?; apply Hk; by right). apply Ho. intros ->. apply Hk. by left.
  - intros -> k qk Hk Gk. apply elem_of_cons in Hk as [->|Hk].
    + exists (st_next_id s). split; [lia|]. rewrite H2 by done. rewrite (proj1 L) in Gk. by injection Gk as <-.
    + destruct (H3 eq_refl k qk Hk) as (id & Hi & G'); [rewrite Ho; [done|by intros ->]|].
      exists id. split; [lia|done].
Qed.

(** ** Routing *)

(** The queues the bindings [bs] route the key to. *)
Definition routes (s : store) (type : Z) (key : bytes) (bs : list binding) (t : Z) : Prop :=
  exists b q, b ∈ bs /\ binding_takes type key b = true /\ find_queue s (b_queue b) = Some q /\
    q_lock_id q = t.

Lemma collect_targets_nodup s type key max bs : forall ts, NoDup ts ->
  NoDup (collect_targets s type key max bs ts).
Proof.
  induction bs as [|b bs IH]; intros ts Hn; cbn [collect_targets]; [done|].
  destruct (binding_takes type key b); [|auto]. destruct (find_queue s (b_queue b)) as [q|]; [|auto].
  destruct (existsb (Z.eqb (q_lock_id q)) ts) eqn:E; simpl; [auto|].
  destruct (negb _); simpl; [auto|]. apply IH. apply NoDup_app. split; [done|].
  split; [|apply NoDup_singleton]. intros t Ht ->%list_elem_of_singleton.
  apply not_true_iff_false in E. apply E, existsb_exists.
  exists (q_lock_id q). split; [by apply list_elem_of_In|apply Z.eqb_refl].
Qed.

(** Nothing but routed queues is collected; all of them when the array is
    long enough for one slot per binding. *)
Lemma collect_targets_sound s type key max bs : forall ts t,
  t ∈ collect_targets s type key max bs ts -> t ∈ ts \/ routes s type key bs t.
Proof.
  induction bs as [|b bs IH]; intros ts t; cbn [collect_targets]; [by left|].
  assert (Hc : t ∈ ts \/ routes s type key bs t -> t ∈ ts \/ routes s type key (b :: bs) t).
  { intros [?|(b' & q & Hb & ?)]; [by left|right]. exists b', q. split; [by right|done]. }
  destruct (binding_takes type key b) eqn:Eb; [|by intros H%IH; auto].
  destruct (find_queue s (b_queue b)) as [q|] eqn:Eq; [|by intros H%IH; auto].
  destruct (_ || _); [by intros H%IH; auto|]. intros [H|H]%IH; [|auto].
  apply elem_of_app in H as [H| ->%list_elem_of_singleton]; [auto|].
  right. exists b, q. split; [by left|done].
Qed.

Lemma collect_targets_complete s type key max bs : forall ts t,
  (length ts + length bs <= max)%nat -> t ∈ ts \/ routes s type key bs t ->
  t ∈ collect_targets s type key max bs ts.
Proof.
  induction bs as [|b bs IH]; intros ts t Hl; cbn [collect_targets]; simpl in Hl.
  { intros [?|(b & q & ?%not_elem_of_nil & _)]; done. }
  intros Ht. assert (Hs : t ∈ ts \/ routes s type key bs t \/
    (binding_takes type key b = true /\ exists q, find_queue s (b_queue b) = Some q /\ q_lock_id q = t)).
  { destruct Ht as [?|(b' & q & Hb & ? & ? & ?)]; [auto|].
    apply elem_of_cons in Hb as [->|Hb]; [right; right; eauto|right; left]. exists b', q. auto. }
  clear Ht. destruct (binding_takes type key b).
  2:{ apply IH; [lia|]. destruct Hs as [?|[?|[? _]]]; auto; done. }
  destruct (find_queue s (b_queue b)) as [q|].
  2:{ apply IH; [lia|]. destruct Hs as [?|[?|(_ & q & ? & _)]]; auto; done. }
  destruct (existsb (Z.eqb (q_lock_id q)) ts) eqn:E; simpl.
  - apply IH; [lia|]. destruct Hs as [?|[?|(_ & q' & [= <-] & <-)]]; [auto..|left].
    apply existsb_exists in E as (x & Hx & ->%Z.eqb_eq). by apply list_elem_of_In.
  - destruct (Nat.ltb_spec (length ts) max); simpl; [|lia].
    apply IH; [rewrite length_app; simpl; lia|]. rewrite elem_of_app, list_elem_of_singleton.
    destruct Hs as [?|[?|(_ & q' & [= <-] & <-)]]; auto.
Qed.

(** Every target of a route is a live queue, once. *)
Lemma resolve_targets s name key max ts : wf s ->
  exchange_resolve_locked s name key max = Some ts -> NoDup ts /\ all_live s ts.
Proof.
  intros W. assert (Hr : forall x bs, NoDup (collect_targets s x key max bs []) /\
    all_live s (collect_targets s x key max bs [])).
  { intros x bs. split; [apply collect_targets_nodup, NoDup_nil_2|].
    intros t [?%not_elem_of_nil|(b & q & _ & _ & F & <-)]%collect_targets_sound; [done|].
    exists q. by eapply find_live. }
  assert (Hnil : NoDup (@nil Z) /\ all_live s []).
  { split; [apply NoDup_nil_2|]. by intros t ?%not_elem_of_nil. }
  unfold exchange_resolve_locked, resolve_one. destruct (zlen name =? 0).
  - destruct (zlen key =? 0); [intros [= <-]; done|].
    destruct (find_queue s key) as [q|] eqn:F; intros [= <-]; [|done].
    split; [apply NoDup_singleton|]. intros t ->%list_elem_of_singleton. exists q. by eapply find_live.
  - destruct (find_exchange s name) as [x|]; [|done]. pose proof (Hr (x_type x) (x_bindings x)) as H1.
    destruct (collect_targets s (x_type x) key max (x_bindings x) []); [|by intros [= <-]].
    destruct (zlen (x_ae_name x) =? 0); [intros [= <-]; done|].
    destruct (find_exchange s (x_ae_name x)) as [y|]; intros [= <-]; auto.
Qed.

(** The lock order is the targets, sorted. *)
Lemma insert_target_perm t l : insert_target t l ≡ₚ t :: l.
Proof.
  induction l as [|x l IH]; simpl; [done|]. destruct (t <? x); [done|]. rewrite IH. by constructor.
Qed.

Lemma lock_order_perm l : lock_order l ≡ₚ l.
Proof.
  unfold lock_order. assert (H : forall acc, foldl (fun acc t => insert_target t acc) acc l ≡ₚ acc ++ l).
  { induction l as [|t l IH]; intros acc; simpl; [by rewrite app_nil_r|].
    rewrite IH, insert_target_perm. simpl. by rewrite Permutation_middle. }
  apply (H []).
Qed.

(** What [exchange_publish] does.  On success every target of the route has
    the message at its tail under a new identity, and the count is their
    number.  On failure no target has a new message, unless the log is down. *)
Record fanned_out (s s' : store) (ts : list Z) (e : Z) (data : bytes) : Prop := {
  fo_targets : forall t, t ∈ ts -> exists q' m, live_at s' t q' /\ last (q_msgs q') = Some m /\
    st_next_id s <= m_id m /\ m_expires m = e /\ m_data m = data }.

Definition untouched (s s' : store) (ts : list Z) : Prop :=
  forall t q', t ∈ ts -> get_queue s' t = Some q' ->
    exists q, get_queue s t = Some q /\ ids q' `sublist_of` ids q.

Lemma untouched_same s s' ts : st_queues s' = st_queues s -> untouched s s' ts.
Proof.
  intros E t q' _ G. exists q'. split; [|done]. unfold get_queue in *. by rewrite <- E.
Qed.

(** The part under the target locks. *)
Lemma fan_out_spec T s ts ttl now monos data ok1 s1 ok2 s2 : now <= T -> inv s -> data_ok data ->
  NoDup ts -> (forall t, t ∈ ts -> t ∈ st_held s) -> all_live s ts ->
  check_targets s ts now monos = (ok1, s1) ->
  publish_targets s1 ts (if ttl =? 0 then 0 else u64 (now + ttl)) data = (ok2, s2) ->
  runs T s s1 /\ untouched s s1 ts /\
  (ok1 = true -> runs T s s2 /\
     (ok2 = true -> fanned_out s s2 ts (if ttl =? 0 then 0 else u64 (now + ttl)) data) /\
     (ok2 = false -> log_down s2)).
Proof.
  intros HT I Hd Hn Hh Hl C P.
  destruct (check_targets_spec T now ts HT s monos ok1 s1 I Hn Hh Hl C) as (R1 & _ & _ & _ & U & Rm).
  split; [done|]. split; [done|]. intros ->. specialize (Rm eq_refl).
  set (e := if ttl =? 0 then 0 else u64 (now + ttl)) in *.
  assert (He : fits 64 e) by (unfold e; destruct (ttl =? 0); [unfold fits; lia|apply u64_fits]).
  destruct (publish_targets_spec T e data ts He Hd s1 ok2 s2 (runs_inv _ _ _ R1 I) Hn Rm P)
    as (R2 & _ & _ & F & L). split; [by eapply runs_trans|]. split; [|done].
  intros ->. constructor. intros t Ht. destruct (Rm t Ht) as (q & [G D] & _).
  destruct (F eq_refl t q Ht G) as (id & Hid & G').
  pose proof (commits_ids _ _ _ _ (proj1 R1)) as Hm.
  eexists _, _. split; [split; [exact G'|]|]; [by eapply live_config; [split; [exact G|exact D]|apply message_link_config]|].
  simpl. rewrite last_snoc. split; [done|]. unfold linked.
  destruct (q_durable q); simpl; split_and!; try done; lia.
Qed.

Lemma upd_exchange_commit T s name b : inv s -> runs T s (upd_exchange s name (count_attempt b)).
Proof.
  intros I. eapply (exchange_commit T s s _ _ []); [done|apply xc_count|apply quiet_refl|done|].
  quiet_tac.
Qed.

Lemma untouched_same_queues s0 s s1 s2 ts l : untouched s0 s1 l -> l ≡ₚ ts ->
  st_queues s0 = st_queues s -> st_queues s2 = st_queues s1 -> untouched s s2 ts.
Proof.
  intros U P E0 E t q' Ht G. destruct (U t q') as (q & Gq & ?).
  - by rewrite P.
  - unfold get_queue in *. by rewrite <- E.
  - exists q. split; [|done]. unfold get_queue in *. by rewrite <- E0.
Qed.

Lemma fanned_same_queues s0 s s1 s2 ts l e d : fanned_out s0 s1 l e d -> l ≡ₚ ts ->
  st_next_id s0 = st_next_id s -> st_queues s2 = st_queues s1 -> fanned_out s s2 ts e d.
Proof.
  intros [F] P E0 E. constructor. intros t Ht. destruct (F t) as (q & m & [G D] & ?); [by rewrite P|].
  exists q, m. rewrite <- E0. split; [|done]. split; [|done]. unfold get_queue in *. by rewrite E.
Qed.

(** The end of a publication: the locks are dropped and the log is flushed. *)
Lemma publish_end T s s4 before n rc m s' (P : store -> Prop) : runs T s s4 ->
  (forall s6, st_queues s6 = st_queues s4 -> P s6) ->
  (let s5 := {| s4 with st_held := [] |} in
   if st_wal_seq s5 =? before then (0, n, s5)
   else let '(r, s6) := wait_durable s5 (st_wal_seq s5) in
        if r <? 0 then (-1, 0, s6) else (0, n, s6)) = (rc, m, s') ->
  runs T s s' /\ (rc = 0 -> m = n /\ P s') /\ (rc <> 0 -> log_down s').
Proof.
  intros R4 HP. set (s5 := {| s4 with st_held := [] |}). cbv zeta.
  assert (R5 : runs T s s5).
  { eapply runs_trans; [exact R4|]. apply runs_quiet; [quiet_tac|apply R4]. }
  destruct (st_wal_seq s5 =? before).
  { intros; simplify_eq. split_and!; [done| |done]. intros _. split; [done|]. by apply HP. }
  destruct (wait_durable s5 (st_wal_seq s5)) as [r s6] eqn:Ew.
  pose proof (wait_durable_quiet _ _ _ _ Ew) as Q6.
  assert (R6 : runs T s s6) by (eapply runs_trans; [exact R5|]; apply runs_quiet; [done|apply R5]).
  destruct (wait_durable_fails _ _ _ _ Ew) as [->|[-> Hf]]; simpl; intros; simplify_eq.
  - split_and!; [done| |done]. intros _. split; [done|]. apply HP. by rewrite (quiet_queues _ _ Q6).
  - split_and!; [done|done|]. intros _. by left.
Qed.

Lemma exchange_publish_spec T s name key data ttl now monos rc n s' : now <= T -> inv s ->
  bytes_ok data -> exchange_publish s name key data ttl now monos = (rc, n, s') ->
  runs T s s' /\
  (rc = 0 -> exists ts, exchange_resolve_locked s name key (Z.to_nat EXCHANGE_BINDINGS_MAX) = Some ts /\
     n = zlen ts /\ fanned_out s s' ts (if ttl =? 0 then 0 else u64 (now + ttl)) data) /\
  (rc <> 0 -> log_down s' \/ forall ts,
     exchange_resolve_locked s name key (Z.to_nat EXCHANGE_BINDINGS_MAX) = Some ts ->
     untouched s s' ts).
Proof.
  intros HT I Hb. pose proof (runs_refl T s (proj2 I)) as R0. unfold exchange_publish.
  destruct (_ || _ || _) eqn:Ev.
  { intros; simplify_eq. split; [done|]. split; [done|]. right. intros. by apply untouched_same. }
  apply orb_false_elim in Ev as [_ Ev]. assert (Hd : data_ok data) by (reflect_tests; by split).
  destruct (exchange_resolve_locked _ _ _ _) as [ts|] eqn:Er; [|intros; simplify_eq; split_and!; [done|done|]; intros _; by right].
  destruct (resolve_targets s name key _ ts (si_wf _ (proj1 I)) Er) as [Hn Hl].
  set (un := match ts with [] => true | _ => false end).
  set (s1 := if zlen name =? 0 then s else upd_exchange s name (count_attempt un)).
  assert (R1 : runs T s s1 /\ st_queues s1 = st_queues s /\ st_next_id s1 = st_next_id s).
  { unfold s1. destruct (zlen name =? 0); [done|]. split; [|done]. by apply upd_exchange_commit. }
  clearbody s1. destruct R1 as (R1 & Q1 & N1). pose proof (runs_inv _ _ _ R1 I) as I1.
  destruct un eqn:Eu.
  { assert (ts = []) as -> by (by destruct ts). intros; simplify_eq. split_and!.
    - eapply runs_trans; [exact R1|]. apply runs_quiet; [quiet_tac|apply R1].
    - intros _. exists []. split; [done|]. split; [done|]. constructor. by intros t ?%not_elem_of_nil.
    - done. }
  pose proof (lock_order_perm ts) as Hp. set (lo := lock_order ts) in *.
  set (s2 := {| s1 with st_held := lo |}). assert (Q2 : quiet s1 s2) by quiet_tac.
  assert (R2 : runs T s s2) by (eapply runs_trans; [exact R1|]; apply runs_quiet; [done|apply R1]).
  destruct (check_targets s2 lo now monos) as [ok1 s3] eqn:C.
  set (e := if ttl =? 0 then 0 else u64 (now + ttl)).
  destruct (publish_targets s3 lo e data) as [ok2 s4] eqn:P.
  destruct (fan_out_spec T s2 lo ttl now monos data ok1 s3 ok2 s4 HT (runs_inv _ _ _ R2 I) Hd)
    as (R3 & U & F); [by rewrite Hp|done| |done|done|].
  { intros t Ht. rewrite Hp in Ht. destruct (Hl t Ht) as [q [G D]]. exists q. split; [|done].
    unfold get_queue in *. simpl. by rewrite Q1. }
  destruct ok1; simpl.
  2:{ intros; simplify_eq. split_and!; [|done|].
      - eapply runs_trans; [exact R2|]. eapply runs_trans; [exact R3|].
        apply runs_quiet; [quiet_tac|apply R3].
      - intros _. right. intros ? [= <-]. by eapply untouched_same_queues. }
  destruct (F eq_refl) as (R4 & Fo & Fd). clear F.
  assert (R5 : runs T s s4) by (by eapply runs_trans).
  destruct ok2; simpl.
  2:{ intros; simplify_eq. split_and!; [|done|].
      - eapply runs_trans; [exact R5|]. apply runs_quiet; [quiet_tac|apply R5].
      - intros _. left. by destruct (Fd eq_refl); [left|right]. }
  intros H. apply (publish_end T s s4 _ _ _ _ _ (fun s6 => fanned_out s s6 ts e data) R5) in H
    as (R6 & H0 & Hf).
  - split_and!; [done| |by left; auto]. intros Hrc. destruct (H0 Hrc) as [-> Hfo].
    exists ts. split_and!; [done| |done]. by apply zlen_perm.
  - intros s6 Q6. by eapply fanned_same_queues; [apply Fo|..].
Qed.

End XOps.
