(* ===== verification/TxOps.v ===== *)
(** * Transactions as sequences of commits

    Preparing a transaction reaps the targets and appends one record;
    committing appends the second record and links the messages.  The links
    stay within the capacity of the targets only if the store does: the
    capacity pass does not hold the queue locks, so a target that passed it
    can fill up while a later one is reaped. *)

From stdpp Require Import base numbers option list relations.
From S2P Require Import Prelude Topic Queue QueueIndex WalRecord QueueStore QueueReplay Exchange QueueTx.
From S2P Require Import ExchangeReplay QueueCommit QueueOps HeldLocks ExchangeOps.
Import Queue QueueIndex Wal Store Replay Exchanges XChange Tx XReplay TxReplay Commit Ops Held XOps.

Module TxOps.

(** ** Targets *)

Lemma durable_targets_collect s type key bs : forall ts l, durable_targets s type key bs ts = Some l ->
  l = collect_targets s type key (Z.to_nat EXCHANGE_BINDINGS_MAX) bs ts.
Proof.
  induction bs as [|b bs IH]; intros ts l; cbn [durable_targets collect_targets]; [by intros [= <-]|].
  destruct (binding_takes type key b); [|auto]. destruct (find_queue s (b_queue b)) as [q|]; [|auto].
  destruct (negb (q_durable q)); [done|]. destruct (_ || _); auto.
Qed.

Lemma durable_targets_length s type key bs : forall ts l,
  (length ts <= Z.to_nat EXCHANGE_BINDINGS_MAX)%nat -> durable_targets s type key bs ts = Some l ->
  (length l <= Z.to_nat EXCHANGE_BINDINGS_MAX)%nat.
Proof.
  induction bs as [|b bs IH]; intros ts l Hl; cbn [durable_targets]; [by intros [= <-]|].
  destruct (binding_takes type key b); [|eauto]. destruct (find_queue s (b_queue b)) as [q|]; [|eauto].
  destruct (negb (q_durable q)); [done|]. destruct (existsb _ _); cbn [orb]; [eauto|].
  destruct (Nat.ltb_spec (length ts) (Z.to_nat EXCHANGE_BINDINGS_MAX)); cbn [negb]; [|eauto].
  apply (IH (ts ++ [q_lock_id q])). rewrite length_app. cbn [length]. lia.
Qed.

Lemma find_targets_spec s ex key ts : wf s -> find_targets s ex key = Some ts ->
  NoDup ts /\ all_live s ts /\ (length ts <= Z.to_nat EXCHANGE_BINDINGS_MAX)%nat.
Proof.
  intros W. unfold find_targets. destruct (zlen ex =? 0).
  - destruct (_ || _); [done|]. destruct (find_queue s key) as [q|] eqn:F; [|done].
    intros [= <-]. split; [apply NoDup_singleton|]. split; [|unfold EXCHANGE_BINDINGS_MAX; cbn [length]; lia].
    intros t ->%list_elem_of_singleton. exists q. by eapply find_live.
  - destruct (find_exchange s ex) as [x|]; [|done]. intros H. split_and!.
    + rewrite (durable_targets_collect _ _ _ _ _ _ H). apply collect_targets_nodup, NoDup_nil_2.
    + rewrite (durable_targets_collect _ _ _ _ _ _ H).
      intros t [?%not_elem_of_nil|(b & q & _ & _ & F & <-)]%collect_targets_sound; [done|].
      exists q. by eapply find_live.
    + eapply durable_targets_length; [|exact H]. cbn [length]. lia.
Qed.

(** The bindings of an exchange lead to durable queues only; the key of the
    default exchange is not tested. *)
Definition durable_ids (s : store) (ts : list Z) : Prop := forall t, t ∈ ts ->
  exists q, get_queue s t = Some q /\ q_durable q = true.

Definition direct_durable (s : store) (ex key : bytes) : Prop :=
  zlen ex = 0 -> forall q, find_queue s key = Some q -> q_durable q = true.

Lemma durable_targets_durable s type key bs : wf s -> forall ts l,
  durable_targets s type key bs ts = Some l -> durable_ids s ts -> durable_ids s l.
Proof.
  intros W. induction bs as [|b bs IH]; intros ts l; cbn [durable_targets]; [by intros [= <-]|].
  destruct (binding_takes type key b); [|eauto]. destruct (find_queue s (b_queue b)) as [q|] eqn:F; [|eauto].
  destruct (q_durable q) eqn:D; cbn [negb]; [|done]. destruct (_ || _); [eauto|].
  intros H Hd. eapply IH; [exact H|]. intros t [Ht|Ht]%elem_of_app; [auto|].
  apply list_elem_of_singleton in Ht as ->. exists q. split; [|done]. by eapply find_live.
Qed.

Lemma find_targets_durable s ex key ts : wf s -> direct_durable s ex key ->
  find_targets s ex key = Some ts -> durable_ids s ts.
Proof.
  intros W Hd. unfold find_targets, direct_durable in *. destruct (Z.eqb_spec (zlen ex) 0) as [E|_].
  - destruct (_ || _); [done|]. destruct (find_queue s key) as [q|] eqn:F; [|done].
    intros [= <-] t ->%list_elem_of_singleton. exists q. split; [by eapply find_live|auto].
  - destruct (find_exchange s ex) as [x|]; [|done]. intros H.
    eapply durable_targets_durable; [done|exact H|]. by intros t ?%not_elem_of_nil.
Qed.

Lemma runs_live T s s' ts : runs T s s' -> inv s -> all_live s ts -> all_live s' ts.
Proof.
  intros R I H t Ht. destruct (H t Ht) as [q L].
  destruct (extends_live s s' t q) as (q' & L' & _); [by eapply runs_extends|done|by exists q'].
Qed.

Lemma reserve_capacity_runs T now ts : now <= T -> forall s monos ok s', inv s -> all_live s ts ->
  reserve_capacity s ts now monos = (ok, s') -> runs T s s'.
Proof.
  intros HT. induction ts as [|t ts IH]; intros s monos ok s' I Hl; cbn [reserve_capacity].
  { intros [= <- <-]. apply runs_refl, I. }
  destruct (Hl t) as [q L]; [by left|].
  destruct (reap_queue_spec T s t q now (hd 0 monos) true HT I L) as (R & q1 & L1 & _).
  set (s1 := reap_queue_locked _ _ _ _ _) in *. clearbody s1. rewrite (proj1 L1).
  destruct (negb (q_max_depth q1 =? 0) && _); [by intros [= <- <-]|].
  intros H. eapply runs_trans; [exact R|]. eapply IH; [by eapply runs_inv| |exact H].
  eapply runs_live; [exact R|done|]. intros k Hk. apply Hl. by right.
Qed.

(** A pointer to the live queue of that name. *)
Definition points (s : store) (t : tx_target) : Prop := exists qid q,
  t_queue t = Some qid /\ live_at s qid q /\ q_name q = t_name t.

Lemma reserve_targets_spec ts : forall s, st_allocs s = [] -> all_live s ts -> exists l s',
  reserve_targets s ts = (Some l, s') /\ quiet s s' /\ numbered (st_next_id s) l /\
  st_next_id s' = st_next_id s + zlen l /\ t_queue <$> l = Some <$> ts /\ Forall (points s) l.
Proof.
  induction ts as [|t ts IH]; intros s A Hl; cbn [reserve_targets].
  { exists [], s. split; [done|]. split; [apply quiet_refl|]. split; [done|].
    split; [rewrite zlen_nil; lia|]. split; [done|constructor]. }
  destruct (Hl t) as [q L]; [by left|]. rewrite alloc_nil, (proj1 L) by done.
  pose proof (bump_next_id_quiet s) as Q0. set (s1 := {| s with st_next_id := st_next_id s + 1 |}) in *.
  destruct (IH s1) as (l & s' & -> & Q & Hn & Hi & Hq & Hp); [done| |].
  { intros k Hk. destruct (Hl k) as [qk [Gk Dk]]; [by right|]. by exists qk. }
  eexists _, s'. split; [done|]. split; [by eapply quiet_trans|]. cbn [numbered].
  split; [done|]. split; [rewrite zlen_cons, Hi; cbn; lia|]. split; [rewrite !fmap_cons; cbn; by rewrite Hq|].
  constructor; [by exists t, q|done].
Qed.

(** ** Preparing *)

(** The data fits the record together with any targets. *)
Definition tx_small (data : bytes) : Prop :=
  zlen data + 22 + EXCHANGE_BINDINGS_MAX * (10 + QUEUE_NAME_MAX) <= QUEUE_MESSAGE_MAX.

(** A transaction prepared in [s1], whose record is the last one of [s']. *)
Record prepared_tx (s1 s' : store) (tx : queue_tx) : Prop := PreparedTx {
  pt_form : tx_form tx;
  pt_numbered : numbered (st_next_id s1) (tx_targets tx);
  pt_next : st_next_id s1 + zlen (tx_targets tx) <= st_next_id s';
  pt_points : Forall (points s1) (tx_targets tx);
  pt_nodup : NoDup (t_queue <$> tx_targets tx);
  pt_evolve : evolve s1 s' (st_queues s1) [prepare_record tx] }.

Lemma targets_size s ts : sinv s -> Forall (points s) ts -> Forall (fun t => name_ok (t_name t)) ts /\
  zlen (concat (target_bytes <$> ts)) <= zlen ts * (10 + QUEUE_NAME_MAX).
Proof.
  intros Hs. induction 1 as [|t ts (qid & q & _ & L & En) _ [IH1 IH2]].
  { split; [constructor|done]. }
  pose proof (qi_name _ _ _ (live_at_inv _ _ _ Hs L)) as Hn. rewrite En in Hn.
  split; [by constructor|]. rewrite fmap_cons. cbn [concat]. rewrite zlen_app, zlen_cons, target_zlen.
  destruct Hn. lia.
Qed.

Lemma source_ok s ex key ts : bytes_ok ex -> bytes_ok key -> zlen ex <= EXCHANGE_NAME_MAX ->
  find_targets s ex key = Some ts -> name_ok (if zlen ex =? 0 then key else ex).
Proof.
  intros Hx Hk Hl. unfold find_targets. pose proof (zlen_nonneg ex). pose proof (zlen_nonneg key).
  destruct (Z.eqb_spec (zlen ex) 0).
  - destruct (Z.eqb_spec (zlen key) 0); [done|]. destruct (Z.ltb_spec QUEUE_NAME_MAX (zlen key)); [done|].
    intros _. split; [done|lia].
  - intros _. split; [done|]. unfold EXCHANGE_NAME_MAX, QUEUE_NAME_MAX in *. lia.
Qed.

Lemma log_prepare_spec s tx rc s' : log_prepare s tx = (rc, s') ->
  rc = 0 /\ evolve s s' (st_queues s) [prepare_record tx] /\ st_failed s' = false /\
    st_synced_seq s' = st_wal_seq s' \/
  rc = -1 /\ quiet s s'.
Proof.
  intros E. pose proof E as E'. unfold log_prepare in E'.
  apply append_record_spec in E' as [(-> & _ & Ev)|(-> & Q & _)]; [left|by right].
  split; [done|]. split; [done|]. revert E. unfold log_prepare, append_record, io. cbn [negb].
  destruct (negb (st_log_open s) || st_failed s) eqn:Eo; [done|]. apply orb_false_elim in Eo as [_ Ef].
  destruct (draw (st_ios s)) as [[] l]; [|done]. cbn [st_ios set_failed].
  destruct (draw l) as [[] l']; [|done]. by intros [= <-].
Qed.

Lemma reserve_tx_spec s source data id ts res s' : inv s -> name_ok source -> bytes_ok data ->
  tx_small data -> fits 64 id -> ts <> [] -> (length ts <= Z.to_nat EXCHANGE_BINDINGS_MAX)%nat ->
  NoDup ts -> all_live s ts -> reserve_tx s source data id ts = (res, s') ->
  (res = PrepareFailed /\ quiet s s') \/
  exists tx, res = Prepared tx /\ prepared_tx s s' tx /\ tx_id tx = id /\ tx_data tx = data /\
    tx_expires tx = 0 /\ t_queue <$> tx_targets tx = Some <$> ts /\
    st_failed s' = false /\ st_synced_seq s' = st_wal_seq s'.
Proof.
  intros I Hs Hb Hz Hid Hts Hlen Hn Hl. pose proof (inv_allocs _ I) as A. unfold reserve_tx.
  rewrite alloc_nil by done. cbn [negb]. do 3 rewrite alloc_nil by done. cbn [negb andb].
  destruct (reserve_targets_spec ts s A Hl) as (l & s1 & -> & Q1 & Hnum & Hnext & Hq & Hp).
  set (tx0 := {| tx_id := id |}). cbv zeta. set (s2 := {| s1 with st_meta_live := _ |}).
  set (tx := {| tx0 with tx_footprint := _ |}).
  assert (Q2 : quiet s s2) by (eapply quiet_trans; [exact Q1|quiet_tac]).
  rewrite alloc_nil by (apply (ev_allocs _ _ _ _ Q2), A). cbn [negb].
  destruct (log_prepare s2 tx) as [rc s3] eqn:El. apply log_prepare_spec in El as [(-> & Ev & Hf & Hsy)|[-> Q3]].
  2:{ intros [= <- <-]. left. split; [done|]. by eapply quiet_trans. }
  intros [= <- <-]. right. exists tx. split; [done|].
  destruct (targets_size s l (proj1 I) Hp) as [Hnames Hsize].
  assert (Hlen' : zlen l <= EXCHANGE_BINDINGS_MAX).
  { apply (f_equal length) in Hq. rewrite !length_fmap in Hq. unfold zlen, EXCHANGE_BINDINGS_MAX in *. lia. }
  assert (Hd : data_ok data).
  { split; [done|]. unfold tx_small, EXCHANGE_BINDINGS_MAX, QUEUE_NAME_MAX in Hz. lia. }
  split; [|done]. constructor; cbn [tx tx_targets tx0].
  - constructor; cbn [tx tx_id tx_expires tx_source tx_data tx_targets tx0]; try done.
    + intros ->. by destruct ts.
    + unfold tx_payload. cbn [tx tx_id tx_expires tx_source tx_data tx_targets tx0].
      rewrite !zlen_app, !put64_zlen, put32_zlen, put16_zlen. unfold tx_small, EXCHANGE_BINDINGS_MAX, QUEUE_NAME_MAX in *. lia.
  - done.
  - pose proof (ev_id _ _ _ _ Ev) as Hi. change (st_next_id s2) with (st_next_id s1) in Hi. lia.
  - done.
  - rewrite Hq. apply (NoDup_fmap_2 Some); done.
  - rewrite <- (app_nil_l [_]). eapply evolve_trans; [exact Q2|]. by rewrite <- (quiet_queues _ _ Q2).
Qed.

Lemma queue_tx_prepare_spec T s ex key data id now monos res s' : now <= T -> inv s ->
  bytes_ok ex -> bytes_ok key -> bytes_ok data -> tx_small data -> fits 64 id ->
  queue_tx_prepare s ex key data id now monos = (res, s') ->
  exists s1, runs T s s1 /\
    match res with
    | Prepared tx => prepared_tx s1 s' tx /\ tx_id tx = id /\ tx_data tx = data /\ tx_expires tx = 0 /\
        st_failed s' = false /\ st_synced_seq s' = st_wal_seq s' /\
        exists ts, find_targets s ex key = Some ts /\ t_queue <$> tx_targets tx = Some <$> ts
    | _ => quiet s1 s'
    end.
Proof.
  intros HT I Hx Hk Hb Hz Hid. unfold queue_tx_prepare.
  assert (R0 : exists s1, runs T s s1 /\ quiet s1 s).
  { exists s. split; [apply runs_refl, I|apply quiet_refl]. }
  destruct (_ || _ || _) eqn:Ev; [by intros [= <- <-]|].
  apply orb_false_elim in Ev as [Ev _]. apply orb_false_elim in Ev as [_ Ev%Z.ltb_ge].
  destruct (_ || _); [by intros [= <- <-]|].
  destruct (find_targets s ex key) as [[|t ts]|] eqn:Et; [by intros [= <- <-]| |by intros [= <- <-]].
  destruct (find_targets_spec s ex key _ (si_wf _ (proj1 I)) Et) as (Hn & Hl & Hlen).
  pose proof (source_ok s ex key _ Hx Hk Ev Et) as Hs.
  destruct (reserve_capacity s (t :: ts) now monos) as [ok s1] eqn:Ec.
  pose proof (reserve_capacity_runs T now _ HT _ _ _ _ I Hl Ec) as R1.
  destruct ok; cbn [negb]; [|intros [= <- <-]; exists s1; split; [done|apply quiet_refl]].
  intros E. exists s1. apply reserve_tx_spec in E; try done; [|by eapply runs_inv|by eapply runs_live].
  split; [done|]. destruct E as [(-> & Q)|(tx & -> & Hp & H1 & H2 & H3 & H4 & H5 & H6)]; [done|].
  split; [done|]. split_and!; try done. by exists (t :: ts).
Qed.

(** ** Committing *)

Definition within_capacity (s : store) : Prop :=
  Forall (fun q => q_max_depth q = 0 \/ q_depth q <= q_max_depth q) (st_queues s).

(** The queues after the links: the targets have one message more. *)
Lemma materialize_get tx ts : forall s, wf s -> st_allocs s = [] -> Forall (points s) ts ->
  NoDup (t_queue <$> ts) -> forall qid q, get_queue s qid = Some q ->
  (forall t, t ∈ ts -> t_queue t = Some qid ->
     get_queue (fold_left (materialize_one tx) ts s) qid = Some (tx_link tx t q)) /\
  (Some qid ∉ t_queue <$> ts -> get_queue (fold_left (materialize_one tx) ts s) qid = Some q).
Proof.
  induction ts as [|t ts IH]; intros s W A Hp Hd qid q G.
  { split; [by intros t ?%not_elem_of_nil|done]. }
  apply Forall_cons in Hp as [(tid & tq & Eq & [Gt Dt] & En) Hp]. rewrite fmap_cons in Hd |- *.
  apply NoDup_cons in Hd as [Hni Hd]. cbn [fold_left]. rewrite (materialize_known tx s t tid) by done.
  set (s1 := upd_queue s tid (tx_link tx t)).
  assert (G1 : forall k, get_queue s1 k = if decide (k = tid) then Some (tx_link tx t tq) else get_queue s k).
  { intros k. by apply get_upd_config; [..|apply tx_link_config]. }
  assert (Hp1 : Forall (points s1) ts).
  { rewrite Forall_forall in *. intros u Hu. destruct (Hp u Hu) as (uid & uq & Eu & [Gu Du] & Nu).
    exists uid, uq. split; [done|]. split; [|done]. split; [|done]. rewrite G1, decide_False; [done|].
    intros ->. apply Hni. rewrite Eq, <- Eu. by apply list_elem_of_fmap_2. }
  assert (W1 : wf s1) by (apply upd_config_wf; [apply tx_link_config|done]).
  destruct (decide (qid = tid)) as [->|Hne].
  - rewrite Gt in G. injection G as <-. specialize (G1 tid). rewrite decide_True in G1 by done.
    destruct (IH s1 W1 A Hp1 Hd tid _ G1) as [_ H]. rewrite <- Eq in H. split.
    + intros u Hu Eu. rewrite H by done. apply elem_of_cons in Hu as [->|Hu]; [done|].
      exfalso. apply Hni. rewrite Eq, <- Eu. by apply list_elem_of_fmap_2.
    + rewrite Eq. intros Hn. exfalso. apply Hn. by left.
  - assert (G' : get_queue s1 qid = Some q) by (by rewrite G1, decide_False).
    destruct (IH s1 W1 A Hp1 Hd qid q G') as [H1 H2]. split.
    + intros u Hu Eu. apply elem_of_cons in Hu as [->|Hu]; [congruence|auto].
    + intros Hn. apply H2. intros ?. apply Hn. by right.
Qed.

(** A target that is within its capacity afterwards had room. *)
Lemma points_planned tx s s' : wf s -> st_allocs s = [] -> Forall (points s) (tx_targets tx) ->
  NoDup (t_queue <$> tx_targets tx) -> st_queues s' = st_queues (tx_materialize_locked s tx) ->
  within_capacity s' -> Forall (planned s) (tx_targets tx).
Proof.
  intros W A Hp Hd E Hc. rewrite Forall_forall in *. intros t Ht.
  destruct (Hp t Ht) as (qid & q & Eq & [G D] & En). exists qid, q. do 3 (split; [done|]).
  destruct (materialize_get tx (tx_targets tx) s W A) with (qid := qid) (q := q) as [H _]; try done.
  { by rewrite Forall_forall. }
  specialize (H t Ht Eq). apply get_queue_In in H as [Hin _].
  change (fold_left _ _ _) with (tx_materialize_locked s tx) in Hin. rewrite <- E in Hin.
  unfold within_capacity in Hc. rewrite Forall_forall in Hc. specialize (Hc _ Hin).
  destruct (config_inv _ _ (tx_link_config tx t q)) as (_ & _ & _ & _ & _ & _ & Em). rewrite Em in Hc.
  unfold room, tx_link in *. cbn [message_link q_depth] in Hc. destruct Hc as [|Hc]; [by left|right; lia].
Qed.

Lemma log_commit_spec s tx rc s' : log_commit s tx = (rc, s') ->
  rc = 0 /\ evolve s s' (st_queues s) [commit_record tx] /\ st_failed s' = false /\
    st_synced_seq s' = st_wal_seq s' \/
  rc = -1 /\ quiet s s' /\ (st_log_open s = true -> st_failed s' = true).
Proof.
  intros E. pose proof E as E'. unfold log_commit in E'.
  apply append_record_spec in E' as [(-> & _ & Ev)|(-> & Q & Hf)]; [left|by right].
  split; [done|]. split; [done|]. revert E. unfold log_commit, append_record, io. cbn [negb].
  destruct (negb (st_log_open s) || st_failed s) eqn:Eo; [done|]. apply orb_false_elim in Eo as [_ Ef].
  destruct (draw (st_ios s)) as [[] l]; [|done]. cbn [st_ios set_failed].
  destruct (draw l) as [[] l']; [|done]. by intros [= <-].
Qed.

Lemma materialize_prepared s1 s tx : sinv s1 -> prepared_tx s1 s tx ->
  st_queues (tx_materialize_locked s tx) = st_queues (tx_materialize_locked s1 tx).
Proof.
  intros Hs [Hf Hn Hi Hp Hd E]. pose proof (si_allocs _ Hs) as A. unfold tx_materialize_locked.
  assert (Hq : forall t, t ∈ tx_targets tx -> t_queue t <> None).
  { intros t Ht Hnone. rewrite Forall_forall in Hp. destruct (Hp t Ht) as (qid & _ & Eq & _). congruence. }
  pose proof (ev_queues _ _ _ _ E) as Es. pose proof (ev_allocs _ _ _ _ E A) as A'.
  rewrite <- (link_fold tx _ s s), <- (link_fold tx _ s1 s) by done. done.
Qed.

(** The messages of a prepared transaction, behind its second record. *)
Lemma commit_transact T s1 s s' tx : sinv s1 -> prepared_tx s1 s tx ->
  evolve s s' (st_queues (tx_materialize_locked s tx)) [commit_record tx] -> within_capacity s' ->
  commit T Transacting s1 s'.
Proof.
  intros Hs P Ec Hc. pose proof (si_allocs _ Hs) as A. pose proof (materialize_prepared _ _ _ Hs P) as Eq.
  destruct P as [Hf Hn Hi Hp Hd E].
  eapply (c_transact T Transacting s1 s' tx); try done.
  - pose proof (ev_id _ _ _ _ Ec). lia.
  - eapply (points_planned tx s1 s'); try done; [apply Hs|]. by rewrite (ev_queues _ _ _ _ Ec).
  - rewrite Eq in Ec. change [prepare_record tx; commit_record tx] with ([prepare_record tx] ++ [commit_record tx]).
    by eapply evolve_trans.
Qed.

Lemma queue_tx_commit_spec s1 s tx r s' : sinv s1 -> prepared_tx s1 s tx ->
  queue_tx_commit s tx = (r, s') ->
  (r = Some (zlen (tx_targets tx)) /\ st_failed s' = false /\ st_synced_seq s' = st_wal_seq s' /\
     evolve s s' (st_queues (tx_materialize_locked s tx)) [commit_record tx]) \/
  (r = None /\ quiet s s' /\ (st_log_open s = true -> st_failed s' = true)).
Proof.
  intros Hs P. unfold queue_tx_commit. destruct (log_commit s tx) as [rc s2] eqn:E.
  apply log_commit_spec in E as [(-> & Ev & F & Sy)|(-> & Q & Hf)]; cbn [Z.ltb Z.compare].
  2:{ intros [= <- <-]. by right. }
  intros [= <- <-]. left.
  assert (Hq : forall t, t ∈ tx_targets tx -> t_queue t <> None).
  { intros t Ht Hnone. pose proof (pt_points _ _ _ P) as Hp. rewrite Forall_forall in Hp.
    destruct (Hp t Ht) as (qid & _ & Eq & _). congruence. }
  assert (A : st_allocs s2 = []) by (apply (ev_allocs _ _ _ _ Ev), (ev_allocs _ _ _ _ (pt_evolve _ _ _ P)), Hs).
  assert (G : forall ts x, st_allocs x = [] -> (forall t, t ∈ ts -> t_queue t <> None) ->
    let y := fold_left (materialize_one tx) ts x in
    st_failed y = st_failed x /\ st_synced_seq y = st_synced_seq x /\ st_wal_seq y = st_wal_seq x /\
    evolve x y (st_queues y) []).
  { induction ts as [|t ts IH]; intros x Ax Hx; cbn zeta; [split_and!; try done; apply quiet_refl|].
    destruct (t_queue t) as [qid|] eqn:Et; [|exfalso; by apply (Hx t); [left|]].
    cbn [fold_left]. rewrite (materialize_known tx x t qid) by done.
    destruct (IH (upd_queue x qid (tx_link tx t))) as (H1 & H2 & H3 & H4); [done|intros u Hu; apply Hx; by right|].
    split_and!; try done. destruct H4. by constructor. }
  destruct (G (tx_targets tx) s2 A Hq) as (H1 & H2 & H3 & H4).
  split; [done|]. split; [by unfold tx_materialize_locked; congruence|].
  split; [unfold tx_materialize_locked; congruence|].
  rewrite <- (app_nil_r [commit_record tx]). eapply evolve_trans; [exact Ev|].
  assert (Eq : st_queues (tx_materialize_locked s tx) = st_queues (tx_materialize_locked s2 tx)).
  { unfold tx_materialize_locked. pose proof (ev_queues _ _ _ _ Ev) as Es.
    assert (A' : st_allocs s = []) by (apply (ev_allocs _ _ _ _ (pt_evolve _ _ _ P)), Hs).
    rewrite <- (link_fold tx _ s s), <- (link_fold tx _ s2 s) by done. done. }
  by rewrite Eq.
Qed.

End TxOps.
