(* ===== verification/QueueRun.v ===== *)
(** * Runs of the queue store

    The public operations as one type of calls, executed one after the other;
    what every reachable store satisfies.  Each call carries the clock
    readings the source takes during it. *)

From stdpp Require Import base numbers option list relations.
From S2P Require Import Prelude Queue QueueIndex WalRecord QueueStore QueueReplay Exchange QueueTx.
From S2P Require Import ExchangeReplay QueueBatch QueueCommit QueueOps ExchangeOps TxOps.
Import Queue QueueIndex Wal Store Replay Batch Exchanges XChange Tx TxReplay Commit Ops XOps TxOps.

Module Run.

Inductive call :=
  | DeclareQueue (name : bytes) (durable : bool) (max_depth : Z) (dlq : bytes) (max_deliveries : Z)
  | Publish (name data : bytes) (ttl now mono : Z)
  | Consume (name : bytes) (visibility owner now mono mono2 : Z)
  | ConsumeFor (name consumer : bytes) (visibility now mono mono2 : Z)
  | Ack (name : bytes) (tag owner : Z)
  | Nack (name : bytes) (tag owner : Z) (requeue : bool) (delay now : Z)
  | Purge (name : bytes) (expected : option Z)
  | Delete (name : bytes) (expected : Z)
  | RequeueOwner (owner : Z)
  | Register (consumer : bytes)
  | Unregister (consumer : bytes)
  | Reap (now mono : Z)
  | DeclareExchange (name : bytes) (durable : bool) (type : Z) (ae : bytes)
  | Bind (name queue key : bytes)
  | Unbind (name queue key : bytes) (expected : option Z)
  | DeleteExchange (name : bytes) (expected : Z)
  | SetAlternate (name alternate : bytes) (expected : Z)
  | PublishTo (name key data : bytes) (ttl now : Z) (monos : list Z)
  | Transact (name key data : bytes) (id now : Z) (monos : list Z) (cached : bool).

(** The queue side of a transaction; [cached] says whether the cache has
    committed its side in between. *)
Definition transact (s : store) (name key data : bytes) (id now : Z) (monos : list Z) (cached : bool)
    : store :=
  match queue_tx_prepare s name key data id now monos with
  | (Prepared tx, s) => if cached then snd (queue_tx_commit s tx) else queue_tx_abort s tx
  | (_, s) => s
  end.

Definition run_call (s : store) (c : call) : store :=
  match c with
  | DeclareQueue name durable max dlq maxd => snd (queue_declare_ex s name durable max dlq maxd)
  | Publish name data ttl now mono => snd (queue_publish s name data ttl now mono)
  | Consume name vis owner now mono mono2 =>
      snd (queue_consume_for_owner s name vis owner now mono mono2)
  | ConsumeFor name consumer vis now mono mono2 =>
      snd (queue_consume_for_consumer s name consumer vis now mono mono2)
  | Ack name tag owner => snd (queue_ack_for_owner s name tag owner)
  | Nack name tag owner requeue delay now =>
      snd (queue_nack_for_owner_delay s name tag owner requeue delay now)
  | Purge name expected => snd (queue_purge_checked s name expected)
  | Delete name expected => snd (queue_delete_if_revision s name expected)
  | RequeueOwner owner => queue_requeue_owner s owner
  | Register consumer => snd (queue_consumer_register s consumer)
  | Unregister consumer => snd (queue_consumer_unregister s consumer)
  | Reap now mono => queue_reap s now mono
  | DeclareExchange name durable type ae => snd (exchange_declare s name durable type ae)
  | Bind name queue key => snd (exchange_bind s name queue key)
  | Unbind name queue key expected => snd (exchange_unbind_checked s name queue key expected)
  | DeleteExchange name expected => snd (exchange_delete_if_revision s name expected)
  | SetAlternate name alternate expected =>
      snd (exchange_set_alternate_if_revision s name alternate expected)
  | PublishTo name key data ttl now monos => snd (exchange_publish s name key data ttl now monos)
  | Transact name key data id now monos cached => transact s name key data id now monos cached
  end.

(** Arguments have their C types; [T] bounds the wall-clock readings. *)
Definition call_ok (T : Z) (c : call) : Prop :=
  match c with
  | DeclareQueue name _ max dlq maxd => bytes_ok name /\ bytes_ok dlq /\ fits 64 max /\ fits 32 maxd
  | Publish _ data _ now _ => bytes_ok data /\ now <= T
  | Consume _ _ _ now _ _ | ConsumeFor _ _ _ now _ _ | Reap now _ => now <= T
  | Register name | Unregister name => bytes_ok name
  | DeclareExchange name _ type ae => bytes_ok name /\ bytes_ok ae /\ 0 <= type
  | Bind name queue key | Unbind name queue key _ => bytes_ok name /\ bytes_ok queue /\ bytes_ok key
  | SetAlternate name ae _ => bytes_ok name /\ bytes_ok ae
  | PublishTo _ _ data _ now _ => bytes_ok data /\ now <= T
  | Transact name key data id now _ _ => bytes_ok name /\ bytes_ok key /\ bytes_ok data /\
      tx_small data /\ fits 64 id /\ now <= T
  | _ => True
  end.

Definition is_transact (c : call) : bool :=
  match c with Transact _ _ _ _ _ _ _ => true | _ => false end.

(** The calls the theorems on runs cover.  After the call the dead-letter
    policies agree (no durable queue routes to a transient one), every exchange
    can take one more binding and revision, and, if it is a transaction, it has
    not overfilled a queue.  Without the first two the log does not lead back
    to the state, and the last excludes a target that a dead letter has filled
    behind the back of the transaction. *)
Record covered (T : Z) (s : store) (c : call) : Prop := Covered {
  cv_args : call_ok T c;
  cv_policy : policy (run_call s c);
  cv_rooms : xrooms (run_call s c);
  cv_capacity : is_transact c = true -> within_capacity (run_call s c) }.

Inductive step (T : Z) (s : store) : store -> Prop :=
  | step_call c : covered T s c -> step T s (run_call s c).

(** The calls of a run, one after the other. *)
Inductive history (T : Z) : store -> list call -> store -> Prop :=
  | history_nil s : history T s [] s
  | history_cons s c cs s' : covered T s c -> history T (run_call s c) cs s' -> history T s (c :: cs) s'.

Lemma history_steps T s cs s' : history T s cs s' -> rtc (step T) s s'.
Proof. induction 1; [done|]. eapply rtc_l; [by constructor|done]. Qed.

Definition open_store (job_enabled : bool) (ios locks : list bool) : store :=
  empty_store job_enabled true [] ios locks.

Definition reachable (T : Z) (s : store) : Prop :=
  exists job ios locks, rtc (step T) (open_store job ios locks) s.

(** ** Owners and maintenance *)

Lemma release_owner_spec T owner qid n : forall s q i, inv s -> get_queue s qid = Some q ->
  runs T s (release_owner n s qid i owner).
Proof.
  induction n as [|n IH]; intros s q i I G; cbn [release_owner]; [apply runs_refl, I|].
  rewrite G. destruct (q_msgs q !! i) as [m|] eqn:E; [|apply runs_refl, I].
  destruct (is_inflight m && (m_owner m =? owner)) eqn:Eo; [|by eapply IH].
  apply andb_prop in Eo as [Hi _]. set (f := fun q => make_ready q i 0).
  match goal with |- runs T s (release_owner n ?x _ _ _) => set (s1 := x) end.
  assert (K : keeps_config f) by (intros x; apply make_ready_config).
  assert (R : runs T s s1).
  { eapply runs_on_queue; [exact K|done| |apply I].
    eapply c_ready; [exact G|done|done|]. unfold on_queue. quiet_tac. }
  eapply runs_trans; [exact R|]. eapply (IH s1 (f q)); [by eapply runs_inv|].
  apply (config_of s s1 qid q f); [apply I|done|done|done].
Qed.

(** A walk over the queues a store had, by operations that delete none. *)
Lemma walk_runs T (f : store -> queue -> store) : (forall s q q', inv s ->
    get_queue s (q_lock_id q) = Some q' -> config q' = config q -> runs T s (f s q)) ->
  forall s, inv s -> runs T s (fold_left f (st_queues s) s).
Proof.
  intros Hf s I. assert (H : forall l s', (forall q, q ∈ l -> q ∈ st_queues s) ->
    inv s' -> extends s s' -> runs T s' (fold_left f l s')).
  { induction l as [|q l IH]; intros s' Hl I' E; simpl; [apply runs_refl, I'|].
    destruct (E (q_lock_id q) q) as (q' & G & C).
    { apply wf_get; [apply I|]. apply Hl. left. }
    pose proof (Hf s' q q' I' G C) as R. eapply runs_trans; [exact R|].
    apply IH; [|by eapply runs_inv|].
    - intros x Hx. apply Hl. by right.
    - transitivity s'; [done|]. by eapply runs_extends. }
  by apply H.
Qed.

Lemma queue_requeue_owner_runs T s owner : inv s -> runs T s (queue_requeue_owner s owner).
Proof.
  intros I. unfold queue_requeue_owner. gcase; [apply runs_refl, I|].
  apply walk_runs; [|done]. intros s' q q' I' G _. by eapply release_owner_spec.
Qed.

Lemma queue_reap_runs T s now mono : now <= T -> inv s -> runs T s (queue_reap s now mono).
Proof.
  intros HT I. unfold queue_reap. apply walk_runs; [|done]. intros s' q q' I' G C.
  destruct (q_deleted q) eqn:D; [apply runs_refl, I'|].
  eapply (reap_queue_spec T s' _ q' now mono true HT I'). split; [done|].
  destruct (config_inv _ _ C) as (_&_&_&->&_). done.
Qed.

(** ** Consumers *)

Lemma consumer_record_spec s op name id rc s' :
  (if st_log_open s then append_record s op true name id 0 [] true else (0, s)) = (rc, s') ->
  (rc = 0 /\ evolve s s' (st_queues s) (consumer_logged s op name id)) \/ (rc = -1 /\ quiet s s').
Proof.
  unfold consumer_logged. destruct (st_log_open s).
  - intros [(-> & _ & E)|(-> & Q & _)]%append_record_spec; auto.
  - intros; simplify_eq. left. split; [done|]. apply quiet_refl.
Qed.

Lemma next_owner_ok o : 0 < o < 2 ^ 64 ->
  0 < (if u64 (o + 1) =? 0 then 1 else u64 (o + 1)) < 2 ^ 64.
Proof.
  intros H. pose proof (u64_fits (o + 1)) as F. unfold fits in F.
  destruct (Z.eqb_spec (u64 (o + 1)) 0); lia.
Qed.

Lemma evolve_rebase s s1 s' qs rs cs : st_consumers s' = cs ->
  evolve s s1 qs rs -> quiet {| s1 with st_consumers := cs |} s' ->
  evolve {| s with st_consumers := cs |} s' qs rs.
Proof.
  intros Hc [] []. constructor; simpl in *; try done; try lia; try congruence; auto.
  - destruct ev_log1 as [|[F1 ->]]; [by left|]. rewrite app_nil_r.
    destruct ev_log0 as [|[F0 ->]]; [left; congruence|right; auto].
  - destruct ev_log1 as [|[F1 _]]; [by left|]. destruct ev_seq1 as [|Q1]; [by left|].
    destruct ev_seq0 as [|Q0]; [congruence|right]. unfold zlen in *. simpl in *. lia.
Qed.

Lemma queue_consumer_register_runs T s name : inv s -> bytes_ok name ->
  runs T s (snd (queue_consumer_register s name)).
Proof.
  intros I Hb. pose proof (runs_refl T s (proj2 I)) as R0. unfold queue_consumer_register.
  destruct ((zlen name =? 0) || _) eqn:En; [done|]. apply name_test in En; [|done].
  destruct (find_consumer s name) as [c|] eqn:F; [done|]. destruct (st_failed s); [done|].
  destruct (if st_log_open s then _ else _) as [rc s1] eqn:E.
  apply consumer_record_spec in E as [[-> E]|[-> Q]]; simpl; [|apply runs_quiet; [done|apply I]].
  rewrite alloc_nil by (apply (ev_allocs _ _ _ _ E), (inv_allocs _ I)). simpl.
  split; [|eapply policy_same; [|apply I]; apply (ev_queues _ _ _ _ E)].
  apply rtc_once, (c_register _ _ _ _ name (st_next_owner s)); [done|apply I|done|].
  pose proof (ev_consumers _ _ _ _ E) as Ec. pose proof (next_owner_ok _ (si_owner _ (proj1 I))).
  eapply evolve_rebase; [simpl; by rewrite Ec|exact E|quiet_tac]. simpl. by rewrite Ec.
Qed.

Lemma queue_consumer_unregister_runs T s name : inv s -> bytes_ok name ->
  runs T s (snd (queue_consumer_unregister s name)).
Proof.
  intros I Hb. pose proof (runs_refl T s (proj2 I)) as R0. unfold queue_consumer_unregister.
  destruct ((zlen name =? 0) || _) eqn:En; [done|]. apply name_test in En; [|done].
  destruct (find_consumer s name) as [c|] eqn:F; [|done].
  destruct (if st_log_open s then _ else _) as [rc s1] eqn:E.
  apply consumer_record_spec in E as [[-> E]|[-> Q]]; simpl; [|apply runs_quiet; [done|apply I]].
  match goal with |- runs T s (queue_requeue_owner ?x _) => set (s2 := x) end.
  assert (R : runs T s s2).
  { split; [|eapply policy_same; [|apply I]; apply (ev_queues _ _ _ _ E)].
    apply rtc_once, (c_unregister _ _ _ _ name); [done|].
    pose proof (ev_consumers _ _ _ _ E) as Ec.
    eapply evolve_rebase; [simpl; by rewrite Ec|exact E|quiet_tac]. simpl. by rewrite Ec. }
  eapply runs_trans; [exact R|]. apply queue_requeue_owner_runs. by eapply runs_inv.
Qed.

(** ** Every call is a sequence of commits *)

Lemma transact_commits T s name key data id now monos cached : inv s -> bytes_ok name ->
  bytes_ok key -> bytes_ok data -> tx_small data -> fits 64 id -> now <= T ->
  within_capacity (transact s name key data id now monos cached) ->
  rtc (commit T Transacting) s (transact s name key data id now monos cached).
Proof.
  intros I Hn Hk Hd Hz Hi HT. unfold transact.
  destruct (queue_tx_prepare s name key data id now monos) as [res s2] eqn:E.
  apply (queue_tx_prepare_spec T) in E as (s1 & R & E); try done.
  destruct res as [| |tx]; [intros _; etrans; [by apply runs_commits|by apply frame1]..|].
  destruct E as (P & _). pose proof (runs_sinv _ _ _ R I) as I1.
  assert (Rp : rtc (commit T Transacting) s s2).
  { eapply rtc_r; [by apply runs_commits|]. destruct P. by eapply c_prepare. }
  destruct cached; [|done]. intros Hc.
  destruct (queue_tx_commit s2 tx) as [r s3] eqn:Ec.
  apply (queue_tx_commit_spec s1) in Ec as [(_ & _ & _ & Ev)|(_ & Q & _)]; [| |done|done].
  - eapply rtc_r; [by apply runs_commits|]. by eapply commit_transact.
  - etrans; [exact Rp|by apply frame1].
Qed.

(** A call other than a transaction. *)
Lemma call_plain T s c : inv s -> xrooms s -> call_ok T c -> is_transact c = false ->
  rtc (commit T Deleting) s (run_call s c).
Proof.
  intros I X. destruct c; simpl; intros Hok Hc; try discriminate.
  - destruct Hok as (? & ? & ? & ?). eapply (commits_weaken T Plain), queue_declare_ex_runs; try done.
    apply I.
  - destruct Hok. by eapply runs_commits, queue_publish_runs.
  - by eapply runs_commits, queue_consume_runs.
  - apply (commits_weaken T Plain); [done|]. unfold queue_consume_for_consumer.
    gcase; [done|]. gcase; [|done]. by apply queue_consume_runs.
  - by eapply runs_commits, queue_ack_runs.
  - by eapply runs_commits, queue_nack_runs.
  - by eapply runs_commits, queue_purge_runs.
  - by apply queue_delete_runs.
  - by eapply runs_commits, queue_requeue_owner_runs.
  - by eapply runs_commits, queue_consumer_register_runs.
  - by eapply runs_commits, queue_consumer_unregister_runs.
  - by eapply runs_commits, queue_reap_runs.
  - destruct Hok as (? & ? & ?). by eapply runs_commits, exchange_declare_runs.
  - destruct Hok as (? & ? & ?). by eapply runs_commits, exchange_bind_runs.
  - destruct Hok as (? & ? & ?). by eapply runs_commits, exchange_unbind_runs.
  - by eapply runs_commits, exchange_delete_runs.
  - destruct Hok. by eapply runs_commits, exchange_set_alternate_runs.
  - destruct Hok. destruct (exchange_publish _ _ _ _ _ _ _) as [[rc n] s'] eqn:E.
    apply (exchange_publish_spec T) in E as [R _]; try done. by eapply runs_commits, R.
Qed.

Lemma call_commits T s c : inv s -> xrooms s -> covered T s c -> rtc (commit T Any) s (run_call s c).
Proof.
  intros I X [Hok _ _ Hc]. destruct (is_transact c) eqn:Ec.
  - destruct c; try discriminate. destruct Hok as (? & ? & ? & ? & ? & ?).
    apply (commits_weaken T Transacting); [by split|]. apply transact_commits; try done. by apply Hc.
  - apply (commits_weaken T Deleting); [by split|]. by apply call_plain.
Qed.

Lemma open_inv job ios locks : inv (open_store job ios locks) /\ xrooms (open_store job ios locks).
Proof.
  split; [|constructor]. split; [constructor; simpl; try done|].
  - constructor; unfold lock_ids, live_queues; simpl; constructor.
  - constructor; [apply NoDup_nil_2|constructor].
  - intros a b Ha. by apply not_elem_of_nil in Ha.
Qed.

Lemma step_inv T s s' : step T s s' -> inv s -> xrooms s -> inv s' /\ xrooms s'.
Proof.
  intros [c Hc] I X. split; [|apply Hc]. split; [|apply Hc].
  eapply commits_sinv; [by eapply call_commits|apply I].
Qed.

Lemma reachable_rooms T s : reachable T s -> inv s /\ xrooms s.
Proof.
  intros (job & ios & locks & R). destruct (open_inv job ios locks) as [I X].
  induction R as [|s1 s2 s3 S _ IH]; [done|]. destruct (step_inv _ _ _ S I X). auto.
Qed.

Lemma reachable_inv T s : reachable T s -> inv s.
Proof. intros R. by apply (reachable_rooms T). Qed.

End Run.
