(* ===== verification/QueueSpec.v ===== *)
(** * What the operations of the queue store do

    Functional behaviour of publishing, consuming, acknowledging and
    returning messages, in any store that satisfies the invariant. *)

From stdpp Require Import base numbers option list relations.
From S2P Require Import Prelude Queue QueueIndex WalRecord QueueStore QueueReplay QueueBatch.
From S2P Require Import QueueCommit QueueOps QueueRun.
Import Queue QueueIndex Wal Store Replay Batch Commit Ops Run.

Module Spec.

(** A message that may be delivered now. *)
Definition due (now : Z) (m : message) : bool := negb (is_inflight m) && (m_time m <=? now).

(** The reference for the scan: the first due message from the head. *)
Definition first_due (now : Z) (q : queue) : option nat := position (due now) (q_msgs q).

(** [q'] is [q] with the message at [i] handed out as [d]. *)
Record handed_out (q q' : queue) (i : nat) (m : message) (owner : Z) (d : delivery) : Prop := {
  ho_id : d_id d = m_id m;
  ho_data : d_data d = m_data m;
  ho_owner : d_owner d = owner;
  ho_count : d_count d = u32 (m_deliveries m + 1);
  ho_redelivered : d_redelivered d = (1 <? u32 (m_deliveries m + 1));
  ho_others : forall j, j <> i -> q_msgs q' !! j = q_msgs q !! j;
  ho_message : exists m', q_msgs q' !! i = Some m' /\ m_id m' = m_id m /\ m_data m' = m_data m /\
    m_expires m' = m_expires m /\ m_state m' = MESSAGE_INFLIGHT /\ m_tag m' = d_tag d /\
    m_owner m' = owner /\ m_deliveries m' = d_count d /\ m_time m' = d_deadline d }.

(** ** Consuming *)

Lemma deliver_msgs q i dl o t fd :
  q_msgs (deliver true q i dl o t fd) = q_msgs (deliver_to true q i dl o t).
Proof. unfold deliver. by rewrite msgs_set_hint. Qed.

Lemma charge_record_owner q i j : m_owner <$> q_msgs (charge_record q i) !! j
  = m_owner <$> q_msgs q !! j.
Proof.
  unfold charge_record. gcase; [|done]. simpl. rewrite list_lookup_alter.
  case_decide; [subst|done]. by destruct (q_msgs q !! j).
Qed.

Lemma deliver_to_owner q i dl o t m : q_msgs q !! i = Some m ->
  m_owner <$> q_msgs (deliver_to true q i dl o t) !! i = Some o.
Proof.
  intros E. unfold deliver_to. rewrite charge_record_owner.
  change (q_msgs (inc_inflight ?x)) with (q_msgs x). rewrite tag_index_insert_msgs. simpl.
  by rewrite list_lookup_alter_eq, E.
Qed.

Lemma deliver_handed_out q i m dl o t fd d : q_msgs q !! i = Some m ->
  d = {| d_id := m_id m; d_tag := t; d_owner := o; d_data := m_data m;
         d_count := u32 (m_deliveries m + 1); d_redelivered := 1 <? u32 (m_deliveries m + 1);
         d_deadline := dl |} ->
  handed_out q (deliver true q i dl o t fd) i m o d.
Proof.
  intros E ->. pose proof (deliver_to_owner q i dl o t m E) as Ho.
  destruct (deliver_to_msgs q i dl o t) as (g & [R1 R2 R3] & M & F).
  constructor; try done; rewrite ?deliver_msgs, ?M in *.
  - intros j Hj. by rewrite list_lookup_alter_ne.
  - rewrite list_lookup_alter_eq, E in *. simpl in *. injection Ho as Ho.
    destruct (F m) as (F1 & F2 & F3 & F4). exists (g m). rewrite R1, R2, R3. auto 10.
Qed.

(** The scan from position [i] of a queue without a delivery limit. *)
Lemma consume_scan_first vis owner now mono2 qid n : forall s q i fd rc od s',
  inv s -> live_at s qid q -> unlimited q -> passed q i fd -> (length (q_msgs q) <= n + i)%nat ->
  consume_scan n s qid i fd vis owner now mono2 = (rc, od, s') ->
  (rc = 0 /\ od = None /\ s' = s /\
   forall j m, (i <= j)%nat -> q_msgs q !! j = Some m -> due now m = false) \/
  (exists j m, (i <= j)%nat /\ q_msgs q !! j = Some m /\ due now m = true /\
    (forall k mk, (i <= k < j)%nat -> q_msgs q !! k = Some mk -> due now mk = false) /\
    ((rc = -1 /\ od = None /\ log_down s') \/
     exists d q', rc = 1 /\ od = Some d /\ live_at s' qid q' /\ handed_out q q' j m owner d /\
       d_tag d = st_next_tag s)).
Proof.
  induction n as [|n IH]; intros s q i fd rc od s' I L Hu Hp Hn; cbn [consume_scan].
  { intros; simplify_eq. left. split_and!; try done. intros j m Hj E.
    apply lookup_lt_Some in E. lia. }
  rewrite (proj1 L). destruct (q_msgs q !! i) as [m|] eqn:E.
  2:{ intros; simplify_eq. left. split_and!; try done. intros j m Hj E'.
      apply lookup_lt_Some in E'. apply lookup_ge_None in E. lia. }
  fold (next_delayed now m i fd).
  change (negb (is_inflight m) && (m_time m <=? now)) with (due now m).
  destruct (due now m) eqn:Er.
  2:{ intros H. apply (IH s q (S i)) in H; [|done|done|done|by apply passed_step|lia].
      assert (Hi : forall k mk, k = i -> q_msgs q !! k = Some mk -> due now mk = false)
        by (intros; simplify_eq; congruence).
      destruct H as [(-> & -> & -> & H)|(j & mj & Hj & Ej & Hd & Hk & H)].
      - left. split_and!; try done. intros j mj Hj Ej.
        destruct (decide (j = i)); [by eapply Hi|]. apply (H j); [lia|done].
      - right. exists j, mj. split_and!; try done; [lia|]. intros k mk Hk' Ek.
        destruct (decide (k = i)); [by eapply Hi|]. apply (Hk k); [lia|done]. }
  intros H. right. exists i, m. split_and!; try done; [intros; lia|]. revert H.
  assert (Hi : is_inflight m = false) by (unfold due in Er; by reflect_tests).
  assert (Efd : next_delayed now m i fd = fd).
  { unfold next_delayed, due in *. rewrite Hi in *. simpl in *.
    destruct (Z.ltb_spec now (m_time m)); [|done]. reflect_tests. lia. }
  rewrite Efd. assert (Ex : negb (q_max_deliveries q =? 0) && negb (zlen (q_dlq_name q) =? 0) &&
    (q_max_deliveries q <=? m_deliveries m) = false).
  { destruct (_ && _ && _) eqn:Ex; [|done]. by apply exhausted_limited in Ex. }
  rewrite Ex. cbn [Z.ltb Z.compare]. rewrite alloc_nil by (by apply inv_allocs). simpl.
  destruct (append_log s LOG_DELIVER q (m_id m) 0 []) as [rc1 s1] eqn:E1.
  pose proof (append_record_tag _ _ _ _ _ _ _ _ _ _ E1) as Et.
  apply append_log_spec in E1 as [(-> & _ & E1)|(-> & Q & HF)]; simpl.
  2:{ intros; simplify_eq. left. split_and!; try done. unfold log_down.
      rewrite (ev_open _ _ _ _ Q). destruct (st_log_open s); auto. }
  destruct (deliver_message s1 qid q i m _ owner fd) as [d s2] eqn:E2.
  destruct (deliver_message_spec 0 s s1 _ _ _ _ _ _ _ _ _ I L E Hi Hp E1 Et E2) as (_ & Hd & G).
  assert (OK : forall s3, quiet s2 s3 -> exists d' q', Some d = Some d' /\ live_at s3 qid q' /\
    handed_out q q' i m owner d' /\ d_tag d' = st_next_tag s).
  { intros s3 Q. exists d. eexists. split; [done|]. split; [split|].
    - by rewrite (quiet_get _ _ _ Q), G.
    - eapply live_config; [exact L|apply deliver_config].
    - split; [by eapply deliver_handed_out|]. rewrite Hd. simpl. congruence. }
  destruct (q_durable q).
  - destruct (wait_durable s2 (st_wal_seq s2)) as [rc2 s3] eqn:Ew.
    destruct (wait_durable_fails _ _ _ _ Ew) as [->|[-> F]]; simpl; intros; simplify_eq.
    + right. destruct (OK s') as (d' & q' & Hd' & H1 & H2 & H3); [by eapply wait_durable_quiet|].
      exists d', q'. by split_and!.
    + left. split_and!; try done. by left.
  - intros; simplify_eq. right. destruct (OK s' (quiet_refl _)) as (d' & q' & Hd' & H1 & H2 & H3).
    exists d', q'. by split_and!.
Qed.

(** What queue_consume_for_owner returns, against [first_due]. *)
Definition consumed (s' : store) (qid : Z) (q : queue) (tag owner now rc : Z)
    (od : option delivery) : Prop :=
  match first_due now q with
  | None => rc = 0 /\ od = None
  | Some i => exists m, q_msgs q !! i = Some m /\
      ((rc = -1 /\ od = None /\ log_down s') \/
       exists d q', rc = 1 /\ od = Some d /\ live_at s' qid q' /\ handed_out q q' i m owner d /\
         d_tag d = tag)
  end.

Lemma consume_spec T s name q vis owner now mono mono2 rc od s' : now <= T -> inv s ->
  find_queue s name = Some q -> unlimited q ->
  queue_consume_for_owner s name vis owner now mono mono2 = (rc, od, s') ->
  let s1 := reap_queue_locked s (q_lock_id q) now mono false in
  exists q1, live_at s1 (q_lock_id q) q1 /\
    consumed s' (q_lock_id q) q1 (st_next_tag s1) owner now rc od.
Proof.
  intros HT I F Hu. unfold queue_consume_for_owner. rewrite F.
  pose proof (find_live _ _ _ (si_wf _ (proj1 I)) F) as L.
  destruct (reap_queue_spec T s _ q now mono false HT I L) as (R & q1 & L1 & C1).
  set (s1 := reap_queue_locked s (q_lock_id q) now mono false) in *.
  pose proof (runs_inv _ _ _ R I) as I1. rewrite (proj1 L1). intros H. exists q1. split; [done|].
  assert (Hu1 : unlimited q1) by (by eapply unlimited_config).
  destruct (qi_hint _ _ _ (live_at_inv _ _ _ (proj1 I1) L1) Hu1) as [_ Hh].
  assert (Hlt : forall k m, (k < q_hint q1)%nat -> q_msgs q1 !! k = Some m -> due now m = false).
  { intros k m Hk E. unfold due. by rewrite (Hh k m Hk E). }
  apply (consume_scan_first vis owner now mono2) with (q := q1) in H;
    [|done|done|done|intros _; simpl; split; [lia|exact Hh]|lia].
  unfold consumed. destruct H as [(-> & -> & -> & H)|(j & m & Hj & E & Hd & Hk & H)].
  - assert (E : first_due now q1 = None).
    { apply position_None. intros m [k Ek]%list_elem_of_lookup.
      destruct (decide (k < q_hint q1)%nat); [by eapply Hlt|]. apply (H k); [lia|done]. }
    by rewrite E.
  - assert (EF : first_due now q1 = Some j).
    { apply position_Some. split; [eauto|]. intros k mk Hkj Ek.
      destruct (decide (k < q_hint q1)%nat); [by eapply Hlt|]. apply (Hk k); [lia|done]. }
    rewrite EF. exists m. split; [done|]. destruct H as [H|(d & q' & H)]; [by left|right].
    exists d, q'. exact H.
Qed.

(** ** Acknowledging *)

(** The message a tag names in the queue: in flight, held by [owner]. *)
Definition holds (q : queue) (tag owner : Z) (i : nat) (m : message) : Prop :=
  q_msgs q !! i = Some m /\ m_tag m = tag /\ m_owner m = owner /\ is_inflight m = true.

Lemma holds_unique q tag owner i m i' m' : tags_ok q -> tag <> 0 ->
  holds q tag owner i m -> q_msgs q !! i' = Some m' -> m_tag m' = tag -> i' = i.
Proof.
  intros Hok Ht (E & Et & _ & Hi) E' Et'.
  assert (Hi' : is_inflight m' = true).
  { apply tags_ok_iff in Hok as [Hf _]. rewrite Forall_lookup in Hf. specialize (Hf i' m' E').
    rewrite Hf. by destruct (Z.eqb_spec (m_tag m') 0); [congruence|]. }
  assert (A : tag_find q tag = Some i) by (apply tag_find_Some; eauto).
  assert (B : tag_find q tag = Some i') by (apply tag_find_Some; eauto). congruence.
Qed.

Lemma held_delivery_iff q tag owner i m : tags_ok q -> tag <> 0 ->
  held_delivery q tag owner = Some (i, m) <-> holds q tag owner i m.
Proof.
  intros Hok Ht. unfold held_delivery, holds. split.
  - destruct (tag_find q tag) as [j|] eqn:E; [|done].
    apply (tag_find_Some q tag j Hok Ht) in E as (m' & E & Et & Hi). rewrite E.
    destruct (is_inflight m' && (m_owner m' =? owner)) eqn:Eo; [|done].
    intros; simplify_eq. reflect_tests. auto.
  - intros (E & Et & Eo & Hi). assert (A : tag_find q tag = Some i) by (apply tag_find_Some; eauto).
    rewrite A, E, Hi, Eo, Z.eqb_refl. done.
Qed.

Lemma held_delivery_none q tag owner : tags_ok q -> tag <> 0 ->
  held_delivery q tag owner = None <-> forall i m, ~ holds q tag owner i m.
Proof.
  intros Hok Ht. destruct (held_delivery q tag owner) as [[i m]|] eqn:E.
  - split; [done|]. intros H. exfalso. by apply (H i m), held_delivery_iff.
  - split; [|done]. intros _ i m Hh. apply held_delivery_iff in Hh; [congruence|done..].
Qed.

(** A transform's record is on stable storage before memory changes. *)
Definition flushed (s : store) : Prop := st_wal_seq s <= st_synced_seq s.

Lemma log_transform_flushed s op q id aux rc s' : log_transform s op q id aux = (rc, s') ->
  (rc = 0 /\ (q_durable q = true -> flushed s')) \/ (rc = -1 /\ log_down s').
Proof.
  unfold log_transform. destruct (append_log s op q id aux []) as [rc1 s1] eqn:E.
  apply append_log_spec in E as [(-> & Ho & E)|(-> & Q & HF)]; simpl.
  2:{ intros; simplify_eq. right. split; [done|]. unfold log_down. rewrite (ev_open _ _ _ _ Q).
      destruct (st_log_open s); auto. }
  destruct (q_durable q); [|intros; simplify_eq; left; done].
  unfold sync_log. rewrite (ev_open _ _ _ _ E), (Ho eq_refl). cbn [negb].
  destruct (Z.leb_spec (st_wal_seq s1) (st_synced_seq s1)); [intros; simplify_eq; by left|].
  unfold io. destruct (draw (st_ios s1)) as [[] l]; intros; simplify_eq/=.
  - left. split; [done|]. intros _. unfold flushed. simpl. lia.
  - right. split; [done|]. by left.
Qed.

(** What queue_ack_for_owner does. *)
Lemma ack_spec s name q tag owner rc s' : inv s -> tag <> 0 -> find_queue s name = Some q ->
  queue_ack_for_owner s name tag owner = (rc, s') ->
  (rc = 0 /\ s' = s /\ forall i m, ~ holds q tag owner i m) \/
  exists i m, holds q tag owner i m /\
    ((rc = -1 /\ get_queue s' (q_lock_id q) = Some q /\ log_down s') \/
     (rc = 1 /\ get_queue s' (q_lock_id q) = Some (remove_message q i) /\
      (q_durable q = true -> flushed s'))).
Proof.
  intros I Ht F. unfold queue_ack_for_owner. destruct (Z.eqb_spec tag 0); [done|]. rewrite F.
  pose proof (find_live _ _ _ (si_wf _ (proj1 I)) F) as L.
  pose proof (qi_tags _ _ _ (live_at_inv _ _ _ (proj1 I) L)) as Hok.
  destruct (held_delivery q tag owner) as [[i m]|] eqn:H.
  2:{ intros; simplify_eq. left. split_and!; try done. by apply held_delivery_none. }
  apply held_delivery_iff in H; [|done..]. intros Hack. right. exists i, m. split; [done|].
  revert Hack. destruct (log_transform s LOG_ACK q (m_id m) 0) as [rc1 s1] eqn:El.
  destruct (log_transform_flushed _ _ _ _ _ _ _ El) as [[-> HF]|[-> HD]]; simpl.
  - apply log_transform_spec in El as [[_ Ev]|[[=] _]]. intros; simplify_eq. right.
    split; [done|]. split; [|done].
    apply (config_of s _ (q_lock_id q) q (fun q => remove_message q i)); [apply I|apply L| |].
    + intros x. apply remove_message_config.
    + unfold on_queue. simpl. by rewrite (ev_queues _ _ _ _ Ev).
  - apply log_transform_spec in El as [[[=] _]|[_ Q]]. intros; simplify_eq. left.
    split; [done|]. split; [|done]. rewrite (quiet_get _ _ _ Q). apply L.
Qed.

(** ** Returning *)

(** [q'] is [q] with the message at [i] ready again, from [not_before] on. *)
Record returned (q q' : queue) (i : nat) (m : message) (not_before : Z) : Prop := {
  rt_others : forall j, j <> i -> q_msgs q' !! j = q_msgs q !! j;
  rt_message : exists m', q_msgs q' !! i = Some m' /\ m_id m' = m_id m /\ m_data m' = m_data m /\
    m_expires m' = m_expires m /\ m_deliveries m' = m_deliveries m /\
    m_state m' = MESSAGE_READY /\ m_time m' = not_before /\ m_tag m' = 0 }.

Lemma make_ready_time q i nb m : q_msgs q !! i = Some m ->
  exists m', q_msgs (make_ready q i nb) !! i = Some m' /\ m_time m' = nb.
Proof.
  intros E. unfold make_ready. simpl. rewrite list_lookup_alter_eq.
  destruct (tag_index_remove_msgs q i) as [->| ->]; rewrite ?list_lookup_alter_eq, E; simpl; eauto.
Qed.

Lemma requeue_returned nid ntag q i m nb : qinv nid ntag q -> 0 < ntag ->
  q_msgs q !! i = Some m -> is_inflight m = true ->
  returned q (charge_record (make_ready q i nb) i) i m nb.
Proof.
  intros Hq Hpos E Hi. pose proof (qinv_ready nid ntag q i nb m E Hi Hpos Hq) as Hq1.
  destruct (make_ready_time q i nb m E) as (m1 & E1 & Ht).
  destruct (make_ready_msgs q i nb) as (g & [G1 G2 G3] & M & F).
  destruct (charge_record_msgs (make_ready q i nb) i) as (c & [C1 C2 C3] & MC & FC).
  constructor; rewrite MC.
  - intros j Hj. by rewrite list_lookup_alter_ne, M, list_lookup_alter_ne.
  - rewrite list_lookup_alter_eq, E1. exists (c m1). split; [done|].
    destruct (FC m1) as (S1 & S2 & S3 & S4). rewrite C1, C2, C3, S1, S2, S3, S4.
    pose proof E1 as E2. rewrite M, list_lookup_alter_eq, E in E2. injection E2 as <-.
    destruct (F m) as (F1 & F2 & _). rewrite G1, G2, G3, F1, F2. split_and!; try done.
    pose proof (qi_tags _ _ _ Hq1) as [Hf _]%tags_ok_iff. rewrite Forall_lookup in Hf.
    specialize (Hf i _ E1). unfold is_inflight in Hf. rewrite F1 in Hf.
    by destruct (Z.eqb_spec (m_tag (g m)) 0).
Qed.

(** What queue_nack_for_owner_delay does when it requeues. *)
Lemma nack_requeue_spec s name q tag owner delay now rc s' : inv s -> tag <> 0 ->
  find_queue s name = Some q ->
  queue_nack_for_owner_delay s name tag owner true delay now = (rc, s') ->
  (rc = 0 /\ s' = s /\ forall i m, ~ holds q tag owner i m) \/
  exists i m, holds q tag owner i m /\
    ((rc = -1 /\ get_queue s' (q_lock_id q) = Some q /\ log_down s') \/
     exists q', rc = 1 /\ live_at s' (q_lock_id q) q' /\
       returned q q' i m (if delay =? 0 then 0 else u64 (now + delay)) /\
       (q_durable q = true -> flushed s')).
Proof.
  intros I Ht F. unfold queue_nack_for_owner_delay. destruct (Z.eqb_spec tag 0); [done|]. rewrite F.
  pose proof (find_live _ _ _ (si_wf _ (proj1 I)) F) as L.
  pose proof (live_at_inv _ _ _ (proj1 I) L) as Hq. pose proof (qi_tags _ _ _ Hq) as Hok.
  destruct (held_delivery q tag owner) as [[i m]|] eqn:H.
  2:{ intros; simplify_eq. left. split_and!; try done. by apply held_delivery_none. }
  apply held_delivery_iff in H; [|done..]. intros Hn. right. exists i, m. split; [done|].
  revert Hn. set (nb := if delay =? 0 then 0 else u64 (now + delay)).
  destruct (log_transform s LOG_REQUEUE q (m_id m) nb) as [rc1 s1] eqn:El.
  destruct (log_transform_flushed _ _ _ _ _ _ _ El) as [[-> HF]|[-> HD]]; simpl.
  - apply log_transform_spec in El as [[_ Ev]|[[=] _]]. intros; simplify_eq. right.
    set (f := fun q => charge_record (make_ready q i nb) i). exists (f q).
    assert (K : keeps_config f).
    { intros x. unfold f. rewrite charge_record_config. apply make_ready_config. }
    split; [done|]. split; [split|split; [|done]].
    + apply (config_of s _ (q_lock_id q) q f); [apply I|apply L|done|].
      unfold on_queue. simpl. by rewrite (ev_queues _ _ _ _ Ev).
    + eapply live_config; [exact L|apply K].
    + eapply requeue_returned; [exact Hq|apply I|apply H|apply H].
  - apply log_transform_spec in El as [[[=] _]|[_ Q]]. intros; simplify_eq. left.
    split; [done|]. split; [|done]. rewrite (quiet_get _ _ _ Q). apply L.
Qed.

(** ** Publishing *)

Lemma commit_seq_mono T del s s' : commit T del s s' -> st_failed s' = false ->
  st_failed s = false /\ st_wal_seq s <= st_wal_seq s'.
Proof.
  intros C F. destruct C; match goal with E : evolve _ s' _ ?rs |- _ =>
    destruct (ev_log _ _ _ _ E) as [|[F1 _]]; [congruence|];
    destruct (ev_seq _ _ _ _ E) as [|Q]; [congruence|]; pose proof (zlen_nonneg rs) end;
    simpl in *; split; try done; lia.
Qed.

Lemma commits_seq_mono T del s s' : rtc (commit T del) s s' -> st_failed s' = false ->
  st_failed s = false /\ st_wal_seq s <= st_wal_seq s'.
Proof.
  induction 1 as [|a b c C _ IH]; intros F; [split; [done|lia]|].
  destruct (IH F) as [F1 H1]. destruct (commit_seq_mono _ _ _ _ C F1). split; [done|lia].
Qed.

Lemma append_record_seq s op name id aux data s' :
  append_record s op true name id aux data false = (0, s') ->
  st_failed s' = false /\ st_wal_seq s' = st_wal_seq s + 1 /\
  st_log s' = st_log s ++ [{| r_op := op; r_durable := true; r_name := name; r_id := id;
                              r_aux := aux; r_data := data |}].
Proof.
  unfold append_record, io. cbn [negb].
  destruct (negb (st_log_open s) || st_failed s) eqn:Eo; [done|].
  apply orb_false_elim in Eo as [_ Ef]. destruct (draw (st_ios s)) as [[] l]; [|done].
  by intros; simplify_eq/=.
Qed.

(** The message a publication adds. *)
Definition fresh (id expires : Z) (data : bytes) (m : message) : Prop :=
  m_id m = id /\ m_data m = data /\ m_expires m = expires /\ m_state m = MESSAGE_READY /\
  m_deliveries m = 0 /\ m_time m = 0 /\ m_tag m = 0.

Lemma linked_fresh q id e d : fresh id e d (linked q (message_create id e d)).
Proof. unfold fresh, linked. by gcase. Qed.

(** [s'] holds [q1], the queue at [qid], extended by a fresh message, and for
    a durable queue the PUBLISH record follows the log of [s1]. *)
Definition published (s1 s' : store) (qid : Z) (q1 : queue) (id expires : Z) (data : bytes) : Prop :=
  room q1 /\ id = st_next_id s1 /\
  (exists q' m, live_at s' qid q' /\ q_msgs q' = q_msgs q1 ++ [m] /\ fresh id expires data m) /\
  (q_durable q1 = true -> st_failed s' = false /\
     st_log s' = st_log s1 ++ [{| r_op := LOG_PUBLISH; r_durable := true; r_name := q_name q1;
                                  r_id := id; r_aux := expires; r_data := data |}]).

Lemma append_publish_spec s1 qid q1 e data s3 : inv s1 -> live_at s1 qid q1 -> room q1 ->
  append_log {| s1 with st_next_id := st_next_id s1 + 1 |} LOG_PUBLISH q1 (st_next_id s1) e data
  = (0, s3) ->
  let s4 := upd_queue s3 qid (fun q => message_link q (message_create (st_next_id s1) e data)) in
  st_allocs s3 = [] /\ published s1 s4 qid q1 (st_next_id s1) e data /\
  (q_durable q1 = true -> st_failed s1 = false /\ st_wal_seq s1 < st_wal_seq s4).
Proof.
  intros I L Hr E s4. set (s2 := {| s1 with st_next_id := st_next_id s1 + 1 |}) in *.
  destruct (append_log_spec _ _ _ _ _ _ _ _ E) as [(_ & _ & Ev)|([=] & _)].
  set (link := fun q => message_link q (message_create (st_next_id s1) e data)) in *.
  split; [apply (ev_allocs _ _ _ _ Ev), (inv_allocs _ I)|].
  assert (D : q_durable q1 = true -> st_failed s3 = false /\ st_wal_seq s3 = st_wal_seq s1 + 1 /\
    st_log s3 = st_log s1 ++ [{| r_op := LOG_PUBLISH; r_durable := true; r_name := q_name q1;
       r_id := st_next_id s1; r_aux := e; r_data := data |}]).
  { intros D. unfold append_log in E. rewrite D in E. by apply append_record_seq in E. }
  split; [split_and!; try done|].
  - exists (link q1). eexists. split; [split|split; [reflexivity|apply linked_fresh]].
    + apply (config_of s2 s4 qid q1 link); [| |intros x; apply message_link_config|].
      * eapply wf_same; [| |apply I]; simpl; [done|lia].
      * apply L.
      * unfold on_queue, s4. simpl. by rewrite (ev_queues _ _ _ _ Ev).
    + eapply live_config; [exact L|apply message_link_config].
  - intros Hd. by destruct (D Hd) as (? & _ & ?).
  - intros Hd. destruct (D Hd) as (F & Q & _). unfold s4. simpl. split; [|lia].
    destruct (ev_log _ _ _ _ Ev) as [|[? _]]; [congruence|done].
Qed.

Lemma wait_durable_flushed s s' : wait_durable s (st_wal_seq s) = (0, s') ->
  flushed s' /\ quiet s s' /\ st_failed s' = st_failed s /\ st_log s' = st_log s.
Proof.
  intros E. pose proof (wait_durable_quiet _ _ _ _ E). revert E.
  unfold wait_durable, io, flushed. destruct (st_failed s) eqn:F; [done|].
  destruct (Z.leb_spec (st_wal_seq s) (st_synced_seq s)); [intros; by simplify_eq|].
  destruct (draw (st_ios s)) as [[] l]; [|done]. intros; simplify_eq/=.
  split; [lia|]. split; [done|]. done.
Qed.

(** What a successful queue_publish did: the message is at the tail, and a
    durable queue's record is on stable storage. *)
Lemma publish_spec T s name q data ttl now mono id s' : now <= T -> inv s ->
  find_queue s name = Some q ->
  queue_publish s name data ttl now mono = (Some id, s') ->
  let s1 := reap_queue_locked s (q_lock_id q) now mono false in
  exists q1, live_at s1 (q_lock_id q) q1 /\ config q1 = config q /\
    published s1 s' (q_lock_id q) q1 id (if ttl =? 0 then 0 else u64 (now + ttl)) data /\
    (q_durable q = true -> flushed s').
Proof.
  intros HT I F. unfold queue_publish. gcase; [done|]. rewrite F. unfold publish_one_locked.
  pose proof (find_live _ _ _ (si_wf _ (proj1 I)) F) as L.
  destruct (reap_queue_spec T s _ q now mono false HT I L) as (R & q1 & L1 & C1).
  set (s1 := reap_queue_locked s (q_lock_id q) now mono false) in *. clearbody s1.
  set (e := if ttl =? 0 then 0 else u64 (now + ttl)).
  pose proof (runs_inv _ _ _ R I) as I1. rewrite (proj1 L1).
  destruct (negb (q_max_depth q1 =? 0) && _) eqn:Ec; [done|]. apply room_test in Ec.
  destruct (append_log _ LOG_PUBLISH q1 (st_next_id s1) e data) as [rc s3] eqn:E.
  destruct (append_log_spec _ _ _ _ _ _ _ _ E) as [(-> & _ & _)|(-> & _ & _)]; [|done]. simpl.
  destruct (append_publish_spec s1 _ q1 e data s3 I1 L1 Ec E) as (A & P & D).
  rewrite append_message_upd by done. cbv beta iota zeta. cbn [Z.ltb Z.compare].
  match goal with |- context [wait_durable ?x _] => set (s4 := x) in * end. intros H.
  destruct (config_inv _ _ C1) as (_ & _ & D1 & _). exists q1. split; [done|]. split; [done|].
  destruct (Z.eqb_spec (st_wal_seq s4) (st_wal_seq s)) as [Eq|Ne].
  - simplify_eq. split; [done|]. rewrite <- D1. intros Hd. destruct (D Hd) as [F1 ?].
    destruct (commits_seq_mono T Plain s s1); [apply R|done|lia].
  - destruct (wait_durable s4 (st_wal_seq s4)) as [rc s5] eqn:Ew.
    destruct (wait_durable_fails _ _ _ _ Ew) as [->|[-> _]]; [|done]. simplify_eq/=.
    destruct (wait_durable_flushed _ _ Ew) as (Hf & Q & EF & EL). split; [|done].
    destruct P as (P1 & P2 & (q' & m & P3 & P4) & P5). split_and!; try done.
    + exists q', m. split; [by eapply quiet_live|done].
    + by rewrite EF, EL.
Qed.

(** ** Dead-lettering *)

(** The queue named as target, before the copy arrives. *)
Definition dlq_before (s : store) (q : queue) : list message :=
  match find_queue s (q_dlq_name q) with Some dq => q_msgs dq | None => [] end.

Lemma resolve_dlq_target s q d s' : inv s -> resolve_dlq s q = (Some d, s') ->
  exists dq, live_at s' d dq /\ q_name dq = q_dlq_name q /\ q_msgs dq = dlq_before s q.
Proof.
  intros I. unfold resolve_dlq, dlq_before. pose proof (si_wf _ (proj1 I)) as W.
  destruct (find_queue s (q_dlq_name q)) as [dq|] eqn:F.
  { intros; simplify_eq. pose proof (find_queue_In _ _ _ F) as (_ & _ & N). exists dq.
    split; [by eapply find_live|done]. }
  destruct (append_record s LOG_DECLARE (q_durable q) (q_dlq_name q) 0 0 [] false) as [rc s1] eqn:E.
  destruct (append_record_spec _ _ _ _ _ _ _ _ _ _ E) as [(-> & _ & Ev)|(-> & Q & _)]; [|done].
  simpl. rewrite create_queue_some by (apply (ev_allocs _ _ _ _ Ev), (inv_allocs _ I)).
  intros; simplify_eq.
  exists (new_queue (st_next_lock_id s1 + 1) (st_next_incarnation s1 + 1) (q_dlq_name q)
    (q_durable q) 0 [] 0).
  split; [|done]. split; [|done]. unfold get_queue. simpl. by rewrite Z.eqb_refl.
Qed.

Lemma route_copy_target s qid q i m did dq ce s' : inv s -> live_at s qid q -> live_at s did dq ->
  did <> qid -> (q_durable q = true -> q_durable dq = true) ->
  route_copy s qid q i m did dq ce = (1, s') ->
  exists dq', live_at s' did dq' /\ config dq' = config dq /\ exists m',
    q_msgs dq' = q_msgs dq ++ [m'] /\
    fresh (st_next_id s) (if ce then 0 else m_expires m) (m_data m) m'.
Proof.
  intros I L0 L Hne Hd. unfold route_copy. set (e := if ce then 0 else m_expires m).
  destruct (log_dead_letter _ dq q (st_next_id s) e m) as [rc s1] eqn:El.
  apply log_dead_letter_spec in El as [[-> Ev]|[-> _]]; [|done|done]. simpl.
  rewrite append_message_upd by (apply (ev_allocs _ _ _ _ Ev), (inv_allocs _ I)). simpl.
  intros; simplify_eq. set (link := fun q => message_link q (message_create (st_next_id s) e (m_data m))).
  exists (link dq). split; [split|].
  - assert (W : wf s1).
    { eapply wf_same; [apply (ev_queues _ _ _ _ Ev)|apply (ev_lock _ _ _ _ Ev)|].
      eapply (wf_same s); [done|simpl; lia|apply I]. }
    assert (G1 : get_queue s1 did = Some dq).
    { unfold get_queue. rewrite (ev_queues _ _ _ _ Ev). apply L. }
    set (s2 := upd_queue s1 did link).
    assert (G2 : get_queue s2 did = Some (link dq)).
    { apply (config_of s1 s2 did dq link); [done|done| |done]. intros x. apply message_link_config. }
    assert (W2 : wf s2) by (apply upd_config_wf; [intros x; apply message_link_config|done]).
    assert (G3 : get_queue s2 qid = Some q).
    { unfold s2. rewrite (get_upd_config s1 did dq) by (done || intros x; apply message_link_config).
      rewrite decide_False by done. unfold get_queue. rewrite (ev_queues _ _ _ _ Ev). apply L0. }
    change (get_queue (upd_queue s2 qid (fun q => remove_message q i)) did = Some (link dq)).
    rewrite (get_upd_config s2 qid q) by (done || intros x; apply remove_message_config).
    by rewrite decide_False.
  - eapply live_config; [exact L|apply message_link_config].
  - split; [apply message_link_config|]. eexists. split; [reflexivity|]. apply linked_fresh.
Qed.

(** A routed message leaves its queue and arrives, as a fresh message with
    its payload, at the tail of the dead-letter queue; otherwise the queue
    keeps it. *)
Lemma dead_letter_moves s qid q i m ce mh r s' : inv s -> live_at s qid q ->
  q_msgs q !! i = Some m -> dead_letter_locked s qid i ce mh = (r, s') ->
  (r <> 1 /\ get_queue s' qid = Some q) \/
  (r = 1 /\ get_queue s' qid = Some (remove_message q i) /\
   exists did dq' m' id, live_at s' did dq' /\ q_name dq' = q_dlq_name q /\
     q_msgs dq' = dlq_before s q ++ [m'] /\
     fresh id (if ce then 0 else m_expires m) (m_data m) m').
Proof.
  intros I L Em H. destruct (dead_letter_spec 0 _ _ _ _ _ _ _ _ _ I L Em H) as
    [_ [[-> G]|[[-> G]|[-> ->]]]]; [|left; split; [done|apply G]|left; split; [done|apply L]].
  right. split; [done|]. split; [done|]. revert H. unfold dead_letter_locked.
  rewrite (proj1 L), Em. destruct (Z.eqb_spec (zlen (q_dlq_name q)) 0) as [|Hn]; [done|].
  assert (Hd : q_dlq_name q <> []) by (intros E; by rewrite E in Hn).
  destruct (if mh then (true, s) else trylock s) as [held s1] eqn:Et.
  assert (Q1 : quiet s s1) by (destruct mh; [simplify_eq; apply quiet_refl|by eapply trylock_quiet]).
  destruct held; simpl; [|done]. destruct (resolve_dlq s1 q) as [[did|] s2] eqn:Er; [|done].
  assert (I1 : inv s1) by (eapply (runs_inv 0); [apply runs_quiet; [exact Q1|apply I]|done]).
  pose proof (quiet_live _ _ _ _ Q1 L) as L1.
  destruct (resolve_dlq_spec 0 s1 qid q _ s2 I1 L1 Hd Er) as (R2 & G2 & Hdid).
  destruct (Hdid did eq_refl) as (dq0 & L0 & Hdur).
  destruct (resolve_dlq_target _ _ _ _ I1 Er) as (dq & Ld & Nd & Md).
  assert (dq0 = dq) by (destruct L0, Ld; congruence). subst dq0.
  destruct ((did =? qid) || existsb (Z.eqb did) (st_held s2)) eqn:Hb; simpl; [done|].
  assert (Hne : did <> qid) by (by apply orb_false_elim in Hb as [?%Z.eqb_neq _]).
  destruct (trylock s2) as [free s3] eqn:Ef. pose proof (trylock_quiet _ _ _ Ef) as Q3.
  destruct free; simpl; [|done]. pose proof (quiet_live _ _ _ _ Q3 Ld) as L3. rewrite (proj1 L3).
  destruct (negb (q_max_depth dq =? 0) && _); [done|]. intros H.
  assert (I3 : inv s3).
  { eapply (runs_inv 0); [apply runs_quiet; [exact Q3|apply R2]|]. by eapply runs_inv. }
  destruct (route_copy_target _ _ _ _ _ _ _ _ _ I3 (quiet_live _ _ _ _ Q3 (conj G2 (proj2 L))) L3 Hne Hdur H) as (dq' & L' & C' & m' & M' & Fr).
  exists did, dq', m', (st_next_id s3). split; [done|].
  destruct (config_inv _ _ C') as (_ & N' & _). split; [congruence|]. split; [|done].
  rewrite M', Md. unfold dlq_before. by rewrite (quiet_find _ _ _ Q1).
Qed.

End Spec.
