(* ===== verification/QueueRecovery.v ===== *)
(** * Recovery of the queue store

    What a restart rebuilds.  The log of a run of calls, replayed into an
    empty store, gives the durable queues back with their policies and, up to
    messages that have expired, the same messages in the same order with the
    same delivery counts; consumers keep their owners.  The proof goes commit
    by commit: replaying the records of one commit preserves the relation
    between the running store and the replayed one. *)

From stdpp Require Import base numbers option list relations.
From S2P Require Import Prelude Queue QueueIndex WalRecord QueueStore QueueReplay Exchange QueueTx.
From S2P Require Import ExchangeReplay QueueBatch QueueCommit QueueOps QueueRun.
Import Queue QueueIndex Wal Store Replay Batch Exchanges XChange Tx XReplay TxReplay Commit Ops Run.

Module Recovery.

(** ** What is recovered *)

(** A message as the log knows it. *)
Record entry := Entry {
  e_id : Z;
  e_expires : Z;
  e_deliveries : Z;
  e_data : bytes }.

Definition entry_of (m : message) : entry :=
  {| e_id := m_id m; e_expires := m_expires m; e_deliveries := m_deliveries m;
     e_data := m_data m |}.

Definition outlives (T : Z) (e : entry) : Prop := e_expires e = 0 \/ T < e_expires e.

#[global] Instance outlives_dec T e : Decision (outlives T e).
Proof. unfold outlives. apply _. Defined.

(** The messages that have not expired at [T], in queue order. *)
Definition kept (T : Z) (l : list message) : list entry := filter (outlives T) (entry_of <$> l).

(** A durable queue as the log knows it. *)
Record qview := QView {
  v_dlq : bytes;
  v_max_deliveries : Z;
  v_max_depth : Z;
  v_entries : list entry }.

Definition view (T : Z) (q : queue) : qview :=
  {| v_dlq := q_dlq_name q; v_max_deliveries := q_max_deliveries q;
     v_max_depth := q_max_depth q; v_entries := kept T (q_msgs q) |}.

Definition ids_ok (nid : Z) (q : queue) : Prop :=
  NoDup (m_id <$> q_msgs q) /\ Forall (fun m => m_id m < nid) (q_msgs q).

(** The running queue and the replayed queue of one name: only durable
    queues are replayed, and with the same view. *)
Definition related (T nid : Z) (oq orq : option queue) : Prop :=
  match orq with
  | Some rq => exists q, oq = Some q /\ q_durable q = true /\ q_durable rq = true /\
                         view T rq = view T q /\ ids_ok nid rq
  | None => forall q, oq = Some q -> q_durable q = false
  end.

Record recovered (T : Z) (s r : store) : Prop := {
  rc_wf : wf r;
  rc_allocs : st_allocs r = [];
  rc_next : st_next_id r <= st_next_id s;
  rc_queues : forall name, related T (st_next_id r) (find_queue s name) (find_queue r name);
  rc_consumers : st_log_open s = true -> st_consumers r = st_consumers s;
  rc_exchanges : st_exchanges r = durable_view (st_exchanges s) }.

(** ** Entries *)

Lemma delete_by_id (es : list entry) i e : NoDup (e_id <$> es) -> es !! i = Some e ->
  delete i es = filter (fun x => e_id x <> e_id e) es.
Proof.
  revert i. induction es as [|x es IH]; intros i Hn E; [done|].
  csimpl in *. apply NoDup_cons in Hn as [Hx Hn]. rewrite filter_cons.
  destruct i as [|i]; simplify_eq/=.
  - rewrite decide_False by tauto. clear IH Hn. induction es as [|y es IH]; [done|].
    csimpl in *. apply not_elem_of_cons in Hx as [Hy Hx]. rewrite filter_cons, decide_True by done.
    f_equal. auto.
  - rewrite decide_True; [f_equal; eauto|]. intros E'. destruct Hx. rewrite E'.
    apply list_elem_of_fmap_2. by eapply list_elem_of_lookup_2.
Qed.

Lemma filter_absent k (es : list entry) : k ∉ e_id <$> es -> filter (fun x => e_id x <> k) es = es.
Proof.
  induction es as [|y es IH]; [done|]. csimpl. intros [Hy Hx]%not_elem_of_cons.
  rewrite filter_cons, decide_True by done. f_equal. auto.
Qed.

(** [g] at the entries with identity [k]. *)
Definition at_id (k : Z) (g : entry -> entry) (e : entry) : entry :=
  if e_id e =? k then g e else e.

Lemma alter_by_id (es : list entry) i e g : NoDup (e_id <$> es) -> es !! i = Some e ->
  alter g i es = at_id (e_id e) g <$> es.
Proof.
  revert i. induction es as [|x es IH]; intros i Hn E; [done|].
  csimpl in *. apply NoDup_cons in Hn as [Hx Hn]. unfold at_id at 1.
  destruct i as [|i]; simplify_eq/=.
  - rewrite Z.eqb_refl. f_equal. clear IH Hn. induction es as [|y es IH]; [done|].
    csimpl in *. apply not_elem_of_cons in Hx as [Hy Hx]. unfold at_id at 1.
    destruct (Z.eqb_spec (e_id y) (e_id e)); [congruence|]. f_equal. auto.
  - destruct (Z.eqb_spec (e_id x) (e_id e)) as [E'|]; [|f_equal; eauto].
    destruct Hx. rewrite E'. apply list_elem_of_fmap_2. by eapply list_elem_of_lookup_2.
Qed.

Lemma at_id_absent k g (es : list entry) : k ∉ e_id <$> es -> at_id k g <$> es = es.
Proof.
  induction es as [|y es IH]; [done|]. csimpl. intros [Hy Hx]%not_elem_of_cons.
  unfold at_id at 1. destruct (Z.eqb_spec (e_id y) k); [congruence|]. f_equal. auto.
Qed.

Lemma filter_comm {A} (P Q : A -> Prop) `{forall x, Decision (P x), forall x, Decision (Q x)} (l : list A) :
  filter P (filter Q l) = filter Q (filter P l).
Proof.
  induction l as [|x l IH]; [done|]. rewrite !filter_cons.
  repeat case_decide; rewrite ?filter_cons; repeat case_decide; try done; by rewrite IH.
Qed.

Lemma filter_fmap_keep {A} (P : A -> Prop) `{forall x, Decision (P x)} (g : A -> A) (l : list A) :
  (forall x, P (g x) <-> P x) -> filter P (g <$> l) = g <$> filter P l.
Proof.
  intros Hg. induction l as [|x l IH]; [done|]. csimpl. rewrite !filter_cons.
  specialize (Hg x). repeat case_decide; try tauto; csimpl; by rewrite ?IH.
Qed.

Lemma entry_ids (l : list message) : e_id <$> (entry_of <$> l) = m_id <$> l.
Proof. by rewrite <- list_fmap_compose. Qed.

(** ** The changes of a queue, as the log knows them *)

Lemma kept_delete T l i m : NoDup (m_id <$> l) -> l !! i = Some m ->
  kept T (delete i l) = filter (fun e => e_id e <> m_id m) (kept T l).
Proof.
  intros Hn E. unfold kept. rewrite fmap_delete.
  rewrite (delete_by_id _ i (entry_of m)).
  - apply filter_comm.
  - by rewrite entry_ids.
  - by rewrite list_lookup_fmap, E.
Qed.

Lemma kept_absent T l k : k ∉ m_id <$> l -> k ∉ e_id <$> kept T l.
Proof.
  intros Hk (e & -> & He)%list_elem_of_fmap. apply list_elem_of_filter in He as [_ He].
  apply Hk. rewrite <- entry_ids. by apply list_elem_of_fmap_2.
Qed.

(** A change of one message that the log sees as [g]. *)
Lemma kept_alter T l i m f g : NoDup (m_id <$> l) -> l !! i = Some m ->
  (forall x, entry_of (f x) = g (entry_of x)) -> (forall e, e_expires (g e) = e_expires e) ->
  kept T (alter f i l) = at_id (m_id m) g <$> kept T l.
Proof.
  intros Hn E Hf Hg. unfold kept.
  assert (EA : entry_of <$> alter f i l = alter g i (entry_of <$> l)).
  { clear - Hf. revert i. induction l as [|x l IH]; intros [|i]; csimpl; try done; congruence. }
  rewrite EA, (alter_by_id _ i (entry_of m)).
  - apply filter_fmap_keep. intros e. unfold at_id, outlives. gcase; by rewrite ?Hg.
  - by rewrite entry_ids.
  - by rewrite list_lookup_fmap, E.
Qed.

Lemma at_id_id k (es : list entry) : at_id k id <$> es = es.
Proof.
  rewrite <- list_fmap_id. apply list_fmap_ext. intros _ x _. unfold at_id. by gcase.
Qed.

(** A change the log does not see. *)
Lemma kept_retouch T l i f : (forall x, entry_of (f x) = entry_of x) ->
  kept T (alter f i l) = kept T l.
Proof.
  intros Hf. unfold kept. f_equal. clear -Hf. revert i.
  induction l as [|x l IH]; intros [|i]; csimpl; try done; congruence.
Qed.

Lemma kept_expired T l i m : l !! i = Some m -> expired T m = true -> kept T (delete i l) = kept T l.
Proof.
  intros E Hx. unfold kept. rewrite fmap_delete. revert i E.
  induction l as [|x l IH]; intros [|i] E; simplify_eq/=; csimpl.
  - rewrite filter_cons, decide_False; [done|]. unfold outlives, expired, has_ttl in *. simpl.
    reflect_tests. lia.
  - rewrite !filter_cons. case_decide; [f_equal|]; by apply IH.
Qed.

Lemma kept_app T l m : kept T (l ++ [m])
  = kept T l ++ (if decide (outlives T (entry_of m)) then [entry_of m] else []).
Proof. unfold kept. by rewrite fmap_app, filter_app. Qed.

Definition redelivered (e : entry) : entry := {| e with e_deliveries := u32 (e_deliveries e + 1) |}.

(** ** The relation under changes of one queue *)

Lemma find_on_queue s s' qid q f name : wf s -> live_at s qid q -> keeps_config f ->
  st_queues s' = on_queue s qid f ->
  find_queue s' name = if decide (name = q_name q) then Some (f q) else find_queue s name.
Proof.
  intros W [G D] K E. rewrite <- (find_upd_config s qid q f name) by done.
  unfold find_queue. by rewrite E.
Qed.

Lemma view_config T q q' : config q' = config q -> kept T (q_msgs q') = kept T (q_msgs q) ->
  view T q' = view T q.
Proof. intros C K. config_fields C. unfold view. congruence. Qed.

Lemma view_kept T q q' : view T q' = view T q -> kept T (q_msgs q') = kept T (q_msgs q).
Proof. unfold view. intros H. by simplify_eq. Qed.

Lemma view_pair T q q' p p' : config p = config q -> config p' = config q' ->
  view T q' = view T q -> kept T (q_msgs p') = kept T (q_msgs p) -> view T p' = view T p.
Proof.
  intros (_&_&_&_&E1&E2&E3)%config_inv (_&_&_&_&E1'&E2'&E3')%config_inv V K.
  unfold view in *. injection V as V1 V2 V3 _. congruence.
Qed.

Lemma ids_ok_mono n n' q : n <= n' -> ids_ok n q -> ids_ok n' q.
Proof. intros Hn [H1 H2]. split; [done|]. eapply Forall_impl; [exact H2|]. simpl. lia. Qed.

Lemma related_mono T n n' oq orq : n <= n' -> related T n oq orq -> related T n' oq orq.
Proof.
  unfold related. destruct orq as [rq|]; [|done]. intros Hn (q & ? & ? & ? & ? & ?).
  exists q. eauto 10 using ids_ok_mono.
Qed.

(** A change of [q] that the log does not describe, because [q] is transient
    or because the change is not visible to it. *)
Lemma related_silent T n q q' orq : config q' = config q ->
  q_durable q = false \/ kept T (q_msgs q') = kept T (q_msgs q) ->
  related T n (Some q) orq -> related T n (Some q') orq.
Proof.
  intros C H. unfold related. destruct orq as [rq|].
  - intros (q0 & [= <-] & D & Dr & V & Hi). destruct H as [H|H]; [congruence|].
    exists q'. pose proof C as C'. config_fields C'. split; [done|]. split; [congruence|].
    split; [done|]. split; [|done]. rewrite V. symmetry. by apply view_config.
  - intros D q0 [= <-]. config_fields C. rewrite Cdur. by apply D.
Qed.

Lemma recovered_frame T s s' r rs : evolve s s' (st_queues s) rs ->
  recovered T s r -> recovered T s' r.
Proof.
  intros [] []. constructor; try done.
  - lia.
  - intros name. unfold find_queue at 1. rewrite ev_queues0. apply rc_queues0.
  - rewrite ev_open0, ev_consumers0. done.
  - by rewrite ev_exchanges0.
Qed.

Lemma recovered_silent T s s' r qid q f rs : wf s -> live_at s qid q -> keeps_config f ->
  evolve s s' (on_queue s qid f) rs ->
  q_durable q = false \/ kept T (q_msgs (f q)) = kept T (q_msgs q) ->
  recovered T s r -> recovered T s' r.
Proof.
  intros Hs L K E H []. constructor; try done.
  - pose proof (ev_id _ _ _ _ E). lia.
  - intros name. rewrite (find_on_queue s s' qid q f) by (apply Hs || apply (ev_queues _ _ _ _ E) || done).
    case_decide as Hn; [|done]. eapply related_silent; [apply K|exact H|].
    specialize (rc_queues0 name). rewrite Hn, (wf_find s q) in rc_queues0;
      [by rewrite Hn|apply Hs|by eapply get_queue_In, L|apply L].
  - rewrite (ev_open _ _ _ _ E), (ev_consumers _ _ _ _ E). done.
  - by rewrite (ev_exchanges _ _ _ _ E).
Qed.

(** The replayed queue of a durable queue. *)
Lemma recovered_found T s r qid q : wf s -> live_at s qid q -> q_durable q = true ->
  recovered T s r -> exists rq, find_queue r (q_name q) = Some rq /\ q_durable rq = true /\
    view T rq = view T q /\ ids_ok (st_next_id r) rq.
Proof.
  intros Hs L D R. pose proof (rc_queues _ _ _ R (q_name q)) as H.
  rewrite (wf_find s q) in H; [|apply Hs|by eapply get_queue_In, L|apply L].
  destruct (find_queue r (q_name q)) as [rq|]; simpl in H.
  - destruct H as (q0 & [= <-] & _ & ? & ? & ?). eauto.
  - by rewrite (H q eq_refl) in D.
Qed.

(** The same change on both sides. *)
Lemma recovered_upd T s s' r r' qid q rq f g rs : wf s -> live_at s qid q -> q_durable q = true ->
  find_queue r (q_name q) = Some rq -> keeps_config f -> keeps_config g ->
  evolve s s' (on_queue s qid f) rs -> evolve r r' (on_queue r (q_lock_id rq) g) [] ->
  st_next_id r' <= st_next_id s' ->
  kept T (q_msgs (g rq)) = kept T (q_msgs (f q)) -> ids_ok (st_next_id r') (g rq) ->
  recovered T s r -> recovered T s' r'.
Proof.
  intros Hs L D F K Kg E Er Hn Hk Hi R. pose proof (rc_wf _ _ _ R) as W.
  destruct (recovered_found T s r qid q Hs L D R) as (rq0 & F0 & Dr & V & _).
  rewrite F in F0. injection F0 as <-. pose proof (find_live _ _ _ W F) as Lr.
  pose proof (find_queue_In _ _ _ F) as (_ & _ & Nr).
  constructor.
  - eapply wf_on_queue; [apply (ev_queues _ _ _ _ Er)|apply (ev_lock _ _ _ _ Er)|].
    by apply upd_config_wf.
  - apply (ev_allocs _ _ _ _ Er), R.
  - done.
  - intros name.
    rewrite (find_on_queue s s' qid q f) by (apply Hs || apply (ev_queues _ _ _ _ E) || done).
    rewrite (find_on_queue r r' _ rq g) by (apply (ev_queues _ _ _ _ Er) || done).
    rewrite Nr. case_decide as Hname.
    + exists (f q). destruct (config_inv _ _ (K q)) as (_&_&Cd&_).
      destruct (config_inv _ _ (Kg rq)) as (_&_&Cd'&_).
      split; [done|]. split; [congruence|]. split; [congruence|]. split; [|done].
      by eapply (view_pair T q rq).
    + eapply related_mono; [apply (ev_id _ _ _ _ Er)|]. apply R.
  - rewrite (ev_open _ _ _ _ E), (ev_consumers _ _ _ _ E), (ev_consumers _ _ _ _ Er). apply R.
  - rewrite (ev_exchanges _ _ _ _ E), (ev_exchanges _ _ _ _ Er). apply R.
Qed.

(** ** The records *)

Lemma name_ok_tests n : name_ok n ->
  (zlen n =? 0) = false /\ (QUEUE_NAME_MAX <? zlen n) = false.
Proof. intros [_ [H1 H2]]. split; [apply Z.eqb_neq|apply Z.ltb_ge]; lia. Qed.

(** The opcodes of records without a payload that change one queue. *)
Definition plain_op (op : Z) : bool :=
  (op =? LOG_ACK) || (op =? LOG_DELIVER) || (op =? LOG_REQUEUE) || (op =? LOG_PURGE) ||
  (op =? LOG_DELETE).

Lemma plain_record_ok op d name id aux : plain_op op = true -> name_ok name ->
  fits 64 id -> fits 64 aux ->
  let r := {| r_op := op; r_durable := d; r_name := name; r_id := id; r_aux := aux;
              r_data := [] |} in record_ok r /\ job_record (r_op r) = false.
Proof.
  intros Hop Hn Hi Ha r. destruct (name_ok_tests name Hn) as [N1 N2].
  assert (H : fits 8 op /\ bad_shape op (zlen name) 0 id = false /\ job_record op = false).
  { unfold plain_op in Hop. rewrite !orb_true_iff, !Z.eqb_eq in Hop.
    destruct Hop as [[[[->| ->]| ->]| ->]| ->]; split; try (split; done); (split; [|done]);
      unfold bad_shape; rewrite N1, N2; reflexivity. }
  destruct H as (H1 & H2 & H3). split; [|done]. repeat split; try done; try apply H1;
    try apply Hi; try apply Ha; try apply Hn. constructor.
Qed.

Lemma publish_record_ok d name id aux data : name_ok name -> fits 64 id -> fits 64 aux ->
  data_ok data ->
  let r := {| r_op := LOG_PUBLISH; r_durable := d; r_name := name; r_id := id; r_aux := aux;
              r_data := data |} in record_ok r /\ job_record (r_op r) = false.
Proof.
  intros Hn Hi Ha [Hb Hl] r. destruct (name_ok_tests name Hn) as [N1 N2].
  split; [|done]. split; [split; done|]. split; [done|]. split; [done|]. split; [apply Hn|].
  split; [done|]. unfold bad_shape. simpl r_name. simpl r_data. rewrite N1, N2.
  apply Z.ltb_ge in Hl. rewrite Hl. reflexivity.
Qed.

Lemma dlq_ext_len dlq maxd : dlq = [] \/ name_ok dlq ->
  zlen (dlq_ext dlq maxd) <= 6 + QUEUE_NAME_MAX /\ bytes_ok (dlq_ext dlq maxd).
Proof.
  intros [->|[Hb Hl]]; unfold dlq_ext; [split; [done|constructor]|].
  destruct (Z.eqb_spec (zlen dlq) 0); [lia|]. split.
  - rewrite !zlen_app. change (zlen (put16 (zlen dlq))) with 2.
    change (zlen (put32 maxd)) with 4. lia.
  - apply Forall_app_2; [|apply Forall_app_2; [done|apply put32_bytes]].
    repeat constructor; apply u8_byte.
Qed.

Lemma declare_record_ok d name max dlq maxd : name_ok name -> fits 64 max ->
  dlq = [] \/ name_ok dlq ->
  let r := {| r_op := LOG_DECLARE; r_durable := d; r_name := name; r_id := 0; r_aux := max;
              r_data := dlq_ext dlq maxd |} in record_ok r /\ job_record (r_op r) = false.
Proof.
  intros Hn Hi Hd r. destruct (name_ok_tests name Hn) as [N1 N2].
  destruct (dlq_ext_len dlq maxd Hd) as [L B].
  split; [|done]. split; [split; done|]. split; [split; done|]. split; [done|]. split; [apply Hn|].
  split; [done|]. unfold bad_shape. simpl r_name. simpl r_data. rewrite N1, N2.
  pose proof L as L'. apply Z.ltb_ge in L'.
  assert (L2 : (QUEUE_MESSAGE_MAX <? zlen (dlq_ext dlq maxd)) = false).
  { apply Z.ltb_ge. etrans; [exact L|]. done. }
  rewrite L2. simpl. by rewrite L'.
Qed.

Lemma consumer_record_ok name owner : name_ok name -> 0 < owner < 2 ^ 64 ->
  let r := {| r_op := LOG_CONSUMER; r_durable := true; r_name := name; r_id := owner;
              r_aux := 0; r_data := [] |} in record_ok r /\ job_record (r_op r) = false.
Proof.
  intros Hn Hi r. destruct (name_ok_tests name Hn) as [N1 N2].
  split; [|done]. split; [split; done|]. split; [unfold fits; simpl; lia|]. split; [split; done|].
  split; [apply Hn|]. split; [constructor|]. unfold bad_shape. simpl r_name. rewrite N1, N2.
  simpl. apply Z.eqb_neq. lia.
Qed.

Lemma consumer_del_record_ok name : name_ok name ->
  let r := {| r_op := LOG_CONSUMER_DEL; r_durable := true; r_name := name; r_id := 0;
              r_aux := 0; r_data := [] |} in record_ok r /\ job_record (r_op r) = false.
Proof.
  intros Hn r. destruct (name_ok_tests name Hn) as [N1 N2].
  split; [|done]. split; [split; done|]. split; [split; done|]. split; [split; done|].
  split; [apply Hn|]. split; [constructor|]. unfold bad_shape. simpl r_name. by rewrite N1, N2.
Qed.

(** The records of the exchange changes. *)
Lemma exchange_record_ok op name aux payload : op = LOG_EXDECLARE \/ op = LOG_EXBIND \/
    op = LOG_EXUNBIND \/ op = LOG_EXUPDATE \/ (op = LOG_EXDELETE /\ payload = []) ->
  name_ok name -> fits 64 aux -> bytes_ok payload -> zlen payload <= 1000 ->
  let r := {| r_op := op; r_durable := true; r_name := name; r_id := 0; r_aux := aux;
              r_data := payload |} in record_ok r /\ job_record (r_op r) = false.
Proof.
  intros Hop Hn Ha Hb Hl r. destruct (name_ok_tests name Hn) as [N1 N2].
  assert (L2 : (QUEUE_MESSAGE_MAX <? zlen payload) = false).
  { apply Z.ltb_ge. etrans; [exact Hl|]. done. }
  assert (H : fits 8 op /\ bad_shape op (zlen name) (zlen payload) 0 = false /\ job_record op = false).
  { destruct Hop as [->|[->|[->|[->|[-> ->]]]]]; split; try (split; done); (split; [|done]);
      unfold bad_shape; rewrite N1, N2, ?L2; reflexivity. }
  destruct H as (H1 & H2 & H3). split; [|done]. split; [done|]. split; [split; done|].
  split; [done|]. split; [apply Hn|]. by split.
Qed.

Lemma binding_payload_ok queue key : name_ok queue -> name_valid key ->
  bytes_ok (binding_payload queue key) /\ zlen (binding_payload queue key) <= 1000.
Proof.
  intros [Hq Lq] [Hk Lk]. unfold binding_payload, QUEUE_NAME_MAX, EXCHANGE_NAME_MAX in *. split.
  - repeat (apply Forall_app_2; [first [done|apply put16_bytes]|]). done.
  - rewrite !zlen_app, !put16_zlen. lia.
Qed.

Lemma exdeclare_payload_ok type ae : name_valid ae ->
  bytes_ok (exdeclare_payload type ae) /\ zlen (exdeclare_payload type ae) <= 1000.
Proof.
  intros [Ha La]. unfold exdeclare_payload, EXCHANGE_NAME_MAX in *. gcase.
  - split; [repeat constructor; apply u8_byte|done].
  - split; [constructor; [apply u8_byte|apply Forall_app_2; [apply put16_bytes|done]]|].
    rewrite zlen_cons, zlen_app, put16_zlen. lia.
Qed.

(** Distinct identities below [n]: at most [n] of them. *)
Lemma distinct_bound (l : list Z) n : NoDup l -> Forall (fun x => 0 <= x < n) l -> zlen l <= n \/ l = [].
Proof.
  intros Hn Hl. destruct l as [|x0 l0] eqn:El; [by right|left]. rewrite <- El in *.
  assert (0 < n).
  { rewrite Forall_forall in Hl. destruct (Hl x0); [rewrite El; left|]. lia. }
  assert (H0 : (length l <= length (seqZ 0 n))%nat).
  { apply submseteq_length, NoDup_submseteq; [done|]. intros x Hx. apply elem_of_seqZ.
    rewrite Forall_forall in Hl. specialize (Hl x Hx). lia. }
  rewrite length_seqZ in H0. unfold zlen. lia.
Qed.

Lemma depth_fits nid ntag q : qinv nid ntag q -> fits 64 nid -> fits 64 (q_depth q).
Proof.
  intros [] Hf. destruct qi_counters0 as [-> _]. unfold fits in *.
  destruct (distinct_bound (m_id <$> q_msgs q) nid) as [H|H]; [done| | |].
  - by rewrite Forall_fmap.
  - unfold zlen in *. rewrite length_fmap in H. lia.
  - apply fmap_nil_inv in H. rewrite H. unfold zlen. simpl. lia.
Qed.

Lemma parse_dlq_ext dlq maxd : dlq = [] /\ maxd = 0 \/ name_ok dlq -> fits 32 maxd ->
  parse_declare_ext (dlq_ext dlq maxd) = Some (dlq, maxd).
Proof.
  intros [[-> ->]|[Hb Hl]] Hm; [done|]. unfold dlq_ext.
  destruct (Z.eqb_spec (zlen dlq) 0); [lia|]. unfold parse_declare_ext.
  set (p := put16 (zlen dlq) ++ dlq ++ put32 maxd).
  assert (Lp : zlen p = 6 + zlen dlq).
  { unfold p. rewrite !zlen_app. change (zlen (put16 (zlen dlq))) with 2.
    change (zlen (put32 maxd)) with 4. lia. }
  rewrite Lp. unfold QUEUE_NAME_MAX in *.
  destruct (Z.eqb_spec (6 + zlen dlq) 0); [lia|].
  destruct (Z.ltb_spec (6 + zlen dlq) 6); [lia|].
  destruct (Z.ltb_spec (6 + 255) (6 + zlen dlq)); [lia|]. cbn [orb].
  assert (E16 : at16 p 0 = zlen dlq).
  { unfold at16. change (drop (Z.to_nat 0) p) with p. unfold p. rewrite get16_put16. apply u16_small. unfold fits. lia. }
  assert (Es : slice 2 (zlen dlq) p = dlq).
  { unfold slice, p, zlen. rewrite Nat2Z.id. change (drop (Z.to_nat 2) _) with (dlq ++ put32 maxd).
    by rewrite take_app_length. }
  assert (E32 : at32 p (2 + zlen dlq) = maxd).
  { unfold at32, p, zlen. replace (Z.to_nat (2 + Z.of_nat (length dlq))) with (2 + length dlq)%nat by lia.
    rewrite <- drop_drop. change (drop 2 _) with (dlq ++ put32 maxd). rewrite drop_app_length.
    rewrite <- (app_nil_r (put32 maxd)), get32_put32. by apply u32_small. }
  rewrite E16, Es, E32, Z.eqb_refl. destruct (Z.eqb_spec (zlen dlq) 0); [lia|]. done.
Qed.

(** ** Replaying the record of one change *)

Lemma find_message_Some q k i : find_message q k = Some i ->
  exists m, q_msgs q !! i = Some m /\ m_id m = k.
Proof.
  intros [(m & E & H) _]%position_Some. exists m. split; [done|]. by apply Z.eqb_eq.
Qed.

Lemma find_message_None q k : find_message q k = None -> k ∉ m_id <$> q_msgs q.
Proof.
  intros H (m & -> & Hm)%list_elem_of_fmap. pose proof (proj1 (position_None _ _) H m Hm) as E.
  simpl in E. by rewrite Z.eqb_refl in E.
Qed.

Section one_message.
Context (T : Z) (s s' r : store) (qid : Z) (q : queue) (f : queue -> queue) (rs : list record).
Context (k : Z) (g : queue -> nat -> queue) (h : list entry -> list entry).
Hypothesis (Hs : wf s) (L : live_at s qid q) (D : q_durable q = true).
Hypothesis (K : keeps_config f) (Kg : forall i, keeps_config (fun q => g q i)).
Hypothesis (E : evolve s s' (on_queue s qid f) rs).
Hypothesis (Hf : kept T (q_msgs (f q)) = h (kept T (q_msgs q))).
Hypothesis (Hg : forall rq i m, NoDup (m_id <$> q_msgs rq) -> q_msgs rq !! i = Some m ->
  m_id m = k -> kept T (q_msgs (g rq i)) = h (kept T (q_msgs rq))).
Hypothesis (Hi : forall n rq i, ids_ok n rq -> ids_ok n (g rq i)).
Hypothesis (Ha : forall es, k ∉ e_id <$> es -> h es = es).

(** A record that addresses a message by its identity has the effect on
    the replayed queue that the change had on the running one. *)
Lemma recovered_message : recovered T s r ->
  exists r', on_message r (q_name q) k g = Some r' /\ recovered T s' r'.
Proof.
  intros R. destruct (recovered_found T s r qid q Hs L D R) as (rq & F & Dr & V & I).
  unfold on_message. rewrite F. destruct (find_message rq k) as [i|] eqn:Ei.
  - destruct (find_message_Some _ _ _ Ei) as (m & Em & Hm). eexists. split; [done|].
    eapply (recovered_upd T s s' r _ qid q rq f (fun q => g q i));
      [done..|apply (Kg i)|exact E|apply upd_queue_evolve| | | |done].
    + pose proof (ev_id _ _ _ _ E). pose proof (rc_next _ _ _ R). simpl. lia.
    + rewrite (Hg rq i m), Hf by (done || apply I). f_equal. by apply view_kept.
    + by apply Hi.
  - eexists. split; [done|]. eapply recovered_silent; [done..|right|done].
    rewrite Hf. apply view_kept in V. rewrite <- V. apply Ha, kept_absent. by apply find_message_None.
Qed.
End one_message.

Lemma ids_ok_delete n q i : ids_ok n q -> ids_ok n (remove_message q i).
Proof.
  intros [H1 H2]. unfold ids_ok. rewrite remove_message_msgs. split; [|by apply Forall_delete].
  rewrite fmap_delete. by apply NoDup_delete.
Qed.

Lemma ids_ok_alter n q i f : (forall m, m_id (f m) = m_id m) -> ids_ok n q ->
  ids_ok n (update_msg q i f).
Proof.
  intros Hf [H1 H2]. unfold ids_ok. simpl. split; [by rewrite fmap_alter_id|].
  apply Forall_alter_all; [|done]. intros x. by rewrite Hf.
Qed.

(** Dispatches on durability: a transient queue logs nothing. *)
Lemma logged_recovered T s s' r qid q f op id aux data : sinv s -> live_at s qid q ->
  keeps_config f -> evolve s s' (on_queue s qid f) (logged q op id aux data) ->
  (q_durable q = true -> exists r', apply_queue_record r
     {| r_op := op; r_durable := true; r_name := q_name q; r_id := id; r_aux := aux;
        r_data := data |} = Some r' /\ recovered T s' r') ->
  recovered T s r ->
  exists r', replay_records r (logged q op id aux data) = Some r' /\ recovered T s' r'.
Proof.
  intros Hs L K E H R. unfold logged in *. destruct (q_durable q) eqn:D.
  - rewrite replay_one. auto.
  - exists r. split; [done|]. eapply recovered_silent; eauto using si_wf.
Qed.

Lemma remove_recovered T s s' r qid q i m : sinv s -> live_at s qid q -> q_msgs q !! i = Some m ->
  evolve s s' (on_queue s qid (fun q => remove_message q i)) (logged q LOG_ACK (m_id m) 0 []) ->
  recovered T s r ->
  exists r', replay_records r (logged q LOG_ACK (m_id m) 0 []) = Some r' /\ recovered T s' r'.
Proof.
  intros Hs L Em E R. pose proof (live_at_inv _ _ _ Hs L) as Hq.
  eapply logged_recovered; [exact Hs|exact L| |exact E| |exact R];
    [intros x; apply remove_message_config|].
  intros D. change (apply_queue_record r _) with (apply_ack r (q_name q) (m_id m)).
  eapply (recovered_message T s s' r qid q _ _ (m_id m) remove_message
    (filter (fun e => e_id e <> m_id m)));
    [by apply si_wf|exact L|done|intros x; apply remove_message_config|intros j x; apply remove_message_config
    |exact E| | | | |done].
  - cbv beta. rewrite remove_message_msgs. apply kept_delete; [apply Hq|done].
  - intros rq j m' Hn Em' <-. rewrite remove_message_msgs. by apply kept_delete.
  - intros n rq j. apply ids_ok_delete.
  - intros es. apply filter_absent.
Qed.

Lemma update_config q i f : config (update_msg q i f) = config q.
Proof. done. Qed.

Lemma deliver_entries q i dl o t h : exists g,
  q_msgs (set_hint (deliver_to true q i dl o t) h) = alter g i (q_msgs q) /\
  forall m, entry_of (g m) = redelivered (entry_of m).
Proof.
  destruct (deliver_to_msgs q i dl o t) as (g & [R1 R2 R3] & M & F). exists g.
  rewrite msgs_set_hint. split; [done|]. intros m. destruct (F m) as (_ & Hd & _).
  unfold entry_of, redelivered. simpl. by rewrite R1, R2, R3, Hd.
Qed.

Lemma deliver_recovered T s s' r qid q i m dl o t h : sinv s -> live_at s qid q ->
  q_msgs q !! i = Some m ->
  evolve s s' (on_queue s qid (fun q => set_hint (deliver_to true q i dl o t) (h q)))
    (logged q LOG_DELIVER (m_id m) 0 []) ->
  recovered T s r ->
  exists r', replay_records r (logged q LOG_DELIVER (m_id m) 0 []) = Some r' /\ recovered T s' r'.
Proof.
  intros Hs L Em E R. pose proof (live_at_inv _ _ _ Hs L) as Hq.
  eapply logged_recovered; [exact Hs|exact L| |exact E| |exact R];
    [intros x; apply deliver_set_config|].
  intros D. change (apply_queue_record r _) with (apply_delivery r (q_name q) (m_id m)).
  eapply (recovered_message T s s' r qid q _ _ (m_id m) _ (fmap (at_id (m_id m) redelivered)));
    [by apply si_wf|exact L|done|intros x; apply deliver_set_config|intros j x; apply update_config
    |exact E| | | | |done].
  - cbv beta. destruct (deliver_entries q i dl o t (h q)) as (g & -> & Hg).
    by apply kept_alter; [apply Hq| | |].
  - intros rq j m' Hn Em' <-. by apply kept_alter.
  - intros n rq j. by apply ids_ok_alter.
  - intros es. apply at_id_absent.
Qed.

Lemma ready_kept T q i nb : kept T (q_msgs (make_ready q i nb)) = kept T (q_msgs q).
Proof.
  destruct (make_ready_msgs q i nb) as (g & [R1 R2 R3] & -> & F). apply kept_retouch.
  intros x. unfold entry_of. destruct (F x) as (_ & -> & _). by rewrite R1, R2, R3.
Qed.

Lemma charge_kept T q i : kept T (q_msgs (charge_record q i)) = kept T (q_msgs q).
Proof.
  destruct (charge_record_msgs q i) as (g & [R1 R2 R3] & -> & F). apply kept_retouch.
  intros x. unfold entry_of. destruct (F x) as (_ & -> & _). by rewrite R1, R2, R3.
Qed.

Lemma requeue_recovered T s s' r qid q i m nb : sinv s -> live_at s qid q ->
  evolve s s' (on_queue s qid (fun q => charge_record (make_ready q i nb) i))
    (logged q LOG_REQUEUE (m_id m) nb []) ->
  recovered T s r ->
  exists r', replay_records r (logged q LOG_REQUEUE (m_id m) nb []) = Some r' /\ recovered T s' r'.
Proof.
  intros Hs L E R. assert (C : keeps_config (fun q => charge_record (make_ready q i nb) i)).
  { intros x. rewrite charge_record_config. apply make_ready_config. }
  eapply logged_recovered; [exact Hs|exact L|exact C|exact E| |exact R].
  intros D. change (apply_queue_record r _) with (apply_requeue r (q_name q) (m_id m) nb).
  eapply (recovered_message T s s' r qid q _ _ (m_id m) _ id);
    [by apply si_wf|exact L|done|exact C|intros j x; apply update_config|exact E| | | | |done].
  - cbv beta. by rewrite charge_kept, ready_kept.
  - intros rq j m' Hn Em' _. by apply kept_retouch.
  - intros n rq j. by apply ids_ok_alter.
  - done.
Qed.

Lemma linked_entry q m : entry_of (linked q m) = entry_of m.
Proof. unfold linked. by gcase. Qed.

Lemma bump_id_evolve r qs : st_next_id r <= qs -> fits 64 (qs + 1) ->
  quiet r (bump_id r qs) /\ st_next_id (bump_id r qs) = qs + 1.
Proof.
  intros H F. unfold bump_id. destruct (Z.leb_spec (st_next_id r) qs); [|lia].
  rewrite u64_small by done. split; [quiet_tac|done].
Qed.

(** A message linked on both sides under a new identity. *)
Lemma link_upd_recovered T s s' r qid q rq id e d rs : sinv s -> live_at s qid q ->
  q_durable q = true -> find_queue r (q_name q) = Some rq ->
  st_next_id s <= id -> id < st_next_id s' -> fits 64 (st_next_id s') ->
  let link := fun q => message_link q (message_create id e d) in
  evolve s s' (on_queue s qid link) rs -> recovered T s r ->
  recovered T s' (bump_id (upd_queue r (q_lock_id rq) link) id).
Proof.
  intros Hs L D F H1 H2 Hf link E R. pose proof (si_id _ Hs). pose proof (rc_next _ _ _ R).
  assert (K : keeps_config link) by (intros x; apply message_link_config).
  destruct (recovered_found T s r qid q (si_wf _ Hs) L D R) as (rq' & F' & Dr & V & I).
  rewrite F in F'. injection F' as <-. set (r1 := upd_queue r (q_lock_id rq) link).
  destruct (bump_id_evolve r1 id) as [Q N]; [simpl; lia|unfold fits in *; lia|].
  eapply (recovered_upd T s s' r _ qid q rq link link); try done; [by apply si_wf|..].
  - eapply (upd_evolve r r); [apply quiet_refl|exact Q].
  - lia.
  - unfold link. simpl. rewrite !kept_app, !linked_entry. f_equal. by apply view_kept.
  - rewrite N. destruct I as [I1 I2]. unfold link, ids_ok. simpl.
    assert (Eid : forall x, m_id (linked rq x) = m_id x) by (intros x; unfold linked; by gcase).
    split.
    + rewrite fmap_app. apply NoDup_app. split; [done|]. csimpl. rewrite Eid. simpl.
      split; [|apply NoDup_singleton]. intros x (m & -> & Hm)%list_elem_of_fmap.
      rewrite list_elem_of_singleton. rewrite Forall_forall in I2. specialize (I2 m Hm).
      simpl in *. lia.
    + apply Forall_app_2; [|constructor; [rewrite Eid; simpl; lia|constructor]].
      eapply Forall_impl; [exact I2|]. simpl. lia.
Qed.

Lemma link_recovered T s s' r qid q id e d : sinv s -> live_at s qid q ->
  st_next_id s <= id -> id < st_next_id s' -> fits 64 (st_next_id s') ->
  evolve s s' (on_queue s qid (fun q => message_link q (message_create id e d)))
    (logged q LOG_PUBLISH id e d) ->
  recovered T s r ->
  exists r', replay_records r (logged q LOG_PUBLISH id e d) = Some r' /\ recovered T s' r'.
Proof.
  intros Hs L H1 H2 Hf E R.
  eapply logged_recovered; [exact Hs|exact L|intros x; apply message_link_config|exact E| |exact R].
  intros D. change (apply_queue_record r _) with (apply_publish r (q_name q) id e d).
  destruct (recovered_found T s r qid q (si_wf _ Hs) L D R) as (rq & F & Dr & V & I).
  unfold apply_publish. rewrite F, Dr, append_message_upd by apply R.
  eexists. split; [done|]. by eapply link_upd_recovered.
Qed.

(** *** Transactions *)

Lemma recovered_bump T s r id : recovered T s r -> id < st_next_id s -> fits 64 (st_next_id s) ->
  0 <= id -> recovered T s (bump_id r id).
Proof.
  intros [] Hid Hf Hp. unfold bump_id. destruct (Z.leb_spec (st_next_id r) id); [|done].
  rewrite u64_small by (unfold fits in *; lia). constructor; try done; simpl; [|lia|].
  - destruct rc_wf0. by constructor.
  - intros name. eapply related_mono; [|apply rc_queues0]. lia.
Qed.

Lemma recovered_pend T s r tx : recovered T s r -> recovered T s (pend r tx).
Proof. intros []. constructor; try done. destruct rc_wf0. by constructor. Qed.

(** One message of a committed transaction, on the replayed store. *)
Definition replay_link (tx : queue_tx) (r : store) (t : tx_target) : store :=
  bump_id (materialize_one tx r (by_name t)) (t_msg_id t).

Lemma replay_link_recovered T tx s r t : sinv s -> planned s t -> t_msg_id t = st_next_id s ->
  fits 64 (st_next_id s + 1) -> recovered T s r ->
  recovered T (link_next tx s t) (replay_link tx r t).
Proof.
  intros Hs (qid & q & Eq & L & Nq & _) Ei Hf R. pose proof (si_id _ Hs) as Hpos.
  pose proof (link_next_evolve tx s t qid (si_allocs _ Hs) Eq Ei) as E.
  assert (En : st_next_id (link_next tx s t) = st_next_id s + 1) by (unfold link_next; simpl; lia).
  unfold replay_link, materialize_one. cbn [t_queue by_name t_name t_msg_id]. rewrite <- Nq.
  destruct (q_durable q) eqn:D.
  - destruct (recovered_found T s r qid q (si_wf _ Hs) L D R) as (rq & F & _). rewrite F. cbn [fmap option_fmap option_map].
    rewrite append_message_upd by apply R. cbn [snd].
    eapply (link_upd_recovered T s _ r qid q rq (t_msg_id t)); rewrite ?En; try done; lia.
  - assert (F : find_queue r (q_name q) = None).
    { pose proof (rc_queues _ _ _ R (q_name q)) as H. destruct (find_queue r (q_name q)) as [rq|]; [|done].
      destruct H as (q0 & F0 & D0 & _).
      rewrite (wf_find s q) in F0; [congruence|apply Hs|by eapply get_queue_In, L|apply L]. }
    rewrite F. cbn [fmap option_fmap option_map]. apply recovered_bump; rewrite ?En; [|lia|done|lia].
    eapply recovered_silent; [apply Hs|exact L|apply tx_link_config|exact E|by left|exact R].
Qed.

Lemma bump_materialize tx r t id :
  materialize_one tx (bump_id r id) t = bump_id (materialize_one tx r t) id.
Proof.
  unfold materialize_one, bump_id, append_message, alloc, find_queue.
  destruct (st_next_id r <=? id) eqn:E; cbn [st_queues];
    (destruct (t_queue t) as [qid|]; [|destruct (find _ _) as [q|]; cbn [fmap option_fmap option_map]]);
    cbn [st_allocs]; try destruct (draw (st_allocs r)) as [[] l]; cbn; by rewrite ?E.
Qed.

Lemma bump_ids_materialize tx ts t : forall r,
  materialize_one tx (bump_ids r ts) t = bump_ids (materialize_one tx r t) ts.
Proof.
  induction ts as [|u ts IH]; intros r; [done|]. unfold bump_ids in *. cbn [fold_left].
  by rewrite IH, bump_materialize.
Qed.

(** The replayed transaction is the sequence of its links. *)
Lemma replay_links tx ts : forall r,
  fold_left (materialize_one tx) (by_name <$> ts) (bump_ids r ts) = fold_left (replay_link tx) ts r.
Proof.
  induction ts as [|t ts IH]; intros r; [done|]. rewrite fmap_cons. cbn [fold_left].
  rewrite <- IH. f_equal. by rewrite bump_ids_materialize.
Qed.

Lemma materialize_replayed tx ts r :
  fold_left (materialize_one (replayed tx)) ts r = fold_left (materialize_one tx) ts r.
Proof. done. Qed.

Lemma numbered_bounds n ts : numbered n ts ->
  Forall (fun t => n <= t_msg_id t < n + zlen ts) ts.
Proof.
  revert n. induction ts as [|t ts IH]; intros n; [constructor|]. intros [E H]. rewrite zlen_cons.
  pose proof (zlen_nonneg ts). constructor; [lia|]. eapply Forall_impl; [by apply IH|]. cbn. lia.
Qed.

Lemma numbered_fit s s' tx : sinv s -> numbered (st_next_id s) (tx_targets tx) ->
  st_next_id s + zlen (tx_targets tx) <= st_next_id s' -> fits 64 (st_next_id s') ->
  ids_fit (tx_targets tx).
Proof.
  intros Hs Hn%numbered_bounds Hb Hf. pose proof (si_id _ Hs). eapply Forall_impl; [exact Hn|].
  cbn. unfold fits in *. lia.
Qed.

Lemma recovered_bumps T s ts : fits 64 (st_next_id s) -> forall r,
  Forall (fun t => 0 <= t_msg_id t < st_next_id s) ts -> recovered T s r ->
  recovered T s (bump_ids r ts).
Proof.
  intros Hf. induction ts as [|t ts IH]; intros r Hts R; [done|]. apply Forall_cons in Hts as [Ht Hts].
  unfold bump_ids in *. cbn [fold_left]. apply IH; [done|]. apply recovered_bump; [done|lia|done|lia].
Qed.

Lemma prepare_recovered T s s' r tx : sinv s -> tx_form tx ->
  numbered (st_next_id s) (tx_targets tx) -> st_next_id s + zlen (tx_targets tx) <= st_next_id s' ->
  fits 64 (st_next_id s') -> evolve s s' (st_queues s) [prepare_record tx] -> recovered T s r ->
  replay_records r [prepare_record tx] = Some (pend (bump_ids r (tx_targets tx)) (replayed tx)) /\
  recovered T s' (pend (bump_ids r (tx_targets tx)) (replayed tx)).
Proof.
  intros Hs Hf Hn Hb Hfit E R. pose proof (si_id _ Hs). split.
  { rewrite replay_one. apply prepare_replays; [done|by eapply numbered_fit|apply R]. }
  apply recovered_pend, recovered_bumps; [done| |by eapply recovered_frame].
  eapply Forall_impl; [by apply numbered_bounds|]. cbn. lia.
Qed.

(** The messages of a transaction on both sides. *)
Lemma transact_links T s r tx : sinv s -> tx_form tx -> numbered (st_next_id s) (tx_targets tx) ->
  Forall (planned s) (tx_targets tx) -> NoDup (t_queue <$> tx_targets tx) ->
  fits 64 (st_next_id s + zlen (tx_targets tx)) -> recovered T s r ->
  recovered T (fold_left (link_next tx) (tx_targets tx) s)
    (tx_materialize_locked (bump_ids r (tx_targets tx)) (replayed tx)).
Proof.
  intros Hs [] Hn Hp Hd Hfit R. unfold tx_materialize_locked. cbn [replayed tx_targets].
  rewrite materialize_replayed, replay_links.
  destruct (link_all tx tf_data0 tf_expires0 (fun s1 ts1 => exists done,
      tx_targets tx = done ++ ts1 /\ st_next_id s1 = st_next_id s + zlen done /\
      recovered T s1 (fold_left (replay_link tx) done r))) with (ts := tx_targets tx) (s := s)
    as (_ & _ & (dn & Ed & _ & H)); try done.
  - intros s1 t ts1 Hs1 Hp1 Ei (dn & Ed & En & H). exists (dn ++ [t]).
    rewrite fold_left_app, zlen_app, <- app_assoc. split; [done|]. split.
    { change (st_next_id (link_next tx s1 t)) with (t_msg_id t + 1). rewrite zlen_cons, zlen_nil. lia. }
    cbn [fold_left]. apply replay_link_recovered; try done. rewrite En. rewrite Ed, zlen_app, zlen_cons in Hfit.
    pose proof (zlen_nonneg ts1). pose proof (zlen_nonneg dn). pose proof (si_id _ Hs). unfold fits in *. lia.
  - exists []. split; [done|]. split; [rewrite zlen_nil; lia|done].
  - rewrite app_nil_r in Ed. by subst dn.
Qed.

(** A store whose queues are those of the links. *)
Lemma recovered_linked T tx s s' r rs : sinv s -> Forall (planned s) (tx_targets tx) ->
  evolve s s' (st_queues (tx_materialize_locked s tx)) rs ->
  st_next_id (fold_left (link_next tx) (tx_targets tx) s) <= st_next_id s' ->
  recovered T (fold_left (link_next tx) (tx_targets tx) s) r -> recovered T s' r.
Proof.
  intros Hs Hp [E1 E2 E3 E4 _ _ _ _ _ _ _] Hid [].
  assert (Hq : forall t, t ∈ tx_targets tx -> t_queue t <> None) by (intros t; by apply (planned_queue s)).
  destruct (link_frame tx (tx_targets tx) s (si_allocs _ Hs) Hq) as [S1 S2 S3 _ _ _ _].
  unfold tx_materialize_locked in E1. rewrite <- (link_fold tx (tx_targets tx) s s) in E1 by (done || apply Hs).
  constructor; try done; [lia| |rewrite E4, E3, <- S2, <- S3; done|congruence].
  intros name. unfold find_queue at 1. rewrite E1. apply rc_queues0.
Qed.

Lemma transact_recovered T s s' r tx : sinv s -> tx_form tx ->
  numbered (st_next_id s) (tx_targets tx) -> st_next_id s + zlen (tx_targets tx) <= st_next_id s' ->
  Forall (planned s) (tx_targets tx) -> NoDup (t_queue <$> tx_targets tx) ->
  fits 64 (st_next_id s') ->
  evolve s s' (st_queues (tx_materialize_locked s tx)) [prepare_record tx; commit_record tx] ->
  recovered T s r ->
  exists r', replay_records r [prepare_record tx; commit_record tx] = Some r' /\ recovered T s' r'.
Proof.
  intros Hs Hf Hn Hb Hp Hd Hfit E R. exists (tx_materialize_locked (bump_ids r (tx_targets tx)) (replayed tx)).
  cbn [replay_records]. rewrite prepare_replays by (done || apply R || by eapply numbered_fit).
  rewrite commit_replays_head by apply Hf. split; [done|].
  pose proof (zlen_nonneg (tx_targets tx)). pose proof (si_id _ Hs).
  eapply recovered_linked; [exact Hs|exact Hp|exact E| |].
  - destruct Hf. destruct (link_all tx tf_data0 tf_expires0 (fun _ _ => True) ltac:(done) (tx_targets tx) s)
      as (_ & -> & _); done.
  - apply transact_links; try done. unfold fits in *. lia.
Qed.

Lemma purge_recovered T s s' r qid q : sinv s -> live_at s qid q ->
  evolve s s' (on_queue s qid (fun q => snd (purge_queue_locked q)))
    (logged q LOG_PURGE (q_depth q) 0 []) ->
  recovered T s r ->
  exists r', replay_records r (logged q LOG_PURGE (q_depth q) 0 []) = Some r' /\ recovered T s' r'.
Proof.
  intros Hs L E R. set (f := fun q => snd (purge_queue_locked q)) in *.
  assert (K : keeps_config f) by (intros x; apply purge_config).
  eapply logged_recovered; [exact Hs|exact L|exact K|exact E| |exact R].
  intros D. change (apply_queue_record r _) with (apply_purge r (q_name q)).
  destruct (recovered_found T s r qid q (si_wf _ Hs) L D R) as (rq & F & Dr & V & I).
  unfold apply_purge. rewrite F. eexists. split; [done|].
  eapply (recovered_upd T s s' r _ qid q rq f f); try done; [by apply si_wf|..].
  - apply upd_queue_evolve.
  - pose proof (ev_id _ _ _ _ E). pose proof (rc_next _ _ _ R). simpl. lia.
  - unfold f. by rewrite !purge_msgs.
  - unfold ids_ok, f. rewrite purge_msgs. split; constructor.
Qed.

Lemma find_on_tombstone s s' qid q name : wf s -> live_at s qid q ->
  st_queues s' = on_queue s qid tombstone ->
  find_queue s' name = if decide (name = q_name q) then None else find_queue s name.
Proof.
  intros W [G D] E. rewrite <- (find_tombstone s qid q name) by done.
  unfold find_queue. by rewrite E.
Qed.

Lemma delete_recovered T s s' r qid q : sinv s -> live_at s qid q ->
  evolve s s' (on_queue s qid tombstone) (logged q LOG_DELETE (q_depth q) 0 []) ->
  recovered T s r ->
  exists r', replay_records r (logged q LOG_DELETE (q_depth q) 0 []) = Some r' /\ recovered T s' r'.
Proof.
  intros Hs L E R. pose proof (rc_wf _ _ _ R) as W. pose proof (rc_next _ _ _ R).
  pose proof (ev_id _ _ _ _ E).
  assert (F : forall name, find_queue s' name
    = if decide (name = q_name q) then None else find_queue s name).
  { intros name. apply (find_on_tombstone s s' qid); [apply Hs|done|apply (ev_queues _ _ _ _ E)]. }
  assert (Cs : st_log_open s' = true -> st_consumers r = st_consumers s').
  { rewrite (ev_open _ _ _ _ E), (ev_consumers _ _ _ _ E). apply R. }
  assert (Xs : st_exchanges r = durable_view (st_exchanges s')).
  { rewrite (ev_exchanges _ _ _ _ E). apply R. }
  unfold logged. destruct (q_durable q) eqn:D.
  - destruct (recovered_found T s r qid q (si_wf _ Hs) L D R) as (rq & Fr & Dr & V & I).
    rewrite replay_one. change (apply_queue_record r _) with (apply_delete r (q_name q)).
    unfold apply_delete. rewrite Fr. eexists. split; [done|].
    pose proof (find_queue_In _ _ _ Fr) as (_ & _ & Nr).
    constructor; [by apply tombstone_wf|apply R|simpl; lia| |done|done].
    intros name. rewrite F, (find_tombstone r _ rq name); [|done|by eapply find_get|by eapply find_live].
    rewrite Nr. case_decide; [done|]. apply R.
  - exists r. split; [done|]. constructor; [done|apply R|lia| |done|done].
    intros name. rewrite F. case_decide as Hn; [|apply R].
    destruct (find_queue r name) as [rq|] eqn:Fr; [|done].
    pose proof (rc_queues _ _ _ R name) as HR. rewrite Fr in HR. destruct HR as (q0 & F0 & D0 & _).
    rewrite Hn, (wf_find s q) in F0; [congruence|apply Hs|by eapply get_queue_In, L|apply L].
Qed.

Lemma create_recovered T s s' r name (durable : bool) max dlq maxd lid inc : sinv s ->
  find_queue s name = None -> name_ok name ->
  (dlq = [] /\ maxd = 0 \/ name_ok dlq /\ dlq <> name) -> fits 32 maxd ->
  let rs := if durable then [{| r_op := LOG_DECLARE; r_durable := true; r_name := name;
              r_id := 0; r_aux := max; r_data := dlq_ext dlq maxd |}] else [] in
  evolve s s' (new_queue lid inc name durable max dlq maxd :: st_queues s) rs ->
  recovered T s r -> exists r', replay_records r rs = Some r' /\ recovered T s' r'.
Proof.
  intros Hs Fs Hn Hd Hf rs E R. pose proof (rc_wf _ _ _ R) as W. pose proof (rc_next _ _ _ R).
  pose proof (ev_id _ _ _ _ E).
  assert (Fr : find_queue r name = None).
  { pose proof (rc_queues _ _ _ R name) as HR. rewrite Fs in HR.
    destruct (find_queue r name); [|done]. by destruct HR as (? & ? & _). }
  assert (Cs : st_log_open s' = true -> st_consumers r = st_consumers s').
  { rewrite (ev_open _ _ _ _ E), (ev_consumers _ _ _ _ E). apply R. }
  assert (Xs : st_exchanges r = durable_view (st_exchanges s')).
  { rewrite (ev_exchanges _ _ _ _ E). apply R. }
  unfold rs. destruct durable.
  - rewrite replay_one.
    change (apply_queue_record r _) with (apply_declare r name true max (dlq_ext dlq maxd)).
    unfold apply_declare. rewrite parse_dlq_ext, Fr by (done || tauto).
    assert (Hne : negb (zlen dlq =? 0) && name_eqb dlq name = false).
    { destruct Hd as [[-> _]|[_ Hne]]; [done|]. unfold name_eqb.
      rewrite bool_decide_eq_false_2, andb_false_r by done. done. }
    rewrite Hne, create_queue_some by apply R. eexists. split; [done|].
    set (nr := new_queue (st_next_lock_id r + 1) (st_next_incarnation r + 1) name true max dlq maxd).
    match goal with |- recovered T s' ?x => set (r' := x) end.
    assert (Er : st_queues r' = nr :: st_queues r) by done.
    constructor; simpl; [|apply R|lia| |done|done].
    + by apply (create_wf r nr W).
    + intros name'. rewrite (find_create s _ name' s' (ev_queues _ _ _ _ E) eq_refl),
        (find_create r nr name' r' Er eq_refl). simpl.
      case_decide; [|apply R]. eexists. split; [done|]. split; [done|]. split; [done|].
      split; [done|]. split; constructor.
  - exists r. split; [done|]. constructor; [done|apply R|lia| |done|done].
    intros name'. rewrite (find_create s _ name' s' (ev_queues _ _ _ _ E) eq_refl). simpl.
    case_decide as Hc; [|apply R]. rewrite Hc, Fr. by intros q [= <-].
Qed.

(** A change of the consumers. *)
Lemma consumers_recovered T s s' r r' cs rs :
  evolve {| s with st_consumers := cs |} s' (st_queues s) rs ->
  st_queues r' = st_queues r /\ st_allocs r' = st_allocs r /\
    st_next_lock_id r' = st_next_lock_id r /\ st_exchanges r' = st_exchanges r ->
  st_next_id r' = st_next_id r ->
  (st_log_open s = true -> st_consumers r' = cs) ->
  recovered T s r -> recovered T s' r'.
Proof.
  intros [] (Q1 & Q2 & Q3 & Q4) Hn Hc []. simpl in *. constructor.
  - by eapply wf_same; [exact Q1|lia|].
  - congruence.
  - lia.
  - intros name. unfold find_queue. rewrite ev_queues0, Q1, Hn. apply rc_queues0.
  - by rewrite ev_open0, ev_consumers0.
  - by rewrite ev_exchanges0, Q4.
Qed.

Lemma register_recovered T s s' r name owner : find_consumer s name = None ->
  evolve {| s with st_consumers := {| c_name := name; c_owner := owner |} :: st_consumers s |}
    s' (st_queues s) (consumer_logged s LOG_CONSUMER name owner) ->
  recovered T s r ->
  exists r', replay_records r (consumer_logged s LOG_CONSUMER name owner) = Some r' /\
    recovered T s' r'.
Proof.
  intros F E R. unfold consumer_logged at 1.
  destruct (Bool.bool_dec (st_log_open s) true) as [Eo|Eo%not_true_is_false]; rewrite Eo.
  - rewrite replay_one. change (apply_queue_record r _) with (apply_consumer r name owner).
    unfold apply_consumer. assert (Fr : find_consumer r name = None).
    { unfold find_consumer. by rewrite (rc_consumers _ _ _ R Eo). }
    rewrite Fr, alloc_nil by apply R. eexists. split; [done|].
    eapply (consumers_recovered T s s' r); [exact E| | | |exact R]; simpl.
    + by destruct (st_next_owner r <=? owner).
    + by destruct (st_next_owner r <=? owner).
    + intros _. rewrite <- (rc_consumers _ _ _ R Eo). by destruct (st_next_owner r <=? owner).
  - exists r. split; [done|]. eapply (consumers_recovered T s s' r); [exact E| |done| |exact R].
    + done.
    + congruence.
Qed.

Lemma unregister_recovered T s s' r name :
  evolve {| s with st_consumers := remove_consumer name (st_consumers s) |}
    s' (st_queues s) (consumer_logged s LOG_CONSUMER_DEL name 0) ->
  recovered T s r ->
  exists r', replay_records r (consumer_logged s LOG_CONSUMER_DEL name 0) = Some r' /\
    recovered T s' r'.
Proof.
  intros E R. unfold consumer_logged at 1.
  destruct (Bool.bool_dec (st_log_open s) true) as [Eo|Eo%not_true_is_false]; rewrite Eo.
  - rewrite replay_one. change (apply_queue_record r _) with (apply_consumer_del r name).
    eexists. split; [done|]. eapply (consumers_recovered T s s' r); [exact E| |done| |exact R]; simpl.
    + done.
    + intros _. by rewrite (rc_consumers _ _ _ R Eo).
  - exists r. split; [done|]. eapply (consumers_recovered T s s' r); [exact E| |done| |exact R].
    + done.
    + congruence.
Qed.

(** A change of the exchanges. *)
Lemma exchange_recovered T s s' r xs rs : sinv s -> xchange (st_exchanges s) xs rs ->
  evolve {| s with st_exchanges := xs |} s' (st_queues s) rs -> recovered T s r ->
  exists r', replay_records r rs = Some r' /\ recovered T s' r'.
Proof.
  intros Hs C [] R.
  destruct (xchange_replays _ _ _ (si_exchanges _ Hs) C r (rc_exchanges _ _ _ R) (rc_allocs _ _ _ R))
    as (r' & Hr & Hx & Q1 & Q2 & Q3 & Q4 & Q5). exists r'. split; [done|]. destruct R. simpl in *.
  constructor.
  - by eapply wf_same; [exact Q1|lia|].
  - congruence.
  - lia.
  - intros name. unfold find_queue. rewrite ev_queues0, Q1, Q4. apply rc_queues0.
  - by rewrite ev_open0, ev_consumers0, Q5.
  - by rewrite Hx, ev_exchanges0.
Qed.

(** ** Every commit *)

Definition loggable (r : record) : Prop := record_ok r /\ job_record (r_op r) = false.

Lemma logged_ok q op id aux data : (q_durable q = true -> loggable
    {| r_op := op; r_durable := true; r_name := q_name q; r_id := id; r_aux := aux;
       r_data := data |}) -> Forall loggable (logged q op id aux data).
Proof. intros H. unfold logged. destruct (q_durable q); [|constructor]. constructor; [auto|constructor]. Qed.

Lemma plain_logged_ok s qid q op id aux : sinv s -> live_at s qid q -> plain_op op = true ->
  fits 64 id -> fits 64 aux -> Forall loggable (logged q op id aux []).
Proof.
  intros Hs L Hop Hi Ha. apply logged_ok. intros _. apply plain_record_ok; try done.
  apply (live_at_inv _ _ _ Hs L).
Qed.

Lemma id_fits s qid q i m : sinv s -> live_at s qid q -> q_msgs q !! i = Some m ->
  fits 64 (st_next_id s) -> fits 64 (m_id m).
Proof.
  intros Hs L E F. pose proof (qi_id_lt _ _ _ (live_at_inv _ _ _ Hs L)) as H.
  rewrite Forall_forall in H. specialize (H m (list_elem_of_lookup_2 _ _ _ E)).
  unfold fits in *. lia.
Qed.

Lemma find_on_gone s s' qid q f name : wf s -> get_queue s qid = Some q -> q_deleted q = true ->
  keeps_config f -> st_queues s' = on_queue s qid f -> find_queue s' name = find_queue s name.
Proof.
  intros W G D K E. unfold find_queue at 1. rewrite E. unfold on_queue. rewrite find_map_upd.
  - change (find _ (st_queues s)) with (find_queue s name).
    destruct (find_queue s name) as [q'|] eqn:F; [|done]. simpl. f_equal.
    destruct (Z.eqb_spec (q_lock_id q') qid) as [E'|]; [|done].
    pose proof (find_get _ _ _ W F) as G'. rewrite E', G in G'.
    apply find_queue_In in F as (_ & F & _). congruence.
  - apply W.
  - intros x _ _. destruct (config_inv _ _ (K x)) as (_ & -> & _ & -> & _). done.
Qed.

Lemma ready_recovered T s s' r qid q i : sinv s -> get_queue s qid = Some q ->
  evolve s s' (on_queue s qid (fun q => make_ready q i 0)) [] ->
  recovered T s r -> recovered T s' r.
Proof.
  intros Hs G E R. assert (K : keeps_config (fun q => make_ready q i 0))
    by (intros x; apply make_ready_config).
  destruct (q_deleted q) eqn:D.
  - destruct R. constructor; try done.
    + pose proof (ev_id _ _ _ _ E). lia.
    + intros name. rewrite (find_on_gone s s' qid q (fun q => make_ready q i 0) name); [done|apply Hs|done|done|exact K|].
      apply (ev_queues _ _ _ _ E).
    + rewrite (ev_open _ _ _ _ E), (ev_consumers _ _ _ _ E). done.
    + by rewrite (ev_exchanges _ _ _ _ E).
  - eapply recovered_silent; [apply si_wf; done|by split|exact K|exact E| |exact R]. right. apply ready_kept.
Qed.

Lemma xlogged_ok x op aux payload : loggable {| r_op := op; r_durable := true; r_name := x_name x;
    r_id := 0; r_aux := aux; r_data := payload |} -> Forall loggable (xlogged x op aux payload).
Proof. intros H. unfold xlogged. destruct (x_durable x); repeat constructor; apply H. Qed.

Lemma xchange_loggable xs xs' rs : xs_ok xs -> xchange xs xs' rs -> Forall loggable rs.
Proof.
  intros Hok C. destruct C as [|name durable type ae Hn Ht Ha F|name x queue key F Hr Hq Hk Hb
    |name x queue key b F Hr Hq Hk Hb|name x ae F Hr Ha Hne|name x F]; [constructor|..];
    try (destruct (found_inv _ _ _ Hok F) as [[Hx Hrev] En]);
    try (destruct Hr as [_ Hr]; assert (Hf : fits 64 (x_revision x + 1)) by (unfold fits; lia));
    apply xlogged_ok.
  - destruct (exdeclare_payload_ok type ae Ha). apply exchange_record_ok; try done. auto.
  - destruct (binding_payload_ok queue key Hq Hk). apply exchange_record_ok; try done. auto.
  - destruct (binding_payload_ok queue key Hq Hk). apply exchange_record_ok; try done. auto.
  - destruct Ha as [Ha La]. unfold QUEUE_NAME_MAX in La. apply exchange_record_ok; try done; [auto| |].
    + by apply Forall_app_2; [apply put16_bytes|].
    + rewrite zlen_app, put16_zlen. lia.
  - apply exchange_record_ok; try done; [auto 10|constructor].
Qed.

Lemma tx_payload_bytes tx : tx_form tx -> bytes_ok (tx_payload tx).
Proof.
  intros [_ _ _ [Hd _] _ _ Ht _]. unfold tx_payload, bytes_ok.
  repeat apply Forall_app_2; try apply put64_bytes; try apply put32_bytes; try apply put16_bytes; [|done].
  induction Ht as [|t ts [Hb _] _ IH]; [constructor|]. rewrite fmap_cons. cbn [concat].
  apply Forall_app_2; [|done]. unfold target_bytes.
  repeat apply Forall_app_2; [apply put16_bytes|done|apply put64_bytes].
Qed.

Lemma tx_records_ok tx : tx_form tx -> loggable (prepare_record tx) /\ loggable (commit_record tx).
Proof.
  intros Hf. pose proof (tx_payload_bytes tx Hf) as Hp. destruct Hf as [_ _ [Hs Ls] _ _ _ _ Hz].
  split; (split; [|done]); split_and!; try done; try apply put64_bytes; unfold bad_shape; cbn [r_op r_name r_data r_id
    prepare_record commit_record]; try (unfold fits; cbn; lia).
  destruct (Z.eqb_spec (zlen (tx_source tx)) 0); [lia|].
  destruct (Z.ltb_spec QUEUE_NAME_MAX (zlen (tx_source tx))); [lia|].
  destruct (Z.ltb_spec QUEUE_MESSAGE_MAX (zlen (tx_payload tx))); [lia|]. done.
Qed.

(** What replaying the records of a commit does. *)
Definition replays (T : Z) (s s' : store) : Prop := exists rs,
  (st_failed s' = true \/ (st_failed s = false /\ st_log s' = st_log s ++ rs)) /\
  Forall loggable rs /\
  forall r, recovered T s r -> exists r', replay_records r rs = Some r' /\ recovered T s' r'.

(** A commit without a record. *)
Lemma replays_nil T s s' qs : evolve s s' qs [] ->
  (forall r, recovered T s r -> recovered T s' r) -> replays T s s'.
Proof.
  intros E H. exists []. split; [apply (ev_log _ _ _ _ E)|]. split; [constructor|].
  intros r R. exists r. auto.
Qed.

Lemma commit_replays T del s s' : commit T del s s' -> sinv s -> fits 64 (st_next_id s') ->
  replays T s s'.
Proof.
  intros C Hs Hf.
  destruct C as [E|qid q id e d L ? ? ? ? ? E|qid q i m L ? E|qid q i m L ? Hx E
    |qid q i m L ? ? E|qid q i m nb L Em ? ? E|qid q i m dl o tag h L ? ? ? ? ? E
    |qid q h L Hh E|qid q d L ? E|qid q L E|qid q ? L E
    |name durable max dlq maxd inc ? ? Hd ? ? ? E|name o ? ? ? E|name ? E|xs rs X E
    |tx ? Hfm Hn Hb E|tx ? Hfm Hn Hb Hp Hd E];
  try (pose proof (ev_id _ _ _ _ E); pose proof (si_id _ Hs);
       assert (Hfs : fits 64 (st_next_id s)) by (unfold fits in *; simpl in *; lia)).
  - eapply replays_nil; [exact E|]. intros r. by eapply recovered_frame.
  - eexists. split; [apply (ev_log _ _ _ _ E)|]. split; [|intros r; by eapply link_recovered].
    apply logged_ok. intros _. apply publish_record_ok; try done.
    + apply (live_at_inv _ _ _ Hs L).
    + unfold fits in *. lia.
  - eexists. split; [apply (ev_log _ _ _ _ E)|]. split; [|intros r; by eapply remove_recovered].
    eapply plain_logged_ok; eauto using id_fits. done.
  - eapply replays_nil; [exact E|]. intros r.
    eapply recovered_silent; [apply si_wf; done|exact L| |exact E|]; [intros x; apply remove_message_config|].
    right. rewrite remove_message_msgs. by eapply kept_expired.
  - eapply replays_nil; [exact E|]. intros r. by eapply ready_recovered.
  - eexists. split; [apply (ev_log _ _ _ _ E)|]. split; [|intros r; by eapply requeue_recovered].
    eapply plain_logged_ok; eauto using id_fits.
  - eexists. split; [apply (ev_log _ _ _ _ E)|]. split; [|intros r; by eapply deliver_recovered].
    eapply plain_logged_ok; eauto using id_fits. done.
  - eapply replays_nil; [exact E|]. intros r.
    eapply recovered_silent; [apply si_wf; done|exact L| |exact E|]; [intros x; apply set_hint_config|]. by right.
  - eapply replays_nil; [exact E|]. intros r.
    eapply recovered_silent; [apply si_wf; done|exact L| |exact E|]; [intros x; apply earliest_config|]. by right.
  - eexists. split; [apply (ev_log _ _ _ _ E)|]. split; [|intros r; by eapply purge_recovered].
    eapply plain_logged_ok; eauto; [|done]. eapply depth_fits; [by eapply live_at_inv|done].
  - eexists. split; [apply (ev_log _ _ _ _ E)|]. split; [|intros r; by eapply delete_recovered].
    eapply plain_logged_ok; eauto; [|done]. eapply depth_fits; [by eapply live_at_inv|done].
  - eexists. split; [apply (ev_log _ _ _ _ E)|]. split; [|intros r; by eapply create_recovered].
    destruct durable; [|constructor]. constructor; [|constructor]. apply declare_record_ok; tauto.
  - eexists. split; [apply (ev_log _ _ _ _ E)|]. split; [|intros r; by eapply register_recovered].
    unfold consumer_logged. destruct (st_log_open s); [|constructor].
    constructor; [|constructor]. by apply consumer_record_ok.
  - eexists. split; [apply (ev_log _ _ _ _ E)|]. split; [|intros r; by eapply unregister_recovered].
    unfold consumer_logged. destruct (st_log_open s); [|constructor].
    constructor; [|constructor]. by apply consumer_del_record_ok.
  - exists rs. split; [apply (ev_log _ _ _ _ E)|]. split; [|intros r; by eapply exchange_recovered].
    eapply xchange_loggable; [apply Hs|done].
  - destruct (tx_records_ok tx Hfm). eexists. split; [apply (ev_log _ _ _ _ E)|].
    split; [by apply Forall_cons_2; [|apply Forall_nil_2]|].
    intros r R. eexists. by eapply prepare_recovered.
  - destruct (tx_records_ok tx Hfm). eexists. split; [apply (ev_log _ _ _ _ E)|].
    split; [by apply Forall_cons_2; [|apply Forall_cons_2; [|apply Forall_nil_2]]|].
    intros r. by eapply transact_recovered.
Qed.

End Recovery.
