(* ===== verification/QueueOpen.v ===== *)
(** * Opening the queue store (queue.c: replay_log, queue_store_open_ex)

    Theorems about replay_log on the bytes of a log file: it terminates, it
    never cuts a file before an intact record, it cuts torn and zero-filled
    tails exactly, and on the log of a run it rebuilds the durable state.

    Then, in [TxPending]: transactions found by replay. *)

From stdpp Require Import base numbers option list relations.
From S2P Require Import Prelude Queue QueueIndex WalRecord QueueStore QueueReplay Exchange QueueTx.
From S2P Require Import ExchangeReplay QueueBatch QueueCommit QueueOps ExchangeOps TxOps QueueRun.
From S2P Require Import QueueRecovery.
Import Queue QueueIndex Wal Store Replay Batch XChange Tx XReplay TxReplay Commit Ops XOps TxOps Run Recovery.

Module Open.

(** ** Runs are recoverable *)

Lemma replay_records_app s rs1 rs2 : replay_records s (rs1 ++ rs2) =
  match replay_records s rs1 with Some s1 => replay_records s1 rs2 | None => None end.
Proof. revert s. induction rs1 as [|r rs IH]; intros s; simpl; [done|]. by gcase. Qed.

(** The log replays to a store that recovers [s], unless logging has failed. *)
Definition recoverable (T : Z) (job : bool) (s : store) : Prop :=
  st_failed s = false -> Forall loggable (st_log s) /\
  exists r, replay_records (empty_store job true [] [] []) (st_log s) = Some r /\ recovered T s r.

Lemma commit_recoverable T del job s s' : commit T del s s' -> sinv s ->
  fits 64 (st_next_id s') -> recoverable T job s -> recoverable T job s'.
Proof.
  intros C Hs Hf H F. destruct (commit_replays _ _ _ _ C Hs Hf) as (rs & [|[F' ->]] & Hrs & Hr);
    [congruence|]. destruct (H F') as (Hl & r & E & R). destruct (Hr r R) as (r' & E' & R').
  split; [by apply Forall_app_2|]. exists r'. split; [|done]. by rewrite replay_records_app, E.
Qed.

Lemma commits_recoverable T del job s s' : rtc (commit T del) s s' -> sinv s ->
  fits 64 (st_next_id s') -> recoverable T job s -> recoverable T job s'.
Proof.
  induction 1 as [|a b c C Cs IH]; intros Hs Hf H; [done|].
  pose proof (commits_ids _ _ _ _ Cs). pose proof (commit_sinv _ _ _ _ C Hs) as Hb.
  apply IH; [done|done|]. eapply commit_recoverable; eauto.
  pose proof (si_id _ Hb). unfold fits in *. lia.
Qed.

Lemma open_recoverable T job j ios locks : recoverable T job (open_store j ios locks).
Proof.
  intros _. split; [constructor|]. eexists. split; [done|].
  constructor; simpl; try done. constructor; unfold lock_ids, live_queues; simpl; constructor.
Qed.

Lemma step_next_id T s s' : step T s s' -> inv s -> xrooms s -> st_next_id s <= st_next_id s'.
Proof. intros [c Hc] I X. eapply commits_ids. by apply call_commits. Qed.

Lemma steps_next_id T s s' : rtc (step T) s s' -> inv s -> xrooms s -> st_next_id s <= st_next_id s'.
Proof.
  induction 1 as [|a b c C _ IH]; intros I X; [lia|].
  pose proof (step_next_id _ _ _ C I X). destruct (step_inv _ _ _ C I X) as [Ib Xb].
  specialize (IH Ib Xb). lia.
Qed.

Lemma steps_recoverable T job s s' : rtc (step T) s s' -> inv s -> xrooms s ->
  fits 64 (st_next_id s') -> recoverable T job s -> recoverable T job s'.
Proof.
  induction 1 as [|a b c C Cs IH]; intros I X Hf H; [done|].
  destruct (step_inv _ _ _ C I X) as [Ib Xb]. pose proof (steps_next_id _ _ _ Cs Ib Xb).
  apply IH; [done..|]. destruct C as [c' Hc].
  eapply commits_recoverable; [by eapply call_commits|apply I| |done].
  pose proof (si_id _ (proj1 Ib)). unfold fits in *. lia.
Qed.

Lemma reachable_recoverable T job s : reachable T s -> fits 64 (st_next_id s) ->
  recoverable T job s.
Proof.
  intros (j & ios & locks & R) Hf.
  eapply steps_recoverable; [exact R|apply open_inv|apply open_inv|done|apply open_recoverable].
Qed.

(** ** Replay draws no failing allocation when none is scheduled *)

Lemma append_message_allocs s qid id e d : st_allocs s = [] ->
  st_allocs (snd (append_message s qid id e d)) = [].
Proof. intros A. by rewrite append_message_upd. Qed.

Lemma bump_id_allocs s id : st_allocs (bump_id s id) = st_allocs s.
Proof. unfold bump_id. by gcase. Qed.

Lemma materialize_allocs ts tx s : st_allocs s = [] ->
  st_allocs (fold_left (materialize_one tx) ts s) = [].
Proof.
  revert s. induction ts as [|t ts IH]; intros s A; simpl; [done|]. apply IH.
  unfold materialize_one. gcase; [by apply append_message_allocs|done].
Qed.

Lemma bumps_allocs (ts : list tx_target) s :
  st_allocs (fold_left (fun s t => bump_id s (t_msg_id t)) ts s) = st_allocs s.
Proof. revert s. induction ts as [|t ts IH]; intros s; simpl; [done|]. by rewrite IH, bump_id_allocs. Qed.

(** Splits the tests of a replay function and reads the resulting store. *)
Ltac replay_cases A :=
  repeat (first [rewrite alloc_nil by exact A | rewrite create_queue_some by exact A
                | rewrite append_message_upd by exact A | gcase]; simpl);
  intros; simplify_eq/=; try exact A.

Lemma apply_record_allocs s r s' : st_allocs s = [] -> apply_queue_record s r = Some s' ->
  st_allocs s' = [].
Proof.
  intros A. unfold apply_queue_record.
  repeat match goal with |- (if ?b then _ else _) = _ -> _ => destruct b end;
    unfold apply_declare, apply_publish, apply_ack, apply_delivery, apply_requeue, on_message,
      apply_purge, apply_delete, apply_exdeclare, create_exchange, apply_exbind,
      add_binding_locked, apply_exdelete, apply_exupdate, apply_tx_prepare, apply_consumer,
      apply_consumer_del, apply_tx_commit; replay_cases A.
  - by rewrite bump_id_allocs.
  - match goal with H : _ = (true, _) |- _ => revert H end. replay_cases A.
  - by rewrite bumps_allocs.
  - by apply materialize_allocs.
Qed.

Lemma replay_records_allocs rs s s' : st_allocs s = [] -> replay_records s rs = Some s' ->
  st_allocs s' = [].
Proof.
  revert s. induction rs as [|r rs IH]; intros s A; simpl; [by intros [= <-]|].
  destruct (apply_queue_record s r) as [s1|] eqn:E; [|done].
  apply IH. by eapply apply_record_allocs.
Qed.

Section Jobs.
Context {J : Type} (h : job_hooks J).

(** Well-formed records of the queue engine are read back and applied, one
    round each. *)
Lemma replay_log_records rs : forall fuel s e good rest s', st_allocs s = [] ->
  Forall loggable rs -> replay_records s rs = Some s' ->
  replay_log h (length rs + fuel) s e good (encode_all rs ++ rest)
  = replay_log h fuel s' e (good + zlen (encode_all rs)) rest.
Proof.
  induction rs as [|r rs IH]; intros fuel s e good rest s' A Hrs;
    cbn [length Nat.add replay_log replay_records].
  { intros [= <-]. f_equal. unfold encode_all. simpl. change (zlen (@nil Z)) with 0. lia. }
  apply Forall_cons in Hrs as [[Hr Hj] Hrs].
  destruct (apply_queue_record s r) as [s1|] eqn:E1; [|done]. intros Hs'.
  rewrite alloc_nil by done. change (encode_all (r :: rs)) with (encode r ++ encode_all rs).
  rewrite <- app_assoc, read_encode by (done || unfold job_fmt_ok; by rewrite Hj).
  rewrite Hj. replace (if zlen (r_data r) =? 0 then s else s) with s by (by destruct (_ =? _)).
  rewrite E1, IH with (s' := s'); [|by eapply apply_record_allocs|done|done].
  f_equal. rewrite !zlen_app. lia.
Qed.

(** ** Termination *)

Lemma read_all_length n p a b : read_all n p = Some (a, b) -> length p = (n + length b)%nat.
Proof.
  unfold read_all. destruct (Nat.ltb_spec (length p) n); [done|]. intros [= <- <-].
  rewrite length_drop. lia.
Qed.

Lemma read_record_shorter a j p r rest : read_record a j p = RRecord r rest ->
  (length rest < length p)%nat.
Proof.
  unfold read_record. destruct (read_all 28 p) as [[hd r1]|] eqn:E1; [|by destruct p].
  do 3 match goal with |- (if ?b then _ else _) = _ -> _ => destruct b; [done|] end.
  destruct (read_all _ r1) as [[n r2]|] eqn:E2; [|done].
  destruct (read_all _ r2) as [[d r3]|] eqn:E3; [|done].
  do 2 match goal with |- (if ?b then _ else _) = _ -> _ => destruct b; [done|] end.
  intros; simplify_eq. apply read_all_length in E1, E2, E3. lia.
Qed.

Lemma replay_log_terminates fuel : forall s e good p, (length p < fuel)%nat ->
  replay_log h fuel s e good p <> OutOfFuel.
Proof.
  induction fuel as [|fuel IH]; intros s e good p Hf; simpl; [lia|].
  destruct (alloc s) as [ok s1]. destruct (read_record ok _ p) as [| | | |r rest] eqn:ER; try done.
  - unfold at_corrupt. repeat (gcase; try done).
  - apply read_record_shorter in ER. destruct (job_record (r_op r)).
    + destruct (apply_job_record _ _ _ _) as [|[s2 e2]]; [done|]. apply IH. lia.
    + destruct (apply_queue_record _ _); [apply IH; lia|]. unfold at_corrupt. repeat (gcase; try done).
Qed.

(** ** Nothing intact is cut *)

(** The bytes hold no intact record. *)
Definition no_record (p : bytes) : Prop :=
  forall pre r post, record_ok r -> p <> pre ++ encode r ++ post.

Lemma read_all_app_inv n p a b : read_all n p = Some (a, b) -> p = a ++ b.
Proof.
  unfold read_all. gcase; [done|]. intros [= <- <-]. by rewrite take_drop.
Qed.

Lemma read_record_suffix a j p r rest : read_record a j p = RRecord r rest ->
  exists pre, p = pre ++ rest.
Proof.
  unfold read_record. destruct (read_all 28 p) as [[hd r1]|] eqn:E1; [|by destruct p].
  do 3 match goal with |- (if ?b then _ else _) = _ -> _ => destruct b; [done|] end.
  destruct (read_all _ r1) as [[n r2]|] eqn:E2; [|done].
  destruct (read_all _ r2) as [[d r3]|] eqn:E3; [|done].
  do 2 match goal with |- (if ?b then _ else _) = _ -> _ => destruct b; [done|] end.
  intros; simplify_eq. apply read_all_app_inv in E1, E2, E3. subst.
  exists (hd ++ n ++ d). by rewrite <- !app_assoc.
Qed.

Lemma read_eof a j p : read_record a j p = REof -> p = [].
Proof.
  unfold read_record. destruct (read_all 28 p) as [[hd r1]|] eqn:E1; [|by destruct p].
  do 3 match goal with |- (if ?b then _ else _) = _ -> _ => destruct b; [done|] end.
  destruct (read_all _ r1) as [[n r2]|] eqn:E2; [|done].
  destruct (read_all _ r2) as [[d r3]|] eqn:E3; [|done].
  do 2 match goal with |- (if ?b then _ else _) = _ -> _ => destruct b; [done|] end. done.
Qed.

Lemma nil_no_record : no_record [].
Proof.
  intros pre r post _ E. apply (f_equal length) in E.
  rewrite !length_app, length_encode in E. simpl in E. lia.
Qed.

Lemma tail_no_record a p : tail_holds_record a p = Some false -> no_record p.
Proof.
  unfold tail_holds_record. destruct p as [|b p]; [intros _; apply nil_no_record|].
  destruct a; [|done]. intros H%(inj Some) pre r post Hr E. rewrite E in H.
  destruct (skip_zeros_app pre r post Hr) as [pre' E']. rewrite E', scan_records_app in H; done.
Qed.

Lemma at_corrupt_cut s e good p s' e' good' :
  at_corrupt (E := J) s e good p = Replayed s' e' good' -> good' = good /\ no_record p.
Proof.
  unfold at_corrupt. destruct (alloc s) as [ok s1].
  destruct (tail_holds_record ok p) as [[]|] eqn:Et; try done.
  intros; simplify_eq. split; [done|]. by eapply tail_no_record.
Qed.

Lemma replay_log_cut fuel : forall s e good p s' e' good',
  replay_log h fuel s e good p = Replayed s' e' good' ->
  exists a b, p = a ++ b /\ good' = good + zlen a /\ no_record b.
Proof.
  induction fuel as [|fuel IH]; intros s e good p s' e' good'; [done|]. cbn [replay_log].
  assert (Stop : good' = good /\ no_record p ->
    exists a b, p = a ++ b /\ good' = good + zlen a /\ no_record b).
  { intros [-> H]. exists [], p. split; [done|]. split; [unfold zlen; simpl; lia|done]. }
  destruct (alloc s) as [ok s1]. destruct (read_record ok _ p) as [| | | |r rest] eqn:ER; try done.
  - intros; simplify_eq. apply read_eof in ER as ->. apply Stop. split; [done|apply nil_no_record].
  - intros H. by apply Stop, (at_corrupt_cut s1 e good p s' e').
  - destruct (read_record_suffix _ _ _ _ _ ER) as [pre Ep].
    assert (Go : forall s e, replay_log h fuel s e (good + (zlen p - zlen rest)) rest
        = Replayed s' e' good' -> exists a b, p = a ++ b /\ good' = good + zlen a /\ no_record b).
    { intros s2 e2 H. apply IH in H as (a & b & -> & -> & Hb). exists (pre ++ a), b.
      rewrite Ep, !zlen_app, app_assoc. split; [done|]. split; [lia|done]. }
    destruct (job_record (r_op r)).
    + destruct (apply_job_record _ _ _ _) as [|[s2 e2]]; [done|apply Go].
    + destruct (apply_queue_record _ _); [apply Go|]. intros H.
      match type of H with at_corrupt ?x _ _ _ = _ => by apply Stop, (at_corrupt_cut x e good p s' e') end.
Qed.

(** ** Cut tails *)

Lemma encode_all_length rs : (28 * length rs <= length (encode_all rs))%nat.
Proof.
  induction rs as [|r rs IH]; [done|]. change (encode_all (r :: rs)) with (encode r ++ encode_all rs).
  rewrite length_app, length_encode. simpl. lia.
Qed.

(** A replayed log followed by bytes that are no record. *)
Lemma open_prefix job e rs tail r : Forall loggable rs ->
  replay_records (empty_store job true [] [] []) rs = Some r ->
  (tail = [] \/ read_record true (st_job_enabled r) tail = RCorrupt /\
                tail_holds_record true tail = Some false) ->
  queue_store_open h job e [] (encode_all rs ++ tail) = Replayed r e (zlen (encode_all rs)).
Proof.
  intros Hrs Hr Ht. unfold queue_store_open. pose proof (encode_all_length rs) as Hl.
  set (s0 := empty_store job true [] [] []) in *.
  assert (A : st_allocs r = []) by (by eapply (replay_records_allocs rs s0)).
  replace (S (length (encode_all rs ++ tail)))
    with (length rs + S (length (encode_all rs ++ tail) - length rs))%nat
    by (rewrite length_app; lia).
  rewrite (replay_log_records rs _ s0 e 0 tail r); [|done|done|done]. rewrite Z.add_0_l.
  cbn [replay_log]. rewrite alloc_nil by done. destruct Ht as [->|[Hc Hs]]; [done|].
  rewrite Hc. unfold at_corrupt. by rewrite alloc_nil, Hs.
Qed.

End Jobs.

Lemma zeros_corrupt j n : read_record true j (replicate (S n) 0) = RCorrupt.
Proof.
  unfold read_record. destruct (read_all 28 (replicate (S n) 0)) as [[hd r1]|] eqn:E1; [|done].
  unfold read_all in E1. destruct (Nat.ltb_spec (length (replicate (S n) 0)) 28); [done|].
  simplify_eq. rewrite length_replicate in *.
  replace (S n) with (28 + (S n - 28))%nat by lia. by rewrite replicate_add, take_app_length'.
Qed.

Lemma zeros_hold_no_record n : tail_holds_record true (replicate n 0) = Some false.
Proof.
  destruct n as [|n]; [done|]. unfold tail_holds_record.
  change (replicate (S n) 0) with (0 :: replicate n 0). cbn [skip_zeros Z.eqb].
  by rewrite skip_zeros_replicate.
Qed.

(** A record whose last bytes are missing reads as corrupt. *)
Lemma torn_corrupt j r k : record_ok r -> job_record (r_op r) && negb j = false -> (0 < k < length (encode r))%nat ->
  read_record true j (take k (encode r)) = RCorrupt.
Proof.
  intros Hr Hj [Hk0 Hk]. rewrite length_encode in Hk. unfold read_record.
  destruct (read_all 28 (take k (encode r))) as [[hd rest]|] eqn:E1.
  2:{ destruct (take k (encode r)) eqn:E; [|done]. apply (f_equal length) in E.
      rewrite length_take, length_encode in E. simpl in E. lia. }
  assert (Hk28 : (28 <= k)%nat).
  { unfold read_all in E1. destruct (Nat.ltb_spec (length (take k (encode r))) 28) as [|H]; [done|].
    rewrite length_take in H. lia. }
  set (hdr := header24 r ++ put32 (record_crc r)).
  assert (E : take k (encode r) = hdr ++ take (k - 28) (r_name r ++ r_data r)).
  { unfold encode. rewrite (app_assoc (header24 r)). fold hdr.
    rewrite take_app. change (length hdr) with 28%nat. rewrite take_ge by (simpl; lia). done. }
  rewrite E in E1. change 28%nat with (length hdr) in E1 at 1. rewrite read_all_app in E1.
  injection E1 as <- <-.
  destruct (header_fields r [] Hr) as (E0 & E2 & E4 & E8 & _). rewrite app_nil_r in *. fold hdr in E0, E2, E4, E8.
  rewrite E0, E2, E4, E8, Hj. destruct Hr as (_&_&_&_&_&Hs). rewrite Hs. cbn [negb]. rewrite andb_false_r.
  unfold zlen. rewrite !Nat2Z.id.
  destruct (read_all (length (r_name r)) _) as [[n r2]|] eqn:E2'; [|done].
  destruct (read_all (length (r_data r)) r2) as [[d r3]|] eqn:E3'; [|done].
  apply read_all_length in E2', E3'. rewrite length_take, length_app in E2'. lia.
Qed.

Lemma torn_tail_scan r k : record_ok r -> (0 < k)%nat ->
  tail_holds_record true (take k (encode r)) = Some (scan_records (take k (encode r))).
Proof.
  intros Hr Hk. destruct (encode_head r Hr) as (hd & -> & Hne). destruct k as [|k]; [lia|].
  unfold tail_holds_record. cbn [take skip_zeros]. by destruct (Z.eqb_spec (r_op r) 0).
Qed.

(** A tail a crash leaves behind: a run of reserved zero bytes, or the head of
    a record, unless an intact record happens to lie inside it. *)
Inductive crash_tail : bytes -> Prop :=
  | tail_zeros n : crash_tail (replicate n 0)
  | tail_torn r k : loggable r -> (0 < k < length (encode r))%nat ->
      scan_records (take k (encode r)) = false -> crash_tail (take k (encode r)).

Lemma crash_tail_cut j tail : crash_tail tail ->
  tail = [] \/ read_record true j tail = RCorrupt /\ tail_holds_record true tail = Some false.
Proof.
  intros [[|n]|r k Hr Hk Hs]; [by left|right..].
  - split; [apply zeros_corrupt|apply zeros_hold_no_record].
  - split; [apply torn_corrupt; [apply Hr|by rewrite (proj2 Hr)|done]|]. by rewrite torn_tail_scan, Hs by (apply Hr || lia).
Qed.

(** ** The WAL sequence counts the log *)

Definition seq_ok (s : store) : Prop := st_failed s = true \/ st_wal_seq s = zlen (st_log s).

Lemma evolve_seq_ok s s' qs rs : evolve s s' qs rs -> seq_ok s -> seq_ok s'.
Proof.
  intros [] H. destruct ev_log0 as [|[F E]]; [by left|]. destruct ev_seq0 as [|Q]; [by left|].
  destruct H as [|H]; [congruence|right]. rewrite E, zlen_app. lia.
Qed.

Lemma commit_seq_ok T del s s' : commit T del s s' -> seq_ok s -> seq_ok s'.
Proof.
  intros []; match goal with E : evolve _ s' _ _ |- _ => apply (evolve_seq_ok _ _ _ _ E) end.
Qed.

Lemma commits_seq_ok T del s s' : rtc (commit T del) s s' -> seq_ok s -> seq_ok s'.
Proof. induction 1; eauto using commit_seq_ok. Qed.

Lemma commits_open T p s s' : rtc (commit T p) s s' -> st_log_open s' = st_log_open s.
Proof.
  induction 1 as [|a b c C _ IH]; [done|]. rewrite IH.
  destruct C; match goal with E : evolve _ b _ _ |- _ => exact (ev_open _ _ _ _ E) end.
Qed.

Lemma reachable_seq_ok T s : reachable T s -> seq_ok s.
Proof.
  intros (j & ios & locks & R). destruct (open_inv j ios locks) as [I X].
  assert (H : seq_ok (open_store j ios locks)) by (by right).
  induction R as [|a b c C R IH]; [done|]. destruct (step_inv _ _ _ C I X) as [Ib Xb].
  destruct C as [cl HC]. apply IH; [done..|]. by eapply commits_seq_ok; [apply call_commits|].
Qed.

(** ** Every part of the log is the log of an earlier moment *)

(** The store [x] with the prepare record of a transaction in its log. *)
Definition with_prepare (x : store) (tx : queue_tx) (next_id : Z) : store :=
  {| x with st_log := st_log x ++ [prepare_record tx]; st_next_id := next_id; st_wal_seq := st_wal_seq x + 1 |}.

(** On the way from [s] to [s'] there was the store [si], with the log [rs]:
    commits lead from [s] to a store [x] and on to [s'], and [si] is [x], or [x]
    between the two records of a transaction. *)
Record moment (T : Z) (p : power) (s s' : store) (rs : list record) (si : store) : Prop := Moment {
  mt_commits : rtc (commit T p) s si;
  mt_log : st_log si = rs;
  mt_failed : st_failed si = false;
  mt_id : st_next_id si <= st_next_id s';
  mt_between : exists x, rtc (commit T p) s x /\ rtc (commit T p) x s' /\ (si = x \/ exists tx n, si = with_prepare x tx n) }.

Lemma commits_log T p s s' : rtc (commit T p) s s' -> st_failed s' = false ->
  st_failed s = false /\ exists rs, st_log s' = st_log s ++ rs.
Proof.
  induction 1 as [s|a b c C _ IH]; intros F.
  { split; [done|]. exists []. by rewrite app_nil_r. }
  destruct (IH F) as [Fb [x Ex]].
  assert (H : st_failed a = false /\ exists rs, st_log b = st_log a ++ rs).
  { destruct C; match goal with E : evolve _ b _ ?rs |- _ =>
      destruct (ev_log _ _ _ _ E) as [|[? ->]]; [congruence|] end; simpl in *; eauto. }
  destruct H as [Fa [y Ey]]. split; [done|]. exists (y ++ x). by rewrite Ex, Ey, app_assoc.
Qed.

Lemma between_logs {A} (l rs0 rs : list A) : (length rs0 <= 1)%nat -> l `prefix_of` rs ->
  rs `prefix_of` l ++ rs0 -> rs = l \/ rs = l ++ rs0.
Proof.
  intros Hl [x ->] [y E]. rewrite <- app_assoc in E. apply app_inv_head in E. subst rs0.
  rewrite length_app in Hl. destruct x as [|a x]; [left; by rewrite app_nil_r|right].
  destruct y; [by rewrite app_nil_r|simpl in Hl; lia].
Qed.

Lemma xchange_one xs xs' rs : xchange xs xs' rs -> (length rs <= 1)%nat.
Proof. intros []; unfold xlogged; try destruct (x_durable _); try destruct durable; simpl; lia. Qed.

(** The records of a commit other than a transaction are one at most. *)
Lemma commit_moment T p s s' rs : commit T p s s' -> st_failed s' = false ->
  st_log s `prefix_of` rs -> rs `prefix_of` st_log s' -> exists si, moment T p s s' rs si.
Proof.
  intros C F Hs Hs'. pose proof (commit_id_mono _ _ _ _ C) as Hid.
  assert (Hone : forall x qs rs0, evolve x s' qs rs0 -> st_log x = st_log s -> st_failed x = st_failed s ->
    (length rs0 <= 1)%nat -> exists si, moment T p s s' rs si).
  { intros x qs rs0 E Ex Ef Hl. destruct (ev_log _ _ _ _ E) as [|[F' El]]; [congruence|].
    rewrite Ex in El. rewrite El in Hs'. destruct (between_logs _ _ _ Hl Hs Hs') as [->| ->].
    - exists s. constructor; [done|done|congruence|lia|]. exists s. split; [done|]. split; [by apply rtc_once|by left].
    - exists s'. constructor; [by apply rtc_once|done|done|lia|]. exists s'. split; [by apply rtc_once|]. split; [done|by left]. }
  assert (Hlog : forall q op id aux d, (length (logged q op id aux d) <= 1)%nat)
    by (intros; unfold logged; destruct (q_durable q); simpl; lia).
  assert (Hcon : forall op name id, (length (consumer_logged s op name id) <= 1)%nat)
    by (intros; unfold consumer_logged; destruct (st_log_open s); simpl; lia).
  destruct C as [E|? ? ? ? ? ? ? ? ? ? ? E|? ? ? ? ? ? E|? ? ? ? ? ? ? E|? ? ? ? ? ? ? E|? ? ? ? ? ? ? ? ? E
    |? ? ? ? ? ? ? ? ? ? ? ? ? ? E|? ? ? ? ? E|? ? ? ? ? E|? ? ? E|? ? ? ? E|? durable ? ? ? ? ? ? ? ? ? ? E
    |? ? ? ? ? E|? ? E|xs rs0 X E|tx ? ? ? ? E|tx Hm Hf Hn Hb Hp Hd E];
    try (by eapply Hone; [exact E|done|done|first [apply Hlog|apply Hcon|simpl; lia|by eapply xchange_one]]).
  - eapply Hone; [exact E|done|done|]. destruct durable; simpl; lia.
  - destruct (ev_log _ _ _ _ E) as [|[F' El]]; [congruence|]. rewrite El in Hs'.
    destruct Hs as [[|a x] ->].
    { exists s. rewrite app_nil_r. constructor; [done|done|done|lia|]. exists s. split; [done|]. split; [apply rtc_once; by eapply c_transact|by left]. }
    destruct Hs' as [y E']. rewrite <- app_assoc in E'. apply app_inv_head in E'.
    destruct x as [|b x].
    2:{ injection E' as <- <- E'. destruct x; [|done]. exists s'. assert (R : rtc (commit T p) s s') by (apply rtc_once; by eapply c_transact).
        constructor; [done|done|done|lia|]. exists s'. split; [done|]. split; [done|by left]. }
    injection E' as <- _. exists (with_prepare s tx (st_next_id s')). constructor; [|done|done|simpl; lia|].
    + apply rtc_once. eapply (c_prepare _ _ _ _ tx); try done.
      constructor; simpl; try done; try lia; right; [done|unfold zlen; simpl; lia].
    + exists s. split; [done|]. split; [apply rtc_once; by eapply c_transact|]. right. by eexists _, _.
Qed.

Lemma commits_moment T p s s' rs : rtc (commit T p) s s' -> st_failed s' = false ->
  st_log s `prefix_of` rs -> rs `prefix_of` st_log s' -> exists si, moment T p s s' rs si.
Proof.
  induction 1 as [s|a b c C R IH]; intros F H1 H2.
  { exists s. assert (rs = st_log s) as -> by (by apply (anti_symm prefix)). constructor; [done|done|done|lia|]. exists s. split; [done|]. split; [done|by left]. }
  pose proof (commits_ids _ _ _ _ R) as Hid. destruct (commits_log _ _ _ _ R F) as [Fb [x Ex]].
  destruct (decide (length rs <= length (st_log b))%nat) as [Hl|Hl].
  - assert (Hb : rs `prefix_of` st_log b).
    { rewrite Ex in H2. destruct H2 as [y Hy]. exists (take (length (st_log b) - length rs) y).
      apply (f_equal (take (length (st_log b)))) in Hy. rewrite take_app_length, take_app_ge in Hy by lia. done. }
    destruct (commit_moment T p a b rs C Fb H1 Hb) as (si & [M1 M2 M3 M4 (x0 & X1 & X2 & X3)]).
    exists si. constructor; [done|done|done|lia|]. exists x0. split; [done|]. split; [by etrans|done].
  - assert (Hb : st_log b `prefix_of` rs).
    { rewrite Ex in H2. destruct H2 as [y Hy]. exists (drop (length (st_log b)) rs).
      apply (f_equal (take (length rs))) in Hy. rewrite take_app_length, take_app_ge in Hy by lia.
      rewrite <- Hy at 2. by rewrite drop_app_length. }
    destruct (IH F Hb H2) as (si & [M1 M2 M3 M4 (x0 & X1 & X2 & X3)]). exists si.
    constructor; [by eapply rtc_l|done|done|lia|]. exists x0. split; [by eapply rtc_l|done].
Qed.

(** Prefixes of a log are comparable. *)
Lemma prefix_compare {A} (a b c : list A) : a `prefix_of` c -> b `prefix_of` c -> a `prefix_of` b \/ b `prefix_of` a.
Proof. intros H1 H2. destruct (prefix_weak_total a b c H1 H2); auto. Qed.

(** The last call of a run during which the log was [rs]: the calls before it
    lead to [a], and the call, if there is one, passes through [si]. *)
Definition passes (T : Z) (s : store) (cs : list call) (rs : list record) (si : store) : Prop :=
  exists cs1 cs2 a, cs = cs1 ++ cs2 /\ history T s cs1 a /\
    moment T Any a (match cs2 with [] => a | c :: _ => run_call a c end) rs si.

Lemma history_moment T s cs s' rs : history T s cs s' -> inv s -> xrooms s -> st_failed s' = false ->
  st_log s `prefix_of` rs -> rs `prefix_of` st_log s' -> exists si, passes T s cs rs si.
Proof.
  induction 1 as [s|s c cs s' Hc Hs IH]; intros I X F H1 H2.
  { exists s. exists [], [], s. split; [done|]. split; [constructor|]. assert (rs = st_log s) as -> by (by apply (anti_symm prefix)).
    constructor; [done|done|done|lia|]. exists s. split; [done|]. split; [done|by left]. }
  pose proof (call_commits T s c I X Hc) as R. destruct (step_inv T s _ (step_call T s c Hc) I X) as [I' X'].
  pose proof (history_steps _ _ _ _ Hs) as Hst.
  assert (L : st_failed (run_call s c) = false /\ st_log (run_call s c) `prefix_of` st_log s').
  { clear -Hst I' X' F. induction Hst as [|a b d St _ IH]; [done|]. destruct (step_inv _ _ _ St I' X') as [Ib Xb]. destruct (IH F Ib Xb) as [Fb Pb].
    destruct St as [c' Hc']. destruct (commits_log T Any a (run_call a c')) as [Fa [x Ex]]; [by apply call_commits|done|].
    split; [done|]. etrans; [|exact Pb]. by exists x. }
  destruct L as [Fc Pc]. destruct (prefix_compare _ _ _ H2 Pc) as [Hp|Hp].
  - destruct (commits_moment T Any s (run_call s c) rs R Fc H1 Hp) as (si & M). exists si, [], (c :: cs), s.
    split; [done|]. split; [constructor|done].
  - destruct (IH I' X' F Hp H2) as (si & cs1 & cs2 & a & -> & Ha & M). exists si, (c :: cs1), cs2, a. split; [done|]. split; [by constructor|done].
Qed.

Lemma reachable_commits T s : reachable T s ->
  exists j ios locks, rtc (commit T Any) (open_store j ios locks) s.
Proof.
  intros (j & ios & locks & R). exists j, ios, locks. destruct (open_inv j ios locks) as [I X].
  induction R as [|a b c C R IH]; [done|]. destruct (step_inv _ _ _ C I X) as [Ib Xb].
  destruct C as [cl HC]. etrans; [by apply call_commits|auto].
Qed.

Lemma history_commits T s cs s' : history T s cs s' -> inv s -> xrooms s -> rtc (commit T Any) s s' /\ inv s' /\ xrooms s'.
Proof.
  induction 1 as [s|s c cs s' Hc Hs IH]; intros I X; [done|]. destruct (step_inv T s _ (step_call T s c Hc) I X) as [I' X'].
  destruct (IH I' X') as (R & K). split; [|done]. etrans; [by apply call_commits|done].
Qed.

(** What the log of such a store replays to. *)
Lemma commits_recover T job j ios locks si : rtc (commit T Any) (open_store j ios locks) si ->
  st_failed si = false -> fits 64 (st_next_id si) -> sinv si /\ Forall loggable (st_log si) /\
  exists r, replay_records (empty_store job true [] [] []) (st_log si) = Some r /\ recovered T si r.
Proof.
  intros R F Hf. destruct (open_inv j ios locks) as [[I _] _]. split; [by eapply commits_sinv|].
  by apply (commits_recoverable T Any job _ si R I Hf (open_recoverable T job j ios locks)).
Qed.

Lemma moment_recovers T job j ios locks s rs : rtc (commit T Any) (open_store j ios locks) s ->
  st_failed s = false -> fits 64 (st_next_id s) -> rs `prefix_of` st_log s ->
  exists si r, moment T Any (open_store j ios locks) s rs si /\ sinv si /\ Forall loggable rs /\
    replay_records (empty_store job true [] [] []) rs = Some r /\ recovered T si r.
Proof.
  intros R F Hf Hp. destruct (commits_moment T Any _ s rs R F) as (si & M); [by exists rs|done|]. pose proof M as [M1 M2 M3 M4 _].
  pose proof (si_id _ (commits_sinv _ _ _ _ M1 (proj1 (proj1 (open_inv j ios locks))))) as Hpos.
  destruct (commits_recover T job j ios locks si M1 M3 ltac:(unfold fits in *; lia)) as (Hi & Hl & r & Er & Rr).
  rewrite M2 in Hl, Er. exists si, r. done.
Qed.

Lemma prefix_recovers T job j ios locks s cs rs : history T (open_store j ios locks) cs s ->
  st_failed s = false -> fits 64 (st_next_id s) -> rs `prefix_of` st_log s ->
  exists si r, passes T (open_store j ios locks) cs rs si /\ Forall loggable rs /\
    replay_records (empty_store job true [] [] []) rs = Some r /\ recovered T si r.
Proof.
  intros H F Hf Hp. destruct (open_inv j ios locks) as [I X].
  destruct (history_moment T _ cs s rs H I X F) as (si & M); [by exists rs|done|].
  pose proof M as (cs1 & cs2 & a & -> & Ha & [M1 M2 M3 M4 _]). destruct (history_commits _ _ _ _ Ha I X) as (Ra & Ia & Xa).
  assert (Rsi : rtc (commit T Any) (open_store j ios locks) si) by (by etrans).
  assert (Hid : st_next_id si <= st_next_id s).
  { etrans; [exact M4|]. clear -H Ha Ia Xa. revert Ha Ia Xa H. generalize (open_store j ios locks). intros o Ha Ia Xa H.
    assert (Hs : history T a cs2 s).
    { revert H. induction Ha as [|o c cs1 a' Hc Ha IH]; [done|]. intros H. inversion H; subst. by apply IH. }
    inversion Hs as [|? c cs' ? Hc Hr]; subst; [done|]. eapply steps_next_id; [by eapply history_steps|..];
      by destruct (step_inv T a _ (step_call T a c Hc) Ia Xa). }
  pose proof (commits_sinv _ _ _ _ Rsi (proj1 I)) as Hi. pose proof (si_id _ Hi) as Hpos.
  destruct (commits_recover T job j ios locks si Rsi M3 ltac:(unfold fits in *; lia)) as (_ & Hl & r & Er & Rr).
  rewrite M2 in Hl, Er. exists si, r. done.
Qed.

(** No durable job state: every hook accepts. *)
Definition no_jobs : job_hooks unit :=
  {| state_apply := fun e _ => Some e; completion_apply := fun e _ => Some e;
     receipt_apply := fun e _ => Some e; meta_apply := fun e _ => Some e |}.

(** ** Building reachable stores *)

Definition policyb (l : list queue) : bool :=
  forallb (fun a => forallb (fun b =>
    q_deleted a || q_deleted b || name_eqb (q_dlq_name a) [] || negb (q_durable a) ||
    negb (name_eqb (q_name b) (q_dlq_name a) || name_eqb (q_dlq_name b) (q_dlq_name a)) ||
    q_durable b) l) l.

Lemma policyb_sound s : policyb (st_queues s) = true -> policy s.
Proof.
  unfold policyb, name_eqb. rewrite forallb_forall. intros H a b Ha Hb Da Db Nd Du Hab.
  apply list_elem_of_In in Ha, Hb. specialize (H a Ha). rewrite forallb_forall in H.
  specialize (H b Hb). rewrite Da, Db, Du in H. rewrite bool_decide_eq_false_2 in H by done.
  cbn [orb negb] in H. apply orb_prop in H as [H|H]; [|done].
  apply negb_true_iff, orb_false_elim in H as [H1 H2].
  apply bool_decide_eq_false in H1, H2. tauto.
Qed.

Definition xroomb (x : exchange) : bool :=
  (x_binding_count x <? EXCHANGE_BINDINGS_MAX) && (x_revision x + 1 <? 2 ^ 64).

Lemma xroomb_sound s : forallb xroomb (st_exchanges s) = true -> xrooms s.
Proof.
  rewrite forallb_forall. intros H. apply Forall_forall. intros x Hx%list_elem_of_In.
  specialize (H x Hx). unfold xroomb in H. reflect_tests. by split.
Qed.

Definition capacityb (s : store) : bool :=
  forallb (fun q => (q_max_depth q =? 0) || (q_depth q <=? q_max_depth q)) (st_queues s).

Lemma capacityb_sound s : capacityb s = true -> within_capacity s.
Proof.
  unfold capacityb. rewrite forallb_forall. intros H. apply Forall_forall. intros q Hq%list_elem_of_In.
  specialize (H q Hq). apply orb_prop in H as [H|H]; reflect_tests; lia.
Qed.

(** The run of a list of calls, when the conditions of a step hold after each. *)
Fixpoint run_calls (s : store) (cs : list call) : option store :=
  match cs with
  | [] => Some s
  | c :: cs => if policyb (st_queues (run_call s c)) && forallb xroomb (st_exchanges (run_call s c)) &&
                  (negb (is_transact c) || capacityb (run_call s c))
               then run_calls (run_call s c) cs else None
  end.

Lemma run_calls_history T cs : forall s0 s, Forall (call_ok T) cs -> run_calls s0 cs = Some s -> history T s0 cs s.
Proof.
  induction cs as [|c cs IH]; intros s0 s; simpl; [intros _ [= <-]; constructor|].
  intros [Hc Hcs]%Forall_cons. destruct (policyb _ && _ && _) eqn:P; [|done]. intros H.
  apply andb_prop in P as [P C]. apply andb_prop in P as [P X]. constructor; [|by apply IH].
  constructor; [done|by apply policyb_sound|by apply xroomb_sound|]. intros Ht. rewrite Ht in C. by apply capacityb_sound.
Qed.

Lemma run_calls_reachable T job ios locks cs s : Forall (call_ok T) cs ->
  run_calls (open_store job ios locks) cs = Some s -> reachable T s.
Proof. intros Hcs H. exists job, ios, locks. by eapply history_steps, run_calls_history. Qed.

End Open.

(** * Transactions found by replay

    The pending transactions of a replayed log, and what the other records
    leave alone: the outcomes of I/O, the state of the log, and the pending
    list. *)

Import Queue QueueIndex Wal Store Replay Batch Exchanges XChange Tx XReplay TxReplay Commit Ops XOps TxOps Run Recovery Open.

Module TxPending.

Definition is_tx (r : record) : bool := (r_op r =? LOG_TX_PREPARE) || (r_op r =? LOG_TX_COMMIT).

(** The log and the outcomes it draws. *)
Record same_log (s s' : store) : Prop := SameLog {
  sl_open : st_log_open s' = st_log_open s;
  sl_failed : st_failed s' = st_failed s;
  sl_ios : st_ios s' = st_ios s }.

Lemma same_log_refl s : same_log s s.
Proof. done. Qed.

Lemma same_log_trans a b c : same_log a b -> same_log b c -> same_log a c.
Proof. intros [] []. constructor; congruence. Qed.

Lemma bump_log s id : same_log s (bump_id s id) /\ st_tx_pending (bump_id s id) = st_tx_pending s.
Proof. unfold bump_id. by gcase. Qed.

Lemma bumps_log ts : forall s, same_log s (bump_ids s ts).
Proof.
  induction ts as [|t ts IH]; intros s; [done|]. unfold bump_ids in *. cbn [fold_left].
  eapply same_log_trans; [apply bump_log|apply IH].
Qed.

Lemma materialize_log tx ts : forall s, st_allocs s = [] ->
  same_log s (fold_left (materialize_one tx) ts s) /\
  st_tx_pending (fold_left (materialize_one tx) ts s) = st_tx_pending s /\
  st_allocs (fold_left (materialize_one tx) ts s) = [].
Proof.
  induction ts as [|t ts IH]; intros s A; [done|]. cbn [fold_left].
  assert (H : same_log s (materialize_one tx s t) /\ st_tx_pending (materialize_one tx s t) = st_tx_pending s /\
    st_allocs (materialize_one tx s t) = []).
  { unfold materialize_one. gcase; [|done]. by rewrite append_message_upd. }
  destruct H as (H1 & H2 & H3). destruct (IH _ H3) as (H4 & H5 & H6).
  split; [by eapply same_log_trans|]. split; [congruence|done].
Qed.

(** Splits the remaining stores of a replay function. *)
Ltac replay_stores A :=
  replay_cases A; try done; try (unfold bump_id; by gcase);
  try (match goal with H : _ = (true, _) |- _ => revert H end; replay_cases A; by constructor).

Lemma apply_log s r s' : st_allocs s = [] -> apply_queue_record s r = Some s' -> same_log s s'.
Proof.
  intros A. unfold apply_queue_record.
  repeat match goal with |- (if ?b then _ else _) = _ -> _ => destruct b end;
    unfold apply_declare, apply_publish, apply_ack, apply_delivery, apply_requeue, on_message,
      apply_purge, apply_delete, apply_exdeclare, create_exchange, apply_exbind,
      add_binding_locked, apply_exdelete, apply_exupdate, apply_tx_prepare, apply_consumer,
      apply_consumer_del, apply_tx_commit; replay_stores A.
  - destruct (bumps_log l s). done.
  - set (s1 := {| s with st_tx_pending := l |}). apply (same_log_trans s s1); [done|].
    by apply (materialize_log q (tx_targets q) s1).
Qed.

Lemma replay_log_same rs : forall s s', st_allocs s = [] -> replay_records s rs = Some s' -> same_log s s'.
Proof.
  induction rs as [|r rs IH]; intros s s' A; cbn [replay_records]; [by intros [= <-]|].
  destruct (apply_queue_record s r) as [s1|] eqn:E; [|done]. intros H.
  eapply same_log_trans; [by eapply apply_log|]. apply IH; [|done]. by eapply apply_record_allocs.
Qed.

(** A record of another kind leaves the pending transactions alone. *)
Lemma apply_plain s r s' : st_allocs s = [] -> loggable r -> is_tx r = false ->
  apply_queue_record s r = Some s' -> st_tx_pending s' = st_tx_pending s.
Proof.
  intros A [Hr Hj] Ht. apply orb_false_elim in Ht as [Hp Hc].
  assert (Hk : record_op_known (r_op r) = true).
  { destruct Hr as (_ & _ & _ & _ & _ & Hb). unfold bad_shape in Hb.
    repeat apply orb_false_elim in Hb as [Hb _]. by apply negb_false_iff. }
  unfold apply_queue_record. rewrite Hp. unfold record_op_known in Hk. rewrite Hp, Hc in Hk.
  unfold job_record in Hj.
  repeat match type of Hj with _ || _ = false => apply orb_false_elim in Hj as [Hj ?] end.
  repeat match goal with H : (r_op r =? _) = false |- _ => rewrite H in Hk end. rewrite ?orb_false_r in Hk.
  repeat match goal with |- (if ?b then _ else _) = _ -> _ => destruct b end; try discriminate;
    unfold apply_declare, apply_publish, apply_ack, apply_delivery, apply_requeue, on_message,
      apply_purge, apply_delete, apply_exdeclare, create_exchange, apply_exbind,
      add_binding_locked, apply_exdelete, apply_exupdate, apply_consumer,
      apply_consumer_del; replay_stores A.
Qed.

Lemma replay_plain rs : forall s s', st_allocs s = [] -> Forall loggable rs ->
  Forall (fun r => is_tx r = false) rs -> replay_records s rs = Some s' ->
  st_tx_pending s' = st_tx_pending s.
Proof.
  induction rs as [|r rs IH]; intros s s' A Hl Ht; cbn [replay_records]; [by intros [= <-]|].
  apply Forall_cons in Hl as [Hl Hls]. apply Forall_cons in Ht as [Ht Hts].
  destruct (apply_queue_record s r) as [s1|] eqn:E; [|done]. intros H.
  rewrite <- (apply_plain s r s1) by done. apply (IH s1); try done. by eapply apply_record_allocs.
Qed.

(** ** Calls other than transactions log records of other kinds *)

Lemma commit_plain T p s s' : commit T p s s' -> may_transact p = false -> st_failed s' = false ->
  exists rs, st_log s' = st_log s ++ rs /\ Forall (fun r => is_tx r = false) rs.
Proof.
  intros C Hm F.
  assert (Hlog : forall q op id aux d, is_tx {| r_op := op; r_durable := true; r_name := []; r_id := 0;
      r_aux := 0; r_data := [] |} = false -> Forall (fun r => is_tx r = false) (logged q op id aux d)).
  { intros q op id aux d H. unfold logged. destruct (q_durable q); constructor; [done|constructor]. }
  assert (Hcon : forall op name id, is_tx {| r_op := op; r_durable := true; r_name := []; r_id := 0;
      r_aux := 0; r_data := [] |} = false -> Forall (fun r => is_tx r = false) (consumer_logged s op name id)).
  { intros op name id H. unfold consumer_logged. destruct (st_log_open s); constructor; [done|constructor]. }
  assert (Hx : forall xs xs' rs, xchange xs xs' rs -> Forall (fun r => is_tx r = false) rs).
  { intros xs xs' rs []; unfold xlogged; try destruct (x_durable _); repeat constructor. }
  destruct C; try congruence; match goal with E : evolve _ s' _ ?rs |- _ =>
    destruct (ev_log _ _ _ _ E) as [|[_ ->]]; [congruence|]; exists rs; split; [done|] end;
    try (by constructor); try (by apply Hlog); try (by apply Hcon); try (by eapply Hx).
  destruct durable; repeat constructor.
Qed.

Lemma commits_plain T p s s' : rtc (commit T p) s s' -> may_transact p = false -> st_failed s' = false ->
  exists rs, st_log s' = st_log s ++ rs /\ Forall (fun r => is_tx r = false) rs.
Proof.
  induction 1 as [s|a b c C R IH]; intros Hm F; [exists []; by rewrite app_nil_r|].
  destruct (commits_log _ _ _ _ R F) as [Fb _]. destruct (IH Hm F) as (y & Ey & Hy).
  destruct (commit_plain T p a b C Hm Fb) as (x & Ex & Hx). exists (x ++ y).
  split; [by rewrite Ey, Ex, app_assoc|by apply Forall_app_2].
Qed.

End TxPending.
