(* ===== verification/Atomic.v ===== *)
(** * Atomic cache-plus-message operations (server.c: atomic_execute,
    reconcile_transactions)

    One operation changes a key of the cache and publishes a message: the
    queue log holds the prepared messages, then the marker in the cache log
    decides, then the queue log says that the messages are out.  At start-up
    the transactions that replay found in between are finished or dropped.

    The counter of transactions in flight is back at its value when the call
    returns and is not part of the state.  [qsort] and [bsearch] with
    [tx_id_cmp] find an identity exactly when it is in the array. *)

From stdpp Require Import base numbers option list.
From S2P Require Import Prelude Cache CacheLog WalRecord QueueStore QueueReplay QueueTx.
Import Cache CacheLog Store Replay Tx.

Module Atomic.

Inductive atomic_op :=
  | ATOMIC_PUT_PUBLISH
  | ATOMIC_PUT_ENQUEUE
  | ATOMIC_DELETE_PUBLISH
  | ATOMIC_UPDATE_EMIT.

(** The readings of the clocks: of the capacity pass, of the expiry of the
    value, of the look-up of the key and of the test of the expiry. *)
Record clocks := Clocks {
  ck_now_ms : Z;
  ck_monos : list Z;
  ck_expiry : Z;
  ck_lookup : Z;
  ck_apply : Z }.

(** The two engines and the source of transaction identities. *)
Record system := System {
  sy_queues : store;
  sy_cache : persist;
  sy_nonce : Z;
  sy_counter : Z }.

Definition queue_wal_enabled (s : store) : bool := st_log_open s && negb (st_failed s).

Definition is_enqueue (op : atomic_op) : bool :=
  match op with ATOMIC_PUT_ENQUEUE => true | _ => false end.
Definition is_delete (op : atomic_op) : bool :=
  match op with ATOMIC_DELETE_PUBLISH => true | _ => false end.

(** The kind of the marker in the cache log. *)
Definition marker_op (op : atomic_op) (ttl_ms : Z) (require_exists : bool) : Z :=
  if is_delete op then 3
  else if negb (ttl_ms =? 0) then (if require_exists then 9 else 7)
  else if require_exists then 8 else 1.

(** The answer: committed with the identity and the number of queues (0),
    unroutable (1), key missing (2), error (-1). *)
Record answer := Answer { an_rc : Z; an_tx : Z; an_routed : Z }.

Definition atomic_execute (y : system) (op : atomic_op) (ckey target rkey msg : bytes) (ttl_ms : Z)
    (require_exists : bool) (ck : clocks) : answer * system :=
  let q := sy_queues y in
  let p := sy_cache y in
  if negb (queue_wal_enabled q) || negb (ps_open p) then (Answer (-1) 0 0, y)
  else
    let '(id, counter) := next_tx_id (sy_nonce y) (sy_counter y) in
    let '(res, q) := queue_tx_prepare q (if is_enqueue op then [] else target)
                       (if is_enqueue op then target else rkey) msg id (ck_now_ms ck) (ck_monos ck) in
    match res with
    | PrepareFailed => (Answer (-1) 0 0, System q p (sy_nonce y) counter)
    | PrepareUnroutable => (Answer 1 0 0, System q p (sy_nonce y) counter)
    | Prepared tx =>
        let value := if is_delete op then [] else msg in
        let exp := kuttidb_expiry_from_ttl ttl_ms (ck_expiry ck) in
        let '(pc, p) := persist_tx_commit p id (marker_op op ttl_ms require_exists) ckey value exp
                          require_exists (ck_lookup ck) (ck_apply ck) in
        if negb (pc =? 0) then
          (Answer (if pc =? -2 then 2 else -1) 0 0,
           System (queue_tx_abort q tx) p (sy_nonce y) counter)
        else
          let '(routed, q) := queue_tx_commit q tx in
          match routed with
          | None => (Answer (-1) 0 0, System q p (sy_nonce y) counter)
          | Some n => (Answer 0 id n, System q p (sy_nonce y) counter)
          end
    end.

(** The operation of the management interface; [None] is an unknown code. *)
Definition admin_op (operation : Z) : option atomic_op :=
  if operation =? 1 then Some ATOMIC_PUT_PUBLISH
  else if operation =? 2 then Some ATOMIC_PUT_ENQUEUE
  else if operation =? 3 then Some ATOMIC_DELETE_PUBLISH
  else if operation =? 4 then Some ATOMIC_UPDATE_EMIT
  else None.

Definition admin_atomic_execute (y : system) (operation : Z) (key target rkey body : bytes)
    (ttl_ms : Z) (ck : clocks) : answer * system :=
  match admin_op operation with
  | None => (Answer (-1) 0 0, y)
  | Some op => atomic_execute y op key target rkey body ttl_ms (operation =? 4) ck
  end.

(** ** Start-up *)

(** The loop over the pending identities; [None] is [exit(1)]. *)
Fixpoint resolve_all (s : store) (ids committed : list Z) : option store :=
  match ids with
  | [] => Some s
  | id :: ids =>
      let '(rc, s) := queue_tx_resolve s id (existsb (Z.eqb id) committed) in
      if rc <? 0 then None else resolve_all s ids committed
  end.

Definition reconcile_transactions (s : store) (committed : list Z) : option store :=
  let '(ids, s) := queue_tx_pending_ids s in
  resolve_all s ids committed.

End Atomic.
