(* ===== verification/JobEngine.v ===== *)
(** * The durable job engine (job_state.c)

    Durable state under version control and the ledger of operation receipts.
    The record [engine] mirrors struct JobEngine; the three hash tables are
    lists of buckets, each bucket in the order of its chain.  A [JobStateEntry
    *] or [JobReceiptRec *] is identified by its key or operation id, which
    are distinct in a table.  The queue store the engine is attached to is
    passed along with it; its log is the commit authority.

    [en_allocs] holds the outcomes of the next allocations; clock readings and
    random bytes are arguments.  The calls hold the state lock throughout, and
    each is one step.  Sizes of structs are those of an LP64 platform. *)

From stdpp Require Import base numbers option list.
From S2P Require Import Prelude Sha256 Queue QueueIndex WalRecord QueueStore QueueReplay Atomic.
Import Sha256 JobDigest Queue Wal Store Replay.

Module JobEngine.

Definition JOB_STATE_BUCKETS : Z := 4096.
Definition JOB_RECEIPT_BUCKETS : Z := 4096.
Definition JOB_PROOF_BUCKETS : Z := 1024.
Definition JOB_GC_BUDGET : nat := 64.
Definition JOB_STATE_ENTRY_OVERHEAD : Z := 96.
Definition JOB_RECEIPT_OVERHEAD : Z := 96.
Definition sizeof_entry : Z := 64.
Definition sizeof_receipt : Z := 152.

Inductive job_status :=
  | JOB_OK | JOB_UNSUPPORTED_FEATURE | JOB_VALIDATION_FAILED | JOB_REQUEST_TOO_LARGE | JOB_IDEMPOTENCY_CONFLICT
  | JOB_STATE_VERSION_CONFLICT | JOB_DELIVERY_EXPIRED | JOB_DELIVERY_NOT_OWNED | JOB_RESOURCE_EXHAUSTED
  | JOB_OPERATION_IN_PROGRESS | JOB_OPERATION_IN_DOUBT | JOB_PERSISTENCE_UNAVAILABLE | JOB_NOT_FOUND.

Definition job_status_in_doubt (st : job_status) : bool := match st with JOB_OPERATION_IN_DOUBT => true | _ => false end.

Record jconfig := JConfig {
  cf_state_max : Z;
  cf_receipts_max : Z;
  cf_receipts_count : Z;
  cf_retention : Z;
  cf_max_op : Z;
  cf_proofs : Z }.

Record jentry := JEntry { e_key : bytes; e_value : bytes; e_version : Z; e_commit : Z }.

Record jreceipt := JReceipt {
  jr_op : bytes;
  jr_digest : bytes;
  jr_kind : Z;
  jr_commit : Z;
  jr_version : Z;
  jr_in : bytes;
  jr_in_msg : Z;
  jr_out : bytes;
  jr_out_msg : Z;
  jr_completed : Z;
  jr_expires : Z;
  jr_footprint : Z }.

Record jproof := JProof {
  pf_proof : bytes;
  pf_epoch : bytes;
  pf_queue : bytes;
  pf_incarnation : Z;
  pf_msg : Z;
  pf_tag : Z;
  pf_owner : Z;
  pf_expires : Z }.

Record jcounters := JCounters {
  jc_completions : Z; jc_replays : Z; jc_id_conflicts : Z; jc_state_conflicts : Z;
  jc_delivery_rejects : Z; jc_receipt_gc : Z; jc_too_large : Z; jc_resource : Z }.

Record engine := Engine {
  en_cfg : jconfig;
  en_store_id : bytes;
  en_id_set : bool;
  en_failed : bool;
  en_attached : bool;
  en_state : list (list jentry);
  en_receipts : list (list jreceipt);
  en_proofs : list (list jproof);
  en_entries : Z;
  en_bytes : Z;
  en_receipt_count : Z;
  en_receipt_bytes : Z;
  en_proof_count : Z;
  en_version : Z;
  en_commit : Z;
  en_gc_cursor : Z;
  en_doubt : option bytes;
  en_epoch : bytes;
  en_proof_cursor : Z;
  en_counters : jcounters;
  en_allocs : list bool }.

Definition jalloc (e : engine) : bool * engine := let '(b, r) := draw (en_allocs e) in (b, {| e with en_allocs := r |}).

Definition zero_id : bytes := replicate 16 0.

Definition count (f : jcounters -> jcounters) (e : engine) : engine := {| e with en_counters := f (en_counters e) |}.
Definition bump_replays (c : jcounters) : jcounters := {| c with jc_replays := jc_replays c + 1 |}.
Definition bump_id_conflicts (c : jcounters) : jcounters := {| c with jc_id_conflicts := jc_id_conflicts c + 1 |}.
Definition bump_state_conflicts (c : jcounters) : jcounters := {| c with jc_state_conflicts := jc_state_conflicts c + 1 |}.
Definition bump_delivery (c : jcounters) : jcounters := {| c with jc_delivery_rejects := jc_delivery_rejects c + 1 |}.
Definition bump_resource (c : jcounters) : jcounters := {| c with jc_resource := jc_resource c + 1 |}.
Definition bump_too_large (c : jcounters) : jcounters := {| c with jc_too_large := jc_too_large c + 1 |}.
Definition bump_completions (c : jcounters) : jcounters := {| c with jc_completions := jc_completions c + 1 |}.
Definition add_gc (n : Z) (c : jcounters) : jcounters := {| c with jc_receipt_gc := jc_receipt_gc c + n |}.

(** ** Creation and the latch *)

Definition or_default (x d : Z) : Z := if x =? 0 then d else x.

Definition effective (c : jconfig) : jconfig :=
  {| cf_state_max := or_default (cf_state_max c) 67108864; cf_receipts_max := or_default (cf_receipts_max c) 67108864;
     cf_receipts_count := or_default (cf_receipts_count c) 100000; cf_retention := or_default (cf_retention c) 86400000;
     cf_max_op := or_default (cf_max_op c) 131072; cf_proofs := or_default (cf_proofs c) 4096 |}.

(** [rnd] are the random bytes, when there are any. *)
Definition job_engine_create (cfg : jconfig) (rnd : option bytes) (allocs : list bool) : option engine :=
  let '(ok, allocs) := draw allocs in
  if negb ok then None
  else Some
    {| en_cfg := effective cfg; en_store_id := zero_id; en_id_set := false; en_failed := false; en_attached := false;
       en_state := replicate (Z.to_nat JOB_STATE_BUCKETS) []; en_receipts := replicate (Z.to_nat JOB_RECEIPT_BUCKETS) [];
       en_proofs := replicate (Z.to_nat JOB_PROOF_BUCKETS) [];
       en_entries := 0; en_bytes := 0; en_receipt_count := 0; en_receipt_bytes := 0; en_proof_count := 0;
       en_version := 0; en_commit := 0; en_gc_cursor := 0; en_doubt := None; en_epoch := default zero_id rnd;
       en_proof_cursor := 0; en_counters := JCounters 0 0 0 0 0 0 0 0; en_allocs := allocs |}.

Definition job_engine_store_id (e : engine) : option bytes := if en_id_set e then Some (en_store_id e) else None.

Definition job_engine_fail (e : engine) : engine := {| e with en_failed := true |}.

Definition job_engine_mark_in_doubt (e : engine) (op : bytes) : engine :=
  {| e with en_failed := true; en_doubt := Some op |}.

Definition job_engine_writable (e : engine) : bool := en_attached e && negb (en_failed e) && en_id_set e.

(** ** Buckets *)

Definition fnv1a (data : bytes) : Z := fold_left (fun h b => u32 (Z.lxor h b * 16777619)) data 2166136261.

Definition job_state_bucket (key : bytes) : nat := Z.to_nat (Z.land (fnv1a key) (JOB_STATE_BUCKETS - 1)).
Definition job_receipt_bucket (op : bytes) : nat := Z.to_nat (Z.land (fnv1a op) (JOB_RECEIPT_BUCKETS - 1)).
Definition job_proof_bucket (proof : bytes) : nat := Z.to_nat (Z.land (fnv1a proof) (JOB_PROOF_BUCKETS - 1)).

Definition bucket {A} (t : list (list A)) (b : nat) : list A := default [] (t !! b).

(** ** The state index *)

Definition has_key (key : bytes) (x : jentry) : bool := name_eqb (e_key x) key.

Definition job_state_find_locked (e : engine) (key : bytes) : option jentry :=
  find (has_key key) (bucket (en_state e) (job_state_bucket key)).

Definition entry_size (key value : bytes) : Z := sizeof_entry + zlen key + zlen value + JOB_STATE_ENTRY_OVERHEAD.

(** The struct, then its two buffers. *)
Definition entry_create (e : engine) (key value : bytes) (version commit : Z) : option jentry * engine :=
  let '(ok, e) := jalloc e in
  if negb ok then (None, e)
  else
    let '(ok1, e) := jalloc e in
    let '(ok2, e) := jalloc e in
    if negb (ok1 && ok2) then (None, e) else (Some (JEntry key value version commit), e).

Definition entry_link_locked (e : engine) (x : jentry) : engine :=
  {| e with en_state := alter (cons x) (job_state_bucket (e_key x)) (en_state e);
            en_entries := en_entries e + 1; en_bytes := u64 (en_bytes e + entry_size (e_key x) (e_value x)) |}.

(** Removes the first element that satisfies the test. *)
Fixpoint remove_at {A} (p : A -> bool) (l : list A) : list A :=
  match l with
  | [] => []
  | x :: l => if p x then l else x :: remove_at p l
  end.

Definition entry_unlink_locked (e : engine) (x : jentry) : engine :=
  {| e with en_state := alter (remove_at (has_key (e_key x))) (job_state_bucket (e_key x)) (en_state e);
            en_entries := en_entries e - 1; en_bytes := u64 (en_bytes e - entry_size (e_key x) (e_value x)) |}.

(** Changes the entry found under [key]. *)
Fixpoint upd_at {A} (p : A -> bool) (f : A -> A) (l : list A) : list A :=
  match l with
  | [] => []
  | x :: l => if p x then f x :: l else x :: upd_at p f l
  end.

Definition set_entry (e : engine) (key value : bytes) (version commit : Z) : engine :=
  {| e with en_state := alter (upd_at (has_key key) (fun x => JEntry (e_key x) value version commit))
       (job_state_bucket key) (en_state e) |}.

(** A state application built before the commit: the entry to change with its
    new value, or a fresh entry. *)
Inductive state_plan :=
  | PlanReplace (cur : jentry) (value : bytes) (delta version commit : Z)
  | PlanFresh (fresh : jentry).

Definition job_state_plan_locked (e : engine) (key value : bytes) (version commit : Z) : option state_plan * engine :=
  match job_state_find_locked e key with
  | Some cur =>
      let '(ok, e) := jalloc e in
      if negb ok then (None, e)
      else (Some (PlanReplace cur value (zlen value - zlen (e_value cur)) version commit), e)
  | None =>
      match entry_create e key value version commit with
      | (None, e) => (None, e)
      | (Some fresh, e) => (Some (PlanFresh fresh), e)
      end
  end.

Definition job_state_plan_apply (e : engine) (p : state_plan) : engine :=
  match p with
  | PlanReplace cur value delta version commit =>
      let e := set_entry e (e_key cur) value version commit in {| e with en_bytes := u64 (en_bytes e + delta) |}
  | PlanFresh fresh => entry_link_locked e fresh
  end.

Definition job_state_apply_put_locked (e : engine) (key value : bytes) (version commit : Z) : bool * engine :=
  match job_state_find_locked e key with
  | Some x =>
      let '(ok, e) := jalloc e in
      if negb ok then (false, e)
      else
        let e := set_entry e key value version commit in
        (true, {| e with en_bytes := u64 (u64 (en_bytes e - zlen (e_value x)) + zlen value) |})
  | None =>
      match entry_create e key value version commit with
      | (None, e) => (false, e)
      | (Some x, e) => (true, entry_link_locked e x)
      end
  end.

Definition job_state_apply_delete_locked (e : engine) (key : bytes) : engine :=
  match job_state_find_locked e key with
  | Some x => entry_unlink_locked e x
  | None => e
  end.

(** ** The receipt ledger *)

Definition has_op (op : bytes) (r : jreceipt) : bool := name_eqb (jr_op r) op.

Definition job_receipt_find_locked (e : engine) (op : bytes) : option jreceipt :=
  find (has_op op) (bucket (en_receipts e) (job_receipt_bucket op)).

Definition receipt_footprint (in_len out_len : Z) : Z := u32 (sizeof_receipt + in_len + out_len + JOB_RECEIPT_OVERHEAD).

(** The copy of a queue name; its length is a 16-bit integer.  An absent name
    needs no copy. *)
Definition dup_name (e : engine) (name : bytes) : option bytes * engine :=
  if zlen name =? 0 then (Some [], e)
  else
    let len := u16 (zlen name) in
    if len =? 0 then (None, e)
    else
      let '(ok, e) := jalloc e in
      if ok then (Some (take (Z.to_nat len) name), e) else (None, e).

Definition receipt_create (e : engine) (kind : Z) (op digest : bytes) (commit version : Z) (in_name : bytes) (in_msg : Z)
    (out_name : bytes) (out_msg completed expires : Z) : option jreceipt * engine :=
  let '(ok, e) := jalloc e in
  if negb ok then (None, e)
  else
    match dup_name e in_name with
    | (None, e) => (None, e)
    | (Some i, e) =>
        match dup_name e out_name with
        | (None, e) => (None, e)
        | (Some o, e) =>
            (Some {| jr_op := op; jr_digest := digest; jr_kind := kind; jr_commit := commit; jr_version := version;
                     jr_in := i; jr_in_msg := in_msg; jr_out := o; jr_out_msg := out_msg; jr_completed := completed;
                     jr_expires := expires; jr_footprint := receipt_footprint (zlen i) (zlen o) |}, e)
        end
    end.

Definition push_receipt (e : engine) (r : jreceipt) : engine :=
  {| e with en_receipts := alter (cons r) (job_receipt_bucket (jr_op r)) (en_receipts e);
            en_receipt_count := en_receipt_count e + 1; en_receipt_bytes := u64 (en_receipt_bytes e + jr_footprint r) |}.

Definition job_receipt_insert_locked (e : engine) (kind : Z) (op digest : bytes) (commit version : Z) (in_name : bytes)
    (in_msg : Z) (out_name : bytes) (out_msg completed expires : Z) : Z * engine :=
  match job_receipt_find_locked e op with
  | Some x =>
      (if (jr_commit x =? commit) && (jr_version x =? version) && name_eqb (jr_digest x) digest then 0 else -2, e)
  | None =>
      match receipt_create e kind op digest commit version in_name in_msg out_name out_msg completed expires with
      | (None, e) => (-1, e)
      | (Some r, e) => (0, push_receipt e r)
      end
  end.

Definition receipt_link_locked (e : engine) (r : jreceipt) : engine :=
  match job_receipt_find_locked e (jr_op r) with Some _ => e | None => push_receipt e r end.

(** The public snapshot of a receipt. *)
Record receipt_view := ReceiptView {
  rv_op : bytes; rv_kind : Z; rv_commit : Z; rv_version : Z; rv_completed : Z; rv_expires : Z;
  rv_in : bytes; rv_in_msg : Z; rv_out : bytes; rv_out_msg : Z }.

Definition job_receipt_fill (r : jreceipt) : receipt_view :=
  {| rv_op := jr_op r; rv_kind := jr_kind r; rv_commit := jr_commit r; rv_version := jr_version r;
     rv_completed := jr_completed r; rv_expires := jr_expires r; rv_in := jr_in r; rv_in_msg := jr_in_msg r;
     rv_out := jr_out r; rv_out_msg := jr_out_msg r |}.

(** ** The payload of LOG_JOB_STATE *)

Definition QUEUE_WAL_JOB_FMT : Z := 1.
Definition QUEUE_WAL_JOB_STATE_NAME : bytes := [42; 106; 111; 98; 45; 115; 116; 97; 116; 101].
Definition QUEUE_WAL_JOB_RECEIPT_NAME : bytes := [42; 106; 111; 98; 45; 114; 101; 99; 101; 105; 112; 116].
Definition QUEUE_WAL_JOB_META_NAME : bytes := [42; 106; 111; 98; 45; 109; 101; 116; 97].

Definition job_state_record_len (key_len value_len : Z) : Z := u32 (1 + 1 + 16 + 8 + 2 + key_len + 4 + value_len + 8 + 8).

Definition job_state_record_encode (kind : Z) (op : bytes) (expected : Z) (key value : bytes) (completed expires : Z) : bytes :=
  [QUEUE_WAL_JOB_FMT; kind] ++ op ++ put64 expected ++ put16 (zlen key) ++ key ++ put32 (zlen value) ++ value ++
  put64 completed ++ put64 expires.

Definition job_state_record_decode (d : bytes) : option (Z * bytes * Z * bytes * bytes * Z * Z) :=
  let len := zlen d in
  if (len <? 48) || negb (byte_at d 0 =? QUEUE_WAL_JOB_FMT) then None
  else
    let k := byte_at d 1 in
    if negb (k =? JOB_KIND_STATE_PUT) && negb (k =? JOB_KIND_STATE_DELETE) then None
    else
      let kl := at16 d 26 in
      if len <? 28 + kl + 4 then None
      else
        let vl := at32 d (28 + kl) in
        if negb (32 + kl + vl + 16 =? len) then None
        else Some (k, slice 2 16 d, at64 d 18, slice 28 kl d, slice (32 + kl) vl d, at64 d (32 + kl + vl), at64 d (40 + kl + vl)).

(** ** Collecting expired receipts *)

Definition expired (now : Z) (r : jreceipt) : bool := negb (jr_expires r =? 0) && (jr_expires r <=? now).

(** One bucket: the expired receipts and the others. *)
Definition gc_bucket (e : engine) (now : Z) : Z * engine :=
  let b := Z.to_nat (en_gc_cursor e) in
  let gone := List.filter (expired now) (bucket (en_receipts e) b) in
  (zlen gone,
   {| e with en_gc_cursor := Z.land (en_gc_cursor e + 1) (JOB_RECEIPT_BUCKETS - 1);
             en_receipts := alter (List.filter (fun r => negb (expired now r))) b (en_receipts e);
             en_receipt_count := en_receipt_count e - zlen gone;
             en_receipt_bytes := u64 (en_receipt_bytes e - zsum jr_footprint gone) |}).

Fixpoint gc_loop (n : nat) (e : engine) (now removed : Z) : Z * engine :=
  match n with
  | O => (removed, e)
  | S n => let '(k, e) := gc_bucket e now in gc_loop n e now (removed + k)
  end.

Definition job_receipt_gc_locked (e : engine) (now : Z) : Z * engine :=
  let '(removed, e) := gc_loop JOB_GC_BUDGET e now 0 in
  (removed, if removed =? 0 then e else count (add_gc removed) e).

Definition job_receipt_gc (e : engine) (now : Z) : Z * engine := job_receipt_gc_locked e now.

(** ** Reading *)

(** The value, its version and its commit. *)
Definition job_state_get (e : engine) (key : bytes) : (job_status + bytes * Z * Z) * engine :=
  if (zlen key =? 0) || (65535 <? zlen key) then (inl JOB_VALIDATION_FAILED, e)
  else
    match job_state_find_locked e key with
    | None => (inl JOB_NOT_FOUND, e)
    | Some x =>
        let '(ok, e) := jalloc e in
        if negb ok then (inl JOB_RESOURCE_EXHAUSTED, e) else (inr (e_value x, e_version x, e_commit x), e)
    end.

Definition job_receipt_lookup (e : engine) (op : bytes) : job_status + receipt_view :=
  if name_eqb op zero_id then inl JOB_VALIDATION_FAILED
  else
    match job_receipt_find_locked e op with
    | Some r => inr (job_receipt_fill r)
    | None => inl JOB_NOT_FOUND
    end.

(** ** Admission *)

Record mutation := Mutation {
  mu_op : bytes; mu_kind : Z; mu_commit : Z; mu_version : Z; mu_completed : Z; mu_expires : Z; mu_replayed : bool }.

(** The receipt of a mutation that was found in the ledger. *)
Definition replayed_mutation (r : jreceipt) : mutation :=
  Mutation (jr_op r) (jr_kind r) (jr_commit r) (jr_version r) (jr_completed r) (jr_expires r) true.

Record admission := Admission {
  ad_version : Z; ad_commit : Z; ad_completed : Z; ad_expires : Z;
  ad_rec : jreceipt; ad_plan : option state_plan; ad_payload : bytes }.

Inductive admit_result :=
  | Rejected (st : job_status)
  | Replay (r : jreceipt)
  | Granted (a : admission).

(** The bytes a put adds to the state; negative when the value shrinks. *)
Definition growth (cur : option jentry) (key value : bytes) : Z :=
  match cur with
  | Some x => zlen value - zlen (e_value x)
  | None => entry_size key value
  end.

Definition state_full (e : engine) (delta : Z) : bool :=
  (0 <? delta) && (cf_state_max (en_cfg e) <? u64 (en_bytes e + delta)).

Definition receipts_full (e : engine) (in_len out_len : Z) : bool :=
  (cf_receipts_count (en_cfg e) <? en_receipt_count e + 1) ||
  (cf_receipts_max (en_cfg e) <? u64 (en_receipt_bytes e + receipt_footprint in_len out_len)).

(** Room for one more receipt, after a collection when there is none. *)
Definition receipt_room (e : engine) (in_len out_len now : Z) : bool * engine :=
  if receipts_full e in_len out_len then
    let '(_, e) := job_receipt_gc_locked e now in
    if receipts_full e in_len out_len then (false, count bump_resource e) else (true, e)
  else (true, e).

Definition counters_full (e : engine) : bool := (en_version e =? UINT64_MAX) || (en_commit e =? UINT64_MAX).

(** The next version and commit. *)
Definition take_ids (e : engine) : Z * Z * engine :=
  (en_version e + 1, en_commit e + 1, {| e with en_version := en_version e + 1; en_commit := en_commit e + 1 |}).

(** The version check of a mutation: 0 is create-only. *)
Definition version_matches (cur : option jentry) (expected : Z) : bool :=
  if expected =? 0 then match cur with None => true | Some _ => false end
  else match cur with Some x => e_version x =? expected | None => false end.

(** The objects of the commit: payload, receipt and plan are allocated in this
    order, and the first failure of the plan frees the others. *)
Definition state_prepare (e : engine) (is_put : bool) (key value : bytes) (expected : Z) (op digest : bytes) (now : Z)
    : admit_result * engine :=
  let kind := if is_put then JOB_KIND_STATE_PUT else JOB_KIND_STATE_DELETE in
  let '(version, commit, e) := take_ids e in
  let expires := u64 (now + cf_retention (en_cfg e)) in
  let '(payload_ok, e) := jalloc e in
  let '(rec, e) := receipt_create e kind op digest commit version [] 0 [] 0 now expires in
  let '(plan, e) := if is_put then job_state_plan_locked e key value version commit else (None, e) in
  match payload_ok, rec, is_put, plan with
  | true, Some rec, true, Some p =>
      (Granted (Admission version commit now expires rec (Some p)
         (job_state_record_encode kind op expected key value now expires)), e)
  | true, Some rec, false, _ =>
      (Granted (Admission version commit now expires rec None
         (job_state_record_encode kind op expected key [] now expires)), e)
  | _, _, _, _ => (Rejected JOB_RESOURCE_EXHAUSTED, count bump_resource e)
  end.

Definition state_admit (e : engine) (is_put : bool) (key value : bytes) (expected : Z) (op digest : bytes) (now : Z)
    : admit_result * engine :=
  let kind := if is_put then JOB_KIND_STATE_PUT else JOB_KIND_STATE_DELETE in
  match job_receipt_find_locked e op with
  | Some x =>
      if negb (jr_kind x =? kind) || negb (name_eqb (jr_digest x) digest)
      then (Rejected JOB_IDEMPOTENCY_CONFLICT, count bump_id_conflicts e)
      else (Replay x, count bump_replays e)
  | None =>
      if match en_doubt e with Some o => name_eqb o op | None => false end then (Rejected JOB_OPERATION_IN_DOUBT, e)
      else if en_failed e then (Rejected JOB_PERSISTENCE_UNAVAILABLE, e)
      else
        let cur := job_state_find_locked e key in
        if negb is_put && match cur with None => true | Some _ => false end then (Rejected JOB_NOT_FOUND, e)
        else if negb (if is_put then version_matches cur expected
                      else match cur with Some x => e_version x =? expected | None => false end)
        then (Rejected JOB_STATE_VERSION_CONFLICT, count bump_state_conflicts e)
        else if is_put && state_full e (growth cur key value)
        then (Rejected JOB_RESOURCE_EXHAUSTED, count bump_resource e)
        else
          let '(room, e) := receipt_room e 0 0 now in
          if negb room then (Rejected JOB_RESOURCE_EXHAUSTED, e)
          else if counters_full e then (Rejected JOB_PERSISTENCE_UNAVAILABLE, job_engine_fail e)
          else state_prepare e is_put key value expected op digest now
  end.

(** ** Mutations *)

(** [queue_job_record_append_sync] on the attached store. *)
Definition append_sync (e : engine) (s : store) (op : Z) (name : bytes) (id aux : Z) (data : bytes) : Z * store :=
  if en_attached e then append_record s op true name id aux data true else (-1, s).

(** What a committed mutation does to the engine. *)
Definition state_apply_commit (e : engine) (key : bytes) (a : admission) : engine :=
  let e := match ad_plan a with
           | Some p => job_state_plan_apply e p
           | None => job_state_apply_delete_locked e key
           end in
  receipt_link_locked e (ad_rec a).

(** The common tail of job_state_put and job_state_delete. *)
Definition state_mutate (e : engine) (s : store) (is_put : bool) (key value : bytes) (expected : Z) (op : bytes) (now : Z)
    : (job_status + mutation) * engine * store :=
  let kind := if is_put then JOB_KIND_STATE_PUT else JOB_KIND_STATE_DELETE in
  let digest := job_canonical_digest
    (Request kind op (en_store_id e) None 0 0 key expected (if is_put then value else []) None) in
  match state_admit e is_put key value expected op digest now with
  | (Rejected st, e) => (inl st, e, s)
  | (Replay x, e) => (inr (replayed_mutation x), e, s)
  | (Granted a, e) =>
      let '(rc, s) := append_sync e s LOG_JOB_STATE QUEUE_WAL_JOB_STATE_NAME (ad_version a) (ad_commit a) (ad_payload a) in
      if rc <? 0 then (inl JOB_OPERATION_IN_DOUBT, job_engine_mark_in_doubt e op, s)
      else
        (inr (Mutation op kind (ad_commit a) (ad_version a) (ad_completed a) (ad_expires a) false),
         state_apply_commit e key a, s)
  end.

Definition job_state_put (e : engine) (s : store) (key value : bytes) (expected : Z) (op : bytes) (now : Z)
    : (job_status + mutation) * engine * store :=
  if (zlen key =? 0) || (65535 <? zlen key) || name_eqb op zero_id then (inl JOB_VALIDATION_FAILED, e, s)
  else if cf_max_op (en_cfg e) <? zlen key + zlen value + 64 then (inl JOB_REQUEST_TOO_LARGE, count bump_too_large e, s)
  else state_mutate e s true key value expected op now.

Definition job_state_delete (e : engine) (s : store) (key : bytes) (expected : Z) (op : bytes) (now : Z)
    : (job_status + mutation) * engine * store :=
  if (zlen key =? 0) || (65535 <? zlen key) || name_eqb op zero_id || (expected =? 0) then (inl JOB_VALIDATION_FAILED, e, s)
  else if cf_max_op (en_cfg e) <? zlen key + 64 then (inl JOB_REQUEST_TOO_LARGE, count bump_too_large e, s)
  else state_mutate e s false key [] expected op now.

(** ** Attaching to a store *)

Definition job_meta_payload (id : bytes) (msg_id incarnation version commit : Z) : bytes :=
  [QUEUE_WAL_JOB_FMT] ++ id ++ put64 msg_id ++ put64 incarnation ++ put64 version ++ put64 commit.

(** [fresh] are the random bytes of a new identity, when there are any. *)
Definition job_engine_attach (e : engine) (s : store) (fresh : option bytes) : job_status * engine * store :=
  if negb (Atomic.queue_wal_enabled s) then (JOB_UNSUPPORTED_FEATURE, e, s)
  else if en_attached e then (JOB_VALIDATION_FAILED, e, s)
  else if en_id_set e then (JOB_OK, {| e with en_attached := true |}, s)
  else
    match fresh with
    | None => (JOB_PERSISTENCE_UNAVAILABLE, e, s)
    | Some id =>
        let '(rc, s) := append_record s LOG_JOB_META true QUEUE_WAL_JOB_META_NAME 0 0
          (job_meta_payload id (st_next_id s) (st_next_incarnation s) (en_version e) (en_commit e)) true in
        if rc <? 0 then (JOB_OPERATION_IN_DOUBT, job_engine_fail e, s)
        else (JOB_OK, {| e with en_store_id := id; en_id_set := true; en_attached := true |}, s)
    end.

(** ** Replay hooks *)

Definition raise_version (e : engine) (v : Z) : engine := if en_version e <? v then {| e with en_version := v |} else e.
Definition raise_commit (e : engine) (c : Z) : engine := if en_commit e <? c then {| e with en_commit := c |} else e.

Definition hook_state_apply (e : engine) (m : state_mutation) : option engine :=
  let is_put := sm_kind m =? JOB_KIND_STATE_PUT in
  let digest := job_canonical_digest
    (Request (if is_put then JOB_KIND_STATE_PUT else JOB_KIND_STATE_DELETE) (sm_op_id m) (en_store_id e) None 0 0
       (sm_key m) (sm_expected m) (if is_put then sm_value m else []) None) in
  let '(ok, e) := if is_put then job_state_apply_put_locked e (sm_key m) (sm_value m) (sm_version m) (sm_commit m)
                  else (true, job_state_apply_delete_locked e (sm_key m)) in
  if negb ok then None
  else
    let e := raise_commit (raise_version e (sm_version m)) (sm_commit m) in
    if sm_expires m =? 0 then Some e
    else
      match job_receipt_insert_locked e (u8 (sm_kind m)) (sm_op_id m) digest (sm_commit m) (sm_version m) [] 0 [] 0
              (sm_completed m) (sm_expires m) with
      | (0, e) => Some e
      | _ => None
      end.

Definition completion_digest (store_id : bytes) (c : completion) : bytes :=
  job_canonical_digest
    (Request JOB_KIND_COMPLETION (cp_op_id c) store_id (Some (cp_in_name c)) (cp_in_incarnation c) (cp_in_msg_id c)
       (cp_key c) (cp_expected c) (cp_value c) (match cp_out c with Some (n, inc, _, v) => Some (n, inc, v) | None => None end)).

Definition hook_completion_apply (e : engine) (c : completion) : option engine :=
  let digest := completion_digest (en_store_id e) c in
  let '(ok, e) := job_state_apply_put_locked e (cp_key c) (cp_value c) (cp_version c) (cp_commit c) in
  if negb ok then None
  else
    let e := raise_commit (raise_version e (cp_version c)) (cp_commit c) in
    let '(out_name, out_msg) := match cp_out c with Some (n, _, id, _) => (n, id) | None => ([], 0) end in
    match job_receipt_insert_locked e JOB_KIND_COMPLETION (cp_op_id c) digest (cp_commit c) (cp_version c) (cp_in_name c)
            (cp_in_msg_id c) out_name out_msg (cp_completed c) (cp_expires c) with
    | (0, e) => Some e
    | _ => None
    end.

Definition hook_receipt_apply (e : engine) (r : receipt_record) : option engine :=
  let e := raise_version (raise_commit e (rr_commit r)) (rr_version r) in
  match job_receipt_insert_locked e (u8 (rr_kind r)) (rr_op_id r) (rr_digest r) (rr_commit r) (rr_version r) (rr_in_name r)
          (rr_in_msg_id r) (rr_out_name r) (rr_out_msg_id r) (rr_completed r) (rr_expires r) with
  | (0, e) => Some e
  | _ => None
  end.

Definition hook_meta_apply (e : engine) (m : job_meta) : option engine :=
  let e := if en_id_set e then e else {| e with en_store_id := jm_store_id m; en_id_set := true |} in
  Some (raise_commit (raise_version e (jm_version_hwm m)) (jm_commit_hwm m)).

Definition job_engine_replay_hooks : job_hooks engine :=
  {| state_apply := hook_state_apply; completion_apply := hook_completion_apply;
     receipt_apply := hook_receipt_apply; meta_apply := hook_meta_apply |}.

(** ** The checkpoint *)

(** The record of an entry; the zero operation id and the zero deadline say
    that it restores state only. *)
Definition entry_record (x : jentry) : record :=
  {| r_op := LOG_JOB_STATE; r_durable := true; r_name := QUEUE_WAL_JOB_STATE_NAME; r_id := e_version x; r_aux := e_commit x;
     r_data := job_state_record_encode JOB_KIND_STATE_PUT zero_id 0 (e_key x) (e_value x) 0 0 |}.

Definition receipt_payload (r : jreceipt) : bytes :=
  [jr_kind r; QUEUE_WAL_JOB_FMT] ++ jr_op r ++ jr_digest r ++ [if zlen (jr_out r) =? 0 then 0 else 1] ++
  put16 (zlen (jr_out r)) ++ jr_out r ++ put64 (jr_out_msg r) ++ put16 (zlen (jr_in r)) ++ jr_in r ++
  put64 (jr_in_msg r) ++ put64 (jr_completed r) ++ put64 (jr_expires r).

Definition receipt_wal_record (r : jreceipt) : record :=
  {| r_op := LOG_JOB_RECEIPT; r_durable := true; r_name := QUEUE_WAL_JOB_RECEIPT_NAME; r_id := jr_commit r;
     r_aux := jr_version r; r_data := receipt_payload r |}.

Section Emit.
Context {U : Type} (emit : U -> record -> bool * U).

(** Each record is allocated and handed to the writer; the first failure ends
    the emission. *)
Fixpoint emit_all (e : engine) (u : U) (rs : list record) : bool * engine * U :=
  match rs with
  | [] => (true, e, u)
  | r :: rs =>
      let '(ok, e) := jalloc e in
      if negb ok then (false, e, u)
      else
        let '(ok, u) := emit u r in
        if negb ok then (false, e, u) else emit_all e u rs
  end.

Definition hook_checkpoint_emit (e : engine) (u : U) (now : Z) : bool * engine * U :=
  emit_all e u ((entry_record <$> concat (en_state e)) ++
    (receipt_wal_record <$> List.filter (fun r => negb (expired now r)) (concat (en_receipts e)))).

End Emit.

Definition hook_live_bytes (e : engine) : Z := u64 (en_bytes e + en_receipt_bytes e).
Definition hook_store_id (e : engine) : option bytes := job_engine_store_id e.
Definition hook_version_hwm (e : engine) : Z := en_version e.
Definition hook_commit_hwm (e : engine) : Z := en_commit e.

(** ** Enumeration *)

(** The entries the callback sees, in the order of the buckets. *)
Definition job_state_foreach (e : engine) (max_entries : nat) : list jentry := take max_entries (concat (en_state e)).

Record receipt_sel := ReceiptSel { sl_completed : Z; sl_op : bytes }.

(** [memcmp(a, b, n) < 0]. *)
Fixpoint bytes_less (a b : bytes) : bool :=
  match a, b with
  | x :: a, y :: b => if x =? y then bytes_less a b else x <? y
  | _, _ => false
  end.

Definition receipt_sel_less (a b : receipt_sel) : bool :=
  if sl_completed a =? sl_completed b then bytes_less (sl_op a) (sl_op b) else sl_completed a <? sl_completed b.

Definition sel_of (r : jreceipt) : receipt_sel := ReceiptSel (jr_completed r) (jr_op r).

Definition sel_at (sel : list receipt_sel) (i : nat) : receipt_sel := default (ReceiptSel 0 zero_id) (sel !! i).

(** The largest is derived again after a replacement: the loop from one. *)
Definition derive_largest (sel : list receipt_sel) (largest : nat) : nat :=
  fold_left (fun l i => if receipt_sel_less (sel_at sel l) (sel_at sel i) then i else l) (seq 1 (length sel - 1)) largest.

Definition sel_step (max_entries : nat) (st : list receipt_sel * nat) (x : receipt_sel) : list receipt_sel * nat :=
  let '(sel, largest) := st in
  let kept := length sel in
  if (kept <? max_entries)%nat then
    (sel ++ [x], if (kept =? 0)%nat || receipt_sel_less (sel_at sel largest) x then kept else largest)
  else if negb (receipt_sel_less x (sel_at sel largest)) then (sel, largest)
  else
    let sel := <[largest := x]> sel in (sel, derive_largest sel largest).

(** Insertion into the sorted prefix. *)
Fixpoint insert_sel (key : receipt_sel) (l : list receipt_sel) : list receipt_sel :=
  match l with
  | [] => [key]
  | x :: l => if receipt_sel_less key x then key :: x :: l else x :: insert_sel key l
  end.

Definition sort_sel (l : list receipt_sel) : list receipt_sel := fold_left (fun acc x => insert_sel x acc) l [].

Definition sel_matches (kind_filter after_ms : Z) (after_op : option bytes) (r : jreceipt) : bool :=
  ((kind_filter =? 0) || (jr_kind r =? u8 kind_filter)) &&
  match after_op with
  | Some op => name_eqb op zero_id || receipt_sel_less (ReceiptSel after_ms op) (sel_of r)
  | None => true
  end.

(** The snapshots the callback sees, and the number of matches. *)
Definition job_receipt_foreach (e : engine) (kind_filter after_ms : Z) (after_op : option bytes) (max_entries : nat)
    : list receipt_view * Z * engine :=
  if (max_entries =? 0)%nat then ([], 0, e)
  else
    let '(ok, e) := jalloc e in
    if negb ok then ([], 0, e)
    else
      let matching := List.filter (sel_matches kind_filter after_ms after_op) (concat (en_receipts e)) in
      let sel := (fold_left (sel_step max_entries) (sel_of <$> matching) ([], 0%nat)).1 in
      (omap (fun x => job_receipt_fill <$> job_receipt_find_locked e (sl_op x)) (sort_sel sel), zlen matching, e).

Definition job_engine_usage (e : engine) : Z * Z * Z * Z :=
  (en_entries e, en_bytes e, en_receipt_count e, en_receipt_bytes e).

End JobEngine.
