(* ===== verification/Checkpoint.v ===== *)
(** * Checkpoints of the queue WAL (queue.c: ckpt_*, queue_checkpoint_body)

    A checkpoint writes the live state as records into a temporary file, through
    a staging buffer, publishes the file under the name of the WAL and appends
    to it from then on.  The writer is a value: what the file holds, what is
    staged, the records emitted so far, and the outcomes of the next I/O and
    allocations.  The checkpoint holds every lock, so it is one step.

    What a failing [write] leaves in the temporary file is not described: the
    file is unlinked.  The staging buffer of the WAL itself is part of
    [append_record]; its flush here is one I/O outcome. *)

From stdpp Require Import base numbers option list.
From S2P Require Import Prelude Queue QueueIndex WalRecord QueueStore QueueReplay Exchange QueueTx Atomic JobEngine.
Import Queue Wal Store Replay Exchanges Tx JobEngine.

Module Checkpoint.

Definition QUEUE_CHECKPOINT_FLOOR : Z := 2 ^ 20.
Definition CKPT_BUF_CAP : Z := 64 * 1024.

(** ** The writer *)

(** [ck_buf] is [None] when the buffer could not be allocated. *)
Record ckpt := Ckpt {
  ck_file : bytes;
  ck_buf : option bytes;
  ck_emitted : list record;
  ck_bytes : Z;
  ck_ios : list bool;
  ck_allocs : list bool }.

Definition ck_io (c : ckpt) : bool * ckpt :=
  let '(b, r) := draw (ck_ios c) in (b, {| c with ck_ios := r |}).
Definition ck_alloc (c : ckpt) : bool * ckpt :=
  let '(b, r) := draw (ck_allocs c) in (b, {| c with ck_allocs := r |}).

Definition write_all (c : ckpt) (data : bytes) : bool * ckpt :=
  let '(ok, c) := ck_io c in (ok, if ok then {| c with ck_file := ck_file c ++ data |} else c).

Definition ckpt_flush (c : ckpt) : bool * ckpt :=
  match ck_buf c with
  | None => (true, c)
  | Some staged =>
      if zlen staged =? 0 then (true, c)
      else
        let '(ok, c) := write_all c staged in
        if ok then (true, {| c with ck_buf := Some [] |}) else (false, c)
  end.

Definition stage (c : ckpt) (data : bytes) : ckpt :=
  match ck_buf c with Some staged => {| c with ck_buf := Some (staged ++ data) |} | None => c end.

Definition ckpt_write (c : ckpt) (data : bytes) : bool * ckpt :=
  if zlen data =? 0 then (true, c)
  else
    match ck_buf c with
    | None => let '(ok, c) := ckpt_flush c in if negb ok then (false, c) else write_all c data
    | Some staged =>
        if CKPT_BUF_CAP <=? zlen data then
          let '(ok, c) := ckpt_flush c in if negb ok then (false, c) else write_all c data
        else if CKPT_BUF_CAP <? zlen staged + zlen data then
          let '(ok, c) := ckpt_flush c in if negb ok then (false, c) else (true, stage c data)
        else (true, stage c data)
    end.

(** The 28 bytes of the header, the name and the data are three writes. *)
Definition ckpt_emit (c : ckpt) (r : record) : bool * ckpt :=
  let '(ok, c) := ckpt_write c (header24 r ++ put32 (record_crc r)) in
  if negb ok then (false, c)
  else
    let '(ok, c) := ckpt_write c (r_name r) in
    if negb ok then (false, c)
    else
      let '(ok, c) := ckpt_write c (r_data r) in
      if negb ok then (false, c)
      else (true, {| c with ck_emitted := ck_emitted c ++ [r];
                            ck_bytes := u64 (ck_bytes c + (LOG_HEADER + zlen (r_name r) + zlen (r_data r))) |}).

(** The loops [for (...; !rc; ...)]: the first failure ends them. *)
Fixpoint emit_records (c : ckpt) (rs : list record) : bool * ckpt :=
  match rs with
  | [] => (true, c)
  | r :: rs => let '(ok, c) := ckpt_emit c r in if ok then emit_records c rs else (false, c)
  end.

(** ** The records of a state *)

Definition declare_record (q : queue) : record :=
  {| r_op := LOG_DECLARE; r_durable := q_durable q; r_name := q_name q; r_id := 0; r_aux := q_max_depth q;
     r_data := dlq_ext (q_dlq_name q) (q_max_deliveries q) |}.

Definition queue_meta_record (q : queue) : record :=
  {| r_op := LOG_QUEUE_META; r_durable := true; r_name := q_name q; r_id := q_incarnation q; r_aux := 0; r_data := [] |}.

Definition declarations (job : bool) (q : queue) : list record :=
  declare_record q :: (if job then [queue_meta_record q] else []).

Definition message_record (q : queue) (op id aux : Z) (data : bytes) : record :=
  {| r_op := op; r_durable := true; r_name := q_name q; r_id := id; r_aux := aux; r_data := data |}.

(** A message: its publication, its deliveries, its retry delay. *)
Definition message_records (q : queue) (m : message) : list record :=
  message_record q LOG_PUBLISH (m_id m) (m_expires m) (m_data m) ::
  replicate (Z.to_nat (m_deliveries m)) (message_record q LOG_DELIVER (m_id m) 0 []) ++
  (if negb (is_inflight m) && negb (m_time m =? 0)
   then [message_record q LOG_REQUEUE (m_id m) (m_time m) []] else []).

Definition binding_record (x : exchange) (b : binding) : record :=
  {| r_op := LOG_EXBIND; r_durable := true; r_name := x_name x; r_id := 0; r_aux := x_revision x;
     r_data := binding_payload (b_queue b) (b_key b) |}.

(** Three bytes and the alternate, also without one. *)
Definition exchange_payload (x : exchange) : bytes :=
  [u8 (x_type x)] ++ put16 (zlen (x_ae_name x)) ++ x_ae_name x.

Definition exchange_records (x : exchange) : list record :=
  {| r_op := LOG_EXDECLARE; r_durable := x_durable x; r_name := x_name x; r_id := 0; r_aux := x_revision x;
     r_data := exchange_payload x |} :: (binding_record x <$> x_bindings x).

Definition consumer_record (c : consumer) : record :=
  {| r_op := LOG_CONSUMER; r_durable := true; r_name := c_name c; r_id := c_owner c; r_aux := 0; r_data := [] |}.

Definition tx_record (tx : queue_tx) : record :=
  {| r_op := LOG_TX_PREPARE; r_durable := true; r_name := tx_source tx; r_id := 0; r_aux := 0; r_data := tx_payload tx |}.

(** The insertion sort by creation order, on the reversed prefix. *)
Fixpoint shift_in (q : queue) (prefix : list queue) : list queue :=
  match prefix with
  | [] => [q]
  | x :: prefix' => if q_lock_id q <? q_lock_id x then x :: shift_in q prefix' else q :: prefix
  end.

Definition sort_queues (qs : list queue) : list queue := rev (fold_left (fun p q => shift_in q p) qs []).

(** ** The job engine's part *)

(** What a checkpoint asks of the engine; [ch_emit] hands its records to the
    writer. *)
Record ckpt_hooks (E : Type) := CkptHooks {
  ch_store_id : E -> option bytes;
  ch_version_hwm : E -> Z;
  ch_commit_hwm : E -> Z;
  ch_live_bytes : E -> Z;
  ch_emit : E -> ckpt -> Z -> bool * E * ckpt }.
#[global] Arguments ch_store_id {E}.
#[global] Arguments ch_version_hwm {E}.
#[global] Arguments ch_commit_hwm {E}.
#[global] Arguments ch_live_bytes {E}.
#[global] Arguments ch_emit {E}.

Definition job_engine_ckpt_hooks : ckpt_hooks engine :=
  {| ch_store_id := hook_store_id; ch_version_hwm := hook_version_hwm; ch_commit_hwm := hook_commit_hwm;
     ch_live_bytes := hook_live_bytes; ch_emit := hook_checkpoint_emit ckpt_emit |}.

Section Body.
Context {E : Type} (h : ckpt_hooks E).

Definition meta_records (s : store) (e : E) : list record :=
  if st_job_enabled s then
    match ch_store_id h e with
    | Some id =>
        [{| r_op := LOG_JOB_META; r_durable := true; r_name := QUEUE_WAL_JOB_META_NAME; r_id := 0; r_aux := 0;
            r_data := job_meta_payload id (st_next_id s) (st_next_incarnation s) (ch_version_hwm h e) (ch_commit_hwm h e) |}]
    | None => []
    end
  else [].

(** The queues that are not deleted, in creation order. *)
Definition checkpointed_queues (s : store) : list queue := List.filter (fun q => negb (q_deleted q)) (sort_queues (st_queues s)).

Definition queue_records (s : store) : list record :=
  concat (declarations (st_job_enabled s) <$> checkpointed_queues s) ++
  concat ((fun q => concat (message_records q <$> q_msgs q)) <$> checkpointed_queues s).

Definition routing_records (s : store) : list record :=
  concat (exchange_records <$> st_exchanges s) ++ (consumer_record <$> st_consumers s).

(** The pending transactions; each payload is allocated. *)
Fixpoint emit_pending (c : ckpt) (txs : list queue_tx) : bool * ckpt :=
  match txs with
  | [] => (true, c)
  | tx :: txs =>
      let '(ok, c) := ck_alloc c in
      if negb ok then (false, c)
      else let '(ok, c) := ckpt_emit c (tx_record tx) in if ok then emit_pending c txs else (false, c)
  end.

(** Everything the file holds, in its order; ends with the flush. *)
Definition write_snapshot (s : store) (e : E) (c : ckpt) (now : Z) : bool * E * ckpt :=
  let '(ok, c) := emit_records c (meta_records s e ++ queue_records s) in
  if negb ok then (false, e, c)
  else
    let '(ok, e, c) := if st_job_enabled s then ch_emit h e c now else (true, e, c) in
    if negb ok then (false, e, c)
    else
      let '(ok, c) := emit_records c (routing_records s) in
      if negb ok then (false, e, c)
      else
        let '(ok, c) := emit_pending c (st_tx_pending s) in
        if negb ok then (false, e, c)
        else let '(ok, c) := ckpt_flush c in (ok, e, c).

Definition live_total (s : store) (e : E) : Z :=
  u64 (u64 (fold_left (fun a q => if q_deleted q then a else u64 (a + q_live_bytes q)) (st_queues s) 0 + st_meta_live s) +
       (if st_job_enabled s then ch_live_bytes h e else 0)).

(** History is still proportional to the live state. *)
Definition proportional (s : store) (e : E) : bool :=
  zlen (encode_all (st_log s)) <=? u64 (u64 (live_total s e * 2) + QUEUE_CHECKPOINT_FLOOR).

(** [pub] is what the name of the WAL refers to afterwards, when it is another
    file than before. *)
Record outcome := Outcome { oc_rc : Z; oc_store : store; oc_engine : E; oc_published : option bytes }.

Definition taken (s : store) (c : ckpt) : store := {| s with st_ios := ck_ios c; st_allocs := ck_allocs c |}.

Definition close_log (s : store) : store := {| s with st_failed := true; st_log_open := false |}.

(** After the snapshot: fsync and close, rename, the fsync of the directory
    (which is opened first), and the swap of the descriptor. *)
Definition publish (s : store) (e : E) (c : ckpt) (wrote : bool) : outcome :=
  let '(synced, c) := if wrote then ck_io c else (false, c) in
  let '(closed, c) := ck_io c in
  if negb (synced && closed) then Outcome (-1) (taken s c) e None
  else
    let '(renamed, c) := ck_io c in
    if negb renamed then Outcome (-1) (taken s c) e None
    else
      let '(opened, c) := ck_io c in
      let '(dir, c) := if opened then ck_io c else (false, c) in
      if negb dir then Outcome (-1) (taken s c) e (Some (ck_file c))
      else
        let '(reopened, c) := ck_io c in
        if negb reopened then Outcome (-1) (close_log (taken s c)) e (Some (ck_file c))
        else
          let '(seeked, c) := ck_io c in
          let s := taken s c in
          if negb seeked then Outcome (-1) {| s with st_failed := true; st_log := ck_emitted c |} e (Some (ck_file c))
          else
            let records := u64 (zlen (ck_emitted c)) in
            Outcome 1 {| s with st_log := ck_emitted c; st_wal_seq := records; st_synced_seq := records |} e (Some (ck_file c)).

Definition queue_checkpoint_body (s : store) (e : E) (force : bool) (now : Z) : outcome :=
  if negb (st_log_open s) then Outcome 0 s e None
  else
    let '(staged, s) := io s in
    if negb staged then Outcome (-1) (set_failed s) e None
    else if negb force && proportional s e then Outcome 0 s e None
    else
      let '(sorted, s) := alloc s in
      if negb sorted then Outcome (-1) s e None
      else
        let '(made, s) := io s in
        if negb made then Outcome (-1) s e None
        else
          let '(buffered, s) := alloc s in
          let '(wrote, e, c) := write_snapshot s e (Ckpt [] (if buffered then Some [] else None) [] 0 (st_ios s) (st_allocs s)) now in
          publish s e c wrote.

End Body.

(** ** The writer is transparent *)

(** What has been handed to the writer. *)
Definition content (c : ckpt) : bytes := ck_file c ++ default [] (ck_buf c).

(** The staging buffer is never overrun. *)
Definition within_buffer (c : ckpt) : Prop := match ck_buf c with Some b => zlen b <= CKPT_BUF_CAP | None => True end.

(** A step of the writer that is handed [data]: on success the content grows by
    it; the records and the allocations are left alone, and the buffer is kept
    within its bounds, in every case.  With no I/O failure ahead it succeeds. *)
Record hands (c : ckpt) (data : bytes) (ok : bool) (c' : ckpt) : Prop := Hands {
  hd_content : ok = true -> content c' = content c ++ data;
  hd_emitted : ck_emitted c' = ck_emitted c;
  hd_allocs : ck_allocs c' = ck_allocs c;
  hd_buffer : within_buffer c -> within_buffer c';
  hd_kind : is_Some (ck_buf c) -> is_Some (ck_buf c');
  hd_ok : ck_ios c = [] -> ok = true /\ ck_ios c' = [] }.

Lemma write_all_hands c data : default [] (ck_buf c) = [] -> let '(ok, c') := write_all c data in hands c data ok c' /\ ck_buf c' = ck_buf c.
Proof.
  intros Hb. unfold write_all, ck_io. destruct (draw (ck_ios c)) as [b l] eqn:Ed. destruct b; (split; [|done]); constructor; try done.
  - intros _. unfold content. cbn [ck_file ck_buf]. by rewrite Hb, !app_nil_r.
  - intros E. rewrite E in Ed. by injection Ed as <-.
  - intros E. rewrite E in Ed. done.
Qed.

Lemma flush_hands c : let '(ok, c') := ckpt_flush c in hands c [] ok c' /\ (ok = true -> default [] (ck_buf c') = []).
Proof.
  unfold ckpt_flush. destruct (ck_buf c) as [b|] eqn:Eb; [|by rewrite Eb; split; [constructor; [by rewrite app_nil_r|..]|]].
  destruct (Z.eqb_spec (zlen b) 0) as [E0|_].
  { apply zlen_zero in E0. subst b. split; [constructor; [by rewrite app_nil_r|..]; done|]. by rewrite Eb. }
  unfold write_all, ck_io. destruct (draw (ck_ios c)) as [ok l] eqn:Ed. destruct ok; (split; [|done]); constructor; try done.
  - intros _. unfold content. cbn [ck_file ck_buf]. by rewrite Eb, !app_nil_r.
  - intros E. rewrite E in Ed. by injection Ed as <-.
  - intros E. rewrite E in Ed. done.
Qed.

Lemma hands_trans c d1 c1 d2 ok c2 : hands c d1 true c1 -> hands c1 d2 ok c2 -> hands c (d1 ++ d2) ok c2.
Proof.
  intros [A1 A2 A3 A4 A5 A6] [B1 B2 B3 B4 B5 B6]. constructor; [|congruence|congruence|auto|auto|].
  - intros E. by rewrite B1, A1, app_assoc by done.
  - intros E. apply B6. by apply A6.
Qed.

Lemma hands_fail c d1 c1 d2 : hands c d1 false c1 -> hands c d2 false c1.
Proof. intros [A1 A2 A3 A4 A5 A6]. constructor; try done. Qed.

Lemma stage_hands c b data : ck_buf c = Some b -> zlen b + zlen data <= CKPT_BUF_CAP -> hands c data true (stage c data).
Proof.
  intros Eb Hl. unfold stage. rewrite Eb. constructor; try done.
  - intros _. unfold content. rewrite Eb. cbn [ck_file ck_buf default]. by rewrite <- app_assoc.
  - intros _. unfold within_buffer. cbn [ck_buf]. by rewrite zlen_app.
Qed.

(** A flush, then one more step. *)
Lemma flush_then c data (k : ckpt -> bool * ckpt) : (forall c1, hands c [] true c1 -> default [] (ck_buf c1) = [] ->
    let '(ok, c2) := k c1 in hands c1 data ok c2) ->
  let '(ok, c') := (let '(ok, c1) := ckpt_flush c in if negb ok then (false, c1) else k c1) in hands c data ok c'.
Proof.
  intros Hk. pose proof (flush_hands c) as F. destruct (ckpt_flush c) as [ok c1]. destruct F as [F1 F2]. destruct ok; cbn [negb]; [|by eapply hands_fail].
  specialize (Hk c1 F1 (F2 eq_refl)). destruct (k c1) as [ok2 c2]. apply (hands_trans c [] c1 data ok2 c2 F1 Hk).
Qed.

Lemma write_hands c data : let '(ok, c') := ckpt_write c data in hands c data ok c'.
Proof.
  unfold ckpt_write. destruct (Z.eqb_spec (zlen data) 0) as [->%zlen_zero|_]; [constructor; try done; intros _; by rewrite app_nil_r|].
  assert (Wr : forall c1, hands c [] true c1 -> default [] (ck_buf c1) = [] -> let '(ok, c2) := write_all c1 data in hands c1 data ok c2).
  { intros c1 _ Hb. pose proof (write_all_hands c1 data Hb) as K. destruct (write_all c1 data). apply K. }
  destruct (ck_buf c) as [b|] eqn:Eb; [|by apply flush_then].
  destruct (Z.leb_spec CKPT_BUF_CAP (zlen data)) as [|Hd]; [by apply flush_then|].
  destruct (Z.ltb_spec CKPT_BUF_CAP (zlen b + zlen data)); [|by apply (stage_hands c b)].
  apply (flush_then c data (fun c => (true, stage c data))). intros c1 H1 Hb. destruct (ck_buf c1) as [b1|] eqn:E1.
  - cbn in Hb. subst b1. apply (stage_hands c1 []); [done|]. rewrite zlen_nil. lia.
  - destruct (hd_kind _ _ _ _ H1) as [b1 E']; [by rewrite Eb|]. congruence.
Qed.

(** One record: its bytes. *)
Record emits (c : ckpt) (rs : list record) (ok : bool) (c' : ckpt) : Prop := Emits {
  em_content : ok = true -> content c' = content c ++ encode_all rs;
  em_emitted : ok = true -> ck_emitted c' = ck_emitted c ++ rs;
  em_buffer : within_buffer c -> within_buffer c';
  em_allocs : ck_allocs c = [] -> ck_allocs c' = [];
  em_ok : ck_ios c = [] -> ck_allocs c = [] -> ok = true /\ ck_ios c' = [] /\ ck_allocs c' = [] }.

Lemma emit_emits c r : let '(ok, c') := ckpt_emit c r in emits c [r] ok c'.
Proof.
  assert (Bad : forall c1 d, hands c d false c1 -> emits c [r] false c1).
  { intros c1 d [A1 A2 A3 A4 A5 A6]. constructor; try done; [by rewrite A3|]. intros E. by destruct (A6 E). }
  unfold ckpt_emit. pose proof (write_hands c (header24 r ++ put32 (record_crc r))) as H1. destruct (ckpt_write c _) as [[|] c1]; cbn [negb]; [|by eapply Bad].
  pose proof (write_hands c1 (r_name r)) as H2. destruct (ckpt_write c1 _) as [ok2 c2]. pose proof (hands_trans _ _ _ _ _ _ H1 H2) as H12.
  destruct ok2; cbn [negb]; [|by eapply Bad].
  pose proof (write_hands c2 (r_data r)) as H3. destruct (ckpt_write c2 _) as [ok3 c3]. pose proof (hands_trans _ _ _ _ _ _ H12 H3) as [A1 A2 A3 A4 A5 A6].
  destruct ok3; cbn [negb]; [|by eapply Bad; constructor]. constructor.
  - intros _. transitivity (content c3); [done|]. rewrite A1 by done. f_equal. unfold encode_all, encode. cbn. by rewrite app_nil_r, <- !app_assoc.
  - intros _. cbn [ck_emitted]. by rewrite A2.
  - done.
  - intros E. cbn [ck_allocs]. by rewrite A3.
  - intros E1 E2. cbn [ck_ios ck_allocs]. destruct (A6 E1) as [_ ->]. by rewrite A3.
Qed.

Lemma encode_all_app a b : encode_all (a ++ b) = encode_all a ++ encode_all b.
Proof. unfold encode_all. by rewrite fmap_app, concat_app. Qed.

Lemma emits_nil c : emits c [] true c.
Proof. constructor; try done; intros _; by rewrite app_nil_r. Qed.

Lemma emits_trans c a c1 b ok c2 : emits c a true c1 -> emits c1 b ok c2 -> emits c (a ++ b) ok c2.
Proof.
  intros [A1 A2 A3 A5 A4] [B1 B2 B3 B5 B4]. constructor; [| |auto|auto|].
  - intros E. by rewrite B1, A1, encode_all_app, app_assoc by done.
  - intros E. by rewrite B2, A2, app_assoc by done.
  - intros E1 E2. destruct (A4 E1 E2) as (_ & E3 & E4). by apply B4.
Qed.

Lemma emits_fail c a b c1 : emits c a false c1 -> emits c b false c1.
Proof. intros [A1 A2 A3 A5 A4]. constructor; try done. Qed.

Lemma emit_records_emits rs : forall c, let '(ok, c') := emit_records c rs in emits c rs ok c'.
Proof.
  induction rs as [|r rs IH]; intros c; cbn [emit_records]; [apply emits_nil|].
  pose proof (emit_emits c r) as H. destruct (ckpt_emit c r) as [[|] c1]; [|by eapply emits_fail].
  specialize (IH c1). destruct (emit_records c1 rs). apply (emits_trans c [r] c1 rs); done.
Qed.

Lemma emit_pending_emits txs : forall c, let '(ok, c') := emit_pending c txs in emits c (tx_record <$> txs) ok c'.
Proof.
  induction txs as [|tx txs IH]; intros c; cbn [emit_pending]; [apply emits_nil|]. unfold ck_alloc.
  assert (A : emits c [] (draw (ck_allocs c)).1 {| c with ck_allocs := (draw (ck_allocs c)).2 |}).
  { constructor; try done; try (intros _; by rewrite app_nil_r); [by intros ->|]. intros E1 ->. done. }
  destruct (draw (ck_allocs c)) as [[|] l]; cbn [negb]; [|by eapply emits_fail]. cbn [fst snd] in A. set (c0 := {| c with ck_allocs := l |}) in *.
  pose proof (emit_emits c0 (tx_record tx)) as H. destruct (ckpt_emit c0 (tx_record tx)) as [ok c1]. pose proof (emits_trans _ _ _ _ _ _ A H) as H1.
  destruct ok; [|by eapply emits_fail]. specialize (IH c1). destruct (emit_pending c1 txs). apply (emits_trans c [tx_record tx] c1); done.
Qed.

(** ** The snapshot *)

(** Only outcomes have been drawn. *)
Definition drew (s s' : store) : Prop := exists ios allocs,
  s' = {| s with st_ios := ios; st_allocs := allocs |} /\ (st_allocs s = [] -> allocs = []).

Lemma drew_refl s : drew s s.
Proof. exists (st_ios s), (st_allocs s). split; [by destruct s|done]. Qed.

Lemma drew_trans a b c : drew a b -> drew b c -> drew a c.
Proof. intros (i & l & -> & H) (i' & l' & -> & H'). exists i', l'. split; [done|]. cbn in H'. auto. Qed.

Lemma io_drew s : drew s (io s).2.
Proof. unfold io. destruct (draw (st_ios s)) as [b l]. by exists l, (st_allocs s). Qed.

Lemma alloc_drew s : drew s (alloc s).2.
Proof. unfold alloc. destruct (draw (st_allocs s)) as [b l] eqn:E. exists (st_ios s), l. split; [done|]. intros H. rewrite H in E. by injection E as _ <-. Qed.

Lemma io_ready s : st_ios s = [] -> io s = (true, s).
Proof. intros E. unfold io. rewrite E. destruct s; cbn in *. by subst. Qed.

(** What the store relies on of the engine: the hook emits its records, or
    stops; it stops only for want of memory ([ready] says there is some) or at
    a failed write. *)
Class EmitsRecords {E : Type} (h : ckpt_hooks E) (recs : E -> Z -> list record) (ready : E -> Prop) : Prop :=
  emits_records : forall e c now, let '(ok, e', c') := ch_emit h e c now in
    (ok = true -> emits c (recs e now) true c') /\ (within_buffer c -> within_buffer c') /\
    (ready e -> ck_ios c = [] -> ck_allocs c = [] -> ok = true).

Section Snapshot.
Context {E : Type} (h : ckpt_hooks E) (recs : E -> Z -> list record) (ready : E -> Prop).
Context {Hh : EmitsRecords h recs ready}.

Definition checkpoint_records (s : store) (e : E) (now : Z) : list record :=
  meta_records h s e ++ queue_records s ++ (if st_job_enabled s then recs e now else []) ++
  routing_records s ++ (tx_record <$> st_tx_pending s).

Lemma job_emits s e c now : let '(ok, e', c') := if st_job_enabled s then ch_emit h e c now else (true, e, c) in
  (ok = true -> emits c (if st_job_enabled s then recs e now else []) true c') /\ (within_buffer c -> within_buffer c') /\
  (ready e -> ck_ios c = [] -> ck_allocs c = [] -> ok = true).
Proof using Hh.
  destruct (st_job_enabled s); [apply Hh|]. split; [intros _; apply emits_nil|done].
Qed.

Lemma write_snapshot_spec s e c now : let '(ok, e', c') := write_snapshot h s e c now in
  (ok = true -> emits c (checkpoint_records s e now) true c' /\ default [] (ck_buf c') = []) /\
  (within_buffer c -> within_buffer c') /\ (ready e -> ck_ios c = [] -> ck_allocs c = [] -> ok = true).
Proof using Hh.
  unfold write_snapshot. pose proof (emit_records_emits (meta_records h s e ++ queue_records s) c) as H1.
  destruct (emit_records c _) as [[|] c1]; cbn [negb]; [|split; [done|split; [apply H1|intros _ E1 E2; by apply (em_ok _ _ _ _ H1 E1 E2)]]].
  pose proof (job_emits s e c1 now) as H2. destruct (if st_job_enabled s then _ else _) as [[[|] e2] c2]; destruct H2 as (H2 & B2 & O2); cbn [negb];
    [|split; [done|split; [intros B; by apply B2, H1|intros R E1 E2; destruct (em_ok _ _ _ _ H1 E1 E2) as (_ & ? & ?); by apply O2]]].
  pose proof (emits_trans _ _ _ _ _ _ H1 (H2 eq_refl)) as H12. pose proof (emit_records_emits (routing_records s) c2) as H3. destruct (emit_records c2 _) as [ok3 c3].
  pose proof (emits_trans _ _ _ _ _ _ H12 H3) as H13. destruct ok3; cbn [negb];
    [|split; [done|split; [apply H13|intros _ E1 E2; by apply (em_ok _ _ _ _ H13 E1 E2)]]].
  pose proof (emit_pending_emits (st_tx_pending s) c3) as H4. destruct (emit_pending c3 _) as [ok4 c4].
  pose proof (emits_trans _ _ _ _ _ _ H13 H4) as H14. destruct ok4; cbn [negb];
    [|split; [done|split; [apply H14|intros _ E1 E2; by apply (em_ok _ _ _ _ H14 E1 E2)]]].
  pose proof (flush_hands c4) as F. destruct (ckpt_flush c4) as [ok5 c5]. destruct F as [[F1 F2 F3 F4 F5 F6] F7]. destruct H14 as [A1 A2 A3 A7 A4].
  split; [|split; [auto|intros _ E1 E2; by apply F6, A4]]. intros ->. split; [|by apply F7].
  assert (Er : checkpoint_records s e now = (((meta_records h s e ++ queue_records s) ++ (if st_job_enabled s then recs e now else [])) ++
    routing_records s) ++ (tx_record <$> st_tx_pending s)) by (unfold checkpoint_records; by rewrite <- !app_assoc).
  rewrite Er. constructor.
  - intros _. by rewrite F1, A1, app_nil_r by done.
  - intros _. rewrite F2. by apply A2.
  - auto.
  - intros Ea. rewrite F3. auto.
  - intros E1 E2. destruct (A4 E1 E2) as (_ & E3 & E4). destruct (F6 E3) as [_ E5]. split; [done|]. split; [done|]. by rewrite F3.
Qed.

(** What an operation of the store sees of it. *)
Definition live_state (s : store) : list queue * list exchange * list consumer * list queue_tx * Z * Z :=
  (st_queues s, st_exchanges s, st_consumers s, st_tx_pending s, st_next_id s, st_next_owner s).

(** The outcome of a checkpoint of [s] whose records are [rs]. *)
Record checkpointed (s : store) (rs : list record) (o : @outcome E) : Prop := Checkpointed {
  cd_live : live_state (oc_store o) = live_state s;
  cd_file : oc_published o = None \/ oc_published o = Some (encode_all rs);
  cd_written : oc_rc o = 1 -> oc_published o = Some (encode_all rs) /\ st_log (oc_store o) = rs /\
    st_failed (oc_store o) = st_failed s /\ st_wal_seq (oc_store o) = u64 (zlen rs) /\ st_synced_seq (oc_store o) = u64 (zlen rs);
  cd_kept : oc_published o = None -> st_log (oc_store o) = st_log s;
  cd_orphan : oc_rc o <> 1 -> is_Some (oc_published o) -> st_failed (oc_store o) = false ->
    drew s (oc_store o) }.

(** Splits the outcomes of the I/O that is left. *)
Ltac ios := repeat match goal with |- context [draw ?l] => destruct (draw l) as [[|] ?]; cbn [ck_ios ck_file ck_emitted ck_allocs negb andb] end.

Lemma publication_spec s0 s e c rs (wrote : bool) : drew s0 s ->
  (wrote = true -> ck_file c = encode_all rs /\ ck_emitted c = rs /\ (st_allocs s0 = [] -> ck_allocs c = [])) -> checkpointed s0 rs (publish s e c wrote).
Proof using.
  intros D Hw. assert (K : live_state s = live_state s0 /\ st_log s = st_log s0 /\ st_failed s = st_failed s0) by (by destruct D as (? & ? & -> & _)).
  destruct K as (Hl & Hs & Hf). 
  assert (Dt : forall x, (st_allocs s0 = [] -> ck_allocs x = []) -> drew s0 (taken s x)) by (intros x Hx; destruct D as (? & ? & -> & _); by exists (ck_ios x), (ck_allocs x)).
  unfold publish, ck_io. destruct wrote; [destruct (Hw eq_refl) as (Hc & <- & Ha)|]; ios;
    constructor; cbn [oc_store oc_rc oc_published]; rewrite ?Hc; try done; auto; by intros _ [? ?].
Qed.

Lemma publish_ok s (e : E) c : ck_ios c = [] -> oc_rc (publish s e c true) = 1.
Proof using. intros Ei. unfold publish, ck_io. by rewrite Ei. Qed.

Lemma body_spec s e force now : checkpointed s (checkpoint_records s e now) (queue_checkpoint_body h s e force now).
Proof using Hh.
  assert (Stop : forall rc s', drew s s' -> rc <> 1 -> checkpointed s (checkpoint_records s e now) (Outcome rc s' e None)).
  { intros rc s' (ios & allocs & -> & _) H. constructor; cbn; [done|by left|done|done|by intros _ [? ?]]. }
  unfold queue_checkpoint_body. destruct (st_log_open s); cbn [negb]; [|apply Stop; [apply drew_refl|done]].
  pose proof (io_drew s) as D1. destruct (io s) as [[|] s1]; cbn [negb fst snd] in *.
  2:{ destruct D1 as (ios & allocs & -> & _). constructor; cbn; [done|by left|done|done|by intros _ [? ?]]. }
  destruct (negb force && _); [by apply Stop|].
  pose proof (drew_trans _ _ _ D1 (alloc_drew s1)) as D2. destruct (alloc s1) as [[|] s2]; cbn [negb fst snd] in *; [|by apply Stop].
  pose proof (drew_trans _ _ _ D2 (io_drew s2)) as D3. destruct (io s2) as [[|] s3]; cbn [negb fst snd] in *; [|by apply Stop].
  pose proof (drew_trans _ _ _ D3 (alloc_drew s3)) as D4. destruct (alloc s3) as [b s4]; cbn [snd] in D4.
  set (c0 := Ckpt [] (if b then Some [] else None) [] 0 (st_ios s4) (st_allocs s4)).
  pose proof (write_snapshot_spec s4 e c0 now) as K. destruct (write_snapshot h s4 e c0 now) as [[ok e'] c']. destruct K as (K1 & _ & _).
  destruct D4 as (ios & allocs & E4 & H4). assert (Er : checkpoint_records s4 e now = checkpoint_records s e now) by (by rewrite E4).
  apply publication_spec; [by exists ios, allocs|]. intros ->. destruct (K1 eq_refl) as [[A1 A2 _ A4 _] B]. specialize (A1 eq_refl). specialize (A2 eq_refl).
  rewrite Er in A1, A2. unfold content in A1. rewrite B, app_nil_r in A1. split; [rewrite A1; by destruct b|]. split; [exact A2|]. intros Ea. apply A4. unfold c0. rewrite E4. cbn. auto.
Qed.

Lemma body_ok s e now : st_log_open s = true -> st_ios s = [] -> st_allocs s = [] -> ready e -> oc_rc (queue_checkpoint_body h s e true now) = 1.
Proof using Hh.
  intros Ho Ei Ea R. unfold queue_checkpoint_body. rewrite Ho. cbn [negb andb]. rewrite !io_ready by done. cbn [negb andb].
  rewrite !alloc_nil by done. cbn [negb]. rewrite io_ready by done. cbn [negb]. rewrite alloc_nil by done. cbn iota.
  set (c0 := Ckpt _ _ _ _ _ _). pose proof (write_snapshot_spec s e c0 now) as K. destruct (write_snapshot h s e c0 now) as [[ok e'] c']. destruct K as (K1 & _ & K3).
  rewrite (K3 R Ei Ea) in *. apply publish_ok. destruct (K1 eq_refl) as [H _]. by apply (em_ok _ _ _ _ H).
Qed.

End Snapshot.

End Checkpoint.
