(* ===== verification/JobCompletion.v ===== *)
(** * Atomic job completion (job_completion.c, and queue_job_commit of queue.c)

    Deliveries with a proof, and the commit of a completion: one record of the
    queue log changes the durable state, writes the receipt, publishes the
    output and removes the input.  The callbacks of the commit are inlined in
    the order queue_job_commit calls them; it holds the locks of both queues
    and, from prepare to apply, the state lock, so that a call is one step.
    [clock] holds the clock readings of a completion in their order. *)

From stdpp Require Import base numbers option list.
From S2P Require Import Prelude Sha256 Queue QueueIndex WalRecord QueueStore QueueReplay QueueBatch Atomic JobEngine.
Import Sha256 JobDigest Queue Wal Store Replay Batch JobEngine.

Module JobCompletion.

(** ** The proof registry *)

Definition has_proof (proof : bytes) (p : jproof) : bool := name_eqb (pf_proof p) proof.

Definition job_proof_find_locked (e : engine) (proof : bytes) : option jproof :=
  find (has_proof proof) (bucket (en_proofs e) (job_proof_bucket proof)).

Definition job_proof_remove_locked (e : engine) (p : jproof) : engine :=
  {| e with en_proofs := alter (remove_at (has_proof (pf_proof p))) (job_proof_bucket (pf_proof p)) (en_proofs e);
            en_proof_count := en_proof_count e - 1 |}.

Definition stale_proof (now_mono : Z) (p : jproof) : bool := u64 (pf_expires p + 60000) <=? now_mono.

Definition proof_gc_bucket (e : engine) (now_mono : Z) : Z * engine :=
  let b := Z.to_nat (en_proof_cursor e) in
  let gone := List.filter (stale_proof now_mono) (bucket (en_proofs e) b) in
  (zlen gone,
   {| e with en_proof_cursor := Z.land (en_proof_cursor e + 1) (JOB_PROOF_BUCKETS - 1);
             en_proofs := alter (List.filter (fun p => negb (stale_proof now_mono p))) b (en_proofs e);
             en_proof_count := en_proof_count e - zlen gone |}).

Fixpoint proof_gc_loop (n : nat) (e : engine) (now_mono removed : Z) : Z * engine :=
  match n with
  | O => (removed, e)
  | S n => let '(k, e) := proof_gc_bucket e now_mono in proof_gc_loop n e now_mono (removed + k)
  end.

Definition job_proof_gc_locked (e : engine) (now_mono : Z) : Z * engine := proof_gc_loop JOB_GC_BUDGET e now_mono 0.

Definition job_proof_forget (e : engine) (proof : bytes) : engine :=
  match job_proof_find_locked e proof with Some p => job_proof_remove_locked e p | None => e end.

(** ** Consuming with a proof *)

Definition queue_consumer_lookup (s : store) (name : bytes) : option Z :=
  if zlen name =? 0 then None else c_owner <$> find_consumer s name.

Definition queue_incarnation (s : store) (name : bytes) : Z :=
  if (zlen name =? 0) || (QUEUE_NAME_MAX <? zlen name) then 0
  else match find_queue s name with Some q => q_incarnation q | None => 0 end.

Record job_delivery := JobDelivery {
  jd_store_id : bytes; jd_queue : bytes; jd_incarnation : Z; jd_msg : Z; jd_attempts : Z;
  jd_redelivered : bool; jd_lease : Z; jd_proof : bytes; jd_data : bytes }.

(** The clock readings of a consume: the collection of proofs, the three of
    queue_consume_for_consumer, and the one of the display deadline. *)
Record consume_clock := ConsumeClock { cc_proof : Z; cc_now : Z; cc_mono : Z; cc_lease : Z; cc_display : Z }.

Definition push_proof (e : engine) (p : jproof) : engine :=
  {| e with en_proofs := alter (cons p) (job_proof_bucket (pf_proof p)) (en_proofs e); en_proof_count := en_proof_count e + 1 |}.

(** The proof of a delivery and what is reported of it. *)
Definition grant_proof (e : engine) (s : store) (queue : bytes) (visibility : Z) (proof : bytes) (t : consume_clock) (d : delivery)
    : (job_status + job_delivery) * engine * store :=
  let incarnation := queue_incarnation s queue in
  let '(ok1, e) := jalloc e in
  let '(ok2, e) := if ok1 then jalloc e else (false, e) in
  if negb (ok1 && ok2) then (inl JOB_RESOURCE_EXHAUSTED, count bump_resource e, s)
  else
    let lease := if visibility =? 0 then 30000 else visibility in
    let p := JProof proof (en_epoch e) queue incarnation (d_id d) (d_tag d) (d_owner d)
               (if d_deadline d =? 0 then u64 (cc_proof t + lease) else d_deadline d) in
    (inr (JobDelivery (if en_id_set e then en_store_id e else zero_id) queue incarnation (d_id d) (d_count d)
            (d_redelivered d) (u64 (cc_display t + lease)) proof (d_data d)), push_proof e p, s).

(** [proof] are the random bytes, when there are any. *)
Definition job_consume (e : engine) (s : store) (queue consumer : bytes) (visibility : Z) (proof : option bytes) (t : consume_clock)
    : (job_status + job_delivery) * engine * store :=
  if (zlen queue =? 0) || (QUEUE_NAME_MAX <? zlen queue) || (zlen consumer =? 0) then (inl JOB_VALIDATION_FAILED, e, s)
  else if negb (en_attached e) then (inl JOB_UNSUPPORTED_FEATURE, e, s)
  else if en_failed e then (inl JOB_PERSISTENCE_UNAVAILABLE, e, s)
  else if negb (match find_queue s queue with Some q => q_durable q | None => false end) then (inl JOB_VALIDATION_FAILED, e, s)
  else
    match queue_consumer_lookup s consumer, proof with
    | None, _ => (inl JOB_VALIDATION_FAILED, e, s)
    | Some _, None => (inl JOB_PERSISTENCE_UNAVAILABLE, e, s)
    | Some _, Some proof =>
        let '(_, e) := job_proof_gc_locked e (cc_proof t) in
        if cf_proofs (en_cfg e) <=? en_proof_count e then (inl JOB_RESOURCE_EXHAUSTED, count bump_resource e, s)
        else
          match queue_consume_for_consumer s queue consumer visibility (cc_now t) (cc_mono t) (cc_lease t) with
          | (rc, Some d, s) => if rc =? 1 then grant_proof e s queue visibility proof t d else (inl JOB_PERSISTENCE_UNAVAILABLE, e, s)
          | (rc, None, s) => (inl (if rc <? 0 then JOB_PERSISTENCE_UNAVAILABLE else JOB_NOT_FOUND), e, s)
          end
    end.

(** ** Requests *)

Record job_request := JobRequest {
  jq_in : bytes;
  jq_in_incarnation : Z;
  jq_in_msg : Z;
  jq_proof : bytes;
  jq_key : bytes;
  jq_expected : Z;
  jq_value : bytes;
  jq_out : option (bytes * Z * bytes);   (* queue, incarnation, value *)
  jq_op : bytes }.

Definition out_queue (q : job_request) : bytes := match jq_out q with Some (n, _, _) => n | None => [] end.
Definition out_data (q : job_request) : bytes := match jq_out q with Some (_, _, v) => v | None => [] end.
Definition out_queue_incarnation (q : job_request) : Z := match jq_out q with Some (_, i, _) => i | None => 0 end.

Definition request_bad (q : job_request) : bool :=
  (zlen (jq_in q) =? 0) || (QUEUE_NAME_MAX <? zlen (jq_in q)) || (jq_in_incarnation q =? 0) || (jq_in_msg q =? 0) ||
  (zlen (jq_key q) =? 0) || (65535 <? zlen (jq_key q)) ||
  match jq_out q with
  | Some (n, i, _) => (zlen n =? 0) || (QUEUE_NAME_MAX <? zlen n) || (i =? 0)
  | None => false
  end || name_eqb (jq_op q) zero_id.

Definition request_bytes (q : job_request) : Z :=
  zlen (jq_in q) + zlen (jq_key q) + zlen (jq_value q) + 64 +
  match jq_out q with Some (n, _, v) => zlen n + zlen v + 32 | None => 0 end.

Definition request_digest (store_id : bytes) (q : job_request) : bytes :=
  job_canonical_digest
    (Request JOB_KIND_COMPLETION (jq_op q) store_id (Some (jq_in q)) (jq_in_incarnation q) (jq_in_msg q)
       (jq_key q) (jq_expected q) (jq_value q) (jq_out q)).

(** The payload of LOG_JOB_COMPLETION. *)
Definition complete_encode (q : job_request) (out_msg version completed expires : Z) : bytes :=
  [QUEUE_WAL_JOB_FMT] ++ jq_op q ++ put64 (jq_in_incarnation q) ++ [flag (jq_out q)] ++
  put16 (zlen (out_queue q)) ++ out_queue q ++ put64 (out_queue_incarnation q) ++
  put64 (match jq_out q with Some _ => out_msg | None => 0 end) ++ put32 (zlen (out_data q)) ++ out_data q ++
  put64 version ++ put16 (zlen (jq_key q)) ++ jq_key q ++ put64 (jq_expected q) ++ put32 (zlen (jq_value q)) ++ jq_value q ++
  put64 completed ++ put64 expires.

(** ** The callbacks *)

(** Does the proof belong to this delivery? *)
Definition proof_fits (q : job_request) (p : jproof) : bool :=
  name_eqb (pf_queue p) (jq_in q) && (pf_incarnation p =? jq_in_incarnation q) && (pf_msg p =? jq_in_msg q).

Inductive recheck_result := RecheckNew | RecheckReplay | RecheckConflict.

Definition complete_recheck (e : engine) (q : job_request) (digest : bytes) : recheck_result * engine :=
  match job_receipt_find_locked e (jq_op q) with
  | None => (RecheckNew, e)
  | Some r =>
      if (jr_kind r =? JOB_KIND_COMPLETION) && name_eqb (jr_digest r) digest then (RecheckReplay, e)
      else (RecheckConflict, count bump_id_conflicts e)
  end.

Record clock := Clock { ck_fence : Z; ck_late : Z; ck_gc : Z; ck_proof : Z; ck_now : Z; ck_after : Z }.

Record prepared := Prepared {
  pr_commit : Z; pr_version : Z; pr_completed : Z; pr_expires : Z; pr_plan : state_plan; pr_rec : jreceipt }.

(** The objects that are published after the record is durable. *)
Definition complete_build (e : engine) (q : job_request) (digest : bytes) (out_msg now : Z) : (job_status + prepared) * engine :=
  let expires := u64 (now + cf_retention (en_cfg e)) in
  let '(version, commit, e) := take_ids e in
  match job_state_plan_locked e (jq_key q) (jq_value q) version commit with
  | (None, e) => (inl JOB_RESOURCE_EXHAUSTED, count bump_resource e)
  | (Some plan, e) =>
      match receipt_create e JOB_KIND_COMPLETION (jq_op q) digest commit version (jq_in q) (jq_in_msg q) (out_queue q)
              (match jq_out q with Some _ => out_msg | None => 0 end) now expires with
      | (None, e) => (inl JOB_RESOURCE_EXHAUSTED, count bump_resource e)
      | (Some rec, e) => (inr (Prepared commit version now expires plan rec), e)
      end
  end.

Definition complete_prepare (e : engine) (q : job_request) (digest : bytes) (out_msg : Z) (t : clock)
    : (job_status + prepared) * engine :=
  if counters_full e then (inl JOB_PERSISTENCE_UNAVAILABLE, job_engine_fail e)
  else
    let cur := job_state_find_locked e (jq_key q) in
    if negb (version_matches cur (jq_expected q)) then (inl JOB_STATE_VERSION_CONFLICT, count bump_state_conflicts e)
    else if state_full e (growth cur (jq_key q) (jq_value q)) then (inl JOB_RESOURCE_EXHAUSTED, count bump_resource e)
    else
      let '(room, e) := receipt_room e (zlen (jq_in q)) (zlen (out_queue q)) (ck_gc t) in
      if negb room then (inl JOB_RESOURCE_EXHAUSTED, e)
      else
        match job_proof_find_locked e (jq_proof q) with
        | Some p =>
            if name_eqb (pf_epoch p) (en_epoch e) && proof_fits q p then
              if ck_proof t <? pf_expires p then complete_build e q digest out_msg (ck_now t)
              else (inl JOB_DELIVERY_EXPIRED, count bump_delivery e)
            else (inl JOB_DELIVERY_NOT_OWNED, count bump_delivery e)
        | None => (inl JOB_DELIVERY_NOT_OWNED, count bump_delivery e)
        end.

Definition complete_apply (e : engine) (q : job_request) (p : prepared) : engine :=
  let e := receipt_link_locked e (pr_rec p) in
  let e := job_state_plan_apply e (pr_plan p) in
  count bump_completions (job_proof_forget e (jq_proof q)).

(** ** The commit *)

Inductive commit_result :=
  | CommitInvalid                    (** -2: nothing was done *)
  | CommitRejected (st : job_status) (** 0 *)
  | CommitReplayed                   (** 0 with a matching receipt *)
  | CommitDoubt                      (** -1: the record may be durable *)
  | Committed.                       (** 1 *)

(** The effects on the queues, after those on the engine: the output message,
    then the removal of the input at [i].  [false] when there is no memory for
    the output; the store is failed then. *)
Definition commit_queues (s : store) (in_id : Z) (i : nat) (out : option (Z * Z * bytes)) : bool * store :=
  match out with
  | None => (true, upd_queue s in_id (fun q => remove_message q i))
  | Some (out_id, msg, data) =>
      let '(ok, s) := alloc s in
      if negb ok then (false, set_failed s)
      else
        let s := upd_queue s out_id (fun q => message_link q (message_create msg 0 data)) in
        (true, upd_queue s in_id (fun q => remove_message q i))
  end.

(** From the reservation of the output message on, with the delivery fenced. *)
Definition commit_reserved (e : engine) (s : store) (q : job_request) (digest : bytes) (in_q : queue) (i : nat)
    (out_q : option queue) (t : clock) : commit_result * engine * store :=
  let out_msg := match out_q with Some _ => st_next_id s | None => 0 end in
  let s := match out_q with Some _ => {| s with st_next_id := st_next_id s + 1 |} | None => s end in
  match complete_prepare e q digest out_msg t with
  | (inl st, e) => (CommitRejected st, e, s)
  | (inr p, e) =>
      let '(ok, s) := alloc s in
      if negb ok then (CommitRejected JOB_RESOURCE_EXHAUSTED, e, s)
      else
        let '(rc, s) := append_record s LOG_JOB_COMPLETION true (q_name in_q) (jq_in_msg q) (pr_commit p)
                          (complete_encode q out_msg (pr_version p) (pr_completed p) (pr_expires p)) true in
        if rc <? 0 then (CommitDoubt, e, s)
        else
          let e := complete_apply e q p in
          let '(ok, s) := commit_queues s (q_lock_id in_q) i
                            (match out_q with Some o => Some (q_lock_id o, out_msg, out_data q) | None => None end) in
          (if ok then Committed else CommitDoubt, e, s)
  end.

(** The delivery is live: in flight under this tag and owner, before its
    deadline. *)
Definition fenced (m : message) (tag owner mono : Z) : bool :=
  is_inflight m && (m_tag m =? tag) && (m_owner m =? owner) && (mono <? m_time m).

(** An output queue with a limit must have room; the input offsets an output
    to the same queue. *)
Definition output_full (in_q : queue) (out_q : option queue) : bool :=
  match out_q with
  | None => false
  | Some o => negb (q_max_depth o =? 0) &&
              (q_max_depth o <? (if q_lock_id o =? q_lock_id in_q then q_depth o else q_depth o + 1))
  end.

Definition commit_invalid (q : job_request) (tag owner : Z) : bool :=
  (zlen (jq_in q) =? 0) || (QUEUE_NAME_MAX <? zlen (jq_in q)) || (jq_in_msg q =? 0) || (tag =? 0) || (owner =? 0) ||
  match jq_out q with Some (n, _, _) => (zlen n =? 0) || (QUEUE_NAME_MAX <? zlen n) | None => false end.

Definition queue_job_commit (e : engine) (s : store) (q : job_request) (digest : bytes) (tag owner : Z) (t : clock)
    : commit_result * engine * store :=
  if commit_invalid q tag owner then (CommitInvalid, e, s)
  else if negb (Atomic.queue_wal_enabled s) then (CommitRejected JOB_UNSUPPORTED_FEATURE, e, s)
  else
    match find_queue s (jq_in q), (match jq_out q with Some (n, _, _) => find_queue s n | None => None end) with
    | None, _ => (CommitRejected JOB_VALIDATION_FAILED, e, s)
    | Some in_q, out_q =>
        if negb (q_durable in_q) ||
           match jq_out q with Some _ => negb (match out_q with Some o => q_durable o | None => false end) | None => false end
        then (CommitRejected JOB_VALIDATION_FAILED, e, s)
        else
          match complete_recheck e q digest with
          | (RecheckReplay, e) => (CommitReplayed, e, s)
          | (RecheckConflict, e) => (CommitRejected JOB_IDEMPOTENCY_CONFLICT, e, s)
          | (RecheckNew, e) =>
              match find_message in_q (jq_in_msg q) with
              | None => (CommitRejected JOB_DELIVERY_NOT_OWNED, e, s)
              | Some i =>
                  match q_msgs in_q !! i with
                  | None => (CommitRejected JOB_DELIVERY_NOT_OWNED, e, s)
                  | Some m =>
                      if negb (fenced m tag owner (ck_fence t))
                      then (CommitRejected (if is_inflight m && (m_time m <=? ck_late t) then JOB_DELIVERY_EXPIRED
                                            else JOB_DELIVERY_NOT_OWNED), e, s)
                      else if output_full in_q out_q then (CommitRejected JOB_RESOURCE_EXHAUSTED, e, s)
                      else commit_reserved e s q digest in_q i out_q t
                  end
              end
          end
    end.

(** ** Submitting a completion *)

Record completion_result := CompletionResult {
  cr_commit : Z; cr_version : Z; cr_out_msg : Z; cr_completed : Z; cr_expires : Z; cr_replayed : bool }.

Definition complete_result_fill (r : jreceipt) (replayed : bool) : completion_result :=
  CompletionResult (jr_commit r) (jr_version r) (jr_out_msg r) (jr_completed r) (jr_expires r) replayed.

(** The status of a rejected commit: an expired proof says why the delivery is
    not owned. *)
Definition refine_status (e : engine) (q : job_request) (st : job_status) (mono : Z) : job_status * engine :=
  match st, job_proof_find_locked e (jq_proof q) with
  | JOB_DELIVERY_NOT_OWNED, Some p =>
      if proof_fits q p && (pf_expires p <=? mono) && name_eqb (pf_epoch p) (en_epoch e)
      then (JOB_DELIVERY_EXPIRED, count bump_delivery e) else (st, e)
  | _, _ => (st, e)
  end.

(** The answer from the receipt of the operation. *)
Definition answer_receipt (e : engine) (s : store) (op : bytes) (replayed : bool) : (job_status + completion_result) * engine * store :=
  match job_receipt_find_locked e op with
  | Some r => (inr (complete_result_fill r replayed), e, s)
  | None => (inl JOB_OPERATION_IN_DOUBT, e, s)
  end.

(** The tag and the owner of the delivery, from its proof; zero when there is
    none. *)
Definition delivery_of (e : engine) (q : job_request) : Z * Z :=
  match job_proof_find_locked e (jq_proof q) with
  | Some p => if proof_fits q p then (pf_tag p, pf_owner p) else (0, 0)
  | None => (0, 0)
  end.

Definition job_complete (e : engine) (s : store) (q : job_request) (t : clock) : (job_status + completion_result) * engine * store :=
  if request_bad q then (inl JOB_VALIDATION_FAILED, e, s)
  else if negb (en_attached e) then (inl JOB_UNSUPPORTED_FEATURE, e, s)
  else if negb (en_id_set e) then (inl JOB_PERSISTENCE_UNAVAILABLE, e, s)
  else if cf_max_op (en_cfg e) <? request_bytes q then (inl JOB_REQUEST_TOO_LARGE, count bump_too_large e, s)
  else
    let digest := request_digest (en_store_id e) q in
    match job_receipt_find_locked e (jq_op q) with
    | Some r =>
        if negb (jr_kind r =? JOB_KIND_COMPLETION) || negb (name_eqb (jr_digest r) digest)
        then (inl JOB_IDEMPOTENCY_CONFLICT, count bump_id_conflicts e, s)
        else (inr (complete_result_fill r true), count bump_replays e, s)
    | None =>
        if match en_doubt e with Some o => name_eqb o (jq_op q) | None => false end then (inl JOB_OPERATION_IN_DOUBT, e, s)
        else if en_failed e then (inl JOB_PERSISTENCE_UNAVAILABLE, e, s)
        else
          let '(tag, owner) := delivery_of e q in
          if (tag =? 0) || (owner =? 0) then (inl JOB_DELIVERY_NOT_OWNED, count bump_delivery e, s)
          else
            match queue_job_commit e s q digest tag owner t with
            | (Committed, e, s) => answer_receipt e s (jq_op q) false
            | (CommitReplayed, e, s) => answer_receipt e s (jq_op q) true
            | (CommitRejected st, e, s) => let '(st, e) := refine_status e q st (ck_after t) in (inl st, e, s)
            | (CommitDoubt, e, s) => (inl JOB_OPERATION_IN_DOUBT, job_engine_mark_in_doubt e (jq_op q), s)
            | (CommitInvalid, e, s) => (inl JOB_VALIDATION_FAILED, e, s)
            end
    end.

End JobCompletion.
