(* ===== verification/JobTable.v ===== *)
(** * Hash tables of the job engine

    A table is a list of buckets, an element is in the bucket of its key, and
    keys are distinct.  Lookup, insertion at the head of a chain, removal,
    update in place and filtering of a bucket are related to lookup and to
    sums over all elements. *)

From stdpp Require Import base numbers option list.
From S2P Require Import Prelude JobEngine.
Import JobEngine.

Module JobTable.

Section Table.
Context {A : Type} (key : A -> bytes) (hash : bytes -> nat) (N : nat).
Implicit Types (t : list (list A)) (x : A) (k : bytes).

Definition keyed k x : bool := name_eqb (key x) k.

Record table_ok t : Prop := TableOk {
  tb_length : length t = N;
  tb_hash : forall b x, x ∈ bucket t b -> hash (key x) = b;
  tb_distinct : forall b, NoDup (key <$> bucket t b) }.

Definition tget t k : option A := find (keyed k) (bucket t (hash k)).

Context (hash_lt : forall k, (hash k < N)%nat).

Lemma bucket_alter t f b b' : (b < length t)%nat ->
  bucket (alter f b t) b' = if decide (b = b') then f (bucket t b) else bucket t b'.
Proof.
  intros Hb. unfold bucket. rewrite list_lookup_alter. destruct (decide (b = b')) as [<-|]; [|done].
  destruct (lookup_lt_is_Some_2 t b Hb) as [l ->]. done.
Qed.

Lemma keyed_true k x : keyed k x = true <-> key x = k.
Proof. apply name_eqb_eq. Qed.

Lemma keyed_false k x : keyed k x = false <-> key x <> k.
Proof. rewrite <- keyed_true. by destruct (keyed k x). Qed.

Lemma find_key k (l : list A) x : find (keyed k) l = Some x -> x ∈ l /\ key x = k.
Proof. intros [H E]%find_some. split; [by apply list_elem_of_In|]. by apply keyed_true. Qed.

Lemma find_in k (l : list A) x : NoDup (key <$> l) -> x ∈ l -> key x = k -> find (keyed k) l = Some x.
Proof.
  induction l as [|y l IH]; intros Hd Hx E; [by apply not_elem_of_nil in Hx|]. cbn [find]. cbn [fmap list_fmap] in Hd.
  apply NoDup_cons in Hd as [Hy Hd]. apply elem_of_cons in Hx as [->|Hx].
  - by rewrite (proj2 (keyed_true k y) E).
  - destruct (keyed k y) eqn:Ey; [|auto]. apply keyed_true in Ey. exfalso. apply Hy. rewrite Ey, <- E. by apply list_elem_of_fmap_2.
Qed.

Lemma find_none k (l : list A) : find (keyed k) l = None <-> k ∉ key <$> l.
Proof.
  split.
  - intros H (x & Ex & Hx)%list_elem_of_fmap. apply list_elem_of_In in Hx. pose proof (find_none _ _ H x Hx) as F. apply keyed_false in F. congruence.
  - intros H. destruct (find (keyed k) l) as [x|] eqn:E; [|done]. apply find_key in E as [Hx <-]. exfalso. apply H. by apply list_elem_of_fmap_2.
Qed.

Lemma tget_key t k x : tget t k = Some x -> x ∈ bucket t (hash k) /\ key x = k.
Proof. apply find_key. Qed.

Lemma tget_in t b x : table_ok t -> x ∈ bucket t b -> tget t (key x) = Some x.
Proof. intros H Hx. unfold tget. rewrite (tb_hash t H b x Hx). apply find_in; [apply H|done|done]. Qed.

(** ** Elements *)

Lemma elem_bucket t x : x ∈ concat t <-> exists b, x ∈ bucket t b.
Proof.
  rewrite list_elem_of_In, in_concat. setoid_rewrite <- list_elem_of_In. split.
  - intros (l & Hl & Hx). apply list_elem_of_lookup in Hl as [b Hb]. exists b. unfold bucket. by rewrite Hb.
  - intros [b Hx]. unfold bucket in Hx. destruct (t !! b) as [l|] eqn:E; [|by apply not_elem_of_nil in Hx].
    exists l. split; [by eapply list_elem_of_lookup_2|done].
Qed.

Lemma tget_elem t x : table_ok t -> x ∈ concat t -> tget t (key x) = Some x.
Proof. intros H [b Hb]%elem_bucket. by eapply tget_in. Qed.

Lemma elem_tget t k x : tget t k = Some x -> x ∈ concat t.
Proof. intros [H _]%tget_key. apply elem_bucket. eauto. Qed.

(** Sums over the elements, when one bucket changes. *)
Lemma sum_alter (f : A -> Z) g t b : (b < length t)%nat ->
  zsum f (concat (alter g b t)) = zsum f (concat t) - zsum f (bucket t b) + zsum f (g (bucket t b)).
Proof.
  revert b. induction t as [|l t IH]; intros b Hb; [cbn in Hb; lia|]. destruct b as [|b]; cbn [alter list_alter concat].
  - rewrite !zsum_app. unfold bucket. cbn. lia.
  - rewrite !zsum_app. change (bucket (l :: t) (S b)) with (bucket t b). change (list_alter g b t) with (alter g b t).
    rewrite IH by (cbn in Hb; lia). lia.
Qed.

Lemma zlen_sum {B} (l : list B) : zlen l = zsum (fun _ => 1) l.
Proof. induction l as [|x l IH]; [done|]. rewrite zlen_cons, IH. done. Qed.

(** ** Insertion *)

Lemma table_push t x : table_ok t -> tget t (key x) = None -> table_ok (alter (cons x) (hash (key x)) t) /\
  (forall k, tget (alter (cons x) (hash (key x)) t) k = if decide (key x = k) then Some x else tget t k) /\
  (forall f : A -> Z, zsum f (concat (alter (cons x) (hash (key x)) t)) = zsum f (concat t) + f x).
Proof using hash_lt.
  intros [L H D] Hn. assert (Hb : (hash (key x) < length t)%nat) by (rewrite L; apply hash_lt). split_and!.
  - constructor; [by rewrite length_alter| |]; intros b; rewrite bucket_alter by done; destruct (decide (_ = b)) as [<-|]; auto.
    + intros y [->|Hy]%elem_of_cons; [done|auto].
    + cbn [fmap list_fmap]. apply NoDup_cons. split; [|apply D]. by apply find_none.
  - intros k. unfold tget. rewrite bucket_alter by done. destruct (decide (hash (key x) = hash k)) as [E|E].
    + cbn [find]. rewrite E. destruct (decide (key x = k)) as [Ek|Ek]; [by rewrite (proj2 (keyed_true k x) Ek)|by rewrite (proj2 (keyed_false k x) Ek)].
    + rewrite decide_False; [done|congruence].
  - intros f. rewrite sum_alter by done. cbn [zsum]. lia.
Qed.

(** ** Removal *)

Lemma remove_at_spec k (l : list A) x : NoDup (key <$> l) -> find (keyed k) l = Some x ->
  NoDup (key <$> remove_at (keyed k) l) /\ (forall y, y ∈ remove_at (keyed k) l <-> y ∈ l /\ key y <> k) /\
  (forall f : A -> Z, zsum f (remove_at (keyed k) l) = zsum f l - f x).
Proof.
  induction l as [|y l IH]; [done|]. cbn [fmap list_fmap find remove_at]. intros [Hy Hd]%NoDup_cons.
  destruct (keyed k y) eqn:Ey.
  - apply keyed_true in Ey. intros [= <-]. split_and!; [done| |intros f; cbn; lia]. intros z. rewrite elem_of_cons. split.
    + intros Hz. split; [by right|]. intros E. apply Hy. rewrite Ey, <- E. by apply list_elem_of_fmap_2.
    + by intros [[->|] ?].
  - apply keyed_false in Ey. intros E. destruct (IH Hd E) as (I1 & I2 & I3). split_and!.
    + cbn [fmap list_fmap]. apply NoDup_cons. split; [|done]. intros (z & Ez & Hz)%list_elem_of_fmap. apply I2 in Hz as [Hz _]. apply Hy. rewrite Ez. by apply list_elem_of_fmap_2.
    + intros z. rewrite !elem_of_cons, I2. split; [intros [-> |[? ?]]; auto|intros [[-> |?] ?]; auto].
    + intros f. cbn. rewrite I3. lia.
Qed.

Lemma find_sub (l l' : list A) k (P : A -> Prop) : NoDup (key <$> l) -> NoDup (key <$> l') ->
  (forall y, y ∈ l' <-> y ∈ l /\ P y) ->
  (forall x, find (keyed k) l = Some x -> P x) -> find (keyed k) l' = find (keyed k) l.
Proof.
  intros D D' Hm Hp. destruct (find (keyed k) l) as [x|] eqn:E.
  - pose proof (find_key _ _ _ E) as [Hx Ek]. apply find_in; [done| |done]. apply Hm. auto.
  - apply find_none. intros (y & Ey & Hy)%list_elem_of_fmap. apply Hm in Hy as [Hy _]. apply find_none in E. apply E. rewrite Ey. by apply list_elem_of_fmap_2.
Qed.

Lemma table_remove t k x : table_ok t -> tget t k = Some x -> table_ok (alter (remove_at (keyed k)) (hash k) t) /\
  (forall k', tget (alter (remove_at (keyed k)) (hash k) t) k' = if decide (k = k') then None else tget t k') /\
  (forall f : A -> Z, zsum f (concat (alter (remove_at (keyed k)) (hash k) t)) = zsum f (concat t) - f x).
Proof using hash_lt.
  intros [L H D] Hx. assert (Hb : (hash k < length t)%nat) by (rewrite L; apply hash_lt).
  destruct (remove_at_spec k (bucket t (hash k)) x (D _) Hx) as (R1 & R2 & R3). split_and!.
  - constructor; [by rewrite length_alter| |]; intros b; rewrite bucket_alter by done; destruct (decide (_ = b)) as [<-|]; auto.
    intros y [Hy _]%R2. auto.
  - intros k'. unfold tget. rewrite bucket_alter by done. destruct (decide (hash k = hash k')) as [E|E].
    + destruct (decide (k = k')) as [<-|Hk].
      * apply find_none. intros (y & Ey & Hy)%list_elem_of_fmap. apply R2 in Hy as [_ Hy]. congruence.
      * rewrite <- E. apply (find_sub _ _ k' (fun y => key y <> k) (D _) R1 R2). intros y [_ Ey]%find_key. congruence.
    + rewrite decide_False; [done|congruence].
  - intros f. rewrite sum_alter, R3 by done. lia.
Qed.

(** ** Update in place *)

Lemma upd_at_spec k (l : list A) x g : find (keyed k) l = Some x -> key (g x) = key x ->
  key <$> upd_at (keyed k) g l = key <$> l /\ (forall k', find (keyed k') (upd_at (keyed k) g l) =
    if decide (k = k') then Some (g x) else find (keyed k') l) /\
  (forall f : A -> Z, zsum f (upd_at (keyed k) g l) = zsum f l - f x + f (g x)).
Proof.
  intros E Hg. induction l as [|y l IH]; [done|]. cbn [find upd_at] in *. destruct (keyed k y) eqn:Ey.
  - injection E as ->. pose proof Ey as Ek. apply keyed_true in Ek. split_and!.
    + cbn. by rewrite Hg.
    + intros k'. cbn [find]. destruct (decide (k = k')) as [<-|Hk].
      * by rewrite (proj2 (keyed_true k (g x)) ltac:(congruence)).
      * by rewrite (proj2 (keyed_false k' (g x)) ltac:(congruence)), (proj2 (keyed_false k' x) ltac:(congruence)).
    + intros f. cbn. lia.
  - destruct (IH E) as (I1 & I2 & I3). split_and!; [cbn; by rewrite I1| |intros f; cbn; rewrite I3; lia].
    intros k'. cbn [find]. rewrite I2. destruct (keyed k' y) eqn:Ey'; [|done]. rewrite decide_False; [done|]. intros ->. congruence.
Qed.

Lemma table_update t k x g : table_ok t -> tget t k = Some x -> key (g x) = key x ->
  table_ok (alter (upd_at (keyed k) g) (hash k) t) /\
  (forall k', tget (alter (upd_at (keyed k) g) (hash k) t) k' = if decide (k = k') then Some (g x) else tget t k') /\
  (forall f : A -> Z, zsum f (concat (alter (upd_at (keyed k) g) (hash k) t)) = zsum f (concat t) - f x + f (g x)).
Proof using hash_lt.
  intros [L H D] Hx Hg. assert (Hb : (hash k < length t)%nat) by (rewrite L; apply hash_lt).
  destruct (upd_at_spec k (bucket t (hash k)) x g Hx Hg) as (U1 & U2 & U3). split_and!.
  - constructor; [by rewrite length_alter| |]; intros b; rewrite bucket_alter by done; destruct (decide (_ = b)) as [<-|]; auto.
    + intros y Hy. apply (list_elem_of_fmap_2 key) in Hy. rewrite U1 in Hy. apply list_elem_of_fmap in Hy as (z & -> & Hz). auto.
    + rewrite U1. apply D.
  - intros k'. unfold tget. rewrite bucket_alter by done. destruct (decide (hash k = hash k')) as [E|E].
    + rewrite U2, E. done.
    + rewrite decide_False; [done|congruence].
  - intros f. rewrite sum_alter, U3 by done. lia.
Qed.

(** ** Filtering a bucket *)

Lemma filter_keys (p : A -> bool) (l : list A) : NoDup (key <$> l) -> NoDup (key <$> List.filter p l).
Proof.
  induction l as [|x l IH]; cbn; [done|]. intros [Hx Hd]%NoDup_cons. destruct (p x); [|auto]. cbn. apply NoDup_cons. split; [|auto].
  intros (y & Ey & Hy)%list_elem_of_fmap. apply Hx. rewrite Ey. apply list_elem_of_fmap_2. apply list_elem_of_In in Hy. apply filter_In in Hy as [Hy _].
  by apply list_elem_of_In.
Qed.

Lemma filter_sum (f : A -> Z) p (l : list A) : zsum f (List.filter p l) + zsum f (List.filter (fun x => negb (p x)) l) = zsum f l.
Proof. induction l as [|x l IH]; [done|]. cbn. destruct (p x); cbn; lia. Qed.

Lemma table_filter t b p : table_ok t -> (b < N)%nat -> table_ok (alter (List.filter p) b t) /\
  (forall k, tget (alter (List.filter p) b t) k =
     match tget t k with Some x => if decide (b = hash k) then (if p x then Some x else None) else Some x | None => None end) /\
  (forall f : A -> Z, zsum f (concat (alter (List.filter p) b t)) = zsum f (concat t) - zsum f (List.filter (fun x => negb (p x)) (bucket t b))).
Proof.
  intros [L H D] Hb. rewrite <- L in Hb. assert (Hin : forall x, x ∈ List.filter p (bucket t b) <-> x ∈ bucket t b /\ p x = true).
  { intros x. rewrite !list_elem_of_In. apply filter_In. }
  split_and!.
  - constructor; [by rewrite length_alter| |]; intros b'; rewrite bucket_alter by done; destruct (decide (_ = b')) as [<-|]; auto.
    + intros y [Hy _]%Hin. auto.
    + apply filter_keys, D.
  - intros k. unfold tget. rewrite bucket_alter by done. destruct (decide (b = hash k)) as [->|E].
    + destruct (find (keyed k) (bucket t (hash k))) as [x|] eqn:Ex.
      * destruct (p x) eqn:Ep.
        -- rewrite (find_sub _ _ k (fun y => p y = true) (D _) (filter_keys p _ (D _)) Hin); [done|]. intros y Hy. congruence.
        -- apply find_none. intros (y & Ey & Hy)%list_elem_of_fmap. apply Hin in Hy as [Hy Hp]. rewrite (find_in k _ y (D _) Hy (eq_sym Ey)) in Ex. congruence.
      * apply find_none. intros (y & Ey & Hy)%list_elem_of_fmap. apply Hin in Hy as [Hy _]. apply find_none in Ex. apply Ex. subst k. by apply list_elem_of_fmap_2.
    + by destruct (find _ _).
  - intros f. rewrite sum_alter by done. pose proof (filter_sum f p (bucket t b)). lia.
Qed.

Lemma table_empty : table_ok (replicate N []).
Proof.
  assert (E : forall b, bucket (replicate N (@nil A)) b = []).
  { intros b. unfold bucket. destruct (replicate N [] !! b) as [l|] eqn:El; [|done]. by apply lookup_replicate in El as [-> _]. }
  constructor; [apply length_replicate|intros b x; rewrite E; by intros ?%not_elem_of_nil|intros b; rewrite E; apply NoDup_nil_2].
Qed.
End Table.
End JobTable.
