(* ===== verification/JobSpec.v ===== *)
(** * Invariants and effects of the job engine

    The invariant of the engine: its tables, its counters and its high-water
    marks.  What admission and collection change, and what a committed
    mutation does to state and receipts. *)

From stdpp Require Import base numbers option list.
From S2P Require Import Prelude Sha256 Queue WalRecord QueueStore QueueReplay JobEngine JobTable.
Import Sha256 JobDigest Queue Wal Store Replay JobEngine JobTable.

Module JobSpec.

Lemma bucket_bound h n : 0 < n -> (Z.to_nat (Z.land h (n - 1)) < Z.to_nat n)%nat.
Proof. intros Hn. pose proof (land_le_r h (n - 1) ltac:(lia)). lia. Qed.

Definition state_ok := table_ok e_key job_state_bucket (Z.to_nat JOB_STATE_BUCKETS).
Definition receipts_ok := table_ok jr_op job_receipt_bucket (Z.to_nat JOB_RECEIPT_BUCKETS).
Definition proofs_ok := table_ok pf_proof job_proof_bucket (Z.to_nat JOB_PROOF_BUCKETS).

Lemma state_lt k : (job_state_bucket k < Z.to_nat JOB_STATE_BUCKETS)%nat.
Proof. by apply bucket_bound. Qed.
Lemma receipt_lt k : (job_receipt_bucket k < Z.to_nat JOB_RECEIPT_BUCKETS)%nat.
Proof. by apply bucket_bound. Qed.
Lemma proof_lt k : (job_proof_bucket k < Z.to_nat JOB_PROOF_BUCKETS)%nat.
Proof. by apply bucket_bound. Qed.

Abbreviation sget := job_state_find_locked.
Abbreviation rget := job_receipt_find_locked.

Record engine_ok (e : engine) : Prop := EngineOk {
  eo_state : state_ok (en_state e);
  eo_receipts : receipts_ok (en_receipts e);
  eo_proofs : proofs_ok (en_proofs e);
  eo_entries : en_entries e = zlen (concat (en_state e));
  eo_bytes : en_bytes e = u64 (zsum (fun x => entry_size (e_key x) (e_value x)) (concat (en_state e)));
  eo_count : en_receipt_count e = zlen (concat (en_receipts e));
  eo_rbytes : en_receipt_bytes e = u64 (zsum jr_footprint (concat (en_receipts e)));
  eo_cursor : 0 <= en_gc_cursor e < JOB_RECEIPT_BUCKETS;
  eo_proof_count : en_proof_count e = zlen (concat (en_proofs e));
  eo_proof_cursor : 0 <= en_proof_cursor e < JOB_PROOF_BUCKETS;
  eo_hwm : 0 <= en_version e <= UINT64_MAX /\ 0 <= en_commit e <= UINT64_MAX;
  eo_versions : forall k x, sget e k = Some x -> 0 < e_version x <= en_version e /\ 0 < e_commit x <= en_commit e;
  eo_rversions : forall op r, rget e op = Some r -> 0 < jr_version r <= en_version e /\ 0 < jr_commit r <= en_commit e }.

(** ** What allocations and counters leave alone *)

(** The engine without the outcomes of allocations and the statistics. *)
Definition core (e : engine) : engine := {| e with en_allocs := []; en_counters := JCounters 0 0 0 0 0 0 0 0 |}.

Definition quiet (e e' : engine) : Prop := core e' = core e.

#[global] Instance quiet_equivalence : Equivalence quiet.
Proof. split; [done|by intros a b|]. intros a b c H1 H2. unfold quiet in *. congruence. Qed.

(** Every other component is the same. *)
Lemma quiet_proj {A} (f : engine -> A) e e' : (forall x, f (core x) = f x) -> quiet e e' -> f e' = f e.
Proof. intros Hf H. rewrite <- (Hf e'), <- (Hf e). by rewrite H. Qed.

Lemma jalloc_quiet e : quiet e (jalloc e).2.
Proof. unfold jalloc. by destruct (draw _). Qed.

Lemma count_quiet f e : quiet e (count f e).
Proof. done. Qed.

Lemma quiet_ok e e' : quiet e e' -> engine_ok e -> engine_ok e'.
Proof.
  intros H [H1 H2 H3 H4 H5 H6 H7 H8 H9 H10 H11 H12 H13].
  assert (E : forall {A} (f : engine -> A), (forall x, f (core x) = f x) -> f e' = f e) by (intros A f Hf; by apply quiet_proj).
  pose proof (E _ en_state ltac:(done)) as S1. pose proof (E _ en_receipts ltac:(done)) as S2. pose proof (E _ en_proofs ltac:(done)) as S3.
  constructor; rewrite ?(E _ en_state ltac:(done)), ?(E _ en_receipts ltac:(done)), ?(E _ en_proofs ltac:(done)), ?(E _ en_entries ltac:(done)),
    ?(E _ en_bytes ltac:(done)), ?(E _ en_receipt_count ltac:(done)), ?(E _ en_receipt_bytes ltac:(done)), ?(E _ en_gc_cursor ltac:(done)),
    ?(E _ en_proof_count ltac:(done)), ?(E _ en_proof_cursor ltac:(done)), ?(E _ en_version ltac:(done)), ?(E _ en_commit ltac:(done)); try done.
  - intros k x. unfold sget. rewrite S1. apply H12.
  - intros k x. unfold rget. rewrite S2. apply H13.
Qed.

(** ** Entries and plans *)

Lemma entry_create_spec e key value version commit : let '(o, e') := entry_create e key value version commit in
  quiet e e' /\ match o with Some x => x = JEntry key value version commit | None => True end.
Proof.
  unfold entry_create. pose proof (jalloc_quiet e) as Q1. destruct (jalloc e) as [[|] e1]; cbn [negb]; [|done]. cbn in Q1.
  pose proof (jalloc_quiet e1) as Q2. destruct (jalloc e1) as [ok1 e2]. cbn in Q2.
  pose proof (jalloc_quiet e2) as Q3. destruct (jalloc e2) as [ok2 e3]. cbn in Q3. destruct (ok1 && ok2); cbn [negb]; (split; [|done]);
    by transitivity e1; [|transitivity e2].
Qed.

(** The plan of a put. *)
Definition plan_of (e : engine) (key value : bytes) (version commit : Z) : state_plan :=
  match sget e key with
  | Some cur => PlanReplace cur value (zlen value - zlen (e_value cur)) version commit
  | None => PlanFresh (JEntry key value version commit)
  end.

Lemma plan_locked_spec e key value version commit : let '(o, e') := job_state_plan_locked e key value version commit in
  quiet e e' /\ match o with Some p => p = plan_of e key value version commit | None => True end.
Proof.
  unfold job_state_plan_locked, plan_of. destruct (sget e key) as [cur|].
  - pose proof (jalloc_quiet e) as Q. destruct (jalloc e) as [[|] e1]; by cbn in *.
  - pose proof (entry_create_spec e key value version commit) as K. destruct (entry_create e key value version commit) as [[x|] e1]; [|done].
    by destruct K as [Q ->].
Qed.

(** ** Receipts *)

Lemma dup_name_spec e name : fits 16 (zlen name) -> let '(o, e') := dup_name e name in
  quiet e e' /\ match o with Some n => n = name | None => True end.
Proof.
  intros Hf. unfold dup_name. destruct (Z.eqb_spec (zlen name) 0) as [E|E].
  { split; [done|]. by destruct name. }
  rewrite u16_small by done. destruct (Z.eqb_spec (zlen name) 0); [lia|]. pose proof (jalloc_quiet e) as Q.
  destruct (jalloc e) as [[|] e1]; (split; [done|]); [|done]. rewrite firstn_all2; [done|]. unfold zlen. lia.
Qed.

(** The receipt the arguments describe. *)
Definition receipt_of (kind : Z) (op digest : bytes) (commit version : Z) (in_name : bytes) (in_msg : Z)
    (out_name : bytes) (out_msg completed expires : Z) : jreceipt :=
  {| jr_op := op; jr_digest := digest; jr_kind := kind; jr_commit := commit; jr_version := version; jr_in := in_name;
     jr_in_msg := in_msg; jr_out := out_name; jr_out_msg := out_msg; jr_completed := completed; jr_expires := expires;
     jr_footprint := receipt_footprint (zlen in_name) (zlen out_name) |}.

Lemma receipt_create_spec e kind op digest commit version i im o om completed expires : fits 16 (zlen i) -> fits 16 (zlen o) ->
  let '(r, e') := receipt_create e kind op digest commit version i im o om completed expires in
  quiet e e' /\ match r with Some r => r = receipt_of kind op digest commit version i im o om completed expires | None => True end.
Proof.
  intros Hi Ho. unfold receipt_create. pose proof (jalloc_quiet e) as Q1. destruct (jalloc e) as [[|] e1]; cbn [negb]; [|done]. cbn in Q1.
  pose proof (dup_name_spec e1 i Hi) as K1. destruct (dup_name e1 i) as [[i'|] e2]; destruct K1 as [Q2 E1]; [|split; [by transitivity e1|done]].
  pose proof (dup_name_spec e2 o Ho) as K2. destruct (dup_name e2 o) as [[o'|] e3]; destruct K2 as [Q3 E2]; (split; [by transitivity e1; [|transitivity e2]|]); [|done].
  by subst.
Qed.

(** ** Collection *)

(** The engine without its receipts. *)
Definition skel (e : engine) : engine :=
  let e := core e in {| e with en_receipts := []; en_receipt_count := 0; en_receipt_bytes := 0; en_gc_cursor := 0 |}.

(** Some receipts that have expired are gone. *)
Record collected (now : Z) (e e' : engine) : Prop := Collected {
  cl_skel : skel e' = skel e;
  cl_sub : forall op r, rget e' op = Some r -> rget e op = Some r;
  cl_live : forall op r, rget e op = Some r -> expired now r = false -> rget e' op = Some r }.

#[global] Instance collected_preorder now : PreOrder (collected now).
Proof.
  split; [by intros e|]. intros a b c [S1 U1 L1] [S2 U2 L2]. constructor; [congruence|auto|auto].
Qed.

Lemma collected_proj {A} now (f : engine -> A) e e' : (forall x, f (skel x) = f x) -> collected now e e' -> f e' = f e.
Proof. intros Hf [H _ _]. rewrite <- (Hf e'), <- (Hf e). by rewrite H. Qed.

Lemma quiet_collected now e e' : quiet e e' -> collected now e e'.
Proof.
  intros Q. assert (R : forall op, rget e' op = rget e op) by (intros op; unfold rget; by rewrite (quiet_proj en_receipts e e' ltac:(done) Q)).
  constructor; [unfold skel; by rewrite Q|intros op r; by rewrite R|intros op r; by rewrite R].
Qed.

Lemma collected_state now e e' : collected now e e' -> forall k, sget e' k = sget e k.
Proof. intros C k. unfold sget. by rewrite (collected_proj now en_state e e' ltac:(done) C). Qed.

Lemma gc_bucket_spec e now : engine_ok e -> let '(k, e') := gc_bucket e now in
  engine_ok e' /\ collected now e e' /\ 0 <= k.
Proof.
  intros O. unfold gc_bucket. set (b := Z.to_nat (en_gc_cursor e)). set (gone := List.filter (expired now) _).
  assert (Hb : (b < Z.to_nat JOB_RECEIPT_BUCKETS)%nat) by (pose proof (eo_cursor _ O); unfold b; lia).
  destruct (table_filter jr_op job_receipt_bucket _ (en_receipts e) b (fun r => negb (expired now r)) (eo_receipts _ O) Hb) as (T1 & T2 & T3).
  assert (Eg : forall f : jreceipt -> Z, zsum f (List.filter (fun x => negb (negb (expired now x))) (bucket (en_receipts e) b)) = zsum f gone).
  { intros f. f_equal. apply List.filter_ext. intros r. apply negb_involutive. }
  assert (R : forall op, rget {| e with en_gc_cursor := Z.land (en_gc_cursor e + 1) (JOB_RECEIPT_BUCKETS - 1);
             en_receipts := alter (List.filter (fun r => negb (expired now r))) b (en_receipts e);
             en_receipt_count := en_receipt_count e - zlen gone;
             en_receipt_bytes := u64 (en_receipt_bytes e - zsum jr_footprint gone) |} op =
    match rget e op with Some r => if decide (b = job_receipt_bucket op) then (if negb (expired now r) then Some r else None) else Some r | None => None end)
    by (intros op; apply T2).
  split; [|split; [|apply zlen_nonneg]].
  - destruct O as [H1 H2 H3 H4 H5 H6 H7 H8 H9 H10 H11 H12 H13]. constructor; try done; cbn [en_receipts en_receipt_count en_receipt_bytes en_gc_cursor].
    + rewrite (zlen_sum (concat (alter _ _ _))), T3, Eg, <- !zlen_sum. lia.
    + rewrite T3, Eg, H7. by autorewrite with word.
    + pose proof (land_le_r (en_gc_cursor e + 1) (JOB_RECEIPT_BUCKETS - 1) ltac:(done)). lia.
    + intros op r. rewrite R. destruct (rget e op) as [x|] eqn:E; [|done]. intros Hx. apply (H13 op).
      rewrite E. destruct (decide _); [|done]. by destruct (negb _).
  - constructor; [done| |]; intros op r; rewrite R.
    + destruct (rget e op) as [x|]; [|done]. destruct (decide _); [|done]. by destruct (negb _).
    + intros -> Hx. rewrite Hx. by destruct (decide _).
Qed.

Lemma gc_loop_spec n now : forall e removed, engine_ok e -> 0 <= removed -> let '(k, e') := gc_loop n e now removed in
  engine_ok e' /\ collected now e e'.
Proof.
  induction n as [|n IH]; intros e removed O Hr; [done|]. cbn [gc_loop]. pose proof (gc_bucket_spec e now O) as K.
  destruct (gc_bucket e now) as [k e1]. destruct K as (O1 & C1 & Hk). specialize (IH e1 (removed + k) O1 ltac:(lia)).
  destruct (gc_loop n e1 now (removed + k)) as [k' e2]. destruct IH as [O2 C2]. split; [done|]. by transitivity e1.
Qed.

Lemma gc_spec e now : engine_ok e -> let '(k, e') := job_receipt_gc_locked e now in engine_ok e' /\ collected now e e'.
Proof.
  intros O. unfold job_receipt_gc_locked. pose proof (gc_loop_spec JOB_GC_BUDGET now e 0 O ltac:(done)) as K.
  destruct (gc_loop JOB_GC_BUDGET e now 0) as [k e1]. destruct K as [O1 C1]. destruct (k =? 0); [done|].
  split; [by apply (quiet_ok e1)|]. transitivity e1; [done|]. by apply quiet_collected.
Qed.

Lemma receipt_room_spec e i o now : engine_ok e -> let '(ok, e') := receipt_room e i o now in engine_ok e' /\ collected now e e'.
Proof.
  intros O. unfold receipt_room. destruct (receipts_full e i o); [|done]. pose proof (gc_spec e now O) as K.
  destruct (job_receipt_gc_locked e now) as [k e1]. destruct K as [O1 C1]. destruct (receipts_full e1 i o); [|done].
  split; [by apply (quiet_ok e1)|]. transitivity e1; [done|]. by apply quiet_collected.
Qed.

(** ** Effects on the state *)

(** The engine without its state. *)
Definition stateless (e : engine) : engine :=
  let e := core e in {| e with en_state := []; en_entries := 0; en_bytes := 0 |}.

(** The entry of [key] becomes [v], nothing else changes. *)
Record sets_state (key : bytes) (v : option jentry) (e e' : engine) : Prop := SetsState {
  ss_rest : stateless e' = stateless e;
  ss_get : forall k, sget e' k = if decide (key = k) then v else sget e k }.

Lemma sets_proj {A} key v (f : engine -> A) e e' : (forall x, f (stateless x) = f x) -> sets_state key v e e' -> f e' = f e.
Proof. intros Hf [H _]. rewrite <- (Hf e'), <- (Hf e). by rewrite H. Qed.

Lemma sets_receipts key v e e' : sets_state key v e e' -> forall op, rget e' op = rget e op.
Proof. intros H op. unfold rget. by rewrite (sets_proj key v en_receipts e e' ltac:(done) H). Qed.

Lemma sets_quiet key v e e1 e' : quiet e e1 -> sets_state key v e1 e' -> sets_state key v e e'.
Proof.
  intros Q [R G]. constructor; [rewrite R; unfold stateless; by rewrite Q|]. intros k. rewrite G. unfold sget.
  by rewrite (quiet_proj en_state e e1 ltac:(done) Q).
Qed.

(** The invariant survives a change of state that the table and the counters
    follow. *)
Lemma sets_ok key v e e' : sets_state key v e e' -> engine_ok e -> state_ok (en_state e') ->
  en_entries e' = zlen (concat (en_state e')) ->
  en_bytes e' = u64 (zsum (fun x => entry_size (e_key x) (e_value x)) (concat (en_state e'))) ->
  match v with Some x => 0 < e_version x <= en_version e /\ 0 < e_commit x <= en_commit e | None => True end -> engine_ok e'.
Proof.
  intros H [H1 H2 H3 H4 H5 H6 H7 H8 H9 H10 H11 H12 H13] T E B V.
  assert (P : forall {A} (f : engine -> A), (forall x, f (stateless x) = f x) -> f e' = f e) by (intros A f Hf; by apply (sets_proj key v)).
  constructor; rewrite ?(P _ en_receipts ltac:(done)), ?(P _ en_proofs ltac:(done)), ?(P _ en_receipt_count ltac:(done)),
    ?(P _ en_receipt_bytes ltac:(done)), ?(P _ en_gc_cursor ltac:(done)), ?(P _ en_proof_count ltac:(done)),
    ?(P _ en_proof_cursor ltac:(done)), ?(P _ en_version ltac:(done)), ?(P _ en_commit ltac:(done)); try done.
  - intros k x. rewrite (ss_get _ _ _ _ H). destruct (decide (key = k)); [intros ->; exact V|apply H12].
  - intros op r. rewrite (sets_receipts _ _ _ _ H). apply H13.
Qed.

Lemma link_spec e x : engine_ok e -> sget e (e_key x) = None -> 0 < e_version x <= en_version e -> 0 < e_commit x <= en_commit e ->
  engine_ok (entry_link_locked e x) /\ sets_state (e_key x) (Some x) e (entry_link_locked e x).
Proof.
  intros O Hn Hv Hc. destruct (table_push e_key job_state_bucket _ state_lt (en_state e) x (eo_state _ O) Hn) as (T1 & T2 & T3).
  assert (S : sets_state (e_key x) (Some x) e (entry_link_locked e x)) by (by constructor).
  split; [|done]. apply (sets_ok _ _ e _ S O); cbn [entry_link_locked en_state en_entries en_bytes]; [done| | |done].
  - rewrite (zlen_sum (concat (alter _ _ _))), T3, <- zlen_sum, (eo_entries _ O). done.
  - rewrite T3, (eo_bytes _ O). by autorewrite with word.
Qed.

Lemma unlink_spec e key x : engine_ok e -> sget e key = Some x -> engine_ok (entry_unlink_locked e x) /\
  sets_state key None e (entry_unlink_locked e x).
Proof.
  intros O Hx. pose proof (tget_key _ _ _ _ _ Hx) as [_ Ek]. subst key.
  destruct (table_remove e_key job_state_bucket _ state_lt (en_state e) (e_key x) x (eo_state _ O) Hx) as (T1 & T2 & T3).
  assert (S : sets_state (e_key x) None e (entry_unlink_locked e x)) by (by constructor).
  split; [|done]. apply (sets_ok _ _ e _ S O); cbn [entry_unlink_locked en_state en_entries en_bytes]; [done| | |done].
  - rewrite (zlen_sum (concat (alter _ _ _))), T3, <- zlen_sum, (eo_entries _ O). done.
  - rewrite T3, (eo_bytes _ O). by autorewrite with word.
Qed.

(** The entry found under [key] takes a new value; [bytes] is the counter the
    source computes. *)
Lemma replace_spec e key x value version commit bytes : engine_ok e -> sget e key = Some x ->
  0 < version <= en_version e -> 0 < commit <= en_commit e -> bytes = u64 (en_bytes e + (zlen value - zlen (e_value x))) ->
  let e1 := set_entry e key value version commit in let e' := {| e1 with en_bytes := bytes |} in
  engine_ok e' /\ sets_state key (Some (JEntry key value version commit)) e e'.
Proof.
  intros O Hx Hv Hc Hb. pose proof (tget_key _ _ _ _ _ Hx) as [_ Ek].
  destruct (table_update e_key job_state_bucket _ state_lt (en_state e) key x (fun y => JEntry (e_key y) value version commit) (eo_state _ O) Hx eq_refl) as (T1 & T2 & T3).
  intros e1 e'. assert (S : sets_state key (Some (JEntry key value version commit)) e e').
  { constructor; [done|]. intros k. pose proof (T2 k) as T. cbn beta in T. rewrite Ek in T. exact T. }
  split; [|done]. apply (sets_ok _ _ e _ S O); cbn [e' e1 set_entry en_state en_entries en_bytes]; [done| | |done].
  - rewrite (zlen_sum (concat (alter _ _ _))), T3, <- zlen_sum, (eo_entries _ O). lia.
  - rewrite T3, Hb, (eo_bytes _ O). cbn [e_key e_value]. unfold entry_size. autorewrite with word. f_equal. lia.
Qed.

Lemma plan_apply_spec e key value version commit : engine_ok e -> 0 < version <= en_version e -> 0 < commit <= en_commit e ->
  let e' := job_state_plan_apply e (plan_of e key value version commit) in
  engine_ok e' /\ sets_state key (Some (JEntry key value version commit)) e e'.
Proof.
  intros O Hv Hc. unfold plan_of. destruct (sget e key) as [cur|] eqn:E; cbn [job_state_plan_apply].
  - pose proof (tget_key _ _ _ _ _ E) as [_ Ek]. rewrite Ek. by apply (replace_spec e key cur).
  - by apply (link_spec e (JEntry key value version commit)).
Qed.

Lemma apply_put_spec e key value version commit : engine_ok e -> 0 < version <= en_version e -> 0 < commit <= en_commit e ->
  let '(ok, e') := job_state_apply_put_locked e key value version commit in
  if ok then engine_ok e' /\ sets_state key (Some (JEntry key value version commit)) e e' else True.
Proof.
  intros O Hv Hc. unfold job_state_apply_put_locked. destruct (sget e key) as [x|] eqn:E.
  - pose proof (jalloc_quiet e) as Q. destruct (jalloc e) as [[|] e1]; cbn [negb]; [|done]. cbn in Q.
    pose proof (quiet_ok _ _ Q O) as O1. assert (E1 : sget e1 key = Some x) by (unfold sget; by rewrite (quiet_proj en_state e e1 ltac:(done) Q)).
    rewrite <- (quiet_proj en_version e e1 ltac:(done) Q) in Hv. rewrite <- (quiet_proj en_commit e e1 ltac:(done) Q) in Hc.
    destruct (replace_spec e1 key x value version commit (u64 (u64 (en_bytes e1 - zlen (e_value x)) + zlen value)) O1 E1 Hv Hc) as [O' S'].
    { autorewrite with word. f_equal. lia. }
    split; [exact O'|]. by apply (sets_quiet _ _ e e1).
  - pose proof (entry_create_spec e key value version commit) as K. destruct (entry_create e key value version commit) as [[x|] e1]; [|done].
    destruct K as [Q ->]. pose proof (quiet_ok _ _ Q O) as O1. assert (E1 : sget e1 key = None) by (unfold sget; by rewrite (quiet_proj en_state e e1 ltac:(done) Q)).
    rewrite <- (quiet_proj en_version e e1 ltac:(done) Q) in Hv. rewrite <- (quiet_proj en_commit e e1 ltac:(done) Q) in Hc.
    destruct (link_spec e1 (JEntry key value version commit) O1 E1 Hv Hc) as [O' S']. split; [done|]. by apply (sets_quiet _ _ e e1).
Qed.

Lemma apply_delete_spec e key : engine_ok e -> engine_ok (job_state_apply_delete_locked e key) /\
  sets_state key None e (job_state_apply_delete_locked e key).
Proof.
  intros O. unfold job_state_apply_delete_locked. destruct (sget e key) as [x|] eqn:E; [by apply unlink_spec|].
  split; [done|]. constructor; [done|]. intros k. destruct (decide (key = k)) as [<-|]; done.
Qed.

(** ** A receipt is added *)

Record adds_receipt (r : jreceipt) (e e' : engine) : Prop := AddsReceipt {
  ar_rest : skel e' = skel e;
  ar_get : forall op, rget e' op = if decide (jr_op r = op) then Some r else rget e op }.

Lemma push_spec e r : engine_ok e -> rget e (jr_op r) = None -> 0 < jr_version r <= en_version e -> 0 < jr_commit r <= en_commit e ->
  engine_ok (push_receipt e r) /\ adds_receipt r e (push_receipt e r).
Proof.
  intros O Hn Hv Hc. destruct (table_push jr_op job_receipt_bucket _ receipt_lt (en_receipts e) r (eo_receipts _ O) Hn) as (T1 & T2 & T3).
  assert (G : forall op, rget (push_receipt e r) op = if decide (jr_op r = op) then Some r else rget e op) by (intros op; apply T2).
  split; [|by constructor]. destruct O as [H1 H2 H3 H4 H5 H6 H7 H8 H9 H10 H11 H12 H13].
  constructor; try done; cbn [push_receipt en_receipts en_receipt_count en_receipt_bytes].
  - rewrite (zlen_sum (concat (alter _ _ _))), T3, <- zlen_sum, H6. done.
  - rewrite T3, H7. by autorewrite with word.
  - intros op x. rewrite G. destruct (decide _); [by intros [= <-]|apply H13].
Qed.

Lemma link_receipt_spec e r : engine_ok e -> rget e (jr_op r) = None -> 0 < jr_version r <= en_version e -> 0 < jr_commit r <= en_commit e ->
  engine_ok (receipt_link_locked e r) /\ adds_receipt r e (receipt_link_locked e r).
Proof. intros O Hn Hv Hc. unfold receipt_link_locked. rewrite Hn. by apply push_spec. Qed.

(** ** Nothing is committed *)

(** The engine without what a rejected call may change. *)
Definition frame (e : engine) : engine :=
  let e := skel e in {| e with en_version := 0; en_commit := 0; en_failed := false; en_doubt := None |}.

Record idle (now : Z) (e e' : engine) : Prop := Idle {
  il_frame : frame e' = frame e;
  il_sub : forall op r, rget e' op = Some r -> rget e op = Some r;
  il_live : forall op r, rget e op = Some r -> expired now r = false -> rget e' op = Some r;
  il_version : en_version e <= en_version e';
  il_commit : en_commit e <= en_commit e';
  il_failed : en_failed e = true -> en_failed e' = true }.

#[global] Instance idle_preorder now : PreOrder (idle now).
Proof.
  split; [by intros e|]. intros a b c [F1 U1 L1 V1 C1 D1] [F2 U2 L2 V2 C2 D2]. constructor; [congruence|auto|auto|lia|lia|auto].
Qed.

Lemma idle_proj {A} now (f : engine -> A) e e' : (forall x, f (frame x) = f x) -> idle now e e' -> f e' = f e.
Proof. intros Hf [H _ _ _ _ _]. rewrite <- (Hf e'), <- (Hf e). by rewrite H. Qed.

Lemma idle_state now e e' : idle now e e' -> forall k, sget e' k = sget e k.
Proof. intros C k. unfold sget. by rewrite (idle_proj now en_state e e' ltac:(done) C). Qed.

Lemma collected_idle now e e' : collected now e e' -> idle now e e'.
Proof.
  intros C. pose proof C as [S U L]. constructor; try done.
  - unfold frame. by rewrite S.
  - by rewrite (collected_proj now en_version e e' ltac:(done) C).
  - by rewrite (collected_proj now en_commit e e' ltac:(done) C).
  - by rewrite (collected_proj now en_failed e e' ltac:(done) C).
Qed.

Lemma quiet_idle now e e' : quiet e e' -> idle now e e'.
Proof. intros Q. by apply collected_idle, quiet_collected. Qed.

Lemma fail_idle now e : idle now e (job_engine_fail e).
Proof. by constructor. Qed.

Lemma doubt_idle now e op : idle now e (job_engine_mark_in_doubt e op).
Proof. by constructor. Qed.

Lemma fail_ok e : engine_ok e -> engine_ok (job_engine_fail e).
Proof. by intros []. Qed.

Lemma doubt_ok e op : engine_ok e -> engine_ok (job_engine_mark_in_doubt e op).
Proof. by intros []. Qed.

(** The next identities, in range. *)
Definition numbered (e : engine) : engine := {| e with en_version := en_version e + 1; en_commit := en_commit e + 1 |}.

Lemma numbered_ok e : engine_ok e -> counters_full e = false -> engine_ok (numbered e).
Proof.
  intros [H1 H2 H3 H4 H5 H6 H7 H8 H9 H10 H11 H12 H13] Hf. unfold counters_full in Hf. apply orb_false_iff in Hf as [F1 F2].
  apply Z.eqb_neq in F1, F2. constructor; try done; cbn [numbered en_version en_commit].
  - lia.
  - intros k x Hx. specialize (H12 k x Hx). lia.
  - intros op r Hr. specialize (H13 op r Hr). lia.
Qed.

Lemma numbered_idle now e : idle now e (numbered e).
Proof. constructor; cbn; try done; lia. Qed.

(** ** Admission *)

Definition kind_of (is_put : bool) : Z := if is_put then JOB_KIND_STATE_PUT else JOB_KIND_STATE_DELETE.

(** The version check of a mutation. *)
Definition admissible (is_put : bool) (cur : option jentry) (expected : Z) : bool :=
  if is_put then version_matches cur expected else match cur with Some x => e_version x =? expected | None => false end.

(** What an admitted mutation commits. *)
Definition admission_of (e : engine) (is_put : bool) (key value : bytes) (expected : Z) (op digest : bytes) (now : Z) : admission :=
  let version := en_version e + 1 in let commit := en_commit e + 1 in
  let expires := u64 (now + cf_retention (en_cfg e)) in
  Admission version commit now expires (receipt_of (kind_of is_put) op digest commit version [] 0 [] 0 now expires)
    (if is_put then Some (plan_of e key value version commit) else None)
    (job_state_record_encode (kind_of is_put) op expected key (if is_put then value else []) now expires).

Lemma plan_of_same e e' key value version commit : (forall k, sget e' k = sget e k) ->
  plan_of e' key value version commit = plan_of e key value version commit.
Proof. intros H. unfold plan_of. by rewrite H. Qed.

Lemma state_prepare_spec e is_put key value expected op digest now : let '(res, e') := state_prepare e is_put key value expected op digest now in
  quiet (numbered e) e' /\
  match res with
  | Rejected st => st = JOB_RESOURCE_EXHAUSTED
  | Replay _ => False
  | Granted a => a = admission_of e is_put key value expected op digest now
  end.
Proof.
  unfold state_prepare, take_ids. change {| e with en_version := en_version e + 1; en_commit := en_commit e + 1 |} with (numbered e).
  set (version := en_version e + 1). set (commit := en_commit e + 1). set (expires := u64 (now + cf_retention (en_cfg (numbered e)))).
  pose proof (jalloc_quiet (numbered e)) as Q1. destruct (jalloc (numbered e)) as [ok e1]. cbn in Q1.
  pose proof (receipt_create_spec e1 (kind_of is_put) op digest commit version [] 0 [] 0 now expires ltac:(done) ltac:(done)) as K1.
  change (if is_put then JOB_KIND_STATE_PUT else JOB_KIND_STATE_DELETE) with (kind_of is_put).
  destruct (receipt_create e1 _ _ _ _ _ _ _ _ _ _ _) as [rec e2]. destruct K1 as [Q2 E1]. assert (Q : quiet (numbered e) e2) by (by transitivity e1).
  destruct is_put.
  - pose proof (plan_locked_spec e2 key value version commit) as K2. destruct (job_state_plan_locked e2 key value version commit) as [plan e3].
    destruct K2 as [Q3 E2]. assert (Q' : quiet (numbered e) e3) by (by transitivity e2).
    destruct ok, rec as [rec|], plan as [plan|]; (split; [done|]); try done. subst. unfold admission_of. do 2 f_equal. apply plan_of_same.
    intros k. unfold sget. by rewrite (quiet_proj en_state (numbered e) e2 ltac:(done) Q).
  - destruct ok, rec as [rec|]; (split; [done|]); try done. by subst.
Qed.

Lemma state_admit_spec e is_put key value expected op digest now : engine_ok e ->
  let '(res, e') := state_admit e is_put key value expected op digest now in
  match res with
  | Rejected st => engine_ok e' /\ idle now e e'
  | Replay x => quiet e e' /\ rget e op = Some x /\ jr_kind x = kind_of is_put /\ jr_digest x = digest
  | Granted a => exists e1, engine_ok e1 /\ collected now e e1 /\ counters_full e1 = false /\ quiet (numbered e1) e' /\
      rget e op = None /\ en_failed e = false /\ admissible is_put (sget e key) expected = true /\
      a = admission_of e is_put key value expected op digest now
  end.
Proof.
  intros O. unfold state_admit. change (if is_put then JOB_KIND_STATE_PUT else JOB_KIND_STATE_DELETE) with (kind_of is_put).
  destruct (rget e op) as [x|] eqn:Er.
  { destruct (_ || _) eqn:Ex; [split; [by apply (quiet_ok e)|by apply quiet_idle]|]. apply orb_false_iff in Ex as [E1 E2].
    apply negb_false_iff in E1, E2. apply Z.eqb_eq in E1. by apply name_eqb_eq in E2. }
  destruct (match en_doubt e with Some o => _ | None => false end); [done|]. destruct (en_failed e) eqn:Ef; [done|].
  destruct (negb is_put && _); [done|]. change (if is_put then version_matches (sget e key) expected
    else match sget e key with Some x => e_version x =? expected | None => false end) with (admissible is_put (sget e key) expected).
  destruct (admissible is_put (sget e key) expected) eqn:Ea; cbn [negb]; [|split; [by apply (quiet_ok e)|by apply quiet_idle]].
  destruct (is_put && _); [split; [by apply (quiet_ok e)|by apply quiet_idle]|].
  pose proof (receipt_room_spec e 0 0 now O) as K. destruct (receipt_room e 0 0 now) as [room e1]. destruct K as [O1 C1].
  destruct room; cbn [negb]; [|split; [done|by apply collected_idle]].
  destruct (counters_full e1) eqn:Ec; [split; [by apply fail_ok|transitivity e1; [by apply collected_idle|apply fail_idle]]|].
  pose proof (state_prepare_spec e1 is_put key value expected op digest now) as K.
  destruct (state_prepare e1 is_put key value expected op digest now) as [[st|x|a] e2]; destruct K as [Q E]; [|done|].
  - split; [apply (quiet_ok (numbered e1)); [done|by apply numbered_ok]|].
    transitivity e1; [by apply collected_idle|]. transitivity (numbered e1); [apply numbered_idle|by apply quiet_idle].
  - exists e1. split_and!; try done. rewrite E. unfold admission_of.
    rewrite (collected_proj now en_version e e1 ltac:(done) C1), (collected_proj now en_commit e e1 ltac:(done) C1), (collected_proj now en_cfg e e1 ltac:(done) C1).
    do 2 f_equal. destruct is_put; [|done]. f_equal. apply plan_of_same. by apply collected_state with now.
Qed.

(** ** The record in the log *)

(** The store without its log. *)
Definition unlogged (s : store) : store :=
  {| s with st_log := []; st_wal_seq := 0; st_synced_seq := 0; st_ios := []; st_failed := false |}.

Record logs (r : record) (s s' : store) : Prop := Logs {
  lg_rest : unlogged s' = unlogged s;
  lg_log : st_log s' = st_log s ++ [r];
  lg_failed : st_failed s = false /\ st_failed s' = false;
  lg_seq : st_wal_seq s' = st_wal_seq s + 1;
  lg_synced : st_synced_seq s' = st_wal_seq s' }.

(** A record whose fate is unknown; the store has failed, or had no log. *)
Record in_doubt (r : record) (s s' : store) : Prop := InDoubt {
  dt_rest : unlogged s' = unlogged s;
  dt_log : st_log s' = st_log s \/ st_log s' = st_log s ++ [r];
  dt_failed : st_log_open s = true -> st_failed s' = true }.

Lemma append_sync_spec s op name id aux data :
  let r := {| r_op := op; r_durable := true; r_name := name; r_id := id; r_aux := aux; r_data := data |} in
  let '(rc, s') := append_record s op true name id aux data true in
  (rc = 0 /\ logs r s s') \/ (rc = -1 /\ in_doubt r s s').
Proof.
  intros r. unfold append_record. cbn [negb]. destruct (st_log_open s) eqn:Eo; cbn [negb orb].
  - destruct (st_failed s) eqn:Ef; [right; split; [done|]; constructor; [done|by left|done]|]. unfold io.
    destruct (draw (st_ios s)) as [[|] ios]; cbn [negb]; [|right; split; [done|]; constructor; [done|by left|done]].
    cbn [st_ios]. destruct (draw ios) as [[|] ios']; cbn [negb].
    + left. split; [done|]. constructor; try done.
    + right. split; [done|]. constructor; [done|by right|done].
  - right. split; [done|]. constructor; [done|by left|by rewrite Eo].
Qed.

(** ** Mutations *)

(** What a committed mutation leaves: the entry, the receipt and the
    high-water marks; [e] has been collected already. *)
Record commits (key : bytes) (v : option jentry) (r : jreceipt) (e e' : engine) : Prop := Commits {
  cm_new : rget e (jr_op r) = None;
  cm_state : forall k, sget e' k = if decide (key = k) then v else sget e k;
  cm_receipt : forall op, rget e' op = if decide (jr_op r = op) then Some r else rget e op;
  cm_version : jr_version r = en_version e + 1 /\ en_version e' = en_version e + 1;
  cm_commit : jr_commit r = en_commit e + 1 /\ en_commit e' = en_commit e + 1;
  cm_same : en_store_id e' = en_store_id e /\ en_id_set e' = en_id_set e /\ en_attached e' = en_attached e /\
            en_cfg e' = en_cfg e /\ en_failed e' = en_failed e /\ en_epoch e' = en_epoch e /\ en_doubt e' = en_doubt e }.

Definition entry_of (is_put : bool) (key value : bytes) (version commit : Z) : option jentry :=
  if is_put then Some (JEntry key value version commit) else None.

Lemma apply_commit_spec e1 e2 is_put key value expected op digest now : engine_ok e1 -> counters_full e1 = false ->
  quiet (numbered e1) e2 -> rget e1 op = None -> let a := admission_of e1 is_put key value expected op digest now in
  let e' := state_apply_commit e2 key a in
  engine_ok e' /\ commits key (entry_of is_put key value (ad_version a) (ad_commit a)) (ad_rec a) e1 e'.
Proof.
  intros O1 Hf Q Hn a e'. pose proof (quiet_ok _ _ Q (numbered_ok _ O1 Hf)) as O2.
  assert (Ev : en_version e2 = en_version e1 + 1) by (by rewrite (quiet_proj en_version _ _ ltac:(done) Q)).
  assert (Ec : en_commit e2 = en_commit e1 + 1) by (by rewrite (quiet_proj en_commit _ _ ltac:(done) Q)).
  pose proof (eo_hwm _ O1) as [Hv Hc]. set (v := entry_of is_put key value (ad_version a) (ad_commit a)).
  assert (Hs : exists e3, e' = receipt_link_locked e3 (ad_rec a) /\ engine_ok e3 /\ sets_state key v e2 e3).
  { unfold e', state_apply_commit. destruct is_put; cbn [admission_of a ad_plan ad_rec].
    - rewrite <- (plan_of_same e1 e2); [|intros k; unfold sget; by rewrite (quiet_proj en_state _ _ ltac:(done) Q)].
      destruct (plan_apply_spec e2 key value (en_version e1 + 1) (en_commit e1 + 1) O2 ltac:(lia) ltac:(lia)) as [O3 S3]. eexists. split; [done|]. done.
    - destruct (apply_delete_spec e2 key O2) as [O3 S3]. eexists. done. }
  destruct Hs as (e3 & -> & O3 & S3). pose proof (sets_receipts _ _ _ _ S3) as R3.
  assert (R2 : forall k, rget e2 k = rget e1 k) by (intros k; unfold rget; by rewrite (quiet_proj en_receipts _ _ ltac:(done) Q)).
  assert (P3 : forall {A} (f : engine -> A), (forall x, f (stateless x) = f x) -> f e3 = f e2) by (intros A f Hx; by apply (sets_proj key v)).
  destruct (link_receipt_spec e3 (ad_rec a) O3) as [O4 A4].
  { change (rget e3 op = None). by rewrite R3, R2. }
  { change (0 < en_version e1 + 1 <= en_version e3). rewrite (P3 _ en_version ltac:(done)). lia. }
  { change (0 < en_commit e1 + 1 <= en_commit e3). rewrite (P3 _ en_commit ltac:(done)). lia. }
  split; [exact O4|]. destruct A4 as [Rs G].
  assert (P4 : forall {A} (f : engine -> A), (forall x, f (skel x) = f x) -> f (receipt_link_locked e3 (ad_rec a)) = f e3).
  { intros A f Hx. rewrite <- (Hx (receipt_link_locked e3 (ad_rec a))), <- (Hx e3). by rewrite Rs. }
  assert (P : forall {A} (f : engine -> A), (forall x, f (skel x) = f x) -> (forall x, f (stateless x) = f x) -> (forall x, f (core x) = f x) ->
    f (receipt_link_locked e3 (ad_rec a)) = f (numbered e1)).
  { intros A f Hx Hy Hz. rewrite P4, P3 by done. by apply quiet_proj. }
  constructor; [done| | | | |].
  - intros k. transitivity (sget e3 k); [unfold sget; by rewrite (P4 _ en_state ltac:(done))|].
    rewrite (ss_get _ _ _ _ S3). destruct (decide _); [done|]. unfold sget. by rewrite (quiet_proj en_state _ _ ltac:(done) Q).
  - intros k. rewrite G, R3, R2. done.
  - split; [done|]. by rewrite (P _ en_version ltac:(done) ltac:(done) ltac:(done)).
  - split; [done|]. by rewrite (P _ en_commit ltac:(done) ltac:(done) ltac:(done)).
  - split_and!; by (rewrite (P _ en_store_id ltac:(done) ltac:(done) ltac:(done)) || rewrite (P _ en_id_set ltac:(done) ltac:(done) ltac:(done)) ||
      rewrite (P _ en_attached ltac:(done) ltac:(done) ltac:(done)) || rewrite (P _ en_cfg ltac:(done) ltac:(done) ltac:(done)) ||
      rewrite (P _ en_failed ltac:(done) ltac:(done) ltac:(done)) || rewrite (P _ en_epoch ltac:(done) ltac:(done) ltac:(done)) ||
      rewrite (P _ en_doubt ltac:(done) ltac:(done) ltac:(done))).
Qed.

Definition state_record (a : admission) : record :=
  {| r_op := LOG_JOB_STATE; r_durable := true; r_name := QUEUE_WAL_JOB_STATE_NAME; r_id := ad_version a; r_aux := ad_commit a;
     r_data := ad_payload a |}.

Definition mutation_digest (store_id : bytes) (is_put : bool) (key value : bytes) (expected : Z) (op : bytes) : bytes :=
  job_canonical_digest (Request (kind_of is_put) op store_id None 0 0 key expected (if is_put then value else []) None).

Section Outcome.
Context (e : engine) (s : store) (is_put : bool) (key value : bytes) (expected : Z) (op : bytes) (now : Z).

Let digest : bytes := mutation_digest (en_store_id e) is_put key value expected op.
Let a : admission := admission_of e is_put key value expected op digest now.

(** The outcomes of a mutation: it is refused and changes nothing, it is the
    retry of a committed one, its record may be durable, or it is committed. *)
Inductive mutation_outcome : job_status + mutation -> engine -> store -> Prop :=
  | MoRejected st e' : idle now e e' -> mutation_outcome (inl st) e' s
  | MoReplayed r e' : rget e op = Some r -> jr_kind r = kind_of is_put -> jr_digest r = digest -> quiet e e' ->
      mutation_outcome (inr (replayed_mutation r)) e' s
  | MoDoubt e' s' : idle now e e' -> rget e op = None -> en_failed e' = true -> en_doubt e' = Some op ->
      en_attached e = false /\ s' = s \/ in_doubt (state_record a) s s' -> mutation_outcome (inl JOB_OPERATION_IN_DOUBT) e' s'
  | MoCommitted e1 e' s' : rget e op = None -> collected now e e1 -> en_failed e = false -> en_attached e = true ->
      admissible is_put (sget e key) expected = true -> logs (state_record a) s s' ->
      commits key (entry_of is_put key value (ad_version a) (ad_commit a)) (ad_rec a) e1 e' ->
      mutation_outcome (inr (Mutation op (kind_of is_put) (ad_commit a) (ad_version a) (ad_completed a) (ad_expires a) false)) e' s'.

End Outcome.

Lemma state_mutate_spec e s is_put key value expected op now : engine_ok e -> let '(res, e', s') := state_mutate e s is_put key value expected op now in
  engine_ok e' /\ mutation_outcome e s is_put key value expected op now res e' s'.
Proof.
  intros O. set (digest := mutation_digest (en_store_id e) is_put key value expected op).
  set (a := admission_of e is_put key value expected op digest now). unfold state_mutate. change (if is_put then JOB_KIND_STATE_PUT else JOB_KIND_STATE_DELETE) with (kind_of is_put).
  change (job_canonical_digest _) with digest. pose proof (state_admit_spec e is_put key value expected op digest now O) as K.
  destruct (state_admit e is_put key value expected op digest now) as [[st|x|adm] e2].
  - destruct K as [O' I]. split; [done|by constructor].
  - destruct K as (Q & R & Hk & Hd). split; [by apply (quiet_ok e)|by eapply MoReplayed].
  - destruct K as (e1 & O1 & C & Hf & Q & R & F & Ha & ->). change (admission_of e is_put key value expected op digest now) with a.
    assert (O2 : engine_ok e2) by (apply (quiet_ok (numbered e1)); [done|by apply numbered_ok]).
    assert (I2 : idle now e e2).
    { transitivity e1; [by apply collected_idle|]. transitivity (numbered e1); [apply numbered_idle|by apply quiet_idle]. }
    assert (Ea : en_attached e2 = en_attached e) by (by apply (idle_proj now)).
    assert (Hd : forall s', en_attached e = false /\ s' = s \/ in_doubt (state_record a) s s' ->
      engine_ok (job_engine_mark_in_doubt e2 op) /\ mutation_outcome e s is_put key value expected op now (inl JOB_OPERATION_IN_DOUBT) (job_engine_mark_in_doubt e2 op) s').
    { intros s' H. split; [by apply doubt_ok|]. apply MoDoubt; try done. transitivity e2; [done|apply doubt_idle]. }
    unfold append_sync. rewrite Ea. destruct (en_attached e) eqn:Eat; [|cbn [Z.ltb Z.compare]; apply Hd; by left].
    pose proof (append_sync_spec s LOG_JOB_STATE QUEUE_WAL_JOB_STATE_NAME (ad_version a) (ad_commit a) (ad_payload a)) as K.
    destruct (append_record s LOG_JOB_STATE true _ _ _ _ true) as [rc s']. destruct K as [[-> L]|[-> D]]; cbn [Z.ltb Z.compare]; [|apply Hd; by right].
    assert (Ad : a = admission_of e1 is_put key value expected op digest now).
    { unfold a, admission_of. rewrite (collected_proj now en_version e e1 ltac:(done) C), (collected_proj now en_commit e e1 ltac:(done) C),
        (collected_proj now en_cfg e e1 ltac:(done) C). destruct is_put; [|done]. f_equal. f_equal. symmetry. apply plan_of_same. by apply collected_state with now. }
    destruct (apply_commit_spec e1 e2 is_put key value expected op digest now O1 Hf Q) as [O' Cm].
    { destruct (rget e1 op) as [r|] eqn:Er; [|done]. by rewrite (cl_sub _ _ _ C _ _ Er) in R. }
    rewrite <- Ad in O', Cm. split; [done|]. by eapply MoCommitted.
Qed.

Lemma put_spec e s key value expected op now : engine_ok e -> let '(res, e', s') := job_state_put e s key value expected op now in
  engine_ok e' /\ mutation_outcome e s true key value expected op now res e' s'.
Proof.
  intros O. unfold job_state_put. destruct (_ || _ || _); [split; [done|by constructor]|].
  destruct (_ <? _); [split; [by apply (quiet_ok e)|by constructor; apply quiet_idle]|]. by apply state_mutate_spec.
Qed.

Lemma delete_spec e s key expected op now : engine_ok e -> let '(res, e', s') := job_state_delete e s key expected op now in
  engine_ok e' /\ mutation_outcome e s false key [] expected op now res e' s'.
Proof.
  intros O. unfold job_state_delete. destruct (_ || _ || _ || _); [split; [done|by constructor]|].
  destruct (_ <? _); [split; [by apply (quiet_ok e)|by constructor; apply quiet_idle]|]. by apply state_mutate_spec.
Qed.

End JobSpec.
