(* ===== verification/JobComplete.v ===== *)
(** * What a completion does

    The effects of job_complete on the engine and on the queue store: a
    completion is refused and changes nothing, it is the retry of a committed
    one, its record may be durable, or it is committed: one record in the log,
    the state, the receipt, the output and the removal of the input. *)

From stdpp Require Import base numbers option list relations.
From S2P Require Import Prelude Sha256 Queue QueueIndex WalRecord QueueStore QueueReplay Exchange QueueTx.
From S2P Require Import ExchangeReplay QueueBatch QueueCommit QueueOps Atomic JobEngine JobCompletion.
From S2P Require Import JobTable JobSpec.
Import Sha256 JobDigest Queue QueueIndex Wal Store Replay Batch Ops JobEngine JobCompletion JobTable JobSpec.

Module JobComplete.

(** ** Proofs *)

(** The engine without its proofs. *)
Definition proofless (e : engine) : engine :=
  let e := core e in {| e with en_proofs := []; en_proof_count := 0; en_proof_cursor := 0 |}.

Definition reproves (e e' : engine) : Prop := proofless e' = proofless e.

#[global] Instance reproves_equivalence : Equivalence reproves.
Proof. split; [done|by intros a b|]. intros a b c H1 H2. unfold reproves in *. congruence. Qed.

Lemma reproves_proj {A} (f : engine -> A) e e' : (forall x, f (proofless x) = f x) -> reproves e e' -> f e' = f e.
Proof. intros Hf H. rewrite <- (Hf e'), <- (Hf e). by rewrite H. Qed.

Lemma reproves_ok e e' : reproves e e' -> engine_ok e -> proofs_ok (en_proofs e') ->
  en_proof_count e' = zlen (concat (en_proofs e')) -> 0 <= en_proof_cursor e' < JOB_PROOF_BUCKETS -> engine_ok e'.
Proof.
  intros H [H1 H2 H3 H4 H5 H6 H7 H8 H9 H10 H11 H12 H13] T C P.
  assert (E : forall {A} (f : engine -> A), (forall x, f (proofless x) = f x) -> f e' = f e) by (intros A f Hf; by apply reproves_proj).
  constructor; rewrite ?(E _ en_state ltac:(done)), ?(E _ en_receipts ltac:(done)), ?(E _ en_entries ltac:(done)), ?(E _ en_bytes ltac:(done)),
    ?(E _ en_receipt_count ltac:(done)), ?(E _ en_receipt_bytes ltac:(done)), ?(E _ en_gc_cursor ltac:(done)),
    ?(E _ en_version ltac:(done)), ?(E _ en_commit ltac:(done)); try done.
  - intros k x. unfold sget. rewrite (E _ en_state ltac:(done)). apply H12.
  - intros k x. unfold rget. rewrite (E _ en_receipts ltac:(done)). apply H13.
Qed.

Abbreviation pget := job_proof_find_locked.

Lemma proof_remove_spec e proof p : engine_ok e -> pget e proof = Some p ->
  engine_ok (job_proof_remove_locked e p) /\ reproves e (job_proof_remove_locked e p).
Proof.
  intros O Hp. pose proof (tget_key _ _ _ _ _ Hp) as [_ Ek]. subst proof.
  destruct (table_remove pf_proof job_proof_bucket _ proof_lt (en_proofs e) (pf_proof p) p (eo_proofs _ O) Hp) as (T1 & _ & T3).
  split; [|done]. apply (reproves_ok e); try done; cbn [job_proof_remove_locked en_proofs en_proof_count en_proof_cursor]; [|apply O].
  rewrite (zlen_sum (concat (alter _ _ _))), T3, <- zlen_sum, (eo_proof_count _ O). done.
Qed.

Lemma forget_spec e proof : engine_ok e -> engine_ok (job_proof_forget e proof) /\ reproves e (job_proof_forget e proof).
Proof. intros O. unfold job_proof_forget. destruct (pget e proof) as [p|] eqn:E; [|done]. by eapply proof_remove_spec. Qed.

Lemma push_proof_spec e p : engine_ok e -> pget e (pf_proof p) = None -> engine_ok (push_proof e p) /\ reproves e (push_proof e p).
Proof.
  intros O Hn. destruct (table_push pf_proof job_proof_bucket _ proof_lt (en_proofs e) p (eo_proofs _ O) Hn) as (T1 & _ & T3).
  split; [|done]. apply (reproves_ok e); try done; cbn [push_proof en_proofs en_proof_count en_proof_cursor]; [|apply O].
  rewrite (zlen_sum (concat (alter _ _ _))), T3, <- zlen_sum, (eo_proof_count _ O). done.
Qed.

(** Collection only removes proofs. *)
Definition fewer_proofs (e e' : engine) : Prop := forall proof, pget e proof = None -> pget e' proof = None.

Lemma proof_gc_bucket_spec e now : engine_ok e -> let '(k, e') := proof_gc_bucket e now in
  engine_ok e' /\ reproves e e' /\ fewer_proofs e e'.
Proof.
  intros O. unfold proof_gc_bucket. set (b := Z.to_nat (en_proof_cursor e)). set (gone := List.filter (stale_proof now) _).
  assert (Hb : (b < Z.to_nat JOB_PROOF_BUCKETS)%nat) by (pose proof (eo_proof_cursor _ O); unfold b; lia).
  destruct (table_filter pf_proof job_proof_bucket _ (en_proofs e) b (fun p => negb (stale_proof now p)) (eo_proofs _ O) Hb) as (T1 & T2 & T3).
  split; [|split; [done|]].
  - apply (reproves_ok e); try done; cbn [en_proofs en_proof_count en_proof_cursor].
    + rewrite (zlen_sum (concat (alter _ _ _))), T3, <- zlen_sum, (eo_proof_count _ O), (zlen_sum gone). do 2 f_equal.
      apply List.filter_ext. intros p. by rewrite negb_involutive.
    + pose proof (land_le_r (en_proof_cursor e + 1) (JOB_PROOF_BUCKETS - 1) ltac:(done)). lia.
  - intros proof Hn. pose proof (T2 proof) as T. change (tget pf_proof job_proof_bucket (en_proofs e) proof) with (pget e proof) in T.
    rewrite Hn in T. exact T.
Qed.

Lemma proof_gc_loop_spec n now : forall e removed, engine_ok e -> let '(k, e') := proof_gc_loop n e now removed in
  engine_ok e' /\ reproves e e' /\ fewer_proofs e e'.
Proof.
  induction n as [|n IH]; intros e removed O; [split_and!; [done|done|by intros p]|]. cbn [proof_gc_loop]. pose proof (proof_gc_bucket_spec e now O) as K.
  destruct (proof_gc_bucket e now) as [k e1]. destruct K as (O1 & R1 & F1). specialize (IH e1 (removed + k) O1).
  destruct (proof_gc_loop n e1 now (removed + k)) as [k' e2]. destruct IH as (O2 & R2 & F2). split; [done|]. split; [by transitivity e1|].
  intros proof Hn. by apply F2, F1.
Qed.

(** ** Preparing *)

(** What an admitted completion commits. *)
Definition prepared_of (e : engine) (q : job_request) (digest : bytes) (out_msg now : Z) : prepared :=
  let version := en_version e + 1 in let commit := en_commit e + 1 in
  let expires := u64 (now + cf_retention (en_cfg e)) in
  Prepared commit version now expires (plan_of e (jq_key q) (jq_value q) version commit)
    (receipt_of JOB_KIND_COMPLETION (jq_op q) digest commit version (jq_in q) (jq_in_msg q) (out_queue q)
       (match jq_out q with Some _ => out_msg | None => 0 end) now expires).

Lemma complete_build_spec e q digest out_msg now : fits 16 (zlen (jq_in q)) -> fits 16 (zlen (out_queue q)) ->
  let '(res, e') := complete_build e q digest out_msg now in
  quiet (numbered e) e' /\ match res with inl _ => True | inr p => p = prepared_of e q digest out_msg now end.
Proof.
  intros Hi Ho. unfold complete_build, take_ids.
  change {| e with en_version := en_version e + 1; en_commit := en_commit e + 1 |} with (numbered e).
  set (version := en_version e + 1). set (commit := en_commit e + 1).
  pose proof (plan_locked_spec (numbered e) (jq_key q) (jq_value q) version commit) as K1.
  destruct (job_state_plan_locked (numbered e) (jq_key q) (jq_value q) version commit) as [[plan|] e1]; [|by destruct K1].
  destruct K1 as [Q1 E1]. pose proof (receipt_create_spec e1 JOB_KIND_COMPLETION (jq_op q) digest commit version (jq_in q) (jq_in_msg q)
    (out_queue q) (match jq_out q with Some _ => out_msg | None => 0 end) now (u64 (now + cf_retention (en_cfg e))) Hi Ho) as K2.
  destruct (receipt_create e1 _ _ _ _ _ _ _ _ _ _ _) as [[rec|] e2]; destruct K2 as [Q2 E2]; (split; [by transitivity e1|]); [|done].
  rewrite E1, E2. done.
Qed.

(** The proof of the delivery, alive. *)
Definition proven (e : engine) (q : job_request) (mono : Z) : Prop :=
  exists p, pget e (jq_proof q) = Some p /\ pf_epoch p = en_epoch e /\ proof_fits q p = true /\ mono < pf_expires p.

Lemma complete_prepare_spec e q digest out_msg t : engine_ok e -> fits 16 (zlen (jq_in q)) -> fits 16 (zlen (out_queue q)) ->
  let '(res, e') := complete_prepare e q digest out_msg t in
  match res with
  | inl _ => engine_ok e' /\ idle (ck_gc t) e e'
  | inr p => exists e1, engine_ok e1 /\ collected (ck_gc t) e e1 /\ counters_full e1 = false /\ quiet (numbered e1) e' /\
      proven e q (ck_proof t) /\ version_matches (sget e (jq_key q)) (jq_expected q) = true /\
      p = prepared_of e1 q digest out_msg (ck_now t)
  end.
Proof.
  intros O Hi Ho. unfold complete_prepare. destruct (counters_full e) eqn:Ec; [split; [by apply fail_ok|apply fail_idle]|].
  destruct (version_matches _ _) eqn:Ev; cbn [negb]; [|split; [by apply (quiet_ok e)|by apply quiet_idle]].
  destruct (state_full _ _); [split; [by apply (quiet_ok e)|by apply quiet_idle]|].
  pose proof (receipt_room_spec e (zlen (jq_in q)) (zlen (out_queue q)) (ck_gc t) O) as K.
  destruct (receipt_room e _ _ (ck_gc t)) as [room e1]. destruct K as [O1 C1]. destruct room; cbn [negb]; [|split; [done|by apply collected_idle]].
  assert (Rj : engine_ok (count bump_delivery e1) /\ idle (ck_gc t) e (count bump_delivery e1)).
  { split; [by apply (quiet_ok e1)|]. transitivity e1; [by apply collected_idle|by apply quiet_idle]. }
  destruct (pget e1 (jq_proof q)) as [p|] eqn:Ep; [|done]. destruct (name_eqb _ _ && proof_fits q p) eqn:Ef; [|done].
  destruct (ck_proof t <? pf_expires p) eqn:El; [|done]. apply andb_prop in Ef as [F1 F2]. apply name_eqb_eq in F1. apply Z.ltb_lt in El.
  assert (Ec1 : counters_full e1 = false).
  { unfold counters_full. by rewrite (collected_proj _ en_version e e1 ltac:(done) C1), (collected_proj _ en_commit e e1 ltac:(done) C1). }
  pose proof (complete_build_spec e1 q digest out_msg (ck_now t) Hi Ho) as K. destruct (complete_build e1 q digest out_msg (ck_now t)) as [[st|pr] e2];
    destruct K as [Q E].
  - split; [apply (quiet_ok (numbered e1)); [done|by apply numbered_ok]|]. transitivity e1; [by apply collected_idle|].
    transitivity (numbered e1); [apply numbered_idle|by apply quiet_idle].
  - exists e1. split_and!; try done. exists p. split; [unfold pget in *; by rewrite <- (collected_proj _ en_proofs e e1 ltac:(done) C1)|].
    split; [|done]. by rewrite F1, (collected_proj _ en_epoch e e1 ltac:(done) C1).
Qed.

(** ** Publishing *)

(** The engine without its tables. *)
Definition bare (e : engine) : engine := stateless (skel (proofless e)).

Lemma bare_proj {A} (f : engine -> A) e e' : (forall x, f (bare x) = f x) -> bare e' = bare e -> f e' = f e.
Proof. intros Hf H. rewrite <- (Hf e'), <- (Hf e). by rewrite H. Qed.

Lemma commits_intro key v r e e' : bare e' = bare (numbered e) -> rget e (jr_op r) = None ->
  (forall k, sget e' k = if decide (key = k) then v else sget e k) ->
  (forall op, rget e' op = if decide (jr_op r = op) then Some r else rget e op) ->
  jr_version r = en_version e + 1 -> jr_commit r = en_commit e + 1 -> commits key v r e e'.
Proof.
  intros B N S R V C. assert (P : forall {A} (f : engine -> A), (forall x, f (bare x) = f x) -> f e' = f (numbered e)) by (intros A f Hf; by apply bare_proj).
  constructor; [done..| | |].
  - split; [done|]. by rewrite (P _ en_version ltac:(done)).
  - split; [done|]. by rewrite (P _ en_commit ltac:(done)).
  - split_and!; [by rewrite (P _ en_store_id ltac:(done))|by rewrite (P _ en_id_set ltac:(done))|by rewrite (P _ en_attached ltac:(done))|
      by rewrite (P _ en_cfg ltac:(done))|by rewrite (P _ en_failed ltac:(done))|by rewrite (P _ en_epoch ltac:(done))|by rewrite (P _ en_doubt ltac:(done))].
Qed.

Lemma complete_apply_spec e1 e2 q digest out_msg now : engine_ok e1 -> counters_full e1 = false -> quiet (numbered e1) e2 ->
  rget e1 (jq_op q) = None -> let p := prepared_of e1 q digest out_msg now in let e' := complete_apply e2 q p in
  engine_ok e' /\ commits (jq_key q) (Some (JEntry (jq_key q) (jq_value q) (pr_version p) (pr_commit p))) (pr_rec p) e1 e'.
Proof.
  intros O1 Hf Q Hn p e'. pose proof (quiet_ok _ _ Q (numbered_ok _ O1 Hf)) as O2. pose proof (eo_hwm _ O1) as [Hv Hc].
  assert (Ev : en_version e2 = en_version e1 + 1) by (by rewrite (quiet_proj en_version _ _ ltac:(done) Q)).
  assert (Ec : en_commit e2 = en_commit e1 + 1) by (by rewrite (quiet_proj en_commit _ _ ltac:(done) Q)).
  assert (R2 : forall k, rget e2 k = rget e1 k) by (intros k; unfold rget; by rewrite (quiet_proj en_receipts _ _ ltac:(done) Q)).
  assert (S2 : forall k, sget e2 k = sget e1 k) by (intros k; unfold sget; by rewrite (quiet_proj en_state _ _ ltac:(done) Q)).
  destruct (link_receipt_spec e2 (pr_rec p) O2) as [O3 [B3 G3]].
  { change (rget e2 (jq_op q) = None). by rewrite R2. }
  { change (0 < en_version e1 + 1 <= en_version e2). lia. }
  { change (0 < en_commit e1 + 1 <= en_commit e2). lia. }
  set (e3 := receipt_link_locked e2 (pr_rec p)) in *.
  assert (P3 : forall {A} (f : engine -> A), (forall x, f (skel x) = f x) -> f e3 = f e2).
  { intros A f Hx. rewrite <- (Hx e3), <- (Hx e2). by rewrite B3. }
  assert (S3 : forall k, sget e3 k = sget e1 k) by (intros k; rewrite <- S2; unfold sget; by rewrite (P3 _ en_state ltac:(done))).
  destruct (plan_apply_spec e3 (jq_key q) (jq_value q) (en_version e1 + 1) (en_commit e1 + 1) O3) as [O4 [B4 G4]].
  { rewrite (P3 _ en_version ltac:(done)). lia. }
  { rewrite (P3 _ en_commit ltac:(done)). lia. }
  rewrite (plan_of_same e1 e3) in O4, B4, G4 by exact S3. change (plan_of e1 _ _ _ _) with (pr_plan p) in O4, B4, G4.
  set (e4 := job_state_plan_apply e3 (pr_plan p)) in *. destruct (forget_spec e4 (jq_proof q) O4) as [O5 R5]. set (e5 := job_proof_forget e4 (jq_proof q)) in *.
  assert (Q' : quiet e5 e') by done. split; [by apply (quiet_ok e5)|].
  assert (P5 : forall {A} (f : engine -> A), (forall x, f (proofless x) = f x) -> f e' = f e4) by (intros A f Hx; by apply (reproves_proj f e4 e')).
  apply commits_intro; try done.
  - rewrite (P5 _ bare ltac:(done)). transitivity (bare e3); [unfold bare|transitivity (bare e2); [|unfold bare, skel, proofless; by rewrite Q]].
    + transitivity (skel (proofless (stateless e4))); [done|]. by rewrite B4.
    + transitivity (stateless (proofless (skel e3))); [done|]. by rewrite B3.
  - intros k. transitivity (sget e4 k); [unfold sget; by rewrite (P5 _ en_state ltac:(done))|]. rewrite G4. destruct (decide _); [done|apply S3].
  - intros op. transitivity (rget e3 op); [|rewrite G3; destruct (decide _); [done|apply R2]]. unfold rget. rewrite (P5 _ en_receipts ltac:(done)).
    by rewrite (sets_proj (jq_key q) (Some (JEntry (jq_key q) (jq_value q) (en_version e1 + 1) (en_commit e1 + 1))) en_receipts e3 e4 ltac:(done)).
Qed.

(** ** The commit *)

Definition output_of (s : store) (q : job_request) : option queue :=
  match jq_out q with Some (n, _, _) => find_queue s n | None => None end.

(** The identity of the output message is taken. *)
Definition reserve (s : store) (out : option queue) : store :=
  match out with Some _ => {| s with st_next_id := st_next_id s + 1 |} | None => s end.

Definition out_id (s : store) (out : option queue) : Z := match out with Some _ => st_next_id s | None => 0 end.

Definition completion_record (name : bytes) (q : job_request) (out_msg : Z) (p : prepared) : record :=
  {| r_op := LOG_JOB_COMPLETION; r_durable := true; r_name := name; r_id := jq_in_msg q; r_aux := pr_commit p;
     r_data := complete_encode q out_msg (pr_version p) (pr_completed p) (pr_expires p) |}.

(** The delivery a completion consumes: message [m] at [i] of the input queue,
    in flight for the holder of the proof; the output queue has room. *)
Record delivery_live (s : store) (q : job_request) (tag owner mono : Z) (in_q : queue) (i : nat) (m : message) : Prop := DeliveryLive {
  dv_queue : find_queue s (jq_in q) = Some in_q;
  dv_durable : q_durable in_q = true;
  dv_found : find_message in_q (jq_in_msg q) = Some i;
  dv_message : q_msgs in_q !! i = Some m;
  dv_fenced : fenced m tag owner mono = true;
  dv_output : match jq_out q with Some _ => exists o, output_of s q = Some o /\ q_durable o = true | None => True end;
  dv_room : output_full in_q (output_of s q) = false }.

Section CommitOutcome.
Context (e : engine) (s : store) (q : job_request) (digest : bytes) (tag owner : Z) (t : clock).

Inductive commit_outcome : commit_result -> engine -> store -> Prop :=
  | CoInvalid : commit_outcome CommitInvalid e s
  | CoRejected st e' s' : idle (ck_gc t) e e' -> s' = s \/ s' = reserve s (output_of s q) -> commit_outcome (CommitRejected st) e' s'
  | CoReplayed r : rget e (jq_op q) = Some r -> jr_kind r = JOB_KIND_COMPLETION -> jr_digest r = digest ->
      commit_outcome CommitReplayed e s
  | CoDoubt p e' s' : rget e (jq_op q) = None -> idle (ck_gc t) e e' ->
      in_doubt (completion_record (jq_in q) q (out_id s (output_of s q)) p) (reserve s (output_of s q)) s' -> commit_outcome CommitDoubt e' s'
  | CoCommitted in_q i m e1 e' s2 : rget e (jq_op q) = None -> collected (ck_gc t) e e1 -> delivery_live s q tag owner (ck_fence t) in_q i m ->
      proven e q (ck_proof t) -> version_matches (sget e (jq_key q)) (jq_expected q) = true ->
      let msg := out_id s (output_of s q) in let p := prepared_of e q digest msg (ck_now t) in
      logs (completion_record (jq_in q) q msg p) (reserve s (output_of s q)) s2 ->
      commits (jq_key q) (Some (JEntry (jq_key q) (jq_value q) (pr_version p) (pr_commit p))) (pr_rec p) e1 e' ->
      commit_outcome Committed e' (commit_queues s2 (q_lock_id in_q) i
        (match output_of s q with Some o => Some (q_lock_id o, msg, out_data q) | None => None end)).2.

End CommitOutcome.

Lemma prepared_same now e e1 q digest msg now' : collected now e e1 -> prepared_of e1 q digest msg now' = prepared_of e q digest msg now'.
Proof.
  intros C. unfold prepared_of. rewrite (collected_proj now en_version e e1 ltac:(done) C), (collected_proj now en_commit e e1 ltac:(done) C),
    (collected_proj now en_cfg e e1 ltac:(done) C). f_equal. apply plan_of_same. by apply collected_state with now.
Qed.

Lemma commit_queues_alloc s in_id i out : st_allocs s = [] -> (commit_queues s in_id i out).1 = true.
Proof. intros A. unfold commit_queues. destruct out as [[[o m] d]|]; [|done]. by rewrite alloc_nil. Qed.

Lemma commit_reserved_spec e s q digest tag owner t in_q i m : engine_ok e -> st_allocs s = [] -> rget e (jq_op q) = None ->
  fits 16 (zlen (jq_in q)) -> fits 16 (zlen (out_queue q)) -> delivery_live s q tag owner (ck_fence t) in_q i m ->
  let '(res, e', s') := commit_reserved e s q digest in_q i (output_of s q) t in
  engine_ok e' /\ commit_outcome e s q digest tag owner t res e' s'.
Proof.
  intros O A Hn Hi Ho D. unfold commit_reserved. fold (out_id s (output_of s q)). fold (reserve s (output_of s q)).
  set (msg := out_id s (output_of s q)). set (s1 := reserve s (output_of s q)).
  pose proof (complete_prepare_spec e q digest msg t O Hi Ho) as K. destruct (complete_prepare e q digest msg t) as [[st|p] e2].
  { destruct K as [O' I]. split; [done|]. constructor; [done|by right]. }
  destruct K as (e1 & O1 & C & Hf & Q & Pv & V & Ep). rewrite (prepared_same (ck_gc t) e e1) in Ep by done.
  assert (O2 : engine_ok e2) by (apply (quiet_ok (numbered e1)); [done|by apply numbered_ok]).
  assert (I2 : idle (ck_gc t) e e2).
  { transitivity e1; [by apply collected_idle|]. transitivity (numbered e1); [apply numbered_idle|by apply quiet_idle]. }
  assert (A1 : st_allocs s1 = []) by (unfold s1, reserve; by destruct (output_of s q)). rewrite alloc_nil by done. cbn [negb].
  replace (q_name in_q) with (jq_in q) by (symmetry; apply (find_queue_In s (jq_in q) in_q (dv_queue _ _ _ _ _ _ _ _ D))).
  pose proof (append_sync_spec s1 LOG_JOB_COMPLETION (jq_in q) (jq_in_msg q) (pr_commit p)
    (complete_encode q msg (pr_version p) (pr_completed p) (pr_expires p))) as K.
  destruct (append_record s1 LOG_JOB_COMPLETION true _ _ _ _ true) as [rc s2]. destruct K as [[-> L]|[-> L]]; cbn [Z.ltb Z.compare].
  2:{ split; [done|]. by eapply (CoDoubt _ _ _ _ _ _ _ p). }
  assert (R1 : rget e1 (jq_op q) = None).
  { destruct (rget e1 (jq_op q)) as [r|] eqn:Er; [|done]. by rewrite (cl_sub _ _ _ C _ _ Er) in Hn. }
  destruct (complete_apply_spec e1 e2 q digest msg (ck_now t) O1 Hf Q R1) as [O' Cm].
  rewrite (prepared_same (ck_gc t) e e1) in O', Cm by done. rewrite <- Ep in O', Cm.
  assert (A2 : st_allocs s2 = []).
  { pose proof (lg_rest _ _ _ L) as E. apply (f_equal st_allocs) in E. cbn in E. by rewrite E. }
  pose proof (commit_queues_alloc s2 (q_lock_id in_q) i (match output_of s q with Some o => Some (q_lock_id o, msg, out_data q) | None => None end) A2) as K.
  destruct (commit_queues s2 _ _ _) as [ok s3] eqn:Es. cbn in K. subst ok. split; [done|].
  replace s3 with (commit_queues s2 (q_lock_id in_q) i (match output_of s q with Some o => Some (q_lock_id o, msg, out_data q) | None => None end)).2 by (by rewrite Es).
  rewrite Ep in L, Cm |- *. exact (CoCommitted e s q digest tag owner t in_q i m e1 _ s2 Hn C D Pv V L Cm).
Qed.

Lemma queue_job_commit_spec e s q digest tag owner t : engine_ok e -> st_allocs s = [] ->
  fits 16 (zlen (jq_in q)) -> fits 16 (zlen (out_queue q)) ->
  let '(res, e', s') := queue_job_commit e s q digest tag owner t in
  engine_ok e' /\ commit_outcome e s q digest tag owner t res e' s'.
Proof.
  intros O A Hi Ho. unfold queue_job_commit. destruct (commit_invalid q tag owner); [split; [done|constructor]|].
  assert (Rj : forall st, engine_ok e /\ commit_outcome e s q digest tag owner t (CommitRejected st) e s) by (intros st; split; [done|by constructor; [|left]]).
  destruct (Atomic.queue_wal_enabled s); cbn [negb]; [|apply Rj]. fold (output_of s q). destruct (find_queue s (jq_in q)) as [in_q|] eqn:Eq; [|apply Rj].
  destruct (negb (q_durable in_q) || _) eqn:Ed; [apply Rj|]. apply orb_false_iff in Ed as [Ed Eo]. apply negb_false_iff in Ed.
  unfold complete_recheck. destruct (rget e (jq_op q)) as [r|] eqn:Er.
  { destruct (_ && _) eqn:Ex; [|split; [by apply (quiet_ok e)|constructor; [by apply quiet_idle|by left]]].
    apply andb_prop in Ex as [E1 E2]. apply Z.eqb_eq in E1. apply name_eqb_eq in E2. split; [done|]. by apply (CoReplayed _ _ _ _ _ _ _ r). }
  destruct (find_message in_q (jq_in_msg q)) as [i|] eqn:Ei; [|apply Rj]. destruct (q_msgs in_q !! i) as [m|] eqn:Em; [|apply Rj].
  destruct (fenced m tag owner (ck_fence t)) eqn:Ef; cbn [negb]; [|apply Rj]. destruct (output_full in_q (output_of s q)) eqn:Eu; [apply Rj|].
  apply commit_reserved_spec with m; try done. constructor; try done. destruct (jq_out q); [|done].
  apply negb_false_iff in Eo. destruct (output_of s q) as [o|]; [by exists o|done].
Qed.

(** ** Submitting *)

Section CompleteOutcome.
Context (e : engine) (s : store) (q : job_request) (t : clock).

Inductive complete_outcome : job_status + completion_result -> engine -> store -> Prop :=
  | CcRejected st e' s' : idle (ck_gc t) e e' -> s' = s \/ s' = reserve s (output_of s q) -> complete_outcome (inl st) e' s'
  | CcReplayed r e' : rget e (jq_op q) = Some r -> jr_kind r = JOB_KIND_COMPLETION -> jr_digest r = request_digest (en_store_id e) q ->
      quiet e e' -> complete_outcome (inr (complete_result_fill r true)) e' s
  | CcDoubt p e' s' : rget e (jq_op q) = None -> idle (ck_gc t) e e' -> en_failed e' = true -> en_doubt e' = Some (jq_op q) ->
      in_doubt (completion_record (jq_in q) q (out_id s (output_of s q)) p) (reserve s (output_of s q)) s' ->
      complete_outcome (inl JOB_OPERATION_IN_DOUBT) e' s'
  | CcCommitted in_q i m e1 e' s2 : rget e (jq_op q) = None -> collected (ck_gc t) e e1 -> request_bad q = false -> request_bytes q <= cf_max_op (en_cfg e) ->
      en_attached e = true -> en_id_set e = true -> en_failed e = false ->
      delivery_live s q (delivery_of e q).1 (delivery_of e q).2 (ck_fence t) in_q i m -> proven e q (ck_proof t) ->
      version_matches (sget e (jq_key q)) (jq_expected q) = true ->
      let msg := out_id s (output_of s q) in let p := prepared_of e q (request_digest (en_store_id e) q) msg (ck_now t) in
      logs (completion_record (jq_in q) q msg p) (reserve s (output_of s q)) s2 ->
      commits (jq_key q) (Some (JEntry (jq_key q) (jq_value q) (pr_version p) (pr_commit p))) (pr_rec p) e1 e' ->
      complete_outcome (inr (complete_result_fill (pr_rec p) false)) e' (commit_queues s2 (q_lock_id in_q) i
        (match output_of s q with Some o => Some (q_lock_id o, msg, out_data q) | None => None end)).2.

End CompleteOutcome.

Lemma request_names q : request_bad q = false -> 0 < zlen (jq_in q) <= QUEUE_NAME_MAX /\ zlen (out_queue q) <= QUEUE_NAME_MAX /\
  0 < zlen (jq_key q) <= 65535 /\ jq_op q <> zero_id /\ jq_in_msg q <> 0 /\ jq_in_incarnation q <> 0 /\
  match jq_out q with Some (n, i, _) => 0 < zlen n /\ i <> 0 | None => True end.
Proof.
  unfold request_bad, out_queue. intros H. repeat (apply orb_false_iff in H as [H ?]). pose proof (zlen_nonneg (jq_in q)). pose proof (zlen_nonneg (jq_key q)).
  assert (jq_op q <> zero_id) by (intros E; rewrite E in *; by rewrite (proj2 (name_eqb_eq zero_id zero_id)) in *).
  assert (match jq_out q with Some (n, i, _) => 0 < zlen n /\ i <> 0 /\ zlen n <= QUEUE_NAME_MAX | None => True end).
  { destruct (jq_out q) as [[[n i] v]|]; [|done]. pose proof (zlen_nonneg n).
    match goal with K : (zlen n =? 0) || _ || _ = false |- _ => apply orb_false_iff in K as [[? ?]%orb_false_iff ?] end. lia. }
  destruct (jq_out q) as [[[n i] v]|]; split_and!; try done; lia.
Qed.

Lemma refine_quiet e q st mono : quiet e (refine_status e q st mono).2.
Proof. unfold refine_status. destruct st; try done. destruct (pget e (jq_proof q)); [|done]. by destruct (_ && _ && _). Qed.

Lemma job_complete_spec e s q t : engine_ok e -> st_allocs s = [] ->
  let '(res, e', s') := job_complete e s q t in engine_ok e' /\ complete_outcome e s q t res e' s'.
Proof.
  intros O A. unfold job_complete. assert (Rj : forall st, engine_ok e /\ complete_outcome e s q t (inl st) e s) by (intros st; split; [done|by constructor; [|left]]).
  assert (Rq : forall st e', quiet e e' -> engine_ok e' /\ complete_outcome e s q t (inl st) e' s).
  { intros st e' Q. split; [by apply (quiet_ok e)|]. constructor; [by apply quiet_idle|by left]. }
  destruct (request_bad q) eqn:Eb; [apply Rj|]. destruct (en_attached e) eqn:Ea; cbn [negb]; [|apply Rj]. destruct (en_id_set e) eqn:Es; cbn [negb]; [|apply Rj].
  destruct (Z.ltb_spec (cf_max_op (en_cfg e)) (request_bytes q)) as [|Hsz]; [by apply Rq|]. destruct (rget e (jq_op q)) as [r|] eqn:Er.
  { destruct (_ || _) eqn:Ex; [by apply Rq|]. apply orb_false_iff in Ex as [E1%negb_false_iff E2%negb_false_iff]. apply Z.eqb_eq in E1. apply name_eqb_eq in E2.
    split; [by apply (quiet_ok e)|]. by apply CcReplayed. }
  destruct (match en_doubt e with Some o => _ | None => false end); [apply Rj|]. destruct (en_failed e) eqn:Ef; [apply Rj|].
  destruct (delivery_of e q) as [tag owner] eqn:Ed. destruct (_ || _); [by apply Rq|]. destruct (request_names q Eb) as (N1 & N2 & _).
  pose proof (queue_job_commit_spec e s q (request_digest (en_store_id e) q) tag owner t O A) as K.
  specialize (K ltac:(unfold fits, QUEUE_NAME_MAX in *; lia)). specialize (K ltac:(pose proof (zlen_nonneg (out_queue q)); unfold fits, QUEUE_NAME_MAX in *; lia)).
  destruct (queue_job_commit e s q _ tag owner t) as [[res e'] s']. destruct K as [O' K]. destruct K as [|st e' s' I Hs|r Hr|p e' s' Hr I Dt|in_q i m e1 e' s2 Hn C D Pv V msg p L Cm].
  - apply Rj.
  - pose proof (refine_quiet e' q st (ck_after t)) as Q. destruct (refine_status e' q st (ck_after t)) as [st' e'']. cbn in Q.
    split; [by apply (quiet_ok e')|]. constructor; [transitivity e'; [done|by apply quiet_idle]|done].
  - congruence.
  - split; [by apply doubt_ok|]. apply (CcDoubt _ _ _ _ p); try done. transitivity e'; [done|apply doubt_idle].
  - unfold answer_receipt. rewrite (cm_receipt _ _ _ _ _ Cm). cbn [jr_op receipt_of prepared_of pr_rec p]. rewrite decide_True by done. split; [done|].
    apply (CcCommitted e s q t in_q i m e1 e' s2); try done. by rewrite Ed.
Qed.

End JobComplete.
