(* ===== verification/JobQueues.v ===== *)
(** * The queue effects of a completion

    A committed completion links the output and removes the input; both queues
    keep their invariants, and replaying the record has the same effect on the
    recovered store. *)

From stdpp Require Import base numbers option list relations.
From S2P Require Import Prelude Sha256 Queue QueueIndex WalRecord QueueStore QueueReplay Exchange QueueTx.
From S2P Require Import ExchangeReplay QueueBatch QueueCommit QueueOps ExchangeOps TxOps QueueRun.
From S2P Require Import QueueRecovery Atomic JobEngine JobCompletion JobTable JobSpec JobComplete.
Import Sha256 JobDigest Queue QueueIndex Wal Store Replay Batch XChange Tx XReplay TxReplay Commit Ops XOps Recovery.
Import JobEngine(JOB_STATE_BUCKETS).
Import JobCompletion JobSpec(logs, Logs, lg_rest, lg_log, lg_failed, lg_seq, lg_synced, in_doubt, dt_rest, dt_failed, unlogged) JobComplete.

Module JobQueues.

(** ** One queue *)

(** The queue without its limit. *)
Definition uncapped (q : queue) : queue := {| q with q_max_depth := 0 |}.

Lemma link_uncapped q m : message_link (uncapped q) m = uncapped (message_link q m).
Proof. done. Qed.

Lemma remove_uncapped q i : remove_message (uncapped q) i = uncapped (remove_message q i).
Proof.
  unfold remove_message. change (q_msgs (uncapped q)) with (q_msgs q). destruct (q_msgs q !! i) as [m|]; [|done].
  destruct (m_tag m =? 0); [done|]. unfold tag_index_remove. change (q_tag_buckets (uncapped q)) with (q_tag_buckets q).
  change (q_msgs (uncapped q)) with (q_msgs q). destruct (q_tag_buckets q); [|done]. destruct (q_msgs q !! i); [|done]. destruct (m_tag _ =? 0); [done|].
  by destruct (existsb _ _).
Qed.

Lemma qinv_uncapped nid ntag q : qinv nid ntag q -> qinv nid ntag (uncapped q).
Proof. intros []. constructor; try done. by left. Qed.

Lemma qinv_capped nid ntag q : qinv nid ntag (uncapped q) -> q_max_depth q = 0 \/ q_depth q <= q_max_depth q -> qinv nid ntag q.
Proof. intros [] Hc. by constructor. Qed.

(** The output to the input queue itself. *)
Definition swap (msg : Z) (d : bytes) (i : nat) (q : queue) : queue := remove_message (message_link q (message_create msg 0 d)) i.

Lemma swap_config msg d i : keeps_config (swap msg d i).
Proof. intros q. unfold swap. rewrite remove_message_config. apply message_link_config. Qed.

Lemma lookup_linked q m i x : q_msgs q !! i = Some x -> q_msgs (message_link q m) !! i = Some x.
Proof. intros H. cbn. by apply lookup_app_l_Some. Qed.

Lemma qinv_swap nid nid' ntag q id d i m : qinv nid ntag q -> 0 < nid -> nid <= id -> id < nid' -> 0 < ntag -> data_ok d ->
  q_msgs q !! i = Some m -> q_max_depth q = 0 \/ q_depth q <= q_max_depth q -> qinv nid' ntag (swap id d i q).
Proof.
  intros H H1 H2 H3 H4 Hd Hm Hc. assert (F0 : fits 64 0) by (unfold fits; lia). apply qinv_capped.
  - unfold swap. rewrite <- remove_uncapped, <- link_uncapped. apply qinv_remove. apply (qinv_link nid); try done; [by apply qinv_uncapped|by left].
  - unfold swap. destruct (remove_message_fields (message_link q (message_create id 0 d)) i m (lookup_linked _ _ _ _ Hm)).
    destruct (config_inv _ _ (swap_config id d i q)) as (_&_&_&_&_&_&C). unfold swap in C. rewrite C, rm_depth0. cbn [q_depth message_link]. unfold dec0.
    destruct Hc as [|Hc]; [by left|right].
    pose proof (qi_counters _ _ _ H) as [Ed _]. pose proof (zlen_nonneg (q_msgs q)). unfold zlen in *. destruct (Z.eqb_spec (q_depth q + 1) 0); lia.
Qed.

(** ** The store *)

Lemma reserve_output_quiet s o : Ops.quiet s (reserve s o).
Proof. unfold reserve. destruct o; [|apply quiet_refl]. quiet_tac. Qed.

Lemma unlogged_proj {A} (f : store -> A) s s' : (forall x, f (unlogged x) = f x) -> unlogged s' = unlogged s -> f s' = f s.
Proof. intros Hf H. rewrite <- (Hf s'), <- (Hf s). by rewrite H. Qed.

Lemma unlogged_evolve s s' rs : unlogged s' = unlogged s ->
  st_failed s' = true \/ (st_failed s = false /\ st_log s' = st_log s ++ rs) ->
  st_failed s' = true \/ st_wal_seq s' = st_wal_seq s + zlen rs -> evolve s s' (st_queues s) rs.
Proof.
  intros U L Q. constructor; rewrite ?(unlogged_proj st_queues s s' ltac:(done) U), ?(unlogged_proj st_exchanges s s' ltac:(done) U),
    ?(unlogged_proj st_consumers s s' ltac:(done) U), ?(unlogged_proj st_log_open s s' ltac:(done) U), ?(unlogged_proj st_allocs s s' ltac:(done) U),
    ?(unlogged_proj st_next_id s s' ltac:(done) U), ?(unlogged_proj st_next_tag s s' ltac:(done) U), ?(unlogged_proj st_next_lock_id s s' ltac:(done) U),
    ?(unlogged_proj st_next_owner s s' ltac:(done) U), ?(unlogged_proj st_tx_pending s s' ltac:(done) U),
    ?(unlogged_proj st_job_enabled s s' ltac:(done) U); done || lia.
Qed.

Lemma logs_evolve r s s' : logs r s s' -> evolve s s' (st_queues s) [r].
Proof.
  intros [U L [F F'] Q _]. apply unlogged_evolve; [done|by right|right]. rewrite Q. done.
Qed.

Lemma doubt_evolve r s s' : in_doubt r s s' -> st_log_open s = true -> Ops.quiet s s'.
Proof. intros [U _ F] Ho. specialize (F Ho). apply unlogged_evolve; [done|by left|by left]. Qed.

Lemma evolve_reserved s o s' rs : evolve (reserve s o) s' (st_queues (reserve s o)) rs -> evolve s s' (st_queues s) rs.
Proof. intros E. pose proof (ev_queues _ _ _ _ (reserve_output_quiet s o)) as Q. rewrite Q in E. eapply quiet_evolve; [apply reserve_output_quiet|exact E]. Qed.

Lemma inv_frame s s' rs : inv s -> evolve s s' (st_queues s) rs -> inv s'.
Proof.
  intros [I P] E. split; [|by apply (policy_same s), P; apply E]. eapply (sinv_frame s s s'); try done. apply I.
Qed.

Lemma reserve_id s o : st_next_id (reserve s o) = st_next_id s + (match o with Some _ => 1 | None => 0 end).
Proof. unfold reserve. destruct o; cbn; lia. Qed.

(** The links and removals of a commit. *)
Definition link_out (msg : Z) (d : bytes) (q : queue) : queue := message_link q (message_create msg 0 d).

Lemma link_out_config msg d : keeps_config (link_out msg d).
Proof. intros q. apply message_link_config. Qed.

Lemma remove_config i : keeps_config (fun q => remove_message q i).
Proof. intros q. apply remove_message_config. Qed.

Lemma on_queue_twice s s3 qid f g rs : keeps_config f -> evolve s s3 (on_queue s qid f) rs ->
  on_queue s3 qid g = on_queue s qid (fun q => g (f q)).
Proof.
  intros K E. unfold on_queue at 1. rewrite (ev_queues _ _ _ _ E). unfold on_queue. rewrite map_map. apply map_ext. intros q.
  destruct (q_lock_id q =? qid) eqn:Eq; [|by rewrite Eq]. destruct (config_inv _ _ (K q)) as (-> & _). by rewrite Eq.
Qed.

Lemma evolve_twice s s3 s' qid f g rs : keeps_config f -> evolve s s3 (on_queue s qid f) rs -> evolve s3 s' (on_queue s3 qid g) [] ->
  evolve s s' (on_queue s qid (fun q => g (f q))) rs.
Proof.
  intros K E1 E2. rewrite (on_queue_twice s s3 qid f g rs K E1) in E2. destruct E1 as [A1 A2 A8 A0 A3 A9 A4 A5 A6 A7 A10], E2 as [B1 B2 B8 B0 B3 B9 B4 B5 B6 B7 B10].
  constructor; try done; try lia; auto; try congruence.
  - destruct B3 as [|[F ->]]; [by left|]. destruct A3 as [|[F' ->]]; [congruence|]. right. by rewrite app_nil_r.
  - destruct B9 as [|B9]; [by left|]. destruct A9 as [A9|A9]; [|right; rewrite B9, A9; unfold zlen; cbn; lia].
    left. destruct B3 as [|[F _]]; [done|congruence].
Qed.

Section Completed.
Context (s s2 : store) (q : job_request) (tag owner mono : Z) (in_q : queue) (i : nat) (m : message) (r : record).
Hypothesis I : inv s.
Hypothesis D : delivery_live s q tag owner mono in_q i m.
Hypothesis L : logs r (reserve s (output_of s q)) s2.
Hypothesis Hd : data_ok (out_data q).

Let msg : Z := st_next_id s.
Let link : queue -> queue := link_out msg (out_data q).
Let remove : queue -> queue := fun x => remove_message x i.

Lemma logged_evolve : evolve s s2 (st_queues s) [r].
Proof using L. apply (evolve_reserved s (output_of s q)). by apply logs_evolve. Qed.

Lemma input_live : live_at s (q_lock_id in_q) in_q.
Proof using I D. apply (find_live s (jq_in q)); [apply I|apply D]. Qed.

Lemma completed_alone : output_of s q = None ->
  evolve s (commit_queues s2 (q_lock_id in_q) i None).2 (on_queue s (q_lock_id in_q) remove) [r].
Proof using L. intros _. eapply upd_evolve; [exact logged_evolve|apply quiet_refl]. Qed.

Lemma completed_pair o : output_of s q = Some o -> exists s3,
  st_next_id s3 = msg + 1 /\ evolve s s3 (on_queue s (q_lock_id o) link) [r] /\
  evolve s3 (commit_queues s2 (q_lock_id in_q) i (Some (q_lock_id o, msg, out_data q))).2 (on_queue s3 (q_lock_id in_q) remove) [] /\
  st_next_id (commit_queues s2 (q_lock_id in_q) i (Some (q_lock_id o, msg, out_data q))).2 = msg + 1.
Proof using I L.
  intros Eo. assert (A2 : st_allocs s2 = []) by (apply (ev_allocs _ _ _ _ logged_evolve), I). unfold commit_queues. rewrite alloc_nil by done. cbn [negb snd].
  assert (N : st_next_id s2 = msg + 1).
  { rewrite (unlogged_proj st_next_id (reserve s (output_of s q)) s2 ltac:(done) (lg_rest _ _ _ L)), reserve_id, Eo. done. }
  exists (upd_queue s2 (q_lock_id o) link). split_and!; [done| |apply upd_queue_evolve|done]. eapply upd_evolve; [exact logged_evolve|apply quiet_refl].
Qed.

(** What [commit_queues] is given of the output. *)
Definition placement (out : option queue) : option (Z * Z * bytes) :=
  match out with Some o => Some (q_lock_id o, out_id s (output_of s q), out_data q) | None => None end.

Let s' : store := (commit_queues s2 (q_lock_id in_q) i (placement (output_of s q))).2.

Lemma output_live o : output_of s q = Some o -> live_at s (q_lock_id o) o.
Proof using I. unfold output_of. destruct (jq_out q) as [[[n k] v]|]; [|done]. intros H. apply (find_live s n); [apply I|done]. Qed.

Lemma live_changed x f y z rs : live_at x (q_lock_id z) z -> wf x -> keeps_config f -> evolve x y (on_queue x (q_lock_id z) f) rs ->
  sinv x -> qinv (st_next_id y) (st_next_tag y) (f z) -> sinv y.
Proof.
  intros Lx W K E S Q. eapply (sinv_on_queue x y (q_lock_id z) z f); [done|apply Lx|exact E|by apply upd_config_wf|done].
Qed.

Lemma completed_inv : inv s' /\ st_next_id s' = st_next_id (reserve s (output_of s q)).
Proof using I D L Hd.
  pose proof I as [S P]. pose proof input_live as Li. pose proof (live_at_inv _ _ _ S Li) as Qi. pose proof (si_id _ S) as Hid. pose proof (si_tag _ S) as Ht.
  pose proof (dv_room _ _ _ _ _ _ _ _ D) as Hroom. unfold s'. rewrite reserve_id. destruct (output_of s q) as [o|] eqn:Eo in Hroom |- *; cbn [placement]; rewrite ?Eo; cbn [out_id].
  2:{ pose proof (completed_alone Eo) as E. split; [split|].
      - eapply (live_changed s remove _ in_q); [done|apply S|apply remove_config|exact E|done|]. apply qinv_remove.
        apply (qinv_mono (st_next_id s) (st_next_tag s)); [apply (ev_id _ _ _ _ E)|apply (ev_tag _ _ _ _ E)|done].
      - eapply policy_on_queue; [apply (remove_config i)|apply (ev_queues _ _ _ _ E)|done].
      - cbn. rewrite (unlogged_proj st_next_id (reserve s (output_of s q)) s2 ltac:(done) (lg_rest _ _ _ L)), Eo. cbn. lia. }
  destruct (completed_pair o Eo) as (s3 & N3 & E3 & E4 & N4). pose proof (output_live o Eo) as Lo. pose proof (live_at_inv _ _ _ S Lo) as Qo.
  assert (P3 : policy s3) by (eapply policy_on_queue; [apply (link_out_config msg (out_data q))|apply (ev_queues _ _ _ _ E3)|done]).
  split; [split|exact N4]; [|eapply policy_on_queue; [apply (remove_config i)|apply (ev_queues _ _ _ _ E4)|done]].
  unfold output_full in Hroom. destruct (Z.eqb_spec (q_lock_id o) (q_lock_id in_q)) as [El|El].
  - assert (o = in_q) as -> by (destruct Lo as [Go _], Li as [Gi _]; rewrite El in Go; congruence).
    pose proof (evolve_twice _ _ _ _ link remove _ (link_out_config msg (out_data q)) E3 E4) as E.
    eapply (live_changed s (swap msg (out_data q) i) _ in_q); [done|apply S|apply swap_config|exact E|done|].
    pose proof (ev_tag _ _ _ _ E) as Et. unfold msg in *. rewrite N4. apply (qinv_swap (st_next_id s) _ _ in_q _ (out_data q) i m); try done; try lia.
    + by apply (qinv_mono (st_next_id s) (st_next_tag s)).
    + apply D.
  - assert (S3 : sinv s3).
    { eapply (live_changed s link _ o); [done|apply S|apply link_out_config|exact E3|done|]. pose proof (ev_tag _ _ _ _ E3). unfold msg in *. rewrite N3.
      apply (qinv_link (st_next_id s)); try done; try lia.
      - by apply (qinv_mono (st_next_id s) (st_next_tag s)).
      - unfold room. lia. }
    assert (G : get_queue s3 (q_lock_id in_q) = Some in_q).
    { rewrite (get_on_queue s s3 (q_lock_id o) o link); [by rewrite decide_False by congruence; apply Li|apply S|apply Lo| |apply E3].
      apply keeps_config_identity, link_out_config. }
    eapply (sinv_on_queue s3 _ (q_lock_id in_q) in_q remove); [done|exact G|exact E4|apply upd_config_wf; [apply remove_config|apply S3]|].
    apply qinv_remove. apply (qinv_mono (st_next_id s3) (st_next_tag s3)); [apply (ev_id _ _ _ _ E4)|apply (ev_tag _ _ _ _ E4)|].
    by apply (get_inv s3 (q_lock_id in_q)).
Qed.

Lemma completed_frame : st_exchanges s' = st_exchanges s /\ st_log_open s' = st_log_open s /\ st_failed s = false /\ st_log s' = st_log s ++ [r].
Proof using I D L.
  assert (F : st_failed s = false).
  { destruct L as [_ _ [F _] _ _]. unfold reserve in F. by destruct (output_of s q). }
  assert (Fr : st_log (reserve s (output_of s q)) = st_log s) by (unfold reserve; by destruct (output_of s q)).
  assert (E : st_exchanges s2 = st_exchanges s /\ st_log_open s2 = st_log_open s).
  { pose proof logged_evolve as E. split; [apply (ev_exchanges _ _ _ _ E)|apply (ev_open _ _ _ _ E)]. }
  assert (A2 : st_allocs s2 = []) by (apply (ev_allocs _ _ _ _ logged_evolve), I).
  assert (K : forall out, let x := (commit_queues s2 (q_lock_id in_q) i out).2 in st_exchanges x = st_exchanges s2 /\ st_log_open x = st_log_open s2 /\ st_log x = st_log s2).
  { intros [[[o k] d]|]; unfold commit_queues; [by rewrite alloc_nil|done]. }
  destruct (K (placement (output_of s q))) as (K1 & K2 & K3). fold s' in K1, K2, K3. rewrite K1, K2, K3, <- Fr. split_and!; [apply E..|done|apply L].
Qed.

(** ** Replaying the record *)

Definition completion_tail (x : store) (c : completion) : option store :=
  match find_queue x (cp_in_name c) with
  | None => Some x
  | Some qq =>
      match find_message qq (cp_in_msg_id c) with
      | None => Some x
      | Some j => Some (upd_queue x (q_lock_id qq) (fun qq => remove_message qq j))
      end
  end.

Definition bump_ids_of (x : store) (c : completion) : store :=
  let x := bump_id x (cp_in_msg_id c) in match cp_out c with Some (_, _, id, _) => bump_id x id | None => x end.

Lemma effects_tail x c : completion_effects x c =
  match completion_output x c with None => None | Some x => completion_tail (bump_ids_of x c) c end.
Proof. done. Qed.

Lemma input_id : m_id m = jq_in_msg q /\ 0 <= jq_in_msg q < st_next_id s.
Proof using I D.
  destruct (find_message_Some _ _ _ (dv_found _ _ _ _ _ _ _ _ D)) as (m' & Em & Ek). rewrite (dv_message _ _ _ _ _ _ _ _ D) in Em. injection Em as <-.
  split; [done|]. pose proof (live_at_inv _ _ _ (proj1 I) input_live) as Q. rewrite <- Ek. apply (Forall_lookup_1 _ _ _ _ (qi_id_lt _ _ _ Q) (dv_message _ _ _ _ _ _ _ _ D)).
Qed.

Lemma tail_recovered T x y qq rs r1 c : wf x -> live_at x (q_lock_id in_q) qq -> config qq = config in_q -> q_msgs qq !! i = Some m ->
  NoDup (m_id <$> q_msgs qq) -> evolve x y (on_queue x (q_lock_id in_q) remove) rs -> cp_in_name c = jq_in q -> cp_in_msg_id c = jq_in_msg q ->
  recovered T x r1 -> exists r', completion_tail r1 c = Some r' /\ recovered T y r'.
Proof using I D.
  intros W Lx Cq Em Nd E En Ei R. destruct input_id as [Ek _]. destruct (config_inv _ _ Cq) as (_ & Cn & Cd & _).
  assert (Nq : q_name qq = jq_in q) by (rewrite Cn; apply (find_queue_In s), D). assert (Dq : q_durable qq = true) by (rewrite Cd; apply D).
  destruct (recovered_message T x y r1 (q_lock_id in_q) qq remove rs (m_id m) remove_message (filter (fun e => e_id e <> m_id m)))
    as (r' & E' & R'); try done.
  - apply remove_config.
  - intros j z. apply remove_message_config.
  - unfold remove. rewrite remove_message_msgs. by apply kept_delete.
  - intros rq j m' Hn Em' <-. rewrite remove_message_msgs. by apply kept_delete.
  - intros n rq j. apply ids_ok_delete.
  - intros es. apply filter_absent.
  - exists r'. split; [|done]. unfold completion_tail. rewrite En, Ei, <- Ek, <- Nq. unfold on_message in E'.
    destruct (find_queue r1 (q_name qq)) as [rq|]; done.
Qed.

Lemma bump_bump x a b : a < b -> fits 64 (a + 1) -> bump_id (bump_id x a) b = bump_id x b.
Proof.
  intros H F. unfold bump_id. destruct (Z.leb_spec (st_next_id x) a); [|done]. cbn [st_next_id]. rewrite u64_small by done.
  destruct (Z.leb_spec (a + 1) b), (Z.leb_spec (st_next_id x) b); done || lia.
Qed.

(** The output, before the input leaves. *)
Lemma linked_nodup : NoDup (m_id <$> q_msgs (link in_q)).
Proof using I D Hd.
  pose proof I as [S _]. pose proof (live_at_inv _ _ _ S input_live) as Qi. assert (F0 : fits 64 0) by (unfold fits; lia).
  assert (Q : qinv (msg + 1) (st_next_tag s) (message_link (uncapped in_q) (message_create msg 0 (out_data q)))).
  { apply (qinv_link (st_next_id s)); try done; [by apply qinv_uncapped|apply S|unfold msg; lia|apply S|by left]. }
  apply (qi_ids _ _ _ Q).
Qed.

Lemma completed_recovered T c r0 : cp_in_name c = jq_in q -> cp_in_msg_id c = jq_in_msg q ->
  cp_out c = (match jq_out q with Some (n, k, v) => Some (n, k, out_id s (output_of s q), v) | None => None end) ->
  fits 64 (st_next_id s') -> recovered T s r0 -> exists r', completion_effects r0 c = Some r' /\ recovered T s' r'.
Proof using I D L Hd.
  intros En Ei Eo Hf R. pose proof I as [S _]. destruct input_id as [_ Hk]. destruct completed_inv as [_ Hn]. fold s' in Hn. rewrite reserve_id in Hn.
  pose proof (live_at_inv _ _ _ S input_live) as Qi. rewrite effects_tail. unfold completion_output, bump_ids_of. rewrite Eo, Ei.
  pose proof (dv_output _ _ _ _ _ _ _ _ D) as Do. destruct (jq_out q) as [[[n k] v]|] eqn:Ej.
  - destruct Do as (o & Eq & Dur). pose proof (output_live o Eq) as Lo. destruct (completed_pair o Eq) as (s3 & N3 & E3 & E4 & N4).
    assert (Eo' : find_queue s n = Some o) by (unfold output_of in Eq; by rewrite Ej in Eq).
    assert (En' : q_name o = n) by (by apply find_queue_In in Eo' as (_ & _ & ->)). assert (Ev : out_data q = v) by (unfold out_data; by rewrite Ej).
    destruct (recovered_found T s r0 (q_lock_id o) o (si_wf _ S) Lo Dur R) as (rq & F & Dr & _). rewrite En' in F. rewrite F, Dr, append_message_upd by apply R.
    rewrite Eq in Hn |- *. cbn [out_id]. rewrite bump_bump; [|lia|unfold fits in *; lia].
    assert (R3 : recovered T s3 (bump_id (upd_queue r0 (q_lock_id rq) link) msg)).
    { eapply (link_upd_recovered T s s3 r0 (q_lock_id o) o rq msg 0 (out_data q)); try done; [by rewrite En'|..]; unfold msg, fits in *; lia. }
    replace (fun x => message_link x (message_create (st_next_id s) 0 v)) with link by (unfold link, link_out; by rewrite Ev).
    assert (W3 : wf s3).
    { eapply wf_on_queue; [apply (ev_queues _ _ _ _ E3)|apply (ev_lock _ _ _ _ E3)|apply upd_config_wf; [apply link_out_config|apply S]]. }
    pose proof input_live as [Gi Di].
    assert (G : get_queue s3 (q_lock_id in_q) = Some (if decide (q_lock_id in_q = q_lock_id o) then link in_q else in_q)).
    { rewrite (get_on_queue s s3 (q_lock_id o) o link); [|apply S|apply Lo|apply keeps_config_identity, link_out_config|apply E3].
      destruct (decide _) as [Ed|]; [|done]. do 2 f_equal. destruct Lo as [Go _]. rewrite Ed in Gi. congruence. }
    assert (Es' : s' = (commit_queues s2 (q_lock_id in_q) i (Some (q_lock_id o, msg, out_data q))).2) by (unfold s', placement; by rewrite Eq).
    rewrite Es'. eapply (tail_recovered T s3 _ _ _ _ c W3); [split; [exact G|]| | | |exact E4|done|done|exact R3]; destruct (decide _); try done.
    + by apply lookup_linked, D.
    + apply D.
    + apply linked_nodup.
    + apply Qi.
  - assert (Eq : output_of s q = None) by (unfold output_of; by rewrite Ej). rewrite Eq in Hn. pose proof (completed_alone Eq) as E.
    assert (Es' : s' = (commit_queues s2 (q_lock_id in_q) i None).2) by (unfold s', placement; by rewrite Eq). rewrite Es'.
    eapply (tail_recovered T s _ in_q _ _ c (si_wf _ S) input_live eq_refl); [apply D|apply Qi|exact E|done|done|].
    apply recovered_bump; [done|lia|unfold fits in *; lia|lia].
Qed.

End Completed.

End JobQueues.
