(* ===== verification/JobRecords.v ===== *)
(** * The records of the job feature

    What the writers of LOG_JOB_STATE and LOG_JOB_COMPLETION encode, the
    parsers of replay read back.

    Then, in [JobReplay]: opening a store with job records. *)

From stdpp Require Import base numbers option list relations.
From S2P Require Import Prelude Sha256 Queue QueueIndex WalRecord QueueStore QueueReplay Exchange QueueTx.
From S2P Require Import ExchangeReplay QueueBatch QueueCommit QueueOps ExchangeOps TxOps QueueRun.
From S2P Require Import QueueRecovery QueueOpen JobEngine JobCompletion.
Import Sha256 JobDigest Queue Wal Store Replay Batch XReplay TxReplay JobEngine JobCompletion.

Module JobRecords.

(** Sizes of the parts of a payload. *)
Lemma zlen_put16 v : zlen (put16 v) = 2.
Proof. done. Qed.
Lemma zlen_put32 v : zlen (put32 v) = 4.
Proof. done. Qed.
Lemma zlen_put64 v : zlen (put64 v) = 8.
Proof. done. Qed.

Ltac sizes := rewrite ?zlen_app, ?zlen_cons, ?zlen_put16, ?zlen_put32, ?zlen_put64, ?zlen_nil; lia.

(** Skipping what is in front of a field. *)
Lemma drop_skip (x p : bytes) off : zlen x <= off -> drop (Z.to_nat off) (x ++ p) = drop (Z.to_nat (off - zlen x)) p.
Proof. intros H. unfold zlen in *. rewrite skipn_app, skipn_all2 by lia. cbn. f_equal. lia. Qed.

Lemma byte_skip x p i : (length x <= i)%nat -> byte_at (x ++ p) i = byte_at p (i - length x).
Proof. intros H. unfold byte_at. by rewrite app_nth2. Qed.
Lemma at16_skip x p off : zlen x <= off -> at16 (x ++ p) off = at16 p (off - zlen x).
Proof. intros H. unfold at16. by rewrite drop_skip. Qed.
Lemma at32_skip x p off : zlen x <= off -> at32 (x ++ p) off = at32 p (off - zlen x).
Proof. intros H. unfold at32. by rewrite drop_skip. Qed.
Lemma at64_skip x p off : zlen x <= off -> at64 (x ++ p) off = at64 p (off - zlen x).
Proof. intros H. unfold at64. by rewrite drop_skip. Qed.
Lemma slice_skip x p off n : zlen x <= off -> slice off n (x ++ p) = slice (off - zlen x) n p.
Proof. intros H. unfold slice. by rewrite drop_skip. Qed.

Lemma at16_here n p off : off = 0 -> fits 16 n -> at16 (put16 n ++ p) off = n.
Proof. intros -> H. by apply (at16_app 0 n []). Qed.
Lemma at32_here n p off : off = 0 -> fits 32 n -> at32 (put32 n ++ p) off = n.
Proof. intros -> H. by apply (at32_app 0 n []). Qed.
Lemma at64_here n p off : off = 0 -> fits 64 n -> at64 (put64 n ++ p) off = n.
Proof. intros -> H. by apply (at64_app 0 n []). Qed.
Lemma at64_last n off : off = 0 -> fits 64 n -> at64 (put64 n) off = n.
Proof. intros H1 H2. rewrite <- (app_nil_r (put64 n)). by apply at64_here. Qed.
Lemma slice_here x p off n : off = 0 -> n = zlen x -> slice off n (x ++ p) = x.
Proof. intros -> ->. by apply (slice_app 0 []). Qed.

Ltac skip := repeat first [rewrite at16_skip by sizes | rewrite at32_skip by sizes | rewrite at64_skip by sizes | rewrite slice_skip by sizes].
Ltac field := skip; first [apply at16_here | apply at32_here | apply at64_here | apply at64_last | apply slice_here]; try done; unfold fits in *; sizes.

Section State.
Context (kind : Z) (op : bytes) (expected : Z) (key value : bytes) (completed expires : Z).
Hypothesis Hop : zlen op = 16.
Hypothesis Hexp : fits 64 expected.
Hypothesis Hkey : zlen key <= 65535.
Hypothesis Hval : fits 32 (zlen value).
Hypothesis Hct : fits 64 completed.
Hypothesis Hxt : fits 64 expires.

Let d : bytes := job_state_record_encode kind op expected key value completed expires.

Lemma state_length : zlen d = 48 + zlen key + zlen value.
Proof using Hop. unfold d, job_state_record_encode. sizes. Qed.

Lemma parse_state_print version commit :
  kind = JOB_KIND_STATE_PUT \/ kind = JOB_KIND_STATE_DELETE /\ value = [] ->
  job_parse_state d version commit = Some (StateMutation kind op version commit expected key value completed expires).
Proof using Hop Hexp Hkey Hval Hct Hxt.
  intros Hk. pose proof (zlen_nonneg key). pose proof (zlen_nonneg value). pose proof state_length as Ld.
  assert (E1 : byte_at d 1 = kind) by done.
  assert (E2 : slice 2 16 d = op) by (unfold d, job_state_record_encode; field).
  assert (E3 : at64 d 18 = expected) by (unfold d, job_state_record_encode; field).
  assert (E4 : at16 d 26 = zlen key) by (unfold d, job_state_record_encode; field).
  assert (E5 : slice 28 (zlen key) d = key) by (unfold d, job_state_record_encode; field).
  assert (E6 : at32 d (28 + zlen key) = zlen value) by (unfold d, job_state_record_encode; field).
  assert (E7 : slice (32 + zlen key) (zlen value) d = value) by (unfold d, job_state_record_encode; field).
  assert (E8 : at64 d (32 + zlen key + zlen value) = completed) by (unfold d, job_state_record_encode; field).
  assert (E9 : at64 d (40 + zlen key + zlen value) = expires) by (unfold d, job_state_record_encode; field).
  unfold job_parse_state. rewrite E1, E2, E3, E4, E5, E6, E7, E8, E9, Ld. destruct (Z.ltb_spec (48 + zlen key + zlen value) 48); [lia|].
  destruct (Z.ltb_spec (48 + zlen key + zlen value) (28 + zlen key + 4)); [lia|].
  destruct (Z.eqb_spec (32 + zlen key + zlen value + 16) (48 + zlen key + zlen value)); [|lia]. destruct Hk as [->|[-> ->]]; done.
Qed.
End State.

(** ** Completions *)

(** The arguments have their C types. *)
Record submission_ok (q : job_request) : Prop := SubmissionOk {
  so_op : zlen (jq_op q) = 16;
  so_nums : fits 64 (jq_in_incarnation q) /\ fits 64 (jq_in_msg q) /\ fits 64 (jq_expected q) /\ fits 64 (out_queue_incarnation q);
  so_in : bytes_ok (jq_in q);
  so_key : bytes_ok (jq_key q);
  so_value : bytes_ok (jq_value q);
  so_id : bytes_ok (jq_op q);
  so_out : bytes_ok (out_queue q) /\ bytes_ok (out_data q) }.

Section Completion.
Context (q : job_request) (out_msg version completed expires : Z).
Hypothesis Hq : submission_ok q.
Hypothesis Hkey : zlen (jq_key q) <= 65535.
Hypothesis Hval : fits 32 (zlen (jq_value q)).
Hypothesis Hout : fits 32 (zlen (out_data q)).
Hypothesis Hname : zlen (out_queue q) <= QUEUE_NAME_MAX.
Hypothesis Hver : fits 64 version.
Hypothesis Hmsg : fits 64 out_msg.
Hypothesis Hct : fits 64 completed.
Hypothesis Hxt : fits 64 expires.

Let d : bytes := complete_encode q out_msg version completed expires.

Lemma completion_length : zlen d = 86 + zlen (out_queue q) + zlen (out_data q) + zlen (jq_key q) + zlen (jq_value q).
Proof using Hq. pose proof (so_op _ Hq). unfold d, complete_encode. sizes. Qed.

(** What replay reads. *)
Definition completion_of (commit : Z) : completion :=
  {| cp_op_id := jq_op q; cp_commit := commit; cp_version := version; cp_expected := jq_expected q; cp_key := jq_key q;
     cp_value := jq_value q; cp_in_name := jq_in q; cp_in_incarnation := jq_in_incarnation q; cp_in_msg_id := jq_in_msg q;
     cp_out := match jq_out q with Some (n, k, v) => Some (n, k, out_msg, v) | None => None end;
     cp_completed := completed; cp_expires := expires |}.

Lemma parse_completion_print commit :
  job_parse_completion (jq_in q) (jq_in_msg q) commit d = Some (completion_of commit).
Proof using Hq Hkey Hval Hout Hname Hver Hmsg Hct Hxt.
  pose proof (so_op _ Hq) as Hop. destruct (so_nums _ Hq) as (N1 & N2 & N3 & N4). pose proof completion_length as Ld.
  pose proof (zlen_nonneg (out_queue q)) as P1. pose proof (zlen_nonneg (out_data q)) as P2. pose proof (zlen_nonneg (jq_key q)) as P3.
  pose proof (zlen_nonneg (jq_value q)) as P4. unfold QUEUE_NAME_MAX in Hname. remember (out_queue q) as oq eqn:Eoq. remember (out_data q) as od eqn:Eod.
  remember (match jq_out q with Some _ => out_msg | None => 0 end) as om eqn:Eom.
  assert (Fom : fits 64 om) by (subst om; destruct (jq_out q); [done|unfold fits; lia]).
  assert (Ed : d = [QUEUE_WAL_JOB_FMT] ++ jq_op q ++ put64 (jq_in_incarnation q) ++ [flag (jq_out q)] ++ put16 (zlen oq) ++ oq ++
    put64 (out_queue_incarnation q) ++ put64 om ++ put32 (zlen od) ++ od ++ put64 version ++ put16 (zlen (jq_key q)) ++ jq_key q ++
    put64 (jq_expected q) ++ put32 (zlen (jq_value q)) ++ jq_value q ++ put64 completed ++ put64 expires) by (by subst).
  assert (E1 : slice 1 16 d = jq_op q) by (rewrite Ed; field).
  assert (E2 : at64 d 17 = jq_in_incarnation q) by (rewrite Ed; field).
  assert (E3 : byte_at d 25 = flag (jq_out q)).
  { assert (Lo : length (jq_op q) = 16%nat) by (unfold zlen in Hop; lia). rewrite Ed, byte_skip by (cbn; lia).
    rewrite byte_skip by (rewrite Lo; cbn; lia). rewrite Lo, byte_skip by (change (length (put64 _)) with 8%nat; cbn; lia). done. }
  assert (E4 : at16 d 26 = zlen oq) by (rewrite Ed; field).
  assert (E5 : slice 28 (zlen oq) d = oq) by (rewrite Ed; field).
  assert (E6 : at64 d (28 + zlen oq) = out_queue_incarnation q) by (rewrite Ed; field).
  assert (E7 : at64 d (36 + zlen oq) = om) by (rewrite Ed; field).
  assert (E8 : at32 d (44 + zlen oq) = zlen od) by (rewrite Ed; field).
  assert (E9 : slice (48 + zlen oq) (zlen od) d = od) by (rewrite Ed; field).
  assert (E10 : at64 d (48 + zlen oq + zlen od) = version) by (rewrite Ed; field).
  assert (E11 : at16 d (56 + zlen oq + zlen od) = zlen (jq_key q)) by (rewrite Ed; field).
  assert (E12 : slice (58 + zlen oq + zlen od) (zlen (jq_key q)) d = jq_key q) by (rewrite Ed; field).
  assert (E13 : at64 d (58 + zlen oq + zlen od + zlen (jq_key q)) = jq_expected q) by (rewrite Ed; field).
  assert (E14 : at32 d (66 + zlen oq + zlen od + zlen (jq_key q)) = zlen (jq_value q)) by (rewrite Ed; field).
  assert (E15 : slice (70 + zlen oq + zlen od + zlen (jq_key q)) (zlen (jq_value q)) d = jq_value q) by (rewrite Ed; field).
  assert (E16 : at64 d (70 + zlen oq + zlen od + zlen (jq_key q) + zlen (jq_value q)) = completed) by (rewrite Ed; field).
  assert (E17 : at64 d (78 + zlen oq + zlen od + zlen (jq_key q) + zlen (jq_value q)) = expires) by (rewrite Ed; field).
  unfold job_parse_completion. rewrite E1, E2, E3, E4, E5, E6, E7, E8, E9, E10, E11, E12, E13, E14, E15, E16, E17, Ld.
  repeat match goal with |- context [?a <? ?b] => destruct (Z.ltb_spec a b); [unfold QUEUE_NAME_MAX in *; lia|] end.
  destruct (Z.eqb_spec (70 + zlen oq + zlen od + zlen (jq_key q) + zlen (jq_value q) + 16) (86 + zlen oq + zlen od + zlen (jq_key q) + zlen (jq_value q))); [|lia].
  unfold completion_of, out_queue, out_data, out_queue_incarnation in *. destruct (jq_out q) as [[[n k] v]|]; cbn [flag Z.eqb negb andb]; rewrite ?Eoq, ?Eod, ?Eom; done.
Qed.

End Completion.
End JobRecords.

(** * Opening a store with job records

    Replaying a log that mixes the records of queues with those of the job
    feature: one record after the other changes the store and the engine. *)

Import Queue QueueIndex Wal Store Replay Batch XChange Tx XReplay TxReplay Commit Ops XOps TxOps Run Recovery Open.

Module JobReplay.

(** ** What replay leaves alone *)

Lemma bump_id_job s id : st_job_enabled (bump_id s id) = st_job_enabled s.
Proof. unfold bump_id. by gcase. Qed.

Lemma bumps_job (ts : list tx_target) s : st_job_enabled (fold_left (fun s t => bump_id s (t_msg_id t)) ts s) = st_job_enabled s.
Proof. revert s. induction ts as [|t ts IH]; intros s; simpl; [done|]. by rewrite IH, bump_id_job. Qed.

Lemma materialize_job ts tx s : st_allocs s = [] -> st_job_enabled (fold_left (materialize_one tx) ts s) = st_job_enabled s.
Proof.
  revert s. induction ts as [|t ts IH]; intros s A; simpl; [done|]. rewrite IH.
  - unfold materialize_one. gcase; [by rewrite append_message_upd|done].
  - unfold materialize_one. gcase; [by apply append_message_allocs|done].
Qed.

Lemma apply_record_job s r s' : st_allocs s = [] -> apply_queue_record s r = Some s' -> st_job_enabled s' = st_job_enabled s.
Proof.
  intros A. unfold apply_queue_record.
  repeat match goal with |- (if ?b then _ else _) = _ -> _ => destruct b end;
    unfold apply_declare, apply_publish, apply_ack, apply_delivery, apply_requeue, on_message,
      apply_purge, apply_delete, apply_exdeclare, create_exchange, apply_exbind,
      add_binding_locked, apply_exdelete, apply_exupdate, apply_tx_prepare, apply_consumer,
      apply_consumer_del, apply_tx_commit; replay_cases A; try done.
  - by rewrite bump_id_job.
  - match goal with H : _ = (true, _) |- _ => revert H end. replay_cases A; done.
  - by rewrite bumps_job.
  - unfold tx_materialize_locked. rewrite materialize_job; [done|]. done.
Qed.

Section Jobs.
Context {J : Type} (h : job_hooks J).

Lemma apply_job_frame s e r s' e' : st_allocs s = [] -> apply_job_record h s e r = inr (s', e') ->
  st_allocs s' = [] /\ st_job_enabled s' = st_job_enabled s.
Proof.
  intros A. unfold apply_job_record. repeat match goal with |- (if ?b then _ else _) = _ -> _ => destruct b end; try done.
  - destruct (meta_apply h e _); [|done]. intros [= <- <-]. cbn [st_next_id st_next_incarnation]. by repeat gcase.
  - destruct (find_queue s (r_name r)); intros [= <- <-]; [|done]. by gcase.
  - destruct (job_parse_state _ _ _); [|done]. destruct (state_apply h e _); [|done]. by intros [= <- <-].
  - destruct (job_parse_receipt _ _ _); [|done]. destruct (receipt_apply h e _); [|done]. by intros [= <- <-].
  - destruct (job_parse_completion _ _ _ _) as [c|]; [|done]. destruct (completion_apply h e c); [|done].
    destruct (completion_effects s c) as [s2|] eqn:E; [|done]. intros [= <- <-]. revert E. unfold completion_effects, completion_output.
    destruct (cp_out c) as [[[[n k] id] d]|].
    + destruct (find_queue s n) as [q|]; [destruct (q_durable q); [rewrite append_message_upd by done|]|];
        (destruct (find_queue _ _); [destruct (find_message _ _)|]); intros [= <-]; cbn [upd_queue st_allocs st_job_enabled]; by rewrite ?bump_id_allocs, ?bump_id_job.
    + (destruct (find_queue _ _); [destruct (find_message _ _)|]); intros [= <-]; cbn [upd_queue st_allocs st_job_enabled]; by rewrite ?bump_id_allocs, ?bump_id_job.
Qed.

(** Records of both kinds, in their order. *)
Fixpoint replay_all (s : store) (e : J) (rs : list record) : option (store * J) :=
  match rs with
  | [] => Some (s, e)
  | r :: rs =>
      if job_record (r_op r) then
        match apply_job_record h s e r with inr (s, e) => replay_all s e rs | inl _ => None end
      else
        match apply_queue_record s r with Some s => replay_all s e rs | None => None end
  end.

Lemma replay_all_app s e a b : replay_all s e (a ++ b) =
  match replay_all s e a with Some (s', e') => replay_all s' e' b | None => None end.
Proof.
  revert s e. induction a as [|r a IH]; intros s e; [done|]. cbn. destruct (job_record (r_op r)).
  - destruct (apply_job_record h s e r) as [|[s1 e1]]; [done|apply IH].
  - destruct (apply_queue_record s r); [apply IH|done].
Qed.

Lemma replay_all_queue s e rs s' : Forall loggable rs -> replay_records s rs = Some s' -> replay_all s e rs = Some (s', e).
Proof.
  revert s. induction rs as [|r rs IH]; intros s; cbn; [by intros _ [= <-]|]. intros [[_ ->] Hr]%Forall_cons.
  destruct (apply_queue_record s r); [by apply IH|done].
Qed.

(** Records that are read back as they were written. *)
Definition readable (r : record) : Prop := record_ok r /\ job_fmt_ok r.

Lemma loggable_readable r : loggable r -> readable r.
Proof. intros [H1 H2]. split; [done|]. unfold job_fmt_ok. by rewrite H2. Qed.

Lemma replay_log_all rs : forall fuel s e good rest s' e', st_allocs s = [] -> st_job_enabled s = true -> Forall readable rs ->
  replay_all s e rs = Some (s', e') ->
  replay_log h (length rs + fuel) s e good (encode_all rs ++ rest) = replay_log h fuel s' e' (good + zlen (encode_all rs)) rest.
Proof.
  induction rs as [|r rs IH]; intros fuel s e good rest s' e' A B Hrs; cbn [length Nat.add replay_log replay_all].
  { intros [= <- <-]. f_equal. unfold encode_all. simpl. change (zlen (@nil Z)) with 0. lia. }
  apply Forall_cons in Hrs as [[Hr Hj] Hrs]. intros Hs. rewrite alloc_nil by done. change (encode_all (r :: rs)) with (encode r ++ encode_all rs).
  rewrite <- app_assoc, read_encode by (done || by rewrite B, andb_false_r).
  replace (if zlen (r_data r) =? 0 then s else s) with s by (by destruct (_ =? _)).
  replace (good + (zlen (encode r ++ encode_all rs ++ rest) - zlen (encode_all rs ++ rest))) with (good + zlen (encode r)) by (rewrite !zlen_app; lia).
  replace (good + zlen (encode r ++ encode_all rs)) with (good + zlen (encode r) + zlen (encode_all rs)) by (rewrite zlen_app; lia).
  destruct (job_record (r_op r)).
  - destruct (apply_job_record h s e r) as [|[s1 e1]] eqn:E1; [done|]. destruct (apply_job_frame s e r s1 e1 A E1) as [A1 B1].
    apply IH; [done|by rewrite B1|done|done].
  - destruct (apply_queue_record s r) as [s1|] eqn:E1; [|done]. apply IH; [by eapply apply_record_allocs| |done|done].
    by rewrite (apply_record_job s r s1 A E1).
Qed.

Lemma replay_all_frame rs : forall s e s' e', st_allocs s = [] -> replay_all s e rs = Some (s', e') ->
  st_allocs s' = [] /\ st_job_enabled s' = st_job_enabled s.
Proof.
  induction rs as [|r rs IH]; intros s e s' e' A; cbn; [by intros [= <- <-]|]. destruct (job_record (r_op r)).
  - destruct (apply_job_record h s e r) as [|[s1 e1]] eqn:E1; [done|]. destruct (apply_job_frame s e r s1 e1 A E1) as [A1 <-]. by apply IH.
  - destruct (apply_queue_record s r) as [s1|] eqn:E1; [|done]. rewrite <- (apply_record_job s r s1 A E1). apply IH. by eapply apply_record_allocs.
Qed.

(** A tail a crash leaves behind; the torn record may be one of the job
    feature. *)
Inductive job_tail : bytes -> Prop :=
  | jt_zeros n : job_tail (replicate n 0)
  | jt_torn r k : readable r -> (0 < k < length (encode r))%nat -> scan_records (take k (encode r)) = false ->
      job_tail (take k (encode r)).

Lemma job_tail_cut tail : job_tail tail ->
  tail = [] \/ read_record true true tail = RCorrupt /\ tail_holds_record true tail = Some false.
Proof.
  intros [[|n]|r k Hr Hk Hs]; [by left|right..].
  - split; [apply zeros_corrupt|apply zeros_hold_no_record].
  - split; [apply torn_corrupt; [apply Hr|apply andb_false_r|done]|]. by rewrite torn_tail_scan, Hs by (apply Hr || lia).
Qed.

(** A replayed log, followed by the tail of a crash. *)
Lemma open_all e rs tail r e' : Forall readable rs -> replay_all (empty_store true true [] [] []) e rs = Some (r, e') ->
  job_tail tail -> queue_store_open h true e [] (encode_all rs ++ tail) = Replayed r e' (zlen (encode_all rs)).
Proof.
  intros Hrs Hr Ht. unfold queue_store_open. pose proof (encode_all_length rs) as Hl. set (s0 := empty_store true true [] [] []) in *.
  destruct (replay_all_frame rs s0 e r e' eq_refl Hr) as [A B].
  replace (S (length (encode_all rs ++ tail))) with (length rs + S (length (encode_all rs ++ tail) - length rs))%nat by (rewrite length_app; lia).
  rewrite (replay_log_all rs _ s0 e 0 tail r e'); [|done..]. rewrite Z.add_0_l. cbn [replay_log]. rewrite alloc_nil by done.
  destruct (job_tail_cut tail Ht) as [->|[Hc Hs]]; [done|]. change (st_job_enabled s0) with true in B. rewrite B, Hc. unfold at_corrupt. by rewrite alloc_nil, Hs.
Qed.

End Jobs.

End JobReplay.
