(* ===== verification/CheckpointReplay.v ===== *)
(** * Replaying a checkpoint

    The records of a checkpoint, replayed into an empty store, rebuild the
    queues, messages, exchanges, consumers and pending transactions they were
    taken from; each part of the file on its own, for any store the other
    parts have been replayed into. *)

From stdpp Require Import base numbers option list.
From S2P Require Import Prelude Queue QueueIndex WalRecord QueueStore QueueReplay Exchange QueueTx.
From S2P Require Import ExchangeReplay QueueBatch QueueCommit QueueOps ExchangeOps TxOps QueueRun.
From S2P Require Import QueueRecovery QueueOpen Atomic JobEngine Checkpoint JobRecords.
Import Queue QueueIndex Wal Store Replay Batch Exchanges XChange Tx XReplay TxReplay Commit Ops XOps TxOps Run Open JobReplay Checkpoint.
Import Recovery(entry, entry_of, find_message_Some, find_message_None, parse_dlq_ext).

Module CkptReplay.

(** What the records of queues leave alone. *)
Definition beside (r : store) : list exchange * list consumer * list queue_tx := (st_exchanges r, st_consumers r, st_tx_pending r).

(** [r'] is [r] with the queue [name] replaced by [rq]. *)
Record placed (r : store) (name : bytes) (rq : queue) (r' : store) : Prop := Placed {
  pl_wf : wf r';
  pl_allocs : st_allocs r' = [];
  pl_find : forall n, find_queue r' n = if decide (n = name) then Some rq else find_queue r n;
  pl_beside : beside r' = beside r;
  pl_next : st_next_id r <= st_next_id r' }.

Lemma placed_trans r n q1 r1 q2 r2 : placed r n q1 r1 -> placed r1 n q2 r2 -> placed r n q2 r2.
Proof.
  intros [A1 A2 A3 A4 A5] [B1 B2 B3 B4 B5]. constructor; [done|done| |congruence|lia].
  intros x. rewrite B3, A3. by destruct (decide _).
Qed.

Lemma placed_found r n q r' : placed r n q r' -> find_queue r' n = Some q.
Proof. intros P. by rewrite (pl_find _ _ _ _ P), decide_True. Qed.

Lemma upd_placed r name q f : wf r -> st_allocs r = [] -> find_queue r name = Some q -> keeps_config f ->
  placed r name (f q) (upd_queue r (q_lock_id q) f).
Proof.
  intros W A F K. destruct (find_queue_In r name q F) as (Hin & Hd & <-). constructor; try done.
  - by apply upd_config_wf.
  - intros n. apply find_upd_config; try done. by apply wf_get.
Qed.

(** ** Declarations *)

(** What a declaration record needs. *)
Record declarable (q : queue) : Prop := Declarable {
  dc_name : name_ok (q_name q);
  dc_dlq : q_dlq_name q = [] /\ q_max_deliveries q = 0 \/ name_ok (q_dlq_name q) /\ q_dlq_name q <> q_name q;
  dc_maxd : fits 32 (q_max_deliveries q);
  dc_depth : fits 64 (q_max_depth q) }.

(** A queue as declared: the policies, no messages. *)
Definition policies (q : queue) : bytes * bool * bool * bytes * Z * Z :=
  (q_name q, q_durable q, q_deleted q, q_dlq_name q, q_max_deliveries q, q_max_depth q).

Record blank (job : bool) (q rq : queue) : Prop := Blank {
  bk_policies : policies rq = policies q;
  bk_incarnation : job = true -> q_incarnation rq = q_incarnation q;
  bk_msgs : q_msgs rq = [] }.

Section Declare.
Context {J : Type} (h : job_hooks J).

Lemma queue_declare_replays r q : wf r -> st_allocs r = [] -> find_queue r (q_name q) = None -> declarable q -> q_deleted q = false ->
  exists r' rq, apply_queue_record r (declare_record q) = Some r' /\ blank false q rq /\ placed r (q_name q) rq r' /\ st_next_id r' = st_next_id r.
Proof.
  intros W A F [D1 D2 D3 D4] Hd. change (apply_queue_record r (declare_record q)) with
    (apply_declare r (q_name q) (q_durable q) (q_max_depth q) (dlq_ext (q_dlq_name q) (q_max_deliveries q))).
  unfold apply_declare. rewrite parse_dlq_ext, F by (done || tauto).
  assert (Hne : negb (zlen (q_dlq_name q) =? 0) && name_eqb (q_dlq_name q) (q_name q) = false).
  { destruct D2 as [[-> _]|[_ Hne]]; [done|]. unfold name_eqb. by rewrite bool_decide_eq_false_2, andb_false_r. }
  set (nr := new_queue (st_next_lock_id r + 1) (st_next_incarnation r + 1) (q_name q) (q_durable q) (q_max_depth q) (q_dlq_name q) (q_max_deliveries q)).
  rewrite Hne, create_queue_some by done. eexists _, nr. split; [done|]. split.
  - constructor; try done. unfold policies, nr, new_queue. cbn [q_name q_durable q_deleted q_dlq_name q_max_deliveries q_max_depth]. rewrite Hd.
    destruct D2 as [[-> ->]|[Hn _]]; [done|]. destruct Hn as [_ Hl]. by rewrite (proj2 (Z.eqb_neq _ _)) by lia.
  - split; [|done]. constructor; try done.
    + by apply (create_wf r nr W).
    + intros n. by apply (find_create r nr).
Qed.

Lemma queue_meta_replays r e q rq : wf r -> st_allocs r = [] -> find_queue r (q_name q) = Some rq -> 0 < q_incarnation q ->
  exists r', apply_job_record h r e (queue_meta_record q) = inr (r', e) /\ placed r (q_name q) {| rq with q_incarnation := q_incarnation q |} r' /\ st_next_id r' = st_next_id r.
Proof.
  intros W A F Hi. unfold apply_job_record. cbn [queue_meta_record r_op r_data r_id r_name].
  change (LOG_QUEUE_META =? LOG_JOB_META) with false. rewrite Z.eqb_refl, zlen_nil. cbn [Z.eqb negb orb].
  rewrite (proj2 (Z.eqb_neq (q_incarnation q) 0)) by lia. rewrite F.
  pose proof (upd_placed r (q_name q) rq (fun x => {| x with q_incarnation := q_incarnation q |}) W A F ltac:(done)) as P.
  set (r1 := upd_queue _ _ _) in *. destruct (st_next_incarnation r1 <? q_incarnation q); eexists; (split; [reflexivity|split; [|done]]); [|done].
  destruct P as [P1 P2 P3 P4 P5]. constructor; try done. by eapply wf_same; [| |exact P1].
Qed.

Lemma declarations_replay job r e q : wf r -> st_allocs r = [] -> find_queue r (q_name q) = None -> declarable q -> q_deleted q = false ->
  (job = true -> 0 < q_incarnation q) ->
  exists r' rq, replay_all h r e (declarations job q) = Some (r', e) /\ blank job q rq /\ placed r (q_name q) rq r' /\ st_next_id r' = st_next_id r.
Proof.
  intros W A F D Hd Hi. destruct (queue_declare_replays r q W A F D Hd) as (r1 & rq & E1 & B1 & P1 & N1). unfold declarations. cbn [replay_all].
  change (job_record (r_op (declare_record q))) with false. cbn iota. rewrite E1. destruct job; [|by exists r1, rq].
  destruct (queue_meta_replays r1 e q rq (pl_wf _ _ _ _ P1) (pl_allocs _ _ _ _ P1) (placed_found _ _ _ _ P1) (Hi eq_refl)) as (r2 & E2 & P2 & N2).
  exists r2, {| rq with q_incarnation := q_incarnation q |}. cbn [replay_all]. change (job_record (r_op (queue_meta_record q))) with true. cbn iota. rewrite E2.
  split; [done|]. split; [|split; [by eapply placed_trans|congruence]]. destruct B1 as [B1 _ B3]. by constructor.
Qed.

(** The queues of [l] are as [P] says, by name; the others are as before. *)
Record rebuilt (P : queue -> queue -> Prop) (l : list queue) (r r' : store) : Prop := Rebuilt {
  rb_wf : wf r';
  rb_allocs : st_allocs r' = [];
  rb_queues : forall q, q ∈ l -> exists rq, find_queue r' (q_name q) = Some rq /\ P q rq;
  rb_others : forall n, n ∉ q_name <$> l -> find_queue r' n = find_queue r n;
  rb_beside : beside r' = beside r;
  rb_next : st_next_id r <= st_next_id r' }.

Lemma rebuilt_nil P r : wf r -> st_allocs r = [] -> rebuilt P [] r r.
Proof. intros W A. constructor; try done. by intros q ?%not_elem_of_nil. Qed.

Lemma rebuilt_cons P q l r r1 r2 rq : placed r (q_name q) rq r1 -> P q rq -> q_name q ∉ q_name <$> l -> rebuilt P l r1 r2 -> rebuilt P (q :: l) r r2.
Proof.
  intros [A1 A2 A3 A4 A5] Hq Hn [B1 B2 B3 B4 B5 B6]. constructor; [done|done| | |congruence|lia].
  - intros x [->|Hx]%elem_of_cons; [|by apply B3]. exists rq. split; [|done]. rewrite B4 by done. by rewrite A3, decide_True.
  - intros n Hx. rewrite fmap_cons, not_elem_of_cons in Hx. destruct Hx as [Hx1 Hx2]. rewrite B4 by done. by rewrite A3, decide_False.
Qed.

Lemma all_declared job l : forall r e, wf r -> st_allocs r = [] -> NoDup (q_name <$> l) -> Forall declarable l ->
  Forall (fun q => q_deleted q = false) l -> (job = true -> Forall (fun q => 0 < q_incarnation q) l) ->
  (forall q, q ∈ l -> find_queue r (q_name q) = None) ->
  exists r', replay_all h r e (concat (declarations job <$> l)) = Some (r', e) /\ rebuilt (blank job) l r r' /\ st_next_id r' = st_next_id r.
Proof.
  induction l as [|q l IH]; intros r e W A Nd D Hd Hi F; [exists r; split; [done|split; [by apply rebuilt_nil|done]]|].
  rewrite fmap_cons, NoDup_cons in Nd. destruct Nd as [Hq Nd]. apply Forall_cons in D as [Dq D], Hd as [Hdq Hd].
  destruct (declarations_replay job r e q W A (F q ltac:(left)) Dq Hdq) as (r1 & rq & E1 & B1 & P1 & N1).
  { intros ->. by destruct (Forall_cons_1 _ _ _ (Hi eq_refl)). }
  destruct (IH r1 e (pl_wf _ _ _ _ P1) (pl_allocs _ _ _ _ P1) Nd D Hd) as (r2 & E2 & R2 & N2).
  { intros ->. by destruct (Forall_cons_1 _ _ _ (Hi eq_refl)). }
  { intros x Hx. rewrite (pl_find _ _ _ _ P1), decide_False; [apply F; by right|]. intros E. apply Hq. rewrite <- E. by apply list_elem_of_fmap_2. }
  exists r2. split; [|split; [by eapply rebuilt_cons|congruence]]. rewrite fmap_cons. cbn [concat]. by rewrite replay_all_app, E1.
Qed.

End Declare.

(** ** Messages *)

(** A replayed message: ready, with its count of deliveries and its delay. *)
Record restores (m m' : message) : Prop := Restores {
  rs_entry : entry_of m' = entry_of m;
  rs_ready : m_state m' = MESSAGE_READY;
  rs_time : m_time m' = if is_inflight m then 0 else m_time m;
  rs_free : m_owner m' = 0 /\ m_tag m' = 0 }.

Lemma find_last q l m : q_msgs q = l ++ [m] -> m_id m ∉ m_id <$> l -> find_message q (m_id m) = Some (length l).
Proof.
  intros E Hn. unfold find_message. rewrite E. apply position_Some. split.
  - exists m. split; [by rewrite lookup_app_r, Nat.sub_diag|by apply Z.eqb_refl].
  - intros j x Hj Hx. rewrite lookup_app_l in Hx by lia. apply Z.eqb_neq. intros E'. apply Hn. rewrite <- E'.
    apply list_elem_of_fmap_2. by eapply list_elem_of_lookup_2.
Qed.

Lemma alter_last {A} (f : A -> A) l x : alter f (length l) (l ++ [x]) = l ++ [f x].
Proof. induction l as [|y l IH]; [done|]. cbn. f_equal. exact IH. Qed.

(** [r'] has the queue of [r] with the messages [l]. *)
Definition holds_messages (name : bytes) (l : list message) (q : queue) (r r' : store) : Prop :=
  exists q', placed r name q' r' /\ q_msgs q' = l /\ config q' = config q /\ q_incarnation q' = q_incarnation q.

(** A record that changes the message just published. *)
Lemma last_changed r name q l m f : wf r -> st_allocs r = [] -> find_queue r name = Some q -> q_msgs q = l ++ [m] -> m_id m ∉ m_id <$> l ->
  exists r', on_message r name (m_id m) (fun q i => update_msg q i f) = Some r' /\ holds_messages name (l ++ [f m]) q r r' /\
    st_next_id r' = st_next_id r.
Proof.
  intros W A F E Hn. exists (upd_queue r (q_lock_id q) (fun q => update_msg q (length l) f)). split; [|split; [|done]].
  - unfold on_message. by rewrite F, (find_last q l m E Hn).
  - exists (update_msg q (length l) f). split; [by apply (upd_placed r name q (fun q => update_msg q (length l) f))|].
    split; [|done]. cbn [update_msg q_msgs]. rewrite E. apply alter_last.
Qed.

Lemma holds_trans name l2 q q1 r r1 r2 : placed r name q1 r1 -> config q1 = config q -> q_incarnation q1 = q_incarnation q ->
  holds_messages name l2 q1 r1 r2 -> holds_messages name l2 q r r2.
Proof. intros P C I (q2 & P2 & E2 & C2 & I2). exists q2. split; [by eapply placed_trans|]. split; [done|]. split; congruence. Qed.

(** The deliveries of a message, counted again. *)
Lemma deliveries_replay q0 n : forall r q l m, wf r -> st_allocs r = [] -> find_queue r (q_name q0) = Some q -> q_msgs q = l ++ [m] ->
  m_id m ∉ m_id <$> l -> 0 <= m_deliveries m -> m_deliveries m + Z.of_nat n < 2 ^ 32 ->
  exists r', replay_records r (replicate n (message_record q0 LOG_DELIVER (m_id m) 0 [])) = Some r' /\
    holds_messages (q_name q0) (l ++ [{| m with m_deliveries := m_deliveries m + Z.of_nat n |}]) q r r' /\ st_next_id r' = st_next_id r.
Proof.
  induction n as [|n IH]; intros r q l m W A F E Hn H0 Hd.
  { exists r. split; [done|]. split; [|done]. exists q. split; [|split; [|done]].
    - constructor; try done. intros x. destruct (decide _) as [->|]; done.
    - rewrite E. do 2 f_equal. destruct m; cbn. f_equal. lia. }
  cbn [replicate replay_records]. set (f := fun m => {| m with m_deliveries := u32 (m_deliveries m + 1) |}).
  destruct (last_changed r (q_name q0) q l m f W A F E Hn) as (r1 & E1 & (q1 & P1 & M1 & C1 & I1) & N1).
  change (apply_queue_record r (message_record q0 LOG_DELIVER (m_id m) 0 [])) with (on_message r (q_name q0) (m_id m) (fun q i => update_msg q i f)). rewrite E1.
  assert (Ef : m_deliveries (f m) = m_deliveries m + 1) by (cbn; apply u32_small; unfold fits; lia).
  destruct (IH r1 q1 l (f m) (pl_wf _ _ _ _ P1) (pl_allocs _ _ _ _ P1) (placed_found _ _ _ _ P1) M1 Hn) as (r2 & E2 & H2 & N2); [lia|lia|].
  exists r2. split; [exact E2|]. split; [|congruence]. eapply holds_trans; [exact P1|done|done|].
  destruct H2 as (q2 & P2 & M2 & C2 & I2). exists q2. split; [done|]. split; [|done]. rewrite M2. do 2 f_equal. rewrite Ef. destruct m; cbn. f_equal. lia.
Qed.

Lemma publish_replays r q0 q m : wf r -> st_allocs r = [] -> find_queue r (q_name q0) = Some q -> q_durable q = true -> fits 64 (m_id m + 1) ->
  exists r', apply_queue_record r (message_record q0 LOG_PUBLISH (m_id m) (m_expires m) (m_data m)) = Some r' /\
    holds_messages (q_name q0) (q_msgs q ++ [linked q (message_create (m_id m) (m_expires m) (m_data m))]) q r r' /\
    st_next_id r' = Z.max (st_next_id r) (m_id m + 1).
Proof.
  intros W A F Hd Hi. change (apply_queue_record r _) with (apply_publish r (q_name q0) (m_id m) (m_expires m) (m_data m)).
  unfold apply_publish. rewrite F, Hd, append_message_upd by done. eexists. split; [reflexivity|]. set (f := fun q => message_link q _).
  pose proof (upd_placed r (q_name q0) q f W A F (fun q => message_link_config q _)) as P. split.
  - exists (f q). split; [|done]. destruct P as [P1 P2 P3 P4 P5]. unfold bump_id. destruct (Z.leb_spec (st_next_id (upd_queue r (q_lock_id q) f)) (m_id m)); [|done].
    constructor; try done; [by eapply wf_same; [| |exact P1]|]. cbn. cbn in H. rewrite u64_small by done. lia.
  - unfold bump_id. cbn [st_next_id upd_queue]. destruct (Z.leb_spec (st_next_id r) (m_id m)); cbn; [rewrite u64_small by done|]; lia.
Qed.

(** What the records of a message need. *)
Record replayable (m : message) : Prop := Replayable {
  ra_id : fits 64 (m_id m + 1);
  ra_deliveries : fits 32 (m_deliveries m) }.

Lemma message_replays r q0 q m : wf r -> st_allocs r = [] -> find_queue r (q_name q0) = Some q -> q_durable q = true -> replayable m ->
  m_id m ∉ m_id <$> q_msgs q ->
  exists r' m', replay_records r (message_records q0 m) = Some r' /\ restores m m' /\ holds_messages (q_name q0) (q_msgs q ++ [m']) q r r' /\
    st_next_id r' = Z.max (st_next_id r) (m_id m + 1).
Proof.
  intros W A F Hd [Hi Hn] Hx. unfold message_records. cbn [replay_records].
  destruct (publish_replays r q0 q m W A F Hd Hi) as (r1 & E1 & (q1 & P1 & M1 & C1 & I1) & N1). rewrite E1. set (m1 := linked q _) in *.
  assert (K1 : m_id m1 = m_id m /\ entry_of m1 = entry_of {| m with m_deliveries := 0 |} /\ m_state m1 = MESSAGE_READY /\ m_time m1 = 0 /\ m_owner m1 = 0 /\ m_tag m1 = 0)
    by (unfold m1, linked; by destruct (q_durable q)). destruct K1 as (K1 & K2 & K3 & K4 & K5 & K6).
  assert (K7 : m_deliveries m1 = 0) by (by injection K2).
  rewrite replay_records_app. unfold fits in Hn.
  destruct (deliveries_replay q0 (Z.to_nat (m_deliveries m)) r1 q1 (q_msgs q) m1 (pl_wf _ _ _ _ P1) (pl_allocs _ _ _ _ P1) (placed_found _ _ _ _ P1) M1)
    as (r2 & E2 & H2 & N2); [by rewrite K1|lia|lia|]. rewrite K1 in E2. rewrite E2. destruct H2 as (q2 & P2 & M2 & C2 & I2).
  set (m2 := {| m1 with m_deliveries := m_deliveries m1 + Z.of_nat (Z.to_nat (m_deliveries m)) |}) in *.
  assert (Em2 : entry_of m2 = entry_of m).
  { unfold entry_of in *. cbn in *. injection K2 as -> -> _ ->. rewrite K7. f_equal. lia. }
  pose proof (placed_trans _ _ _ _ _ _ P1 P2) as P12.
  destruct (negb (is_inflight m) && negb (m_time m =? 0)) eqn:Eq.
  - set (f := fun m0 => {| m0 with m_state := MESSAGE_READY; m_time := m_time m; m_owner := 0; m_tag := 0 |}).
    destruct (last_changed r2 (q_name q0) q2 (q_msgs q) m2 f (pl_wf _ _ _ _ P2) (pl_allocs _ _ _ _ P2) (placed_found _ _ _ _ P2) M2)
      as (r3 & E3 & (q3 & P3 & M3 & C3 & I3) & N3); [by change (m_id m2) with (m_id m1); rewrite K1|].
    change (m_id m2) with (m_id m1) in E3. rewrite K1 in E3. exists r3, (f m2). cbn [replay_records].
    change (apply_queue_record r2 (message_record q0 LOG_REQUEUE (m_id m) (m_time m) [])) with (on_message r2 (q_name q0) (m_id m) (fun q i => update_msg q i f)).
    rewrite E3. split; [done|]. split; [|split; [|congruence]].
    + apply andb_true_iff in Eq as [Eq _]. constructor; [exact Em2|done| |done]. cbn. by destruct (is_inflight m).
    + exists q3. split; [by eapply placed_trans|]. split; [done|]. split; congruence.
  - exists r2, m2. split; [done|]. split; [|split; [|congruence]].
    + constructor; [done|done| |done]. cbn [m2 m_time]. rewrite K4. destruct (is_inflight m); [done|]. cbn in Eq.
      apply negb_false_iff, Z.eqb_eq in Eq. congruence.
    + exists q2. split; [done|]. split; [done|]. split; congruence.
Qed.

Lemma restores_id m m' : restores m m' -> m_id m' = m_id m.
Proof. intros [H _ _ _]. by injection H. Qed.

Lemma restored_ids ms ms' : Forall2 restores ms ms' -> m_id <$> ms' = m_id <$> ms.
Proof. induction 1 as [|m m' ms ms' H _ IH]; [done|]. csimpl. by rewrite IH, (restores_id m m' H). Qed.

Lemma messages_replay q0 ms : forall r q, wf r -> st_allocs r = [] -> find_queue r (q_name q0) = Some q -> q_durable q = true \/ ms = [] ->
  Forall replayable ms -> NoDup ((m_id <$> q_msgs q) ++ (m_id <$> ms)) ->
  exists r' ms', replay_records r (concat (message_records q0 <$> ms)) = Some r' /\ Forall2 restores ms ms' /\
    holds_messages (q_name q0) (q_msgs q ++ ms') q r r' /\
    forall N, st_next_id r <= N -> Forall (fun m => m_id m < N) ms -> st_next_id r' <= N.
Proof.
  induction ms as [|m ms IH]; intros r q W A F Hd Hr Nd.
  { exists r, []. split; [done|]. split; [done|]. split; [|done]. exists q. split; [|by rewrite app_nil_r]. constructor; try done. intros x. by destruct (decide _) as [->|]. }
  destruct Hd as [Hd|]; [|done]. apply Forall_cons in Hr as [Hm Hr]. rewrite fmap_cons in Nd. pose proof Nd as Nd'. apply NoDup_app in Nd' as (N1 & N2 & N3).
  destruct (message_replays r q0 q m W A F Hd Hm) as (r1 & m1 & E1 & R1 & (q1 & P1 & M1 & C1 & I1) & X1); [intros Hx; apply (N2 _ Hx); left|].
  destruct (config_inv _ _ C1) as (_ & _ & D1 & _).
  destruct (IH r1 q1 (pl_wf _ _ _ _ P1) (pl_allocs _ _ _ _ P1) (placed_found _ _ _ _ P1)) as (r2 & ms2 & E2 & R2 & H2 & X2); [left; congruence|done| |].
  { rewrite M1, fmap_app. csimpl. rewrite (restores_id _ _ R1), <- app_assoc. exact Nd. }
  exists r2, (m1 :: ms2). split_and!.
  - rewrite fmap_cons. cbn [concat]. by rewrite replay_records_app, E1.
  - by constructor.
  - rewrite M1, <- app_assoc in H2. by apply (holds_trans _ _ q q1 r r1 r2).
  - intros N HN [Hm' Hl]%Forall_cons. apply X2; [|done]. rewrite X1. lia.
Qed.

(** A queue as the checkpoint rebuilds it. *)
Record revived (job : bool) (q rq : queue) : Prop := Revived {
  rv_policies : policies rq = policies q;
  rv_incarnation : job = true -> q_incarnation rq = q_incarnation q;
  rv_msgs : Forall2 restores (q_msgs q) (q_msgs rq) }.

Lemma config_policies q q' : config q' = config q -> policies q' = policies q.
Proof. unfold config, policies. intros E. simplify_eq. congruence. Qed.

Lemma queue_messages job r q rq : wf r -> st_allocs r = [] -> find_queue r (q_name q) = Some rq -> blank job q rq ->
  q_durable q = true \/ q_msgs q = [] -> Forall replayable (q_msgs q) -> NoDup (m_id <$> q_msgs q) ->
  exists r' rq', replay_records r (concat (message_records q <$> q_msgs q)) = Some r' /\ revived job q rq' /\ placed r (q_name q) rq' r' /\
    forall N, st_next_id r <= N -> Forall (fun m => m_id m < N) (q_msgs q) -> st_next_id r' <= N.
Proof.
  intros W A F [B1 B2 B3] Hd Hr Nd. assert (Ed : q_durable rq = q_durable q) by (unfold policies in B1; congruence).
  destruct (messages_replay q (q_msgs q) r rq W A F) as (r' & ms & E & R & (rq' & P & M & C & Ii) & X); [by rewrite Ed|done|by rewrite B3|].
  exists r', rq'. split; [done|]. split; [|done]. rewrite B3 in M. cbn in M. constructor; [|intros H; rewrite Ii; auto|by rewrite M].
  rewrite <- B1. by apply config_policies.
Qed.

Lemma all_messages job l : forall r, wf r -> st_allocs r = [] -> NoDup (q_name <$> l) ->
  (forall q, q ∈ l -> exists rq, find_queue r (q_name q) = Some rq /\ blank job q rq) ->
  Forall (fun q => q_durable q = true \/ q_msgs q = []) l -> Forall (fun q => Forall replayable (q_msgs q) /\ NoDup (m_id <$> q_msgs q)) l ->
  exists r', replay_records r (concat ((fun q => concat (message_records q <$> q_msgs q)) <$> l)) = Some r' /\ rebuilt (revived job) l r r' /\
    forall N, st_next_id r <= N -> Forall (fun q => Forall (fun m => m_id m < N) (q_msgs q)) l -> st_next_id r' <= N.
Proof.
  induction l as [|q l IH]; intros r W A Nd F Hd Hr; [exists r; split; [done|]; split; [by apply rebuilt_nil|done]|].
  rewrite fmap_cons, NoDup_cons in Nd. destruct Nd as [Hq Nd]. apply Forall_cons in Hd as [Hdq Hd], Hr as [[Hr1 Hr2] Hr].
  destruct (F q ltac:(left)) as (rq & Fq & Bq). destruct (queue_messages job r q rq W A Fq Bq Hdq Hr1 Hr2) as (r1 & rq' & E1 & V1 & P1 & X1).
  destruct (IH r1 (pl_wf _ _ _ _ P1) (pl_allocs _ _ _ _ P1) Nd) as (r2 & E2 & R2 & X2); [|done|done|].
  { intros x Hx. rewrite (pl_find _ _ _ _ P1), decide_False; [apply F; by right|]. intros E. apply Hq. rewrite <- E. by apply list_elem_of_fmap_2. }
  exists r2. split_and!; [rewrite fmap_cons; cbn [concat]; by rewrite replay_records_app, E1|by eapply rebuilt_cons|].
  intros N HN [H1 H2]%Forall_cons. by apply X2; [apply X1|].
Qed.

(** A message of a transient queue cannot be published again. *)
Lemma messages_blocked job l : forall r, wf r -> st_allocs r = [] -> NoDup (q_name <$> l) ->
  (forall q, q ∈ l -> exists rq, find_queue r (q_name q) = Some rq /\ blank job q rq) ->
  ~ Forall (fun q => q_durable q = true \/ q_msgs q = []) l -> Forall (fun q => Forall replayable (q_msgs q) /\ NoDup (m_id <$> q_msgs q)) l ->
  exists rs1 x rs2 r1, concat ((fun q => concat (message_records q <$> q_msgs q)) <$> l) = rs1 ++ x :: rs2 /\
    replay_records r rs1 = Some r1 /\ apply_queue_record r1 x = None.
Proof.
  induction l as [|q l IH]; intros r W A Nd F Hd Hr; [by destruct Hd|].
  rewrite fmap_cons, NoDup_cons in Nd. destruct Nd as [Hq Nd]. apply Forall_cons in Hr as [[Hr1 Hr2] Hr].
  destruct (F q ltac:(left)) as (rq & Fq & Bq). destruct (decide (q_durable q = true \/ q_msgs q = [])) as [Hdq|Hdq].
  - destruct (queue_messages job r q rq W A Fq Bq Hdq Hr1 Hr2) as (r1 & rq' & E1 & V1 & P1 & X1).
    destruct (IH r1 (pl_wf _ _ _ _ P1) (pl_allocs _ _ _ _ P1) Nd) as (rs1 & x & rs2 & r2 & E2 & E3 & E4); [| |done|].
    { intros y Hy. rewrite (pl_find _ _ _ _ P1), decide_False; [apply F; by right|]. intros E. apply Hq. rewrite <- E. by apply list_elem_of_fmap_2. }
    { intros H. apply Hd. by constructor. }
    exists (concat (message_records q <$> q_msgs q) ++ rs1), x, rs2, r2. rewrite fmap_cons. cbn [concat]. rewrite E2, app_assoc. split; [done|].
    split; [|done]. by rewrite replay_records_app, E1.
  - destruct (q_msgs q) as [|m ms] eqn:Em; [destruct Hdq; by right|]. rewrite fmap_cons. cbn [concat]. rewrite Em, fmap_cons. cbn [concat]. unfold message_records at 1. cbn [app].
    eexists [], _, _, r. split; [reflexivity|]. split; [done|].
    change (apply_queue_record r _) with (apply_publish r (q_name q) (m_id m) (m_expires m) (m_data m)). unfold apply_publish. rewrite Fq.
    pose proof (bk_policies _ _ _ Bq) as Bp. unfold policies in Bp. assert (q_durable rq = q_durable q) as -> by congruence.
    destruct (q_durable q); [destruct Hdq; by left|done].
Qed.

(** ** Exchanges *)

Definition binding_key (b : binding) : bytes * bytes := (b_queue b, b_key b).

(** What the records of an exchange need. *)
Record xshape (x : exchange) : Prop := XShape {
  xp_name : name_ok (x_name x);
  xp_type : 0 <= x_type x <= EXCHANGE_TOPIC;
  xp_ae : name_valid (x_ae_name x);
  xp_revision : 0 < x_revision x < 2 ^ 64;
  xp_names : Forall (fun b => name_ok (b_queue b) /\ name_valid (b_key b)) (x_bindings x);
  xp_keys : NoDup (binding_key <$> x_bindings x);
  xp_count : zlen (x_bindings x) <= EXCHANGE_BINDINGS_MAX }.

Definition with_exchange (r : store) (x : exchange) : store := {| r with st_exchanges := x :: st_exchanges r |}.

(** The bindings come back in the other order. *)
Definition restored_exchange (x : exchange) : exchange :=
  {| x_name := x_name x; x_type := x_type x; x_durable := x_durable x; x_ae_name := x_ae_name x;
     x_bindings := rev ((fun b => {| b_queue := b_queue b; b_key := b_key b; b_footprint := 0 |}) <$> x_bindings x);
     x_binding_count := zlen (x_bindings x); x_revision := x_revision x; x_publish_attempts := 0; x_unroutable := 0 |}.

Definition declared_exchange (x : exchange) : exchange :=
  let y := new_exchange (x_name x) (x_durable x) (x_type x) (x_ae_name x) in {| y with x_revision := x_revision x |}.

Lemma upd_with_exchange r x f name : x_name x = name -> upd_exchange (with_exchange r x) name f = with_exchange r (f x).
Proof. intros E. unfold upd_exchange, with_exchange. cbn [st_exchanges]. by rewrite upd_first_head. Qed.

Lemma exdeclare_replays r x : st_allocs r = [] -> find_exchange r (x_name x) = None -> xshape x ->
  apply_exdeclare r (x_name x) (x_durable x) (x_revision x) (exchange_payload x) =
  Some (with_exchange r (declared_exchange x)).
Proof.
  intros A F [_ Ht [_ Ha] Hr _ _ _]. unfold EXCHANGE_TOPIC, EXCHANGE_NAME_MAX in *. set (p := exchange_payload x). pose proof (zlen_nonneg (x_ae_name x)).
  assert (Et : u8 (x_type x) = x_type x) by (apply u8_small; unfold is_byte; lia).
  assert (Lp : zlen p = 3 + zlen (x_ae_name x)) by (unfold p, exchange_payload; rewrite !zlen_app, put16_zlen, zlen_cons, zlen_nil; lia).
  assert (E0 : byte_at p 0 = x_type x) by (unfold p, exchange_payload; by rewrite Et).
  assert (E1 : at16 p 1 = zlen (x_ae_name x)) by (apply (at16_app 1 _ [_]); [done|]; apply zlen_fits16; lia).
  assert (E2 : slice 3 (zlen (x_ae_name x)) p = x_ae_name x) by (unfold p, exchange_payload; rewrite app_assoc; by apply slice_end).
  unfold apply_exdeclare. rewrite Lp, E0, E1. unfold EXCHANGE_NAME_MAX, EXCHANGE_TOPIC.
  destruct (Z.ltb_spec (3 + zlen (x_ae_name x)) 1); [lia|]. destruct (Z.ltb_spec (3 + 255) (3 + zlen (x_ae_name x))); [lia|]. cbn [orb].
  destruct (Z.ltb_spec 2 (x_type x)); [lia|]. destruct (Z.leb_spec 3 (3 + zlen (x_ae_name x))); [|lia]. rewrite Z.eqb_refl, orb_true_r. cbn [negb].
  rewrite E2, F. unfold create_exchange. rewrite alloc_nil by done. rewrite (proj2 (Z.eqb_neq (x_revision x) 0)) by lia. f_equal.
  apply (upd_with_exchange r (new_exchange (x_name x) (x_durable x) (x_type x) (x_ae_name x))). done.
Qed.

Lemma find_binding_none y queue key : (queue, key) ∉ binding_key <$> x_bindings y -> find_binding y queue key = None.
Proof.
  intros H. unfold find_binding. destruct (find _ _) as [b|] eqn:E; [|done]. apply find_some in E as [Hin Hb]. apply andb_true_iff in Hb as [H1 H2].
  apply name_eqb_eq in H1, H2. destruct H. apply list_elem_of_fmap. exists b. split; [unfold binding_key; congruence|by apply list_elem_of_In].
Qed.

Lemma bindings_replay r x bs : forall y, st_allocs r = [] -> x_name y = x_name x -> 0 < x_revision x ->
  Forall (fun b => name_ok (b_queue b) /\ name_valid (b_key b)) bs -> NoDup ((binding_key <$> x_bindings y) ++ (binding_key <$> bs)) ->
  x_binding_count y + zlen bs <= EXCHANGE_BINDINGS_MAX ->
  replay_records (with_exchange r y) (binding_record x <$> bs) =
  Some (with_exchange r (fold_left (fun y b => next_revision (x_revision x) (push_binding (b_queue b) (b_key b) 0 y)) bs y)).
Proof.
  induction bs as [|b bs IH]; intros y A En Hr Hb Nd Hc; [done|]. rewrite fmap_cons. cbn [replay_records].
  apply Forall_cons in Hb as [[B1 B2] Hb]. rewrite fmap_cons in Nd. pose proof Nd as (_ & N2 & _)%NoDup_app. rewrite zlen_cons in Hc. pose proof (zlen_nonneg bs).
  change (apply_queue_record (with_exchange r y) (binding_record x b)) with
    (apply_exbind (with_exchange r y) (x_name x) (x_revision x) (binding_payload (b_queue b) (b_key b)) false).
  rewrite apply_exbind_payload by done. unfold find_exchange at 1. cbn [with_exchange st_exchanges find]. rewrite (proj2 (name_eqb_eq _ _) En).
  rewrite find_binding_none by (intros Hx; apply (N2 _ Hx); left). unfold add_binding_locked. destruct (Z.leb_spec EXCHANGE_BINDINGS_MAX (x_binding_count y)); [lia|].
  rewrite alloc_nil by done. cbn [fst snd]. change {| r with st_exchanges := y :: st_exchanges r |} with (with_exchange r y).
  rewrite (upd_with_exchange r y _ (x_name y) eq_refl), upd_with_exchange by done. cbn [fold_left]. apply IH; [done|by destruct (x_revision x =? 0)|done|done| |].
  - cbn [next_revision push_binding x_bindings]. rewrite fmap_cons. change (binding_key {| b_queue := b_queue b; b_key := b_key b; b_footprint := 0 |}) with (binding_key b).
    eapply NoDup_Permutation_proper in Nd; [exact Nd|]. cbn. by rewrite Permutation_middle.
  - cbn. lia.
Qed.

Lemma bound_again rev0 bs : forall y, 0 < rev0 -> x_revision y = rev0 ->
  fold_left (fun y b => next_revision rev0 (push_binding (b_queue b) (b_key b) 0 y)) bs y =
  {| y with x_bindings := rev ((fun b => {| b_queue := b_queue b; b_key := b_key b; b_footprint := 0 |}) <$> bs) ++ x_bindings y;
            x_binding_count := x_binding_count y + zlen bs |}.
Proof.
  induction bs as [|b bs IH]; intros y Hr Ey; cbn [fold_left]; [destruct y; cbn; f_equal; rewrite zlen_nil; lia|].
  rewrite next_revision_pos by done. rewrite IH by done. rewrite fmap_cons. cbn [rev push_binding x_bindings x_binding_count x_name x_type x_durable x_ae_name x_publish_attempts x_unroutable x_revision].
  rewrite <- app_assoc, zlen_cons. cbn [app]. f_equal; [lia|done].
Qed.

Lemma exchange_replays r x : st_allocs r = [] -> find_exchange r (x_name x) = None -> xshape x ->
  replay_records r (exchange_records x) = Some (with_exchange r (restored_exchange x)).
Proof.
  intros A F S. unfold exchange_records. cbn [replay_records].
  change (apply_queue_record r _) with (apply_exdeclare r (x_name x) (x_durable x) (x_revision x) (exchange_payload x)).
  rewrite exdeclare_replays by done. destruct S as [S1 S2 S3 S4 S5 S6 S7].
  rewrite bindings_replay; [|done|done|lia|done|by cbn|by cbn]. do 2 f_equal. rewrite bound_again by (done || lia).
  unfold restored_exchange, declared_exchange, new_exchange. cbn. by rewrite app_nil_r.
Qed.

Lemma find_exchange_none r name : name ∉ x_name <$> st_exchanges r -> find_exchange r name = None.
Proof.
  intros H. unfold find_exchange. destruct (find _ _) as [x|] eqn:E; [|done]. apply find_some in E as [Hin Hx]. apply name_eqb_eq in Hx. subst name.
  destruct H. apply list_elem_of_fmap_2. by apply list_elem_of_In.
Qed.

Lemma all_exchanges xs : forall r, st_allocs r = [] -> NoDup (x_name <$> xs) -> Forall xshape xs ->
  (forall x, x ∈ xs -> x_name x ∉ x_name <$> st_exchanges r) ->
  replay_records r (concat (exchange_records <$> xs)) = Some {| r with st_exchanges := rev (restored_exchange <$> xs) ++ st_exchanges r |}.
Proof.
  induction xs as [|x xs IH]; intros r A Nd S H; [by destruct r|]. rewrite fmap_cons, NoDup_cons in Nd. destruct Nd as [Hx Nd]. apply Forall_cons in S as [Sx S].
  rewrite fmap_cons. cbn [concat]. rewrite replay_records_app, exchange_replays by (done || apply find_exchange_none, H; left).
  rewrite IH; [|done|done|done|].
  - rewrite fmap_cons. cbn [rev]. rewrite <- app_assoc. done.
  - intros y Hy. cbn [with_exchange st_exchanges]. rewrite fmap_cons, not_elem_of_cons. split; [|apply H; by right]. intros E. apply Hx.
    cbn in E. rewrite <- E. by apply list_elem_of_fmap_2.
Qed.

(** ** Consumers and transactions *)

(** What the last records leave alone. *)
Definition aside (r r' : store) : Prop := st_queues r' = st_queues r /\ st_allocs r' = st_allocs r /\ st_next_lock_id r' = st_next_lock_id r /\
  st_exchanges r' = st_exchanges r.

Lemma all_consumers cs : forall r, st_allocs r = [] -> NoDup (c_name <$> cs) -> (forall c, c ∈ cs -> c_name c ∉ c_name <$> st_consumers r) ->
  exists r', replay_records r (consumer_record <$> cs) = Some r' /\ aside r r' /\ st_consumers r' = rev cs ++ st_consumers r /\
    st_tx_pending r' = st_tx_pending r /\ st_next_id r' = st_next_id r.
Proof.
  induction cs as [|c cs IH]; intros r A Nd H; [by exists r|]. rewrite fmap_cons, NoDup_cons in Nd. destruct Nd as [Hc Nd]. rewrite fmap_cons. cbn [replay_records].
  change (apply_queue_record r (consumer_record c)) with (apply_consumer r (c_name c) (c_owner c)). unfold apply_consumer.
  assert (F : find_consumer r (c_name c) = None).
  { unfold find_consumer. destruct (find _ _) as [x|] eqn:E; [|done]. apply find_some in E as [Hin Hx]. apply name_eqb_eq in Hx.
    destruct (H c ltac:(left)). rewrite <- Hx. apply list_elem_of_fmap_2. by apply list_elem_of_In. }
  rewrite F, alloc_nil by done. replace {| c_name := c_name c; c_owner := c_owner c |} with c by (by destruct c).
  match goal with |- exists r', replay_records ?x _ = _ /\ _ => set (r1 := x) end.
  assert (K : aside r r1 /\ st_consumers r1 = c :: st_consumers r /\ st_tx_pending r1 = st_tx_pending r /\ st_next_id r1 = st_next_id r).
  { unfold r1, aside. cbn [st_next_owner]. by destruct (_ <=? _). }
  clearbody r1. destruct K as ((K1 & K2 & K3 & K4) & K5 & K6 & K7).
  destruct (IH r1) as (r2 & E2 & (L1 & L2 & L3 & L4) & L5 & L6 & L7); [congruence|done| |].
  { intros x Hx. rewrite K5, fmap_cons, not_elem_of_cons. split; [|apply H; by right]. intros E. apply Hc. rewrite <- E. by apply list_elem_of_fmap_2. }
  exists r2. split; [done|]. unfold aside. split_and!; try congruence. rewrite L5, K5. cbn [rev]. by rewrite <- app_assoc.
Qed.

Lemma bump_ids_aside ts : forall r N, ids_fit ts -> st_next_id r <= N -> Forall (fun t => t_msg_id t < N) ts -> fits 64 N ->
  aside r (bump_ids r ts) /\ st_consumers (bump_ids r ts) = st_consumers r /\ st_next_id r <= st_next_id (bump_ids r ts) <= N.
Proof.
  induction ts as [|t ts IH]; intros r N Hi HN Ht Hf; [unfold bump_ids, aside; cbn; split_and!; done || lia|].
  apply Forall_cons in Ht as [Ht Hts]. apply Forall_cons in Hi as [Hi His]. unfold bump_ids in *. cbn [fold_left].
  assert (K : aside r (bump_id r (t_msg_id t)) /\ st_consumers (bump_id r (t_msg_id t)) = st_consumers r /\ st_next_id r <= st_next_id (bump_id r (t_msg_id t)) <= N).
  { unfold bump_id, aside. destruct (Z.leb_spec (st_next_id r) (t_msg_id t)); cbn; [|split_and!; done || lia]. rewrite u64_small by (unfold fits in *; lia). split_and!; done || lia. }
  destruct K as ((K1 & K2 & K3 & K4) & K5 & K6).
  destruct (IH (bump_id r (t_msg_id t)) N His ltac:(lia) Hts Hf) as ((L1 & L2 & L3 & L4) & L5 & L6). unfold aside. split_and!; congruence || lia.
Qed.

(** What the record of a pending transaction needs; [N] bounds identities. *)
Definition pending_ok (N : Z) (tx : queue_tx) : Prop :=
  tx_form tx /\ ids_fit (tx_targets tx) /\ Forall (fun t => t_msg_id t < N) (tx_targets tx).

Lemma all_pending N txs : forall r, st_allocs r = [] -> Forall (pending_ok N) txs -> st_next_id r <= N -> fits 64 N ->
  exists r', replay_records r (tx_record <$> txs) = Some r' /\ aside r r' /\ st_consumers r' = st_consumers r /\
    st_tx_pending r' = rev (replayed <$> txs) ++ st_tx_pending r /\ st_next_id r <= st_next_id r' <= N.
Proof.
  induction txs as [|tx txs IH]; intros r A H HN Hf; [exists r; unfold aside; split_and!; done || lia|].
  apply Forall_cons in H as [(H1 & H2 & H3) H]. rewrite fmap_cons. cbn [replay_records]. change (tx_record tx) with (prepare_record tx).
  rewrite prepare_replays by done. destruct (bump_ids_aside (tx_targets tx) r N H2 HN H3 Hf) as ((K1 & K2 & K3 & K4) & K5 & K6).
  destruct (IH (pend (bump_ids r (tx_targets tx)) (replayed tx))) as (r2 & E2 & (L1 & L2 & L3 & L4) & L5 & L6 & L7).
  { cbn. congruence. } { done. } { cbn. lia. } { done. }
  exists r2. split; [done|]. unfold aside. cbn in L1, L2, L3, L4, L5, L7. split_and!; try congruence; try lia.
  rewrite L6, fmap_cons. cbn [rev]. rewrite <- app_assoc. cbn. by rewrite bump_ids_pending.
Qed.

(** ** The whole file *)

(** What the records of a store need: holds in every run (Snapshot.v). *)
Record snapshot_ok (s : store) : Prop := SnapshotOk {
  sk_wf : wf s;
  sk_fits : fits 64 (st_next_id s);
  sk_queues : Forall declarable (live_queues s);
  sk_msgs : Forall (fun q => Forall replayable (q_msgs q) /\ NoDup (m_id <$> q_msgs q)) (live_queues s);
  sk_ids : Forall (fun q => Forall (fun m => m_id m < st_next_id s) (q_msgs q)) (live_queues s);
  sk_exchanges : NoDup (x_name <$> st_exchanges s) /\ Forall xshape (st_exchanges s);
  sk_consumers : NoDup (c_name <$> st_consumers s);
  sk_pending : Forall (pending_ok (st_next_id s)) (st_tx_pending s) }.

(** No transient queue holds a message. *)
Definition transient_empty (s : store) : Prop := Forall (fun q => q_durable q = true \/ q_msgs q = []) (live_queues s).

(** The store [r] that a checkpoint of [s] is replayed to. *)
Record restored (s r : store) : Prop := Restored {
  ro_wf : wf r;
  ro_allocs : st_allocs r = [];
  ro_queues : forall name, match find_queue s name with
    | Some q => exists rq, find_queue r name = Some rq /\ revived (st_job_enabled s) q rq
    | None => find_queue r name = None
    end;
  ro_exchanges : st_exchanges r = rev (restored_exchange <$> st_exchanges s);
  ro_consumers : st_consumers r = rev (st_consumers s);
  ro_pending : st_tx_pending r = rev (replayed <$> st_tx_pending s);
  ro_next : st_next_id r <= st_next_id s }.

Lemma shift_in_perm q l : shift_in q l ≡ₚ q :: l.
Proof. induction l as [|x l IH]; [done|]. cbn. destruct (_ <? _); [|done]. rewrite IH. apply Permutation_swap. Qed.

Lemma sort_queues_perm qs : sort_queues qs ≡ₚ qs.
Proof.
  unfold sort_queues. rewrite <- Permutation_rev. assert (H : forall l acc, fold_left (fun p q => shift_in q p) l acc ≡ₚ l ++ acc).
  { induction l as [|q l IH]; intros acc; [done|]. cbn [fold_left]. rewrite IH, shift_in_perm. cbn. by rewrite <- Permutation_middle. }
  by rewrite H, app_nil_r.
Qed.

Lemma filter_list_filter {A} (p : A -> bool) (P : A -> Prop) `{forall x, Decision (P x)} l : (forall x, p x = true <-> P x) -> List.filter p l = filter P l.
Proof.
  intros Hp. induction l as [|x l IH]; [done|]. cbn [List.filter]. rewrite filter_cons, IH. destruct (p x) eqn:E.
  - by rewrite decide_True by (by apply Hp).
  - rewrite decide_False; [done|]. intros Hx. apply Hp in Hx. congruence.
Qed.

Lemma checkpointed_perm s : checkpointed_queues s ≡ₚ live_queues s.
Proof.
  unfold checkpointed_queues, live_queues. rewrite (filter_list_filter _ (fun q => q_deleted q = false)) by (intros q; destruct (q_deleted q); done).
  by rewrite sort_queues_perm.
Qed.

Definition plain (r : record) : Prop := job_record (r_op r) = false.

Section Replay.
Context {J : Type} (h : job_hooks J).

Lemma replay_all_plain rs : forall s e s', Forall plain rs -> replay_records s rs = Some s' -> replay_all h s e rs = Some (s', e).
Proof.
  induction rs as [|r rs IH]; intros s e s'; cbn; [by intros _ [= <-]|]. intros [-> Hr]%Forall_cons. destruct (apply_queue_record s r); [by apply IH|done].
Qed.

Lemma plain_replay rs : forall s e s' e', Forall plain rs -> replay_all h s e rs = Some (s', e') -> replay_records s rs = Some s'.
Proof.
  induction rs as [|r rs IH]; intros s e s' e'; cbn; [by intros _ [= <- <-]|]. intros [-> Hr]%Forall_cons. destruct (apply_queue_record s r); [by apply IH|done].
Qed.

Lemma messages_plain q : Forall plain (concat (message_records q <$> q_msgs q)).
Proof.
  apply Forall_concat, Forall_fmap, Forall_forall. intros m _. unfold message_records. constructor; [done|]. apply Forall_app_2.
  - by apply Forall_replicate.
  - destruct (_ && _); by repeat constructor.
Qed.

Lemma routing_plain s : Forall plain (routing_records s ++ (tx_record <$> st_tx_pending s)).
Proof.
  unfold routing_records. repeat apply Forall_app_2.
  - apply Forall_concat, Forall_fmap, Forall_forall. intros x _. constructor; [done|]. apply Forall_fmap, Forall_forall. by intros b _.
  - apply Forall_fmap, Forall_forall. by intros c _.
  - apply Forall_fmap, Forall_forall. by intros tx _.
Qed.

Section Store.
Context (s : store).
Hypothesis K : snapshot_ok s.
Hypothesis Ht : transient_empty s.
Hypothesis Hi : st_job_enabled s = true -> Forall (fun q => 0 < q_incarnation q) (live_queues s).

Lemma queue_records_replay r e : wf r -> st_allocs r = [] -> st_queues r = [] -> st_next_id r <= st_next_id s ->
  exists r', replay_all h r e (queue_records s) = Some (r', e) /\ rebuilt (revived (st_job_enabled s)) (checkpointed_queues s) r r' /\
    st_next_id r' <= st_next_id s.
Proof using K Ht Hi.
  intros W A Q HN. pose proof (checkpointed_perm s) as Hp. set (l := checkpointed_queues s) in *.
  assert (Fl : forall P : queue -> Prop, Forall P (live_queues s) -> Forall P l) by (intros P; by rewrite Hp).
  assert (Nd : NoDup (q_name <$> l)) by (rewrite Hp; apply (wf_names _ (sk_wf _ K))).
  assert (Hd : Forall (fun q => q_deleted q = false) l) by (apply Fl, Forall_forall; intros q Hq; by apply list_elem_of_filter in Hq as [? _]).
  destruct (all_declared h (st_job_enabled s) l r e W A Nd (Fl _ (sk_queues _ K)) Hd) as (r1 & E1 & R1 & N1).
  { intros Hj. by apply Fl, Hi. } { intros q _. unfold find_queue. by rewrite Q. }
  destruct (all_messages (st_job_enabled s) l r1 (rb_wf _ _ _ _ R1) (rb_allocs _ _ _ _ R1) Nd (rb_queues _ _ _ _ R1) (Fl _ Ht) (Fl _ (sk_msgs _ K))) as (r2 & E2 & R2 & X2).
  exists r2. split; [|split].
  - unfold queue_records. fold l. rewrite replay_all_app, E1. apply replay_all_plain; [|exact E2].
    apply Forall_concat, Forall_fmap, Forall_forall. intros q _. apply messages_plain.
  - destruct R1 as [A1 A2 A3 A4 A5 A6], R2 as [B1 B2 B3 B4 B5 B6]. constructor; [done|done|done| |congruence|lia].
    intros n Hn. by rewrite B4, A4 by done.
  - apply X2; [by rewrite N1|by apply Fl, K].
Qed.

(** With a transient message, the replay of the queues stops. *)
Lemma queue_records_blocked r e : wf r -> st_allocs r = [] -> st_queues r = [] -> ~ transient_empty s ->
  exists rs1 x rs2 r1, queue_records s = rs1 ++ x :: rs2 /\ replay_all h r e rs1 = Some (r1, e) /\ plain x /\ apply_queue_record r1 x = None.
Proof using K Hi.
  clear Ht. intros W A Q Hn. pose proof (checkpointed_perm s) as Hp. set (l := checkpointed_queues s) in *.
  assert (Fl : forall P : queue -> Prop, Forall P (live_queues s) -> Forall P l) by (intros P; by rewrite Hp).
  assert (Nd : NoDup (q_name <$> l)) by (rewrite Hp; apply (wf_names _ (sk_wf _ K))).
  assert (Hd : Forall (fun q => q_deleted q = false) l) by (apply Fl, Forall_forall; intros q Hq; by apply list_elem_of_filter in Hq as [? _]).
  destruct (all_declared h (st_job_enabled s) l r e W A Nd (Fl _ (sk_queues _ K)) Hd) as (r1 & E1 & R1 & N1).
  { intros Hj. by apply Fl, Hi. } { intros q _. unfold find_queue. by rewrite Q. }
  destruct (messages_blocked (st_job_enabled s) l r1 (rb_wf _ _ _ _ R1) (rb_allocs _ _ _ _ R1) Nd (rb_queues _ _ _ _ R1)) as (rs1 & x & rs2 & r2 & E2 & E3 & E4).
  { intros H. apply Hn. unfold transient_empty. by rewrite <- Hp. } { by apply Fl, K. }
  assert (Pl : Forall plain (rs1 ++ x :: rs2)) by (rewrite <- E2; apply Forall_concat, Forall_fmap, Forall_forall; intros q _; apply messages_plain).
  apply Forall_app in Pl as [Pl1 [Px _]%Forall_cons].
  exists (concat (declarations (st_job_enabled s) <$> l) ++ rs1), x, rs2, r2. unfold queue_records. fold l. rewrite E2, app_assoc. split; [done|].
  split; [|done]. rewrite replay_all_app, E1. by apply replay_all_plain.
Qed.

Lemma routing_replay r : st_allocs r = [] -> beside r = ([], [], []) -> st_next_id r <= st_next_id s ->
  exists r', replay_records r (routing_records s ++ (tx_record <$> st_tx_pending s)) = Some r' /\
    st_queues r' = st_queues r /\ st_allocs r' = [] /\ st_next_lock_id r' = st_next_lock_id r /\
    beside r' = (rev (restored_exchange <$> st_exchanges s), rev (st_consumers s), rev (replayed <$> st_tx_pending s)) /\
    st_next_id r <= st_next_id r' <= st_next_id s.
Proof using K.
  intros A B HN. unfold beside in B. injection B as B1 B2 B3. unfold routing_records. rewrite replay_records_app, replay_records_app.
  destruct (sk_exchanges _ K) as [X1 X2]. rewrite all_exchanges; [|done|done|done|intros x _; rewrite B1; by apply not_elem_of_nil].
  set (r1 := {| r with st_exchanges := _ |}).
  destruct (all_consumers (st_consumers s) r1 A (sk_consumers _ K)) as (r2 & E2 & (L1 & L2 & L3 & L4) & L5 & L6 & L7).
  { intros c _. cbn. rewrite B2. by apply not_elem_of_nil. }
  rewrite E2. destruct (all_pending (st_next_id s) (st_tx_pending s) r2) as (r3 & E3 & (M1 & M2 & M3 & M4) & M5 & M6 & M7).
  { by rewrite L2. } { apply K. } { by rewrite L7. } { apply K. }
  exists r3. split; [done|]. unfold r1 in *. cbn in L1, L2, L3, L4, L5, L6, L7. unfold beside. rewrite M6, M5, M4, L4, L5, L6, B1, B2, B3, !app_nil_r.
  split_and!; congruence || lia.
Qed.

(** The parts together. *)
Lemma rebuilt_restored r0 r1 r2 : st_queues r0 = [] -> rebuilt (revived (st_job_enabled s)) (checkpointed_queues s) r0 r1 ->
  st_queues r2 = st_queues r1 -> st_allocs r2 = [] -> st_next_lock_id r2 = st_next_lock_id r1 -> st_next_id r2 <= st_next_id s ->
  beside r2 = (rev (restored_exchange <$> st_exchanges s), rev (st_consumers s), rev (replayed <$> st_tx_pending s)) -> restored s r2.
Proof using K.
  intros Q [R1 R2 R3 R4 R5 R6] E1 E2 E3 E4 B. injection B as B1 B2 B3. constructor; try done.
  - eapply wf_same; [exact E1|lia|done].
  - intros name. assert (F : forall n, find_queue r2 n = find_queue r1 n) by (intros n; unfold find_queue; by rewrite E1). rewrite F.
    destruct (find_queue s name) as [q|] eqn:Eq.
    + destruct (find_queue_In s name q Eq) as (_ & _ & <-). apply R3. rewrite checkpointed_perm. by eapply find_queue_live.
    + rewrite R4; [unfold find_queue; by rewrite Q|]. rewrite checkpointed_perm. intros (q & -> & Hq)%list_elem_of_fmap.
      apply list_elem_of_filter in Hq as [Hd Hq]. rewrite (wf_find s q (sk_wf _ K) Hq Hd) in Eq. done.
Qed.

End Store.

End Replay.

End CkptReplay.
