(* ===== verification/Snapshot.v ===== *)
(** * What every run keeps for its checkpoints

    The names, policies, counts and delays of a run are within the bounds of
    the records that a checkpoint writes for them. *)

From stdpp Require Import base numbers option list relations.
From S2P Require Import Prelude Queue QueueIndex WalRecord QueueStore QueueReplay Exchange QueueTx.
From S2P Require Import ExchangeReplay QueueBatch QueueCommit QueueOps ExchangeOps TxOps QueueRun.
From S2P Require Import QueueRecovery QueueOpen Atomic JobEngine Checkpoint JobRecords CheckpointReplay.
Import Queue QueueIndex Wal Store Replay Batch Exchanges XChange Tx XReplay TxReplay Commit Ops XOps TxOps Run Open JobReplay Checkpoint CkptReplay.
Import Recovery.

Module Snapshot.

Record mshape (m : message) : Prop := MShape {
  ms_deliveries : fits 32 (m_deliveries m);
  ms_delay : m_state m = MESSAGE_READY -> fits 64 (m_time m) }.

Definition qshape (q : queue) : Prop := declarable q /\ Forall mshape (q_msgs q).

Record shape (s : store) : Prop := Shape {
  sp_queues : Forall qshape (st_queues s);
  sp_exchanges : Forall xshape (st_exchanges s);
  sp_consumers : NoDup (c_name <$> st_consumers s);
  sp_owners : Forall (fun c => name_ok (c_name c) /\ 0 < c_owner c < 2 ^ 64) (st_consumers s) }.

(** ** Queues *)

Definition keeps_shape (f : queue -> queue) : Prop := forall q, qshape q -> qshape (f q).

Lemma declarable_same q q' : config q' = config q -> declarable q -> declarable q'.
Proof. intros E [D1 D2 D3 D4]. destruct (config_inv _ _ E) as (_ & E2 & _ & _ & E5 & E6 & E7). constructor; rewrite ?E2, ?E5, ?E6, ?E7; done. Qed.

Lemma shape_msgs f : keeps_config f -> (forall q, Forall mshape (q_msgs q) -> Forall mshape (q_msgs (f q))) -> keeps_shape f.
Proof. intros K H q [D M]. split; [by apply (declarable_same q)|by apply H]. Qed.

Lemma shape_on_queue s qid f : keeps_shape f -> Forall qshape (st_queues s) -> Forall qshape (on_queue s qid f).
Proof. intros K H. unfold on_queue. apply Forall_fmap. eapply Forall_impl; [exact H|]. intros q Hq. cbn. destruct (_ =? _); auto. Qed.

Lemma shape_link id e d : keeps_shape (fun q => message_link q (message_create id e d)).
Proof.
  apply shape_msgs; [intros q; apply message_link_config|]. intros q H. cbn [message_link q_msgs]. apply Forall_app_2; [done|]. constructor; [|done].
  unfold linked. destruct (q_durable q); constructor; try done; by intros _.
Qed.

Lemma ready_shape i nb : fits 64 nb -> keeps_shape (fun q => make_ready q i nb).
Proof.
  intros Hn. apply shape_msgs; [intros q; apply make_ready_config|]. intros q M. unfold make_ready. cbn [update_msg q_msgs].
  apply Forall_alter_all; [intros m [D _]; by constructor|]. destruct (tag_index_remove_msgs q i) as [->| ->]; [done|].
  apply Forall_alter_all; [|done]. intros m [D T]. by constructor.
Qed.

Lemma charge_shape i : keeps_shape (fun q => charge_record q i).
Proof.
  apply shape_msgs; [intros q; apply charge_record_config|]. intros q M. destruct (charge_record_msgs q i) as (g & _ & -> & H).
  apply Forall_alter_all; [|done]. intros m [D T]. destruct (H m) as (H1 & H2 & _ & H4). constructor; [by rewrite H2|by rewrite H1, H4].
Qed.

Lemma deliver_shape i dl o t h : keeps_shape (fun q => set_hint (deliver_to true q i dl o t) (h q)).
Proof.
  apply shape_msgs; [intros q; apply deliver_set_config|]. intros q M. rewrite msgs_set_hint. destruct (deliver_to_msgs q i dl o t) as (g & _ & -> & H).
  apply Forall_alter_all; [|done]. intros m [D T]. destruct (H m) as (H1 & H2 & _ & H4). constructor; [rewrite H2; apply u32_fits|by rewrite H1].
Qed.

Lemma remove_shape i : keeps_shape (fun q => remove_message q i).
Proof. apply shape_msgs; [intros q; apply remove_message_config|]. intros q M. rewrite remove_message_msgs. by apply Forall_delete. Qed.

Lemma purge_shape : keeps_shape (fun q => snd (purge_queue_locked q)).
Proof. apply shape_msgs; [intros q; apply purge_config|]. intros q _. rewrite purge_msgs. constructor. Qed.

Lemma tombstone_shape : keeps_shape tombstone.
Proof. intros q H. destruct (purge_shape q H) as [[D1 D2 D3 D4] M]. split; [by constructor|done]. Qed.

Lemma materialize_shape tx ts : forall s, st_allocs s = [] -> Forall qshape (st_queues s) ->
  Forall qshape (st_queues (fold_left (materialize_one tx) ts s)).
Proof.
  induction ts as [|t ts IH]; intros s A H; [done|]. cbn [fold_left]. unfold materialize_one at 2.
  destruct (match t_queue t with Some qid => Some qid | None => _ end) as [qid|]; [|by apply IH].
  rewrite append_message_upd by done. apply IH; [done|]. by apply (shape_on_queue s qid _ (shape_link _ _ _)).
Qed.

(** ** Exchanges and consumers *)

Lemma upd_first_shape name f xs : (forall x, find (fun x => name_eqb (x_name x) name) xs = Some x -> xshape x -> xshape (f x)) ->
  Forall xshape xs -> Forall xshape (upd_first name f xs).
Proof.
  induction xs as [|x xs IH]; intros Hf H; [done|]. apply Forall_cons in H as [Hx H]. cbn in *. destruct (name_eqb (x_name x) name); constructor; auto.
Qed.

Lemma remove_first_shape name xs : Forall xshape xs -> Forall xshape (remove_first name xs).
Proof.
  induction xs as [|x xs IH]; intros H; [done|]. apply Forall_cons in H as [Hx H]. cbn. destruct (name_eqb (x_name x) name); [done|]. constructor; auto.
Qed.

Lemma remove_binding_sub queue key l : sublist (remove_binding queue key l) l.
Proof. induction l as [|b l IH]; [done|]. cbn. destruct (_ && _); [by apply sublist_cons|by apply sublist_skip]. Qed.

Lemma xchange_shape xs xs' rs : xchange xs xs' rs -> Forall xinv xs -> Forall xshape xs -> Forall xshape xs'.
Proof.
  intros C I H. destruct C as [name b|name durable type ae N Ht Ha _|name x queue key F [R1 R2] Nq Nk Fb|name x queue key b F [R1 R2] _ _ _
    |name x ae F [R1 R2] [Na1 Na2] _|name x F]; [| | | | |by apply remove_first_shape].
  - apply upd_first_shape; [|done]. intros x _ []. unfold count_attempt. destruct b; by constructor.
  - constructor; [|done]. constructor; try done; cbn; first [lia | constructor].
  - apply upd_first_shape; [|done]. intros y Fy [Y1 Y2 Y3 Y4 Y5 Y6 Y7]. rewrite F in Fy. injection Fy as <-. rewrite Forall_forall in I.
    pose proof (I x (proj1 (find_name _ _ _ F))) as [_ _ Ic]. constructor; try done; cbn [bind_to push_binding x_revision x_bindings].
    + lia.
    + by constructor.
    + rewrite fmap_cons. apply NoDup_cons. split; [|done]. intros (b & Eb & Hb)%list_elem_of_fmap. injection Eb as -> ->.
      unfold find_binding in Fb. apply list_elem_of_In in Hb. pose proof (find_none _ _ Fb b Hb) as Hn. cbn in Hn. by rewrite !(proj2 (name_eqb_eq _ _) eq_refl) in Hn.
    + rewrite zlen_cons. lia.
  - apply upd_first_shape; [|done]. intros y Fy [Y1 Y2 Y3 Y4 Y5 Y6 Y7]. rewrite F in Fy. injection Fy as <-. pose proof (remove_binding_sub queue key (x_bindings x)) as Sb.
    constructor; try done; cbn [unbind_from x_revision x_bindings].
    + lia.
    + apply Forall_forall. intros c Hc. rewrite Forall_forall in Y5. apply Y5. by eapply elem_of_sublist.
    + eapply sublist_NoDup; [exact Y6|]. by apply fmap_sublist.
    + apply sublist_length in Sb. unfold zlen in *. lia.
  - apply upd_first_shape; [|done]. intros y Fy [Y1 Y2 Y3 Y4 Y5 Y6 Y7]. rewrite F in Fy. injection Fy as <-. constructor; try done; cbn [set_alternate x_revision x_ae_name].
    + split; [done|]. unfold EXCHANGE_NAME_MAX, QUEUE_NAME_MAX in *. lia.
    + lia.
Qed.

Lemma remove_consumer_sub name cs : sublist (remove_consumer name cs) cs.
Proof. induction cs as [|c cs IH]; [done|]. cbn. destruct (name_eqb _ _); [by apply sublist_cons|by apply sublist_skip]. Qed.

Lemma find_consumer_absent s name : find_consumer s name = None -> name ∉ c_name <$> st_consumers s.
Proof.
  intros F (c & -> & Hc)%list_elem_of_fmap. unfold find_consumer in F. apply list_elem_of_In in Hc. pose proof (find_none _ _ F c Hc) as Hn. cbn in Hn.
  by rewrite (proj2 (name_eqb_eq _ _) eq_refl) in Hn.
Qed.

(** ** Every commit *)

Lemma evolve_shape s s' qs rs : evolve s s' qs rs -> shape s -> Forall qshape qs -> shape s'.
Proof. intros [] [] H. constructor; by rewrite ?ev_queues0, ?ev_exchanges0, ?ev_consumers0. Qed.

Lemma store_commit_shape T p s s' : commit T p s s' -> sinv s -> shape s -> shape s'.
Proof.
  intros C I H. pose proof (sp_queues _ H) as Q.
  destruct C as [E|qid q id e d L ? ? ? ? ? E|qid q i m L ? E|qid q i m L ? Hx E
    |qid q i m L ? ? E|qid q i m nb L Em ? ? E|qid q i m dl o tag h L ? ? ? ? ? E
    |qid q h L Hh E|qid q d L ? E|qid q L E|qid q ? L E
    |cname durable max dlq maxd inc ? ? Hd ? ? ? E|cname o ? ? F E|cname ? E|xs rs X E
    |tx ? Hfm Hn Hb E|tx ? Hfm Hn Hb Hp Hd E]; try (eapply evolve_shape; [exact E|exact H|]; first [exact Q | apply shape_on_queue; [|exact Q]]).
  - apply shape_link.
  - apply remove_shape.
  - apply remove_shape.
  - by apply ready_shape.
  - intros x Hx. apply charge_shape. by apply ready_shape.
  - apply deliver_shape.
  - apply shape_msgs; [intros x; apply set_hint_config|done].
  - apply shape_msgs; [intros x; apply earliest_config|done].
  - apply purge_shape.
  - apply tombstone_shape.
  - eapply evolve_shape; [exact E|exact H|]. constructor; [|exact Q]. split; [|constructor]. constructor; try done.
    + destruct Hd as [[-> ->]|[Hn Hne]]; [by left|by right].
    + cbn. by destruct (zlen dlq =? 0).
  - eapply evolve_shape; [exact E| |exact Q]. destruct H as [Y1 Y2 Y3 Y4]. constructor; cbn; try done.
    + apply NoDup_cons. split; [|done]. by apply find_consumer_absent.
    + by constructor.
  - eapply evolve_shape; [exact E| |exact Q]. destruct H as [Y1 Y2 Y3 Y4]. pose proof (remove_consumer_sub cname (st_consumers s)) as Sb. constructor; cbn; try done.
    + eapply sublist_NoDup; [exact Y3|]. by apply fmap_sublist.
    + apply Forall_forall. intros c Hc. rewrite Forall_forall in Y4. apply Y4. by eapply elem_of_sublist.
  - eapply evolve_shape; [exact E| |exact Q]. destruct H as [Y1 Y2 Y3 Y4]. constructor; cbn; try done. eapply xchange_shape; [exact X|apply I|done].
  - eapply evolve_shape; [exact E|exact H|]. apply materialize_shape; [apply I|done].
Qed.

Lemma commits_shape T p s s' : rtc (commit T p) s s' -> sinv s -> shape s -> shape s'.
Proof. induction 1 as [|a b c C _ IH]; intros I H; [done|]. apply IH; [by eapply commit_sinv|by eapply store_commit_shape]. Qed.

Lemma steps_shape T s s' : rtc (step T) s s' -> inv s -> xrooms s -> shape s -> shape s'.
Proof.
  induction 1 as [|a b c C _ IH]; intros I X H; [done|]. destruct (step_inv _ _ _ C I X) as [Ib Xb]. apply IH; [done..|].
  destruct C as [c' Hc]. eapply commits_shape; [by eapply call_commits|apply I|done].
Qed.

Lemma open_shape job ios locks : shape (open_store job ios locks).
Proof. constructor; constructor. Qed.

Lemma reachable_shape T s : reachable T s -> shape s.
Proof. intros (j & ios & locks & R). eapply steps_shape; [exact R|apply open_inv|apply open_inv|apply open_shape]. Qed.

(** What a checkpoint needs, from the invariants. *)
Lemma shape_snapshot s : sinv s -> shape s -> fits 64 (st_next_id s) -> Forall (pending_ok (st_next_id s)) (st_tx_pending s) -> snapshot_ok s.
Proof.
  intros I [H1 H2 H3 _] Hf Hp. pose proof (si_queues _ I) as Q.
  assert (Lv : forall P : queue -> Prop, Forall P (st_queues s) -> Forall P (live_queues s)) by (intros P H; apply Forall_forall; intros q [_ Hq]%list_elem_of_filter; rewrite Forall_forall in H; auto).
  constructor; try done; [apply I|..].
  - eapply Lv, Forall_impl; [exact H1|]. by intros q [? _].
  - apply Lv, Forall_forall. intros q Hq. rewrite Forall_forall in H1, Q. destruct (H1 q Hq) as [_ Hm]. pose proof (qi_id_lt _ _ _ (Q q Hq)) as L. split; [|apply (Q q Hq)].
    apply Forall_forall. intros m Hm'. rewrite Forall_forall in Hm, L. destruct (Hm m Hm'). specialize (L m Hm'). constructor; [|done]. unfold fits in *. lia.
  - eapply Lv, Forall_impl; [exact Q|]. intros q Hq. eapply Forall_impl; [apply (qi_id_lt _ _ _ Hq)|]. cbn. lia.
  - split; [apply I|done].
Qed.

(** ** The records can be read *)

Lemma declare_loggable q : declarable q -> loggable (declare_record q).
Proof. intros [D1 D2 D3 D4]. apply declare_record_ok; [done|done|]. destruct D2 as [[-> _]|[? _]]; auto. Qed.

Lemma message_loggable nid ntag q m : name_ok (q_name q) -> qinv nid ntag q -> fits 64 nid -> m ∈ q_msgs q -> mshape m -> Forall loggable (message_records q m).
Proof.
  intros Hn Q Hf Hm [M1 M2]. pose proof (proj1 (Forall_forall _ _) (qi_id_lt _ _ _ Q) m Hm) as L1. pose proof (proj1 (Forall_forall _ _) (qi_expires _ _ _ Q) m Hm) as L2.
  pose proof (proj1 (Forall_forall _ _) (qi_data _ _ _ Q) m Hm) as L3. cbn in L1, L2, L3.
  assert (Fi : fits 64 (m_id m)) by (unfold fits in *; lia). unfold message_records. constructor; [by apply publish_record_ok|]. apply Forall_app_2.
  - apply Forall_replicate. apply plain_record_ok; done.
  - destruct (is_inflight m) eqn:Ei; cbn [negb andb]; [constructor|]. destruct (m_time m =? 0); cbn [negb]; constructor; [|constructor].
    apply plain_record_ok; try done. apply M2. unfold is_inflight in Ei. by destruct (m_state m).
Qed.

Lemma exchange_loggable x : xshape x -> Forall loggable (exchange_records x).
Proof.
  intros [X1 X2 X3 X4 X5 X6 X7]. unfold exchange_records. assert (Fr : fits 64 (x_revision x)) by (unfold fits; lia). constructor.
  - assert (P : bytes_ok (exchange_payload x) /\ zlen (exchange_payload x) <= 1000).
    { destruct X3 as [B L]. unfold exchange_payload, EXCHANGE_NAME_MAX in *. split; [constructor; [apply u8_byte|apply Forall_app_2; [apply put16_bytes|done]]|].
      rewrite !zlen_app, put16_zlen, zlen_cons, zlen_nil. lia. }
    destruct (exchange_record_ok LOG_EXDECLARE (x_name x) (x_revision x) (exchange_payload x)) as [R _]; [by left|done|done|apply P|apply P|]. split; [exact R|done].
  - apply Forall_fmap. eapply Forall_impl; [exact X5|]. intros b [B1 B2]. destruct (binding_payload_ok _ _ B1 B2). apply exchange_record_ok; auto.
Qed.

Lemma routing_loggable s : shape s -> Forall (pending_ok (st_next_id s)) (st_tx_pending s) ->
  Forall loggable (routing_records s ++ (tx_record <$> st_tx_pending s)).
Proof.
  intros [H1 H2 H3 H4] Hp. unfold routing_records. repeat apply Forall_app_2.
  - apply Forall_concat, Forall_fmap. eapply Forall_impl; [exact H2|]. apply exchange_loggable.
  - apply Forall_fmap. eapply Forall_impl; [exact H4|]. intros c [C1 C2]. by apply consumer_record_ok.
  - apply Forall_fmap. eapply Forall_impl; [exact Hp|]. intros tx (T1 & _). by apply (tx_records_ok tx).
Qed.

Lemma checkpointed_in s q : q ∈ checkpointed_queues s -> q ∈ st_queues s.
Proof. rewrite checkpointed_perm. by intros [_ ?]%list_elem_of_filter. Qed.

Lemma messages_loggable s : sinv s -> shape s -> fits 64 (st_next_id s) ->
  Forall loggable (concat ((fun q => concat (message_records q <$> q_msgs q)) <$> checkpointed_queues s)).
Proof.
  intros I H Hf. apply Forall_concat, Forall_fmap, Forall_forall. intros q Hq%checkpointed_in. apply Forall_concat, Forall_fmap, Forall_forall. intros m Hm.
  pose proof (si_queues _ I) as Q. pose proof (sp_queues _ H) as S. rewrite Forall_forall in Q, S. destruct (S q Hq) as [[D1 _ _ _] M]. rewrite Forall_forall in M.
  eapply message_loggable; [done|by apply Q|done|done|by apply M].
Qed.

End Snapshot.
