(* ===== verification/JobRecovery.v ===== *)
(** * Recovery of the job engine

    The hooks of replay on the engine, and runs of the job engine together
    with the queue store: the log of a run replays to the same state and at
    least the receipts that have not been collected. *)

From stdpp Require Import base numbers option list relations.
From S2P Require Import Prelude Sha256 Queue QueueIndex WalRecord QueueStore QueueReplay Exchange QueueTx.
From S2P Require Import ExchangeReplay QueueBatch QueueCommit QueueOps ExchangeOps TxOps QueueRun.
From S2P Require Import QueueRecovery QueueOpen Atomic JobEngine JobCompletion JobTable JobSpec JobComplete.
From S2P Require Import JobQueues JobRecords.
Import Sha256 JobDigest Queue QueueIndex Wal Store Replay Batch JobEngine JobCompletion JobTable JobSpec JobComplete JobRecords JobReplay.

Module JobRecovery.

(** ** The hooks *)

Definition set_marks (e : engine) (v c : Z) : engine := {| e with en_version := v; en_commit := c |}.

Lemma raise_marks e v c : raise_commit (raise_version e v) c = set_marks e (Z.max (en_version e) v) (Z.max (en_commit e) c).
Proof.
  unfold raise_commit, raise_version, set_marks.
  destruct (Z.ltb_spec (en_version e) v); cbn [en_commit en_version]; destruct (Z.ltb_spec (en_commit e) c);
    destruct e; cbn in *; f_equal; lia.
Qed.

Lemma jalloc_nil e : en_allocs e = [] -> jalloc e = (true, e).
Proof. intros A. unfold jalloc. rewrite A. cbn. by destruct e; cbn in *; subst. Qed.

(** The put of replay, when memory suffices. *)
Definition put_entry (e : engine) (key value : bytes) (version commit : Z) : engine :=
  match sget e key with
  | Some x =>
      let e := set_entry e key value version commit in
      {| e with en_bytes := u64 (u64 (en_bytes e - zlen (e_value x)) + zlen value) |}
  | None => entry_link_locked e (JEntry key value version commit)
  end.

Lemma put_nil e key value version commit : en_allocs e = [] ->
  job_state_apply_put_locked e key value version commit = (true, put_entry e key value version commit).
Proof.
  intros A. unfold job_state_apply_put_locked, put_entry. destruct (sget e key); [by rewrite jalloc_nil|].
  unfold entry_create. rewrite !jalloc_nil by done. done.
Qed.

Lemma put_marks e key value version commit a b :
  put_entry (set_marks e a b) key value version commit = set_marks (put_entry e key value version commit) a b.
Proof. unfold put_entry. change (sget (set_marks e a b) key) with (sget e key). by destruct (sget e key). Qed.

Lemma delete_marks e key a b : job_state_apply_delete_locked (set_marks e a b) key = set_marks (job_state_apply_delete_locked e key) a b.
Proof. unfold job_state_apply_delete_locked. change (sget (set_marks e a b) key) with (sget e key). by destruct (sget e key). Qed.

Lemma insert_nil e kind op digest commit version i im o om completed expires : en_allocs e = [] -> rget e op = None ->
  fits 16 (zlen i) -> fits 16 (zlen o) ->
  job_receipt_insert_locked e kind op digest commit version i im o om completed expires =
  (0, push_receipt e (receipt_of kind op digest commit version i im o om completed expires)).
Proof.
  intros A N Hi Ho. unfold job_receipt_insert_locked, receipt_create. rewrite N, jalloc_nil by done. cbn [negb].
  assert (D : forall n, fits 16 (zlen n) -> dup_name e n = (Some n, e)).
  { intros n Hn. unfold dup_name. destruct (Z.eqb_spec (zlen n) 0); [by destruct n|]. rewrite u16_small by done.
    destruct (Z.eqb_spec (zlen n) 0); [done|]. rewrite jalloc_nil by done. do 2 f_equal. apply firstn_all2. unfold zlen. lia. }
  by rewrite !D.
Qed.

(** The effect of a record on the engine: an entry, a receipt and the marks. *)
Record applied (key : bytes) (v : option jentry) (r : jreceipt) (e e' : engine) : Prop := Applied {
  ap_ok : engine_ok e';
  ap_allocs : en_allocs e' = [];
  ap_state : forall k, sget e' k = if decide (key = k) then v else sget e k;
  ap_receipt : forall op, rget e' op = if decide (jr_op r = op) then Some r else rget e op;
  ap_version : en_version e' = Z.max (en_version e) (jr_version r);
  ap_commit : en_commit e' = Z.max (en_commit e) (jr_commit r);
  ap_id : en_store_id e' = en_store_id e /\ en_id_set e' = en_id_set e /\ en_cfg e' = en_cfg e }.

Lemma marks_ok e v c : engine_ok e -> en_version e <= v <= UINT64_MAX -> en_commit e <= c <= UINT64_MAX -> engine_ok (set_marks e v c).
Proof.
  intros [H1 H2 H3 H4 H5 H6 H7 H8 H9 H10 H11 H12 H13] Hv Hc. constructor; try done; cbn [set_marks en_version en_commit]; [lia| |].
  - intros k x Hx. specialize (H12 k x Hx). lia.
  - intros k x Hx. specialize (H13 k x Hx). lia.
Qed.

(** The state changes after the marks are raised; the source raises them in
    between. *)
Lemma apply_commit e key v r e1 : engine_ok e -> en_allocs e = [] -> rget e (jr_op r) = None ->
  0 < jr_version r <= UINT64_MAX -> 0 < jr_commit r <= UINT64_MAX ->
  let em := set_marks e (Z.max (en_version e) (jr_version r)) (Z.max (en_commit e) (jr_commit r)) in
  engine_ok e1 -> en_allocs e1 = [] -> sets_state key v em e1 -> applied key v r e (push_receipt e1 r).
Proof.
  intros O A N Hv Hc em O1 A1 S. assert (P : forall {X} (f : engine -> X), (forall x, f (stateless x) = f x) -> f e1 = f em) by (intros X f Hf; by apply (sets_proj key v)).
  destruct (push_spec e1 r O1) as [O2 [B G]].
  { by rewrite (sets_receipts _ _ _ _ S). }
  { rewrite (P _ en_version ltac:(done)). unfold em. cbn [set_marks en_version]. lia. }
  { rewrite (P _ en_commit ltac:(done)). unfold em. cbn [set_marks en_commit]. lia. }
  constructor; try done.
  - intros k. change (sget (push_receipt e1 r) k) with (sget e1 k). by rewrite (ss_get _ _ _ _ S).
  - intros op. rewrite G. destruct (decide _); [done|]. by rewrite (sets_receipts _ _ _ _ S).
  - change (en_version e1 = Z.max (en_version e) (jr_version r)). by rewrite (P _ en_version ltac:(done)).
  - change (en_commit e1 = Z.max (en_commit e) (jr_commit r)). by rewrite (P _ en_commit ltac:(done)).
  - split_and!; [exact (P _ en_store_id ltac:(done))|exact (P _ en_id_set ltac:(done))|exact (P _ en_cfg ltac:(done))].
Qed.

Lemma put_entry_spec e key value version commit : engine_ok e -> en_allocs e = [] -> 0 < version <= en_version e -> 0 < commit <= en_commit e ->
  engine_ok (put_entry e key value version commit) /\
  sets_state key (Some (JEntry key value version commit)) e (put_entry e key value version commit).
Proof. intros O A Hv Hc. pose proof (apply_put_spec e key value version commit O Hv Hc) as K. by rewrite put_nil in K. Qed.

Lemma put_entry_allocs e key value version commit : en_allocs (put_entry e key value version commit) = en_allocs e.
Proof. unfold put_entry. by destruct (sget e key). Qed.

Lemma delete_allocs e key : en_allocs (job_state_apply_delete_locked e key) = en_allocs e.
Proof. unfold job_state_apply_delete_locked. by destruct (sget e key). Qed.

Lemma put_entry_receipts e key value version commit op : rget (put_entry e key value version commit) op = rget e op.
Proof. unfold put_entry. by destruct (sget e key). Qed.

Lemma delete_receipts e key op : rget (job_state_apply_delete_locked e key) op = rget e op.
Proof. unfold job_state_apply_delete_locked. by destruct (sget e key). Qed.

Definition replayed_receipt (store_id : bytes) (m : state_mutation) : jreceipt :=
  receipt_of (sm_kind m) (sm_op_id m)
    (mutation_digest store_id (sm_kind m =? JOB_KIND_STATE_PUT) (sm_key m) (sm_value m) (sm_expected m) (sm_op_id m))
    (sm_commit m) (sm_version m) [] 0 [] 0 (sm_completed m) (sm_expires m).

Lemma hook_state_spec e m : engine_ok e -> en_allocs e = [] -> rget e (sm_op_id m) = None ->
  sm_kind m = JOB_KIND_STATE_PUT \/ sm_kind m = JOB_KIND_STATE_DELETE -> sm_expires m <> 0 ->
  0 < sm_version m <= UINT64_MAX -> 0 < sm_commit m <= UINT64_MAX ->
  exists e', hook_state_apply e m = Some e' /\
    applied (sm_key m) (entry_of (sm_kind m =? JOB_KIND_STATE_PUT) (sm_key m) (sm_value m) (sm_version m) (sm_commit m))
      (replayed_receipt (en_store_id e) m) e e'.
Proof.
  intros O A N K X Hv Hc. unfold hook_state_apply.
  change (job_canonical_digest _) with (mutation_digest (en_store_id e) (sm_kind m =? JOB_KIND_STATE_PUT) (sm_key m) (sm_value m) (sm_expected m) (sm_op_id m)).
  assert (Kb : u8 (sm_kind m) = sm_kind m) by (by destruct K as [->| ->]). pose proof (eo_hwm _ O) as [V C].
  set (em := set_marks e (Z.max (en_version e) (sm_version m)) (Z.max (en_commit e) (sm_commit m))).
  assert (Om : engine_ok em) by (apply marks_ok; [done|lia..]).
  destruct (sm_kind m =? JOB_KIND_STATE_PUT) eqn:Ek.
  - rewrite put_nil by done. cbn [negb]. rewrite raise_marks. replace (en_version (put_entry e _ _ _ _)) with (en_version e) by (unfold put_entry; by destruct (sget e (sm_key m))).
    replace (en_commit (put_entry e _ _ _ _)) with (en_commit e) by (unfold put_entry; by destruct (sget e (sm_key m))).
    rewrite <- put_marks. fold em. destruct (Z.eqb_spec (sm_expires m) 0); [done|].
    rewrite insert_nil; [|by rewrite put_entry_allocs|by rewrite put_entry_receipts|done|done]. eexists. split; [done|]. rewrite Kb.
    unfold replayed_receipt. rewrite Ek. apply (apply_commit e); try done; [..|by rewrite put_entry_allocs|];
      apply put_entry_spec; try done; unfold em; cbn [set_marks en_version en_commit]; lia.
  - cbn [negb]. rewrite raise_marks. replace (en_version (job_state_apply_delete_locked e _)) with (en_version e) by (unfold job_state_apply_delete_locked; by destruct (sget e (sm_key m))).
    replace (en_commit (job_state_apply_delete_locked e _)) with (en_commit e) by (unfold job_state_apply_delete_locked; by destruct (sget e (sm_key m))).
    rewrite <- delete_marks. fold em. destruct (Z.eqb_spec (sm_expires m) 0); [done|].
    rewrite insert_nil; [|by rewrite delete_allocs|by rewrite delete_receipts|done|done]. eexists. split; [done|]. rewrite Kb.
    unfold replayed_receipt. rewrite Ek. apply (apply_commit e); try done; [..|by rewrite delete_allocs|]; by apply apply_delete_spec.
Qed.

Definition completion_receipt (store_id : bytes) (c : completion) : jreceipt :=
  receipt_of JOB_KIND_COMPLETION (cp_op_id c) (completion_digest store_id c) (cp_commit c) (cp_version c) (cp_in_name c) (cp_in_msg_id c)
    (match cp_out c with Some (n, _, _, _) => n | None => [] end) (match cp_out c with Some (_, _, id, _) => id | None => 0 end)
    (cp_completed c) (cp_expires c).

Lemma hook_completion_spec e c : engine_ok e -> en_allocs e = [] -> rget e (cp_op_id c) = None ->
  fits 16 (zlen (cp_in_name c)) -> fits 16 (zlen (match cp_out c with Some (n, _, _, _) => n | None => [] end)) ->
  0 < cp_version c <= UINT64_MAX -> 0 < cp_commit c <= UINT64_MAX ->
  exists e', hook_completion_apply e c = Some e' /\
    applied (cp_key c) (Some (JEntry (cp_key c) (cp_value c) (cp_version c) (cp_commit c))) (completion_receipt (en_store_id e) c) e e'.
Proof.
  intros O A N Hi Ho Hv Hc. unfold hook_completion_apply. pose proof (eo_hwm _ O) as [V C].
  set (em := set_marks e (Z.max (en_version e) (cp_version c)) (Z.max (en_commit e) (cp_commit c))).
  assert (Om : engine_ok em) by (apply marks_ok; [done|lia..]). rewrite put_nil by done. cbn [negb]. rewrite raise_marks.
  replace (en_version (put_entry e _ _ _ _)) with (en_version e) by (unfold put_entry; by destruct (sget e (cp_key c))).
  replace (en_commit (put_entry e _ _ _ _)) with (en_commit e) by (unfold put_entry; by destruct (sget e (cp_key c))).
  rewrite <- put_marks. fold em.
  assert (Eo : exists on om, (match cp_out c with Some (n, _, id, _) => (n, id) | None => ([], 0) end) = (on, om) /\
    on = (match cp_out c with Some (n, _, _, _) => n | None => [] end) /\ om = (match cp_out c with Some (_, _, id, _) => id | None => 0 end))
    by (destruct (cp_out c) as [[[[n k] id] d]|]; eauto).
  destruct Eo as (on & om & -> & Eon & Eom). rewrite <- Eon in Ho.
  rewrite insert_nil; [|by rewrite put_entry_allocs|by rewrite put_entry_receipts|done|done]. eexists. split; [done|].
  unfold completion_receipt. rewrite <- Eon, <- Eom. apply (apply_commit e); try done; [..|by rewrite put_entry_allocs|];
    apply put_entry_spec; try done; unfold em; cbn [set_marks en_version en_commit]; lia.
Qed.

(** ** The recovered engine *)

(** The operation a record of the log commits. *)
Definition job_op (r : record) : option bytes :=
  if r_op r =? LOG_JOB_STATE then sm_op_id <$> job_parse_state (r_data r) (r_id r) (r_aux r)
  else if r_op r =? LOG_JOB_COMPLETION then cp_op_id <$> job_parse_completion (r_name r) (r_id r) (r_aux r) (r_data r)
  else None.

Definition job_ops (rs : list record) : list bytes := omap job_op rs.

(** [er] is what the log of the run knows of [e]. *)
Record erecovered (log : list record) (e er : engine) : Prop := ERecovered {
  rv_ok : engine_ok er;
  rv_allocs : en_allocs er = [];
  rv_state : forall k, sget er k = sget e k;
  rv_receipts : forall op r, rget e op = Some r -> rget er op = Some r;
  rv_ops : forall op r, rget er op = Some r -> op ∈ job_ops log;
  rv_version : en_version er <= en_version e;
  rv_commit : en_commit er <= en_commit e;
  rv_id : en_id_set er = en_id_set e;
  rv_store_id : en_id_set e = true -> en_store_id er = en_store_id e;
  rv_cfg : en_cfg er = en_cfg e }.

Lemma idle_recovered now log log' e e' er : idle now e e' -> (forall op, op ∈ job_ops log -> op ∈ job_ops log') ->
  erecovered log e er -> erecovered log' e' er.
Proof.
  intros I L [H1 H2 H3 H4 H5 H6 H7 H8 H9 H10]. constructor; try done.
  - intros k. by rewrite (idle_state now e e').
  - intros op r Hr. apply H4. by apply (il_sub now e e').
  - intros op r Hr. apply L. by eapply H5.
  - pose proof (il_version _ _ _ I). lia.
  - pose proof (il_commit _ _ _ I). lia.
  - by rewrite (idle_proj now en_id_set e e' ltac:(done) I).
  - by rewrite (idle_proj now en_id_set e e' ltac:(done) I), (idle_proj now en_store_id e e' ltac:(done) I).
  - by rewrite (idle_proj now en_cfg e e' ltac:(done) I).
Qed.

(** A committed operation, on both sides. *)
Lemma commit_recovered now log r key v rec e e1 e' er er' : collected now e e1 -> commits key v rec e1 e' -> applied key v rec er er' ->
  job_op r = Some (jr_op rec) -> erecovered log e er -> erecovered (log ++ [r]) e' er'.
Proof.
  intros C Cm [P1 P2 P3 P4 P5 P6 (P7 & P8 & P9)] J [H1 H2 H3 H4 H5 H6 H7 H8 H9 H10]. destruct (cm_same _ _ _ _ _ Cm) as (S1 & S2 & _ & S4 & _).
  destruct (cm_version _ _ _ _ _ Cm) as [V1 V2], (cm_commit _ _ _ _ _ Cm) as [W1 W2].
  rewrite (collected_proj now en_version e e1 ltac:(done) C) in V1, V2. rewrite (collected_proj now en_commit e e1 ltac:(done) C) in W1, W2.
  rewrite (collected_proj now en_store_id e e1 ltac:(done) C) in S1. rewrite (collected_proj now en_id_set e e1 ltac:(done) C) in S2.
  rewrite (collected_proj now en_cfg e e1 ltac:(done) C) in S4. constructor; try done.
  - intros k. rewrite P3, (cm_state _ _ _ _ _ Cm). destruct (decide _); [done|]. by rewrite (collected_state now e e1).
  - intros op x. rewrite (cm_receipt _ _ _ _ _ Cm), P4. destruct (decide _); [done|]. intros Hx. apply H4. by apply (cl_sub now e e1).
  - intros op x. rewrite P4. unfold job_ops. rewrite omap_app. cbn. rewrite J. destruct (decide (jr_op rec = op)) as [<-|].
    + intros _. apply elem_of_app. right. by left.
    + intros Hx. apply elem_of_app. left. by eapply H5.
  - lia.
  - lia.
  - congruence.
  - intros Hi. rewrite P7, S1. apply H9. congruence.
  - congruence.
Qed.

End JobRecovery.
