(* ===== verification/JobRun.v ===== *)
(** * Runs of the job engine with its queue store

    The calls of the job engine and of the queue store, one after the other,
    and what holds after each: the invariants of both, and that the log
    replays to the durable state of both. *)

From stdpp Require Import base numbers option list relations.
From S2P Require Import Prelude Sha256 Queue QueueIndex WalRecord QueueStore QueueReplay Exchange QueueTx.
From S2P Require Import ExchangeReplay QueueBatch QueueCommit QueueOps ExchangeOps TxOps QueueRun.
From S2P Require Import QueueRecovery QueueOpen Atomic JobEngine JobCompletion JobTable JobSpec JobComplete.
From S2P Require Import JobQueues JobRecords JobRecovery.
Import Sha256 JobDigest Queue QueueIndex Wal Store Replay Batch Commit Ops XOps TxOps Run Recovery(recovered, recovered_frame, replays, commit_replays, loggable, name_ok_tests).
Import Open JobEngine JobCompletion JobTable JobSpec JobComplete JobQueues JobRecords JobReplay JobRecovery.

Module JobRun.

Inductive jcall :=
  | JQueue (c : call)
  | JAttach (fresh : option bytes)
  | JPut (key value : bytes) (expected : Z) (op : bytes) (now : Z)
  | JDelete (key : bytes) (expected : Z) (op : bytes) (now : Z)
  | JConsume (queue consumer : bytes) (visibility : Z) (proof : option bytes) (t : consume_clock)
  | JComplete (q : job_request) (t : clock)
  | JCollect (now : Z).

Definition run_job (e : engine) (s : store) (c : jcall) : engine * store :=
  match c with
  | JQueue c => (e, run_call s c)
  | JAttach fresh => let '(_, e, s) := job_engine_attach e s fresh in (e, s)
  | JPut key value expected op now => let '(_, e, s) := job_state_put e s key value expected op now in (e, s)
  | JDelete key expected op now => let '(_, e, s) := job_state_delete e s key expected op now in (e, s)
  | JConsume queue consumer vis proof t => let '(_, e, s) := job_consume e s queue consumer vis proof t in (e, s)
  | JComplete q t => let '(_, e, s) := job_complete e s q t in (e, s)
  | JCollect now => let '(_, e) := job_receipt_gc e now in (e, s)
  end.

(** An operation id whose receipt has been collected is not used again. *)
Definition unused (e : engine) (s : store) (op : bytes) : Prop := op ∈ job_ops (st_log s) -> rget e op <> None.

(** Limits that the clock and the log impose on the configuration. *)
Record cfg_ok (T : Z) (c : jconfig) : Prop := CfgOk {
  co_retention : 0 < cf_retention c;
  co_clock : T + cf_retention c < 2 ^ 64;
  co_size : cf_max_op c + 21 <= QUEUE_MESSAGE_MAX }.

Record mutation_ok (T : Z) (key value : bytes) (expected : Z) (op : bytes) (now : Z) : Prop := MutationOk {
  mo_bytes : bytes_ok key /\ bytes_ok value /\ bytes_ok op;
  mo_op : zlen op = 16;
  mo_expected : fits 64 expected;
  mo_now : 0 <= now <= T }.

(** Arguments have their C types, wall-clock readings are at most [T], random
    proofs do not collide. *)
Definition jcall_ok (T : Z) (e : engine) (s : store) (c : jcall) : Prop :=
  match c with
  | JQueue c => call_ok T c
  | JAttach fresh => match fresh with Some id => zlen id = 16 /\ bytes_ok id | None => True end
  | JPut key value expected op now => mutation_ok T key value expected op now /\ unused e s op
  | JDelete key expected op now => mutation_ok T key [] expected op now /\ unused e s op
  | JConsume _ _ _ proof t => cc_now t <= T /\ match proof with Some p => pget e p = None | None => True end
  | JComplete q t => submission_ok q /\ 0 <= ck_now t <= T /\ unused e s (jq_op q)
  | JCollect _ => True
  end.

Definition transacts (c : jcall) : bool := match c with JQueue c => is_transact c | _ => false end.

(** One call; the queues stay within the conditions of their own runs. *)
Inductive jstep (T : Z) (y y' : engine * store) : Prop :=
  | jstep_call c : jcall_ok T y.1 y.2 c -> run_job y.1 y.2 c = y' ->
      policy y'.2 -> xrooms y'.2 -> (transacts c = true -> within_capacity y'.2) -> jstep T y y'.

(** ** What holds after each call *)

Abbreviation hooks := job_engine_replay_hooks.

Definition jrecoverable (T : Z) (e0 e : engine) (s : store) : Prop := st_failed s = false ->
  Forall readable (st_log s) /\ exists r er, replay_all hooks (empty_store true true [] [] []) e0 (st_log s) = Some (r, er) /\
    recovered T s r /\ erecovered (st_log s) e er.

Record jinv (T : Z) (e0 e : engine) (s : store) : Prop := JInv {
  ji_engine : engine_ok e;
  ji_store : inv s;
  ji_rooms : xrooms s;
  ji_open : st_log_open s = true;
  ji_attached : en_attached e = true -> en_id_set e = true;
  ji_cfg : cfg_ok T (en_cfg e);
  ji_log : fits 64 (st_next_id s) -> jrecoverable T e0 e s }.

(** A record that is appended and replayed. *)
Lemma append_recoverable T e0 e e' s s' r : (st_failed s' = false -> st_failed s = false /\ st_log s' = st_log s ++ [r]) ->
  (st_failed s' = false -> readable r) ->
  (forall r0 er, st_failed s' = false -> recovered T s r0 -> erecovered (st_log s) e er -> exists r' er',
    replay_all hooks r0 er [r] = Some (r', er') /\ recovered T s' r' /\ erecovered (st_log s ++ [r]) e' er') ->
  jrecoverable T e0 e s -> jrecoverable T e0 e' s'.
Proof.
  intros L W K J F. destruct (L F) as [F0 El]. destruct (J F0) as (Hr & r0 & er & E & R & Er). rewrite El.
  split; [apply Forall_app_2; [done|by constructor; [apply W|constructor]]|].
  destruct (K r0 er F R Er) as (r' & er' & E' & R' & Er'). exists r', er'. split; [|done]. by rewrite replay_all_app, E.
Qed.

(** Nothing is logged. *)
Lemma frame_recoverable now T e0 e e' s s' : Ops.quiet s s' -> idle now e e' -> jrecoverable T e0 e s -> jrecoverable T e0 e' s'.
Proof.
  intros Q I J F. destruct (ev_log _ _ _ _ Q) as [|[F0 El]]; [congruence|]. rewrite app_nil_r in El. rewrite El.
  destruct (J F0) as (Hr & r0 & er & E & R & Er). split; [done|]. exists r0, er. split; [done|]. split; [by eapply recovered_frame|].
  by eapply idle_recovered.
Qed.

Lemma rooms_frame s s' : st_exchanges s' = st_exchanges s -> xrooms s -> xrooms s'.
Proof. unfold xrooms. by intros ->. Qed.

Lemma frame_inv now T e0 e e' s s' : Ops.quiet s s' -> idle now e e' -> engine_ok e' -> jinv T e0 e s -> jinv T e0 e' s'.
Proof.
  intros Q I O [H1 H2 H3 H4 H5 H6 H7]. constructor; try done.
  - by eapply inv_frame.
  - eapply rooms_frame; [apply (ev_exchanges _ _ _ _ Q)|done].
  - by rewrite (ev_open _ _ _ _ Q).
  - by rewrite (idle_proj now en_attached e e' ltac:(done) I), (idle_proj now en_id_set e e' ltac:(done) I).
  - by rewrite (idle_proj now en_cfg e e' ltac:(done) I).
  - intros Hf. apply (frame_recoverable now T e0 e e' s s' Q I). apply H7. pose proof (ev_id _ _ _ _ Q).
    pose proof (si_id _ (proj1 H2)). unfold fits in *. lia.
Qed.

(** ** Mutations *)

Lemma job_shape op (name data : bytes) id : op = LOG_JOB_STATE \/ op = LOG_JOB_COMPLETION \/ op = LOG_JOB_META -> 0 < zlen name <= QUEUE_NAME_MAX ->
  0 < zlen data <= QUEUE_MESSAGE_MAX -> bad_shape op (zlen name) (zlen data) id = false.
Proof.
  intros Hop Hn Hd. assert (N1 : (zlen name =? 0) = false) by lia. assert (N2 : (QUEUE_NAME_MAX <? zlen name) = false) by lia.
  assert (D1 : (zlen data =? 0) = false) by lia. assert (D2 : (QUEUE_MESSAGE_MAX <? zlen data) = false) by lia.
  destruct Hop as [->|[->| ->]]; unfold bad_shape; rewrite N1, N2, D1, D2; reflexivity.
Qed.

Lemma state_payload_bytes kind op expected key value completed expires : bytes_ok key -> bytes_ok value -> bytes_ok op ->
  kind = JOB_KIND_STATE_PUT \/ kind = JOB_KIND_STATE_DELETE -> bytes_ok (job_state_record_encode kind op expected key value completed expires).
Proof.
  intros Hk Hv Ho K. unfold job_state_record_encode.
  repeat (apply Forall_app_2; [first [done|apply put16_bytes|apply put32_bytes|apply put64_bytes|idtac]|]); [|apply put64_bytes].
  destruct K as [->| ->]; repeat constructor; done.
Qed.

Lemma put_value (is_put : bool) (value : bytes) : (is_put = false -> value = []) -> (if is_put then value else []) = value.
Proof. destruct is_put; [done|]. intros H. by rewrite H. Qed.

Lemma kind_cases is_put : kind_of is_put = JOB_KIND_STATE_PUT \/ kind_of is_put = JOB_KIND_STATE_DELETE.
Proof. destruct is_put; auto. Qed.

Lemma kind_put is_put : (kind_of is_put =? JOB_KIND_STATE_PUT) = is_put.
Proof. by destruct is_put. Qed.

Section Mutation.
Context (T : Z) (e0 e : engine) (s : store) (is_put : bool) (key value : bytes) (expected : Z) (op : bytes) (now : Z).
Hypothesis I : jinv T e0 e s.
Hypothesis M : mutation_ok T key value expected op now.
Hypothesis U : unused e s op.
Hypothesis Hkey : 0 < zlen key <= 65535.
Hypothesis Hsize : zlen key + zlen value + 64 <= cf_max_op (en_cfg e).
Hypothesis Hvalue : is_put = false -> value = [].

Let digest : bytes := mutation_digest (en_store_id e) is_put key value expected op.
Let a : admission := admission_of e is_put key value expected op digest now.

Lemma value_small : fits 32 (zlen value) /\ 48 + zlen key + zlen value <= QUEUE_MESSAGE_MAX.
Proof using I Hsize Hkey.
  pose proof (co_size _ _ (ji_cfg _ _ _ _ I)). pose proof (zlen_nonneg value). assert (QUEUE_MESSAGE_MAX < 2 ^ 32) by done. unfold fits. lia.
Qed.

Lemma expires_small : u64 (now + cf_retention (en_cfg e)) = now + cf_retention (en_cfg e) /\ fits 64 (now + cf_retention (en_cfg e)) /\
  now + cf_retention (en_cfg e) <> 0 /\ fits 64 now.
Proof using I M.
  destruct (ji_cfg _ _ _ _ I) as [C1 C2 _]. pose proof (mo_now _ _ _ _ _ _ M). assert (F : fits 64 (now + cf_retention (en_cfg e))) by (unfold fits; lia).
  split; [by apply u64_small|]. split; [done|]. split; [lia|unfold fits; lia].
Qed.

(** What replay reads from the record. *)
Definition replayed_mutation_of : state_mutation :=
  StateMutation (kind_of is_put) op (ad_version a) (ad_commit a) expected key value now (now + cf_retention (en_cfg e)).

Lemma parse_record : job_parse_state (r_data (state_record a)) (r_id (state_record a)) (r_aux (state_record a)) = Some replayed_mutation_of.
Proof using I M Hkey Hsize Hvalue.
  destruct expires_small as (Eu & F1 & _ & F2). destruct value_small as [F3 _]. cbn [state_record r_data r_id r_aux ad_payload a admission_of].
  rewrite Eu, (put_value _ _ Hvalue). apply parse_state_print; try done; [apply M|apply M|lia|]. destruct is_put; [by left|right; by rewrite Hvalue].
Qed.

Lemma record_readable : fits 64 (ad_version a) -> fits 64 (ad_commit a) -> readable (state_record a).
Proof using I M Hkey Hsize Hvalue.
  intros Fv Fc. destruct (mo_bytes _ _ _ _ _ _ M) as (B1 & B2 & B3). split; [|done]. split; [done|]. split; [done|]. split; [done|].
  split; [by apply (bool_decide_unpack _); vm_compute|]. cbn [state_record r_data r_op r_name r_id ad_payload a admission_of]. rewrite (put_value _ _ Hvalue). split.
  - apply state_payload_bytes; try done. apply kind_cases.
  - apply job_shape; [by left|done|]. rewrite (state_length _ op expected key value); [|apply M]. pose proof (zlen_nonneg value).
    destruct value_small. lia.
Qed.

Lemma mutation_replays e1 e' er r0 : rget e op = None -> collected now e e1 -> en_attached e = true ->
  commits key (entry_of is_put key value (ad_version a) (ad_commit a)) (ad_rec a) e1 e' ->
  0 < ad_version a <= UINT64_MAX -> 0 < ad_commit a <= UINT64_MAX -> erecovered (st_log s) e er ->
  exists er', replay_all hooks r0 er [state_record a] = Some (r0, er') /\ erecovered (st_log s ++ [state_record a]) e' er'.
Proof using I M U Hkey Hsize Hvalue.
  intros Hn C Ha Cm Pv Pc Er. cbn [replay_all]. change (job_record (r_op (state_record a))) with true. cbn iota.
  unfold apply_job_record. change (r_op (state_record a) =? LOG_JOB_META) with false. change (r_op (state_record a) =? LOG_QUEUE_META) with false.
  change (r_op (state_record a) =? LOG_JOB_STATE) with true. cbn iota zeta. rewrite parse_record. cbn [state_apply job_engine_replay_hooks].
  destruct expires_small as (Eu & _ & Hx & _).
  assert (Nr : rget er op = None).
  { destruct (rget er op) as [x|] eqn:Ex; [|done]. by destruct (U (rv_ops _ _ _ Er op x Ex)). }
  destruct (hook_state_spec er replayed_mutation_of (rv_ok _ _ _ Er) (rv_allocs _ _ _ Er) Nr (kind_cases is_put) Hx Pv Pc) as (er' & -> & A).
  exists er'. split; [done|].
  assert (Er' : replayed_receipt (en_store_id er) replayed_mutation_of = ad_rec a).
  { rewrite (rv_store_id _ _ _ Er); [|by apply (ji_attached _ _ _ _ I)]. unfold replayed_receipt, a, admission_of, digest.
    cbn [ad_rec replayed_mutation_of sm_kind sm_op_id sm_key sm_value sm_expected sm_commit sm_version sm_completed sm_expires ad_version ad_commit].
    rewrite Eu, kind_put. done. }
  rewrite Er' in A. cbn [replayed_mutation_of sm_kind] in A. rewrite kind_put in A.
  eapply (commit_recovered now); [exact C|exact Cm|exact A| |exact Er]. unfold job_op.
  change (r_op (state_record a) =? LOG_JOB_STATE) with true. cbn iota. by rewrite parse_record.
Qed.

Lemma mutate_inv : let '(_, e', s') := state_mutate e s is_put key value expected op now in jinv T e0 e' s'.
Proof using I M U Hkey Hsize Hvalue.
  pose proof (state_mutate_spec e s is_put key value expected op now (ji_engine _ _ _ _ I)) as K.
  destruct (state_mutate e s is_put key value expected op now) as [[res e'] s']. destruct K as [O' K]. pose proof (ji_open _ _ _ _ I) as Ho.
  destruct K as [st e' Id|x e' Er Ek Ed Q|e' s' Id Er Ef Eo D|e1 e' s' Hn C Hf Ha Hm L Cm].
  - by apply (frame_inv now T e0 e e' s s (quiet_refl s)).
  - apply (frame_inv now T e0 e e' s s (quiet_refl s)); [by apply quiet_idle|done|done].
  - apply (frame_inv now T e0 e e' s s'); [|done..]. destruct D as [[_ ->]|D]; [apply quiet_refl|by eapply doubt_evolve].
  - pose proof (logs_evolve _ _ _ L) as E. fold digest in L, Cm. fold a in L, Cm. destruct (cm_same _ _ _ _ _ Cm) as (S1 & S2 & S3 & S4 & _).
    rewrite (collected_proj now en_attached e e1 ltac:(done) C) in S3. rewrite (collected_proj now en_id_set e e1 ltac:(done) C) in S2.
    rewrite (collected_proj now en_cfg e e1 ltac:(done) C) in S4. destruct (cm_version _ _ _ _ _ Cm) as [V1 V2], (cm_commit _ _ _ _ _ Cm) as [W1 W2].
    pose proof (eo_hwm _ O') as [Hv Hc]. rewrite V2, <- V1 in Hv. rewrite W2, <- W1 in Hc.
    assert (Pv : 0 < ad_version a <= UINT64_MAX).
    { split; [|apply Hv]. pose proof (proj1 (eo_hwm _ (ji_engine _ _ _ _ I))). cbn [a admission_of ad_version]. lia. }
    assert (Pc : 0 < ad_commit a <= UINT64_MAX).
    { split; [|apply Hc]. pose proof (proj2 (eo_hwm _ (ji_engine _ _ _ _ I))). cbn [a admission_of ad_commit]. lia. }
    constructor; try done.
    + eapply inv_frame; [apply I|exact E].
    + eapply rooms_frame; [apply (ev_exchanges _ _ _ _ E)|apply I].
    + by rewrite (ev_open _ _ _ _ E).
    + rewrite S3, S2. apply I.
    + rewrite S4. apply I.
    + intros Hf64. eapply (append_recoverable T e0 e e' s s' (state_record a)).
      * intros _. split; [apply L|apply L].
      * intros _. unfold UINT64_MAX in *. apply record_readable; unfold fits; lia.
      * intros r0 er _ R Er. destruct (mutation_replays e1 e' er r0 Hn C Ha Cm Pv Pc Er) as (er' & E1 & E2). exists r0, er'.
        split; [done|]. split; [by eapply recovered_frame|done].
      * apply (ji_log _ _ _ _ I). pose proof (ev_id _ _ _ _ E). pose proof (si_id _ (proj1 (ji_store _ _ _ _ I))). unfold fits in *. lia.
Qed.

End Mutation.

(** ** Collection and deliveries *)

Lemma collect_inv T e0 e s now : jinv T e0 e s -> let '(_, e') := job_receipt_gc e now in jinv T e0 e' s.
Proof.
  intros I. unfold job_receipt_gc. pose proof (gc_spec e now (ji_engine _ _ _ _ I)) as K. destruct (job_receipt_gc_locked e now) as [k e'].
  destruct K as [O C]. apply (frame_inv now T e0 e e' s s (quiet_refl s)); [by apply collected_idle|done|done].
Qed.

(** The engine changes its proofs only. *)
Lemma reproves_recovered log e e' er : reproves e e' -> erecovered log e er -> erecovered log e' er.
Proof.
  intros R [H1 H2 H3 H4 H5 H6 H7 H8 H9 H10]. assert (P : forall {X} (f : engine -> X), (forall x, f (proofless x) = f x) -> f e' = f e) by (intros X f Hf; by apply reproves_proj).
  constructor; rewrite ?(P _ en_version ltac:(done)), ?(P _ en_commit ltac:(done)), ?(P _ en_id_set ltac:(done)), ?(P _ en_store_id ltac:(done)), ?(P _ en_cfg ltac:(done)); try done.
  - intros k. unfold sget. rewrite (P _ en_state ltac:(done)). apply H3.
  - intros op r. unfold rget at 1. rewrite (P _ en_receipts ltac:(done)). apply H4.
Qed.

Lemma reproves_inv T e0 e e' s : reproves e e' -> engine_ok e' -> jinv T e0 e s -> jinv T e0 e' s.
Proof.
  intros R O [H1 H2 H3 H4 H5 H6 H7]. constructor; try done.
  - by rewrite (reproves_proj en_attached e e' ltac:(done) R), (reproves_proj en_id_set e e' ltac:(done) R).
  - by rewrite (reproves_proj en_cfg e e' ltac:(done) R).
  - intros Hf F. destruct (H7 Hf F) as (Hr & r & er & E & Rr & Er). split; [done|]. exists r, er. split_and!; [done..|]. by eapply reproves_recovered.
Qed.

(** ** Calls of the queue store *)

Lemma loggable_op r : loggable r -> job_op r = None.
Proof.
  intros [_ H]. unfold job_op. unfold job_record in H. repeat (apply orb_false_iff in H as [H ?]). by rewrite H, (proj2 (Z.eqb_neq _ _)) by lia.
Qed.

Lemma loggable_ops rs : Forall loggable rs -> job_ops rs = [].
Proof. induction 1 as [|r rs H _ IH]; [done|]. unfold job_ops in *. cbn. by rewrite (loggable_op r H). Qed.

Lemma commits_replays T p s s' : rtc (commit T p) s s' -> sinv s -> fits 64 (st_next_id s') -> replays T s s'.
Proof.
  induction 1 as [s|s s1 s' C Cs IH]; intros Hs Hf.
  { exists []. rewrite app_nil_r. split; [destruct (st_failed s); auto|]. split; [constructor|]. intros r R. by exists r. }
  pose proof (commits_ids _ _ _ _ Cs) as Hi. pose proof (commit_sinv _ _ _ _ C Hs) as Hb. pose proof (si_id _ Hb).
  destruct (commit_replays _ _ _ _ C Hs ltac:(unfold fits in *; lia)) as (rs1 & L1 & W1 & K1). destruct (IH Hb Hf) as (rs2 & L2 & W2 & K2).
  exists (rs1 ++ rs2). split; [|split; [by apply Forall_app_2|]].
  - destruct L2 as [|[F2 ->]]; [by left|]. destruct L1 as [|[F1 ->]]; [congruence|]. right. by rewrite app_assoc.
  - intros r R. destruct (K1 r R) as (r1 & E1 & R1). destruct (K2 r1 R1) as (r2 & E2 & R2). exists r2. split; [|done]. by rewrite replay_records_app, E1.
Qed.

Lemma queue_inv T e0 e s c : jinv T e0 e s -> covered T s c ->
  jinv T e0 e (run_call s c).
Proof.
  intros [H1 H2 H3 H4 H5 H6 H7] Hc. pose proof Hc as [_ P X _]. pose proof (call_commits T s c H2 H3 Hc) as Cs. pose proof (commits_sinv _ _ _ _ Cs (proj1 H2)) as S'.
  constructor; try done.
  - by rewrite (commits_open _ _ _ _ Cs).
  - intros Hf F. destruct (commits_replays _ _ _ _ Cs (proj1 H2) Hf) as (rs & [|[F0 L]] & Wr & K); [congruence|]. pose proof (commits_ids _ _ _ _ Cs).
    pose proof (si_id _ (proj1 H2)). destruct (H7 ltac:(unfold fits in *; lia) F0) as (Hr & r & er & E & R & Er). rewrite L.
    split; [apply Forall_app_2; [done|]; eapply Forall_impl; [exact Wr|apply loggable_readable]|].
    destruct (K r R) as (r' & E' & R'). exists r', er. split; [|split; [done|]].
    + rewrite replay_all_app, E. by apply replay_all_queue.
    + apply (idle_recovered 0 (st_log s) _ e); [done| |done]. unfold job_ops. rewrite omap_app. intros op Ho. apply elem_of_app. by left.
Qed.

(** ** Deliveries *)

Lemma grant_reproves e s queue vis proof t d : engine_ok e -> pget e proof = None ->
  let '(_, e', s') := grant_proof e s queue vis proof t d in s' = s /\ engine_ok e' /\ reproves e e'.
Proof.
  intros O N. unfold grant_proof. pose proof (jalloc_quiet e) as Q1. destruct (jalloc e) as [ok1 e1]. cbn in Q1.
  assert (Q2 : quiet e (if ok1 then jalloc e1 else (false, e1)).2) by (destruct ok1; [transitivity e1; [done|apply jalloc_quiet]|done]).
  destruct (if ok1 then jalloc e1 else (false, e1)) as [ok2 e2]. cbn in Q2. pose proof (quiet_ok _ _ Q2 O) as O2.
  assert (R2 : reproves e e2) by (unfold reproves, proofless; by rewrite Q2).
  destruct (ok1 && ok2); cbn [negb]; (split; [done|]); [|split; [by apply (quiet_ok e2)|done]].
  match goal with |- context [push_proof e2 ?p] => destruct (push_proof_spec e2 p O2) as [O3 R3] end.
  { cbn [pf_proof]. unfold pget. by rewrite (quiet_proj en_proofs e e2 ltac:(done) Q2). }
  split; [done|]. by transitivity e2.
Qed.

Lemma consume_parts e s queue consumer vis proof t : engine_ok e -> match proof with Some p => pget e p = None | None => True end ->
  let '(_, e', s') := job_consume e s queue consumer vis proof t in
  engine_ok e' /\ reproves e e' /\ (s' = s \/ s' = run_call s (ConsumeFor queue consumer vis (cc_now t) (cc_mono t) (cc_lease t))).
Proof.
  intros O N. unfold job_consume. assert (Rf : reproves e e) by done. repeat match goal with |- context [if ?b then (inl _, e, s) else _] => destruct b; [split_and!; auto|] end.
  destruct (queue_consumer_lookup s consumer); [|split_and!; auto]. destruct proof as [proof|]; [|split_and!; auto].
  pose proof (proof_gc_loop_spec JOB_GC_BUDGET (cc_proof t) e 0 O) as K. unfold job_proof_gc_locked.
  destruct (proof_gc_loop JOB_GC_BUDGET e (cc_proof t) 0) as [k e1]. destruct K as (O1 & R1 & F1).
  destruct (_ <=? _); [split_and!; [by apply (quiet_ok e1)|done|by left]|]. cbn [run_call].
  destruct (queue_consume_for_consumer s queue consumer vis (cc_now t) (cc_mono t) (cc_lease t)) as [[rc [d|]] s1]; [|split_and!; auto].
  destruct (rc =? 1); [|split_and!; auto]. pose proof (grant_reproves e1 s1 queue vis proof t d O1 (F1 _ N)) as K.
  destruct (grant_proof e1 s1 queue vis proof t d) as [[res e2] s2]. destruct K as (-> & O2 & R2). split_and!; [done|by transitivity e1|by right].
Qed.

(** ** Attaching *)

Definition meta_record (e : engine) (s : store) (id : bytes) : record :=
  {| r_op := LOG_JOB_META; r_durable := true; r_name := QUEUE_WAL_JOB_META_NAME; r_id := 0; r_aux := 0;
     r_data := job_meta_payload id (st_next_id s) (st_next_incarnation s) (en_version e) (en_commit e) |}.

Lemma meta_readable e s id : zlen id = 16 -> bytes_ok id -> readable (meta_record e s id).
Proof.
  intros L B. split; [|done]. split; [done|]. split; [done|]. split; [done|]. split; [by apply (bool_decide_unpack _); vm_compute|]. cbn [meta_record r_data r_op r_name r_id].
  assert (Lp : zlen (job_meta_payload id (st_next_id s) (st_next_incarnation s) (en_version e) (en_commit e)) = 49) by (unfold job_meta_payload; sizes).
  split; [|apply job_shape; [by right; right|done|by rewrite Lp]]. unfold job_meta_payload.
  repeat (apply Forall_app_2; [first [done|apply put64_bytes|idtac]|]); [|apply put64_bytes]. by repeat constructor.
Qed.

Lemma meta_store T s r n k : recovered T s r -> st_next_id r <= n <= st_next_id s ->
  recovered T s {| r with st_next_id := n; st_next_incarnation := k |}.
Proof.
  intros [] Hn. constructor; try done; cbn [st_next_id]; [|lia|].
  - destruct rc_wf. by constructor.
  - intros name. eapply Recovery.related_mono; [|apply rc_queues]. lia.
Qed.

Lemma meta_replays T e s er r0 id log : recovered T s r0 -> erecovered log e er -> zlen id = 16 -> en_id_set e = false -> engine_ok e ->
  fits 64 (st_next_id s) -> exists r' er', replay_all hooks r0 er [meta_record e s id] = Some (r', er') /\ recovered T s r' /\
    erecovered (log ++ [meta_record e s id]) {| e with en_store_id := id; en_id_set := true; en_attached := true |} er'.
Proof.
  intros R Er Hid Hset O Hf. pose proof (eo_hwm _ O) as [Hv Hc]. set (d := r_data (meta_record e s id)).
  assert (Ld : zlen d = 49) by (unfold d, meta_record, job_meta_payload; cbn [r_data]; sizes).
  assert (E1 : slice 1 16 d = id) by (unfold d, meta_record, job_meta_payload; cbn [r_data]; field).
  assert (E2 : at64 d 17 = st_next_id s) by (unfold d, meta_record, job_meta_payload; cbn [r_data]; field).
  unfold UINT64_MAX in Hv, Hc.
  assert (E3 : at64 d 33 = en_version e) by (unfold d, meta_record, job_meta_payload; cbn [r_data]; field).
  assert (E4 : at64 d 41 = en_commit e) by (unfold d, meta_record, job_meta_payload; cbn [r_data]; field).
  cbn [replay_all]. change (job_record (r_op (meta_record e s id))) with true. cbn iota. unfold apply_job_record. fold d. cbv zeta.
  change (r_op (meta_record e s id) =? LOG_JOB_META) with true. cbn iota. rewrite Ld, E1, E2, E3, E4. cbn [Z.eqb Z.add Z.mul negb].
  change (49 =? 1 + 16 + 8 * 4) with true. cbn [negb meta_apply job_engine_replay_hooks hook_meta_apply jm_store_id jm_version_hwm jm_commit_hwm].
  unfold hook_meta_apply. cbn [jm_store_id jm_version_hwm jm_commit_hwm]. rewrite (rv_id _ _ _ Er), Hset, raise_marks. cbn [en_version en_commit].
  pose proof (rv_version _ _ _ Er). pose proof (rv_commit _ _ _ Er). rewrite !Z.max_r by lia. eexists _, _. split; [done|]. split.
  - pose proof (Recovery.rc_next _ _ _ R) as Hn. destruct (Z.ltb_spec (st_next_id r0) (st_next_id s)); cbn [st_next_incarnation]; destruct (_ <? _).
    + by apply (meta_store T s r0).
    + apply (meta_store T s r0 (st_next_id s) (st_next_incarnation r0) R). lia.
    + apply (meta_store T s r0 (st_next_id r0) _ R). lia.
    + done.
  - destruct Er as [H1 H2 H3 H4 H5 H6 H7 H8 H9 H10]. constructor; try done.
    + change (engine_ok (set_marks {| er with en_store_id := id; en_id_set := true |} (en_version e) (en_commit e))).
      apply marks_ok; [by destruct H1|cbn; unfold UINT64_MAX; lia..].
    + intros op r Hr. unfold job_ops. rewrite omap_app. apply elem_of_app. left. by eapply H5.
Qed.

Lemma attach_inv T e0 e s fresh : jinv T e0 e s -> match fresh with Some id => zlen id = 16 /\ bytes_ok id | None => True end ->
  let '(_, e', s') := job_engine_attach e s fresh in jinv T e0 e' s'.
Proof.
  intros I Hfr. unfold job_engine_attach. destruct (Atomic.queue_wal_enabled s); [cbn [negb]|done]. destruct (en_attached e); [done|].
  destruct (en_id_set e) eqn:Eset.
  { destruct I as [H1 H2 H3 H4 H5 H6 H7]. constructor; try done; [by destruct H1|]. intros Hf F. destruct (H7 Hf F) as (Hr & r & er & E & R & Er).
    split; [done|]. exists r, er. split_and!; [done..|]. destruct Er; constructor; try done; cbn [en_id_set en_store_id]; [congruence|auto]. }
  destruct fresh as [id|]; [|done]. destruct Hfr as [L B].
  pose proof (append_sync_spec s LOG_JOB_META QUEUE_WAL_JOB_META_NAME 0 0 (job_meta_payload id (st_next_id s) (st_next_incarnation s) (en_version e) (en_commit e))) as K.
  destruct (append_record s LOG_JOB_META true _ _ _ _ true) as [rc s']. fold (meta_record e s id) in K. destruct K as [[-> Lg]|[-> D]]; cbn [Z.ltb Z.compare].
  - pose proof (logs_evolve _ _ _ Lg) as E. pose proof I as [H1 H2 H3 H4 H5 H6 H7]. constructor; try done.
    + by destruct H1.
    + by eapply inv_frame.
    + eapply rooms_frame; [apply (ev_exchanges _ _ _ _ E)|done].
    + by rewrite (ev_open _ _ _ _ E).
    + intros Hf. pose proof (ev_id _ _ _ _ E). pose proof (si_id _ (proj1 H2)). assert (Hs : fits 64 (st_next_id s)) by (unfold fits in *; lia).
      apply (append_recoverable T e0 e _ s s' (meta_record e s id)); [by intros _; split; apply Lg|by intros _; apply meta_readable| |by apply H7].
      intros r0 er _ R Er. destruct (meta_replays T e s er r0 id (st_log s) R Er L Eset H1 Hs) as (r' & er' & E1 & R' & Er').
      exists r', er'. split; [done|]. split; [by eapply recovered_frame|done].
  - apply (frame_inv 0 T e0 e _ s s'); [|apply fail_idle|apply fail_ok; apply I|done]. eapply doubt_evolve; [exact D|apply I].
Qed.

(** ** Completions *)

Lemma completion_bytes q msg version completed expires : submission_ok q -> bytes_ok (complete_encode q msg version completed expires).
Proof.
  intros [_ _ B1 B2 B3 B4 [B5 B6]]. unfold complete_encode.
  repeat (apply Forall_app_2; [first [done|apply put16_bytes|apply put32_bytes|apply put64_bytes|idtac]|]); [| |apply put64_bytes].
  - by repeat constructor.
  - unfold flag. by destruct (jq_out q); repeat constructor.
Qed.

Section Completion.
Context (T : Z) (e0 e : engine) (s : store) (q : job_request) (t : clock).
Hypothesis I : jinv T e0 e s.
Hypothesis M : submission_ok q.
Hypothesis Hnow : 0 <= ck_now t <= T.
Hypothesis U : unused e s (jq_op q).
Hypothesis Hbad : request_bad q = false.
Hypothesis Hsize : request_bytes q <= cf_max_op (en_cfg e).

Let msg : Z := out_id s (output_of s q).
Let p : prepared := prepared_of e q (request_digest (en_store_id e) q) msg (ck_now t).

Lemma completion_small : 86 + zlen (out_queue q) + zlen (out_data q) + zlen (jq_key q) + zlen (jq_value q) <= QUEUE_MESSAGE_MAX.
Proof using I Hbad Hsize.
  pose proof (co_size _ _ (ji_cfg _ _ _ _ I)). destruct (request_names q Hbad) as (N1 & _). unfold request_bytes, out_queue, out_data in *.
  destruct (jq_out q) as [[[n k] v]|]; [lia|]. change (zlen (@nil Z)) with 0. lia.
Qed.

Lemma completion_data : data_ok (out_data q).
Proof using I M Hbad Hsize.
  split; [apply M|]. pose proof completion_small. pose proof (zlen_nonneg (jq_key q)). pose proof (zlen_nonneg (jq_value q)). pose proof (zlen_nonneg (out_queue q)). lia.
Qed.

Lemma completion_times : u64 (ck_now t + cf_retention (en_cfg e)) = ck_now t + cf_retention (en_cfg e) /\ fits 64 (ck_now t + cf_retention (en_cfg e)) /\
  fits 64 (ck_now t).
Proof using I Hnow msg q.
  destruct (ji_cfg _ _ _ _ I) as [C1 C2 _]. assert (F : fits 64 (ck_now t + cf_retention (en_cfg e))) by (unfold fits; lia).
  split; [by apply u64_small|]. split; [done|unfold fits; lia].
Qed.

Definition replayed_completion : completion :=
  completion_of q msg (pr_version p) (ck_now t) (ck_now t + cf_retention (en_cfg e)) (pr_commit p).

Let r : record := completion_record (jq_in q) q msg p.

Lemma parse_completion : fits 64 (pr_version p) -> fits 64 msg ->
  job_parse_completion (r_name r) (r_id r) (r_aux r) (r_data r) = Some replayed_completion.
Proof using I M Hnow Hbad Hsize.
  intros Fv Fm. destruct completion_times as (Eu & F1 & F2). pose proof completion_small as Sz. destruct (request_names q Hbad) as (_ & N2 & N3 & _).
  cbn [r completion_record r_name r_id r_aux r_data p prepared_of pr_version pr_completed pr_expires pr_commit]. rewrite Eu.
  pose proof (zlen_nonneg (jq_key q)). pose proof (zlen_nonneg (jq_value q)). pose proof (zlen_nonneg (out_data q)). pose proof (zlen_nonneg (out_queue q)).
  assert (QUEUE_MESSAGE_MAX < 2 ^ 32) by done. apply parse_completion_print; try done; unfold fits; lia.
Qed.

Lemma completion_readable : fits 64 (pr_version p) -> fits 64 (pr_commit p) -> readable r.
Proof using I M Hbad Hsize.
  intros Fv Fc. destruct (request_names q Hbad) as (N1 & _). pose proof completion_small as Sz. split; [|done]. split; [done|].
  split; [apply M|]. split; [done|]. split; [apply M|]. split; [by apply completion_bytes|].
  apply job_shape; [by right; left|done|]. cbn [r completion_record r_data]. rewrite completion_length by done.
  pose proof (zlen_nonneg (jq_key q)). pose proof (zlen_nonneg (jq_value q)). pose proof (zlen_nonneg (out_data q)). pose proof (zlen_nonneg (out_queue q)). lia.
Qed.

Lemma completion_receipt_same : completion_receipt (en_store_id e) replayed_completion = pr_rec p.
Proof using I Hnow.
  destruct completion_times as (Eu & _). unfold completion_receipt, completion_digest, replayed_completion, completion_of, p, prepared_of, request_digest, out_queue.
  cbn [cp_op_id cp_commit cp_version cp_expected cp_key cp_value cp_in_name cp_in_incarnation cp_in_msg_id cp_out cp_completed cp_expires pr_rec pr_version pr_commit].
  rewrite Eu. by destruct (jq_out q) as [[[n k] v]|].
Qed.

(** The record, replayed. *)
Lemma completion_replays in_q i m e1 e' s2 r0 er : rget e (jq_op q) = None -> collected (ck_gc t) e e1 -> en_id_set e = true ->
  delivery_live s q (delivery_of e q).1 (delivery_of e q).2 (ck_fence t) in_q i m -> logs r (reserve s (output_of s q)) s2 ->
  commits (jq_key q) (Some (JEntry (jq_key q) (jq_value q) (pr_version p) (pr_commit p))) (pr_rec p) e1 e' ->
  0 < pr_version p <= UINT64_MAX -> 0 < pr_commit p <= UINT64_MAX ->
  let s' := (commit_queues s2 (q_lock_id in_q) i (placement s q (output_of s q))).2 in fits 64 (st_next_id s') ->
  recovered T s r0 -> erecovered (st_log s) e er ->
  exists r' er', replay_all hooks r0 er [r] = Some (r', er') /\ recovered T s' r' /\ erecovered (st_log s ++ [r]) e' er'.
Proof using I M Hnow U Hbad Hsize.
  intros Hn C Hset D L Cm Pv Pc s' Hf R Er. destruct (request_names q Hbad) as (N1 & N2 & N3 & _ & _ & _). pose proof completion_small as Sz.
  pose proof completion_data as Dd.
  destruct (completed_inv s s2 q _ _ _ in_q i m r (ji_store _ _ _ _ I) D L Dd) as [_ Nx]. fold s' in Nx. rewrite reserve_id in Nx.
  pose proof (si_id _ (proj1 (ji_store _ _ _ _ I))) as Hpos.
  assert (Fm : fits 64 msg) by (unfold msg, out_id; destruct (output_of s q); unfold fits in *; lia).
  cbn [replay_all]. change (job_record (r_op r)) with true. cbn iota. unfold apply_job_record. change (r_op r =? LOG_JOB_META) with false.
  change (r_op r =? LOG_QUEUE_META) with false. change (r_op r =? LOG_JOB_STATE) with false. change (r_op r =? LOG_JOB_RECEIPT) with false. cbn iota zeta.
  assert (Fv : fits 64 (pr_version p)) by (unfold UINT64_MAX, fits in *; lia). rewrite parse_completion by done. cbn [completion_apply job_engine_replay_hooks].
  assert (Nr : rget er (jq_op q) = None).
  { destruct (rget er (jq_op q)) as [x|] eqn:Ex; [|done]. by destruct (U (rv_ops _ _ _ Er _ x Ex)). }
  destruct (hook_completion_spec er replayed_completion (rv_ok _ _ _ Er) (rv_allocs _ _ _ Er) Nr) as (er' & -> & A); try done.
  { cbn. unfold fits, QUEUE_NAME_MAX in *. lia. }
  { unfold replayed_completion, completion_of. cbn [cp_out]. unfold out_queue, fits, QUEUE_NAME_MAX in *. destruct (jq_out q) as [[[n k] v]|]; cbv beta iota; [pose proof (zlen_nonneg n); lia|done]. }
  destruct (completed_recovered s s2 q _ _ _ in_q i m r (ji_store _ _ _ _ I) D L Dd T replayed_completion r0 eq_refl eq_refl eq_refl Hf R) as (r' & -> & R').
  exists r', er'. split; [done|]. split; [done|]. rewrite (rv_store_id _ _ _ Er Hset), completion_receipt_same in A.
  eapply (commit_recovered (ck_gc t)); [exact C|exact Cm|exact A| |exact Er]. unfold job_op. change (r_op r =? LOG_JOB_STATE) with false.
  change (r_op r =? LOG_JOB_COMPLETION) with true. cbn iota. by rewrite parse_completion.
Qed.

End Completion.

Lemma counter_fits x : 0 < x <= UINT64_MAX -> fits 64 x.
Proof. unfold UINT64_MAX, fits. lia. Qed.

Lemma complete_inv T e0 e s q t : jinv T e0 e s -> submission_ok q -> 0 <= ck_now t <= T -> unused e s (jq_op q) ->
  let '(_, e', s') := job_complete e s q t in jinv T e0 e' s'.
Proof.
  intros I M Hnow U. pose proof (job_complete_spec e s q t (ji_engine _ _ _ _ I) (si_allocs _ (proj1 (ji_store _ _ _ _ I)))) as K.
  destruct (job_complete e s q t) as [[res e'] s']. destruct K as [O' K].
  destruct K as [st e' s' Id Hs|x e' Er Ek Ed Q|p e' s' Er Id Ef Eo D|in_q i m e1 e' s2 Hn C Hb Hz Ha Hset Hf D Pv V msg p L Cm].
  - apply (frame_inv (ck_gc t) T e0 e e' s s'); [|done..]. destruct Hs as [->| ->]; [apply quiet_refl|apply reserve_output_quiet].
  - apply (frame_inv (ck_gc t) T e0 e e' s s (quiet_refl s)); [by apply quiet_idle|done|done].
  - apply (frame_inv (ck_gc t) T e0 e e' s s'); [|done..]. eapply quiet_evolve; [apply reserve_output_quiet|].
    rewrite <- (ev_queues _ _ _ _ (reserve_output_quiet s (output_of s q))). eapply doubt_evolve; [exact D|]. rewrite (ev_open _ _ _ _ (reserve_output_quiet s _)). apply I.
  - set (s' := (commit_queues s2 (q_lock_id in_q) i (placement s q (output_of s q))).2). change (jinv T e0 e' s').
    pose proof I as [H1 H2 H3 H4 H5 H6 H7]. pose proof (completion_data T e0 e s q I M Hb Hz) as Dd.
    destruct (completed_inv s s2 q _ _ _ in_q i m _ H2 D L Dd) as [I' Nx]. fold s' in I', Nx. rewrite reserve_id in Nx.
    destruct (completed_frame s s2 q _ _ _ in_q i m _ H2 D L) as (F1 & F2 & F3 & F4). fold s' in F1, F2, F3, F4.
    destruct (cm_same _ _ _ _ _ Cm) as (S1 & S2 & S3 & S4 & _). rewrite (collected_proj (ck_gc t) en_attached e e1 ltac:(done) C) in S3.
    rewrite (collected_proj (ck_gc t) en_id_set e e1 ltac:(done) C) in S2. rewrite (collected_proj (ck_gc t) en_cfg e e1 ltac:(done) C) in S4.
    destruct (cm_version _ _ _ _ _ Cm) as [V1 V2], (cm_commit _ _ _ _ _ Cm) as [W1 W2]. pose proof (eo_hwm _ O') as [Hv Hc]. rewrite V2, <- V1 in Hv. rewrite W2, <- W1 in Hc.
    pose proof (eo_hwm _ H1) as [Hv0 Hc0]. assert (Pv0 : 0 < pr_version p <= UINT64_MAX) by (split; [cbn; lia|apply Hv]). assert (Pc0 : 0 < pr_commit p <= UINT64_MAX) by (split; [cbn; lia|apply Hc]).
    constructor; try done.
    + by apply (rooms_frame s).
    + by rewrite F2.
    + rewrite S3, S2. done.
    + rewrite S4. done.
    + intros Hf64. eapply (append_recoverable T e0 e e' s s').
      * intros _. split; [apply F3|apply F4].
      * intros _. apply (completion_readable T e0 e s q t I M Hb Hz); [exact (counter_fits _ Pv0)|exact (counter_fits _ Pc0)].
      * intros r0 er _ R Er. by eapply (completion_replays T e0 e s q t I M Hnow U Hb Hz in_q i m e1 e' s2 r0 er).
      * apply H7. pose proof (si_id _ (proj1 H2)). destruct (output_of s q); unfold fits in *; lia.
Qed.

(** ** Runs *)

Lemma put_inv T e0 e s key value expected op now : jinv T e0 e s -> mutation_ok T key value expected op now -> unused e s op ->
  let '(_, e', s') := job_state_put e s key value expected op now in jinv T e0 e' s'.
Proof.
  intros I M U. unfold job_state_put. destruct (_ || _ || _) eqn:Eb; [done|].
  destruct (Z.ltb_spec (cf_max_op (en_cfg e)) (zlen key + zlen value + 64)) as [|Hz].
  { apply (frame_inv now T e0 e _ s s (quiet_refl s)); [by apply quiet_idle|apply (quiet_ok e); [done|apply I]|done]. }
  repeat (apply orb_false_iff in Eb as [Eb ?]). pose proof (zlen_nonneg key).
  assert (Hk : 0 < zlen key <= 65535) by lia. by apply mutate_inv.
Qed.

Lemma delete_inv T e0 e s key expected op now : jinv T e0 e s -> mutation_ok T key [] expected op now -> unused e s op ->
  let '(_, e', s') := job_state_delete e s key expected op now in jinv T e0 e' s'.
Proof.
  intros I M U. unfold job_state_delete. destruct (_ || _ || _ || _) eqn:Eb; [done|].
  destruct (Z.ltb_spec (cf_max_op (en_cfg e)) (zlen key + 64)) as [|Hz].
  { apply (frame_inv now T e0 e _ s s (quiet_refl s)); [by apply quiet_idle|apply (quiet_ok e); [done|apply I]|done]. }
  repeat (apply orb_false_iff in Eb as [Eb ?]). pose proof (zlen_nonneg key).
  assert (Hk : 0 < zlen key <= 65535) by lia. apply mutate_inv; try done. rewrite zlen_nil. lia.
Qed.

#[local] Opaque gc_loop.

Lemma jstep_inv T e0 e s e' s' : jstep T (e, s) (e', s') -> jinv T e0 e s -> jinv T e0 e' s'.
Proof.
  intros [c Hc Hr P X W] I. cbn [fst snd] in *.
  destruct c as [c|fresh|key value expected op now|key expected op now|queue consumer vis proof t|q t|now]; cbn [run_job jcall_ok] in *.
  - injection Hr as <- <-. by apply queue_inv, Covered.
  - pose proof (attach_inv T e0 e s fresh I Hc) as K. destruct (job_engine_attach e s fresh) as [[st e1] s1]. by injection Hr as <- <-.
  - destruct Hc as [M U]. pose proof (put_inv T e0 e s key value expected op now I M U) as K.
    destruct (job_state_put e s key value expected op now) as [[res e1] s1]. by injection Hr as <- <-.
  - destruct Hc as [M U]. pose proof (delete_inv T e0 e s key expected op now I M U) as K.
    destruct (job_state_delete e s key expected op now) as [[res e1] s1]. by injection Hr as <- <-.
  - destruct Hc as [Hn Hp]. pose proof (consume_parts e s queue consumer vis proof t (ji_engine _ _ _ _ I) Hp) as K.
    destruct (job_consume e s queue consumer vis proof t) as [[res e1] s1]. injection Hr as <- <-. destruct K as (O & R & K).
    apply (reproves_inv T e0 e); [done|done|]. destruct K as [->| ->]; [done|]. by apply queue_inv, Covered.
  - destruct Hc as (M & Hn & U). pose proof (complete_inv T e0 e s q t I M Hn U) as K. destruct (job_complete e s q t) as [[res e1] s1]. by injection Hr as <- <-.
  - pose proof (collect_inv T e0 e s now I) as K. destruct (job_receipt_gc e now) as [k e1]. by injection Hr as <- <-.
Qed.

Lemma jsteps_inv T e0 y y' : rtc (jstep T) y y' -> jinv T e0 y.1 y.2 -> jinv T e0 y'.1 y'.2.
Proof. induction 1 as [|[e s] [e1 s1] y' St _ IH]; [done|]. intros I. apply IH. by eapply jstep_inv. Qed.

(** A run of an engine on a new store. *)
Definition job_reachable (T : Z) (cfg : jconfig) (e : engine) (s : store) : Prop := exists rnd allocs ios locks e1,
  job_engine_create cfg rnd allocs = Some e1 /\ rtc (jstep T) (e1, open_store true ios locks) (e, s).

#[local] Opaque Z.to_nat.

Lemma engine_create_ok cfg rnd allocs e : job_engine_create cfg rnd allocs = Some e -> engine_ok e /\
  (forall k, sget e k = None) /\ (forall op, rget e op = None) /\ en_version e = 0 /\ en_commit e = 0 /\
  en_id_set e = false /\ en_attached e = false /\ en_cfg e = effective cfg /\ en_allocs e = (draw allocs).2.
Proof.
  unfold job_engine_create. destruct (draw allocs) as [[|] l]; [|done]. cbn [negb snd]. intros [= <-].
  assert (E : forall {A} (key : A -> bytes) (h : bytes -> nat) n (k : bytes), tget key h (replicate n []) k = None).
  { intros A key h n k. unfold tget, bucket. destruct (replicate n [] !! h k) as [l'|] eqn:El; [|done]. by apply lookup_replicate in El as [-> _]. }
  assert (Z0 : forall {A} n, concat (replicate n (@nil A)) = []) by (intros A n; induction n; [done|cbn; done]).
  split; [|split_and!; try done; intros k; [exact (E _ e_key job_state_bucket _ k)|exact (E _ jr_op job_receipt_bucket _ k)]].
  constructor; cbn [en_state en_receipts en_proofs en_entries en_bytes en_receipt_count en_receipt_bytes en_gc_cursor en_proof_count en_proof_cursor en_version en_commit];
    rewrite ?Z0; try apply table_empty; try done.
  - intros k x Hx. discriminate (eq_trans (eq_sym (E _ e_key job_state_bucket (Z.to_nat JOB_STATE_BUCKETS) k)) Hx).
  - intros k x Hx. discriminate (eq_trans (eq_sym (E _ jr_op job_receipt_bucket (Z.to_nat JOB_RECEIPT_BUCKETS) k)) Hx).
Qed.

Lemma start_inv T cfg rnd allocs ios locks e rnd0 e0 : job_engine_create cfg rnd allocs = Some e -> job_engine_create cfg rnd0 [] = Some e0 ->
  cfg_ok T (effective cfg) -> jinv T e0 e (open_store true ios locks).
Proof.
  intros (O & S & R & V & C & Si & At & Cf & _)%engine_create_ok (O0 & S0 & R0 & V0 & C0 & Si0 & At0 & Cf0 & A0)%engine_create_ok Hc.
  destruct (open_inv true ios locks) as [I X]. constructor; try done; [congruence|congruence|]. intros _ F.
  destruct (open_recoverable T true true ios locks F) as (_ & r & Er & Rr). split; [constructor|]. exists r, e0. injection Er as <-. split; [done|]. split; [done|].
  constructor; try done; try congruence; try lia.
Qed.

Lemma job_reachable_inv T cfg e s rnd0 e0 : job_reachable T cfg e s -> job_engine_create cfg rnd0 [] = Some e0 -> cfg_ok T (effective cfg) -> jinv T e0 e s.
Proof.
  intros (rnd & allocs & ios & locks & e1 & Hc & Hr) H0 Hcfg. apply (jsteps_inv T e0 _ (e, s) Hr). by eapply start_inv.
Qed.

(** ** Failures stay, identities grow *)

Definition later (s s' : store) : Prop := (st_failed s' = false -> st_failed s = false) /\ st_next_id s <= st_next_id s'.

#[global] Instance later_preorder : PreOrder later.
Proof. split; [by intros s; split; [|lia]|]. intros a b c [F1 N1] [F2 N2]. split; [auto|lia]. Qed.

Lemma evolve_later s s' qs rs : evolve s s' qs rs -> later s s'.
Proof. intros E. split; [|apply (ev_id _ _ _ _ E)]. destruct (ev_log _ _ _ _ E) as [|[F _]]; congruence. Qed.

Lemma commits_later T p s s' : rtc (commit T p) s s' -> later s s'.
Proof.
  induction 1 as [|a b c C _ IH]; [done|]. transitivity b; [|done]. split; [|by eapply commit_id_mono].
  destruct C; match goal with E : evolve _ _ _ _ |- _ => destruct (evolve_later _ _ _ _ E) as [F _]; exact F end.
Qed.

Lemma mutation_later e s is_put key value expected op now res e' s' : st_log_open s = true ->
  mutation_outcome e s is_put key value expected op now res e' s' -> later s s'.
Proof.
  intros Ho [| |e1 s1 _ _ _ _ [[_ ->]|D]|e1 e2 s1 _ _ _ _ _ L _]; try done.
  - by eapply evolve_later, doubt_evolve.
  - by eapply evolve_later, logs_evolve.
Qed.

Lemma complete_later e s q t res e' s' : inv s -> st_log_open s = true -> complete_outcome e s q t res e' s' -> later s s'.
Proof.
  intros I Ho [st e1 s1 _ [->| ->]| |p e1 s1 _ _ _ _ D|in_q i m e1 e2 s2 _ _ _ _ _ _ _ D _ _ msg p L _]; try done.
  - eapply evolve_later, reserve_output_quiet.
  - transitivity (reserve s (output_of s q)); [eapply evolve_later, reserve_output_quiet|]. eapply evolve_later, doubt_evolve; [exact D|].
    by rewrite (ev_open _ _ _ _ (reserve_output_quiet s _)).
  - pose proof (evolve_later _ _ _ _ (logged_evolve s s2 q _ L)) as L2. transitivity s2; [done|]. unfold commit_queues.
    assert (A2 : st_allocs s2 = []) by (apply (ev_allocs _ _ _ _ (logged_evolve s s2 q _ L)), I). destruct (output_of s q); by rewrite ?alloc_nil.
Qed.

Lemma jstep_later T e0 e s e' s' : jstep T (e, s) (e', s') -> jinv T e0 e s -> later s s'.
Proof.
  intros [c Hc Hr P X W] I. cbn [fst snd] in *. pose proof I as [H1 H2 H3 H4 _ _ _].
  assert (Qc : forall c, covered T s c -> later s (run_call s c)) by (intros x Hx; by eapply commits_later, call_commits).
  destruct c as [c|fresh|key value expected op now|key expected op now|queue consumer vis proof t|q t|now]; cbn [run_job jcall_ok] in *.
  - injection Hr as <- <-. by apply Qc, Covered.
  - unfold job_engine_attach in Hr. destruct (negb _); [by injection Hr as <- <-|]. destruct (en_attached e); [by injection Hr as <- <-|].
    destruct (en_id_set e); [by injection Hr as <- <-|]. destruct fresh as [id|]; [|by injection Hr as <- <-].
    match type of Hr with context [append_record s ?o true ?n ?i ?x ?d true] => pose proof (append_sync_spec s o n i x d) as K; destruct (append_record s o true n i x d true) as [rc s1] end.
    assert (L : later s s1).
    { destruct K as [[_ L]|[_ D]]; [by eapply evolve_later, logs_evolve|by eapply evolve_later, doubt_evolve]. }
    destruct (rc <? 0); by injection Hr as <- <-.
  - pose proof (put_spec e s key value expected op now H1) as K. destruct (job_state_put e s key value expected op now) as [[res e1] s1]. injection Hr as <- <-.
    eapply mutation_later; [done|apply K].
  - pose proof (delete_spec e s key expected op now H1) as K. destruct (job_state_delete e s key expected op now) as [[res e1] s1]. injection Hr as <- <-.
    eapply mutation_later; [done|apply K].
  - destruct Hc as [Hn Hp]. pose proof (consume_parts e s queue consumer vis proof t H1 Hp) as K.
    destruct (job_consume e s queue consumer vis proof t) as [[res e1] s1]. injection Hr as <- <-. destruct K as (_ & _ & [->| ->]); [done|]. by apply Qc.
  - pose proof (job_complete_spec e s q t H1 (si_allocs _ (proj1 H2))) as K. destruct (job_complete e s q t) as [[res e1] s1]. injection Hr as <- <-.
    eapply complete_later; [done|done|apply K].
  - destruct (job_receipt_gc e now). by injection Hr as <- <-.
Qed.

Lemma jsteps_later T e0 y y' : rtc (jstep T) y y' -> jinv T e0 y.1 y.2 -> later y.2 y'.2.
Proof.
  induction 1 as [|[e s] [e1 s1] y' St _ IH]; [done|]. intros I. transitivity s1; [by eapply jstep_later|]. apply IH. by eapply jstep_inv.
Qed.

End JobRun.
