(* ===== verification/JobOnce.v ===== *)
(** * Messages that are gone stay gone

    Identities of messages are never issued again, so a message that has left
    the queue of its name does not come back; and the commits of the queue
    store and the completions of jobs respect that. *)

From stdpp Require Import base numbers option list relations.
From S2P Require Import Prelude Queue QueueIndex WalRecord QueueStore QueueReplay Exchange QueueTx.
From S2P Require Import ExchangeReplay QueueBatch QueueCommit QueueOps ExchangeOps TxOps QueueRun.
From S2P Require Import QueueRecovery QueueOpen Atomic JobEngine JobCompletion JobSpec JobComplete JobQueues.
From S2P Require Import JobRecords JobRun.
Import Queue QueueIndex Wal Store Replay Batch Tx TxReplay Commit Ops XOps TxOps Run Recovery(numbered_bounds, find_on_queue, find_message_Some).
Import JobEngine JobCompletion JobSpec JobComplete JobQueues JobRecords JobRun.

Module JobOnce.

Definition msg_ids (q : queue) : list Z := m_id <$> q_msgs q.

(** No live queue of that name holds the message. *)
Definition gone_in (name : bytes) (k : Z) (qs : list queue) : Prop :=
  Forall (fun q => q_deleted q = false -> q_name q = name -> k ∉ msg_ids q) qs.

Definition gone (name : bytes) (k : Z) (s : store) : Prop := k < st_next_id s /\ gone_in name k (st_queues s).

(** A change of a queue that does not bring [k] back. *)
Record spared (k : Z) (f : queue -> queue) : Prop := Spared {
  sp_name : forall q, q_name (f q) = q_name q;
  sp_live : forall q, q_deleted (f q) = false -> q_deleted q = false;
  sp_ids : forall q, k ∈ msg_ids (f q) -> k ∈ msg_ids q }.

Lemma spared_config k f : keeps_config f -> (forall q, k ∈ msg_ids (f q) -> k ∈ msg_ids q) -> spared k f.
Proof. intros K H. constructor; [| |done]; intros q; destruct (config_inv _ _ (K q)) as (_ & E1 & _ & E2 & _); congruence. Qed.

Lemma gone_on_queue name k s qid f : spared k f -> gone_in name k (st_queues s) -> gone_in name k (on_queue s qid f).
Proof.
  intros [N D I]. unfold gone_in, on_queue. rewrite !Forall_forall. intros H q' (q & -> & Hq)%list_elem_of_fmap. specialize (H q Hq).
  destruct (q_lock_id q =? qid); [|done]. rewrite N. intros Hd Hn Hk. apply H; auto.
Qed.

Lemma spared_remove k i : spared k (fun q => remove_message q i).
Proof.
  apply spared_config; [apply remove_config|]. intros q. unfold msg_ids. rewrite remove_message_msgs, fmap_delete. intros H.
  apply list_elem_of_lookup in H as [j H]. apply list_elem_of_lookup. destruct (decide (j < i)%nat).
  - exists j. by rewrite list_lookup_delete_lt in H.
  - exists (S j). rewrite list_lookup_delete_ge in H by lia. done.
Qed.

Lemma spared_link k id e d : id <> k -> spared k (fun q => message_link q (message_create id e d)).
Proof.
  intros Hne. apply spared_config; [intros q; apply message_link_config|]. intros q. unfold msg_ids. cbn [message_link q_msgs]. rewrite fmap_app, elem_of_app.
  intros [|H]; [done|]. cbn in H. apply list_elem_of_singleton in H. exfalso. apply Hne. rewrite H. unfold linked. by gcase.
Qed.

(** Changes of messages in place. *)
Lemma spared_same k f : keeps_config f -> (forall q, msg_ids (f q) = msg_ids q) -> spared k f.
Proof. intros K H. apply spared_config; [done|]. intros q. by rewrite H. Qed.

Lemma ready_ids q i nb : msg_ids (make_ready q i nb) = msg_ids q.
Proof. unfold msg_ids. destruct (make_ready_msgs q i nb) as (g & R & -> & _). by apply retouch_ids. Qed.

Lemma charge_ids q i : msg_ids (charge_record q i) = msg_ids q.
Proof. unfold msg_ids. destruct (charge_record_msgs q i) as (g & R & -> & _). by apply retouch_ids. Qed.

Lemma deliver_ids q i dl o t h : msg_ids (set_hint (deliver_to true q i dl o t) h) = msg_ids q.
Proof. unfold msg_ids. rewrite msgs_set_hint. destruct (deliver_to_msgs q i dl o t) as (g & R & -> & _). by apply retouch_ids. Qed.

Lemma spared_purge k : spared k (fun q => snd (purge_queue_locked q)).
Proof.
  apply spared_config; [intros q; apply purge_config|]. intros q. unfold msg_ids. rewrite purge_msgs. by intros ?%not_elem_of_nil.
Qed.

Lemma spared_tombstone k : spared k tombstone.
Proof.
  constructor; [by apply tombstone_identity|done|]. intros q. unfold msg_ids. change (q_msgs (tombstone q)) with (q_msgs (snd (purge_queue_locked q))).
  rewrite purge_msgs. by intros ?%not_elem_of_nil.
Qed.

Lemma gone_materialize name k tx ts : forall s, st_allocs s = [] -> Forall (fun t => t_msg_id t <> k) ts -> gone_in name k (st_queues s) ->
  gone_in name k (st_queues (fold_left (materialize_one tx) ts s)).
Proof.
  induction ts as [|t ts IH]; intros s A H G; [done|]. apply Forall_cons in H as [Ht Hts]. cbn [fold_left]. apply IH; [|done|].
  - unfold materialize_one. gcase; [by rewrite append_message_upd|done].
  - unfold materialize_one. gcase; [|done]. rewrite append_message_upd by done. by apply gone_on_queue, G; apply spared_link.
Qed.

Lemma commit_gone T p name k s s' : commit T p s s' -> sinv s -> gone name k s -> gone name k s'.
Proof.
  intros C Hs [Hk G]. split; [pose proof (commit_id_mono _ _ _ _ C); lia|].
  destruct C as [E|qid q id e d L ? ? ? ? ? E|qid q i m L ? E|qid q i m L ? Hx E
    |qid q i m L ? ? E|qid q i m nb L Em ? ? E|qid q i m dl o tag h L ? ? ? ? ? E
    |qid q h L Hh E|qid q d L ? E|qid q L E|qid q ? L E
    |cname durable max dlq maxd inc ? ? Hd ? ? ? E|cname o ? ? ? E|cname ? E|xs rs X E
    |tx ? Hfm Hn Hb E|tx ? Hfm Hn Hb Hp Hd E]; rewrite (ev_queues _ _ _ _ E); try done;
    try (apply gone_on_queue; [|exact G]).
  - apply spared_link. lia.
  - apply spared_remove.
  - apply spared_remove.
  - apply spared_same; [intros x; apply make_ready_config|intros x; apply ready_ids].
  - apply spared_same; [intros x; rewrite charge_record_config; apply make_ready_config|]. intros x. by rewrite charge_ids, ready_ids.
  - apply spared_same; [intros x; apply deliver_set_config|intros x; apply deliver_ids].
  - by apply spared_same.
  - by apply spared_same.
  - apply spared_purge.
  - apply spared_tombstone.
  - constructor; [|exact G]. intros _ _. by intros ?%not_elem_of_nil.
  - apply gone_materialize; [apply Hs| |done]. eapply Forall_impl; [by apply numbered_bounds|]. cbn. lia.
Qed.

Lemma commits_gone T p name k s s' : rtc (commit T p) s s' -> sinv s -> gone name k s -> gone name k s'.
Proof. induction 1 as [|a b c C _ IH]; intros Hs G; [done|]. apply IH; [by eapply commit_sinv|by eapply commit_gone]. Qed.

(** ** Completions *)

Lemma deleted_absent (l : list message) i m : NoDup (m_id <$> l) -> l !! i = Some m -> m_id m ∉ m_id <$> delete i l.
Proof.
  intros Hn Hi. rewrite fmap_delete. assert (Hl : (m_id <$> l) !! i = Some (m_id m)) by (by rewrite list_lookup_fmap, Hi).
  intros [j Hj]%list_elem_of_lookup. rewrite NoDup_alt in Hn. destruct (decide (j < i)%nat).
  - rewrite list_lookup_delete_lt in Hj by done. specialize (Hn _ _ _ Hj Hl). lia.
  - rewrite list_lookup_delete_ge in Hj by lia. specialize (Hn _ _ _ Hj Hl). lia.
Qed.

(** What a queue holds, by name: the identities and the data of its messages. *)
Definition contents (s : store) (name : bytes) : list (Z * bytes) :=
  match find_queue s name with Some q => (fun m => (m_id m, m_data m)) <$> q_msgs q | None => [] end.

Definition unconsumed (name input : bytes) (k : Z) (x : Z * bytes) : Prop := ~ (name = input /\ x.1 = k).

#[global] Instance unconsumed_dec name input k x : Decision (unconsumed name input k x).
Proof. unfold unconsumed. apply _. Defined.

Lemma unconsumed_other name input k (l : list (Z * bytes)) : name <> input -> filter (unconsumed name input k) l = l.
Proof. intros H. induction l as [|x l IH]; [done|]. rewrite filter_cons_True by (by intros [? _]). by rewrite IH. Qed.

Lemma unconsumed_absent name k (l : list (Z * bytes)) : k ∉ l.*1 -> filter (unconsumed name name k) l = l.
Proof.
  induction l as [|x l IH]; [done|]. rewrite fmap_cons, not_elem_of_cons. intros [Hx Hl]. rewrite filter_cons_True by (by intros [_ ?]; apply Hx). by rewrite IH.
Qed.

Lemma unconsumed_delete name k (l : list (Z * bytes)) i d : NoDup l.*1 -> l !! i = Some (k, d) -> filter (unconsumed name name k) l = delete i l.
Proof.
  revert i. induction l as [|x l IH]; intros i Nd Hi; [done|]. cbn in Nd. apply NoDup_cons in Nd as [Hx Nd]. destruct i as [|i].
  - injection Hi as ->. rewrite filter_cons_False by (intros H; by apply H). by apply unconsumed_absent.
  - cbn in Hi. rewrite filter_cons_True; [cbn; f_equal; by apply IH|]. unfold unconsumed. intros [_ <-]. apply Hx.
    apply list_elem_of_fmap. exists (x.1, d). split; [done|]. by eapply list_elem_of_lookup_2.
Qed.

Lemma live_find s qid q : wf s -> live_at s qid q -> find_queue s (q_name q) = Some q.
Proof. intros W [G Hd]. apply wf_find; [done| |done]. by eapply get_queue_In. Qed.

Lemma contents_linked s x o id d name : sinv s -> live_at s (q_lock_id o) o -> st_queues x = on_queue s (q_lock_id o) (link_out id d) ->
  contents x name = contents s name ++ (if decide (name = q_name o) then [(id, d)] else []).
Proof.
  intros Hs Lo E. unfold contents. rewrite (find_on_queue s x (q_lock_id o) o (link_out id d) name (si_wf _ Hs) Lo (link_out_config id d) E).
  destruct (decide _) as [-> |]; [|by rewrite app_nil_r]. rewrite (live_find s (q_lock_id o) o (si_wf _ Hs) Lo). unfold link_out. cbn [message_link q_msgs].
  rewrite fmap_app. f_equal. cbn. unfold linked. by gcase.
Qed.

Lemma contents_removed x y qid qq i m name : wf x -> live_at x qid qq -> NoDup (msg_ids qq) -> q_msgs qq !! i = Some m ->
  st_queues y = on_queue x qid (fun z => remove_message z i) -> contents y name = filter (unconsumed name (q_name qq) (m_id m)) (contents x name).
Proof.
  intros W Lx Nd Em E. unfold contents. rewrite (find_on_queue x y qid qq (fun z => remove_message z i) name W Lx (remove_config i) E).
  destruct (decide _) as [-> |]; [|by rewrite unconsumed_other]. rewrite (live_find x qid qq W Lx). rewrite remove_message_msgs, fmap_delete. symmetry.
  apply (unconsumed_delete _ _ _ i (m_data m)); [|by rewrite list_lookup_fmap, Em]. by rewrite <- list_fmap_compose.
Qed.

Section Completed.
Context (s s2 : store) (q : job_request) (tag owner mono : Z) (in_q : queue) (i : nat) (m : message) (r : record).
Hypothesis I : inv s.
Hypothesis D : delivery_live s q tag owner mono in_q i m.
Hypothesis L : logs r (reserve s (output_of s q)) s2.
Hypothesis Hd : data_ok (out_data q).

Let s' : store := (commit_queues s2 (q_lock_id in_q) i (placement s q (output_of s q))).2.

(** The queues after the commit, as two changes of one queue each. *)
Lemma completed_queues : exists x, (output_of s q = None /\ x = s \/
    exists o, output_of s q = Some o /\ evolve s x (on_queue s (q_lock_id o) (link_out (st_next_id s) (out_data q))) [r]) /\
  st_queues s' = on_queue x (q_lock_id in_q) (fun y => remove_message y i).
Proof using I D L.
  unfold s'. destruct (output_of s q) as [o|] eqn:Eo in |- *; cbn [placement]; rewrite ?Eo; cbn [out_id].
  - destruct (completed_pair s s2 q in_q i r I L o Eo) as (s3 & _ & E3 & E4 & _). exists s3. split; [right; by exists o|apply E4].
  - exists s. split; [by left|]. apply (completed_alone s s2 q in_q i r L Eo).
Qed.

Lemma complete_keeps_gone name k : gone name k s -> gone name k s'.
Proof using I D L Hd.
  intros [Hk G]. destruct (completed_inv s s2 q tag owner mono in_q i m r I D L Hd) as [_ N]. fold s' in N. split; [rewrite N, reserve_id; destruct (output_of s q); lia|].
  destruct completed_queues as (x & Hx & ->). apply gone_on_queue; [apply spared_remove|]. destruct Hx as [[_ ->]|(o & _ & E)]; [done|].
  rewrite (ev_queues _ _ _ _ E). apply gone_on_queue; [|done]. apply spared_link. lia.
Qed.

(** The queue of the input between the two changes. *)
Lemma completed_input : exists x qq, (output_of s q = None /\ x = s \/
    exists o, output_of s q = Some o /\ evolve s x (on_queue s (q_lock_id o) (link_out (st_next_id s) (out_data q))) [r]) /\
  st_queues s' = on_queue x (q_lock_id in_q) (fun y => remove_message y i) /\
  live_at x (q_lock_id in_q) qq /\ wf x /\ q_name qq = jq_in q /\ NoDup (msg_ids qq) /\ q_msgs qq !! i = Some m.
Proof using I D L Hd.
  destruct completed_queues as (x & Hx & Ex). exists x. pose proof (input_live s q tag owner mono in_q i m I D) as Li. pose proof (live_at_inv _ _ _ (proj1 I) Li) as Qi.
  assert (Hq : q_name in_q = jq_in q) by (by destruct (find_queue_In s _ _ (dv_queue _ _ _ _ _ _ _ _ D)) as (_ & _ & ?)).
  destruct Hx as [[Eo ->]|(o & Eo & E3)].
  - exists in_q. split_and!; [by left|done|done|apply I|done|apply Qi|apply D].
  - pose proof (output_live s q I o Eo) as Lo. exists (if decide (q_lock_id in_q = q_lock_id o) then link_out (st_next_id s) (out_data q) in_q else in_q).
    assert (W : wf x) by (eapply wf_on_queue; [apply E3|apply E3|apply upd_config_wf; [apply link_out_config|apply I]]).
    pose proof Li as [Gi Di]. split; [right; by exists o|]. split; [done|]. split; [split|split_and!]; try done; try (by destruct (decide _)).
    + rewrite (get_on_queue s x (q_lock_id o) o (link_out (st_next_id s) (out_data q))); [|apply I|apply Lo|apply keeps_config_identity, link_out_config|apply E3].
      destruct (decide _) as [Ed|]; [|done]. do 2 f_equal. destruct Lo as [Go _]. rewrite Ed in Gi. congruence.
    + destruct (decide _); [|apply Qi]. by apply (linked_nodup s q tag owner mono in_q i m).
    + destruct (decide _); [by apply lookup_linked, D|apply D].
Qed.

(** The input has left its queue. *)
Lemma complete_consumes : gone (jq_in q) (jq_in_msg q) s'.
Proof using I D L Hd.
  destruct (completed_inv s s2 q tag owner mono in_q i m r I D L Hd) as [I' N]. fold s' in I', N. destruct (input_id s q tag owner mono in_q i m I D) as [Ek Hk].
  split; [rewrite N, reserve_id; destruct (output_of s q); lia|]. apply Forall_forall. intros y Hy Hl Hn.
  pose proof (wf_get s' y (si_wf _ (proj1 I')) Hy) as Gy.
  assert (Fy : find_queue s' (jq_in q) = Some y) by (rewrite <- Hn; by apply wf_find; [apply I'| |]).
  destruct completed_input as (x & qq & Hx & Ex & Lx & W & Nq & Nd & Em).
  rewrite (find_on_queue x s' (q_lock_id in_q) qq (fun y => remove_message y i) (jq_in q) W Lx (remove_config i) Ex) in Fy.
  rewrite decide_True in Fy by done. injection Fy as <-. unfold msg_ids. rewrite remove_message_msgs, <- Ek. by apply deleted_absent.
Qed.

(** Every queue holds what it held, and the output if it is its queue, without
    the input. *)
Lemma completed_contents name : contents s' name = filter (unconsumed name (jq_in q) (jq_in_msg q))
  (contents s name ++ match output_of s q with Some o => if decide (name = q_name o) then [(st_next_id s, out_data q)] else [] | None => [] end).
Proof using I D L Hd.
  destruct completed_input as (x & qq & Hx & Ex & Lx & W & Nq & Nd & Em). destruct (input_id s q tag owner mono in_q i m I D) as [Ek _].
  assert (Cx : contents x name = contents s name ++ match output_of s q with Some o => if decide (name = q_name o) then [(st_next_id s, out_data q)] else [] | None => [] end).
  { destruct Hx as [[Eo ->]|(o & Eo & E3)]; rewrite Eo; [by rewrite app_nil_r|].
    apply (contents_linked s x o); [apply I|by apply (output_live s q I)|apply E3]. }
  rewrite <- Cx, <- Nq, <- Ek. by apply (contents_removed x s' (q_lock_id in_q) qq i m).
Qed.

End Completed.

(** ** Runs *)

Lemma gone_frame name k s s' rs : evolve s s' (st_queues s) rs -> gone name k s -> gone name k s'.
Proof. intros E [Hk G]. split; [pose proof (ev_id _ _ _ _ E); lia|]. by rewrite (ev_queues _ _ _ _ E). Qed.

Lemma mutation_gone name n e s is_put key value expected op now res e' s' : st_log_open s = true ->
  mutation_outcome e s is_put key value expected op now res e' s' -> gone name n s -> gone name n s'.
Proof.
  intros Ho [| |e1 s1 _ _ _ _ [[_ ->]|D]|e1 e2 s1 _ _ _ _ _ L _]; try done.
  - by eapply gone_frame, doubt_evolve.
  - by eapply gone_frame, logs_evolve.
Qed.

Lemma complete_gone T e0 name n e s q t res e' s' : jinv T e0 e s -> submission_ok q -> complete_outcome e s q t res e' s' ->
  gone name n s -> gone name n s'.
Proof.
  intros I M [st e1 s1 _ [->| ->]| |p e1 s1 _ _ _ _ D|in_q i m e1 e2 s2 _ _ Hb Hz _ _ _ D _ _ msg p L _]; try done.
  - eapply gone_frame, reserve_output_quiet.
  - intros G. eapply gone_frame in G; [|apply (reserve_output_quiet s (output_of s q))]. eapply gone_frame, G. eapply doubt_evolve; [exact D|].
    rewrite (ev_open _ _ _ _ (reserve_output_quiet s _)). apply I.
  - apply (complete_keeps_gone s s2 q _ _ _ in_q i m _ (ji_store _ _ _ _ I) D L). by eapply completion_data.
Qed.

#[local] Opaque gc_loop.

Lemma jstep_gone T e0 name n e s e' s' : jstep T (e, s) (e', s') -> jinv T e0 e s -> gone name n s -> gone name n s'.
Proof.
  intros [c Hc Hr P X W] I. cbn [fst snd] in *. pose proof I as [H1 H2 H3 H4 _ _ _].
  assert (Qc : forall c, covered T s c -> gone name n s -> gone name n (run_call s c)).
  { intros x Hx. eapply commits_gone; [by apply call_commits|apply H2]. }
  destruct c as [c|fresh|key value expected op now|key expected op now|queue consumer vis proof t|q t|now]; cbn [run_job jcall_ok] in *.
  - injection Hr as <- <-. by apply Qc, Covered.
  - unfold job_engine_attach in Hr. destruct (negb _); [by injection Hr as <- <-|]. destruct (en_attached e); [by injection Hr as <- <-|].
    destruct (en_id_set e); [by injection Hr as <- <-|]. destruct fresh as [id|]; [|by injection Hr as <- <-].
    match type of Hr with context [append_record s ?o true ?n ?i ?x ?d true] => pose proof (append_sync_spec s o n i x d) as K; destruct (append_record s o true n i x d true) as [rc s1] end.
    assert (L : gone name n s -> gone name n s1).
    { destruct K as [[_ L]|[_ D]]; [by eapply gone_frame, logs_evolve|by eapply gone_frame, doubt_evolve]. }
    destruct (rc <? 0); by injection Hr as <- <-.
  - pose proof (put_spec e s key value expected op now H1) as K. destruct (job_state_put e s key value expected op now) as [[res e1] s1]. injection Hr as <- <-.
    eapply mutation_gone; [done|apply K].
  - pose proof (delete_spec e s key expected op now H1) as K. destruct (job_state_delete e s key expected op now) as [[res e1] s1]. injection Hr as <- <-.
    eapply mutation_gone; [done|apply K].
  - destruct Hc as [Hn Hp]. pose proof (consume_parts e s queue consumer vis proof t H1 Hp) as K.
    destruct (job_consume e s queue consumer vis proof t) as [[res e1] s1]. injection Hr as <- <-. destruct K as (_ & _ & [->| ->]); [done|]. by apply Qc, Covered.
  - pose proof (job_complete_spec e s q t H1 (si_allocs _ (proj1 H2))) as K. destruct (job_complete e s q t) as [[res e1] s1]. injection Hr as <- <-.
    destruct Hc as [M _]. by eapply complete_gone, K.
  - destruct (job_receipt_gc e now). by injection Hr as <- <-.
Qed.

Lemma jsteps_gone T e0 name n y y' : rtc (jstep T) y y' -> jinv T e0 y.1 y.2 -> gone name n y.2 -> gone name n y'.2.
Proof.
  induction 1 as [|[e s] [e1 s1] y' St _ IH]; [done|]. intros I G. apply IH; [by eapply jstep_inv|by eapply jstep_gone].
Qed.

(** A message that is gone cannot be completed. *)
Lemma gone_not_live s q tag owner mono in_q i m : gone (jq_in q) (jq_in_msg q) s -> delivery_live s q tag owner mono in_q i m -> False.
Proof.
  intros [_ G] D. destruct (find_queue_In s _ _ (dv_queue _ _ _ _ _ _ _ _ D)) as (Hin & Hl & Hn). unfold gone_in in G. rewrite Forall_forall in G.
  apply (G in_q Hin Hl Hn). destruct (find_message_Some _ _ _ (dv_found _ _ _ _ _ _ _ _ D)) as (m' & Em & <-).
  apply list_elem_of_fmap_2. by eapply list_elem_of_lookup_2.
Qed.

End JobOnce.
