(* ===== verification/JobTheorems.v ===== *)
(** * Theorems about durable jobs

    Recovery of the job engine with its store, the fate of acknowledged
    operations, and what the versions of entries promise; then the behaviours
    of job_state.c that differ from what it means to do. *)

From stdpp Require Import base numbers option list relations.
From S2P Require Import Prelude Sha256 Queue QueueIndex WalRecord QueueStore QueueReplay Exchange QueueTx.
From S2P Require Import ExchangeReplay QueueBatch QueueCommit QueueOps ExchangeOps TxOps QueueRun.
From S2P Require Import QueueRecovery QueueOpen Atomic JobEngine JobCompletion JobTable JobSpec JobComplete.
From S2P Require Import JobQueues JobRecords JobRecovery JobRun JobOnce.
Import Sha256 JobDigest Queue QueueIndex Wal Store Replay Batch Commit Ops XOps TxOps Run Recovery(recovered).
Import Open JobEngine JobCompletion JobTable JobSpec JobComplete JobQueues JobRecords JobReplay JobRecovery JobRun JobOnce.

Module JobTheorems.

#[local] Opaque job_canonical_digest gc_loop.

(** ** Replay only adds receipts *)

Record grows (e e' : engine) : Prop := Grows {
  gr_receipts : forall op r, rget e op = Some r -> rget e' op = Some r;
  gr_id : en_id_set e = true -> en_id_set e' = true /\ en_store_id e' = en_store_id e;
  gr_cfg : en_cfg e' = en_cfg e }.

#[global] Instance grows_preorder : PreOrder grows.
Proof.
  split; [by intros e|]. intros a b c [R1 I1 C1] [R2 I2 C2]. constructor; [auto| |congruence].
  intros H. destruct (I1 H) as [H1 E1]. destruct (I2 H1) as [H2 E2]. split; [done|congruence].
Qed.
















(** ** Submissions *)

(** The three operations with an operation id, and one form of answer. *)
Inductive submission :=
  | SPut (key value : bytes) (expected : Z) (op : bytes)
  | SDelete (key : bytes) (expected : Z) (op : bytes)
  | SComplete (q : job_request).

Definition as_answer (m : mutation) : completion_result :=
  CompletionResult (mu_commit m) (mu_version m) 0 (mu_completed m) (mu_expires m) (mu_replayed m).

Definition answered (x : (job_status + mutation) * engine * store) : (job_status + completion_result) * engine * store :=
  let '(res, e, s) := x in (match res with inl st => inl st | inr m => inr (as_answer m) end, e, s).

Definition submit (e : engine) (s : store) (w : submission) (t : clock) : (job_status + completion_result) * engine * store :=
  match w with
  | SPut key value expected op => answered (job_state_put e s key value expected op (ck_now t))
  | SDelete key expected op => answered (job_state_delete e s key expected op (ck_now t))
  | SComplete q => job_complete e s q t
  end.

Definition call_of (w : submission) (t : clock) : jcall :=
  match w with
  | SPut key value expected op => JPut key value expected op (ck_now t)
  | SDelete key expected op => JDelete key expected op (ck_now t)
  | SComplete q => JComplete q t
  end.





Lemma run_submission e s w t : run_job e s (call_of w t) = let '(_, e', s') := submit e s w t in (e', s').
Proof.
  destruct w; cbn [call_of run_job submit].
  - by destruct (job_state_put _ _ _ _ _ _ _) as [[[] ?] ?].
  - by destruct (job_state_delete _ _ _ _ _ _) as [[[] ?] ?].
  - by destruct (job_complete _ _ _ _) as [[? ?] ?].
Qed.






(** ** Building reachable states *)

Definition unusedb (e : engine) (s : store) (op : bytes) : bool :=
  negb (existsb (name_eqb op) (job_ops (st_log s))) || match rget e op with Some _ => true | None => false end.

Lemma unusedb_sound e s op : unusedb e s op = true -> unused e s op.
Proof.
  unfold unusedb, unused. intros [H|H]%orb_prop Hin; [|by destruct (rget e op)]. apply negb_true_iff in H.
  assert (existsb (name_eqb op) (job_ops (st_log s)) = true); [|congruence]. apply existsb_exists. exists op. split; [by apply list_elem_of_In|by apply name_eqb_eq].
Qed.

(** The conditions on a call that depend on the state, and the others. *)
Definition dynamic (e : engine) (s : store) (c : jcall) : bool :=
  match c with
  | JPut _ _ _ op _ | JDelete _ _ op _ => unusedb e s op
  | JConsume _ _ _ (Some proof) _ => match pget e proof with None => true | Some _ => false end
  | JComplete q _ => unusedb e s (jq_op q)
  | _ => true
  end.

Definition static (T : Z) (c : jcall) : Prop :=
  match c with
  | JQueue c => call_ok T c
  | JAttach fresh => match fresh with Some id => zlen id = 16 /\ bytes_ok id | None => True end
  | JPut key value expected op now => mutation_ok T key value expected op now
  | JDelete key expected op now => mutation_ok T key [] expected op now
  | JConsume _ _ _ _ t => cc_now t <= T
  | JComplete q t => submission_ok q /\ 0 <= ck_now t <= T
  | JCollect _ => True
  end.

Lemma checked_ok T e s c : static T c -> dynamic e s c = true -> jcall_ok T e s c.
Proof.
  destruct c as [|[]| | |q c v [proof|] t|q t|]; cbn [static dynamic jcall_ok]; intros H1 H2; repeat split; try done;
    try (by apply unusedb_sound); try (by apply H1). by destruct (pget e proof).
Qed.

Fixpoint run_jobs (e : engine) (s : store) (cs : list jcall) : option (engine * store) :=
  match cs with
  | [] => Some (e, s)
  | c :: cs =>
      let '(e', s') := run_job e s c in
      if dynamic e s c && policyb (st_queues s') && forallb xroomb (st_exchanges s') && capacityb s' then run_jobs e' s' cs else None
  end.

Lemma run_jobs_steps T cs : forall e s y, Forall (static T) cs -> run_jobs e s cs = Some y -> rtc (jstep T) (e, s) y.
Proof.
  induction cs as [|c cs IH]; intros e s y; cbn [run_jobs]; [by intros _ [= <-]|]. intros [Hc Hcs]%Forall_cons.
  destruct (run_job e s c) as [e' s'] eqn:E. destruct (_ && _ && _ && _) eqn:P; [|done]. intros H.
  apply andb_prop in P as [P C]. apply andb_prop in P as [P X]. apply andb_prop in P as [Dn P]. eapply rtc_l; [|by apply IH].
  apply (jstep_call T (e, s) (e', s') c); [by apply checked_ok|done|by apply policyb_sound|by apply xroomb_sound|intros _; by apply capacityb_sound].
Qed.

(** ** A concrete run *)

Definition jobs : bytes := [106; 111; 98].
Definition results : bytes := [114; 101; 115].
Definition worker : bytes := [119].
Definition ident (n : Z) : bytes := replicate 15 7 ++ [n].

Definition cfg0 : jconfig := JConfig 0 0 0 0 0 0.

Definition fresh_engine : engine :=
  default (Engine cfg0 [] false false false [] [] [] 0 0 0 0 0 0 0 0 None [] 0 (JCounters 0 0 0 0 0 0 0 0) []) (job_engine_create cfg0 None []).

Definition at_time (now mono : Z) : clock := Clock mono mono now mono now mono.

(** The delivery of the message under the proof, completed into [results]. *)
Definition demo_request : job_request :=
  JobRequest jobs 2 1 (ident 100) [107] 1 [50; 50] (Some (results, 3, [9; 9])) (ident 2).

Definition demo_before : list jcall :=
  [JAttach (Some (ident 1)); JQueue (DeclareQueue jobs true 10 [] 0); JQueue (DeclareQueue results true 0 [] 0);
   JQueue (Register worker); JQueue (Publish jobs [1; 2; 3] 0 1000 5); JPut [107] [49] 0 (ident 3) 1000;
   JConsume jobs worker 0 (Some (ident 100)) (ConsumeClock 6 1001 6 6 1001)].

Definition demo_after : list jcall :=
  [JPut [108] [51] 0 (ident 4) 1500; JDelete [107] 2 (ident 5) 1600; JCollect 1700].

Definition state_after (e : engine) (s : store) (cs : list jcall) : engine * store := default (e, s) (run_jobs e s cs).

Definition job_demo : engine * store := state_after fresh_engine (open_store true [] []) demo_before.

Example demo_completes : (submit job_demo.1 job_demo.2 (SComplete demo_request) (at_time 1200 10)).1.1 =
  inr (CompletionResult 2 2 2 1200 (1200 + 86400000) false).
Proof. vm_compute. reflexivity. Qed.

Definition demo_complete : jcall := JComplete demo_request (at_time 1200 10).
Definition job_done : engine * store := state_after job_demo.1 job_demo.2 [demo_complete].
Definition job_end : engine * store := state_after job_done.1 job_done.2 demo_after.

(** Decides the arguments of concrete calls. *)
Ltac jobs_ok :=
  repeat first [apply Forall_nil_2 | apply Forall_cons_2]; cbn [static call_ok]; repeat first [split | constructor];
  first [apply bytes_okb_sound; reflexivity | done].

Lemma before_static : Forall (static 2000) demo_before.
Proof. unfold demo_before. jobs_ok. Qed.

Lemma complete_static : Forall (static 2000) [demo_complete].
Proof. unfold demo_complete. jobs_ok. Qed.

Lemma after_static : Forall (static 2000) demo_after.
Proof. unfold demo_after. jobs_ok. Qed.

Lemma demo_created : job_engine_create cfg0 None [] = Some fresh_engine.
Proof. vm_compute. reflexivity. Qed.

Lemma demo_steps : rtc (jstep 2000) (fresh_engine, open_store true [] []) job_demo.
Proof. apply (run_jobs_steps 2000 demo_before); [exact before_static|vm_compute; reflexivity]. Qed.

Lemma done_steps : rtc (jstep 2000) (job_demo.1, job_demo.2) job_done.
Proof. apply (run_jobs_steps 2000 [demo_complete]); [exact complete_static|vm_compute; reflexivity]. Qed.

Lemma end_steps : rtc (jstep 2000) (job_done.1, job_done.2) job_end.
Proof. apply (run_jobs_steps 2000 demo_after); [exact after_static|vm_compute; reflexivity]. Qed.

Lemma pair_steps (x y : engine * store) : rtc (jstep 2000) (x.1, x.2) y -> rtc (jstep 2000) x y.
Proof. by destruct x. Qed.

Lemma steps_pair x (y : engine * store) : rtc (jstep 2000) x y -> rtc (jstep 2000) x (y.1, y.2).
Proof. by destruct y. Qed.

Lemma demo_reach y : rtc (jstep 2000) job_demo y -> job_reachable 2000 cfg0 y.1 y.2.
Proof.
  intros H. exists None, [], [], [], fresh_engine. split; [exact demo_created|]. destruct y as [e s]. by transitivity job_demo; [exact demo_steps|].
Qed.


Lemma end_pair : rtc (jstep 2000) (job_done.1, job_done.2) (job_end.1, job_end.2).
Proof. apply steps_pair. exact end_steps. Qed.

Lemma done_step : jstep 2000 (job_demo.1, job_demo.2) (job_done.1, job_done.2).
Proof.
  apply (jstep_call 2000 _ _ demo_complete).
  - apply checked_ok; [exact (proj1 (Forall_cons_1 _ _ _ complete_static))|vm_compute; reflexivity].
  - vm_compute. reflexivity.
  - apply policyb_sound. vm_compute. reflexivity.
  - apply xroomb_sound. vm_compute. reflexivity.
  - done.
Qed.

Lemma demo_submission : submission_ok demo_request.
Proof. apply (proj1 (Forall_cons_1 _ _ _ complete_static)). Qed.

Lemma cfg0_ok : cfg_ok 2000 (effective cfg0).
Proof. by constructor. Qed.

(** ** Recovery *)





(** ** At most once *)

Lemma gone_contents name k s : gone name k s -> forall d, (k, d) ∉ contents s name.
Proof.
  intros [_ G] d Hin. unfold contents in Hin. destruct (find_queue s name) as [q|] eqn:F; [|by apply not_elem_of_nil in Hin].
  apply find_queue_In in F as (Hq & Hl & Hn). unfold gone_in in G. rewrite Forall_forall in G. apply (G q Hq Hl Hn).
  apply list_elem_of_fmap in Hin as (m & [= -> _] & Hm). by apply list_elem_of_fmap_2.
Qed.

(** C6. A message is completed at most once.  After a completion has consumed
    it, whatever calls of the run relation follow, the queue does not hold it
    in any later state, and whoever submits, with whatever proof and operation
    id, every later success for the same message of the same queue is the
    replay of a receipt and leaves the store alone.  The run has no checkpoint
    and no restart, and no allocation of the store fails. *)
Theorem completed_once T cfg e s q t a e1 s1 e2 s2 :
  job_reachable T cfg e s -> cfg_ok T (effective cfg) -> submission_ok q -> job_complete e s q t = (inr a, e1, s1) -> cr_replayed a = false ->
  jstep T (e, s) (e1, s1) -> rtc (jstep T) (e1, s1) (e2, s2) ->
  (exists d, (jq_in_msg q, d) ∈ contents s (jq_in q)) /\ (forall d, (jq_in_msg q, d) ∉ contents s2 (jq_in q)) /\
  forall q' t' a' e3 s3, job_complete e2 s2 q' t' = (inr a', e3, s3) -> jq_in q' = jq_in q -> jq_in_msg q' = jq_in_msg q ->
    cr_replayed a' = true /\ s3 = s2 /\ quiet e2 e3.
Proof.
  intros R C M E Ea St Sts. destruct (job_engine_create cfg None []) as [e0|] eqn:H0; [|done]. pose proof (job_reachable_inv T cfg e s None e0 R H0 C) as I.
  pose proof (jstep_inv T e0 e s e1 s1 St I) as I1. pose proof (jsteps_inv T e0 _ _ Sts I1) as I2. cbn [fst snd] in I2.
  assert (G : (exists d, (jq_in_msg q, d) ∈ contents s (jq_in q)) /\ gone (jq_in q) (jq_in_msg q) s1).
  { pose proof (job_complete_spec e s q t (ji_engine _ _ _ _ I) (si_allocs _ (proj1 (ji_store _ _ _ _ I)))) as K. rewrite E in K. destruct K as [_ K].
    inversion K as [|r e' Hr Hk Hd Q Hm| |in_q i mm e' e'' s'' Hn Cl Hb Hz Hat Hs Hf D Pv V msg p L Cm Hm]; subst; clear K; [done|]. split.
    - destruct (input_id s q _ _ _ in_q i mm (ji_store _ _ _ _ I) D) as [Ek _]. exists (m_data mm). rewrite <- Ek. unfold contents.
      rewrite (dv_queue _ _ _ _ _ _ _ _ D). apply list_elem_of_fmap. exists mm. split; [done|]. eapply list_elem_of_lookup_2, (dv_message _ _ _ _ _ _ _ _ D).
    - apply (complete_consumes s s'' q _ _ _ in_q i mm _ (ji_store _ _ _ _ I) D L). apply (completion_data T e0 e s q I M Hb Hz). }
  destruct G as [H G]. pose proof (jsteps_gone T e0 _ _ _ _ Sts I1 G) as G2. cbn [snd] in G2. split; [done|]. split; [by apply gone_contents|].
  intros q' t' a' e3 s3 E' En Ei. rewrite <- En, <- Ei in G2.
  pose proof (job_complete_spec e2 s2 q' t' (ji_engine _ _ _ _ I2) (si_allocs _ (proj1 (ji_store _ _ _ _ I2)))) as K. rewrite E' in K. destruct K as [_ K].
  inversion K as [|r e' Hr Hk Hd Q Hm| |in_q i mm e' e'' s'' Hn Cl Hb Hz Hat Hs Hf D Pv V msg p L Cm Hm]; subst; clear K; [done|].
  by destruct (gone_not_live s2 q' _ _ _ in_q i mm G2 D).
Qed.

(** The queue held the input before; after two more calls and a collection it
    does not, and submitting again, now with another clock, is a replay. *)
Lemma completed_once_witness : (exists d, (1, d) ∈ contents job_demo.2 jobs) /\ (forall d, (1, d) ∉ contents job_end.2 jobs) /\
  let x := job_complete job_end.1 job_end.2 demo_request (at_time 1900 20) in
  x.1.1 = inr (CompletionResult 2 2 2 1200 (1200 + 86400000) true) /\ x.2 = job_end.2 /\ quiet job_end.1 x.1.2.
Proof.
  destruct (completed_once 2000 cfg0 job_demo.1 job_demo.2 demo_request (at_time 1200 10) (CompletionResult 2 2 2 1200 (1200 + 86400000) false) job_done.1 job_done.2
    job_end.1 job_end.2) as (H1 & H2 & H3).
  - apply demo_reach. reflexivity.
  - exact cfg0_ok.
  - exact demo_submission.
  - vm_compute. reflexivity.
  - reflexivity.
  - exact done_step.
  - exact end_pair.
  - split; [exact H1|]. split; [exact H2|]. intros x. assert (Ex : x.1.1 = inr (CompletionResult 2 2 2 1200 (1200 + 86400000) true)) by (vm_compute; reflexivity).
    split; [exact Ex|]. destruct x as [[res e3] s3] eqn:E. cbn [fst snd] in *. subst res. exact (proj2 (H3 _ _ _ e3 s3 E eq_refl eq_refl)).
Defined.

(** ** Versions *)

Definition version_kept (e e' : engine) : Prop := en_version e <= en_version e' /\
  forall k x, sget e' k = Some x -> e_version x <= en_version e -> sget e k = Some x.

Lemma same_version e e' : en_version e <= en_version e' -> (forall k, sget e' k = sget e k) -> version_kept e e'.
Proof. intros V S. split; [done|]. intros k x. by rewrite S. Qed.

Lemma idle_version now e e' : idle now e e' -> version_kept e e'.
Proof. intros I. apply same_version; [apply (il_version _ _ _ I)|by apply (idle_state now)]. Qed.

Lemma commits_version now key v r e e1 e' : collected now e e1 -> commits key v r e1 e' ->
  match v with Some x => e_version x = en_version e + 1 | None => True end -> version_kept e e'.
Proof.
  intros C Cm V. destruct (cm_version _ _ _ _ _ Cm) as [_ V']. rewrite (collected_proj now en_version e e1 ltac:(done) C) in V'. split; [lia|].
  intros k x. rewrite (cm_state _ _ _ _ _ Cm), (collected_state now e e1 C). destruct (decide _); [|done]. intros -> Hx. lia.
Qed.

Lemma reproves_version e e' : reproves e e' -> version_kept e e'.
Proof.
  intros R. apply same_version; [by rewrite (reproves_proj en_version e e' ltac:(done) R)|]. intros k. unfold sget. by rewrite (reproves_proj en_state e e' ltac:(done) R).
Qed.

Lemma mutation_version e s is_put key value expected op now res e' s' :
  mutation_outcome e s is_put key value expected op now res e' s' -> version_kept e e'.
Proof.
  intros [st e1 I|r e1 _ _ _ Q|e1 s1 I|e1 e2 s1 _ C _ _ _ _ Cm]; [by eapply idle_version|by eapply (idle_version now), quiet_idle|by eapply idle_version|].
  eapply commits_version; [exact C|exact Cm|]. by destruct is_put.
Qed.

Lemma jstep_version T e s e' s' : jstep T (e, s) (e', s') -> engine_ok e -> st_allocs s = [] -> version_kept e e'.
Proof.
  intros [c Hc Hr P X W] O A. cbn [fst snd] in *.
  assert (Rf : version_kept e e) by (by apply same_version).
  destruct c as [c|fresh|key value expected op now|key expected op now|queue consumer vis proof t|q t|now]; cbn [run_job jcall_ok] in *.
  - by injection Hr as <- <-.
  - unfold job_engine_attach in Hr. repeat match type of Hr with context [if ?b then _ else _] => destruct b; [by injection Hr as <- <-|] end.
    destruct fresh as [id|]; [|by injection Hr as <- <-]. destruct (append_record _ _ _ _ _ _ _ _) as [rc s1].
    destruct (rc <? 0); injection Hr as <- <-; by apply same_version.
  - pose proof (put_spec e s key value expected op now O) as K. destruct (job_state_put e s key value expected op now) as [[res e1] s1]. injection Hr as <- <-.
    eapply mutation_version, K.
  - pose proof (delete_spec e s key expected op now O) as K. destruct (job_state_delete e s key expected op now) as [[res e1] s1]. injection Hr as <- <-.
    eapply mutation_version, K.
  - destruct Hc as [Hn Hp]. pose proof (consume_parts e s queue consumer vis proof t O Hp) as K.
    destruct (job_consume e s queue consumer vis proof t) as [[res e1] s1]. injection Hr as <- <-. apply reproves_version, K.
  - pose proof (job_complete_spec e s q t O A) as K. destruct (job_complete e s q t) as [[res e1] s1]. injection Hr as <- <-. destruct K as [_ K].
    destruct K as [st e1 s1 I _|r e1 _ _ _ Q|p e1 s1 _ I|in_q i m e1 e2 s2 _ C _ _ _ _ _ _ _ _ msg p L Cm];
      [by eapply idle_version|by eapply (idle_version 0), quiet_idle|by eapply idle_version|]. by eapply commits_version; [exact C|exact Cm|].
  - pose proof (gc_spec e now O) as K. unfold job_receipt_gc in Hr. destruct (job_receipt_gc_locked e now) as [k e1]. injection Hr as <- <-.
    eapply idle_version, collected_idle, K.
Qed.

Lemma jsteps_version T e0 y y' : rtc (jstep T) y y' -> jinv T e0 y.1 y.2 -> version_kept y.1 y'.1.
Proof.
  induction 1 as [|[e s] [e1 s1] y' St _ IH]; intros I; [by apply same_version|].
  destruct (jstep_version T e s e1 s1 St (ji_engine _ _ _ _ I) (si_allocs _ (proj1 (ji_store _ _ _ _ I)))) as [V K].
  destruct (IH (jstep_inv T e0 e s e1 s1 St I)) as [V' K']. cbn [fst] in *. split; [lia|]. intros k x Hx Hv. apply K; [apply K'; [done|lia]|done].
Qed.

(** The key a submission writes, the version it expects there, and what it
    leaves. *)
Definition target (w : submission) : bytes :=
  match w with SPut key _ _ _ | SDelete key _ _ => key | SComplete q => jq_key q end.

Definition expects (w : submission) : Z :=
  match w with SPut _ _ expected _ | SDelete _ expected _ => expected | SComplete q => jq_expected q end.

Definition leaves (w : submission) (a : completion_result) : option jentry :=
  match w with
  | SPut key value _ _ => Some (JEntry key value (cr_version a) (cr_commit a))
  | SDelete _ _ _ => None
  | SComplete q => Some (JEntry (jq_key q) (jq_value q) (cr_version a) (cr_commit a))
  end.

(** A submission that is not a replay commits. *)
Lemma submit_commits e s w t a e' s' : engine_ok e -> st_allocs s = [] -> submit e s w t = (inr a, e', s') -> cr_replayed a = false ->
  exists now e1 r, collected now e e1 /\ commits (target w) (leaves w a) r e1 e' /\ en_version e < cr_version a /\
    (expects w <> 0 -> exists y, sget e (target w) = Some y /\ e_version y = expects w).
Proof.
  assert (Hm : forall cur expected, version_matches cur expected = true -> expected <> 0 -> exists y, cur = Some y /\ e_version y = expected).
  { intros cur expected V Hn. unfold version_matches in V. rewrite (proj2 (Z.eqb_neq expected 0) Hn) in V. destruct cur as [y|]; [|done].
    apply Z.eqb_eq in V. eauto. }
  intros O A. destruct w as [key value expected op|key expected op|q]; cbn [submit target leaves expects].
  - pose proof (put_spec e s key value expected op (ck_now t) O) as P. destruct (job_state_put e s key value expected op (ck_now t)) as [[[st|m] e2] s2]; [done|].
    destruct P as [_ P]. intros [= <- <- <-] Ha. inversion P as [|r e3 Hr Hk Hd Q Hq| |e3 e4 s3 Hn Cl Hf Hat Hadm L Cm Hq]; subst; clear P; [done|].
    eexists _, _, _. split; [exact Cl|]. split; [exact Cm|]. split; [cbn; lia|]. by apply Hm.
  - pose proof (delete_spec e s key expected op (ck_now t) O) as P. destruct (job_state_delete e s key expected op (ck_now t)) as [[[st|m] e2] s2]; [done|].
    destruct P as [_ P]. intros [= <- <- <-] Ha. inversion P as [|r e3 Hr Hk Hd Q Hq| |e3 e4 s3 Hn Cl Hf Hat Hadm L Cm Hq]; subst; clear P; [done|].
    eexists _, _, _. split; [exact Cl|]. split; [exact Cm|]. split; [cbn; lia|]. intros _. unfold admissible in Hadm. destruct (sget e key) as [y|]; [|done].
    apply Z.eqb_eq in Hadm. eauto.
  - intros E Ha. pose proof (job_complete_spec e s q t O A) as K. rewrite E in K. destruct K as [_ K].
    inversion K as [|r e3 Hr Hk Hd Q Hq| |in_q i mm e3 e4 s3 Hn Cl Hb Hz Hat Hs Hf D Pv V msg p L Cm Hq]; subst; clear K; [done|].
    eexists _, _, _. split; [exact Cl|]. split; [exact Cm|]. split; [cbn; lia|]. by apply Hm.
Qed.

(** C21. Compare-and-swap on a key is sound over any run.  If a put, a delete
    or a completion names the version of an entry read earlier and is accepted,
    the entry is still the one that was read, value included, however often the
    key has been written, deleted and created in between (versions are never
    used twice); then the key holds the new value under a version above all
    earlier ones, or nothing after a delete, and no other key has changed.  The
    run has no checkpoint and no restart. *)
Theorem swap_sees_read T cfg e s w x e1 s1 t a e2 s2 :
  job_reachable T cfg e s -> cfg_ok T (effective cfg) -> sget e (target w) = Some x -> rtc (jstep T) (e, s) (e1, s1) ->
  expects w = e_version x -> submit e1 s1 w t = (inr a, e2, s2) -> cr_replayed a = false ->
  sget e1 (target w) = Some x /\ sget e2 (target w) = leaves w a /\
  en_version e1 < cr_version a /\ forall k, k <> target w -> sget e2 k = sget e1 k.
Proof.
  intros R C Hx Sts Ew E Ea. destruct (job_engine_create cfg None []) as [e0|] eqn:H0; [|done]. pose proof (job_reachable_inv T cfg e s None e0 R H0 C) as I.
  pose proof (jsteps_inv T e0 _ _ Sts I) as I1. cbn [fst snd] in I1. destruct (jsteps_version T e0 _ _ Sts I) as [V K]. cbn [fst] in V, K.
  destruct (eo_versions _ (ji_engine _ _ _ _ I) _ x Hx) as [Hv _].
  destruct (submit_commits e1 s1 w t a e2 s2 (ji_engine _ _ _ _ I1) (si_allocs _ (proj1 (ji_store _ _ _ _ I1))) E Ea) as (now & e' & r & Cl & Cm & Hlt & Hex).
  destruct Hex as (y & Ey & Hy); [lia|]. pose proof (K _ y Ey ltac:(lia)) as Ky. assert (y = x) as -> by congruence. split_and!; [done| |done|].
  - rewrite (cm_state _ _ _ _ _ Cm). by rewrite decide_True.
  - intros k Hk. rewrite (cm_state _ _ _ _ _ Cm), (collected_state now e1 e' Cl). by rewrite decide_False.
Qed.

Definition job_mid : engine * store := state_after job_done.1 job_done.2 [JPut [108] [51] 0 (ident 4) 1500].

Lemma mid_static : Forall (static 2000) [JPut [108] [51] 0 (ident 4) 1500].
Proof. jobs_ok. Qed.

Lemma mid_steps : rtc (jstep 2000) (job_done.1, job_done.2) (job_mid.1, job_mid.2).
Proof. apply steps_pair. apply (run_jobs_steps 2000 [JPut [108] [51] 0 (ident 4) 1500]); [exact mid_static|vm_compute; reflexivity]. Qed.

(** The put of [job_mid] on another key lies between the read and the write. *)
Lemma swap_sees_read_witness : let x := JEntry [107] [50; 50] 2 2 in
  let e2 := (submit job_mid.1 job_mid.2 (SPut [107] [52] 2 (ident 6)) (at_time 1600 20)).1.2 in
  sget job_mid.1 [107] = Some x /\ sget e2 [107] = Some (JEntry [107] [52] 4 4) /\ en_version job_mid.1 < 4 /\
  forall k', k' <> [107] -> sget e2 k' = sget job_mid.1 k'.
Proof.
  apply (swap_sees_read 2000 cfg0 job_done.1 job_done.2 (SPut [107] [52] 2 (ident 6)) (JEntry [107] [50; 50] 2 2) job_mid.1 job_mid.2 (at_time 1600 20)
    (CompletionResult 4 4 0 1600 (1600 + 86400000) false)
    (submit job_mid.1 job_mid.2 (SPut [107] [52] 2 (ident 6)) (at_time 1600 20)).1.2 (submit job_mid.1 job_mid.2 (SPut [107] [52] 2 (ident 6)) (at_time 1600 20)).2).
  - apply demo_reach. apply pair_steps. exact done_steps.
  - exact cfg0_ok.
  - vm_compute. reflexivity.
  - exact mid_steps.
  - reflexivity.
  - vm_compute. reflexivity.
  - reflexivity.
Defined.

(** ** One commit *)

(** The output of a completion, in the queue of that name. *)
Definition produced (q : job_request) (msg : Z) (name : bytes) : list (Z * bytes) :=
  match jq_out q with Some (n, _, v) => if decide (name = n) then [(msg, v)] else [] | None => [] end.

(** What a completion that is not a replay has done: the input was in its
    queue; it is gone and the output there; the key has the new value, and the
    receipt the answer; and one record, covered by the barrier, says it all. *)
Record completed (e : engine) (s : store) (q : job_request) (a : completion_result) (e' : engine) (s' : store) : Prop := Completed {
  co_input : exists d, (jq_in_msg q, d) ∈ contents s (jq_in q);
  co_version : version_matches (sget e (jq_key q)) (jq_expected q) = true;
  co_queues : forall name, contents s' name = filter (unconsumed name (jq_in q) (jq_in_msg q)) (contents s name ++ produced q (cr_out_msg a) name);
  co_state : forall k, sget e' k = if decide (jq_key q = k) then Some (JEntry (jq_key q) (jq_value q) (cr_version a) (cr_commit a)) else sget e k;
  co_receipt : exists r, rget e' (jq_op q) = Some r /\ complete_result_fill r false = a;
  co_record : exists r, st_log s' = st_log s ++ [r] /\ r_op r = LOG_JOB_COMPLETION;
  co_synced : st_synced_seq s' = st_wal_seq s' }.

Lemma same_contents s s' : st_queues s' = st_queues s -> forall name, contents s' name = contents s name.
Proof. intros E name. unfold contents, find_queue. by rewrite E. Qed.

Lemma reserve_log s o : st_log (reserve s o) = st_log s /\ st_queues (reserve s o) = st_queues s.
Proof. by destruct o. Qed.

(** What the queues of a committed completion hold. *)
Lemma commit_contents s s2 q tag owner mono in_q i m r e digest now : inv s -> delivery_live s q tag owner mono in_q i m -> data_ok (out_data q) ->
  logs r (reserve s (output_of s q)) s2 -> let msg := out_id s (output_of s q) in
  let s' := (commit_queues s2 (q_lock_id in_q) i (match output_of s q with Some o => Some (q_lock_id o, msg, out_data q) | None => None end)).2 in
  forall name, contents s' name = filter (unconsumed name (jq_in q) (jq_in_msg q))
    (contents s name ++ produced q (jr_out_msg (pr_rec (prepared_of e q digest msg now))) name).
Proof.
  intros I D Dd L msg s' name. pose proof (completed_contents s s2 q tag owner mono in_q i m r I D L Dd name) as K. unfold s', msg. etransitivity; [exact K|].
  f_equal. f_equal. unfold produced. cbn [pr_rec prepared_of jr_out_msg receipt_of]. pose proof (dv_output _ _ _ _ _ _ _ _ D) as Do.
  unfold output_of, out_data in *. destruct (jq_out q) as [[[n k] v]|]; [|done]. destruct Do as (o & Eo & _). rewrite Eo.
  by destruct (find_queue_In s _ _ Eo) as (_ & _ & ->).
Qed.

(** The commit of the queues neither logs nor syncs. *)
Lemma commit_queues_log s2 in_id i out : let s' := (commit_queues s2 in_id i out).2 in
  st_log s' = st_log s2 /\ st_wal_seq s' = st_wal_seq s2 /\ st_synced_seq s' = st_synced_seq s2.
Proof. unfold commit_queues. destruct out as [[[o k] d]|]; [|done]. destruct (alloc s2) as [b s3] eqn:E. unfold alloc in E. destruct (draw (st_allocs s2)) as [b' l]. injection E as <- <-. by destruct b'. Qed.

(** C10. A completion is all or nothing.  Refused, it leaves the contents of
    every queue and every entry as they were, and no new receipt; with a receipt
    of the same request it only repeats the answer; and committed, it consumes
    the input, produces the output, writes the key, whose version was the
    expected one, and keeps the receipt, all with one durable record. *)
Theorem completion_atomic T cfg e s q t res e' s' : job_reachable T cfg e s -> cfg_ok T (effective cfg) -> submission_ok q ->
  job_complete e s q t = (res, e', s') ->
  match res with
  | inl st => (forall name, contents s' name = contents s name) /\ (forall k, sget e' k = sget e k) /\
      (forall op r, rget e' op = Some r -> rget e op = Some r) /\ (st <> JOB_OPERATION_IN_DOUBT -> st_log s' = st_log s)
  | inr a => if cr_replayed a then s' = s /\ quiet e e' else completed e s q a e' s'
  end.
Proof.
  intros R C M E. destruct (job_engine_create cfg None []) as [e0|] eqn:H0; [|done]. pose proof (job_reachable_inv T cfg e s None e0 R H0 C) as I.
  pose proof (job_complete_spec e s q t (ji_engine _ _ _ _ I) (si_allocs _ (proj1 (ji_store _ _ _ _ I)))) as K. rewrite E in K. destruct K as [_ K].
  destruct K as [st e1 s1 Id Hs|r e1 _ _ _ Q|p e1 s1 _ Id _ _ D|in_q i m e1 e2 s2 Hn Cl Hb Hz _ _ _ D _ V msg p L Cm]; [| |  |].
  - split_and!; [|by eapply idle_state|apply Id|]; destruct Hs as [->| ->]; try done; try apply same_contents; intros; apply reserve_log.
  - done.
  - split_and!; [|by eapply idle_state|apply Id|done]. apply same_contents. rewrite (unlogged_proj st_queues _ s1 ltac:(done) (dt_rest _ _ _ D)). apply reserve_log.
  - cbn [cr_replayed complete_result_fill]. pose proof (completion_data T e0 e s q I M Hb Hz) as Dd.
    destruct (commit_queues_log s2 (q_lock_id in_q) i (match output_of s q with Some o => Some (q_lock_id o, msg, out_data q) | None => None end)) as (K1 & K2 & K3).
    destruct (input_id s q _ _ _ in_q i m (ji_store _ _ _ _ I) D) as [Ek _]. constructor.
    + exists (m_data m). rewrite <- Ek. unfold contents. rewrite (dv_queue _ _ _ _ _ _ _ _ D). apply list_elem_of_fmap. exists m. split; [done|].
      eapply list_elem_of_lookup_2, (dv_message _ _ _ _ _ _ _ _ D).
    + exact V.
    + apply (commit_contents s s2 q _ _ _ in_q i m _ e (request_digest (en_store_id e) q) (ck_now t) (ji_store _ _ _ _ I) D Dd L).
    + intros k. rewrite (cm_state _ _ _ _ _ Cm). by destruct (decide _); [|apply (collected_state (ck_gc t))].
    + exists (pr_rec p). split; [|done]. rewrite (cm_receipt _ _ _ _ _ Cm). by rewrite decide_True.
    + rewrite K1, (lg_log _ _ _ L). eexists. by rewrite (proj1 (reserve_log s _)).
    + rewrite K2, K3. apply L.
Qed.

Lemma completion_atomic_witness : completed job_demo.1 job_demo.2 demo_request (CompletionResult 2 2 2 1200 (1200 + 86400000) false) job_done.1 job_done.2.
Proof.
  apply (completion_atomic 2000 cfg0 job_demo.1 job_demo.2 demo_request (at_time 1200 10) (inr (CompletionResult 2 2 2 1200 (1200 + 86400000) false)) job_done.1 job_done.2).
  - apply demo_reach. reflexivity.
  - exact cfg0_ok.
  - exact demo_submission.
  - vm_compute. reflexivity.
Defined.

End JobTheorems.
