(* ===== verification/TxReconcile.v ===== *)
(** * The cache log around the marker of a transaction

    Whatever a crash leaves of the log while the marker is written: either
    recovery reads the marker, and the cache is as the whole history with the
    transaction leaves it, or it does not, and the cache is as a history
    without it leaves it.

    Then, in [TxReconcile]: finishing transactions at start-up. *)

From stdpp Require Import base numbers option list relations gmap.
From S2P Require Import Prelude Cache CacheMap CachePlain CacheLog CacheLogSpec CacheLogRun CacheRecovery.
From S2P Require Import CacheLogTheorems Queue QueueIndex WalRecord QueueStore QueueReplay Exchange QueueTx.
From S2P Require Import ExchangeReplay QueueBatch QueueCommit QueueOps ExchangeOps TxOps QueueRun.
From S2P Require Import QueueRecovery QueueOpen Atomic.
Import Cache CacheMap CachePlain CacheLog CacheSnap CacheLogSpec CacheSnapSpec CacheLogRun CacheRecovery CacheSnapRun CacheLogTheorems.

Module AtomicCache.

Section Marker.
Context (max_val T time : Z).
Hypothesis Hpos : 0 <= max_val.
Hypothesis Hmax : fits 32 (max_val + 13).
Hypothesis HT : T <= u32 time.

(** What recovery finds: [o] is the transaction, [whole] says that its
    marker was durable. *)
Definition finds (L D : list lop) (o : lop) (st : recovering) (whole : bool) : Prop :=
  (whole = false /\ (forall id, id ∈ rv_committed st -> id ∈ tx_ids L) /\
     forall key, covers (u32 time) D L (contents (rv_cache st)) key) \/
  ((forall id, id ∈ rv_committed st -> id ∈ tx_ids (L ++ [o])) /\
   (forall id, id ∈ tx_ids [o] -> id ∈ rv_committed st) /\
   forall key, shows (u32 time) (lops_apply ∅ (L ++ [o]) !! key) (contents (rv_cache st)) key).

Lemma tx_ids_app a b : tx_ids (a ++ b) = tx_ids a ++ tx_ids b.
Proof. unfold tx_ids. by rewrite omap_app. Qed.

Lemma marker_disk P L D F B Fs p ph o p' n c (whole : bool) : inv max_val T P L D F B Fs p ph ->
  lop_ok max_val o -> unconditional o -> ps_snap p' = ps_snap p ->
  ps_file p `prefix_of` ps_file p' -> ps_file p' `prefix_of` stream p ++ lop_bytes o ->
  ps_synced p <= Z.of_nat n ->
  (whole = true -> take n (ps_file p') = stream p ++ lop_bytes o) -> plain c -> contents c = ∅ ->
  exists F1 st, load_persisted max_val time c (ps_snap p') (take n (ps_file p')) = (st, lops_bytes F1) /\
    finds L D o st whole.
Proof.
  intros [_ _ _ HF HB HL [Ho Hu] [Hs1 Hs2] HD HS _] Hoo Huo Esn Hmore Hfile Hn Hw Hc He.
  unfold stream in *. rewrite HF, HB, lops_one, <- app_assoc, <- !lops_bytes_app in *.
  set (G := F ++ B ++ [o]) in *.
  assert (HG : Forall (lop_ok max_val) G /\ Forall unconditional G).
  { subst L. apply Forall_app in Ho as [_ Ho], Hu as [_ Hu].
    unfold G. rewrite app_assoc. split; (apply Forall_app_2; [done|by constructor]). }
  destruct HG as [HG HGu]. rewrite Esn.
  destruct (snap_loads max_val T time Hpos Hmax HT P L (ps_snap p) c HS Hc He) as (c1 & Hld & Hc1 & Hcov).
  assert (Hpre : take n (ps_file p') `prefix_of` lops_bytes G) by (etrans; [apply prefix_take|done]).
  destruct (replay_file max_val time Hpos Hmax G (take n (ps_file p')) c1 HG Hpre Hc1)
    as (F1 & F2 & rc & good & st & EG & Er & Ec & Hst & Hrec & Hmaxl).
  exists F1, st. split; [unfold load_persisted; rewrite Hld, Er; by rewrite Ec|].
  assert (HFs1 : Fs `prefix_of` F1).
  { apply Hmaxl; [etrans; [exact Hs1|by apply prefix_app_r]|]. rewrite <- Hs2.
    apply lops_bytes_prefix, prefix_length in Hs1. apply prefix_length in Hmore.
    unfold zlen in *. rewrite length_take. lia. }
  rewrite EG in HGu. apply Forall_app in HGu as [Hu1 _].
  pose proof (eq_trans (f_equal snd Hrec) (replay_ids _ _ _ Hu1)) as Hids. cbn in Hids.
  assert (HD1 : D `prefix_of` P ++ F1) by (etrans; [exact HD|by apply prefix_app]).
  destruct F2 as [|o2 F2 _] using rev_ind.
  - right. rewrite app_nil_r in EG. subst F1. rewrite Hids.
    assert (EL : P ++ G = L ++ [o]) by (unfold G; rewrite HL, <- !app_assoc; done).
    split; [|split].
    + intros id Hid. rewrite <- EL, tx_ids_app. apply elem_of_app. by right.
    + intros id Hid. unfold G. rewrite !tx_ids_app, !elem_of_app. auto.
    + intros key. eapply (replayed_covers time P (L ++ [o]) D G c1 st); [|exact Hrec|done|done| |done].
      * intros k. eapply covers_mono; [done| |apply Hcov]. by apply prefix_app_r.
      * by rewrite EL.
  - left. unfold G in EG. rewrite app_assoc, app_assoc in EG. apply app_inj_tail in EG as [EG _].
    assert (HPL : (P ++ F1) `prefix_of` L) by (rewrite HL, EG, app_assoc; by apply prefix_app_r).
    split; [|split].
    + destruct whole; [|done]. exfalso. assert (HFull : G `prefix_of` F1).
      { apply Hmaxl; [done|]. by rewrite Hw. }
      apply prefix_length in HFull. unfold G in HFull. rewrite app_assoc, EG, !length_app in HFull. simpl in HFull. lia.
    + intros id Hid. rewrite Hids in Hid. destruct HPL as [x ->]. rewrite !tx_ids_app, !elem_of_app. auto.
    + intros key. by eapply (replayed_covers time P L D F1 c1 st).
Qed.

(** Before the marker is written. *)
Lemma unmarked_disk P L D F B Fs p ph n c : inv max_val T P L D F B Fs p ph ->
  ps_synced p <= Z.of_nat n -> plain c -> contents c = ∅ ->
  exists F1 st, load_persisted max_val time c (ps_snap p) (take n (ps_file p)) = (st, lops_bytes F1) /\
    (forall id, id ∈ rv_committed st -> id ∈ tx_ids L) /\
    forall key, covers (u32 time) D L (contents (rv_cache st)) key.
Proof.
  intros I Hn Hc He. pose proof (in_all _ _ _ _ _ _ _ _ _ _ I) as HL. apply inv_disk_at in I.
  destruct (disk_recovers max_val T time Hpos Hmax HT _ _ _ _ _ _ _ _ _ n c I Hn Hc He)
    as (F1 & st & H1 & H2 & H3 & _ & [z H4]).
  exists F1, st. rewrite app_nil_r in H2. split; [done|]. split; [|done].
  intros id. rewrite H3, HL, H4, !tx_ids_app, !elem_of_app. auto.
Qed.

(** While it is written, and afterwards. *)
Lemma marked_disk P L D F B Fs p ph id sub key value exp t now rc p' n c (whole : bool) :
  inv max_val T P L D F B Fs p ph -> let o := LTx id sub key value exp in
  lop_ok max_val o -> unconditional o ->
  persist_tx_commit p id sub key value exp false t now = (rc, p') ->
  (if whole then rc = 0 /\ ps_synced p' <= Z.of_nat n else ps_synced p <= Z.of_nat n) ->
  plain c -> contents c = ∅ ->
  exists F1 st, load_persisted max_val time c (ps_snap p') (take n (ps_file p')) = (st, lops_bytes F1) /\
    finds L D o st whole.
Proof.
  intros I o Ho Hu E Hn. apply tx_commit_spec in E; [|apply I]. fold o in E.
  pose proof (dk_written _ _ _ _ _ _ _ _ _ _ _ (inv_disk_at _ _ _ _ _ _ _ _ _ _ I)) as Hw.
  assert (H : ps_snap p' = ps_snap p /\ ps_file p `prefix_of` ps_file p' /\
    ps_file p' `prefix_of` stream p ++ lop_bytes o /\
    (rc = 0 -> ps_file p' = stream p ++ lop_bytes o /\ ps_synced p' = zlen (ps_file p'))).
  { destruct E as [(-> & [[Hf _ _ _ _] _ Hs _ _] & _ & [Hb Hsy])|(-> & [[Hf _ _ _ _] _ Hm Hp _])].
    - assert (Ef : ps_file p' = stream p ++ lop_bytes o) by (rewrite <- Hs; unfold stream; by rewrite Hb, app_nil_r).
      rewrite Ef in *. split; [done|]. split; [|done]. unfold stream. rewrite <- app_assoc. by apply prefix_app_r.
    - split; [done|]. split; [done|]. split; [done|]. lia. }
  destruct H as (H1 & H2 & H3 & H4). apply (marker_disk P L D F B Fs p ph); try done.
  - destruct whole; [|done]. destruct Hn as [-> Hn]. destruct H4 as [_ H4]; [done|].
    apply prefix_length in H2. unfold zlen in *. lia.
  - intros ->. destruct Hn as [-> Hn]. destruct H4 as [Ef H4]; [done|]. rewrite <- Ef. apply take_ge.
    unfold zlen in *. lia.
Qed.

End Marker.

End AtomicCache.

(** * Finishing transactions at start-up

    The queue side of recovery: replay of any part of the log around a
    transaction, then [reconcile_transactions] with the identities the cache
    log knows.  If the cache committed, every durable target has the message;
    if it did not, none has. *)

Import Queue QueueIndex Wal Store Replay Batch Exchanges XChange Tx XReplay TxReplay Commit Ops XOps TxOps Run Recovery Open TxPending Atomic.

Module TxReconcile.

(** Every target queue holds the message under its reserved identity. *)
Definition delivered (r : store) (tx : queue_tx) : Prop := forall t, t ∈ tx_targets tx ->
  exists rq m, find_queue r (t_name t) = Some rq /\ m ∈ q_msgs rq /\ m_id m = t_msg_id t /\
    m_data m = tx_data tx.

(** No queue holds a message under one of the identities; the messages of
    transactions do not expire. *)
Definition no_trace (r : store) (tx : queue_tx) : Prop := forall t name rq m,
  t ∈ tx_targets tx -> find_queue r name = Some rq -> m ∈ q_msgs rq -> m_expires m = 0 ->
  m_id m <> t_msg_id t.

Definition drop_pending (s : store) : store := {| s with st_tx_pending := [] |}.

(** ** What recovery depends on *)

Record same_state (r r' : store) : Prop := SameState {
  ss_queues : st_queues r' = st_queues r;
  ss_exchanges : st_exchanges r' = st_exchanges r;
  ss_consumers : st_consumers r' = st_consumers r;
  ss_allocs : st_allocs r' = st_allocs r;
  ss_id : st_next_id r' = st_next_id r;
  ss_lock : st_next_lock_id r' = st_next_lock_id r }.

Lemma same_state_trans a b c : same_state a b -> same_state b c -> same_state a c.
Proof. intros [] []. constructor; congruence. Qed.

Lemma recovered_same T s r r' : same_state r r' -> recovered T s r -> recovered T s r'.
Proof.
  intros [E1 E2 E3 E4 E5 E6] [[W1 W2 W3] A N Q C X]. constructor; try congruence.
  - constructor; unfold lock_ids, live_queues in *; rewrite ?E1; try done. by rewrite E6.
  - intros name. unfold find_queue at 2. rewrite E1, E5. apply Q.
  - intros H. rewrite E3. auto.
Qed.

Lemma materialize_same tx ts : forall r r', same_state r r' -> st_allocs r = [] ->
  same_state (fold_left (materialize_one tx) ts r) (fold_left (materialize_one tx) ts r').
Proof.
  induction ts as [|t ts IH]; intros r r' S A; [done|]. cbn [fold_left].
  pose proof (ss_allocs _ _ S) as A'. rewrite A in A'.
  assert (H : same_state (materialize_one tx r t) (materialize_one tx r' t) /\
    st_allocs (materialize_one tx r t) = []).
  { unfold materialize_one, find_queue. rewrite (ss_queues _ _ S). gcase; [|done].
    rewrite !append_message_upd by done. split; [|done]. destruct S. constructor; simpl; congruence. }
  destruct H as [H1 H2]. by apply IH.
Qed.

(** ** Resolving *)

Lemma resolve_head s tx rest committed : st_tx_pending s = tx :: rest ->
  queue_tx_resolve s (tx_id tx) committed =
  if committed then
    let '(rc, s) := log_commit {| s with st_tx_pending := rest |} tx in
    if rc <? 0 then (-1, {| s with st_tx_pending := tx :: st_tx_pending s |})
    else (1, tx_materialize_locked s tx)
  else (1, {| s with st_tx_pending := rest |}).
Proof. intros E. unfold queue_tx_resolve. rewrite E. cbn [take_tx]. by rewrite Z.eqb_refl. Qed.

Definition in_ids (id : Z) (l : list Z) : bool := existsb (Z.eqb id) l.

Lemma in_ids_spec id l : in_ids id l = true <-> id ∈ l.
Proof.
  unfold in_ids. rewrite existsb_exists. split.
  - intros (x & Hx & ->%Z.eqb_eq). by apply list_elem_of_In.
  - intros H. exists id. split; [by apply list_elem_of_In|apply Z.eqb_refl].
Qed.

Lemma in_ids_false id l : id ∉ l -> in_ids id l = false.
Proof. intros H. apply not_true_iff_false. by rewrite in_ids_spec. Qed.

(** Transactions the cache knows nothing of are dropped. *)
Lemma resolve_dropped l C : forall s, st_tx_pending s = l -> Forall (fun tx => tx_id tx ∉ C) l ->
  exists s', resolve_all s (tx_id <$> l) C = Some s' /\ same_state s s' /\ st_tx_pending s' = [].
Proof.
  induction l as [|tx l IH]; intros s E H; [by exists s|]. apply Forall_cons in H as [Hn H].
  rewrite fmap_cons. cbn [resolve_all]. change (existsb (Z.eqb (tx_id tx)) C) with (in_ids (tx_id tx) C).
  rewrite (in_ids_false _ _ Hn), (resolve_head s tx l) by done. cbn [Z.ltb Z.compare].
  destruct (IH {| s with st_tx_pending := l |}) as (s' & E' & S & N); [done|done|].
  exists s'. split; [done|]. split; [|done]. destruct S. by constructor.
Qed.

Lemma pending_ids_nil s : st_allocs s = [] -> queue_tx_pending_ids s = (tx_id <$> st_tx_pending s, s).
Proof.
  intros A. unfold queue_tx_pending_ids. destruct (st_tx_pending s); [done|]. by rewrite alloc_nil.
Qed.

Lemma reconcile_dropped s C : st_allocs s = [] -> Forall (fun tx => tx_id tx ∉ C) (st_tx_pending s) ->
  exists s', reconcile_transactions s C = Some s' /\ same_state s s'.
Proof.
  intros A H. unfold reconcile_transactions. rewrite pending_ids_nil by done.
  destruct (resolve_dropped _ C s eq_refl H) as (s' & E & S & _). by exists s'.
Qed.

(** The log of a store that was just opened accepts the second record. *)
Definition log_works (s : store) : Prop := st_log_open s = true /\ st_failed s = false /\ st_ios s = [].

Lemma log_commit_works s tx : log_works s -> exists s', log_commit s tx = (0, s') /\ same_state s s' /\
  st_tx_pending s' = st_tx_pending s.
Proof.
  intros (H1 & H2 & H3). unfold log_commit, append_record, io. rewrite H1, H2, H3.
  eexists. split; [done|]. split; [|done]. by constructor.
Qed.

(** The transaction at the head was committed by the cache. *)
Lemma reconcile_committed s tx rest C : st_allocs s = [] -> st_tx_pending s = tx :: rest ->
  tx_id tx ∈ C -> Forall (fun tx => tx_id tx ∉ C) rest -> log_works s ->
  exists s', reconcile_transactions s C = Some s' /\ same_state (tx_materialize_locked s tx) s'.
Proof.
  intros A E Hin H W. unfold reconcile_transactions. rewrite pending_ids_nil by done. rewrite E, fmap_cons.
  cbn [resolve_all]. change (existsb (Z.eqb (tx_id tx)) C) with (in_ids (tx_id tx) C).
  rewrite (proj2 (in_ids_spec _ _) Hin), (resolve_head s tx rest) by done.
  destruct (log_commit_works {| s with st_tx_pending := rest |} tx W) as (s1 & -> & S1 & P1).
  cbn [Z.ltb Z.compare]. assert (A1 : st_allocs s1 = []) by (rewrite (ss_allocs _ _ S1); done).
  destruct (materialize_log tx (tx_targets tx) s1 A1) as (_ & P2 & A2).
  destruct (resolve_dropped rest C (tx_materialize_locked s1 tx)) as (s' & -> & S & _); [|done|].
  { unfold tx_materialize_locked. by rewrite P2, P1. }
  exists s'. split; [done|]. eapply same_state_trans; [|exact S].
  apply materialize_same; [|done]. apply (same_state_trans _ {| s with st_tx_pending := rest |}); [done|done].
Qed.

(** ** Messages on both sides *)

Lemma kept_in T l m : m ∈ l -> m_expires m = 0 -> entry_of m ∈ kept T l.
Proof.
  intros Hm He. unfold kept. apply list_elem_of_filter. split; [by left|]. by apply list_elem_of_fmap_2.
Qed.

Lemma in_kept T l e : e ∈ kept T l -> exists m, m ∈ l /\ entry_of m = e.
Proof.
  unfold kept. intros [_ (m & -> & Hm)%list_elem_of_fmap]%list_elem_of_filter. by exists m.
Qed.

(** Identities that no queue of the running store has. *)
Lemma recovered_below T s r b : recovered T s r ->
  (forall name q m, find_queue s name = Some q -> m ∈ q_msgs q -> m_id m < b) ->
  forall name rq m, find_queue r name = Some rq -> m ∈ q_msgs rq -> m_expires m = 0 -> m_id m < b.
Proof.
  intros R H name rq m F Hm He. pose proof (rc_queues _ _ _ R name) as Hr. rewrite F in Hr.
  destruct Hr as (q & Fq & _ & _ & V & _). pose proof (kept_in T _ m Hm He) as Hk.
  rewrite (view_kept _ _ _ V) in Hk. apply in_kept in Hk as (m' & Hm' & Em).
  unfold entry_of in Em. injection Em as E _ _ _. rewrite <- E. by eapply H.
Qed.

Lemma find_ids s name q m : sinv s -> find_queue s name = Some q -> m ∈ q_msgs q -> m_id m < st_next_id s.
Proof.
  intros Hs F Hm. pose proof (find_live _ _ _ (si_wf _ Hs) F) as L.
  pose proof (qi_id_lt _ _ _ (live_at_inv _ _ _ Hs L)) as Hq. rewrite Forall_forall in Hq.
  destruct (Hq m Hm). lia.
Qed.

Lemma below_no_trace tx r b : Forall (fun t => b <= t_msg_id t) (tx_targets tx) ->
  (forall name rq m, find_queue r name = Some rq -> m ∈ q_msgs rq -> m_expires m = 0 -> m_id m < b) ->
  no_trace r tx.
Proof.
  rewrite Forall_forall. intros Ht H t name rq m Hin F Hm He E. specialize (Ht t Hin).
  specialize (H name rq m F Hm He). lia.
Qed.

(** The running store with the messages linked. *)
Section Linked.
Context (T : Z) (s1 : store) (tx : queue_tx).
Hypothesis Hs : sinv s1.
Hypothesis Hform : tx_form tx.
Hypothesis Hexp : tx_expires tx = 0.
Hypothesis Hnum : numbered (st_next_id s1) (tx_targets tx).
Hypothesis Hplan : Forall (planned s1) (tx_targets tx).
Hypothesis Hnodup : NoDup (t_queue <$> tx_targets tx).
Hypothesis Hfit : fits 64 (st_next_id s1 + zlen (tx_targets tx)).

Definition all_linked : store := fold_left (link_next tx) (tx_targets tx) s1.

Lemma all_linked_inv : sinv all_linked.
Proof.
  destruct Hform. by destruct (link_all tx tf_data0 tf_expires0 (fun _ _ => True) ltac:(done) (tx_targets tx) s1)
    as (H & _ & _).
Qed.

Lemma all_linked_get t qid q : t ∈ tx_targets tx -> t_queue t = Some qid -> get_queue s1 qid = Some q ->
  get_queue all_linked qid = Some (tx_link tx t q).
Proof.
  intros Ht Eq G. unfold all_linked.
  assert (Hq : forall t, t ∈ tx_targets tx -> t_queue t <> None) by (intros u; by apply (planned_queue s1)).
  unfold get_queue. rewrite (link_fold tx (tx_targets tx) s1 s1) by (done || apply Hs).
  destruct (materialize_get tx (tx_targets tx) s1) with (qid := qid) (q := q) as [H _]; try done; try apply Hs.
  - eapply Forall_impl; [exact Hplan|]. intros u (k & x & H1 & H2 & H3 & _). by exists k, x.
  - by apply (H t).
Qed.

Lemma all_linked_delivers r : recovered T all_linked r ->
  (forall t qid q, t ∈ tx_targets tx -> t_queue t = Some qid -> get_queue s1 qid = Some q -> q_durable q = true) ->
  delivered r tx.
Proof.
  intros R Hd t Ht. pose proof Hplan as Hp. rewrite Forall_forall in Hp. destruct (Hp t Ht) as (qid & q & Eq & [G D] & En & _).
  pose proof (all_linked_get t qid q Ht Eq G) as G'. pose proof (Hd t qid q Ht Eq G) as Du.
  destruct (config_inv _ _ (tx_link_config tx t q)) as (_ & Cn & Cd & Cx & _).
  destruct (recovered_found T all_linked r qid (tx_link tx t q)) as (rq & F & _ & V & _); try done.
  - apply all_linked_inv.
  - rewrite Cn, En in F.
    set (m := message_create (t_msg_id t) (tx_expires tx) (tx_data tx)).
    assert (Hk : entry_of m ∈ kept T (q_msgs rq)).
    { rewrite (view_kept _ _ _ V). unfold tx_link. cbn [message_link q_msgs]. rewrite kept_app, linked_entry.
      fold m. rewrite decide_True by (by left). apply elem_of_app. right. by apply list_elem_of_singleton. }
    apply in_kept in Hk as (m' & Hm' & Em). exists rq, m'. unfold entry_of in Em.
    injection Em as E1 _ E3 E4. split_and!; try done; congruence.
Qed.

(** *** Any part of the log *)

Context (j : bool) (ios locks : list bool) (job : bool).
Hypothesis Hrun : rtc (commit T Any) (open_store j ios locks) s1.
Hypothesis Hok : st_failed s1 = false.
Hypothesis Hdurable : forall t qid q, t ∈ tx_targets tx -> t_queue t = Some qid ->
  get_queue s1 qid = Some q -> q_durable q = true.

Definition fresh_store : store := empty_store job true [] [] [].

(** What start-up leads to. *)
Definition resolved (rs : list record) (C : list Z) : Prop := exists r r',
  Forall loggable rs /\ replay_records fresh_store rs = Some r /\
  reconcile_transactions r C = Some r' /\
  if in_ids (tx_id tx) C then delivered r' tx else no_trace r' tx.

Lemma numbered_from : Forall (fun t => st_next_id s1 <= t_msg_id t) (tx_targets tx).
Proof. eapply Forall_impl; [by apply numbered_bounds|]. cbn. lia. Qed.

(** The records before the transaction. *)
Lemma base_recovers : exists r0, Forall loggable (st_log s1) /\
  replay_records fresh_store (st_log s1) = Some r0 /\ recovered T s1 r0.
Proof.
  destruct (open_inv j ios locks) as [[I _] _]. pose proof (si_id _ Hs). pose proof (zlen_nonneg (tx_targets tx)).
  assert (Hf : fits 64 (st_next_id s1)) by (unfold fits in *; lia).
  destruct (commits_recoverable T Any job _ s1 Hrun I Hf (open_recoverable T job j ios locks) Hok)
    as (Hl & r0 & E & R). by exists r0.
Qed.

(** A crash that lost the record of the transaction. *)
Lemma crash_before rs C : rs `prefix_of` st_log s1 -> tx_id tx ∉ C ->
  (forall r, replay_records fresh_store rs = Some r -> Forall (fun tx => tx_id tx ∉ C) (st_tx_pending r)) ->
  resolved rs C.
Proof.
  intros Hp Hn HC. pose proof (si_id _ Hs). pose proof (zlen_nonneg (tx_targets tx)).
  destruct (moment_recovers T job j ios locks s1 rs) as (si & r & [_ _ _ Hid _] & Hsi & Hl & Er & R); try done.
  { unfold fits in *. lia. }
  destruct (reconcile_dropped r C) as (r' & Ec & S); [apply R|by apply HC|].
  exists r, r'. split; [done|]. split; [done|]. split; [done|]. rewrite in_ids_false by done.
  apply (below_no_trace tx r' (st_next_id s1)); [apply numbered_from|].
  eapply recovered_below; [by eapply recovered_same|]. intros name q m F Hm.
  pose proof (find_ids si name q m Hsi F Hm). lia.
Qed.

Lemma works_after r0 rs : replay_records fresh_store rs = Some r0 -> log_works r0.
Proof. intros E. apply replay_log_same in E as [E1 E2 E3]; [|done]. split_and!; [by rewrite E1|by rewrite E2|by rewrite E3]. Qed.

(** A crash between the two records. *)
Lemma crash_between C :
  (forall r, replay_records fresh_store (st_log s1) = Some r ->
     Forall (fun tx => tx_id tx ∉ C) (st_tx_pending r)) ->
  resolved (st_log s1 ++ [prepare_record tx]) C.
Proof.
  intros HC. destruct base_recovers as (r0 & Hl & E0 & R0). specialize (HC r0 E0).
  pose proof (si_id _ Hs). pose proof (zlen_nonneg (tx_targets tx)).
  set (r := pend (bump_ids r0 (tx_targets tx)) (replayed tx)).
  set (sP := {| s1 with st_next_id := st_next_id s1 + zlen (tx_targets tx) |}).
  assert (HsP : recovered T sP r0).
  { destruct R0. constructor; try done. simpl. lia. }
  assert (Rp : recovered T sP r).
  { apply recovered_pend, recovered_bumps; [done| |done].
    eapply Forall_impl; [by apply numbered_bounds|]. cbn. lia. }
  assert (Er : replay_records fresh_store (st_log s1 ++ [prepare_record tx]) = Some r).
  { rewrite replay_records_app, E0, replay_one. apply prepare_replays; [done| |apply R0].
    eapply Forall_impl; [by apply numbered_bounds|]. cbn. unfold fits in *. lia. }
  assert (Hlr : Forall loggable (st_log s1 ++ [prepare_record tx])).
  { apply Forall_app_2; [done|]. constructor; [by apply tx_records_ok|constructor]. }
  assert (Hpend : st_tx_pending r = replayed tx :: st_tx_pending r0) by (unfold r, pend; simpl; by rewrite bump_ids_pending).
  destruct (in_ids (tx_id tx) C) eqn:Ec.
  - apply in_ids_spec in Ec as Hin.
    destruct (reconcile_committed r (replayed tx) (st_tx_pending r0) C) as (r' & Er' & S); try done.
    { apply Rp. }
    { by eapply works_after. }
    exists r, r'. do 3 (split; [done|]). rewrite Ec. apply (all_linked_delivers r'); [|done].
    eapply recovered_same; [exact S|]. eapply recovered_same; [|by apply transact_links].
    apply materialize_same; [done|]. exact (rc_allocs _ _ _ Rp).
  - assert (Hn : tx_id tx ∉ C) by (rewrite <- in_ids_spec; congruence).
    destruct (reconcile_dropped r C) as (r' & Er' & S); [apply Rp|rewrite Hpend; by constructor|].
    exists r, r'. do 3 (split; [done|]). rewrite Ec.
    apply (below_no_trace tx r' (st_next_id s1)); [apply numbered_from|].
    eapply recovered_below; [by eapply recovered_same|]. intros name q m F Hm. by eapply (find_ids s1).
Qed.

(** A crash behind the second record. *)
Lemma crash_after C : tx_id tx ∈ C ->
  (forall r, replay_records fresh_store (st_log s1) = Some r ->
     Forall (fun tx => tx_id tx ∉ C) (st_tx_pending r)) ->
  resolved (st_log s1 ++ [prepare_record tx; commit_record tx]) C.
Proof.
  intros Hin HC. destruct base_recovers as (r0 & Hl & E0 & R0). specialize (HC r0 E0).
  pose proof (si_id _ Hs). pose proof (zlen_nonneg (tx_targets tx)).
  set (r := tx_materialize_locked (bump_ids r0 (tx_targets tx)) (replayed tx)).
  pose proof (transact_links T s1 r0 tx Hs Hform Hnum Hplan Hnodup Hfit R0) as R. fold r in R.
  assert (Hif : ids_fit (tx_targets tx)).
  { eapply Forall_impl; [by apply numbered_bounds|]. cbn. unfold fits in *. lia. }
  assert (Er : replay_records fresh_store (st_log s1 ++ [prepare_record tx; commit_record tx]) = Some r).
  { rewrite replay_records_app, E0. cbn [replay_records]. rewrite prepare_replays by (done || apply R0).
    by rewrite commit_replays_head by apply Hform. }
  assert (Hpend : st_tx_pending r = st_tx_pending r0).
  { unfold r, tx_materialize_locked. destruct (materialize_log (replayed tx) (tx_targets (replayed tx))
      (bump_ids r0 (tx_targets tx))) as (_ & -> & _); [|apply bump_ids_pending].
    unfold bump_ids. rewrite bumps_allocs. apply R0. }
  destruct (reconcile_dropped r C) as (r' & Er' & S); [apply R|by rewrite Hpend|].
  exists r, r'. split; [|split; [done|split; [done|]]].
  - apply Forall_app_2; [done|]. destruct (tx_records_ok tx Hform). by repeat first [apply Forall_cons_2|apply Forall_nil_2].
  - rewrite (proj2 (in_ids_spec _ _) Hin). apply (all_linked_delivers r'); [|done]. by eapply recovered_same.
Qed.

End Linked.

End TxReconcile.
