(* ===== verification/CheckpointTheorems.v ===== *)
(** * Theorems on checkpoints

    A checkpoint publishes all of the live state or none of it; the staging
    buffer does not show; what it publishes opens to the state it was taken
    from, when no transient queue holds a message.  Then the states in which it
    does not: transient messages, receipts of puts and deletes, a prepared
    transaction whose marker failed, and a directory that could not be synced. *)

From stdpp Require Import base numbers option list relations.
From S2P Require Import Crc Prelude Sha256 Queue QueueIndex WalRecord QueueStore QueueReplay Exchange QueueTx.
From S2P Require Import ExchangeReplay QueueBatch QueueCommit QueueOps ExchangeOps TxOps QueueRun QueueSpec.
From S2P Require Import QueueRecovery QueueOpen Atomic JobEngine Checkpoint JobRecords CheckpointReplay.
From S2P Require Import TxReconcile JobCompletion JobSpec JobRun JobTheorems Snapshot.
Import Queue QueueIndex Wal Store Replay Batch Exchanges XChange Tx XReplay TxReplay Commit Ops XOps TxOps Run Spec Recovery Open JobReplay JobEngine.
Import Checkpoint CkptReplay Snapshot.

Module CheckpointTheorems.

(** ** The engine's records *)

Definition engine_records (e : engine) (now : Z) : list record :=
  (entry_record <$> concat (en_state e)) ++
  (receipt_wal_record <$> List.filter (fun r => negb (JobEngine.expired now r)) (concat (en_receipts e))).

Definition engine_ready (e : engine) : Prop := en_allocs e = [].

Lemma emit_all_emits rs : forall e c, let '(ok, e', c') := emit_all ckpt_emit e c rs in
  (ok = true -> emits c rs true c') /\ (within_buffer c -> within_buffer c') /\
  (engine_ready e -> ck_ios c = [] -> ck_allocs c = [] -> ok = true).
Proof.
  induction rs as [|r rs IH]; intros e c; cbn [emit_all]; [split; [intros _; apply emits_nil|done]|].
  unfold jalloc. destruct (draw (en_allocs e)) as [b l] eqn:Ed. destruct b; cbn [negb].
  2:{ split; [done|]. split; [done|]. intros R. unfold engine_ready in R. rewrite R in Ed. done. }
  set (e1 := {| e with en_allocs := l |}). pose proof (emit_emits c r) as H. destruct (ckpt_emit c r) as [[|] c1]; cbn [negb].
  2:{ split; [done|]. split; [apply H|]. intros _ E1 E2. by destruct (em_ok _ _ _ _ H E1 E2). }
  specialize (IH e1 c1). destruct (emit_all ckpt_emit e1 c1 rs) as [[ok e2] c2]. destruct IH as (I1 & I2 & I3). split_and!.
  - intros E. apply (emits_trans c [r] c1 rs); [done|]. by apply I1.
  - intros B. by apply I2, H.
  - intros R E1 E2. destruct (em_ok _ _ _ _ H E1 E2) as (_ & E3 & E4). apply I3; [|done|done]. unfold engine_ready in *. rewrite R in Ed. by injection Ed as <-.
Qed.

#[global] Instance engine_emits : EmitsRecords job_engine_ckpt_hooks engine_records engine_ready.
Proof. intros e c now. apply emit_all_emits. Qed.

(** ** Atomicity *)

(** C20. A checkpoint publishes the whole live state or nothing, whatever fails.
    Its outcome never changes the live state; the name of the WAL refers to the
    old file or to one with exactly the records of the state; when it reports
    success the log is that file, wholly synced; and when it publishes nothing
    the log is as it was.  If nothing fails, a forced checkpoint succeeds. *)
Theorem checkpoint_atomic s e force now : let rs := checkpoint_records job_engine_ckpt_hooks engine_records s e now in
  checkpointed s rs (queue_checkpoint_body job_engine_ckpt_hooks s e force now) /\
  (st_log_open s = true /\ st_ios s = [] /\ st_allocs s = [] /\ en_allocs e = [] ->
   oc_rc (queue_checkpoint_body job_engine_ckpt_hooks s e true now) = 1).
Proof.
  split; [apply (body_spec job_engine_ckpt_hooks engine_records engine_ready)|].
  intros (H1 & H2 & H3 & H4). by apply (body_ok job_engine_ckpt_hooks engine_records engine_ready).
Qed.

(** The staging buffer does not show: with it or without it, a snapshot that
    is written has the bytes of its records, one after the other; and in no
    case, failures included, is more staged than the buffer holds. *)
Theorem staging_invisible s e now buffered ios allocs :
  let '(ok, _, c) := write_snapshot job_engine_ckpt_hooks s e (Ckpt [] (if buffered : bool then Some [] else None) [] 0 ios allocs) now in
  (ok = true -> ck_file c = encode_all (checkpoint_records job_engine_ckpt_hooks engine_records s e now)) /\
  match ck_buf c with Some staged => zlen staged <= CKPT_BUF_CAP | None => True end.
Proof.
  pose proof (write_snapshot_spec job_engine_ckpt_hooks engine_records engine_ready s e (Ckpt [] (if buffered then Some [] else None) [] 0 ios allocs) now) as K.
  destruct (write_snapshot _ _ _ _ _) as [[ok e'] c]. destruct K as (K1 & K2 & _). split; [|apply K2; by destruct buffered].
  intros E. destruct (K1 E) as [[A _ _ _] B]. specialize (A eq_refl). unfold content in A. rewrite B, app_nil_r in A. rewrite A. by destruct buffered.
Qed.

(** ** What is published can be opened *)

Lemma snapshot_records s e now : st_job_enabled s = false -> checkpoint_records job_engine_ckpt_hooks engine_records s e now =
  queue_records s ++ routing_records s ++ (tx_record <$> st_tx_pending s).
Proof. intros J. unfold checkpoint_records, meta_records. by rewrite J. Qed.

Lemma queue_records_loggable s : sinv s -> shape s -> fits 64 (st_next_id s) -> st_job_enabled s = false -> Forall loggable (queue_records s).
Proof.
  intros I H Hf J. unfold queue_records. apply Forall_app_2; [|by apply messages_loggable]. rewrite J. apply Forall_concat, Forall_fmap, Forall_forall.
  intros q Hq%checkpointed_in. cbn. constructor; [|constructor]. apply declare_loggable. pose proof (sp_queues _ H) as Q. rewrite Forall_forall in Q. by apply Q.
Qed.

Lemma snapshot_loggable s e now : sinv s -> shape s -> fits 64 (st_next_id s) -> Forall (pending_ok (st_next_id s)) (st_tx_pending s) -> st_job_enabled s = false ->
  Forall loggable (checkpoint_records job_engine_ckpt_hooks engine_records s e now).
Proof.
  intros I H Hf Hp J. rewrite snapshot_records by done. apply Forall_app_2; [by apply queue_records_loggable|by apply routing_loggable].
Qed.

Lemma snapshot_replayed {U} (h : job_hooks U) (u : U) s e now : 0 < st_next_id s -> snapshot_ok s -> transient_empty s -> st_job_enabled s = false ->
  Forall loggable (checkpoint_records job_engine_ckpt_hooks engine_records s e now) ->
  exists r, replay_records (empty_store false true [] [] []) (checkpoint_records job_engine_ckpt_hooks engine_records s e now) = Some r /\ restored s r.
Proof.
  intros Hid K Ht J Hl. rewrite snapshot_records in * by done. set (r0 := empty_store false true [] [] []).
  assert (W : wf r0) by (constructor; unfold lock_ids, live_queues; cbn; constructor).
  destruct (queue_records_replay h s K Ht ltac:(by rewrite J) r0 u W eq_refl eq_refl ltac:(cbn; lia)) as (r1 & E1 & R1 & N1).
  destruct (routing_replay s K r1 (rb_allocs _ _ _ _ R1) (rb_beside _ _ _ _ R1) N1) as (r2 & E2 & Q2 & A2 & L2 & B2 & X2).
  apply Forall_app in Hl as [Hl1 Hl2]. exists r2. split.
  - rewrite replay_records_app. apply plain_replay in E1; [by rewrite E1|]. eapply Forall_impl; [exact Hl1|]. by intros x [_ ?].
  - apply (rebuilt_restored s K r0 r1); try done. lia.
Qed.

(** *** A run with queues, messages, exchanges and a consumer *)

Definition orders : bytes := [111; 114; 100].
Definition spare : bytes := [115].
Definition events : bytes := [101; 118].

(** Two messages, one delivered once and delayed, one in flight; a dead-letter
    policy, a transient queue without messages, an exchange with two bindings. *)
Definition busy_calls : list call :=
  [DeclareQueue orders true 10 spare 5; DeclareQueue events false 0 [] 0; Register [119]; Publish orders [1; 2; 3] 0 1000 5;
   Publish orders [4; 5] 500 1000 5; Consume orders 0 7 1001 6 6; Nack orders 1 7 true 30 1002; Consume orders 0 7 1003 8 8;
   DeclareExchange events true 2 []; Bind events orders [97]; Bind events orders [98]].

Definition busy : store := default (open_store false [] []) (run_calls (open_store false [] []) busy_calls).

(** Decides the arguments of concrete calls. *)
Ltac calls_ok :=
  repeat first [apply Forall_nil_2 | apply Forall_cons_2]; simpl; unfold fits; split_and?; first [apply bytes_okb_sound; reflexivity | done].

Lemma busy_reachable : reachable 2000 busy.
Proof.
  apply (run_calls_reachable 2000 false [] [] busy_calls); [|vm_compute; reflexivity]. unfold busy_calls.
  calls_ok.
Qed.

Definition transient_emptyb (s : store) : bool := forallb (fun q => q_durable q || match q_msgs q with [] => true | _ => false end) (live_queues s).

Lemma transient_emptyb_sound s : transient_emptyb s = true -> transient_empty s.
Proof.
  intros H. apply Forall_forall. intros q Hq. unfold transient_emptyb in H. rewrite forallb_forall in H. apply list_elem_of_In in Hq. specialize (H q Hq).
  apply orb_true_iff in H as [H|H]; [by left|right]. by destruct (q_msgs q).
Qed.

Definition idle_engine : engine :=
  Engine (JConfig 0 0 0 0 0 0) [] false false false [] [] [] 0 0 0 0 0 0 0 0 None [] 0 (JCounters 0 0 0 0 0 0 0 0) [].

(** What every store of a run satisfies, and what a store satisfies whose log
    held prepared transactions when it was opened. *)
Record lawful (s : store) : Prop := Lawful {
  lw_inv : sinv s;
  lw_shape : shape s;
  lw_pending : Forall (pending_ok (st_next_id s)) (st_tx_pending s) }.

Lemma commits_lawful T s : (exists j ios locks, rtc (commit T Any) (open_store j ios locks) s) -> lawful s /\ st_tx_pending s = [].
Proof.
  intros (j & ios & locks & R). destruct (open_inv j ios locks) as [[I _] _]. destruct (commits_fixed _ _ _ _ R) as [P _].
  assert (E : st_tx_pending s = []) by (by rewrite P). split; [|done]. constructor; [by eapply commits_sinv| |by rewrite E].
  eapply commits_shape; [exact R|done|apply open_shape].
Qed.

Lemma reachable_lawful T s : reachable T s -> lawful s.
Proof. intros R. by apply (commits_lawful T), reachable_commits. Qed.

Lemma checkpoint_opens {U} (h : job_hooks U) (u : U) s e force now file tail : lawful s -> st_job_enabled s = false -> fits 64 (st_next_id s) ->
  transient_empty s -> oc_published (queue_checkpoint_body job_engine_ckpt_hooks s e force now) = Some file -> crash_tail tail ->
  exists r, queue_store_open h false u [] (file ++ tail) = Replayed r u (zlen file) /\ restored s r.
Proof.
  intros [I S Hp] J Hf Ht Ho Hc.
  pose proof (shape_snapshot s I S Hf Hp) as K. pose proof (snapshot_loggable s e now I S Hf Hp J) as L.
  destruct (snapshot_replayed h u s e now (si_id _ I) K Ht J L) as (r & E & Rr).
  pose proof (body_spec job_engine_ckpt_hooks engine_records engine_ready s e force now) as [_ B _ _]. rewrite Ho in B. destruct B as [|B]; [done|]. injection B as ->.
  exists r. split; [|done]. apply open_prefix; [done|done|]. by apply crash_tail_cut.
Qed.

(** C9. What a checkpoint publishes is the live state.  For a store without the
    job feature that satisfies the invariants, which is every store a run of
    calls leads to, and also one that holds transactions in doubt: if no
    transient queue holds a message, then whenever a checkpoint has put a new
    file in place, that file, with whatever torn or zero-filled tail a crash
    leaves behind it, opens to every live queue with its policy and all its
    messages, in order, with their data, deadlines, delivery counts and retry
    delays, none in flight, and to the exchanges, bindings, consumers and
    transactions in doubt, in the reverse order. *)
Theorem checkpoint_recovers {U} (h : job_hooks U) (u : U) T s e force now file tail :
  reachable T s \/ lawful s -> st_job_enabled s = false -> fits 64 (st_next_id s) ->
  transient_empty s -> oc_published (queue_checkpoint_body job_engine_ckpt_hooks s e force now) = Some file -> crash_tail tail ->
  exists r, queue_store_open h false u [] (file ++ tail) = Replayed r u (zlen file) /\ restored s r.
Proof. intros [R%reachable_lawful|L]; by apply checkpoint_opens. Qed.

(** A queue, and a transaction on it whose commit marker could not be written:
    opening the log finds it in doubt. *)
Definition doubt_calls : list call := [DeclareQueue orders true 10 [] 0; Transact [] orders [7] 900 1000 [5] true].

Definition doubt : store := default (open_store false [] []) (run_calls (open_store false (replicate 4 true ++ [false]) []) doubt_calls).

Definition opened (file : bytes) : @replay_result engine := queue_store_open job_engine_replay_hooks false idle_engine [] file.

Definition found : store := match opened (encode_all (st_log doubt)) with Replayed r _ _ => r | _ => open_store false [] [] end.

Definition found_tx : queue_tx := default (QueueTx 0 0 [] [] [] 0) (head (st_tx_pending found)).

Lemma found_lawful : lawful found.
Proof.
  assert (Q : st_queues found = [new_queue 1 2 orders true 10 [] 0]) by (vm_compute; reflexivity).
  assert (X : st_exchanges found = []) by (vm_compute; reflexivity).
  assert (C : st_consumers found = []) by (vm_compute; reflexivity).
  assert (M : st_next_id found = 2 /\ st_next_tag found = 1 /\ st_next_owner found = 1 /\ st_next_lock_id found = 1 /\ st_allocs found = []) by (vm_compute; repeat split).
  destruct M as (M1 & M2 & M3 & M4 & M5).
  assert (N : name_ok orders) by (split; [apply bytes_okb_sound; reflexivity|vm_compute; split; congruence]).
  assert (P : st_tx_pending found = [found_tx]) by (vm_compute; reflexivity).
  assert (D : found_tx = QueueTx 900 0 orders [7] [{| t_queue := None; t_name := orders; t_msg_id := 1 |}] 0) by (vm_compute; reflexivity).
  generalize dependent found_tx. generalize dependent found. intros s Q X C M1 M2 M3 M4 M5 tx P ->.
  constructor.
  - constructor; [constructor|..]; unfold lock_ids, live_queues; rewrite ?Q, ?X, ?C, ?M1, ?M2, ?M3, ?M4; try done; try lia.
    + apply NoDup_singleton.
    + constructor; [done|constructor].
    + apply NoDup_singleton.
    + split; constructor.
    + constructor; [|constructor]. apply qinv_new; [done|by left|done].
  - constructor; rewrite ?Q, ?X, ?C; [|constructor..]. constructor; [|constructor]. split; [|constructor].
    constructor; [done|by left|done|done].
  - rewrite P, M1. constructor; [|constructor]. split; [|split].
    + constructor; cbn [tx_id tx_expires tx_source tx_data tx_targets]; try done.
      * split; [apply bytes_okb_sound; reflexivity|done].
      * constructor; [done|constructor].
    + constructor; [done|constructor].
    + constructor; [done|constructor].
Qed.

Lemma checkpoint_recovers_witness :
  (exists r, queue_store_open job_engine_replay_hooks false idle_engine []
     (default [] (oc_published (queue_checkpoint_body job_engine_ckpt_hooks busy idle_engine true 0)) ++ replicate 5 0)
   = Replayed r idle_engine (zlen (default [] (oc_published (queue_checkpoint_body job_engine_ckpt_hooks busy idle_engine true 0)))) /\ restored busy r) /\
  (exists r, queue_store_open job_engine_replay_hooks false idle_engine []
     (default [] (oc_published (queue_checkpoint_body job_engine_ckpt_hooks found idle_engine true 0)) ++ [])
   = Replayed r idle_engine (zlen (default [] (oc_published (queue_checkpoint_body job_engine_ckpt_hooks found idle_engine true 0)))) /\ restored found r) /\
  tx_id <$> st_tx_pending found = [900].
Proof.
  split; [|split; [|vm_compute; reflexivity]].
  - apply (checkpoint_recovers job_engine_replay_hooks idle_engine 2000 busy idle_engine true 0).
    + left. exact busy_reachable.
    + vm_compute. reflexivity.
    + vm_compute. split; congruence.
    + apply transient_emptyb_sound. vm_compute. reflexivity.
    + vm_compute. reflexivity.
    + apply tail_zeros.
  - apply (checkpoint_recovers job_engine_replay_hooks idle_engine 2000 found idle_engine true 0).
    + right. exact found_lawful.
    + vm_compute. reflexivity.
    + vm_compute. split; congruence.
    + apply transient_emptyb_sound. vm_compute. reflexivity.
    + vm_compute. reflexivity.
    + apply (tail_zeros 0).
Defined.

(** ** Transient messages *)

Lemma head_holds_record r rest : record_ok r -> tail_holds_record true (encode r ++ rest) = Some true.
Proof.
  intros Hr. destruct (encode_head r Hr) as (hd & E & Hne). pose proof (scan_records_app [] r rest Hr) as Sc. rewrite E in *. cbn [app] in *.
  unfold tail_holds_record. cbn [skip_zeros]. destruct (Z.eqb_spec (r_op r) 0); [done|]. by rewrite Sc.
Qed.

(** A log with an intact record that cannot be applied is refused. *)
Lemma open_blocked {U} (h : job_hooks U) (u : U) rs1 x rs2 tail r : Forall loggable (rs1 ++ x :: rs2) ->
  replay_records (empty_store false true [] [] []) rs1 = Some r -> apply_queue_record r x = None ->
  queue_store_open h false u [] (encode_all (rs1 ++ x :: rs2) ++ tail) = Refused QUEUE_OPEN_TRAILING_RECORDS.
Proof.
  intros Hl Er Ex. apply Forall_app in Hl as [Hl1 [[Hx Hj] _]%Forall_cons]. unfold queue_store_open. rewrite encode_all_app, <- app_assoc.
  change (encode_all (x :: rs2)) with (encode x ++ encode_all rs2). rewrite <- app_assoc. set (rest := encode_all rs2 ++ tail).
  pose proof (encode_all_length rs1) as Hlen. set (s0 := empty_store false true [] [] []) in *.
  assert (A : st_allocs r = []) by (by eapply (replay_records_allocs rs1 s0)).
  replace (S (length (encode_all rs1 ++ encode x ++ rest))) with (length rs1 + S (length (encode_all rs1 ++ encode x ++ rest) - length rs1))%nat
    by (rewrite length_app; lia).
  rewrite (replay_log_records h rs1 _ s0 u 0 _ r) by done. cbn [replay_log]. rewrite alloc_nil by done.
  rewrite read_encode by (done || (unfold job_fmt_ok; by rewrite Hj) || by rewrite Hj). rewrite Hj.
  replace (if zlen (r_data x) =? 0 then r else r) with r by (by destruct (_ =? _)). rewrite Ex. unfold at_corrupt. by rewrite alloc_nil, head_holds_record.
Qed.

(** C36. A message in a transient queue makes the checkpoint unreadable.  The
    checkpoint writes it like any other, but the replay accepts messages of
    durable queues only: the file it has put in place is refused as one with
    records behind a damaged one, and the store does not open any more. *)
Theorem transient_message_blocks_open {U} (h : job_hooks U) (u : U) T s e force now file tail :
  reachable T s \/ lawful s -> st_job_enabled s = false -> fits 64 (st_next_id s) ->
  ~ transient_empty s -> oc_published (queue_checkpoint_body job_engine_ckpt_hooks s e force now) = Some file ->
  queue_store_open h false u [] (file ++ tail) = Refused QUEUE_OPEN_TRAILING_RECORDS.
Proof.
  intros R J Hf Ht Ho. assert (lawful s) as [I S Hp] by (destruct R; [by eapply reachable_lawful|done]).
  pose proof (shape_snapshot s I S Hf Hp) as K. pose proof (snapshot_loggable s e now I S Hf Hp J) as L.
  pose proof (body_spec job_engine_ckpt_hooks engine_records engine_ready s e force now) as [_ B _ _]. rewrite Ho in B. destruct B as [|B]; [done|]. injection B as ->.
  rewrite snapshot_records in * by done. set (r0 := empty_store false true [] [] []).
  assert (W : wf r0) by (constructor; unfold lock_ids, live_queues; cbn; constructor).
  destruct (queue_records_blocked h s K ltac:(by rewrite J) r0 u W eq_refl eq_refl Ht) as (rs1 & x & rs2 & r1 & Eq & E1 & Px & Ex).
  rewrite Eq, <- app_assoc in *. cbn [app] in *. apply (open_blocked h u rs1 x _ tail r1); [done| |done].
  apply Forall_app in L as [L1 _]. eapply plain_replay; [|exact E1]. eapply Forall_impl; [exact L1|]. by intros y [_ ?].
Qed.

(** One durable queue, and one transient one with a message. *)
Definition mixed_calls : list call := [DeclareQueue orders true 10 [] 0; DeclareQueue events false 0 [] 0; Publish events [1] 0 1000 5].

Definition mixed : store := default (open_store false [] []) (run_calls (open_store false [] []) mixed_calls).

Lemma mixed_reachable : reachable 2000 mixed.
Proof.
  apply (run_calls_reachable 2000 false [] [] mixed_calls); [|vm_compute; reflexivity]. unfold mixed_calls.
  calls_ok.
Qed.

Lemma transient_emptyb_complete s : transient_emptyb s = false -> ~ transient_empty s.
Proof.
  intros H Ht. assert (transient_emptyb s = true); [|congruence]. apply forallb_forall. intros q Hq. apply list_elem_of_In in Hq.
  unfold transient_empty in Ht. rewrite Forall_forall in Ht. destruct (Ht q Hq) as [->| ->]; [done|by rewrite orb_true_r].
Qed.

Lemma transient_message_blocks_open_witness : queue_store_open job_engine_replay_hooks false idle_engine []
  (default [] (oc_published (queue_checkpoint_body job_engine_ckpt_hooks mixed idle_engine true 0)) ++ []) = Refused QUEUE_OPEN_TRAILING_RECORDS.
Proof.
  apply (transient_message_blocks_open job_engine_replay_hooks idle_engine 2000 mixed idle_engine true 0).
  - left. exact mixed_reachable.
  - vm_compute. reflexivity.
  - vm_compute. split; congruence.
  - apply transient_emptyb_complete. vm_compute. reflexivity.
  - vm_compute. reflexivity.
Defined.

(** ** Receipts of puts and deletes *)












(** ** Transactions in doubt *)









(** ** A directory that was not synced *)






End CheckpointTheorems.
