(* ===== verification/AtomicRun.v ===== *)
(** * Histories of the whole server

    Calls on the queue store, operations on the cache with its snapshots, and
    atomic operations over both, one after the other, up to the first failure
    of one of the logs; and what holds after each: a transaction that replay
    would find pending has no marker in the cache log. *)

From stdpp Require Import base numbers option list relations.
From S2P Require Import Prelude Cache CacheMap CacheLog CacheLogSpec CacheLogRun CacheRecovery.
From S2P Require Import CacheLogTheorems Queue QueueIndex WalRecord QueueStore QueueReplay Exchange QueueTx.
From S2P Require Import ExchangeReplay QueueBatch QueueCommit QueueOps ExchangeOps TxOps QueueRun.
From S2P Require Import QueueRecovery QueueOpen Atomic TxReconcile.
Import Queue QueueIndex Wal Store Replay Batch Exchanges XChange Tx XReplay TxReplay Commit Ops XOps TxOps Run Recovery Open TxPending Atomic TxReconcile.
Import Cache(kuttidb_expiry_from_ttl).
Import CacheLog CacheSnap CacheLogSpec(lop, LTx, LPut, LDel, lop_ok, unconditional, tx_ids, lop_bytes).
Import CacheLogTheorems(server, Server, sv_ps, sv_phase, server_op, PTx, exec, acked, promised, op_admitted, kept_run, exec_kept, tx_kept, fresh, fresh_kept).

Module AtomicRun.

(** ** Requests *)

Record request := Request {
  rq_op : atomic_op;
  rq_key : bytes;
  rq_target : bytes;
  rq_route : bytes;
  rq_msg : bytes;
  rq_ttl : Z;
  rq_clocks : clocks }.

Definition execute (y : system) (rq : request) : answer * system :=
  atomic_execute y (rq_op rq) (rq_key rq) (rq_target rq) (rq_route rq) (rq_msg rq) (rq_ttl rq) false
    (rq_clocks rq).

Definition prepare_for (s : store) (rq : request) (id : Z) : prepared * store :=
  queue_tx_prepare s (if is_enqueue (rq_op rq) then [] else rq_target rq)
    (if is_enqueue (rq_op rq) then rq_target rq else rq_route rq) (rq_msg rq) id
    (ck_now_ms (rq_clocks rq)) (ck_monos (rq_clocks rq)).

(** A queue addressed by its name is durable. *)
Definition target_durable (s : store) (rq : request) : Prop :=
  direct_durable s (if is_enqueue (rq_op rq) then [] else rq_target rq)
    (if is_enqueue (rq_op rq) then rq_target rq else rq_route rq).

Definition rq_value (rq : request) : bytes := if is_delete (rq_op rq) then [] else rq_msg rq.
Definition rq_expiry (rq : request) : Z := kuttidb_expiry_from_ttl (rq_ttl rq) (ck_expiry (rq_clocks rq)).

(** The marker in the cache log. *)
Definition marker (rq : request) (id : Z) : lop :=
  LTx id (marker_op (rq_op rq) (rq_ttl rq) false) (rq_key rq) (rq_value rq) (rq_expiry rq).

Definition commit_cache (p : persist) (rq : request) (id : Z) : Z * persist :=
  persist_tx_commit p id (marker_op (rq_op rq) (rq_ttl rq) false) (rq_key rq) (rq_value rq) (rq_expiry rq)
    false (ck_lookup (rq_clocks rq)) (ck_apply (rq_clocks rq)).

(** Sizes are those the protocol admits; conditional updates are left out. *)
Record request_ok (max_val Tq Tc : Z) (rq : request) : Prop := RequestOk {
  ro_kind : rq_op rq <> ATOMIC_UPDATE_EMIT;
  ro_bytes : bytes_ok (rq_key rq) /\ bytes_ok (rq_target rq) /\ bytes_ok (rq_route rq) /\ bytes_ok (rq_msg rq);
  ro_key : zlen (rq_key rq) <= MAX_KEY;
  ro_value : zlen (rq_msg rq) <= max_val;
  ro_small : tx_small (rq_msg rq);
  ro_expiry : fits 32 (rq_expiry rq);
  ro_now : ck_now_ms (rq_clocks rq) <= Tq;
  ro_apply : u32 (ck_apply (rq_clocks rq)) <= Tc }.

(** ** Identities *)

Definition tx_number (nonce k : Z) : Z := nonce * 2 ^ 32 + k.

Lemma next_tx_number nonce c : 0 <= c -> c + 1 < 2 ^ 32 ->
  next_tx_id nonce c = (tx_number nonce (c + 1), c + 1).
Proof.
  intros H1 H2. unfold next_tx_id, tx_number. rewrite u64_small by (unfold fits; lia).
  change 0xffffffff with (2 ^ 32 - 1). rewrite land_pow2 by lia. rewrite Z.mod_small by lia.
  f_equal. rewrite Z.shiftl_mul_pow2 by lia.
  pose proof (Z.add_lor_land (nonce * 2 ^ 32) (c + 1)) as H.
  assert (Hz : Z.land (nonce * 2 ^ 32) (c + 1) = 0).
  { apply Z.bits_inj'. intros n Hn. rewrite Z.land_spec, Z.bits_0.
    destruct (Z.lt_ge_cases n 32).
    - rewrite Z.mul_pow2_bits_low by done. done.
    - rewrite (testbit_high 32 (c + 1)) by (unfold fits; lia). apply andb_false_r. }
  lia.
Qed.

Definition issued (nonce counter id : Z) : Prop := exists k, 0 < k <= counter /\ id = tx_number nonce k.

Lemma issued_fresh nonce c id : issued nonce c id -> id <> tx_number nonce (c + 1).
Proof. intros (k & Hk & ->). unfold tx_number. lia. Qed.

Lemma issued_next nonce c c' id : c <= c' -> issued nonce c id -> issued nonce c' id.
Proof. intros H (k & Hk & E). exists k. split; [lia|done]. Qed.

(** ** The operation in parts *)

Lemma execute_parts y rq a y' : execute y rq = (a, y') ->
  st_log_open (sy_queues y) = true -> st_failed (sy_queues y) = false -> ps_open (sy_cache y) = true ->
  0 <= sy_counter y -> sy_counter y + 1 < 2 ^ 32 ->
  let id := tx_number (sy_nonce y) (sy_counter y + 1) in
  exists res sP, prepare_for (sy_queues y) rq id = (res, sP) /\
  sy_nonce y' = sy_nonce y /\ sy_counter y' = sy_counter y + 1 /\
  match res with
  | Prepared tx => exists pc, commit_cache (sy_cache y) rq id = (pc, sy_cache y') /\
      if pc =? 0 then exists n, queue_tx_commit sP tx = (n, sy_queues y') /\
        an_rc a = match n with None => -1 | Some _ => 0 end
      else sy_queues y' = sP /\ an_rc a <> 0
  | _ => sy_queues y' = sP /\ sy_cache y' = sy_cache y /\ an_rc a <> 0
  end.
Proof.
  intros E Ho Hf Hp H1 H2. revert E. unfold execute, atomic_execute, queue_wal_enabled.
  rewrite Ho, Hf, Hp. cbn [negb andb orb]. rewrite next_tx_number by done.
  set (id := tx_number _ _). cbv zeta. unfold prepare_for, commit_cache, rq_value, rq_expiry.
  destruct (queue_tx_prepare _ _ _ _ _ _ _) as [res sP]. intros E. exists res, sP. split; [done|].
  destruct res as [| |tx]; [by injection E as <- <-..|].
  destruct (persist_tx_commit _ _ _ _ _ _ _ _ _) as [pc p'].
  destruct (Z.eqb_spec pc 0) as [->|Hpc]; cbn [negb Z.eqb] in E.
  - destruct (queue_tx_commit sP tx) as [n s'] eqn:Ec.
    destruct n as [n|]; injection E as <- <-; (do 2 (split; [done|]); exists 0; split; [done|]); cbn [Z.eqb];
      eexists; (split; [reflexivity|done]).
  - destruct (Z.eqb_spec pc 0); [done|]. injection E as <- <-. do 2 (split; [done|]). exists pc.
    split; [done|]. destruct (Z.eqb_spec pc 0); [done|]. split; [done|]. cbn [an_rc]. by destruct (pc =? -2).
Qed.

(** ** Histories *)

Record world := World { w_sys : system; w_phase : snap_phase }.

Definition w_store (w : world) : store := sy_queues (w_sys w).
Definition w_server (w : world) : server := Server (sy_cache (w_sys w)) (w_phase w).

Definition clean (w : world) : Prop :=
  st_failed (w_store w) = false /\ ps_failed (sy_cache (w_sys w)) = false.

Definition with_queues (w : world) (s : store) : world :=
  let y := w_sys w in World {| y with sy_queues := s |} (w_phase w).

Definition with_server (w : world) (sv : server) : world :=
  let y := w_sys w in World {| y with sy_cache := sv_ps sv |} (sv_phase sv).

(** The part of the queue log that some barrier has covered. *)
Definition durable_part (N : Z) (s : store) : Z :=
  Z.min (zlen (st_log s)) (Z.max N (st_synced_seq s)).

(** The conditions of a transaction on the queue store, on the store it leads to. *)
Definition tame (s : store) : Prop := policy s /\ xrooms s /\ within_capacity s.

Definition is_marker (op : server_op) : bool :=
  match op with PTx _ _ _ _ _ _ _ => true | _ => false end.

Section Histories.
Context (max_val Tq Tc : Z).
Hypothesis Hmaxv : fits 32 max_val.

(** [L]: the operations the cache acknowledged; [D]: those it promised to
    keep; [N]: the durable part of the queue log. *)
Inductive history (w0 : world) : list lop -> list lop -> Z -> world -> Prop :=
  | h_start : history w0 [] [] 0 w0
  | h_queue L D N w c : history w0 L D N w -> clean w -> call_ok Tq c -> is_transact c = false ->
      policy (run_call (w_store w) c) -> xrooms (run_call (w_store w) c) ->
      history w0 L D (durable_part N (run_call (w_store w) c)) (with_queues w (run_call (w_store w) c))
  | h_cache L D N w op rc sv : history w0 L D N w -> clean w -> op_admitted max_val Tc op ->
      is_marker op = false -> exec (w_server w) op = (rc, sv) ->
      history w0 (L ++ acked op rc)
        (if promised (ps_always (sy_cache (w_sys w))) op rc then L ++ acked op rc else D) N (with_server w sv)
  | h_atomic L D N w rq a y : history w0 L D N w -> clean w -> request_ok max_val Tq Tc rq ->
      sy_counter (w_sys w) + 1 < 2 ^ 32 -> execute (w_sys w) rq = (a, y) -> tame (sy_queues y) ->
      let done := if an_rc a =? 0
        then [marker rq (tx_number (sy_nonce (w_sys w)) (sy_counter (w_sys w) + 1))] else [] in
      history w0 (L ++ done) (if an_rc a =? 0 then L ++ done else D)
        (durable_part N (sy_queues y)) (World y (w_phase w)).

(** ** What holds after each step *)

Definition pending_ok (job : bool) (P : list queue_tx -> Prop) (N : Z) (s : store) : Prop :=
  fits 64 (st_next_id s) -> forall rs r, rs `prefix_of` st_log s -> N <= zlen rs ->
    replay_records (fresh_store job) rs = Some r -> P (st_tx_pending r).

Record joint_inv (job : bool) (nonce : Z) (L D : list lop) (N : Z) (w : world) : Prop := JointInv {
  ji_run : exists j ios locks, rtc (commit Tq Any) (open_store j ios locks) (w_store w);
  ji_inv : inv (w_store w);
  ji_rooms : xrooms (w_store w);
  ji_open : st_log_open (w_store w) = true;
  ji_durable : N <= zlen (st_log (w_store w));
  ji_cache : exists P F B Fs, CacheRecovery.inv max_val Tc P L D F B Fs (sy_cache (w_sys w)) (w_phase w);
  ji_nonce : sy_nonce (w_sys w) = nonce /\ fits 32 nonce;
  ji_counter : 0 <= sy_counter (w_sys w) < 2 ^ 32;
  ji_ids : Forall (issued nonce (sy_counter (w_sys w))) (tx_ids L);
  ji_pending : pending_ok job (Forall (fun tx => issued nonce (sy_counter (w_sys w)) (tx_id tx) /\
    tx_id tx ∉ tx_ids L)) N (w_store w) }.

Lemma prefix_split {A} (rs a x : list A) : rs `prefix_of` a ++ x ->
  rs `prefix_of` a \/ exists y, rs = a ++ y /\ y `prefix_of` x.
Proof.
  intros H. destruct (CacheRecovery.prefix_total rs a (a ++ x)) as [|[y ->]]; [done|by apply prefix_app_r|by left|].
  right. exists y. split; [done|]. destruct H as [z E]. rewrite <- app_assoc in E. apply app_inv_head in E.
  by exists z.
Qed.

(** Records of other kinds leave the pending transactions alone. *)
Lemma pending_plain job P N N' s s' : rtc (commit Tq Any) s s' -> sinv s -> st_failed s' = false ->
  (exists j ios locks, rtc (commit Tq Any) (open_store j ios locks) s) ->
  (exists rs, st_log s' = st_log s ++ rs /\ Forall (fun r => is_tx r = false) rs) ->
  N <= zlen (st_log s) -> N <= N' -> pending_ok job P N s -> pending_ok job P N' s'.
Proof.
  intros R Hs F (j & ios & locks & R0) (x & Ex & Hx) HN HN' H Hf rs r Hp Hl Er.
  pose proof (commits_ids _ _ _ _ R) as Hid. pose proof (si_id _ Hs) as Hpos.
  assert (Hfs : fits 64 (st_next_id s)) by (unfold fits in *; lia). specialize (H Hfs).
  rewrite Ex in Hp. apply prefix_split in Hp as [Hp|(y & -> & Hy)]; [by apply (H rs); [|lia|]|].
  destruct (open_inv j ios locks) as [[I _] _].
  assert (R1 : rtc (commit Tq Any) (open_store j ios locks) s') by (by transitivity s).
  destruct (commits_recoverable Tq Any job _ s' R1 I Hf (open_recoverable Tq job j ios locks) F)
    as (Hlog & _). rewrite Ex in Hlog. apply Forall_app in Hlog as [_ Hlx].
  rewrite replay_records_app in Er. destruct (replay_records _ (st_log s)) as [r0|] eqn:E0; [|done].
  rewrite (replay_plain y r0 r); [by apply (H (st_log s))| | | |done].
  - by eapply replay_records_allocs; [|exact E0].
  - destruct Hy as [z ->]. by apply Forall_app in Hlx as [? _].
  - destruct Hy as [z ->]. by apply Forall_app in Hx as [? _].
Qed.

Lemma durable_part_bounds N s : N <= zlen (st_log s) -> N <= durable_part N s <= zlen (st_log s).
Proof. unfold durable_part. lia. Qed.

Lemma log_grows T p s s' : rtc (commit T p) s s' -> st_failed s' = false -> zlen (st_log s) <= zlen (st_log s').
Proof. intros R F. destruct (commits_log _ _ _ _ R F) as (_ & x & ->). rewrite zlen_app. pose proof (zlen_nonneg x). lia. Qed.

Lemma marker_ok rq id : request_ok max_val Tq Tc rq -> fits 64 id ->
  lop_ok max_val (marker rq id) /\ unconditional (marker rq id).
Proof.
  intros [Hk (B1 & B2 & B3 & B4) Hl Hv Hz He Hn Ha] Hi. pose proof (zlen_nonneg (rq_msg rq)).
  unfold marker, lop_ok, unconditional, rq_value, marker_op.
  destruct (is_delete (rq_op rq)); [|destruct (rq_ttl rq =? 0); cbn [negb]]; split; split_and?; try done; auto 6; try lia.
  all: try constructor. all: change (zlen []) with 0; lia.
Qed.

Lemma tx_number_fits nonce k : fits 32 nonce -> 0 <= k < 2 ^ 32 -> fits 64 (tx_number nonce k).
Proof. unfold fits, tx_number. intros H1 H2. change (2 ^ 64) with (2 ^ 32 * 2 ^ 32). nia. Qed.

(** *** One step *)

Lemma joint_queue job nonce L D N w c : clean w -> joint_inv job nonce L D N w -> call_ok Tq c ->
  is_transact c = false -> policy (run_call (w_store w) c) -> xrooms (run_call (w_store w) c) -> st_failed (run_call (w_store w) c) = false ->
  joint_inv job nonce L D (durable_part N (run_call (w_store w) c)) (with_queues w (run_call (w_store w) c)).
Proof.
  intros [F _] [(j & ios & locks & R) I X O Hd C Hn Hc Hi Hp] Hok Ht P X' F'.
  set (s := w_store w) in *. set (s' := run_call s c) in *.
  pose proof (call_plain Tq s c I X Hok Ht) as Rc. fold s' in Rc.
  assert (Ra : rtc (commit Tq Any) s s') by (apply (commits_weaken Tq Deleting); [by split|done]).
  pose proof (log_grows _ _ _ _ Rc F') as Hg.
  assert (Hs' : sinv s') by (eapply commits_sinv; [exact Rc|apply I]).
  destruct (durable_part_bounds N s') as [B1 B2]; [lia|].
  constructor; try done.
  - exists j, ios, locks. by transitivity s.
  - cbn. by rewrite (commits_open _ _ _ _ Rc).
  - eapply (pending_plain job _ N _ s s'); try done; [apply I|by exists j, ios, locks|].
    by eapply (commits_plain Tq Deleting).
Qed.

Lemma joint_cache job nonce L D N w op rc sv : clean w -> joint_inv job nonce L D N w ->
  op_admitted max_val Tc op -> is_marker op = false -> exec (w_server w) op = (rc, sv) ->
  ps_failed (sv_ps sv) = false ->
  joint_inv job nonce (L ++ acked op rc)
    (if promised (ps_always (sy_cache (w_sys w))) op rc then L ++ acked op rc else D) N (with_server w sv).
Proof.
  intros _ [R I X O Hd (P & F & B & Fs & C) Hn Hc Hi Hp] Ha Hm E F'.
  assert (Et : tx_ids (L ++ acked op rc) = tx_ids L).
  { rewrite AtomicCache.tx_ids_app. assert (tx_ids (acked op rc) = []) as ->; [|by rewrite app_nil_r].
    destruct op; try done; cbn [acked]; by destruct (rc =? _). }
  constructor; try done.
  - eapply (exec_kept max_val Tc Hmaxv) in E as [H|[H _]]; [exact H|congruence|exact C|done].
  - by rewrite Et.
  - intros Hf rs r H1 H2 H3. rewrite Et. by apply (Hp Hf rs).
Qed.

(** *** An atomic operation *)

Lemma pending_mono job (P Q : list queue_tx -> Prop) N s : (forall l, P l -> Q l) ->
  pending_ok job P N s -> pending_ok job Q N s.
Proof. intros H Hp Hf rs r H1 H2 H3. by eapply H, Hp. Qed.

(** The log of a store in which a transaction was prepared. *)
Lemma prepared_log s1 sP tx : prepared_tx s1 sP tx -> st_failed sP = false ->
  st_failed s1 = false /\ st_log sP = st_log s1 ++ [prepare_record tx].
Proof. intros P F. destruct (ev_log _ _ _ _ (pt_evolve _ _ _ P)) as [|[]]; [congruence|done]. Qed.

Lemma prepared_fits s1 sP tx : sinv s1 -> prepared_tx s1 sP tx -> fits 64 (st_next_id sP) ->
  fits 64 (st_next_id s1) /\ ids_fit (tx_targets tx).
Proof.
  intros Hs P Hf. pose proof (si_id _ Hs). pose proof (zlen_nonneg (tx_targets tx)). destruct P.
  split; [unfold fits in *; lia|by eapply (numbered_fit s1 sP)].
Qed.

Lemma pending_prepared job (P : queue_tx -> Prop) N s1 sP tx : sinv s1 -> prepared_tx s1 sP tx ->
  st_failed sP = false -> N <= zlen (st_log s1) -> P (replayed tx) ->
  pending_ok job (Forall P) N s1 -> pending_ok job (Forall P) N sP.
Proof.
  intros Hs Hp F HN HP H Hf rs r Hpre Hl Er. destruct (prepared_fits _ _ _ Hs Hp Hf) as [Hf1 Hids].
  destruct (prepared_log _ _ _ Hp F) as [F1 El]. rewrite El in Hpre. specialize (H Hf1).
  apply prefix_split in Hpre as [Hpre|(y & -> & Hy)]; [by eapply H|].
  rewrite replay_records_app in Er. destruct (replay_records _ (st_log s1)) as [r0|] eqn:E0; [|done].
  assert (H0 : Forall P (st_tx_pending r0)) by (eapply (H (st_log s1)); done).
  assert (A0 : st_allocs r0 = []) by (by eapply replay_records_allocs; [|exact E0]).
  destruct y as [|a y]; [by injection Er as <-|]. destruct Hy as [z Ey]. injection Ey as <- Ey.
  symmetry in Ey. apply app_nil in Ey as [-> _]. rewrite replay_one, prepare_replays in Er by (done || apply Hp).
  injection Er as <-. unfold pend. cbn [st_tx_pending]. rewrite bump_ids_pending. by constructor.
Qed.

Lemma pending_committed job (P : queue_tx -> Prop) N s1 sP s' tx : sinv s1 -> prepared_tx s1 sP tx ->
  st_failed s' = false -> N <= zlen (st_log s1) ->
  evolve sP s' (st_queues (tx_materialize_locked sP tx)) [commit_record tx] ->
  pending_ok job (Forall P) N s1 -> pending_ok job (Forall P) (zlen (st_log s')) s'.
Proof.
  intros Hs Hp F HN Ev H Hf rs r Hpre Hl Er.
  assert (HfP : fits 64 (st_next_id sP)).
  { pose proof (ev_id _ _ _ _ Ev). pose proof (si_id _ Hs). pose proof (ev_id _ _ _ _ (pt_evolve _ _ _ Hp)).
    unfold fits in *. lia. }
  destruct (prepared_fits _ _ _ Hs Hp HfP) as [Hf1 Hids]. specialize (H Hf1).
  destruct (ev_log _ _ _ _ Ev) as [|[FP El]]; [congruence|].
  destruct (prepared_log _ _ _ Hp FP) as [F1 El1]. rewrite El1, <- app_assoc in El.
  assert (rs = st_log s') as ->.
  { destruct Hpre as [z Ez]. rewrite Ez in *. rewrite zlen_app in Hl. pose proof (zlen_nonneg z).
    destruct z; [by rewrite app_nil_r|]. rewrite zlen_cons in Hl. pose proof (zlen_nonneg z). lia. }
  rewrite El, replay_records_app in Er. destruct (replay_records _ (st_log s1)) as [r0|] eqn:E0; [|done].
  assert (H0 : Forall P (st_tx_pending r0)) by (eapply (H (st_log s1)); done).
  assert (A0 : st_allocs r0 = []) by (by eapply replay_records_allocs; [|exact E0]).
  cbn [app replay_records] in Er. rewrite prepare_replays, commit_replays_head in Er by (done || apply Hp).
  injection Er as <-. unfold tx_materialize_locked.
  destruct (materialize_log (replayed tx) (tx_targets (replayed tx)) (bump_ids r0 (tx_targets tx))) as (_ & -> & _).
  - unfold bump_ids. by rewrite bumps_allocs.
  - by rewrite bump_ids_pending.
Qed.

Lemma prepare_facts s rq id res sP : inv s -> request_ok max_val Tq Tc rq -> fits 64 id ->
  prepare_for s rq id = (res, sP) -> exists s1, runs Tq s s1 /\
  match res with
  | Prepared tx => prepared_tx s1 sP tx /\ tx_id tx = id /\ tx_data tx = rq_msg rq /\ tx_expires tx = 0 /\
      st_failed sP = false /\ st_synced_seq sP = st_wal_seq sP /\
      (target_durable s rq -> forall t qid q, t ∈ tx_targets tx -> t_queue t = Some qid ->
         get_queue s1 qid = Some q -> q_durable q = true)
  | _ => quiet s1 sP
  end.
Proof.
  intros I [_ (_ & Bt & Br & Bm) _ _ Hz _ Hn _] Hi E. unfold prepare_for in E.
  apply (queue_tx_prepare_spec Tq) in E as (s1 & R & E); try done; [|by destruct (is_enqueue _); [constructor|]|by destruct (is_enqueue _)].
  exists s1. split; [done|]. destruct res; [done..|]. destruct E as (? & ? & ? & ? & ? & ? & ts & Ets & Eq). split_and!; try done.
  intros Hd t qid q Ht Etq G. apply (find_targets_durable s) in Ets; [|apply I|done].
  destruct (Ets qid) as (q0 & G0 & D0).
  { apply (list_elem_of_fmap_2 t_queue) in Ht. rewrite Eq, Etq in Ht. by apply list_elem_of_fmap in Ht as (x & [= ->] & Hx). }
  destruct (runs_extends _ _ _ R I qid q0 G0) as (q' & G' & C'). rewrite G in G'. injection G' as <-.
  by destruct (config_inv _ _ C') as (_ & _ & -> & _).
Qed.

(** What the store is like when the transaction has been prepared. *)
Lemma joint_runs job nonce L D N w s1 : joint_inv job nonce L D N w -> runs Tq (w_store w) s1 ->
  st_failed s1 = false ->
  (exists j ios locks, rtc (commit Tq Any) (open_store j ios locks) s1) /\ sinv s1 /\
  st_log_open s1 = true /\ N <= zlen (st_log s1) /\
  pending_ok job (Forall (fun tx => issued nonce (sy_counter (w_sys w)) (tx_id tx) /\
    tx_id tx ∉ tx_ids L)) N s1.
Proof.
  intros [(j & ios & locks & R) I X O Hd C Hn Hc Hi Hp] R1 F1.
  pose proof (runs_commits Tq Deleting _ _ R1) as Rd. pose proof (runs_commits Tq Any _ _ R1) as Ra.
  pose proof (log_grows _ _ _ _ Rd F1). split; [exists j, ios, locks; by transitivity (w_store w)|].
  split; [by eapply runs_sinv|]. split; [by rewrite (commits_open _ _ _ _ Rd)|]. split; [lia|].
  eapply (pending_plain job _ N N (w_store w) s1); try done; [apply I|by exists j, ios, locks|].
  by eapply (commits_plain Tq Deleting).
Qed.

Lemma issued_new job nonce L D N w id : joint_inv job nonce L D N w ->
  id = tx_number nonce (sy_counter (w_sys w) + 1) -> (id ∉ tx_ids L) /\ issued nonce (sy_counter (w_sys w) + 1) id.
Proof.
  intros J ->. destruct J. split.
  - intros H. rewrite Forall_forall in ji_ids0. specialize (ji_ids0 _ H). by eapply issued_fresh.
  - exists (sy_counter (w_sys w) + 1). split; [lia|done].
Qed.

Lemma joint_unprepared job nonce L D N w sP y s1 : joint_inv job nonce L D N w ->
  runs Tq (w_store w) s1 -> quiet s1 sP -> st_failed sP = false -> tame sP ->
  sy_counter (w_sys w) + 1 < 2 ^ 32 ->
  sy_queues y = sP -> sy_cache y = sy_cache (w_sys w) -> sy_nonce y = sy_nonce (w_sys w) ->
  sy_counter y = sy_counter (w_sys w) + 1 ->
  joint_inv job nonce L D (durable_part N sP) (World y (w_phase w)).
Proof.
  intros J R1 Q F (P & X & _) Hc2 Eq Ec En Ek.
  assert (R : runs Tq (w_store w) sP) by (eapply runs_trans; [exact R1|by apply runs_quiet; [|apply R1]]).
  destruct (joint_runs _ _ _ _ _ _ _ J R F) as (Hr & Hs & Ho & Hd & Hp). destruct J.
  destruct (durable_part_bounds N sP Hd). constructor; unfold w_store; cbn [w_sys w_phase]; rewrite ?Eq, ?Ec, ?En, ?Ek; try done.
  - lia.
  - eapply Forall_impl; [exact ji_ids0|]. intros id. apply issued_next. lia.
  - intros Hf rs r H1 H2 H3. eapply Forall_impl; [by eapply (Hp Hf rs); [|lia|]|].
    intros tx [Hi Hni]. split; [|done]. eapply issued_next; [|exact Hi]. lia.
Qed.

Lemma joint_committed job nonce L D N w sP y s1 tx rq : joint_inv job nonce L D N w ->
  request_ok max_val Tq Tc rq -> runs Tq (w_store w) s1 -> prepared_tx s1 sP tx ->
  sy_counter (w_sys w) + 1 < 2 ^ 32 -> st_failed sP = false ->
  let id := tx_number nonce (sy_counter (w_sys w) + 1) in
  tx_id tx = id -> commit_cache (sy_cache (w_sys w)) rq id = (0, sy_cache y) ->
  queue_tx_commit sP tx = (Some (zlen (tx_targets tx)), sy_queues y) ->
  ps_failed (sy_cache y) = false -> tame (sy_queues y) ->
  sy_nonce y = nonce -> sy_counter y = sy_counter (w_sys w) + 1 ->
  joint_inv job nonce (L ++ [marker rq id]) (L ++ [marker rq id]) (durable_part N (sy_queues y)) (World y (w_phase w)).
Proof.
  intros J Hrq R1 Hp Hc2 FP id Eid Ecc Eqc Fc (P & X & Hcap) En Ek.
  destruct (prepared_log _ _ _ Hp FP) as [F1 El1].
  destruct (joint_runs _ _ _ _ _ _ _ J R1 F1) as ((j & ios & locks & Hr) & Hs & Ho & Hd & Hpd).
  destruct (issued_new _ _ _ _ _ _ id J eq_refl) as [Hni His].
  apply (queue_tx_commit_spec s1) in Eqc as [(_ & F' & Hsy & Ev)|(? & _)]; [|done..].
  assert (C : commit Tq Transacting s1 (sy_queues y)) by (by eapply commit_transact).
  assert (Hs' : sinv (sy_queues y)) by (by eapply commit_sinv).
  assert (Hr' : rtc (commit Tq Any) (open_store j ios locks) (sy_queues y)).
  { eapply rtc_r; [exact Hr|]. by eapply commit_weaken. }
  assert (Hseq : st_wal_seq (sy_queues y) = zlen (st_log (sy_queues y))).
  { destruct (commits_seq_ok _ _ _ _ Hr') as [|]; [by right|congruence|done]. }
  assert (Hdur : durable_part N (sy_queues y) = zlen (st_log (sy_queues y))).
  { unfold durable_part. lia. }
  destruct J as [_ _ _ _ _ (CP & CF & CB & CFs & CI) [Hn1 Hn2] Hct Hi _].
  destruct (marker_ok rq id Hrq) as [Hmo Hmu]; [apply tx_number_fits; [done|lia]|].
  constructor; unfold w_store; cbn [w_sys w_phase]; rewrite ?Hdur, ?En, ?Ek; try done.
  - by exists j, ios, locks.
  - by rewrite (ev_open _ _ _ _ Ev), (ev_open _ _ _ _ (pt_evolve _ _ _ Hp)).
  - unfold commit_cache in Ecc. eapply (tx_kept max_val Tc Hmaxv) in Ecc as [H|[H _]]; [exact H|congruence|exact CI|].
    split; [by split|apply Hrq].
  - lia.
  - rewrite AtomicCache.tx_ids_app. apply Forall_app_2; [|by constructor].
    eapply Forall_impl; [exact Hi|]. intros k. apply issued_next. lia.
  - eapply pending_mono; [|by eapply (pending_committed job _ N s1 sP _ tx)]. intros l H.
    eapply Forall_impl; [exact H|]. intros t [H1 H2]. split; [eapply issued_next; [|exact H1]; lia|].
    rewrite AtomicCache.tx_ids_app, elem_of_app. intros [|H3]; [done|].
    apply list_elem_of_singleton in H3. by eapply issued_fresh.
Qed.

Lemma joint_atomic job nonce L D N w rq a y : clean w -> joint_inv job nonce L D N w ->
  request_ok max_val Tq Tc rq -> sy_counter (w_sys w) + 1 < 2 ^ 32 -> execute (w_sys w) rq = (a, y) ->
  tame (sy_queues y) -> clean (World y (w_phase w)) ->
  let done := if an_rc a =? 0
    then [marker rq (tx_number nonce (sy_counter (w_sys w) + 1))] else [] in
  joint_inv job nonce (L ++ done) (if an_rc a =? 0 then L ++ done else D)
    (durable_part N (sy_queues y)) (World y (w_phase w)).
Proof.
  intros [F Fc] J Hrq Hc2 E Ht [F' Fc'] dn. pose proof J as [_ I _ Ho _ (P & CF & B & Fs & CI) [En Hn] Hct _ _].
  apply execute_parts in E as (res & sP & Ep & En' & Ek & E); try done; [|apply CI|lia]. rewrite En in *.
  set (id := tx_number _ _) in *.
  assert (Hid : fits 64 id) by (apply tx_number_fits; [done|lia]).
  destruct (prepare_facts _ _ _ _ _ I Hrq Hid Ep) as (s1 & R1 & H1).
  destruct res as [| |tx].
  1,2: destruct E as (E1 & E2 & E3); unfold dn; destruct (Z.eqb_spec (an_rc a) 0); [done|]; rewrite app_nil_r, E1;
    unfold w_store in F'; cbn in F'; rewrite E1 in F', Ht; eapply joint_unprepared; try done; congruence.
  destruct H1 as (Hp & Eid & _ & _ & FP & _ & _). destruct E as (pc & Ecc & E).
  destruct (Z.eqb_spec pc 0) as [->|Hpc].
  - destruct E as (n & Eq & Ea). pose proof Eq as Eq'.
    apply (queue_tx_commit_spec s1) in Eq' as [(-> & _)|(_ & _ & Hf)]; [| |by eapply runs_sinv|done].
    + unfold dn. rewrite Ea. cbn [Z.eqb]. by apply (joint_committed job nonce L D N w sP y s1 tx rq).
    + exfalso. rewrite (ev_open _ _ _ _ (pt_evolve _ _ _ Hp)), (commits_open Tq Any (w_store w)) in Hf by (by apply runs_commits).
      unfold w_store in F'. cbn in F'. rewrite Hf in F' by done. done.
  - exfalso. apply CacheLogRun.tx_commit_spec in Ecc; [|apply CI].
    destruct Ecc as [(? & _)|(_ & K)]; [done|]. destruct K. cbn in Fc'. congruence.
Qed.

(** The state at start-up, with empty logs. *)
Record start (job : bool) (nonce : Z) (w : world) : Prop := Start {
  sw_queues : exists ios locks, w_store w = open_store job ios locks;
  sw_cache : fresh (w_server w);
  sw_nonce : sy_nonce (w_sys w) = nonce /\ fits 32 nonce;
  sw_counter : sy_counter (w_sys w) = 0 }.

Lemma start_joint job job' nonce w : start job nonce w -> joint_inv job' nonce [] [] 0 w.
Proof.
  intros [(ios & locks & Eq) Hf Hn Hc]. destruct (open_inv job ios locks) as [I X].
  constructor; rewrite ?Eq, ?Hc; try done.
  - by exists job, ios, locks.
  - destruct (fresh_kept max_val Tc (w_server w) Hf) as [H|[H _]]; [exact H|].
    pose proof (CacheLogRun.rd_failed _ (CacheLogTheorems.fr_ready _ Hf)). congruence.
  - intros _ rs r [x E] _. symmetry in E. apply app_nil in E as [-> _]. intros [= <-]. constructor.
Qed.

Lemma history_joint job job' nonce w0 L D N w : start job nonce w0 -> history w0 L D N w -> clean w ->
  joint_inv job' nonce L D N w.
Proof.
  intros Hst. induction 1 as [|L D N w c H IH Hc Hok Ht Hta|L D N w op rc sv H IH Hc Ha Hm E
    |L D N w rq a y H IH Hc Hrq Hk E Hta dn]; intros Hcl.
  - by eapply start_joint.
  - apply joint_queue; try done; [by apply IH|apply Hcl].
  - eapply joint_cache; try done; [by apply IH|apply Hcl].
  - specialize (IH Hc). pose proof (ji_nonce _ _ _ _ _ _ IH) as [En _]. unfold dn. rewrite En.
    by apply joint_atomic.
Qed.

End Histories.

End AtomicRun.
