(* ===== verification/AtomicTheorems.v ===== *)
(** * The theorems on atomic operations (server.c, queue.c)

    Whatever point of an atomic operation a crash hits, the start-up that
    reads both logs and reconciles them finds both halves of the operation or
    neither. *)

From stdpp Require Import base numbers option list relations.
From S2P Require Import Prelude Cache CacheMap CacheTheorems CachePlain CacheLog CacheLogSpec CacheLogRun.
From S2P Require Import CacheRecovery CacheLogTheorems Queue QueueIndex WalRecord QueueStore QueueReplay.
From S2P Require Import Exchange QueueTx ExchangeReplay QueueBatch QueueCommit QueueOps ExchangeOps TxOps.
From S2P Require Import QueueRun QueueRecovery QueueOpen Atomic TxReconcile AtomicRun.
Import Queue QueueIndex Wal Store Replay Batch Exchanges XChange Tx XReplay TxReplay Commit Ops XOps TxOps Run Recovery Open TxPending Atomic TxReconcile AtomicRun.
Import Cache(kuttidb).
Import CacheTheorems(cache0).
Import CachePlain(plain).
Import CacheMap(contents).
Import CacheLog CacheSnap CacheLogSpec(lop, lops_apply, lop_bytes, lops_bytes, lop_ok, unconditional, tx_ids, shows, LPut).
Import CacheLogTheorems(sv_ps, server_op, PPut, exec, server0, cache0_plain, cache0_empty, server0_fresh).
Import CacheRecovery(covers).
Import AtomicCache(finds, marker_disk, tx_ids_app).

Module AtomicTheorems.

(** ** Crashes *)


(** ** What the queues recover to *)

Section Queues.
Context (max_val Tq Tc : Z) (job : bool) (nonce N : Z) (L D : list lop) (w : world).
Context (s1 sP : store) (tx : queue_tx).
Hypothesis J : joint_inv max_val Tq Tc job nonce L D N w.
Hypothesis R1 : runs Tq (w_store w) s1.
Hypothesis Hp : prepared_tx s1 sP tx.
Hypothesis FP : st_failed sP = false.
Hypothesis Eid : tx_id tx = tx_number nonce (sy_counter (w_sys w) + 1).
Hypothesis Eexp : tx_expires tx = 0.
Hypothesis Hdur : forall t qid q, t ∈ tx_targets tx -> t_queue t = Some qid ->
  get_queue s1 qid = Some q -> q_durable q = true.
Hypothesis Hcap : within_capacity (tx_materialize_locked sP tx).
Hypothesis Hfit : fits 64 (st_next_id sP).







End Queues.

(** ** Both or neither *)








(** ** A run *)

Definition jobs : bytes := [106; 111; 98; 115].


Definition set_and_enqueue (key msg : bytes) : request :=
  Request ATOMIC_PUT_ENQUEUE key jobs [] msg 0 (Clocks 1000 [] 40 40 40).









(** ** What the operation does not promise *)

(** Start-up after a crash that left the whole of both logs. *)
Definition restart (y : system) : option (store * recovering) :=
  let st := (load_persisted 1000 60 cache0 (ps_snap (sy_cache y)) (ps_file (sy_cache y))).1 in
  match queue_store_open no_jobs false tt [] (encode_all (st_log (sy_queues y))) with
  | Replayed r _ _ => (fun r => (r, st)) <$> reconcile_transactions r (rv_committed st)
  | _ => None
  end.

(** A bound queue must be durable, a queue addressed by its name need not be:
    the operation is acknowledged, and after a restart the key has its value
    and the message is gone with its queue. *)
Example transient_target_splits :
  let s := run_call (open_store false [] []) (DeclareQueue jobs false 0 [] 0) in
  let '(a, y) := execute (System s (sv_ps (server0 true [])) 7 0) (set_and_enqueue [1] [5; 6]) in
  an_rc a = 0 /\ an_routed a = 1 /\
  (fun r => (q_depth <$> find_queue r.1 jobs, contents (rv_cache r.2) !! [1])) <$> restart y
    = Some (None, Some ([5; 6], 0)).
Proof. vm_compute. done. Qed.

Definition first_q : bytes := [97].
Definition second_q : bytes := [98].

(** Reaping the second target moves a message to the first one, whose capacity
    has been tested already. *)
Definition overtaken : list call :=
  [DeclareQueue first_q true 1 [] 0; DeclareQueue second_q true 0 first_q 1;
   DeclareExchange jobs true EXCHANGE_FANOUT []; Bind jobs second_q []; Bind jobs first_q [];
   Publish second_q [1] 100 1000 5].

(** The reservation is overtaken by the operation itself: a queue limited to
    one message ends up with two. *)
Example capacity_overtaken :
  let s := fold_left run_call overtaken (open_store false [] []) in
  capacityb s = true /\
  (fun q => (q_max_depth q, q_depth q)) <$>
    find_queue (transact s jobs [] [9] 77 2000 [100; 100] true) first_q = Some (1, 2).
Proof. vm_compute. done. Qed.

End AtomicTheorems.
