(* ===== verification/QueueTheorems.v ===== *)
(** * The queue store: main theorems

    Recovery, invariants and functional behaviour of the queue store in every
    reachable state, with concrete runs that meet the hypotheses, and concrete
    runs in which the code does not do what its comments say.

    Then, in [XTheorems]: exchanges: main theorems. *)

From stdpp Require Import base numbers option list relations.
From S2P Require Import Prelude Topic Queue QueueIndex WalRecord QueueStore QueueReplay Exchange.
From S2P Require Import ExchangeReplay QueueBatch QueueCommit QueueOps HeldLocks ExchangeOps QueueRun.
From S2P Require Import QueueSpec QueueRecovery QueueOpen.
Import Queue QueueIndex Wal Store Replay Batch Exchanges XChange XReplay Commit Ops XOps Run Spec.
Import Recovery Open.

Module QueueTheorems.

(** ** Concrete runs *)

Definition orders : bytes := [111; 114; 100].
Definition dead : bytes := [100; 101; 97; 100].
Definition worker : bytes := [119].

(** Two messages; the first is delivered to owner 7 under tag 1. *)
Definition demo_calls : list call :=
  [DeclareQueue orders true 10 [] 0; Register worker; Publish orders [1; 2; 3] 0 1000 5;
   Publish orders [4; 5] 500 1000 5; Consume orders 0 7 1001 6 6].

(** A queue with a dead-letter policy; one message in flight under tag 1. *)
Definition dlq_calls : list call :=
  [DeclareQueue orders true 0 dead 3; Publish orders [1; 2; 3] 0 1000 5; Consume orders 0 7 1001 6 6].

Definition store_of (cs : list call) : store :=
  default (open_store false [] []) (run_calls (open_store false [] []) cs).

Definition demo : store := store_of demo_calls.
Definition dlq_demo : store := store_of dlq_calls.

Lemma reached cs s : Forall (call_ok 2000) cs ->
  run_calls (open_store false [] []) cs = Some s -> reachable 2000 s.
Proof. apply run_calls_reachable. Qed.

(** Decides the arguments of concrete calls. *)
Ltac calls_ok :=
  repeat first [apply Forall_nil_2 | apply Forall_cons_2]; simpl; unfold fits; split_and?;
  first [apply bytes_okb_sound; reflexivity | done].

Lemma demo_history : history 2000 (open_store false [] []) demo_calls demo.
Proof. apply run_calls_history; [calls_ok|vm_compute; reflexivity]. Qed.

Lemma demo_reachable : reachable 2000 demo.
Proof. exists false, [], []. eapply history_steps, demo_history. Qed.

Lemma dlq_demo_reachable : reachable 2000 dlq_demo.
Proof. apply (reached dlq_calls); [calls_ok|vm_compute; reflexivity]. Qed.

(** The queue of each run. *)
Definition demo_queue : queue :=
  default (new_queue 0 0 [] false 0 [] 0) (find_queue demo orders).
Definition dlq_queue : queue :=
  default (new_queue 0 0 [] false 0 [] 0) (find_queue dlq_demo orders).

Definition dlq_message : message := default (message_create 0 0 []) (q_msgs dlq_queue !! 0%nat).

Lemma demo_find : find_queue demo orders = Some demo_queue.
Proof. vm_compute. reflexivity. Qed.

Lemma dlq_find : find_queue dlq_demo orders = Some dlq_queue.
Proof. vm_compute. reflexivity. Qed.

(** ** Recovery *)





(** C14. On any bytes whatsoever: if opening succeeds and cuts the file, the
    part cut off holds no intact record at any offset.  A record that passes
    its CRC but does not apply is refused, never discarded. *)
Theorem open_cuts_no_record {J} (h : job_hooks J) (job : bool) (e e' : J) (allocs : list bool)
    (p : bytes) (s : store) (good : Z) :
  queue_store_open h job e allocs p = Replayed s e' good ->
  exists kept cut, p = kept ++ cut /\ good = zlen kept /\ no_record cut.
Proof.
  intros H. apply replay_log_cut in H as (a & b & -> & -> & Hb). exists a, b. auto.
Qed.

Lemma open_cuts_no_record_witness : exists kept cut,
  encode_all (st_log demo) ++ [7; 7; 7] = kept ++ cut /\
  zlen (encode_all (st_log demo)) = zlen kept /\ no_record cut.
Proof.
  destruct (queue_store_open no_jobs false tt [] (encode_all (st_log demo) ++ [7; 7; 7]))
    as [s e' good| |] eqn:E; [|vm_compute in E; discriminate..].
  assert (G : good = zlen (encode_all (st_log demo))) by (vm_compute in E |- *; congruence).
  rewrite <- G. exact (open_cuts_no_record no_jobs false tt e' [] _ s good E).
Defined.

(** C33. Replay of any file terminates: the number of bytes bounds the rounds. *)
Theorem open_terminates {J} (h : job_hooks J) (job : bool) (e : J) (allocs : list bool)
    (p : bytes) : queue_store_open h job e allocs p <> OutOfFuel.
Proof. apply replay_log_terminates. lia. Qed.



(** ** Invariants *)

(** C17. After every run of calls that [covered] allows: names and pointers of
    queues are unique, and in every queue the depth, in-flight and TTL
    counters, the live bytes, the delivery-tag index, the earliest lease
    deadline and, without a delivery limit, the ready hint agree with the list
    of messages; identities and tags are below the next ones, identities are
    distinct, the depth is within the capacity. In these runs no allocation
    fails, and transactions leave their targets within capacity. *)
Theorem reachable_invariant (T : Z) (s : store) : reachable T s -> sinv s.
Proof. apply reachable_inv. Qed.

Lemma reachable_invariant_witness : sinv demo.
Proof. apply (reachable_invariant 2000 demo). exact demo_reachable. Defined.

(** Resolving a delivery tag through the hash index is a search of the
    message list, in every queue of every reachable store. *)
Theorem tag_index_is_search (T : Z) (s : store) (q : queue) (tag : Z) :
  reachable T s -> q ∈ st_queues s -> tag <> 0 ->
  tag_find q tag = position (fun m => m_tag m =? tag) (q_msgs q).
Proof.
  intros R Hq Ht. apply tag_find_position; [|done].
  pose proof (si_queues _ (proj1 (reachable_inv T s R))) as H. rewrite Forall_forall in H.
  by apply H.
Qed.

Lemma tag_index_is_search_witness :
  tag_find demo_queue 1 = position (fun m => m_tag m =? 1) (q_msgs demo_queue).
Proof.
  apply (tag_index_is_search 2000 demo demo_queue 1); [exact demo_reachable| |lia].
  apply (find_queue_In _ _ _ demo_find).
Defined.

(** ** Behaviour of the operations *)

(** C25. On a queue without a delivery limit, after a run of calls that
    [covered] allows, in which no allocation fails: queue_consume hands out
    the first message from the head that is ready and due, although its scan
    starts at the hint and maintains it; the message is leased to the owner
    under a fresh tag, its delivery count grows by one, and no other message
    changes. It returns nothing exactly when no message is due, and fails only
    when the log cannot be written. *)
Theorem consume_is_fifo (T : Z) (s s' : store) (name : bytes) (q : queue)
    (vis owner now mono mono2 rc : Z) (od : option delivery) :
  reachable T s -> now <= T -> find_queue s name = Some q -> unlimited q ->
  queue_consume_for_owner s name vis owner now mono mono2 = (rc, od, s') ->
  let s1 := reap_queue_locked s (q_lock_id q) now mono false in
  exists q1, live_at s1 (q_lock_id q) q1 /\
    consumed s' (q_lock_id q) q1 (st_next_tag s1) owner now rc od.
Proof. intros R HT. by apply (consume_spec T), (reachable_inv T). Qed.

Lemma consume_is_fifo_witness :
  let q := demo_queue in
  let '(rc, od, s') := queue_consume_for_owner demo orders 0 8 1002 7 7 in
  let s1 := reap_queue_locked demo (q_lock_id q) 1002 7 false in
  exists q1, live_at s1 (q_lock_id q) q1 /\
    consumed s' (q_lock_id q) q1 (st_next_tag s1) 8 1002 rc od.
Proof.
  intros q. destruct (queue_consume_for_owner demo orders 0 8 1002 7 7) as [[rc od] s'] eqn:E.
  apply (consume_is_fifo 2000 demo s' orders q 0 8 1002 7 7 rc od);
    [exact demo_reachable|lia|exact demo_find|left; reflexivity|exact E].
Defined.

(** queue_ack removes exactly the in-flight message that carries the tag
    and is held by the owner, after its record is on stable storage; it
    returns 0 and changes nothing when there is none, and -1 with the queue
    unchanged when the log cannot be written. *)
Theorem ack_settles (T : Z) (s s' : store) (name : bytes) (q : queue) (tag owner rc : Z) :
  reachable T s -> tag <> 0 -> find_queue s name = Some q ->
  queue_ack_for_owner s name tag owner = (rc, s') ->
  (rc = 0 /\ s' = s /\ forall i m, ~ holds q tag owner i m) \/
  exists i m, holds q tag owner i m /\
    ((rc = -1 /\ get_queue s' (q_lock_id q) = Some q /\ log_down s') \/
     (rc = 1 /\ get_queue s' (q_lock_id q) = Some (remove_message q i) /\
      (q_durable q = true -> flushed s'))).
Proof. intros R. by apply ack_spec, (reachable_inv T). Qed.

Lemma ack_settles_witness :
  let q := demo_queue in
  let '(rc, s') := queue_ack_for_owner demo orders 1 7 in
  (rc = 0 /\ s' = demo /\ forall i m, ~ holds q 1 7 i m) \/
  exists i m, holds q 1 7 i m /\
    ((rc = -1 /\ get_queue s' (q_lock_id q) = Some q /\ log_down s') \/
     (rc = 1 /\ get_queue s' (q_lock_id q) = Some (remove_message q i) /\
      (q_durable q = true -> flushed s'))).
Proof.
  intros q. destruct (queue_ack_for_owner demo orders 1 7) as [rc s'] eqn:E.
  apply (ack_settles 2000 demo s' orders q 1 7 rc); [exact demo_reachable|lia|exact demo_find|exact E].
Defined.

(** A delivery is settled at most once: after a successful
    acknowledgement the same tag is unknown, to every owner. *)
Theorem ack_at_most_once (T : Z) (s s' : store) (name : bytes) (tag owner owner' : Z) :
  reachable T s -> tag <> 0 -> queue_ack_for_owner s name tag owner = (1, s') ->
  queue_ack_for_owner s' name tag owner' = (0, s').
Proof.
  intros R Ht H. pose proof (reachable_inv T s R) as I.
  pose proof (queue_ack_runs T s name tag owner I) as Rn. rewrite H in Rn. simpl in Rn.
  pose proof (runs_inv _ _ _ Rn I) as I'.
  destruct (find_queue s name) as [q|] eqn:F.
  2:{ unfold queue_ack_for_owner in H. rewrite F in H. by destruct (tag =? 0). }
  pose proof (find_live _ _ _ (si_wf _ (proj1 I)) F) as L.
  destruct (ack_spec _ _ _ _ _ _ _ I Ht F H) as [([=] & _)|(i & m & Hh & [([=] & _)|(_ & G & _)])].
  assert (F' : find_queue s' name = Some (remove_message q i)).
  { pose proof (remove_message_config q i) as C. destruct (config_inv _ _ C) as (_ & N & _ & D & _).
    apply find_queue_In in F as (_ & F & E). rewrite <- E, <- N.
    apply wf_find; [apply I'|by apply get_queue_In in G as [? _]|congruence]. }
  destruct (queue_ack_for_owner s' name tag owner') as [rc s2] eqn:H2.
  destruct (ack_spec _ _ _ _ _ _ _ I' Ht F' H2) as [(-> & -> & _)|(j & m' & Hj & _)]; [done|].
  exfalso. destruct Hj as (Ej & Et & _). rewrite remove_message_msgs in Ej.
  pose proof (qi_tags _ _ _ (live_at_inv _ _ _ (proj1 I) L)) as Hok.
  destruct (decide (j < i)%nat).
  - rewrite list_lookup_delete_lt in Ej by done.
    pose proof (holds_unique _ _ _ _ _ _ _ Hok Ht Hh Ej Et). lia.
  - rewrite list_lookup_delete_ge in Ej by lia.
    pose proof (holds_unique _ _ _ _ _ _ _ Hok Ht Hh Ej Et). lia.
Qed.

Lemma ack_at_most_once_witness :
  let s' := snd (queue_ack_for_owner demo orders 1 7) in
  queue_ack_for_owner s' orders 1 7 = (0, s').
Proof.
  intros s'. apply (ack_at_most_once 2000 demo s' orders 1 7 7);
    [exact demo_reachable|lia|vm_compute; reflexivity].
Defined.

(** A requeueing queue_nack makes exactly the held message ready again,
    in its place, from the requested time on, with its identity, payload,
    expiry and delivery count, after its record is on stable storage; it
    returns 0 when nothing is held under the tag. *)
Theorem nack_requeues (T : Z) (s s' : store) (name : bytes) (q : queue)
    (tag owner delay now rc : Z) :
  reachable T s -> tag <> 0 -> find_queue s name = Some q ->
  queue_nack_for_owner_delay s name tag owner true delay now = (rc, s') ->
  (rc = 0 /\ s' = s /\ forall i m, ~ holds q tag owner i m) \/
  exists i m, holds q tag owner i m /\
    ((rc = -1 /\ get_queue s' (q_lock_id q) = Some q /\ log_down s') \/
     exists q', rc = 1 /\ live_at s' (q_lock_id q) q' /\
       returned q q' i m (if delay =? 0 then 0 else u64 (now + delay)) /\
       (q_durable q = true -> flushed s')).
Proof. intros R. by apply nack_requeue_spec, (reachable_inv T). Qed.

Lemma nack_requeues_witness :
  let q := demo_queue in
  let '(rc, s') := queue_nack_for_owner_delay demo orders 1 7 true 250 1002 in
  (rc = 0 /\ s' = demo /\ forall i m, ~ holds q 1 7 i m) \/
  exists i m, holds q 1 7 i m /\
    ((rc = -1 /\ get_queue s' (q_lock_id q) = Some q /\ log_down s') \/
     exists q', rc = 1 /\ live_at s' (q_lock_id q) q' /\
       returned q q' i m 1252 /\ (q_durable q = true -> flushed s')).
Proof.
  intros q. destruct (queue_nack_for_owner_delay demo orders 1 7 true 250 1002) as [rc s'] eqn:E.
  apply (nack_requeues 2000 demo s' orders q 1 7 250 1002 rc);
    [exact demo_reachable|lia|exact demo_find|exact E].
Defined.

(** Dead-lettering neither loses nor duplicates a message: either the
    source queue is unchanged, or the message has left it and is, as a fresh
    message with the same payload, at the tail of the dead-letter queue, which
    is created when it does not exist. *)
Theorem dead_letter_conserves (T : Z) (s s' : store) (qid : Z) (q : queue) (i : nat) (m : message)
    (clear_expiry held : bool) (r : Z) :
  reachable T s -> live_at s qid q -> q_msgs q !! i = Some m ->
  dead_letter_locked s qid i clear_expiry held = (r, s') ->
  (r <> 1 /\ get_queue s' qid = Some q) \/
  (r = 1 /\ get_queue s' qid = Some (remove_message q i) /\
   exists did dq' m' id, live_at s' did dq' /\ q_name dq' = q_dlq_name q /\
     q_msgs dq' = dlq_before s q ++ [m'] /\
     fresh id (if clear_expiry then 0 else m_expires m) (m_data m) m').
Proof. intros R. by apply dead_letter_moves, (reachable_inv T). Qed.

Lemma dead_letter_conserves_witness :
  let '(r, s') := dead_letter_locked dlq_demo (q_lock_id dlq_queue) 0 false false in
  (r <> 1 /\ get_queue s' (q_lock_id dlq_queue) = Some dlq_queue) \/
  (r = 1 /\ get_queue s' (q_lock_id dlq_queue) = Some (remove_message dlq_queue 0) /\
   exists did dq' m' id, live_at s' did dq' /\ q_name dq' = q_dlq_name dlq_queue /\
     q_msgs dq' = dlq_before dlq_demo dlq_queue ++ [m'] /\
     fresh id (m_expires dlq_message) (m_data dlq_message) m').
Proof.
  assert (L : live_at dlq_demo (q_lock_id dlq_queue) dlq_queue) by (split; vm_compute; reflexivity).
  assert (Em : q_msgs dlq_queue !! 0%nat = Some dlq_message) by (vm_compute; reflexivity).
  destruct (dead_letter_locked dlq_demo (q_lock_id dlq_queue) 0 false false) as [r s'] eqn:E.
  exact (dead_letter_conserves 2000 dlq_demo s' (q_lock_id dlq_queue) dlq_queue 0 dlq_message
    false false r dlq_demo_reachable L Em E).
Defined.

(** ** Where the code departs from its documentation *)

(** A store whose run is not constrained by [policy]. *)
Definition run_all (s : store) (cs : list call) : store := fold_left run_call cs s.

Definition opened (p : bytes) : replay_result := queue_store_open no_jobs false tt [] p.

(** The payloads of the live queue called [name]. *)
Definition payloads (s : store) (name : bytes) : option (list bytes) :=
  (fun q => m_data <$> q_msgs q) <$> find_queue s name.

(** queue_ack_batch on a queue with a dead-letter policy does not
    acknowledge: it routes the acknowledged messages to the dead-letter
    queue. *)
Theorem ack_batch_dead_letters :
  match queue_ack_batch dlq_demo orders 7 0 [1] with
  | SettledOk (rc, acked) s' =>
      rc = 0 /\ acked = 1 /\ payloads s' orders = Some [] /\
      payloads s' dead = Some [[1; 2; 3]]
  | SettledAbort => False
  end.
Proof. vm_compute. repeat split. Qed.

(** A durable queue whose dead-letter queue is transient: the rejected
    message leaves the queue without a record, so it is back after a restart
    although it was also routed. *)
Theorem transient_dlq_resurrects :
  let s := run_all (open_store false [] [])
    [DeclareQueue dead false 0 [] 0; DeclareQueue orders true 0 dead 3;
     Publish orders [1; 2; 3] 0 1000 5; Consume orders 0 7 1001 6 6;
     Nack orders 1 7 false 0 1002] in
  st_failed s = false /\ payloads s orders = Some [] /\ payloads s dead = Some [[1; 2; 3]] /\
  match opened (encode_all (st_log s)) with
  | Replayed r _ _ => payloads r orders = Some [[1; 2; 3]]
  | _ => False
  end.
Proof. vm_compute. repeat split. Qed.

(** When routing an exhausted message fails because the dead-letter
    queue is busy, the scan passes it; a later message is delivered and the
    ready hint moves behind the exhausted one.  It is then never considered
    again, although it is ready and due. *)
Theorem busy_dlq_strands_message :
  let s := run_all (open_store false [] [true; false])
    [DeclareQueue orders false 0 dead 1; Publish orders [1] 0 1000 5; Publish orders [2] 0 1000 5;
     Consume orders 0 7 1001 6 6; Nack orders 1 7 true 0 1001;
     Consume orders 0 7 1002 7 7] in
  match find_queue s orders with
  | Some q => first_due 1003 q = Some 0%nat /\
      fst (queue_consume_for_owner s orders 0 7 1003 8 8) = (0, None)
  | None => False
  end.
Proof. vm_compute. repeat split. Qed.

(** A torn record whose payload embeds the bytes of a record is taken
    for a trailing record: the store refuses to open instead of cutting the
    tail.  The payload is chosen by whoever publishes. *)
Theorem torn_payload_refused :
  let inner := {| r_op := LOG_ACK; r_durable := true; r_name := orders; r_id := 1; r_aux := 0;
                  r_data := [] |} in
  let outer := {| r_op := LOG_PUBLISH; r_durable := true; r_name := orders; r_id := 9; r_aux := 0;
                  r_data := encode inner ++ [0] |} in
  let torn := take (length (encode outer) - 1) (encode outer) in
  read_record true false torn = RCorrupt /\
  opened (encode_all (st_log demo) ++ torn) = Refused QUEUE_OPEN_TRAILING_RECORDS.
Proof. vm_compute. repeat split. Qed.

End QueueTheorems.

(** * Exchanges: main theorems

    Route resolution and publication through an exchange, in every reachable
    store; and what a binding beyond the limit does to the log. *)

Import Topic Queue Wal Store Replay Exchanges XChange XReplay Commit Ops Held XOps Run Open.
Import QueueTheorems.

Module XTheorems.

(** ** Concrete runs *)

Definition bids : bytes := [98; 105; 100; 115].
Definition news : bytes := [110; 101; 119; 115].
Definition rest : bytes := [114; 101; 115; 116].

(** Two queues behind a topic exchange with an alternate. *)
Definition topic_calls : list call :=
  [DeclareQueue orders true 0 [] 0; DeclareQueue bids false 2 [] 0;
   DeclareExchange rest true EXCHANGE_FANOUT []; DeclareExchange news true EXCHANGE_TOPIC rest;
   Bind news orders [97; 46; 35]; Bind news bids [42; 46; 98]; Bind rest bids [];
   PublishTo news [97; 46; 98] [1; 2] 0 1000 [5; 5]].

Definition topic_demo : store := store_of topic_calls.

Lemma topic_demo_reachable : reachable 2000 topic_demo.
Proof. apply (reached topic_calls); [calls_ok|vm_compute; reflexivity]. Qed.

Definition topic_exchange : exchange :=
  default (new_exchange [] false 0 []) (find_exchange topic_demo news).

Lemma topic_find : find_exchange topic_demo news = Some topic_exchange.
Proof. vm_compute. reflexivity. Qed.

(** ** Routing *)

(** C28. Resolving a key at an exchange that exists succeeds, with every
    target once: the queues that the exchange's own bindings route the key to,
    and when there is none of those, the queues of its alternate exchange if
    that exists.  Only one such hop is made. *)
Theorem resolve_exact (T : Z) (s : store) (name key : bytes) (x : exchange) :
  reachable T s -> find_exchange s name = Some x ->
  exists ts, exchange_resolve_locked s name key (Z.to_nat EXCHANGE_BINDINGS_MAX) = Some ts /\
    NoDup ts /\
    forall t, t ∈ ts <->
      routes s (x_type x) key (x_bindings x) t \/
      (~ (exists t', routes s (x_type x) key (x_bindings x) t')) /\
      exists y, find_exchange s (x_ae_name x) = Some y /\
        routes s (x_type y) key (x_bindings y) t.
Proof.
  intros Hr F. destruct (reachable_rooms T s Hr) as [I X].
  set (max := Z.to_nat EXCHANGE_BINDINGS_MAX).
  assert (Hc : forall n y, find_exchange s n = Some y -> n <> [] /\
    forall t, t ∈ collect_targets s (x_type y) key max (x_bindings y) [] <->
              routes s (x_type y) key (x_bindings y) t).
  { intros n y Fy. destruct (found_exchange s n y I X Fy) as ([[_ Hn] _ Hcount] & [Hroom _] & En).
    split; [intros ->; rewrite En in Hn; by destruct Hn|]. intros t. split.
    - intros [?%not_elem_of_nil|?]%collect_targets_sound; done.
    - intros Ht. apply collect_targets_complete; [|by right]. simpl. unfold max, zlen in *. lia. }
  destruct (Hc name x F) as [Hne Hx].
  assert (Hl : (zlen name =? 0) = false) by (by destruct name).
  unfold exchange_resolve_locked, resolve_one. rewrite Hl, F.
  destruct (collect_targets s (x_type x) key max (x_bindings x) []) as [|t0 ts] eqn:Ec.
  2:{ eexists. split; [done|]. split; [rewrite <- Ec; apply collect_targets_nodup, NoDup_nil_2|].
      intros t. rewrite Hx. split; [by left|]. intros [?|[Hno _]]; [done|].
      destruct Hno. exists t0. apply Hx. by left. }
  assert (Hno : ~ exists t', routes s (x_type x) key (x_bindings x) t').
  { intros [t Ht%Hx]. by apply not_elem_of_nil in Ht. }
  assert (Hsplit : forall P : Z -> Prop, (forall t, P t <-> exists y, find_exchange s (x_ae_name x) = Some y /\
      routes s (x_type y) key (x_bindings y) t) -> forall t, P t <->
      routes s (x_type x) key (x_bindings x) t \/
      (~ (exists t', routes s (x_type x) key (x_bindings x) t')) /\
      exists y, find_exchange s (x_ae_name x) = Some y /\ routes s (x_type y) key (x_bindings y) t).
  { intros P HP t. rewrite HP. split; [by auto|]. intros [?|[_ ?]]; [destruct Hno; eauto|done]. }
  destruct (find_exchange s (x_ae_name x)) as [y|] eqn:Fa.
  - destruct (Hc _ y Fa) as [Hna Hy]. assert ((zlen (x_ae_name x) =? 0) = false) as -> by (by destruct (x_ae_name x)).
    eexists. split; [done|]. split; [apply collect_targets_nodup, NoDup_nil_2|].
    apply Hsplit. intros t. rewrite Hy. split; [eauto|]. by intros (y' & [= <-] & ?).
  - exists []. split; [by gcase|]. split; [apply NoDup_nil_2|]. apply Hsplit. intros t.
    split; [by intros ?%not_elem_of_nil|]. by intros (y' & ? & _).
Qed.

Lemma resolve_exact_witness :
  exists ts, exchange_resolve_locked topic_demo news [97; 46; 98] (Z.to_nat EXCHANGE_BINDINGS_MAX) = Some ts /\
    NoDup ts /\
    forall t, t ∈ ts <->
      routes topic_demo (x_type topic_exchange) [97; 46; 98] (x_bindings topic_exchange) t \/
      (~ (exists t', routes topic_demo (x_type topic_exchange) [97; 46; 98] (x_bindings topic_exchange) t')) /\
      exists y, find_exchange topic_demo (x_ae_name topic_exchange) = Some y /\
        routes topic_demo (x_type y) [97; 46; 98] (x_bindings y) t.
Proof.
  exact (resolve_exact 2000 topic_demo news [97; 46; 98] topic_exchange topic_demo_reachable topic_find).
Defined.

(** ** Publishing *)

(** C11. A publication through an exchange, after a run of calls that
    [covered] allows and with memory that suffices, reaches all its targets or
    none. When it reports success, each queue the key resolves to has the
    message at its tail, under a new identity and with the requested expiry,
    and the count is the number of those queues. When it reports failure
    although the log still accepts records, each of those queues has only lost
    messages. *)
Theorem publish_all_or_none (T : Z) (s : store) (name key data : bytes) (ttl now : Z)
    (monos : list Z) (rc n : Z) (s' : store) :
  reachable T s -> now <= T -> bytes_ok data ->
  exchange_publish s name key data ttl now monos = (rc, n, s') ->
  (rc = 0 -> exists ts,
     exchange_resolve_locked s name key (Z.to_nat EXCHANGE_BINDINGS_MAX) = Some ts /\
     n = zlen ts /\ forall t, t ∈ ts -> exists q' m, live_at s' t q' /\
       last (q_msgs q') = Some m /\ st_next_id s <= m_id m /\
       m_expires m = (if ttl =? 0 then 0 else u64 (now + ttl)) /\ m_data m = data) /\
  (rc <> 0 -> log_down s' \/ forall ts t q',
     exchange_resolve_locked s name key (Z.to_nat EXCHANGE_BINDINGS_MAX) = Some ts ->
     t ∈ ts -> get_queue s' t = Some q' ->
     exists q, get_queue s t = Some q /\ (m_id <$> q_msgs q') `sublist_of` (m_id <$> q_msgs q)).
Proof.
  intros Hr HT Hb E. apply (exchange_publish_spec T) in E as (_ & Hok & Hbad); try done;
    [|by eapply reachable_inv]. split.
  - intros Hrc. destruct (Hok Hrc) as (ts & ? & ? & [F]). eauto.
  - intros Hrc. destruct (Hbad Hrc) as [?|U]; [by left|right]. intros ts t q' Hts. by apply (U ts).
Qed.

(** The second message to [bids] fits; a third does not. *)
Lemma publish_all_or_none_witness :
  let r := exchange_publish topic_demo news [97; 46; 98] [3] 0 1001 [6; 6] in
  fst (fst r) = 0 /\ snd (fst r) = 2 /\
  (fst (fst r) = 0 -> exists ts,
     exchange_resolve_locked topic_demo news [97; 46; 98] (Z.to_nat EXCHANGE_BINDINGS_MAX) = Some ts /\
     snd (fst r) = zlen ts /\ forall t, t ∈ ts -> exists q' m, live_at (snd r) t q' /\
       last (q_msgs q') = Some m /\ st_next_id topic_demo <= m_id m /\
       m_expires m = 0 /\ m_data m = [3]).
Proof.
  split; [vm_compute; reflexivity|]. split; [vm_compute; reflexivity|].
  destruct (exchange_publish topic_demo news [97; 46; 98] [3] 0 1001 [6; 6]) as [[rc n] s'] eqn:E.
  apply (publish_all_or_none 2000 topic_demo news [97; 46; 98] [3] 0 1001 [6; 6] rc n s');
    [exact topic_demo_reachable|lia|apply bytes_okb_sound; reflexivity|exact E].
Defined.

(** ** The limit on bindings *)

(** An exchange with [n] bindings of one queue. *)
Definition bound_calls (n : nat) : list call :=
  DeclareQueue orders true 0 [] 0 :: DeclareExchange news true EXCHANGE_DIRECT [] ::
  ((fun i => Bind news orders [Z.of_nat i / 256; Z.of_nat i mod 256]) <$> seq 0 n).

Definition full_exchange : store :=
  fold_left run_call (bound_calls (Z.to_nat EXCHANGE_BINDINGS_MAX)) (open_store false [] []).

(** Binding beyond the limit fails after its record has been written and
    synchronised: the call returns an error, and the log of the store can no
    longer be opened, since replay meets the same limit. *)
Theorem bind_at_cap_breaks_log :
  let r := exchange_bind full_exchange news orders [255; 255; 255] in
  fst r = -1 /\ st_failed (snd r) = false /\
  length (st_log (snd r)) = S (length (st_log full_exchange)) /\
  replay_records (empty_store false true [] [] []) (st_log full_exchange) <> None /\
  replay_records (empty_store false true [] [] []) (st_log (snd r)) = None.
Proof. vm_compute. by repeat split. Qed.

End XTheorems.
